(* ===== verification/_CoqProject ===== *)
-Q . S2P
Prelude.v
IoModel.v
Paths.v
Datablob.v
Catalog.v
CatalogTree.v
Transport.v
DynIndex.v
ArchiveWriter.v
ChunkReader.v
PxarFormat.v
GoodbyeTree.v
PxarEncoder.v
PxarTree.v
PxarDecoder.v
PxarRoundtrip.v
PxarAccessor.v
PxarLookup.v
AsyncIo.v
Utf8.v
Text.v
Json.v
Placeholders.v
Properties.v
DiskUsage.v
UsageTree.v
SshLimiter.v
ServerState.v
Permissions.v
Effects.v
CapFs.v
ConfigFiles.v
CapWalk.v
Quota.v
ServerFile.v
AsyncServerFile.v
FsOps.v
Entries.v
VirtualFs.v
Mounts.v
ZipFs.v
Extract.v
ExtractSafety.v
Lines.v
Ranges.v
Throttle.v
Revisions.v
Schedules.v
ScheduleManager.v
Collab.v
Tokens.v
Activity.v
Websocket.v
Lifecycle.v
LifecycleSafety.v
Backups.v
Sftp.v
SftpExtended.v
SftpSafety.v
SftpHandles.v
SftpData.v
