(* ===== verification/Prelude.v ===== *)
(** * Verification of Wings in Rust: header of the development

    The program is the daemon of a game-server panel: it runs servers in
    containers, gives their owners access to the files over HTTP, SFTP and a
    websocket, meters disk space, and backs servers up, among others to a
    Proxmox Backup Server (PBS) through its own client library.  The
    development models the client library ([pbs-client/src]) nearly whole,
    and of the daemon ([application/src]) the parts that hold state or decide
    something: files, space, limits, permissions, power actions, streams.

    ** Files

    Shared: [Prelude] (lists indexed by [Z], machine integers, little-endian
    fields, the error monad and the state-and-error monad [stt], automation),
    [IoModel] (the traits of [std::io] as classes with laws), [AsyncIo] (polled
    readers and awaiting them), [Paths] and [Utf8] ([std::path] and [str] on
    raw bytes), [Text] (strings as characters), [Json] (serde_json's values),
    [Effects] (programs over an interface of calls).

    The PBS client, bottom up:
    - [Datablob] (datablob.rs): blobs; [Catalog], [CatalogTree] (catalog.rs):
      the catalog writer and parser, and the directory trees they stand for;
    - [PxarFormat] (pxar/format.rs), [GoodbyeTree]: headers, metadata and the
      search tree of a directory's table; [PxarEncoder], [PxarDecoder],
      [PxarAccessor] (pxar/encoder.rs, decoder.rs, accessor.rs): the three
      machines over archives; [PxarTree], [PxarRoundtrip], [PxarLookup]: file
      trees as their specification;
    - [Transport] (h2.rs): the requests of a session as a class, with what a
      lawful and what a reliable session is; [DynIndex] (reader.rs,
      manifest.rs): indexes; [ArchiveWriter] (writer.rs): the upload;
      [ChunkReader] (accessor.rs): reads at any offset, through a cache.

    The daemon:
    - [DiskUsage], [UsageTree] (server/filesystem/usage.rs): the tree of
      directory sizes, and its specification as maps;
    - [CapFs], [CapWalk] (server/filesystem/cap): the sandbox and the walks;
    - [Quota], [ServerFile], [AsyncServerFile], [FsOps] (server/filesystem,
      io/mod.rs): operations that move the counters of a server;
    - [Entries] (models.rs, utils.rs, server/filesystem/mod.rs): the entries of
      a listing, how they are classified, ordered and cut into pages;
    - [VirtualFs], [Mounts] (server/filesystem/virtualfs/cap.rs, mount.rs,
      functions.rs, server/filesystem/mod.rs and the routes that delete, rename
      and create): filters, file systems over a sandbox, mounted directories
      and which file system a path lies in; [ZipFs]
      (virtualfs/archive/zip.rs): zip archives browsed as directories;
    - [Extract], [ExtractSafety] (server/filesystem/archive/mod.rs): archives
      of every format unpacked into a server, through [PxarDecoder] for pxar;
    - [Backups] (server/backup, its routes): the manager of backups, over the
      programs of [Lifecycle], the dispatch to the adapters, and the small
      operations of the adapter that keeps archives in a directory;
    - [Revisions] (server/diff/storage.rs, manager.rs): the history of edited
      files;
    - [Sftp], [SftpExtended] (ssh/sftp/mod.rs, extended.rs): the requests of an
      SFTP session, over the limiter of its handles; [SftpSafety],
      [SftpHandles], [SftpData]: what they may touch, what they hold and charge,
      and what they tell;
    - [SshLimiter] (ssh/limiter.rs), [ServerState] (server/state.rs),
      [Permissions] (server/permissions.rs), [Tokens] (remote/jwt.rs);
    - [Placeholders], [Properties], [ConfigFiles]
      (server/configuration/process): the configuration files of the process
      that are rewritten before a start;
    - [Schedules], [ScheduleManager] (server/schedule): conditions, the
      executor and its actions; triggers and the turns of the executors;
    - [Collab] (server/collab): shared editing, as a heap of sessions;
    - [Activity] (server/activity.rs): the log that is sent to the panel;
    - [Websocket] (server/websocket): the connection of a client, over the
      interface [ServerWorld] of the server behind it;
    - [Lifecycle] (server/mod.rs, server/manager.rs): power actions, the tasks
      that watch a server and its process, crash detection; [LifecycleSafety]:
      what holds in every interleaving of them;
    - [Lines] (io/line_buffer.rs, io/tail.rs), [Ranges] (io/range_reader.rs,
      io/fixed_reader.rs, server/filesystem/virtualfs/mod.rs,
      routes/download/file.rs), [Throttle] (io/limited_reader.rs,
      io/limited_writer.rs): readers and writers between the daemon and its
      clients.

    ** Conventions

    Bytes are [Z] in lists; [u64] arithmetic that can overflow is written with
    [+u], [-u], [checked_add] and the like; lengths of lists in memory are
    below [2 ^ 64] by assumption where it matters.  A method is a function of
    its receiver: [stt S E A] is [S -> result E A * S], so what a failing call
    leaves behind is visible.  Code generic over a trait is generic over the
    class; the theorems hold for every lawful instance, readers may return
    short reads and polled ones may be pending.  Code that calls the operating
    system is a program whose calls are answered arbitrarily ([all_calls],
    [wp]), or by a handler that runs a tree of files ([run]).  Code that runs
    concurrently is a step relation over the shared state and the places of
    the tasks ([SshLimiter], [ServerState], [Tokens], [ScheduleManager],
    [Collab], [Websocket]: a step is a stretch between awaits), a pool of
    programs that advance by one call at a time ([Lifecycle], the workers of
    [Extract]), or a program whose future can be polled and dropped at any
    point ([AsyncServerFile]).  The crates sha2, crc32fast, zstd, siphasher,
    blake3, hex, ignore, yrs, ini_roundtrip, jsonwebtoken, regex, cron, infer,
    mime_guess, uuid, chrono, russh_sftp, the digests and cap_std are parameters; tar, zip,
    sevenz_rust2 and unrar are taken as the entries they yield, moka as a map
    that may forget, SQLite at the meaning of the statements.  An unstable sort
    is taken as a stable one.

    ** Theorems

    - Round trips and formats: an archive that is encoded decodes to its tree,
      with any reads of the contents; the accessor finds exactly the paths of
      the tree (where three names of a directory share a hash it may miss one)
      and reads contents in place; the table of a directory is searched correctly; catalogs, blobs and integers are read back; what
      parsers accept is characterised, as are the limits they enforce.
    - Upload and download: the exact requests an upload makes, which chunks it
      sends, and that what was uploaded is what is restored; the cache is LRU
      and never changes what a read returns; query strings are injective.
    - Space: the tree of sizes accounts for what each directory holds itself, and
      each operation changes exactly that of the directories it is made for;
      copies, blocking and polled files charge the quota what they write (files
      that are also read may miss some), and copies end; the counters stay
      within the limit; writes over SFTP charge what the file grows by.
    - Isolation and limits: no operation reaches a path outside the sandbox;
      walks visit exactly the tree; handles, sessions, rates are bounded under
      every interleaving; a permission is only found where it was granted.
      What writes stays in the mount it was resolved to, and read-only mounts
      refuse it; what is unpacked stays in the sandbox and is checked against the
      denylist under the path it is unpacked to; every request over SFTP is
      checked for its path and permission, and an open handle is one that the
      limiter has counted.
    - Listings and archives: listings show the entries and the mounts, each
      once, and the pages of a listing make up the whole; the directories of a
      zip archive are those of its entries' paths; an unpacked tar archive is
      complete; the workers on a zip archive take every entry once; a directory
      read over SFTP is told whole, and checksums are of the bytes asked for.
    - Backups: restores and creations settle, with the lock given back and the
      panel told, whatever fails on the way but the reading of the ignore rules
      of a creation; a backup that is found is the one
      that was asked for.
    - Power actions: they exclude each other, go back to the earlier state when they fail,
      make progress and end with the lock free; announcements do not repeat;
      a process is only started under the lock, after the clean-up of the old one,
      which may have failed;
      restarts after crashes are as far apart as configured.
    - File history: every stored revision is reconstructed through its chain
      of deltas, whatever was edited, deleted, renamed or dropped.
    - Configuration files: what an update stores, whatever the operating system
      answers, is what the parsers make of what was read; replacements land in properties and INI files and the other
      pairs are kept; placeholders never show the secrets of the daemon.
    - Schedules: a run executes a structured list of actions as its blocks
      say; an update leaves exactly the configured schedules; a usage trigger
      fires when its condition has held for its duration.
    - Shared editing: sessions, connections and participants agree; unsaved
      edits are lost only where that is asked for, or when everybody has left; a save never overwrites a
      file that changed on disk unless it is forced.
    - Clients: every act of a connection is covered by a valid token and its
      permissions; which events listeners pass on to whom; a token is not used
      more often than allowed; every activity is sent or was in a batch that the
      panel refused.
    - Streams: lines and last lines do not depend on how the input is cut;
      ranged downloads have the announced bytes; limited readers and writers
      keep their rate.

    Other theorems exhibit behaviour that departs from what the code means to
    do: [GoodbyeTree.bst_search_misses_third], [ServerState.revert_is_stale],
    [Permissions.fresh_permissions_expire], [FsOps.rename_path_counts],
    [AsyncServerFile.dropped_allocation_counts_twice],
    [CapFs.closed_file_system], [Ranges.suffix_range_is_a_prefix],
    [Ranges.content_range_overstates], [Revisions.per_file_budget_unused],
    [ScheduleManager.removed_triggers_keep_running],
    [ScheduleManager.tasks_restart_on_update], [Collab.overflow_poisons_session],
    [Collab.rebuilt_document_passes_for_saved],
    [Collab.failed_subscribe_keeps_session],
    [Properties.astral_characters_are_lost], [Properties.escaped_keys_are_lost],
    [Properties.leading_spaces_are_lost], [ConfigFiles.other_encodings_are_lost],
    [ConfigFiles.ini_split_section], [Tokens.denied_token_returns],
    [Activity.leftover_waits], [Activity.merged_addresses],
    [Activity.refused_batch_is_lost], [LifecycleSafety.failed_removal_is_ignored],
    [ServerFile.reads_hide_growth], [ZipFs.file_and_directory_clash],
    [Collab.first_subscription_is_unchecked], [Collab.teardown_discards_edits],
    [SftpData.far_write_fills_quota], [SftpData.refused_open_truncates],
    [SftpData.readlink_answers_a_name], [SftpData.unlimited_space_is_unknown],
    [Websocket.broadcasts_reach_strangers], [Websocket.removals_are_missed],
    [LifecycleSafety.kill_hides_next_crash], [LifecycleSafety.suspended_server_starts],
    [LifecycleSafety.refused_stop_undoes_stop],
    [Mounts.failed_mount_redirects_deletion], [Mounts.siblings_of_allowed_mounts],
    [Mounts.delete_takes_the_root], [Mounts.other_spellings_are_the_root],
    [Mounts.rootless_directories_are_chowned], [Mounts.page_zero_is_empty],
    [ZipFs.unreadable_entry_ends_walk], [ZipFs.nested_names_are_cut_twice],
    [ExtractSafety.rar_passes_by_denylist],
    [ExtractSafety.single_file_passes_by_denylist],
    [ExtractSafety.dotdot_passes_by_denylist],
    [ExtractSafety.denied_directory_is_filled], [Backups.restores_overlap],
    [Backups.browse_opens_twice], [Backups.progress_is_reported_forever],
    [Backups.deleted_backup_is_found],
    [Backups.cached_backup_of_another_adapter],
    [Backups.failing_adapter_hides_others].

    ** Fuel

    Loops that are not structural take fuel, and each has a lemma that enough
    fuel gives the result: [read_to_end], [tail_stream_loop] and the copies
    need one more than the bytes that are left (a turn takes at least one),
    [next_loop] of the decoder one per open directory, the walks a turn for
    every entry and two for every folder, [dec_skip_loop] and [drain] one per
    piece, [shrink_loop] one per row, [copy_shared] of [Extract] one more than
    the reads of the contents, and its [write_fuel] one per byte of the buffer,
    [pxar_loop] and [readdir_loop] one more than the entries, [hash_loop] one more
    than the bytes.  [Quota] marks a run that ran out of fuel
    by an event of its own, which [cwp] rules out.

    ** Plan and what is not modelled

    Next: the archives of 7z and pxar that are browsed rather than unpacked,
    the chunk and archive logic of the PBS backup adapter and the repositories
    of the others, the validation of PBS configurations, the remaining actions
    of schedules.  Not modelled, because it is
    input and output around third-party code: the HTTP/2 and REST connections,
    the Docker API, the log-in, shell and commands of SSH, archive formats of other crates, the
    editing of JSON, YAML, TOML and XML documents, disk limiters that
    call external programs, command line and start-up, the bindings in
    [unrar-rs].  [run_multithreaded] of the walks, the background scan of a
    server's disk and [wait_for_state] are not modelled either. *)
From Stdlib Require Export ZArith Lia.
From stdpp Require Export base tactics list gmap strings numbers.

#[export] Set Default Goal Selector "!".
#[export] Set Warnings "-register-all,-level-tolerance,-clear-no-such-hyp".

Declare Scope wings_scope.
Delimit Scope wings_scope with wings.
#[global] Open Scope Z_scope.
#[global] Open Scope wings_scope.

(** ** Machine integers

    [u64] and [usize] (64-bit targets) are [Z] in [0, 2^64); [i64] is [Z] in
    [-2^63, 2^63).  The release profile of the workspace compiles without
    overflow checks, so plain [+], [-], [*] wrap around. *)

Definition in_u64 (z : Z) : Prop := 0 <= z < 2 ^ 64.
Definition in_i64 (z : Z) : Prop := - 2 ^ 63 <= z < 2 ^ 63.
Definition in_u32 (z : Z) : Prop := 0 <= z < 2 ^ 32.
Definition U64_MAX : Z := 2 ^ 64 - 1.

Definition wrap64 (z : Z) : Z := z mod 2 ^ 64.
Definition as_i64 (z : Z) : Z :=
  let w := z mod 2 ^ 64 in if w <? 2 ^ 63 then w else w - 2 ^ 64.
Definition as_u8 (z : Z) : Z := z mod 256.

Definition u64_add (a b : Z) : Z := wrap64 (a + b).
Definition u64_sub (a b : Z) : Z := wrap64 (a - b).
Definition u64_mul (a b : Z) : Z := wrap64 (a * b).
Definition checked_add (a b : Z) : option Z :=
  if a + b <? 2 ^ 64 then Some (a + b) else None.
Definition checked_sub (a b : Z) : option Z :=
  if b <=? a then Some (a - b) else None.
Definition saturating_add (a b : Z) : Z := Z.min (a + b) U64_MAX.
Definition saturating_sub (a b : Z) : Z := Z.max (a - b) 0.
(** [usize::try_from] of a [u64] on a 64-bit target. *)
Definition usize_try_from (z : Z) : option Z := if z <? 2 ^ 64 then Some z else None.

Notation "a +u b" := (u64_add a b) (at level 50, left associativity) : wings_scope.
Notation "a -u b" := (u64_sub a b) (at level 50, left associativity) : wings_scope.

Lemma wrap64_small z : in_u64 z → wrap64 z = z.
Proof. intros H. apply Z.mod_small, H. Qed.

Lemma wrap64_range z : in_u64 (wrap64 z).
Proof. unfold in_u64, wrap64. apply Z.mod_pos_bound. lia. Qed.

Lemma u64_add_small a b : in_u64 (a + b) → a +u b = a + b.
Proof. apply wrap64_small. Qed.

Lemma u64_sub_small a b : in_u64 (a - b) → a -u b = a - b.
Proof. apply wrap64_small. Qed.

Lemma u64_mul_small a b : in_u64 (a * b) → u64_mul a b = a * b.
Proof. apply wrap64_small. Qed.

Lemma checked_add_small a b : a + b < 2 ^ 64 → checked_add a b = Some (a + b).
Proof. intros H. unfold checked_add. destruct (Z.ltb_spec (a + b) (2 ^ 64)); [done | lia]. Qed.

Lemma checked_sub_small a b : b <= a → checked_sub a b = Some (a - b).
Proof. intros H. unfold checked_sub. destruct (Z.leb_spec b a); [done | lia]. Qed.

Lemma usize_try_from_small z : z < 2 ^ 64 → usize_try_from z = Some z.
Proof. intros H. unfold usize_try_from. destruct (Z.ltb_spec z (2 ^ 64)); [done | lia]. Qed.

Lemma as_i64_wrap z : in_i64 z → as_i64 (wrap64 z) = z.
Proof.
  unfold in_i64, as_i64, wrap64. intros H. rewrite Z.mod_mod by lia.
  destruct (Z.leb_spec 0 z).
  - rewrite Z.mod_small by lia. destruct (Z.ltb_spec z (2 ^ 63)); lia.
  - replace (z mod 2 ^ 64) with (z + 2 ^ 64).
    + destruct (Z.ltb_spec (z + 2 ^ 64) (2 ^ 63)); lia.
    + symmetry. replace z with (z + 2 ^ 64 + (-1) * 2 ^ 64) at 1 by lia.
      rewrite Z.mod_add by lia. apply Z.mod_small. lia.
Qed.

Lemma as_i64_id z : in_i64 z → as_i64 z = z.
Proof. intros H. rewrite <- (as_i64_wrap z H) at 2. unfold as_i64, wrap64. by rewrite Z.mod_mod by lia. Qed.

Lemma as_i64_range z : in_i64 (as_i64 z).
Proof.
  unfold in_i64, as_i64. pose proof (Z.mod_pos_bound z (2 ^ 64) ltac:(lia)). destruct (Z.ltb_spec (z mod 2 ^ 64) (2 ^ 63)); lia.
Qed.

(** Splits the boolean integer tests of the code, in the goal and in the
    hypotheses, into the facts they decide. *)
Ltac case_Z :=
  repeat match goal with
  | |- context [?a <? ?b] => destruct (Z.ltb_spec a b)
  | |- context [?a <=? ?b] => destruct (Z.leb_spec a b)
  | |- context [?a =? ?b] => destruct (Z.eqb_spec a b)
  | H : context [?a <? ?b] |- _ => destruct (Z.ltb_spec a b)
  | H : context [?a <=? ?b] |- _ => destruct (Z.leb_spec a b)
  | H : context [?a =? ?b] |- _ => destruct (Z.eqb_spec a b)
  end.

(** ** Results and the state-and-error monad

    [result E A] is Rust's [Result<A, E>].  A method on [&mut self] is a
    function of the state; the state it leaves behind is kept on the error
    path too, because the caller of the Rust method still owns the object. *)

Inductive result (E A : Type) : Type :=
  | Ok (a : A)
  | Err (e : E).
Arguments Ok {E A} _.
Arguments Err {E A} _.

#[global] Instance result_ret {E} : MRet (result E) := λ A a, Ok a.
#[global] Instance result_bind {E} : MBind (result E) := λ A B f m,
  match m with Ok a => f a | Err e => Err e end.
#[global] Instance result_fmap {E} : FMap (result E) := λ A B f m,
  match m with Ok a => Ok (f a) | Err e => Err e end.

Definition ok_or {E A} (o : option A) (e : E) : result E A :=
  match o with Some a => Ok a | None => Err e end.
Definition map_err {E F A} (f : E → F) (r : result E A) : result F A :=
  match r with Ok a => Ok a | Err e => Err (f e) end.
Definition is_ok {E A} (r : result E A) : bool :=
  match r with Ok _ => true | Err _ => false end.
Definition result_ok {E A} (r : result E A) : option A :=
  match r with Ok a => Some a | Err _ => None end.

Definition stt (S E A : Type) : Type := S → result E A * S.

#[global] Instance stt_ret {S E} : MRet (stt S E) := λ A a s, (Ok a, s).
#[global] Instance stt_bind {S E} : MBind (stt S E) := λ A B f m s,
  match m s with (Ok a, s') => f a s' | (Err e, s') => (Err e, s') end.

Definition get_state {S E} : stt S E S := λ s, (Ok s, s).
Definition put_state {S E} (s : S) : stt S E unit := λ _, (Ok tt, s).
Definition modify {S E} (f : S → S) : stt S E unit := λ s, (Ok tt, f s).
Definition throw {S E A} (e : E) : stt S E A := λ s, (Err e, s).
(** The [?] operator on a result computed without touching the state. *)
Definition lift {S E A} (r : result E A) : stt S E A := λ s, (r, s).

(** Runs a method of a field of the state. *)
Definition zoom {S T E A} (get : S → T) (set : T → S → S) (m : stt T E A) : stt S E A :=
  λ s, let '(r, t) := m (get s) in (r, set t s).

(** A [for] loop whose body may return early with an error. *)
Definition foreach {S E A} (f : A → stt S E unit) : list A → stt S E unit :=
  fix go l :=
    match l with
    | [] => mret tt
    | x :: l => f x ≫= λ _, go l
    end.

Lemma stt_bind_ok {S E A B} (m : stt S E A) (f : A → stt S E B) s a s' :
  m s = (Ok a, s') → (m ≫= f) s = f a s'.
Proof. intros H. unfold mbind, stt_bind. by rewrite H. Qed.

Lemma stt_bind_err {S E A B} (m : stt S E A) (f : A → stt S E B) s e s' :
  m s = (Err e, s') → (m ≫= f) s = (Err e, s').
Proof. intros H. unfold mbind, stt_bind. by rewrite H. Qed.

Lemma stt_bind_inv {S E A B} (m : stt S E A) (f : A → stt S E B) s b s'' :
  (m ≫= f) s = (Ok b, s'') → ∃ a s', m s = (Ok a, s') ∧ f a s' = (Ok b, s'').
Proof. unfold mbind, stt_bind. destruct (m s) as [[a | e] s'] eqn:E'; naive_solver. Qed.

Lemma foreach_app {S E A} (f : A → stt S E unit) l1 l2 s :
  foreach f (l1 ++ l2) s = (foreach f l1 ≫= λ _, foreach f l2) s.
Proof.
  revert s. induction l1 as [| x l1 IH]; intros s; [done |].
  cbn. unfold mbind, stt_bind. destruct (f x s) as [[[] | e] s']; [apply IH | done].
Qed.

Lemma foreach_inv {S E A} (I : S → Prop) (f : A → stt S E unit) l :
  (∀ x s, I s → I (snd (f x s))) → ∀ s, I s → I (snd (foreach f l s)).
Proof.
  intros Hf. induction l as [| x l IH]; intros s Hs; [done |]. cbn.
  unfold mbind, stt_bind. specialize (Hf x s Hs). destruct (f x s) as [[[] | e] s']; [by apply IH | done].
Qed.

Lemma foreach_ext {S E A} (f g : A → stt S E unit) l :
  (∀ x s, f x s = g x s) → ∀ s, foreach f l s = foreach g l s.
Proof.
  intros Hfg. induction l as [| x l IH]; intros s; [done |]. cbn.
  unfold mbind, stt_bind. rewrite Hfg. destruct (g x s) as [[[] | e] s']; [apply IH | done].
Qed.

Lemma stt_bind_snd {S E A B} (I : S → Prop) (m : stt S E A) (f : A → stt S E B) s :
  I (snd (m s)) → (∀ a s', m s = (Ok a, s') → I (snd (f a s'))) → I (snd ((m ≫= f) s)).
Proof. unfold mbind, stt_bind. destruct (m s) as [[a | e] s']; cbn; auto. Qed.

Lemma zoom_ok {S T E A} (get : S → T) (set : T → S → S) (m : stt T E A) s a t :
  m (get s) = (Ok a, t) → zoom get set m s = (Ok a, set t s).
Proof. intros H. unfold zoom. by rewrite H. Qed.

(** Steps through a monadic computation whose next action is known to return. *)
Ltac stt_step H := rewrite (stt_bind_ok _ _ _ _ _ H).

(** ** Slices

    Lengths and indices are [Z]; [get_range l a b] is [slice.get(a..b)]. *)

Definition zlen {A} (l : list A) : Z := Z.of_nat (length l).

Definition get_range {A} (l : list A) (a b : Z) : option (list A) :=
  if (0 <=? a) && (a <=? b) && (b <=? zlen l)
  then Some (take (Z.to_nat (b - a)) (drop (Z.to_nat a) l)) else None.
Definition get_from {A} (l : list A) (a : Z) : option (list A) := get_range l a (zlen l).
Definition get_to {A} (l : list A) (b : Z) : option (list A) := get_range l 0 b.
Definition get_at {A} (l : list A) (i : Z) : option A :=
  if 0 <=? i then l !! Z.to_nat i else None.
Definition ztake {A} (n : Z) (l : list A) : list A := take (Z.to_nat n) l.
Definition zdrop {A} (n : Z) (l : list A) : list A := drop (Z.to_nat n) l.

Lemma zlen_nil {A} : zlen (@nil A) = 0.
Proof. done. Qed.
Lemma zlen_cons {A} (x : A) l : zlen (x :: l) = 1 + zlen l.
Proof. unfold zlen. cbn [length]. lia. Qed.
Lemma zlen_app {A} (l1 l2 : list A) : zlen (l1 ++ l2) = zlen l1 + zlen l2.
Proof. unfold zlen. rewrite length_app. lia. Qed.
Lemma zlen_nonneg {A} (l : list A) : 0 <= zlen l.
Proof. unfold zlen. lia. Qed.
Lemma zlen_ztake {A} n (l : list A) : zlen (ztake n l) = Z.min (Z.max n 0) (zlen l).
Proof. unfold zlen, ztake. rewrite length_take. lia. Qed.
Lemma zlen_zdrop {A} n (l : list A) : zlen (zdrop n l) = zlen l - Z.min (Z.max n 0) (zlen l).
Proof. unfold zlen, zdrop. rewrite length_drop. lia. Qed.
Lemma zlen_replicate {A} n (x : A) : 0 <= n → zlen (replicate (Z.to_nat n) x) = n.
Proof. unfold zlen. rewrite length_replicate. lia. Qed.
Lemma zlen_0_nil {A} (l : list A) : zlen l = 0 → l = [].
Proof. destruct l; [done |]. rewrite zlen_cons. pose proof (zlen_nonneg l). lia. Qed.
(** [slice.chunks_exact(n)]: the fuel is the number of elements. *)
Fixpoint chunks_exact_loop {A} (fuel : nat) (n : Z) (l : list A) : list (list A) :=
  match fuel with
  | O => []
  | S fuel => if zlen l <? n then [] else ztake n l :: chunks_exact_loop fuel n (zdrop n l)
  end.
Definition chunks_exact {A} (n : Z) (l : list A) : list (list A) := chunks_exact_loop (length l) n l.

Lemma ztake_zdrop {A} n (l : list A) : ztake n l ++ zdrop n l = l.
Proof. apply take_drop. Qed.
Lemma ztake_ge {A} n (l : list A) : zlen l <= n → ztake n l = l.
Proof. unfold zlen, ztake. intros. apply take_ge. lia. Qed.
Lemma ztake_le {A} n (l : list A) : n <= 0 → ztake n l = [].
Proof. unfold ztake. intros. by replace (Z.to_nat n) with 0%nat by lia. Qed.
Lemma zdrop_ge {A} n (l : list A) : zlen l <= n → zdrop n l = [].
Proof. unfold zlen, zdrop. intros. apply drop_ge. lia. Qed.
Lemma zdrop_le {A} n (l : list A) : n <= 0 → zdrop n l = l.
Proof. unfold zdrop. intros. by replace (Z.to_nat n) with 0%nat by lia. Qed.
Lemma zdrop_zdrop {A} m n (l : list A) : 0 <= m → 0 <= n → zdrop m (zdrop n l) = zdrop (n + m) l.
Proof. unfold zdrop. intros. rewrite drop_drop. f_equal. lia. Qed.
Lemma ztake_app {A} (l1 l2 : list A) : ztake (zlen l1) (l1 ++ l2) = l1.
Proof. unfold ztake, zlen. rewrite Nat2Z.id. apply take_app_length. Qed.
Lemma zdrop_app {A} (l1 l2 : list A) : zdrop (zlen l1) (l1 ++ l2) = l2.
Proof. unfold zdrop, zlen. rewrite Nat2Z.id. apply drop_app_length. Qed.
Lemma ztake_app_l {A} n (l1 l2 : list A) : n <= zlen l1 → ztake n (l1 ++ l2) = ztake n l1.
Proof. unfold ztake, zlen. intros. apply take_app_le. lia. Qed.
Lemma zdrop_app_l {A} n (l1 l2 : list A) : n <= zlen l1 → zdrop n (l1 ++ l2) = zdrop n l1 ++ l2.
Proof. unfold zdrop, zlen. intros. apply drop_app_le. lia. Qed.
Lemma ztake_add {A} m n (l : list A) :
  0 <= m → 0 <= n → ztake (m + n) l = ztake m l ++ ztake n (zdrop m l).
Proof.
  unfold ztake, zdrop. intros. rewrite Z2Nat.inj_add by lia. symmetry. apply take_take_drop.
Qed.
Lemma ztake_ztake {A} m n (l : list A) : ztake m (ztake n l) = ztake (Z.min m n) l.
Proof. unfold ztake. rewrite take_take. f_equal. lia. Qed.

Lemma get_range_spec {A} (l : list A) a b :
  0 <= a → a <= b → b <= zlen l → get_range l a b = Some (ztake (b - a) (zdrop a l)).
Proof. intros. unfold get_range. by repeat (rewrite (proj2 (Z.leb_le _ _)) by lia). Qed.

Lemma get_range_app {A} (pre mid post : list A) a b :
  a = zlen pre → b = a + zlen mid → get_range (pre ++ mid ++ post) a b = Some mid.
Proof.
  pose proof (zlen_nonneg pre). pose proof (zlen_nonneg mid). pose proof (zlen_nonneg post).
  intros -> ->. rewrite get_range_spec; rewrite ?zlen_app; [| lia..].
  rewrite zdrop_app. replace (zlen pre + zlen mid - zlen pre) with (zlen mid) by lia.
  by rewrite ztake_app.
Qed.

Lemma get_to_app {A} (mid post : list A) b : b = zlen mid → get_to (mid ++ post) b = Some mid.
Proof. intros ->. apply (get_range_app []); done. Qed.

Lemma get_range_head {A} (mid post : list A) b : b = zlen mid → get_range (mid ++ post) 0 b = Some mid.
Proof. intros ->. apply (get_range_app []); done. Qed.

Lemma get_range_tail {A} (pre mid : list A) a b :
  a = zlen pre → b = a + zlen mid → get_range (pre ++ mid) a b = Some mid.
Proof. intros. rewrite <- (app_nil_r mid) at 1. by apply get_range_app. Qed.

Lemma get_from_app {A} (pre post : list A) a : a = zlen pre → get_from (pre ++ post) a = Some post.
Proof.
  intros ->. unfold get_from. rewrite <- (app_nil_r post) at 1. apply get_range_app; [done |].
  by rewrite zlen_app.
Qed.

Lemma get_range_Some {A} (l : list A) a b s :
  get_range l a b = Some s → 0 <= a <= b ∧ b <= zlen l ∧ s = ztake (b - a) (zdrop a l).
Proof.
  unfold get_range. destruct (Z.leb_spec 0 a), (Z.leb_spec a b), (Z.leb_spec b (zlen l));
    cbn; naive_solver.
Qed.

Lemma get_range_len {A} (l : list A) a b s : get_range l a b = Some s → zlen s = b - a.
Proof.
  intros (? & ? & ->)%get_range_Some. rewrite zlen_ztake, zlen_zdrop. lia.
Qed.

Lemma get_at_app {A} (pre : list A) x post i : i = zlen pre → get_at (pre ++ x :: post) i = Some x.
Proof.
  intros ->. unfold get_at. pose proof (zlen_nonneg pre).
  destruct (Z.leb_spec 0 (zlen pre)); [| lia].
  unfold zlen. by rewrite Nat2Z.id, list_lookup_middle.
Qed.

Lemma get_at_None {A} (l : list A) i : zlen l <= i → get_at l i = None.
Proof.
  intros. unfold get_at. destruct (Z.leb_spec 0 i); [| done].
  apply lookup_ge_None. unfold zlen in *. lia.
Qed.

Lemma get_at_Some_lt {A} (l : list A) i x : get_at l i = Some x → 0 <= i < zlen l.
Proof.
  unfold get_at. destruct (Z.leb_spec 0 i); [| done]. intros ?%lookup_lt_Some.
  unfold zlen. lia.
Qed.

Lemma get_at_lt {A} (l : list A) i : 0 <= i < zlen l → ∃ x, get_at l i = Some x.
Proof.
  intros Hi. unfold get_at. destruct (Z.leb_spec 0 i); [| lia].
  apply lookup_lt_is_Some. unfold zlen in *. lia.
Qed.

(** ** Bytes and little-endian integers *)

Abbreviation bytes := (list Z).
Definition byte_ok (b : Z) : Prop := 0 <= b < 256.
Definition bytes_ok (l : bytes) : Prop := Forall byte_ok l.

#[global] Instance byte_ok_dec b : Decision (byte_ok b).
Proof. unfold byte_ok. apply _. Defined.

Fixpoint to_le_bytes (n : nat) (z : Z) : bytes :=
  match n with
  | O => []
  | S n => z mod 256 :: to_le_bytes n (z / 256)
  end.

Fixpoint from_le_bytes (l : bytes) : Z :=
  match l with
  | [] => 0
  | b :: l => b + 256 * from_le_bytes l
  end.

Lemma length_to_le_bytes n z : length (to_le_bytes n z) = n.
Proof. revert z. induction n as [| n IH]; intros z; cbn; [done |]. by rewrite IH. Qed.

Lemma zlen_to_le_bytes n z : zlen (to_le_bytes n z) = Z.of_nat n.
Proof. unfold zlen. by rewrite length_to_le_bytes. Qed.

Lemma to_le_bytes_ok n z : bytes_ok (to_le_bytes n z).
Proof.
  revert z. induction n as [| n IH]; intros z; constructor; [| apply IH].
  apply Z.mod_pos_bound. lia.
Qed.

Lemma from_to_le_bytes n z :
  0 <= z < 256 ^ Z.of_nat n → from_le_bytes (to_le_bytes n z) = z.
Proof.
  revert z. induction n as [| n IH]; intros z Hz; cbn [to_le_bytes from_le_bytes].
  - change (256 ^ Z.of_nat 0) with 1 in Hz. lia.
  - rewrite Nat2Z.inj_succ, Z.pow_succ_r in Hz by lia.
    rewrite IH.
    + pose proof (Z.div_mod z 256). lia.
    + split; [apply Z.div_pos; lia | apply Z.div_lt_upper_bound; lia].
Qed.

Lemma from_to_le_bytes_mod n z : from_le_bytes (to_le_bytes n z) = z mod 256 ^ Z.of_nat n.
Proof.
  revert z. induction n as [| n IH]; intros z; cbn [to_le_bytes from_le_bytes].
  - change (256 ^ Z.of_nat 0) with 1. by rewrite Z.mod_1_r.
  - rewrite IH, Nat2Z.inj_succ, Z.pow_succ_r by lia.
    rewrite Z.rem_mul_r by (try apply Z.pow_pos_nonneg; lia). lia.
Qed.

Lemma to_from_le_bytes l : bytes_ok l → to_le_bytes (length l) (from_le_bytes l) = l.
Proof.
  induction 1 as [| b l Hb Hl IH]; [done |]. cbn [length to_le_bytes from_le_bytes].
  unfold byte_ok in Hb. rewrite Z.mul_comm.
  rewrite Z.mod_add, Z.div_add, Z.mod_small, Z.div_small by lia. by rewrite Z.add_0_l, IH.
Qed.

Lemma from_le_bytes_range l : bytes_ok l → 0 <= from_le_bytes l < 256 ^ zlen l.
Proof.
  induction 1 as [| b l Hb Hl IH]; [done |]. cbn [from_le_bytes].
  rewrite zlen_cons, Z.pow_add_r by (pose proof (zlen_nonneg l); lia).
  unfold byte_ok in Hb. change (256 ^ 1) with 256. lia.
Qed.

Lemma from_le_bytes_u64 l : bytes_ok l → zlen l = 8 → in_u64 (from_le_bytes l).
Proof. intros H1 H2. pose proof (from_le_bytes_range l H1). rewrite H2 in H. done. Qed.

Lemma from_to_le_u64 z : in_u64 z → from_le_bytes (to_le_bytes 8 z) = z.
Proof. intros H. apply from_to_le_bytes. exact H. Qed.

Lemma from_to_le_u32 z : in_u32 z → from_le_bytes (to_le_bytes 4 z) = z.
Proof. intros H. apply from_to_le_bytes. exact H. Qed.

Lemma from_to_le_i64 z : in_i64 z → as_i64 (from_le_bytes (to_le_bytes 8 z)) = z.
Proof.
  intros Hz. rewrite from_to_le_bytes_mod. change (256 ^ Z.of_nat 8) with (2 ^ 64).
  rewrite <- (as_i64_wrap z Hz) at 2. done.
Qed.

Lemma bytes_ok_app l1 l2 : bytes_ok (l1 ++ l2) ↔ bytes_ok l1 ∧ bytes_ok l2.
Proof. apply Forall_app. Qed.

(** ** Bit operations *)

(** A decidable statement about a byte is proved by checking all of them. *)
Lemma byte_all (P : Z → bool) :
  forallb P (seqZ 0 256) = true → ∀ b, byte_ok b → P b = true.
Proof.
  intros H b Hb. rewrite forallb_forall in H. apply H.
  apply list_elem_of_In, elem_of_seqZ. unfold byte_ok in Hb. lia.
Qed.

Lemma land_low_high a x k : 0 <= k → 0 <= a < 2 ^ k → Z.land a (Z.shiftl x k) = 0.
Proof.
  intros Hk Ha. apply Z.bits_inj'. intros i Hi. rewrite Z.land_spec, Z.bits_0, Z.shiftl_spec by done.
  destruct (Z.ltb_spec i k).
  - rewrite (Z.testbit_neg_r x (i - k)) by lia. apply andb_false_r.
  - rewrite <- (Z.mod_small a (2 ^ k)) by lia. by rewrite Z.mod_pow2_bits_high by lia.
Qed.

Lemma lor_low_high a x k : 0 <= k → 0 <= a < 2 ^ k → Z.lor a (Z.shiftl x k) = a + x * 2 ^ k.
Proof.
  intros Hk Ha. pose proof (land_low_high a x k Hk Ha) as H.
  rewrite <- Z.lxor_lor by done. rewrite <- Z.add_nocarry_lxor by done.
  by rewrite Z.shiftl_mul_pow2.
Qed.

Lemma land_127 z : Z.land z 127 = z mod 128.
Proof. change 127 with (Z.ones 7). by rewrite Z.land_ones. Qed.
Lemma land_63 z : Z.land z 63 = z mod 64.
Proof. change 63 with (Z.ones 6). by rewrite Z.land_ones. Qed.
Lemma shiftr_7 z : Z.shiftr z 7 = z / 128.
Proof. by rewrite Z.shiftr_div_pow2. Qed.
Lemma lor_128 x : 0 <= x < 128 → Z.lor 128 x = 128 + x.
Proof. intros. rewrite Z.lor_comm. change 128 with (Z.shiftl 1 7) at 1. rewrite lor_low_high; lia. Qed.
Lemma lor_64 x : 0 <= x < 64 → Z.lor 64 x = 64 + x.
Proof. intros. rewrite Z.lor_comm. change 64 with (Z.shiftl 1 6) at 1. rewrite lor_low_high; lia. Qed.

Lemma land_128 b : byte_ok b → Z.land b 128 = if b <? 128 then 0 else 128.
Proof.
  intros Hb. apply Z.eqb_eq.
  apply (byte_all (λ b, Z.land b 128 =? (if b <? 128 then 0 else 128))); [reflexivity | done].
Qed.
Lemma land_64 b : byte_ok b → Z.land b 64 = if (b mod 128) <? 64 then 0 else 64.
Proof.
  intros Hb. apply Z.eqb_eq.
  apply (byte_all (λ b, Z.land b 64 =? (if (b mod 128) <? 64 then 0 else 64))); [reflexivity | done].
Qed.

Create HintDb wings.
Create Rewrite HintDb zlen.
#[export] Hint Rewrite @zlen_nil @zlen_cons @zlen_app @zlen_ztake @zlen_zdrop
  @zlen_to_le_bytes : zlen.
#[export] Hint Resolve zlen_nonneg wrap64_range to_le_bytes_ok : wings.

(** Normalises lengths, adds that lengths are non-negative, and calls [lia]. *)
Ltac zlen_pos :=
  repeat match goal with
  | |- context [zlen ?l] =>
      lazymatch goal with
      | _ : 0 <= zlen l |- _ => fail
      | _ => pose proof (zlen_nonneg l)
      end
  | _ : context [zlen ?l] |- _ =>
      lazymatch goal with
      | _ : 0 <= zlen l |- _ => fail
      | _ => pose proof (zlen_nonneg l)
      end
  end.
Ltac zlen_norm :=
  repeat match goal with
  | H : context [zlen (_ :: _)] |- _ => rewrite zlen_cons in H
  | H : context [zlen (_ ++ _)] |- _ => rewrite zlen_app in H
  | H : context [zlen (ztake _ _)] |- _ => rewrite zlen_ztake in H
  | H : context [zlen (zdrop _ _)] |- _ => rewrite zlen_zdrop in H
  | H : context [zlen (to_le_bytes _ _)] |- _ => rewrite zlen_to_le_bytes in H
  | H : context [zlen (@nil ?A)] |- _ => rewrite (@zlen_nil A) in H
  | H : in_u64 _ |- _ => unfold in_u64 in H
  | H : in_u32 _ |- _ => unfold in_u32 in H
  | H : in_i64 _ |- _ => unfold in_i64 in H
  | H : context [U64_MAX] |- _ => unfold U64_MAX in H
  end.
Ltac zlen_lia :=
  solve
    [ autorewrite with zlen; zlen_norm; unfold in_u64, in_u32, in_i64, U64_MAX; zlen_pos; lia
    | autorewrite with zlen in *; zlen_norm; unfold in_u64, in_u32, in_i64, U64_MAX; zlen_pos; lia ].

#[global] Arguments to_le_bytes : simpl never.
#[global] Arguments from_le_bytes : simpl never.
