(* ===== verification/IoModel.v ===== *)
(** * IoModel: the traits of [std::io] the program is generic over

    [std::io::Read], [std::io::Write] and their error type, as type classes,
    with the laws a lawful reader or writer satisfies ([ReadLaws],
    [WriteLaws]), the two instances the code uses most ([Cursor] over a byte
    vector and [Vec<u8>]), a reader that returns short reads, and the provided
    methods [read_exact] and [read_to_end]. *)
From S2P Require Import Prelude.

Inductive io_error : Type :=
  | IoOther (msg : string)
  | InvalidInput (msg : string)
  | InvalidData (msg : string)
  | AlreadyExists (msg : string)
  | NotFound (msg : string)
  | StorageFull (msg : string)
  | UnexpectedEof
  | Interrupted
  | WriteZero.

#[export] Instance io_error_eq_dec : EqDecision io_error.
Proof. solve_decision. Defined.

(** [Display] of an error: its message, or the description of its kind. *)
Definition io_display (e : io_error) : string :=
  match e with
  | IoOther msg | InvalidInput msg | InvalidData msg | AlreadyExists msg | NotFound msg | StorageFull msg => msg
  | UnexpectedEof => "unexpected end of file"
  | Interrupted => "operation interrupted"
  | WriteZero => "write zero"
  end.

(** [read n] is [Read::read] on a buffer of [n] bytes: the bytes it stored at
    the front of the buffer (their number is the returned count). *)
Class Read (R : Type) : Type := read : Z → stt R io_error bytes.

(** [write_all] and [flush] of [std::io::Write]. *)
Class Write (W : Type) : Type := {
  write_all : bytes → stt W io_error unit;
  flush : stt W io_error unit;
}.

(** A reader over a finite stream: each [read] takes a prefix of what is left,
    as long as the buffer allows, and takes nothing only at the end. *)
Class ReadLaws (R : Type) `{Read R} : Type := {
  remaining : R → bytes;
  read_law : ∀ n r, 0 <= n → ∃ k r',
    read n r = (Ok (ztake k (remaining r)), r') ∧
    remaining r' = zdrop k (remaining r) ∧
    0 <= k <= Z.min n (zlen (remaining r)) ∧
    (0 < n → remaining r ≠ [] → 0 < k);
}.

(** A writer that appends to a sink when it succeeds. *)
Class WriteLaws (W : Type) `{Write W} : Type := {
  written : W → bytes;
  write_all_law : ∀ d w w', write_all d w = (Ok tt, w') → written w' = written w ++ d;
  flush_law : ∀ w w', flush w = (Ok tt, w') → written w' = written w;
}.

(** A writer whose writes never fail ([Vec<u8>]). *)
Class WriteTotal (W : Type) `{WriteLaws W} : Prop := {
  write_all_total : ∀ d w, ∃ w', write_all d w = (Ok tt, w');
  flush_total : ∀ w, ∃ w', flush w = (Ok tt, w');
}.

(** ** Instances *)

#[export] Instance vec_write : Write bytes := {
  write_all d := λ w, (Ok tt, w ++ d);
  flush := λ w, (Ok tt, w);
}.
#[export, refine] Instance vec_write_laws : WriteLaws bytes := { written w := w }.
Proof. all: cbn; congruence. Defined.
#[export] Instance vec_write_total : WriteTotal bytes.
Proof. split; cbn; eauto. Qed.

(** [std::io::Cursor<Vec<u8>>] as a reader. *)
Record IoCursor : Type := mk_IoCursor { ioc_data : bytes; ioc_pos : Z }.

Definition IoCursor_rest (c : IoCursor) : bytes := zdrop (ioc_pos c) (ioc_data c).
Definition IoCursor_advance (k : Z) (c : IoCursor) : IoCursor :=
  mk_IoCursor (ioc_data c) (Z.max 0 (ioc_pos c) + k).

#[export] Instance IoCursor_read : Read IoCursor := λ n c,
  let d := ztake n (IoCursor_rest c) in (Ok d, IoCursor_advance (zlen d) c).

Lemma IoCursor_rest_advance k c : 0 <= k → IoCursor_rest (IoCursor_advance k c) = zdrop k (IoCursor_rest c).
Proof.
  intros Hk. unfold IoCursor_rest, IoCursor_advance. cbn.
  destruct (Z.leb_spec 0 (ioc_pos c)).
  - rewrite zdrop_zdrop by lia. f_equal. lia.
  - rewrite (zdrop_le (ioc_pos c)) by lia. f_equal. lia.
Qed.

Lemma ztake_zlen_ztake {A} n (l : list A) : ztake (zlen (ztake n l)) l = ztake n l.
Proof.
  rewrite zlen_ztake. destruct (Z.leb_spec n (zlen l)).
  - destruct (Z.leb_spec 0 n).
    + f_equal. pose proof (zlen_nonneg l). lia.
    + pose proof (zlen_nonneg l). rewrite !ztake_le by lia. done.
  - pose proof (zlen_nonneg l). rewrite !ztake_ge by lia. done.
Qed.

#[export, refine] Instance IoCursor_read_laws : ReadLaws IoCursor := { remaining := IoCursor_rest }.
Proof.
  intros n c Hn. set (d := ztake n (IoCursor_rest c)).
  exists (zlen d), (IoCursor_advance (zlen d) c). unfold read, IoCursor_read. fold d.
  split; [| split; [| split]].
  - unfold d. by rewrite ztake_zlen_ztake.
  - apply IoCursor_rest_advance. apply zlen_nonneg.
  - unfold d. pose proof (zlen_nonneg (IoCursor_rest c)). rewrite zlen_ztake. lia.
  - intros ? Hne. unfold d. rewrite zlen_ztake.
    destruct (IoCursor_rest c) as [| b l]; [done |]. rewrite zlen_cons. pose proof (zlen_nonneg l). lia.
Defined.

(** A reader that hands out at most [sr_step] bytes per call. *)
Record ShortReader : Type := mk_ShortReader { sr_data : bytes; sr_step : positive }.

#[export] Instance ShortReader_read : Read ShortReader := λ n r,
  let k := Z.min n (Zpos (sr_step r)) in
  (Ok (ztake k (sr_data r)), mk_ShortReader (zdrop k (sr_data r)) (sr_step r)).

#[export, refine] Instance ShortReader_read_laws : ReadLaws ShortReader := { remaining := sr_data }.
Proof.
  intros n r Hn. unfold read, ShortReader_read.
  exists (Z.min (Z.min n (Zpos (sr_step r))) (zlen (sr_data r))).
  eexists. pose proof (zlen_nonneg (sr_data r)). split; [| split; [| split]].
  - f_equal. f_equal. destruct (Z.leb_spec (zlen (sr_data r)) (Z.min n (Zpos (sr_step r)))).
    + rewrite !ztake_ge by lia. done.
    + f_equal. lia.
  - cbn. destruct (Z.leb_spec (zlen (sr_data r)) (Z.min n (Zpos (sr_step r)))).
    + rewrite !zdrop_ge by lia. done.
    + f_equal. lia.
  - lia.
  - intros ? Hne. destruct (sr_data r) as [| b l]; [done |]. rewrite zlen_cons in *. pose proof (zlen_nonneg l). lia.
Defined.

(** ** Provided methods *)

Section provided.
Context {R : Type} `{Read R}.

(** [Read::read_exact]: reads until the buffer is full; [Interrupted] is
    retried; a read of zero bytes is [UnexpectedEof].  The fuel counts the
    calls to [read]: a call that returns bytes makes progress, and a lawful
    reader needs at most one call per byte. *)
Fixpoint read_exact_loop (fuel : nat) (n : Z) (acc : bytes) : stt R io_error bytes :=
  if n <=? 0 then mret acc else
  match fuel with
  | O => throw UnexpectedEof
  | S fuel => λ r,
      match read n r with
      | (Ok [], r') => (Err UnexpectedEof, r')
      | (Ok d, r') => read_exact_loop fuel (n - zlen d) (acc ++ d) r'
      | (Err Interrupted, r') => read_exact_loop fuel n acc r'
      | (Err e, r') => (Err e, r')
      end
  end.

Definition read_exact (n : Z) : stt R io_error bytes := read_exact_loop (Z.to_nat n) n [].

(** [Read::read_to_end], with the buffer sizes of the calls as a parameter. *)
Fixpoint read_to_end (fuel : nat) (size : Z) (acc : bytes) : stt R io_error bytes :=
  match fuel with
  | O => mret acc
  | S fuel => λ r,
      match read size r with
      | (Ok [], r') => (Ok acc, r')
      | (Ok d, r') => read_to_end fuel size (acc ++ d) r'
      | (Err e, r') => (Err e, r')
      end
  end.

Context `{!ReadLaws R}.

Lemma read_exact_loop_ok fuel n acc r :
  0 <= n <= zlen (remaining r) → (Z.to_nat n <= fuel)%nat →
  ∃ r', read_exact_loop fuel n acc r = (Ok (acc ++ ztake n (remaining r)), r') ∧
        remaining r' = zdrop n (remaining r).
Proof.
  revert n acc r. induction fuel as [| fuel IH]; intros n acc r Hn Hf.
  - replace n with 0 by lia. exists r. rewrite ztake_le, zdrop_le, app_nil_r by lia. done.
  - cbn [read_exact_loop]. destruct (Z.leb_spec n 0).
    + replace n with 0 by lia. exists r. rewrite ztake_le, zdrop_le, app_nil_r by lia. done.
    + destruct (read_law n r) as (k & r1 & Hread & Hrem & Hk & Hpos); [lia |].
      rewrite Hread. destruct (remaining r) as [| b0 l0] eqn:Hr; [rewrite (@zlen_nil Z) in Hn; lia |].
      assert (0 < k) by (apply Hpos; [lia | done]).
      assert (zlen (ztake k (b0 :: l0)) = k) as Hlk by (rewrite zlen_ztake; lia).
      destruct (ztake k (b0 :: l0)) as [| b1 l1] eqn:Hd; [rewrite (@zlen_nil Z) in Hlk; lia |].
      rewrite Hlk. rewrite <- Hd.
      destruct (IH (n - k) (acc ++ ztake k (b0 :: l0)) r1) as (r2 & -> & Hr2).
      * rewrite Hrem, zlen_zdrop. lia.
      * lia.
      * exists r2. rewrite Hrem, <- app_assoc, <- ztake_add by lia.
        rewrite Hr2, Hrem, zdrop_zdrop by lia. by replace (k + (n - k)) with n by lia.
Qed.

(** [read_exact] returns the next [n] bytes when they exist. *)
Lemma read_exact_ok n r :
  0 <= n <= zlen (remaining r) →
  ∃ r', read_exact n r = (Ok (ztake n (remaining r)), r') ∧ remaining r' = zdrop n (remaining r).
Proof. intros Hn. apply (read_exact_loop_ok _ n []); lia. Qed.

Lemma read_exact_app d rest r :
  remaining r = d ++ rest →
  ∃ r', read_exact (zlen d) r = (Ok d, r') ∧ remaining r' = rest.
Proof.
  intros Hr. destruct (read_exact_ok (zlen d) r) as (r' & H1 & H2).
  - rewrite Hr. zlen_lia.
  - exists r'. rewrite Hr, ztake_app in H1. rewrite Hr, zdrop_app in H2. done.
Qed.

(** A lawful reader gives [read_to_end] its whole stream. *)
Lemma read_to_end_ok fuel size acc r :
  0 < size → (length (remaining r) < fuel)%nat →
  ∃ r', read_to_end fuel size acc r = (Ok (acc ++ remaining r), r') ∧ remaining r' = [].
Proof.
  intros Hs. revert acc r. induction fuel as [| fuel IH]; intros acc r Hf; [lia |].
  cbn [read_to_end]. destruct (read_law size r) as (k & r1 & -> & Hrem & Hk & Hpos); [lia |].
  destruct (remaining r) as [| b0 l0] eqn:Hr.
  - exists r1. rewrite (@zlen_nil Z) in Hk. assert (k = 0) as -> by lia.
    rewrite ztake_le, app_nil_r by lia. split; [done |]. by rewrite Hrem, zdrop_le.
  - assert (0 < k) by (apply Hpos; [lia | done]).
    assert (zlen (ztake k (b0 :: l0)) = k) as Hlk by (rewrite zlen_ztake; lia).
    destruct (ztake k (b0 :: l0)) as [| b1 l1] eqn:Hd; [rewrite (@zlen_nil Z) in Hlk; lia |]. rewrite <- Hd.
    destruct (IH (acc ++ ztake k (b0 :: l0)) r1) as (r2 & -> & Hr2).
    + rewrite Hrem. unfold zdrop. rewrite length_drop. cbn [length] in *. lia.
    + exists r2. rewrite Hrem, <- app_assoc, ztake_zdrop. done.
Qed.
End provided.

(** ** Positioned reads *)

(** The trait [ReadAt] (pbs-client/src/pxar/accessor.rs): [read_at offset n]
    is a positioned read into a buffer of [n] bytes.  Implementations share
    their state behind an [Arc], so it is threaded, not copied. *)
Class ReadAt (T : Type) : Type := read_at : Z → Z → stt T io_error bytes.

(** [represents t c]: the source [t] stands for the byte string [c].  A read
    inside it returns at least one byte, and the bytes at that offset; a read
    past the end returns none. *)
Class ReadAtLaws (T : Type) `{ReadAt T} : Type := {
  represents : T → bytes → Prop;
  read_at_law : ∀ t c off n, represents t c → 0 <= off → 0 <= n → ∃ k t',
    read_at off n t = (Ok (ztake k (zdrop off c)), t') ∧ represents t' c ∧
    0 <= k <= n ∧ k <= Z.max 0 (zlen c - off) ∧ (0 < n → off < zlen c → 0 < k);
}.

(** A byte vector in memory. *)
#[export] Instance vec_read_at : ReadAt bytes := λ off n c,
  (Ok (ztake (Z.min n (zlen c - off)) (zdrop off c)), c).
#[export, refine] Instance vec_read_at_laws : ReadAtLaws bytes := { represents := eq }.
Proof.
  intros t c off n <- Ho Hn. pose proof (zlen_nonneg t).
  exists (Z.max 0 (Z.min n (zlen t - off))), t. unfold read_at, vec_read_at. split.
  - f_equal. f_equal. destruct (Z.leb_spec 0 (Z.min n (zlen t - off))); [f_equal; lia |].
    rewrite !ztake_le by lia. done.
  - split; [done |]. lia.
Defined.
