(* ===== verification/Paths.v ===== *)
(** * Paths: [std::path] on Unix, on raw bytes

    [Path] and [OsStr] are byte strings.  [components] is
    [Path::components], [path_join] is [Path::join] ([PathBuf::push] on a
    copy). *)
From S2P Require Import Prelude.

Definition SLASH : Z := 47.
Definition DOT : Z := 46.

Definition is_absolute (p : bytes) : bool :=
  match p with b :: _ => b =? SLASH | [] => false end.

(** [PathBuf::push]: an absolute argument replaces the buffer, otherwise a
    separator is added unless the buffer is empty or ends with one. *)
Definition path_join (base name : bytes) : bytes :=
  if is_absolute name then name
  else match list.last base with
       | Some c => if c =? SLASH then base ++ name else base ++ [SLASH] ++ name
       | None => name
       end.

Module Component.
Inductive Component : Type :=
  | RootDir
  | CurDir
  | ParentDir
  | Normal (name : bytes).
End Component.

#[export] Instance Component_eq_dec : EqDecision Component.Component.
Proof. solve_decision. Defined.

(** The segments between separators. *)
Fixpoint split_slash (p : bytes) : list bytes :=
  match p with
  | [] => [[]]
  | b :: p =>
      if b =? SLASH then [] :: split_slash p
      else match split_slash p with
           | [] => [[b]]
           | s :: l => (b :: s) :: l
           end
  end.

Definition segment_component (s : bytes) : option Component.Component :=
  if decide (s = []) then None
  else if decide (s = [DOT]) then None
  else if decide (s = [DOT; DOT]) then Some Component.ParentDir
  else Some (Component.Normal s).

Definition components (p : bytes) : list Component.Component :=
  let segments := split_slash p in
  let leading :=
    if is_absolute p then [Component.RootDir]
    else match segments with
         | s :: _ => if decide (s = [DOT]) then [Component.CurDir] else []
         | [] => []
         end in
  leading ++ omap segment_component segments.

(** A file name: non-empty, without separator, and neither [.] nor [..]. *)
Definition name_ok (name : bytes) : Prop :=
  name ≠ [] ∧ SLASH ∉ name ∧ name ≠ [DOT] ∧ name ≠ [DOT; DOT].

#[export] Instance name_ok_dec name : Decision (name_ok name).
Proof. unfold name_ok. apply _. Defined.

Lemma split_slash_no_sep s : SLASH ∉ s → split_slash s = [s].
Proof.
  induction s as [| b s IH]; intros Hs; [done |]. rewrite not_elem_of_cons in Hs.
  destruct Hs as [Hb Hs]. cbn. destruct (Z.eqb_spec b SLASH); [congruence |]. by rewrite IH.
Qed.

Lemma split_slash_app s p : SLASH ∉ s → split_slash (s ++ SLASH :: p) = s :: split_slash p.
Proof.
  induction s as [| b s IH]; intros Hs; [done |]. rewrite not_elem_of_cons in Hs.
  destruct Hs as [Hb Hs]. cbn. destruct (Z.eqb_spec b SLASH); [congruence |]. by rewrite IH.
Qed.

Lemma name_ok_not_absolute name : name_ok name → is_absolute name = false.
Proof.
  intros (Hne & Hsl & _). destruct name as [| b l]; [done |]. cbn.
  rewrite not_elem_of_cons in Hsl. destruct (Z.eqb_spec b SLASH); [naive_solver | done].
Qed.

Lemma segment_component_name name : name_ok name → segment_component name = Some (Component.Normal name).
Proof. intros (? & _ & ? & ?). unfold segment_component. by rewrite !decide_False. Qed.

Lemma components_name name : name_ok name → components name = [Component.Normal name].
Proof.
  intros Hn. unfold components. rewrite split_slash_no_sep by apply Hn.
  rewrite name_ok_not_absolute by done. destruct Hn as (? & ? & ? & ?).
  rewrite decide_False by done. cbn. by rewrite segment_component_name.
Qed.

(** ** [Path::parent] and [Path::strip_prefix] *)

Fixpoint join_slash (segments : list bytes) : bytes :=
  match segments with
  | [] => []
  | [s] => s
  | s :: l => s ++ SLASH :: join_slash l
  end.

(** [Components::trim_right] on the segments, the last one first: empty
    segments and [.] are no components, unless the path is relative and starts
    with it. *)
Fixpoint trim_right (absolute : bool) (rsegments : list bytes) : list bytes :=
  match rsegments with
  | s :: rest =>
      if decide (segment_component s = None) then
        if negb absolute && bool_decide (rest = []) && bool_decide (s = [DOT]) then rsegments
        else trim_right absolute rest
      else rsegments
  | [] => []
  end.

(** [Path::parent]: everything before the last component, if that is not the
    root. *)
Definition path_parent (p : bytes) : option bytes :=
  let absolute := is_absolute p in
  let segments := if absolute then tail (split_slash p) else split_slash p in
  match trim_right absolute (reverse segments) with
  | [] => None
  | _ :: rest =>
      Some ((if absolute then [SLASH] else []) ++ join_slash (reverse (trim_right absolute rest)))
  end.

(** [PathBuf::pop]. *)
Definition path_pop (p : bytes) : bytes := default p (path_parent p).

(** A component as the [OsStr] it stands for. *)
Definition component_bytes (c : Component.Component) : bytes :=
  match c with
  | Component.RootDir => [SLASH]
  | Component.CurDir => [DOT]
  | Component.ParentDir => [DOT; DOT]
  | Component.Normal name => name
  end.
Definition path_of (cs : list Component.Component) : bytes :=
  foldl (λ p c, path_join p (component_bytes c)) [] cs.

Fixpoint strip_components (cs prefix : list Component.Component) : option (list Component.Component) :=
  match prefix, cs with
  | [], _ => Some cs
  | q :: prefix, c :: cs => if decide (q = c) then strip_components cs prefix else None
  | _ :: _, [] => None
  end.

(** [Path::strip_prefix] goes by components.  Repeated separators inside the
    rest are not kept: no operation of a [Path] but [as_os_str] sees them. *)
Definition strip_prefix (p prefix : bytes) : option bytes :=
  path_of <$> strip_components (components p) (components prefix).
Definition path_starts_with (p prefix : bytes) : bool :=
  match strip_components (components p) (components prefix) with Some _ => true | None => false end.

Example path_parent_examples :
  (path_parent [97; 47; 98], path_parent [47; 97], path_parent [47], path_parent [], path_parent [97],
   path_parent [97; 47; 47; 46; 47; 98; 47; 47], path_parent [46; 47; 97], path_parent [46], path_parent [47; 46]) =
  (Some [97], Some [47], None, None, Some [], Some [97], Some [46], Some [], None).
Proof. vm_compute. reflexivity. Qed.

(** *** Paths made of names *)

Lemma join_slash_cons s l : l ≠ [] → join_slash (s :: l) = s ++ SLASH :: join_slash l.
Proof. by destruct l. Qed.

Lemma split_join_slash l : l ≠ [] → Forall (λ s, SLASH ∉ s) l → split_slash (join_slash l) = l.
Proof.
  intros Hne Hl. induction Hl as [| s l Hs Hl IH]; [done |]. destruct l as [| s' l].
  - by apply split_slash_no_sep.
  - rewrite join_slash_cons, split_slash_app by done. by rewrite IH.
Qed.

(** A segment that is a component: a name or [..]. *)
Definition segment_ok (s : bytes) : Prop := s ≠ [] ∧ SLASH ∉ s ∧ s ≠ [DOT].
Definition segment_as_component (s : bytes) : Component.Component :=
  if decide (s = [DOT; DOT]) then Component.ParentDir else Component.Normal s.

Lemma name_segment n : name_ok n → segment_ok n.
Proof. intros (? & ? & ? & ?). by repeat split. Qed.

Lemma names_segments names : Forall name_ok names → Forall segment_ok names.
Proof. intros H. eapply list.Forall_impl; [exact H | apply name_segment]. Qed.

Lemma segments_no_slash l : Forall segment_ok l → Forall (λ s, SLASH ∉ s) l.
Proof. intros H. eapply list.Forall_impl; [exact H |]. by intros ? (_ & ? & _). Qed.

Lemma segment_not_absolute s : segment_ok s → is_absolute s = false.
Proof.
  intros (Hne & Hsl & _). destruct s as [| b l]; [done |]. cbn.
  rewrite not_elem_of_cons in Hsl. destruct (Z.eqb_spec b SLASH); [naive_solver | done].
Qed.

Lemma join_slash_relative l : Forall segment_ok l → is_absolute (join_slash l) = false.
Proof.
  intros H. destruct H as [| s l Hs Hl]; [done |]. pose proof (segment_not_absolute _ Hs) as Ha.
  destruct s as [| b s]; [by destruct Hs |]. by destruct l.
Qed.

Lemma segment_components_ok l : Forall segment_ok l → omap segment_component l = segment_as_component <$> l.
Proof.
  induction 1 as [| s l (Hs & _ & Hd) Hl IH]; [done |]. cbn. rewrite IH. unfold segment_component, segment_as_component.
  rewrite !(decide_False (P := s = [])), !(decide_False (P := s = [DOT])) by done. by case_decide.
Qed.

Lemma components_join_segments l : Forall segment_ok l → components (join_slash l) = segment_as_component <$> l.
Proof.
  intros H. destruct l as [| s l]; [reflexivity |]. unfold components.
  rewrite join_slash_relative, split_join_slash by (done || by apply segments_no_slash).
  assert (s ≠ [DOT]) as Hd by (apply Forall_inv in H; apply H). rewrite decide_False by done.
  by apply segment_components_ok.
Qed.

Lemma components_join_slash names : Forall name_ok names → components (join_slash names) = Component.Normal <$> names.
Proof.
  intros H. rewrite components_join_segments by by apply names_segments.
  induction H as [| s l (_ & _ & _ & Hs) Hl IH]; [done |]. cbn. rewrite IH. unfold segment_as_component.
  by rewrite decide_False.
Qed.

Lemma last_slash s : SLASH ∉ s → list.last s ≠ Some SLASH.
Proof. intros Hs Hl. apply Hs. apply last_Some in Hl as [l ->]. set_solver. Qed.

Lemma last_join_slash l : Forall segment_ok l → l ≠ [] → ∃ b, list.last (join_slash l) = Some b ∧ b ≠ SLASH.
Proof.
  intros H Hne. induction H as [| s l Hs Hl IH]; [done |]. destruct l as [| s' l].
  - destruct Hs as (Hs & Hsl & _). destruct (list.last s) as [b |] eqn:Hb; [| by apply last_None in Hb].
    exists b. split; [done |]. intros ->. by apply (last_slash s).
  - destruct IH as (b & Hb & Hn); [done |]. exists b. rewrite join_slash_cons by done. split; [| done].
    rewrite last_app, last_cons, Hb. done.
Qed.

Lemma path_join_segments l s : Forall segment_ok l → segment_ok s → path_join (join_slash l) s = join_slash (l ++ [s]).
Proof.
  intros H Hn. unfold path_join. rewrite segment_not_absolute by done.
  destruct l as [| t l]; [done |]. destruct (last_join_slash (t :: l)) as (b & -> & Hb); [done.. |].
  destruct (Z.eqb_spec b SLASH); [done |]. clear. revert t. induction l as [| t' l IH]; intros t; [done |].
  change ((t :: t' :: l) ++ [s]) with (t :: (t' :: l) ++ [s]).
  rewrite (join_slash_cons t (t' :: l)), (join_slash_cons t ((t' :: l) ++ [s])) by done.
  rewrite <- IH. by rewrite <- app_assoc.
Qed.

Lemma path_join_names names n : Forall name_ok names → name_ok n →
  path_join (join_slash names) n = join_slash (names ++ [n]).
Proof. intros H Hn. apply path_join_segments; [by apply names_segments | by apply name_segment]. Qed.

Lemma trim_right_name absolute n l : name_ok n → trim_right absolute (n :: l) = n :: l.
Proof. intros Hn. cbn. by rewrite segment_component_name. Qed.

Lemma path_parent_names names n : Forall name_ok names → name_ok n →
  path_parent (join_slash (names ++ [n])) = Some (join_slash names).
Proof.
  intros H Hn. assert (Forall name_ok (names ++ [n])) as Hall by (apply Forall_app; split; [done | by constructor]).
  apply names_segments in Hall. unfold path_parent. rewrite join_slash_relative by done.
  rewrite split_join_slash; [| by destruct names | by apply segments_no_slash].
  rewrite reverse_app. change (reverse [n] ++ reverse names) with (n :: reverse names).
  rewrite trim_right_name by done. rewrite <- (reverse_involutive names) at 2.
  assert (trim_right false (reverse names) = reverse names) as ->; [| done].
  apply Forall_reverse in H. destruct H; [done |]. by apply trim_right_name.
Qed.

Lemma split_slash_spec p : Forall (λ s, SLASH ∉ s) (split_slash p).
Proof.
  induction p as [| b p IH]; cbn; [repeat constructor; set_solver |].
  destruct (Z.eqb_spec b SLASH); [constructor; [set_solver | done] |].
  destruct IH as [| s l Hs Hl]; repeat constructor; try done; set_solver.
Qed.

Lemma components_normal_ok p name : Component.Normal name ∈ components p → name_ok name.
Proof.
  unfold components. intros H. apply elem_of_app in H as [H | H].
  - exfalso. destruct (is_absolute p); [set_solver |]. destruct (split_slash p); [set_solver |].
    case_decide; set_solver.
  - apply list_elem_of_omap in H as (s & Hs & He). unfold segment_component in He. repeat case_decide; try done.
    injection He as <-. pose proof (split_slash_spec p) as Hsp. rewrite list.Forall_forall in Hsp. by split; [| split; [apply Hsp |]].
Qed.

Lemma components_root_first p c cs : components p = c :: cs → Component.RootDir ∉ cs.
Proof.
  intros H Hin. unfold components in H.
  assert (Component.RootDir ∉ omap segment_component (split_slash p)) as Hr.
  { intros He. apply list_elem_of_omap in He as (s & _ & He). unfold segment_component in He. by repeat case_decide. }
  destruct (is_absolute p); cbn in H; [injection H as <- <-; done |].
  destruct (split_slash p) as [| s l]; [done |]. case_decide; cbn [app] in H.
  - injection H as <- <-. done.
  - rewrite H in Hr. set_solver.
Qed.

Lemma components_root p : Component.RootDir ∈ components p → ∃ cs, components p = Component.RootDir :: cs.
Proof.
  intros H. destruct (components p) as [| c cs] eqn:Hc; [by apply elem_of_nil in H |].
  pose proof (components_root_first _ _ _ Hc). apply elem_of_cons in H as [<- | H]; [by eexists | done].
Qed.

Lemma components_cur_first p c cs : components p = c :: cs → Component.CurDir ∉ cs.
Proof.
  intros H Hin. unfold components in H.
  assert (Component.CurDir ∉ omap segment_component (split_slash p)) as Hr.
  { intros He. apply list_elem_of_omap in He as (s & _ & He). unfold segment_component in He. by repeat case_decide. }
  destruct (is_absolute p); cbn in H; [injection H as <- <-; done |].
  destruct (split_slash p) as [| s l]; [done |]. case_decide; cbn [app] in H.
  - injection H as <- <-. done.
  - rewrite H in Hr. set_solver.
Qed.

Lemma strip_components_Some cs prefix rest : strip_components cs prefix = Some rest ↔ cs = prefix ++ rest.
Proof.
  revert cs. induction prefix as [| q prefix IH]; intros cs.
  - destruct cs; cbn; naive_solver.
  - destruct cs as [| c cs]; cbn; [done |]. case_decide as Hq; [subst; rewrite IH |]; naive_solver.
Qed.

(** The rest after a prefix that is not empty has the remaining components. *)
Lemma path_of_rest p c prefix rest : components p = c :: prefix ++ rest → components (path_of rest) = rest.
Proof.
  intros H. pose proof (components_root_first _ _ _ H) as Hr. pose proof (components_cur_first _ _ _ H) as Hc.
  assert (∀ x, x ∈ rest → ∃ s, segment_ok s ∧ component_bytes x = s ∧ segment_as_component s = x) as Hx.
  { intros x Hx. assert (x ∈ prefix ++ rest) as Hx' by set_solver. destruct x as [| | | n].
    - done.
    - done.
    - exists [DOT; DOT]. split; [split; [done |]; split; [set_solver | done] |]. done.
    - exists n. assert (name_ok n) as Hn by (apply (components_normal_ok p); rewrite H; by right).
      split; [by apply name_segment |]. split; [done |]. unfold segment_as_component. by rewrite decide_False by apply Hn. }
  clear H Hr Hc. unfold path_of. change (@nil Z) with (join_slash []).
  assert (∀ l, Forall segment_ok l →
    ∃ l', Forall segment_ok l' ∧ foldl (λ p c, path_join p (component_bytes c)) (join_slash l) rest = join_slash (l ++ l') ∧
      segment_as_component <$> l' = rest) as Hfold.
  { clear p. induction rest as [| x rest IH]; intros l Hl; [exists []; by rewrite app_nil_r |].
    destruct (Hx x) as (s & Hs & Hb & Hsx); [by left |]. cbn [foldl]. rewrite Hb, path_join_segments by done.
    destruct (IH ltac:(intros; apply Hx; by right) (l ++ [s])) as (l' & Hl' & -> & Hrest).
    { apply Forall_app. split; [done | by constructor]. }
    exists (s :: l'). split; [by constructor |]. rewrite <- app_assoc. split; [done |]. cbn. by rewrite Hsx, Hrest. }
  destruct (Hfold [] ltac:(constructor)) as (l' & Hl' & -> & Hrest). cbn [app].
  by rewrite components_join_segments.
Qed.

Lemma strip_prefix_Some p prefix r : strip_prefix p prefix = Some r → components prefix ≠ [] →
  components p = components prefix ++ components r.
Proof.
  unfold strip_prefix. intros H Hp. destruct (strip_components _ _) as [rest |] eqn:Hs; [| done]. injection H as <-.
  apply strip_components_Some in Hs. destruct (components prefix) as [| c cs] eqn:Hc; [done |].
  by rewrite (path_of_rest p c cs rest), Hs.
Qed.

Lemma strip_prefix_None p prefix : strip_prefix p prefix = None → ∀ rest, components p ≠ components prefix ++ rest.
Proof.
  unfold strip_prefix. intros H rest He. apply strip_components_Some in He. by rewrite He in H.
Qed.
