(* ===== verification/Datablob.v ===== *)
(** * Datablob: the Proxmox Backup Server data blob (pbs-client/src/datablob.rs)

    A blob is an 8-byte magic, the little-endian CRC-32 of the payload and the
    payload itself, either the plaintext or its zstd compression.  The crates
    sha2, crc32fast and zstd are parameters of the section. *)
From stdpp Require Import pretty.
From S2P Require Import Prelude.

(** pbs-client/src/error.rs *)
Inductive PbsError : Type :=
  | Config (msg : string)
  | Unauthorized (token_id : string)
  | Forbidden (datastore : string)
  | NotFound (datastore : string)
  | FingerprintMismatch (expected actual : string)
  | Http (status : Z) (message : string)
  | Transport (msg : string)
  | Decode (msg : string).

#[export] Instance PbsError_eq_dec : EqDecision PbsError.
Proof. solve_decision. Defined.

(** [Display] of the error. *)
Definition PbsError_fmt (e : PbsError) : string :=
  match e with
  | Config msg => "invalid PBS configuration: " +:+ msg
  | Unauthorized token_id =>
      "PBS rejected the API token (HTTP 401); verify the token id and secret for '" +:+ token_id +:+ "'"
  | Forbidden datastore =>
      "PBS denied access (HTTP 403); the token likely lacks the required datastore ACL (DatastoreAudit/DatastoreBackup) on '"
      +:+ datastore +:+ "'"
  | NotFound datastore =>
      "PBS datastore or namespace not found (HTTP 404) for datastore '" +:+ datastore +:+ "'"
  | FingerprintMismatch expected actual =>
      "PBS TLS certificate fingerprint mismatch: expected " +:+ expected +:+ ", server presented " +:+ actual
  | Http status message => "PBS returned HTTP " +:+ pretty status +:+ ": " +:+ message
  | Transport msg => "failed to reach PBS: " +:+ msg
  | Decode msg => "failed to parse PBS response: " +:+ msg
  end.

Definition UNCOMPRESSED_BLOB_MAGIC : bytes := [66; 171; 56; 7; 190; 131; 112; 161].
Definition COMPRESSED_BLOB_MAGIC : bytes := [49; 185; 88; 66; 111; 182; 163; 127].
Definition HEADER_SIZE : Z := 12.
Definition MAX_DECODED_BLOB : Z := 256 * 1024 * 1024.

Record EncodedBlob : Type := mk_EncodedBlob {
  blob_data : bytes;
  blob_digest : bytes;
  plaintext_size : Z;
}.

Section datablob.
(** [Sha256::digest], [crc32fast], and [zstd::bulk::{compress, decompress}]. *)
Context (sha256 : bytes → bytes) (crc32 : bytes → Z).
Context (zstd_compress : bytes → Z → option bytes).
Context (zstd_decompress : bytes → Z → result string bytes).

Definition encode_blob_with_digest (plaintext digest : bytes) : EncodedBlob :=
  let compressed := zstd_compress plaintext 1 in
  let '(magic, payload) :=
    match compressed with
    | Some compressed =>
        if zlen compressed <? zlen plaintext then (COMPRESSED_BLOB_MAGIC, compressed)
        else (UNCOMPRESSED_BLOB_MAGIC, plaintext)
    | None => (UNCOMPRESSED_BLOB_MAGIC, plaintext)
    end in
  let crc := crc32 payload in
  let data := magic ++ to_le_bytes 4 crc ++ payload in
  mk_EncodedBlob data digest (zlen plaintext).

Definition encode_blob (plaintext : bytes) : EncodedBlob :=
  encode_blob_with_digest plaintext (sha256 plaintext).

Definition decode_blob (raw : bytes) : result PbsError bytes :=
  magic ← ok_or (get_to raw 8) (Decode "blob shorter than header");
  crc_field ← ok_or (get_range raw 8 12) (Decode "blob shorter than header");
  payload ← ok_or (get_from raw HEADER_SIZE) (Decode "blob shorter than header");
  let stored_crc := from_le_bytes crc_field in
  if negb (crc32 payload =? stored_crc) then Err (Decode "blob crc mismatch")
  else if decide (magic = UNCOMPRESSED_BLOB_MAGIC) then Ok payload
  else if decide (magic = COMPRESSED_BLOB_MAGIC) then
    map_err (λ err, Decode ("zstd decode: " +:+ err)) (zstd_decompress payload MAX_DECODED_BLOB)
  else Err (Decode "unknown or encrypted blob magic (encryption is not supported)").

(** The frame of a blob with a given magic, checksum and payload. *)
Definition blob_frame (magic : bytes) (crc : Z) (payload : bytes) : bytes :=
  magic ++ to_le_bytes 4 crc ++ payload.

Lemma decode_blob_frame magic crc payload :
  zlen magic = 8 → in_u32 crc →
  decode_blob (blob_frame magic crc payload) =
    if negb (crc32 payload =? crc) then Err (Decode "blob crc mismatch")
    else if decide (magic = UNCOMPRESSED_BLOB_MAGIC) then Ok payload
    else if decide (magic = COMPRESSED_BLOB_MAGIC) then
      map_err (λ err, Decode ("zstd decode: " +:+ err)) (zstd_decompress payload MAX_DECODED_BLOB)
    else Err (Decode "unknown or encrypted blob magic (encryption is not supported)").
Proof.
  intros Hm Hc. unfold decode_blob, blob_frame.
  rewrite get_to_app by done.
  rewrite (get_range_app magic (to_le_bytes 4 crc)) by zlen_lia.
  rewrite (app_assoc magic), get_from_app by (unfold HEADER_SIZE; zlen_lia).
  cbn [ok_or mbind result_bind].
  by rewrite from_to_le_u32.
Qed.

Lemma decode_blob_short_or_frame raw :
  bytes_ok raw →
  decode_blob raw = Err (Decode "blob shorter than header") ∨
  ∃ magic crc payload, raw = blob_frame magic crc payload ∧ zlen magic = 8 ∧ in_u32 crc.
Proof using Type.
  intros Hraw. destruct (Z.ltb_spec (zlen raw) 12).
  - left. unfold decode_blob, get_from, HEADER_SIZE.
    destruct (get_to raw 8); cbn; [| done]. destruct (get_range raw 8 12); cbn; [| done].
    unfold get_range. rewrite (proj2 (Z.leb_gt 12 (zlen raw))) by lia. by rewrite andb_false_r.
  - right. exists (ztake 8 raw), (from_le_bytes (ztake 4 (zdrop 8 raw))), (zdrop 12 raw).
    assert (raw = ztake 8 raw ++ ztake 4 (zdrop 8 raw) ++ zdrop 12 raw) as Hsplit.
    { change 12 with (8 + 4). rewrite <- (zdrop_zdrop 4 8) by lia. by rewrite !ztake_zdrop. }
    assert (bytes_ok (ztake 4 (zdrop 8 raw))) as Hc.
    { rewrite Hsplit, !bytes_ok_app in Hraw. apply Hraw. }
    assert (zlen (ztake 4 (zdrop 8 raw)) = 4) as Hl by zlen_lia.
    split; [| split].
    + unfold blob_frame. rewrite Hsplit at 1. do 2 f_equal.
      replace 4%nat with (length (ztake 4 (zdrop 8 raw))) by (unfold zlen in Hl; lia).
      by rewrite to_from_le_bytes.
    + zlen_lia.
    + pose proof (from_le_bytes_range _ Hc) as Hr. rewrite Hl in Hr. exact Hr.
Qed.

Lemma encode_blob_frame plaintext digest :
  ∃ magic payload,
    blob_data (encode_blob_with_digest plaintext digest) = blob_frame magic (crc32 payload) payload ∧
    ((magic = UNCOMPRESSED_BLOB_MAGIC ∧ payload = plaintext) ∨
     (magic = COMPRESSED_BLOB_MAGIC ∧ zstd_compress plaintext 1 = Some payload ∧
      zlen payload < zlen plaintext)).
Proof.
  unfold encode_blob_with_digest. destruct (zstd_compress plaintext 1) as [c |].
  - destruct (Z.ltb_spec (zlen c) (zlen plaintext)).
    + exists COMPRESSED_BLOB_MAGIC, c. auto.
    + exists UNCOMPRESSED_BLOB_MAGIC, plaintext. auto.
  - exists UNCOMPRESSED_BLOB_MAGIC, plaintext. auto.
Qed.

Lemma blob_digest_encode plaintext digest :
  blob_digest (encode_blob_with_digest plaintext digest) = digest.
Proof. unfold encode_blob_with_digest. by repeat case_match. Qed.

Lemma plaintext_size_encode plaintext digest :
  plaintext_size (encode_blob_with_digest plaintext digest) = zlen plaintext.
Proof. unfold encode_blob_with_digest. by repeat case_match. Qed.

(** What the crates document: CRC-32 is a 32-bit value, and decompression
    with a large enough capacity undoes compression. *)
Context (crc32_u32 : ∀ d, in_u32 (crc32 d)).
Context (zstd_inverse : ∀ d c,
  zstd_compress d 1 = Some c → zlen d <= MAX_DECODED_BLOB → zstd_decompress c MAX_DECODED_BLOB = Ok d).

Lemma decode_encode_blob_with_digest plaintext digest :
  zlen plaintext <= MAX_DECODED_BLOB →
  decode_blob (blob_data (encode_blob_with_digest plaintext digest)) = Ok plaintext.
Proof.
  intros Hmax. destruct (encode_blob_frame plaintext digest) as (magic & payload & -> & Hcase).
  rewrite decode_blob_frame by (try apply crc32_u32; by destruct Hcase as [[-> _] | [-> _]]).
  rewrite Z.eqb_refl. cbn [negb]. destruct Hcase as [[-> ->] | (-> & Hz & _)].
  - by rewrite decide_True.
  - rewrite decide_False, decide_True by done. by rewrite (zstd_inverse _ _ Hz Hmax).
Qed.

(** ** Properties *)

(** A blob decodes to the plaintext it was encoded from, whether the
    encoder kept the plaintext or its compression; the digest and size
    recorded beside it are those of the plaintext, and the blob is never
    more than the 12-byte header longer than the plaintext. *)
Theorem blob_roundtrip plaintext :
  zlen plaintext <= MAX_DECODED_BLOB →
  let b := encode_blob plaintext in
  decode_blob (blob_data b) = Ok plaintext ∧
  blob_digest b = sha256 plaintext ∧
  plaintext_size b = zlen plaintext ∧
  zlen (blob_data b) <= zlen plaintext + HEADER_SIZE.
Proof.
  intros Hmax b. split; [by apply decode_encode_blob_with_digest |].
  unfold b, encode_blob.
  destruct (encode_blob_frame plaintext (sha256 plaintext)) as (magic & payload & Heq & Hcase).
  rewrite Heq. repeat split.
  - apply blob_digest_encode.
  - apply plaintext_size_encode.
  - unfold blob_frame, HEADER_SIZE. rewrite !zlen_app, zlen_to_le_bytes.
    change (Z.of_nat 4) with 4. destruct Hcase as [[-> ->] | (-> & _ & ?)]; change (zlen _) with 8 at 1; lia.
Qed.

(** The decoder accepts exactly the well-formed frames: those with a
    known magic whose checksum field is the CRC of the payload and, for a
    compressed blob, whose payload decompresses within the size limit.  So
    no blob whose payload disagrees with its checksum is ever returned. *)
Theorem decode_blob_accepts raw x :
  bytes_ok raw →
  decode_blob raw = Ok x ↔
  ∃ magic payload,
    raw = blob_frame magic (crc32 payload) payload ∧
    ((magic = UNCOMPRESSED_BLOB_MAGIC ∧ x = payload) ∨
     (magic = COMPRESSED_BLOB_MAGIC ∧ zstd_decompress payload MAX_DECODED_BLOB = Ok x)).
Proof.
  intros Hraw. split.
  - intros Hdec. destruct (decode_blob_short_or_frame raw Hraw) as [Hs | (m & c & p & -> & Hm & Hc)].
    { congruence. }
    rewrite decode_blob_frame in Hdec by done.
    destruct (Z.eqb_spec (crc32 p) c) as [<- | ?]; [| done]. exists m, p. split; [done |].
    repeat case_decide; cbn in Hdec; [left; split; congruence | | done].
    right. split; [done |]. by destruct (zstd_decompress p MAX_DECODED_BLOB); cbn in Hdec; simplify_eq.
  - intros (magic & payload & -> & Hcase).
    rewrite decode_blob_frame by (try apply crc32_u32; by destruct Hcase as [[-> _] | [-> _]]).
    rewrite Z.eqb_refl. cbn [negb]. destruct Hcase as [[-> ->] | [-> Hz]].
    + by rewrite decide_True.
    + rewrite decide_False, decide_True by done. by rewrite Hz.
Qed.
End datablob.

(** Concrete stand-ins for the crates, used by the witnesses only: a run of
    zero bytes is "compressed" to its length. *)
Definition toy_compress (d : bytes) (_ : Z) : option bytes :=
  if decide (d = replicate (length d) 0) then Some (to_le_bytes 8 (zlen d)) else None.
Definition toy_decompress (c : bytes) (cap : Z) : result string bytes :=
  if from_le_bytes c <=? cap then Ok (replicate (Z.to_nat (from_le_bytes c)) 0) else Err "too large".
Definition toy_sum (d : bytes) : Z := foldr Z.add 0 d mod 2 ^ 32.

Lemma toy_sum_u32 d : in_u32 (toy_sum d).
Proof. apply Z.mod_pos_bound. lia. Qed.

Lemma toy_inverse d c :
  toy_compress d 1 = Some c → zlen d <= MAX_DECODED_BLOB → toy_decompress c MAX_DECODED_BLOB = Ok d.
Proof.
  unfold toy_compress, toy_decompress, MAX_DECODED_BLOB. intros Hc Hcap. case_decide as Hd; [| done].
  simplify_eq. rewrite from_to_le_u64 by zlen_lia.
  destruct (Z.leb_spec (zlen d) (256 * 1024 * 1024)); [| lia]. unfold zlen. by rewrite Nat2Z.id, <- Hd.
Qed.

Lemma blob_roundtrip_witness :
  let plaintext := replicate 40 0 in
  decode_blob toy_sum toy_decompress
    (blob_data (encode_blob (λ d, to_le_bytes 32 (toy_sum d)) toy_sum toy_compress plaintext)) = Ok plaintext.
Proof.
  apply (blob_roundtrip (λ d, to_le_bytes 32 (toy_sum d)) toy_sum toy_compress toy_decompress
           toy_sum_u32 toy_inverse (replicate 40 0)).
  vm_compute. done.
Defined.

Lemma decode_blob_accepts_witness :
  let raw := UNCOMPRESSED_BLOB_MAGIC ++ [6; 0; 0; 0] ++ [1; 2; 3] in
  decode_blob toy_sum toy_decompress raw = Ok [1; 2; 3] ∧
  ∃ magic payload, raw = blob_frame magic (toy_sum payload) payload.
Proof.
  split; [reflexivity |].
  destruct (proj1 (decode_blob_accepts toy_sum toy_decompress toy_sum_u32
    (UNCOMPRESSED_BLOB_MAGIC ++ [6; 0; 0; 0] ++ [1; 2; 3]) [1; 2; 3] ltac:(repeat constructor; done)) ltac:(reflexivity))
    as (m & p & H & _).
  exists m, p. exact H.
Defined.
