(* ===== verification/Catalog.v ===== *)
(** * Catalog: the PBS file catalog (pbs-client/src/catalog.rs)

    The variable-length integers, the writer that emits one table per closed
    directory, and the parser that walks the tables back into a flat list of
    archive entries. *)
From S2P Require Import Prelude IoModel Paths Datablob.

Definition CATALOG_MAGIC : bytes := [145; 253; 96; 249; 196; 103; 88; 213].

Definition ENTRY_DIRECTORY : Z := 100.
Definition ENTRY_FILE : Z := 102.
Definition ENTRY_SYMLINK : Z := 108.
Definition ENTRY_HARDLINK : Z := 104.
Definition ENTRY_BLOCKDEV : Z := 98.
Definition ENTRY_CHARDEV : Z := 99.
Definition ENTRY_FIFO : Z := 112.
Definition ENTRY_SOCKET : Z := 115.

(** ** Encoding

    The loops shift a 64-bit value right by seven bits per turn, so ten turns
    always reach the last byte (lemma [encode_u64_eq]). *)

Fixpoint encode_u64_loop (fuel : nat) (out : bytes) (value : Z) : bytes :=
  match fuel with
  | O => out
  | S fuel =>
      if value <? 0x80 then out ++ [as_u8 value]
      else encode_u64_loop fuel (out ++ [Z.lor 0x80 (as_u8 (Z.land value 0x7f))]) (Z.shiftr value 7)
  end.
Definition encode_u64 (out : bytes) (value : Z) : bytes := encode_u64_loop 10 out value.

Fixpoint encode_i64_loop (fuel : nat) (out : bytes) (negative : bool) (magnitude : Z) : bytes :=
  match fuel with
  | O => out
  | S fuel =>
      if magnitude <? 0x40 then
        let sign := if negative then 0x40 else 0 in
        out ++ [Z.lor sign (as_u8 magnitude)]
      else encode_i64_loop fuel (out ++ [Z.lor 0x80 (as_u8 (Z.land magnitude 0x7f))]) negative
             (Z.shiftr magnitude 7)
  end.
Definition encode_i64 (out : bytes) (value : Z) : bytes :=
  let negative := value <? 0 in
  let magnitude := if negative then wrap64 (- (value + 1)) else wrap64 value in
  encode_i64_loop 10 out negative magnitude.

Module Attribute.
Inductive Attribute : Type :=
  | Directory (start : Z)
  | File (size mtime : Z)
  | Symlink
  | Hardlink
  | BlockDevice
  | CharDevice
  | Fifo
  | Socket.
End Attribute.

Record CatalogEntry : Type := mk_CatalogEntry {
  ce_name : bytes;
  ce_attribute : Attribute.Attribute;
}.

Record DirectoryInfo : Type := mk_DirectoryInfo {
  di_name : bytes;
  di_entries : list CatalogEntry;
}.

Definition DirectoryInfo_new (name : bytes) : DirectoryInfo := mk_DirectoryInfo name [].

Definition type_byte (attribute : Attribute.Attribute) : Z :=
  match attribute with
  | Attribute.Directory _ => ENTRY_DIRECTORY
  | Attribute.File _ _ => ENTRY_FILE
  | Attribute.Symlink => ENTRY_SYMLINK
  | Attribute.Hardlink => ENTRY_HARDLINK
  | Attribute.BlockDevice => ENTRY_BLOCKDEV
  | Attribute.CharDevice => ENTRY_CHARDEV
  | Attribute.Fifo => ENTRY_FIFO
  | Attribute.Socket => ENTRY_SOCKET
  end.

Definition encode_entry (table : bytes) (entry : CatalogEntry) (start : Z) : bytes :=
  let table := table ++ [type_byte (ce_attribute entry)] in
  let table := encode_u64 table (zlen (ce_name entry)) in
  let table := table ++ ce_name entry in
  match ce_attribute entry with
  | Attribute.Directory child_start => encode_u64 table (start -u child_start)
  | Attribute.File size mtime => encode_i64 (encode_u64 table size) mtime
  | _ => table
  end.

Definition DirectoryInfo_encode (self : DirectoryInfo) (start : Z) : bytes :=
  let table := encode_u64 [] (zlen (di_entries self)) in
  let table := fold_left (λ table entry, encode_entry table entry start) (di_entries self) table in
  let data := encode_u64 [] (zlen table) in
  data ++ table.

(** ** The writer

    [cw_stack] is the [Vec] of open directories, innermost first. *)

Record CatalogWriter (W : Type) : Type := mk_CatalogWriter {
  cw_writer : W;
  cw_stack : list DirectoryInfo;
  cw_pos : Z;
}.
Arguments mk_CatalogWriter {W} _ _ _.
Arguments cw_writer {W} _.
Arguments cw_stack {W} _.
Arguments cw_pos {W} _.

Section writer.
Context {W : Type} `{Write W}.

Definition CatalogWriter_new (writer : W) : result io_error (CatalogWriter W) :=
  match write_all CATALOG_MAGIC writer with
  | (Ok _, writer) => Ok (mk_CatalogWriter writer [DirectoryInfo_new []] (zlen CATALOG_MAGIC))
  | (Err e, _) => Err e
  end.

Definition cw_write_all (data : bytes) : stt (CatalogWriter W) io_error unit :=
  _ ← zoom cw_writer (λ w s, mk_CatalogWriter w (cw_stack s) (cw_pos s)) (write_all data);
  modify (λ s, mk_CatalogWriter (cw_writer s) (cw_stack s) (cw_pos s +u zlen data)).

(** [self.current()?.entries.push(entry)] *)
Definition push_current (entry : CatalogEntry) : stt (CatalogWriter W) io_error unit := λ s,
  match cw_stack s with
  | [] => (Err (IoOther "catalog directory stack underflow"), s)
  | dir :: rest =>
      let dir := mk_DirectoryInfo (di_name dir) (di_entries dir ++ [entry]) in
      (Ok tt, mk_CatalogWriter (cw_writer s) (dir :: rest) (cw_pos s))
  end.

Definition start_directory (name : bytes) : stt (CatalogWriter W) io_error unit :=
  modify (λ s, mk_CatalogWriter (cw_writer s) (DirectoryInfo_new name :: cw_stack s) (cw_pos s)).

Definition end_directory : stt (CatalogWriter W) io_error unit := λ s,
  match cw_stack s with
  | [] => (Err (IoOther "catalog directory stack underflow"), s)
  | dir :: rest =>
      let s := mk_CatalogWriter (cw_writer s) rest (cw_pos s) in
      match rest with
      | [] => (Err (IoOther "cannot end the catalog root directory"), s)
      | _ =>
          let start := cw_pos s in
          let data := DirectoryInfo_encode dir start in
          (cw_write_all data ≫= λ _,
             push_current (mk_CatalogEntry (di_name dir) (Attribute.Directory start))) s
      end
  end.

Definition cw_add (name : bytes) (attribute : Attribute.Attribute) :
    stt (CatalogWriter W) io_error unit :=
  push_current (mk_CatalogEntry name attribute).

Definition cw_add_file (name : bytes) (size mtime : Z) := cw_add name (Attribute.File size mtime).
Definition cw_add_symlink (name : bytes) := cw_add name Attribute.Symlink.
Definition cw_add_hardlink (name : bytes) := cw_add name Attribute.Hardlink.
Definition cw_add_block_device (name : bytes) := cw_add name Attribute.BlockDevice.
Definition cw_add_char_device (name : bytes) := cw_add name Attribute.CharDevice.
Definition cw_add_fifo (name : bytes) := cw_add name Attribute.Fifo.
Definition cw_add_socket (name : bytes) := cw_add name Attribute.Socket.

Definition cw_finish (self : CatalogWriter W) : result io_error W :=
  match cw_stack self with
  | [root] =>
      let start := cw_pos self in
      let data := DirectoryInfo_encode root start in
      let self := mk_CatalogWriter (cw_writer self) [] (cw_pos self) in
      match (cw_write_all data ≫= λ _, cw_write_all (to_le_bytes 8 start) ≫= λ _,
             zoom cw_writer (λ w s, mk_CatalogWriter w (cw_stack s) (cw_pos s)) flush) self with
      | (Ok _, self) => Ok (cw_writer self)
      | (Err e, _) => Err e
      end
  | _ => Err (IoOther "unbalanced catalog directories at finish")
  end.
End writer.

(** ** The parser *)

Definition MAX_CATALOG_DEPTH : Z := 1024.
Definition MAX_CATALOG_ENTRIES : Z := 100000000.

Definition decode_error (msg : string) : PbsError := Decode msg.

Record Cursor : Type := mk_Cursor { cur_data : bytes; cur_pos : Z }.

Definition Cursor_byte : stt Cursor PbsError Z := λ c,
  match get_at (cur_data c) (cur_pos c) with
  | Some value => (Ok value, mk_Cursor (cur_data c) (cur_pos c +u 1))
  | None => (Err (decode_error "catalog: unexpected end of data"), c)
  end.

Definition Cursor_take (len : Z) : stt Cursor PbsError bytes := λ c,
  match checked_add (cur_pos c) len with
  | None => (Err (decode_error "catalog: length overflow"), c)
  | Some end_ =>
      match get_range (cur_data c) (cur_pos c) end_ with
      | None => (Err (decode_error "catalog: slice out of range"), c)
      | Some slice => (Ok slice, mk_Cursor (cur_data c) end_)
      end
  end.

(** The shift grows by seven per turn and the eleventh turn is an error, so
    eleven turns suffice. *)
Fixpoint Cursor_u64_loop (fuel : nat) (value shift : Z) : stt Cursor PbsError Z :=
  match fuel with
  | O => throw (decode_error "catalog: varint too long")
  | S fuel =>
      byte ← Cursor_byte;
      if 64 <=? shift then throw (decode_error "catalog: varint too long") else
      let value := Z.lor value (wrap64 (Z.shiftl (Z.land byte 0x7f) shift)) in
      if Z.land byte 0x80 =? 0 then mret value
      else Cursor_u64_loop fuel value (shift + 7)
  end.
Definition Cursor_u64 : stt Cursor PbsError Z := Cursor_u64_loop 11 0 0.

Fixpoint Cursor_i64_loop (fuel : nat) (value shift : Z) : stt Cursor PbsError Z :=
  match fuel with
  | O => throw (decode_error "catalog: varint too long")
  | S fuel =>
      byte ← Cursor_byte;
      if 64 <=? shift then throw (decode_error "catalog: varint too long") else
      if negb (Z.land byte 0x80 =? 0) then
        Cursor_i64_loop fuel (Z.lor value (wrap64 (Z.shiftl (Z.land byte 0x7f) shift))) (shift + 7)
      else
        let value := Z.lor value (wrap64 (Z.shiftl (Z.land byte 0x3f) shift)) in
        mret (if negb (Z.land byte 0x40 =? 0) then as_i64 (as_i64 (- as_i64 value) - 1) else as_i64 value)
  end.
Definition Cursor_i64 : stt Cursor PbsError Z := Cursor_i64_loop 11 0 0.

Module RawKind.
Inductive RawKind : Type :=
  | Directory (child : Z)
  | File (size mtime : Z)
  | Symlink
  | Hardlink
  | Other.
End RawKind.

Record RawEntry : Type := mk_RawEntry { re_name : bytes; re_kind : RawKind.RawKind }.

Definition usize_from {S} (z : Z) (msg : string) : stt S PbsError Z :=
  lift (ok_or (usize_try_from z) (decode_error msg)).

Definition read_kind (block_pos type_byte : Z) : stt Cursor PbsError RawKind.RawKind :=
  if type_byte =? ENTRY_DIRECTORY then
    delta ← Cursor_u64 ≫= λ d, usize_from d "catalog: directory offset overflow";
    child ← lift (ok_or (checked_sub block_pos delta) (decode_error "catalog: directory offset underflow"));
    mret (RawKind.Directory child)
  else if type_byte =? ENTRY_FILE then
    size ← Cursor_u64; mtime ← Cursor_i64; mret (RawKind.File size mtime)
  else if type_byte =? ENTRY_SYMLINK then mret RawKind.Symlink
  else if type_byte =? ENTRY_HARDLINK then mret RawKind.Hardlink
  else if (type_byte =? ENTRY_BLOCKDEV) || (type_byte =? ENTRY_CHARDEV)
       || (type_byte =? ENTRY_FIFO) || (type_byte =? ENTRY_SOCKET) then mret RawKind.Other
  else throw (decode_error "catalog: unknown entry type").

Definition read_entry (block_pos : Z) : stt Cursor PbsError RawEntry :=
  type_byte ← Cursor_byte;
  name_len ← Cursor_u64 ≫= λ l, usize_from l "catalog: name length overflow";
  name ← Cursor_take name_len;
  kind ← read_kind block_pos type_byte;
  mret (mk_RawEntry name kind).

(** The [for _ in 0..count] loop; every turn that does not fail consumes at
    least one byte of the table, so one turn more than the table has bytes
    is enough fuel. *)
Fixpoint read_entries (fuel : nat) (block_pos count : Z) (entries : list RawEntry) :
    stt Cursor PbsError (list RawEntry) :=
  if count <=? 0 then mret entries else
  match fuel with
  | O => throw (decode_error "catalog: unexpected end of data")
  | S fuel =>
      entry ← read_entry block_pos;
      read_entries fuel block_pos (count - 1) (entries ++ [entry])
  end.

Definition read_table (data : bytes) (block_pos : Z) : result PbsError (list RawEntry) :=
  table ← fst ((table_len ← Cursor_u64 ≫= λ l, usize_from l "catalog: table length overflow";
                Cursor_take table_len) (mk_Cursor data block_pos));
  fst ((count ← Cursor_u64; read_entries (S (length table)) block_pos count []) (mk_Cursor table 0)).

(** ** Walking the tables (pbs-client/src/accessor.rs declares the entries) *)

Module ArchiveEntryKind.
Inductive ArchiveEntryKind : Type := Directory | File | Symlink.
End ArchiveEntryKind.

Record ArchiveEntry : Type := mk_ArchiveEntry {
  ae_path : bytes;
  ae_kind : ArchiveEntryKind.ArchiveEntryKind;
  ae_size : Z;
  ae_mode : Z;
  ae_mtime : Z;
  ae_symlink : option bytes;
}.

(** The octal modes [0o755], [0o644] and [0o777]. *)
Definition MODE_755 : Z := 493.
Definition MODE_644 : Z := 420.
Definition MODE_777 : Z := 511.

(** The accumulators the recursion threads by [&mut]. *)
Record WalkState : Type := mk_WalkState { wk_out : list ArchiveEntry; wk_visited : gset Z }.

Definition wk_push (e : ArchiveEntry) : stt WalkState PbsError unit :=
  modify (λ s, mk_WalkState (wk_out s ++ [e]) (wk_visited s)).

Definition wk_check_limit : stt WalkState PbsError unit := λ s,
  if MAX_CATALOG_ENTRIES <=? zlen (wk_out s)
  then (Err (decode_error "catalog: emitted entry count exceeds limit"), s) else (Ok tt, s).

Definition wk_visit (block_pos : Z) : stt WalkState PbsError unit := λ s,
  if decide (block_pos ∈ wk_visited s)
  then (Err (decode_error "catalog: block revisited (shared child)"), s)
  else (Ok tt, mk_WalkState (wk_out s) ({[block_pos]} ∪ wk_visited s)).

(** The recursion carries its own depth limit, so [MAX_CATALOG_DEPTH + 2]
    levels of fuel are never used up. *)
Fixpoint push_walk (fuel : nat) (data : bytes) (block_pos : Z) (base : bytes) (depth : Z) :
    stt WalkState PbsError unit :=
  match fuel with
  | O => throw (decode_error "catalog: directory nesting too deep")
  | S fuel =>
      if MAX_CATALOG_DEPTH <? depth then throw (decode_error "catalog: directory nesting too deep") else
      _ ← wk_visit block_pos;
      entries ← lift (read_table data block_pos);
      foreach (λ entry,
        _ ← wk_check_limit;
        let path := path_join base (re_name entry) in
        match re_kind entry with
        | RawKind.Directory child =>
            _ ← wk_push (mk_ArchiveEntry path ArchiveEntryKind.Directory 0 MODE_755 0 None);
            push_walk fuel data child path (depth + 1)
        | RawKind.File size mtime =>
            wk_push (mk_ArchiveEntry path ArchiveEntryKind.File size MODE_644 mtime None)
        | RawKind.Hardlink =>
            wk_push (mk_ArchiveEntry path ArchiveEntryKind.File 0 MODE_644 0 None)
        | RawKind.Symlink =>
            wk_push (mk_ArchiveEntry path ArchiveEntryKind.Symlink 0 MODE_777 0 None)
        | RawKind.Other => mret tt
        end) entries
  end.

Definition walk_fuel : nat := 1026.

Definition parse_catalog (data : bytes) : result PbsError (list ArchiveEntry) :=
  if negb (bool_decide (get_to data (zlen CATALOG_MAGIC) = Some CATALOG_MAGIC))
  then Err (decode_error "catalog: invalid magic") else
  trailer_start ← ok_or (checked_sub (zlen data) 8) (decode_error "catalog: missing trailer");
  trailer ← ok_or (get_from data trailer_start) (decode_error "catalog: missing trailer");
  root_offset ← ok_or (usize_try_from (from_le_bytes trailer)) (decode_error "catalog: root offset overflow");
  entries ← read_table data root_offset;
  let '(r, s) :=
    foreach (λ entry,
      let path := re_name entry in
      match re_kind entry with
      | RawKind.Directory child => push_walk walk_fuel data child [] 0
      | RawKind.File size mtime =>
          _ ← wk_check_limit;
          wk_push (mk_ArchiveEntry path ArchiveEntryKind.File size MODE_644 mtime None)
      | _ => mret tt
      end) entries (mk_WalkState [] {[root_offset]}) in
  _ ← r; Ok (wk_out s).

(** ** Lemmas: the variable-length integers *)
Lemma encode_u64_loop_app fuel out v :
  encode_u64_loop fuel out v = out ++ encode_u64_loop fuel [] v.
Proof.
  revert out v. induction fuel as [| fuel IH]; intros out v; cbn; [by rewrite app_nil_r |].
  destruct (v <? 128); [done |]. rewrite IH, (IH [_]). by rewrite app_assoc.
Qed.

Lemma encode_u64_app out v : encode_u64 out v = out ++ encode_u64 [] v.
Proof. apply encode_u64_loop_app. Qed.

Lemma encode_i64_loop_app fuel out neg v :
  encode_i64_loop fuel out neg v = out ++ encode_i64_loop fuel [] neg v.
Proof.
  revert out v. induction fuel as [| fuel IH]; intros out v; cbn; [by rewrite app_nil_r |].
  destruct (v <? 64); [done |]. rewrite IH, (IH [_]). by rewrite app_assoc.
Qed.

Lemma encode_i64_app out v : encode_i64 out v = out ++ encode_i64 [] v.
Proof. apply encode_i64_loop_app. Qed.

(** The continuation byte both encoders emit. *)
Lemma continuation_byte v : Z.lor 128 (as_u8 (Z.land v 127)) = 128 + v mod 128.
Proof.
  rewrite land_127. pose proof (Z.mod_pos_bound v 128 ltac:(lia)).
  unfold as_u8. rewrite (Z.mod_small _ 256) by lia. by apply lor_128.
Qed.

Lemma continuation_byte_ok v : byte_ok (128 + v mod 128).
Proof. unfold byte_ok. pose proof (Z.mod_pos_bound v 128). lia. Qed.

Lemma varint_split v p : 0 <= v → 0 < p →
  v * p = v mod 128 * p + v / 128 * (p * 128) ∧
  0 <= v mod 128 * p <= 127 * p ∧ 0 <= v / 128 * (p * 128).
Proof.
  intros Hv Hp. pose proof (Z.mod_pos_bound v 128 ltac:(lia)). split; [| split; [split |]].
  - rewrite (Z.div_mod v 128) at 1 by lia. ring.
  - apply Z.mul_nonneg_nonneg; lia.
  - apply Z.mul_le_mono_nonneg_r; lia.
  - apply Z.mul_nonneg_nonneg; [apply Z.div_pos |]; lia.
Qed.

(** A 64-bit value that still has a continuation byte leaves room for it. *)
Lemma varint_shift_lt v shift :
  128 <= v → 0 <= shift → v * 2 ^ shift < 2 ^ 64 → shift + 7 < 64.
Proof.
  intros Hv Hs Hlt. destruct (Z.ltb_spec (shift + 7) 64); [done |].
  assert (2 ^ 64 <= 2 ^ (shift + 7)) as Hle by (apply Z.pow_le_mono_r; lia).
  rewrite Z.pow_add_r in Hle by lia. change (2 ^ 7) with 128 in Hle.
  pose proof (Z.pow_pos_nonneg 2 shift ltac:(lia) ltac:(lia)) as Hp.
  pose proof (Z.mul_le_mono_nonneg_r 128 v (2 ^ shift) ltac:(lia) Hv). lia.
Qed.

(** Accumulating seven more bits. *)
Lemma varint_accumulate acc b v shift :
  0 <= shift → 0 <= acc < 2 ^ shift → 0 <= b → b * 2 ^ shift <= v * 2 ^ shift → v * 2 ^ shift < 2 ^ 64 →
  Z.lor acc (wrap64 (Z.shiftl b shift)) = acc + b * 2 ^ shift.
Proof.
  intros Hs Ha Hb Hle Hv. rewrite <- lor_low_high by done. f_equal. apply wrap64_small.
  rewrite Z.shiftl_mul_pow2 by done. unfold in_u64. nia.
Qed.

(** ** Parsing what was encoded

    [parses m enc a]: run at the start of [enc], wherever it lies in the
    data, [m] returns [a] and stops at the end of [enc]. *)
Definition parses {A} (m : stt Cursor PbsError A) (enc : bytes) (a : A) : Prop :=
  ∀ pre post, zlen (pre ++ enc) < 2 ^ 64 →
    m (mk_Cursor (pre ++ enc ++ post) (zlen pre)) =
      (Ok a, mk_Cursor (pre ++ enc ++ post) (zlen (pre ++ enc))).

Lemma parses_ret {A} (a : A) : parses (mret a) [] a.
Proof. intros pre post _. by rewrite !app_nil_r. Qed.

Lemma parses_bind {A B} (m : stt Cursor PbsError A) (f : A → stt Cursor PbsError B) e1 e2 a b :
  parses m e1 a → parses (f a) e2 b → parses (m ≫= f) (e1 ++ e2) b.
Proof.
  intros Hm Hf pre post Hlen. rewrite <- app_assoc.
  rewrite (stt_bind_ok _ _ _ _ _ (Hm pre (e2 ++ post) ltac:(zlen_lia))).
  specialize (Hf (pre ++ e1) post). rewrite <- !app_assoc in Hf. by apply Hf.
Qed.

Lemma parses_bind_ret {A B} (m : stt Cursor PbsError A) (f : A → stt Cursor PbsError B) e a b :
  parses m e a → (∀ c, f a c = (Ok b, c)) → parses (m ≫= f) e b.
Proof.
  intros Hm Hf. rewrite <- (app_nil_r e). apply (parses_bind _ _ _ _ a); [done |].
  intros pre post _. rewrite Hf. by rewrite !app_nil_r.
Qed.

Lemma parses_byte b : parses Cursor_byte [b] b.
Proof.
  intros pre post Hl. unfold Cursor_byte. cbn [cur_data cur_pos app]. rewrite get_at_app by done.
  rewrite u64_add_small by zlen_lia. by rewrite zlen_app.
Qed.

Lemma parses_take d : parses (Cursor_take (zlen d)) d d.
Proof.
  intros pre post Hl. unfold Cursor_take. cbn [cur_data cur_pos].
  rewrite checked_add_small by zlen_lia. rewrite get_range_app by zlen_lia.
  by rewrite zlen_app.
Qed.

Lemma parses_u64_loop fe : ∀ fd acc shift v,
  (0 < fe <= fd)%nat → 0 <= v < 2 ^ (7 * Z.of_nat fe) →
  0 <= shift < 64 → 0 <= acc < 2 ^ shift → v * 2 ^ shift < 2 ^ 64 →
  parses (Cursor_u64_loop fd acc shift) (encode_u64_loop fe [] v) (acc + v * 2 ^ shift).
Proof.
  induction fe as [| fe IH]; intros fd acc shift v Hfd Hv Hs Ha Hmax; [lia |].
  destruct fd as [| fd]; [lia |]. cbn [encode_u64_loop Cursor_u64_loop].
  pose proof (Z.pow_pos_nonneg 2 shift ltac:(lia) ltac:(lia)) as Hp.
  destruct (Z.ltb_spec v 128); cbn [app].
  - apply (parses_bind_ret _ _ _ (as_u8 v)); [apply parses_byte |]. intros c.
    unfold as_u8. rewrite Z.mod_small by lia.
    destruct (Z.leb_spec 64 shift); [lia |]. rewrite land_127, Z.mod_small by lia.
    rewrite (varint_accumulate acc v v shift) by lia. rewrite land_128 by (unfold byte_ok; lia).
    destruct (Z.ltb_spec v 128); [done | lia].
  - rewrite encode_u64_loop_app, continuation_byte.
    assert (2 ^ shift * 128 = 2 ^ (shift + 7)) as Hp7 by (rewrite Z.pow_add_r; lia).
    destruct (varint_split v (2 ^ shift)) as (Hsp & Hlow & Hhigh); [lia | lia |].
    rewrite Hp7 in Hsp, Hhigh.
    pose proof (Z.mod_pos_bound v 128 ltac:(lia)) as Hmb.
    assert (0 < fe)%nat by (destruct fe; [cbn in Hv; lia | lia]).
    assert (shift + 7 < 64) by (apply (varint_shift_lt v); lia).
    apply (parses_bind _ _ [_] _ (128 + v mod 128)); [apply parses_byte |].
    destruct (Z.leb_spec 64 shift); [lia |].
    rewrite land_127, land_128 by apply continuation_byte_ok.
    destruct (Z.ltb_spec (128 + v mod 128) 128); [lia |]. cbn [Z.eqb].
    replace ((128 + v mod 128) mod 128) with (v mod 128) by
      (rewrite Z.add_mod, Z.mod_same, Z.add_0_l, !Z.mod_mod by lia; done).
    rewrite (varint_accumulate acc (v mod 128) v shift) by lia.
    rewrite shiftr_7.
    rewrite Hsp, Z.add_assoc. apply IH; [lia | | lia | lia | lia].
    rewrite Nat2Z.inj_succ, Z.mul_succ_r, Z.pow_add_r in Hv by lia. change (2 ^ 7) with 128 in Hv.
    split; [apply Z.div_pos; lia | apply Z.div_lt_upper_bound; lia].
Qed.

Lemma parses_u64 v : in_u64 v → parses Cursor_u64 (encode_u64 [] v) v.
Proof.
  intros Hv. replace v with (0 + v * 2 ^ 0) at 2 by lia.
  apply (parses_u64_loop 10 11); [lia | | lia | lia | unfold in_u64 in Hv; lia].
  unfold in_u64 in Hv. split; [lia |]. change (2 ^ (7 * Z.of_nat 10)) with (2 ^ 70). lia.
Qed.

Lemma sign_byte (neg : bool) v : 0 <= v < 64 →
  Z.lor (if neg then 64 else 0) (as_u8 v) = (if neg then 64 else 0) + v.
Proof.
  intros Hv. unfold as_u8. rewrite Z.mod_small by lia.
  destruct neg; [by apply lor_64 | done].
Qed.

Definition signed (neg : bool) (m : Z) : Z := if neg then - m - 1 else m.

Lemma parses_i64_loop neg fe : ∀ fd acc shift v,
  (0 < fe <= fd)%nat → 0 <= v < 2 ^ (7 * Z.of_nat fe - 1) →
  0 <= shift < 64 → 0 <= acc < 2 ^ shift → acc + v * 2 ^ shift < 2 ^ 63 →
  parses (Cursor_i64_loop fd acc shift) (encode_i64_loop fe [] neg v) (signed neg (acc + v * 2 ^ shift)).
Proof.
  induction fe as [| fe IH]; intros fd acc shift v Hfd Hv Hs Ha Hmax; [lia |].
  destruct fd as [| fd]; [lia |]. cbn [encode_i64_loop Cursor_i64_loop].
  pose proof (Z.pow_pos_nonneg 2 shift ltac:(lia) ltac:(lia)) as Hp.
  destruct (Z.ltb_spec v 64); cbn [app].
  - rewrite sign_byte by lia.
    apply (parses_bind_ret _ _ _ ((if neg then 64 else 0) + v)); [apply parses_byte |]. intros c.
    destruct (Z.leb_spec 64 shift); [lia |].
    rewrite land_128, land_64 by (unfold byte_ok; destruct neg; lia). rewrite land_63.
    assert (((if neg then 64 else 0) + v) mod 64 = v) as ->.
    { destruct neg; [| rewrite Z.mod_small; lia].
      replace (64 + v) with (v + 1 * 64) by lia. rewrite Z.mod_add, Z.mod_small; lia. }
    rewrite (Z.mod_small _ 128) by (destruct neg; lia).
    destruct (Z.ltb_spec ((if neg then 64 else 0) + v) 128); [| destruct neg; lia]. cbn [Z.eqb negb].
    rewrite (varint_accumulate acc v v shift) by lia.
    assert (as_i64 (acc + v * 2 ^ shift) = acc + v * 2 ^ shift) as Hi.
    { unfold as_i64. rewrite Z.mod_small by nia.
      destruct (Z.ltb_spec (acc + v * 2 ^ shift) (2 ^ 63)); [done | lia]. }
    rewrite Hi. unfold mret, stt_ret, signed. do 2 f_equal. destruct neg.
    + destruct (Z.ltb_spec (64 + v) 64); [lia |]. cbn [Z.eqb negb]. unfold as_i64.
      assert (0 <= acc + v * 2 ^ shift) by nia.
      pose proof (as_i64_wrap (- (acc + v * 2 ^ shift)) ltac:(unfold in_i64; lia)) as Hw1.
      pose proof (as_i64_wrap (- (acc + v * 2 ^ shift) - 1) ltac:(unfold in_i64; lia)) as Hw2.
      unfold as_i64, wrap64 in Hw1, Hw2. rewrite Z.mod_mod in Hw1, Hw2 by lia. by rewrite Hw1, Hw2.
    + destruct (Z.ltb_spec (0 + v) 64); [done | lia].
  - rewrite encode_i64_loop_app, continuation_byte.
    assert (2 ^ shift * 128 = 2 ^ (shift + 7)) as Hp7 by (rewrite Z.pow_add_r; lia).
    destruct (varint_split v (2 ^ shift)) as (Hsp & Hlow & Hhigh); [lia | lia |].
    rewrite Hp7 in Hsp, Hhigh.
    pose proof (Z.mod_pos_bound v 128 ltac:(lia)) as Hmb.
    assert (0 < fe)%nat by (destruct fe; [cbn in Hv; lia | lia]).
    assert (shift + 7 < 64) by (apply (varint_shift_lt (2 * v)); lia).
    apply (parses_bind _ _ [_] _ (128 + v mod 128)); [apply parses_byte |].
    destruct (Z.leb_spec 64 shift); [lia |].
    rewrite land_127, land_128 by apply continuation_byte_ok.
    destruct (Z.ltb_spec (128 + v mod 128) 128); [lia |]. cbn [Z.eqb negb].
    replace ((128 + v mod 128) mod 128) with (v mod 128) by
      (rewrite Z.add_mod, Z.mod_same, Z.add_0_l, !Z.mod_mod by lia; done).
    rewrite (varint_accumulate acc (v mod 128) v shift) by lia.
    rewrite shiftr_7.
    rewrite Hsp, Z.add_assoc. apply IH; [lia | | lia | lia | lia].
    rewrite Nat2Z.inj_succ in Hv.
    replace (7 * Z.succ (Z.of_nat fe) - 1) with (7 * Z.of_nat fe - 1 + 7) in Hv by lia.
    rewrite Z.pow_add_r in Hv by lia. change (2 ^ 7) with 128 in Hv.
    split; [apply Z.div_pos; lia | apply Z.div_lt_upper_bound; lia].
Qed.

Lemma parses_i64 v : in_i64 v → parses Cursor_i64 (encode_i64 [] v) v.
Proof.
  intros Hv. unfold in_i64 in Hv. unfold encode_i64, Cursor_i64.
  set (neg := v <? 0). set (m := if neg then wrap64 (- (v + 1)) else wrap64 v).
  assert (m = if neg then - (v + 1) else v) as Hm.
  { unfold m, neg. destruct (Z.ltb_spec v 0); apply wrap64_small; unfold in_u64; lia. }
  assert (v = signed neg (0 + m * 2 ^ 0)) as Hvm.
  { rewrite Hm. unfold signed, neg. destruct (Z.ltb_spec v 0); lia. }
  rewrite Hvm at 1. apply (parses_i64_loop neg 10 11); try lia.
  - rewrite Hm. change (2 ^ (7 * Z.of_nat 10 - 1)) with (2 ^ 69). unfold neg. destruct (Z.ltb_spec v 0); lia.
  - rewrite Hm. unfold neg. destruct (Z.ltb_spec v 0); lia.
Qed.
(** ** Lemmas: tables *)

Lemma encode_entry_app table e start :
  encode_entry table e start = table ++ encode_entry [] e start.
Proof.
  unfold encode_entry. cbn [app]. rewrite (encode_u64_app (table ++ _)), (encode_u64_app [_]).
  destruct (ce_attribute e).
  1: rewrite encode_u64_app, (encode_u64_app ((_ ++ _) ++ _) (_ -u _)).
  2: rewrite encode_i64_app, (encode_i64_app (encode_u64 _ _)), encode_u64_app,
       (encode_u64_app ((_ ++ _) ++ _) size).
  all: by rewrite <- ?app_assoc.
Qed.

Definition entries_bytes (start : Z) (es : list CatalogEntry) : bytes :=
  concat (map (λ e, encode_entry [] e start) es).

Lemma fold_encode_entries start es table :
  fold_left (λ table entry, encode_entry table entry start) es table = table ++ entries_bytes start es.
Proof.
  revert table. induction es as [| e es IH]; intros table; cbn; [by rewrite app_nil_r |].
  rewrite IH, encode_entry_app. by rewrite <- app_assoc.
Qed.

Definition table_bytes (start : Z) (es : list CatalogEntry) : bytes :=
  encode_u64 [] (zlen es) ++ entries_bytes start es.

Lemma DirectoryInfo_encode_eq d start :
  DirectoryInfo_encode d start =
    encode_u64 [] (zlen (table_bytes start (di_entries d))) ++ table_bytes start (di_entries d).
Proof. unfold DirectoryInfo_encode. by rewrite fold_encode_entries. Qed.

(** What the parser sees of an entry. *)
Definition raw_kind (a : Attribute.Attribute) : RawKind.RawKind :=
  match a with
  | Attribute.Directory start => RawKind.Directory start
  | Attribute.File size mtime => RawKind.File size mtime
  | Attribute.Symlink => RawKind.Symlink
  | Attribute.Hardlink => RawKind.Hardlink
  | _ => RawKind.Other
  end.
Definition raw_entry (e : CatalogEntry) : RawEntry := mk_RawEntry (ce_name e) (raw_kind (ce_attribute e)).

Definition attribute_ok (start : Z) (a : Attribute.Attribute) : Prop :=
  match a with
  | Attribute.Directory child => 0 <= child <= start
  | Attribute.File size mtime => in_u64 size ∧ in_i64 mtime
  | _ => True
  end.

Lemma parses_bind_state {A B} (r : result PbsError A) (f : A → stt Cursor PbsError B) e a b :
  r = Ok a → parses (f a) e b → parses (lift r ≫= f) e b.
Proof. intros -> Hf. exact Hf. Qed.

Lemma parses_usize v msg :
  in_u64 v → parses (Cursor_u64 ≫= λ l, usize_from l msg) (encode_u64 [] v) v.
Proof.
  intros Hv. apply (parses_bind_ret _ _ _ v); [by apply parses_u64 |].
  intros c. unfold usize_from. rewrite usize_try_from_small by (unfold in_u64 in Hv; lia). done.
Qed.

Definition attribute_bytes (start : Z) (a : Attribute.Attribute) : bytes :=
  match a with
  | Attribute.Directory child_start => encode_u64 [] (start -u child_start)
  | Attribute.File size mtime => encode_u64 [] size ++ encode_i64 [] mtime
  | _ => []
  end.

Lemma encode_entry_eq e start :
  encode_entry [] e start =
    [type_byte (ce_attribute e)] ++ encode_u64 [] (zlen (ce_name e)) ++ ce_name e ++
    attribute_bytes start (ce_attribute e).
Proof.
  unfold encode_entry. cbn [app]. rewrite (encode_u64_app [_]).
  destruct (ce_attribute e); cbn [attribute_bytes]; rewrite ?app_nil_r.
  1: rewrite encode_u64_app.
  2: rewrite encode_i64_app, encode_u64_app.
  all: by rewrite <- ?app_assoc.
Qed.

Lemma parses_kind start a :
  in_u64 start → attribute_ok start a →
  parses (read_kind start (type_byte a)) (attribute_bytes start a) (raw_kind a).
Proof.
  intros Hs Ha. destruct a; cbn in Ha |- *; unfold read_kind; cbn [Z.eqb orb]; try apply parses_ret.
  - rewrite u64_sub_small by (unfold in_u64 in *; lia).
    apply (parses_bind_ret _ _ _ (start - start0)); [apply parses_usize; unfold in_u64 in *; lia |].
    intros c. unfold lift, mbind, stt_bind. rewrite checked_sub_small by lia. cbn.
    by replace (start - (start - start0)) with start0 by lia.
  - destruct Ha as [Hsz Hm].
    apply (parses_bind _ _ _ _ size); [by apply parses_u64 |].
    apply (parses_bind_ret _ _ _ mtime); [by apply parses_i64 | done].
Qed.

Lemma parses_entry start e :
  in_u64 start → in_u64 (zlen (ce_name e)) → attribute_ok start (ce_attribute e) →
  parses (read_entry start) (encode_entry [] e start) (raw_entry e).
Proof.
  intros Hs Hn Ha. rewrite encode_entry_eq. unfold read_entry.
  apply (parses_bind _ _ _ _ (type_byte (ce_attribute e))); [apply parses_byte |].
  eapply parses_bind; [by apply parses_usize |].
  eapply parses_bind; [apply parses_take |].
  eapply parses_bind_ret; [by apply parses_kind | done].
Qed.

Definition entry_ok (start : Z) (e : CatalogEntry) : Prop :=
  in_u64 (zlen (ce_name e)) ∧ attribute_ok start (ce_attribute e).

Lemma parses_entries start es : ∀ fuel acc,
  in_u64 start → Forall (entry_ok start) es → (length es <= fuel)%nat →
  parses (read_entries fuel start (zlen es) acc) (entries_bytes start es) (acc ++ map raw_entry es).
Proof.
  induction es as [| e es IH]; intros fuel acc Hs Hes Hf.
  - rewrite app_nil_r. destruct fuel; apply parses_ret.
  - destruct fuel as [| fuel]; [cbn in Hf; lia |]. inversion Hes as [| ? ? [Hn Ha] Hes']; subst.
    cbn [read_entries]. destruct (Z.leb_spec (zlen (e :: es)) 0); [zlen_lia |].
    eapply parses_bind; [by apply parses_entry |].
    replace (zlen (e :: es) - 1) with (zlen es) by zlen_lia.
    replace (acc ++ map raw_entry (e :: es)) with ((acc ++ [raw_entry e]) ++ map raw_entry es)
      by (by rewrite <- app_assoc).
    apply IH; [done | done | cbn in Hf; lia].
Qed.

Lemma entries_bytes_length start es : (length es <= length (entries_bytes start es))%nat.
Proof.
  induction es as [| e es IH]; cbn; [lia |]. unfold entries_bytes in IH.
  rewrite length_app, encode_entry_eq. cbn. lia.
Qed.

(** A block decodes to its entries wherever it is placed. *)
Lemma read_table_encode d pre post :
  zlen (pre ++ DirectoryInfo_encode d (zlen pre)) < 2 ^ 64 →
  Forall (entry_ok (zlen pre)) (di_entries d) →
  read_table (pre ++ DirectoryInfo_encode d (zlen pre) ++ post) (zlen pre) =
    Ok (map raw_entry (di_entries d)).
Proof.
  rewrite DirectoryInfo_encode_eq. set (tb := table_bytes (zlen pre) (di_entries d)).
  intros Hlen Hes. unfold read_table.
  assert (parses (table_len ← Cursor_u64 ≫= λ l, usize_from l "catalog: table length overflow";
                  Cursor_take table_len) (encode_u64 [] (zlen tb) ++ tb) tb) as Hp.
  { eapply parses_bind; [apply parses_usize; zlen_lia | apply parses_take]. }
  rewrite (Hp pre post Hlen). cbn [fst mbind result_bind].
  assert (parses (count ← Cursor_u64; read_entries (S (length tb)) (zlen pre) count [])
            tb (map raw_entry (di_entries d))) as Hp2.
  { pose proof (entries_bytes_length (zlen pre) (di_entries d)) as Hel.
    assert (length (entries_bytes (zlen pre) (di_entries d)) <= length tb)%nat.
    { unfold tb, table_bytes. rewrite length_app. lia. }
    eapply parses_bind; [apply parses_u64; unfold zlen in *; rewrite ?length_app in Hlen; unfold in_u64; lia |].
    apply (parses_entries (zlen pre) _ _ []); [zlen_lia | done | lia]. }
  specialize (Hp2 [] []). rewrite app_nil_r in Hp2. cbn [app] in Hp2.
  change (zlen []) with 0 in Hp2. rewrite Hp2; [done | zlen_lia].
Qed.
