(* ===== verification/CatalogTree.v ===== *)
(** * CatalogTree: the catalog as a map from directory trees

    The specification of the catalog file: a forest of named nodes, the bytes
    it is stored as and the entries the parser reports for it, with the
    theorems that the writer produces those bytes and that the parser reads
    them back. *)
From S2P Require Import Prelude IoModel Paths Datablob Catalog.

(** ** Directory trees, as the specification of the catalog *)

Inductive node : Type :=
  | NDir (name : bytes) (children : list node)
  | NLeaf (name : bytes) (attribute : Attribute.Attribute).

Section node_ind.
Context (P : node → Prop).
Context (Hdir : ∀ name children, Forall P children → P (NDir name children)).
Context (Hleaf : ∀ name attribute, P (NLeaf name attribute)).
Fixpoint node_induction (n : node) : P n :=
  match n with
  | NDir name children =>
      Hdir name children
        ((fix go l := match l return Forall P l with
                      | [] => Forall_nil_2 P
                      | x :: l => Forall_cons_2 P x l (node_induction x) (go l)
                      end) children)
  | NLeaf name attribute => Hleaf name attribute
  end.
End node_ind.

Definition node_name (n : node) : bytes := match n with NDir name _ => name | NLeaf name _ => name end.

(** A leaf is anything but a directory, with in-range fields. *)
Definition leaf_ok (a : Attribute.Attribute) : Prop :=
  match a with
  | Attribute.Directory _ => False
  | Attribute.File size mtime => in_u64 size ∧ in_i64 mtime
  | _ => True
  end.
Fixpoint node_ok (n : node) : Prop :=
  match n with
  | NDir name children => in_u64 (zlen name) ∧ foldr (λ c P, node_ok c ∧ P) True children
  | NLeaf name a => in_u64 (zlen name) ∧ leaf_ok a
  end.

(** Height in directories. *)
Fixpoint node_height (n : node) : nat :=
  match n with
  | NDir _ children => S (foldr (λ c h, Nat.max (node_height c) h) O children)
  | NLeaf _ _ => O
  end.

(** The bytes a node contributes when it is written at [pos], and the entry
    recorded for it in its parent. *)
Fixpoint emit (n : node) (pos : Z) : bytes * CatalogEntry :=
  match n with
  | NDir name children =>
      let '(data, entries) :=
        (fix go cs pos :=
           match cs with
           | [] => ([], [])
           | c :: cs =>
               let '(d, e) := emit c pos in
               let '(ds, es) := go cs (pos + zlen d) in (d ++ ds, e :: es)
           end) children pos in
      let start := pos + zlen data in
      (data ++ DirectoryInfo_encode (mk_DirectoryInfo name entries) start,
       mk_CatalogEntry name (Attribute.Directory start))
  | NLeaf name a => ([], mk_CatalogEntry name a)
  end.
Fixpoint emit_list (ns : list node) (pos : Z) : bytes * list CatalogEntry :=
  match ns with
  | [] => ([], [])
  | n :: ns =>
      let '(d, e) := emit n pos in
      let '(ds, es) := emit_list ns (pos + zlen d) in (d ++ ds, e :: es)
  end.

Lemma emit_dir name children pos :
  emit (NDir name children) pos =
    let '(data, entries) := emit_list children pos in
    let start := pos + zlen data in
    (data ++ DirectoryInfo_encode (mk_DirectoryInfo name entries) start,
     mk_CatalogEntry name (Attribute.Directory start)).
Proof.
  cbn [emit]. enough (∀ p, (fix go cs pos :=
           match cs with
           | [] => ([], [])
           | c :: cs =>
               let '(d, e) := emit c pos in
               let '(ds, es) := go cs (pos + zlen d) in (d ++ ds, e :: es)
           end) children p = emit_list children p) as -> by done.
  induction children as [| c cs IH]; intros p; [done |]. cbn [emit_list].
  destruct (emit c p) as [d e]. by rewrite IH.
Qed.

(** The catalog of a forest of root-level entries. *)
Definition catalog_bytes (forest : list node) : bytes :=
  let pos := zlen CATALOG_MAGIC in
  let '(data, entries) := emit_list forest pos in
  let start := pos + zlen data in
  CATALOG_MAGIC ++ data ++ DirectoryInfo_encode (mk_DirectoryInfo [] entries) start ++ to_le_bytes 8 start.

(** The entries the parser reports below a directory at [base]. *)
Fixpoint node_entries (base : bytes) (n : node) : list ArchiveEntry :=
  match n with
  | NDir name children =>
      let path := path_join base name in
      mk_ArchiveEntry path ArchiveEntryKind.Directory 0 MODE_755 0 None ::
      concat (map (node_entries path) children)
  | NLeaf name a =>
      let path := path_join base name in
      match a with
      | Attribute.File size mtime => [mk_ArchiveEntry path ArchiveEntryKind.File size MODE_644 mtime None]
      | Attribute.Hardlink => [mk_ArchiveEntry path ArchiveEntryKind.File 0 MODE_644 0 None]
      | Attribute.Symlink => [mk_ArchiveEntry path ArchiveEntryKind.Symlink 0 MODE_777 0 None]
      | _ => []
      end
  end.

(** At the root a directory contributes its contents only, and of the other
    kinds only regular files are reported. *)
Definition root_entries (n : node) : list ArchiveEntry :=
  match n with
  | NDir _ children => concat (map (node_entries []) children)
  | NLeaf name (Attribute.File size mtime) =>
      [mk_ArchiveEntry name ArchiveEntryKind.File size MODE_644 mtime None]
  | NLeaf _ _ => []
  end.

(** The calls a client makes to write a tree. *)
Section client.
Context {W : Type} `{Write W}.

Fixpoint write_node (n : node) : stt (CatalogWriter W) io_error unit :=
  match n with
  | NDir name children =>
      start_directory name ≫= λ _, foreach write_node children ≫= λ _, end_directory
  | NLeaf name a => cw_add name a
  end.

Definition write_catalog (writer : W) (forest : list node) : result io_error W :=
  cw ← CatalogWriter_new writer;
  match foreach write_node forest cw with
  | (Ok _, cw) => cw_finish cw
  | (Err e, _) => Err e
  end.
End client.

Lemma encode_u64_loop_pos fuel v : 0 < zlen (encode_u64_loop (S fuel) [] v).
Proof.
  cbn [encode_u64_loop]. destruct (v <? 128); [done |]. rewrite encode_u64_loop_app. zlen_lia.
Qed.

Lemma DirectoryInfo_encode_pos d start : 0 < zlen (DirectoryInfo_encode d start).
Proof.
  rewrite DirectoryInfo_encode_eq, zlen_app.
  pose proof (encode_u64_loop_pos 9 (zlen (table_bytes start (di_entries d)))).
  pose proof (zlen_nonneg (table_bytes start (di_entries d))). unfold encode_u64. lia.
Qed.

Lemma node_ok_dir name children :
  node_ok (NDir name children) ↔ in_u64 (zlen name) ∧ Forall node_ok children.
Proof.
  cbn [node_ok]. apply and_iff_compat_l. induction children as [| c cs IH]; cbn; [by split; [constructor |] |].
  rewrite Forall_cons_iff. split; intros [? ?]; (split; [done | by apply IH]).
Qed.

#[local] Arguments DirectoryInfo_encode : simpl never.
#[local] Arguments to_le_bytes : simpl never.

(** ** Lemmas: the writer refines [catalog_bytes] *)

Section writer_lemmas.
Context {W : Type} `{WriteTotal W}.

Lemma cw_write_all_ok d (s : CatalogWriter W) :
  in_u64 (cw_pos s + zlen d) →
  ∃ w', cw_write_all d s = (Ok tt, mk_CatalogWriter w' (cw_stack s) (cw_pos s + zlen d)) ∧
        written w' = written (cw_writer s) ++ d.
Proof.
  intros Hp. destruct (write_all_total d (cw_writer s)) as (w' & Hw).
  exists w'. split; [| by apply write_all_law].
  unfold cw_write_all, zoom, mbind, stt_bind. rewrite Hw. cbn. unfold modify. cbn.
  by rewrite u64_add_small.
Qed.

Definition appended (s s' : CatalogWriter W) (data : bytes) (entries : list CatalogEntry) : Prop :=
  written (cw_writer s') = written (cw_writer s) ++ data ∧
  cw_pos s' = cw_pos s + zlen data ∧
  match cw_stack s with
  | [] => False
  | dir :: rest => cw_stack s' = mk_DirectoryInfo (di_name dir) (di_entries dir ++ entries) :: rest
  end.

Definition writes_ok (n : node) : Prop := ∀ (s : CatalogWriter W) data entry,
  cw_stack s ≠ [] → 0 <= cw_pos s →
  emit n (cw_pos s) = (data, entry) → cw_pos s + zlen data < 2 ^ 64 →
  ∃ s', write_node n s = (Ok tt, s') ∧ appended s s' data [entry].

Lemma foreach_writes_ok ns : Forall writes_ok ns → ∀ (s : CatalogWriter W) data entries,
  cw_stack s ≠ [] → 0 <= cw_pos s →
  emit_list ns (cw_pos s) = (data, entries) → cw_pos s + zlen data < 2 ^ 64 →
  ∃ s', foreach write_node ns s = (Ok tt, s') ∧ appended s s' data entries.
Proof.
  induction 1 as [| n ns Hn _ IH]; intros s data entries Hst Hp Hl Hlen.
  - injection Hl as <- <-. exists s. split; [done |]. unfold appended.
    rewrite app_nil_r, zlen_nil, Z.add_0_r. destruct (cw_stack s) as [| [dn de] rest]; [done |].
    cbn. by rewrite app_nil_r.
  - cbn [emit_list] in Hl. destruct (emit n (cw_pos s)) as [d e] eqn:Hc.
    destruct (emit_list ns (cw_pos s + zlen d)) as [ds es] eqn:Hcs. injection Hl as <- <-.
    destruct (Hn s d e Hst Hp Hc ltac:(zlen_lia)) as (s2 & Hw & Hw1 & Hw2 & Hw3).
    destruct (cw_stack s) as [| dir rest] eqn:Hs1; [done |]. rewrite <- Hw2 in Hcs.
    destruct (IH s2 ds es) as (s3 & Hf & Hf1 & Hf2 & Hf3);
      [by rewrite Hw3 | zlen_lia | done | zlen_lia |].
    rewrite Hw3 in Hf3. cbn in Hf3. exists s3. split.
    + change (foreach write_node (n :: ns)) with (write_node n ≫= λ _, foreach (S := CatalogWriter W) write_node ns).
      rewrite (stt_bind_ok _ _ _ _ _ Hw). exact Hf.
    + unfold appended. rewrite Hs1. rewrite Hf1, Hw1, Hf2, Hw2, Hf3, <- !app_assoc.
      split; [done |]. split; [zlen_lia | done].
Qed.

Lemma write_node_ok n : writes_ok n.
Proof.
  induction n as [name children IH | name a] using node_induction; intros s data entry Hst Hpos He Hlen.
  - rewrite emit_dir in He. destruct (emit_list children (cw_pos s)) as [cd ces] eqn:Hl.
    cbv zeta in He.
    injection He as <- <-. cbn [write_node].
    set (s1 := mk_CatalogWriter (cw_writer s) (DirectoryInfo_new name :: cw_stack s) (cw_pos s)).
    destruct (foreach_writes_ok children IH s1 cd ces) as (s2 & Hf & Ha1 & Ha2 & Ha3);
      [done | done | done | cbn; zlen_lia |].
    cbn in Ha1, Ha2, Ha3.
    rewrite (stt_bind_ok (start_directory name) _ s tt s1) by done.
    rewrite (stt_bind_ok _ _ _ _ _ Hf). unfold end_directory. rewrite Ha3.
    destruct (cw_stack s) as [| dir rest] eqn:Hs; [done |].
    rewrite Ha2. cbn [cw_pos di_name di_entries].
    set (blk := DirectoryInfo_encode (mk_DirectoryInfo name ces) (cw_pos s + zlen cd)) in *.
    destruct (cw_write_all_ok blk (mk_CatalogWriter (cw_writer s2) (dir :: rest) (cw_pos s + zlen cd)))
      as (w3 & Hw3 & Hw3'); [cbn; zlen_lia |].
    rewrite (stt_bind_ok _ _ _ _ _ Hw3). cbn. eexists. split; [done |].
    unfold appended. cbn. rewrite Hs. cbn in Hw3'. rewrite Hw3', Ha1, <- app_assoc.
    split; [done |]. split; [zlen_lia | done].
  - injection He as <- <-. cbn [write_node]. unfold cw_add, push_current.
    destruct (cw_stack s) as [| dir rest] eqn:Hs; [done |].
    eexists. split; [done |]. unfold appended. cbn. rewrite Hs, app_nil_r, Z.add_0_r. done.
Qed.

Lemma write_forest_ok ns (s : CatalogWriter W) data entries :
  cw_stack s ≠ [] → 0 <= cw_pos s →
  emit_list ns (cw_pos s) = (data, entries) → cw_pos s + zlen data < 2 ^ 64 →
  ∃ s', foreach write_node ns s = (Ok tt, s') ∧ appended s s' data entries.
Proof. apply foreach_writes_ok, Forall_true, write_node_ok. Qed.

Lemma write_catalog_eq (w : W) forest :
  zlen (catalog_bytes forest) < 2 ^ 64 →
  ∃ w', write_catalog w forest = Ok w' ∧ written w' = written w ++ catalog_bytes forest.
Proof.
  unfold catalog_bytes, write_catalog, CatalogWriter_new.
  destruct (write_all_total CATALOG_MAGIC w) as (w0 & Hw0). rewrite Hw0. cbn [mbind result_bind].
  apply write_all_law in Hw0.
  destruct (emit_list forest (zlen CATALOG_MAGIC)) as [data entries] eqn:He. intros Hlen.
  destruct (write_forest_ok forest (mk_CatalogWriter w0 [DirectoryInfo_new []] (zlen CATALOG_MAGIC))
    data entries) as (s1 & -> & Hs1 & Hp1 & Hst1); [done | done | done | cbn; zlen_lia |].
  cbn in Hs1, Hp1, Hst1. unfold cw_finish. rewrite Hst1, Hp1.
  set (start := zlen CATALOG_MAGIC + zlen data) in *.
  set (blk := DirectoryInfo_encode _ start) in *.
  destruct (cw_write_all_ok blk (mk_CatalogWriter (cw_writer s1) [] start)) as (w2 & Hw2 & Hw2');
    [cbn; zlen_lia |].
  rewrite (stt_bind_ok _ _ _ _ _ Hw2). cbn [cw_stack cw_pos].
  destruct (cw_write_all_ok (to_le_bytes 8 start) (mk_CatalogWriter w2 [] (start + zlen blk)))
    as (w3 & Hw3 & Hw3'); [cbn; zlen_lia |].
  rewrite (stt_bind_ok _ _ _ _ _ Hw3). cbn [cw_stack cw_pos].
  destruct (flush_total w3) as (w4 & Hw4). unfold zoom. cbn [cw_writer]. rewrite Hw4. cbn.
  exists w4. split; [done |]. apply flush_law in Hw4. cbn in Hw2', Hw3'.
  rewrite Hw4, Hw3', Hw2', Hs1, Hw0. by rewrite <- !app_assoc.
Qed.
End writer_lemmas.
(** ** Lemmas: the parser reads [catalog_bytes] back *)

(** The loop body of [push_walk], with the recursive call as an argument. *)
Definition walk_entry (rec : Z → bytes → stt WalkState PbsError unit) (base : bytes) (entry : RawEntry) :
    stt WalkState PbsError unit :=
  _ ← wk_check_limit;
  let path := path_join base (re_name entry) in
  match re_kind entry with
  | RawKind.Directory child =>
      _ ← wk_push (mk_ArchiveEntry path ArchiveEntryKind.Directory 0 MODE_755 0 None);
      rec child path
  | RawKind.File size mtime => wk_push (mk_ArchiveEntry path ArchiveEntryKind.File size MODE_644 mtime None)
  | RawKind.Hardlink => wk_push (mk_ArchiveEntry path ArchiveEntryKind.File 0 MODE_644 0 None)
  | RawKind.Symlink => wk_push (mk_ArchiveEntry path ArchiveEntryKind.Symlink 0 MODE_777 0 None)
  | RawKind.Other => mret tt
  end.

Lemma push_walk_S fuel data block_pos base depth :
  push_walk (S fuel) data block_pos base depth =
    if MAX_CATALOG_DEPTH <? depth then throw (decode_error "catalog: directory nesting too deep") else
    wk_visit block_pos ≫= λ _, lift (read_table data block_pos) ≫= λ entries,
    foreach (walk_entry (λ child path, push_walk fuel data child path (depth + 1)) base) entries.
Proof. done. Qed.

(** [vis'] grew out of [vis] by offsets in [[lo, hi)] only. *)
Definition visited_within (vis vis' : gset Z) (lo hi : Z) : Prop :=
  ∀ x, x ∈ vis' → x ∈ vis ∨ lo <= x < hi.
Definition unvisited (vis : gset Z) (lo hi : Z) : Prop := ∀ x, x ∈ vis → ¬ (lo <= x < hi).

(** [f] walks the block of [n], wherever it was emitted, and reports [g n]. *)
Definition walks (data : bytes) (f : RawEntry → stt WalkState PbsError unit)
    (g : node → list ArchiveEntry) (n : node) : Prop :=
  ∀ pre post d e out vis,
    data = pre ++ d ++ post → emit n (zlen pre) = (d, e) →
    unvisited vis (zlen pre) (zlen pre + zlen d) → zlen (out ++ g n) < MAX_CATALOG_ENTRIES →
    ∃ vis', f (raw_entry e) (mk_WalkState out vis) = (Ok tt, mk_WalkState (out ++ g n) vis') ∧
            visited_within vis vis' (zlen pre) (zlen pre + zlen d).

Lemma walks_list data f g ns : Forall (walks data f g) ns → ∀ pre post d es out vis,
    data = pre ++ d ++ post → emit_list ns (zlen pre) = (d, es) →
    unvisited vis (zlen pre) (zlen pre + zlen d) →
    zlen (out ++ concat (map g ns)) < MAX_CATALOG_ENTRIES →
    ∃ vis', foreach f (map raw_entry es) (mk_WalkState out vis) =
              (Ok tt, mk_WalkState (out ++ concat (map g ns)) vis') ∧
            visited_within vis vis' (zlen pre) (zlen pre + zlen d).
Proof.
  induction 1 as [| n ns Hn _ IH]; intros pre post d es out vis Hd He Hv Hmax.
  - injection He as <- <-. exists vis. cbn. rewrite app_nil_r. split; [done | by left].
  - cbn [emit_list] in He. destruct (emit n (zlen pre)) as [d1 e1] eqn:He1.
    destruct (emit_list ns (zlen pre + zlen d1)) as [d2 e2] eqn:He2. injection He as <- <-.
    rewrite <- app_assoc in Hd. cbn [map concat] in *.
    destruct (Hn pre (d2 ++ post) d1 e1 out vis) as (v1 & H1 & Hw1); [done | done | | zlen_lia |].
    { intros x Hx ?. apply (Hv x Hx). zlen_lia. }
    rewrite (app_assoc pre) in Hd. rewrite <- zlen_app in He2.
    destruct (IH (pre ++ d1) post d2 e2 (out ++ g n) v1) as (v2 & H2 & Hw2);
      [done | done | | zlen_lia |].
    { intros x [Hx | ?]%Hw1 ?; [| zlen_lia]. apply (Hv x Hx). zlen_lia. }
    exists v2. split.
    + cbn [foreach]. rewrite (stt_bind_ok _ _ _ _ _ H1). rewrite app_assoc. exact H2.
    + intros x [Hx | ?]%Hw2; [| right; zlen_lia].
      apply Hw1 in Hx as [Hx | ?]; [by left | right; zlen_lia].
Qed.

Lemma emit_attribute n pos d e :
  emit n pos = (d, e) → 0 <= pos → node_ok n →
  in_u64 (zlen (ce_name e)) ∧ ∀ start, pos + zlen d <= start → attribute_ok start (ce_attribute e).
Proof.
  destruct n as [name cs | name a]; intros He Hpos Hok.
  - rewrite emit_dir in He. destruct (emit_list cs pos) as [cd ces]. cbv zeta in He.
    injection He as <- <-. cbn [ce_name ce_attribute attribute_ok].
    split; [apply Hok | intros start Hs; zlen_lia].
  - injection He as <- <-. cbn. split; [apply Hok |]. intros start _.
    destruct Hok as [_ Hok]. by destruct a.
Qed.

Lemma emit_list_entries_ok ns : Forall node_ok ns → ∀ pos d es start,
  emit_list ns pos = (d, es) → 0 <= pos → pos + zlen d <= start → Forall (entry_ok start) es.
Proof.
  induction 1 as [| n ns Hn _ IH]; intros pos d es start He Hpos Hs; cbn [emit_list] in He.
  - injection He as <- <-. constructor.
  - destruct (emit n pos) as [d1 e1] eqn:He1. destruct (emit_list ns (pos + zlen d1)) as [d2 e2] eqn:He2.
    injection He as <- <-. destruct (emit_attribute n pos d1 e1 He1 Hpos Hn) as [Hname Hat].
    constructor; [split; [done |] |].
    + apply Hat. zlen_lia.
    + apply (IH _ _ _ start He2); zlen_lia.
Qed.

(** The walk of one directory, given the walks of its children. *)
Lemma walk_dir data fuel depth base name children pre post d e out vis :
  zlen data < 2 ^ 64 → node_ok (NDir name children) → 0 <= depth <= MAX_CATALOG_DEPTH →
  Forall (walks data (walk_entry (λ child path, push_walk fuel data child path (depth + 1)) base)
            (node_entries base)) children →
  data = pre ++ d ++ post → emit (NDir name children) (zlen pre) = (d, e) →
  unvisited vis (zlen pre) (zlen pre + zlen d) →
  zlen (out ++ concat (map (node_entries base) children)) < MAX_CATALOG_ENTRIES →
  ∃ vis' start, ce_attribute e = Attribute.Directory start ∧
    push_walk (S fuel) data start base depth (mk_WalkState out vis) =
      (Ok tt, mk_WalkState (out ++ concat (map (node_entries base) children)) vis') ∧
    visited_within vis vis' (zlen pre) (zlen pre + zlen d).
Proof.
  intros Hlen Hok Hdepth HF Hd He Hv Hmax. rewrite emit_dir in He.
  destruct (emit_list children (zlen pre)) as [cd ces] eqn:Hl. cbv zeta in He.
  apply node_ok_dir in Hok as [_ Hok].
  pose proof (emit_list_entries_ok children Hok _ _ _ (zlen (pre ++ cd)) Hl (zlen_nonneg _)
                ltac:(zlen_lia)) as Hes.
  rewrite <- zlen_app in He.
  pose proof (DirectoryInfo_encode_pos (mk_DirectoryInfo name ces) (zlen (pre ++ cd))) as Hpos.
  pose proof (read_table_encode (mk_DirectoryInfo name ces) (pre ++ cd) post) as Hrt.
  set (blk := DirectoryInfo_encode _ _) in *. injection He as <- <-.
  rewrite <- app_assoc in Hd.
  assert (read_table data (zlen (pre ++ cd)) = Ok (map raw_entry ces)) as Hread.
  { rewrite Hd, app_assoc. apply Hrt; [rewrite Hd in Hlen; zlen_lia | done]. }
  destruct (walks_list data _ _ children HF pre (blk ++ post) cd ces out ({[zlen (pre ++ cd)]} ∪ vis))
    as (v & Hf & Hw); [done | done | | done |].
  { intros x [->%elem_of_singleton | Hx]%elem_of_union ?; [zlen_lia |]. apply (Hv x Hx). zlen_lia. }
  exists v, (zlen (pre ++ cd)). split; [done |]. split.
  - rewrite push_walk_S. destruct (Z.ltb_spec MAX_CATALOG_DEPTH depth); [lia |].
    unfold wk_visit at 1. unfold mbind at 1, stt_bind at 1. cbn [wk_visited wk_out].
    rewrite decide_False by (intros Hin; apply (Hv _ Hin); zlen_lia).
    rewrite Hread. exact Hf.
  - intros x [[->%elem_of_singleton | Hx]%elem_of_union | ?]%Hw; [right; zlen_lia | by left | right; zlen_lia].
Qed.

Lemma wk_check_limit_ok out vis :
  zlen out < MAX_CATALOG_ENTRIES →
  wk_check_limit (mk_WalkState out vis) = (Ok tt, mk_WalkState out vis).
Proof.
  intros Hm. unfold wk_check_limit. cbn [wk_out].
  destruct (Z.leb_spec MAX_CATALOG_ENTRIES (zlen out)); [lia | done].
Qed.

Lemma walks_leaf data rec base name a :
  leaf_ok a → walks data (walk_entry rec base) (node_entries base) (NLeaf name a).
Proof.
  intros Hok pre post d e out vis Hd He Hv Hmax. injection He as <- <-.
  exists vis. split; [| by left]. unfold walk_entry.
  rewrite (stt_bind_ok _ _ _ tt (mk_WalkState out vis)) by (apply wk_check_limit_ok; zlen_lia).
  destruct a; cbn; rewrite ?app_nil_r; done.
Qed.

Lemma node_height_dir name children c :
  c ∈ children → (node_height c < node_height (NDir name children))%nat.
Proof.
  intros Hin. cbn [node_height]. apply Nat.lt_succ_r.
  induction children as [| x xs IH]; [by apply not_elem_of_nil in Hin |]. cbn.
  apply elem_of_cons in Hin as [-> | Hin]; [lia |]. specialize (IH Hin). lia.
Qed.

Lemma walks_node data : zlen data < 2 ^ 64 → ∀ n fuel depth base,
  node_ok n → (node_height n <= fuel)%nat → 0 <= depth →
  depth + Z.of_nat (node_height n) <= MAX_CATALOG_DEPTH + 1 →
  walks data (walk_entry (λ child path, push_walk fuel data child path depth) base) (node_entries base) n.
Proof.
  intros Hlen n. induction n as [name children IH | name a] using node_induction;
    intros fuel depth base Hok Hfuel Hd Hdepth; [| apply walks_leaf, Hok].
  intros pre post d e out vis Hdata He Hv Hmax.
  destruct fuel as [| fuel]; [cbn in Hfuel; lia |].
  assert (ce_name e = name) as Hname.
  { rewrite emit_dir in He. destruct (emit_list children (zlen pre)). by injection He as <- <-. }
  cbn [node_entries] in *. set (path := path_join base name) in *.
  set (ent := mk_ArchiveEntry path ArchiveEntryKind.Directory 0 MODE_755 0 None) in *.
  destruct (walk_dir data fuel depth path name children pre post d e (out ++ [ent]) vis)
    as (v & start & Ha & Hw & Hvis); [done | done | | | done | done | done | | ].
  - assert (0 < node_height (NDir name children))%nat by (cbn; lia). lia.
  - apply node_ok_dir in Hok as [_ Hok]. apply Forall_forall. intros c Hc%list_elem_of_In.
    pose proof (node_height_dir name children c Hc).
    rewrite Forall_forall in IH, Hok. apply IH; [by apply list_elem_of_In | | lia | lia | lia].
    apply Hok. by apply list_elem_of_In.
  - zlen_lia.
  - exists v. split; [| done]. unfold walk_entry, raw_entry. rewrite Ha. cbn [raw_kind re_kind re_name].
    rewrite Hname. fold path. fold ent.
    rewrite (stt_bind_ok _ _ _ tt (mk_WalkState out vis)) by (apply wk_check_limit_ok; zlen_lia).
    unfold wk_push. rewrite (stt_bind_ok (modify _) _ _ tt (mk_WalkState (out ++ [ent]) vis)) by done.
    rewrite Hw, <- app_assoc. done.
Qed.

(** The loop body of [parse_catalog]. *)
Definition root_entry (data : bytes) (entry : RawEntry) : stt WalkState PbsError unit :=
  let path := re_name entry in
  match re_kind entry with
  | RawKind.Directory child => push_walk walk_fuel data child [] 0
  | RawKind.File size mtime =>
      _ ← wk_check_limit;
      wk_push (mk_ArchiveEntry path ArchiveEntryKind.File size MODE_644 mtime None)
  | _ => mret tt
  end.

Definition forest_height (forest : list node) : nat :=
  foldr (λ c h, Nat.max (node_height c) h) O forest.

Lemma forest_height_le n forest : n ∈ forest → (node_height n <= forest_height forest)%nat.
Proof.
  unfold forest_height. induction forest as [| x xs IH]; intros Hin; [by apply not_elem_of_nil in Hin |]. cbn.
  apply elem_of_cons in Hin as [-> | Hin]; [lia |]. specialize (IH Hin). lia.
Qed.

Lemma walks_root data n :
  zlen data < 2 ^ 64 → node_ok n → Z.of_nat (node_height n) <= MAX_CATALOG_DEPTH + 1 →
  walks data (root_entry data) root_entries n.
Proof.
  intros Hlen Hok Hh. destruct n as [name children | name a].
  - intros pre post d e out vis Hdata He Hv Hmax.
    destruct (walk_dir data 1025 0 [] name children pre post d e out vis)
      as (v & start & Ha & Hw & Hvis); try done.
    + apply node_ok_dir in Hok as [_ Hok]. apply Forall_forall. intros c Hc%list_elem_of_In.
      pose proof (node_height_dir name children c Hc). unfold MAX_CATALOG_DEPTH in *.
      apply walks_node; [done | | lia | lia | unfold MAX_CATALOG_DEPTH; lia].
      rewrite Forall_forall in Hok. apply Hok. by apply list_elem_of_In.
    + exists v. split; [| done]. unfold root_entry, raw_entry. rewrite Ha. exact Hw.
  - intros pre post d e out vis Hd He Hv Hmax. injection He as <- <-.
    exists vis. split; [| by left]. unfold root_entry. destruct Hok as [_ Hok].
    destruct a; cbn [raw_entry raw_kind re_kind re_name ce_attribute ce_name root_entries];
      rewrite ?app_nil_r; try reflexivity; [by cbn in Hok |].
    rewrite (stt_bind_ok _ _ _ tt (mk_WalkState out vis)) by (apply wk_check_limit_ok; zlen_lia). done.
Qed.

Lemma parse_catalog_bytes forest :
  zlen (catalog_bytes forest) < 2 ^ 64 → Forall node_ok forest →
  Z.of_nat (forest_height forest) <= MAX_CATALOG_DEPTH + 1 →
  zlen (concat (map root_entries forest)) < MAX_CATALOG_ENTRIES →
  parse_catalog (catalog_bytes forest) = Ok (concat (map root_entries forest)).
Proof.
  intros Hlen Hok Hh Hmax.
  assert (Forall (walks (catalog_bytes forest) (root_entry (catalog_bytes forest)) root_entries) forest) as HF.
  { apply Forall_forall. intros n Hn%list_elem_of_In. pose proof (forest_height_le n forest Hn).
    apply walks_root; [done | | lia]. rewrite Forall_forall in Hok. apply Hok. by apply list_elem_of_In. }
  unfold parse_catalog. revert Hlen HF. unfold catalog_bytes.
  destruct (emit_list forest (zlen CATALOG_MAGIC)) as [cd ces] eqn:Hl.
  rewrite <- zlen_app. set (start := zlen (CATALOG_MAGIC ++ cd)).
  set (data := CATALOG_MAGIC ++ cd ++ _). intros Hlen HF.
  assert (get_to data (zlen CATALOG_MAGIC) = Some CATALOG_MAGIC) as Hmagic by (by apply get_to_app).
  rewrite bool_decide_eq_true_2 by done. cbn [negb].
  set (blk := DirectoryInfo_encode _ start) in *.
  assert (zlen data = start + zlen blk + 8) as Hdl by (unfold data, start; zlen_lia).
  assert (0 <= start) by apply zlen_nonneg.
  rewrite checked_sub_small by zlen_lia. cbn [ok_or mbind result_bind].
  assert (get_from data (zlen data - 8) = Some (to_le_bytes 8 start)) as ->.
  { unfold data at 1. rewrite 2!app_assoc, <- app_assoc. rewrite app_assoc.
    apply get_from_app. rewrite Hdl. unfold start. zlen_lia. }
  cbn [ok_or mbind result_bind]. rewrite from_to_le_u64 by zlen_lia.
  rewrite usize_try_from_small by zlen_lia. cbn [ok_or mbind result_bind].
  pose proof (emit_list_entries_ok forest Hok _ _ _ start Hl ltac:(done) ltac:(unfold start; zlen_lia)) as Hes.
  assert (read_table data start = Ok (map raw_entry ces)) as ->.
  { unfold data. rewrite app_assoc. apply (read_table_encode (mk_DirectoryInfo [] ces)); [| done].
    fold start blk. unfold data in Hlen. zlen_lia. }
  destruct (walks_list data _ _ forest HF CATALOG_MAGIC (blk ++ to_le_bytes 8 start) cd ces [] {[start]})
    as (v & Hf & _); [done | done | | done |].
  { intros x ->%elem_of_singleton ?. unfold start in *. zlen_lia. }
  cbn [mbind result_bind].
  change (foreach _ (map raw_entry ces)) with (foreach (root_entry data) (map raw_entry ces)).
  rewrite Hf. done.
Qed.

(** ** Lemmas: limits of the walk *)

(** The walk never leaves more than the limit behind it. *)
Definition wk_bounded (s : WalkState) : Prop := zlen (wk_out s) <= MAX_CATALOG_ENTRIES.

Lemma wk_check_push (I : WalkState → Prop) s (k : stt WalkState PbsError unit) :
  wk_bounded s → (zlen (wk_out s) < MAX_CATALOG_ENTRIES → I (snd (k s))) → I s →
  I (snd ((wk_check_limit ≫= λ _, k) s)).
Proof.
  intros Hs Hk HI. unfold wk_check_limit, mbind, stt_bind.
  destruct (Z.leb_spec MAX_CATALOG_ENTRIES (zlen (wk_out s))); [done | by apply Hk].
Qed.

Lemma wk_push_bounded e s : zlen (wk_out s) < MAX_CATALOG_ENTRIES → wk_bounded (snd (wk_push e s)).
Proof. intros Hs. unfold wk_bounded, wk_push, modify. cbn. zlen_lia. Qed.

Lemma walk_entry_bounded rec base entry s :
  (∀ child path s, wk_bounded s → wk_bounded (snd (rec child path s))) →
  wk_bounded s → wk_bounded (snd (walk_entry rec base entry s)).
Proof.
  intros Hrec Hs. unfold walk_entry. apply wk_check_push; [done | | done]. intros Hlt. cbv zeta.
  destruct (re_kind entry); try (by apply wk_push_bounded); try done.
  apply stt_bind_snd; [by apply wk_push_bounded |]. intros [] s' Hp. apply Hrec.
  pose proof (wk_push_bounded (mk_ArchiveEntry (path_join base (re_name entry))
    ArchiveEntryKind.Directory 0 MODE_755 0 None) s Hlt) as Hb. by rewrite Hp in Hb.
Qed.

Lemma push_walk_bounded fuel : ∀ data pos base depth s,
  wk_bounded s → wk_bounded (snd (push_walk fuel data pos base depth s)).
Proof.
  induction fuel as [| fuel IH]; intros data pos base depth s Hs; [done |]. rewrite push_walk_S.
  destruct (MAX_CATALOG_DEPTH <? depth); [done |].
  apply stt_bind_snd; [unfold wk_visit; by case_decide |]. intros [] s1 Hv.
  assert (wk_bounded s1).
  { unfold wk_visit in Hv. case_decide; [done |]. injection Hv as <-. done. }
  unfold lift, mbind, stt_bind. destruct (read_table data pos) as [es |]; [| done].
  apply foreach_inv; [| done]. intros e s' Hs'. apply walk_entry_bounded; [| done].
  intros child path s'' Hs''. by apply IH.
Qed.

Lemma root_entry_bounded data e s : wk_bounded s → wk_bounded (snd (root_entry data e s)).
Proof.
  intros Hs. unfold root_entry. destruct (re_kind e); try done.
  - by apply push_walk_bounded.
  - apply wk_check_push; [done | | done]. apply wk_push_bounded.
Qed.

Lemma walk_entry_ext rec rec' base entry s :
  (∀ child path s, rec child path s = rec' child path s) →
  walk_entry rec base entry s = walk_entry rec' base entry s.
Proof.
  intros Hr. unfold walk_entry, mbind, stt_bind.
  destruct (wk_check_limit s) as [[[] | e] s']; [| done].
  destruct (re_kind entry); try done. unfold wk_push, modify. apply Hr.
Qed.

Lemma push_walk_fuel fuel : ∀ k data pos base depth s,
  0 <= depth → MAX_CATALOG_DEPTH + 2 - depth <= Z.of_nat fuel → (0 < fuel)%nat →
  push_walk (fuel + k) data pos base depth s = push_walk fuel data pos base depth s.
Proof.
  induction fuel as [| fuel IH]; intros k data pos base depth s Hd Hf Hpos; [lia |].
  change (S fuel + k)%nat with (S (fuel + k)). rewrite !push_walk_S.
  destruct (Z.ltb_spec MAX_CATALOG_DEPTH depth); [done |].
  unfold lift, mbind, stt_bind. destruct (wk_visit pos s) as [[[] | e] s1]; [| done].
  destruct (read_table data pos) as [es |]; [| done].
  apply foreach_ext. intros e s'. apply walk_entry_ext. intros child path s''.
  apply IH; lia.
Qed.

Lemma encode_u64_loop_len fuel v : zlen (encode_u64_loop fuel [] v) <= Z.of_nat fuel.
Proof.
  revert v. induction fuel as [| fuel IH]; intros v; [done |]. cbn [encode_u64_loop app].
  destruct (v <? 128); [rewrite zlen_cons, zlen_nil; lia |].
  rewrite encode_u64_loop_app, zlen_app, zlen_cons, zlen_nil. specialize (IH (Z.shiftr v 7)). lia.
Qed.
Lemma encode_u64_len v : zlen (encode_u64 [] v) <= 10.
Proof. apply (encode_u64_loop_len 10). Qed.

Lemma encode_i64_loop_len fuel neg v : zlen (encode_i64_loop fuel [] neg v) <= Z.of_nat fuel.
Proof.
  revert v. induction fuel as [| fuel IH]; intros v; [done |]. cbn [encode_i64_loop app].
  destruct (v <? 64); [rewrite zlen_cons, zlen_nil; lia |].
  rewrite encode_i64_loop_app, zlen_app, zlen_cons, zlen_nil. specialize (IH (Z.shiftr v 7)). lia.
Qed.
Lemma encode_i64_len v : zlen (encode_i64 [] v) <= 10.
Proof. apply (encode_i64_loop_len 10). Qed.

(** ** Properties *)

(** Writing any forest through the catalog writer (directories opened and
    closed around their contents) produces the specified bytes, and parsing
    them reports exactly the forest's entries, with their paths, sizes and
    times: catalogs round trip, up to the parser's own depth and count
    limits. *)
Theorem catalog_roundtrip (W : Type) `{WriteTotal W} (w : W) (forest : list node)
    (Hlen : zlen (catalog_bytes forest) < 2 ^ 64) (Hok : Forall node_ok forest)
    (Hdepth : Z.of_nat (forest_height forest) <= MAX_CATALOG_DEPTH + 1)
    (Hcount : zlen (concat (map root_entries forest)) < MAX_CATALOG_ENTRIES) :
  ∃ w', write_catalog w forest = Ok w' ∧ written w' = written w ++ catalog_bytes forest ∧
        parse_catalog (catalog_bytes forest) = Ok (concat (map root_entries forest)).
Proof.
  destruct (write_catalog_eq w forest Hlen) as (w' & Hw & Hw').
  exists w'. split; [done |]. split; [done |]. by apply parse_catalog_bytes.
Qed.

Definition sample_forest : list node :=
  [NDir [100] [NLeaf [97] (Attribute.File 300 (-5)); NDir [101] [NLeaf [98] Attribute.Symlink]];
   NLeaf [99] (Attribute.File 1 7)].

Lemma catalog_roundtrip_witness :
  ∃ w', write_catalog (W := bytes) [] sample_forest = Ok w' ∧
        w' = catalog_bytes sample_forest ∧
        parse_catalog (catalog_bytes sample_forest) =
          Ok [mk_ArchiveEntry [97] ArchiveEntryKind.File 300 MODE_644 (-5) None;
              mk_ArchiveEntry [101] ArchiveEntryKind.Directory 0 MODE_755 0 None;
              mk_ArchiveEntry [101; 47; 98] ArchiveEntryKind.Symlink 0 MODE_777 0 None;
              mk_ArchiveEntry [99] ArchiveEntryKind.File 1 MODE_644 7 None].
Proof.
  destruct (catalog_roundtrip bytes [] sample_forest) as (w' & Hw & Hw' & Hp); cycle -1.
  - cbn [written] in Hw'. exists w'. split; [exact Hw |]. split; [exact Hw' | exact Hp].
  - vm_compute. reflexivity.
  - repeat constructor; cbn; unfold in_u64, in_i64, zlen; cbn; lia.
  - vm_compute. discriminate.
  - vm_compute. reflexivity.
Defined.
(** The variable-length integers of the catalog round trip at every width:
    whatever surrounds it, an encoded u64 or i64 is read back exactly and the
    cursor stops at its last byte. *)
Theorem varint_roundtrip (u i : Z) (pre post : bytes) (Hu : in_u64 u) (Hi : in_i64 i)
    (Hlen : zlen pre + 20 < 2 ^ 64) :
  Cursor_u64 (mk_Cursor (pre ++ encode_u64 [] u ++ post) (zlen pre)) =
    (Ok u, mk_Cursor (pre ++ encode_u64 [] u ++ post) (zlen (pre ++ encode_u64 [] u))) ∧
  Cursor_i64 (mk_Cursor (pre ++ encode_i64 [] i ++ post) (zlen pre)) =
    (Ok i, mk_Cursor (pre ++ encode_i64 [] i ++ post) (zlen (pre ++ encode_i64 [] i))).
Proof.
  pose proof (encode_u64_len u). pose proof (encode_i64_len i).
  split; [apply parses_u64 | apply parses_i64]; (done || zlen_lia).
Qed.

(** A catalog, however hostile, never makes the parser report more than
    [MAX_CATALOG_ENTRIES] entries, and the walk's own depth check stops it
    before any larger recursion bound would: the bound chosen in the model
    changes no result. *)
Theorem parse_catalog_limits (data : bytes) :
  (∀ entries, parse_catalog data = Ok entries → zlen entries <= MAX_CATALOG_ENTRIES) ∧
  (∀ k pos base s, push_walk (walk_fuel + k) data pos base 0 s = push_walk walk_fuel data pos base 0 s).
Proof.
  split.
  - intros entries. unfold parse_catalog. case_bool_decide; [| done]. cbn [negb].
    destruct (checked_sub _ _); [| done]. cbn [ok_or mbind result_bind].
    destruct (get_from _ _); [| done]. cbn [ok_or mbind result_bind].
    destruct (usize_try_from _) as [root |]; [| done]. cbn [ok_or mbind result_bind].
    destruct (read_table data root) as [es |]; [| done]. cbn [mbind result_bind].
    change (foreach _ es) with (foreach (root_entry data) es).
    pose proof (foreach_inv wk_bounded (root_entry data) es (root_entry_bounded data)
      (mk_WalkState [] {[root]}) ltac:(by unfold wk_bounded)) as Hb.
    destruct (foreach (root_entry data) es _) as [[[] | e] s]; [| done].
    cbn in Hb |- *. intros [= <-]. exact Hb.
  - intros k pos base s. apply push_walk_fuel; unfold walk_fuel, MAX_CATALOG_DEPTH; lia.
Qed.

Lemma varint_roundtrip_witness :
  in_u64 U64_MAX ∧
  fst (Cursor_u64 (mk_Cursor ([7] ++ encode_u64 [] U64_MAX ++ [9]) 1)) = Ok U64_MAX ∧
  fst (Cursor_i64 (mk_Cursor ([7] ++ encode_i64 [] (- 2 ^ 63) ++ [9]) 1)) = Ok (- 2 ^ 63).
Proof.
  destruct (varint_roundtrip U64_MAX (- 2 ^ 63) [7] [9]) as [H1 H2];
    [unfold in_u64, U64_MAX; lia | unfold in_i64; lia | unfold zlen; cbn; lia |].
  split; [unfold in_u64, U64_MAX; lia |]. change 1 with (zlen [7]). rewrite H1, H2. cbn [fst]. split; reflexivity.
Defined.
