(* ===== verification/Transport.v ===== *)
(** * Transport: the HTTP/2 session of the client (pbs-client/src/h2.rs)

    The four requests the reader and the writer make are the methods of a type
    class; the wire behind them is outside the model.  A lawful transport
    records the calls it carried ([TransportLog]); a reliable one answers them
    all ([ReliableTransport]).  The query-string encoder that every request
    goes through is defined and proved injective here. *)
From stdpp Require Import pretty.
From S2P Require Import Prelude Datablob.

(** The JSON values the program inspects. *)
Inductive Json : Type :=
  | JNull
  | JNumber (n : Z)
  | JString (s : string)
  | JArray (l : list Json)
  | JObject (fields : list (string * Json)).

(** [serde_json::Value::as_u64] *)
Definition as_u64 (j : Json) : option Z :=
  match j with
  | JNumber n => if (0 <=? n) && (n <? 2 ^ 64) then Some n else None
  | _ => None
  end.

Definition params : Type := list (string * string).

Class H2Transport (T : Type) : Type := {
  download : string → params → stt T PbsError bytes;
  post : string → params → stt T PbsError Json;
  upload : string → string → params → string → bytes → stt T PbsError Json;
  send_json : string → string → params → Json → stt T PbsError Json;
}.

(** One request as the server sees it. *)
Inductive Call : Type :=
  | Download (path : string) (ps : params)
  | Post (path : string) (ps : params)
  | Upload (method path : string) (ps : params) (content_type : string) (body : bytes)
  | SendJson (method path : string) (ps : params) (json : Json).

(** Every request that was answered is on record, in order. *)
Class TransportLog (T : Type) `{H2Transport T} : Type := {
  calls : T → list Call;
  post_log : ∀ p ps t j t', post p ps t = (Ok j, t') → calls t' = calls t ++ [Post p ps];
  upload_log : ∀ m p ps c d t j t',
    upload m p ps c d t = (Ok j, t') → calls t' = calls t ++ [Upload m p ps c d];
  send_json_log : ∀ m p ps j t r t',
    send_json m p ps j t = (Ok r, t') → calls t' = calls t ++ [SendJson m p ps j];
}.

(** Every write request succeeds, and the server hands out the writer id [wid]. *)
Class ReliableTransport (T : Type) `{TransportLog T} (wid : Z) : Prop := {
  post_total : ∀ p ps t, ∃ t', post p ps t = (Ok (JNumber wid), t');
  upload_total : ∀ m p ps c d t, ∃ t', upload m p ps c d t = (Ok JNull, t');
  send_json_total : ∀ m p ps j t, ∃ t', send_json m p ps j t = (Ok JNull, t');
}.

(** A transport to a server that keeps files and chunks in memory. *)
Record MemServer : Type := mk_MemServer {
  ms_calls : list Call;
  ms_answer : string → params → option bytes;
}.
Definition ms_record (c : Call) (s : MemServer) : MemServer :=
  mk_MemServer (ms_calls s ++ [c]) (ms_answer s).

#[export] Instance mem_transport : H2Transport MemServer := {
  download p ps := λ s, (ok_or (ms_answer s p ps) (Http 404 "not found"), ms_record (Download p ps) s);
  post p ps := λ s, (Ok (JNumber 1), ms_record (Post p ps) s);
  upload m p ps c d := λ s, (Ok JNull, ms_record (Upload m p ps c d) s);
  send_json m p ps j := λ s, (Ok JNull, ms_record (SendJson m p ps j) s);
}.
#[export, refine] Instance mem_transport_log : TransportLog MemServer := { calls := ms_calls }.
Proof. all: intros; simplify_eq/=; done. Defined.
#[export] Instance mem_transport_reliable : ReliableTransport MemServer 1.
Proof. split; intros; eexists; cbn; done. Qed.

(** A read-only server that answers by path and first parameter. *)
Definition fixed_transport (answer : string → string → bytes) : H2Transport unit := {|
  download p ps := λ s, (Ok (answer p (default "" (snd <$> head ps))), s);
  post p ps := λ s, (Err (Transport "read only"), s);
  upload m p ps c d := λ s, (Err (Transport "read only"), s);
  send_json m p ps j := λ s, (Err (Transport "read only"), s);
|}.

(** ** Query strings *)

Definition is_unreserved (byte : Z) : bool :=
  ((65 <=? byte) && (byte <=? 90)) || ((97 <=? byte) && (byte <=? 122)) ||
  ((48 <=? byte) && (byte <=? 57)) || (byte =? 45) || (byte =? 95) || (byte =? 46) || (byte =? 126).

(** [{:X}] of a nibble. *)
Definition upper_hex (n : Z) : Z := if n <? 10 then 48 + n else 55 + n.

Definition percent_byte (byte : Z) : bytes :=
  if is_unreserved byte then [byte] else [37; upper_hex (byte / 16); upper_hex (byte mod 16)].
Definition percent_encode (value : bytes) : bytes := concat (map percent_byte value).

Definition AMP : Z := 38.
Definition EQUALS : Z := 61.

Definition encode_query (ps : list (bytes * bytes)) : bytes :=
  fold_left (λ out '(key, value),
    let out := if bool_decide (out = []) then out else out ++ [AMP] in
    out ++ key ++ [EQUALS] ++ percent_encode value) ps [].

(** ** Lemmas *)

Lemma upper_hex_inj a b : 0 <= a < 16 → 0 <= b < 16 → upper_hex a = upper_hex b → a = b.
Proof. unfold upper_hex. intros. case_Z; lia. Qed.

Lemma percent_byte_shape b : byte_ok b →
  percent_byte b = [b] ∧ is_unreserved b = true ∧ b ≠ 37 ∧ b ≠ AMP ∧ b ≠ EQUALS ∨
  percent_byte b = [37; upper_hex (b / 16); upper_hex (b mod 16)].
Proof.
  intros Hb. unfold percent_byte. destruct (is_unreserved b) eqn:Hu; [left | by right].
  split; [done |]. split; [done |]. unfold AMP, EQUALS.
  repeat split; intros ->; vm_compute in Hu; done.
Qed.

Lemma percent_encode_inj v w :
  bytes_ok v → bytes_ok w → percent_encode v = percent_encode w → v = w.
Proof.
  intros Hv. revert w. induction Hv as [| b v Hb _ IH]; intros w Hw.
  - destruct Hw as [| c w Hc _]; [done |]. cbn.
    by destruct (percent_byte_shape c Hc) as [(-> & _) | ->].
  - destruct Hw as [| c w Hc Hw]; cbn.
    { by destruct (percent_byte_shape b Hb) as [(-> & _) | ->]. }
    destruct (percent_byte_shape b Hb) as [(-> & _ & ? & _) | ->],
      (percent_byte_shape c Hc) as [(-> & _ & ? & _) | ->]; cbn; intros Heq; simplify_eq.
    + f_equal. by apply IH.
    + f_equal; [| by apply IH]. unfold byte_ok in *.
      assert (b / 16 = c / 16) by (apply upper_hex_inj; [| | done]; split;
        (apply Z.div_pos || apply Z.div_lt_upper_bound); lia).
      assert (b mod 16 = c mod 16) by (apply upper_hex_inj; [| | done]; apply Z.mod_pos_bound; lia).
      rewrite (Z.div_mod b 16), (Z.div_mod c 16) by lia. lia.
Qed.

Lemma percent_encode_safe v : bytes_ok v → AMP ∉ percent_encode v ∧ EQUALS ∉ percent_encode v.
Proof.
  intros Hv. enough (∀ x, x ∈ percent_encode v → x ≠ AMP ∧ x ≠ EQUALS) by naive_solver.
  induction Hv as [| b v Hb _ IH]; intros x; cbn; [by intros ?%not_elem_of_nil |].
  intros [Hx | Hx]%elem_of_app; [| by apply IH].
  destruct (percent_byte_shape b Hb) as [(Heq & _ & _ & ? & ?) | Heq]; rewrite Heq in Hx.
  - by apply list_elem_of_singleton in Hx as ->.
  - unfold byte_ok in Hb. assert (0 <= b / 16 < 16) by
      (split; [apply Z.div_pos | apply Z.div_lt_upper_bound]; lia).
    pose proof (Z.mod_pos_bound b 16 ltac:(lia)).
    unfold AMP, EQUALS. repeat (apply elem_of_cons in Hx as [-> | Hx]);
      [lia | unfold upper_hex; case_Z; lia | unfold upper_hex; case_Z; lia |].
    by apply not_elem_of_nil in Hx.
Qed.

Definition query_segment (p : bytes * bytes) : bytes :=
  [AMP] ++ p.1 ++ [EQUALS] ++ percent_encode p.2.

Lemma encode_query_from ps out : out ≠ [] →
  fold_left (λ out '(key, value),
    let out := if bool_decide (out = []) then out else out ++ [AMP] in
    out ++ key ++ [EQUALS] ++ percent_encode value) ps out = out ++ concat (map query_segment ps).
Proof.
  revert out. induction ps as [| [k v] ps IH]; intros out Hne; cbn; [by rewrite app_nil_r |].
  rewrite bool_decide_eq_false_2 by done. rewrite IH; [| by destruct out].
  unfold query_segment. cbn. by rewrite <- !app_assoc.
Qed.

Lemma encode_query_cons k v ps :
  encode_query ((k, v) :: ps) = k ++ [EQUALS] ++ percent_encode v ++ concat (map query_segment ps).
Proof.
  unfold encode_query. cbn [fold_left]. rewrite bool_decide_eq_true_2 by done.
  rewrite encode_query_from by (cbn; by destruct k). cbn. by rewrite <- app_assoc.
Qed.

(** Cuts a byte string at the first [&]. *)
Lemma cut_at_amp v w r s :
  AMP ∉ v → AMP ∉ w → (r = [] ∨ ∃ r', r = AMP :: r') → (s = [] ∨ ∃ s', s = AMP :: s') →
  v ++ r = w ++ s → v = w ∧ r = s.
Proof.
  intros Hv. revert w. induction v as [| x v IH]; intros w Hw Hr Hs Heq.
  - destruct w as [| y w]; [done |]. cbn in Heq. subst r.
    destruct Hr as [Hr | [r' Hr]]; [done |]. simplify_eq. apply not_elem_of_cons in Hw as [? _]. done.
  - apply not_elem_of_cons in Hv as [Hx Hv]. destruct w as [| y w]; cbn in Heq.
    + subst s. destruct Hs as [Hs | [s' Hs]]; simplify_eq.
    + injection Heq as -> Heq. apply not_elem_of_cons in Hw as [_ Hw].
      destruct (IH Hv w Hw Hr Hs Heq) as [-> ->]. done.
Qed.

Lemma query_tail_shape ps : concat (map query_segment ps) = [] ∨
  ∃ r, concat (map query_segment ps) = AMP :: r.
Proof. destruct ps; cbn; eauto. Qed.

Lemma query_value_split v w ps qs :
  bytes_ok v → bytes_ok w →
  percent_encode v ++ concat (map query_segment ps) = percent_encode w ++ concat (map query_segment qs) →
  v = w ∧ concat (map query_segment ps) = concat (map query_segment qs).
Proof.
  intros Hv Hw Heq. destruct (percent_encode_safe v Hv) as [Hav _].
  destruct (percent_encode_safe w Hw) as [Haw _].
  destruct (cut_at_amp _ _ _ _ Hav Haw (query_tail_shape ps) (query_tail_shape qs) Heq) as [He ->].
  split; [| done]. by apply percent_encode_inj.
Qed.

Lemma query_segments_inj ps qs :
  ps.*1 = qs.*1 → Forall bytes_ok ps.*2 → Forall bytes_ok qs.*2 →
  concat (map query_segment ps) = concat (map query_segment qs) → ps = qs.
Proof.
  revert qs. induction ps as [| [k v] ps IH]; intros [| [k' w] qs] Hk Hp Hq Heq; try done.
  cbn in *. injection Hk as -> Hk. inversion Hp; inversion Hq; subst.
  unfold query_segment in Heq. cbn in Heq. rewrite <- !app_assoc in Heq. injection Heq as Heq.
  apply app_inv_head in Heq. cbn in Heq. injection Heq as Heq.
  apply query_value_split in Heq as [-> Heq]; [| done..]. f_equal. by apply IH.
Qed.

(** ** Properties *)

(** No value can inject or alter another parameter of a request: for the
    same parameter names, two different lists of values (any bytes, including
    [&], [=] and [%]) never produce the same query string. *)
Theorem encode_query_injective (ps qs : list (bytes * bytes))
    (Hkeys : ps.*1 = qs.*1) (Hps : Forall bytes_ok ps.*2) (Hqs : Forall bytes_ok qs.*2) :
  encode_query ps = encode_query qs → ps = qs.
Proof.
  destruct ps as [| [k v] ps], qs as [| [k' w] qs]; try done. cbn in Hkeys, Hps, Hqs. injection Hkeys as -> Hk.
  inversion Hps; inversion Hqs; subst. rewrite !encode_query_cons. intros Heq.
  apply app_inv_head in Heq. cbn in Heq. injection Heq as Heq.
  apply query_value_split in Heq as [-> Heq]; [| done..]. f_equal. by apply query_segments_inj.
Qed.

Lemma encode_query_injective_witness :
  encode_query [([97], [38; 98; 61; 49]); ([98], [50])] ≠ encode_query [([97], []); ([98], [49])].
Proof.
  intros H. pose proof (encode_query_injective [([97], [38; 98; 61; 49]); ([98], [50])]
    [([97], []); ([98], [49])] ltac:(reflexivity) ltac:(repeat constructor; done)
    ltac:(repeat constructor; done) H). discriminate.
Defined.
