(* ===== verification/DynIndex.v ===== *)
(** * DynIndex: dynamic indexes (pbs-client/src/reader.rs, manifest.rs)

    The index of an archive: a 4096-byte header and one 40-byte entry per
    chunk, the end offset of the chunk and its digest; and the reader that
    reassembles an archive from its index. *)
From stdpp Require Import pretty.
From S2P Require Import Prelude IoModel Datablob Transport.

Definition DYNAMIC_INDEX_HEADER_SIZE : Z := 4096.
Definition DYNAMIC_INDEX_ENTRY_SIZE : Z := 40.

Definition ARCHIVE_NAME : string := "root.pxar.didx".
Definition CATALOG_NAME : string := "catalog.pcat1.didx".
Definition MANIFEST_BLOB_NAME : string := "index.json.blob".

Definition parse_entry (entry : bytes) : result PbsError (Z * bytes) :=
  offset_bytes ← ok_or (get_range entry 0 8) (Decode "dynamic index entry too short");
  digest_bytes ← ok_or (get_range entry 8 DYNAMIC_INDEX_ENTRY_SIZE) (Decode "dynamic index entry too short");
  Ok (from_le_bytes offset_bytes, digest_bytes).

Fixpoint parse_entries_loop (entries : list bytes) (out : list (Z * bytes)) :
    result PbsError (list (Z * bytes)) :=
  match entries with
  | [] => Ok out
  | entry :: entries => e ← parse_entry entry; parse_entries_loop entries (out ++ [e])
  end.

Definition parse_dynamic_index_entries (data : bytes) : result PbsError (list (Z * bytes)) :=
  entries ← ok_or (get_from data DYNAMIC_INDEX_HEADER_SIZE) (Decode "dynamic index shorter than its header");
  if negb (zlen entries mod DYNAMIC_INDEX_ENTRY_SIZE =? 0)
  then Err (Decode "dynamic index has a truncated entry")
  else parse_entries_loop (chunks_exact DYNAMIC_INDEX_ENTRY_SIZE entries) [].

Definition parse_dynamic_index (data : bytes) : result PbsError (list bytes) :=
  entries ← parse_dynamic_index_entries data;
  Ok (map snd entries).

(** ** The reader *)

Section reader.
Context (hex_encode : bytes → string).
Context (crc32 : bytes → Z) (zstd_decompress : bytes → Z → result string bytes).
Context {T : Type} `{H2Transport T}.

Definition download_file (file_name : string) : stt T PbsError bytes :=
  download "download" [("file-name", file_name)].

Definition download_chunk_plaintext (digest : bytes) : stt T PbsError bytes :=
  encoded ← download "chunk" [("digest", hex_encode digest)];
  lift (decode_blob crc32 zstd_decompress encoded).

Definition archive_chunk_digests : stt T PbsError (list bytes) :=
  index ← download_file ARCHIVE_NAME;
  lift (parse_dynamic_index index).

Context {W : Type} `{Write W}.

(** The objects the reassembly mutates. *)
Record Reassembly : Type := mk_Reassembly {
  ra_transport : T;
  ra_writer : W;
  ra_progress : option Z;
}.

Definition on_transport {A} (m : stt T PbsError A) : stt Reassembly PbsError A :=
  zoom ra_transport (λ t s, mk_Reassembly t (ra_writer s) (ra_progress s)) m.

(** [fetch_add] wraps around. *)
Definition add_progress (n : Z) : stt Reassembly PbsError unit :=
  modify (λ s, mk_Reassembly (ra_transport s) (ra_writer s) ((λ p, p +u n) <$> ra_progress s)).

Definition write_plaintext (plaintext : bytes) : stt Reassembly PbsError unit := λ s,
  match write_all plaintext (ra_writer s) with
  | (Ok _, w) => (Ok tt, mk_Reassembly (ra_transport s) w (ra_progress s))
  | (Err err, w) => (Err (Transport (io_display err)), mk_Reassembly (ra_transport s) w (ra_progress s))
  end.

(** [buffered] yields the downloads in the order of the digests. *)
Definition reassemble_archive_inner : stt Reassembly PbsError unit :=
  digests ← on_transport archive_chunk_digests;
  foreach (λ digest,
    plaintext ← on_transport (download_chunk_plaintext digest);
    _ ← add_progress (zlen plaintext);
    write_plaintext plaintext) digests.

(** [PbsArchive::read_catalog] (pbs-client/src/accessor.rs) *)
Definition read_catalog : stt T PbsError bytes :=
  index ← download_file CATALOG_NAME;
  chunks ← lift (parse_dynamic_index_entries index);
  (fix go chunks catalog :=
     match chunks with
     | [] => mret catalog
     | (_, digest) :: chunks =>
         plaintext ← download_chunk_plaintext digest;
         go chunks (catalog ++ plaintext)
     end) chunks [].
End reader.
Arguments Reassembly T W : clear implicits.
Arguments mk_Reassembly {T W} _ _ _.
Arguments ra_transport {T W} _.
Arguments ra_writer {T W} _.
Arguments ra_progress {T W} _.

(** ** Offsets *)

(** Where each chunk starts and ends when the first one starts at [start]. *)
Fixpoint starts (start : Z) (sizes : list Z) : list Z :=
  match sizes with [] => [] | n :: sizes => start :: starts (start + n) sizes end.
Fixpoint ends (start : Z) (sizes : list Z) : list Z :=
  match sizes with [] => [] | n :: sizes => (start + n) :: ends (start + n) sizes end.
Definition total (sizes : list Z) : Z := foldr Z.add 0 sizes.

Lemma starts_app start a b : starts start (a ++ b) = starts start a ++ starts (start + total a) b.
Proof.
  revert start. induction a as [| n a IH]; intros start; cbn; [by rewrite Z.add_0_r |].
  rewrite IH. by rewrite Z.add_assoc.
Qed.
Lemma ends_app start a b : ends start (a ++ b) = ends start a ++ ends (start + total a) b.
Proof.
  revert start. induction a as [| n a IH]; intros start; cbn; [by rewrite Z.add_0_r |].
  rewrite IH. by rewrite Z.add_assoc.
Qed.
Lemma total_app a b : total (a ++ b) = total a + total b.
Proof. induction a as [| n a IH]; cbn; [done |]. unfold total in *. lia. Qed.
Lemma total_nonneg a : Forall (λ n, 0 <= n) a → 0 <= total a.
Proof. induction 1; cbn; [done |]. unfold total in *. lia. Qed.
Lemma length_ends start a : length (ends start a) = length a.
Proof. revert start. induction a as [| n a IH]; intros start; cbn; by rewrite ?IH. Qed.

(** ** The index file as a specification *)

Definition index_entry (e : Z * bytes) : bytes := to_le_bytes 8 e.1 ++ e.2.
Definition index_file (header : bytes) (entries : list (Z * bytes)) : bytes :=
  header ++ concat (map index_entry entries).
Definition index_entry_ok (e : Z * bytes) : Prop := in_u64 e.1 ∧ zlen e.2 = 32.

Lemma zlen_index_entry e : index_entry_ok e → zlen (index_entry e) = DYNAMIC_INDEX_ENTRY_SIZE.
Proof. intros [_ Hd]. unfold index_entry, DYNAMIC_INDEX_ENTRY_SIZE. zlen_lia. Qed.

Lemma parse_index_entry e : index_entry_ok e → parse_entry (index_entry e) = Ok e.
Proof.
  intros [Ho Hd]. destruct e as [o d]. cbn in Ho, Hd. unfold parse_entry, index_entry. cbn [fst snd].
  change (get_range (to_le_bytes 8 o ++ d) 0 8) with (get_to (to_le_bytes 8 o ++ d) 8).
  rewrite get_to_app by zlen_lia.
  cbn [ok_or mbind result_bind]. rewrite <- (app_nil_r d) at 1.
  rewrite get_range_app by (unfold DYNAMIC_INDEX_ENTRY_SIZE; zlen_lia). cbn. by rewrite from_to_le_u64.
Qed.

Lemma zlen_index_entries es :
  Forall index_entry_ok es → zlen (concat (map index_entry es)) = 40 * zlen es.
Proof.
  induction 1 as [| e es He _ IH]; [done |]. cbn.
  rewrite zlen_app, zlen_index_entry, IH, zlen_cons by done. unfold DYNAMIC_INDEX_ENTRY_SIZE. lia.
Qed.

Lemma chunks_exact_entries es fuel :
  Forall index_entry_ok es → (length es <= fuel)%nat →
  chunks_exact_loop fuel DYNAMIC_INDEX_ENTRY_SIZE (concat (map index_entry es)) = map index_entry es.
Proof.
  intros Hes. revert fuel. induction Hes as [| e es He Hes IH]; intros fuel Hf.
  - by destruct fuel.
  - destruct fuel as [| fuel]; [cbn in Hf; lia |]. cbn [map concat chunks_exact_loop].
    pose proof (zlen_index_entry e He) as Hl. rewrite zlen_app, Hl.
    pose proof (zlen_nonneg (concat (map index_entry es))).
    destruct (Z.ltb_spec (DYNAMIC_INDEX_ENTRY_SIZE + zlen (concat (map index_entry es)))
      DYNAMIC_INDEX_ENTRY_SIZE); [lia |].
    rewrite <- Hl, ztake_app, zdrop_app, Hl. f_equal. apply IH. cbn in Hf. lia.
Qed.

Lemma parse_entries_loop_ok es out :
  Forall index_entry_ok es → parse_entries_loop (map index_entry es) out = Ok (out ++ es).
Proof.
  intros Hes. revert out. induction Hes as [| e es He Hes IH]; intros out; cbn.
  - by rewrite app_nil_r.
  - rewrite parse_index_entry by done. cbn. rewrite IH, <- app_assoc. done.
Qed.

Lemma parse_index_file header es :
  zlen header = DYNAMIC_INDEX_HEADER_SIZE → Forall index_entry_ok es →
  parse_dynamic_index_entries (index_file header es) = Ok es.
Proof.
  intros Hh Hes. unfold parse_dynamic_index_entries, index_file. rewrite get_from_app by done.
  cbn [ok_or mbind result_bind]. rewrite zlen_index_entries by done.
  unfold DYNAMIC_INDEX_ENTRY_SIZE at 1. rewrite Z.mul_comm, Z.mod_mul by lia. cbn [Z.eqb negb].
  unfold chunks_exact. rewrite chunks_exact_entries; [| done |].
  - by apply parse_entries_loop_ok.
  - pose proof (zlen_index_entries es Hes) as Hl. unfold zlen in Hl. lia.
Qed.

Lemma index_entry_of chunk : bytes_ok chunk → zlen chunk = 40 →
  ∃ e, index_entry e = chunk ∧ index_entry_ok e.
Proof.
  intros Hb Hl. exists (from_le_bytes (ztake 8 chunk), zdrop 8 chunk).
  assert (bytes_ok (ztake 8 chunk)) as Hb8.
  { rewrite <- (ztake_zdrop 8 chunk) in Hb. by apply bytes_ok_app in Hb as [? _]. }
  assert (zlen (ztake 8 chunk) = 8) as Hl8 by (rewrite zlen_ztake; lia).
  split.
  - unfold index_entry. cbn [fst snd].
    replace 8%nat with (length (ztake 8 chunk)) by (unfold zlen in Hl8; lia).
    by rewrite to_from_le_bytes, ztake_zdrop.
  - split; cbn [fst snd]; [by apply from_le_bytes_u64 | rewrite zlen_zdrop; lia].
Qed.

Lemma chunks_exact_index fuel : ∀ l, bytes_ok l → zlen l mod 40 = 0 → (length l <= fuel)%nat →
  ∃ es, chunks_exact_loop fuel DYNAMIC_INDEX_ENTRY_SIZE l = map index_entry es ∧
        Forall index_entry_ok es ∧ l = concat (map index_entry es).
Proof.
  induction fuel as [| fuel IH]; intros l Hb Hm Hf.
  - exists []. destruct l; [done | cbn in Hf; lia].
  - cbn [chunks_exact_loop]. unfold DYNAMIC_INDEX_ENTRY_SIZE at 1.
    pose proof (zlen_nonneg l). destruct (Z.ltb_spec (zlen l) 40).
    + rewrite Z.mod_small in Hm by lia. apply zlen_0_nil in Hm as ->. by exists [].
    + pose proof (ztake_zdrop 40 l) as Hsp. rewrite <- Hsp in Hb. apply bytes_ok_app in Hb as [Hb1 Hb2].
      destruct (index_entry_of (ztake 40 l) Hb1) as (e & He & Hok); [rewrite zlen_ztake; lia |].
      destruct (IH (zdrop 40 l) Hb2) as (es & Hes & Hoks & Hl).
      * rewrite zlen_zdrop. replace (zlen l - Z.min (Z.max 40 0) (zlen l)) with (zlen l + (-1) * 40) by lia.
        by rewrite Z.mod_add by lia.
      * unfold zdrop. rewrite length_drop. lia.
      * exists (e :: es). cbn [map concat]. unfold DYNAMIC_INDEX_ENTRY_SIZE in *.
        rewrite He, Hes. split; [done |]. split; [by constructor |]. by rewrite <- Hl, ztake_zdrop.
Qed.

(** The index parser accepts exactly the byte strings that are a 4096-byte
    header followed by whole 40-byte entries, and returns those entries: the
    index format round trips in both directions, and a truncated index is
    always an error. *)
Theorem parse_dynamic_index_accepts data es (Hdata : bytes_ok data) :
  parse_dynamic_index_entries data = Ok es ↔
  ∃ header, zlen header = DYNAMIC_INDEX_HEADER_SIZE ∧ Forall index_entry_ok es ∧
            data = index_file header es.
Proof.
  split; [| intros (header & Hh & Hes & ->); by apply parse_index_file].
  unfold parse_dynamic_index_entries.
  destruct (get_from data DYNAMIC_INDEX_HEADER_SIZE) as [body |] eqn:Hg; [| done].
  cbn [ok_or mbind result_bind]. unfold get_from in Hg. apply get_range_Some in Hg as (Hr1 & Hr2 & ->).
  rewrite ztake_ge by (rewrite zlen_zdrop; lia).
  destruct (Z.eqb_spec (zlen (zdrop DYNAMIC_INDEX_HEADER_SIZE data) mod DYNAMIC_INDEX_ENTRY_SIZE) 0);
    [| done]. cbn [negb]. intros Hp.
  pose proof (ztake_zdrop DYNAMIC_INDEX_HEADER_SIZE data) as Hsp.
  assert (bytes_ok (zdrop DYNAMIC_INDEX_HEADER_SIZE data)) as Hb.
  { rewrite <- Hsp in Hdata. by apply bytes_ok_app in Hdata as [_ ?]. }
  destruct (chunks_exact_index (length (zdrop DYNAMIC_INDEX_HEADER_SIZE data)) _ Hb)
    as (es' & Hc & Hok & Hl); [done | done |].
  unfold chunks_exact in Hp. rewrite Hc, parse_entries_loop_ok in Hp by done. injection Hp as <-.
  exists (ztake DYNAMIC_INDEX_HEADER_SIZE data). split; [| split].
  - rewrite zlen_ztake. lia.
  - done.
  - unfold index_file. cbn [app]. rewrite <- Hl. symmetry. exact Hsp.
Qed.

Lemma parse_dynamic_index_accepts_witness :
  ∃ header, index_file (replicate 4096 0) [(300, replicate 32 7)] = index_file header [(300, replicate 32 7)].
Proof.
  destruct (proj1 (parse_dynamic_index_accepts (index_file (replicate 4096 0) [(300, replicate 32 7)])
    [(300, replicate 32 7)] ltac:(apply (bool_decide_unpack _); vm_compute; exact I))) as (h & _ & _ & H);
    [vm_compute; reflexivity |].
  exists h. exact H.
Defined.
