(* ===== verification/ArchiveWriter.v ===== *)
(** * ArchiveWriter: uploading an archive (pbs-client/src/writer.rs, manifest.rs)

    The producer turns the chunks of a stream into messages, skipping the
    upload of chunks the server already has; the consumer uploads the new
    ones, registers all of them in the index in batches and closes the index
    with its checksum.  The two run concurrently over a bounded FIFO channel;
    the messages reach the consumer in the producer's order, so the model runs
    the consumer over the producer's list. *)
From stdpp Require Import pretty.
From S2P Require Import Prelude IoModel Datablob Transport DynIndex.

Definition INDEX_BATCH_SIZE : Z := 256.

Inductive CryptMode : Type := CryptMode_None.

Record FileInfo : Type := mk_FileInfo {
  fi_filename : string;
  fi_crypt_mode : CryptMode;
  fi_size : Z;
  fi_csum : string;
}.

Record BackupManifest : Type := mk_BackupManifest {
  bm_backup_type : string;
  bm_backup_id : string;
  bm_backup_time : Z;
  bm_files : list FileInfo;
  bm_unprotected : Json;
}.

Definition BackupManifest_new (backup_type backup_id : string) (backup_time : Z) : BackupManifest :=
  mk_BackupManifest backup_type backup_id backup_time [] (JObject []).
Definition add_file (self : BackupManifest) (file : FileInfo) : BackupManifest :=
  mk_BackupManifest (bm_backup_type self) (bm_backup_id self) (bm_backup_time self)
    (bm_files self ++ [file]) (bm_unprotected self).

Record UploadedArchive : Type := mk_UploadedArchive { ua_file : FileInfo; ua_size : Z }.

Inductive ChunkMessage : Type :=
  | Known (digest : bytes) (size : Z)
  | New (blob : EncodedBlob).

Section writer.
Context (hex_encode : bytes → string).
Context (sha256 : bytes → bytes) (crc32 : bytes → Z) (zstd_compress : bytes → Z → option bytes).

Definition FileInfo_new (filename : string) (size : Z) (csum : bytes) : FileInfo :=
  mk_FileInfo filename CryptMode_None size (hex_encode csum).

Definition index_csum (entries : list (Z * bytes)) : bytes :=
  sha256 (fold_left (λ hashed '(end_offset, digest), hashed ++ to_le_bytes 8 end_offset ++ digest)
            entries []).

(** The messages of a chunked stream; a read error is the last one. *)
Fixpoint producer (known : gset bytes) (chunks : list (result string bytes)) :
    list (result string ChunkMessage) :=
  match chunks with
  | [] => []
  | Err err :: _ => [Err err]
  | Ok chunk :: chunks =>
      let digest := sha256 chunk in
      if decide (digest ∈ known) then Ok (Known digest (zlen chunk)) :: producer known chunks
      else Ok (New (encode_blob_with_digest crc32 zstd_compress chunk digest)) ::
           producer ({[digest]} ∪ known) chunks
  end.

Context {T : Type} `{H2Transport T}.

Definition previous_archive_digests (archive_name : string) : stt T PbsError (gset bytes) :=
  index ← download "previous" [("archive-name", archive_name)];
  digests ← lift (parse_dynamic_index index);
  mret (list_to_set digests).

(** The consumer's local variables, and the transport it borrows. *)
Record Consumer : Type := mk_Consumer {
  c_transport : T;
  c_entries : list (Z * bytes);
  c_digest_list : list string;
  c_offset_list : list Z;
  c_end_offset : Z;
}.

Definition with_transport {A} (m : stt T PbsError A) : stt Consumer PbsError A :=
  zoom c_transport (λ t s, mk_Consumer t (c_entries s) (c_digest_list s) (c_offset_list s) (c_end_offset s)) m.

Definition register_chunks (wid : Z) : stt Consumer PbsError unit :=
  s ← get_state;
  _ ← with_transport (send_json "PUT" "dynamic_index" []
        (JObject [("wid", JNumber wid);
                  ("digest-list", JArray (map JString (c_digest_list s)));
                  ("offset-list", JArray (map JNumber (c_offset_list s)))]));
  modify (λ s, mk_Consumer (c_transport s) (c_entries s) [] [] (c_end_offset s)).

Definition advance (size : Z) : stt Consumer PbsError unit :=
  modify (λ s, mk_Consumer (c_transport s) (c_entries s) (c_digest_list s) (c_offset_list s)
                 (c_end_offset s +u size)).

Definition push_entry (start_offset : Z) (digest : bytes) : stt Consumer PbsError unit :=
  modify (λ s, mk_Consumer (c_transport s) (c_entries s ++ [(c_end_offset s, digest)])
                 (c_digest_list s ++ [hex_encode digest]) (c_offset_list s ++ [start_offset])
                 (c_end_offset s)).

Definition consume (wid : Z) (message : result string ChunkMessage) : stt Consumer PbsError unit :=
  message ← lift (map_err Transport message);
  s ← get_state;
  let start_offset := c_end_offset s in
  digest ←
    match message with
    | Known digest size => _ ← advance size; mret digest
    | New blob =>
        _ ← advance (plaintext_size blob);
        _ ← with_transport (upload "POST" "dynamic_chunk"
              [("wid", pretty wid); ("digest", hex_encode (blob_digest blob));
               ("size", pretty (plaintext_size blob)); ("encoded-size", pretty (zlen (blob_data blob)))]
              "application/octet-stream" (blob_data blob));
        mret (blob_digest blob)
    end;
  _ ← push_entry start_offset digest;
  s ← get_state;
  if INDEX_BATCH_SIZE <=? zlen (c_digest_list s) then register_chunks wid else mret tt.

Definition consumer (wid : Z) (messages : list (result string ChunkMessage)) : stt Consumer PbsError unit :=
  _ ← foreach (consume wid) messages;
  s ← get_state;
  if bool_decide (c_digest_list s = []) then mret tt else register_chunks wid.

(** The chunker (fastcdc) is outside the model: [chunks] is what it cuts the
    reader's stream into. *)
Definition upload_archive_named (archive_name : string) (chunks : list (result string bytes))
    (known_chunks : gset bytes) : stt T PbsError UploadedArchive :=
  response ← post "dynamic_index" [("archive-name", archive_name)];
  wid ← lift (ok_or (as_u64 response) (Decode "dynamic_index did not return a wid"));
  c ← λ t,
    match consumer wid (producer known_chunks chunks) (mk_Consumer t [] [] [] 0) with
    | (Ok _, c) => (Ok c, c_transport c)
    | (Err e, c) => (Err e, c_transport c)
    end;
  let csum := index_csum (c_entries c) in
  _ ← post "dynamic_close"
        [("wid", pretty wid); ("chunk-count", pretty (zlen (c_entries c)));
         ("size", pretty (c_end_offset c)); ("csum", hex_encode csum)];
  mret (mk_UploadedArchive (FileInfo_new archive_name (c_end_offset c) csum) (c_end_offset c)).

Definition upload_blob (file_name : string) (plaintext : bytes) : stt T PbsError FileInfo :=
  let blob := encode_blob sha256 crc32 zstd_compress plaintext in
  let encoded_csum := sha256 (blob_data blob) in
  let encoded_size := zlen (blob_data blob) in
  _ ← upload "POST" "blob" [("file-name", file_name); ("encoded-size", pretty encoded_size)]
        "application/octet-stream" (blob_data blob);
  mret (FileInfo_new file_name encoded_size encoded_csum).

(** [serde_json::to_vec] of the manifest. *)
Context (to_json_bytes : BackupManifest → result string bytes).

Definition finish (manifest : BackupManifest) : stt T PbsError unit :=
  json ← lift (map_err Decode (to_json_bytes manifest));
  _ ← upload_blob MANIFEST_BLOB_NAME json;
  _ ← post "finish" [];
  mret tt.
End writer.
Arguments Consumer T : clear implicits.
Arguments mk_Consumer {T} _ _ _ _ _.
Arguments c_transport {T} _.
Arguments c_entries {T} _.
Arguments c_digest_list {T} _.
Arguments c_offset_list {T} _.
Arguments c_end_offset {T} _.

(** ** The calls an upload makes, as a specification *)

Section upload_spec.
Context (hex_encode : bytes → string).
Context (sha256 : bytes → bytes) (crc32 : bytes → Z) (zstd_compress : bytes → Z → option bytes).

Definition msg_digest (m : ChunkMessage) : bytes :=
  match m with Known d _ => d | New b => blob_digest b end.
Definition msg_size (m : ChunkMessage) : Z :=
  match m with Known _ s => s | New b => plaintext_size b end.

(** The upload a message asks for. *)
Definition upload_call (wid : Z) (m : ChunkMessage) : list Call :=
  match m with
  | Known _ _ => []
  | New b =>
      [Upload "POST" "dynamic_chunk"
         [("wid", pretty wid); ("digest", hex_encode (blob_digest b));
          ("size", pretty (plaintext_size b)); ("encoded-size", pretty (zlen (blob_data b)))]
         "application/octet-stream" (blob_data b)]
  end.

(** The registration of one batch that starts at [start]. *)
Definition register_call (wid start : Z) (batch : list ChunkMessage) : Call :=
  SendJson "PUT" "dynamic_index" []
    (JObject [("wid", JNumber wid);
              ("digest-list", JArray (map JString (map (λ m, hex_encode (msg_digest m)) batch)));
              ("offset-list", JArray (map JNumber (starts start (map msg_size batch))))]).

(** A batch is uploaded, then registered. *)
Fixpoint batches_log (wid start : Z) (batches : list (list ChunkMessage)) : list Call :=
  match batches with
  | [] => []
  | b :: bs => concat (map (upload_call wid) b) ++ [register_call wid start b] ++
               batches_log wid (start + total (map msg_size b)) bs
  end.

(** Full batches of [INDEX_BATCH_SIZE], then what is left. *)
Fixpoint batches (fuel : nat) (ms : list ChunkMessage) : list (list ChunkMessage) :=
  match fuel, ms with
  | O, _ | _, [] => []
  | S fuel, _ => ztake INDEX_BATCH_SIZE ms :: batches fuel (zdrop INDEX_BATCH_SIZE ms)
  end.

(** The messages of a stream that is read to its end. *)
Fixpoint messages (known : gset bytes) (chunks : list bytes) : list ChunkMessage :=
  match chunks with
  | [] => []
  | c :: cs =>
      if decide (sha256 c ∈ known) then Known (sha256 c) (zlen c) :: messages known cs
      else New (encode_blob_with_digest crc32 zstd_compress c (sha256 c)) ::
           messages ({[sha256 c]} ∪ known) cs
  end.

(** The index the server holds afterwards. *)
Definition index_of (chunks : list bytes) : list (Z * bytes) :=
  zip (ends 0 (map zlen chunks)) (map sha256 chunks).

Lemma producer_ok known chunks :
  producer sha256 crc32 zstd_compress known (map Ok chunks) = map Ok (messages known chunks).
Proof using Type.
  revert known. induction chunks as [| c cs IH]; intros known; [done |]. cbn.
  case_decide; cbn; by rewrite IH.
Qed.

Lemma messages_digests known chunks : map msg_digest (messages known chunks) = map sha256 chunks.
Proof using Type.
  revert known. induction chunks as [| c cs IH]; intros known; [done |]. cbn.
  case_decide; cbn; by rewrite IH, ?blob_digest_encode.
Qed.

Lemma messages_sizes known chunks : map msg_size (messages known chunks) = map zlen chunks.
Proof using Type.
  revert known. induction chunks as [| c cs IH]; intros known; [done |]. cbn.
  case_decide; cbn; by rewrite IH, ?plaintext_size_encode.
Qed.

Lemma batches_cons fuel ms :
  ms ≠ [] → batches (S fuel) ms = ztake INDEX_BATCH_SIZE ms :: batches fuel (zdrop INDEX_BATCH_SIZE ms).
Proof. intros Hne. by destruct ms. Qed.

Context {T : Type} {HT : H2Transport T} {HL : TransportLog T} (wid : Z).
Context {HR : @ReliableTransport T HT HL wid}.

(** The consumer has appended [log] to the calls and sits [sizes] further on,
    with the messages of [pending] not registered yet. *)
Definition consumed (t0 : T) (log : list Call) (done pending : list ChunkMessage) (s : Consumer T) : Prop :=
  let all := done ++ pending in
  calls (c_transport s) = calls t0 ++ log ∧
  c_entries s = zip (ends 0 (map msg_size all)) (map msg_digest all) ∧
  c_digest_list s = map (λ m, hex_encode (msg_digest m)) pending ∧
  c_offset_list s = starts (total (map msg_size done)) (map msg_size pending) ∧
  c_end_offset s = total (map msg_size all).

Lemma register_chunks_ok t0 log don pending s :
  consumed t0 log don pending s →
  ∃ s', register_chunks wid s = (Ok tt, s') ∧
    consumed t0 (log ++ [register_call wid (total (map msg_size don)) pending]) (don ++ pending) [] s'.
Proof.
  intros (Hc & He & Hd & Ho & Hn). unfold register_chunks.
  rewrite (stt_bind_ok get_state _ s s s) by done.
  destruct (send_json_total (wid := wid) "PUT" "dynamic_index" []
    (JObject [("wid", JNumber wid);
              ("digest-list", JArray (map JString (c_digest_list s)));
              ("offset-list", JArray (map JNumber (c_offset_list s)))]) (c_transport s)) as (t' & Hs).
  unfold with_transport, zoom, mbind, stt_bind, modify. rewrite Hs. eexists. split; [done |].
  apply send_json_log in Hs. unfold consumed. cbn. rewrite !app_nil_r.
  rewrite Hs, Hc, Hd, Ho, <- app_assoc. done.
Qed.

Definition msg_ok (m : ChunkMessage) : Prop := 0 <= msg_size m.

(** One message leaves its upload on record and its entry in the lists. *)
Lemma consume_entry t0 log don pending m s :
  consumed t0 log don pending s → msg_ok m →
  in_u64 (total (map msg_size (don ++ pending)) + msg_size m) →
  ∃ s', consume hex_encode wid (Ok m) s =
          (if INDEX_BATCH_SIZE <=? zlen (pending ++ [m]) then register_chunks wid s' else (Ok tt, s')) ∧
        consumed t0 (log ++ upload_call wid m) don (pending ++ [m]) s'.
Proof.
  intros (Hc & He & Hd & Ho & Hn) Hm Hr. unfold consume.
  set (s1 := mk_Consumer (c_transport s) (c_entries s) (c_digest_list s) (c_offset_list s)
               (c_end_offset s +u msg_size m)).
  assert (∃ t', calls t' = calls (c_transport s) ++ upload_call wid m ∧
    (match m with
     | Known digest size => advance size ≫= λ _, mret digest
     | New blob =>
         advance (plaintext_size blob) ≫= λ _,
         with_transport (upload "POST" "dynamic_chunk"
           [("wid", pretty wid); ("digest", hex_encode (blob_digest blob));
            ("size", pretty (plaintext_size blob)); ("encoded-size", pretty (zlen (blob_data blob)))]
           "application/octet-stream" (blob_data blob)) ≫= λ _, mret (blob_digest blob)
     end) s = (Ok (msg_digest m), mk_Consumer t' (c_entries s) (c_digest_list s) (c_offset_list s)
                                    (c_end_offset s +u msg_size m))) as (t' & Ht' & Hstep).
  { destruct m as [d n | b]; cbn.
    - exists (c_transport s). rewrite app_nil_r. done.
    - destruct (upload_total (wid := wid) "POST" "dynamic_chunk"
        [("wid", pretty wid); ("digest", hex_encode (blob_digest b));
         ("size", pretty (plaintext_size b)); ("encoded-size", pretty (zlen (blob_data b)))]
        "application/octet-stream" (blob_data b) (c_transport s)) as (t' & Hu).
      exists t'. split; [by apply upload_log in Hu |].
      rewrite (stt_bind_ok (advance _) _ s tt s1) by done.
      unfold with_transport, zoom, mbind, stt_bind. cbn [c_transport s1]. by rewrite Hu. }
  exists (mk_Consumer t' (c_entries s ++ [(c_end_offset s +u msg_size m, msg_digest m)])
            (c_digest_list s ++ [hex_encode (msg_digest m)]) (c_offset_list s ++ [c_end_offset s])
            (c_end_offset s +u msg_size m)).
  split.
  - rewrite (stt_bind_ok (lift _) _ s m s) by done.
    rewrite (stt_bind_ok get_state _ s s s) by done. cbv zeta. rewrite (stt_bind_ok _ _ _ _ _ Hstep).
    cbn. rewrite Hd. unfold mbind, stt_bind, get_state, push_entry, modify. cbn.
    replace (zlen (map (λ m, hex_encode (msg_digest m)) pending ++ [hex_encode (msg_digest m)]))
      with (zlen (pending ++ [m])) by (unfold zlen; rewrite !length_app, length_map; done).
    by destruct (INDEX_BATCH_SIZE <=? zlen (pending ++ [m])).
  - assert (c_end_offset s +u msg_size m = total (map msg_size (don ++ pending)) + msg_size m) as Hadd
      by (rewrite Hn; by apply u64_add_small).
    unfold consumed. cbn [c_transport c_entries c_digest_list c_offset_list c_end_offset].
    rewrite Hadd, (app_assoc don). set (all := don ++ pending) in *. repeat split.
    + by rewrite Ht', Hc, app_assoc.
    + rewrite He, !(map_app _ all), ends_app, zip_with_app by (rewrite length_ends, !length_map; done).
      by rewrite Z.add_0_l.
    + by rewrite Hd, map_app.
    + rewrite Ho, map_app, starts_app, Hn. unfold all. by rewrite map_app, total_app.
    + rewrite map_app, total_app. cbn. lia.
Qed.

(** Fewer messages than a batch are uploaded and left pending. *)
Lemma consume_some t0 ms : ∀ log don pending s,
  consumed t0 log don pending s → Forall msg_ok ms →
  zlen (pending ++ ms) < INDEX_BATCH_SIZE → 0 <= total (map msg_size (don ++ pending)) →
  total (map msg_size (don ++ pending ++ ms)) < 2 ^ 64 →
  ∃ s', foreach (consume hex_encode wid) (map Ok ms) s = (Ok tt, s') ∧
        consumed t0 (log ++ concat (map (upload_call wid) ms)) don (pending ++ ms) s'.
Proof.
  induction ms as [| m ms IH]; intros log don pending s Hs Hok Hlen Hnn Hmax.
  - exists s. cbn. rewrite !app_nil_r. done.
  - inversion Hok as [| ? ? Hm Hms]; subst. unfold msg_ok in Hm.
    pose proof (total_nonneg (map msg_size ms) ltac:(by apply Forall_map)) as Hnn2.
    rewrite map_app, total_app in Hnn. rewrite !map_app, !total_app in Hmax. cbn in Hmax. fold (total (map msg_size ms)) in Hmax.
    destruct (consume_entry t0 log don pending m s Hs Hm) as (s1 & Hc & Hs1).
    { rewrite map_app, total_app. unfold in_u64. lia. }
    pose proof (zlen_nonneg ms).
    rewrite (proj2 (Z.leb_gt _ _)) in Hc by (rewrite zlen_app, zlen_cons in *; rewrite (@zlen_nil ChunkMessage); lia).
    destruct (IH _ _ _ _ Hs1) as (s2 & Hf & Hs2); [done | | | |].
    + rewrite <- app_assoc. exact Hlen.
    + rewrite !map_app, !total_app. cbn. lia.
    + rewrite !map_app, !total_app. cbn. lia.
    + exists s2. cbn [map foreach]. rewrite (stt_bind_ok _ _ _ _ _ Hc). split; [exact Hf |].
      rewrite <- !app_assoc in Hs2. exact Hs2.
Qed.

(** Messages in any number are uploaded and registered batch by batch. *)
Lemma consume_all t0 fuel : ∀ ms log don s,
  (length ms < fuel)%nat → consumed t0 log don [] s → Forall msg_ok ms →
  0 <= total (map msg_size don) → total (map msg_size (don ++ ms)) < 2 ^ 64 →
  ∃ s', consumer hex_encode wid (map Ok ms) s = (Ok tt, s') ∧
        consumed t0 (log ++ batches_log wid (total (map msg_size don)) (batches fuel ms)) (don ++ ms) [] s'.
Proof.
  induction fuel as [| fuel IH]; intros ms log don s Hf Hs Hok Hnn Hmax; [lia |].
  destruct (Z.ltb_spec (zlen ms) INDEX_BATCH_SIZE) as [Hlt | Hge].
  - destruct (consume_some t0 ms log don [] s Hs Hok) as (s1 & Hc & Hs1);
      [done | by rewrite app_nil_r | done |]. cbn [app] in Hs1.
    unfold consumer. rewrite (stt_bind_ok _ _ _ _ _ Hc).
    rewrite (stt_bind_ok get_state _ s1 s1 s1) by done.
    pose proof Hs1 as Hs1'. destruct Hs1 as (_ & _ & Hd & _). rewrite Hd.
    destruct ms as [| m ms].
    + exists s1. split; [done |]. cbn in *. by rewrite !app_nil_r in *.
    + rewrite bool_decide_eq_false_2 by done.
      destruct (register_chunks_ok _ _ _ _ _ Hs1') as (s2 & Hr & Hs2). exists s2. split; [done |].
      rewrite batches_cons, ztake_ge, zdrop_ge by (done || lia).
      destruct fuel; [cbn in Hf; lia |]. cbn [batches batches_log].
      rewrite app_nil_r. rewrite <- app_assoc in Hs2. exact Hs2.
  - assert (∃ b m rest, ms = b ++ m :: rest ∧ zlen b = INDEX_BATCH_SIZE - 1) as (b & m & rest & -> & Hb).
    { exists (ztake (INDEX_BATCH_SIZE - 1) ms).
      pose proof (ztake_zdrop (INDEX_BATCH_SIZE - 1) ms) as Hsp.
      destruct (zdrop (INDEX_BATCH_SIZE - 1) ms) as [| m rest] eqn:Hdr.
      - exfalso. pose proof (zlen_zdrop (INDEX_BATCH_SIZE - 1) ms) as Hz. rewrite Hdr in Hz.
        unfold INDEX_BATCH_SIZE in *. rewrite (@zlen_nil ChunkMessage) in Hz. lia.
      - exists m, rest. split; [done |]. rewrite zlen_ztake. unfold INDEX_BATCH_SIZE in *. lia. }
    apply Forall_app in Hok as [Hokb Hokm]. inversion Hokm as [| ? ? Hm Hrest]; subst. unfold msg_ok in Hm.
    pose proof (total_nonneg (map msg_size b) ltac:(by apply Forall_map)) as Hnb.
    pose proof (total_nonneg (map msg_size rest) ltac:(by apply Forall_map)) as Hnr.
    rewrite !map_app, !total_app in Hmax. cbn in Hmax. fold (total (map msg_size rest)) in Hmax.
    destruct (consume_some t0 b log don [] s Hs Hokb) as (s1 & Hc & Hs1);
      [cbn; unfold INDEX_BATCH_SIZE in *; lia | by rewrite app_nil_r |
       cbn; rewrite map_app, total_app; lia |]. cbn [app] in Hs1.
    destruct (consume_entry t0 _ don b m s1 Hs1 Hm) as (s2 & Hc2 & Hs2).
    { rewrite map_app, total_app. unfold in_u64. lia. }
    rewrite (proj2 (Z.leb_le _ _)) in Hc2
      by (rewrite zlen_app, zlen_cons, (@zlen_nil ChunkMessage); lia).
    destruct (register_chunks_ok _ _ _ _ _ Hs2) as (s3 & Hr & Hs3). rewrite Hr in Hc2.
    destruct (IH rest _ _ _ ltac:(rewrite length_app in Hf; cbn in Hf; lia) Hs3 Hrest) as (s4 & Hcr & Hs4).
    + rewrite !map_app, !total_app. cbn. lia.
    + rewrite !map_app, !total_app. cbn. fold (total (map msg_size rest)). lia.
    + exists s4. split.
      * unfold consumer in Hcr |- *. rewrite map_app. cbn [map].
        unfold mbind at 1, stt_bind at 1. rewrite foreach_app. unfold mbind at 1, stt_bind at 1.
        rewrite Hc. cbn [foreach]. unfold mbind at 1, stt_bind at 1. rewrite Hc2. exact Hcr.
      * rewrite batches_cons by (by destruct b).
        change (b ++ m :: rest) with (b ++ [m] ++ rest). rewrite (app_assoc b).
        assert (zlen (b ++ [m]) = INDEX_BATCH_SIZE) as Hbm
          by (rewrite zlen_app, zlen_cons, (@zlen_nil ChunkMessage); lia).
        rewrite <- Hbm at 1 2. rewrite ztake_app, zdrop_app. cbn [batches_log].
        rewrite !(map_app _ don), total_app in Hs4.
        rewrite (map_app (upload_call wid) b [m]), concat_app. cbn [map concat].
        rewrite app_nil_r, <- !app_assoc. rewrite <- !app_assoc in Hs4.
        exact Hs4.
Qed.
End upload_spec.

Section upload_lemmas.
Context (hex_encode : bytes → string).
Context (sha256 : bytes → bytes) (crc32 : bytes → Z) (zstd_compress : bytes → Z → option bytes).
Abbreviation messages := (messages sha256 crc32 zstd_compress).
Abbreviation upload_archive_named := (upload_archive_named hex_encode sha256 crc32 zstd_compress).

Lemma messages_ok known chunks : Forall msg_ok (messages known chunks).
Proof using Type.
  apply (Forall_map msg_size (λ n, 0 <= n)). rewrite messages_sizes. apply Forall_map, Forall_true. intros x. apply zlen_nonneg.
Qed.

Lemma index_csum_eq entries : index_csum sha256 entries = sha256 (concat (map index_entry entries)).
Proof.
  unfold index_csum. f_equal. change (concat (map index_entry entries)) with ([] ++ concat (map index_entry entries)).
  generalize ([] : bytes). induction entries as [| [o d] es IH]; intros acc; cbn; [by rewrite app_nil_r |].
  rewrite IH. unfold index_entry. cbn. by rewrite <- !app_assoc.
Qed.

(** The uploaded digests of a list of messages. *)
Definition uploaded (ms : list ChunkMessage) : list bytes :=
  omap (λ m, match m with New b => Some (blob_digest b) | Known _ _ => None end) ms.

Lemma uploaded_fresh known chunks :
  NoDup (uploaded (messages known chunks)) ∧
  (∀ d, d ∈ uploaded (messages known chunks) → d ∉ known) ∧
  (∀ c, c ∈ chunks → sha256 c ∈ known ∨ sha256 c ∈ uploaded (messages known chunks)).
Proof using Type.
  revert known. induction chunks as [| c cs IH]; intros known; cbn.
  - split; [constructor |]. split; intros ? ?%not_elem_of_nil; done.
  - case_decide as Hin; cbn.
    + destruct (IH known) as (H1 & H2 & H3). split; [done |]. split; [done |].
      intros x [-> | Hx]%elem_of_cons; [by left | by apply H3].
    + destruct (IH ({[sha256 c]} ∪ known)) as (H1 & H2 & H3). rewrite blob_digest_encode.
      split; [| split].
      * constructor; [| done]. intros Hd%H2. apply Hd, elem_of_union_l, elem_of_singleton. done.
      * intros d [-> | Hd%H2]%elem_of_cons; [done |].
        intros Hk. apply Hd, elem_of_union_r, Hk.
      * intros x [-> | Hx]%elem_of_cons; [right; by left |].
        destruct (H3 x Hx) as [[->%elem_of_singleton | ?]%elem_of_union | ?];
          [right; by left | by left | right; by right].
Qed.

(** What was uploaded under a digest is the encoding of a chunk with it. *)
Lemma uploaded_blob known chunks b :
  New b ∈ messages known chunks →
  ∃ c, c ∈ chunks ∧ b = encode_blob_with_digest crc32 zstd_compress c (sha256 c).
Proof using Type.
  revert known. induction chunks as [| c cs IH]; intros known; cbn; [by intros ?%not_elem_of_nil |].
  case_decide; intros [Heq | Hin]%elem_of_cons; simplify_eq.
  - apply IH in Hin as (x & ? & ->). exists x. split; [by right | done].
  - exists c. split; [by left | done].
  - apply IH in Hin as (x & ? & ->). exists x. split; [by right | done].
Qed.

Lemma uploaded_elem ms d :
  d ∈ uploaded ms ↔ ∃ b, New b ∈ ms ∧ blob_digest b = d.
Proof using Type.
  unfold uploaded. rewrite list_elem_of_omap. split.
  - intros ([? ? | b] & Hin & Heq); simplify_eq. eauto.
  - intros (b & Hin & <-). exists (New b). done.
Qed.

Context {T : Type} {HT : H2Transport T} {HL : TransportLog T} (wid : Z).
Context {HR : @ReliableTransport T HT HL wid}.

(** Consuming messages never posts anything. *)
Definition no_post (l : list Call) : Prop := ∀ p ps, Post p ps ∉ l.

Lemma no_post_app l1 l2 : no_post l1 → no_post l2 → no_post (l1 ++ l2).
Proof. intros H1 H2 p ps [? | ?]%elem_of_app; [by eapply H1 | by eapply H2]. Qed.

Lemma consume_no_post m s :
  ∃ s' l, consume hex_encode wid (Ok m) s = (Ok tt, s') ∧
          calls (c_transport s') = calls (c_transport s) ++ l ∧ no_post l.
Proof.
  assert (∀ s, ∃ s' l, register_chunks wid s = (Ok tt, s') ∧
            calls (c_transport s') = calls (c_transport s) ++ l ∧ no_post l) as Hreg.
  { intros s0. unfold register_chunks. rewrite (stt_bind_ok get_state _ s0 s0 s0) by done.
    destruct (send_json_total (wid := wid) "PUT" "dynamic_index" []
      (JObject [("wid", JNumber wid);
                ("digest-list", JArray (map JString (c_digest_list s0)));
                ("offset-list", JArray (map JNumber (c_offset_list s0)))]) (c_transport s0)) as (t' & Hs).
    unfold with_transport, zoom, mbind, stt_bind, modify. rewrite Hs.
    eexists _, _. split; [done |]. split; [by apply send_json_log in Hs |].
    intros p ps Hin%list_elem_of_singleton. done. }
  unfold consume. rewrite (stt_bind_ok (lift _) _ s m s) by done.
  rewrite (stt_bind_ok get_state _ s s s) by done. cbv zeta.
  destruct m as [d n | b].
  - unfold mbind, stt_bind, advance, push_entry, get_state, modify. cbn.
    destruct (INDEX_BATCH_SIZE <=? _).
    + edestruct Hreg as (s' & l & -> & Hc & Hl). exists s', l. done.
    + eexists _, []. split; [done |]. split; [by rewrite app_nil_r | by intros ? ? ?%not_elem_of_nil].
  - destruct (upload_total (wid := wid) "POST" "dynamic_chunk"
      [("wid", pretty wid); ("digest", hex_encode (blob_digest b));
       ("size", pretty (plaintext_size b)); ("encoded-size", pretty (zlen (blob_data b)))]
      "application/octet-stream" (blob_data b) (c_transport s)) as (t' & Hu).
    unfold mbind, stt_bind, advance, push_entry, get_state, modify, with_transport, zoom.
    cbn [c_transport]. rewrite Hu. apply upload_log in Hu.
    cbn.
    destruct (INDEX_BATCH_SIZE <=? _).
    + edestruct Hreg as (s' & l & -> & Hc & Hl). eexists s', (_ :: l). split; [done |].
      cbn [c_transport] in Hc. split; [rewrite Hc, Hu, <- app_assoc; done |].
      intros p ps [? | ?]%elem_of_cons; [done | by eapply Hl].
    + eexists _, [_]. split; [done |]. split; [exact Hu |].
      intros p ps Hin%list_elem_of_singleton. done.
Qed.

Lemma consume_list_no_post ms : ∀ s,
  ∃ s' l, foreach (consume hex_encode wid) (map Ok ms) s = (Ok tt, s') ∧
          calls (c_transport s') = calls (c_transport s) ++ l ∧ no_post l.
Proof.
  induction ms as [| m ms IH]; intros s.
  - exists s, []. split; [done |]. split; [by rewrite app_nil_r | by intros ? ? ?%not_elem_of_nil].
  - destruct (consume_no_post m s) as (s1 & l1 & Hc & Hl1 & Hn1).
    destruct (IH s1) as (s2 & l2 & Hf & Hl2 & Hn2). exists s2, (l1 ++ l2).
    cbn [map foreach]. rewrite (stt_bind_ok _ _ _ _ _ Hc). split; [done |].
    split; [by rewrite Hl2, Hl1, app_assoc | by apply no_post_app].
Qed.

Lemma producer_error known chunks err rest :
  producer sha256 crc32 zstd_compress known (map Ok chunks ++ Err err :: rest) =
    map Ok (messages known chunks) ++ [Err err].
Proof.
  revert known. induction chunks as [| c cs IH]; intros known; [done |]. cbn.
  case_decide; cbn; by rewrite IH.
Qed.

Lemma upload_archive_ok archive_name chunks known t :
  in_u64 wid → total (map zlen chunks) < 2 ^ 64 →
  ∃ t', upload_archive_named archive_name (map Ok chunks) known t =
          (Ok (mk_UploadedArchive
                 (FileInfo_new hex_encode archive_name (total (map zlen chunks))
                    (sha256 (concat (map index_entry (index_of sha256 chunks)))))
                 (total (map zlen chunks))), t') ∧
        calls t' = calls t ++ [Post "dynamic_index" [("archive-name", archive_name)]] ++
          batches_log hex_encode wid 0 (batches (S (length chunks)) (messages known chunks)) ++
          [Post "dynamic_close"
             [("wid", pretty wid); ("chunk-count", pretty (zlen chunks));
              ("size", pretty (total (map zlen chunks)));
              ("csum", hex_encode (sha256 (concat (map index_entry (index_of sha256 chunks)))))]].
Proof.
  intros Hw Hmax. unfold ArchiveWriter.upload_archive_named.
  destruct (post_total (wid := wid) "dynamic_index" [("archive-name", archive_name)] t) as (t1 & Hp).
  rewrite (stt_bind_ok _ _ _ _ _ Hp). apply post_log in Hp.
  assert (as_u64 (JNumber wid) = Some wid) as Hu.
  { unfold as_u64. unfold in_u64 in Hw. destruct (Z.leb_spec 0 wid), (Z.ltb_spec wid (2 ^ 64)); done || lia. }
  rewrite (stt_bind_ok (lift _) _ t1 wid t1) by (unfold lift; by rewrite Hu).
  rewrite producer_ok.
  assert (length (messages known chunks) = length chunks) as Hlen.
  { rewrite <- (length_map msg_digest), messages_digests, length_map. done. }
  destruct (consume_all hex_encode wid t1 (S (length chunks)) (messages known chunks) [] []
              (mk_Consumer t1 [] [] [] 0)) as (c & Hc & Hcons & He & _ & _ & Hend).
  { rewrite Hlen. lia. }
  { unfold consumed. cbn. rewrite app_nil_r. done. }
  { apply messages_ok. }
  { done. }
  { cbn [app]. by rewrite messages_sizes. }
  cbn [app total foldr map] in Hcons, He, Hend. rewrite app_nil_r in He, Hend.
  rewrite messages_sizes in He, Hend. rewrite messages_digests in He.
  fold (index_of sha256 chunks) in He.
  rewrite (stt_bind_ok _ _ t1 c (c_transport c)) by (by rewrite Hc). cbv zeta.
  rewrite index_csum_eq, He, Hend.
  assert (zlen (index_of sha256 chunks) = zlen chunks) as Hli.
  { unfold index_of, zlen. rewrite length_zip_with, length_ends, !length_map. lia. }
  rewrite Hli.
  set (ps := [("wid", _); _; _; _]).
  destruct (post_total (wid := wid) "dynamic_close" ps (c_transport c)) as (t2 & Hp2).
  rewrite (stt_bind_ok _ _ _ _ _ Hp2). apply post_log in Hp2. exists t2. split; [done |].
  rewrite Hp2, Hcons, Hp, <- !app_assoc. done.
Qed.
End upload_lemmas.
(** ** Lemmas: reassembly *)

Section reassembly.
Context (hex_encode : bytes → string).
Context (crc32 : bytes → Z) (zstd_decompress : bytes → Z → result string bytes).
Context {T : Type} {HT : H2Transport T} {W : Type} `{WriteTotal W}.
(** The server answers with [file name] and [chunk digest]. *)
Context (file : string → bytes) (chunk : bytes → bytes).
Context (serves_file : ∀ name t, ∃ t', download "download" [("file-name", name)] t = (Ok (file name), t')).
Context (serves_chunk : ∀ d t, ∃ t', download "chunk" [("digest", hex_encode d)] t = (Ok (chunk d), t')).

Definition fetch_and_write (digest : bytes) : stt (Reassembly T W) PbsError unit :=
  plaintext ← on_transport (download_chunk_plaintext hex_encode crc32 zstd_decompress digest);
  _ ← add_progress (zlen plaintext);
  write_plaintext plaintext.

Lemma fetch_and_write_ok d p s :
  decode_blob crc32 zstd_decompress (chunk d) = Ok p →
  ∃ s', fetch_and_write d s = (Ok tt, s') ∧
        written (ra_writer s') = written (ra_writer s) ++ p ∧
        ra_progress s' = (λ n, n +u zlen p) <$> ra_progress s.
Proof using All.
  intros Hd. unfold fetch_and_write, on_transport, zoom, download_chunk_plaintext, lift, add_progress,
    write_plaintext, modify, mbind, stt_bind.
  destruct (serves_chunk d (ra_transport s)) as (t' & ->). rewrite Hd. cbn.
  destruct (write_all_total p (ra_writer s)) as (w' & Hw). rewrite Hw. eexists. split; [done |].
  cbn. split; [by apply write_all_law in Hw | done].
Qed.

Lemma fetch_and_write_list ds ps :
  Forall2 (λ d p, decode_blob crc32 zstd_decompress (chunk d) = Ok p) ds ps → ∀ s,
  ∃ s', foreach fetch_and_write ds s = (Ok tt, s') ∧
        written (ra_writer s') = written (ra_writer s) ++ concat ps ∧
        ra_progress s' = (λ n, fold_left (λ n p, n +u zlen p) ps n) <$> ra_progress s.
Proof using All.
  induction 1 as [| d p ds ps Hd _ IH]; intros s.
  - exists s. cbn. rewrite app_nil_r. split; [done |]. split; [done | by destruct (ra_progress s)].
  - destruct (fetch_and_write_ok d p s Hd) as (s1 & Hf & Hw & Hp).
    destruct (IH s1) as (s2 & Hf2 & Hw2 & Hp2). exists s2. cbn [foreach].
    rewrite (stt_bind_ok _ _ _ _ _ Hf). split; [done |]. split.
    + cbn. by rewrite Hw2, Hw, app_assoc.
    + rewrite Hp2, Hp. by destruct (ra_progress s).
Qed.

Lemma reassemble_ok entries header ps s :
  file ARCHIVE_NAME = index_file header entries → zlen header = DYNAMIC_INDEX_HEADER_SIZE →
  Forall index_entry_ok entries →
  Forall2 (λ d p, decode_blob crc32 zstd_decompress (chunk d) = Ok p) (map snd entries) ps →
  ∃ s', reassemble_archive_inner hex_encode crc32 zstd_decompress s = (Ok tt, s') ∧
        written (ra_writer s') = written (ra_writer s) ++ concat ps ∧
        ra_progress s' = (λ n, fold_left (λ n p, n +u zlen p) ps n) <$> ra_progress s.
Proof using All.
  intros Hfile Hh Hes Hps. unfold reassemble_archive_inner.
  destruct (serves_file ARCHIVE_NAME (ra_transport s)) as (t' & Hd).
  assert (archive_chunk_digests (ra_transport s) = (Ok (map snd entries), t')) as Ha.
  { unfold archive_chunk_digests, download_file. rewrite (stt_bind_ok _ _ _ _ _ Hd).
    unfold lift, parse_dynamic_index. by rewrite Hfile, parse_index_file. }
  rewrite (stt_bind_ok (on_transport _) _ s _ _ (zoom_ok _ _ _ _ _ _ Ha)).
  destruct (fetch_and_write_list (map snd entries) ps Hps
              (mk_Reassembly t' (ra_writer s) (ra_progress s))) as (s' & Hf & Hw & Hp).
  exists s'. split; [exact Hf |]. done.
Qed.
End reassembly.

(** ** Properties *)

Section properties.
Context (hex_encode : bytes → string).
Context (sha256 : bytes → bytes) (crc32 : bytes → Z).
Context (zstd_compress : bytes → Z → option bytes) (zstd_decompress : bytes → Z → result string bytes).
(** What the crates document, and SHA-256 digests have 32 bytes. *)
Context (crc32_u32 : ∀ d, in_u32 (crc32 d)).
Context (zstd_inverse : ∀ d c,
  zstd_compress d 1 = Some c → zlen d <= MAX_DECODED_BLOB → zstd_decompress c MAX_DECODED_BLOB = Ok d).
Context (sha256_len : ∀ d, zlen (sha256 d) = 32).

Lemma index_of_ok chunks : total (map zlen chunks) < 2 ^ 64 → Forall index_entry_ok (index_of sha256 chunks).
Proof using sha256_len.
  unfold index_of. change (total (map zlen chunks)) with (0 + total (map zlen chunks)).
  assert (0 <= 0) as H0 by lia. revert H0. generalize 0 at 2 3 4 as start.
  induction chunks as [| c cs IH]; intros start H0 Hmax; [constructor |].
  cbn in *. fold (total (map zlen cs)) in Hmax. pose proof (zlen_nonneg c).
  pose proof (total_nonneg (map zlen cs) ltac:(apply Forall_map, Forall_true, zlen_nonneg)).
  constructor; [| apply IH; lia].
  split; [cbn; unfold in_u64; lia | apply sha256_len].
Qed.

Lemma map_snd_index_of chunks : map snd (index_of sha256 chunks) = map sha256 chunks.
Proof using Type.
  unfold index_of. apply (list.snd_zip (ends 0 (map zlen chunks))).
  rewrite length_ends, !length_map. lia.
Qed.

Lemma concat_batches fuel ms : (length ms <= fuel)%nat → concat (batches fuel ms) = ms.
Proof using Type.
  revert ms. induction fuel as [| fuel IH]; intros ms Hf; [by destruct ms; cbn in Hf; [| lia] |].
  destruct ms as [| m ms]; [done |]. rewrite batches_cons by done. cbn [concat].
  rewrite IH; [apply ztake_zdrop |]. unfold zdrop. rewrite length_drop. unfold INDEX_BATCH_SIZE.
  cbn [length] in *. lia.
Qed.

Lemma elem_of_batches_log wid start bs m c :
  m ∈ concat bs → c ∈ upload_call hex_encode wid m → c ∈ batches_log hex_encode wid start bs.
Proof using Type.
  intros Hm Hc. revert start. induction bs as [| b bs IH]; intros start; [by apply not_elem_of_nil in Hm |].
  cbn in Hm |- *. apply elem_of_app in Hm as [Hm | Hm].
  - apply elem_of_app. left. apply list_elem_of_In, in_concat.
    exists (upload_call hex_encode wid m). split; [by apply in_map, list_elem_of_In | by apply list_elem_of_In].
  - apply elem_of_app. right. right. by apply IH.
Qed.

(** The server keeps every uploaded chunk under its digest. *)
Definition stores_uploads (wid : Z) (log : list Call) (store : bytes → bytes) : Prop :=
  ∀ b, (∀ c, c ∈ upload_call hex_encode wid (New b) → c ∈ log) → store (blob_digest b) = blob_data b.

(** An upload over a transport that answers makes exactly the calls of the
    protocol: it opens the index, uploads each new chunk before the batch of
    at most 256 that registers it, registers every chunk once, in order, with
    the offset it starts at, and closes the index with the chunk count, the
    stream's size and the checksum of the index entries; and it reports that
    size and checksum. *)
Theorem upload_archive_calls {T} {HT : H2Transport T} {HL : TransportLog T} (wid : Z)
    {HR : @ReliableTransport T HT HL wid} archive_name chunks known t
    (Hwid : in_u64 wid) (Hsize : total (map zlen chunks) < 2 ^ 64) :
  ∃ t', upload_archive_named hex_encode sha256 crc32 zstd_compress archive_name (map Ok chunks) known t =
          (Ok (mk_UploadedArchive
                 (FileInfo_new hex_encode archive_name (total (map zlen chunks))
                    (sha256 (concat (map index_entry (index_of sha256 chunks)))))
                 (total (map zlen chunks))), t') ∧
        calls t' = calls t ++ [Post "dynamic_index" [("archive-name", archive_name)]] ++
          batches_log hex_encode wid 0
            (batches (S (length chunks)) (messages sha256 crc32 zstd_compress known chunks)) ++
          [Post "dynamic_close"
             [("wid", pretty wid); ("chunk-count", pretty (zlen chunks));
              ("size", pretty (total (map zlen chunks)));
              ("csum", hex_encode (sha256 (concat (map index_entry (index_of sha256 chunks)))))]].
Proof using Type. by apply upload_archive_ok. Qed.

(** The producer uploads each chunk at most once and only when the server
    does not have it: the uploaded digests are pairwise distinct and unknown,
    and every chunk of the stream is either known or uploaded. *)
Theorem producer_deduplicates known chunks :
  let ms := omap (λ m, match m with Ok m => Some m | Err _ => None end)
              (producer sha256 crc32 zstd_compress known (map Ok chunks)) in
  NoDup (uploaded ms) ∧ (∀ d, d ∈ uploaded ms → d ∉ known) ∧
  map msg_digest ms = map sha256 chunks ∧
  (∀ c, c ∈ chunks → sha256 c ∈ known ∨ sha256 c ∈ uploaded ms).
Proof using Type.
  rewrite producer_ok.
  assert (omap (λ m : result string ChunkMessage, match m with Ok m => Some m | Err _ => None end)
            (map Ok (messages sha256 crc32 zstd_compress known chunks)) =
          messages sha256 crc32 zstd_compress known chunks) as ->.
  { induction (messages sha256 crc32 zstd_compress known chunks) as [| m ms IH]; cbn; by rewrite ?IH. }
  destruct (uploaded_fresh sha256 crc32 zstd_compress known chunks) as (H1 & H2 & H3).
  split; [done |]. split; [done |]. split; [apply messages_digests | done].
Qed.

(** A stream that fails to read never becomes a closed index: the upload
    returns the read error and never posts [dynamic_close], whatever was
    uploaded before. *)
Theorem upload_read_error {T} {HT : H2Transport T} {HL : TransportLog T} (wid : Z)
    {HR : @ReliableTransport T HT HL wid} archive_name chunks err rest known t (Hwid : in_u64 wid) :
  ∃ t' log, upload_archive_named hex_encode sha256 crc32 zstd_compress archive_name
              (map Ok chunks ++ Err err :: rest) known t = (Err (Transport err), t') ∧
        calls t' = calls t ++ log ∧ ∀ ps, Post "dynamic_close" ps ∉ log.
Proof using Type.
  unfold upload_archive_named.
  destruct (post_total (wid := wid) "dynamic_index" [("archive-name", archive_name)] t) as (t1 & Hp).
  rewrite (stt_bind_ok _ _ _ _ _ Hp). apply post_log in Hp.
  rewrite (stt_bind_ok (lift _) _ t1 wid t1).
  2: { unfold lift, as_u64. unfold in_u64 in Hwid.
       destruct (Z.leb_spec 0 wid), (Z.ltb_spec wid (2 ^ 64)); done || lia. }
  rewrite producer_error.
  destruct (consume_list_no_post hex_encode wid (messages sha256 crc32 zstd_compress known chunks)
              (mk_Consumer t1 [] [] [] 0)) as (c & l & Hf & Hl & Hn). cbn in Hl.
  assert (consumer hex_encode wid (map Ok (messages sha256 crc32 zstd_compress known chunks) ++ [Err err])
            (mk_Consumer t1 [] [] [] 0) = (Err (Transport err), c)) as Hc.
  { unfold consumer. apply stt_bind_err. rewrite foreach_app. rewrite (stt_bind_ok _ _ _ _ _ Hf). done. }
  exists (c_transport c), ([Post "dynamic_index" [("archive-name", archive_name)]] ++ l).
  split; [| split].
  - unfold mbind, stt_bind. by rewrite Hc.
  - by rewrite Hl, Hp, <- app_assoc.
  - intros ps [H | H]%elem_of_app; [by apply list_elem_of_singleton in H | by eapply Hn].
Qed.

(** C16. Backup and restore: after an upload, a reader served by a server that
    keeps the uploaded chunks (and already held decodable blobs for the known
    ones), with the index of those chunks, reassembles exactly the uploaded
    stream, and its progress counter has advanced by every byte. *)
Theorem backup_restore {T} {HT : H2Transport T} {HL : TransportLog T} (wid : Z)
    {HR : @ReliableTransport T HT HL wid} {T2} {HT2 : H2Transport T2} {W} `{WriteTotal W}
    chunks known header t (file : string → bytes) (store : bytes → bytes)
    (Hwid : in_u64 wid) (Hsize : total (map zlen chunks) < 2 ^ 64)
    (Hmax : Forall (λ c, zlen c <= MAX_DECODED_BLOB) chunks)
    (Hinj : ∀ x y, x ∈ chunks → y ∈ chunks → sha256 x = sha256 y → x = y)
    (Hknown : ∀ c, c ∈ chunks → sha256 c ∈ known → decode_blob crc32 zstd_decompress (store (sha256 c)) = Ok c)
    (Hheader : zlen header = DYNAMIC_INDEX_HEADER_SIZE)
    (Hfile : file ARCHIVE_NAME = index_file header (index_of sha256 chunks))
    (serves_file : ∀ name r, ∃ r', download (T := T2) "download" [("file-name", name)] r = (Ok (file name), r'))
    (serves_chunk : ∀ d r, ∃ r', download (T := T2) "chunk" [("digest", hex_encode d)] r = (Ok (store d), r')) :
  ∃ t' archive,
    upload_archive_named hex_encode sha256 crc32 zstd_compress ARCHIVE_NAME (map Ok chunks) known t =
      (Ok archive, t') ∧
    (stores_uploads wid (calls t') store →
     ∀ r w, ∃ s', reassemble_archive_inner hex_encode crc32 zstd_decompress
                    (mk_Reassembly (T := T2) (W := W) r w (Some 0)) = (Ok tt, s') ∧
       written (ra_writer s') = written w ++ concat chunks ∧
       ra_progress s' = Some (ua_size archive)).
Proof using crc32_u32 zstd_inverse sha256_len.
  destruct (upload_archive_ok hex_encode sha256 crc32 zstd_compress wid ARCHIVE_NAME chunks known t Hwid Hsize)
    as (t' & Hup & Hcalls).
  eexists t', _. split; [exact Hup |]. intros Hst r w.
  assert (∀ c, c ∈ chunks → decode_blob crc32 zstd_decompress (store (sha256 c)) = Ok c) as Hdec.
  { intros c Hc. destruct (uploaded_fresh sha256 crc32 zstd_compress known chunks) as (_ & _ & H3).
    destruct (H3 c Hc) as [Hk | (b & Hb & Hbd)%uploaded_elem]; [by apply Hknown |].
    destruct (uploaded_blob sha256 crc32 zstd_compress known chunks b Hb) as (c' & Hc' & Hbe).
    assert (sha256 c' = sha256 c) as Heq by (rewrite <- Hbd, Hbe; by rewrite blob_digest_encode).
    apply Hinj in Heq as ->; [| done..]. rewrite <- Hbd, Hst, Hbe.
    - apply decode_encode_blob_with_digest; [done.. |]. rewrite Forall_forall in Hmax.
      apply Hmax. by apply list_elem_of_In.
    - intros call Hcall. rewrite Hcalls. do 2 (apply elem_of_app; right). apply elem_of_app; left.
      eapply elem_of_batches_log; [| exact Hcall]. rewrite concat_batches; [done |].
      rewrite <- (length_map msg_digest), messages_digests, length_map. lia. }
  destruct (reassemble_ok hex_encode crc32 zstd_decompress file store serves_file serves_chunk
              (index_of sha256 chunks) header chunks (mk_Reassembly r w (Some 0)))
    as (s' & Hr & Hw & Hp); [done | done | by apply index_of_ok | |].
  - rewrite map_snd_index_of. clear -Hdec. induction chunks as [| c cs IH]; constructor.
    + apply Hdec. by left.
    + apply IH. intros x Hx. apply Hdec. by right.
  - exists s'. split; [exact Hr |]. split; [exact Hw |]. rewrite Hp. cbn. f_equal.
    clear -Hsize. assert (∀ n, 0 <= n → n + total (map zlen chunks) < 2 ^ 64 →
      fold_left (λ n p, n +u zlen p) chunks n = n + total (map zlen chunks)) as Hfold.
    { induction chunks as [| c cs IH]; intros n Hn Hlt; cbn in *; [lia |].
      fold (total (map zlen cs)) in *. pose proof (zlen_nonneg c).
      pose proof (total_nonneg (map zlen cs) ltac:(apply Forall_map, Forall_true, zlen_nonneg)).
      rewrite u64_add_small by (unfold in_u64; lia). rewrite IH by lia. lia. }
    rewrite Hfold by lia. lia.
Qed.
End properties.
(** ** Witnesses *)

Definition toy_sha (d : bytes) : bytes := to_le_bytes 32 (toy_sum d).
Definition toy_hex (d : bytes) : string := pretty (from_le_bytes d).

Lemma toy_sha_len d : zlen (toy_sha d) = 32.
Proof. apply zlen_to_le_bytes. Qed.

Definition sample_chunks : list bytes := [[1; 2]; [3; 4; 5]; [1; 2]].
Definition sample_answer (p v : string) : bytes :=
  if decide (p = "download")%string
  then index_file (replicate 4096 0) (index_of toy_sha sample_chunks)
  else if decide (v = toy_hex (toy_sha [1; 2]))
       then blob_data (encode_blob_with_digest toy_sum toy_compress [1; 2] (toy_sha [1; 2]))
       else blob_data (encode_blob_with_digest toy_sum toy_compress [3; 4; 5] (toy_sha [3; 4; 5])).

Lemma upload_archive_calls_witness :
  ∃ t', fst (upload_archive_named toy_hex toy_sha toy_sum toy_compress ARCHIVE_NAME
               (map Ok sample_chunks) {[toy_sha [3; 4; 5]]} (mk_MemServer [] (λ _ _, None))) =
          Ok (mk_UploadedArchive t' 7).
Proof.
  destruct (upload_archive_calls toy_hex toy_sha toy_sum toy_compress 1 ARCHIVE_NAME sample_chunks
    {[toy_sha [3; 4; 5]]} (mk_MemServer [] (λ _ _, None))) as (t' & H & _);
    [unfold in_u64; lia | vm_compute; done |].
  eexists. rewrite H. reflexivity.
Defined.

Lemma upload_read_error_witness :
  fst (upload_archive_named toy_hex toy_sha toy_sum toy_compress ARCHIVE_NAME
         (map Ok sample_chunks ++ [Err "disk gone"]) ∅ (mk_MemServer [] (λ _ _, None))) =
    Err (Transport "disk gone").
Proof.
  destruct (upload_read_error toy_hex toy_sha toy_sum toy_compress 1 ARCHIVE_NAME sample_chunks "disk gone"
    [] ∅ (mk_MemServer [] (λ _ _, None))) as (t' & l & H & _); [unfold in_u64; lia |].
  rewrite H. reflexivity.
Defined.

Lemma backup_restore_witness :
  ∃ s', @reassemble_archive_inner toy_hex toy_sum toy_decompress unit (fixed_transport sample_answer)
          bytes _ (mk_Reassembly tt [] (Some 0)) = (Ok tt, s') ∧ ra_writer s' = [1; 2; 3; 4; 5; 1; 2].
Proof.
  destruct (backup_restore toy_hex toy_sha toy_sum toy_compress toy_decompress toy_sum_u32 toy_inverse
    toy_sha_len 1 (HT2 := fixed_transport sample_answer) (W := bytes)
    sample_chunks ∅ (replicate 4096 0) (mk_MemServer [] (λ _ _, None))
    (sample_answer "download") (λ d, sample_answer "chunk" (toy_hex d))) as (t' & a & Hup & H).
  - unfold in_u64; lia.
  - vm_compute. done.
  - repeat constructor; vm_compute; done.
  - intros x y Hx Hy. unfold sample_chunks in *.
    repeat (apply elem_of_cons in Hx as [-> | Hx]); try (by apply not_elem_of_nil in Hx);
    repeat (apply elem_of_cons in Hy as [-> | Hy]); try (by apply not_elem_of_nil in Hy);
    vm_compute; done.
  - intros c _ Hc. by apply not_elem_of_empty in Hc.
  - reflexivity.
  - reflexivity.
  - intros name r. exists r. reflexivity.
  - intros d r. exists r. reflexivity.
  - vm_compute in Hup. injection Hup as _ <-.
    destruct H with tt ([] : bytes) as (s' & Hs & Hw & _); [| exists s'; split; [exact Hs | exact Hw]].
    intros [data digest size] Hb. specialize (Hb _ ltac:(by left)). cbn [blob_digest blob_data upload_call calls mem_transport_log ms_calls] in *.
    repeat (apply elem_of_cons in Hb as [Heq | Hb];
      [try discriminate Heq; injection Heq; intros; subst;
       match goal with Hh : toy_hex digest = _ |- _ => rewrite Hh end; vm_compute; reflexivity |]).
    by apply not_elem_of_nil in Hb.
Defined.
