(* ===== verification/ChunkReader.v ===== *)
(** * ChunkReader: random access to an archive in chunks (pbs-client/src/accessor.rs)

    A bounded least-recently-used cache of decoded chunks, the reader that
    maps an offset of the archive to a chunk of its index, and the stream over
    a file's contents.  Everything behind the [Arc] and the [Mutex] is one
    state, threaded through the operations. *)
From S2P Require Import Prelude IoModel Datablob Transport DynIndex.

Definition CHUNK_CACHE_CAPACITY : Z := 32.

(** ** The cache *)

Record ChunkCache : Type := mk_ChunkCache {
  cc_map : gmap Z bytes;
  cc_order : list Z;
  cc_capacity : Z;
}.

Definition ChunkCache_new (capacity : Z) : ChunkCache := mk_ChunkCache ∅ [] (Z.max capacity 1).

(** [position] and [remove]. *)
Definition remove_first (idx : Z) (order : list Z) : list Z :=
  match list_find (λ i, i = idx) order with
  | Some (pos, _) => delete pos order
  | None => order
  end.

Definition ChunkCache_get (idx : Z) (self : ChunkCache) : option bytes * ChunkCache :=
  match cc_map self !! idx with
  | None => (None, self)
  | Some value =>
      (Some value, mk_ChunkCache (cc_map self) (remove_first idx (cc_order self) ++ [idx]) (cc_capacity self))
  end.

(** The [while] loop pops one element per turn. *)
Fixpoint evict_loop (fuel : nat) (self : ChunkCache) : ChunkCache :=
  match fuel with
  | O => self
  | S fuel =>
      if cc_capacity self <=? zlen (cc_order self) then
        match cc_order self with
        | [] => self
        | evict :: order => evict_loop fuel (mk_ChunkCache (delete evict (cc_map self)) order (cc_capacity self))
        end
      else self
  end.

Definition ChunkCache_insert (idx : Z) (value : bytes) (self : ChunkCache) : ChunkCache :=
  if decide (is_Some (cc_map self !! idx)) then self else
  let self := evict_loop (S (length (cc_order self))) self in
  mk_ChunkCache (<[idx := value]> (cc_map self)) (cc_order self ++ [idx]) (cc_capacity self).

(** The cache's invariant: the order lists each cached chunk once, and there
    are at most [capacity] of them. *)
Record cache_ok (c : ChunkCache) : Prop := {
  cache_nodup : NoDup (cc_order c);
  cache_dom : ∀ i, i ∈ cc_order c ↔ is_Some (cc_map c !! i);
  cache_capacity_pos : 1 <= cc_capacity c;
  cache_bound : zlen (cc_order c) <= cc_capacity c;
}.

Lemma remove_first_spec idx order :
  NoDup order → NoDup (remove_first idx order) ∧
  (∀ i, i ∈ remove_first idx order ↔ i ∈ order ∧ i ≠ idx) ∧
  zlen (remove_first idx order) = zlen order - (if decide (idx ∈ order) then 1 else 0).
Proof.
  intros Hnd. unfold remove_first. destruct (list_find (λ i, i = idx) order) as [[pos x] |] eqn:Hf.
  - apply list_find_Some in Hf as (Hl & -> & _).
    apply list_elem_of_split_length in Hl as (l1 & l2 & -> & ->).
    rewrite delete_middle. apply list.NoDup_app in Hnd as (Hnd1 & Hd & Hnd2).
    apply list.NoDup_cons in Hnd2 as [Hx Hnd2].
    split; [| split].
    + apply list.NoDup_app. split; [done |]. split; [| done]. intros y Hy ?. apply (Hd y Hy). by right.
    + intros i. rewrite !elem_of_app, elem_of_cons. split.
      * intros [Hi | Hi]; (split; [auto |]); intros ->; [apply (Hd idx Hi); by left | done].
      * intros [[Hi | [-> | Hi]] Hne]; auto. done.
    + rewrite decide_True by (apply elem_of_app; right; by left). zlen_lia.
  - apply list_find_None in Hf. rewrite Forall_forall in Hf.
    assert (idx ∉ order) as Hni by (intros Hi; by apply (Hf idx); [apply list_elem_of_In |]).
    split; [done |]. split; [| rewrite decide_False by done; lia].
    intros i. split; [| by intros [? _]]. intros Hi. split; [done |]. by intros ->.
Qed.

Lemma cache_ok_new capacity : cache_ok (ChunkCache_new capacity).
Proof.
  split; cbn; [constructor | | lia | zlen_lia]. intros i. rewrite lookup_empty.
  split; [by intros ?%not_elem_of_nil | by intros [? ?]].
Qed.

Lemma cache_ok_get idx c : cache_ok c → cache_ok (snd (ChunkCache_get idx c)).
Proof.
  intros [Hnd Hdom Hpos Hb]. unfold ChunkCache_get. destruct (cc_map c !! idx) as [v |] eqn:Hm; [| done].
  destruct (remove_first_spec idx (cc_order c) Hnd) as (Hnd' & Hel & Hlen).
  assert (idx ∈ cc_order c) as Hin by (apply Hdom; eauto).
  split; cbn.
  - apply list.NoDup_app. split; [done |]. split; [| apply NoDup_singleton].
    intros x Hx ->%list_elem_of_singleton. by apply Hel in Hx as [_ ?].
  - intros i. rewrite elem_of_app, Hel, list_elem_of_singleton, <- Hdom.
    destruct (decide (i = idx)) as [-> |]; naive_solver.
  - done.
  - rewrite zlen_app, Hlen, decide_True by done. rewrite zlen_cons, (@zlen_nil Z). lia.
Qed.

(** Eviction takes chunks from the front of the order, the least recently
    used ones, until there is room for one more. *)
Lemma evict_loop_ok fuel c :
  cache_ok c → (length (cc_order c) < fuel)%nat →
  let c' := evict_loop fuel c in
  cache_ok c' ∧ zlen (cc_order c') < cc_capacity c' ∧ cc_capacity c' = cc_capacity c ∧
  (∃ gone, cc_order c = gone ++ cc_order c') ∧ cc_map c' ⊆ cc_map c.
Proof.
  revert c. induction fuel as [| fuel IH]; intros c Hok Hf; [lia |]. cbn [evict_loop].
  destruct (Z.leb_spec (cc_capacity c) (zlen (cc_order c))) as [Hge | Hlt].
  - destruct Hok as [Hnd Hdom Hpos Hb]. destruct (cc_order c) as [| x order] eqn:Ho.
    { rewrite (@zlen_nil Z) in Hge. lia. }
    apply list.NoDup_cons in Hnd as [Hx Hnd].
    destruct (IH (mk_ChunkCache (delete x (cc_map c)) order (cc_capacity c)))
      as (H1 & H2 & H3 & (gone & H4) & H5).
    + split; cbn; [done | | done | zlen_lia]. intros i. destruct (decide (i = x)) as [-> | Hne].
      * rewrite lookup_delete_eq. split; [done | by intros [? ?]].
      * rewrite lookup_delete_ne by done. rewrite <- Hdom, elem_of_cons. naive_solver.
    + cbn in *. lia.
    + cbn in H3, H4, H5. split; [done |]. split; [done |]. split; [done |]. split.
      * exists (x :: gone). cbn. by rewrite <- H4.
      * etrans; [exact H5 | apply delete_subseteq].
  - split; [done |]. split; [done |]. split; [done |]. split; [by exists [] | done].
Qed.

Lemma ChunkCache_insert_spec idx value c :
  cache_ok c → cc_map c !! idx = None →
  let c' := ChunkCache_insert idx value c in
  cache_ok c' ∧ cc_map c' !! idx = Some value ∧
  (∀ i v, cc_map c' !! i = Some v → i = idx ∧ v = value ∨ cc_map c !! i = Some v) ∧
  (∃ gone kept, cc_order c = gone ++ kept ∧ cc_order c' = kept ++ [idx]).
Proof.
  intros Hok Hm. unfold ChunkCache_insert. rewrite decide_False by (rewrite Hm; by intros [? ?]).
  destruct (evict_loop_ok (S (length (cc_order c))) c Hok) as (H1 & H2 & H3 & (gone & H4) & H5); [lia |].
  set (e := evict_loop _ c) in *. clearbody e. destruct H1 as [Hnd Hdom Hpos Hb].
  assert (cc_map e !! idx = None) as Hme.
  { destruct (cc_map e !! idx) as [v |] eqn:He; [| done].
    apply (lookup_weaken _ (cc_map c)) in He; [| done]. congruence. }
  split; [split; cbn | split; [| split]].
  - apply list.NoDup_app. split; [done |]. split; [| apply NoDup_singleton].
    intros x Hx ->%list_elem_of_singleton. apply Hdom in Hx. rewrite Hme in Hx. by destruct Hx.
  - intros i. rewrite elem_of_app, list_elem_of_singleton, Hdom. destruct (decide (i = idx)) as [-> |].
    + rewrite lookup_insert_eq. split; [eauto | by right].
    + rewrite lookup_insert_ne by done. naive_solver.
  - done.
  - rewrite zlen_app, zlen_cons, (@zlen_nil Z). lia.
  - cbn. apply lookup_insert_eq.
  - intros i v. cbn. destruct (decide (i = idx)) as [-> |].
    + rewrite lookup_insert_eq. intros [= ->]. by left.
    + rewrite lookup_insert_ne by done. intros Hi. right. by apply (lookup_weaken _ _ _ _ Hi).
  - exists gone, (cc_order e). done.
Qed.
(** ** The chunk reader *)

Record ChunkReaderInner (T : Type) : Type := mk_ChunkReaderInner {
  cr_transport : T;
  cr_ends : list Z;
  cr_digests : list bytes;
  cr_size : Z;
  cr_cache : ChunkCache;
}.
Arguments mk_ChunkReaderInner {T} _ _ _ _ _.
Arguments cr_transport {T} _.
Arguments cr_ends {T} _.
Arguments cr_digests {T} _.
Arguments cr_size {T} _.
Arguments cr_cache {T} _.

(** [slice::partition_point] on a slice whose elements that satisfy [p] come
    first. *)
Fixpoint partition_point {A} (p : A → bool) (l : list A) : Z :=
  match l with
  | [] => 0
  | x :: l => if p x then 1 + partition_point p l else 0
  end.

Section chunk_reader.
Context (hex_encode : bytes → string).
Context (crc32 : bytes → Z) (zstd_decompress : bytes → Z → result string bytes).
Context {T : Type} `{H2Transport T}.

Definition set_cache (c : ChunkCache) (s : ChunkReaderInner T) : ChunkReaderInner T :=
  mk_ChunkReaderInner (cr_transport s) (cr_ends s) (cr_digests s) (cr_size s) c.
Definition set_transport (t : T) (s : ChunkReaderInner T) : ChunkReaderInner T :=
  mk_ChunkReaderInner t (cr_ends s) (cr_digests s) (cr_size s) (cr_cache s).

(** [std::io::Error::other] of an error of the client. *)
Definition io_other (e : PbsError) : io_error := IoOther (PbsError_fmt e).

Definition chunk_download (digest : bytes) : stt (ChunkReaderInner T) io_error bytes := λ s,
  let '(r, t) := download "chunk" [("digest", hex_encode digest)] (cr_transport s) in
  (map_err io_other r, set_transport t s).

Definition fetch_chunk (idx : Z) : stt (ChunkReaderInner T) io_error bytes :=
  cached ← (λ s, let '(v, c) := ChunkCache_get idx (cr_cache s) in (Ok v, set_cache c s));
  match cached with
  | Some cached => mret cached
  | None =>
      s ← get_state;
      digest ← lift (ok_or (get_at (cr_digests s) idx) (IoOther "chunk index out of range"));
      encoded ← chunk_download digest;
      plaintext ← lift (map_err io_other (decode_blob crc32 zstd_decompress encoded));
      _ ← modify (λ s, set_cache (ChunkCache_insert idx plaintext (cr_cache s)) s);
      mret plaintext
  end.

(** [n] is the length of the buffer. *)
Definition read_into (offset n : Z) : stt (ChunkReaderInner T) io_error bytes :=
  s ← get_state;
  if (n =? 0) || (cr_size s <=? offset) then mret [] else
  let idx := partition_point (λ end_, end_ <=? offset) (cr_ends s) in
  let chunk_start :=
    match checked_sub idx 1 with
    | Some prev => default 0 (get_at (cr_ends s) prev)
    | None => 0
    end in
  chunk ← fetch_chunk idx;
  let within := offset -u chunk_start in
  let available := saturating_sub (zlen chunk) within in
  let len := Z.min available n in
  lift (ok_or (get_range chunk within (within +u len)) (IoOther "chunk shorter than its index entry")).

#[export] Instance ChunkReader_read_at : ReadAt (ChunkReaderInner T) := read_into.

(** [PbsArchive::connect] after the session is open: the index becomes the
    reader's tables. *)
Definition connect_reader (transport : T) (index : bytes) : result PbsError (ChunkReaderInner T) :=
  entries ← parse_dynamic_index_entries index;
  let size := default 0 (fst <$> list.last entries) in
  Ok (mk_ChunkReaderInner transport (map fst entries) (map snd entries) size
        (ChunkCache_new CHUNK_CACHE_CAPACITY)).
End chunk_reader.

(** ** Lemmas *)

Lemma partition_ends (chunks : list bytes) : ∀ start offset,
  start <= offset < start + total (map zlen chunks) →
  ∃ pre c post, chunks = pre ++ c :: post ∧
    partition_point (λ end_, end_ <=? offset) (ends start (map zlen chunks)) = zlen pre ∧
    start + total (map zlen pre) <= offset < start + total (map zlen pre) + zlen c.
Proof.
  induction chunks as [| c cs IH]; intros start offset Hoff; cbn in Hoff; [lia |].
  fold (total (map zlen cs)) in Hoff. cbn [map ends partition_point].
  destruct (Z.leb_spec (start + zlen c) offset).
  - destruct (IH (start + zlen c) offset) as (pre & x & post & -> & Hp & Hr); [lia |].
    exists (c :: pre), x, post. split; [done |]. rewrite Hp, zlen_cons. split; [done |]. cbn.
    fold (total (map zlen pre)). lia.
  - exists [], c, cs. split; [done |]. split; [done |]. cbn. lia.
Qed.

Lemma ends_last_of (pre post : list bytes) c start :
  get_at (ends start (map zlen (pre ++ c :: post))) (zlen pre) = Some (start + total (map zlen pre) + zlen c).
Proof.
  rewrite map_app, ends_app. cbn [map ends]. rewrite get_at_app; [done |].
  unfold zlen. by rewrite length_ends, length_map.
Qed.

Lemma ends_chunk_start (pre post : list bytes) start :
  pre ≠ [] → get_at (ends start (map zlen (pre ++ post))) (zlen pre - 1) = Some (start + total (map zlen pre)).
Proof.
  intros Hne. destruct (exists_last Hne) as (pre' & c & ->).
    rewrite <- app_assoc. cbn [app]. rewrite zlen_app, zlen_cons, (@zlen_nil bytes).
    replace (zlen pre' + (1 + 0) - 1) with (zlen pre') by lia. rewrite ends_last_of.
    rewrite map_app, total_app. cbn. f_equal. lia.
Qed.

Section chunk_reader_laws.
Context (hex_encode : bytes → string).
Context (crc32 : bytes → Z) (zstd_decompress : bytes → Z → result string bytes).
Context {T : Type} `{H2Transport T}.

(** The server always answers [digest] with a blob that decodes to [chunk]. *)
Definition serves (digest chunk : bytes) : Prop := ∀ t : T, ∃ encoded t',
  download "chunk" [("digest", hex_encode digest)] t = (Ok encoded, t') ∧
  decode_blob crc32 zstd_decompress encoded = Ok chunk.

(** The reader serves the chunks of its index; what is cached is one of them. *)
Record reader_of (chunks : list bytes) (r : ChunkReaderInner T) : Prop := {
  ro_small : total (map zlen chunks) < 2 ^ 64;
  ro_size : cr_size r = total (map zlen chunks);
  ro_ends : cr_ends r = ends 0 (map zlen chunks);
  ro_digests : Forall2 serves (cr_digests r) chunks;
  ro_cache : cache_ok (cr_cache r);
  ro_coherent : ∀ i v, cc_map (cr_cache r) !! i = Some v → get_at chunks i = Some v;
}.

Lemma zlen_concat (chunks : list bytes) : zlen (concat chunks) = total (map zlen chunks).
Proof using Type. induction chunks as [| c cs IH]; [done |]. cbn. rewrite zlen_app, IH. done. Qed.

Lemma get_at_Forall2 {A B} (P : A → B → Prop) l k i b :
  Forall2 P l k → get_at k i = Some b → ∃ a, get_at l i = Some a ∧ P a b.
Proof using Type.
  intros HF. unfold get_at. destruct (0 <=? i); [| done]. intros Hk.
  destruct (Forall2_lookup_r _ _ _ _ _ HF Hk) as (a & ? & ?). eauto.
Qed.

Lemma fetch_chunk_ok chunks r idx c :
  reader_of chunks r → get_at chunks idx = Some c →
  ∃ r', fetch_chunk hex_encode crc32 zstd_decompress idx r = (Ok c, r') ∧ reader_of chunks r'.
Proof using Type.
  intros [Hsmall Hsize Hends Hdig Hcache Hcoh] Hc. unfold fetch_chunk.
  pose proof (cache_ok_get idx _ Hcache) as Hget. unfold ChunkCache_get in *.
  destruct (cc_map (cr_cache r) !! idx) as [v |] eqn:Hm.
  - cbn in Hget. rewrite (stt_bind_ok _ _ r (Some v) (set_cache
      (mk_ChunkCache (cc_map (cr_cache r)) (remove_first idx (cc_order (cr_cache r)) ++ [idx])
         (cc_capacity (cr_cache r))) r)) by (cbv beta; by rewrite Hm).
    eexists. split.
    + unfold mret, stt_ret. apply Hcoh in Hm. do 2 f_equal. congruence.
    + split; try done.
  - rewrite (stt_bind_ok _ _ r None r) by (cbv beta; rewrite Hm; by destruct r).
    rewrite (stt_bind_ok get_state _ r r r) by done.
    destruct (get_at_Forall2 _ _ _ _ _ Hdig Hc) as (d & Hd & Hserves).
    rewrite (stt_bind_ok (lift _) _ r d r) by (unfold lift; by rewrite Hd).
    destruct (Hserves (cr_transport r)) as (enc & t' & Hdown & Hdec).
    rewrite (stt_bind_ok (chunk_download _ _) _ r enc (set_transport t' r))
      by (unfold chunk_download; by rewrite Hdown).
    unfold mbind, stt_bind, lift, modify, mret, stt_ret. rewrite Hdec. cbn.
    eexists. split; [done |].
    destruct (ChunkCache_insert_spec idx c (cr_cache r) Hcache Hm) as (H1 & _ & H3 & _).
    split; cbn; try done. intros i v [[-> ->] | Hi]%H3; [done | by apply Hcoh].
Qed.

Lemma read_into_ok chunks r off n :
  reader_of chunks r → 0 <= off → 0 <= n → ∃ k r',
    read_into hex_encode crc32 zstd_decompress off n r = (Ok (ztake k (zdrop off (concat chunks))), r') ∧
    reader_of chunks r' ∧ 0 <= k <= n ∧ k <= Z.max 0 (zlen (concat chunks) - off) ∧
    (0 < n → off < zlen (concat chunks) → 0 < k).
Proof using Type.
  intros Hr Ho Hn. pose proof Hr as [Hsmall Hsize Hends _ _ _]. rewrite zlen_concat.
  unfold read_into. rewrite (stt_bind_ok get_state _ r r r) by done.
  destruct (Z.eqb_spec n 0), (Z.leb_spec (cr_size r) off); cbn [orb];
    try (exists 0, r; rewrite ztake_le by lia; split; [done |]; split; [done |]; lia).
  destruct (partition_ends chunks 0 off) as (pre & c & post & Hchunks & Hidx & Hrange); [lia |].
  rewrite Hends, Hidx.
  assert (get_at chunks (zlen pre) = Some c) as Hc by (rewrite Hchunks; by apply get_at_app).
  destruct (fetch_chunk_ok chunks r _ c Hr Hc) as (r' & Hf & Hr').
  set (start := match checked_sub _ _ with Some _ => _ | None => _ end).
  assert (start = total (map zlen pre)) as Hstart.
  { unfold start, checked_sub. pose proof (zlen_nonneg pre). destruct (Z.leb_spec 1 (zlen pre)) as [Hp1 |].
    - rewrite Hchunks, ends_chunk_start; [cbn; lia | intros ->; rewrite (@zlen_nil bytes) in Hp1; lia].
    - rewrite (zlen_0_nil pre) by lia. done. }
  clearbody start. rewrite (stt_bind_ok _ _ _ _ _ Hf). cbv zeta.
  pose proof (total_nonneg (map zlen pre) ltac:(apply Forall_map, Forall_true, zlen_nonneg)) as Hpn.
  pose proof (total_nonneg (map zlen post) ltac:(apply Forall_map, Forall_true, zlen_nonneg)).
  rewrite Hchunks, map_app, total_app in Hsmall, Hsize. cbn in Hsmall, Hsize.
  fold (total (map zlen post)) in Hsmall, Hsize.
  rewrite u64_sub_small by (unfold in_u64; lia). set (within := off - start).
  unfold saturating_sub. set (len := Z.min _ n).
  assert (0 < len <= n ∧ within + len <= zlen c) as Hlen by (unfold len, within; lia).
  rewrite u64_add_small by (unfold in_u64, within in *; lia).
  rewrite get_range_spec by (unfold within in *; lia).
  exists len, r'. unfold lift. cbn [ok_or]. split; [| split; [done |]].
  - do 2 f_equal. replace (within + len - within) with len by lia. rewrite Hchunks, concat_app.
    cbn [concat]. unfold zdrop, ztake. symmetry.
    assert (Z.of_nat (length (concat pre)) = total (map zlen pre)) as Hz by apply zlen_concat.
    assert (Z.of_nat (length c) = zlen c) as Hzc by done. unfold within in *.
    rewrite drop_app_ge by lia. rewrite drop_app_le by lia.
    rewrite take_app_le by (rewrite length_drop; lia). do 2 f_equal. lia.
  - rewrite Hchunks, map_app, total_app. cbn. fold (total (map zlen post)). unfold within in *. lia.
Qed.

(** Clients that only know [ReadAt] may use the reader. *)
#[export, refine] Instance ChunkReader_read_at_laws :
    @ReadAtLaws (ChunkReaderInner T) (ChunkReader_read_at hex_encode crc32 zstd_decompress) := {|
  represents r c := ∃ chunks, c = concat chunks ∧ reader_of chunks r
|}.
Proof.
  intros r c off n (chunks & -> & Hr) Ho Hn.
  destruct (read_into_ok chunks r off n Hr Ho Hn) as (k & r' & Hread & Hr' & Hk).
  exists k, r'. split; [exact Hread |]. split; [by exists chunks | done].
Defined.
End chunk_reader_laws.

Inductive cache_op : Type := CacheGet (idx : Z) | CacheInsert (idx : Z) (value : bytes).
Definition run_op (c : ChunkCache) (op : cache_op) : ChunkCache :=
  match op with
  | CacheGet idx => snd (ChunkCache_get idx c)
  | CacheInsert idx value => ChunkCache_insert idx value c
  end.

Lemma cache_ok_insert idx value c : cache_ok c → cache_ok (ChunkCache_insert idx value c).
Proof.
  intros Hok. destruct (cc_map c !! idx) as [v |] eqn:Hm.
  - unfold ChunkCache_insert. by rewrite decide_True by eauto.
  - by apply ChunkCache_insert_spec.
Qed.

Lemma cache_ok_run ops c : cache_ok c → cache_ok (fold_left run_op ops c).
Proof.
  revert c. induction ops as [| op ops IH]; intros c Hok; [done |]. apply IH.
  destruct op; [by apply cache_ok_get | by apply cache_ok_insert].
Qed.

(** ** Properties *)

(** Whatever operations are run on the chunk cache, it never holds more
    than its capacity, its recency order lists exactly the cached chunks once
    each, a hit moves a chunk to the recent end, and inserting a new chunk
    evicts only from the least recently used end and makes the chunk
    available. *)
Theorem chunk_cache_lru capacity ops idx value :
  let c := fold_left run_op ops (ChunkCache_new capacity) in
  cache_ok c ∧
  (∀ v, fst (ChunkCache_get idx c) = Some v →
     ∃ rest, cc_order (snd (ChunkCache_get idx c)) = rest ++ [idx] ∧ idx ∉ rest ∧
             cc_map (snd (ChunkCache_get idx c)) = cc_map c) ∧
  (fst (ChunkCache_get idx c) = None →
     ∃ gone kept, cc_order c = gone ++ kept ∧ cc_order (ChunkCache_insert idx value c) = kept ++ [idx] ∧
                  fst (ChunkCache_get idx (ChunkCache_insert idx value c)) = Some value).
Proof.
  cbv zeta. set (c := fold_left run_op ops (ChunkCache_new capacity)).
  pose proof (cache_ok_run ops _ (cache_ok_new capacity)) as Hok. fold c in Hok.
  split; [done |]. unfold ChunkCache_get at 1 2 3 4. split.
  - intros v. destruct (cc_map c !! idx) as [v' |] eqn:Hm; [| done]. intros _.
    exists (remove_first idx (cc_order c)). split; [done |]. split; [| done].
    destruct (remove_first_spec idx (cc_order c) (cache_nodup _ Hok)) as (_ & Hel & _).
    rewrite Hel. by intros [_ ?].
  - destruct (cc_map c !! idx) as [v' |] eqn:Hm; [done |]. intros _.
    destruct (ChunkCache_insert_spec idx value c Hok Hm) as (_ & Hv & _ & gone & kept & H1 & H2).
    exists gone, kept. split; [done |]. split; [done |]. unfold ChunkCache_get. by rewrite Hv.
Qed.

Section properties.
Context (hex_encode : bytes → string).
Context (crc32 : bytes → Z) (zstd_decompress : bytes → Z → result string bytes).
Context {T : Type} `{H2Transport T}.

(** A sequence of positioned reads. *)
Fixpoint read_many (reads : list (Z * Z)) : stt (ChunkReaderInner T) io_error (list bytes) :=
  match reads with
  | [] => mret []
  | (off, n) :: reads =>
      d ← read_into hex_encode crc32 zstd_decompress off n;
      ds ← read_many reads;
      mret (d :: ds)
  end.

Lemma last_ends (chunks : list bytes) start :
  default start (list.last (ends start (map zlen chunks))) = start + total (map zlen chunks).
Proof using Type.
  revert start. induction chunks as [| c cs IH]; intros start; [cbn; lia |]. cbn [map ends].
  specialize (IH (start + zlen c)). cbn [total foldr]. fold (total (map zlen cs)).
  destruct cs as [| c' cs]; [cbn; lia |].
  cbn [map ends] in IH |- *. rewrite last_cons_cons. cbn [map] in IH.
  destruct (list.last _) eqn:E; cbn in IH |- *; [lia |]. by apply last_None in E.
Qed.

Lemma ends_in_u64 (chunks : list bytes) start e :
  0 <= start → start + total (map zlen chunks) < 2 ^ 64 → e ∈ ends start (map zlen chunks) → in_u64 e.
Proof using Type.
  revert start. induction chunks as [| c cs IH]; intros start Hs Hm He; cbn in He.
  { by apply not_elem_of_nil in He. }
  cbn in Hm. fold (total (map zlen cs)) in Hm. pose proof (zlen_nonneg c).
  pose proof (total_nonneg (map zlen cs) ltac:(apply Forall_map, Forall_true, zlen_nonneg)).
  apply elem_of_cons in He as [-> | He]; [unfold in_u64; lia |].
  apply (IH (start + zlen c)); [lia | lia | done].
Qed.

Lemma connect_reader_ok header digests (chunks : list bytes) t :
  zlen header = DYNAMIC_INDEX_HEADER_SIZE → total (map zlen chunks) < 2 ^ 64 →
  Forall (λ d, zlen d = 32) digests → Forall2 (serves hex_encode crc32 zstd_decompress (T := T)) digests chunks →
  ∃ r, connect_reader t (index_file header (zip (ends 0 (map zlen chunks)) digests)) = Ok r ∧
       reader_of hex_encode crc32 zstd_decompress chunks r.
Proof using Type.
  intros Hh Hmax Hdig HF. pose proof (list.Forall2_length _ _ _ HF) as Hlen.
  assert (length (ends 0 (map zlen chunks)) = length digests) as Hle
    by (rewrite length_ends, length_map; lia).
  unfold connect_reader. rewrite parse_index_file; [| done |].
  - cbn [mbind result_bind]. eexists. split; [done |].
    assert (map fst (zip (ends 0 (map zlen chunks)) digests) = ends 0 (map zlen chunks)) as Hfst
      by (apply list.fst_zip; lia).
    assert (map snd (zip (ends 0 (map zlen chunks)) digests) = digests) as Hsnd by (apply list.snd_zip; lia).
    split; cbn; try done.
    + rewrite <- (fmap_last fst). change (fst <$> zip ?a ?b) with (map fst (zip a b)).
      rewrite Hfst, last_ends. lia.
    + by rewrite Hsnd.
    + apply cache_ok_new.
  - apply Forall_forall. intros [e d] Hin%list_elem_of_In. split; cbn.
    + apply elem_of_zip_l in Hin. by apply (ends_in_u64 chunks 0).
    + apply elem_of_zip_r in Hin. rewrite Forall_forall in Hdig. apply Hdig. by apply list_elem_of_In.
Qed.

Lemma read_many_ok chunks reads r :
  reader_of hex_encode crc32 zstd_decompress chunks r → Forall (λ p, 0 <= p.1 ∧ 0 <= p.2) reads →
  ∃ ds r', read_many reads r = (Ok ds, r') ∧
    Forall2 (λ p d, ∃ k, d = ztake k (zdrop p.1 (concat chunks)) ∧ k <= p.2 ∧
                         (0 < p.2 → p.1 < zlen (concat chunks) → 0 < k)) reads ds.
Proof using Type.
  intros Hr Hreads. revert r Hr. induction Hreads as [| [off n] reads [Ho Hn] _ IH]; intros r Hr.
  - exists [], r. split; [done | constructor].
  - cbn [fst snd] in Ho, Hn.
    destruct (read_into_ok hex_encode crc32 zstd_decompress chunks r off n Hr Ho Hn)
      as (k & r1 & Hread & Hr1 & Hk & _ & Hpos).
    destruct (IH r1 Hr1) as (ds & r2 & Hm & HF).
    exists (ztake k (zdrop off (concat chunks)) :: ds), r2. cbn [read_many].
    rewrite (stt_bind_ok _ _ _ _ _ Hread), (stt_bind_ok _ _ _ _ _ Hm). split; [done |].
    constructor; [| done]. exists k. cbn. split; [done |]. split; [lia | done].
Qed.

(** C21. Random access agrees with the archive: once the reader is built from
    an index of chunks the server can serve, any sequence of positioned reads,
    served from the cache or fetched, returns at each offset a prefix of the
    archive's bytes from there, never empty while bytes remain, and never
    fails. *)
Theorem archive_random_access header digests chunks t reads
    (Hheader : zlen header = DYNAMIC_INDEX_HEADER_SIZE) (Hsize : total (map zlen chunks) < 2 ^ 64)
    (Hdig : Forall (λ d, zlen d = 32) digests)
    (Hserves : Forall2 (serves hex_encode crc32 zstd_decompress (T := T)) digests chunks)
    (Hreads : Forall (λ p, 0 <= p.1 ∧ 0 <= p.2) reads) :
  ∃ r ds r',
    connect_reader t (index_file header (zip (ends 0 (map zlen chunks)) digests)) = Ok r ∧
    read_many reads r = (Ok ds, r') ∧
    Forall2 (λ p d, ∃ k, d = ztake k (zdrop p.1 (concat chunks)) ∧ k <= p.2 ∧
                         (0 < p.2 → p.1 < zlen (concat chunks) → 0 < k)) reads ds.
Proof using Type.
  destruct (connect_reader_ok header digests chunks t Hheader Hsize Hdig Hserves) as (r & Hc & Hr).
  destruct (read_many_ok chunks reads r Hr Hreads) as (ds & r' & Hm & HF).
  exists r, ds, r'. done.
Qed.
End properties.

(** A server of two uncompressed chunks, addressed by their first byte. *)
Definition two_chunks (p v : string) : bytes :=
  if decide (v = "a") then blob_data (encode_blob_with_digest toy_sum toy_compress [1; 2; 3] [])
  else blob_data (encode_blob_with_digest toy_sum toy_compress [4; 5] []).
Definition first_letter (d : bytes) : string :=
  match d with 97 :: _ => "a" | _ => "b" end.

Lemma archive_random_access_witness :
  ∃ r, connect_reader tt (index_file (replicate 4096 0)
         (zip [3; 5] [replicate 32 97; replicate 32 98])) = Ok r ∧
  ∃ ds r', @read_many first_letter toy_sum toy_decompress unit (fixed_transport two_chunks) [(1, 10); (4, 1); (0, 2)] r = (Ok ds, r').
Proof.
  destruct (@archive_random_access first_letter toy_sum toy_decompress unit (fixed_transport two_chunks)
    (replicate 4096 0) [replicate 32 97; replicate 32 98] [[1; 2; 3]; [4; 5]] tt [(1, 10); (4, 1); (0, 2)])
    as (r & ds & r' & Hc & Hm & _).
  - reflexivity.
  - vm_compute. done.
  - repeat constructor.
  - repeat constructor; intros []; eexists _, tt; (split; [reflexivity | reflexivity]).
  - repeat constructor; cbn; lia.
  - exists r. split; [exact Hc |]. exists ds, r'. exact Hm.
Defined.
