(* ===== verification/PxarFormat.v ===== *)
(** * PxarFormat: the pxar archive format (pbs-client/src/pxar/format.rs, mod.rs)

    Item headers, metadata, goodbye items, file-name validation, and the
    binary search tree in which a directory's goodbye table is laid out. *)
From S2P Require Import Prelude IoModel Paths.

Definition HEADER_SIZE : Z := 16.
Definition GOODBYE_ITEM_SIZE : Z := 24.
Definition STAT_SIZE : Z := 40.

Definition MAX_FILENAME_LEN : Z := 256.
Definition MAX_SYMLINK_LEN : Z := 4096.
Definition MAX_DATA_LEN : Z := 64 * 1024.

Definition PXAR_FORMAT_VERSION : Z := 0x730f6c75df16a40d.
Definition PXAR_ENTRY : Z := 0xd5956474e588acef.
Definition PXAR_FILENAME : Z := 0x16701121063917b3.
Definition PXAR_SYMLINK : Z := 0x27f971e7dbf5dc5f.
Definition PXAR_PAYLOAD : Z := 0x28147a1b0b7c1a25.
Definition PXAR_GOODBYE : Z := 0x2fec4fa642d5731d.
Definition PXAR_GOODBYE_TAIL_MARKER : Z := 0xef5eed5b753e1555.

Definition PXAR_HASH_KEY_1 : Z := 0x83ac3f1cfbb450db.
Definition PXAR_HASH_KEY_2 : Z := 0xaa4f1b6879369fbd.

(** The octal constants [0o0170000], [0o0120000], [0o0100000] and [0o0040000]. *)
Definition IFMT : Z := 61440.
Definition IFLNK : Z := 40960.
Definition IFREG : Z := 32768.
Definition IFDIR : Z := 16384.

Record Header : Type := mk_Header { htype : Z; full_size : Z }.

Definition io_ok_or {A} (o : option A) (msg : string) : result io_error A := ok_or o (IoOther msg).

Definition content_size (self : Header) : result io_error Z :=
  io_ok_or (checked_sub (full_size self) HEADER_SIZE) "pxar item header smaller than the header itself".

Record GoodbyeItem : Type := mk_GoodbyeItem { gi_hash : Z; gi_offset : Z; gi_size : Z }.
Definition GoodbyeItem_default : GoodbyeItem := mk_GoodbyeItem 0 0 0.

Definition GoodbyeItem_to_le_bytes (self : GoodbyeItem) : bytes :=
  to_le_bytes 8 (gi_hash self) ++ to_le_bytes 8 (gi_offset self) ++ to_le_bytes 8 (gi_size self).

(** [slice.try_into::<[u8; N]>()] *)
Definition try_into_array (n : Z) (slice : bytes) : option bytes :=
  if zlen slice =? n then Some slice else None.

Definition read_u64 (slice : option bytes) : result io_error Z :=
  array ← io_ok_or (slice ≫= try_into_array 8) "pxar: truncated u64 field";
  Ok (from_le_bytes array).

Definition GoodbyeItem_from_le_bytes (buf : bytes) : result io_error GoodbyeItem :=
  hash ← read_u64 (get_range buf 0 8);
  offset ← read_u64 (get_range buf 8 16);
  size ← read_u64 (get_range buf 16 24);
  Ok (mk_GoodbyeItem hash offset size).

Definition validate_filename (name : bytes) : result io_error unit :=
  if bool_decide (name = []) then Err (IoOther "pxar: empty file name")
  else if bool_decide (SLASH ∈ name) then Err (IoOther "pxar: file name contains a slash")
  else if bool_decide (name = [DOT]) || bool_decide (name = [DOT; DOT])
  then Err (IoOther "pxar: file name is '.' or '..'")
  else Ok tt.

(** ** Metadata (mod.rs) *)

Record StatxTimestamp : Type := mk_StatxTimestamp { ts_secs : Z; ts_nanos : Z }.
Record Stat : Type := mk_Stat {
  st_mode : Z;
  st_flags : Z;
  st_uid : Z;
  st_gid : Z;
  st_mtime : StatxTimestamp;
}.
Record Metadata : Type := mk_Metadata { stat : Stat }.

Definition file_type (self : Stat) : Z := Z.land (st_mode self) IFMT.
Definition Stat_is_dir (self : Stat) : bool := file_type self =? IFDIR.
Definition is_dir (self : Metadata) : bool := Stat_is_dir (stat self).

Definition Metadata_builder (mode : Z) : Metadata :=
  mk_Metadata (mk_Stat mode 0 0 0 (mk_StatxTimestamp 0 0)).
Definition dir_builder (mode : Z) : Metadata :=
  Metadata_builder (Z.lor IFDIR (Z.ldiff mode IFMT)).
Definition file_builder (mode : Z) : Metadata :=
  Metadata_builder (Z.lor IFREG (Z.ldiff mode IFMT)).
(** The duration is its seconds and nanoseconds; [secs as i64]. *)
Definition mtime_unix (secs nanos : Z) (self : Metadata) : Metadata :=
  let s := stat self in
  mk_Metadata (mk_Stat (st_mode s) (st_flags s) (st_uid s) (st_gid s) (mk_StatxTimestamp (as_i64 secs) nanos)).

Definition is_pxar_header (header : bytes) : bool :=
  match get_to header 8 ≫= try_into_array 8 with
  | Some array => let magic := from_le_bytes array in (magic =? PXAR_ENTRY) || (magic =? PXAR_FORMAT_VERSION)
  | None => false
  end.

(** [Symlink::as_os_str]: the data without its last byte. *)
Definition symlink_target (data : bytes) : bytes :=
  default [] (get_to data (saturating_sub (zlen data) 1)).

Module EntryKind.
Inductive EntryKind : Type :=
  | Directory
  | File (size : Z) (offset : option Z)
  | Symlink (data : bytes).
End EntryKind.

Record Entry : Type := mk_Entry {
  entry_path : bytes;
  entry_metadata : Metadata;
  entry_kind : EntryKind.EntryKind;
}.

(** ** The goodbye table's search tree *)

(** [bst_copy] and its recursion call [copy src dest] once per node; the
    model lists the calls in order.  The recursion decreases [e]. *)
Definition bst_mid (n : Z) (e : nat) : Z :=
  let p := Z.shiftl 1 (Z.of_nat e) in
  let t := p + Z.shiftr p 1 - 1 in
  if t <? n then p - 1 else p - 1 - (t - n).

Fixpoint bst_copy_inner (e : nat) (n o i : Z) : list (Z * Z) :=
  let m := bst_mid n e in
  (o + m, i) ::
  match e with
  | O => []
  | S e =>
      (if 0 <? m then bst_copy_inner e m o (i * 2 + 1) else []) ++
      (if m + 1 <? n then bst_copy_inner e (n - m - 1) (o + m + 1) (i * 2 + 2) else [])
  end.

(** [usize::BITS - n.leading_zeros() - 1] is the position of the highest bit. *)
Definition bst_copy (n : Z) : list (Z * Z) :=
  if n =? 0 then [] else bst_copy_inner (Z.to_nat (Z.log2 n)) n 0 0.

(** The index grows with every turn, so one turn more than the tree has
    elements is enough. *)
Fixpoint bst_search_loop {A} (fuel : nat) (tree : list A) (i skip : Z) (compare : A → comparison) : option Z :=
  match fuel with
  | O => None
  | S fuel =>
      match get_at tree i with
      | None => None
      | Some item =>
          match compare item with
          | Lt => bst_search_loop fuel tree (2 * i + 1) skip compare
          | Gt => bst_search_loop fuel tree (2 * i + 2) skip compare
          | Eq =>
              if skip =? 0 then Some i else
              let left := 2 * i + 1 in
              match bst_search_loop fuel tree left (skip - 1) compare with
              | Some index => Some index
              | None => bst_search_loop fuel tree (left + 1) (skip - 1) compare
              end
          end
      end
  end.
Definition bst_search_by {A} (tree : list A) (start skip : Z) (compare : A → comparison) : option Z :=
  bst_search_loop (S (length tree)) tree start skip compare.
