(* ===== verification/GoodbyeTree.v ===== *)
(** * GoodbyeTree: the goodbye table is a search tree

    [bst_copy] visits every node of the complete binary tree of [n] nodes once
    and hands out the sorted items in order, so searching the table it builds
    finds every hash of the directory. *)
From S2P Require Import Prelude IoModel Paths PxarFormat.

(** ** The shape of the recursion

    Node [i] of a complete tree with [N] nodes, [e] levels above the bottom,
    has [2^e - 1] nodes in its full levels and the part of the last level
    that [N] leaves it. *)
Definition node_size (N : Z) (e : nat) (i : Z) : Z :=
  2 ^ Z.of_nat e - 1 + Z.max 0 (Z.min (N + 1 - (i + 1) * 2 ^ Z.of_nat e) (2 ^ Z.of_nat e)).

(** Node [i] is at level [d], and the bottom level is [d + e]. *)
Record shape (N : Z) (d e : nat) (n i : Z) : Prop := {
  sh_size : n = node_size N e i;
  sh_pos : 1 <= n;
  sh_level : 2 ^ Z.of_nat d <= i + 1 < 2 * 2 ^ Z.of_nat d;
  sh_tree : 2 ^ Z.of_nat d * 2 ^ Z.of_nat e <= N < 2 * (2 ^ Z.of_nat d * 2 ^ Z.of_nat e);
}.

Lemma pow2_S e : 2 ^ Z.of_nat (S e) = 2 * 2 ^ Z.of_nat e.
Proof. rewrite Nat2Z.inj_succ, Z.pow_succ_r by lia. done. Qed.

Lemma pow2_pos e : 1 <= 2 ^ Z.of_nat e.
Proof. pose proof (Z.pow_pos_nonneg 2 (Z.of_nat e) ltac:(lia) ltac:(lia)). lia. Qed.

Lemma bst_mid_S n e :
  bst_mid n (S e) =
    let q := 2 ^ Z.of_nat e in
    if 3 * q - 1 <? n then 2 * q - 1 else n - q.
Proof.
  unfold bst_mid. rewrite Z.shiftl_1_l, pow2_S. set (q := 2 ^ Z.of_nat e).
  rewrite Z.shiftr_div_pow2 by lia. change (2 ^ 1) with 2.
  rewrite (Z.mul_comm 2 q), Z.div_mul by lia.
  cbv zeta. destruct (Z.ltb_spec (q * 2 + q - 1) n), (Z.ltb_spec (3 * q - 1) n); lia.
Qed.

Lemma bst_mid_0 n : n = 1 → bst_mid n 0 = 0.
Proof. intros ->. reflexivity. Qed.

(** A node of the shape is in the tree, and so are exactly the children the
    recursion enters. *)
Lemma shape_node N d e n i : shape N d e n i → 0 <= i < N.
Proof.
  intros [Hs Hp Hl Ht]. pose proof (pow2_pos d). split; [lia |]. destruct e as [| e].
  - unfold node_size in Hs. cbn in Hs. lia.
  - rewrite pow2_S in Ht. pose proof (pow2_pos e).
    assert (2 ^ Z.of_nat d * 1 <= 2 ^ Z.of_nat d * 2 ^ Z.of_nat e) by (apply Z.mul_le_mono_nonneg_l; lia).
    lia.
Qed.

Lemma shape_0 N d n i : shape N d 0 n i → n = 1 ∧ N <= 2 * i + 1.
Proof.
  intros [Hs Hp Hl Ht]. unfold node_size in Hs. cbn in Hs, Ht. lia.
Qed.

Lemma shape_S N d e n i :
  shape N d (S e) n i →
  let m := bst_mid n (S e) in
  0 <= m < n ∧
  (0 < m → shape N (S d) e m (i * 2 + 1)) ∧ (m = 0 → N <= 2 * i + 1) ∧
  (m + 1 < n → shape N (S d) e (n - m - 1) (i * 2 + 2)) ∧ (m + 1 = n → N <= 2 * i + 2).
Proof.
  intros [Hs Hp Hl Ht]. rewrite bst_mid_S. cbv zeta. pose proof (pow2_pos e) as Hq.
  unfold node_size in *. rewrite pow2_S in Hs, Ht. set (q := 2 ^ Z.of_nat e) in *.
  set (x := (i + 1) * q).
  assert ((i + 1) * (2 * q) = 2 * x) as Hx2 by (unfold x; ring).
  assert ((i * 2 + 1 + 1) * q = 2 * x) as Hxl by (unfold x; ring).
  assert ((i * 2 + 2 + 1) * q = 2 * x + q) as Hxr by (unfold x; ring).
  rewrite Hx2 in Hs.
  assert (q = 1 → x = i + 1) as Hx1 by (intros Hq1; unfold x; rewrite Hq1; ring).
  assert (2 ^ Z.of_nat d * (2 * q) = 2 ^ Z.of_nat (S d) * q) as Hd by (rewrite pow2_S; ring).
  rewrite Hd in Ht. clearbody x.
  destruct (Z.ltb_spec (3 * q - 1) n).
  all: split; [lia |]; split; [| split; [lia | split; [| lia]]].
  all: intros Hm; split; unfold node_size; fold q; rewrite ?Hxl, ?Hxr, ?pow2_S; rewrite ?pow2_S in Ht; lia.
Qed.

(** ** The calls of [bst_copy] *)

(** Node [j] lies [k] levels below node [i]. *)
Definition below (i j : Z) : Prop := ∃ k : nat, (j + 1) / 2 ^ Z.of_nat k = i + 1.

Lemma below_refl i : below i i.
Proof. exists 0%nat. by rewrite Z.div_1_r. Qed.

Lemma below_child i c j : c = i * 2 + 1 ∨ c = i * 2 + 2 → below c j → below i j.
Proof.
  intros Hc [k Hk]. exists (S k). rewrite pow2_S, (Z.mul_comm 2), <- Z.div_div, Hk by
    (try apply Z.pow_pos_nonneg; try (pose proof (pow2_pos k)); lia).
  destruct Hc as [-> | ->].
  - replace (i * 2 + 1 + 1) with ((i + 1) * 2) by lia. by rewrite Z.div_mul by lia.
  - replace (i * 2 + 2 + 1) with (1 + (i + 1) * 2) by lia. by rewrite Z.div_add by lia.
Qed.

Lemma below_ge i j : 0 <= i → 0 <= j → below i j → i <= j.
Proof.
  intros Hi Hj [k Hk]. pose proof (pow2_pos k).
  assert ((j + 1) / 2 ^ Z.of_nat k <= j + 1) by (apply Z.div_le_upper_bound; nia). lia.
Qed.

Lemma below_disjoint_le i j a b (k m : nat) : (k <= m)%nat →
  0 <= j → (j + 1) / 2 ^ Z.of_nat k = a → (j + 1) / 2 ^ Z.of_nat m = b →
  0 <= i → (a = i * 2 + 2 ∨ a = i * 2 + 3) → (b = i * 2 + 2 ∨ b = i * 2 + 3) → a = b.
Proof.
  intros Hkm Hj Ha Hb Hi Hac Hbc. destruct (decide (k = m)) as [-> | Hne]; [congruence |].
  assert (2 ^ Z.of_nat m = 2 ^ Z.of_nat k * (2 * 2 ^ Z.of_nat (m - k - 1))) as Hp.
  { rewrite <- pow2_S, <- Z.pow_add_r by lia. f_equal. lia. }
  pose proof (pow2_pos k). pose proof (pow2_pos (m - k - 1)).
  rewrite Hp, <- Z.div_div, Ha in Hb by lia.
  assert (a / (2 * 2 ^ Z.of_nat (m - k - 1)) <= a / 2) as Hle
    by (apply Z.div_le_compat_l; lia).
  assert (a / 2 < i + 2) by (apply Z.div_lt_upper_bound; lia). lia.
Qed.

Lemma below_disjoint i j : 0 <= i → 0 <= j → below (i * 2 + 1) j → below (i * 2 + 2) j → False.
Proof.
  intros Hi Hj [k Hk] [m Hm].
  assert (i * 2 + 1 + 1 = i * 2 + 2 + 1); [| lia].
  destruct (Nat.le_ge_cases k m).
  - apply (below_disjoint_le i j _ _ k m); (done || lia).
  - symmetry. apply (below_disjoint_le i j _ _ m k); (done || lia).
Qed.

Record copies_ok (N n o i : Z) (l : list (Z * Z)) : Prop := {
  co_src : ∀ s d, (s, d) ∈ l → o <= s < o + n;
  co_dest : ∀ s d, (s, d) ∈ l → 0 <= d < N ∧ below i d;
  co_nodup : NoDup (map snd l);
  co_length : zlen l = n;
}.

Lemma copies_ok_nil N n o i : n = 0 → copies_ok N n o i [].
Proof. intros ->. split; cbn; [by intros ? ? ?%not_elem_of_nil.. | constructor | done]. Qed.

Lemma bst_copy_inner_ok N e : ∀ d n o i, shape N d e n i → copies_ok N n o i (bst_copy_inner e n o i).
Proof.
  induction e as [| e IH]; intros d n o i Hsh; pose proof (shape_node _ _ _ _ _ Hsh) as Hi; cbn [bst_copy_inner].
  - destruct (shape_0 _ _ _ _ Hsh) as [-> _]. rewrite bst_mid_0 by done.
    split; cbn; [intros s j [= -> ->]%list_elem_of_singleton; lia | | apply NoDup_singleton | done].
    intros s j [= -> ->]%list_elem_of_singleton. split; [lia | apply below_refl].
  - destruct (shape_S _ _ _ _ _ Hsh) as (Hm & Hl & _ & Hr & _). set (m := bst_mid n (S e)) in *.
    assert (copies_ok N m o (i * 2 + 1) (if 0 <? m then bst_copy_inner e m o (i * 2 + 1) else [])) as [Ls Ld Ln Ll].
    { destruct (Z.ltb_spec 0 m); [eapply IH; eauto | apply copies_ok_nil; lia]. }
    assert (copies_ok N (n - m - 1) (o + m + 1) (i * 2 + 2)
              (if m + 1 <? n then bst_copy_inner e (n - m - 1) (o + m + 1) (i * 2 + 2) else [])) as [Rs Rd Rn Rl].
    { destruct (Z.ltb_spec (m + 1) n); [eapply IH; eauto | apply copies_ok_nil; lia]. }
    set (L := if 0 <? m then _ else _) in *. set (R := if m + 1 <? n then _ else _) in *.
    clearbody L R. split.
    + intros s j [[= -> ->] | [Hin | Hin]%elem_of_app]%elem_of_cons; [lia | | ].
      * apply Ls in Hin. lia.
      * apply Rs in Hin. lia.
    + intros s j [[= -> ->] | [Hin | Hin]%elem_of_app]%elem_of_cons; [split; [lia | apply below_refl] | |].
      * apply Ld in Hin as [? ?]. split; [lia |]. apply (below_child i (i * 2 + 1)); auto.
      * apply Rd in Hin as [? ?]. split; [lia |]. apply (below_child i (i * 2 + 2)); auto.
    + cbn. rewrite map_app. apply list.NoDup_cons. split.
      * intros [Hin | Hin]%elem_of_app; apply list_elem_of_fmap in Hin as ([s j] & Heq & Hin); cbn in Heq; subst j.
        -- apply Ld in Hin as [? Hb]. apply below_ge in Hb; lia.
        -- apply Rd in Hin as [? Hb]. apply below_ge in Hb; lia.
      * apply list.NoDup_app. split; [done |]. split; [| done].
        intros j Hj1 Hj2. apply list_elem_of_fmap in Hj1 as ([s1 j1] & -> & H1).
        apply list_elem_of_fmap in Hj2 as ([s2 j2] & Heq & H2). cbn in *. subst j2.
        apply Ld in H1 as [? ?]. apply Rd in H2 as [? ?]. by apply (below_disjoint i j1); [lia | lia | |].
    + rewrite zlen_cons, zlen_app, Ll, Rl. lia.
Qed.

Lemma root_shape n : 1 <= n → shape n 0 (Z.to_nat (Z.log2 n)) n 0.
Proof.
  intros Hn. pose proof (Z.log2_spec n ltac:(lia)) as Hlog. pose proof (Z.log2_nonneg n).
  rewrite Z.pow_succ_r in Hlog by lia.
  split; unfold node_size; rewrite ?Z2Nat.id by lia; cbn; lia.
Qed.

(** Every sorted position is handed out, each to a node of its own. *)
Lemma bst_copy_ok n : 0 <= n → copies_ok n n 0 0 (bst_copy n).
Proof.
  intros Hn. unfold bst_copy. destruct (Z.eqb_spec n 0); [by apply copies_ok_nil |].
  eapply bst_copy_inner_ok. apply root_shape. lia.
Qed.

(** ** The search tree *)

Section search.
Context {A : Type} (key : A → Z) (tree sorted : list A).

(** The subtree at [i] holds the [n] sorted items from [o] on. *)
Fixpoint holds (e : nat) (n o i : Z) : Prop :=
  let m := bst_mid n e in
  (∃ x, get_at tree i = Some x ∧ get_at sorted (o + m) = Some x) ∧
  match e with
  | O => m = 0 ∧ n = 1 ∧ get_at tree (2 * i + 1) = None ∧ get_at tree (2 * i + 2) = None
  | S e =>
      0 <= m < n ∧
      (if 0 <? m then holds e m o (i * 2 + 1) else get_at tree (2 * i + 1) = None) ∧
      (if m + 1 <? n then holds e (n - m - 1) (o + m + 1) (i * 2 + 2) else get_at tree (2 * i + 2) = None)
  end.

Lemma holds_copied e : ∀ d n o i,
  shape (zlen tree) d e n i → 0 <= o → o + n <= zlen sorted →
  (∀ s j, (s, j) ∈ bst_copy_inner e n o i → get_at tree j = get_at sorted s) → holds e n o i.
Proof.
  induction e as [| e IH]; intros d n o i Hsh Ho Hn Hc.
  - destruct (shape_0 _ _ _ _ Hsh) as [-> HN]. cbn [holds]. rewrite bst_mid_0 by done. split.
    + destruct (get_at_lt sorted (o + 0)) as (x & Hx); [lia |]. exists x. split; [| done].
      rewrite (Hc (o + 0) i); [done |]. cbn [bst_copy_inner]. rewrite bst_mid_0 by done. by left.
    + split; [done |]. split; [done |]. split; apply get_at_None; lia.
  - destruct (shape_S _ _ _ _ _ Hsh) as (Hm & Hl & Hl0 & Hr & Hr0). cbn [holds bst_copy_inner] in *.
    set (m := bst_mid n (S e)) in *. clearbody m. split; [| split; [done | split]].
    + destruct (get_at_lt sorted (o + m)) as (x & Hx); [lia |]. exists x. split; [| done].
      rewrite (Hc (o + m) i); [done | by left].
    + destruct (Z.ltb_spec 0 m); [| apply get_at_None; lia].
      apply (IH (S d)); [by apply Hl | lia | lia |]. intros s j Hin. apply Hc. right.
      apply elem_of_app. by left.
    + destruct (Z.ltb_spec (m + 1) n); [| apply get_at_None; lia].
      apply (IH (S d)); [by apply Hr | lia | lia |]. intros s j Hin. apply Hc. right.
      apply elem_of_app. by right.
Qed.

Context (Hsorted : ∀ a b x y, get_at sorted a = Some x → get_at sorted b = Some y → a <= b → key x <= key y).

Lemma search_none fuel i k h : get_at tree i = None → bst_search_loop fuel tree i k h = None.
Proof using Type. intros Hi. destruct fuel; cbn; [done |]. by rewrite Hi. Qed.

(** A search from the root of the subtree finds the hash exactly when one of
    its items has it. *)
Lemma search_holds e : ∀ n o i fuel h,
  holds e n o i → 0 <= i → (Z.to_nat (zlen tree - i) < fuel)%nat →
  match bst_search_loop fuel tree i 0 (λ item, Z.compare h (key item)) with
  | Some j => ∃ s x, o <= s < o + n ∧ get_at tree j = Some x ∧ get_at sorted s = Some x ∧ key x = h
  | None => ∀ s x, o <= s < o + n → get_at sorted s = Some x → key x ≠ h
  end.
Proof using Hsorted.
  induction e as [| e IH]; intros n o i fuel h Hh Hi Hf; (destruct fuel as [| fuel]; [lia |]);
    cbn [holds bst_search_loop] in *; destruct Hh as [(x & Hx & Hsx) Hh]; rewrite Hx;
    pose proof (get_at_Some_lt _ _ _ Hx) as Hlt; set (m := bst_mid n _) in *; clearbody m.
  - destruct Hh as (-> & -> & Hl & Hr).
    assert (∀ s y, o <= s < o + 1 → get_at sorted s = Some y → y = x) as Hu.
    { intros s y Hs Hy. assert (s = o + 0) as -> by lia. congruence. }
    destruct (Z.compare_spec h (key x)) as [-> | |].
    + exists (o + 0), x. split; [lia | done].
    + rewrite search_none by done. intros s y Hs Hy. rewrite (Hu s y Hs Hy). lia.
    + rewrite search_none by done. intros s y Hs Hy. rewrite (Hu s y Hs Hy). lia.
  - destruct Hh as (Hm & Hl & Hr). destruct (Z.compare_spec h (key x)) as [-> | Hc | Hc].
    + exists (o + m), x. split; [lia | done].
    + destruct (Z.ltb_spec 0 m).
      * specialize (IH m o (i * 2 + 1) fuel h Hl ltac:(lia) ltac:(lia)).
        rewrite (Z.mul_comm 2 i). destruct (bst_search_loop _ _ _ _ _).
        -- destruct IH as (s & y & ? & ?). exists s, y. split; [lia | done].
        -- intros s y Hs Hy. destruct (Z.ltb_spec s (o + m)); [by apply (IH s y); [lia |] |].
           pose proof (Hsorted (o + m) s x y Hsx Hy ltac:(lia)). lia.
      * rewrite search_none by done. intros s y Hs Hy.
        pose proof (Hsorted (o + m) s x y Hsx Hy ltac:(lia)). lia.
    + destruct (Z.ltb_spec (m + 1) n).
      * specialize (IH (n - m - 1) (o + m + 1) (i * 2 + 2) fuel h Hr ltac:(lia) ltac:(lia)).
        rewrite (Z.mul_comm 2 i). destruct (bst_search_loop _ _ _ _ _).
        -- destruct IH as (s & y & ? & ?). exists s, y. split; [lia | done].
        -- intros s y Hs Hy. destruct (Z.ltb_spec (o + m) s); [by apply (IH s y); [lia |] |].
           pose proof (Hsorted s (o + m) y x Hy Hsx ltac:(lia)). lia.
      * rewrite search_none by done. intros s y Hs Hy.
        pose proof (Hsorted s (o + m) y x Hy Hsx ltac:(lia)). lia.
Qed.

(** A table laid out by [bst_copy] from sorted items is searched exactly. *)
Lemma bst_search_copied h :
  zlen tree = zlen sorted →
  (∀ s j, (s, j) ∈ bst_copy (zlen sorted) → get_at tree j = get_at sorted s) →
  match bst_search_by tree 0 0 (λ item, Z.compare h (key item)) with
  | Some j => ∃ x, get_at tree j = Some x ∧ x ∈ sorted ∧ key x = h
  | None => ∀ x, x ∈ sorted → key x ≠ h
  end.
Proof using Hsorted.
  intros Hlen Hc. unfold bst_search_by. pose proof (zlen_nonneg sorted) as Hnn.
  assert (∀ x, x ∈ sorted ↔ ∃ s, get_at sorted s = Some x) as Hel.
  { intros x. rewrite list_elem_of_lookup. unfold get_at. split.
    - intros [k Hk]. exists (Z.of_nat k). destruct (Z.leb_spec 0 (Z.of_nat k)); [| lia]. by rewrite Nat2Z.id.
    - intros [s Hs]. destruct (0 <=? s); [eauto | done]. }
  unfold bst_copy in Hc. destruct (Z.eqb_spec (zlen sorted) 0) as [Hz | Hz].
  - rewrite search_none by (apply get_at_None; lia). apply zlen_0_nil in Hz. intros x Hx.
    rewrite Hz in Hx. by apply not_elem_of_nil in Hx.
  - pose proof (holds_copied (Z.to_nat (Z.log2 (zlen sorted))) 0 (zlen sorted) 0 0
      ltac:(rewrite Hlen; apply root_shape; lia) ltac:(lia) ltac:(lia) Hc) as Hh.
    pose proof (search_holds _ _ _ _ (S (length tree)) h Hh ltac:(lia) ltac:(unfold zlen; lia)) as Hs.
    destruct (bst_search_loop _ _ _ _ _) as [j |].
    + destruct Hs as (s & x & _ & Hj & Hsx & Hk). exists x. split; [done |]. split; [apply Hel; eauto | done].
    + intros x Hx. apply Hel in Hx as [s Hs']. apply (Hs s x); [| done].
      apply get_at_Some_lt in Hs'. lia.
Qed.
(** The item a search finds is on top of all items with that hash. *)
Lemma search_subtree e : ∀ n o i fuel h j,
  holds e n o i → 0 <= i → (Z.to_nat (zlen tree - i) < fuel)%nat →
  bst_search_loop fuel tree i 0 (λ item, Z.compare h (key item)) = Some j →
  ∃ e' n' o' x, holds e' n' o' j ∧ o <= o' ∧ o' + n' <= o + n ∧ i <= j ∧ get_at tree j = Some x ∧ key x = h ∧
    ∀ s y, o <= s < o + n → get_at sorted s = Some y → key y = h → o' <= s < o' + n'.
Proof using Hsorted.
  induction e as [| e IH]; intros n o i fuel h j Hh Hi Hf Hj; (destruct fuel as [| fuel]; [lia |]);
    pose proof Hh as Hroot; cbn [holds bst_search_loop] in Hh, Hj; destruct Hh as [(x & Hx & Hsx) Hh]; rewrite Hx in Hj;
    pose proof (get_at_Some_lt _ _ _ Hx) as Hlt; set (m := bst_mid n _) in *; clearbody m.
  - destruct Hh as (-> & -> & Hl & Hr). destruct (Z.compare_spec h (key x)) as [-> | |].
    + injection Hj as <-. exists O, 1, o, x. split; [done |]. split; [lia |]. split; [lia |]. split; [lia |]. done.
    + by rewrite search_none in Hj.
    + by rewrite search_none in Hj.
  - destruct Hh as (Hm & Hl & Hr). destruct (Z.compare_spec h (key x)) as [-> | Hc | Hc].
    + injection Hj as <-. exists (S e), n, o, x. split; [done |]. split; [lia |]. split; [lia |]. split; [lia |]. done.
    + destruct (Z.ltb_spec 0 m); [| by rewrite search_none in Hj]. rewrite (Z.mul_comm 2 i) in Hj.
      destruct (IH m o (i * 2 + 1) fuel h j Hl ltac:(lia) ltac:(lia) Hj) as (e' & n' & o' & z & H1 & H2 & H3 & H4 & H5 & H6 & H7).
      exists e', n', o', z. split; [done |]. split; [lia |]. split; [lia |]. split; [lia |]. split; [done |]. split; [done |].
      intros s y Hs Hy Hk. apply (H7 s y); [| done | done]. destruct (Z.ltb_spec s (o + m)); [lia |].
      pose proof (Hsorted (o + m) s x y Hsx Hy ltac:(lia)). lia.
    + destruct (Z.ltb_spec (m + 1) n); [| by rewrite search_none in Hj]. rewrite (Z.mul_comm 2 i) in Hj.
      destruct (IH (n - m - 1) (o + m + 1) (i * 2 + 2) fuel h j Hr ltac:(lia) ltac:(lia) Hj) as (e' & n' & o' & z & H1 & H2 & H3 & H4 & H5 & H6 & H7).
      exists e', n', o', z. split; [done |]. split; [lia |]. split; [lia |]. split; [lia |]. split; [done |]. split; [done |].
      intros s y Hs Hy Hk. apply (H7 s y); [| done | done]. destruct (Z.ltb_spec (o + m) s); [lia |].
      pose proof (Hsorted s (o + m) y x Hy Hsx ltac:(lia)). lia.
Qed.

(** Skipping that item, the search finds a second one exactly when there is one. *)
Lemma search_second e n o i fuel x :
  holds e n o i → 0 <= i → (Z.to_nat (zlen tree - i) < fuel)%nat → get_at tree i = Some x →
  let mid := o + bst_mid n e in
  get_at sorted mid = Some x ∧
  match bst_search_loop fuel tree i 1 (λ item, Z.compare (key x) (key item)) with
  | Some j => ∃ s y, s ≠ mid ∧ get_at tree j = Some y ∧ get_at sorted s = Some y ∧ key y = key x
  | None => ∀ s y, o <= s < o + n → s ≠ mid → get_at sorted s = Some y → key y ≠ key x
  end.
Proof using Hsorted.
  intros Hh Hi Hf Hx mid. destruct fuel as [| fuel]; [lia |]. pose proof (get_at_Some_lt _ _ _ Hx) as Hlt.
  destruct e as [| e]; cbn [holds bst_search_loop] in Hh |- *; destruct Hh as [(x' & Hx' & Hsx) Hh];
    rewrite Hx in Hx'; injection Hx' as <-; (split; [done |]); rewrite Hx, Z.compare_refl; cbn [Z.eqb]; cbv zeta; change (1 - 1) with 0; replace (2 * i + 1 + 1) with (2 * i + 2) by lia.
  - destruct Hh as (Hm & -> & Hl & Hr). rewrite !search_none by done. intros s y Hs Hne. exfalso. apply Hne. unfold mid. lia.
  - destruct Hh as (Hm & Hl & Hr). set (m := bst_mid n (S e)) in *.
    assert (match bst_search_loop fuel tree (2 * i + 1) 0 (λ item, Z.compare (key x) (key item)) with
            | Some j => ∃ s y, s ≠ mid ∧ get_at tree j = Some y ∧ get_at sorted s = Some y ∧ key y = key x
            | None => ∀ s y, o <= s < o + m → get_at sorted s = Some y → key y ≠ key x end) as Hleft.
    { destruct (Z.ltb_spec 0 m); [| rewrite search_none by done; intros; lia]. rewrite (Z.mul_comm 2 i).
      pose proof (search_holds e m o (i * 2 + 1) fuel (key x) Hl ltac:(lia) ltac:(lia)) as Hs.
      destruct (bst_search_loop _ _ _ _ _); [| exact Hs]. destruct Hs as (s & y & ? & ? & ? & ?). exists s, y. split; [lia | done]. }
    assert (match bst_search_loop fuel tree (2 * i + 2) 0 (λ item, Z.compare (key x) (key item)) with
            | Some j => ∃ s y, s ≠ mid ∧ get_at tree j = Some y ∧ get_at sorted s = Some y ∧ key y = key x
            | None => ∀ s y, o + m < s < o + n → get_at sorted s = Some y → key y ≠ key x end) as Hright.
    { destruct (Z.ltb_spec (m + 1) n); [| rewrite search_none by done; intros; lia]. rewrite (Z.mul_comm 2 i).
      pose proof (search_holds e (n - m - 1) (o + m + 1) (i * 2 + 2) fuel (key x) Hr ltac:(lia) ltac:(lia)) as Hs.
      destruct (bst_search_loop fuel tree (i * 2 + 2) 0 _).
      - destruct Hs as (s & y & ? & ? & ? & ?). exists s, y. split; [lia | done].
      - intros s y ? ?. apply (Hs s y); [lia | done]. }
    destruct (bst_search_loop fuel tree (2 * i + 1) 0 _); [exact Hleft |].
    destruct (bst_search_loop fuel tree (2 * i + 2) 0 _); [exact Hright |].
    intros s y Hs Hne Hy. destruct (Z.lt_trichotomy s mid) as [? | [? | ?]]; [| done |].
    + apply (Hleft s y); [lia | done].
    + apply (Hright s y); [lia | done].
Qed.

(** Of the items with a hash, a table laid out by [bst_copy] gives the first
    and the second. *)
Lemma bst_search_copied_twice h :
  zlen tree = zlen sorted →
  (∀ s j, (s, j) ∈ bst_copy (zlen sorted) → get_at tree j = get_at sorted s) →
  ∀ first, bst_search_by tree 0 0 (λ item, Z.compare h (key item)) = Some first →
  ∃ s x, get_at tree first = Some x ∧ get_at sorted s = Some x ∧ key x = h ∧
    match bst_search_by tree first 1 (λ item, Z.compare h (key item)) with
    | Some j => ∃ s' y, s' ≠ s ∧ get_at tree j = Some y ∧ get_at sorted s' = Some y ∧ key y = h
    | None => ∀ s' y, s' ≠ s → get_at sorted s' = Some y → key y ≠ h
    end.
Proof using Hsorted.
  intros Hlen Hc first Hfirst. unfold bst_search_by in *. pose proof (zlen_nonneg sorted) as Hnn. unfold bst_copy in Hc.
  destruct (Z.eqb_spec (zlen sorted) 0) as [Hz | Hz].
  { rewrite search_none in Hfirst by (apply get_at_None; lia). done. }
  pose proof (holds_copied (Z.to_nat (Z.log2 (zlen sorted))) 0 (zlen sorted) 0 0
    ltac:(rewrite Hlen; apply root_shape; lia) ltac:(lia) ltac:(lia) Hc) as Hh.
  destruct (search_subtree _ (zlen sorted) 0 0 (S (length tree)) h first Hh ltac:(lia) ltac:(unfold zlen; lia) Hfirst)
    as (e & n & o & x & Hsub & Ho & Hn & Hj & Hx & Hk & Hin).
  destruct (search_second e n o first (S (length tree)) x Hsub ltac:(lia) ltac:(unfold zlen; lia) Hx) as [Hsx Hs].
  rewrite Hk in Hs. eexists _, x. split; [done |]. split; [exact Hsx |]. split; [done |].
  destruct (bst_search_loop _ _ _ 1 _); [exact Hs |]. intros s' y Hne Hy Hyk. apply (Hs s' y); try done.
  apply (Hin s' y); [| done | done]. apply get_at_Some_lt in Hy. lia.
Qed.
End search.

(** Searching twice past equal hashes misses the third of three entries
    with the same hash: the skip count is spent on the way down both
    subtrees, so an entry whose name hash collides with two siblings cannot
    be looked up although it is in the table. *)
Theorem bst_search_misses_third (x : Z) :
  bst_search_by [x; x; x] 0 0 (λ item, Z.compare x item) = Some 0 ∧
  bst_search_by [x; x; x] 0 1 (λ item, Z.compare x item) = Some 1 ∧
  bst_search_by [x; x; x] 0 2 (λ item, Z.compare x item) = None.
Proof.
  assert (∀ cmp : Z → comparison, cmp x = Eq →
    bst_search_by [x; x; x] 0 0 cmp = Some 0 ∧ bst_search_by [x; x; x] 0 1 cmp = Some 1 ∧
    bst_search_by [x; x; x] 0 2 cmp = None) as H; [| apply (H (λ item, Z.compare x item)), Z.compare_refl].
  intros cmp Hx. unfold bst_search_by. repeat split; lazy; by rewrite ?Hx.
Qed.
