(* ===== verification/PxarEncoder.v ===== *)
(** * PxarEncoder: writing a pxar archive (pbs-client/src/pxar/encoder.rs)

    The encoder keeps a stack of open directories, each with the goodbye items
    of the entries written into it, and the position in the output; closing a
    directory writes its goodbye table. *)
From S2P Require Import Prelude IoModel Paths PxarFormat GoodbyeTree.

Definition COPY_BUF_SIZE : Z := 128 * 1024.

(** [sort_unstable_by_key] leaves the order of equal keys open; insertion sort
    is one of its implementations. *)
Fixpoint insert_by_key {A} (key : A → Z) (x : A) (l : list A) : list A :=
  match l with
  | [] => [x]
  | y :: l => if key x <=? key y then x :: y :: l else y :: insert_by_key key x l
  end.
Definition sort_unstable_by_key {A} (key : A → Z) (l : list A) : list A :=
  foldr (insert_by_key key) [] l.

Definition write_slot (tree : list GoodbyeItem) (dest : Z) (item : GoodbyeItem) : list GoodbyeItem :=
  <[Z.to_nat dest := item]> tree.

(** One call of the closure handed to [bst_copy]: the tree, and the error. *)
Definition copy_item (sorted : list GoodbyeItem) (goodbye_offset : Z)
    (acc : list GoodbyeItem * option io_error) (call : Z * Z) : list GoodbyeItem * option io_error :=
  let '(tree, error) := acc in
  let '(src, dest) := call in
  match get_at sorted src, get_at tree dest with
  | Some item, Some _ =>
      let offset := saturating_sub goodbye_offset (gi_offset item) in
      (write_slot tree dest (mk_GoodbyeItem (gi_hash item) offset (gi_size item)), error)
  | _, _ => (tree, Some (IoOther "pxar: goodbye table permutation out of range"))
  end.

Definition build_goodbye_table (items : list GoodbyeItem) (goodbye_offset entry_offset : Z) :
    result io_error bytes :=
  let sorted := sort_unstable_by_key gi_hash items in
  let n := zlen sorted in
  let tree := replicate (Z.to_nat n) GoodbyeItem_default in
  let '(tree, error) := fold_left (copy_item sorted goodbye_offset) (bst_copy n) (tree, None) in
  match error with
  | Some err => Err err
  | None =>
      let goodbye_size := u64_mul (n + 1) GOODBYE_ITEM_SIZE +u HEADER_SIZE in
      let out := concat (map GoodbyeItem_to_le_bytes tree) in
      let tail := mk_GoodbyeItem PXAR_GOODBYE_TAIL_MARKER
                    (saturating_sub goodbye_offset entry_offset) goodbye_size in
      Ok (out ++ GoodbyeItem_to_le_bytes tail)
  end.

Record DirState : Type := mk_DirState {
  ds_items : list GoodbyeItem;
  ds_entry_offset : Z;
  ds_file_offset : option Z;
  ds_file_hash : Z;
}.

(** [enc_stack] is the [Vec] of open directories, innermost first. *)
Record Encoder (W : Type) : Type := mk_Encoder {
  enc_out : W;
  enc_pos : Z;
  enc_stack : list DirState;
  enc_finished : bool;
}.
Arguments mk_Encoder {W} _ _ _ _.
Arguments enc_out {W} _.
Arguments enc_pos {W} _.
Arguments enc_stack {W} _.
Arguments enc_finished {W} _.

Section encoder.
(** The siphasher crate: the keyed hash of a name. *)
Context (sip_hash : Z → Z → bytes → Z).

Definition hash_filename (name : bytes) : Z := sip_hash PXAR_HASH_KEY_1 PXAR_HASH_KEY_2 name.

Context {W : Type} `{Write W}.

Definition enc_write_all (buf : bytes) : stt (Encoder W) io_error unit :=
  _ ← zoom enc_out (λ w s, mk_Encoder w (enc_pos s) (enc_stack s) (enc_finished s)) (write_all buf);
  modify (λ s, mk_Encoder (enc_out s) (enc_pos s +u zlen buf) (enc_stack s) (enc_finished s)).

Definition write_header (htype content_size : Z) : stt (Encoder W) io_error unit :=
  _ ← enc_write_all (to_le_bytes 8 htype);
  enc_write_all (to_le_bytes 8 (content_size +u HEADER_SIZE)).

Definition encode_filename (name : bytes) : stt (Encoder W) io_error unit :=
  _ ← lift (validate_filename name);
  _ ← write_header PXAR_FILENAME (zlen name +u 1);
  _ ← enc_write_all name;
  enc_write_all [0].

Definition encode_metadata (metadata : Metadata) : stt (Encoder W) io_error unit :=
  let stat := stat metadata in
  _ ← write_header PXAR_ENTRY STAT_SIZE;
  _ ← enc_write_all (to_le_bytes 8 (st_mode stat));
  _ ← enc_write_all (to_le_bytes 8 (st_flags stat));
  _ ← enc_write_all (to_le_bytes 4 (st_uid stat));
  _ ← enc_write_all (to_le_bytes 4 (st_gid stat));
  _ ← enc_write_all (to_le_bytes 8 (ts_secs (st_mtime stat)));
  _ ← enc_write_all (to_le_bytes 4 (ts_nanos (st_mtime stat)));
  enc_write_all (to_le_bytes 4 0).

Definition push_dir (d : DirState) : stt (Encoder W) io_error unit :=
  modify (λ s, mk_Encoder (enc_out s) (enc_pos s) (d :: enc_stack s) (enc_finished s)).

Definition from_std (out : W) (root_metadata : Metadata) : result io_error (Encoder W) :=
  if negb (is_dir root_metadata) then Err (IoOther "pxar: root metadata must describe a directory") else
  match (encode_metadata root_metadata ≫= λ _, push_dir (mk_DirState [] 0 None 0))
          (mk_Encoder out 0 [] false) with
  | (Ok _, this) => Ok this
  | (Err e, _) => Err e
  end.

Definition get_pos : stt (Encoder W) io_error Z := λ s, (Ok (enc_pos s), s).

Definition create_directory (name : bytes) (metadata : Metadata) : stt (Encoder W) io_error unit :=
  if negb (is_dir metadata) then throw (IoOther "pxar: directory metadata must describe a directory") else
  file_offset ← get_pos;
  _ ← encode_filename name;
  entry_offset ← get_pos;
  _ ← encode_metadata metadata;
  push_dir (mk_DirState [] entry_offset (Some file_offset) (hash_filename name)).

Definition add_item (item : GoodbyeItem) (d : DirState) : DirState :=
  mk_DirState (ds_items d ++ [item]) (ds_entry_offset d) (ds_file_offset d) (ds_file_hash d).

Definition push_item (name : bytes) (file_offset : Z) : stt (Encoder W) io_error unit := λ s,
  match enc_stack s with
  | [] => (Err (IoOther "pxar: entry written outside of a directory"), s)
  | state :: rest =>
      let item := mk_GoodbyeItem (hash_filename name) file_offset (enc_pos s -u file_offset) in
      (Ok tt, mk_Encoder (enc_out s) (enc_pos s) (add_item item state :: rest) (enc_finished s))
  end.

Definition add_symlink (metadata : Metadata) (name target : bytes) : stt (Encoder W) io_error unit :=
  file_offset ← get_pos;
  _ ← encode_filename name;
  _ ← encode_metadata metadata;
  let data := target ++ [0] in
  _ ← write_header PXAR_SYMLINK (zlen data);
  _ ← enc_write_all data;
  push_item name file_offset.

(** The end of [finish]: the item of the closed directory goes to its parent. *)
Definition finish_in_parent (state : DirState) : stt (Encoder W) io_error unit := λ s,
  match enc_stack s with
  | [] => (Ok tt, s)
  | parent :: rest =>
      match ds_file_offset state with
      | None => (Err (IoOther "pxar: nested directory without a file offset"), s)
      | Some file_offset =>
          let item := mk_GoodbyeItem (ds_file_hash state) file_offset (enc_pos s -u file_offset) in
          (Ok tt, mk_Encoder (enc_out s) (enc_pos s) (add_item item parent :: rest) (enc_finished s))
      end
  end.

Definition pop_dir : stt (Encoder W) io_error DirState := λ s,
  match enc_stack s with
  | [] => (Err (IoOther "pxar: finish called with no open directory"), s)
  | state :: stack => (Ok state, mk_Encoder (enc_out s) (enc_pos s) stack (enc_finished s))
  end.

Definition enc_finish : stt (Encoder W) io_error unit :=
  state ← pop_dir;
  goodbye_offset ← get_pos;
  table ← lift (build_goodbye_table (ds_items state) goodbye_offset (ds_entry_offset state));
  _ ← write_header PXAR_GOODBYE (zlen table);
  _ ← enc_write_all table;
  finish_in_parent state.

Definition enc_close (self : Encoder W) : result io_error (Encoder W) :=
  match enc_stack self with
  | _ :: _ => Err (IoOther "pxar: close with directories still open")
  | [] =>
      match flush (enc_out self) with
      | (Ok _, out) => Ok (mk_Encoder out (enc_pos self) [] true)
      | (Err e, _) => Err e
      end
  end.

Context {R : Type} `{Read R}.

Definition on_encoder {A} (m : stt (Encoder W) io_error A) : stt (Encoder W * R) io_error A :=
  zoom fst (λ e s, (e, snd s)) m.
Definition on_content {A} (m : stt R io_error A) : stt (Encoder W * R) io_error A :=
  zoom snd (λ r s, (fst s, r)) m.

(** Each turn consumes at least one byte of [size]. *)
Fixpoint copy_exact_loop (fuel : nat) (size : Z) : stt (Encoder W * R) io_error unit :=
  if size <=? 0 then mret tt else
  match fuel with
  | O => throw (IoOther "pxar: file content ended before the declared size")
  | S fuel =>
      let want := Z.min size COPY_BUF_SIZE in
      got ← on_content (read want);
      if zlen got =? 0 then throw (IoOther "pxar: file content ended before the declared size") else
      if want <? zlen got then throw (IoOther "pxar: short read past buffer") else
      _ ← on_encoder (enc_write_all got);
      copy_exact_loop fuel (size - zlen got)
  end.
Definition copy_exact (size : Z) : stt (Encoder W * R) io_error unit := copy_exact_loop (Z.to_nat size) size.

Definition enc_add_file (metadata : Metadata) (name : bytes) (size : Z) : stt (Encoder W * R) io_error unit :=
  file_offset ← on_encoder get_pos;
  _ ← on_encoder (encode_filename name);
  _ ← on_encoder (encode_metadata metadata);
  _ ← on_encoder (write_header PXAR_PAYLOAD size);
  _ ← copy_exact size;
  on_encoder (push_item name file_offset).
End encoder.
