(* ===== verification/PxarTree.v ===== *)
(** * PxarTree: pxar archives as file trees

    The specification of an archive: a tree of directories, files and
    symlinks, and the bytes it is stored as; and the theorem that the encoder
    writes those bytes. *)
From S2P Require Import Prelude IoModel Paths PxarFormat GoodbyeTree PxarEncoder.

(** ** The goodbye table *)

Lemma insert_by_key_perm {A} (key : A → Z) x l : insert_by_key key x l ≡ₚ x :: l.
Proof.
  induction l as [| y l IH]; cbn; [done |]. destruct (key x <=? key y); [done |].
  rewrite IH. apply Permutation_swap.
Qed.

Lemma sort_perm {A} (key : A → Z) l : sort_unstable_by_key key l ≡ₚ l.
Proof. induction l as [| x l IH]; cbn; [done |]. rewrite insert_by_key_perm. by f_equiv. Qed.

Inductive sorted_by {A} (key : A → Z) : list A → Prop :=
  | sorted_nil : sorted_by key []
  | sorted_cons x l : (∀ y, y ∈ l → key x <= key y) → sorted_by key l → sorted_by key (x :: l).

Lemma insert_by_key_sorted {A} (key : A → Z) x l : sorted_by key l → sorted_by key (insert_by_key key x l).
Proof.
  induction 1 as [| y l Hy Hl IH]; cbn; [constructor; [by intros ? ?%not_elem_of_nil | constructor] |].
  destruct (Z.leb_spec (key x) (key y)).
  - constructor; [| by constructor]. intros z [-> | Hz]%elem_of_cons; [done |].
    specialize (Hy z Hz). lia.
  - constructor; [| done]. intros z Hz. rewrite insert_by_key_perm in Hz.
    apply elem_of_cons in Hz as [-> | Hz]; [lia | by apply Hy].
Qed.

Lemma sort_sorted {A} (key : A → Z) l : sorted_by key (sort_unstable_by_key key l).
Proof. induction l as [| x l IH]; cbn; [constructor | by apply insert_by_key_sorted]. Qed.

Lemma sorted_by_get {A} (key : A → Z) l : sorted_by key l → ∀ a b x y,
  get_at l a = Some x → get_at l b = Some y → a <= b → key x <= key y.
Proof.
  assert (∀ l i (x : A), get_at l i = Some x → x ∈ l) as Hin.
  { intros l' i x. unfold get_at. destruct (0 <=? i); [apply list_elem_of_lookup_2 | done]. }
  induction 1 as [| z l Hz Hl IH]; intros a b x y Ha Hb Hab.
  - by apply Hin, not_elem_of_nil in Ha.
  - pose proof (get_at_Some_lt _ _ _ Ha). pose proof (get_at_Some_lt _ _ _ Hb).
    assert (∀ i w, 0 < i → get_at (z :: l) i = Some w → get_at l (i - 1) = Some w) as Htl.
    { intros i w Hi. unfold get_at. destruct (Z.leb_spec 0 i), (Z.leb_spec 0 (i - 1)); try lia.
      replace (Z.to_nat i) with (S (Z.to_nat (i - 1))) by lia. done. }
    destruct (Z.eqb_spec a 0) as [-> |].
    + unfold get_at in Ha. cbn in Ha. injection Ha as <-. destruct (Z.eqb_spec b 0) as [-> |].
      * unfold get_at in Hb. cbn in Hb. injection Hb as <-. lia.
      * apply Hz. apply (Hin l (b - 1)). apply Htl; [lia | done].
    + apply (IH (a - 1) (b - 1)); [apply Htl; [lia | done] | apply Htl; [lia | done] | lia].
Qed.

(** The item as the table stores it: its offset counts back from the table. *)
Definition table_item (goodbye_offset : Z) (item : GoodbyeItem) : GoodbyeItem :=
  mk_GoodbyeItem (gi_hash item) (saturating_sub goodbye_offset (gi_offset item)) (gi_size item).

Lemma get_at_write_slot tree d x i :
  0 <= d < zlen tree → 0 <= i → get_at (write_slot tree d x) i = if i =? d then Some x else get_at tree i.
Proof.
  intros Hd Hi. unfold get_at, write_slot, zlen in *. destruct (Z.leb_spec 0 i); [| lia].
  destruct (Z.eqb_spec i d) as [-> |].
  - apply list_lookup_insert_eq. lia.
  - apply list_lookup_insert_ne. lia.
Qed.

Lemma zlen_write_slot tree d x : zlen (write_slot tree d x) = zlen tree.
Proof. unfold zlen, write_slot. by rewrite length_insert. Qed.

Lemma copy_items_ok sorted g calls : ∀ tree,
  (∀ s d, (s, d) ∈ calls → 0 <= s < zlen sorted ∧ 0 <= d < zlen tree) → NoDup (map snd calls) →
  ∃ tree', fold_left (copy_item sorted g) calls (tree, None) = (tree', None) ∧
    zlen tree' = zlen tree ∧
    (∀ s d, (s, d) ∈ calls → get_at tree' d = table_item g <$> get_at sorted s) ∧
    (∀ d, 0 <= d → d ∉ map snd calls → get_at tree' d = get_at tree d) ∧
    (∀ y, y ∈ tree' → y ∈ tree ∨ ∃ x, x ∈ sorted ∧ y = table_item g x).
Proof.
  induction calls as [| [s d] calls IH]; intros tree Hin Hnd.
  - exists tree. split; [done |]. split; [done |]. split; [by intros ? ? ?%not_elem_of_nil |]. split; [done | by left].
  - cbn [map snd] in Hnd. apply list.NoDup_cons in Hnd as [Hd Hnd].
    destruct (Hin s d ltac:(by left)) as [Hs Hdr].
    destruct (get_at_lt sorted s Hs) as (item & Hitem). destruct (get_at_lt tree d Hdr) as (old & Hold).
    cbn [fold_left copy_item]. rewrite Hitem, Hold.
    destruct (IH (write_slot tree d (table_item g item))) as (tree' & Hf & Hlen & Hc & Ho & Hall).
    + intros s' d' Hin'. rewrite zlen_write_slot. apply Hin. by right.
    + done.
    + exists tree'. split; [exact Hf |]. rewrite zlen_write_slot in Hlen. split; [done |]. split.
      * intros s' d' [[= -> ->] | Hin']%elem_of_cons; [| by apply Hc].
        rewrite Ho, get_at_write_slot by (done || lia). by rewrite Z.eqb_refl, Hitem.
      * split; [intros d' Hd' Hni; apply not_elem_of_cons in Hni as [Hne Hni];
          rewrite Ho, get_at_write_slot by (done || lia); cbn in Hne; by destruct (Z.eqb_spec d' d) |].
        intros y Hy. destruct (Hall y Hy) as [Hin' | ?]; [| by right].
        apply list_elem_of_lookup in Hin' as (i & [(_ & <- & _) | (_ & ?)]%list_lookup_insert_Some);
          [right; exists item | left; by eapply list_elem_of_lookup_2].
        split; [| done]. unfold get_at in Hitem. destruct (0 <=? s); [by apply list_elem_of_lookup_2 in Hitem | done].
Qed.

(** A list without the item at one place *)
Lemma get_at_rest {A} (l : list A) i x : get_at l i = Some x →
  ∃ rest, l ≡ₚ x :: rest ∧ (∀ j y, j ≠ i → get_at l j = Some y → y ∈ rest) ∧ (∀ y, y ∈ rest → ∃ j, j ≠ i ∧ get_at l j = Some y).
Proof.
  unfold get_at. destruct (Z.leb_spec 0 i); [| done]. intros Hx. exists (delete (Z.to_nat i) l).
  split; [by apply delete_Permutation |]. split.
  - intros j y Hne Hy. destruct (Z.leb_spec 0 j); [| done]. apply list_elem_of_lookup.
    destruct (decide (Z.to_nat j < Z.to_nat i)%nat).
    + exists (Z.to_nat j). by rewrite list_lookup_delete_lt.
    + exists (pred (Z.to_nat j)). rewrite list_lookup_delete_ge by lia. by replace (S (pred (Z.to_nat j))) with (Z.to_nat j) by lia.
  - intros y [k Hk]%list_elem_of_lookup. destruct (decide (k < Z.to_nat i)%nat).
    + exists (Z.of_nat k). split; [lia |]. destruct (Z.leb_spec 0 (Z.of_nat k)); [| lia].
      by rewrite Nat2Z.id, list_lookup_delete_lt in *.
    + exists (Z.of_nat (S k)). split; [lia |]. destruct (Z.leb_spec 0 (Z.of_nat (S k))); [| lia].
      rewrite list_lookup_delete_ge in Hk by lia. by rewrite Nat2Z.id.
Qed.

(** Every node of the tree is written. *)
Lemma bst_copy_covers n d : 0 <= d < n → ∃ s, (s, d) ∈ bst_copy n.
Proof.
  intros Hd. pose proof (bst_copy_ok n ltac:(lia)) as [_ Hdest Hnd Hlen].
  assert (map snd (bst_copy n) ≡ₚ seqZ 0 n) as Hperm.
  { apply submseteq_length_Permutation.
    - apply NoDup_submseteq; [done |]. intros j Hj. apply list_elem_of_fmap in Hj as ([s j'] & -> & Hin).
      apply Hdest in Hin as [? _]. apply elem_of_seqZ. cbn. lia.
    - rewrite length_seqZ, length_map. unfold zlen in Hlen. lia. }
  assert (d ∈ map snd (bst_copy n)) as Hin by (rewrite Hperm; apply elem_of_seqZ; lia).
  apply list_elem_of_fmap in Hin as ([s d'] & -> & Hin). by exists s.
Qed.

(** The table of a directory: a search tree of its items, then the tail.  A
    search finds an item with a hash if there is one, and skipping it a second
    one if there is one. *)
Lemma build_goodbye_table_ok items g e :
  (zlen items + 1) * GOODBYE_ITEM_SIZE + HEADER_SIZE < 2 ^ 64 →
  ∃ tree, build_goodbye_table items g e =
      Ok (concat (map GoodbyeItem_to_le_bytes tree) ++
          GoodbyeItem_to_le_bytes (mk_GoodbyeItem PXAR_GOODBYE_TAIL_MARKER (saturating_sub g e)
            ((zlen items + 1) * GOODBYE_ITEM_SIZE + HEADER_SIZE))) ∧
    zlen tree = zlen items ∧
    (∀ h, match bst_search_by tree 0 0 (λ item, Z.compare h (gi_hash item)) with
          | Some j => ∃ x, get_at tree j = Some (table_item g x) ∧ x ∈ items ∧ gi_hash x = h
          | None => ∀ x, x ∈ items → gi_hash x ≠ h
          end) ∧
    (∀ y, y ∈ tree → ∃ x, x ∈ items ∧ y = table_item g x) ∧
    (∀ h first, bst_search_by tree 0 0 (λ item, Z.compare h (gi_hash item)) = Some first →
      ∃ x rest, items ≡ₚ x :: rest ∧ get_at tree first = Some (table_item g x) ∧ gi_hash x = h ∧
        match bst_search_by tree first 1 (λ item, Z.compare h (gi_hash item)) with
        | Some j => ∃ y, y ∈ rest ∧ get_at tree j = Some (table_item g y) ∧ gi_hash y = h
        | None => ∀ y, y ∈ rest → gi_hash y ≠ h
        end).
Proof.
  intros Hsize. unfold build_goodbye_table. pose proof (zlen_nonneg items).
  set (sorted := sort_unstable_by_key gi_hash items).
  assert (sorted ≡ₚ items) as Hperm by apply sort_perm.
  assert (zlen sorted = zlen items) as Hlen by (unfold zlen; by rewrite Hperm).
  pose proof (bst_copy_ok (zlen sorted) ltac:(lia)) as [Hsrc Hdest Hnd _].
  destruct (copy_items_ok sorted g (bst_copy (zlen sorted))
              (replicate (Z.to_nat (zlen sorted)) GoodbyeItem_default)) as (tree & Hf & Hl & Hc & _ & Hall).
  { intros s d Hin. rewrite zlen_replicate by lia. split; [apply Hsrc in Hin; lia | by apply Hdest in Hin as [? _]]. }
  { done. }
  rewrite zlen_replicate in Hl by lia.
  assert (zlen (map (table_item g) sorted) = zlen sorted) as Hlm by (unfold zlen; by rewrite length_map).
  assert (∀ a x, get_at (map (table_item g) sorted) a = Some x →
            ∃ y, get_at sorted a = Some y ∧ x = table_item g y) as Hm.
  { intros a x. unfold get_at. destruct (0 <=? a); [| done].
    change (map ?f ?l) with (f <$> l). rewrite list_lookup_fmap. intros Hx.
    apply fmap_Some in Hx. exact Hx. }
  assert (∀ a b x y, get_at (map (table_item g) sorted) a = Some x → get_at (map (table_item g) sorted) b = Some y →
            a <= b → gi_hash x <= gi_hash y) as Hmono.
  { intros a b x y (x' & Hx & ->)%Hm (y' & Hy & ->)%Hm Hab. cbn.
    by apply (sorted_by_get gi_hash sorted (sort_sorted _ _) a b x' y'). }
  assert (∀ s j, (s, j) ∈ bst_copy (zlen sorted) →
    get_at tree j = get_at (map (table_item g) sorted) s) as Hcopied.
  { intros s j Hin. rewrite (Hc s j Hin). unfold get_at. destruct (0 <=? s); [| done].
    change (map ?f ?l) with (f <$> l). by rewrite list_lookup_fmap. }
  cbv zeta. rewrite Hf. exists tree. split; [| split; [lia | split; [| split]]].
  - unfold GOODBYE_ITEM_SIZE, HEADER_SIZE in *. rewrite Hlen, u64_mul_small by (unfold in_u64; lia).
    rewrite u64_add_small by (unfold in_u64; lia). done.
  - intros h. pose proof (bst_search_copied gi_hash tree (map (table_item g) sorted) Hmono h) as Hs.
    rewrite Hlm in Hs. specialize (Hs ltac:(lia) Hcopied). destruct (bst_search_by _ _ _ _) as [j |].
    + destruct Hs as (x & Hj & Hx & Hk). apply list_elem_of_fmap in Hx as (y & -> & Hy).
      exists y. rewrite Hperm in Hy. done.
    + intros x Hx. apply (Hs (table_item g x)). apply list_elem_of_fmap. exists x. by rewrite Hperm.
  - intros y Hy. apply list_elem_of_lookup in Hy as [k Hk]. pose proof (lookup_lt_Some _ _ _ Hk) as Hkl.
    destruct (bst_copy_covers (zlen sorted) (Z.of_nat k)) as [s Hin]; [unfold zlen in *; lia |].
    pose proof (Hcopied s _ Hin) as Hys. unfold get_at at 1 in Hys. destruct (Z.leb_spec 0 (Z.of_nat k)); [| lia].
    rewrite Nat2Z.id, Hk in Hys. symmetry in Hys. apply Hm in Hys as (x & Hx & ->). exists x. split; [| done].
    rewrite <- Hperm. unfold get_at in Hx. destruct (0 <=? s); [by apply list_elem_of_lookup_2 in Hx | done].
  - intros h first Hfirst.
    destruct (bst_search_copied_twice gi_hash tree (map (table_item g) sorted) Hmono h ltac:(rewrite Hlm; lia)
                ltac:(by rewrite Hlm) first Hfirst) as (s & x' & Hx' & (x & Hx & ->)%Hm & Hk & Hs).
    destruct (get_at_rest sorted s x Hx) as (rest & Hp & Hin & Hout). exists x, rest.
    split; [by rewrite <- Hperm |]. split; [done |]. split; [done |]. destruct (bst_search_by tree first 1 _) as [j |].
    + destruct Hs as (s' & y' & Hne & Hj & (y & Hy & ->)%Hm & Hyk). exists y. split; [by eapply Hin | done].
    + intros y Hy. apply Hout in Hy as (s' & Hne & Hy). apply (Hs s' (table_item g y)); [done |].
      revert Hy. unfold get_at. destruct (0 <=? s'); [| done]. change (map ?f ?l) with (f <$> l). intros Hy.
      by rewrite list_lookup_fmap, Hy.
Qed.

(** ** Archives as trees *)

Inductive pnode : Type :=
  | PDir (name : bytes) (meta : Metadata) (children : list pnode)
  | PFile (name : bytes) (meta : Metadata) (content : bytes)
  | PLink (name : bytes) (meta : Metadata) (target : bytes).

Section pnode_ind.
Context (P : pnode → Prop).
Context (Hdir : ∀ name meta children, Forall P children → P (PDir name meta children)).
Context (Hfile : ∀ name meta content, P (PFile name meta content)).
Context (Hlink : ∀ name meta target, P (PLink name meta target)).
Fixpoint pnode_induction (n : pnode) : P n :=
  match n with
  | PDir name meta children =>
      Hdir name meta children
        ((fix go l := match l return Forall P l with
                      | [] => Forall_nil_2 P
                      | x :: l => Forall_cons_2 P x l (pnode_induction x) (go l)
                      end) children)
  | PFile name meta content => Hfile name meta content
  | PLink name meta target => Hlink name meta target
  end.
End pnode_ind.

Definition pnode_name (n : pnode) : bytes :=
  match n with PDir name _ _ | PFile name _ _ | PLink name _ _ => name end.

(** The fields fit their widths. *)
Definition metadata_ok (m : Metadata) : Prop :=
  in_u64 (st_mode (stat m)) ∧ in_u64 (st_flags (stat m)) ∧ in_u32 (st_uid (stat m)) ∧
  in_u32 (st_gid (stat m)) ∧ in_i64 (ts_secs (st_mtime (stat m))) ∧ in_u32 (ts_nanos (st_mtime (stat m))).

Fixpoint pnode_ok (n : pnode) : Prop :=
  match n with
  | PDir name meta children =>
      name_ok name ∧ metadata_ok meta ∧ is_dir meta = true ∧
      foldr (λ c P, pnode_ok c ∧ P) True children
  | PFile name meta _ | PLink name meta _ => name_ok name ∧ metadata_ok meta
  end.

Definition header_bytes (htype content_size : Z) : bytes :=
  to_le_bytes 8 htype ++ to_le_bytes 8 (content_size + HEADER_SIZE).
Definition filename_bytes (name : bytes) : bytes := header_bytes PXAR_FILENAME (zlen name + 1) ++ name ++ [0].
Definition stat_bytes (m : Metadata) : bytes :=
  to_le_bytes 8 (st_mode (stat m)) ++ to_le_bytes 8 (st_flags (stat m)) ++
  to_le_bytes 4 (st_uid (stat m)) ++ to_le_bytes 4 (st_gid (stat m)) ++
  to_le_bytes 8 (ts_secs (st_mtime (stat m))) ++ to_le_bytes 4 (ts_nanos (st_mtime (stat m))) ++
  to_le_bytes 4 0.
Definition metadata_bytes (m : Metadata) : bytes := header_bytes PXAR_ENTRY STAT_SIZE ++ stat_bytes m.
Definition goodbye_bytes (items : list GoodbyeItem) (goodbye_offset entry_offset : Z) : bytes :=
  match build_goodbye_table items goodbye_offset entry_offset with
  | Ok table => header_bytes PXAR_GOODBYE (zlen table) ++ table
  | Err _ => []
  end.

Section spec.
Context (sip_hash : Z → Z → bytes → Z).

(** The bytes of a node written at [pos], and its item in its parent. *)
Fixpoint pemit (n : pnode) (pos : Z) : bytes * GoodbyeItem :=
  let d :=
    match n with
    | PFile name meta content =>
        filename_bytes name ++ metadata_bytes meta ++ header_bytes PXAR_PAYLOAD (zlen content) ++ content
    | PLink name meta target =>
        filename_bytes name ++ metadata_bytes meta ++
        header_bytes PXAR_SYMLINK (zlen target + 1) ++ target ++ [0]
    | PDir name meta children =>
        let head := filename_bytes name ++ metadata_bytes meta in
        let '(data, items) :=
          (fix go cs pos :=
             match cs with
             | [] => ([], [])
             | c :: cs =>
                 let '(d, e) := pemit c pos in
                 let '(ds, es) := go cs (pos + zlen d) in (d ++ ds, e :: es)
             end) children (pos + zlen head) in
        head ++ data ++ goodbye_bytes items (pos + zlen head + zlen data) (pos + zlen (filename_bytes name))
    end in
  (d, mk_GoodbyeItem (hash_filename sip_hash (pnode_name n)) pos (zlen d)).

Fixpoint pemit_list (ns : list pnode) (pos : Z) : bytes * list GoodbyeItem :=
  match ns with
  | [] => ([], [])
  | n :: ns =>
      let '(d, e) := pemit n pos in
      let '(ds, es) := pemit_list ns (pos + zlen d) in (d ++ ds, e :: es)
  end.

Definition dir_bytes (name : bytes) (meta : Metadata) (children : list pnode) (pos : Z) : bytes :=
  let head := filename_bytes name ++ metadata_bytes meta in
  let '(data, items) := pemit_list children (pos + zlen head) in
  head ++ data ++ goodbye_bytes items (pos + zlen head + zlen data) (pos + zlen (filename_bytes name)).

Lemma pemit_dir name meta children pos :
  pemit (PDir name meta children) pos =
    let d := dir_bytes name meta children pos in
    (d, mk_GoodbyeItem (hash_filename sip_hash name) pos (zlen d)).
Proof.
  cbn [pemit pnode_name]. unfold dir_bytes.
  enough (∀ p, (fix go cs pos :=
             match cs with
             | [] => ([], [])
             | c :: cs =>
                 let '(d, e) := pemit c pos in
                 let '(ds, es) := go cs (pos + zlen d) in (d ++ ds, e :: es)
             end) children p = pemit_list children p) as -> by done.
  induction children as [| c cs IH]; intros p; [done |]. cbn [pemit_list].
  destruct (pemit c p) as [d e]. by rewrite IH.
Qed.

(** A whole archive: the root directory has no file name. *)
Definition archive_bytes (meta : Metadata) (children : list pnode) : bytes :=
  let head := metadata_bytes meta in
  let '(data, items) := pemit_list children (zlen head) in
  head ++ data ++ goodbye_bytes items (zlen head + zlen data) 0.

(** The calls a client makes to write a tree. *)
Context {W : Type} `{Write W} {R : Type} `{Read R} (reader_for : bytes → R).

Fixpoint write_pnode (n : pnode) : stt (Encoder W) io_error unit :=
  match n with
  | PDir name meta children =>
      create_directory sip_hash name meta ≫= λ _, foreach write_pnode children ≫= λ _, enc_finish
  | PFile name meta content => λ s,
      let '(r, (s, _)) := enc_add_file sip_hash meta name (zlen content) (s, reader_for content) in (r, s)
  | PLink name meta target => add_symlink sip_hash meta name target
  end.

Definition write_archive (out : W) (meta : Metadata) (children : list pnode) : result io_error W :=
  e ← from_std out meta;
  match (foreach write_pnode children ≫= λ _, enc_finish) e with
  | (Ok _, e) => e ← enc_close e; Ok (enc_out e)
  | (Err err, _) => Err err
  end.
End spec.

Lemma validate_filename_ok name : validate_filename name = Ok tt ↔ name_ok name.
Proof.
  unfold validate_filename, name_ok. repeat case_bool_decide; cbn; split; try done; naive_solver.
Qed.

Lemma zlen_header_bytes t n : zlen (header_bytes t n) = 16.
Proof. unfold header_bytes. by rewrite zlen_app, !zlen_to_le_bytes. Qed.
Lemma zlen_stat_bytes m : zlen (stat_bytes m) = STAT_SIZE.
Proof. unfold stat_bytes. by rewrite !zlen_app, !zlen_to_le_bytes. Qed.
Lemma zlen_metadata_bytes m : zlen (metadata_bytes m) = 56.
Proof. unfold metadata_bytes. by rewrite zlen_app, zlen_header_bytes, zlen_stat_bytes. Qed.
Lemma zlen_filename_bytes name : zlen (filename_bytes name) = zlen name + 17.
Proof. unfold filename_bytes. rewrite !zlen_app, zlen_header_bytes, zlen_cons, zlen_nil. lia. Qed.
#[export] Hint Rewrite @zlen_header_bytes @zlen_stat_bytes @zlen_metadata_bytes @zlen_filename_bytes : zlen.

(** ** Lemmas: the encoder refines [archive_bytes] *)

Section encoder_lemmas.
Context (sip_hash : Z → Z → bytes → Z).
Context {W : Type} `{WriteTotal W}.

(** [s'] is [s] after writing [d] and adding [items] to the open directory. *)
Definition emitted (s s' : Encoder W) (d : bytes) : Prop :=
  written (enc_out s') = written (enc_out s) ++ d ∧ enc_pos s' = enc_pos s + zlen d ∧
  enc_stack s' = enc_stack s ∧ enc_finished s' = enc_finished s.

Definition emits (m : stt (Encoder W) io_error unit) (d : bytes) : Prop := ∀ s,
  0 <= enc_pos s → enc_pos s + zlen d < 2 ^ 64 → ∃ s', m s = (Ok tt, s') ∧ emitted s s' d.

Lemma emits_write d : emits (enc_write_all d) d.
Proof.
  intros s Hp Hlen. unfold enc_write_all.
  destruct (write_all_total d (enc_out s)) as (w' & Hw).
  rewrite (stt_bind_ok _ _ _ _ _ (zoom_ok enc_out _ _ s _ _ Hw)).
  eexists. split; [done |]. apply write_all_law in Hw. unfold emitted. cbn.
  rewrite u64_add_small by zlen_lia. done.
Qed.

Lemma emits_bind m1 m2 d1 d2 : emits m1 d1 → emits m2 d2 → emits (m1 ≫= λ _, m2) (d1 ++ d2).
Proof.
  intros H1' H2' s Hp Hlen. rewrite zlen_app in Hlen. pose proof (zlen_nonneg d1). pose proof (zlen_nonneg d2).
  destruct (H1' s Hp ltac:(lia)) as (s1 & Hm1 & Hw1 & Hp1 & Hs1 & Hf1).
  destruct (H2' s1 ltac:(lia) ltac:(lia)) as (s2 & Hm2 & Hw2 & Hp2 & Hs2 & Hf2).
  exists s2. rewrite (stt_bind_ok _ _ _ _ _ Hm1). split; [done |]. unfold emitted.
  rewrite Hw2, Hw1, Hp2, Hp1, Hs2, Hs1, Hf2, Hf1, zlen_app, <- app_assoc.
  split; [done |]. split; [lia | done].
Qed.

Lemma emits_header t n : in_u64 (n + HEADER_SIZE) → emits (write_header t n) (header_bytes t n).
Proof.
  intros Hn. unfold write_header, header_bytes. rewrite u64_add_small by done.
  apply emits_bind; apply emits_write.
Qed.

Lemma emits_metadata m : emits (encode_metadata m) (metadata_bytes m).
Proof.
  unfold encode_metadata, metadata_bytes, stat_bytes.
  apply emits_bind; [apply emits_header; unfold in_u64, STAT_SIZE, HEADER_SIZE; lia |].
  repeat (apply emits_bind; [apply emits_write |]). apply emits_write.
Qed.

Lemma emits_filename name : name_ok name → zlen name + 17 < 2 ^ 64 →
  emits (encode_filename name) (filename_bytes name).
Proof.
  intros Hn Hlen. unfold encode_filename, filename_bytes. pose proof (zlen_nonneg name).
  rewrite (proj2 (validate_filename_ok name) Hn). rewrite u64_add_small by (unfold in_u64; lia).
  change (filename_bytes name) with ([] ++ filename_bytes name).
  intros s Hp Hl. rewrite (stt_bind_ok (lift _) _ s tt s) by done.
  revert s Hp Hl. change (emits (write_header PXAR_FILENAME (zlen name + 1) ≫= λ _,
    enc_write_all name ≫= λ _, enc_write_all [0])
    (header_bytes PXAR_FILENAME (zlen name + 1) ++ name ++ [0])).
  apply emits_bind; [apply emits_header; unfold in_u64, HEADER_SIZE; lia |].
  apply emits_bind; apply emits_write.
Qed.

Context {R : Type} {HR : Read R} {HRL : ReadLaws R}.

Lemma copy_exact_ok fuel : ∀ n s r,
  (Z.to_nat n <= fuel)%nat → 0 <= n <= zlen (remaining r) → 0 <= enc_pos s → enc_pos s + n < 2 ^ 64 →
  ∃ s' r', copy_exact_loop fuel n (s, r) = (Ok tt, (s', r')) ∧ emitted s s' (ztake n (remaining r)).
Proof.
  induction fuel as [| fuel IH]; intros n s r Hf Hn Hp Hmax; cbn [copy_exact_loop].
  - assert (n = 0) as -> by lia. exists s, r. split; [done |]. rewrite ztake_le by lia.
    unfold emitted. rewrite app_nil_r, zlen_nil. split; [done |]. split; [lia | done].
  - destruct (Z.leb_spec n 0).
    { exists s, r. split; [done |]. rewrite ztake_le by lia.
      unfold emitted. rewrite app_nil_r, zlen_nil. split; [done |]. split; [lia | done]. }
    set (want := Z.min n COPY_BUF_SIZE).
    assert (0 < want <= n) as Hw by (unfold want, COPY_BUF_SIZE; lia).
    destruct (read_law want r ltac:(lia)) as (k & r1 & Hread & Hrem & Hk & Hpos).
    assert (0 < k) as Hk0.
    { apply Hpos; [lia |]. intros Hnil. rewrite Hnil, (@zlen_nil Z) in Hn. lia. }
    rewrite (stt_bind_ok (on_content _) _ _ _ _ (zoom_ok snd _ _ (s, r) _ _ Hread)). cbv zeta. cbn [fst snd].
    assert (zlen (ztake k (remaining r)) = k) as Hlk by (rewrite zlen_ztake; lia).
    rewrite Hlk. destruct (Z.eqb_spec k 0); [lia |]. destruct (Z.ltb_spec want k); [lia |].
    destruct (emits_write (ztake k (remaining r)) s Hp ltac:(rewrite Hlk; lia)) as (s1 & Hw1 & He1).
    rewrite (stt_bind_ok (on_encoder _) _ _ _ _ (zoom_ok fst _ _ (s, r1) _ _ Hw1)). cbn [fst snd].
    destruct He1 as (E1 & E2 & E3 & E4). rewrite Hlk in E2.
    destruct (IH (n - k) s1 r1) as (s2 & r2 & Hc & F1 & F2 & F3 & F4);
      [lia | rewrite Hrem, zlen_zdrop; lia | lia | lia |].
    exists s2, r2. split; [exact Hc |]. unfold emitted.
    assert (ztake n (remaining r) = ztake k (remaining r) ++ ztake (n - k) (zdrop k (remaining r))) as Hsp.
    { rewrite <- ztake_add by lia. f_equal. lia. }
    rewrite F1, E1, F2, E2, F3, E3, F4, E4, Hsp, Hrem, zlen_app, Hlk, <- app_assoc.
    split; [done |]. split; [lia | done].
Qed.

Lemma build_goodbye_table_len items g e t : build_goodbye_table items g e = Ok t → zlen t = (zlen items + 1) * 24.
Proof using Type.
  unfold build_goodbye_table. destruct (fold_left _ _ _) as [tree err] eqn:Hf. destruct err; [done |].
  intros [= <-]. assert (zlen tree = zlen items) as Hl.
  { assert (∀ calls tree0 err0 tree1 err1, fold_left (copy_item (sort_unstable_by_key gi_hash items) g) calls
      (tree0, err0) = (tree1, err1) → zlen tree1 = zlen tree0) as Hx.
    { induction calls as [| [s d] calls IH]; intros tree0 err0 tree1 err1 Hfold; cbn in Hfold; [congruence |].
      destruct (get_at _ s), (get_at tree0 d); apply IH in Hfold; rewrite ?zlen_write_slot in Hfold; done. }
    apply Hx in Hf. rewrite Hf, zlen_replicate by apply zlen_nonneg. unfold zlen. by rewrite sort_perm. }
  rewrite zlen_app. assert (∀ x, zlen (GoodbyeItem_to_le_bytes x) = 24) as Hx.
  { intros x. unfold GoodbyeItem_to_le_bytes. by rewrite !zlen_app, !zlen_to_le_bytes. }
  rewrite Hx. assert (zlen (concat (map GoodbyeItem_to_le_bytes tree)) = 24 * zlen tree) as ->; [| lia].
  clear -Hx. induction tree as [| x tree IH]; [done |]. cbn. rewrite zlen_app, IH, Hx, zlen_cons. lia.
Qed.

Lemma pemit_len n pos : 73 + zlen (pnode_name n) <= zlen (fst (pemit sip_hash n pos)).
Proof using Type.
  destruct n as [name meta children | name meta content | name meta target]; cbn [pnode_name].
  - rewrite pemit_dir. cbn [fst]. unfold dir_bytes. destruct (pemit_list _ _ _). zlen_lia.
  - cbn. zlen_lia.
  - cbn. zlen_lia.
Qed.

Lemma pemit_list_len ns : ∀ pos, 73 * zlen (snd (pemit_list sip_hash ns pos)) <= zlen (fst (pemit_list sip_hash ns pos)).
Proof using Type.
  induction ns as [| n ns IH]; intros pos; [done |]. cbn [pemit_list].
  pose proof (pemit_len n pos) as H1'. pose proof (zlen_nonneg (pnode_name n)). destruct (pemit sip_hash n pos) as [d e].
  specialize (IH (pos + zlen d)). destruct (pemit_list sip_hash ns (pos + zlen d)) as [ds es].
  cbn in *. rewrite zlen_cons, zlen_app. lia.
Qed.

(** The items of the open directory, after writing into it. *)
Definition written_into (s s' : Encoder W) (d : bytes) (items : list GoodbyeItem) : Prop :=
  written (enc_out s') = written (enc_out s) ++ d ∧ enc_pos s' = enc_pos s + zlen d ∧
  enc_finished s' = enc_finished s ∧
  match enc_stack s with
  | [] => False
  | dir :: rest =>
      enc_stack s' = mk_DirState (ds_items dir ++ items) (ds_entry_offset dir)
                       (ds_file_offset dir) (ds_file_hash dir) :: rest
  end.

Context (reader_for : bytes → R) (reader_for_ok : ∀ c, remaining (reader_for c) = c).

Definition node_written (n : pnode) : Prop := ∀ (s : Encoder W) d item,
  enc_stack s ≠ [] → 0 <= enc_pos s → pnode_ok n →
  pemit sip_hash n (enc_pos s) = (d, item) → enc_pos s + zlen d < 2 ^ 64 →
  ∃ s', write_pnode sip_hash reader_for n s = (Ok tt, s') ∧ written_into s s' d [item].

Lemma push_item_ok name pos d0 (s0 s : Encoder W) item :
  emitted s0 s d0 → enc_stack s0 ≠ [] → pos = enc_pos s0 → 0 <= pos → pos + zlen d0 < 2 ^ 64 →
  item = mk_GoodbyeItem (hash_filename sip_hash name) pos (zlen d0) →
  ∃ s', push_item sip_hash name pos s = (Ok tt, s') ∧ written_into s0 s' d0 [item].
Proof.
  intros (E1 & E2 & E3 & E4) Hst -> Hpos Hmax ->. unfold push_item. rewrite E3.
  destruct (enc_stack s0) as [| dir rest] eqn:Hs; [done |]. eexists. split; [done |].
  unfold written_into. cbn. rewrite Hs, E1, E2, E4, u64_sub_small by zlen_lia.
  unfold add_item. replace (enc_pos s0 + zlen d0 - enc_pos s0) with (zlen d0) by lia. done.
Qed.

Lemma goodbye_written items pos e (s : Encoder W) :
  pos = enc_pos s → 0 <= pos → pos + zlen (goodbye_bytes items pos e) < 2 ^ 64 →
  (zlen items + 1) * GOODBYE_ITEM_SIZE + HEADER_SIZE < 2 ^ 64 →
  ∃ table, build_goodbye_table items pos e = Ok table ∧
  emits (write_header PXAR_GOODBYE (zlen table) ≫= λ _, enc_write_all table) (goodbye_bytes items pos e).
Proof.
  intros -> Hp Hmax Hn. destruct (build_goodbye_table_ok items (enc_pos s) e Hn) as (tree & Hb & _).
  unfold goodbye_bytes in *. rewrite Hb in *. eexists. split; [done |].
  set (table := _ ++ GoodbyeItem_to_le_bytes _) in *.
  rewrite zlen_app, zlen_header_bytes in Hmax.
  apply emits_bind; [apply emits_header; unfold HEADER_SIZE; zlen_lia | apply emits_write].
Qed.

Lemma foreach_written ns : Forall node_written ns → ∀ (s : Encoder W) d items,
  enc_stack s ≠ [] → 0 <= enc_pos s → Forall pnode_ok ns →
  pemit_list sip_hash ns (enc_pos s) = (d, items) → enc_pos s + zlen d < 2 ^ 64 →
  ∃ s', foreach (write_pnode sip_hash reader_for) ns s = (Ok tt, s') ∧ written_into s s' d items.
Proof.
  induction 1 as [| n ns Hn _ IH]; intros s d items Hst Hp Hok He Hmax.
  - injection He as <- <-. exists s. split; [done |]. unfold written_into.
    destruct (enc_stack s) as [| [i e f h] rest]; [done |]. rewrite app_nil_r, zlen_nil. cbn.
    rewrite app_nil_r. split; [done |]. split; [lia | done].
  - inversion Hok as [| ? ? Hokn Hokns]; subst. cbn [pemit_list] in He.
    destruct (pemit sip_hash n (enc_pos s)) as [d1 e1] eqn:He1.
    destruct (pemit_list sip_hash ns (enc_pos s + zlen d1)) as [d2 e2] eqn:He2. injection He as <- <-.
    rewrite zlen_app in Hmax. pose proof (zlen_nonneg d1). pose proof (zlen_nonneg d2).
    destruct (Hn s d1 e1 Hst Hp Hokn He1 ltac:(lia)) as (s1 & Hw & W1 & W2 & W3 & W4).
    destruct (enc_stack s) as [| dir rest] eqn:Hs; [done |]. rewrite <- W2 in He2.
    destruct (IH s1 d2 e2) as (s2 & Hf & F1 & F2 & F3 & F4); [by rewrite W4 | lia | done | done | lia |].
    rewrite W4 in F4. cbn in F4. exists s2. cbn [foreach]. rewrite (stt_bind_ok _ _ _ _ _ Hw).
    split; [done |]. unfold written_into. rewrite Hs, F1, W1, F2, W2, F3, W3, F4, zlen_app, <- !app_assoc.
    split; [done |]. split; [lia | done].
Qed.

(** Closing a directory whose contents start at [start] and whose entry is at
    [entry] writes its goodbye table. *)
Lemma finish_ok (s : Encoder W) items dir rest :
  enc_stack s = mk_DirState items (ds_entry_offset dir) (ds_file_offset dir) (ds_file_hash dir) :: rest →
  0 <= enc_pos s → (zlen items + 1) * GOODBYE_ITEM_SIZE + HEADER_SIZE < 2 ^ 64 →
  let g := goodbye_bytes items (enc_pos s) (ds_entry_offset dir) in
  enc_pos s + zlen g < 2 ^ 64 →
  ∃ s1, emitted (mk_Encoder (enc_out s) (enc_pos s) rest (enc_finished s)) s1 g ∧
        enc_finish s = finish_in_parent dir s1.
Proof.
  intros Hst Hp Hn g Hmax. set (s0 := mk_Encoder (enc_out s) (enc_pos s) rest (enc_finished s)).
  unfold enc_finish. rewrite (stt_bind_ok pop_dir _ s _ s0) by (unfold pop_dir; by rewrite Hst).
  rewrite (stt_bind_ok get_pos _ s0 (enc_pos s) s0) by done. cbn [ds_items ds_entry_offset].
  destruct (goodbye_written items (enc_pos s) (ds_entry_offset dir) s0 eq_refl Hp Hmax Hn) as (table & Ht & He).
  rewrite (stt_bind_ok (lift _) _ s0 table s0) by (unfold lift; by rewrite Ht).
  destruct (He s0 Hp Hmax) as (s1 & Hw & Hem). exists s1. split; [done |].
  apply stt_bind_inv in Hw as (a & s2 & Hh & Ha).
  rewrite (stt_bind_ok _ _ _ _ _ Hh), (stt_bind_ok _ _ _ _ _ Ha). done.
Qed.

Lemma items_bound ns pos d items :
  pemit_list sip_hash ns pos = (d, items) → zlen d < 2 ^ 64 →
  (zlen items + 1) * GOODBYE_ITEM_SIZE + HEADER_SIZE < 2 ^ 64.
Proof using Type.
  intros He Hd. pose proof (pemit_list_len ns pos) as Hl. rewrite He in Hl. cbn in Hl.
  pose proof (zlen_nonneg items). unfold GOODBYE_ITEM_SIZE, HEADER_SIZE. lia.
Qed.

Lemma create_directory_ok name meta (s : Encoder W) :
  name_ok name → is_dir meta = true → 0 <= enc_pos s →
  let head := filename_bytes name ++ metadata_bytes meta in
  enc_pos s + zlen head < 2 ^ 64 →
  ∃ s1, create_directory sip_hash name meta s = (Ok tt, s1) ∧
    written (enc_out s1) = written (enc_out s) ++ head ∧ enc_pos s1 = enc_pos s + zlen head ∧
    enc_finished s1 = enc_finished s ∧
    enc_stack s1 = mk_DirState [] (enc_pos s + zlen (filename_bytes name)) (Some (enc_pos s))
                     (hash_filename sip_hash name) :: enc_stack s.
Proof.
  intros Hname Hdir Hp head Hmax. pose proof (zlen_nonneg name).
  assert (zlen head = zlen name + 73) as Hhead by (unfold head; zlen_lia).
  unfold create_directory. rewrite Hdir. cbn [negb].
  rewrite (stt_bind_ok get_pos _ s (enc_pos s) s) by done.
  destruct (emits_filename name Hname ltac:(lia) s Hp ltac:(zlen_lia)) as (s2 & Hf & A1 & A2 & A3 & A4).
  rewrite (stt_bind_ok _ _ _ _ _ Hf), (stt_bind_ok get_pos _ s2 (enc_pos s2) s2) by done.
  destruct (emits_metadata meta s2) as (s3 & Hme & B1 & B2 & B3 & B4); [zlen_lia | zlen_lia |].
  rewrite (stt_bind_ok _ _ _ _ _ Hme). eexists. split; [done |]. cbn.
  unfold head. rewrite B1, A1, B2, A2, B3, A3, B4, A4, <- app_assoc.
  split; [done |]. split; [zlen_lia | done].
Qed.

Lemma node_written_dir name meta children :
  Forall node_written children → node_written (PDir name meta children).
Proof.
  intros IH s d item Hst Hp Hok He Hmax. pose proof (zlen_nonneg name) as Hnl.
  rewrite pemit_dir in He. cbv zeta in He. unfold dir_bytes in He.
  cbv zeta in He.
  destruct (pemit_list sip_hash children _) as [cd items] eqn:Hl. apply pair_eq in He as [<- <-].
  destruct Hok as (Hname & Hm & Hdir & Hc). set (head := filename_bytes name ++ metadata_bytes meta) in *.
  assert (zlen head = zlen name + 73) as Hhead by (unfold head; zlen_lia).
  set (g := goodbye_bytes items _ _) in *. rewrite !zlen_app in Hmax.
  pose proof (zlen_nonneg cd). pose proof (zlen_nonneg g).
  assert (Forall pnode_ok children) as Hcs.
  { clear -Hc. induction children as [| c cs IH]; [constructor |]. destruct Hc. constructor; [done | by apply IH]. }
  set (dir := mk_DirState [] (enc_pos s + zlen (filename_bytes name)) (Some (enc_pos s)) (hash_filename sip_hash name)).
  cbn [write_pnode].
  destruct (create_directory_ok name meta s) as (s1 & Hcd & C1 & C2 & C3 & C4); [done | done | done | |].
  { fold head. lia. }
  fold head dir in C1, C2, C4.
  rewrite (stt_bind_ok _ _ _ _ _ Hcd). rewrite <- C2 in Hl.
  destruct (foreach_written children IH s1 cd items) as (s4 & Hf & F1 & F2 & F3 & F4);
    [by rewrite C4 | lia | done | done | lia |].
  rewrite (stt_bind_ok _ _ _ _ _ Hf). rewrite C4 in F4. cbn [ds_items app] in F4.
  assert (g = goodbye_bytes items (enc_pos s4) (ds_entry_offset dir)) as Hg.
  { unfold g. cbn [ds_entry_offset dir]. f_equal. lia. }
  destruct (finish_ok s4 items dir (enc_stack s) F4) as (s5 & (G1 & G2 & G3 & G4) & Hfin).
  { lia. }
  { apply (items_bound children (enc_pos s1) cd); [done | lia]. }
  { rewrite <- Hg. lia. }
  rewrite <- Hg in *. cbn in G1, G2, G3, G4. rewrite Hfin. unfold finish_in_parent. rewrite G3.
  destruct (enc_stack s) as [| parent rest] eqn:Hs; [done |]. cbn [ds_file_offset dir].
  eexists. split; [done |]. unfold written_into. cbn. rewrite Hs, G1, F1, C1, G2, F2, C2, G4, F3, C3.
  rewrite !zlen_app, <- !app_assoc. unfold add_item.
  rewrite u64_sub_small by (unfold in_u64; lia).
  split; [done |]. split; [lia |]. split; [done |]. repeat f_equal. lia.
Qed.

Lemma node_written_file name meta content : node_written (PFile name meta content).
Proof using All.
  intros s d item Hst Hp Hok He Hmax. pose proof (zlen_nonneg name) as Hnl.
  cbn [pemit pnode_name] in He. apply pair_eq in He as [<- <-]. destruct Hok as (Hname & Hm).
  set (d := filename_bytes name ++ _) in *. cbn [write_pnode].
  assert (zlen d = zlen name + 89 + zlen content) as Hd by (unfold d; zlen_lia).
  pose proof (zlen_nonneg content).
  destruct (emits_filename name Hname ltac:(lia) s Hp ltac:(zlen_lia)) as (s1 & Hf & A1 & A2 & A3 & A4).
  destruct (emits_metadata meta s1) as (s2 & Hme & B1 & B2 & B3 & B4); [zlen_lia | zlen_lia |].
  destruct (emits_header PXAR_PAYLOAD (zlen content)) with s2 as (s3 & Hh & C1 & C2 & C3 & C4);
    [unfold in_u64, HEADER_SIZE; lia | zlen_lia | zlen_lia |].
  destruct (copy_exact_ok (Z.to_nat (zlen content)) (zlen content) s3 (reader_for content))
    as (s4 & r4 & Hc & D1 & D2 & D3 & D4); [lia | rewrite reader_for_ok; lia | zlen_lia | zlen_lia |].
  rewrite reader_for_ok, ztake_ge in D1, D2 by lia.
  destruct (push_item_ok name (enc_pos s) d s s4 (mk_GoodbyeItem (hash_filename sip_hash name) (enc_pos s) (zlen d)))
    as (s5 & Hpush & Hwi); [| done | done | done | done | done |].
  { unfold emitted, d. rewrite D1, C1, B1, A1, D2, C2, B2, A2, D3, C3, B3, A3, D4, C4, B4, A4.
    rewrite <- !app_assoc. split; [done |]. split; [zlen_lia | done]. }
  exists s5. split; [| done]. unfold enc_add_file, copy_exact.
  rewrite (stt_bind_ok (on_encoder get_pos) _ (s, reader_for content) _ _ (zoom_ok fst _ get_pos (s, reader_for content) _ _ eq_refl)).
  rewrite (stt_bind_ok (on_encoder _) _ _ _ _ (zoom_ok fst _ _ (s, reader_for content) _ _ Hf)). cbn [fst snd].
  rewrite (stt_bind_ok (on_encoder _) _ _ _ _ (zoom_ok fst _ _ (s1, reader_for content) _ _ Hme)). cbn [fst snd].
  rewrite (stt_bind_ok (on_encoder _) _ _ _ _ (zoom_ok fst _ _ (s2, reader_for content) _ _ Hh)). cbn [fst snd].
  rewrite (stt_bind_ok _ _ _ _ _ Hc). unfold on_encoder. rewrite (zoom_ok fst _ _ (s4, r4) _ _ Hpush). done.
Qed.

Lemma node_written_link name meta target : node_written (PLink name meta target).
Proof.
  intros s d item Hst Hp Hok He Hmax. pose proof (zlen_nonneg name) as Hnl.
  cbn [pemit pnode_name] in He. apply pair_eq in He as [<- <-]. destruct Hok as (Hname & Hm).
  set (d := filename_bytes name ++ _) in *. cbn [write_pnode].
  assert (zlen d = zlen name + 90 + zlen target) as Hd by (unfold d; zlen_lia).
  pose proof (zlen_nonneg target).
  destruct (emits_filename name Hname ltac:(lia) s Hp ltac:(zlen_lia)) as (s1 & Hf & A1 & A2 & A3 & A4).
  destruct (emits_metadata meta s1) as (s2 & Hme & B1 & B2 & B3 & B4); [zlen_lia | zlen_lia |].
  destruct (emits_header PXAR_SYMLINK (zlen target + 1)) with s2 as (s3 & Hh & C1 & C2 & C3 & C4);
    [unfold in_u64, HEADER_SIZE; lia | zlen_lia | zlen_lia |].
  destruct (emits_write (target ++ [0]) s3) as (s4 & Hc & D1 & D2 & D3 & D4); [zlen_lia | zlen_lia |].
  destruct (push_item_ok name (enc_pos s) d s s4 (mk_GoodbyeItem (hash_filename sip_hash name) (enc_pos s) (zlen d)))
    as (s5 & Hpush & Hwi); [| done | done | done | done | done |].
  { unfold emitted, d. rewrite D1, C1, B1, A1, D2, C2, B2, A2, D3, C3, B3, A3, D4, C4, B4, A4.
    rewrite <- !app_assoc. split; [done |]. split; [zlen_lia | done]. }
  exists s5. split; [| done]. unfold add_symlink.
  rewrite (stt_bind_ok get_pos _ s (enc_pos s) s) by done.
  rewrite (stt_bind_ok _ _ _ _ _ Hf), (stt_bind_ok _ _ _ _ _ Hme). cbv zeta.
  replace (zlen (target ++ [0])) with (zlen target + 1) by zlen_lia.
  rewrite (stt_bind_ok _ _ _ _ _ Hh), (stt_bind_ok _ _ _ _ _ Hc). done.
Qed.

Lemma node_written_all n : node_written n.
Proof using All.
  induction n using pnode_induction;
    [by apply node_written_dir | apply node_written_file | apply node_written_link].
Qed.

Lemma write_archive_ok (out : W) meta children :
  is_dir meta = true → Forall pnode_ok children → zlen (archive_bytes sip_hash meta children) < 2 ^ 64 →
  ∃ out', write_archive sip_hash reader_for out meta children = Ok out' ∧
          written out' = written out ++ archive_bytes sip_hash meta children.
Proof using All.
  intros Hdir Hok Hmax. unfold archive_bytes in *.
  destruct (pemit_list sip_hash children (zlen (metadata_bytes meta))) as [d items] eqn:Hl.
  set (g := goodbye_bytes items _ 0) in *. rewrite !zlen_app in Hmax. pose proof (zlen_nonneg g).
  pose proof (zlen_nonneg d). pose proof (zlen_metadata_bytes meta) as Hml.
  unfold write_archive, from_std. rewrite Hdir. cbn [negb].
  destruct (emits_metadata meta (mk_Encoder out 0 [] false)) as (s1 & Hm & A1 & A2 & A3 & A4);
    [done | cbn; lia |]. cbn in A1, A2, A3, A4.
  rewrite (stt_bind_ok _ _ _ _ _ Hm). unfold push_dir, modify. cbn [mbind result_bind].
  set (s2 := mk_Encoder _ _ _ _).
  destruct (foreach_written children (Forall_true _ _ node_written_all) s2 d items)
    as (s3 & Hf & F1 & F2 & F3 & F4); [done | cbn; lia | done | cbn; by rewrite A2 | cbn; lia |].
  cbn in F1, F2, F3, F4. rewrite A3 in F4.
  rewrite (stt_bind_ok _ _ _ _ _ Hf).
  destruct (finish_ok s3 items (mk_DirState [] 0 None 0) [] F4) as (s4 & (G1 & G2 & G3 & G4) & Hfin).
  { lia. }
  { apply (items_bound children (zlen (metadata_bytes meta)) d); [done | lia]. }
  { cbn [ds_entry_offset]. replace (enc_pos s3) with (zlen (metadata_bytes meta) + zlen d) by lia.
    fold g. lia. }
  cbn [ds_entry_offset] in G1, G2. replace (enc_pos s3) with (zlen (metadata_bytes meta) + zlen d) in G1, G2 by lia.
  fold g in G1, G2. cbn in G1, G2, G3. rewrite Hfin. unfold finish_in_parent. rewrite G3.
  unfold enc_close. rewrite G3. destruct (flush_total (enc_out s4)) as (w' & Hflush). rewrite Hflush.
  exists w'. split; [done |]. apply flush_law in Hflush. rewrite Hflush, G1, F1, A1, <- !app_assoc. done.
Qed.
End encoder_lemmas.

(** ** Properties *)

(** The goodbye table written for a directory is an exact index of it: it
    is built without error, and searching it for a hash finds an entry with
    that hash, with its size and its distance from the table, if the
    directory has one, and finds nothing otherwise. *)
Theorem goodbye_table_search items goodbye_offset entry_offset
    (Hsize : (zlen items + 1) * GOODBYE_ITEM_SIZE + HEADER_SIZE < 2 ^ 64) :
  ∃ tree, build_goodbye_table items goodbye_offset entry_offset =
      Ok (concat (map GoodbyeItem_to_le_bytes tree) ++
          GoodbyeItem_to_le_bytes (mk_GoodbyeItem PXAR_GOODBYE_TAIL_MARKER
            (saturating_sub goodbye_offset entry_offset)
            ((zlen items + 1) * GOODBYE_ITEM_SIZE + HEADER_SIZE))) ∧
    zlen tree = zlen items ∧
    ∀ h, match bst_search_by tree 0 0 (λ item, Z.compare h (gi_hash item)) with
         | Some j => ∃ x, get_at tree j = Some (table_item goodbye_offset x) ∧ x ∈ items ∧ gi_hash x = h
         | None => ∀ x, x ∈ items → gi_hash x ≠ h
         end.
Proof. destruct (build_goodbye_table_ok items goodbye_offset entry_offset Hsize) as (tree & ? & ? & ? & _). by exists tree. Qed.

Lemma goodbye_table_search_witness :
  ∃ tree, zlen tree = 3 ∧
    match bst_search_by tree 0 0 (λ item, Z.compare 7 (gi_hash item)) with
    | Some j => get_at tree j = Some (mk_GoodbyeItem 7 60 3)
    | None => False
    end.
Proof.
  destruct (goodbye_table_search [mk_GoodbyeItem 9 10 1; mk_GoodbyeItem 7 40 3; mk_GoodbyeItem 8 70 2] 100 0)
    as (tree & _ & Hl & Hs); [vm_compute; done |].
  exists tree. split; [exact Hl |]. specialize (Hs 7). destruct (bst_search_by _ _ _ _) as [j |].
  - destruct Hs as (x & Hj & Hx & Hk). rewrite Hj.
    repeat (apply elem_of_cons in Hx as [-> | Hx]; [try discriminate Hk; reflexivity |]).
    by apply not_elem_of_nil in Hx.
  - apply (Hs (mk_GoodbyeItem 7 40 3)); [right; by left | reflexivity].
Defined.

(** C2. Writing a tree with the encoder (directories opened and finished around
    their entries, file contents streamed from any lawful reader) produces
    exactly the bytes specified for it, and the encoder closes cleanly. *)
Theorem encoder_writes_archive (sip_hash : Z → Z → bytes → Z) {W : Type} `{WriteTotal W}
    {R : Type} {HR : Read R} {HRL : ReadLaws R} (reader_for : bytes → R) (out : W)
    (meta : Metadata) (children : list pnode)
    (Hreader : ∀ c, remaining (reader_for c) = c)
    (Hdir : is_dir meta = true) (Hok : Forall pnode_ok children)
    (Hlen : zlen (archive_bytes sip_hash meta children) < 2 ^ 64) :
  ∃ out', write_archive sip_hash reader_for out meta children = Ok out' ∧
          written out' = written out ++ archive_bytes sip_hash meta children.
Proof. by apply (write_archive_ok sip_hash reader_for Hreader). Qed.

(** A toy name hash and a small tree. *)
Definition toy_sip (k1 k2 : Z) (name : bytes) : Z := foldr (λ b h, (h * 257 + b) mod 2 ^ 64) 7 name.
Definition sample_tree : list pnode :=
  [PFile [97] (file_builder 420) [1; 2; 3; 4];
   PDir [100] (dir_builder 493) [PLink [108] (Metadata_builder 41471) [46; 46]; PFile [98; 99] (file_builder 384) []]].

Lemma sample_tree_ok : Forall pnode_ok sample_tree.
Proof.
  assert (∀ m, bool_decide (0 <= st_mode (stat m) < 2 ^ 64 ∧ 0 <= st_flags (stat m) < 2 ^ 64 ∧
    0 <= st_uid (stat m) < 2 ^ 32 ∧ 0 <= st_gid (stat m) < 2 ^ 32 ∧
    - 2 ^ 63 <= ts_secs (st_mtime (stat m)) < 2 ^ 63 ∧ 0 <= ts_nanos (st_mtime (stat m)) < 2 ^ 32) = true →
    metadata_ok m) as Hm by (intros m H; by apply bool_decide_eq_true in H).
  assert (∀ n, bool_decide (name_ok n) = true → name_ok n) as Hn by (intros n H; by apply bool_decide_eq_true in H).
  repeat constructor; try (apply Hn; reflexivity); apply (Hm _); reflexivity.
Qed.

Lemma encoder_writes_archive_witness :
  ∃ out', write_archive (W := bytes) (R := ShortReader) toy_sip (λ c, mk_ShortReader c 3) [] (dir_builder 493) sample_tree = Ok out' ∧
          zlen out' = zlen (archive_bytes toy_sip (dir_builder 493) sample_tree).
Proof.
  destruct (encoder_writes_archive toy_sip (W := bytes) (R := ShortReader) (HRL := ShortReader_read_laws) (λ c, mk_ShortReader c 3) [] (dir_builder 493) sample_tree)
    as (out' & Hw & Ho).
  - reflexivity.
  - reflexivity.
  - exact sample_tree_ok.
  - vm_compute. reflexivity.
  - exists out'. split; [exact Hw |]. cbn [written vec_write_laws] in Ho. rewrite Ho. reflexivity.
Defined.
