(* ===== verification/PxarDecoder.v ===== *)
(** * PxarDecoder: reading a pxar archive front to back (pbs-client/src/pxar/decoder.rs)

    The decoder is a state machine over a byte stream: it hands out the
    entries of the archive in order, keeps the path of the open directories,
    and lets the client read the contents of the file it is at. *)
From S2P Require Import Prelude IoModel Paths PxarFormat.

Definition SKIP_BUF_SIZE : Z := 4096.

Module State.
Inductive State : Type :=
  | Begin
  | InDirectory
  | InPayload (remaining : Z)
  | Eof.
End State.

(** [dec_path_lengths] is the [Vec] of path lengths, innermost first. *)
Record Decoder (R : Type) : Type := mk_Decoder {
  dec_input : R;
  dec_path : bytes;
  dec_path_lengths : list Z;
  dec_pending : option Header;
  dec_state : State.State;
}.
Arguments mk_Decoder {R} _ _ _ _ _.
Arguments dec_input {R} _.
Arguments dec_path {R} _.
Arguments dec_path_lengths {R} _.
Arguments dec_pending {R} _.
Arguments dec_state {R} _.

(** [buf.get(at..at + n)] as an array. *)
Definition dec_read_u64 (buf : bytes) (at_ : Z) : result io_error Z :=
  array ← io_ok_or (get_range buf at_ (at_ + 8)) "pxar: truncated u64 field";
  Ok (from_le_bytes array).
Definition dec_read_u32 (buf : bytes) (at_ : Z) : result io_error Z :=
  array ← io_ok_or (get_range buf at_ (at_ + 4)) "pxar: truncated u32 field";
  Ok (from_le_bytes array).

(** The fields of a stat item. *)
Definition parse_stat (buf : bytes) : result io_error Metadata :=
  mode ← dec_read_u64 buf 0;
  flags ← dec_read_u64 buf 8;
  uid ← dec_read_u32 buf 16;
  gid ← dec_read_u32 buf 20;
  secs ← dec_read_u64 buf 24;
  nanos ← dec_read_u32 buf 32;
  Ok (mk_Metadata (mk_Stat mode flags uid gid (mk_StatxTimestamp (as_i64 secs) nanos))).

(** [Vec::pop]. *)
Definition vec_pop (l : bytes) : option (Z * bytes) :=
  match list.last l with
  | Some x => Some (x, take (length l - 1) l)
  | None => None
  end.

Section decoder.
Context {R : Type} `{Read R}.

Definition Decoder_from_std (input : R) : Decoder R := mk_Decoder input [SLASH] [] None State.Begin.

Definition set_state (st : State.State) : stt (Decoder R) io_error unit :=
  modify (λ d, mk_Decoder (dec_input d) (dec_path d) (dec_path_lengths d) (dec_pending d) st).
Definition set_lengths (l : list Z) (d : Decoder R) : Decoder R :=
  mk_Decoder (dec_input d) (dec_path d) l (dec_pending d) (dec_state d).
Definition set_pending (p : option Header) (d : Decoder R) : Decoder R :=
  mk_Decoder (dec_input d) (dec_path d) (dec_path_lengths d) p (dec_state d).
Definition set_dec_path (p : bytes) (d : Decoder R) : Decoder R :=
  mk_Decoder (dec_input d) p (dec_path_lengths d) (dec_pending d) (dec_state d).

Definition on_input {A} (m : stt R io_error A) : stt (Decoder R) io_error A :=
  zoom dec_input (λ r d, mk_Decoder r (dec_path d) (dec_path_lengths d) (dec_pending d) (dec_state d)) m.

Definition dec_read_header : stt (Decoder R) io_error Header :=
  buf ← on_input (read_exact 16);
  htype ← lift (dec_read_u64 buf 0);
  full_size ← lift (dec_read_u64 buf 8);
  let header := mk_Header htype full_size in
  _ ← lift (content_size header);
  mret header.

Definition take_header : stt (Decoder R) io_error Header := λ d,
  match dec_pending d with
  | Some header => (Ok header, set_pending None d)
  | None => dec_read_header d
  end.

Definition dec_read_data (size : Z) : stt (Decoder R) io_error bytes :=
  if MAX_DATA_LEN <? size then throw (IoOther "pxar: data section exceeds maximum length")
  else on_input (read_exact size).

(** Every turn but the last skips a whole scratch buffer. *)
Fixpoint dec_skip_loop (fuel : nat) (len : Z) : stt (Decoder R) io_error unit :=
  if len <=? 0 then mret tt else
  match fuel with
  | O => mret tt
  | S fuel =>
      let want := Z.min len SKIP_BUF_SIZE in
      _ ← on_input (read_exact want);
      dec_skip_loop fuel (len - want)
  end.
Definition dec_skip (len : Z) : stt (Decoder R) io_error unit := dec_skip_loop (S (Z.to_nat (len / SKIP_BUF_SIZE))) len.

Definition dec_read_metadata (header : Header) : stt (Decoder R) io_error Metadata :=
  size ← lift (content_size header);
  if negb (size =? STAT_SIZE) then throw (IoOther "pxar: entry has an unexpected stat size") else
  buf ← dec_read_data STAT_SIZE;
  lift (parse_stat buf).

Definition set_path (name : bytes) : stt (Decoder R) io_error unit := λ d,
  match dec_path_lengths d with
  | [] => (Err (IoOther "pxar: path stack underflow"), d)
  | keep :: _ => (Ok tt, set_dec_path (path_join (ztake keep (dec_path d)) name) d)
  end.

Definition push_length : stt (Decoder R) io_error unit :=
  modify (λ d, set_lengths (zlen (dec_path d) :: dec_path_lengths d) d).

Definition read_root : stt (Decoder R) io_error Entry :=
  header ← dec_read_header;
  if negb (htype header =? PXAR_ENTRY) then throw (IoOther "pxar: archive does not start with an entry") else
  metadata ← dec_read_metadata header;
  if negb (is_dir metadata) then throw (IoOther "pxar: root entry is not a directory") else
  _ ← modify (set_dec_path [SLASH]);
  _ ← push_length;
  _ ← set_state State.InDirectory;
  d ← get_state;
  mret (mk_Entry (dec_path d) metadata EntryKind.Directory).

(** What follows the entry item decides the kind. *)
Definition read_kind_item (next : Header) : stt (Decoder R) io_error EntryKind.EntryKind :=
  if htype next =? PXAR_PAYLOAD then
    size ← lift (content_size next);
    _ ← set_state (State.InPayload size);
    mret (EntryKind.File size None)
  else if htype next =? PXAR_SYMLINK then
    symlink_size ← lift (content_size next);
    if MAX_SYMLINK_LEN <? symlink_size then throw (IoOther "pxar: symlink exceeds maximum length") else
    data ← dec_read_data symlink_size;
    _ ← set_state State.InDirectory;
    mret (EntryKind.Symlink data)
  else if (htype next =? PXAR_FILENAME) || (htype next =? PXAR_GOODBYE) then
    _ ← modify (set_pending (Some next));
    _ ← push_length;
    _ ← set_state State.InDirectory;
    mret EntryKind.Directory
  else throw (IoOther "pxar: unsupported entry type").

Definition read_named_entry (filename_header : Header) : stt (Decoder R) io_error Entry :=
  filename_size ← lift (content_size filename_header);
  if MAX_FILENAME_LEN <? filename_size then throw (IoOther "pxar: filename exceeds maximum length") else
  name ← dec_read_data filename_size;
  match vec_pop name with
  | Some (0, name) =>
      _ ← lift (validate_filename name);
      _ ← set_path name;
      entry_header ← dec_read_header;
      if negb (htype entry_header =? PXAR_ENTRY)
      then throw (IoOther "pxar: filename not followed by an entry") else
      metadata ← dec_read_metadata entry_header;
      d ← get_state;
      let path := dec_path d in
      next ← dec_read_header;
      kind ← read_kind_item next;
      mret (mk_Entry path metadata kind)
  | _ => throw (IoOther "pxar: file name missing terminating zero")
  end.

Definition pop_length : stt (Decoder R) io_error (list Z) := λ d,
  match dec_path_lengths d with
  | [] => (Err (IoOther "pxar: goodbye table without open directory"), d)
  | _ :: lengths => (Ok lengths, set_lengths lengths d)
  end.

(** Every turn of the loop that does not return pops a path length, so one
    turn more than there are lengths is enough. *)
Fixpoint next_loop (fuel : nat) : stt (Decoder R) io_error (option Entry) := λ d,
  match fuel with
  | O => (Err (IoOther "pxar: goodbye table without open directory"), d)
  | S fuel =>
      match dec_state d with
      | State.Eof => (Ok None, d)
      | State.Begin => (read_root ≫= λ e, mret (Some e)) d
      | _ =>
          (_ ← match dec_state d with
               | State.InPayload remaining => _ ← dec_skip remaining; set_state State.InDirectory
               | _ => mret tt
               end;
           header ← take_header;
           if htype header =? PXAR_FILENAME then e ← read_named_entry header; mret (Some e)
           else if htype header =? PXAR_GOODBYE then
             size ← lift (content_size header);
             _ ← dec_skip size;
             lengths ← pop_length;
             match lengths with
             | [] => _ ← set_state State.Eof; mret None
             | _ => next_loop fuel
             end
           else throw (IoOther "pxar: expected filename or goodbye in directory")) d
      end
  end.

Definition next_do : stt (Decoder R) io_error (option Entry) := λ d,
  next_loop (S (length (dec_path_lengths d))) d.

(** [Contents::read]: a read of the current file's contents. *)
Definition Contents_read (n : Z) : stt (Decoder R) io_error bytes := λ d,
  match dec_state d with
  | State.InPayload remaining =>
      if (remaining <=? 0) || (n =? 0) then (Ok [], d) else
      let want := Z.min remaining n in
      (got ← on_input (read want);
       _ ← set_state (State.InPayload (remaining - zlen got));
       mret got) d
  | _ => (Ok [], d)
  end.

(** [Decoder::contents]: whether the current entry has contents to read. *)
Definition has_contents (d : Decoder R) : bool :=
  match dec_state d with State.InPayload _ => true | _ => false end.
End decoder.
