(* ===== verification/PxarRoundtrip.v ===== *)
(** * PxarRoundtrip: decoding an archive gives back its tree

    A client iterates the decoder and reads each file's contents with as many
    reads as it likes; over the bytes of an archive it sees the entries of the
    tree in order, with their paths, metadata and contents. *)
From S2P Require Import Prelude IoModel Paths PxarFormat GoodbyeTree PxarEncoder PxarTree PxarDecoder.

Section roundtrip.
Context {R : Type} {HR : Read R} {HRL : ReadLaws R}.

(** The decoder between two items: nothing pending, [v] left to read. *)
Record between (d : Decoder R) (path : bytes) (lengths : list Z) (st : State.State) (v : bytes) : Prop := {
  bt_path : dec_path d = path;
  bt_lengths : dec_path_lengths d = lengths;
  bt_pending : dec_pending d = None;
  bt_state : dec_state d = st;
  bt_remaining : remaining (dec_input d) = v;
}.

Lemma read_input_ok x v d p l st :
  between d p l st (x ++ v) →
  ∃ d', on_input (read_exact (zlen x)) d = (Ok x, d') ∧ between d' p l st v.
Proof.
  intros [Hp Hl Hn Hs Hr]. destruct (read_exact_app x v (dec_input d) Hr) as (r' & Hx & Hr').
  eexists. split; [unfold on_input; by rewrite (zoom_ok dec_input _ _ d _ _ Hx) |]. by split.
Qed.

Lemma dec_read_header_ok t n v d p l st :
  between d p l st (header_bytes t n ++ v) → in_u64 t → 0 <= n → n + HEADER_SIZE < 2 ^ 64 →
  ∃ d', dec_read_header d = (Ok (mk_Header t (n + HEADER_SIZE)), d') ∧ between d' p l st v.
Proof.
  intros Hb Ht Hn Hmax. destruct (read_input_ok _ _ _ _ _ _ Hb) as (d' & Hx & Hb').
  exists d'. split; [| done]. rewrite zlen_header_bytes in Hx.
  unfold dec_read_header. rewrite (stt_bind_ok _ _ _ _ _ Hx).
  assert (dec_read_u64 (header_bytes t n) 0 = Ok t) as H1.
  { unfold dec_read_u64, header_bytes.
    rewrite get_range_head by zlen_lia.
    cbn. by rewrite from_to_le_u64. }
  assert (dec_read_u64 (header_bytes t n) 8 = Ok (n + HEADER_SIZE)) as H2.
  { unfold dec_read_u64, header_bytes. rewrite get_range_tail by zlen_lia. cbn. rewrite from_to_le_u64; [done |].
    unfold in_u64, HEADER_SIZE in *. lia. }
  unfold lift, mbind, stt_bind. rewrite H1, H2. cbn.
  unfold content_size. cbn. rewrite checked_sub_small by (unfold HEADER_SIZE; lia). done.
Qed.

Lemma content_size_ok t n : 0 <= n → content_size (mk_Header t (n + HEADER_SIZE)) = Ok n.
Proof using Type.
  intros Hn. unfold content_size. cbn. rewrite checked_sub_small by (unfold HEADER_SIZE; lia).
  cbn. f_equal. lia.
Qed.

Lemma dec_read_data_ok x v d p l st :
  between d p l st (x ++ v) → zlen x <= MAX_DATA_LEN →
  ∃ d', dec_read_data (zlen x) d = (Ok x, d') ∧ between d' p l st v.
Proof.
  intros Hb Hx. unfold dec_read_data. destruct (Z.ltb_spec MAX_DATA_LEN (zlen x)); [lia |].
  by apply read_input_ok.
Qed.

Lemma dec_skip_loop_ok fuel : ∀ x v d p l st,
  between d p l st (x ++ v) → zlen x <= Z.of_nat fuel * SKIP_BUF_SIZE →
  ∃ d', dec_skip_loop fuel (zlen x) d = (Ok tt, d') ∧ between d' p l st v.
Proof.
  induction fuel as [| fuel IH]; intros x v d p l st Hb Hf; pose proof (zlen_nonneg x).
  - rewrite (zlen_0_nil x) in Hb by lia. exists d. cbn. rewrite (zlen_0_nil x) by lia. done.
  - cbn [dec_skip_loop]. destruct (Z.leb_spec (zlen x) 0).
    + rewrite (zlen_0_nil x) in Hb by lia. exists d. done.
    + set (want := Z.min (zlen x) SKIP_BUF_SIZE).
      assert (0 < want <= zlen x) as Hw by (unfold want, SKIP_BUF_SIZE; lia).
      rewrite <- (ztake_zdrop want x), <- app_assoc in Hb.
      destruct (read_input_ok _ _ _ _ _ _ Hb) as (d1 & Hr & Hb1).
      replace (zlen (ztake want x)) with want in Hr by (rewrite zlen_ztake; lia).
      destruct (IH _ _ _ _ _ _ Hb1) as (d2 & Hs & Hb2); [rewrite zlen_zdrop; unfold want, SKIP_BUF_SIZE in *; lia |].
      exists d2. split; [| done]. cbv zeta. fold want. rewrite (stt_bind_ok _ _ _ _ _ Hr).
      replace (zlen (zdrop want x)) with (zlen x - want) in Hs by (rewrite zlen_zdrop; lia). exact Hs.
Qed.

Lemma dec_skip_ok x v d p l st :
  between d p l st (x ++ v) → ∃ d', dec_skip (zlen x) d = (Ok tt, d') ∧ between d' p l st v.
Proof.
  intros Hb. apply dec_skip_loop_ok; [done |]. pose proof (zlen_nonneg x).
  rewrite Nat2Z.inj_succ, Z2Nat.id by (apply Z.div_pos; unfold SKIP_BUF_SIZE; lia).
  pose proof (Z.mul_succ_div_gt (zlen x) SKIP_BUF_SIZE ltac:(done)). unfold SKIP_BUF_SIZE in *. lia.
Qed.

Lemma parse_stat_ok m : metadata_ok m → parse_stat (stat_bytes m) = Ok m.
Proof using Type.
  destruct m as [[mode flags uid gid [secs nanos]]]. intros (H1 & H2 & H3 & H4 & H5 & H6). cbn in *.
  unfold parse_stat, dec_read_u64, dec_read_u32, stat_bytes. cbn [st_mode st_flags st_uid st_gid st_mtime ts_secs ts_nanos stat].
  set (b1 := to_le_bytes 8 mode). set (b2 := to_le_bytes 8 flags). set (b3 := to_le_bytes 4 uid).
  set (b4 := to_le_bytes 4 gid). set (b5 := to_le_bytes 8 secs). set (b6 := to_le_bytes 4 nanos).
  set (b7 := to_le_bytes 4 0).
  rewrite (get_range_head b1 _ (0 + 8)) by (unfold b1; zlen_lia).
  rewrite (get_range_app b1 b2 _ 8 (8 + 8)) by (unfold b1, b2; zlen_lia).
  replace (get_range (b1 ++ b2 ++ b3 ++ b4 ++ b5 ++ b6 ++ b7) 16 (16 + 4)) with (Some b3)
    by (rewrite 1!app_assoc; symmetry; apply get_range_app; unfold b1, b2, b3; zlen_lia).
  replace (get_range (b1 ++ b2 ++ b3 ++ b4 ++ b5 ++ b6 ++ b7) 20 (20 + 4)) with (Some b4)
    by (rewrite 2!app_assoc; symmetry; apply get_range_app; unfold b1, b2, b3, b4; zlen_lia).
  replace (get_range (b1 ++ b2 ++ b3 ++ b4 ++ b5 ++ b6 ++ b7) 24 (24 + 8)) with (Some b5)
    by (rewrite 3!app_assoc; symmetry; apply get_range_app; unfold b1, b2, b3, b4, b5; zlen_lia).
  replace (get_range (b1 ++ b2 ++ b3 ++ b4 ++ b5 ++ b6 ++ b7) 32 (32 + 4)) with (Some b6)
    by (rewrite 4!app_assoc; symmetry; apply get_range_app; unfold b1, b2, b3, b4, b5, b6; zlen_lia).
  cbn [io_ok_or ok_or mbind result_bind]. unfold b1, b2, b3, b4, b5, b6.
  rewrite (from_to_le_u64 mode), (from_to_le_u64 flags), !from_to_le_u32 by done. by rewrite from_to_le_i64.
Qed.

Lemma dec_read_metadata_ok m v d p l st :
  between d p l st (stat_bytes m ++ v) → metadata_ok m →
  ∃ d', dec_read_metadata (mk_Header PXAR_ENTRY (STAT_SIZE + HEADER_SIZE)) d = (Ok m, d') ∧ between d' p l st v.
Proof.
  intros Hb Hm. destruct (dec_read_data_ok _ _ _ _ _ _ Hb) as (d' & Hr & Hb').
  { rewrite zlen_stat_bytes. unfold STAT_SIZE, MAX_DATA_LEN. lia. }
  rewrite zlen_stat_bytes in Hr. exists d'. split; [| done]. unfold dec_read_metadata.
  rewrite content_size_ok by (unfold STAT_SIZE; lia).
  rewrite (stt_bind_ok (lift _) _ d STAT_SIZE d) by done. rewrite Z.eqb_refl. cbn [negb].
  rewrite (stt_bind_ok _ _ _ _ _ Hr). unfold lift. by rewrite parse_stat_ok.
Qed.

Lemma vec_pop_app l x : vec_pop (l ++ [x]) = Some (x, l).
Proof using Type.
  unfold vec_pop. rewrite last_snoc, length_app. cbn.
  replace (length l + 1 - 1)%nat with (length l) by lia. by rewrite take_app_length.
Qed.

Lemma path_join_prefix base name :
  base ≠ [] → name_ok name → ∃ x, path_join base name = base ++ x.
Proof using Type.
  intros Hb Hn. unfold path_join. rewrite name_ok_not_absolute by done.
  destruct (list.last base) eqn:Hl; [| by apply last_None in Hl].
  destruct (_ =? _); eauto.
Qed.

(** ** The decoder inside a directory

    [v] is what the decoder will see next: what is left of the input, after
    the rest of the current file's contents, with the pending header put back. *)
Definition header_ok (t n : Z) : Prop := in_u64 t ∧ 0 <= n ∧ n + HEADER_SIZE < 2 ^ 64.

Definition sees (d : Decoder R) (v : bytes) : Prop :=
  (dec_state d = State.InDirectory ∧ dec_pending d = None ∧ remaining (dec_input d) = v) ∨
  (∃ t n v', dec_state d = State.InDirectory ∧ dec_pending d = Some (mk_Header t (n + HEADER_SIZE)) ∧
     header_ok t n ∧ remaining (dec_input d) = v' ∧ v = header_bytes t n ++ v') ∨
  (∃ p, dec_state d = State.InPayload (zlen p) ∧ dec_pending d = None ∧ remaining (dec_input d) = p ++ v).

Record in_dir (d : Decoder R) (base : bytes) (stack : list Z) (v : bytes) : Prop := {
  id_lengths : dec_path_lengths d = zlen base :: stack;
  id_path : ztake (zlen base) (dec_path d) = base;
  id_base : base ≠ [];
  id_sees : sees d v;
}.

Lemma header_bytes_inj t n t' n' v v' :
  header_ok t n → header_ok t' n' → header_bytes t n ++ v = header_bytes t' n' ++ v' →
  t = t' ∧ n = n' ∧ v = v'.
Proof using Type.
  intros (H1 & H2 & H3) (H1' & H2' & H3') Heq. unfold header_bytes in Heq. rewrite <- !app_assoc in Heq.
  apply app_inj_1 in Heq as [Ht Heq]; [| by rewrite !length_to_le_bytes].
  apply app_inj_1 in Heq as [Hn Heq]; [| by rewrite !length_to_le_bytes].
  apply (f_equal from_le_bytes) in Ht, Hn.
  rewrite !from_to_le_u64 in Ht, Hn by (done || unfold in_u64, HEADER_SIZE in *; lia). split; [done |].
  split; [lia | done].
Qed.

(** What the loop does with a header. *)
Definition dispatch (fuel : nat) (header : Header) : stt (Decoder R) io_error (option Entry) :=
  if htype header =? PXAR_FILENAME then e ← read_named_entry header; mret (Some e)
  else if htype header =? PXAR_GOODBYE then
    size ← lift (content_size header);
    _ ← dec_skip size;
    lengths ← pop_length;
    match lengths with
    | [] => _ ← set_state State.Eof; mret None
    | _ => next_loop fuel
    end
  else throw (IoOther "pxar: expected filename or goodbye in directory").

Lemma next_header d base stack t n v :
  in_dir d base stack (header_bytes t n ++ v) → header_ok t n →
  ∃ d', between d' (dec_path d) (zlen base :: stack) State.InDirectory v ∧
        ∀ fuel, next_loop (S fuel) d = dispatch fuel (mk_Header t (n + HEADER_SIZE)) d'.
Proof.
  intros [Hl Hp Hb Hs] Hh. pose proof Hh as (Ht & Hn & Hmax).
  destruct Hs as [(Hst & Hpe & Hr) | [(t' & n' & v' & Hst & Hpe & Hh' & Hr & Hv) | (p & Hst & Hpe & Hr)]].
  - destruct (dec_read_header_ok t n v d (dec_path d) (dec_path_lengths d) State.InDirectory)
      as (d' & Hd & Hb'); [by split | done | done | done |].
    exists d'. rewrite Hl in Hb'. split; [done |]. intros fuel. cbn [next_loop]. rewrite Hst.
    rewrite (stt_bind_ok (mret tt) _ d tt d) by done. unfold take_header.
    unfold mbind at 1, stt_bind at 1. rewrite Hpe, Hd. done.
  - apply header_bytes_inj in Hv as (<- & <- & <-); [| done..].
    exists (set_pending None d). split; [by split |]. intros fuel. cbn [next_loop]. rewrite Hst.
    rewrite (stt_bind_ok (mret tt) _ d tt d) by done. unfold take_header.
    unfold mbind at 1, stt_bind at 1. rewrite Hpe. done.
  - destruct (dec_skip_ok p (header_bytes t n ++ v) d (dec_path d) (dec_path_lengths d) (State.InPayload (zlen p)))
      as (d1 & Hskip & [A1 A2 A3 A4 A5]); [by split |].
    set (d2 := mk_Decoder (dec_input d1) (dec_path d1) (dec_path_lengths d1) (dec_pending d1) State.InDirectory).
    destruct (dec_read_header_ok t n v d2 (dec_path d) (dec_path_lengths d) State.InDirectory)
      as (d' & Hd & Hb'); [by split | done | done | done |].
    exists d'. rewrite Hl in Hb'. split; [done |]. intros fuel. cbn [next_loop]. rewrite Hst.
    rewrite (stt_bind_ok _ _ d tt d2) by (by rewrite (stt_bind_ok _ _ _ _ _ Hskip)).
    unfold mbind at 1, stt_bind at 1. unfold take_header at 1. cbn [d2 dec_pending]. rewrite A3.
    fold d2. rewrite Hd. done.
Qed.

Lemma named_entry_ok d path base stack name m t n v :
  between d path (zlen base :: stack) State.InDirectory
    ((name ++ [0]) ++ metadata_bytes m ++ header_bytes t n ++ v) →
  ztake (zlen base) path = base → name_ok name → zlen name + 1 <= MAX_FILENAME_LEN → metadata_ok m →
  header_ok t n →
  ∃ d', between d' (path_join base name) (zlen base :: stack) State.InDirectory v ∧
    read_named_entry (mk_Header PXAR_FILENAME (zlen name + 1 + HEADER_SIZE)) d =
      (read_kind_item (mk_Header t (n + HEADER_SIZE)) ≫= λ kind,
         mret (mk_Entry (path_join base name) m kind)) d'.
Proof.
  intros Hb Hpath Hname Hlen Hm (Ht & Hn & Hmax). pose proof (zlen_nonneg name).
  destruct (dec_read_data_ok _ _ _ _ _ _ Hb) as (d1 & Hd1 & Hb1);
    [unfold MAX_DATA_LEN, MAX_FILENAME_LEN in *; zlen_lia |].
  set (path' := path_join base name) in *. set (d2 := set_dec_path path' d1).
  assert (between d2 path' (zlen base :: stack) State.InDirectory (metadata_bytes m ++ header_bytes t n ++ v)) as Hb2
    by (destruct Hb1 as [? ? ? ? ?]; by split).
  unfold metadata_bytes in Hb2. rewrite <- app_assoc in Hb2.
  destruct (dec_read_header_ok _ _ _ _ _ _ _ Hb2) as (d3 & Hd3 & Hb3);
    [done | unfold STAT_SIZE; lia | unfold STAT_SIZE, HEADER_SIZE; lia |].
  destruct (dec_read_metadata_ok _ _ _ _ _ _ Hb3 Hm) as (d4 & Hd4 & Hb4).
  destruct (dec_read_header_ok _ _ _ _ _ _ _ Hb4 Ht Hn Hmax) as (d5 & Hd5 & Hb5).
  exists d5. split; [done |]. unfold read_named_entry.
  rewrite content_size_ok by lia. rewrite (stt_bind_ok (lift _) _ d (zlen name + 1) d) by done.
  destruct (Z.ltb_spec MAX_FILENAME_LEN (zlen name + 1)); [lia |].
  replace (zlen (name ++ [0])) with (zlen name + 1) in Hd1 by zlen_lia.
  rewrite (stt_bind_ok _ _ _ _ _ Hd1). rewrite vec_pop_app. rewrite (proj2 (validate_filename_ok name) Hname).
  rewrite (stt_bind_ok (lift _) _ d1 tt d1) by done.
  assert (set_path name d1 = (Ok tt, d2)) as Hsp.
  { unfold set_path. destruct Hb1 as [-> -> _ _ _]. rewrite Hpath. done. }
  rewrite (stt_bind_ok _ _ _ _ _ Hsp), (stt_bind_ok _ _ _ _ _ Hd3). cbn [htype].
  rewrite Z.eqb_refl. cbn [negb].
  rewrite (stt_bind_ok _ _ _ _ _ Hd4), (stt_bind_ok get_state _ d4 d4 d4) by done. cbv zeta.
  rewrite (stt_bind_ok _ _ _ _ _ Hd5). destruct Hb4 as [-> _ _ _ _]. done.
Qed.


(** ** Reading contents *)

Lemma contents_read_step n d p v :
  0 <= n → dec_state d = State.InPayload (zlen p) → remaining (dec_input d) = p ++ v →
  ∃ k d', Contents_read n d = (Ok (ztake k p), d') ∧
    dec_state d' = State.InPayload (zlen (zdrop k p)) ∧ remaining (dec_input d') = zdrop k p ++ v ∧
    dec_path d' = dec_path d ∧ dec_path_lengths d' = dec_path_lengths d ∧ dec_pending d' = dec_pending d ∧
    0 <= k <= Z.min n (zlen p) ∧ (0 < n → p ≠ [] → 0 < k).
Proof.
  intros Hn Hst Hr. pose proof (zlen_nonneg p). unfold Contents_read. rewrite Hst.
  destruct (Z.leb_spec (zlen p) 0) as [Hp |]; [| destruct (Z.eqb_spec n 0) as [-> |]]; cbn [orb].
  - assert (p = []) as -> by (apply zlen_0_nil; lia). exists 0, d.
    repeat split; first [done | lia | by intros _ []].
  - exists 0, d. rewrite ztake_le, zdrop_le by lia. repeat split; first [done | lia].
  - cbv zeta. destruct (read_law (Z.min (zlen p) n) (dec_input d) ltac:(lia)) as (k & r' & Hread & Hrem & Hk & Hpos).
    rewrite Hr in *. rewrite zlen_app in Hk. pose proof (zlen_nonneg v).
    unfold on_input. rewrite (stt_bind_ok _ _ _ _ _ (zoom_ok dec_input _ _ d _ _ Hread)).
    exists k. eexists. rewrite ztake_app_l by lia. split; [reflexivity |]. cbn.
    rewrite Hrem, zdrop_app_l, zlen_zdrop, zlen_ztake by lia.
    split; [f_equal; lia |]. repeat split; try done; try lia. intros _ _. apply Hpos; [lia |].
    destruct p; [rewrite (@zlen_nil Z) in *; lia | done].
Qed.

(** ** The client *)

(** [io::Read] calls on the contents, with these buffer sizes. *)
Fixpoint read_sizes (sizes : list nat) : stt (Decoder R) io_error bytes :=
  match sizes with
  | [] => mret []
  | n :: sizes =>
      got ← Contents_read (Z.of_nat n);
      rest ← read_sizes sizes;
      mret (got ++ rest)
  end.

Lemma read_sizes_ok v sizes : ∀ d p,
  dec_state d = State.InPayload (zlen p) → remaining (dec_input d) = p ++ v →
  ∃ k d', read_sizes sizes d = (Ok (ztake k p), d') ∧
    dec_state d' = State.InPayload (zlen (zdrop k p)) ∧ remaining (dec_input d') = zdrop k p ++ v ∧
    dec_path d' = dec_path d ∧ dec_path_lengths d' = dec_path_lengths d ∧ dec_pending d' = dec_pending d ∧
    0 <= k <= zlen p ∧ (Forall (λ n, 0 < n)%nat sizes → (length p <= length sizes)%nat → k = zlen p).
Proof.
  induction sizes as [| n sizes IH]; intros d p Hst Hr; pose proof (zlen_nonneg p).
  - exists 0, d. rewrite ztake_le, zdrop_le by lia. repeat split; try first [done | lia].
    intros _ Hl. cbn in Hl. unfold zlen. lia.
  - destruct (contents_read_step (Z.of_nat n) d p v) as (k1 & d1 & H1 & S1 & R1 & P1 & L1 & N1 & K1 & Q1);
      [lia | done | done |].
    destruct (IH d1 _ S1 R1) as (k2 & d2 & H2 & S2 & R2 & P2 & L2 & N2 & K2 & Q2).
    rewrite zlen_zdrop in K2. exists (k1 + k2), d2. cbn [read_sizes]. rewrite (stt_bind_ok _ _ _ _ _ H1), (stt_bind_ok _ _ _ _ _ H2).
    rewrite zdrop_zdrop in * by lia. rewrite ztake_add by lia.
    split; [done |]. split; [done |]. split; [done |]. rewrite P2, P1, L2, L1, N2, N1. repeat (split; [done || lia |]).
    intros [Hn Hs]%Forall_cons_iff Hl. destruct (decide (p = [])) as [-> | Hp]; [rewrite (@zlen_nil Z) in *; lia |].
    specialize (Q1 ltac:(lia) Hp). rewrite Q2; [rewrite zlen_zdrop; lia | done |].
    unfold zdrop. rewrite length_drop. cbn [length] in Hl. lia.
Qed.

Context (sip_hash : Z → Z → bytes → Z) (reads : Entry → list nat).

(** Iterate to the end, reading from each file as [reads] says. *)
Fixpoint client (fuel : nat) : stt (Decoder R) io_error (list (Entry * bytes)) :=
  match fuel with
  | O => mret []
  | S fuel =>
      e ← next_do;
      match e with
      | None => mret []
      | Some e =>
          content ← (λ d, if has_contents d then read_sizes (reads e) d else (Ok [], d));
          rest ← client fuel;
          mret ((e, content) :: rest)
      end
  end.

(** The entries of a tree, with their contents. *)
Fixpoint entries_of (base : bytes) (n : pnode) : list (Entry * bytes) :=
  let path := path_join base (pnode_name n) in
  match n with
  | PDir _ meta children => (mk_Entry path meta EntryKind.Directory, []) :: flat_map (entries_of path) children
  | PFile _ meta content => [(mk_Entry path meta (EntryKind.File (zlen content) None), content)]
  | PLink _ meta target => [(mk_Entry path meta (EntryKind.Symlink (target ++ [0])), [])]
  end.

(** What the client gets for an entry: the entry itself, a prefix of its
    contents, and all of them when it makes enough reads. *)
Definition seen (expected got : Entry * bytes) : Prop :=
  fst got = fst expected ∧ (∃ k, snd got = ztake k (snd expected)) ∧
  (Forall (λ n, 0 < n)%nat (reads (fst expected)) →
   (length (snd expected) <= length (reads (fst expected)))%nat → snd got = snd expected).

(** Sizes within the decoder's limits. *)
Fixpoint pnode_fits (n : pnode) : Prop :=
  zlen (pnode_name n) + 1 <= MAX_FILENAME_LEN ∧
  match n with
  | PDir _ _ children => foldr (λ c P, pnode_fits c ∧ P) True children
  | PFile _ _ _ => True
  | PLink _ _ target => zlen target + 1 <= MAX_SYMLINK_LEN
  end.

Lemma next_entry d base stack name m t n v :
  in_dir d base stack (filename_bytes name ++ metadata_bytes m ++ header_bytes t n ++ v) →
  name_ok name → zlen name + 1 <= MAX_FILENAME_LEN → metadata_ok m → header_ok t n →
  ∃ d', between d' (path_join base name) (zlen base :: stack) State.InDirectory v ∧
    next_do d = (read_kind_item (mk_Header t (n + HEADER_SIZE)) ≫= λ kind,
                   mret (Some (mk_Entry (path_join base name) m kind))) d'.
Proof.
  intros Hd Hname Hlen Hm Hh. pose proof (zlen_nonneg name). pose proof Hd as [Hl Hp _ _].
  unfold filename_bytes in Hd. rewrite <- app_assoc in Hd.
  destruct (next_header _ _ _ _ _ _ Hd) as (d1 & Hb1 & Hnext).
  { split; [unfold in_u64, PXAR_FILENAME; lia |]. unfold HEADER_SIZE, MAX_FILENAME_LEN in *. lia. }
  destruct (named_entry_ok _ _ _ _ _ _ _ _ _ Hb1 Hp Hname Hlen Hm Hh) as (d2 & Hb2 & Heq).
  exists d2. split; [done |]. unfold next_do. rewrite Hnext. unfold dispatch. cbn [htype].
  rewrite Z.eqb_refl. unfold mbind, stt_bind in *. rewrite Heq.
  destruct (read_kind_item _ d2) as [[kind | e] d3]; done.
Qed.

Definition prepend (r : list (Entry * bytes)) (m : stt (Decoder R) io_error (list (Entry * bytes))) :
    stt (Decoder R) io_error (list (Entry * bytes)) :=
  rest ← m; mret (r ++ rest).

Lemma prepend_eq r m d :
  prepend r m d = match m d with (Ok l, d') => (Ok (r ++ l), d') | (Err e, d') => (Err e, d') end.
Proof using Type. unfold prepend, mbind, stt_bind. by destruct (m d) as [[?|?] ?]. Qed.

(** From [d], the client gets [expected] and then sees what it sees from [d']. *)
Definition yields (d d' : Decoder R) (expected : list (Entry * bytes)) : Prop :=
  ∃ res, Forall2 seen expected res ∧
    ∀ fuel, client (length expected + S fuel) d = prepend res (client (S fuel)) d'.

Lemma client_next d d' fuel : next_do d = next_do d' → client (S fuel) d = client (S fuel) d'.
Proof using Type. intros H. cbn [client]. unfold mbind at 1 4, stt_bind at 1 4. by rewrite H. Qed.

Lemma yields_nil d d' : next_do d = next_do d' → yields d d' [].
Proof using Type.
  intros Hn. exists []. split; [constructor |]. intros fuel. cbn [length Nat.add].
  rewrite (client_next d d') by done. rewrite prepend_eq. by destruct (client (S fuel) d') as [[?|?] ?].
Qed.

Lemma yields_app d1 d2 d3 l1 l2 : yields d1 d2 l1 → yields d2 d3 l2 → yields d1 d3 (l1 ++ l2).
Proof using Type.
  intros (r1 & Hs1 & H1) (r2 & Hs2 & H2). exists (r1 ++ r2). split; [by apply Forall2_app |].
  intros fuel. rewrite length_app, <- Nat.add_assoc. specialize (H2 fuel).
  replace (length l2 + S fuel)%nat with (S (length l2 + fuel)) in * by lia.
  rewrite H1, !prepend_eq, H2, prepend_eq. destruct (client (S fuel) d3) as [[?|?] ?]; by rewrite ?app_assoc.
Qed.

Lemma yields_entry d d1 d2 e content got :
  next_do d = (Ok (Some e), d1) →
  (if has_contents d1 then read_sizes (reads e) d1 else (Ok [], d1)) = (Ok got, d2) →
  seen (e, content) (e, got) → yields d d2 [(e, content)].
Proof using Type.
  intros Hn Hr Hs. exists [(e, got)]. split; [by constructor; [| constructor] |]. intros fuel.
  change (length [(e, content)] + S fuel)%nat with (S (S fuel)).
  unfold client at 1. fold (client (S fuel)). rewrite (stt_bind_ok _ _ _ _ _ Hn).
  rewrite (stt_bind_ok (λ d, if has_contents d then _ else _) _ d1 got d2) by done. done.
Qed.

Definition run_node (n : pnode) : Prop := ∀ d base stack v pos,
  in_dir d base stack (fst (pemit sip_hash n pos) ++ v) → pnode_ok n → pnode_fits n →
  zlen (fst (pemit sip_hash n pos)) < 2 ^ 64 →
  ∃ d', in_dir d' base stack v ∧ yields d d' (entries_of base n).

Lemma run_file name meta content : run_node (PFile name meta content).
Proof.
  intros d base stack v pos Hd (Hname & Hm) (Hlen & _) Hmax. cbn [pemit fst pnode_name] in *.
  rewrite <- !app_assoc in Hd. pose proof (zlen_nonneg content). pose proof (zlen_nonneg name).
  destruct (next_entry _ _ _ _ _ _ _ _ Hd) as (d1 & [P1 L1 N1 S1 R1] & Hn); [done.. | |].
  { split; [unfold in_u64, PXAR_PAYLOAD; lia |]. unfold HEADER_SIZE. rewrite !zlen_app in Hmax.
    revert Hmax. zlen_lia. }
  unfold read_kind_item in Hn. cbn [htype] in Hn. rewrite Z.eqb_refl in Hn.
  rewrite content_size_ok in Hn by done. set (d2 := mk_Decoder (dec_input d1) (dec_path d1) (dec_path_lengths d1)
    (dec_pending d1) (State.InPayload (zlen content))).
  set (e := mk_Entry (path_join base name) meta (EntryKind.File (zlen content) None)) in *.
  assert (next_do d = (Ok (Some e), d2)) as Hn2 by exact Hn.
  destruct (read_sizes_ok v (reads e) d2 content eq_refl R1)
    as (k & d3 & Hr & S3 & R3 & P3 & L3 & N3 & K3 & Hfull).
  exists d3. split.
  - destruct Hd as [_ Hp Hb _]. destruct (path_join_prefix base name Hb Hname) as (x & Hx).
    cbn in P3, L3, N3. split; [by rewrite L3, L1 | | done |].
    + by rewrite P3, P1, Hx, ztake_app.
    + right. right. exists (zdrop k content). split; [exact S3 |]. split; [by rewrite N3 | done].
  - apply (yields_entry d d2 d3 e content (ztake k content) Hn2); [done |].
    split; [done |]. split; [by exists k |]. intros H1 H2. cbn [snd fst] in *.
    rewrite (Hfull H1 H2). by apply ztake_ge.
Qed.

Lemma run_link name meta target : run_node (PLink name meta target).
Proof.
  intros d base stack v pos Hd (Hname & Hm) (Hlen & Htl) Hmax. cbn [pemit fst pnode_name] in *.
  rewrite <- !app_assoc in Hd. pose proof (zlen_nonneg target). pose proof (zlen_nonneg name).
  destruct (next_entry _ _ _ _ _ _ _ _ Hd) as (d1 & Hb1 & Hn); [done.. | |].
  { split; [unfold in_u64, PXAR_SYMLINK; lia |]. unfold HEADER_SIZE, MAX_SYMLINK_LEN in *. lia. }
  rewrite app_assoc in Hb1.
  destruct (dec_read_data_ok _ _ _ _ _ _ Hb1) as (d2 & Hd2 & [P2 L2 N2 S2 R2]);
    [unfold MAX_DATA_LEN, MAX_SYMLINK_LEN in *; zlen_lia |].
  replace (zlen (target ++ [0])) with (zlen target + 1) in Hd2 by zlen_lia.
  set (e := mk_Entry (path_join base name) meta (EntryKind.Symlink (target ++ [0]))) in *.
  set (d3 := mk_Decoder (dec_input d2) (dec_path d2) (dec_path_lengths d2) (dec_pending d2) State.InDirectory).
  assert (next_do d = (Ok (Some e), d3)) as Hn2.
  { assert (read_kind_item (mk_Header PXAR_SYMLINK (zlen target + 1 + HEADER_SIZE)) d1 =
            (Ok (EntryKind.Symlink (target ++ [0])), d3)) as Hk; [| by rewrite Hn, (stt_bind_ok _ _ _ _ _ Hk)].
    unfold read_kind_item. cbn [htype].
    rewrite Z.eqb_refl. replace (PXAR_SYMLINK =? PXAR_PAYLOAD) with false by done.
    rewrite content_size_ok by lia. rewrite (stt_bind_ok (lift _) _ d1 (zlen target + 1) d1) by done.
    destruct (Z.ltb_spec MAX_SYMLINK_LEN (zlen target + 1)); [lia |]. by rewrite (stt_bind_ok _ _ _ _ _ Hd2). }
  exists d3. split.
  - destruct Hd as [_ Hp Hb _]. destruct (path_join_prefix base name Hb Hname) as (x & Hx).
    split; [done | | done | by left].
    cbn [d3 dec_path]. by rewrite P2, Hx, ztake_app.
  - apply (yields_entry d d3 d3 e [] [] Hn2); [done |].
    split; [done |]. split; [by exists 0 | done].
Qed.

Lemma goodbye_shape items g e :
  (zlen items + 1) * GOODBYE_ITEM_SIZE + HEADER_SIZE < 2 ^ 64 →
  ∃ table, goodbye_bytes items g e = header_bytes PXAR_GOODBYE (zlen table) ++ table ∧
           header_ok PXAR_GOODBYE (zlen table).
Proof using Type.
  intros Hi. destruct (build_goodbye_table_ok items g e Hi) as (tree & Ht & _).
  unfold goodbye_bytes. rewrite Ht. eexists. split; [reflexivity |].
  apply build_goodbye_table_len in Ht. rewrite Ht. pose proof (zlen_nonneg items).
  split; [unfold in_u64, PXAR_GOODBYE; lia |]. unfold GOODBYE_ITEM_SIZE in *. lia.
Qed.

Lemma goodbye_step d base stack items g e v :
  in_dir d base stack (goodbye_bytes items g e ++ v) →
  (zlen items + 1) * GOODBYE_ITEM_SIZE + HEADER_SIZE < 2 ^ 64 →
  ∃ d', between d' (dec_path d) stack State.InDirectory v ∧
    match stack with [] => ∃ d'', next_do d = (Ok None, d'') | _ => next_do d = next_do d' end.
Proof.
  intros Hd Hi. destruct (goodbye_shape items g e Hi) as (table & Htab & Hh). rewrite Htab in Hd.
  rewrite <- app_assoc in Hd. destruct (next_header _ _ _ _ _ _ Hd Hh) as (d1 & Hb1 & Hnext).
  destruct (dec_skip_ok _ _ _ _ _ _ Hb1) as (d2 & Hskip & [P2 L2 N2 S2 R2]).
  exists (set_lengths stack d2). split; [by split |]. pose proof Hd as [Hl _ _ _].
  assert (∀ fuel, next_loop (S fuel) d = match stack with
            | [] => (set_state State.Eof ≫= λ _, mret None) (set_lengths stack d2)
            | _ => next_loop fuel (set_lengths stack d2) end) as Heq.
  { intros fuel. rewrite Hnext. unfold dispatch. cbn [htype]. rewrite Z.eqb_refl.
    replace (PXAR_GOODBYE =? PXAR_FILENAME) with false by done.
    rewrite content_size_ok by apply Hh. rewrite (stt_bind_ok (lift _) _ d1 (zlen table) d1) by done.
    rewrite (stt_bind_ok _ _ _ _ _ Hskip).
    rewrite (stt_bind_ok pop_length _ d2 stack (set_lengths stack d2)); [by destruct stack |].
    unfold pop_length. by rewrite L2. }
  unfold next_do. rewrite Heq, Hl. destruct stack; [by eexists |]. done.
Qed.

Lemma pemit_head n pos : ∃ r, fst (pemit sip_hash n pos) = filename_bytes (pnode_name n) ++ r.
Proof using Type.
  destruct n; [rewrite pemit_dir; cbn [fst]; unfold dir_bytes; destruct (pemit_list _ _ _) |..];
    cbn [pemit fst pnode_name]; rewrite <- ?app_assoc; by eexists.
Qed.

Lemma body_header ns pos items g e :
  (zlen items + 1) * GOODBYE_ITEM_SIZE + HEADER_SIZE < 2 ^ 64 →
  zlen (fst (pemit_list sip_hash ns pos)) < 2 ^ 64 →
  ∃ t n rest, fst (pemit_list sip_hash ns pos) ++ goodbye_bytes items g e = header_bytes t n ++ rest ∧
    header_ok t n ∧ (t = PXAR_FILENAME ∨ t = PXAR_GOODBYE).
Proof using Type.
  intros Hi Hmax. destruct ns as [| n ns].
  - destruct (goodbye_shape items g e Hi) as (table & -> & Hh). by exists PXAR_GOODBYE, (zlen table), table; auto.
  - destruct (pemit_head n pos) as (r & Hr).
    pose proof (pemit_len sip_hash n pos) as Hlen.
    exists PXAR_FILENAME, (zlen (pnode_name n) + 1). cbn [pemit_list] in *.
    destruct (pemit sip_hash n pos) as [dn en]. cbn [fst] in *. destruct (pemit_list _ _ _) as [ds es].
    cbn [fst] in *. rewrite zlen_app in Hmax. pose proof (zlen_nonneg (pnode_name n)). pose proof (zlen_nonneg ds).
    rewrite Hr. unfold filename_bytes. rewrite <- !app_assoc. eexists. split; [done |].
    split; [| by left]. split; [unfold in_u64, PXAR_FILENAME; lia |]. unfold HEADER_SIZE. lia.
Qed.

Lemma run_list ns : Forall run_node ns → ∀ d base stack v pos,
  in_dir d base stack (fst (pemit_list sip_hash ns pos) ++ v) → Forall pnode_ok ns → Forall pnode_fits ns →
  zlen (fst (pemit_list sip_hash ns pos)) < 2 ^ 64 →
  ∃ d', in_dir d' base stack v ∧ yields d d' (flat_map (entries_of base) ns).
Proof.
  induction 1 as [| n ns Hn Hns IH]; intros d base stack v pos Hd Hok Hfits Hmax.
  - exists d. split; [done |]. by apply yields_nil.
  - apply Forall_cons_iff in Hok as [Hokn Hok], Hfits as [Hfn Hfits]. cbn [pemit_list] in *.
    pose proof (Hn d base stack) as Hrun. specialize (λ v, Hrun v pos).
    destruct (pemit sip_hash n pos) as [dn en]. 
    specialize (λ d' v, IH d' base stack v (pos + zlen dn)).
    destruct (pemit_list sip_hash ns _) as [ds es]. cbn [fst] in *. rewrite <- app_assoc in Hd.
    rewrite zlen_app in Hmax. pose proof (zlen_nonneg dn). pose proof (zlen_nonneg ds).
    destruct (Hrun _ Hd) as (d1 & Hd1 & Hy1); [done | done | lia |].
    destruct (IH d1 v Hd1) as (d2 & Hd2 & Hy2); [done | done | lia |].
    exists d2. split; [done |]. cbn [flat_map]. by eapply yields_app.
Qed.

Lemma ztake_prefix base x (l : bytes) : ztake (zlen (base ++ x)) l = base ++ x → ztake (zlen base) l = base.
Proof using Type.
  intros Hl. pose proof (zlen_nonneg x). rewrite zlen_app in Hl. apply (f_equal (ztake (zlen base))) in Hl.
  rewrite ztake_ztake, ztake_app in Hl. by rewrite Z.min_l in Hl by lia.
Qed.

Lemma open_directory d1 path lengths v t n :
  between d1 path lengths State.InDirectory v → path ≠ [] → header_ok t n → t = PXAR_FILENAME ∨ t = PXAR_GOODBYE →
  ∃ d2, read_kind_item (mk_Header t (n + HEADER_SIZE)) d1 = (Ok EntryKind.Directory, d2) ∧
    in_dir d2 path lengths (header_bytes t n ++ v) ∧ has_contents d2 = false.
Proof.
  intros [P1 L1 N1 S1 R1] Hp Hh Ht.
  exists (mk_Decoder (dec_input d1) (dec_path d1) (zlen (dec_path d1) :: dec_path_lengths d1)
            (Some (mk_Header t (n + HEADER_SIZE))) State.InDirectory).
  split; [| split; [| done]].
  - unfold read_kind_item. cbn [htype]. replace (t =? PXAR_PAYLOAD) with false by (by destruct Ht as [-> | ->]).
    replace (t =? PXAR_SYMLINK) with false by (by destruct Ht as [-> | ->]).
    by replace ((t =? PXAR_FILENAME) || (t =? PXAR_GOODBYE)) with true by (by destruct Ht as [-> | ->]).
  - split; cbn; [by rewrite P1, L1 | rewrite P1; by apply ztake_ge | done |].
    right. left. exists t, n, v. done.
Qed.

Lemma run_dir name meta children :
  Forall run_node children → run_node (PDir name meta children).
Proof.
  intros Hch d base stack v pos Hd (Hname & Hm & Hdir & Hok) (Hlen & Hfits) Hmax.
  rewrite <- Forall_fold_right in Hok, Hfits.
  rewrite pemit_dir in *. cbn [fst] in *. unfold dir_bytes in *.
  destruct (pemit_list sip_hash children _) as [data items] eqn:Hl.
  set (g := pos + _ + zlen data) in *. set (e0 := pos + zlen (filename_bytes name)) in *.
  rewrite <- !app_assoc in Hd. rewrite !zlen_app in Hmax.
  pose proof (zlen_nonneg data). pose proof (zlen_nonneg (goodbye_bytes items g e0)).
  pose proof (zlen_nonneg (filename_bytes name)). pose proof (zlen_nonneg (metadata_bytes meta)).
  assert ((zlen items + 1) * GOODBYE_ITEM_SIZE + HEADER_SIZE < 2 ^ 64) as Hi
    by (eapply items_bound; [exact Hl | lia]).
  destruct (body_header children (pos + zlen (filename_bytes name ++ metadata_bytes meta)) items g e0 Hi)
    as (t & n & rest & Hbody & Hh & Ht); [rewrite Hl; cbn [fst]; lia |]. rewrite Hl in Hbody. cbn [fst] in Hbody.
  pose proof Hd as [_ Hp Hb _]. destruct (path_join_prefix base name Hb Hname) as (x & Hx).
  rewrite (app_assoc data), Hbody, <- app_assoc in Hd.
  destruct (next_entry _ _ _ _ _ _ _ _ Hd Hname Hlen Hm Hh) as (d1 & Hb1 & Hn).
  destruct (open_directory _ _ _ _ t n Hb1) as (d2 & Hk & Hd2 & Hc2); [rewrite Hx; by destruct base | done | done |].
  rewrite (stt_bind_ok _ _ _ _ _ Hk) in Hn. rewrite app_assoc, <- Hbody, <- app_assoc in Hd2.
  destruct (run_list children Hch d2 (path_join base name) (zlen base :: stack) (goodbye_bytes items g e0 ++ v)
              (pos + zlen (filename_bytes name ++ metadata_bytes meta))) as (d3 & Hd3 & Hy3);
    [by rewrite Hl | done | done | rewrite Hl; cbn [fst]; lia |].
  destruct (goodbye_step _ _ _ _ _ _ _ Hd3 Hi) as (d4 & [P4 L4 N4 S4 R4] & Hn4).
  exists d4. split.
  - split; [done | | done | by left]. rewrite P4. destruct Hd3 as [_ Hp3 _ _].
    rewrite Hx in Hp3. by apply ztake_prefix in Hp3.
  - cbn [entries_of]. match goal with |- yields _ _ (?e :: ?l) => change (e :: l) with ([e] ++ l) end.
    eapply (yields_app d d2 d4).
    + apply (yields_entry d d2 d2 _ [] []); [exact Hn | by rewrite Hc2 |].
      split; [done |]. split; [by exists 0 | done].
    + rewrite <- (app_nil_r (flat_map _ _)). eapply yields_app; [exact Hy3 |]. by apply yields_nil.
Qed.

Lemma run_all n : run_node n.
Proof.
  induction n using pnode_induction; [by apply run_dir | apply run_file | apply run_link].
Qed.

Lemma root_ok meta v (r : R) :
  remaining r = metadata_bytes meta ++ v → metadata_ok meta → is_dir meta = true →
  ∃ d, next_do (Decoder_from_std r) = (Ok (Some (mk_Entry [SLASH] meta EntryKind.Directory)), d) ∧
       in_dir d [SLASH] [] v ∧ has_contents d = false.
Proof.
  intros Hr Hm Hdir. unfold metadata_bytes in Hr. rewrite <- app_assoc in Hr.
  assert (between (Decoder_from_std r) [SLASH] [] State.Begin (header_bytes PXAR_ENTRY STAT_SIZE ++ stat_bytes meta ++ v))
    as Hb by by split.
  destruct (dec_read_header_ok _ _ _ _ _ _ _ Hb) as (d1 & Hd1 & Hb1);
    [done | unfold STAT_SIZE; lia | unfold STAT_SIZE, HEADER_SIZE; lia |].
  destruct (dec_read_metadata_ok _ _ _ _ _ _ Hb1 Hm) as (d2 & Hd2 & [P2 L2 N2 S2 R2]).
  exists (mk_Decoder (dec_input d2) [SLASH] (zlen [SLASH] :: dec_path_lengths d2) (dec_pending d2) State.InDirectory).
  split; [| split; [| done]].
  - unfold next_do. cbn [next_loop Decoder_from_std dec_state dec_path_lengths length].
    fold (Decoder_from_std r). unfold read_root.
    assert (∀ (m : stt (Decoder R) io_error Entry) s e s', m s = (Ok e, s') →
              (m ≫= λ e, mret (Some e)) s = (Ok (Some e), s')) as Hret
      by (intros m s e s' H; by rewrite (stt_bind_ok _ _ _ _ _ H)).
    apply Hret. rewrite (stt_bind_ok _ _ _ _ _ Hd1). cbn [htype]. rewrite Z.eqb_refl. cbn [negb].
    rewrite (stt_bind_ok _ _ _ _ _ Hd2), Hdir. done.
  - split; cbn; [by rewrite L2 | done | done | by left].
Qed.

Definition tree_entries (meta : Metadata) (children : list pnode) : list (Entry * bytes) :=
  (mk_Entry [SLASH] meta EntryKind.Directory, []) :: flat_map (entries_of [SLASH]) children.

Lemma client_end fuel d d' : next_do d = (Ok None, d') → client (S fuel) d = (Ok [], d').
Proof using Type. intros H. cbn [client]. by rewrite (stt_bind_ok _ _ _ _ _ H). Qed.

Lemma client_ok meta children (r : R) v fuel :
  remaining r = archive_bytes sip_hash meta children ++ v →
  metadata_ok meta → is_dir meta = true → Forall pnode_ok children → Forall pnode_fits children →
  zlen (archive_bytes sip_hash meta children) < 2 ^ 64 →
  (length (tree_entries meta children) < fuel)%nat →
  ∃ res d', client fuel (Decoder_from_std r) = (Ok res, d') ∧ Forall2 seen (tree_entries meta children) res.
Proof.
  intros Hr Hm Hdir Hok Hfits Hmax Hfuel. unfold archive_bytes in *.
  destruct (pemit_list sip_hash children _) as [data items] eqn:Hl.
  rewrite !zlen_app in Hmax. set (g := goodbye_bytes items _ 0) in *.
  pose proof (zlen_nonneg data). pose proof (zlen_nonneg g). pose proof (zlen_nonneg (metadata_bytes meta)).
  assert ((zlen items + 1) * GOODBYE_ITEM_SIZE + HEADER_SIZE < 2 ^ 64) as Hi
    by (eapply items_bound; [exact Hl | lia]).
  rewrite <- !app_assoc in Hr.
  destruct (root_ok _ _ _ Hr Hm Hdir) as (d1 & Hn1 & Hd1 & Hc1).
  destruct (run_list children (Forall_true _ _ run_all) d1 [SLASH] [] (g ++ v) (zlen (metadata_bytes meta)))
    as (d2 & Hd2 & Hy2); [by rewrite Hl | done | done | rewrite Hl; cbn [fst]; lia |].
  destruct (goodbye_step _ _ _ _ _ _ _ Hd2 Hi) as (_ & _ & d3 & Hn3).
  assert (yields (Decoder_from_std r) d2 (tree_entries meta children)) as (res & Hs & Hrun).
  { unfold tree_entries. match goal with |- yields _ _ (?e :: ?l) => change (e :: l) with ([e] ++ l) end.
    eapply (yields_app _ d1 d2); [| exact Hy2].
    apply (yields_entry _ d1 d1 _ [] [] Hn1); [by rewrite Hc1 |].
    split; [done |]. split; [by exists 0 | done]. }
  specialize (Hrun (fuel - length (tree_entries meta children) - 1)%nat).
  replace (length _ + S _)%nat with fuel in Hrun by lia.
  exists res, d3. split; [| done]. rewrite Hrun, prepend_eq, (client_end _ _ _ Hn3), app_nil_r. done.
Qed.
End roundtrip.

(** ** Properties *)

(** C1. Round trip of pxar archives: iterating the decoder over an archive of
    a tree (from any lawful reader, whatever follows the archive) yields the
    entries of the tree in order, each with its path, metadata and kind, and
    then ends; whatever reads the client makes of a file's contents in
    between, it gets a prefix of them, and all of them if it reads on, and
    the following entries are not affected. *)
Theorem pxar_roundtrip (sip_hash : Z → Z → bytes → Z) {R : Type} {HR : Read R} {HRL : ReadLaws R}
    (reads : Entry → list nat) (meta : Metadata) (children : list pnode) (r : R) (rest : bytes) (fuel : nat)
    (Hr : remaining r = archive_bytes sip_hash meta children ++ rest)
    (Hmeta : metadata_ok meta) (Hdir : is_dir meta = true)
    (Hok : Forall pnode_ok children) (Hfits : Forall pnode_fits children)
    (Hlen : zlen (archive_bytes sip_hash meta children) < 2 ^ 64)
    (Hfuel : (length (tree_entries meta children) < fuel)%nat) :
  ∃ res d', client reads fuel (Decoder_from_std r) = (Ok res, d') ∧
            Forall2 (seen reads) (tree_entries meta children) res.
Proof. by eapply client_ok. Qed.

Lemma pxar_roundtrip_witness :
  ∃ res d', client (λ e, if bool_decide (entry_path e = [47; 97]) then [3%nat] else [])
              6 (Decoder_from_std (mk_ShortReader (archive_bytes toy_sip (dir_builder 493) sample_tree) 5)) = (Ok res, d') ∧
            map (entry_path ∘ fst) res = [[47]; [47; 97]; [47; 100]; [47; 100; 47; 108]; [47; 100; 47; 98; 99]].
Proof.
  destruct (pxar_roundtrip toy_sip (HRL := ShortReader_read_laws)
              (λ e, if bool_decide (entry_path e = [47; 97]) then [3%nat] else [])
              (dir_builder 493) sample_tree
              (mk_ShortReader (archive_bytes toy_sip (dir_builder 493) sample_tree) 5) [] 6)
    as (res & d' & Hc & Hs).
  - rewrite app_nil_r. reflexivity.
  - pose proof sample_tree_ok as Hs. apply Forall_cons_iff in Hs as [_ Hs]. apply Forall_cons_iff in Hs as [Hs _].
    apply Hs.
  - reflexivity.
  - exact sample_tree_ok.
  - repeat constructor; cbv; discriminate.
  - vm_compute. reflexivity.
  - cbn. lia.
  - exists res, d'. split; [exact Hc |].
    assert (map fst res = map fst (tree_entries (dir_builder 493) sample_tree)) as Hm.
    { clear Hc. induction Hs as [| x y l l' [Hx _] _ IH]; [done |]. cbn. by rewrite Hx, IH. }
    change (map (entry_path ∘ fst) res) with (map (λ x, entry_path (fst x)) res).
    rewrite <- (map_map fst entry_path), Hm. reflexivity.
Defined.
