(* ===== verification/PxarAccessor.v ===== *)
(** * PxarAccessor: random access to a pxar archive (pbs-client/src/pxar/accessor.rs)

    A directory is opened from its end, through its goodbye table; a path is
    looked up one component at a time by hash, and a file's contents are read
    in place.  The source of the archive is any [ReadAt]; its state is
    threaded, as its clones share it. *)
From S2P Require Import Prelude IoModel Paths PxarFormat GoodbyeTree PxarEncoder PxarTree PxarDecoder PxarRoundtrip.

Record Directory : Type := mk_Directory {
  dir_goodbye_ofs : Z;
  dir_table : list GoodbyeItem;
  dir_path : bytes;
}.

Record Cursor : Type := mk_Cursor { cur_file_name : bytes; cur_start : Z; cur_end : Z }.

Record FileEntry : Type := mk_FileEntry { fe_entry : Entry; fe_entry_end : Z }.

Record FileContents : Type := mk_FileContents { fc_start : Z; fc_size : Z }.

Fixpoint parse_items (chunks : list bytes) : result io_error (list GoodbyeItem) :=
  match chunks with
  | [] => Ok []
  | chunk :: chunks =>
      item ← GoodbyeItem_from_le_bytes chunk;
      items ← parse_items chunks;
      Ok (item :: items)
  end.

(** The names of a path; [..] is refused. *)
Fixpoint normal_names (cs : list Component.Component) : option (list bytes) :=
  match cs with
  | [] => Some []
  | Component.Normal name :: cs => names ← normal_names cs; Some (name :: names)
  | (Component.RootDir | Component.CurDir) :: cs => normal_names cs
  | Component.ParentDir :: _ => None
  end.
Definition path_names (path : bytes) : result io_error (list bytes) :=
  io_ok_or (normal_names (components path)) "pxar: unsupported path component in lookup".

Section accessor.
Context (sip_hash : Z → Z → bytes → Z) {T : Type} `{ReadAt T}.

(** A read of nothing is an error, and every other read fills some of the
    buffer: one turn per byte is enough. *)
Fixpoint read_exact_at_loop (fuel : nat) (n offset : Z) (acc : bytes) : stt T io_error bytes :=
  if n <=? 0 then mret acc else
  match fuel with
  | O => throw (IoOther "pxar: unexpected EOF")
  | S fuel =>
      d ← read_at offset n;
      if zlen d =? 0 then throw (IoOther "pxar: unexpected EOF")
      else if n <? zlen d then throw (IoOther "pxar: read past buffer")
      else read_exact_at_loop fuel (n - zlen d) (u64_add offset (zlen d)) (acc ++ d)
  end.
Definition read_exact_at (n offset : Z) : stt T io_error bytes := read_exact_at_loop (Z.to_nat n) n offset [].

(** [usize::try_from] of a [u64] succeeds on a 64-bit target. *)
Definition acc_read_data (offset size : Z) : stt T io_error bytes := read_exact_at size offset.

Definition acc_read_header (offset : Z) : stt T io_error Header :=
  buf ← read_exact_at 16 offset;
  htype ← lift (dec_read_u64 buf 0);
  full_size ← lift (dec_read_u64 buf 8);
  let header := mk_Header htype full_size in
  _ ← lift (content_size header);
  mret header.

Definition acc_read_metadata (offset : Z) (header : Header) : stt T io_error Metadata :=
  size ← lift (content_size header);
  if negb (size =? STAT_SIZE) then throw (IoOther "pxar: entry has an unexpected stat size") else
  buf ← read_exact_at 40 offset;
  lift (parse_stat buf).

Definition decode_entry (start end_ : Z) : stt T io_error (Metadata * EntryKind.EntryKind) :=
  header ← acc_read_header start;
  if negb (htype header =? PXAR_ENTRY) then throw (IoOther "pxar: expected an entry header") else
  metadata ← acc_read_metadata (u64_add start HEADER_SIZE) header;
  let at_ := u64_add start (full_size header) in
  if end_ <=? at_ then mret (metadata, EntryKind.Directory) else
  item ← acc_read_header at_;
  if htype item =? PXAR_PAYLOAD then
    size ← lift (content_size item);
    mret (metadata, EntryKind.File size (Some (u64_add at_ HEADER_SIZE)))
  else if htype item =? PXAR_SYMLINK then
    size ← lift (content_size item);
    data ← acc_read_data (u64_add at_ HEADER_SIZE) size;
    mret (metadata, EntryKind.Symlink data)
  else if (htype item =? PXAR_FILENAME) || (htype item =? PXAR_GOODBYE)
  then mret (metadata, EntryKind.Directory)
  else throw (IoOther "pxar: unsupported entry item").

(** [Accessor::new] keeps the size of the archive. *)
Definition Accessor_new (size : Z) : result io_error Z :=
  if size <? GOODBYE_ITEM_SIZE then Err (IoOther "pxar: archive too small") else Ok size.

Definition open_at_end (end_offset : Z) (path : bytes) : stt T io_error Directory :=
  tail_at ← lift (io_ok_or (checked_sub end_offset GOODBYE_ITEM_SIZE) "pxar: goodbye tail does not fit");
  tail_bytes ← read_exact_at 24 tail_at;
  tail ← lift (GoodbyeItem_from_le_bytes tail_bytes);
  if negb (gi_hash tail =? PXAR_GOODBYE_TAIL_MARKER)
  then throw (IoOther "pxar: missing goodbye tail marker") else
  goodbye_ofs ← lift (io_ok_or (checked_sub end_offset (gi_size tail)) "pxar: goodbye size out of range");
  table_bytes ← lift (io_ok_or (v ← checked_sub end_offset goodbye_ofs; checked_sub v HEADER_SIZE)
                        "pxar: goodbye table out of range");
  if negb (table_bytes mod GOODBYE_ITEM_SIZE =? 0) || (table_bytes =? 0)
  then throw (IoOther "pxar: invalid goodbye table size") else
  let count := table_bytes / GOODBYE_ITEM_SIZE - 1 in
  let table_ofs := u64_add goodbye_ofs HEADER_SIZE in
  raw ← acc_read_data table_ofs (count * GOODBYE_ITEM_SIZE);
  table ← lift (parse_items (chunks_exact GOODBYE_ITEM_SIZE raw));
  mret (mk_Directory goodbye_ofs table path).

Definition open_root (size : Z) : stt T io_error Directory := open_at_end size [SLASH].

Definition read_filename (file_ofs : Z) : stt T io_error (bytes * Z) :=
  header ← acc_read_header file_ofs;
  if negb (htype header =? PXAR_FILENAME) then throw (IoOther "pxar: expected a filename header") else
  content ← lift (content_size header);
  name ← acc_read_data (u64_add file_ofs HEADER_SIZE) content;
  match vec_pop name with
  | Some (0, name) =>
      _ ← lift (validate_filename name);
      mret (name, u64_add file_ofs (full_size header))
  | _ => throw (IoOther "pxar: file name missing terminating zero")
  end.

Definition cursor (self : Directory) (index : Z) : stt T io_error Cursor :=
  item ← lift (io_ok_or (get_at (dir_table self) index) "pxar: goodbye index out of range");
  file_ofs ← lift (io_ok_or (checked_sub (dir_goodbye_ofs self) (gi_offset item))
                     "pxar: goodbye item offset out of range");
  '(file_name, entry_ofs) ← read_filename file_ofs;
  entry_end ← lift (io_ok_or (checked_add file_ofs (gi_size item)) "pxar: goodbye item size out of range");
  mret (mk_Cursor file_name entry_ofs entry_end).

Definition decode_cursor (self : Directory) (c : Cursor) : stt T io_error FileEntry :=
  '(metadata, kind) ← decode_entry (cur_start c) (cur_end c);
  mret (mk_FileEntry (mk_Entry (path_join (dir_path self) (cur_file_name c)) metadata kind) (cur_end c)).

(** The search with [dup] skips misses when [dup] reaches the table's length
    ([bst_skip_bound] below), so one turn more than that is enough. *)
Fixpoint lookup_dup (fuel : nat) (self : Directory) (name : bytes) (hash first dup : Z) :
    stt T io_error (option FileEntry) :=
  match fuel with
  | O => mret None
  | S fuel =>
      match bst_search_by (dir_table self) first dup (λ item, Z.compare hash (gi_hash item)) with
      | Some index =>
          c ← cursor self index;
          if decide (cur_file_name c = name) then e ← decode_cursor self c; mret (Some e)
          else lookup_dup fuel self name hash first (dup + 1)
      | None => mret None
      end
  end.

Definition lookup_component (self : Directory) (name : bytes) : stt T io_error (option FileEntry) :=
  let hash := hash_filename sip_hash name in
  match bst_search_by (dir_table self) 0 0 (λ item, Z.compare hash (gi_hash item)) with
  | Some first => lookup_dup (S (length (dir_table self))) self name hash first 0
  | None => mret None
  end.

Definition enter_directory (self : FileEntry) : stt T io_error Directory :=
  match entry_kind (fe_entry self) with
  | EntryKind.Directory => open_at_end (fe_entry_end self) (entry_path (fe_entry self))
  | _ => throw (IoOther "pxar: entry is not a directory")
  end.

(** The loop of [lookup]: the last name is the result, the others are entered. *)
Fixpoint lookup_names (dir : Directory) (names : list bytes) : stt T io_error (option FileEntry) :=
  match names with
  | [] => mret None
  | name :: rest =>
      found ← lookup_component dir name;
      match found with
      | None => mret None
      | Some entry =>
          match rest with
          | [] => mret (Some entry)
          | _ => descended ← enter_directory entry; lookup_names descended rest
          end
      end
  end.

Definition lookup (self : Directory) (path : bytes) : stt T io_error (option FileEntry) :=
  names ← lift (path_names path);
  lookup_names self names.

Definition contents (self : FileEntry) : result io_error FileContents :=
  match entry_kind (fe_entry self) with
  | EntryKind.File size (Some offset) => Ok (mk_FileContents offset size)
  | EntryKind.File _ None => Err (IoOther "pxar: file entry has no content offset")
  | _ => Err (IoOther "pxar: entry is not a regular file")
  end.

Definition FileContents_read_at (self : FileContents) (offset n : Z) : stt T io_error bytes :=
  if fc_size self <=? offset then mret [] else
  let remaining := fc_size self - offset in
  let want := Z.min remaining n in
  read_at (u64_add (fc_start self) offset) want.
End accessor.
