(* ===== verification/PxarLookup.v ===== *)
(** * PxarLookup: looking up paths in a pxar archive

    Over any lawful source of the bytes of an archive, the accessor's
    directories are the directories of the tree ([dir_of]); a lookup returns
    what the path names in the tree ([find_path]), and the contents of a file
    found that way are read in place. *)
From S2P Require Import Prelude IoModel Paths PxarFormat GoodbyeTree PxarEncoder PxarTree PxarDecoder PxarRoundtrip PxarAccessor.

(** ** Lemmas: placed bytes *)

(** [c] has [x] at [pos]. *)
Definition holds (c : bytes) (pos : Z) (x : bytes) : Prop := ∃ pre post, c = pre ++ x ++ post ∧ zlen pre = pos.

Lemma holds_app c pos x y : holds c pos (x ++ y) → holds c pos x ∧ holds c (pos + zlen x) y.
Proof.
  intros (pre & post & -> & Hl). split.
  - exists pre, (y ++ post). by rewrite <- app_assoc.
  - exists (pre ++ x), post. rewrite zlen_app, <- !app_assoc. split; [done | lia].
Qed.

Lemma holds_bound c pos x : holds c pos x → 0 <= pos ∧ pos + zlen x <= zlen c.
Proof.
  intros (pre & post & -> & <-). pose proof (zlen_nonneg pre). pose proof (zlen_nonneg post).
  rewrite !zlen_app. lia.
Qed.

Lemma holds_slice c pos x : holds c pos x → ztake (zlen x) (zdrop pos c) = x.
Proof. intros (pre & post & -> & <-). by rewrite zdrop_app, ztake_app. Qed.

(** A search that skips [skip] equal items ends that much deeper. *)
Lemma bst_skip_bound {A} fuel (tree : list A) compare : ∀ i skip j, 0 <= i → 0 <= skip →
  bst_search_loop fuel tree i skip compare = Some j →
  i + skip <= j < zlen tree ∧ ∃ x, get_at tree j = Some x ∧ compare x = Eq.
Proof.
  induction fuel as [| fuel IH]; intros i skip j Hi Hs Hb; [done |]. cbn [bst_search_loop] in Hb.
  destruct (get_at tree i) as [x |] eqn:Hx; [| done]. pose proof (get_at_Some_lt _ _ _ Hx).
  destruct (compare x) eqn:Hc.
  - destruct (Z.eqb_spec skip 0) as [-> |]; [injection Hb as <-; split; [lia | by exists x] |].
    cbv zeta in Hb. destruct (bst_search_loop fuel tree (2 * i + 1) (skip - 1) compare) as [j' |] eqn:Hl.
    + injection Hb as ->. apply IH in Hl; [| lia..]. destruct Hl as [Hl ?]. split; [lia | done].
    + apply IH in Hb; [| lia..]. destruct Hb as [Hb ?]. split; [lia | done].
  - apply IH in Hb; [| lia..]. destruct Hb as [Hb ?]. split; [lia | done].
  - apply IH in Hb; [| lia..]. destruct Hb as [Hb ?]. split; [lia | done].
Qed.

(** ** Entries *)

Definition pnode_meta (n : pnode) : Metadata :=
  match n with PDir _ meta _ | PFile _ meta _ | PLink _ meta _ => meta end.

Definition node_kind (n : pnode) (pos : Z) : EntryKind.EntryKind :=
  match n with
  | PDir _ _ _ => EntryKind.Directory
  | PFile name _ content => EntryKind.File (zlen content) (Some (pos + zlen (filename_bytes name) + 72))
  | PLink _ _ target => EntryKind.Symlink (target ++ [0])
  end.

Section parts.
Context (sip_hash : Z → Z → bytes → Z).

Lemma pemit_parts n pos : pnode_ok n → zlen (fst (pemit sip_hash n pos)) < 2 ^ 64 →
  ∃ t k rest, fst (pemit sip_hash n pos) =
      filename_bytes (pnode_name n) ++ metadata_bytes (pnode_meta n) ++ header_bytes t k ++ rest ∧
    header_ok t k ∧
    match n with
    | PDir _ _ _ => t = PXAR_FILENAME ∨ t = PXAR_GOODBYE
    | PFile _ _ content => t = PXAR_PAYLOAD ∧ k = zlen content ∧ rest = content
    | PLink _ _ target => t = PXAR_SYMLINK ∧ k = zlen target + 1 ∧ rest = target ++ [0]
    end.
Proof.
  intros Hok Hmax. pose proof (zlen_nonneg (pnode_name n)). destruct n as [name meta cs | name meta content | name meta target].
  - rewrite pemit_dir in *. cbn [fst pnode_name pnode_meta] in *. unfold dir_bytes in *.
    destruct (pemit_list sip_hash cs _) as [data items] eqn:Hl.
    set (g := pos + _ + zlen data) in *. set (e0 := pos + zlen (filename_bytes name)) in *.
    rewrite !zlen_app in Hmax. pose proof (zlen_nonneg data). pose proof (zlen_nonneg (goodbye_bytes items g e0)).
    pose proof (zlen_nonneg (metadata_bytes meta)). pose proof (zlen_nonneg (filename_bytes name)).
    destruct (body_header sip_hash cs (pos + zlen (filename_bytes name ++ metadata_bytes meta)) items g e0)
      as (t & k & rest & Hb & Hh & Ht); [eapply items_bound; [exact Hl | lia] | rewrite Hl; cbn [fst]; lia |].
    rewrite Hl in Hb. cbn [fst] in Hb. exists t, k, rest. rewrite <- Hb, <- app_assoc. done.
  - exists PXAR_PAYLOAD, (zlen content), content. cbn [pemit fst pnode_name pnode_meta] in *.
    split; [done |]. split; [| done]. split; [unfold in_u64, PXAR_PAYLOAD; lia |].
    revert Hmax. unfold HEADER_SIZE. pose proof (zlen_nonneg content). zlen_lia.
  - exists PXAR_SYMLINK, (zlen target + 1), (target ++ [0]). cbn [pemit fst pnode_name pnode_meta] in *.
    split; [done |]. split; [| done]. split; [unfold in_u64, PXAR_SYMLINK; lia |].
    revert Hmax. unfold HEADER_SIZE. pose proof (zlen_nonneg target). zlen_lia.
Qed.

End parts.

Lemma pnode_ok_meta n : pnode_ok n → name_ok (pnode_name n) ∧ metadata_ok (pnode_meta n).
Proof. destruct n; cbn; tauto. Qed.

(** ** Goodbye items *)

Definition item_fits (x : GoodbyeItem) : Prop := in_u64 (gi_hash x) ∧ in_u64 (gi_offset x) ∧ in_u64 (gi_size x).

Lemma zlen_item_bytes x : zlen (GoodbyeItem_to_le_bytes x) = 24.
Proof. unfold GoodbyeItem_to_le_bytes. by rewrite !zlen_app, !zlen_to_le_bytes. Qed.

Lemma try_into_array_ok n b : zlen b = n → try_into_array n b = Some b.
Proof. intros Hb. unfold try_into_array. by rewrite (proj2 (Z.eqb_eq _ _) Hb). Qed.

Lemma item_roundtrip x : item_fits x → GoodbyeItem_from_le_bytes (GoodbyeItem_to_le_bytes x) = Ok x.
Proof.
  destruct x as [h o z]. intros (H1 & H2 & H3). cbn in H1, H2, H3.
  unfold GoodbyeItem_from_le_bytes, GoodbyeItem_to_le_bytes, read_u64. cbn [gi_hash gi_offset gi_size].
  set (b1 := to_le_bytes 8 h). set (b2 := to_le_bytes 8 o). set (b3 := to_le_bytes 8 z).
  rewrite (get_range_head b1 _ 8) by (unfold b1; zlen_lia).
  rewrite (get_range_app b1 b2 _ 8 16) by (unfold b1, b2; zlen_lia).
  rewrite (app_assoc b1). rewrite (get_range_tail (b1 ++ b2) b3) by (unfold b1, b2, b3; zlen_lia).
  cbn [mbind option_bind]. rewrite !try_into_array_ok by (unfold b1, b2, b3; zlen_lia).
  unfold io_ok_or, mbind, result_bind, ok_or. cbn. unfold b1, b2, b3. by rewrite !from_to_le_u64.
Qed.

Lemma ztake_item x l : ztake 24 (GoodbyeItem_to_le_bytes x ++ l) = GoodbyeItem_to_le_bytes x.
Proof. rewrite <- (zlen_item_bytes x) at 1. apply ztake_app. Qed.
Lemma zdrop_item x l : zdrop 24 (GoodbyeItem_to_le_bytes x ++ l) = l.
Proof. rewrite <- (zlen_item_bytes x) at 1. apply zdrop_app. Qed.

Lemma parse_items_ok fuel : ∀ tree, Forall item_fits tree → (length tree <= fuel)%nat →
  parse_items (chunks_exact_loop fuel 24 (concat (map GoodbyeItem_to_le_bytes tree))) = Ok tree.
Proof.
  induction fuel as [| fuel IH]; intros tree Hf Hl; (destruct tree as [| x tree]; [done |]).
  - cbn in Hl. lia.
  - apply Forall_cons_iff in Hf as [Hx Hf]. cbn [map concat chunks_exact_loop]. rewrite zlen_app, zlen_item_bytes.
    pose proof (zlen_nonneg (concat (map GoodbyeItem_to_le_bytes tree))).
    destruct (Z.ltb_spec (24 + zlen (concat (map GoodbyeItem_to_le_bytes tree))) 24); [lia |].
    rewrite ztake_item, zdrop_item. cbn [parse_items].
    rewrite item_roundtrip by done. cbn. rewrite IH by (done || (cbn in Hl; lia)). done.
Qed.

Lemma concat_items_len tree : zlen (concat (map GoodbyeItem_to_le_bytes tree)) = zlen tree * 24.
Proof.
  induction tree as [| x tree IH]; [done |]. cbn [map concat].
  rewrite zlen_app, zlen_item_bytes, IH, zlen_cons. lia.
Qed.

(** ** What a lookup finds in a tree *)

Section find.
Context (sip_hash : Z → Z → bytes → Z).

Fixpoint child_at (name : bytes) (ns : list pnode) (pos : Z) : option (pnode * Z) :=
  match ns with
  | [] => None
  | n :: ns =>
      if decide (pnode_name n = name) then Some (n, pos)
      else child_at name ns (pos + zlen (fst (pemit sip_hash n pos)))
  end.

Definition file_entry (base : bytes) (n : pnode) (pos : Z) : FileEntry :=
  mk_FileEntry (mk_Entry (path_join base (pnode_name n)) (pnode_meta n) (node_kind n pos))
    (pos + zlen (fst (pemit sip_hash n pos))).

Fixpoint find_path (base : bytes) (names : list bytes) (ns : list pnode) (pos : Z) :
    result io_error (option FileEntry) :=
  match names with
  | [] => Ok None
  | name :: rest =>
      match child_at name ns pos with
      | None => Ok None
      | Some (n, p) =>
          match rest, n with
          | [], _ => Ok (Some (file_entry base n p))
          | _, PDir dir_name meta children =>
              find_path (path_join base dir_name) rest children
                (p + zlen (filename_bytes dir_name ++ metadata_bytes meta))
          | _, _ => Err (IoOther "pxar: entry is not a directory")
          end
      end
  end.

(** On the way, the names in a directory are different, as in any directory. *)
Fixpoint distinct (names : list bytes) (ns : list pnode) : Prop :=
  match names with
  | [] => True
  | name :: rest =>
      NoDup (map pnode_name ns) ∧
      Forall (λ n, match n with PDir _ _ children => pnode_name n = name → distinct rest children | _ => True end) ns
  end.

(** On the way, at most two names in a directory have the hash of the one that is
    looked up. *)
Definition few_in (name : bytes) (ns : list pnode) : Prop :=
  (length (filter (λ n, hash_filename sip_hash (pnode_name n) = hash_filename sip_hash name) ns) <= 2)%nat.
#[export] Instance few_in_dec name ns : Decision (few_in name ns).
Proof. unfold few_in. apply _. Defined.
Fixpoint few (names : list bytes) (ns : list pnode) : Prop :=
  match names with
  | [] => True
  | name :: rest =>
      few_in name ns ∧
      Forall (λ n, match n with PDir _ _ children => pnode_name n = name → few rest children | _ => True end) ns
  end.

(** The node a list of names leads to, without positions. *)
Fixpoint child_named (name : bytes) (ns : list pnode) : option pnode :=
  match ns with
  | [] => None
  | n :: ns => if decide (pnode_name n = name) then Some n else child_named name ns
  end.
Fixpoint node_named (names : list bytes) (ns : list pnode) : option pnode :=
  match names with
  | [] => None
  | name :: rest =>
      match child_named name ns with
      | None => None
      | Some n =>
          match rest, n with
          | [], _ => Some n
          | _, PDir _ _ children => node_named rest children
          | _, _ => None
          end
      end
  end.

Lemma child_at_named name ns : ∀ pos, fst <$> child_at name ns pos = child_named name ns.
Proof.
  induction ns as [| n ns IH]; intros pos; [done |]. cbn [child_at child_named].
  destruct (decide (pnode_name n = name)); [done | apply IH].
Qed.

Lemma pemit_item n pos :
  snd (pemit sip_hash n pos) = mk_GoodbyeItem (hash_filename sip_hash (pnode_name n)) pos (zlen (fst (pemit sip_hash n pos))).
Proof. by destruct n. Qed.

Lemma child_at_elem name ns : ∀ pos n p, child_at name ns pos = Some (n, p) →
  n ∈ ns ∧ pnode_name n = name ∧ snd (pemit sip_hash n p) ∈ snd (pemit_list sip_hash ns pos).
Proof.
  induction ns as [| m ns IH]; intros pos n p Hc; [done |]. cbn [child_at pemit_list] in *.
  destruct (pemit sip_hash m pos) as [d e] eqn:Hm. cbn [fst] in Hc. specialize (IH (pos + zlen d) n p).
  destruct (pemit_list sip_hash ns _) as [ds es]. destruct (decide (pnode_name m = name)).
  - injection Hc as <- <-. rewrite Hm. split; [by left |]. split; [done | by left].
  - destruct (IH Hc) as (H1 & H2 & H3). split; [by right |]. split; [done | by right].
Qed.

Lemma pemit_list_hashes ns : ∀ pos,
  map gi_hash (snd (pemit_list sip_hash ns pos)) = map (λ n, hash_filename sip_hash (pnode_name n)) ns.
Proof.
  induction ns as [| n ns IH]; intros pos; [done |]. cbn [pemit_list map].
  pose proof (pemit_item n pos) as Hi. destruct (pemit sip_hash n pos) as [d e]. specialize (IH (pos + zlen d)).
  destruct (pemit_list sip_hash ns _) as [ds es]. cbn [snd map] in *. by rewrite Hi, IH.
Qed.

Lemma child_at_item ns : NoDup (map pnode_name ns) → ∀ pos x, x ∈ snd (pemit_list sip_hash ns pos) →
  ∃ n p, child_at (pnode_name n) ns pos = Some (n, p) ∧ x = snd (pemit sip_hash n p).
Proof.
  induction ns as [| n ns IH]; intros Hnd pos x Hx; cbn [pemit_list map] in *; [by apply not_elem_of_nil in Hx |].
  apply list.NoDup_cons in Hnd as [Hn Hnd]. specialize (IH Hnd (pos + zlen (fst (pemit sip_hash n pos))) x).
  destruct (pemit sip_hash n pos) as [d e] eqn:Hp. destruct (pemit_list sip_hash ns _) as [ds es] eqn:Hl. cbn [fst snd] in *.
  apply elem_of_cons in Hx as [-> | Hx].
  - exists n, pos. cbn [child_at]. by rewrite decide_True, Hp.
  - destruct (IH Hx) as (m & p & Hm & ->). exists m, p. cbn [child_at]. rewrite decide_False, Hp; [done |]. intros He.
    apply Hn. destruct (child_at_elem _ _ _ _ _ Hm) as (Hin & _ & _). rewrite He. apply list_elem_of_fmap. by exists m.
Qed.

Lemma child_at_ge name ns : ∀ pos n p, child_at name ns pos = Some (n, p) → pos <= p.
Proof.
  induction ns as [| m ns IH]; intros pos n p Hc; [done |]. cbn [child_at] in Hc.
  pose proof (zlen_nonneg (fst (pemit sip_hash m pos))). destruct (decide _); [injection Hc as _ <-; lia |]. apply IH in Hc. lia.
Qed.

(** Children with the same item are the same. *)
Lemma child_at_unique ns : ∀ pos name1 name2 n1 n2 p1 p2, child_at name1 ns pos = Some (n1, p1) → child_at name2 ns pos = Some (n2, p2) →
  snd (pemit sip_hash n1 p1) = snd (pemit sip_hash n2 p2) → n1 = n2.
Proof.
  induction ns as [| m ns IH]; intros pos name1 name2 n1 n2 p1 p2 H1 H2 He; [done |]. cbn [child_at] in *.
  assert (0 < zlen (fst (pemit sip_hash m pos))) as Hm.
  { destruct (pemit_head sip_hash m pos) as [r ->]. rewrite zlen_app, zlen_filename_bytes. pose proof (zlen_nonneg r). pose proof (zlen_nonneg (pnode_name m)). lia. }
  assert (p1 = p2) as Hp by (rewrite !pemit_item in He; by injection He).
  destruct (decide (pnode_name m = name1)), (decide (pnode_name m = name2)).
  - congruence.
  - injection H1 as <- <-. apply child_at_ge in H2. lia.
  - injection H2 as <- <-. apply child_at_ge in H1. lia.
  - by apply (IH _ name1 name2 n1 n2 p1 p2 H1 H2).
Qed.

(** A directory has as many items with a hash as names with it. *)
Lemma few_items name ns pos : few_in name ns →
  (length (filter (λ x, gi_hash x = hash_filename sip_hash name) (snd (pemit_list sip_hash ns pos))) <= 2)%nat.
Proof.
  unfold few_in. pose proof (pemit_list_hashes ns pos) as Hh. revert Hh. generalize (snd (pemit_list sip_hash ns pos)) as items.
  generalize (hash_filename sip_hash name) as h. intros h items Hh Hf. etrans; [| exact Hf]. clear Hf. apply Nat.eq_le_incl.
  revert items Hh. induction ns as [| n ns IH]; intros [| x items] Hh; try done. cbn [map] in Hh. injection Hh as Hx Hh.
  rewrite !filter_cons, Hx. destruct (decide _); cbn; by rewrite (IH items Hh).
Qed.
End find.

Section accessor_lemmas.
Context (sip_hash : Z → Z → bytes → Z) (Hsip : ∀ k1 k2 name, in_u64 (sip_hash k1 k2 name)).
Context {T : Type} {HT : ReadAt T} {HTL : ReadAtLaws T} (c : bytes) (Hc : zlen c < 2 ^ 64).

(** [m] run on a source of [c] returns [a]. *)
Definition reads_as {A} (m : stt T io_error A) (a : A) : Prop :=
  ∀ t, represents t c → ∃ t', m t = (Ok a, t') ∧ represents t' c.

Lemma reads_as_bind {A B} (m : stt T io_error A) (f : A → stt T io_error B) a b :
  reads_as m a → reads_as (f a) b → reads_as (m ≫= f) b.
Proof using Type.
  intros H1 H2 t Ht. destruct (H1 t Ht) as (t1 & Hm & Ht1). destruct (H2 t1 Ht1) as (t2 & Hf & Ht2).
  exists t2. by rewrite (stt_bind_ok _ _ _ _ _ Hm).
Qed.

Lemma reads_as_ret {A} (a : A) : reads_as (mret a) a.
Proof using Type. intros t Ht. by exists t. Qed.
Lemma reads_as_lift {A} (r : result io_error A) a : r = Ok a → reads_as (lift r) a.
Proof using Type. intros -> t Ht. by exists t. Qed.

Lemma read_exact_at_loop_ok fuel : ∀ n off acc, (Z.to_nat n <= fuel)%nat → 0 <= off → 0 <= n → off + n <= zlen c →
  reads_as (read_exact_at_loop fuel n off acc) (acc ++ ztake n (zdrop off c)).
Proof using Hc.
  induction fuel as [| fuel IH]; intros n off acc Hf Ho Hn Hmax t Ht; cbn [read_exact_at_loop];
    (destruct (Z.leb_spec n 0); [exists t; rewrite ztake_le, app_nil_r by lia; done |]); [lia |].
  destruct (read_at_law t c off n Ht Ho ltac:(lia)) as (k & t1 & Hr & Ht1 & Hk & Hk2 & Hpos).
  specialize (Hpos ltac:(lia) ltac:(lia)). rewrite (stt_bind_ok _ _ _ _ _ Hr).
  assert (zlen (ztake k (zdrop off c)) = k) as Hlk by (rewrite zlen_ztake, zlen_zdrop; lia). rewrite Hlk.
  destruct (Z.eqb_spec k 0); [lia |]. destruct (Z.ltb_spec n k); [lia |].
  rewrite u64_add_small by (unfold in_u64; lia).
  destruct (IH (n - k) (off + k) (acc ++ ztake k (zdrop off c)) ltac:(lia) ltac:(lia) ltac:(lia) ltac:(lia) t1 Ht1)
    as (t2 & Hl & Ht2).
  exists t2. split; [| done]. rewrite Hl. do 2 f_equal. rewrite <- app_assoc. f_equal.
  replace n with (k + (n - k)) at 2 by lia. rewrite ztake_add by lia. by rewrite zdrop_zdrop by lia.
Qed.

Lemma read_exact_at_ok pos x : holds c pos x → reads_as (read_exact_at (zlen x) pos) x.
Proof using Hc.
  intros Hx. pose proof (holds_bound _ _ _ Hx). pose proof (zlen_nonneg x).
  rewrite <- (holds_slice _ _ _ Hx) at 2. apply read_exact_at_loop_ok; lia.
Qed.

Lemma read_exact_at_ok' n pos x : holds c pos x → zlen x = n → reads_as (read_exact_at n pos) x.
Proof using Hc. intros Hx <-. by apply read_exact_at_ok. Qed.

Lemma acc_read_header_ok pos t n : holds c pos (header_bytes t n) → header_ok t n →
  reads_as (acc_read_header pos) (mk_Header t (n + HEADER_SIZE)).
Proof using Hc.
  intros Hx (Ht & Hn & Hmax). unfold acc_read_header.
  eapply reads_as_bind; [apply (read_exact_at_ok' 16 _ _ Hx), zlen_header_bytes |].
  apply (reads_as_bind _ _ t); [apply reads_as_lift |].
  { unfold dec_read_u64, header_bytes. rewrite get_range_head by zlen_lia. cbn. by rewrite from_to_le_u64. }
  apply (reads_as_bind _ _ (n + HEADER_SIZE)); [apply reads_as_lift |].
  { unfold dec_read_u64, header_bytes. rewrite get_range_tail by zlen_lia. cbn.
    rewrite from_to_le_u64; [done |]. unfold in_u64, HEADER_SIZE in *. lia. }
  eapply reads_as_bind; [by apply reads_as_lift, content_size_ok | apply reads_as_ret].
Qed.

Lemma acc_read_metadata_ok pos m : holds c pos (stat_bytes m) → metadata_ok m →
  reads_as (acc_read_metadata pos (mk_Header PXAR_ENTRY (STAT_SIZE + HEADER_SIZE))) m.
Proof using Hc.
  intros Hx Hm. unfold acc_read_metadata.
  apply (reads_as_bind _ _ STAT_SIZE); [by apply reads_as_lift, content_size_ok |].
  rewrite Z.eqb_refl. cbn [negb].
  eapply reads_as_bind; [apply (read_exact_at_ok' 40 _ _ Hx), zlen_stat_bytes |].
  by apply reads_as_lift, parse_stat_ok.
Qed.

Lemma read_filename_ok pos name : holds c pos (filename_bytes name) → name_ok name →
  reads_as (read_filename pos) (name, pos + zlen (filename_bytes name)).
Proof using Hc.
  intros Hx Hname. pose proof (holds_bound _ _ _ Hx). pose proof (zlen_nonneg name).
  rewrite zlen_filename_bytes in *. apply holds_app in Hx as [Hh Hn]. rewrite zlen_header_bytes in Hn.
  unfold read_filename. eapply reads_as_bind; [apply (acc_read_header_ok _ _ _ Hh) |].
  { split; [unfold in_u64, PXAR_FILENAME; lia | unfold HEADER_SIZE; lia]. }
  cbn [htype full_size]. rewrite Z.eqb_refl. cbn [negb].
  apply (reads_as_bind _ _ (zlen name + 1)); [apply reads_as_lift, content_size_ok; lia |].
  rewrite !u64_add_small by (unfold in_u64, HEADER_SIZE; lia).
  eapply reads_as_bind; [apply (read_exact_at_ok' _ _ _ Hn); zlen_lia |].
  rewrite vec_pop_app, (proj2 (validate_filename_ok name) Hname).
  eapply reads_as_bind; [by apply reads_as_lift |].
  replace (pos + (zlen name + 1 + HEADER_SIZE)) with (pos + (zlen name + 17)) by (unfold HEADER_SIZE; lia).
  apply reads_as_ret.
Qed.

Lemma decode_entry_ok n pos : holds c pos (fst (pemit sip_hash n pos)) → pnode_ok n →
  reads_as (decode_entry (pos + zlen (filename_bytes (pnode_name n))) (pos + zlen (fst (pemit sip_hash n pos))))
    (pnode_meta n, node_kind n pos).
Proof using Hc.
  intros Hx Hok. pose proof (holds_bound _ _ _ Hx). destruct (pnode_ok_meta n Hok) as [Hname Hmeta].
  destruct (pemit_parts sip_hash n pos Hok ltac:(lia)) as (t & k & rest & Heq & Hh & Hcase). pose proof (zlen_nonneg rest).
  set (at0 := pos + zlen (filename_bytes (pnode_name n))) in *. rewrite Heq in Hx |- *.
  pose proof (zlen_nonneg (filename_bytes (pnode_name n))).
  assert (zlen (fst (pemit sip_hash n pos)) = zlen (filename_bytes (pnode_name n)) + 72 + zlen rest) as Hlen
    by (rewrite Heq; zlen_lia).
  apply holds_app in Hx as [_ Hx]. fold at0 in Hx. apply holds_app in Hx as [Hm Hx]. rewrite zlen_metadata_bytes in Hx.
  apply holds_app in Hm as [Hm Hs]. rewrite zlen_header_bytes in Hs. apply holds_app in Hx as [Hi Hx].
  rewrite zlen_header_bytes in Hx.
  rewrite <- Heq, Hlen. clear Heq. unfold decode_entry. eapply reads_as_bind; [apply (acc_read_header_ok _ _ _ Hm) |].
  { split; [done |]. unfold STAT_SIZE, HEADER_SIZE. lia. }
  cbn [htype full_size]. rewrite Z.eqb_refl. cbn [negb].
  unfold HEADER_SIZE, STAT_SIZE. rewrite !u64_add_small by (unfold in_u64; lia).
  eapply reads_as_bind; [apply (acc_read_metadata_ok _ _ Hs Hmeta) |]. cbv zeta.
  destruct (Z.leb_spec (pos + (zlen (filename_bytes (pnode_name n)) + 72 + zlen rest)) (at0 + (40 + 16))); [lia |].
  eapply reads_as_bind; [apply (acc_read_header_ok _ _ _ Hi Hh) |]. cbn [htype].
  destruct n as [name meta cs | name meta content | name meta target]; cbn [pnode_meta node_kind pnode_name] in *.
  - replace (t =? PXAR_PAYLOAD) with false by (by destruct Hcase as [-> | ->]).
    replace (t =? PXAR_SYMLINK) with false by (by destruct Hcase as [-> | ->]).
    replace ((t =? PXAR_FILENAME) || (t =? PXAR_GOODBYE)) with true by (by destruct Hcase as [-> | ->]).
    apply reads_as_ret.
  - destruct Hcase as (-> & -> & ->). rewrite Z.eqb_refl.
    eapply reads_as_bind; [apply reads_as_lift, content_size_ok; apply zlen_nonneg |].
    replace (pos + zlen (filename_bytes name) + 72) with (at0 + (40 + 16) + 16) by lia. apply reads_as_ret.
  - destruct Hcase as (-> & -> & ->). rewrite Z.eqb_refl. pose proof (zlen_nonneg target).
    replace (PXAR_SYMLINK =? PXAR_PAYLOAD) with false by done.
    eapply reads_as_bind; [apply reads_as_lift, content_size_ok; lia |].
    eapply reads_as_bind; [apply (read_exact_at_ok' _ _ _ Hx); zlen_lia |]. apply reads_as_ret.
Qed.

Lemma pemit_list_items ns : ∀ pos x,
  holds c pos (fst (pemit_list sip_hash ns pos)) → x ∈ snd (pemit_list sip_hash ns pos) →
  ∃ n p, n ∈ ns ∧ x = snd (pemit sip_hash n p) ∧ holds c p (fst (pemit sip_hash n p)) ∧
    pos <= p ∧ p + zlen (fst (pemit sip_hash n p)) <= pos + zlen (fst (pemit_list sip_hash ns pos)).
Proof using Type.
  induction ns as [| n ns IH]; intros pos x Hd Hx; cbn [pemit_list] in *; [by apply not_elem_of_nil in Hx |].
  destruct (pemit sip_hash n pos) as [d' e'] eqn:Hp. specialize (IH (pos + zlen d') x).
  destruct (pemit_list sip_hash ns _) as [ds es]. cbn [fst snd] in *. rewrite zlen_app.
  apply holds_app in Hd as [Hd Hds]. pose proof (zlen_nonneg ds). pose proof (zlen_nonneg d').
  apply elem_of_cons in Hx as [-> | Hx].
  - exists n, pos. rewrite Hp. cbn [fst snd]. split; [by left |]. split; [done |]. split; [done | lia].
  - destruct (IH Hds Hx) as (m & p & Hm & He & Hh & H1 & H2). exists m, p.
    split; [by right |]. split; [done |]. split; [done | lia].
Qed.

Record dir_of (d : Directory) (ns : list pnode) (pos : Z) (base : bytes) : Prop := {
  do_path : dir_path d = base;
  do_ofs : dir_goodbye_ofs d = pos + zlen (fst (pemit_list sip_hash ns pos));
  do_search : ∀ h, match bst_search_by (dir_table d) 0 0 (λ item, Z.compare h (gi_hash item)) with
      | Some j => ∃ x, get_at (dir_table d) j = Some (table_item (dir_goodbye_ofs d) x) ∧
                       x ∈ snd (pemit_list sip_hash ns pos) ∧ gi_hash x = h
      | None => ∀ x, x ∈ snd (pemit_list sip_hash ns pos) → gi_hash x ≠ h
      end;
  do_data : holds c pos (fst (pemit_list sip_hash ns pos));
  do_all : ∀ y, y ∈ dir_table d → ∃ x, x ∈ snd (pemit_list sip_hash ns pos) ∧ y = table_item (dir_goodbye_ofs d) x;
  do_twice : ∀ h first, bst_search_by (dir_table d) 0 0 (λ item, Z.compare h (gi_hash item)) = Some first →
      ∃ x rest, snd (pemit_list sip_hash ns pos) ≡ₚ x :: rest ∧
        get_at (dir_table d) first = Some (table_item (dir_goodbye_ofs d) x) ∧ gi_hash x = h ∧
        match bst_search_by (dir_table d) first 1 (λ item, Z.compare h (gi_hash item)) with
        | Some j => ∃ y, y ∈ rest ∧ get_at (dir_table d) j = Some (table_item (dir_goodbye_ofs d) y) ∧ gi_hash y = h
        | None => ∀ y, y ∈ rest → gi_hash y ≠ h
        end;
}.

Lemma open_at_end_ok ns pos base e data items :
  pemit_list sip_hash ns pos = (data, items) → holds c pos data → 0 <= e →
  let g := pos + zlen data in
  holds c g (goodbye_bytes items g e) → (zlen items + 1) * GOODBYE_ITEM_SIZE + HEADER_SIZE < 2 ^ 64 →
  ∃ d, reads_as (open_at_end (g + zlen (goodbye_bytes items g e)) base) d ∧ dir_of d ns pos base.
Proof using Hc Hsip.
  intros Hl Hdata He g Hg Hi. destruct (build_goodbye_table_ok items g e Hi) as (tree & Htab & Hlen & Hsearch & Hall & Htwice).
  pose proof (holds_bound _ _ _ Hdata) as Hdb. pose proof (holds_bound _ _ _ Hg) as Hgb.
  exists (mk_Directory g tree base). split; [| by split; rewrite ?Hl].
  assert (Forall item_fits tree) as Hfits.
  { apply list.Forall_forall. intros y Hy. destruct (Hall y Hy) as (x & Hx & ->).
    destruct (pemit_list_items ns pos x) as (n & p & _ & -> & Hh & Hp1 & Hp2); [by rewrite Hl.. |].
    rewrite pemit_item. pose proof (holds_bound _ _ _ Hh). pose proof (zlen_nonneg (fst (pemit sip_hash n p))).
    split; [apply Hsip |]. unfold table_item, saturating_sub, in_u64 in *. cbn. lia. }
  unfold goodbye_bytes in *. rewrite Htab in *. pose proof (build_goodbye_table_len _ _ _ _ Htab) as Htl.
  set (raw := concat (map GoodbyeItem_to_le_bytes tree)) in *. set (tail := mk_GoodbyeItem _ _ _) in *.
  pose proof (zlen_nonneg items). unfold GOODBYE_ITEM_SIZE, HEADER_SIZE in *.
  apply holds_app in Hg as [_ Hg]. rewrite zlen_header_bytes in Hg. rewrite zlen_app, zlen_header_bytes, Htl in Hgb |- *.
  apply holds_app in Hg as [Hraw Htail]. pose proof (concat_items_len tree) as Hrl. fold raw in Hrl. rewrite Hrl, Hlen in Htail.
  assert (item_fits tail) as Htf.
  { unfold tail, item_fits, in_u64, saturating_sub, PXAR_GOODBYE_TAIL_MARKER. cbn. lia. }
  set (n := zlen items) in *. set (end_ := g + (16 + (n + 1) * 24)) in *.
  unfold open_at_end, checked_sub, GOODBYE_ITEM_SIZE, HEADER_SIZE.
  destruct (Z.leb_spec 24 end_); [| lia].
  apply (reads_as_bind _ _ (end_ - 24)); [by apply reads_as_lift |].
  replace (end_ - 24) with (g + 16 + n * 24) by lia.
  eapply reads_as_bind; [apply (read_exact_at_ok' _ _ _ Htail), zlen_item_bytes |].
  eapply reads_as_bind; [by apply reads_as_lift, item_roundtrip |]. cbn [tail gi_hash gi_size].
  rewrite Z.eqb_refl. cbn [negb]. destruct (Z.leb_spec ((n + 1) * 24 + 16) end_); [| lia].
  apply (reads_as_bind _ _ g); [apply reads_as_lift; unfold io_ok_or, ok_or; f_equal; lia |].
  destruct (Z.leb_spec g end_); [| lia]. cbn [mbind option_bind].
  destruct (Z.leb_spec 16 (end_ - g)); [| lia].
  apply (reads_as_bind _ _ ((n + 1) * 24)); [apply reads_as_lift; unfold io_ok_or, ok_or; f_equal; lia |].
  rewrite Z.mod_mul, Z.div_mul by lia. destruct (Z.eqb_spec ((n + 1) * 24) 0); [lia |]. cbn [Z.eqb negb orb]. cbv zeta.
  rewrite u64_add_small by (unfold in_u64; lia). replace ((n + 1 - 1) * 24) with (zlen raw) by lia.
  eapply reads_as_bind; [by apply read_exact_at_ok |].
  apply (reads_as_bind _ _ tree); [| apply reads_as_ret]. apply reads_as_lift, parse_items_ok; [done |].
  unfold zlen in Hrl. lia.
Qed.

Lemma cursor_ok d n p :
  holds c p (fst (pemit sip_hash n p)) → pnode_ok n → p + zlen (fst (pemit sip_hash n p)) <= dir_goodbye_ofs d → 
  dir_goodbye_ofs d <= zlen c → ∀ j, get_at (dir_table d) j = Some (table_item (dir_goodbye_ofs d) (snd (pemit sip_hash n p))) →
  reads_as (cursor d j) (mk_Cursor (pnode_name n) (p + zlen (filename_bytes (pnode_name n)))
                           (p + zlen (fst (pemit sip_hash n p)))).
Proof using Hc.
  intros Hh Hok Hp Hg j Hj. pose proof (holds_bound _ _ _ Hh). pose proof (zlen_nonneg (fst (pemit sip_hash n p))).
  unfold cursor. rewrite pemit_item in Hj. rewrite Hj. eapply reads_as_bind; [by apply reads_as_lift |].
  unfold table_item, saturating_sub, checked_sub, checked_add. cbn [gi_offset gi_size].
  destruct (Z.leb_spec (Z.max (dir_goodbye_ofs d - p) 0) (dir_goodbye_ofs d)); [| lia].
  apply (reads_as_bind _ _ p); [apply reads_as_lift; unfold io_ok_or, ok_or; f_equal; lia |].
  eapply reads_as_bind; [apply read_filename_ok; [| by apply pnode_ok_meta] |].
  { destruct (pemit_head sip_hash n p) as (r & Hr). rewrite Hr in Hh. by apply holds_app in Hh as [? _]. }
  destruct (Z.ltb_spec (p + zlen (fst (pemit sip_hash n p))) (2 ^ 64)); [| lia].
  eapply reads_as_bind; [by apply reads_as_lift | apply reads_as_ret].
Qed.

Lemma child_at_holds name ns : ∀ pos n p,
  holds c pos (fst (pemit_list sip_hash ns pos)) → child_at sip_hash name ns pos = Some (n, p) →
  holds c p (fst (pemit sip_hash n p)) ∧
  p + zlen (fst (pemit sip_hash n p)) <= pos + zlen (fst (pemit_list sip_hash ns pos)).
Proof using Type.
  induction ns as [| m ns IH]; intros pos n p Hd Hat; [done |]. cbn [child_at pemit_list] in *.
  destruct (pemit sip_hash m pos) as [d e] eqn:Hm. cbn [fst] in Hat. specialize (IH (pos + zlen d) n p).
  destruct (pemit_list sip_hash ns _) as [ds es]. cbn [fst] in *. apply holds_app in Hd as [Hd Hds].
  rewrite zlen_app. destruct (decide (pnode_name m = name)).
  - injection Hat as <- <-. rewrite Hm. cbn [fst]. pose proof (zlen_nonneg ds). split; [done | lia].
  - destruct (IH Hds Hat) as [? ?]. split; [done | lia].
Qed.

(** *** One directory *)

Section one_directory.
Context (d : Directory) (ns : list pnode) (pos : Z) (base name : bytes).
Context (Hd : dir_of d ns pos base) (Hok : Forall pnode_ok ns) (Hnd : NoDup (map pnode_name ns)).

(** What there is to find *)
Definition found_child : option FileEntry :=
  match child_at sip_hash name ns pos with Some (n, p) => Some (file_entry sip_hash base n p) | None => None end.

(** The cursor at the item of a child, and the child it is decoded to *)
Lemma child_cursor n p j : child_at sip_hash (pnode_name n) ns pos = Some (n, p) →
  get_at (dir_table d) j = Some (table_item (dir_goodbye_ofs d) (snd (pemit sip_hash n p))) →
  reads_as (cursor d j) (mk_Cursor (pnode_name n) (p + zlen (filename_bytes (pnode_name n))) (p + zlen (fst (pemit sip_hash n p)))) ∧
  reads_as (decode_cursor d (mk_Cursor (pnode_name n) (p + zlen (filename_bytes (pnode_name n))) (p + zlen (fst (pemit sip_hash n p)))))
    (file_entry sip_hash base n p).
Proof using Hc Hd Hok.
  intros Hat Hj. destruct Hd as [Hpath Hofs _ Hdata _ _]. pose proof (holds_bound _ _ _ Hdata) as Hdb.
  destruct (child_at_holds _ _ _ _ _ Hdata Hat) as [Hh Hp]. destruct (child_at_elem _ _ _ _ _ _ Hat) as (Hn & _ & _).
  pose proof (proj1 (list.Forall_forall _ _) Hok n Hn) as Hokn. split.
  - apply (cursor_ok d n p Hh Hokn); [lia | lia | done].
  - unfold decode_cursor. cbn [cur_start cur_end cur_file_name]. eapply reads_as_bind; [by apply decode_entry_ok |].
    rewrite Hpath. apply reads_as_ret.
Qed.

(** A turn of the loop at the item of a child *)
Lemma lookup_dup_hit fuel first dup j n p : child_at sip_hash (pnode_name n) ns pos = Some (n, p) →
  get_at (dir_table d) j = Some (table_item (dir_goodbye_ofs d) (snd (pemit sip_hash n p))) →
  bst_search_by (dir_table d) first dup (λ item, Z.compare (hash_filename sip_hash name) (gi_hash item)) = Some j →
  ∀ a, (if decide (pnode_name n = name) then a = Some (file_entry sip_hash base n p)
        else reads_as (lookup_dup fuel d name (hash_filename sip_hash name) first (dup + 1)) a) →
  reads_as (lookup_dup (S fuel) d name (hash_filename sip_hash name) first dup) a.
Proof using Hc Hd Hok.
  intros Hat Hj Hs a Ha. destruct (child_cursor n p j Hat Hj) as [Hcur Hdec]. cbn [lookup_dup]. rewrite Hs.
  eapply reads_as_bind; [exact Hcur |]. cbn [cur_file_name]. destruct (decide (pnode_name n = name)); [| exact Ha].
  rewrite Ha. eapply reads_as_bind; [exact Hdec | apply reads_as_ret].
Qed.

(** Whatever hashes there are, what is found is the child of that name. *)
Lemma lookup_dup_sound first : 0 <= first → ∀ fuel dup, 0 <= dup →
  ∃ a, reads_as (lookup_dup fuel d name (hash_filename sip_hash name) first dup) a ∧ (a = None ∨ a = found_child).
Proof using Hc Hd Hok Hnd.
  intros Hfirst fuel. induction fuel as [| fuel IH]; intros dup Hdup; [exists None; split; [apply reads_as_ret | by left] |].
  destruct (bst_search_by (dir_table d) first dup (λ item, Z.compare (hash_filename sip_hash name) (gi_hash item))) as [j |] eqn:Hs.
  - destruct (bst_skip_bound _ _ _ _ _ _ Hfirst Hdup Hs) as (_ & y & Hy & _). 
    destruct (do_all _ _ _ _ Hd y) as (x & Hx & ->).
    { unfold get_at in Hy. destruct (0 <=? j); [by apply list_elem_of_lookup_2 in Hy | done]. }
    destruct (child_at_item _ _ Hnd pos x Hx) as (n & p & Hat & ->). destruct (decide (pnode_name n = name)) as [He | He].
    + exists (Some (file_entry sip_hash base n p)). split; [| right; unfold found_child; by rewrite <- He, Hat].
      eapply lookup_dup_hit; [done.. |]. by rewrite decide_True.
    + destruct (IH (dup + 1) ltac:(lia)) as (a & Ha & Hor). exists a. split; [| done].
      eapply lookup_dup_hit; [done.. |]. by rewrite decide_False.
  - exists None. split; [| by left]. cbn [lookup_dup]. rewrite Hs. apply reads_as_ret.
Qed.

Lemma item_of_child n p : child_at sip_hash name ns pos = Some (n, p) →
  snd (pemit sip_hash n p) ∈ snd (pemit_list sip_hash ns pos) ∧ gi_hash (snd (pemit sip_hash n p)) = hash_filename sip_hash name.
Proof using Type. intros Hat. destruct (child_at_elem _ _ _ _ _ _ Hat) as (_ & <- & Hx). split; [done |]. by rewrite pemit_item. Qed.

(** With at most two names of that hash, it is found. *)
Lemma lookup_component_ok :
  ∃ a, reads_as (lookup_component sip_hash d name) a ∧ (a = None ∨ a = found_child) ∧ (few_in sip_hash name ns → a = found_child).
Proof using Hc Hd Hok Hnd.
  unfold lookup_component. cbv zeta. set (h := hash_filename sip_hash name).
  destruct (bst_search_by (dir_table d) 0 0 (λ item, Z.compare h (gi_hash item))) as [first |] eqn:Hs0.
  2: { exists None. split; [apply reads_as_ret |]. split; [by left |]. intros _. unfold found_child.
    destruct (child_at sip_hash name ns pos) as [[n p] |] eqn:Hat; [| done]. exfalso.
    destruct (item_of_child n p Hat) as [Hx Hk]. pose proof (do_search _ _ _ _ Hd h) as Hs. rewrite Hs0 in Hs. by apply (Hs _ Hx). }
  assert (0 <= first) as Hfirst.
  { pose proof (bst_skip_bound (S (length (dir_table d))) (dir_table d) _ 0 0 first (Z.le_refl 0) (Z.le_refl 0) Hs0). lia. }
  destruct (lookup_dup_sound first Hfirst (S (length (dir_table d))) 0 (Z.le_refl 0)) as (a & Ha & Hor).
  destruct (child_at sip_hash name ns pos) as [[n p] |] eqn:Hat.
  2: { exists a. split; [done |]. unfold found_child in *. rewrite Hat in *. split; [done |]. by destruct Hor. }
  destruct (decide (few_in sip_hash name ns)) as [Hfew | Hmany]; [| by exists a; split; [| split]].
  exists found_child. split; [| split; [by right | done]].
  destruct (item_of_child n p Hat) as [Hin Hk]. destruct (child_at_elem _ _ _ _ _ _ Hat) as (_ & Hname & _).
  assert (child_at sip_hash (pnode_name n) ns pos = Some (n, p)) as Hat' by by rewrite Hname.
  assert (found_child = Some (file_entry sip_hash base n p)) as -> by (unfold found_child; by rewrite Hat).
  destruct (do_twice _ _ _ _ Hd h first Hs0) as (x & rest & Hperm & Hx & Hxk & Hs1).
  assert (bst_search_by (dir_table d) first 0 (λ item, Z.compare h (gi_hash item)) = Some first) as Hsf.
  { unfold bst_search_by. cbn [bst_search_loop]. rewrite Hx. cbn [table_item gi_hash]. by rewrite Hxk, Z.compare_refl. }
  assert (x ∈ snd (pemit_list sip_hash ns pos)) as Hxin by (rewrite Hperm; by left).
  destruct (child_at_item _ _ Hnd pos x Hxin) as (n1 & p1 & Hat1 & ->).
  eapply lookup_dup_hit; [exact Hat1 | exact Hx | exact Hsf |]. destruct (decide (pnode_name n1 = name)) as [He1 | He1].
  { rewrite He1, Hat in Hat1. by injection Hat1 as -> ->. }
  assert (snd (pemit sip_hash n p) ∈ rest) as Hrest.
  { rewrite Hperm in Hin. apply elem_of_cons in Hin as [Heq | ?]; [| done]. exfalso. apply He1. rewrite <- Hname.
    by rewrite (child_at_unique sip_hash ns pos (pnode_name n1) (pnode_name n) n1 n p1 p Hat1 Hat' (eq_sym Heq)). }
  destruct (bst_search_by (dir_table d) first 1 _) as [j |] eqn:Hsj; [| by destruct (Hs1 _ Hrest)].
  destruct Hs1 as (y & Hy & Hj & Hyk).
  assert (y ∈ snd (pemit_list sip_hash ns pos)) as Hyin by (rewrite Hperm; by right).
  destruct (child_at_item _ _ Hnd pos y Hyin) as (n2 & p2 & Hat2 & ->).
  destruct (length (dir_table d)) as [| fuel] eqn:Hlen.
  { exfalso. apply get_at_Some_lt in Hx. unfold zlen in Hx. lia. }
  eapply lookup_dup_hit; [exact Hat2 | exact Hj | exact Hsj |]. destruct (decide (pnode_name n2 = name)) as [He2 | He2].
  { rewrite He2, Hat in Hat2. by injection Hat2 as -> ->. }
  exfalso. pose proof (few_items sip_hash name ns pos Hfew) as Hcount. fold h in Hcount, Hk.
  apply elem_of_Permutation in Hrest as [r2 Hr2]. rewrite Hr2 in Hy. apply elem_of_cons in Hy as [Heq | Hy].
  { apply He2. rewrite <- Hname.
    by rewrite (child_at_unique sip_hash ns pos (pnode_name n2) (pnode_name n) n2 n p2 p Hat2 Hat' Heq). }
  apply elem_of_Permutation in Hy as [r3 Hr3]. rewrite Hperm, Hr2, Hr3 in Hcount.
  rewrite !filter_cons_True in Hcount by done. cbn in Hcount. lia.
Qed.
End one_directory.

(** [m] run on a source of [c] returns [r], which may be an error. *)
Definition reads_to {A} (m : stt T io_error A) (r : result io_error A) : Prop :=
  ∀ t, represents t c → ∃ t', m t = (r, t') ∧ represents t' c.

Lemma reads_to_bind {A B} (m : stt T io_error A) (f : A → stt T io_error B) a r :
  reads_as m a → reads_to (f a) r → reads_to (m ≫= f) r.
Proof using Type.
  intros H1 H2 t Ht. destruct (H1 t Ht) as (t1 & Hm & Ht1). destruct (H2 t1 Ht1) as (t2 & Hf & Ht2).
  exists t2. by rewrite (stt_bind_ok _ _ _ _ _ Hm).
Qed.

Lemma enter_directory_ok base name meta children p :
  holds c p (fst (pemit sip_hash (PDir name meta children) p)) →
  ∃ d, reads_as (enter_directory (file_entry sip_hash base (PDir name meta children) p)) d ∧
       dir_of d children (p + zlen (filename_bytes name ++ metadata_bytes meta)) (path_join base name).
Proof using Hc Hsip.
  intros Hh. pose proof (holds_bound _ _ _ Hh) as Hb. unfold enter_directory, file_entry.
  cbn [fe_entry fe_entry_end entry_kind entry_path node_kind pnode_name].
  rewrite pemit_dir in *. cbn [fst] in *. unfold dir_bytes in *.
  set (head := filename_bytes name ++ metadata_bytes meta) in *.
  destruct (pemit_list sip_hash children (p + zlen head)) as [data items] eqn:Hl.
  set (g := goodbye_bytes _ _ _) in *. apply holds_app in Hh as [Hhd Hh]. apply holds_app in Hh as [Hd Hg].
  rewrite !zlen_app in Hb |- *. pose proof (zlen_nonneg data). pose proof (zlen_nonneg g). pose proof (zlen_nonneg head).
  destruct (open_at_end_ok children (p + zlen head) (path_join base name) (p + zlen (filename_bytes name)) data items)
    as (d & Hr & Hof); [done | done | pose proof (zlen_nonneg (filename_bytes name)); lia | exact Hg | |].
  { eapply items_bound; [exact Hl | lia]. }
  exists d. split; [| done]. fold g in Hr.
  replace (p + (zlen head + (zlen data + zlen g))) with (p + zlen head + zlen data + zlen g) by lia. done.
Qed.

Lemma lookup_names_ok names : ∀ d ns pos base,
  dir_of d ns pos base → Forall pnode_ok ns → distinct names ns →
  ∃ r, reads_to (lookup_names sip_hash d names) r ∧
    (r = Ok None ∨ r = find_path sip_hash base names ns pos) ∧ (few sip_hash names ns → r = find_path sip_hash base names ns pos).
Proof using Hc Hsip.
  induction names as [| name rest IH]; intros d ns pos base Hd Hok Hun; [exists (Ok None); split; [intros t Ht; by exists t | by split; [left |]] |].
  destruct Hun as [Hnd Hun]. destruct (lookup_component_ok d ns pos base name Hd Hok Hnd) as (a & Ha & Hor & Hfew).
  unfold found_child in Hor, Hfew. cbn [lookup_names find_path few].
  destruct a as [e |].
  2: { exists (Ok None). split; [eapply reads_to_bind; [exact Ha | intros t Ht; by exists t] |]. split; [by left |]. intros [Hf _].
    specialize (Hfew Hf). by destruct (child_at sip_hash name ns pos) as [[n p] |]. }
  destruct Hor as [? | Hor]; [done |]. destruct (child_at sip_hash name ns pos) as [[n p] |] eqn:Hat; [| done]. injection Hor as ->.
  destruct rest as [| name2 rest2].
  { eexists. split; [eapply reads_to_bind; [exact Ha | intros t Ht; by exists t] |]. split; [by right | done]. }
  destruct (child_at_elem _ _ _ _ _ _ Hat) as (Hn & Hname & _).
  destruct (child_at_holds _ _ _ _ _ (do_data _ _ _ _ Hd) Hat) as [Hh _].
  rewrite list.Forall_forall in Hok, Hun. specialize (Hok n Hn). specialize (Hun n Hn).
  destruct n as [dir_name meta children | |]; [| eexists; (split; [eapply reads_to_bind; [exact Ha | intros t Ht; by exists t] |]); (split; [by right | done])..].
  destruct (enter_directory_ok base dir_name meta children p Hh) as (d2 & Hr & Hd2).
  destruct (IH d2 children (p + zlen (filename_bytes dir_name ++ metadata_bytes meta)) (path_join base dir_name)) as (r & Hr2 & Hor2 & Hfew2); [done | | by apply Hun |].
  { destruct Hok as (_ & _ & _ & Hok). by rewrite <- Forall_fold_right in Hok. }
  exists r. split; [eapply reads_to_bind; [exact Ha |]; eapply reads_to_bind; [exact Hr | exact Hr2] |]. split; [done |].
  intros [_ Hf]. apply Hfew2. rewrite list.Forall_forall in Hf. by apply (Hf _ Hn).
Qed.

Lemma open_root_ok meta children :
  c = archive_bytes sip_hash meta children →
  ∃ d, reads_as (open_root (zlen c)) d ∧ dir_of d children (zlen (metadata_bytes meta)) [SLASH].
Proof using Hc Hsip.
  intros Heq. assert (holds c 0 (archive_bytes sip_hash meta children)) as Hh
    by (exists [], []; by rewrite app_nil_r).
  unfold archive_bytes in *. destruct (pemit_list sip_hash children _) as [data items] eqn:Hl.
  set (g := goodbye_bytes _ _ _) in *. apply holds_app in Hh as [_ Hh]. apply holds_app in Hh as [Hd Hg].
  assert (zlen c = zlen (metadata_bytes meta) + zlen data + zlen g) as Hlen by (rewrite Heq; zlen_lia).
  pose proof (zlen_nonneg data). pose proof (zlen_nonneg g). pose proof (zlen_nonneg (metadata_bytes meta)).
  destruct (open_at_end_ok children (zlen (metadata_bytes meta)) [SLASH] 0 data items)
    as (d & Hr & Hof); [done | by rewrite <- (Z.add_0_l (zlen _)) | done | exact Hg | |].
  { eapply items_bound; [exact Hl | lia]. }
  exists d. split; [| done]. unfold open_root. rewrite Hlen. exact Hr.
Qed.

Lemma find_path_named names : ∀ base ns pos e,
  holds c pos (fst (pemit_list sip_hash ns pos)) → find_path sip_hash base names ns pos = Ok (Some e) →
  ∃ n p base', node_named names ns = Some n ∧ e = file_entry sip_hash base' n p ∧
               holds c p (fst (pemit sip_hash n p)).
Proof using Type.
  induction names as [| name rest IH]; intros base ns pos e Hd Hf; [done |]. cbn [find_path node_named] in *.
  destruct (child_at sip_hash name ns pos) as [[n p] |] eqn:Hat; [| done].
  pose proof (child_at_named sip_hash name ns pos) as Hcn. rewrite Hat in Hcn. cbn in Hcn. rewrite <- Hcn.
  destruct (child_at_holds _ _ _ _ _ Hd Hat) as [Hh _]. destruct rest as [| name2 rest2].
  - injection Hf as <-. by exists n, p, base.
  - destruct n as [dir_name meta children | |]; [| done..]. eapply IH; [| exact Hf].
    rewrite pemit_dir in Hh. cbn [fst] in Hh. unfold dir_bytes in Hh.
    destruct (pemit_list sip_hash children _) as [data items].
    apply holds_app in Hh as [_ Hh]. by apply holds_app in Hh as [? _].
Qed.

Lemma file_contents_ok base name meta content p off n t :
  holds c p (fst (pemit sip_hash (PFile name meta content) p)) → represents t c → 0 <= off → 0 <= n →
  ∃ fc, contents (file_entry sip_hash base (PFile name meta content) p) = Ok fc ∧
    ∃ k t', FileContents_read_at fc off n t = (Ok (ztake k (zdrop off content)), t') ∧ represents t' c ∧
      0 <= k <= n ∧ k <= Z.max 0 (zlen content - off) ∧ (0 < n → off < zlen content → 0 < k).
Proof using Hc.
  intros Hh Ht Ho Hn. pose proof (holds_bound _ _ _ Hh) as Hb. eexists. split; [reflexivity |].
  cbn [pemit fst pnode_name] in Hh, Hb. rewrite !app_assoc in Hh. apply holds_app in Hh as [_ Hh].
  replace (zlen ((filename_bytes name ++ metadata_bytes meta) ++ header_bytes PXAR_PAYLOAD (zlen content)))
    with (zlen (filename_bytes name) + 72) in Hh by zlen_lia.
  rewrite !zlen_app, zlen_metadata_bytes, zlen_header_bytes in Hb. pose proof (zlen_nonneg (filename_bytes name)).
  pose proof (zlen_nonneg content).
  unfold FileContents_read_at. cbn [fc_size fc_start]. destruct (Z.leb_spec (zlen content) off).
  - exists 0, t. rewrite ztake_le by lia. split; [done |]. split; [done |]. lia.
  - rewrite u64_add_small by (unfold in_u64; lia). set (start := p + zlen (filename_bytes name) + 72).
    destruct (read_at_law t c (start + off) (Z.min (zlen content - off) n) Ht ltac:(lia) ltac:(lia))
      as (k & t' & Hr & Ht' & Hk & Hk2 & Hpos).
    exists k, t'. cbv zeta. rewrite Hr. split; [| split; [done | lia]]. do 2 f_equal.
    replace (p + (zlen (filename_bytes name) + 72)) with start in Hh by lia.
    destruct Hh as (pre & post & Heq & Hpre). rewrite Heq, <- Hpre. rewrite <- zdrop_zdrop by (try apply zlen_nonneg; lia).
    rewrite zdrop_app, zdrop_app_l by lia. apply ztake_app_l. rewrite zlen_zdrop. lia.
Qed.
End accessor_lemmas.

(** ** Properties *)

(** C15. Random access to a pxar archive: over any lawful source of the bytes of
    an archive (under 2^64 bytes, its names and metadata what the format can
    hold, no directory on the way with one name twice), opening the root and
    looking up a path that splits into names gives what the path names in the tree, namely the entry
    with its path, metadata and kind, no entry when a name is missing, and an
    error when the path goes through something that is not a directory, as long
    as on the way at most two names of a directory have the hash of the one that
    is looked up.  However many have it, what is found is never another entry:
    all that can happen is that the path is not found.  (With three names of one
    hash the third is missed, see [GoodbyeTree.bst_search_misses_third].) *)
Theorem accessor_lookup (sip_hash : Z → Z → bytes → Z) {T : Type} {HT : ReadAt T} {HTL : ReadAtLaws T}
    (meta : Metadata) (children : list pnode) (t : T) (path : bytes) (names : list bytes)
    (Hsip : ∀ k1 k2 name, in_u64 (sip_hash k1 k2 name))
    (Ht : represents t (archive_bytes sip_hash meta children))
    (Hlen : zlen (archive_bytes sip_hash meta children) < 2 ^ 64)
    (Hok : Forall pnode_ok children)
    (Hpath : path_names path = Ok names)
    (Hun : distinct names children) :
  ∃ r t', (root ← open_root (zlen (archive_bytes sip_hash meta children)); lookup sip_hash root path) t = (r, t') ∧
    represents t' (archive_bytes sip_hash meta children) ∧
    (r = Ok None ∨ r = find_path sip_hash [SLASH] names children (zlen (metadata_bytes meta))) ∧
    (few sip_hash names children → r = find_path sip_hash [SLASH] names children (zlen (metadata_bytes meta))).
Proof.
  destruct (open_root_ok sip_hash Hsip _ Hlen meta children eq_refl) as (d & Hr & Hd).
  destruct (Hr t Ht) as (t1 & H1 & Ht1). rewrite (stt_bind_ok _ _ _ _ _ H1). unfold lookup. rewrite Hpath.
  rewrite (stt_bind_ok (lift _) _ t1 names t1) by done.
  destruct (lookup_names_ok sip_hash Hsip _ Hlen names d children _ _ Hd Hok Hun) as (r & Hread & Hor & Hfew).
  destruct (Hread t1 Ht1) as (t' & He & Ht'). by exists r, t'.
Qed.

(** A directory with two names of the same hash, and one more: [twin_sip] hashes a
    name to its first byte. *)
Definition twin_sip (k1 k2 : Z) (name : bytes) : Z := match name with b :: _ => b mod 2 ^ 64 | [] => 0 end.
Definition twin_tree : list pnode :=
  [PDir [100] (dir_builder 493)
     [PFile [98] (file_builder 384) [7]; PFile [98; 98] (file_builder 384) [8; 9]; PFile [99] (file_builder 384) []]].

Lemma twin_sip_in_u64 k1 k2 name : in_u64 (twin_sip k1 k2 name).
Proof. unfold in_u64. destruct name as [| b name]; [cbn; lia |]. cbn [twin_sip]. apply Z.mod_pos_bound. lia. Qed.

Lemma twin_tree_ok : Forall pnode_ok twin_tree.
Proof.
  assert (∀ m, bool_decide (0 <= st_mode (stat m) < 2 ^ 64 ∧ 0 <= st_flags (stat m) < 2 ^ 64 ∧
    0 <= st_uid (stat m) < 2 ^ 32 ∧ 0 <= st_gid (stat m) < 2 ^ 32 ∧
    - 2 ^ 63 <= ts_secs (st_mtime (stat m)) < 2 ^ 63 ∧ 0 <= ts_nanos (st_mtime (stat m)) < 2 ^ 32) = true →
    metadata_ok m) as Hm by (intros m H; by apply bool_decide_eq_true in H).
  assert (∀ n, bool_decide (name_ok n) = true → name_ok n) as Hn by (intros n H1; by apply bool_decide_eq_true in H1).
  repeat constructor; try (apply Hn; reflexivity); apply (Hm _); reflexivity.
Qed.

Lemma twin_tree_distinct name : distinct [[100]; name] twin_tree.
Proof.
  assert (NoDup (map pnode_name twin_tree)) by (by apply (bool_decide_unpack _); vm_compute).
  split; [done |]. constructor; [| constructor]. intros _. split; [| by repeat constructor].
  by apply (bool_decide_unpack _); vm_compute.
Qed.

Lemma twin_tree_few name : name ∈ [[98]; [98; 98]] → few twin_sip [[100]; name] twin_tree.
Proof.
  intros Hn. split; [by vm_compute; lia |]. constructor; [| constructor]. intros _.
  repeat (apply elem_of_cons in Hn as [-> | Hn]; [split; [by vm_compute; lia | by repeat constructor] |]).
  by apply not_elem_of_nil in Hn.
Qed.

(** Both names of the hash are found, each with its own entry. *)
Lemma accessor_lookup_witness :
  (∃ t', (root ← open_root (zlen (archive_bytes twin_sip (dir_builder 493) twin_tree)); lookup twin_sip root [47; 100; 47; 98])
           (archive_bytes twin_sip (dir_builder 493) twin_tree) =
         (Ok (Some (mk_FileEntry (mk_Entry [47; 100; 47; 98] (file_builder 384) (EntryKind.File 1 (Some 220))) 221)), t')) ∧
  (∃ t', (root ← open_root (zlen (archive_bytes twin_sip (dir_builder 493) twin_tree)); lookup twin_sip root [47; 100; 47; 98; 98])
           (archive_bytes twin_sip (dir_builder 493) twin_tree) =
         (Ok (Some (mk_FileEntry (mk_Entry [47; 100; 47; 98; 98] (file_builder 384) (EntryKind.File 2 (Some 312))) 314)), t')).
Proof.
  split.
  - destruct (accessor_lookup twin_sip (dir_builder 493) twin_tree (archive_bytes twin_sip (dir_builder 493) twin_tree)
      [47; 100; 47; 98] [[100]; [98]]) as (r & t' & Hl & _ & _ & Hfew); [exact twin_sip_in_u64 | reflexivity | by vm_compute
      | exact twin_tree_ok | reflexivity | exact (twin_tree_distinct [98]) |].
    exists t'. rewrite Hl, Hfew; [vm_compute; reflexivity | apply twin_tree_few; apply list_elem_of_In; cbn; tauto].
  - destruct (accessor_lookup twin_sip (dir_builder 493) twin_tree (archive_bytes twin_sip (dir_builder 493) twin_tree)
      [47; 100; 47; 98; 98] [[100]; [98; 98]]) as (r & t' & Hl & _ & _ & Hfew); [exact twin_sip_in_u64 | reflexivity | by vm_compute
      | exact twin_tree_ok | reflexivity | exact (twin_tree_distinct [98; 98]) |].
    exists t'. rewrite Hl, Hfew; [vm_compute; reflexivity | apply twin_tree_few; apply list_elem_of_In; cbn; tauto].
Defined.

(** A file found by its path is read in place: the entry a lookup finds
    for a file of the tree has contents, of the file's size, whose positioned
    reads return the file's own bytes at that offset, at least one within the
    file and none past its end. *)
Theorem accessor_reads_file (sip_hash : Z → Z → bytes → Z) {T : Type} {HT : ReadAt T} {HTL : ReadAtLaws T}
    (meta : Metadata) (children : list pnode) (t : T) (names : list bytes) (e : FileEntry)
    (name : bytes) (fmeta : Metadata) (content : bytes) (off n : Z)
    (Ht : represents t (archive_bytes sip_hash meta children))
    (Hlen : zlen (archive_bytes sip_hash meta children) < 2 ^ 64)
    (Hfound : find_path sip_hash [SLASH] names children (zlen (metadata_bytes meta)) = Ok (Some e))
    (Hfile : node_named names children = Some (PFile name fmeta content))
    (Hoff : 0 <= off) (Hn : 0 <= n) :
  ∃ fc, contents e = Ok fc ∧ fc_size fc = zlen content ∧
    ∃ k t', FileContents_read_at fc off n t = (Ok (ztake k (zdrop off content)), t') ∧
      represents t' (archive_bytes sip_hash meta children) ∧
      0 <= k <= n ∧ k <= Z.max 0 (zlen content - off) ∧ (0 < n → off < zlen content → 0 < k).
Proof.
  destruct (find_path_named sip_hash (archive_bytes sip_hash meta children) names [SLASH] children
              (zlen (metadata_bytes meta)) e) as (m & p & base & Hm & -> & Hh); [| done |].
  { unfold archive_bytes. destruct (pemit_list sip_hash children _) as [data items].
    exists (metadata_bytes meta). by eexists. }
  rewrite Hfile in Hm. injection Hm as <-.
  destruct (file_contents_ok sip_hash _ Hlen base name fmeta content p off n t) as (fc & Hc & Hr); [done.. |].
  exists fc. split; [done |]. split; [by injection Hc as <- | done].
Qed.

Lemma accessor_reads_file_witness :
  ∃ e fc k t', find_path toy_sip [SLASH] [[97]] sample_tree 56 = Ok (Some e) ∧ contents e = Ok fc ∧ 0 < k ∧
    FileContents_read_at fc 1 2 (archive_bytes toy_sip (dir_builder 493) sample_tree) = (Ok (ztake k [2; 3; 4]), t').
Proof.
  destruct (find_path toy_sip [SLASH] [[97]] sample_tree 56) as [[e |] |] eqn:Hf; [| vm_compute in Hf; discriminate..].
  destruct (accessor_reads_file toy_sip (dir_builder 493) sample_tree (archive_bytes toy_sip (dir_builder 493) sample_tree)
              [[97]] e [97] (file_builder 420) [1; 2; 3; 4] 1 2) as (fc & Hc & _ & k & t' & Hr & _ & _ & _ & Hpos).
  - reflexivity.
  - vm_compute. reflexivity.
  - exact Hf.
  - reflexivity.
  - lia.
  - lia.
  - exists e, fc, k, t'. split; [reflexivity |]. split; [exact Hc |]. split; [apply Hpos; reflexivity | exact Hr].
Defined.
