(* ===== verification/AsyncIo.v ===== *)
(** * AsyncIo: polled readers, and the asynchronous pxar decoder

    [tokio::io::AsyncRead] as a class over its state, with its law; awaiting a
    read polls until it is ready, and makes every lawful polled reader a lawful
    reader ([awaited]).  [AsyncDecoder] of pbs-client/src/pxar/decoder.rs has
    the code of [Decoder] with every read awaited: it is the decoder over
    [awaited] readers; only its [AsyncContents] is polled by its client. *)
From S2P Require Import Prelude IoModel Paths PxarFormat PxarEncoder PxarTree PxarDecoder PxarRoundtrip.

Module Poll.
Inductive Poll (A : Type) : Type :=
  | Ready (a : A)
  | Pending.
Arguments Ready {A} _.
Arguments Pending {A}.
End Poll.

(** [poll_read n] on a [ReadBuf] with [n] bytes unfilled: the bytes it
    filled.  An implementation retries or converts [Interrupted]. *)
Class AsyncRead (R : Type) : Type := poll_read : Z → R → Poll.Poll (result io_error bytes) * R.

(** A pending reader wakes its task, finitely often before it is ready. *)
Class AsyncReadLaws (R : Type) `{AsyncRead R} : Type := {
  async_remaining : R → bytes;
  wakeups : R → nat;
  poll_read_law : ∀ n r, 0 <= n →
    match poll_read n r with
    | (Poll.Ready res, r') => ∃ k,
        res = Ok (ztake k (async_remaining r)) ∧ async_remaining r' = zdrop k (async_remaining r) ∧
        0 <= k <= Z.min n (zlen (async_remaining r)) ∧ (0 < n → async_remaining r ≠ [] → 0 < k)
    | (Poll.Pending, r') => async_remaining r' = async_remaining r ∧ (wakeups r' < wakeups r)%nat
    end;
}.

Section await.
Context {R : Type} `{AsyncRead R}.

(** [read(..).await]: the task polls again each time it is woken. *)
Fixpoint await_loop (fuel : nat) (n : Z) : stt R io_error bytes := λ r,
  match poll_read n r with
  | (Poll.Ready res, r') => (res, r')
  | (Poll.Pending, r') => match fuel with O => (Ok [], r') | S fuel => await_loop fuel n r' end
  end.

Context {HL : AsyncReadLaws R}.

#[export] Instance awaited : Read R := λ n r, await_loop (wakeups r) n r.

Lemma await_loop_ok fuel : ∀ n r, 0 <= n → (wakeups r <= fuel)%nat → ∃ k r',
  await_loop fuel n r = (Ok (ztake k (async_remaining r)), r') ∧ async_remaining r' = zdrop k (async_remaining r) ∧
  0 <= k <= Z.min n (zlen (async_remaining r)) ∧ (0 < n → async_remaining r ≠ [] → 0 < k).
Proof.
  induction fuel as [| fuel IH]; intros n r Hn Hf; pose proof (poll_read_law n r Hn) as Hl;
    cbn [await_loop]; destruct (poll_read n r) as [[res |] r'].
  - destruct Hl as (k & -> & Hl). by exists k, r'.
  - destruct Hl as [_ Hl]. lia.
  - destruct Hl as (k & -> & Hl). by exists k, r'.
  - destruct Hl as [Hr Hl]. destruct (IH n r' Hn ltac:(lia)) as (k & r2 & Ha). exists k, r2. by rewrite Hr in Ha.
Qed.

#[export, refine] Instance awaited_laws : ReadLaws R := { remaining := async_remaining }.
Proof. intros n r Hn. by apply await_loop_ok. Defined.

(** More polls than wakeups change nothing. *)
Lemma await_loop_enough n r fuel : 0 <= n → (wakeups r <= fuel)%nat → await_loop fuel n r = read n r.
Proof.
  intros Hn. unfold read, awaited. revert r. induction fuel as [| fuel IH]; intros r Hf.
  - by replace (wakeups r) with 0%nat by lia.
  - pose proof (poll_read_law n r Hn) as Hl. destruct (wakeups r) as [| w] eqn:Hw; cbn [await_loop];
      destruct (poll_read n r) as [[res |] r']; try done; destruct Hl as [_ Hl]; [lia |].
    rewrite IH by lia. clear IH Hf. assert (∀ a b r, (wakeups r <= a)%nat → (wakeups r <= b)%nat →
      await_loop a n r = await_loop b n r) as Hab; [| apply Hab; lia].
    clear -Hn. induction a as [| a IH]; intros b r Ha Hb; pose proof (poll_read_law n r Hn) as Hl;
      destruct b as [| b]; cbn [await_loop]; destruct (poll_read n r) as [[res |] r']; try done;
      destruct Hl as [_ Hl]; [lia.. |]. apply IH; lia.
Qed.
End await.

(** ** [AsyncDecoder] *)

Section async_decoder.
Context {R : Type} {HR : AsyncRead R} {HL : AsyncReadLaws R}.

Definition AsyncDecoder : Type := Decoder R.
Definition AsyncDecoder_from_tokio (input : R) : AsyncDecoder := Decoder_from_std input.
Definition AsyncDecoder_next : stt AsyncDecoder io_error (option Entry) := next_do.

(** [AsyncContents::poll_read]. *)
#[export] Instance AsyncContents_poll_read : AsyncRead AsyncDecoder := λ n d,
  match dec_state d with
  | State.InPayload remaining =>
      if (remaining <=? 0) || (n =? 0) then (Poll.Ready (Ok []), d) else
      let want := Z.min remaining n in
      let '(polled, input) := poll_read want (dec_input d) in
      let d := mk_Decoder input (dec_path d) (dec_path_lengths d) (dec_pending d) (dec_state d) in
      match polled with
      | Poll.Ready (Ok got) =>
          (Poll.Ready (Ok got),
           mk_Decoder input (dec_path d) (dec_path_lengths d) (dec_pending d) (State.InPayload (remaining - zlen got)))
      | Poll.Ready (Err e) => (Poll.Ready (Err e), d)
      | Poll.Pending => (Poll.Pending, d)
      end
  | _ => (Poll.Ready (Ok []), d)
  end.

Lemma await_contents_loop fuel : ∀ n d, 0 <= n → (wakeups (dec_input d) <= fuel)%nat →
  await_loop fuel n d = Contents_read n d.
Proof.
  induction fuel as [| fuel IH]; intros n d Hn Hf; cbn [await_loop];
    unfold poll_read at 1, AsyncContents_poll_read at 1, Contents_read;
    destruct (dec_state d) as [| | rem |] eqn:Hst; try done;
    destruct (Z.leb_spec rem 0); cbn [orb]; try done; destruct (Z.eqb_spec n 0); try done; cbv zeta.
  - pose proof (poll_read_law (Z.min rem n) (dec_input d) ltac:(lia)) as Hl.
    unfold on_input, zoom, mbind, stt_bind, read, awaited. replace (wakeups (dec_input d)) with 0%nat by lia.
    cbn [await_loop]. destruct (poll_read _ (dec_input d)) as [[[got | e] |] input']; [done | by rewrite Hst |].
    destruct Hl as [_ Hl]. lia.
  - pose proof (poll_read_law (Z.min rem n) (dec_input d) ltac:(lia)) as Hl.
    unfold on_input, zoom, mbind, stt_bind. rewrite <- (await_loop_enough (Z.min rem n) (dec_input d) (S fuel)) by lia. cbn [await_loop].
    destruct (poll_read _ (dec_input d)) as [[[got | e] |] input']; [done | by rewrite Hst |].
    destruct Hl as [_ Hl]. rewrite IH by (cbn; lia). unfold Contents_read. cbn [dec_state].
    destruct (Z.leb_spec rem 0); [lia |]. destruct (Z.eqb_spec n 0); [lia |]. cbn [orb]. cbv zeta.
    unfold on_input, zoom, mbind, stt_bind. cbn [dec_input]. rewrite <- (await_loop_enough _ input' fuel) by lia.
    destruct (await_loop fuel _ input') as [[? | ?] ?]; [done | by rewrite Hst].
Qed.
End async_decoder.

(** A polled reader that is ready every other time, and hands out at most
    [sp_step] bytes. *)
Record SlowPipe : Type := mk_SlowPipe { sp_data : bytes; sp_step : positive; sp_ready : bool }.

#[export] Instance SlowPipe_poll_read : AsyncRead SlowPipe := λ n r,
  if sp_ready r then
    let k := Z.min n (Zpos (sp_step r)) in
    (Poll.Ready (Ok (ztake k (sp_data r))), mk_SlowPipe (zdrop k (sp_data r)) (sp_step r) false)
  else (Poll.Pending, mk_SlowPipe (sp_data r) (sp_step r) true).

#[export, refine] Instance SlowPipe_laws : AsyncReadLaws SlowPipe := {
  async_remaining := sp_data;
  wakeups r := if sp_ready r then 0%nat else 1%nat;
}.
Proof.
  intros n [data step ready] Hn. unfold poll_read, SlowPipe_poll_read. cbn [sp_ready sp_data sp_step].
  destruct ready; [| split; [done | cbn; lia]]. pose proof (zlen_nonneg data).
  exists (Z.min (Z.min n (Zpos step)) (zlen data)). cbn [sp_data]. split; [| split; [| split; [lia |]]].
  - f_equal. destruct (Z.leb_spec (zlen data) (Z.min n (Zpos step))); [| f_equal; lia].
    by rewrite !ztake_ge by lia.
  - destruct (Z.leb_spec (zlen data) (Z.min n (Zpos step))); [| f_equal; lia]. by rewrite !zdrop_ge by lia.
  - intros ? Hne. destruct data as [| b l]; [done |]. rewrite zlen_cons in *. pose proof (zlen_nonneg l). lia.
Defined.

(** ** Properties *)

(** Reading the contents of the current file through the asynchronous
    decoder: polling [AsyncContents] until it is ready, however often the
    input is pending in between, has the effect and the result of one
    blocking read of [Contents]. *)
Theorem async_contents_refines {R : Type} {HR : AsyncRead R} {HL : AsyncReadLaws R}
    (n : Z) (d : AsyncDecoder) (polls : nat)
    (Hn : 0 <= n) (Hpolls : (wakeups (dec_input d) <= polls)%nat) :
  await_loop polls n d = Contents_read n d.
Proof. by apply await_contents_loop. Qed.

Lemma async_contents_refines_witness :
  await_loop 1 4 (mk_Decoder (mk_SlowPipe [1; 2; 3; 4; 5] 3 false) [47] [1] None (State.InPayload 5)) =
  (Ok [1; 2; 3], mk_Decoder (mk_SlowPipe [4; 5] 3 false) [47] [1] None (State.InPayload 2)).
Proof.
  rewrite (async_contents_refines 4 (mk_Decoder (mk_SlowPipe [1; 2; 3; 4; 5] 3 false) [47] [1] None (State.InPayload 5)) 1).
  - reflexivity.
  - lia.
  - cbn. lia.
Defined.
