(* ===== verification/Utf8.v ===== *)
(** * Utf8: [str] validity

    [str::from_utf8] (and [OsStr::to_str]) on raw bytes, and
    [String::from_utf8_lossy], which replaces what is ill-formed. *)
From S2P Require Import Prelude.

Definition in_range (lo hi b : Z) : bool := (lo <=? b) && (b <=? hi).
Definition is_continuation (b : Z) : bool := in_range 128 191 b.

(** Whether a byte string is well-formed UTF-8: no overlong form, no
    surrogate, nothing above U+10FFFF. *)
Fixpoint utf8_valid (l : bytes) : bool :=
  match l with
  | [] => true
  | a :: l =>
      if in_range 0 127 a then utf8_valid l
      else match l with
      | b :: l =>
          if in_range 194 223 a then is_continuation b && utf8_valid l
          else match l with
          | c :: l =>
              if in_range 224 239 a then
                in_range (if a =? 224 then 160 else 128) (if a =? 237 then 159 else 191) b &&
                is_continuation c && utf8_valid l
              else match l with
              | d :: l =>
                  in_range 240 244 a &&
                  in_range (if a =? 240 then 144 else 128) (if a =? 244 then 143 else 191) b &&
                  is_continuation c && is_continuation d && utf8_valid l
              | [] => false
              end
          | [] => false
          end
      | [] => false
      end
  end.

(** [OsStr::to_str] *)
Definition to_str (s : bytes) : option bytes := if utf8_valid s then Some s else None.
(** One step of [Utf8Chunks]: whether a well-formed sequence starts the string,
    and how many bytes it has, or else how many bytes the first ill-formed
    piece has.  Bytes past the end read as zero. *)
Definition utf8_step (l : bytes) : bool * nat :=
  let at_ n := default 0 (l !! n) in
  let a := at_ 0%nat in
  if in_range 0 127 a then (true, 1%nat)
  else if in_range 194 223 a then if is_continuation (at_ 1%nat) then (true, 2%nat) else (false, 1%nat)
  else if in_range 224 239 a then
    if in_range (if a =? 224 then 160 else 128) (if a =? 237 then 159 else 191) (at_ 1%nat) then
      if is_continuation (at_ 2%nat) then (true, 3%nat) else (false, 2%nat)
    else (false, 1%nat)
  else if in_range 240 244 a then
    if in_range (if a =? 240 then 144 else 128) (if a =? 244 then 143 else 191) (at_ 1%nat) then
      if is_continuation (at_ 2%nat) then
        if is_continuation (at_ 3%nat) then (true, 4%nat) else (false, 3%nat)
      else (false, 2%nat)
    else (false, 1%nat)
  else (false, 1%nat).

(** [String::from_utf8_lossy]: each ill-formed piece becomes U+FFFD.  Every
    step takes a byte at least. *)
Fixpoint lossy_loop (fuel : nat) (l : bytes) : bytes :=
  match fuel, l with
  | S fuel, _ :: _ =>
      let '(ok, n) := utf8_step l in
      (if ok then take n l else [239; 191; 189]) ++ lossy_loop fuel (drop n l)
  | _, _ => []
  end.
Definition from_utf8_lossy (l : bytes) : bytes := lossy_loop (length l) l.

Lemma utf8_valid_step a l : utf8_valid (a :: l) = true →
  ∃ n, utf8_step (a :: l) = (true, S n) ∧ (n <= length l)%nat ∧ utf8_valid (drop n l) = true.
Proof.
  unfold utf8_step. cbn [utf8_valid]. change (default 0 ((a :: l) !! 0%nat)) with a.
  destruct (in_range 0 127 a); [intros H; exists 0%nat; split; [done |]; split; [lia | done] |].
  destruct l as [| b l]; [done |]. change (default 0 ((a :: b :: l) !! 1%nat)) with b.
  destruct (in_range 194 223 a).
  { intros [Hb H]%andb_true_iff. exists 1%nat. rewrite Hb. split; [done |]. split; [cbn; lia | done]. }
  destruct l as [| c l]; [done |]. change (default 0 ((a :: b :: c :: l) !! 2%nat)) with c.
  destruct (in_range 224 239 a).
  { intros [[Hb Hc]%andb_true_iff H]%andb_true_iff. exists 2%nat. rewrite Hb, Hc.
    split; [done |]. split; [cbn; lia | done]. }
  destruct l as [| d l]; [done |]. change (default 0 ((a :: b :: c :: d :: l) !! 3%nat)) with d.
  intros [[[[Ha Hb]%andb_true_iff Hc]%andb_true_iff Hd]%andb_true_iff H]%andb_true_iff.
  exists 3%nat. rewrite Ha, Hb, Hc, Hd. split; [done |]. split; [cbn; lia | done].
Qed.

Lemma from_utf8_lossy_valid l : utf8_valid l = true → from_utf8_lossy l = l.
Proof.
  intros Hv. enough (∀ fuel, (length l <= fuel)%nat → lossy_loop fuel l = l) as H by by apply H.
  intros fuel. revert l Hv. induction fuel as [| fuel IH]; intros l Hv Hl.
  - by destruct l; cbn in Hl; [| lia].
  - destruct l as [| a l]; [done |]. destruct (utf8_valid_step a l Hv) as (n & Hs & Hn & Hd).
    cbn [lossy_loop]. rewrite Hs. cbn [drop]. rewrite IH; [| done | rewrite length_drop; cbn in Hl; lia].
    cbn [take app]. by rewrite take_drop.
Qed.

Example from_utf8_lossy_examples :
  (from_utf8_lossy [97; 255; 98], from_utf8_lossy [226; 130; 98], from_utf8_lossy [237; 160; 128]) =
  ([97; 239; 191; 189; 98], [239; 191; 189; 98], [239; 191; 189; 239; 191; 189; 239; 191; 189]).
Proof. vm_compute. reflexivity. Qed.
