(* ===== verification/Text.v ===== *)
(** * Text: strings as sequences of characters

    A [str] is the list of its characters, each a Unicode scalar value; the
    methods of [str] the program uses on characters, and UTF-8 in both
    directions. *)
From Stdlib Require Import Ascii String.
From S2P Require Import Prelude Utf8.
Local Open Scope list_scope.
Local Open Scope Z_scope.

Abbreviation text := (list Z).

(** [char::from_u32] accepts exactly these. *)
Definition is_scalar (c : Z) : bool := in_range 0 55295 c || in_range 57344 1114111 c.
Definition scalar_ok (c : Z) : Prop := is_scalar c = true.
Definition char_from_u32 (c : Z) : option Z := if is_scalar c then Some c else None.

(** The characters of an ASCII literal *)
Definition chars (s : string) : text := map (λ a, Z.of_N (N_of_ascii a)) (list_ascii_of_string s).

(** [char::is_whitespace]: the property White_Space *)
Definition is_whitespace (c : Z) : bool :=
  in_range 9 13 c || (c =? 32) || (c =? 133) || (c =? 160) || (c =? 5760) || in_range 8192 8202 c ||
  (c =? 8232) || (c =? 8233) || (c =? 8239) || (c =? 8287) || (c =? 12288).

(** ** Methods *)

Fixpoint trim_start (s : text) : text :=
  match s with
  | c :: s' => if is_whitespace c then trim_start s' else s
  | [] => []
  end.
Definition trim_end (s : text) : text := rev (trim_start (rev s)).
Definition trim (s : text) : text := trim_end (trim_start s).

Fixpoint starts_with (s prefix : text) : bool :=
  match prefix, s with
  | [], _ => true
  | p :: prefix, c :: s => (c =? p) && starts_with s prefix
  | _ :: _, [] => false
  end.
Definition ends_with (s suffix : text) : bool := starts_with (rev s) (rev suffix).

(** [trim_start_matches] with a pattern of two characters *)
Fixpoint trim_start_pair (a b : Z) (s : text) : text :=
  match s with
  | x :: y :: s' => if (x =? a) && (y =? b) then trim_start_pair a b s' else s
  | _ => s
  end.
Definition trim_end_pair (a b : Z) (s : text) : text := rev (trim_start_pair b a (rev s)).

(** [split] at a character *)
Fixpoint split_char (sep : Z) (s : text) : list text :=
  match s with
  | [] => [[]]
  | c :: s =>
      if c =? sep then [] :: split_char sep s
      else match split_char sep s with
           | part :: parts => (c :: part) :: parts
           | [] => [[c]]
           end
  end.
(** [join] *)
Fixpoint join (sep : text) (parts : list text) : text :=
  match parts with
  | [] => []
  | [part] => part
  | part :: parts => part ++ sep ++ join sep parts
  end.
(** [split_once] at a character *)
Fixpoint split_once (sep : Z) (s : text) : option (text * text) :=
  match s with
  | [] => None
  | c :: s => if c =? sep then Some ([], s) else (λ '(a, b), (c :: a, b)) <$> split_once sep s
  end.

Definition NEWLINE : Z := 10.
Definition CR : Z := 13.

Definition strip_cr (s : text) : text :=
  match rev s with c :: r => if c =? CR then rev r else s | [] => [] end.

(** [str::lines], which is also [BufRead::lines] on the bytes of the string:
    the terminator of a line is a newline with a carriage return before it,
    and there is no empty line after the last terminator. *)
Fixpoint lines_from (line : text) (s : text) : list text :=
  match s with
  | [] => match line with [] => [] | _ => [line] end
  | c :: s => if c =? NEWLINE then strip_cr line :: lines_from [] s else lines_from (line ++ [c]) s
  end.
Definition lines (s : text) : list text := lines_from [] s.

(** ** UTF-8 *)

Definition encode_char (c : Z) : bytes :=
  if c <? 128 then [c]
  else if c <? 2048 then [192 + c / 64; 128 + c mod 64]
  else if c <? 65536 then [224 + c / 4096; 128 + c / 64 mod 64; 128 + c mod 64]
  else [240 + c / 262144; 128 + c / 4096 mod 64; 128 + c / 64 mod 64; 128 + c mod 64].
Definition encode_text (s : text) : bytes := concat (map encode_char s).

(** The characters of a well-formed string *)
Fixpoint decode_text (l : bytes) : text :=
  match l with
  | [] => []
  | a :: l =>
      if a <? 128 then a :: decode_text l
      else match l with
      | b :: l =>
          if a <? 224 then (a - 192) * 64 + (b - 128) :: decode_text l
          else match l with
          | c :: l =>
              if a <? 240 then (a - 224) * 4096 + (b - 128) * 64 + (c - 128) :: decode_text l
              else match l with
              | d :: l => (a - 240) * 262144 + (b - 128) * 4096 + (c - 128) * 64 + (d - 128) :: decode_text l
              | [] => []
              end
          | [] => []
          end
      | [] => []
      end
  end.

(** *** Laws *)

Lemma scalar_cases c : scalar_ok c → 0 <= c <= 55295 ∨ 57344 <= c <= 1114111.
Proof. unfold scalar_ok, is_scalar, in_range. lia. Qed.

Lemma decode_encode_char c rest : scalar_ok c → decode_text (encode_char c ++ rest) = c :: decode_text rest.
Proof.
  intros Hc%scalar_cases. unfold encode_char.
  destruct (Z.ltb_spec c 128); [cbn; by rewrite (proj2 (Z.ltb_lt c 128))|].
  pose proof (Z.div_mod c 64 ltac:(lia)). pose proof (Z.mod_pos_bound c 64 ltac:(lia)).
  destruct (Z.ltb_spec c 2048).
  { cbn. rewrite (proj2 (Z.ltb_ge (192 + c / 64) 128)), (proj2 (Z.ltb_lt (192 + c / 64) 224)) by lia. f_equal. lia. }
  assert (c / 64 = 64 * (c / 4096) + c / 64 mod 64) as E1.
  { change 4096 with (64 * 64). rewrite <-Z.div_div by lia. apply Z.div_mod. lia. }
  pose proof (Z.mod_pos_bound (c / 64) 64 ltac:(lia)).
  destruct (Z.ltb_spec c 65536).
  { cbn. rewrite (proj2 (Z.ltb_ge (224 + c / 4096) 128)), (proj2 (Z.ltb_ge (224 + c / 4096) 224)), (proj2 (Z.ltb_lt (224 + c / 4096) 240)) by lia.
    f_equal. lia. }
  assert (c / 4096 = 64 * (c / 262144) + c / 4096 mod 64) as E2.
  { change 262144 with (4096 * 64). rewrite <-Z.div_div by lia. apply Z.div_mod. lia. }
  pose proof (Z.mod_pos_bound (c / 4096) 64 ltac:(lia)).
  cbn. rewrite (proj2 (Z.ltb_ge (240 + c / 262144) 128)), (proj2 (Z.ltb_ge (240 + c / 262144) 224)),
    (proj2 (Z.ltb_ge (240 + c / 262144) 240)) by lia. f_equal. lia.
Qed.

(** Text that is encoded is read back. *)
Lemma decode_encode_text s : Forall scalar_ok s → decode_text (encode_text s) = s.
Proof.
  unfold encode_text. induction 1 as [|c s Hc _ IH]; [done|]. cbn [map concat]. by rewrite decode_encode_char, IH.
Qed.

Lemma utf8_valid_encode_char c rest : scalar_ok c → utf8_valid (encode_char c ++ rest) = utf8_valid rest.
Proof.
  intros Hc%scalar_cases. unfold encode_char.
  destruct (Z.ltb_spec c 128); [cbn; unfold in_range; by rewrite (proj2 (Z.leb_le 0 c)), (proj2 (Z.leb_le c 127)) by lia|].
  pose proof (Z.div_mod c 64 ltac:(lia)). pose proof (Z.mod_pos_bound c 64 ltac:(lia)).
  assert (∀ x, 0 <= x < 64 → is_continuation (128 + x) = true) as Hcont by (intros x ?; unfold is_continuation, in_range; lia).
  destruct (Z.ltb_spec c 2048).
  { cbn. replace (in_range 0 127 _) with false by (unfold in_range; lia). replace (in_range 194 223 _) with true by (unfold in_range; lia).
    by rewrite Hcont. }
  assert (c / 64 = 64 * (c / 4096) + c / 64 mod 64) as E1.
  { change 4096 with (64 * 64). rewrite <-Z.div_div by lia. apply Z.div_mod. lia. }
  pose proof (Z.mod_pos_bound (c / 64) 64 ltac:(lia)).
  destruct (Z.ltb_spec c 65536).
  { cbn. replace (in_range 0 127 _) with false by (unfold in_range; lia). replace (in_range 194 223 _) with false by (unfold in_range; lia).
    replace (in_range 224 239 _) with true by (unfold in_range; lia). rewrite (Hcont (c mod 64)) by done.
    replace (in_range _ _ (128 + _)) with true; [done|]. unfold in_range. destruct (Z.eqb_spec (224 + c / 4096) 224), (Z.eqb_spec (224 + c / 4096) 237); lia. }
  assert (c / 4096 = 64 * (c / 262144) + c / 4096 mod 64) as E2.
  { change 262144 with (4096 * 64). rewrite <-Z.div_div by lia. apply Z.div_mod. lia. }
  pose proof (Z.mod_pos_bound (c / 4096) 64 ltac:(lia)).
  cbn. replace (in_range 0 127 _) with false by (unfold in_range; lia). replace (in_range 194 223 _) with false by (unfold in_range; lia).
  replace (in_range 224 239 _) with false by (unfold in_range; lia). replace (in_range 240 244 _) with true by (unfold in_range; lia).
  rewrite (Hcont (c mod 64)), (Hcont (c / 64 mod 64)) by done.
  replace (in_range _ _ (128 + _)) with true; [done|]. unfold in_range. destruct (Z.eqb_spec (240 + c / 262144) 240), (Z.eqb_spec (240 + c / 262144) 244); lia.
Qed.
Lemma utf8_valid_encode s : Forall scalar_ok s → utf8_valid (encode_text s) = true.
Proof. unfold encode_text. induction 1 as [|c s Hc _ IH]; [done|]. cbn [map concat]. by rewrite utf8_valid_encode_char. Qed.

(** **** Lines *)

Lemma strip_cr_id s : list.last s ≠ Some CR → strip_cr s = s.
Proof.
  unfold strip_cr. destruct s as [|c s _] using rev_ind; [done|]. rewrite rev_unit, last_snoc. intros Hc.
  destruct (Z.eqb_spec c CR) as [->|]; [done|]. done.
Qed.

Lemma lines_from_app line a rest : NEWLINE ∉ a → lines_from line (a ++ NEWLINE :: rest) = strip_cr (line ++ a) :: lines rest.
Proof.
  revert line. induction a as [|c a IH]; intros line Ha; cbn; [by rewrite app_nil_r|].
  apply not_elem_of_cons in Ha as [Hc Ha]. destruct (Z.eqb_spec c NEWLINE) as [->|]; [done|]. rewrite IH by done. by rewrite <-app_assoc.
Qed.
Lemma lines_cons a rest : NEWLINE ∉ a → lines (a ++ NEWLINE :: rest) = strip_cr a :: lines rest.
Proof. apply lines_from_app. Qed.

Lemma lines_from_newline line s : NEWLINE ∉ line → Forall (λ l, NEWLINE ∉ l) (lines_from line s).
Proof.
  revert line. induction s as [|c s IH]; intros line Hline; cbn.
  - destruct line; [constructor|]. by repeat constructor.
  - destruct (Z.eqb_spec c NEWLINE) as [->|Hc].
    + constructor; [|apply IH; set_solver]. unfold strip_cr. destruct (rev line) as [|x r] eqn:E; [set_solver|].
      destruct (x =? CR); [|done]. intros Hin%list_elem_of_In%in_rev%list_elem_of_In. apply Hline.
      apply list_elem_of_In, in_rev, list_elem_of_In. rewrite E. by right.
    + apply IH. set_solver.
Qed.
Lemma lines_newline s : Forall (λ l, NEWLINE ∉ l) (lines s).
Proof. apply lines_from_newline. set_solver. Qed.

Lemma lines_unlines ls rest : Forall (λ l, NEWLINE ∉ l ∧ list.last l ≠ Some CR) ls →
  lines (concat (map (λ l, l ++ [NEWLINE]) ls) ++ rest) = ls ++ lines rest.
Proof.
  induction 1 as [|l ls [Hn Hcr] _ IH]; [done|]. cbn [map concat]. rewrite <-!app_assoc. cbn [app].
  rewrite lines_cons, strip_cr_id, IH by done. done.
Qed.

(** **** Trimming *)

Lemma trim_start_app_id s r : s ≠ [] → trim_start s = s → trim_start (s ++ r) = s ++ r.
Proof. destruct s as [|c s]; [done|]. intros _. cbn. destruct (is_whitespace c); [|done]. intros H.
  exfalso. assert (length (trim_start s) = length (c :: s)) as E by by rewrite H.
  assert (∀ s, (length (trim_start s) <= length s)%nat) as Hle.
  { clear. induction s as [|c s IH]; [done|]. cbn. destruct (is_whitespace c); cbn; lia. }
  specialize (Hle s). cbn in E. lia.
Qed.
