(* ===== verification/Json.v ===== *)
(** * Json: values of serde_json

    A JSON value, whose numbers are kept as serde_json prints them and whose
    objects are their members in order, the lookups the program makes, and
    [strip_paths] (application/src/utils.rs). *)
From S2P Require Import Prelude Text.
Local Open Scope list_scope.
Local Open Scope Z_scope.

Inductive JsonValue : Type :=
  | JsonNull
  | JsonBool (b : bool)
  | JsonNumber (printed : text)
  | JsonString (s : text)
  | JsonArray (l : list JsonValue)
  | JsonObject (fields : list (text * JsonValue)).

(** serde_json prints arrays and objects. *)
Class JsonDisplay : Type := { json_display : JsonValue → text }.

(** A member by its name; names are unique. *)
Fixpoint member {A} (fields : list (text * A)) (key : text) : option A :=
  match fields with
  | [] => None
  | (k, v) :: fields => if bool_decide (k = key) then Some v else member fields key
  end.
(** [Value::get] with a string: members of objects only *)
Definition json_get (v : JsonValue) (key : text) : option JsonValue :=
  match v with JsonObject fields => member fields key | _ => None end.

(** ** [strip_paths] (application/src/utils.rs) *)

Fixpoint strip_path (v : JsonValue) (parts : list text) : JsonValue :=
  match parts, v with
  | [part], JsonObject fields => JsonObject (filter (λ f, f.1 ≠ part) fields)
  | part :: parts, JsonObject fields =>
      JsonObject (map (λ f, if bool_decide (f.1 = part) then (f.1, strip_path f.2 parts) else f) fields)
  | _, _ => v
  end.
Definition strip_paths (v : JsonValue) (paths : list text) : JsonValue :=
  fold_left (λ v path, strip_path v (split_char 46 path)) paths v.

Fixpoint json_path (v : JsonValue) (parts : list text) : option JsonValue :=
  match parts with
  | [] => Some v
  | part :: parts => v ← json_get v part; json_path v parts
  end.

(** [Value::as_str] and [Value::as_array] *)
Definition as_str (v : JsonValue) : option text := match v with JsonString s => Some s | _ => None end.
Definition as_array (v : JsonValue) : option (list JsonValue) := match v with JsonArray l => Some l | _ => None end.
(** An assignment through [Value::get_mut] with a string: the member is there *)
Definition json_set (v : JsonValue) (key : text) (x : JsonValue) : JsonValue :=
  match v with
  | JsonObject fields => JsonObject (map (λ f, if bool_decide (f.1 = key) then (f.1, x) else f) fields)
  | v => v
  end.

Lemma json_get_set v key x : is_Some (json_get v key) → json_get (json_set v key x) key = Some x.
Proof.
  destruct v as [| | | | |fields]; try (by intros [? [=]]). cbn [json_get json_set]. intros H.
  induction fields as [|[k y] fields IH]; [by destruct H|]. cbn [map member fst] in *. destruct (decide (k = key)) as [->|Hne].
  - rewrite bool_decide_eq_true_2 by done. cbn [member]. by rewrite bool_decide_eq_true_2.
  - rewrite bool_decide_eq_false_2 in * by done. cbn [member]. rewrite bool_decide_eq_false_2 by done. by apply IH.
Qed.
Lemma json_get_set_ne v key key' x : key ≠ key' → json_get (json_set v key x) key' = json_get v key'.
Proof.
  intros Hne. destruct v as [| | | | |fields]; try done. cbn [json_get json_set]. induction fields as [|[k y] fields IH]; [done|].
  cbn [map member fst]. destruct (decide (k = key)) as [->|Hk].
  - rewrite (bool_decide_eq_true_2 (key = key)) by done. cbn [member]. rewrite bool_decide_eq_false_2 by done. apply IH.
  - rewrite (bool_decide_eq_false_2 (k = key)) by done. cbn [member]. by destruct (bool_decide (k = key')).
Qed.
