(* ===== verification/Placeholders.v ===== *)
(** * Placeholders: values from the server's configuration
      (application/src/server/configuration/process/mod.rs)

    The replacements of configuration files name values of the server, of its
    environment and of the program's own configuration between double braces. *)
From Stdlib Require Import Ascii String.
From stdpp Require Import pretty.
From S2P Require Import Prelude Text Json.
Local Open Scope string_scope.
Local Open Scope list_scope.
Local Open Scope Z_scope.

(** ** What placeholders can name *)

(** The part of a server's configuration that is looked up. *)
Record ServerValues : Type := mk_ServerValues {
  memory_limit : Z;
  swap : Z;
  io_weight : option Z;
  cpu_limit : Z;
  disk_space : Z;
  threads : option text;
  default_allocation : option (text * Z);
  environment : list (text * JsonValue);
}.

Section placeholders.
Context {JD : JsonDisplay}.
(** The configuration of the program as JSON, if it can be serialized. *)
Context (server : ServerValues) (config_json : option JsonValue).

Definition to_text (n : Z) : text := chars (pretty n).
Definition env_value (name : text) : option JsonValue := member (environment server) name.

Definition json_to_compact_string (v : JsonValue) : text :=
  match v with
  | JsonString s => s
  | JsonNumber n => n
  | JsonBool b => chars (if b then "true" else "false")
  | JsonNull => []
  | _ => json_display v
  end.

(** An environment variable: strings as they are, anything else as JSON *)
Definition env_text (v : JsonValue) : text :=
  match v with
  | JsonString s => s
  | JsonNull => chars "null"
  | _ => json_to_compact_string v
  end.
Definition lookup_env (parts : list text) : text :=
  match parts with
  | [] => []
  | env_var :: _ => match env_value env_var with Some v => env_text v | None => [] end
  end.

Definition lookup_server_variable (parts : list text) : text :=
  match parts with
  | [] => []
  | section :: parts =>
      if bool_decide (section = chars "build") then
        match parts with
        | [] => []
        | subpath :: parts =>
            if bool_decide (subpath = chars "memory") then to_text (memory_limit server)
            else if bool_decide (subpath = chars "swap") then to_text (swap server)
            else if bool_decide (subpath = chars "io") then match io_weight server with Some v => to_text v | None => chars "500" end
            else if bool_decide (subpath = chars "cpu") then to_text (cpu_limit server)
            else if bool_decide (subpath = chars "disk") then to_text (disk_space server)
            else if bool_decide (subpath = chars "threads") then default [] (threads server)
            else if bool_decide (subpath = chars "default") then
              match parts with
              | [] => []
              | subpath :: _ =>
                  if bool_decide (subpath = chars "port") then default [] ((λ d, to_text d.2) <$> default_allocation server)
                  else if bool_decide (subpath = chars "ip") then default [] (fst <$> default_allocation server)
                  else []
              end
            else if bool_decide (subpath = chars "env") then lookup_env parts
            else []
        end
      else if bool_decide (section = chars "env") then lookup_env parts
      else []
  end.

(** Only the section [docker] is visible, and not its registries. *)
Definition visible_config (config_json : JsonValue) : JsonValue :=
  strip_paths match config_json with
              | JsonObject fields => JsonObject (filter (λ f, f.1 = chars "docker") fields)
              | v => v
              end [chars "docker.registries"].

Definition lookup_config_variable (parts : list text) : option text :=
  match parts with
  | [] => Some []
  | _ =>
      config_json ← config_json;
      Some match json_path (visible_config config_json) parts with
           | Some v => json_to_compact_string v
           | None => chars "{{config." ++ join [46] parts ++ chars "}}"
           end
  end.

Definition OPEN : Z := 123.
Definition CLOSE : Z := 125.

(** [None]: the configuration cannot be serialized. *)
Definition lookup_value (replacement : JsonValue) : option text :=
  match replacement with
  | JsonString value =>
      if negb (starts_with value [OPEN; OPEN]) || negb (ends_with value [CLOSE; CLOSE]) then Some value
      else
        let variable := trim (trim_end_pair CLOSE CLOSE (trim_start_pair OPEN OPEN value)) in
        match split_char 46 variable with
        | [] => Some []
        | section :: section_slice =>
            if bool_decide (section = chars "server") then Some (lookup_server_variable section_slice)
            else if bool_decide (section = chars "config") then lookup_config_variable section_slice
            else if bool_decide (section = chars "env") then Some (lookup_env section_slice)
            else Some []
        end
  | v => Some (json_to_compact_string v)
  end.

(** The loop over the characters: outside of a placeholder, or inside of one
    that was read as far as [inside] says. *)
Fixpoint replace_placeholders (inside : option text) (input : text) : text :=
  match inside, input with
  | None, [] => []
  | None, c :: input' =>
      match input' with
      | c2 :: input2 =>
          if (c =? OPEN) && (c2 =? OPEN) then replace_placeholders (Some [OPEN; OPEN]) input2
          else c :: replace_placeholders None input'
      | [] => [c]
      end
  | Some placeholder, [] => placeholder
  | Some placeholder, c :: input' =>
      match input' with
      | c2 :: input2 =>
          if (c =? CLOSE) && (c2 =? CLOSE) then
            let placeholder := placeholder ++ [CLOSE; CLOSE] in
            default placeholder (lookup_value (JsonString placeholder)) ++ replace_placeholders None input2
          else replace_placeholders (Some (placeholder ++ [c])) input'
      | [] => placeholder ++ [c]
      end
  end.

Definition replace_all_placeholders (input : JsonValue) : text :=
  match input with
  | JsonString s => replace_placeholders None s
  | v => default [] (lookup_value v)
  end.

(** ** The meaning of a replacement *)

(** A template is a sequence of literal pieces and placeholders. *)
Inductive Piece : Type :=
  | Literal (s : text)
  | Placeholder (name : text).
Definition piece_text (p : Piece) : text :=
  match p with
  | Literal s => s
  | Placeholder name => [OPEN; OPEN] ++ name ++ [CLOSE; CLOSE]
  end.
Definition template (l : list Piece) : text := concat (map piece_text l).

Definition expand (p : Piece) : text :=
  match p with
  | Literal s => s
  | Placeholder name => default (piece_text p) (lookup_value (JsonString (piece_text p)))
  end.

(** A literal holds no opening brace; a name no closing one. *)
Definition piece_ok (p : Piece) : Prop :=
  match p with Literal s => OPEN ∉ s | Placeholder name => CLOSE ∉ name end.

Lemma replace_literal s rest : OPEN ∉ s → replace_placeholders None (s ++ rest) = s ++ replace_placeholders None rest.
Proof.
  induction s as [|c s IH]; intros Hs; [done|]. apply not_elem_of_cons in Hs as [Hc Hs].
  cbn [app replace_placeholders]. destruct (s ++ rest) as [|c2 r] eqn:E.
  - apply app_nil in E as [-> ->]. done.
  - destruct (Z.eqb_spec c OPEN) as [->|]; [done|]. cbn [andb]. rewrite IH by done. done.
Qed.

Lemma replace_inside acc name rest : CLOSE ∉ name →
  replace_placeholders (Some acc) (name ++ CLOSE :: CLOSE :: rest) =
  default (acc ++ name ++ [CLOSE; CLOSE]) (lookup_value (JsonString (acc ++ name ++ [CLOSE; CLOSE]))) ++ replace_placeholders None rest.
Proof.
  revert acc. induction name as [|c name IH]; intros acc Hn; [done|]. apply not_elem_of_cons in Hn as [Hc Hn].
  cbn [app replace_placeholders]. destruct (name ++ CLOSE :: CLOSE :: rest) as [|c2 r] eqn:E; [by destruct name|].
  destruct (Z.eqb_spec c CLOSE) as [->|]; [done|]. cbn [andb]. rewrite IH by done. by rewrite <-!app_assoc.
Qed.

(** Placeholders are replaced, and nothing else is.  In a text made of
    literal pieces and placeholders the literal pieces stay and each
    placeholder becomes the value it names, or itself when the program's
    configuration cannot be read. *)
Theorem placeholders_expand l : Forall piece_ok l →
  replace_all_placeholders (JsonString (template l)) = concat (map expand l).
Proof.
  cbn [replace_all_placeholders]. unfold template. induction 1 as [|p l Hp _ IH]; [done|]. cbn [map concat]. destruct p as [s|name]; cbn [piece_text expand].
  - by rewrite replace_literal, IH.
  - rewrite <-!app_assoc. cbn [app]. cbn [replace_placeholders]. rewrite !Z.eqb_refl. cbn [andb app].
    rewrite replace_inside by done. by rewrite IH.
Qed.
End placeholders.

(** ** What placeholders cannot reveal *)

Section secrets.
Context {JD : JsonDisplay}.

Lemma replace_same_config server c1 c2 inside input :
  (∀ parts, lookup_config_variable c1 parts = lookup_config_variable c2 parts) →
  replace_placeholders server c1 inside input = replace_placeholders server c2 inside input.
Proof.
  intros Hc. assert (∀ v, lookup_value server c1 v = lookup_value server c2 v) as Hv.
  { intros []; cbn; try done. destruct (_ || _); [done|]. destruct (split_char _ _); [done|]. by rewrite Hc. }
  assert (∀ n input inside, (length input <= n)%nat → replace_placeholders server c1 inside input = replace_placeholders server c2 inside input) as H.
  { clear input inside. induction n as [|n IH]; intros input inside Hn.
    - destruct input; [by destruct inside|cbn in Hn; lia].
    - destruct input as [|c input]; [by destruct inside|]. cbn in Hn. destruct inside as [p|]; cbn [replace_placeholders]; destruct input as [|ch input2]; try done; cbn in Hn.
      + destruct (_ && _); [|apply IH; cbn; lia]. rewrite Hv. f_equal. apply IH. lia.
      + destruct (_ && _); [apply IH; lia|]. f_equal. apply IH. cbn. lia. }
  by eapply H.
Qed.

(** A configuration with its section [docker], whose registries have
    credentials, and other sections around it *)
Definition wings_config (before after docker1 docker2 : list (text * JsonValue)) (registries : JsonValue) : JsonValue :=
  JsonObject (before ++ (chars "docker", JsonObject (docker1 ++ (chars "registries", registries) :: docker2)) :: after).

Lemma filter_docker_none (l : list (text * JsonValue)) : Forall (λ f, f.1 ≠ chars "docker") l → filter (λ f, f.1 = chars "docker") l = [].
Proof. induction 1 as [|f l Hf _ IH]; [done|]. by rewrite filter_cons_False. Qed.

Lemma visible_wings before after docker1 docker2 registries :
  Forall (λ f, f.1 ≠ chars "docker") before → Forall (λ f, f.1 ≠ chars "docker") after →
  visible_config (wings_config before after docker1 docker2 registries) =
  JsonObject [(chars "docker", JsonObject (filter (λ f, f.1 ≠ chars "registries") (docker1 ++ docker2)))].
Proof.
  intros Hb Ha. unfold visible_config, wings_config. rewrite list.filter_app, filter_docker_none, filter_cons_True, filter_docker_none by done.
  unfold strip_paths. cbn [fold_left app]. change (split_char 46 (chars "docker.registries")) with [chars "docker"; chars "registries"].
  cbn [strip_path map fst snd]. rewrite bool_decide_eq_true_2 by done. cbn [strip_path]. do 4 f_equal.
  by rewrite !list.filter_app, filter_cons_False by (by intros []).
Qed.

(** C31. Placeholders reveal no secrets.  What a replacement becomes does not
    depend on any section of the program's configuration but [docker], and not
    on the registries there, whatever placeholders it has. *)
Theorem placeholders_hide_secrets server before1 after1 before2 after2 docker1 docker2 registries1 registries2 input :
  Forall (λ f, f.1 ≠ chars "docker") (before1 ++ after1 ++ before2 ++ after2) →
  replace_all_placeholders server (Some (wings_config before1 after1 docker1 docker2 registries1)) input =
  replace_all_placeholders server (Some (wings_config before2 after2 docker1 docker2 registries2)) input.
Proof.
  intros (Hb1 & (Ha1 & (Hb2 & Ha2)%Forall_app)%Forall_app)%Forall_app.
  assert (∀ parts, lookup_config_variable (Some (wings_config before1 after1 docker1 docker2 registries1)) parts =
    lookup_config_variable (Some (wings_config before2 after2 docker1 docker2 registries2)) parts) as Hc.
  { intros []; [done|]. unfold lookup_config_variable. cbn [mbind option_bind]. by rewrite !visible_wings. }
  destruct input; try done. by apply replace_same_config.
Qed.
End secrets.

(** ** Examples *)

Module PlaceholderExample.
#[export] Instance display : JsonDisplay := {| json_display _ := chars "..." |}.
Definition server : ServerValues :=
  mk_ServerValues 2048 0 (Some 500) 100 10240 None (Some (chars "10.0.0.1", 25565))
    [(chars "MOTD", JsonString (chars "hello")); (chars "COUNT", JsonNumber (chars "7"))].
Definition wings (secret : string) : JsonValue :=
  wings_config [(chars "token", JsonString (chars secret))] [] [(chars "timezone", JsonString (chars "UTC"))] [] (JsonString (chars secret)).
End PlaceholderExample.
Import PlaceholderExample.

Example placeholder_values :
  map (λ s, replace_all_placeholders server (Some (wings "secret")) (JsonString (chars s)))
    ["{{server.build.default.ip}}:{{server.build.default.port}}"; "{{ env.MOTD }}!"; "{{config.docker.timezone}}";
     "{{config.token}}"; "{{config.docker.registries}}"; "{{server.build.memory"; "{{nothing.here}}"]
  = map chars ["10.0.0.1:25565"; "hello!"; "UTC"; "{{config.token}}"; "{{config.docker.registries}}"; "{{server.build.memory"; ""].
Proof. vm_compute. reflexivity. Qed.

Lemma placeholders_expand_witness :
  Forall piece_ok [Literal (chars "port="); Placeholder (chars "server.build.default.port")] ∧
  replace_all_placeholders server None (JsonString (chars "port={{server.build.default.port}}")) = chars "port=25565".
Proof.
  assert (Forall piece_ok [Literal (chars "port="); Placeholder (chars "server.build.default.port")]) as Hok.
  { repeat constructor; apply (bool_decide_unpack _); vm_compute; exact I. }
  split; [exact Hok|]. exact (placeholders_expand server None _ Hok).
Defined.

Lemma placeholders_hide_secrets_witness :
  replace_all_placeholders server (Some (wings "one")) (JsonString (chars "{{config.token}}")) =
  replace_all_placeholders server (Some (wings "two")) (JsonString (chars "{{config.token}}")).
Proof.
  apply (placeholders_hide_secrets server [(chars "token", JsonString (chars "one"))] [] [(chars "token", JsonString (chars "two"))] []
    [(chars "timezone", JsonString (chars "UTC"))] []).
  repeat constructor; discriminate.
Defined.
