(* ===== verification/Properties.v ===== *)
(** * Properties: configuration files of keys and values
      (application/src/server/configuration/process/properties.rs)

    The parser of [.properties] files with its continuation lines and escapes,
    and the rewriting of a file: its text is parsed, the configured values are
    put in, and it is printed again. *)
From Stdlib Require Import Ascii String.
From S2P Require Import Prelude Utf8 Text Json Placeholders.
Local Open Scope string_scope.
Local Open Scope list_scope.
Local Open Scope Z_scope.

Definition BACKSLASH : Z := 92.
Definition EQUALS : Z := 61.
Definition COLON : Z := 58.

(** ** Escapes *)

Definition hex_digit (n : Z) : Z := if n <? 10 then 48 + n else 87 + n.
(** [{:0width$x}] of a number with at most [width] digits *)
Fixpoint hex (width : nat) (n : Z) : text :=
  match width with O => [] | S width => hex width (n / 16) ++ [hex_digit (n mod 16)] end.
Definition hex_value (c : Z) : option Z :=
  if in_range 48 57 c then Some (c - 48)
  else if in_range 97 102 c then Some (c - 87)
  else if in_range 65 70 c then Some (c - 55)
  else None.
Fixpoint hex_digits (acc : Z) (s : text) : option Z :=
  match s with
  | [] => Some acc
  | c :: s => match hex_value c with Some d => hex_digits (acc * 16 + d) s | None => None end
  end.
(** [u32::from_str_radix(.., 16)] of four characters *)
Definition from_str_radix_16 (s : text) : option Z :=
  match s with
  | [] => None
  | 43 :: (_ :: _) as digits => hex_digits 0 (tl digits)
  | _ => hex_digits 0 s
  end.

Definition quote_char (c : Z) : text :=
  if c =? BACKSLASH then [BACKSLASH; BACKSLASH]
  else if c =? 34 then [BACKSLASH; 34]
  else if c =? 10 then [BACKSLASH; 110]
  else if c =? 13 then [BACKSLASH; 114]
  else if c =? 9 then [BACKSLASH; 116]
  else if c =? 8 then [BACKSLASH; 98]
  else if c =? 12 then [BACKSLASH; 102]
  else if c =? 7 then [BACKSLASH; 97]
  else if c =? 11 then [BACKSLASH; 118]
  else if in_range 32 126 c then [c]
  else if c <? 128 then [BACKSLASH; 120] ++ hex 2 c
  else if c <? 65536 then [BACKSLASH; 117] ++ hex 4 c
  else [BACKSLASH; 85] ++ hex 8 c.
Definition quote_to_ascii (s : text) : text := concat (map quote_char s).

Definition unescape_simple (c : Z) : Z :=
  if c =? 110 then 10 else if c =? 114 then 13 else if c =? 116 then 9 else if c =? 102 then 12 else c.
Fixpoint unescape (input : text) : option text :=
  match input with
  | [] => Some []
  | c :: input =>
      if c =? BACKSLASH then
        match input with
        | [] => Some [BACKSLASH]
        | e :: input =>
            if e =? 117 then
              match input with
              | h1 :: h2 :: h3 :: h4 :: input =>
                  match from_str_radix_16 [h1; h2; h3; h4] with
                  | Some code => match char_from_u32 code with Some ch => cons ch <$> unescape input | None => None end
                  | None => None
                  end
              | _ => None
              end
            else cons (unescape_simple e) <$> unescape input
        end
      else cons c <$> unescape input
  end.

(** ** The parser *)

Inductive PropertyLine : Type :=
  | Pair (key value : text)
  | Comment (comment : text)
  | Blank
  | Raw (raw : text).

(** Whether an odd number of backslashes ends the line *)
Fixpoint count_backslashes (s : text) : nat :=
  match s with c :: s => if c =? BACKSLASH then S (count_backslashes s) else O | [] => O end.
Definition is_continuation (line : text) : bool := Nat.odd (count_backslashes (rev line)).

(** The logical line, its raw text and the lines after it *)
Fixpoint join_lines (logical raw : text) (lines : list text) : text * text * list text :=
  if is_continuation logical then
    let logical := removelast logical in
    match lines with
    | [] => (logical, raw, [])
    | next_line :: lines => join_lines (logical ++ trim_start next_line) (raw ++ NEWLINE :: next_line) lines
    end
  else (logical, raw, lines).

(** The key, and what follows the separator when there is one *)
Fixpoint scan_key (s : text) : text * option (Z * text) :=
  match s with
  | [] => ([], None)
  | c :: s =>
      if c =? BACKSLASH then
        match s with
        | [] => ([c], None)
        | e :: s => let '(key, rest) := scan_key s in (c :: e :: key, rest)
        end
      else if (c =? EQUALS) || (c =? COLON) || is_whitespace c then ([], Some (c, s))
      else let '(key, rest) := scan_key s in (c :: key, rest)
  end.
Fixpoint skip_separator (s : text) : text :=
  match s with
  | [] => []
  | c :: s' =>
      if negb (c =? EQUALS) && negb (c =? COLON) && negb (is_whitespace c) then s
      else if (c =? EQUALS) || (c =? COLON) then trim_start s'
      else skip_separator s'
  end.
Definition split_pair (s : text) : text * text :=
  let '(key, rest) := scan_key s in
  (key, match rest with
        | None => []
        | Some (c, s) => if is_whitespace c then skip_separator s else trim_start s
        end).

Definition parse_logical (logical raw : text) : PropertyLine :=
  let trimmed := trim_start logical in
  match trimmed with
  | [] => Blank
  | c :: _ =>
      if (c =? 35) || (c =? 33) then Comment raw
      else
        let '(key_raw, val_raw) := split_pair trimmed in
        match unescape key_raw, unescape val_raw with
        | Some k, Some v => Pair k v
        | _, _ => Raw raw
        end
  end.

Definition next (lines : list text) : option (PropertyLine * list text) :=
  match lines with
  | [] => None
  | first_line :: lines =>
      let '(logical, raw, lines) := join_lines first_line first_line lines in
      Some (parse_logical logical raw, lines)
  end.

(** Each item takes a line at least. *)
Fixpoint parse_lines (fuel : nat) (lines : list text) : list PropertyLine :=
  match fuel with
  | O => []
  | S fuel => match next lines with Some (item, lines) => item :: parse_lines fuel lines | None => [] end
  end.
Definition PropertiesParser (content : text) : list PropertyLine :=
  let ls := lines content in parse_lines (length ls) ls.

(** ** Rewriting a file *)

Record ServerConfigurationFileReplacement : Type := mk_Replacement {
  rp_match : text;
  rp_if_value : option text;
  rp_insert_new : option bool;
  rp_update_existing : bool;
  rp_replace_with : JsonValue;
}.

Section process.
(** [replace_all_placeholders] for the server *)
Context (replace_all : JsonValue → text).

Fixpoint replace_value (replacements : list ServerConfigurationFileReplacement) (key existing_value : text) : text :=
  match replacements with
  | [] => existing_value
  | r :: replacements =>
      if negb (bool_decide (rp_match r = key)) || negb (rp_update_existing r) then replace_value replacements key existing_value
      else
        let value := replace_all (rp_replace_with r) in
        if match rp_if_value r with Some if_value => negb (bool_decide (existing_value = if_value)) | None => false end
        then replace_value replacements key existing_value
        else replace_value replacements key value
  end.

Definition print_pair (key value : text) : text := key ++ [EQUALS] ++ quote_to_ascii value ++ [NEWLINE].

Definition process_line (replacements : list ServerConfigurationFileReplacement) (line : PropertyLine) : text :=
  match line with
  | Comment comment => comment ++ [NEWLINE]
  | Pair key existing_value => print_pair key (replace_value replacements key existing_value)
  | Blank => [NEWLINE]
  | Raw raw => raw ++ [NEWLINE]
  end.

Definition found_keys (items : list PropertyLine) : list text :=
  omap (λ line, match line with Pair key _ => Some key | _ => None end) items.

Definition insert_missing (found : list text) (replacements : list ServerConfigurationFileReplacement) : text :=
  concat (map (λ r,
    if bool_decide (rp_match r ∈ found) || negb (default true (rp_insert_new r)) then []
    else print_pair (rp_match r) (replace_all (rp_replace_with r))) replacements).

Definition process_properties (content : text) (replacements : list ServerConfigurationFileReplacement) : text :=
  let items := PropertiesParser content in
  concat (map (process_line replacements) items) ++ insert_missing (found_keys items) replacements.
End process.

(** *** As the tests of the source have it *)

Example properties_parse :
  map (λ s, PropertiesParser (chars s)) ["a=b"; "a:b"; "a b"; "a = b"; "key   =   value"; "# c"; "   "; "a=x\ty"; "a=\u0041"]
  = [[Pair (chars "a") (chars "b")]; [Pair (chars "a") (chars "b")]; [Pair (chars "a") (chars "b")]; [Pair (chars "a") (chars "b")];
     [Pair (chars "key") (chars "value")]; [Comment (chars "# c")]; [Blank]; [Pair (chars "a") [120; 9; 121]]; [Pair (chars "a") (chars "A")]].
Proof. vm_compute. reflexivity. Qed.
Example properties_continuation : PropertiesParser (chars "a=b\" ++ [10] ++ chars "  c") = [Pair (chars "a") (chars "bc")].
Proof. vm_compute. reflexivity. Qed.

(** ** Escapes that are read back *)

(** What is read of a character that was written.  The parser knows [\u]
    with four digits and single letters, but not the escapes of the bell, the
    backspace and the vertical tab, nor [\x] and [\U]. *)
Definition reread_char (c : Z) : text :=
  if c =? 7 then [97]
  else if c =? 8 then [98]
  else if c =? 11 then [118]
  else if in_range 32 126 c || (c =? 9) || (c =? 10) || (c =? 12) || (c =? 13) then [c]
  else if c <? 128 then 120 :: hex 2 c
  else if c <? 65536 then [c]
  else 85 :: hex 8 c.
Definition reread (s : text) : text := concat (map reread_char s).
(** The characters that survive *)
Definition survives (c : Z) : Prop := reread_char c = [c].
#[export] Instance survives_decision c : Decision (survives c).
Proof. unfold survives. apply _. Defined.

Lemma reread_survivors s : Forall survives s → reread s = s.
Proof. unfold reread. induction 1 as [|c s Hc _ IH]; [done|]. cbn [map concat]. by rewrite Hc, IH. Qed.

Lemma hex_digit_bounds n : 0 <= n < 16 → 48 <= hex_digit n <= 57 ∨ 97 <= hex_digit n <= 102.
Proof. unfold hex_digit. case_match; lia. Qed.
Lemma hex_value_digit n : 0 <= n < 16 → hex_value (hex_digit n) = Some n.
Proof.
  intros Hn. unfold hex_value, hex_digit, in_range. destruct (Z.ltb_spec n 10).
  - rewrite (proj2 (Z.leb_le 48 (48 + n))), (proj2 (Z.leb_le (48 + n) 57)) by lia. cbn. f_equal. lia.
  - rewrite (proj2 (Z.leb_gt (87 + n) 57)), (proj2 (Z.leb_le 97 (87 + n))), (proj2 (Z.leb_le (87 + n) 102)) by lia. rewrite andb_false_r. cbn. f_equal. lia.
Qed.
Lemma hex_digits_app acc s t : hex_digits acc (s ++ t) = acc' ← hex_digits acc s; hex_digits acc' t.
Proof. revert acc. induction s as [|c s IH]; intros acc; [done|]. cbn. destruct (hex_value c); [apply IH|done]. Qed.
Lemma hex_digits_hex width acc n : 0 <= n < 16 ^ Z.of_nat width → hex_digits acc (hex width n) = Some (acc * 16 ^ Z.of_nat width + n).
Proof.
  revert n. induction width as [|width IH]; intros n Hn.
  - cbn in *. f_equal. lia.
  - rewrite Nat2Z.inj_succ, Z.pow_succ_r in Hn |- * by lia. cbn [hex]. rewrite hex_digits_app, IH.
    + cbn. rewrite hex_value_digit by (apply Z.mod_pos_bound; lia). cbn. f_equal. pose proof (Z.div_mod n 16 ltac:(lia)). lia.
    + split; [apply Z.div_pos; lia|]. apply Z.div_lt_upper_bound; lia.
Qed.

(** Neither a backslash nor a blank is among the digits. *)
Lemma hex_plain width n : Forall (λ c, 48 <= c <= 57 ∨ 97 <= c <= 102) (hex width n).
Proof.
  revert n. induction width as [|width IH]; intros n; [constructor|]. cbn [hex]. apply Forall_app. split; [apply IH|].
  constructor; [|constructor]. apply hex_digit_bounds, Z.mod_pos_bound. lia.
Qed.

Lemma unescape_plain s rest : Forall (λ c, c ≠ BACKSLASH) s → unescape (s ++ rest) = app s <$> unescape rest.
Proof.
  induction 1 as [|c s Hc _ IH]; cbn [app unescape]; [by destruct (unescape rest)|].
  destruct (Z.eqb_spec c BACKSLASH); [done|]. rewrite IH. by destruct (unescape rest).
Qed.
Lemma unescape_hex width n rest : unescape (hex width n ++ rest) = app (hex width n) <$> unescape rest.
Proof. apply unescape_plain. eapply Forall_impl; [|apply hex_plain]. cbn. unfold BACKSLASH. intros. lia. Qed.

Lemma hex_4 c : hex 4 c = [hex_digit (c / 16 / 16 / 16 mod 16); hex_digit (c / 16 / 16 mod 16); hex_digit (c / 16 mod 16); hex_digit (c mod 16)].
Proof. done. Qed.
Lemma from_str_radix_hex c : 0 <= c < 65536 → from_str_radix_16 (hex 4 c) = Some c.
Proof.
  intros Hc. assert (from_str_radix_16 (hex 4 c) = hex_digits 0 (hex 4 c)) as ->.
  { rewrite hex_4. set (d := hex_digit _). assert (48 <= d <= 57 ∨ 97 <= d <= 102) as Hd by (apply hex_digit_bounds, Z.mod_pos_bound; lia).
    clearbody d. unfold from_str_radix_16. repeat case_match; subst; try done; lia. }
  rewrite hex_digits_hex by (cbn; lia). f_equal.
Qed.

Lemma unescape_quote_char c rest : scalar_ok c → unescape (quote_char c ++ rest) = app (reread_char c) <$> unescape rest.
Proof.
  intros Hc. unfold quote_char, reread_char.
  destruct (Z.eqb_spec c BACKSLASH) as [->|]; [cbn; by destruct (unescape rest)|].
  repeat (match goal with |- context [if c =? ?n then _ else _] => destruct (Z.eqb_spec c n) as [->|] end; [cbn; by destruct (unescape rest)|]).
  destruct (in_range 32 126 c) eqn:Hprint; cbn [orb].
  { rewrite unescape_plain; [by destruct (unescape rest)|]. by repeat constructor. }
  repeat (match goal with |- context [c =? ?n] => rewrite (proj2 (Z.eqb_neq c n)) by done end). cbn [orb].
  apply scalar_cases in Hc as Hcases.
  destruct (Z.ltb_spec c 128).
  { rewrite <-app_assoc. cbn [app unescape]. rewrite Z.eqb_refl. change (120 =? 117) with false. cbv iota. rewrite unescape_hex.
    by destruct (unescape rest). }
  destruct (Z.ltb_spec c 65536).
  { pose proof (from_str_radix_hex c ltac:(lia)) as Hr. rewrite hex_4 in *. cbn [app unescape]. rewrite Z.eqb_refl. change (117 =? 117) with true. cbv iota.
    rewrite Hr. unfold char_from_u32. unfold scalar_ok in Hc. rewrite Hc. by destruct (unescape rest). }
  rewrite <-app_assoc. cbn [app unescape]. rewrite Z.eqb_refl. change (85 =? 117) with false. cbv iota. rewrite unescape_hex.
  by destruct (unescape rest).
Qed.

(** The escape of every string can be parsed. *)
Lemma unescape_quote s : Forall scalar_ok s → unescape (quote_to_ascii s) = Some (reread s).
Proof.
  unfold quote_to_ascii, reread. induction 1 as [|c s Hc _ IH]; [done|]. cbn [map concat]. by rewrite unescape_quote_char, IH.
Qed.

(** ** Continuation lines *)

Lemma is_continuation_snoc l c : is_continuation (l ++ [c]) = (c =? BACKSLASH) && negb (is_continuation l).
Proof.
  unfold is_continuation. rewrite rev_app_distr. cbn. destruct (c =? BACKSLASH); [|done]. by rewrite Nat.odd_succ, <-Nat.negb_odd.
Qed.
Lemma is_continuation_app l m : is_continuation l = false → is_continuation (l ++ m) = is_continuation m.
Proof.
  intros Hl. induction m as [|c m IH] using rev_ind; [by rewrite app_nil_r|]. by rewrite app_assoc, !is_continuation_snoc, IH.
Qed.
Lemma is_continuation_plain l c : c ≠ BACKSLASH → is_continuation (l ++ [c]) = false.
Proof. intros Hc. rewrite is_continuation_snoc. by destruct (Z.eqb_spec c BACKSLASH). Qed.
Lemma is_continuation_trim l : is_continuation (trim_start l) = is_continuation l.
Proof.
  induction l as [|c l IH]; [done|]. cbn. destruct (is_whitespace c) eqn:Hc; [|done]. rewrite IH.
  change (c :: l) with ([c] ++ l). rewrite is_continuation_app; [done|]. apply (is_continuation_plain []). by intros ->.
Qed.
Lemma continuation_pop l : is_continuation l = true → is_continuation (removelast l) = false.
Proof.
  destruct l as [|c l _] using rev_ind; [done|]. rewrite is_continuation_snoc, removelast_last.
  by intros [_ ?%negb_true_iff]%andb_true_iff.
Qed.

Lemma is_continuation_quote_char l c : is_continuation l = false → is_continuation (l ++ quote_char c) = false.
Proof.
  intros Hl. assert (is_continuation (quote_char c) = false) as Hc; [|by rewrite is_continuation_app].
  unfold quote_char. repeat (match goal with |- context [if ?b then _ else _] => destruct b eqn:? end; try done).
  - apply (is_continuation_plain []). unfold BACKSLASH in *. lia.
  - cbn [hex]. rewrite app_assoc. apply is_continuation_plain. unfold BACKSLASH. pose proof (hex_digit_bounds (c mod 16) ltac:(apply Z.mod_pos_bound; lia)). lia.
  - cbn [hex]. rewrite app_assoc. apply is_continuation_plain. unfold BACKSLASH. pose proof (hex_digit_bounds (c mod 16) ltac:(apply Z.mod_pos_bound; lia)). lia.
  - cbn [hex]. rewrite app_assoc. apply is_continuation_plain. unfold BACKSLASH. pose proof (hex_digit_bounds (c mod 16) ltac:(apply Z.mod_pos_bound; lia)). lia.
Qed.
Lemma is_continuation_quote l s : is_continuation l = false → is_continuation (l ++ quote_to_ascii s) = false.
Proof.
  unfold quote_to_ascii. revert l. induction s as [|c s IH]; intros l Hl; cbn [map concat]; [by rewrite app_nil_r|].
  rewrite app_assoc. by apply IH, is_continuation_quote_char.
Qed.

(** Joining lines takes the lines of one item, whatever comes after them,
    unless it runs out of lines. *)
Lemma join_lines_spec current logical raw ls logical' raw' ls' :
  is_continuation logical = is_continuation current →
  (∀ l, list.last (current :: ls) = Some l → is_continuation l = false) →
  join_lines logical raw ls = (logical', raw', ls') →
  ∃ taken, ls = taken ++ ls' ∧ raw' = raw ++ concat (map (cons NEWLINE) taken) ∧
    ∀ rest, join_lines logical raw (taken ++ rest) = (logical', raw', rest).
Proof.
  revert current logical raw. induction ls as [|l ls IH]; intros current logical raw Hcur Hlast E; cbn in E.
  - rewrite (Hlast current eq_refl) in Hcur. rewrite Hcur in E. injection E as <- <- <-. exists []. split_and!; [done|by rewrite app_nil_r|].
    intros rest. destruct rest; cbn; by rewrite Hcur.
  - destruct (is_continuation logical) eqn:Hc.
    + apply (IH l) in E as (taken & -> & -> & Hrest).
      * exists (l :: taken). split_and!; [done|by rewrite <-app_assoc|]. intros rest. cbn. by rewrite Hc.
      * rewrite is_continuation_app by (by apply continuation_pop). apply is_continuation_trim.
      * intros l' Hl'. apply Hlast. by rewrite list.last_cons_cons in *.
    + injection E as <- <- <-. exists []. split_and!; [done|by rewrite app_nil_r|]. intros rest. destruct rest; cbn; by rewrite Hc.
Qed.

(** ** Lines that were printed *)

(** A key that needs no escapes, as keys are printed without any. *)
Definition key_char (c : Z) : bool :=
  negb (c =? BACKSLASH) && negb ((c =? EQUALS) || (c =? COLON) || is_whitespace c) && negb (c =? NEWLINE) && negb (c =? CR).
Definition key_ok (key : text) : Prop :=
  Forall (λ c, key_char c = true) key ∧ match key with c :: _ => c ≠ 35 ∧ c ≠ 33 | [] => True end.

Fixpoint skip_spaces (s : text) : text :=
  match s with c :: s' => if c =? 32 then skip_spaces s' else s | [] => [] end.

Lemma quote_char_visible c : 0 <= c → Forall (λ x, 32 <= x <= 126) (quote_char c).
Proof.
  intros Hc. unfold quote_char, BACKSLASH.
  assert (∀ w n, Forall (λ x, 32 <= x <= 126) (hex w n)) as Hhex.
  { intros w n. eapply Forall_impl; [|apply hex_plain]. cbn. lia. }
  repeat (match goal with |- context [if ?b then _ else _] => destruct b eqn:? end; try (repeat constructor; lia)).
  - repeat constructor; unfold in_range in *; lia.
  - do 2 (constructor; [lia|]). apply Hhex.
  - do 2 (constructor; [lia|]). apply Hhex.
  - do 2 (constructor; [lia|]). apply Hhex.
Qed.
Lemma quote_visible s : Forall scalar_ok s → Forall (λ x, 32 <= x <= 126) (quote_to_ascii s).
Proof.
  unfold quote_to_ascii. induction 1 as [|c s Hc _ IH]; [constructor|]. cbn [map concat]. apply Forall_app. split; [|done].
  apply quote_char_visible. apply scalar_cases in Hc. lia.
Qed.

Lemma visible_whitespace x : 32 <= x <= 126 → is_whitespace x = (x =? 32).
Proof. intros Hx. unfold is_whitespace, in_range. lia. Qed.
Lemma trim_quote_char c rest : scalar_ok c → c ≠ 32 → trim_start (quote_char c ++ rest) = quote_char c ++ rest.
Proof.
  intros Hc%scalar_cases Hne. pose proof (quote_char_visible c ltac:(lia)) as Hv.
  assert (∃ x l, quote_char c = x :: l ∧ x ≠ 32) as (x & l & E & Hx).
  { unfold quote_char, BACKSLASH. repeat (match goal with |- context [if ?b then _ else _] => destruct b eqn:? end; try (eexists _, _; split; [reflexivity|lia])). }
  rewrite E in *. apply Forall_inv in Hv. cbn [app trim_start]. by rewrite visible_whitespace, (proj2 (Z.eqb_neq x 32)).
Qed.
Lemma trim_quote s : Forall scalar_ok s → trim_start (quote_to_ascii s) = quote_to_ascii (skip_spaces s).
Proof.
  unfold quote_to_ascii. induction 1 as [|c s Hc _ IH]; [done|]. cbn [map concat skip_spaces]. destruct (Z.eqb_spec c 32) as [->|]; [done|].
  by apply trim_quote_char.
Qed.

Lemma key_char_spec c : key_char c = true → c ≠ BACKSLASH ∧ (c =? EQUALS) || (c =? COLON) || is_whitespace c = false ∧ c ≠ NEWLINE ∧ c ≠ CR.
Proof. unfold key_char. rewrite !andb_true_iff, !negb_true_iff, !Z.eqb_neq. tauto. Qed.

Lemma scan_key_ok key rest : Forall (λ c, key_char c = true) key → scan_key (key ++ EQUALS :: rest) = (key, Some (EQUALS, rest)).
Proof.
  induction 1 as [|c key Hc _ IH]; [done|]. apply key_char_spec in Hc as (Hb & Hs & _). cbn [app scan_key].
  destruct (Z.eqb_spec c BACKSLASH); [done|]. by rewrite Hs, IH.
Qed.

Lemma skip_spaces_ok s : Forall scalar_ok s → Forall scalar_ok (skip_spaces s).
Proof. induction 1 as [|c s Hc Hs IH]; [constructor|]. cbn. destruct (c =? 32); [done|by constructor]. Qed.

Lemma parse_printed key value raw : key_ok key → Forall scalar_ok value →
  parse_logical (key ++ EQUALS :: quote_to_ascii value) raw = Pair key (reread (skip_spaces value)).
Proof.
  intros [Hkey Hfirst] Hv. unfold parse_logical.
  assert (trim_start (key ++ EQUALS :: quote_to_ascii value) = key ++ EQUALS :: quote_to_ascii value) as ->.
  { destruct key as [|c key]; [done|]. apply Forall_inv, key_char_spec in Hkey as (_ & Hs & _). apply orb_false_iff in Hs as [_ Hs].
    cbn. by rewrite Hs. }
  assert (split_pair (key ++ EQUALS :: quote_to_ascii value) = (key, quote_to_ascii (skip_spaces value))) as Hsplit.
  { unfold split_pair. rewrite scan_key_ok by done. change (is_whitespace EQUALS) with false. by rewrite trim_quote. }
  assert (unescape key = Some key) as Hk.
  { rewrite <-(app_nil_r key) at 1. rewrite unescape_plain; [cbn; by rewrite app_nil_r|].
    eapply Forall_impl; [|exact Hkey]. cbn. by intros c (? & _)%key_char_spec. }
  pose proof (unescape_quote (skip_spaces value) (skip_spaces_ok _ Hv)) as Hu.
  destruct key as [|c key]; cbn [app] in *.
  - change ((EQUALS =? 35) || (EQUALS =? 33)) with false. cbv iota. by rewrite Hsplit, Hk, Hu.
  - destruct Hfirst. rewrite (proj2 (Z.eqb_neq c 35)), (proj2 (Z.eqb_neq c 33)) by done. cbn [orb]. by rewrite Hsplit, Hk, Hu.
Qed.

(** The printed line as a line of the file *)
Lemma lines_printed key value rest : key_ok key → Forall scalar_ok value →
  lines (print_pair key value ++ rest) = (key ++ EQUALS :: quote_to_ascii value) :: lines rest.
Proof.
  intros [Hkey _] Hv. unfold print_pair. rewrite <-!app_assoc. cbn [app]. rewrite app_comm_cons, app_assoc.
  pose proof (quote_visible value Hv) as Hvis. rewrite lines_cons, strip_cr_id; [done| |].
  - destruct (quote_to_ascii value) as [|x l _] using rev_ind; [by rewrite last_snoc|].
    rewrite app_comm_cons, app_assoc, last_snoc. apply Forall_app in Hvis as [_ Hx%Forall_inv]. unfold CR. intros [= ->]. lia.
  - intros [Hin|[|Hin]%elem_of_cons]%elem_of_app; [|done|].
    + rewrite list.Forall_forall in Hkey. apply Hkey, key_char_spec in Hin as (_ & _ & ? & _). done.
    + rewrite list.Forall_forall in Hvis. apply Hvis in Hin. unfold NEWLINE in Hin. lia.
Qed.

(** ** Parsing what was printed *)

Lemma join_lines_shrinks logical raw ls logical' raw' ls' :
  join_lines logical raw ls = (logical', raw', ls') → (length ls' <= length ls)%nat.
Proof.
  revert logical raw. induction ls as [|l ls IH]; intros logical raw; cbn; destruct (is_continuation logical); try (by intros [= _ _ <-]).
  intros H%IH. lia.
Qed.
Lemma next_shrinks ls item ls' : next ls = Some (item, ls') → (length ls' < length ls)%nat.
Proof.
  destruct ls as [|l ls]; [done|]. cbn. destruct (join_lines l l ls) as [[logical raw] ls''] eqn:E. intros [= _ <-].
  apply join_lines_shrinks in E. lia.
Qed.

Definition parse (ls : list text) : list PropertyLine := parse_lines (length ls) ls.
Lemma parse_lines_fuel fuel ls : (length ls <= fuel)%nat → parse_lines fuel ls = parse ls.
Proof.
  unfold parse. remember (length ls) as n eqn:En. revert fuel ls En. induction n as [n IH] using lt_wf_ind. intros fuel ls -> Hle.
  destruct ls as [|l ls]; [by destruct fuel|]. destruct fuel as [|fuel]; [cbn in Hle; lia|]. cbn [length parse_lines].
  destruct (next (l :: ls)) as [[item ls']|] eqn:E; [|done]. apply next_shrinks in E. cbn in *. f_equal.
  rewrite (IH (length ls')) by lia. symmetry. apply IH; [lia|done|lia].
Qed.
Lemma parse_next ls item ls' : next ls = Some (item, ls') → parse ls = item :: parse ls'.
Proof.
  intros E. unfold parse at 1. destruct ls as [|l ls]; [done|]. cbn [length parse_lines]. rewrite E. f_equal.
  apply next_shrinks in E. cbn in E. apply parse_lines_fuel. lia.
Qed.

Lemma next_printed key value rest : key_ok key → Forall scalar_ok value →
  next (lines (print_pair key value ++ rest)) = Some (Pair key (reread (skip_spaces value)), lines rest).
Proof.
  intros Hk Hv. rewrite lines_printed by done. set (line := key ++ EQUALS :: quote_to_ascii value).
  assert (is_continuation line = false) as Hc.
  { unfold line. change (EQUALS :: quote_to_ascii value) with ([EQUALS] ++ quote_to_ascii value). rewrite app_assoc. apply is_continuation_quote.
    by apply is_continuation_plain. }
  unfold next. assert (join_lines line line (lines rest) = (line, line, lines rest)) as -> by (destruct (lines rest); cbn; by rewrite Hc).
  unfold line. by rewrite parse_printed.
Qed.

(** *** Raw lines *)

(** Lines that are printed as they were: none ends in a carriage return, and
    the last one does not ask for another. *)
Definition lines_ok (ls : list text) : Prop :=
  Forall (λ l, NEWLINE ∉ l ∧ list.last l ≠ Some CR) ls ∧ ∀ l, list.last ls = Some l → is_continuation l = false.
Definition content_ok (content : text) : Prop :=
  Forall (λ l, list.last l ≠ Some CR) (lines content) ∧ ∀ l, list.last (lines content) = Some l → is_continuation l = false.

Lemma content_lines_ok content : content_ok content → lines_ok (lines content).
Proof. intros [Hcr Hlast]. split; [|done]. apply list.Forall_and. split; [apply lines_newline|done]. Qed.

Lemma lines_ok_app taken ls : lines_ok (taken ++ ls) → lines_ok ls ∧ Forall (λ l, NEWLINE ∉ l ∧ list.last l ≠ Some CR) taken.
Proof.
  intros [[Ht Hl]%Forall_app Hlast]. split; [|done]. split; [done|]. intros l Hl'. apply Hlast. by rewrite list.last_app, Hl'.
Qed.

Lemma joined_text first taken :
  (first ++ concat (map (cons NEWLINE) taken)) ++ [NEWLINE] = concat (map (λ l, l ++ [NEWLINE]) (first :: taken)).
Proof.
  cbn [map concat]. revert first. induction taken as [|l taken IH]; intros first; cbn [map concat]; [by rewrite !app_nil_r|].
  rewrite <-IH, <-!app_assoc. done.
Qed.

(** An item takes lines from the front; its raw text is these lines. *)
Lemma next_spec ls item ls' : lines_ok ls → next ls = Some (item, ls') →
  ∃ taken, ls = taken ++ ls' ∧ (∀ rest, next (taken ++ rest) = Some (item, rest)) ∧
    ∀ raw, item = Comment raw ∨ item = Raw raw → raw ++ [NEWLINE] = concat (map (λ l, l ++ [NEWLINE]) taken).
Proof.
  intros [_ Hlast] E. destruct ls as [|first ls]; [done|]. cbn in E. destruct (join_lines first first ls) as [[logical raw] ls''] eqn:Ej.
  injection E as <- <-. apply (join_lines_spec first) in Ej as (taken & -> & -> & Hrest); [|done|done].
  exists (first :: taken). split_and!; [done| |].
  - intros rest. cbn [app next]. by rewrite Hrest.
  - intros raw Hraw. rewrite <-joined_text. f_equal. unfold parse_logical in Hraw. repeat case_match; destruct Hraw; by simplify_eq.
Qed.

Section rewriting.
Context (replace_all : JsonValue → text) (replacements : list ServerConfigurationFileReplacement).

(** What a line is after a rewriting, read back *)
Definition rewritten (line : PropertyLine) : PropertyLine :=
  match line with
  | Pair key value => Pair key (reread (skip_spaces (replace_value replace_all replacements key value)))
  | line => line
  end.
(** The pairs that are put at the end, read back *)
Definition inserted (found : list text) : list PropertyLine :=
  omap (λ r,
    if bool_decide (rp_match r ∈ found) || negb (default true (rp_insert_new r)) then None
    else Some (Pair (rp_match r) (reread (skip_spaces (replace_all (rp_replace_with r)))))) replacements.

Definition line_ok (line : PropertyLine) : Prop := match line with Pair key value => key_ok key ∧ Forall scalar_ok value | _ => True end.
Context (Hvalues : ∀ v, Forall scalar_ok (replace_all v)).
Context (Hmatches : Forall (λ r, key_ok (rp_match r)) replacements).

Lemma replace_value_ok rs key value : Forall scalar_ok value → Forall scalar_ok (replace_value replace_all rs key value).
Proof.
  revert value. induction rs as [|r rs IH]; intros value Hv; [done|]. cbn. destruct (_ || _); [by apply IH|].
  destruct (match rp_if_value r with Some _ => _ | None => _ end); by apply IH.
Qed.

Lemma parse_process_line line ls rest : line_ok line → 
  (∀ raw, line = Comment raw ∨ line = Raw raw →
     ∃ taken, raw ++ [NEWLINE] = concat (map (λ l, l ++ [NEWLINE]) taken) ∧ Forall (λ l, NEWLINE ∉ l ∧ list.last l ≠ Some CR) taken ∧
       next (taken ++ lines rest) = Some (line, lines rest)) →
  ls = lines (process_line replace_all replacements line ++ rest) → parse ls = rewritten line :: parse (lines rest).
Proof.
  intros Hok Hraw ->. apply parse_next. destruct line as [key value|raw| |raw]; cbn [process_line rewritten].
  - destruct Hok. apply next_printed; [done|]. by apply replace_value_ok.
  - destruct (Hraw raw) as (taken & -> & Htaken & Hnext); [by left|]. by rewrite lines_unlines.
  - cbn [app]. change (NEWLINE :: rest) with ([] ++ NEWLINE :: rest). rewrite lines_cons by set_solver. cbn. by destruct (lines rest).
  - destruct (Hraw raw) as (taken & -> & Htaken & Hnext); [by right|]. by rewrite lines_unlines.
Qed.

Lemma parse_processed ls out : lines_ok ls → Forall line_ok (parse ls) →
  parse (lines (concat (map (process_line replace_all replacements) (parse ls)) ++ out)) = map rewritten (parse ls) ++ parse (lines out).
Proof.
  remember (length ls) as n eqn:En. revert ls En. induction n as [n IH] using lt_wf_ind. intros ls -> Hls Hitems.
  destruct (next ls) as [[item ls']|] eqn:E; [|by destruct ls as [|l ls]; [|cbn in E; destruct (join_lines _ _ _) as [[] ?]]].
  destruct (next_spec _ _ _ Hls E) as (taken & Els & Hnext & Hraw). rewrite (parse_next _ _ _ E) in *. apply Forall_cons_iff in Hitems as [Hitem Hitems].
  pose proof (next_shrinks _ _ _ E) as Hlt. rewrite Els in Hls. apply lines_ok_app in Hls as [Hls' Htaken].
  cbn [map concat]. rewrite <-app_assoc.
  rewrite (parse_process_line item (lines (process_line replace_all replacements item ++
    concat (map (process_line replace_all replacements) (parse ls')) ++ out)) (concat (map (process_line replace_all replacements) (parse ls')) ++ out)); [| |
    |reflexivity].
  - cbn [app]. f_equal. by apply (IH (length ls')).
  - done.
  - intros raw Hr. exists taken. split_and!; [by apply Hraw|done|apply Hnext].
Qed.

Lemma parse_inserted found : parse (lines (insert_missing replace_all found replacements)) = inserted found.
Proof using Hvalues Hmatches.
  unfold insert_missing, inserted. induction Hmatches as [|r rs Hr _ IH]; [done|]. cbn [map concat]. simpl omap. destruct (_ || _); [by apply IH; inversion Hmatches|].
  rewrite (parse_next _ _ _ (next_printed _ _ _ Hr (Hvalues _))). f_equal. by apply IH; inversion Hmatches.
Qed.

Lemma parse_rewritten content :
  content_ok content → Forall line_ok (PropertiesParser content) →
  PropertiesParser (process_properties replace_all content replacements) =
  map rewritten (PropertiesParser content) ++ inserted (found_keys (PropertiesParser content)).
Proof using Hvalues Hmatches.
  intros Hc Hl. unfold process_properties. unfold PropertiesParser at 1.
  rewrite <-(parse_inserted (found_keys (PropertiesParser content))). apply parse_processed; [by apply content_lines_ok|done].
Qed.


(** *** Replacements without conditions *)

Context (Hplain : Forall (λ r, rp_if_value r = None ∧ rp_update_existing r = true) replacements).
Context (Hnodup : NoDup (map rp_match replacements)).

Lemma replace_value_absent rs key value : key ∉ map rp_match rs → replace_value replace_all rs key value = value.
Proof.
  induction rs as [|r rs IH]; [done|]. cbn. intros [Hne Hk]%not_elem_of_cons. rewrite bool_decide_eq_false_2 by done. cbn. by apply IH.
Qed.
Lemma replace_value_present r value : r ∈ replacements → replace_value replace_all replacements (rp_match r) value = replace_all (rp_replace_with r).
Proof using Hplain Hnodup.
  clear Hmatches. revert value. induction replacements as [|r' rs IH]; [by intros ? ?%not_elem_of_nil|]. intros value Hin.
  apply list.NoDup_cons in Hnodup as [Hr' Hrs]. apply Forall_cons_iff in Hplain as [[Hif Hup] Hplain']. cbn. apply elem_of_cons in Hin as [->|Hin].
  - rewrite bool_decide_eq_true_2, Hup, Hif by done. cbn. by apply replace_value_absent.
  - rewrite bool_decide_eq_false_2; [cbn; by apply IH|]. intros Heq. apply Hr'. rewrite Heq. by apply (list_elem_of_fmap_2 rp_match).
Qed.
(** Either way the value that is there plays no role the second time. *)
Lemma replace_value_idemp key value : 
  replace_value replace_all replacements key (replace_value replace_all replacements key value) = replace_value replace_all replacements key value.
Proof using Hplain Hnodup.
  destruct (decide (key ∈ map rp_match replacements)) as [(r & -> & Hr)%list_elem_of_fmap|Hk].
  - by rewrite !replace_value_present.
  - by rewrite !replace_value_absent.
Qed.

Context (Hstable : ∀ v, reread (skip_spaces (replace_all v)) = replace_all v).

Lemma process_rewritten line : (∀ key value, line = Pair key value → reread (skip_spaces value) = value) →
  process_line replace_all replacements (rewritten line) = process_line replace_all replacements line.
Proof using Hplain Hnodup Hstable.
  intros Hv. destruct line as [key value| | |]; try done. cbn. f_equal.
  enough (reread (skip_spaces (replace_value replace_all replacements key value)) = replace_value replace_all replacements key value) as ->
    by apply replace_value_idemp.
  destruct (decide (key ∈ map rp_match replacements)) as [(r & -> & Hr)%list_elem_of_fmap|Hk].
  - by rewrite replace_value_present.
  - rewrite replace_value_absent by done. by eapply Hv.
Qed.

Lemma inserted_elem found line : line ∈ inserted found →
  ∃ r, r ∈ replacements ∧ line = Pair (rp_match r) (replace_all (rp_replace_with r)).
Proof using Hstable.
  intros (r & Hr & E)%list_elem_of_omap. exists r. split; [done|]. destruct (_ || _); [done|]. injection E as <-. by rewrite Hstable.
Qed.

Lemma process_inserted found rs : rs ⊆ replacements →
  concat (map (process_line replace_all replacements)
    (omap (λ r, if bool_decide (rp_match r ∈ found) || negb (default true (rp_insert_new r)) then None
                else Some (Pair (rp_match r) (reread (skip_spaces (replace_all (rp_replace_with r)))))) rs)) = insert_missing replace_all found rs.
Proof using Hvalues Hmatches Hplain Hnodup Hstable.
  unfold insert_missing. induction rs as [|r rs IH]; intros Hrs; [done|]. cbn [map concat]. simpl omap.
  rewrite <-IH by set_solver. destruct (_ || _); [done|]. cbn [map concat process_line]. rewrite Hstable, replace_value_present by set_solver. done.
Qed.

Lemma found_rewritten items : found_keys (map rewritten items) = found_keys items.
Proof. unfold found_keys. induction items as [|[] items IH]; cbn; [done|by rewrite IH|done..]. Qed.

Lemma nothing_missing items :
  insert_missing replace_all (found_keys (map rewritten items ++ inserted (found_keys items))) replacements = [].
Proof.
  unfold insert_missing. apply concat_nil_Forall, Forall_map, list.Forall_forall. intros r Hr.
  destruct (default true (rp_insert_new r)) eqn:Hnew; [|by rewrite orb_true_r]. rewrite bool_decide_eq_true_2; [done|].
  unfold found_keys at 1. rewrite omap_app. fold (found_keys (map rewritten items)). rewrite found_rewritten. apply elem_of_app.
  destruct (decide (rp_match r ∈ found_keys items)) as [|Hnot]; [by left|]. right.
  apply list_elem_of_omap. exists (Pair (rp_match r) (reread (skip_spaces (replace_all (rp_replace_with r))))). split; [|done].
  apply list_elem_of_omap. exists r. split; [done|]. by rewrite Hnew, bool_decide_eq_false_2.
Qed.

(** Rewriting settles.  When the values that are put in can be read back as
    they are, each key is configured once and unconditionally, and the file
    had such values, a second rewriting changes nothing: starting the server
    again leaves the file alone. *)
Theorem properties_settle content :
  content_ok content → Forall line_ok (PropertiesParser content) →
  (∀ key value, Pair key value ∈ PropertiesParser content → reread (skip_spaces value) = value) →
  process_properties replace_all (process_properties replace_all content replacements) replacements =
  process_properties replace_all content replacements.
Proof using Hvalues Hmatches Hplain Hnodup Hstable.
  intros Hc Hl Hv. unfold process_properties at 1. rewrite parse_rewritten by done. rewrite nothing_missing, app_nil_r, map_app, concat_app, map_map.
  unfold process_properties, inserted. rewrite process_inserted by done. f_equal. f_equal. apply map_ext_in. intros line Hline%list_elem_of_In.
  apply process_rewritten. intros key value ->. by eapply Hv.
Qed.
End rewriting.

(** ** Examples *)

Module PropertiesExample.
Definition to_100 (v : JsonValue) : text := chars "100".
Definition replacements : list ServerConfigurationFileReplacement :=
  [mk_Replacement (chars "max-players") None None true JsonNull; mk_Replacement (chars "port") None (Some true) true JsonNull;
   mk_Replacement (chars "seed") None (Some false) true JsonNull].
Definition line (s : string) : text := chars s ++ [NEWLINE].
Definition content : text := line "# server" ++ line "" ++ line "max-players = 20" ++ line "motd=a \u00e9".

Lemma scalars v : Forall scalar_ok (to_100 v).
Proof. repeat constructor. Qed.
Lemma matches_ok : Forall (λ r, key_ok (rp_match r)) replacements.
Proof. repeat constructor; discriminate. Qed.
Lemma lines_end : content_ok content.
Proof.
  split; [|by intros l [= <-]]. replace (lines content) with [chars "# server"; []; chars "max-players = 20"; chars "motd=a \u00e9"] by reflexivity.
  repeat constructor; discriminate.
Qed.
Lemma parsed : PropertiesParser content =
  [Comment (chars "# server"); Blank; Pair (chars "max-players") (chars "20"); Pair (chars "motd") (chars "a " ++ [233])].
Proof. vm_compute. reflexivity. Qed.
Lemma items_ok : Forall line_ok (PropertiesParser content).
Proof. rewrite parsed. repeat constructor; discriminate. Qed.
End PropertiesExample.
Import PropertiesExample.

Example properties_processed :
  process_properties to_100 content replacements =
  line "# server" ++ line "" ++ line "max-players=100" ++ line "motd=a \u00e9" ++ line "port=100".
Proof. vm_compute. reflexivity. Qed.


Lemma properties_settle_witness :
  process_properties to_100 (process_properties to_100 content replacements) replacements = process_properties to_100 content replacements.
Proof.
  apply (properties_settle to_100 replacements scalars matches_ok).
  - repeat constructor.
  - repeat constructor; apply (bool_decide_unpack _); vm_compute; exact I.
  - reflexivity.
  - exact lines_end.
  - exact items_ok.
  - rewrite parsed. intros key value Hin. repeat (apply elem_of_cons in Hin as [Heq|Hin]; [first [discriminate|injection Heq as -> ->; vm_compute; reflexivity]|]).
    by apply not_elem_of_nil in Hin.
Defined.

(** A character beyond the basic plane is written with [\U], which is read as
    a letter and digits: two starts without any replacement change the text. *)
Example astral_characters_are_lost :
  let start content := process_properties to_100 content [] in
  start (line "motd=\U0001f3ae") = line "motd=U0001f3ae" ∧
  start (chars "motd=" ++ [127918] ++ [NEWLINE]) = line "motd=\U0001f3ae".
Proof. split; vm_compute; reflexivity. Qed.

(** Keys are written without escapes: a colon in a key is a separator when the
    file is read the next time. *)
Example escaped_keys_are_lost :
  PropertiesParser (line "minecraft\:spawn=1") = [Pair (chars "minecraft:spawn") (chars "1")] ∧
  PropertiesParser (process_properties to_100 (line "minecraft\:spawn=1") []) = [Pair (chars "minecraft") (chars "spawn=1")].
Proof. split; vm_compute; reflexivity. Qed.

(** A space at the beginning of a value is written without its backslash. *)
Example leading_spaces_are_lost :
  process_properties to_100 (process_properties to_100 (line "prefix=\ >") []) [] = line "prefix=>".
Proof. vm_compute. reflexivity. Qed.
