(* ===== verification/DiskUsage.v ===== *)
(** * DiskUsage: the tree of directory sizes (application/src/server/filesystem/usage.rs)

    Every node is a directory: the space used below it, and its
    subdirectories in a vector kept sorted by name and searched by bisection.
    [&mut DiskUsage] references into the vector are indices. *)
From S2P Require Import Prelude Paths Utf8.

Record UsedSpace : Type := mk_UsedSpace { us_logical : Z; us_physical : Z }.
Definition UsedSpace_default : UsedSpace := mk_UsedSpace 0 0.

Definition sub_logical (self : UsedSpace) (val : Z) : UsedSpace :=
  mk_UsedSpace (saturating_sub (us_logical self) val) (us_physical self).
Definition add_logical (self : UsedSpace) (val : Z) : UsedSpace :=
  mk_UsedSpace (saturating_add (us_logical self) val) (us_physical self).
Definition sub_physical (self : UsedSpace) (val : Z) : UsedSpace :=
  mk_UsedSpace (us_logical self) (saturating_sub (us_physical self) val).
Definition add_physical (self : UsedSpace) (val : Z) : UsedSpace :=
  mk_UsedSpace (us_logical self) (saturating_add (us_physical self) val).

Definition apply_delta (self add sub : UsedSpace) : UsedSpace :=
  let self := add_logical self (us_logical add) in
  let self := add_physical self (us_physical add) in
  let self := sub_logical self (us_logical sub) in
  sub_physical self (us_physical sub).

Definition UsedSpace_add (self rhs : UsedSpace) : UsedSpace :=
  mk_UsedSpace (saturating_add (us_logical self) (us_logical rhs))
    (saturating_add (us_physical self) (us_physical rhs)).
Definition UsedSpace_sum (iter : list UsedSpace) : UsedSpace := fold_left UsedSpace_add iter UsedSpace_default.

Record SpaceDelta : Type := mk_SpaceDelta { sd_logical : Z; sd_physical : Z }.
Definition SpaceDelta_only_logical (logical : Z) : SpaceDelta := mk_SpaceDelta logical 0.
Definition SpaceDelta_from (value : Z) : SpaceDelta := mk_SpaceDelta value value.

Inductive DiskUsage : Type :=
  mk_DiskUsage (space : UsedSpace) (entries : list (bytes * DiskUsage)).
Definition du_space (self : DiskUsage) : UsedSpace := let 'mk_DiskUsage s _ := self in s.
Definition du_entries (self : DiskUsage) : list (bytes * DiskUsage) := let 'mk_DiskUsage _ e := self in e.
Definition DiskUsage_default : DiskUsage := mk_DiskUsage UsedSpace_default [].
Definition set_space (s : UsedSpace) (self : DiskUsage) : DiskUsage := mk_DiskUsage s (du_entries self).
Definition set_entries (es : list (bytes * DiskUsage)) (self : DiskUsage) : DiskUsage := mk_DiskUsage (du_space self) es.

(** [str::cmp] compares bytes. *)
Fixpoint str_cmp (a b : bytes) : comparison :=
  match a, b with
  | [], [] => Eq
  | [], _ => Lt
  | _, [] => Gt
  | x :: a, y :: b => match Z.compare x y with Eq => str_cmp a b | c => c end
  end.

(** [slice::binary_search_by]: halves the range until one element is left;
    [inl] is [Ok] and [inr] is [Err]. *)
Fixpoint bisect {A} (fuel : nat) (l : list A) (cmp : A → comparison) (base size : Z) : Z :=
  match fuel with
  | O => base
  | S fuel =>
      if size <=? 1 then base else
      let half := size / 2 in
      let mid := base + half in
      let base := match cmp <$> get_at l mid with Some Gt => base | _ => mid end in
      bisect fuel l cmp base (size - half)
  end.
Definition binary_search_by {A} (l : list A) (cmp : A → comparison) : Z + Z :=
  if zlen l =? 0 then inr 0 else
  let base := bisect (length l) l cmp 0 (zlen l) in
  match cmp <$> get_at l base with
  | Some Eq => inl base
  | Some Lt => inr (base + 1)
  | _ => inr base
  end.

Definition search_entries (self : DiskUsage) (key : bytes) : Z + Z :=
  binary_search_by (du_entries self) (λ a, str_cmp (fst a) key).

Definition insert_at {A} (i : Z) (x : A) (l : list A) : list A := ztake i l ++ x :: zdrop i l.
Definition remove_at {A} (i : Z) (l : list A) : list A := ztake i l ++ zdrop (i + 1) l.
(** A write through the reference to entry [i]. *)
Definition write_entry (i : Z) (child : DiskUsage) (self : DiskUsage) : DiskUsage :=
  set_entries (alter (λ e, (fst e, child)) (Z.to_nat i) (du_entries self)) self.
Definition entry_at (self : DiskUsage) (i : Z) : DiskUsage :=
  default DiskUsage_default (snd <$> get_at (du_entries self) i).

(** The index of the entry, which is inserted when it is not there. *)
Definition upsert_entry (self : DiskUsage) (key : bytes) : Z * DiskUsage :=
  match search_entries self key with
  | inl idx => (idx, self)
  | inr idx => (idx, set_entries (insert_at idx (key, DiskUsage_default) (du_entries self)) self)
  end.

Definition get_mut_entry (self : DiskUsage) (key : bytes) : option Z :=
  match search_entries self key with inl idx => Some idx | inr _ => None end.

Definition remove_entry (self : DiskUsage) (key : bytes) : option (DiskUsage * DiskUsage) :=
  match search_entries self key with
  | inl idx => Some (entry_at self idx, set_entries (remove_at idx (du_entries self)) self)
  | inr _ => None
  end.

(** [component.as_os_str().to_str()] *)
Definition component_str (c : Component.Component) : option bytes :=
  to_str match c with
         | Component.RootDir => [SLASH]
         | Component.CurDir => [DOT]
         | Component.ParentDir => [DOT; DOT]
         | Component.Normal name => name
         end.

(** [Path]s are equal when their components are. *)
Definition path_is_root (path : bytes) : bool :=
  bool_decide (components path = [] ∨ components path = [Component.RootDir]).

Definition find_entry (self : DiskUsage) (key : bytes) : option DiskUsage :=
  match search_entries self key with
  | inl idx => snd <$> get_at (du_entries self) idx
  | inr _ => None
  end.

Fixpoint get_path_components (self : DiskUsage) (path : list bytes) : option DiskUsage :=
  match path with
  | [] => Some self
  | name :: path => child ← find_entry self name; get_path_components child path
  end.

Fixpoint get_path_loop (current : DiskUsage) (path : list Component.Component) : option DiskUsage :=
  match path with
  | [] => Some current
  | c :: path => name ← component_str c; child ← find_entry current name; get_path_loop child path
  end.
Definition get_path (self : DiskUsage) (path : bytes) : option DiskUsage :=
  if path_is_root path then Some self else get_path_loop self (components path).
Definition get_size (self : DiskUsage) (path : bytes) : option UsedSpace :=
  if path_is_root path then Some (du_space self) else du_space <$> get_path_loop self (components path).

Definition add_delta (delta : SpaceDelta) (s : UsedSpace) : UsedSpace :=
  let s := if 0 <=? sd_logical delta then add_logical s (sd_logical delta) else sub_logical s (- sd_logical delta) in
  if 0 <=? sd_physical delta then add_physical s (sd_physical delta) else sub_physical s (- sd_physical delta).

Fixpoint update_below (current : DiskUsage) (path : list bytes) (delta : SpaceDelta) : DiskUsage :=
  match path with
  | [] => current
  | key :: path =>
      let '(idx, current) := upsert_entry current key in
      let entry := entry_at current idx in
      let entry := set_space (add_delta delta (du_space entry)) entry in
      write_entry idx (update_below entry path delta) current
  end.
Definition update_size_iterator (self : DiskUsage) (path : list bytes) (delta : SpaceDelta) : DiskUsage :=
  update_below (set_space (add_delta delta (du_space self)) self) path delta.

(** [to_str().unwrap_or_default()] *)
Definition component_key (c : Component.Component) : bytes := default [] (component_str c).

Definition update_size (self : DiskUsage) (path : bytes) (delta : SpaceDelta) : DiskUsage :=
  let self := set_space (add_delta delta (du_space self)) self in
  if path_is_root path then self else update_below self (map component_key (components path)) delta.

Definition sub_space (s removed : UsedSpace) : UsedSpace :=
  sub_physical (sub_logical s (us_logical removed)) (us_physical removed).

Fixpoint recursive_remove (self : DiskUsage) (path : list bytes) : option DiskUsage * DiskUsage :=
  match path with
  | [] => (None, self)
  | [name] =>
      match remove_entry self name with
      | Some (removed, self) => (Some removed, set_space (sub_space (du_space self) (du_space removed)) self)
      | None => (None, self)
      end
  | name :: path =>
      match get_mut_entry self name with
      | Some idx =>
          let '(removed, child) := recursive_remove (entry_at self idx) path in
          let self := write_entry idx child self in
          match removed with
          | Some removed => (Some removed, set_space (sub_space (du_space self) (du_space removed)) self)
          | None => (None, self)
          end
      | None => (None, self)
      end
  end.
Definition remove_path (self : DiskUsage) (path : bytes) : option DiskUsage * DiskUsage :=
  if path_is_root path then (None, self) else recursive_remove self (map component_key (components path)).

Definition truncate (self : DiskUsage) : DiskUsage := mk_DiskUsage (mk_UsedSpace 0 0) [].

Fixpoint add_below (current : DiskUsage) (target_path : list bytes) (new old : UsedSpace) (source_dir : DiskUsage) :
    DiskUsage :=
  match target_path with
  | [] => current
  | key :: path =>
      let current := set_space (apply_delta (du_space current) new old) current in
      let '(idx, current) := upsert_entry current key in
      match path with
      | [] => write_entry idx source_dir current
      | _ => write_entry idx (add_below (entry_at current idx) path new old source_dir) current
      end
  end.
Definition add_directory (self : DiskUsage) (target_path : list bytes) (source_dir : DiskUsage) : bool * DiskUsage :=
  match target_path with
  | [] => (false, self)
  | _ =>
      let old := default UsedSpace_default (du_space <$> get_path_components self target_path) in
      let new := du_space source_dir in
      (true, add_below self target_path new old source_dir)
  end.
