(* ===== verification/UsageTree.v ===== *)
(** * UsageTree: what the disk usage tree promises

    The sorted entry vectors are maps ([children]): bisection finds an entry
    exactly when it is there.  On that view the operations have their
    functional behaviour ([space_at] after each of them); they keep every
    directory at least as large as its subdirectories together
    ([accounted]), and change what a directory holds itself ([own_at]) exactly
    where they are meant to. *)
From Stdlib Require Import Sorting.Sorted.
From S2P Require Import Prelude Paths Utf8 DiskUsage.

(** ** Lemmas: names in order *)

Lemma str_cmp_eq a : ∀ b, str_cmp a b = Eq ↔ a = b.
Proof.
  induction a as [| x a IH]; intros [| y b]; cbn; try done.
  destruct (Z.compare_spec x y) as [-> | |]; [| split; [done | intros [= -> ->]; lia]..].
  rewrite IH. split; [by intros -> | by intros [= ->]].
Qed.

Lemma str_cmp_opp a : ∀ b, str_cmp b a = CompOpp (str_cmp a b).
Proof.
  induction a as [| x a IH]; intros [| y b]; cbn; try done.
  rewrite Z.compare_antisym. destruct (Z.compare x y); cbn; auto.
Qed.

Definition str_lt (a b : bytes) : Prop := str_cmp a b = Lt.

Lemma str_lt_gt a b : str_lt a b ↔ str_cmp b a = Gt.
Proof. unfold str_lt. rewrite (str_cmp_opp a b). destruct (str_cmp a b); cbn; split; congruence. Qed.

#[export] Instance str_lt_trans : Transitive str_lt.
Proof.
  unfold str_lt. intros a. induction a as [| x a IH]; intros [| y b] [| z c]; cbn; try done.
  destruct (Z.compare_spec x y) as [-> | |], (Z.compare_spec y z) as [-> | |]; try done;
    intros H1 H2; rewrite ?Z.compare_refl; [by eapply IH | by rewrite (proj2 (Z.compare_lt_iff _ _)) by lia..].
Qed.

Lemma str_lt_irrefl a : ¬ str_lt a a.
Proof. unfold str_lt. by rewrite (proj2 (str_cmp_eq a a) eq_refl). Qed.

(** ** Lemmas: bisection *)

Section bisection.
Context {A : Type} (l : list A) (cmp : A → comparison).

Definition cmp_at (i : Z) (c : comparison) : Prop := ∃ x, get_at l i = Some x ∧ cmp x = c.

Context (Hlt : ∀ i j, 0 <= i < j → cmp_at j Lt → cmp_at i Lt).
Context (Hgt : ∀ i j, 0 <= i < j → j < zlen l → cmp_at i Gt → cmp_at j Gt).

Lemma bisect_ok fuel : ∀ base size,
  0 <= base → 1 <= size → base + size <= zlen l → size - 1 <= Z.of_nat fuel →
  (base = 0 ∨ ¬ cmp_at base Gt) → (∀ j, base + size <= j < zlen l → cmp_at j Gt) →
  let b := bisect fuel l cmp base size in
  0 <= b < zlen l ∧ (b = 0 ∨ ¬ cmp_at b Gt) ∧ (∀ j, b < j < zlen l → cmp_at j Gt).
Proof.
  induction fuel as [| fuel IH]; intros base size Hb Hs Hmax Hf Hbase Hrest; cbn [bisect].
  - split; [lia |]. split; [done |]. intros j Hj. apply Hrest. lia.
  - destruct (Z.leb_spec size 1).
    + split; [lia |]. split; [done |]. intros j Hj. apply Hrest. lia.
    + cbv zeta. pose proof (Z.div_mod size 2 ltac:(lia)). pose proof (Z.mod_pos_bound size 2 ltac:(lia)).
      set (half := size / 2) in *. destruct (get_at_lt l (base + half) ltac:(lia)) as (x & Hx). rewrite Hx. cbn [fmap option_fmap option_map].
      assert (∀ b', (b' = base ∧ cmp_at (base + half) Gt) ∨ (b' = base + half ∧ ¬ cmp_at (base + half) Gt) →
        let b := bisect fuel l cmp b' (size - half) in
        0 <= b < zlen l ∧ (b = 0 ∨ ¬ cmp_at b Gt) ∧ (∀ j, b < j < zlen l → cmp_at j Gt)) as Hstep.
      { intros b' [[-> Hg] | [-> Hn]]; apply IH; try lia; try done.
        - intros j Hj. destruct (Z.eqb_spec j (base + half)) as [-> |]; [done |].
          apply (Hgt (base + half) j); [lia | lia | done].
        - by right.
        - intros j Hj. apply Hrest. lia. }
      apply Hstep. unfold cmp_at. rewrite Hx. destruct (cmp x) eqn:Hc; [right | right | left];
        (split; [done |]); [intros (y & [= <-] & Hy); congruence.. | by exists x].
Qed.

Lemma binary_search_by_ok :
  match binary_search_by l cmp with
  | inl i => cmp_at i Eq
  | inr i => 0 <= i <= zlen l ∧ (∀ j, 0 <= j < i → cmp_at j Lt) ∧ (∀ j, i <= j < zlen l → cmp_at j Gt)
  end.
Proof.
  unfold binary_search_by. pose proof (zlen_nonneg l). destruct (Z.eqb_spec (zlen l) 0); [by repeat split; lia |].
  cbv zeta. destruct (bisect_ok (length l) 0 (zlen l)) as (Hb & Hbase & Hrest);
    [lia | lia | lia | unfold zlen; lia | by left | lia |].
  set (b := bisect _ _ _ _ _) in *. destruct (get_at_lt l b ltac:(lia)) as (x & Hx). rewrite Hx.
  cbn [fmap option_fmap option_map]. destruct (cmp x) eqn:Hc.
  - by exists x.
  - split; [lia |]. assert (cmp_at b Lt) as Hbl by by exists x. split.
    + intros j Hj. destruct (Z.eqb_spec j b) as [-> |]; [done |]. apply (Hlt j b); [lia | done].
    + intros j Hj. apply Hrest. lia.
  - assert (cmp_at b Gt) as Hbg by by exists x. destruct Hbase as [Hb0 | ?]; [| done]. rewrite Hb0 in *.
    split; [lia |]. split; [lia |]. intros j Hj. destruct (Z.eqb_spec j 0) as [-> |]; [done |]. apply Hrest. lia.
Qed.
End bisection.

(** ** Lemmas: the entries as a map *)

Definition sorted_entries (es : list (bytes * DiskUsage)) : Prop := StronglySorted str_lt (map fst es).
Definition children (u : DiskUsage) : gmap bytes DiskUsage := list_to_map (du_entries u).

Lemma sorted_get es : sorted_entries es → ∀ i j a b, 0 <= i < j → get_at es i = Some a → get_at es j = Some b →
  str_lt (fst a) (fst b).
Proof.
  unfold sorted_entries, get_at. intros Hs i j a b Hij.
  destruct (Z.leb_spec 0 i), (Z.leb_spec 0 j); try lia. intros Ha Hb.
  assert (Z.to_nat i < Z.to_nat j)%nat as Hn by lia. revert Hn Ha Hb. generalize (Z.to_nat i) (Z.to_nat j).
  clear -Hs. intros i j. revert i j. induction es as [| e es IH]; intros i j Hij Ha Hb; [done |].
  cbn in Hs. apply StronglySorted_inv in Hs as [Hs Hall]. destruct j as [| j]; [lia |]. cbn in Hb.
  destruct i as [| i]; cbn in Ha; [| apply (IH Hs i j); [lia | done | done]].
  injection Ha as ->. rewrite list.Forall_forall in Hall. apply Hall. apply list_elem_of_fmap.
  exists b. split; [done | by eapply list_elem_of_lookup_2].
Qed.

Lemma sorted_nodup es : sorted_entries es → NoDup (map fst es).
Proof.
  unfold sorted_entries. induction es as [| e es IH]; cbn; [constructor |].
  intros [Hs Hall]%StronglySorted_inv. apply list.NoDup_cons. split; [| by apply IH].
  intros Hin. rewrite list.Forall_forall in Hall. by apply Hall, str_lt_irrefl in Hin.
Qed.

Lemma get_at_split {A} (l : list A) i x : get_at l i = Some x → ∃ l1 l2, l = l1 ++ x :: l2 ∧ zlen l1 = i.
Proof.
  unfold get_at. destruct (Z.leb_spec 0 i); [| done]. intros Hx.
  pose proof (lookup_lt_Some _ _ _ Hx). exists (take (Z.to_nat i) l), (drop (S (Z.to_nat i)) l).
  rewrite take_drop_middle by done. split; [done |]. unfold zlen. rewrite length_take. lia.
Qed.

Lemma get_at_ztake {A} (l : list A) n i : i < n → get_at (ztake n l) i = get_at l i.
Proof.
  unfold get_at, ztake. intros Hi. destruct (Z.leb_spec 0 i); [| done]. apply lookup_take_lt. lia.
Qed.
Lemma get_at_zdrop {A} (l : list A) n i : 0 <= n → 0 <= i → get_at (zdrop n l) i = get_at l (n + i).
Proof.
  unfold get_at, zdrop. intros Hn Hi. destruct (Z.leb_spec 0 i), (Z.leb_spec 0 (n + i)); try lia.
  rewrite lookup_drop. f_equal. lia.
Qed.

Lemma Forall_get_at {A} (P : A → Prop) l : (∀ i, 0 <= i < zlen l → ∃ x, get_at l i = Some x ∧ P x) → Forall P l.
Proof.
  intros H. apply Forall_lookup. intros i x Hx. pose proof (lookup_lt_Some _ _ _ Hx).
  destruct (H (Z.of_nat i)) as (y & Hy & Hp); [unfold zlen; lia |]. unfold get_at in Hy.
  destruct (Z.leb_spec 0 (Z.of_nat i)); [| lia]. rewrite Nat2Z.id, Hx in Hy. by injection Hy as <-.
Qed.

Lemma search_entries_ok u key : sorted_entries (du_entries u) →
  match search_entries u key with
  | inl i => ∃ l1 d l2, du_entries u = l1 ++ (key, d) :: l2 ∧ zlen l1 = i
  | inr i => ∃ l1 l2, du_entries u = l1 ++ l2 ∧ zlen l1 = i ∧
      Forall (λ a, str_lt (fst a) key) l1 ∧ Forall (λ a, str_lt key (fst a)) l2
  end.
Proof.
  intros Hs. unfold search_entries. set (cmp := λ a : bytes * DiskUsage, str_cmp (fst a) key).
  assert (∀ i j, 0 <= i < j → ∀ x, get_at (du_entries u) j = Some x →
            ∃ y, get_at (du_entries u) i = Some y ∧ str_lt (fst y) (fst x)) as Hbefore.
  { intros i j Hij x Hx. destruct (get_at_lt (du_entries u) i) as (y & Hy); [apply get_at_Some_lt in Hx; lia |].
    exists y. split; [done |]. by eapply sorted_get. }
  unshelve epose proof (binary_search_by_ok (du_entries u) cmp _ _) as Hb.
  - intros i' j Hij (x & Hx & Hcx). destruct (Hbefore _ _ Hij x Hx) as (y & Hy & Hlt). exists y.
    split; [done |]. exact (str_lt_trans _ _ _ Hlt Hcx).
  - intros i' j Hij Hj (x & Hx & Hcx). destruct (get_at_lt (du_entries u) j ltac:(lia)) as (y & Hy).
    destruct (Hbefore _ _ Hij y Hy) as (x' & Hx' & Hlt). rewrite Hx in Hx'. injection Hx' as <-.
    exists y. split; [done |]. apply str_lt_gt. apply str_lt_gt in Hcx. by transitivity (fst x).
  - destruct (binary_search_by (du_entries u) cmp) as [i | i].
    + destruct Hb as ((k & d) & Hi & Hc). apply str_cmp_eq in Hc. cbn in Hc. subst k.
      destruct (get_at_split _ _ _ Hi) as (l1 & l2 & -> & <-). by exists l1, d, l2.
    + destruct Hb as (Hi & Hl & Hg). exists (ztake i (du_entries u)), (zdrop i (du_entries u)).
      rewrite ztake_zdrop. split; [done |]. split; [rewrite zlen_ztake; lia |]. split; apply Forall_get_at.
      * intros j Hj. rewrite zlen_ztake in Hj. destruct (Hl j ltac:(lia)) as (x & Hx & Hc). exists x.
        split; [| done]. rewrite get_at_ztake by lia. done.
      * intros j Hj. rewrite zlen_zdrop in Hj. destruct (Hg (i + j) ltac:(lia)) as (x & Hx & Hc). exists x.
        split; [| by apply str_lt_gt]. rewrite get_at_zdrop by lia. done.
Qed.

Lemma sorted_middle l1 x l2 :
  sorted_entries (l1 ++ x :: l2) ↔
  sorted_entries (l1 ++ l2) ∧ Forall (λ a, str_lt (fst a) (fst x)) l1 ∧ Forall (λ a, str_lt (fst x) (fst a)) l2.
Proof.
  unfold sorted_entries. induction l1 as [| e l1 IH]; cbn [app map].
  - split.
    + intros [Hs Hall]%StronglySorted_inv. split; [done |]. split; [constructor |]. by rewrite Forall_map in Hall.
    + intros (Hs & _ & Hall). constructor; [done |]. by apply Forall_map.
  - split.
    + intros [Hs Hall]%StronglySorted_inv. apply IH in Hs as (Hs & H1 & H2).
      rewrite map_app in Hall. apply Forall_app in Hall as [Ha Hb]. cbn [map] in Hb. apply Forall_cons_iff in Hb as [Hx Hb].
      split; [constructor; [done |]; rewrite map_app; by apply Forall_app |]. split; [by constructor | done].
    + intros ([Hs Hall]%StronglySorted_inv & [Hx H1]%Forall_cons_iff & H2). constructor; [by apply IH |].
      rewrite map_app in Hall |- *. apply Forall_app in Hall as [Ha Hb]. apply Forall_app. split; [done |]. by constructor.
Qed.

Lemma map_middle l1 key d l2 : sorted_entries (l1 ++ (key, d) :: l2) →
  list_to_map (l1 ++ (key, d) :: l2) =@{gmap bytes DiskUsage} <[key := d]> (list_to_map (l1 ++ l2)).
Proof.
  intros Hs. rewrite (list_to_map_proper _ ((key, d) :: l1 ++ l2)); [done | by apply sorted_nodup | symmetry; apply Permutation_middle].
Qed.

Lemma map_middle_None l1 key d l2 : sorted_entries (l1 ++ (key, d) :: l2) →
  (list_to_map (l1 ++ l2) : gmap bytes DiskUsage) !! key = None.
Proof.
  intros Hs. apply sorted_middle in Hs as (_ & H1 & H2). apply not_elem_of_list_to_map_1.
  rewrite fmap_app, elem_of_app. rewrite list.Forall_forall in H1, H2.
  intros [Hin | Hin]; apply list_elem_of_fmap in Hin as (x & -> & Hx); [apply H1 in Hx | apply H2 in Hx];
    by apply str_lt_irrefl in Hx.
Qed.

Lemma map_gap_None l1 l2 key : Forall (λ a, str_lt (fst a) key) l1 → Forall (λ a, str_lt key (fst a)) l2 →
  (list_to_map (l1 ++ l2) : gmap bytes DiskUsage) !! key = None.
Proof.
  intros H1 H2. apply not_elem_of_list_to_map_1.
  rewrite fmap_app, elem_of_app. rewrite list.Forall_forall in H1, H2.
  intros [Hin | Hin]; apply list_elem_of_fmap in Hin as (x & -> & Hx); [apply H1 in Hx | apply H2 in Hx];
    by apply str_lt_irrefl in Hx.
Qed.

Lemma get_at_middle {A} (l1 : list A) x l2 : get_at (l1 ++ x :: l2) (zlen l1) = Some x.
Proof.
  unfold get_at, zlen. destruct (Z.leb_spec 0 (Z.of_nat (length l1))); [| lia].
  rewrite Nat2Z.id. by apply list_lookup_middle.
Qed.

Lemma find_entry_ok u key : sorted_entries (du_entries u) → find_entry u key = children u !! key.
Proof.
  intros Hs. unfold find_entry, children. pose proof (search_entries_ok u key Hs) as Hsearch.
  destruct (search_entries u key) as [i | i].
  - destruct Hsearch as (l1 & d & l2 & He & <-). rewrite He in *. rewrite get_at_middle, (map_middle _ _ _ _ Hs). cbn.
    by rewrite lookup_insert_eq.
  - destruct Hsearch as (l1 & l2 & He & _ & H1 & H2). rewrite He. by rewrite map_gap_None.
Qed.

Lemma write_middle u l1 key d l2 child : du_entries u = l1 ++ (key, d) :: l2 → sorted_entries (du_entries u) →
  let u' := write_entry (zlen l1) child u in
  du_space u' = du_space u ∧ sorted_entries (du_entries u') ∧ children u' = <[key := child]> (children u).
Proof.
  intros He Hs u'. assert (du_entries u' = l1 ++ (key, child) :: l2) as He'.
  { unfold u', write_entry, set_entries. cbn. rewrite He. unfold zlen. rewrite Nat2Z.id.
    rewrite alter_app_r_alt by lia. by rewrite Nat.sub_diag. }
  split; [done |]. unfold children. rewrite He', He in *.
  assert (sorted_entries (l1 ++ (key, child) :: l2)) as Hs' by (apply sorted_middle; by apply sorted_middle in Hs).
  split; [done |]. rewrite (map_middle _ _ _ _ Hs'), (map_middle _ _ _ _ Hs). by rewrite insert_insert_eq.
Qed.

(** [upsert_entry] and a write through its result set one child. *)
Lemma upsert_ok u key : sorted_entries (du_entries u) →
  entry_at (snd (upsert_entry u key)) (fst (upsert_entry u key)) = default DiskUsage_default (children u !! key) ∧
  ∀ child, let u' := write_entry (fst (upsert_entry u key)) child (snd (upsert_entry u key)) in
    du_space u' = du_space u ∧ sorted_entries (du_entries u') ∧ children u' = <[key := child]> (children u).
Proof.
  intros Hs. unfold upsert_entry. pose proof (search_entries_ok u key Hs) as Hsearch.
  destruct (search_entries u key) as [i | i]; cbn [fst snd].
  - destruct Hsearch as (l1 & d & l2 & He & <-). split.
    + unfold entry_at, children. rewrite He in *. rewrite get_at_middle, (map_middle _ _ _ _ Hs), lookup_insert_eq. done.
    + intros child. by apply (write_middle u l1 key d l2).
  - destruct Hsearch as (l1 & l2 & He & <- & H1 & H2).
    set (u1 := set_entries _ u). assert (du_entries u1 = l1 ++ (key, DiskUsage_default) :: l2) as He1.
    { unfold u1, set_entries, insert_at. cbn. by rewrite He, ztake_app, zdrop_app. }
    assert (children u !! key = None) as Hnone by (unfold children; rewrite He; by apply map_gap_None).
    assert (sorted_entries (du_entries u1)) as Hs1 by (rewrite He1; apply sorted_middle; by rewrite <- He).
    split.
    + unfold entry_at. rewrite He1, get_at_middle, Hnone. done.
    + intros child. destruct (write_middle u1 l1 key _ l2 child He1 Hs1) as (Hsp & Hso & Hch).
      split; [done |]. split; [done |]. rewrite Hch. unfold children. rewrite He1, He in *.
      rewrite (map_middle _ _ _ _ Hs1). by rewrite insert_insert_eq.
Qed.

Lemma remove_entry_ok u key : sorted_entries (du_entries u) →
  match remove_entry u key with
  | Some (d, u') => children u !! key = Some d ∧ du_space u' = du_space u ∧ sorted_entries (du_entries u') ∧
                    children u' = delete key (children u)
  | None => children u !! key = None
  end.
Proof.
  intros Hs. unfold remove_entry. pose proof (search_entries_ok u key Hs) as Hsearch.
  destruct (search_entries u key) as [i | i].
  - destruct Hsearch as (l1 & d & l2 & He & <-). unfold children, entry_at. cbn [set_entries du_entries du_space].
    rewrite He in *. rewrite get_at_middle.
    assert (remove_at (zlen l1) (l1 ++ (key, d) :: l2) = l1 ++ l2) as Hrm.
    { unfold remove_at. rewrite ztake_app. f_equal. pose proof (zlen_nonneg l1).
      rewrite cons_middle, app_assoc. replace (zlen l1 + 1) with (zlen (l1 ++ [(key, d)])) by zlen_lia.
      apply zdrop_app. }
    rewrite Hrm, (map_middle _ _ _ _ Hs). pose proof (map_middle_None _ _ _ _ Hs) as Hnone.
    split; [by rewrite lookup_insert_eq |]. split; [done |]. split; [by apply (proj1 (sorted_middle _ _ _)) in Hs as [? _] |].
    rewrite delete_insert_eq. by rewrite delete_id.
  - destruct Hsearch as (l1 & l2 & He & _ & H1 & H2). unfold children. rewrite He. by apply map_gap_None.
Qed.

Lemma get_mut_entry_ok u key : sorted_entries (du_entries u) →
  match get_mut_entry u key with
  | Some i => children u !! key = Some (entry_at u i) ∧ write_entry i (entry_at u i) u = u ∧
      ∀ child, let u' := write_entry i child u in
      du_space u' = du_space u ∧ sorted_entries (du_entries u') ∧ children u' = <[key := child]> (children u)
  | None => children u !! key = None
  end.
Proof.
  intros Hs. unfold get_mut_entry. pose proof (search_entries_ok u key Hs) as Hsearch.
  destruct (search_entries u key) as [i | i].
  - destruct Hsearch as (l1 & d & l2 & He & <-). split.
    + unfold entry_at, children. rewrite He in *. by rewrite get_at_middle, (map_middle _ _ _ _ Hs), lookup_insert_eq.
    + split; [| intros child; by apply (write_middle u l1 key d l2)].
      unfold entry_at, write_entry, set_entries. rewrite He, get_at_middle. unfold zlen. rewrite Nat2Z.id.
      rewrite alter_app_r_alt, Nat.sub_diag by lia. destruct u. cbn in *. by rewrite He.
  - destruct Hsearch as (l1 & l2 & He & _ & H1 & H2). unfold children. rewrite He. by apply map_gap_None.
Qed.

(** ** Lemmas: the operations on whole trees *)

(** Sorted all the way down. *)
Inductive usage_wf : DiskUsage → Prop :=
  usage_wf_intro u : sorted_entries (du_entries u) →
    (∀ key d, children u !! key = Some d → usage_wf d) → usage_wf u.

Definition space_at (u : DiskUsage) (q : list bytes) : option UsedSpace := du_space <$> get_path_components u q.

Lemma usage_wf_default : usage_wf DiskUsage_default.
Proof. constructor; [constructor |]. intros key d. unfold children. cbn. by rewrite lookup_empty. Qed.

Lemma usage_wf_inv u : usage_wf u → sorted_entries (du_entries u) ∧ ∀ key d, children u !! key = Some d → usage_wf d.
Proof. by intros [? Hs Hc]. Qed.

Lemma usage_wf_child u key : usage_wf u → usage_wf (default DiskUsage_default (children u !! key)).
Proof.
  intros [Hs Hc]%usage_wf_inv. destruct (children u !! key) as [d |] eqn:Hd; [by apply Hc in Hd | apply usage_wf_default].
Qed.

Lemma usage_wf_space s u : usage_wf u → usage_wf (set_space s u).
Proof. intros [Hs Hc]%usage_wf_inv. by constructor. Qed.

Lemma usage_wf_insert u u' key d : usage_wf u → usage_wf d → sorted_entries (du_entries u') →
  children u' = <[key := d]> (children u) → usage_wf u'.
Proof.
  intros [Hs Hc]%usage_wf_inv Hd Hs' Hch. constructor; [done |]. rewrite Hch. intros k e [[<- <-] | [? ?]]%lookup_insert_Some; [done | eauto].
Qed.

Lemma get_cons u name q : usage_wf u →
  get_path_components u (name :: q) = children u !! name ≫= λ d, get_path_components d q.
Proof. intros [Hs _]%usage_wf_inv. cbn [get_path_components]. by rewrite find_entry_ok. Qed.

Lemma space_at_set_space s u q : q ≠ [] → space_at (set_space s u) q = space_at u q.
Proof. intros Hq. unfold space_at. destruct q as [| name q]; done. Qed.

(** Reading through a tree in which one child was set. *)
Lemma space_at_insert u u' key d q : usage_wf u → usage_wf u' → children u' = <[key := d]> (children u) →
  space_at u' q = match q with
                  | [] => Some (du_space u')
                  | name :: q' => if decide (name = key) then space_at d q' else space_at u q
                  end.
Proof.
  intros Hu Hu' Hch. unfold space_at. destruct q as [| name q]; [done |]. rewrite !get_cons, Hch by done.
  destruct (decide (name = key)) as [-> |]; [by rewrite lookup_insert_eq | by rewrite lookup_insert_ne].
Qed.

Lemma space_at_child u key q : usage_wf u →
  space_at u (key :: q) = children u !! key ≫= λ d, space_at d q.
Proof. intros Hu. unfold space_at. rewrite get_cons by done. by destruct (children u !! key). Qed.

Lemma space_at_default q : space_at DiskUsage_default q = if decide (q = []) then Some UsedSpace_default else None.
Proof. unfold space_at. by destruct q. Qed.

Lemma set_space_same u : set_space (du_space u) u = u.
Proof. by destruct u. Qed.

Lemma decide_prefix_cons (a b : bytes) (l k : list bytes) {A} (x y : A) :
  (if decide (a :: l `prefix_of` b :: k) then x else y) =
  if decide (a = b) then (if decide (l `prefix_of` k) then x else y) else y.
Proof.
  destruct (decide (a = b)) as [-> |], (decide (l `prefix_of` k)), (decide (_ :: _ `prefix_of` _)) as [Hp | Hp];
    try done.
  - exfalso. apply Hp. by apply prefix_cons.
  - by apply prefix_cons_inv_2 in Hp.
  - by apply prefix_cons_inv_1 in Hp.
  - by apply prefix_cons_inv_1 in Hp.
Qed.

(** A missing directory counts as an empty one. *)
Definition space_or_zero (o : option UsedSpace) : UsedSpace := default UsedSpace_default o.

Lemma update_below_ok path δ : ∀ u, usage_wf u →
  du_space (update_below u path δ) = du_space u ∧ usage_wf (update_below u path δ) ∧
  ∀ q, q ≠ [] → space_at (update_below u path δ) q =
    if decide (q `prefix_of` path) then Some (add_delta δ (space_or_zero (space_at u q))) else space_at u q.
Proof.
  induction path as [| key path IH]; intros u Hu.
  - cbn. split; [done |]. split; [done |]. intros q Hq. rewrite decide_False; [done |].
    intros Hp. by apply prefix_nil_inv in Hp.
  - cbn [update_below]. pose proof (usage_wf_inv u Hu) as [Hs Hc]. destruct (upsert_ok u key Hs) as [He Hw].
    destruct (upsert_entry u key) as [i u1]. cbn [fst snd] in *. rewrite He. clear He.
    set (e := default DiskUsage_default (children u !! key)) in *. set (e' := set_space _ e).
    destruct (IH e') as (Hsp & Hwf & Hq); [by apply usage_wf_space, usage_wf_child |].
    destruct (Hw (update_below e' path δ)) as (Hsp1 & Hs1 & Hch1). set (u2 := write_entry i _ u1) in *.
    assert (usage_wf u2) as Hu2 by (by eapply (usage_wf_insert u)). split; [done |]. split; [done |].
    intros q Hne. rewrite (space_at_insert u u2 key _ q Hu Hu2 Hch1). destruct q as [| name q]; [done |].
    rewrite decide_prefix_cons. destruct (decide (name = key)) as [-> |]; [| done]. clear Hne.
    rewrite space_at_child by done. destruct (decide (q = [])) as [-> | Hne].
    + rewrite decide_True by apply prefix_nil. unfold space_at at 1. cbn [get_path_components fmap option_fmap option_map].
      rewrite Hsp. unfold e', e. by destruct (children u !! key).
    + rewrite Hq by done. unfold e'. rewrite space_at_set_space by done. unfold e. destruct (children u !! key); cbn [default mbind option_bind]; [done |].
      unfold default. rewrite space_at_default. by rewrite (decide_False (P := q = [])) by done.
Qed.

Lemma update_ok path δ u : usage_wf u →
  usage_wf (update_size_iterator u path δ) ∧
  ∀ q, space_at (update_size_iterator u path δ) q =
    if decide (q `prefix_of` path) then Some (add_delta δ (space_or_zero (space_at u q))) else space_at u q.
Proof.
  intros Hu. unfold update_size_iterator. set (u1 := set_space _ u).
  destruct (update_below_ok path δ u1 ltac:(by apply usage_wf_space)) as (Hsp & Hwf & Hq). split; [done |].
  intros q. destruct (decide (q = [])) as [-> | Hne].
  - rewrite decide_True by apply prefix_nil. unfold space_at. cbn. by rewrite Hsp.
  - rewrite Hq by done. unfold u1. by rewrite space_at_set_space.
Qed.

Lemma recursive_remove_cons u name path : path ≠ [] →
  recursive_remove u (name :: path) =
    match get_mut_entry u name with
    | Some idx =>
        let '(removed, child) := recursive_remove (entry_at u idx) path in
        let u := write_entry idx child u in
        match removed with
        | Some removed => (Some removed, set_space (sub_space (du_space u) (du_space removed)) u)
        | None => (None, u)
        end
    | None => (None, u)
    end.
Proof. by destruct path. Qed.

Lemma remove_ok path : ∀ u, usage_wf u → path ≠ [] →
  match get_path_components u path with
  | Some d => ∃ u', recursive_remove u path = (Some d, u') ∧ usage_wf u' ∧
      ∀ q, space_at u' q = if decide (path `prefix_of` q) then None
                           else if decide (q `prefix_of` path) then flip sub_space (du_space d) <$> space_at u q
                           else space_at u q
  | None => recursive_remove u path = (None, u)
  end.
Proof.
  induction path as [| name path IH]; intros u Hu Hne; [done |]. clear Hne. rewrite get_cons by done.
  pose proof (usage_wf_inv u Hu) as [Hs Hc]. destruct path as [| name2 path].
  - cbn [recursive_remove]. pose proof (remove_entry_ok u name Hs) as Hr.
    destruct (remove_entry u name) as [[d u1] |]; [| by rewrite Hr].
    destruct Hr as (Hd & Hsp & Hs1 & Hch). rewrite Hd. cbn [mbind option_bind get_path_components].
    set (u2 := set_space _ u1). assert (usage_wf u2) as Hu2.
    { apply usage_wf_space. constructor; [done |]. rewrite Hch. intros k e [_ He]%lookup_delete_Some. eauto. }
    exists u2. split; [done |]. split; [done |]. intros [| k q].
    + rewrite decide_False by (intros [? [=]]). rewrite decide_True by apply prefix_nil.
      unfold u2, space_at. cbn. by rewrite Hsp.
    + rewrite !decide_prefix_cons. rewrite !space_at_child by done.
      change (children u2) with (children u1). rewrite Hch. destruct (decide (name = k)) as [<- |].
      * rewrite decide_True by apply prefix_nil. by rewrite lookup_delete_eq.
      * rewrite decide_False by congruence. by rewrite lookup_delete_ne.
  - set (rest := name2 :: path) in *. rewrite recursive_remove_cons by done.
    pose proof (get_mut_entry_ok u name Hs) as Hg. destruct (get_mut_entry u name) as [i |]; [| by rewrite Hg].
    destruct Hg as (Hd & Hsame & Hw). rewrite Hd. cbn [mbind option_bind].
    specialize (IH (entry_at u i) (Hc _ _ Hd) ltac:(done)).
    destruct (get_path_components (entry_at u i) rest) as [d |]; [| rewrite IH; by rewrite Hsame].
    destruct IH as (e' & Hrm & Hwf & Hq). rewrite Hrm. destruct (Hw e') as (Hsp & Hs1 & Hch).
    set (u1 := write_entry i e' u) in *. set (u2 := set_space _ u1).
    assert (usage_wf u2) as Hu2 by (apply usage_wf_space; by apply (usage_wf_insert u u1 name e')).
    exists u2. split; [done |]. split; [done |]. intros [| k q].
    + rewrite decide_False by (intros [? [=]]). rewrite decide_True by apply prefix_nil.
      reflexivity.
    + rewrite (space_at_insert u u2 name e' (k :: q) Hu Hu2 Hch). rewrite !decide_prefix_cons, space_at_child by done.
      destruct (decide (k = name)) as [-> |]; [| by rewrite decide_False by congruence].
      rewrite Hd, decide_True by done. apply Hq.
Qed.

Lemma add_below_cons u key path new old src : path ≠ [] →
  add_below u (key :: path) new old src =
    let u := set_space (apply_delta (du_space u) new old) u in
    let '(idx, u) := upsert_entry u key in
    write_entry idx (add_below (entry_at u idx) path new old src) u.
Proof. by destruct path. Qed.

Lemma add_below_ok path new old src : usage_wf src → ∀ u, usage_wf u → path ≠ [] →
  usage_wf (add_below u path new old src) ∧
  ∀ q, space_at (add_below u path new old src) q =
    if decide (path `prefix_of` q) then space_at src (drop (length path) q)
    else if decide (q `prefix_of` path) then Some (apply_delta (space_or_zero (space_at u q)) new old)
    else space_at u q.
Proof.
  intros Hsrc. induction path as [| key path IH]; intros u Hu Hne; [done |]. clear Hne.
  set (u0 := set_space (apply_delta (du_space u) new old) u).
  assert (usage_wf u0) as Hu0 by by apply usage_wf_space. pose proof (usage_wf_inv u0 Hu0) as [Hs Hc].
  destruct (upsert_ok u0 key Hs) as [He Hw].
  assert (∃ e', add_below u (key :: path) new old src =
            write_entry (fst (upsert_entry u0 key)) e' (snd (upsert_entry u0 key)) ∧ usage_wf e' ∧
            ∀ q, space_at e' q = if decide (path `prefix_of` q) then space_at src (drop (length path) q)
              else if decide (q `prefix_of` path)
              then Some (apply_delta (space_or_zero (children u !! key ≫= λ d, space_at d q)) new old)
              else children u !! key ≫= λ d, space_at d q) as (e' & Heq & Hwf & Hq).
  { destruct path as [| key2 path].
    - exists src. cbn [add_below]. fold u0. destruct (upsert_entry u0 key). split; [done |]. split; [done |].
      intros q. rewrite decide_True by apply prefix_nil. done.
    - set (rest := key2 :: path) in *. rewrite add_below_cons by done. cbv zeta. fold u0.
      destruct (upsert_entry u0 key) as [i u1]. cbn [fst snd] in *. rewrite He. eexists. split; [done |].
      destruct (IH (default DiskUsage_default (children u0 !! key))) as [IH1 IH2]; [by apply usage_wf_child | done |].
      split; [done |]. intros q. rewrite IH2. change (children u0) with (children u).
      destruct (children u !! key) as [d |]; [done |]. cbn [default mbind option_bind]. unfold default.
      rewrite space_at_default. destruct (decide (q = [])) as [-> |]; [| done].
      rewrite decide_False by (intros [? [=]]). by rewrite decide_True by apply prefix_nil. }
  destruct (Hw e') as (Hsp & Hs1 & Hch). rewrite Heq. set (u1 := write_entry _ e' _) in *.
  assert (usage_wf u1) as Hu1 by by apply (usage_wf_insert u0 u1 key e').
  split; [done |]. intros q. rewrite (space_at_insert u0 u1 key e' q Hu0 Hu1 Hch). destruct q as [| name q].
  - rewrite decide_False by (intros [? [=]]). rewrite decide_True by apply prefix_nil. by rewrite Hsp.
  - rewrite !decide_prefix_cons, (space_at_child u name q) by done. destruct (decide (name = key)) as [-> |].
    + rewrite decide_True by done. apply Hq.
    + rewrite decide_False by congruence. change (space_at u0 (name :: q)) with (space_at u (name :: q)).
      by rewrite space_at_child.
Qed.

(** ** Lemmas: the accounting of space *)

Definition field (logical : bool) (s : UsedSpace) : Z := if logical then us_logical s else us_physical s.
Definition delta_field (logical : bool) (δ : SpaceDelta) : Z := if logical then sd_logical δ else sd_physical δ.

Definition children_total (b : bool) (m : gmap bytes DiskUsage) : Z :=
  map_fold (λ _ d acc, field b (du_space d) + acc) 0 m.

Lemma total_insert_None b m key d : m !! key = None →
  children_total b (<[key := d]> m) = field b (du_space d) + children_total b m.
Proof. intros Hm. unfold children_total. rewrite map_fold_insert_L; [done | intros; lia | done]. Qed.

Lemma total_delete b m key d : m !! key = Some d →
  children_total b m = field b (du_space d) + children_total b (delete key m).
Proof. intros Hm. rewrite <- (insert_delete_id m key d Hm) at 1. apply total_insert_None, lookup_delete_eq. Qed.

Lemma total_insert b m key d :
  children_total b (<[key := d]> m) =
  field b (du_space d) - field b (du_space (default DiskUsage_default (m !! key))) + children_total b m.
Proof.
  destruct (m !! key) as [e |] eqn:He.
  - rewrite <- insert_delete_eq, total_insert_None by apply lookup_delete_eq. rewrite (total_delete b m key e) by done. cbn. lia.
  - rewrite total_insert_None by done. destruct b; cbn; lia.
Qed.

(** Every directory has room for its subdirectories. *)
Inductive accounted : DiskUsage → Prop :=
  accounted_intro u : sorted_entries (du_entries u) →
    (∀ b, 0 <= field b (du_space u) < 2 ^ 64 ∧ children_total b (children u) <= field b (du_space u)) →
    (∀ key d, children u !! key = Some d → accounted d) → accounted u.

Lemma accounted_inv u : accounted u →
  sorted_entries (du_entries u) ∧
  (∀ b, 0 <= field b (du_space u) < 2 ^ 64 ∧ children_total b (children u) <= field b (du_space u)) ∧
  (∀ key d, children u !! key = Some d → accounted d).
Proof. by intros [? ? ? ?]. Qed.

Lemma accounted_wf u : accounted u → usage_wf u.
Proof. induction 1. by constructor. Qed.

Lemma accounted_default : accounted DiskUsage_default.
Proof.
  constructor; [constructor | intros []; by vm_compute | intros key d; unfold children; cbn; by rewrite lookup_empty].
Qed.

Lemma total_space_nonneg b m : map_Forall (λ _ d, 0 <= field b (du_space d)) m → 0 <= children_total b m.
Proof.
  unfold children_total. revert m. apply (map_ind (λ m, map_Forall (λ _ d, 0 <= field b (du_space d)) m → 0 <= map_fold (λ _ d acc, field b (du_space d) + acc) 0 m)).
  - intros _. by rewrite map_fold_empty.
  - intros key d m Hm IH Hall. rewrite map_fold_insert_L by (done || intros; lia).
    apply map_Forall_insert in Hall as [Hd Hall]; [| done]. specialize (IH Hall). lia.
Qed.

Lemma children_nonneg b u : accounted u → map_Forall (λ _ d, 0 <= field b (du_space d)) (children u).
Proof. intros (_ & _ & Hc)%accounted_inv key d Hd. by apply Hc, accounted_inv in Hd as (_ & Hd & _); apply Hd. Qed.

Lemma child_le b m key : map_Forall (λ _ d, 0 <= field b (du_space d)) m →
  0 <= field b (du_space (default DiskUsage_default (m !! key))) <= children_total b m.
Proof.
  intros Hall. pose proof (total_space_nonneg b m Hall). destruct (m !! key) as [d |] eqn:Hd; cbn [default].
  - rewrite (total_delete b m key d Hd). pose proof (Hall key d Hd).
    pose proof (total_space_nonneg b (delete key m) (map_Forall_delete _ _ _ Hall)). cbn in *. lia.
  - destruct b; cbn; lia.
Qed.

Lemma accounted_child u key : accounted u → accounted (default DiskUsage_default (children u !! key)).
Proof.
  intros (_ & _ & Hc)%accounted_inv. destruct (children u !! key) as [d |] eqn:Hd; [by eapply Hc | apply accounted_default].
Qed.

(** Setting one child of an accounted tree. *)
Lemma accounted_insert u u' key d : accounted u → accounted d → sorted_entries (du_entries u') →
  children u' = <[key := d]> (children u) →
  (∀ b, 0 <= field b (du_space u') < 2 ^ 64 ∧
        field b (du_space d) - field b (du_space (default DiskUsage_default (children u !! key))) +
          children_total b (children u) <= field b (du_space u')) →
  accounted u'.
Proof.
  intros (_ & _ & Hc)%accounted_inv Hd Hs' Hch Hb. constructor; [done | |].
  - intros b. rewrite Hch, total_insert. apply Hb.
  - rewrite Hch. intros k e [[<- <-] | [? ?]]%lookup_insert_Some; eauto.
Qed.

Lemma accounted_space u s : accounted u →
  (∀ b, 0 <= field b s < 2 ^ 64 ∧ children_total b (children u) <= field b s) → accounted (set_space s u).
Proof. intros (Hs & _ & Hc)%accounted_inv Hb. by constructor. Qed.

Lemma add_delta_field b δ s : 0 <= field b s + delta_field b δ < 2 ^ 64 →
  field b (add_delta δ s) = field b s + delta_field b δ.
Proof.
  intros H1. unfold add_delta, saturating_add, U64_MAX in *.
  destruct b; cbn in *; destruct (Z.leb_spec 0 (sd_logical δ)), (Z.leb_spec 0 (sd_physical δ));
    unfold add_logical, add_physical, sub_logical, sub_physical, saturating_add, saturating_sub, U64_MAX; cbn; lia.
Qed.

(** ** Lemmas: what a directory holds itself *)

(** The space of a directory less that of its subdirectories: its own files. *)
Definition own (b : bool) (u : DiskUsage) : Z := field b (du_space u) - children_total b (children u).
Definition own_at (b : bool) (u : DiskUsage) (q : list bytes) : option Z := own b <$> get_path_components u q.
Definition own_or_zero (b : bool) (u : DiskUsage) (q : list bytes) : Z := default 0 (own_at b u q).

Lemma own_nonneg b u : accounted u → 0 <= own b u.
Proof. intros (_ & Hb & _)%accounted_inv. specialize (Hb b). unfold own. lia. Qed.

Lemma own_at_cons b u name q : usage_wf u → own_at b u (name :: q) = children u !! name ≫= λ d, own_at b d q.
Proof. intros Hu. unfold own_at. rewrite get_cons by done. by destruct (children u !! name). Qed.

Lemma own_at_default b q : own_at b DiskUsage_default q = if decide (q = []) then Some 0 else None.
Proof. unfold own_at, own. destruct q, b; done. Qed.

Lemma own_or_zero_nil b u : own_or_zero b u [] = field b (du_space u) - children_total b (children u).
Proof. reflexivity. Qed.

Lemma own_or_zero_child b u key q : usage_wf u →
  own_or_zero b (default DiskUsage_default (children u !! key)) q = own_or_zero b u (key :: q).
Proof.
  intros Hu. unfold own_or_zero. rewrite own_at_cons by done. destruct (children u !! key); [done |].
  cbn [default mbind option_bind]. unfold default. rewrite own_at_default. by destruct (decide (q = [])).
Qed.

(** Setting one child, whose space changes by as much as that of its parent, changes
    nothing the parent or its other children hold. *)
Lemma own_at_insert b u u' key d q : usage_wf u → usage_wf u' → children u' = <[key := d]> (children u) →
  field b (du_space u') - field b (du_space u) =
    field b (du_space d) - field b (du_space (default DiskUsage_default (children u !! key))) →
  own_at b u' q = match q with
                  | name :: q' => if decide (name = key) then own_at b d q' else own_at b u q
                  | [] => own_at b u []
                  end.
Proof.
  intros Hu Hu' Hch Hsp. destruct q as [| name q].
  - unfold own_at, own. cbn. f_equal. rewrite Hch, total_insert. lia.
  - rewrite !own_at_cons, Hch by done.
    destruct (decide (name = key)) as [-> |]; [by rewrite lookup_insert_eq | by rewrite lookup_insert_ne].
Qed.

Lemma update_cons u key path δ :
  update_size_iterator u (key :: path) δ =
    let '(i, u1) := upsert_entry (set_space (add_delta δ (du_space u)) u) key in
    write_entry i (update_size_iterator (entry_at u1 i) path δ) u1.
Proof. reflexivity. Qed.

(** A change is held by the directory it is made in. *)
Lemma update_accounted path δ : ∀ u, accounted u →
  (∀ b, 0 <= own_or_zero b u path + delta_field b δ) → (∀ b, field b (du_space u) + delta_field b δ < 2 ^ 64) →
  let u' := update_size_iterator u path δ in
  accounted u' ∧ (∀ b, field b (du_space u') = field b (du_space u) + delta_field b δ) ∧
  ∀ b q, own_at b u' q = if decide (q `prefix_of` path)
                         then Some (own_or_zero b u q + if decide (q = path) then delta_field b δ else 0)
                         else own_at b u q.
Proof.
  induction path as [| key path IH]; intros u Hu Hown Hmax u'; pose proof (accounted_inv u Hu) as (Hs & Hb & _);
    pose proof (accounted_wf _ Hu) as Hwf; assert (∀ b, 0 <= children_total b (children u)) as Hct
    by (intros b; by apply total_space_nonneg, children_nonneg).
  - assert (∀ b, field b (add_delta δ (du_space u)) = field b (du_space u) + delta_field b δ) as Hadd.
    { intros b. specialize (Hown b). specialize (Hmax b). specialize (Hct b). rewrite own_or_zero_nil in Hown. apply add_delta_field. lia. }
    split; [| split; [exact Hadd |]].
    + apply accounted_space; [done |]. intros b. rewrite Hadd. specialize (Hown b). specialize (Hmax b). specialize (Hct b).
      rewrite own_or_zero_nil in Hown. lia.
    + intros b [| name q]; [| rewrite decide_False by (intros Hp; by apply prefix_nil_inv in Hp); done].
      rewrite decide_True, decide_True by (done || apply prefix_nil). rewrite own_or_zero_nil.
      change (own_at b u' []) with (Some (field b (add_delta δ (du_space u)) - children_total b (children u))).
      rewrite Hadd. f_equal. lia.
  - set (u0 := set_space (add_delta δ (du_space u)) u). destruct (upsert_ok u0 key Hs) as [He Hw].
    unfold u'. rewrite update_cons. fold u0. clear u'. destruct (upsert_entry u0 key) as [i u1]. cbn [fst snd] in *. rewrite He.
    change (children u0) with (children u) in *. pose proof (accounted_child u key Hu) as Hea.
    assert (∀ b, 0 <= field b (du_space (default DiskUsage_default (children u !! key))) <= children_total b (children u)) as Hle
      by (intros b; by apply child_le, children_nonneg).
    set (e := default DiskUsage_default (children u !! key)) in *.
    destruct (IH e Hea) as (Hac & Hfe & Hq).
    { intros b. unfold e. by rewrite own_or_zero_child. }
    { intros b. specialize (Hle b). specialize (Hmax b). specialize (Hb b). lia. }
    set (e' := update_size_iterator e path δ) in *. destruct (Hw e') as (Hsp & Hs1 & Hch).
    set (u' := write_entry i e' u1) in *. clear Hw IH.
    assert (∀ b, field b (du_space u') = field b (du_space u) + delta_field b δ) as Hfu.
    { intros b. rewrite Hsp. apply add_delta_field. pose proof (accounted_inv e' Hac) as (_ & Hb' & _).
      specialize (Hb' b). specialize (Hle b). specialize (Hmax b). specialize (Hb b). rewrite Hfe in Hb'. lia. }
    assert (accounted u') as Hac'.
    { apply (accounted_insert u u' key e' Hu Hac Hs1 Hch). fold e. intros b. rewrite Hfu, Hfe.
      pose proof (accounted_inv e' Hac) as (_ & Hb' & _). specialize (Hb' b). rewrite Hfe in Hb'.
      specialize (Hle b). specialize (Hmax b). specialize (Hb b). lia. }
    split; [done |]. split; [done |]. intros b q.
    rewrite (own_at_insert b u u' key e' q Hwf (accounted_wf _ Hac') Hch) by (rewrite Hfu, Hfe; fold e; lia).
    destruct q as [| name q].
    + rewrite decide_True by apply prefix_nil. rewrite decide_False by done. unfold own_or_zero, own_at. cbn. f_equal. lia.
    + rewrite decide_prefix_cons. destruct (decide (name = key)) as [-> |]; [| done].
      rewrite Hq. destruct (decide (q `prefix_of` path)).
      * unfold e. rewrite own_or_zero_child by done. do 2 f_equal.
        destruct (decide (q = path)), (decide (key :: q = key :: path)); congruence.
      * rewrite own_at_cons by done. unfold e. destruct (children u !! key) as [d |]; [done |].
        cbn [default mbind option_bind]. unfold default. rewrite own_at_default. rewrite decide_False; [done |].
        intros ->. by pose proof (prefix_nil path).
Qed.

Lemma sub_space_field b s r : field b r <= field b s → field b (sub_space s r) = field b s - field b r.
Proof. destruct b; cbn; unfold saturating_sub; lia. Qed.

Lemma descendant_le path : ∀ u d, accounted u → get_path_components u path = Some d →
  ∀ b, 0 <= field b (du_space d) <= field b (du_space u).
Proof.
  induction path as [| key path IH]; intros u d Hu Hd b; pose proof (accounted_inv u Hu) as (_ & Hb & Hc).
  - injection Hd as <-. specialize (Hb b). lia.
  - rewrite get_cons in Hd by by apply accounted_wf. destruct (children u !! key) as [e |] eqn:He; [| done].
    specialize (IH e d (Hc _ _ He) Hd b). specialize (Hb b).
    pose proof (child_le b (children u) key (children_nonneg b u Hu)) as Hle. rewrite He in Hle. cbn in Hle. lia.
Qed.

Lemma space_at_le u path b : accounted u →
  0 <= field b (space_or_zero (space_at u path)) <= field b (du_space u).
Proof.
  intros Hu. unfold space_at. destruct (get_path_components u path) as [d |] eqn:Hd.
  - by apply (descendant_le path).
  - pose proof (accounted_inv u Hu) as (_ & Hb & _). specialize (Hb b). destruct b; cbn in *; lia.
Qed.

Lemma accounted_remove path : ∀ u, accounted u → accounted (snd (recursive_remove u path)).
Proof.
  induction path as [| name path IH]; intros u Hu; [done |]. pose proof (accounted_inv u Hu) as (Hs & Hb & Hc).
  assert (∀ b, map_Forall (λ _ d, 0 <= field b (du_space d)) (children u)) as Hnn by (intros b; by apply children_nonneg).
  destruct (decide (path = [])) as [-> | Hne].
  - cbn [recursive_remove]. pose proof (remove_entry_ok u name Hs) as Hr.
    destruct (remove_entry u name) as [[d u1] |]; [| done]. destruct Hr as (Hd & Hsp & Hs1 & Hch).
    cbn [snd]. constructor; [done | |].
    + intros b. cbn [set_space du_space]. change (children (set_space _ u1)) with (children u1).
      pose proof (child_le b (children u) name (Hnn b)) as Hle. rewrite Hd in Hle. cbn in Hle.
      specialize (Hb b). pose proof (total_delete b _ _ _ Hd). rewrite Hsp, sub_space_field by lia. rewrite Hch.
      pose proof (total_space_nonneg b (delete name (children u)) (map_Forall_delete _ _ _ (Hnn b))). lia.
    + intros k e. change (children (set_space _ u1)) with (children u1). rewrite Hch.
      intros [_ He]%lookup_delete_Some. eauto.
  - rewrite recursive_remove_cons by done. pose proof (get_mut_entry_ok u name Hs) as Hg.
    destruct (get_mut_entry u name) as [i |]; [| done]. destruct Hg as (Hd & Hsame & Hw).
    pose proof (Hc _ _ Hd) as Hea. specialize (IH _ Hea). pose proof (remove_ok path (entry_at u i) (accounted_wf _ Hea) Hne) as Hro.
    destruct (get_path_components (entry_at u i) path) as [d |] eqn:Hgp; [| rewrite Hro; by rewrite Hsame].
    destruct Hro as (e' & Hrm & Hwf & Hq). rewrite Hrm in *. cbn [snd] in *.
    destruct (Hw e') as (Hsp & Hs1 & Hch). set (u1 := write_entry i e' u) in *.
    pose proof (descendant_le _ _ _ Hea Hgp) as Hdle.
    assert (du_space e' = sub_space (du_space (entry_at u i)) (du_space d)) as Hspe.
    { specialize (Hq []). rewrite decide_False in Hq by (intros [? Hp]; by destruct path).
      rewrite decide_True in Hq by apply prefix_nil. cbn in Hq. by injection Hq. }
    apply (accounted_insert u (set_space (sub_space (du_space u1) (du_space d)) u1) name e' Hu IH Hs1 Hch).
    rewrite Hd. intros b. cbn [set_space du_space default].
    pose proof (child_le b (children u) name (Hnn b)) as Hle. rewrite Hd in Hle.
    change (default DiskUsage_default (Some ?x)) with x in Hle.
    specialize (Hb b). specialize (Hdle b). unfold id.
    rewrite Hsp, Hspe, !sub_space_field by lia. lia.
Qed.

(** A removal takes away what was held at and below the path, and nothing else. *)
Lemma remove_own path : ∀ u d, accounted u → path ≠ [] → get_path_components u path = Some d →
  let u' := snd (recursive_remove u path) in
  (∀ b, field b (du_space u') = field b (du_space u) - field b (du_space d)) ∧
  ∀ b q, own_at b u' q = if decide (path `prefix_of` q) then None else own_at b u q.
Proof.
  induction path as [| name path IH]; intros u d Hu Hne Hd u'; [done |]. clear Hne.
  pose proof (accounted_inv u Hu) as (Hs & Hb & Hc). pose proof (accounted_wf _ Hu) as Hwf.
  pose proof (accounted_wf _ (accounted_remove (name :: path) u Hu)) as Hwf'. fold u' in Hwf'.
  assert (∀ b, field b (du_space u') = field b (du_space u) - field b (du_space d)) as Hfu.
  { pose proof (remove_ok (name :: path) u Hwf ltac:(done)) as Hr. rewrite Hd in Hr. destruct Hr as (u2 & Hr & _ & Hq).
    intros b. pose proof (descendant_le _ _ _ Hu Hd b). specialize (Hq []).
    rewrite decide_False in Hq by (intros [? [=]]). rewrite decide_True in Hq by apply prefix_nil.
    apply (inj Some) in Hq. unfold u'. rewrite Hr. cbn [snd]. rewrite Hq. apply sub_space_field. lia. }
  split; [done |]. rewrite get_cons in Hd by done. destruct (children u !! name) as [e |] eqn:He; [| done]. cbn [mbind option_bind] in Hd.
  destruct (decide (path = [])) as [-> | Hne].
  - injection Hd as <-. unfold u' in *. clear u'. cbn [recursive_remove] in *. pose proof (remove_entry_ok u name Hs) as Hr.
    destruct (remove_entry u name) as [[d1 u1] |]; [| by rewrite Hr in He]. destruct Hr as (Hd & Hsp & Hs1 & Hch). cbn [snd] in *.
    rewrite He in Hd. injection Hd as <-. set (u2 := set_space _ u1) in *. intros b [| k q].
    + rewrite decide_False by (intros [? [=]]). unfold own_at, own. cbn [get_path_components fmap option_fmap option_map]. f_equal.
      rewrite Hfu. change (children u2) with (children u1). rewrite Hch. pose proof (total_delete b _ _ _ He). lia.
    + rewrite decide_prefix_cons, !own_at_cons by done. change (children u2) with (children u1). rewrite Hch.
      destruct (decide (name = k)) as [<- |]; [rewrite decide_True by apply prefix_nil; by rewrite lookup_delete_eq |].
      by rewrite lookup_delete_ne.
  - unfold u' in *. clear u'. rewrite recursive_remove_cons in * by done. pose proof (get_mut_entry_ok u name Hs) as Hg.
    destruct (get_mut_entry u name) as [i |]; [| by rewrite Hg in He]. destruct Hg as (Hi & _ & Hw). rewrite He in Hi. injection Hi as Hi.
    rewrite <- Hi in *. destruct (IH e d (Hc _ _ He) Hne Hd) as [Hfe Hq]. clear IH.
    pose proof (remove_ok path e (accounted_wf _ (Hc _ _ He)) Hne) as Hr. rewrite Hd in Hr. destruct Hr as (e' & Hr & _).
    rewrite Hr in *. cbn [snd] in *. destruct (Hw e') as (Hsp & Hs1 & Hch). set (u1 := write_entry i e' u) in *. set (u2 := set_space _ u1) in *.
    intros b q. rewrite (own_at_insert b u u2 name e' q Hwf Hwf' Hch) by (rewrite Hfu, Hfe, He; cbn [default]; unfold id; lia).
    destruct q as [| k q]; [by rewrite decide_False by (intros [? [=]]) |]. rewrite decide_prefix_cons.
    destruct (decide (k = name)) as [-> |]; [| by rewrite decide_False by congruence].
    rewrite decide_True by done. rewrite Hq, own_at_cons, He by done. done.
Qed.

Lemma apply_delta_field b s new old : 0 <= field b new → field b s + field b new < 2 ^ 64 → field b old <= field b s →
  field b (apply_delta s new old) = field b s + field b new - field b old.
Proof. destruct b; cbn; unfold saturating_add, saturating_sub, U64_MAX; lia. Qed.

Lemma accounted_add path src : accounted src → ∀ u, accounted u → path ≠ [] →
  (∀ b, field b (du_space u) + field b (du_space src) < 2 ^ 64) →
  accounted (add_below u path (du_space src) (space_or_zero (space_at u path)) src).
Proof.
  intros Hsrc. induction path as [| key path IH]; intros u Hu Hne Hmax; [done |]. clear Hne.
  set (old := space_or_zero (space_at u (key :: path))).
  pose proof (accounted_inv u Hu) as (Hs & Hb & Hc). pose proof (accounted_inv src Hsrc) as (_ & Hsb & _).
  set (e := default DiskUsage_default (children u !! key)).
  assert (old = space_or_zero (space_at e path)) as Hold.
  { unfold old, e. rewrite space_at_child by by apply accounted_wf. destruct (children u !! key); [done |].
    cbn [mbind option_bind]. unfold default. rewrite space_at_default. by destruct (decide (path = [])). }
  pose proof (accounted_child u key Hu) as Hea. fold e in Hea.
  assert (∀ b, 0 <= field b (du_space e) <= children_total b (children u)) as Hle
    by (intros b; by apply child_le, children_nonneg).
  assert (∀ b, field b old <= field b (du_space e)) as Hoe.
  { intros b. rewrite Hold. by apply space_at_le. }
  set (u0 := set_space (apply_delta (du_space u) (du_space src) old) u).
  assert (∀ b, field b (du_space u0) = field b (du_space u) + field b (du_space src) - field b old) as Hsp0.
  { intros b. specialize (Hle b). specialize (Hoe b). specialize (Hb b). specialize (Hsb b). apply apply_delta_field; [lia | done | lia]. }
  assert (∃ e', add_below u (key :: path) (du_space src) old src =
            write_entry (fst (upsert_entry u0 key)) e' (snd (upsert_entry u0 key)) ∧ accounted e' ∧
            ∀ b, field b (du_space e') = field b (du_space e) + field b (du_space src) - field b old) as (e' & Heq & Hac & Hfe).
  { destruct (upsert_ok u0 key Hs) as [He _]. destruct (decide (path = [])) as [-> | Hne].
    - exists src. cbn [add_below]. fold u0. destruct (upsert_entry u0 key). split; [done |]. split; [done |].
      intros b. rewrite Hold. unfold space_or_zero, space_at. cbn. lia.
    - rewrite add_below_cons by done. cbv zeta. fold u0. destruct (upsert_entry u0 key) as [i u1].
      cbn [fst snd] in *. rewrite He. change (children u0) with (children u). fold e. eexists. split; [done |].
      assert (∀ b, field b (du_space e) + field b (du_space src) < 2 ^ 64) as Hme.
      { intros b. specialize (Hle b). specialize (Hmax b). specialize (Hb b). lia. }
      rewrite Hold. split; [by apply IH |]. intros b. rewrite <- Hold.
      destruct (add_below_ok path (du_space src) old src (accounted_wf _ Hsrc) e (accounted_wf _ Hea) Hne) as [_ Hq].
      specialize (Hq []). rewrite decide_False in Hq by (intros [? Hp]; by destruct path).
      rewrite decide_True in Hq by apply prefix_nil. apply (inj Some) in Hq.
      change (space_at e []) with (Some (du_space e)) in Hq. rewrite Hq. cbn [space_or_zero default].
      specialize (Hsb b). apply apply_delta_field; [lia | done | done]. }
  rewrite Heq. destruct (upsert_ok u0 key Hs) as [_ Hw]. destruct (Hw e') as (Hsp & Hs1 & Hch).
  apply (accounted_insert u _ key e' Hu Hac Hs1 Hch). fold e. intros b. rewrite Hsp, Hsp0, Hfe.
  specialize (Hle b). specialize (Hoe b). specialize (Hb b). specialize (Hsb b). specialize (Hmax b).
  assert (0 <= field b old) by (rewrite Hold; by apply space_at_le). split; lia.
Qed.

(** Adding a tree puts what it holds at and below the path, and changes nothing else. *)
Lemma add_own path src : accounted src → ∀ u, accounted u → path ≠ [] →
  (∀ b, field b (du_space u) + field b (du_space src) < 2 ^ 64) →
  let u' := add_below u path (du_space src) (space_or_zero (space_at u path)) src in
  (∀ b, field b (du_space u') = field b (du_space u) + field b (du_space src) - field b (space_or_zero (space_at u path))) ∧
  ∀ b q, own_at b u' q = if decide (path `prefix_of` q) then own_at b src (drop (length path) q)
                         else if decide (q `prefix_of` path) then Some (own_or_zero b u q) else own_at b u q.
Proof.
  intros Hsrc. induction path as [| key path IH]; intros u Hu Hne Hmax u'; [done |]. clear Hne.
  pose proof (accounted_inv u Hu) as (Hs & Hb & Hc). pose proof (accounted_wf _ Hu) as Hwf.
  assert (accounted u') as Hac' by (by apply accounted_add). set (old := space_or_zero (space_at u (key :: path))) in *.
  assert (∀ b, field b (du_space u') = field b (du_space u) + field b (du_space src) - field b old) as Hfu.
  { intros b. pose proof (space_at_le u (key :: path) b Hu) as Hle. fold old in Hle. pose proof (accounted_inv src Hsrc) as (_ & Hsb & _).
    specialize (Hsb b). specialize (Hmax b).
    destruct (add_below_ok (key :: path) (du_space src) old src (accounted_wf _ Hsrc) u Hwf ltac:(done)) as [_ Hq]. specialize (Hq []).
    rewrite decide_False in Hq by (intros [? [=]]). rewrite decide_True in Hq by apply prefix_nil. apply (inj Some) in Hq.
    fold u' in Hq. rewrite Hq. apply apply_delta_field; [lia | done | cbn in *; lia]. }
  split; [done |]. set (e := default DiskUsage_default (children u !! key)).
  pose proof (accounted_child u key Hu) as Hea. fold e in Hea.
  assert (old = space_or_zero (space_at e path)) as Hold.
  { unfold old, e. rewrite space_at_child by done. destruct (children u !! key); [done |].
    cbn [mbind option_bind]. unfold default. rewrite space_at_default. by destruct (decide (path = [])). }
  set (u0 := set_space (apply_delta (du_space u) (du_space src) old) u).
  assert (∃ e', u' = write_entry (fst (upsert_entry u0 key)) e' (snd (upsert_entry u0 key)) ∧
            (∀ b, field b (du_space e') = field b (du_space e) + field b (du_space src) - field b old) ∧
            ∀ b q, own_at b e' q = if decide (path `prefix_of` q) then own_at b src (drop (length path) q)
              else if decide (q `prefix_of` path) then Some (own_or_zero b e q) else own_at b e q) as (e' & Heq & Hfe & Hq).
  { destruct (upsert_ok u0 key Hs) as [He _]. unfold u'. destruct (decide (path = [])) as [-> | Hne].
    - exists src. cbn [add_below]. fold u0. destruct (upsert_entry u0 key). split; [done |]. split.
      + intros b. rewrite Hold. unfold space_or_zero, space_at. cbn. lia.
      + intros b q. by rewrite decide_True by apply prefix_nil.
    - rewrite add_below_cons by done. cbv zeta. fold u0. destruct (upsert_entry u0 key) as [i u1].
      cbn [fst snd] in *. rewrite He. change (children u0) with (children u). fold e. eexists. split; [done |].
      rewrite Hold. apply IH; [done | done |]. intros b. pose proof (child_le b (children u) key (children_nonneg b u Hu)) as Hle.
      fold e in Hle. specialize (Hmax b). specialize (Hb b). lia. }
  destruct (upsert_ok u0 key Hs) as [_ Hw]. destruct (Hw e') as (_ & _ & Hch). rewrite <- Heq in Hch.
  change (children u0) with (children u) in Hch.
  intros b q. rewrite (own_at_insert b u u' key e' q Hwf (accounted_wf _ Hac') Hch) by (rewrite Hfu, Hfe; fold e; lia).
  destruct q as [| name q].
  { rewrite decide_False by (intros [? [=]]). by rewrite decide_True by apply prefix_nil. }
  rewrite !decide_prefix_cons. destruct (decide (name = key)) as [-> |]; [| by rewrite decide_False by congruence].
  rewrite decide_True by done. rewrite Hq. destruct (decide (path `prefix_of` q)); [done |].
  unfold e. rewrite own_or_zero_child by done. destruct (decide (q `prefix_of` path)) as [| Hnp]; [done |].
  rewrite own_at_cons by done. destruct (children u !! key) as [d |]; [done |]. cbn [default mbind option_bind]. unfold default.
  rewrite own_at_default, decide_False; [done |]. intros ->. by pose proof (prefix_nil path).
Qed.

(** ** Lemmas: paths *)

(** The entries a path goes through. *)
Definition usage_names (path : bytes) : list bytes :=
  if path_is_root path then [] else map component_key (components path).
Definition path_is_str (path : bytes) : Prop := Forall (λ c, is_Some (component_str c)) (components path).

Lemma get_path_loop_names cs : Forall (λ c, is_Some (component_str c)) cs →
  ∀ u, get_path_loop u cs = get_path_components u (map component_key cs).
Proof.
  induction 1 as [| c cs [s Hs] Hcs IH]; intros u; [done |]. cbn [get_path_loop get_path_components map].
  unfold component_key. rewrite Hs. cbn [mbind option_bind]. change (default [] (Some s)) with s.
  destruct (find_entry u s); [apply IH | done].
Qed.

Lemma get_size_names u path : path_is_str path → get_size u path = space_at u (usage_names path).
Proof.
  intros Hp. unfold get_size, space_at, usage_names. destruct (path_is_root path); [done |].
  by rewrite get_path_loop_names.
Qed.

Lemma update_size_names u path δ : update_size u path δ = update_size_iterator u (usage_names path) δ.
Proof. unfold update_size, update_size_iterator, usage_names. by destruct (path_is_root path). Qed.

Lemma remove_path_names u path : remove_path u path = recursive_remove u (usage_names path).
Proof. unfold remove_path, usage_names. by destruct (path_is_root path). Qed.

(** ** Properties *)

(** A size change is recorded in the directory it is made in and in every
    directory above it, saturating in 64 bits, and nowhere else: afterwards
    the size of a path is its old size (zero if it was not in the tree) plus
    the change when it is an ancestor of the changed path or that path
    itself, and its old size otherwise.  The entries stay sorted. *)
Theorem disk_usage_update (u : DiskUsage) (path q : bytes) (δ : SpaceDelta)
    (Hu : usage_wf u) (Hq : path_is_str q) :
  usage_wf (update_size u path δ) ∧
  get_size (update_size u path δ) q =
    (if decide (usage_names q `prefix_of` usage_names path)
     then Some (add_delta δ (space_or_zero (get_size u q))) else get_size u q).
Proof.
  rewrite update_size_names, !get_size_names by done. destruct (update_ok (usage_names path) δ u Hu) as [Hwf H].
  split; [done | apply H].
Qed.

(** Removing a path that is in the tree returns its subtree, makes the path
    and everything below it absent, takes its size off every directory above
    it, and changes no other size; a path that is not in the tree changes
    nothing, and neither does the root. *)
Theorem disk_usage_remove (u : DiskUsage) (path q : bytes) (Hu : usage_wf u) (Hq : path_is_str q) :
  if decide (usage_names path = []) then remove_path u path = (None, u) else
  match get_path_components u (usage_names path) with
  | Some d => ∃ u', remove_path u path = (Some d, u') ∧ usage_wf u' ∧
      get_size u' q =
        (if decide (usage_names path `prefix_of` usage_names q) then None
         else if decide (usage_names q `prefix_of` usage_names path)
         then flip sub_space (du_space d) <$> get_size u q else get_size u q)
  | None => remove_path u path = (None, u)
  end.
Proof.
  rewrite remove_path_names, get_size_names by done. destruct (decide (usage_names path = [])) as [-> | Hne]; [done |].
  pose proof (remove_ok (usage_names path) u Hu Hne) as Hr.
  destruct (get_path_components u (usage_names path)) as [d |]; [| exact Hr].
  destruct Hr as (u' & Hrm & Hwf & Hsp). exists u'. split; [done |]. split; [done |]. rewrite get_size_names by done. apply Hsp.
Qed.

(** Adding a directory replaces what was at the path by the given subtree,
    and corrects every directory above it by the new size less the old one;
    no other size changes. *)
Theorem disk_usage_add_directory (u src : DiskUsage) (path q : list bytes)
    (Hu : usage_wf u) (Hsrc : usage_wf src) (Hpath : path ≠ []) :
  let '(added, u') := add_directory u path src in
  added = true ∧ usage_wf u' ∧
  space_at u' q =
    (if decide (path `prefix_of` q) then space_at src (drop (length path) q)
     else if decide (q `prefix_of` path)
     then Some (apply_delta (space_or_zero (space_at u q)) (du_space src) (space_or_zero (space_at u path)))
     else space_at u q).
Proof.
  unfold add_directory. destruct path as [| key path]; [done |].
  destruct (add_below_ok (key :: path) (du_space src) (space_or_zero (space_at u (key :: path))) src Hsrc u Hu ltac:(done))
    as [Hwf Hsp].
  split; [done |]. split; [exact Hwf | exact (Hsp q)].
Qed.

(** C17. The tree accounts for every directory by itself.  What a directory holds
    itself is its space less that of its subdirectories ([own_at], in both
    fields); no directory holds less than nothing ([accounted]).  From such a
    tree:
    - a size change that takes no more from the directory than it holds and does
      not overflow the root is added to what that directory holds (it and the
      directories above it come to exist) and to nothing else;
    - removing a path returns the subtree that was there and takes away what the
      path and all below it held; every other directory holds what it held.  A
      path that is not there, and the root, change nothing;
    - adding a tree at a path, where that does not overflow the root, replaces
      what was held at and below the path by what the tree holds; every other
      directory holds what it held;
    - truncation leaves the empty tree.
    The results are such trees again, so under these conditions no saturation
    happens. *)
Theorem disk_usage_accounting (u : DiskUsage) (Hu : accounted u) :
  (∀ path δ, (∀ b, 0 <= own_or_zero b u (usage_names path) + delta_field b δ) →
     (∀ b, field b (du_space u) + delta_field b δ < 2 ^ 64) →
     let u' := update_size u path δ in
     accounted u' ∧ ∀ b q, own_at b u' q =
       if decide (q `prefix_of` usage_names path)
       then Some (own_or_zero b u q + if decide (q = usage_names path) then delta_field b δ else 0) else own_at b u q) ∧
  (∀ path,
     let '(removed, u') := remove_path u path in
     removed = (if decide (usage_names path = []) then None else get_path_components u (usage_names path)) ∧
     match removed with
     | Some _ => accounted u' ∧
         ∀ b q, own_at b u' q = if decide (usage_names path `prefix_of` q) then None else own_at b u q
     | None => u' = u
     end) ∧
  (∀ path src, accounted src → (∀ b, field b (du_space u) + field b (du_space src) < 2 ^ 64) →
     let '(added, u') := add_directory u path src in
     added = bool_decide (path ≠ []) ∧ accounted u' ∧
     (path ≠ [] → ∀ b q, own_at b u' q =
        if decide (path `prefix_of` q) then own_at b src (drop (length path) q)
        else if decide (q `prefix_of` path) then Some (own_or_zero b u q) else own_at b u q)) ∧
  truncate u = DiskUsage_default.
Proof.
  split; [| split; [| split; [| done]]].
  - intros path δ Hown Hmax. rewrite update_size_names. by destruct (update_accounted (usage_names path) δ u Hu Hown Hmax) as (? & _ & ?).
  - intros path. rewrite remove_path_names. destruct (decide (usage_names path = [])) as [-> | Hne]; [done |].
    pose proof (remove_ok (usage_names path) u (accounted_wf _ Hu) Hne) as Hr. pose proof (accounted_remove (usage_names path) u Hu) as Ha.
    destruct (get_path_components u (usage_names path)) as [d |] eqn:Hd; [| by rewrite Hr].
    destruct (remove_own _ _ _ Hu Hne Hd) as [_ Hown]. destruct Hr as (u' & Hr & _). rewrite Hr in *. done.
  - intros path src Hsrc Hmax. unfold add_directory. destruct path as [| key path]; [done |].
    split; [done |]. split; [by apply (accounted_add (key :: path) src Hsrc u) |]. intros _.
    by apply (add_own (key :: path) src Hsrc u).
Qed.

(** A tree with [a/b] of 10 bytes and [c] of 5. *)
Definition sample_usage : DiskUsage :=
  update_size (update_size DiskUsage_default [97; 47; 98] (SpaceDelta_from 10)) [99] (SpaceDelta_from 5).

Lemma sample_usage_accounted : accounted sample_usage.
Proof.
  unfold sample_usage. rewrite !update_size_names.
  repeat first [eapply update_accounted | apply accounted_default | intros []; by vm_compute].
Qed.

Lemma disk_usage_update_witness :
  get_size (update_size sample_usage [97] (SpaceDelta_from 3)) [97; 47; 98] = Some (mk_UsedSpace 10 10) ∧
  get_size (update_size sample_usage [97] (SpaceDelta_from 3)) [97] = Some (mk_UsedSpace 13 13).
Proof.
  pose proof (accounted_wf _ sample_usage_accounted) as Hu. split.
  - destruct (disk_usage_update sample_usage [97] [97; 47; 98] (SpaceDelta_from 3) Hu) as [_ ->]; [| reflexivity].
    repeat constructor; by eexists.
  - destruct (disk_usage_update sample_usage [97] [97] (SpaceDelta_from 3) Hu) as [_ ->]; [| reflexivity].
    repeat constructor; by eexists.
Defined.

Lemma disk_usage_remove_witness :
  ∃ u', remove_path sample_usage [97; 47; 98] = (Some (mk_DiskUsage (mk_UsedSpace 10 10) []), u') ∧
        get_size u' [97] = Some (mk_UsedSpace 0 0).
Proof.
  pose proof (accounted_wf _ sample_usage_accounted) as Hu.
  pose proof (disk_usage_remove sample_usage [97; 47; 98] [97] Hu ltac:(repeat constructor; by eexists)) as Hr.
  destruct Hr as (u' & Hr & _ & Hs). exists u'. split; [exact Hr | exact Hs].
Defined.

Lemma disk_usage_add_directory_witness :
  space_at (snd (add_directory sample_usage [[99]] sample_usage)) [] = Some (mk_UsedSpace 25 25).
Proof.
  pose proof (accounted_wf _ sample_usage_accounted) as Hu.
  pose proof (disk_usage_add_directory sample_usage sample_usage [[99]] [] Hu Hu ltac:(done)) as Ha.
  destruct Ha as (_ & _ & Ha). exact Ha.
Defined.

(** Taking [a] away leaves the root what it held, and [a/b] gone. *)
Lemma disk_usage_accounting_witness :
  own_at true (snd (remove_path sample_usage [97])) [] = Some 0 ∧
  own_at true (snd (remove_path sample_usage [97])) [[97]; [98]] = None ∧
  own_at true (update_size sample_usage [97; 47; 98] (SpaceDelta_from (-4))) [[97]; [98]] = Some 6 ∧
  own_at true (snd (add_directory sample_usage [[99]] sample_usage)) [[99]; [97]; [98]] = Some 10.
Proof.
  destruct (disk_usage_accounting sample_usage sample_usage_accounted) as (Hup & Hrm & Hadd & _).
  specialize (Hrm [97]). destruct (remove_path sample_usage [97]) as [r u'] eqn:He. destruct Hrm as [Hr Hrm].
  destruct r as [d |]; [| discriminate]. destruct Hrm as [_ Hrm]. cbn [snd]. rewrite !Hrm.
  split; [reflexivity |]. split; [reflexivity |]. split.
  - destruct (Hup [97; 47; 98] (SpaceDelta_from (-4))) as [_ ->]; [intros []; by vm_compute.. |]. reflexivity.
  - specialize (Hadd [[99]] sample_usage sample_usage_accounted ltac:(intros []; by vm_compute)).
    destruct (add_directory sample_usage [[99]] sample_usage) as [a u2]. destruct Hadd as (_ & _ & Hadd).
    cbn [snd]. rewrite Hadd by discriminate. reflexivity.
Defined.
