(* ===== verification/SshLimiter.v ===== *)
(** * SshLimiter: connection limits of the SFTP server (application/src/ssh/limiter.rs)

    Rate limits per address and sessions per user are maps behind a mutex: an
    operation is one transition.  The number of open file handles is an atomic
    counter, so [open_handle] is modelled by its atomic steps, and any number
    of tasks interleave them. *)
From S2P Require Import Prelude.

Module AuthenticationType.
Inductive AuthenticationType : Type := Password | PublicKey.
End AuthenticationType.

(** The limits of the configuration; they do not change during a run of the
    model. *)
Record SftpLimits : Type := mk_SftpLimits {
  authentication_cooldown : Z;
  authentication_password_attempts : Z;
  authentication_pubkey_attempts : Z;
  max_connections_per_user : Z;
  max_handles_total : Z;
}.

Inductive RusshError : Type := Disconnect.

(** Addresses, users and instants (in seconds) are numbers. *)
Record Ratelimit : Type := mk_Ratelimit {
  password_attempts : Z;
  pubkey_attempts : Z;
  last_attempt : Z;
}.
Definition Ratelimit_default (now : Z) : Ratelimit := mk_Ratelimit 0 0 now.

Record SshLimiter : Type := mk_SshLimiter {
  ratelimits : gmap Z Ratelimit;
  user_sessions : gmap Z Z;
}.
Definition set_ratelimits (r : gmap Z Ratelimit) (s : SshLimiter) : SshLimiter := mk_SshLimiter r (user_sessions s).
Definition set_user_sessions (u : gmap Z Z) (s : SshLimiter) : SshLimiter := mk_SshLimiter (ratelimits s) u.

Section limiter.
Context (limits : SftpLimits).

Definition SshLimiter_new : SshLimiter := mk_SshLimiter ∅ ∅.

(** One turn of the background task, [now] being the time of the turn. *)
Definition cleanup (now : Z) (s : SshLimiter) : SshLimiter :=
  mk_SshLimiter
    (filter (λ e, now - last_attempt (snd e) < authentication_cooldown limits) (ratelimits s))
    (filter (λ e, 0 < snd e) (user_sessions s)).

Definition check_attempt (now ip : Z) (t : AuthenticationType.AuthenticationType) :
    stt SshLimiter RusshError unit := λ s,
  if authentication_cooldown limits =? 0 then (Ok tt, s) else
  let entry := default (Ratelimit_default now) (ratelimits s !! ip) in
  let '(entry, exceeded) :=
    match t with
    | AuthenticationType.Password =>
        let entry := mk_Ratelimit (u64_add (password_attempts entry) 1) (pubkey_attempts entry) now in
        (entry, authentication_password_attempts limits <? password_attempts entry)
    | AuthenticationType.PublicKey =>
        let entry := mk_Ratelimit (password_attempts entry) (u64_add (pubkey_attempts entry) 1) now in
        (entry, authentication_pubkey_attempts limits <? pubkey_attempts entry)
    end in
  let s := set_ratelimits (<[ip := entry]> (ratelimits s)) s in
  if exceeded then (Err Disconnect, s) else (Ok tt, s).

Definition finish_attempt (ip : Z) (t : AuthenticationType.AuthenticationType) (s : SshLimiter) : SshLimiter :=
  if authentication_cooldown limits =? 0 then s else
  match ratelimits s !! ip with
  | Some entry =>
      let entry :=
        match t with
        | AuthenticationType.Password =>
            if 0 <? password_attempts entry
            then mk_Ratelimit (u64_sub (password_attempts entry) 1) (pubkey_attempts entry) (last_attempt entry)
            else entry
        | AuthenticationType.PublicKey =>
            if 0 <? pubkey_attempts entry
            then mk_Ratelimit (password_attempts entry) (u64_sub (pubkey_attempts entry) 1) (last_attempt entry)
            else entry
        end in
      set_ratelimits (<[ip := entry]> (ratelimits s)) s
  | None => s
  end.

Definition increment_sessions (user : Z) : stt SshLimiter RusshError unit := λ s,
  let count := default 0 (user_sessions s !! user) in
  if max_connections_per_user limits <=? count
  then (Err Disconnect, set_user_sessions (<[user := count]> (user_sessions s)) s)
  else (Ok tt, set_user_sessions (<[user := u64_add count 1]> (user_sessions s)) s).

Definition decrement_sessions (user : Z) (s : SshLimiter) : SshLimiter :=
  match user_sessions s !! user with
  | Some count =>
      if 0 <? count then set_user_sessions (<[user := u64_sub count 1]> (user_sessions s)) s else s
  | None => s
  end.

(** ** Open handles

    The state of a task: outside, after the [fetch_add] of [open_handle]
    (which returned [current]), or holding a guard. *)
Inductive HandleTask : Type :=
  | Outside
  | Added (current : Z)
  | Holding.

Record HandleState : Type := mk_HandleState { open_handles : Z; tasks : list HandleTask }.
Definition set_task (i : nat) (t : HandleTask) (n : Z) (s : HandleState) : HandleState :=
  mk_HandleState n (<[i := t]> (tasks s)).

(** One atomic step of task [i]. *)
Inductive handle_step (i : nat) (s : HandleState) : HandleState → Prop :=
  | step_unlimited :
      max_handles_total limits = 0 → tasks s !! i = Some Outside →
      handle_step i s (set_task i Holding (u64_add (open_handles s) 1) s)
  | step_add :
      max_handles_total limits ≠ 0 → tasks s !! i = Some Outside →
      handle_step i s (set_task i (Added (open_handles s)) (u64_add (open_handles s) 1) s)
  | step_refuse current :
      tasks s !! i = Some (Added current) → max_handles_total limits <= current →
      handle_step i s (set_task i Outside (u64_sub (open_handles s) 1) s)
  | step_grant current :
      tasks s !! i = Some (Added current) → current < max_handles_total limits →
      handle_step i s (set_task i Holding (open_handles s) s)
  | step_drop :
      tasks s !! i = Some Holding →
      handle_step i s (set_task i Outside (u64_sub (open_handles s) 1) s).

Definition handles_start (n : nat) : HandleState := mk_HandleState 0 (replicate n Outside).

Inductive handles_reachable (n : nat) : HandleState → Prop :=
  | reach_start : handles_reachable n (handles_start n)
  | reach_step i s s' : handles_reachable n s → handle_step i s s' → handles_reachable n s'.
End limiter.

(** ** Lemmas *)

(** How many tasks hold a guard, how many count in [open_handles], and how
    many hold one or are going to. *)
Definition is_holding (t : HandleTask) : bool := match t with Holding => true | _ => false end.
Definition is_counted (t : HandleTask) : bool := match t with Outside => false | _ => true end.
Definition will_hold (limits : SftpLimits) (t : HandleTask) : bool :=
  match t with Outside => false | Added current => current <? max_handles_total limits | Holding => true end.

Definition one (b : bool) : Z := if b then 1 else 0.
Definition count_tasks (f : HandleTask → bool) (s : HandleState) : Z :=
  foldr (λ t n, one (f t) + n) 0 (tasks s).

Lemma count_app f l1 l2 :
  foldr (λ (t : HandleTask) n, one (f t) + n) 0 (l1 ++ l2) =
  foldr (λ t n, one (f t) + n) 0 l1 + foldr (λ t n, one (f t) + n) 0 l2.
Proof. induction l1 as [| t l1 IH]; cbn [app foldr]; [done |]. rewrite IH. lia. Qed.

Lemma count_set_task f i t old n s : tasks s !! i = Some old →
  count_tasks f (set_task i t n s) = count_tasks f s - one (f old) + one (f t).
Proof.
  intros Hold. unfold count_tasks, set_task. cbn [tasks]. pose proof (lookup_lt_Some _ _ _ Hold).
  rewrite insert_take_drop by done. rewrite <- (take_drop_middle (tasks s) i old Hold) at 3.
  rewrite !count_app. cbn [foldr]. lia.
Qed.

Lemma count_le f g s : (∀ t, f t = true → g t = true) → count_tasks f s <= count_tasks g s.
Proof.
  intros Hfg. unfold count_tasks, one. induction (tasks s) as [| t l IH]; cbn [foldr]; [done |]. specialize (Hfg t).
  destruct (f t); [rewrite Hfg by done | destruct (g t)]; lia.
Qed.

Lemma count_le_tasks f s : 0 <= count_tasks f s <= zlen (tasks s).
Proof.
  unfold count_tasks, one. induction (tasks s) as [| t l IH]; cbn [foldr]; [done |]. rewrite zlen_cons.
  destruct (f t); lia.
Qed.

Record handles_inv (limits : SftpLimits) (n : nat) (s : HandleState) : Prop := {
  hi_tasks : length (tasks s) = n;
  hi_counter : open_handles s = count_tasks is_counted s;
  hi_limit : max_handles_total limits ≠ 0 → count_tasks (will_hold limits) s <= max_handles_total limits;
}.

Lemma handles_inv_step limits n i s s' :
  0 <= max_handles_total limits → Z.of_nat n < 2 ^ 64 →
  handles_inv limits n s → handle_step limits i s s' → handles_inv limits n s'.
Proof.
  intros Hm Hn [Ht Hc Hl] Hs.
  assert (∀ t m, length (tasks (set_task i t m s)) = n) as Hlen by (intros t m; cbn; by rewrite length_insert).
  assert (∀ old t (m : Z), tasks s !! i = Some old →
    0 <= count_tasks is_counted s - one (is_counted old) + one (is_counted t)
      <= Z.of_nat n) as Hb.
  { intros old t m Hi. rewrite <- (count_set_task is_counted i t old m s Hi).
    pose proof (count_le_tasks is_counted (set_task i t m s)) as H. unfold zlen in H. by rewrite Hlen in H. }
  assert (count_tasks (will_hold limits) s <= count_tasks is_counted s) as Hle by (apply count_le; by intros []).
  unfold one in *.
  destruct Hs as [Hm0 Hi | Hm0 Hi | cur Hi Hcur | cur Hi Hcur | Hi].
  - specialize (Hb _ Holding 0 Hi). split; [apply Hlen | |]; rewrite (count_set_task _ _ _ _ _ _ Hi); cbn [is_counted will_hold one set_task open_handles] in *; unfold one in *; [| done].
    rewrite u64_add_small by (unfold in_u64; lia). lia.
  - specialize (Hb _ (Added (open_handles s)) 0 Hi). split; [apply Hlen | |]; rewrite (count_set_task _ _ _ _ _ _ Hi); cbn [is_counted will_hold one set_task open_handles] in *; unfold one in *.
    + rewrite u64_add_small by (unfold in_u64; lia). lia.
    + intros _. specialize (Hl Hm0). destruct (Z.ltb_spec (open_handles s) (max_handles_total limits)); lia.
  - specialize (Hb _ Outside 0 Hi). split; [apply Hlen | |]; rewrite (count_set_task _ _ _ _ _ _ Hi); cbn [is_counted will_hold one set_task open_handles] in *; unfold one in *.
    + rewrite u64_sub_small by (unfold in_u64; lia). lia.
    + intros Hm0. specialize (Hl Hm0). destruct (Z.ltb_spec cur (max_handles_total limits)); lia.
  - specialize (Hb _ Holding 0 Hi). split; [apply Hlen | |]; rewrite (count_set_task _ _ _ _ _ _ Hi); cbn [is_counted will_hold one set_task open_handles] in *; unfold one in *; [lia |].
    intros Hm0. specialize (Hl Hm0). destruct (Z.ltb_spec cur (max_handles_total limits)); lia.
  - specialize (Hb _ Outside 0 Hi). split; [apply Hlen | |]; rewrite (count_set_task _ _ _ _ _ _ Hi); cbn [is_counted will_hold one set_task open_handles] in *; unfold one in *.
    + rewrite u64_sub_small by (unfold in_u64; lia). lia.
    + intros Hm0. specialize (Hl Hm0). lia.
Qed.

Lemma handles_reachable_inv limits n s :
  0 <= max_handles_total limits → Z.of_nat n < 2 ^ 64 → handles_reachable limits n s → handles_inv limits n s.
Proof.
  intros Hm Hn. induction 1 as [| i s s' Hr IH Hs]; [| by eapply handles_inv_step].
  assert (∀ f, f Outside = false → count_tasks f (handles_start n) = 0) as H0.
  { intros f Hf. unfold count_tasks, handles_start. cbn [tasks]. clear -Hf.
    induction n as [| n IH]; [done |]. cbn. by rewrite Hf, IH. }
  split; [apply length_replicate | |]; rewrite H0; cbn; auto.
Qed.

(** ** Lemmas: attempts and sessions *)

Module LimiterOp.
Inductive LimiterOp : Type :=
  | Attempt (now ip : Z) (t : AuthenticationType.AuthenticationType)
  | Finish (ip : Z) (t : AuthenticationType.AuthenticationType)
  | Connect (user : Z)
  | Disconnect (user : Z)
  | Cleanup (now : Z).
End LimiterOp.

#[export] Instance AuthenticationType_eq_dec : EqDecision AuthenticationType.AuthenticationType.
Proof. solve_decision. Defined.

Section run.
Context (limits : SftpLimits).

(** Whether the operation was allowed, and the next state. *)
Definition run_op (op : LimiterOp.LimiterOp) (s : SshLimiter) : bool * SshLimiter :=
  match op with
  | LimiterOp.Attempt now ip t => let '(r, s) := check_attempt limits now ip t s in (is_ok r, s)
  | LimiterOp.Finish ip t => (true, finish_attempt limits ip t s)
  | LimiterOp.Connect user => let '(r, s) := increment_sessions limits user s in (is_ok r, s)
  | LimiterOp.Disconnect user => (true, decrement_sessions user s)
  | LimiterOp.Cleanup now => (true, cleanup limits now s)
  end.

(** A run, with what was allowed of it. *)
Fixpoint run_ops (ops : list LimiterOp.LimiterOp) (s : SshLimiter) : list (LimiterOp.LimiterOp * bool) * SshLimiter :=
  match ops with
  | [] => ([], s)
  | op :: ops =>
      let '(ok, s) := run_op op s in
      let '(log, s) := run_ops ops s in
      ((op, ok) :: log, s)
  end.

(** Allowed attempts of an address less its finished ones; sessions opened
    less sessions closed. *)
Definition attempt_weight (ip : Z) (t : AuthenticationType.AuthenticationType) (e : LimiterOp.LimiterOp * bool) : Z :=
  match e with
  | (LimiterOp.Attempt _ ip' t', true) => if bool_decide (ip' = ip ∧ t' = t) then 1 else 0
  | (LimiterOp.Finish ip' t', _) => if bool_decide (ip' = ip ∧ t' = t) then -1 else 0
  | _ => 0
  end.
Definition session_weight (user : Z) (e : LimiterOp.LimiterOp * bool) : Z :=
  match e with
  | (LimiterOp.Connect user', true) => if bool_decide (user' = user) then 1 else 0
  | (LimiterOp.Disconnect user', _) => if bool_decide (user' = user) then -1 else 0
  | _ => 0
  end.
Definition weight (w : LimiterOp.LimiterOp * bool → Z) (log : list (LimiterOp.LimiterOp * bool)) : Z :=
  foldr (λ e n, w e + n) 0 log.

Definition attempts_of (t : AuthenticationType.AuthenticationType) (r : Ratelimit) : Z :=
  match t with AuthenticationType.Password => password_attempts r | AuthenticationType.PublicKey => pubkey_attempts r end.
Definition attempts_limit (t : AuthenticationType.AuthenticationType) : Z :=
  match t with
  | AuthenticationType.Password => authentication_password_attempts limits
  | AuthenticationType.PublicKey => authentication_pubkey_attempts limits
  end.
Definition attempts (s : SshLimiter) (ip : Z) (t : AuthenticationType.AuthenticationType) : Z :=
  default 0 (attempts_of t <$> ratelimits s !! ip).
Definition sessions (s : SshLimiter) (user : Z) : Z := default 0 (user_sessions s !! user).

Lemma run_op_sessions op s user :
  0 <= sessions s user <= max_connections_per_user limits → max_connections_per_user limits < 2 ^ 64 →
  let '(ok, s') := run_op op s in
  0 <= sessions s' user <= max_connections_per_user limits ∧
  sessions s user + session_weight user (op, ok) <= sessions s' user.
Proof.
  intros Hb Hm. unfold sessions in *. destruct op as [now ip t | ip t | u | u | now]; cbn [run_op].
  - unfold check_attempt. destruct (_ =? 0); [cbn; lia |]. destruct t; cbv zeta; destruct (_ <? _); cbn; lia.
  - unfold finish_attempt. destruct (_ =? 0); [cbn; lia |]. destruct (ratelimits s !! ip); cbn; lia.
  - unfold increment_sessions. destruct (Z.leb_spec (max_connections_per_user limits) (default 0 (user_sessions s !! u))); cbn.
    + destruct (decide (u = user)) as [-> |]; [rewrite lookup_insert_eq | rewrite lookup_insert_ne by done]; cbn; lia.
    + case_bool_decide as Hu; [subst u; rewrite lookup_insert_eq | rewrite lookup_insert_ne by done]; cbn; [| lia].
      rewrite u64_add_small by (unfold in_u64; lia). lia.
  - unfold decrement_sessions. cbn [session_weight]. case_bool_decide as Hu; [subst u |].
    + destruct (user_sessions s !! user) as [n |] eqn:Hn; cbn in *; [| rewrite Hn; cbn; lia].
      destruct (Z.ltb_spec 0 n); cbn; [rewrite lookup_insert_eq; cbn; rewrite u64_sub_small by (unfold in_u64; lia); lia |].
      rewrite Hn. cbn. lia.
    + destruct (user_sessions s !! u) as [n |]; [| lia]. destruct (0 <? n); [| lia]. cbn. rewrite lookup_insert_ne by done. lia.
  - cbn. destruct (user_sessions s !! user) as [n |] eqn:Hn.
    + destruct (decide (0 < n)).
      * by erewrite map_lookup_filter_Some_2 by (done || exact Hn); cbn in *; lia.
      * rewrite map_lookup_filter_None_2; cbn in *; [lia |]. right. intros x Hx. rewrite Hn in Hx. injection Hx as <-. done.
    + rewrite map_lookup_filter_None_2; [cbn in *; lia | by left].
Qed.

Lemma run_ops_sessions user ops : max_connections_per_user limits < 2 ^ 64 → ∀ s,
  0 <= sessions s user <= max_connections_per_user limits →
  let '(log, s') := run_ops ops s in
  0 <= sessions s' user <= max_connections_per_user limits ∧
  sessions s user + weight (session_weight user) log <= sessions s' user.
Proof.
  intros Hm. induction ops as [| op ops IH]; intros s Hs; cbn [run_ops]; [cbn; lia |].
  pose proof (run_op_sessions op s user Hs Hm) as Hop. destruct (run_op op s) as [ok s1].
  destruct Hop as [Hs1 Hop]. specialize (IH s1 Hs1). destruct (run_ops ops s1) as [log s2].
  unfold weight in *. cbn [foldr]. lia.
Qed.

(** No purge of the rate limits. *)
Definition not_cleanup (op : LimiterOp.LimiterOp) : Prop := match op with LimiterOp.Cleanup _ => False | _ => True end.

Lemma run_op_attempts op s ip t a :
  not_cleanup op → authentication_cooldown limits ≠ 0 → 0 <= attempts s ip t < 2 ^ 64 - 1 →
  a <= attempts s ip t → a <= attempts_limit t →
  let '(ok, s') := run_op op s in
  0 <= attempts s' ip t <= attempts s ip t + 1 ∧
  a + attempt_weight ip t (op, ok) <= attempts s' ip t ∧ a + attempt_weight ip t (op, ok) <= attempts_limit t.
Proof.
  intros Hnc Hcd Hb Ha Hl. unfold attempts in *. destruct op as [now ip' t' | ip' t' | u | u | now]; cbn [run_op].
  - unfold check_attempt. rewrite (proj2 (Z.eqb_neq _ _) Hcd). cbn [attempt_weight].
    destruct (decide (ip' = ip)) as [-> | Hne].
    + set (r := default (Ratelimit_default now) (ratelimits s !! ip)).
      assert (∀ t, attempts_of t r = default 0 (attempts_of t <$> ratelimits s !! ip)) as Hr
        by (intros []; unfold r; by destruct (ratelimits s !! ip)).
      rewrite <- !Hr in *. cbv zeta.
      destruct t'; cbv zeta; cbn [password_attempts pubkey_attempts];
        match goal with |- context [?x <? ?y] => destruct (Z.ltb_spec x y) as [Hx | Hx] end;
        cbn; rewrite lookup_insert_eq; cbn; destruct t; cbn in *; rewrite ?bool_decide_eq_false_2 by (intros [_ ?]; done);
        rewrite ?bool_decide_eq_true_2 by done; rewrite ?u64_add_small in * by (unfold in_u64; lia); lia.
    + rewrite bool_decide_eq_false_2 by (intros [? _]; done).
      destruct t'; cbv zeta; cbn [password_attempts pubkey_attempts]; destruct (_ <? _); cbn;
        rewrite lookup_insert_ne by done; lia.
  - unfold finish_attempt. rewrite (proj2 (Z.eqb_neq _ _) Hcd). cbn [attempt_weight].
    destruct (decide (ip' = ip)) as [-> | Hne].
    + destruct (ratelimits s !! ip) as [r |] eqn:Hr; [| rewrite Hr; cbn in *; case_bool_decide; lia].
      cbn [set_ratelimits ratelimits]. rewrite lookup_insert_eq. cbn in Hb, Ha |- *.
      destruct t'; [destruct (Z.ltb_spec 0 (password_attempts r)) | destruct (Z.ltb_spec 0 (pubkey_attempts r))];
        destruct t; cbn in *; rewrite ?bool_decide_eq_false_2 by (intros [_ ?]; done);
        rewrite ?bool_decide_eq_true_2 by done; rewrite ?u64_sub_small by (unfold in_u64; lia); lia.
    + rewrite bool_decide_eq_false_2 by (intros [? _]; done).
      destruct (ratelimits s !! ip'); [| lia]. cbn. rewrite lookup_insert_ne by done. lia.
  - unfold increment_sessions. destruct (_ <=? _); cbn; lia.
  - unfold decrement_sessions. destruct (user_sessions s !! u) as [n |]; [destruct (0 <? n) |]; cbn; lia.
  - done.
Qed.

Lemma run_ops_attempts ip t ops : Forall not_cleanup ops → authentication_cooldown limits ≠ 0 → ∀ s a,
  0 <= attempts s ip t → attempts s ip t + zlen ops < 2 ^ 64 → a <= attempts s ip t → a <= attempts_limit t →
  a + weight (attempt_weight ip t) (fst (run_ops ops s)) <= attempts_limit t.
Proof.
  intros Hnc Hcd. induction Hnc as [| op ops Hop Hops IH]; intros s a Hs Hlen Ha Hl; cbn [run_ops]; [cbn; lia |].
  rewrite zlen_cons in Hlen. pose proof (zlen_nonneg ops).
  pose proof (run_op_attempts op s ip t a Hop Hcd ltac:(lia) Ha Hl) as H1. destruct (run_op op s) as [ok s1].
  destruct H1 as (Hs1 & Ha1 & Hl1). specialize (IH s1 _ ltac:(lia) ltac:(lia) Ha1 Hl1).
  destruct (run_ops ops s1) as [log s2]. unfold weight in *. cbn [foldr fst] in *. lia.
Qed.
End run.

(** ** Properties *)

(** The limit on open SFTP handles holds under every interleaving of the
    atomic steps of any number of tasks: when the limit is not zero, never
    more guards are held than it allows; and the counter is always the number
    of guards held and of tasks between the two steps of [open_handle]. *)
Theorem open_handles_bounded (limits : SftpLimits) (n : nat) (s : HandleState)
    (Hmax : 0 <= max_handles_total limits) (Hn : Z.of_nat n < 2 ^ 64)
    (Hs : handles_reachable limits n s) :
  open_handles s = count_tasks is_counted s ∧
  (max_handles_total limits ≠ 0 → count_tasks is_holding s <= max_handles_total limits).
Proof.
  destruct (handles_reachable_inv limits n s Hmax Hn Hs) as [_ Hc Hl]. split; [done |]. intros H0.
  specialize (Hl H0). enough (count_tasks is_holding s <= count_tasks (will_hold limits) s) by lia.
  apply count_le. by intros [].
Qed.

Definition sample_limits : SftpLimits := mk_SftpLimits 60 3 20 2 1.

Lemma open_handles_bounded_witness :
  count_tasks is_holding (mk_HandleState 2 [Holding; Added 1]) <= 1.
Proof.
  apply (open_handles_bounded sample_limits 2 (mk_HandleState 2 [Holding; Added 1])); [done | done | | done].
  apply (reach_step _ _ 1 (mk_HandleState 1 [Holding; Outside])).
  - apply (reach_step _ _ 0 (mk_HandleState 1 [Added 0; Outside])).
    + apply (reach_step _ _ 0 (mk_HandleState 0 [Outside; Outside])); [apply reach_start |]. by apply (step_add _ 0 (mk_HandleState 0 [Outside; Outside])).
    + by apply (step_grant _ 0 (mk_HandleState 1 [Added 0; Outside]) 0).
  - by apply (step_add _ 1 (mk_HandleState 1 [Holding; Outside])).
Defined.

(** Sessions per user: in any run of the limiter, whatever else happens
    (purges included), the connections of a user that were allowed less those
    closed never exceed the limit. *)
Theorem sessions_bounded (limits : SftpLimits) (ops : list LimiterOp.LimiterOp) (user : Z)
    (Hmax : 0 <= max_connections_per_user limits < 2 ^ 64) :
  weight (session_weight user) (fst (run_ops limits ops SshLimiter_new)) <= max_connections_per_user limits.
Proof.
  pose proof (run_ops_sessions limits user ops ltac:(lia) SshLimiter_new ltac:(change (sessions SshLimiter_new user) with 0; lia)) as H.
  destruct (run_ops limits ops SshLimiter_new) as [log s]. cbn [fst]. destruct H as [H1 H2].
  change (sessions SshLimiter_new user) with 0 in H2. lia.
Qed.

Lemma sessions_bounded_witness :
  map snd (fst (run_ops sample_limits [LimiterOp.Connect 7; LimiterOp.Connect 7; LimiterOp.Connect 7] SshLimiter_new)) = [true; true; false] ∧
  weight (session_weight 7) (fst (run_ops sample_limits [LimiterOp.Connect 7; LimiterOp.Connect 7; LimiterOp.Connect 7] SshLimiter_new)) <= 2.
Proof. split; [reflexivity | apply (sessions_bounded sample_limits _ 7); done]. Defined.

(** Rate limits: in any run without a purge, with the cooldown on, the
    login attempts of an address that were let through, less the attempts it
    finished, never exceed the limit for that kind of authentication, whatever
    other addresses do. *)
Theorem attempts_bounded (limits : SftpLimits) (ops : list LimiterOp.LimiterOp) (ip : Z)
    (t : AuthenticationType.AuthenticationType)
    (Hcooldown : authentication_cooldown limits ≠ 0) (Hlimit : 0 <= attempts_limit limits t)
    (Hops : Forall not_cleanup ops) (Hlen : zlen ops < 2 ^ 64) :
  weight (attempt_weight ip t) (fst (run_ops limits ops SshLimiter_new)) <= attempts_limit limits t.
Proof.
  pose proof (run_ops_attempts limits ip t ops Hops Hcooldown SshLimiter_new 0) as H.
  change (attempts SshLimiter_new ip t) with 0 in H. specialize (H ltac:(lia) ltac:(lia) ltac:(lia) Hlimit). lia.
Qed.

Lemma attempts_bounded_witness :
  let ops := replicate 5 (LimiterOp.Attempt 0 9 AuthenticationType.Password) in
  map snd (fst (run_ops sample_limits ops SshLimiter_new)) = [true; true; true; false; false] ∧
  weight (attempt_weight 9 AuthenticationType.Password) (fst (run_ops sample_limits ops SshLimiter_new)) <= 3.
Proof.
  split; [reflexivity |].
  apply (attempts_bounded sample_limits (replicate 5 (LimiterOp.Attempt 0 9 AuthenticationType.Password)) 9
           AuthenticationType.Password); [done | done | | done].
  repeat constructor.
Defined.
