(* ===== verification/ServerState.v ===== *)
(** * ServerState: the power state of a server (application/src/server/state.rs)

    The state, the pending-restart flag and the mutex that serialises power
    actions.  [execute_action] is modelled by its steps between await points,
    and any number of tasks interleave them with each other and with state
    changes made outside the lock (the container's own events). *)
From S2P Require Import Prelude.

Module ServerState.
Inductive ServerState : Type := Offline | Starting | Stopping | Running.
End ServerState.
#[export] Instance ServerState_eq_dec : EqDecision ServerState.ServerState.
Proof. solve_decision. Defined.

Definition to_str (self : ServerState.ServerState) : string :=
  match self with
  | ServerState.Offline => "offline"
  | ServerState.Starting => "starting"
  | ServerState.Stopping => "stopping"
  | ServerState.Running => "running"
  end.

(** What is sent out: schedule triggers and websocket messages. *)
Inductive Event : Type :=
  | StateTrigger (state : ServerState.ServerState)
  | ServerStatus (arg : string)
  | ServerPendingRestart (arg : bool).

Record ServerStateLock : Type := mk_ServerStateLock {
  sl_state : ServerState.ServerState;
  sl_locked : bool;
  sl_pending_restart : bool;
  sl_events : list Event;
}.

Definition ServerStateLock_new : ServerStateLock := mk_ServerStateLock ServerState.Offline false false [].

Definition set_locked (b : bool) (s : ServerStateLock) : ServerStateLock :=
  mk_ServerStateLock (sl_state s) b (sl_pending_restart s) (sl_events s).
Definition send (e : Event) (s : ServerStateLock) : ServerStateLock :=
  mk_ServerStateLock (sl_state s) (sl_locked s) (sl_pending_restart s) (sl_events s ++ [e]).

Definition set_pending_restart (pending : bool) (s : ServerStateLock) : ServerStateLock :=
  if pending && (sl_pending_restart s || bool_decide (sl_state s = ServerState.Offline)) then s else
  send (ServerPendingRestart pending)
    (mk_ServerStateLock (sl_state s) (sl_locked s) pending (sl_events s)).

(** [set_state] up to the await of the schedule trigger: [None] when there is
    nothing to do. *)
Definition set_state_begin (state : ServerState.ServerState) (s : ServerStateLock) : option ServerStateLock :=
  if decide (sl_state s = state) then None else
  Some (send (StateTrigger state)
          (mk_ServerStateLock state (sl_locked s) (sl_pending_restart s) (sl_events s))).
(** The rest of it. *)
Definition set_state_end (state : ServerState.ServerState) (s : ServerStateLock) : ServerStateLock :=
  let s := send (ServerStatus (to_str state)) s in
  if (bool_decide (state = ServerState.Offline) || bool_decide (state = ServerState.Starting)) && sl_pending_restart s
  then set_pending_restart false s else s.
Definition set_state (state : ServerState.ServerState) (s : ServerStateLock) : ServerStateLock :=
  match set_state_begin state s with
  | Some s => set_state_end state s
  | None => s
  end.

(** The guard of the lock: without a timeout [try_lock], which takes it if it is
    free; with one the lock is waited for, and [wait] is what others do to the
    state meanwhile, and whether the lock was taken before the time was up. *)
Definition acquire (aquire_timeout : option Z) (wait : Z → ServerStateLock → bool * ServerStateLock) (s : ServerStateLock) :
    bool * ServerStateLock :=
  match aquire_timeout with
  | Some timeout => wait timeout s
  | None => (negb (sl_locked s), s)
  end.
(** [execute_action] when nothing else runs while it has the lock; [action] is
    the effect of the action on the state, and whether it succeeded. *)
Definition execute_action {E} (state : ServerState.ServerState) (action : stt ServerStateLock E unit)
    (aquire_timeout : option Z) (wait : Z → ServerStateLock → bool * ServerStateLock) : stt ServerStateLock E bool := λ s,
  let old_state := sl_state s in
  let '(acquired, s) := acquire aquire_timeout wait s in
  if negb acquired then (Ok false, s) else
  let s := set_state state (set_locked true s) in
  match action s with
  | (Ok _, s) => (Ok true, set_locked false s)
  | (Err err, s) => (Err err, set_locked false (set_state old_state s))
  end.

(** ** Interleaving

    Where a task is in [execute_action]; [old] is the state it read first. *)
Inductive ActionPc : Type :=
  | Called
  | Waiting (old : ServerState.ServerState)
  | Acquired (old : ServerState.ServerState)
  | Announcing (old : ServerState.ServerState)
  | Acting (old : ServerState.ServerState)
  | Reverting (old : ServerState.ServerState)
  | Finished (result : option bool).

(** A task: the state it asks for, whether it waits for the lock, its place.
    [Finished None] is an error. *)
Record ActionTask : Type := mk_ActionTask {
  task_state : ServerState.ServerState;
  task_waits : bool;
  task_pc : ActionPc;
}.
Definition set_pc (pc : ActionPc) (t : ActionTask) : ActionTask := mk_ActionTask (task_state t) (task_waits t) pc.

Record System : Type := mk_System { sys_lock : ServerStateLock; sys_tasks : list ActionTask }.

(** One step of a task on the shared state. *)
Inductive action_step (s : ServerStateLock) (t : ActionTask) : ServerStateLock → ActionTask → Prop :=
  | as_read : task_pc t = Called → action_step s t s (set_pc (Waiting (sl_state s)) t)
  | as_acquire old : task_pc t = Waiting old → sl_locked s = false →
      action_step s t (set_locked true s) (set_pc (Acquired old) t)
  (** [try_lock] fails, or the timeout elapses *)
  | as_busy old : task_pc t = Waiting old → task_waits t = true ∨ sl_locked s = true →
      action_step s t s (set_pc (Finished (Some false)) t)
  | as_set old s' : task_pc t = Acquired old → set_state_begin (task_state t) s = Some s' →
      action_step s t s' (set_pc (Announcing old) t)
  | as_same old : task_pc t = Acquired old → set_state_begin (task_state t) s = None →
      action_step s t s (set_pc (Acting old) t)
  | as_announce old : task_pc t = Announcing old →
      action_step s t (set_state_end (task_state t) s) (set_pc (Acting old) t)
  | as_success old : task_pc t = Acting old →
      action_step s t (set_locked false s) (set_pc (Finished (Some true)) t)
  | as_failure old s' : task_pc t = Acting old → set_state_begin old s = Some s' →
      action_step s t s' (set_pc (Reverting old) t)
  | as_failure_same old : task_pc t = Acting old → set_state_begin old s = None →
      action_step s t (set_locked false s) (set_pc (Finished None) t)
  | as_reverted old : task_pc t = Reverting old →
      action_step s t (set_locked false (set_state_end old s)) (set_pc (Finished None) t).

Inductive system_step (y : System) : System → Prop :=
  | ss_task i t s t' : sys_tasks y !! i = Some t → action_step (sys_lock y) t s t' →
      system_step y (mk_System s (<[i := t']> (sys_tasks y)))
  | ss_outside state : system_step y (mk_System (set_state state (sys_lock y)) (sys_tasks y))
  | ss_pending b : system_step y (mk_System (set_pending_restart b (sys_lock y)) (sys_tasks y)).

(** Runs from a fresh state, all tasks being at the start. *)
Inductive system_reachable (requests : list (ServerState.ServerState * bool)) : System → Prop :=
  | sr_start : system_reachable requests
      (mk_System ServerStateLock_new (map (λ r, mk_ActionTask (fst r) (snd r) Called) requests))
  | sr_step y y' : system_reachable requests y → system_step y y' → system_reachable requests y'.

(** ** Lemmas *)

Lemma sl_locked_set_pending b s : sl_locked (set_pending_restart b s) = sl_locked s.
Proof. unfold set_pending_restart. by destruct (_ && _). Qed.
Lemma sl_locked_end st s : sl_locked (set_state_end st s) = sl_locked s.
Proof. unfold set_state_end. cbv zeta. destruct (_ && _); [by rewrite sl_locked_set_pending | done]. Qed.
Lemma sl_locked_begin st s s' : set_state_begin st s = Some s' → sl_locked s' = sl_locked s.
Proof. unfold set_state_begin. destruct (decide _); [done |]. by intros [= <-]. Qed.
Lemma sl_locked_set_state st s : sl_locked (set_state st s) = sl_locked s.
Proof.
  unfold set_state. destruct (set_state_begin st s) as [s' |] eqn:Hb; [| done].
  by rewrite sl_locked_end, (sl_locked_begin _ _ _ Hb).
Qed.
Lemma sl_state_set_pending b s : sl_state (set_pending_restart b s) = sl_state s.
Proof. unfold set_pending_restart. by destruct (_ && _). Qed.
Lemma sl_state_set_state st s : sl_state (set_state st s) = st.
Proof.
  unfold set_state, set_state_begin, set_state_end. destruct (decide (sl_state s = st)); [done |]. cbv zeta.
  by destruct (_ && _); rewrite ?sl_state_set_pending.
Qed.

(** A task that holds the guard. *)
Definition in_critical (t : ActionTask) : bool :=
  match task_pc t with Acquired _ | Announcing _ | Acting _ | Reverting _ => true | _ => false end.

Lemma action_step_guard s t s' t' : action_step s t s' t' →
  (in_critical t = false → in_critical t' = true → sl_locked s = false ∧ sl_locked s' = true) ∧
  (in_critical t = false → in_critical t' = false → sl_locked s' = sl_locked s) ∧
  (in_critical t = true → in_critical t' = true → sl_locked s' = sl_locked s) ∧
  (in_critical t = true → in_critical t' = false → sl_locked s' = false).
Proof.
  unfold in_critical. destruct t as [st w pc]. intros Hs.
  inversion Hs; cbn in *; subst; cbn; repeat split; try done; intros; try done; try (by eapply sl_locked_begin); try apply sl_locked_end.
Qed.

(** Exactly one task is critical when the mutex is held, and none otherwise. *)
Definition guard_inv (y : System) : Prop :=
  (sl_locked (sys_lock y) = false → ∀ i t, sys_tasks y !! i = Some t → in_critical t = false) ∧
  (∀ i j ti tj, sys_tasks y !! i = Some ti → sys_tasks y !! j = Some tj →
     in_critical ti = true → in_critical tj = true → i = j).

Lemma guard_inv_step y y' : guard_inv y → system_step y y' → guard_inv y'.
Proof.
  intros [Hfree Huniq] [i t s t' Hi Hs | st | b]; unfold guard_inv; cbn [sys_lock sys_tasks].
  - pose proof (lookup_lt_Some _ _ _ Hi) as Hlt. destruct (action_step_guard _ _ _ _ Hs) as (G1 & G2 & G3 & G4).
    assert (∀ j tj, <[i := t']> (sys_tasks y) !! j = Some tj → (j = i ∧ tj = t') ∨ (j ≠ i ∧ sys_tasks y !! j = Some tj)) as Hget.
    { intros j tj [(-> & <- & _) | (? & ?)]%list_lookup_insert_Some; auto. }
    split.
    + intros Hl j tj Hj. destruct (Hget j tj Hj) as [[-> ->] | [Hne Hj']].
      * destruct (in_critical t') eqn:Ht'; [| done]. exfalso. destruct (in_critical t) eqn:Ht.
        -- rewrite (G3 eq_refl eq_refl) in Hl. rewrite (Hfree Hl i t Hi) in Ht. done.
        -- destruct (G1 eq_refl eq_refl). congruence.
      * destruct (in_critical tj) eqn:Htj; [| done]. exfalso. destruct (in_critical t) eqn:Ht.
        -- by apply Hne, (Huniq j i tj t).
        -- destruct (in_critical t') eqn:Ht'; [destruct (G1 eq_refl eq_refl); congruence |].
           rewrite (G2 eq_refl eq_refl) in Hl. rewrite (Hfree Hl j tj Hj') in Htj. done.
    + intros j k tj tk Hj Hk Hcj Hck.
      destruct (Hget j tj Hj) as [[-> ->] | [Hnj Hj']], (Hget k tk Hk) as [[-> ->] | [Hnk Hk']]; try done;
        [| | by apply (Huniq j k tj tk)].
      * destruct (in_critical t) eqn:Ht; [by apply (Huniq i k t tk) |].
        destruct (G1 eq_refl Hcj) as [Hf _]. rewrite (Hfree Hf k tk Hk') in Hck. done.
      * destruct (in_critical t) eqn:Ht; [by apply (Huniq j i tj t) |].
        destruct (G1 eq_refl Hck) as [Hf _]. rewrite (Hfree Hf j tj Hj') in Hcj. done.
  - rewrite sl_locked_set_state. by split.
  - rewrite sl_locked_set_pending. by split.
Qed.

Lemma guard_inv_reachable requests y : system_reachable requests y → guard_inv y.
Proof.
  induction 1; [| by eapply guard_inv_step]. cbn.
  assert (∀ i t, map (λ r, mk_ActionTask r.1 r.2 Called) requests !! i = Some t → in_critical t = false) as H0.
  { intros i t Ht. change (map ?f ?l) with (f <$> l) in Ht. rewrite list_lookup_fmap in Ht.
    apply fmap_Some in Ht as (r & _ & ->). done. }
  split; [eauto |]. intros i j ti tj Hi Hj Hci. apply H0 in Hi. congruence.
Qed.

(** The flag is off while the server is offline. *)
Definition pending_inv (s : ServerStateLock) : Prop :=
  sl_state s = ServerState.Offline → sl_pending_restart s = false.

(** The states announced so far; the last of them is the current one. *)
Definition announced (s : ServerStateLock) : list string :=
  omap (λ e, match e with ServerStatus arg => Some arg | _ => None end) (sl_events s).
Definition announced_inv (s : ServerStateLock) : Prop :=
  match list.last (announced s) with
  | Some arg => arg = to_str (sl_state s)
  | None => sl_state s = ServerState.Offline
  end ∧ ∀ i a, announced s !! i = Some a → announced s !! S i ≠ Some a.

Module StateOp.
Inductive StateOp : Type := SetState (state : ServerState.ServerState) | SetPending (pending : bool).
End StateOp.
Definition run_state_op (op : StateOp.StateOp) (s : ServerStateLock) : ServerStateLock :=
  match op with StateOp.SetState st => set_state st s | StateOp.SetPending b => set_pending_restart b s end.

Lemma announced_set_pending b s : announced (set_pending_restart b s) = announced s.
Proof.
  unfold set_pending_restart, announced, send. destruct (_ && _); [done |]. cbn. by rewrite omap_app, app_nil_r.
Qed.

Lemma announced_set_state st s :
  announced (set_state st s) = if decide (sl_state s = st) then announced s else announced s ++ [to_str st].
Proof.
  unfold set_state, set_state_begin. destruct (decide (sl_state s = st)); [done |].
  assert (announced (send (ServerStatus (to_str st)) (send (StateTrigger st)
            (mk_ServerStateLock st (sl_locked s) (sl_pending_restart s) (sl_events s)))) = announced s ++ [to_str st]) as Ha.
  { unfold announced, send. cbn. rewrite !omap_app. cbn. by rewrite app_nil_r. }
  unfold set_state_end. cbv zeta. destruct (_ && _); [rewrite announced_set_pending |]; exact Ha.
Qed.

Lemma to_str_inj a b : to_str a = to_str b → a = b.
Proof. by destruct a, b. Qed.

Lemma run_state_op_inv op s : pending_inv s ∧ announced_inv s → pending_inv (run_state_op op s) ∧ announced_inv (run_state_op op s).
Proof.
  intros [Hp [Hl Hd]]. destruct op as [st | b]; cbn [run_state_op].
  - split.
    + unfold pending_inv. rewrite sl_state_set_state. intros ->. unfold set_state, set_state_begin.
      destruct (decide (sl_state s = ServerState.Offline)) as [He | He]; [by apply Hp |].
      unfold set_state_end. cbv zeta. cbn. by destruct (sl_pending_restart s).
    + unfold announced_inv. rewrite sl_state_set_state, announced_set_state.
      destruct (decide (sl_state s = st)) as [<- | Hne]; [done |]. rewrite last_snoc. split; [done |].
      intros i a Hi Hsi. apply lookup_app_Some in Hsi as [Hsi | [Hge Hsi]].
      * rewrite lookup_app_l in Hi by (apply lookup_lt_Some in Hsi; lia). by apply (Hd i a).
      * assert (S i = length (announced s)) as Hlen.
        { apply lookup_lt_Some in Hsi. cbn in Hsi. lia. }
        replace (S i - length (announced s))%nat with 0%nat in Hsi by lia. injection Hsi as <-.
        rewrite lookup_app_l in Hi by lia. rewrite last_lookup in Hl. rewrite <- Hlen in Hl. cbn in Hl.
        rewrite Hi in Hl. by apply to_str_inj in Hl.
  - split.
    + unfold pending_inv. rewrite sl_state_set_pending. intros Ho. unfold set_pending_restart. rewrite Ho.
      rewrite bool_decide_eq_true_2 by done. rewrite orb_true_r, andb_true_r. destruct b; [by apply Hp | done].
    + unfold announced_inv. by rewrite sl_state_set_pending, announced_set_pending.
Qed.

Ltac task_step i rule := eapply (ss_task _ i); [reflexivity | eapply rule; reflexivity].

(** *** Progress *)

(** A step of a task, with nothing happening outside. *)
Inductive task_step_of (y : System) : System → Prop :=
  | ts_task i t s t' : sys_tasks y !! i = Some t → action_step (sys_lock y) t s t' →
      task_step_of y (mk_System s (<[i := t']> (sys_tasks y))).

Lemma task_step_of_system y y' : task_step_of y y' → system_step y y'.
Proof. intros [i t s t' Hi Hs]. by eapply ss_task. Qed.

Definition is_finished (t : ActionTask) : Prop := match task_pc t with Finished _ => True | _ => False end.

(** The steps a task still has, at most. *)
Definition steps_left (t : ActionTask) : nat :=
  match task_pc t with
  | Called => 6 | Waiting _ => 5 | Acquired _ => 4 | Announcing _ => 3 | Acting _ => 2 | Reverting _ => 1 | Finished _ => 0
  end.
Definition all_steps_left (y : System) : nat := sum_list_with steps_left (sys_tasks y).

Lemma sum_list_with_insert {A} (f : A → nat) (l : list A) i x x' : l !! i = Some x →
  (sum_list_with f (<[i := x']> l) + f x = sum_list_with f l + f x')%nat.
Proof.
  revert i. induction l as [| y l IH]; intros [| i] Hi; [done | done | |].
  - injection Hi as ->. cbn. lia.
  - specialize (IH i Hi). change (<[S i:=x']> (y :: l)) with (y :: <[i:=x']> l). cbn [sum_list_with]. lia.
Qed.

Lemma action_step_steps_left s t s' t' : action_step s t s' t' → (steps_left t' < steps_left t)%nat.
Proof. unfold steps_left. destruct t as [st w pc]. intros Hs. inversion Hs; cbn in *; subst; cbn; lia. Qed.

Lemma task_step_steps_left y y' : task_step_of y y' → (all_steps_left y' < all_steps_left y)%nat.
Proof.
  intros [i t s t' Hi Hs]. unfold all_steps_left. cbn. pose proof (action_step_steps_left _ _ _ _ Hs).
  pose proof (sum_list_with_insert steps_left _ i t t' Hi). lia.
Qed.

Lemma task_steps_bounded n y y' : nsteps task_step_of n y y' → (n + all_steps_left y' <= all_steps_left y)%nat.
Proof. induction 1 as [| n y y' z Hs _ IH]; [lia |]. apply task_step_steps_left in Hs. lia. Qed.

(** The lock is held only while a task is past acquiring it. *)
Definition held_inv (y : System) : Prop :=
  sl_locked (sys_lock y) = true → ∃ i t, sys_tasks y !! i = Some t ∧ in_critical t = true.

Lemma held_inv_reachable requests y : system_reachable requests y → held_inv y.
Proof.
  induction 1 as [| y y' Hy IH [i t s t' Hi Hs | st | b]]; unfold held_inv in *; cbn [sys_lock sys_tasks] in *.
  - done.
  - intros Hl. pose proof (lookup_lt_Some _ _ _ Hi) as Hlt. destruct (action_step_guard _ _ _ _ Hs) as (G1 & G2 & G3 & G4).
    destruct (in_critical t') eqn:Ht'; [exists i, t'; by rewrite list_lookup_insert_eq |].
    destruct (in_critical t) eqn:Ht; [rewrite (G4 eq_refl eq_refl) in Hl; done |].
    rewrite (G2 eq_refl eq_refl) in Hl. destruct (IH Hl) as (j & tj & Hj & Hcj). exists j, tj.
    split; [| done]. rewrite list_lookup_insert_ne; [done |]. intros ->. congruence.
  - by rewrite sl_locked_set_state.
  - by rewrite sl_locked_set_pending.
Qed.

(** A task that holds the guard can move; so can one that waits, for the lock to be free or found held. *)
Lemma unfinished_moves s t : ¬ is_finished t → ∃ s' t', action_step s t s' t'.
Proof.
  destruct t as [st w pc]. unfold is_finished. cbn. intros Hf. destruct pc as [| old | old | old | old | old | r]; [..| done].
  - eexists _, _. by apply as_read.
  - destruct (sl_locked s) eqn:Hl; eexists _, _; [eapply as_busy; [done | by right] | by eapply as_acquire].
  - destruct (set_state_begin st s) eqn:Hb; eexists _, _; [by eapply as_set | by eapply as_same].
  - eexists _, _. by eapply as_announce.
  - eexists _, _. by eapply as_success.
  - eexists _, _. by eapply as_reverted.
Qed.

(** ** Properties *)

(** Power actions are serialised: in every interleaving of calls to
    [execute_action] with each other and with state changes made outside the
    lock, at most one of them is past acquiring the lock and not finished, and
    none is while the lock is free. *)
Theorem actions_mutually_exclusive (requests : list (ServerState.ServerState * bool)) (y : System) (i j : nat)
    (ti tj : ActionTask) (Hy : system_reachable requests y)
    (Hi : sys_tasks y !! i = Some ti) (Hj : sys_tasks y !! j = Some tj)
    (Hci : in_critical ti = true) (Hcj : in_critical tj = true) :
  i = j ∧ sl_locked (sys_lock y) = true.
Proof.
  destruct (guard_inv_reachable _ _ Hy) as [Hfree Huniq]. split; [by eapply Huniq |].
  destruct (sl_locked (sys_lock y)) eqn:Hl; [done |]. rewrite (Hfree eq_refl i ti Hi) in Hci. done.
Qed.

Lemma actions_mutually_exclusive_witness :
  let t := mk_ActionTask ServerState.Starting false (Acquired ServerState.Offline) in
  ∃ y, sys_tasks y !! 0%nat = Some t ∧ sl_locked (sys_lock y) = true.
Proof.
  set (t := mk_ActionTask ServerState.Starting false (Acquired ServerState.Offline)).
  eassert (system_reachable [(ServerState.Starting, false)] _) as Hy.
  { eapply sr_step; [eapply sr_step; [apply sr_start |] |]; [task_step 0%nat as_read | task_step 0%nat as_acquire]. }
  eexists. split; [| refine (proj2 (actions_mutually_exclusive _ _ 0 0 t t Hy _ _ eq_refl eq_refl)); reflexivity].
  reflexivity.
Defined.

(** C40. A call of [execute_action], with or without a time to wait for the lock,
    when nothing else changes the state while it has the lock.  It returns
    [false] only if it did not get the lock: at once if it was not to wait, which
    is exactly when the lock is held, and then nothing has changed; or when its
    time was up, and then the state is as the others left it.  It returns an
    error exactly when the action fails with that error; then the state is the
    one from before the call, whatever the action did to it, and the lock is
    free.  It returns [true] only after the action was run, with the lock held
    and in the state that was asked for, and leaves what the action left, with
    the lock free. *)
Theorem execute_action_reverts {E} (state : ServerState.ServerState) (action : stt ServerStateLock E unit)
    (aquire_timeout : option Z) (wait : Z → ServerStateLock → bool * ServerStateLock) (s : ServerStateLock)
    (Hwait : ∀ timeout s', wait timeout s = (true, s') → sl_locked s' = false) :
  match execute_action state action aquire_timeout wait s with
  | (Ok false, s') =>
      match aquire_timeout with
      | None => sl_locked s = true ∧ s' = s
      | Some timeout => wait timeout s = (false, s')
      end
  | (Ok true, s') =>
      ∃ s1 s2, acquire aquire_timeout wait s = (true, s1) ∧ sl_locked s1 = false ∧
        action (set_state state (set_locked true s1)) = (Ok tt, s2) ∧ s' = set_locked false s2
  | (Err err, s') =>
      (∃ s1 s2, acquire aquire_timeout wait s = (true, s1) ∧ sl_locked s1 = false ∧
        action (set_state state (set_locked true s1)) = (Err err, s2)) ∧
      sl_state s' = sl_state s ∧ sl_locked s' = false
  end.
Proof.
  unfold execute_action. destruct (acquire aquire_timeout wait s) as [[] s1] eqn:Ha; cbn [negb].
  - assert (sl_locked s1 = false) as Hs1.
    { destruct aquire_timeout; [by eapply Hwait | cbn in Ha; destruct (sl_locked s) eqn:?; [done | by injection Ha as <-]]. }
    destruct (action (set_state state (set_locked true s1))) as [[[] | err] s2] eqn:Hact; [by exists s1, s2 |].
    split; [by exists s1, s2 |]. cbn. by rewrite sl_state_set_state.
  - destruct aquire_timeout; [done |]. cbn in Ha. destruct (sl_locked s); [by injection Ha as <- | done].
Qed.

(** The call waits behind one that leaves the server running; its action fails
    after it has changed the state itself. *)
Lemma execute_action_reverts_witness :
  let wait _ s := (true, set_locked false (set_state ServerState.Running s)) in
  let action s := (Err "no image"%string, set_state ServerState.Stopping s) in
  let s := set_locked true (set_state ServerState.Starting ServerStateLock_new) in
  match execute_action ServerState.Stopping action (Some 30) wait s with
  | (Err err, s') => err = "no image"%string ∧ sl_state s' = ServerState.Starting ∧ sl_locked s' = false
  | _ => False
  end.
Proof.
  intros wait action s. subst wait action. cbv beta.
  pose proof (execute_action_reverts ServerState.Stopping (λ s, (Err "no image"%string, set_state ServerState.Stopping s)) (Some 30)
    (λ _ s, (true, set_locked false (set_state ServerState.Running s))) s ltac:(by intros ? ? [= <-])) as H.
  destruct H as (_ & Hs & Hl). split; [done |]. split; [exact Hs | exact Hl].
Defined.

(** In any sequence of state changes and restart requests, the websocket
    announcements never repeat a state twice in a row and end with the
    current one, and no restart is pending while the server is offline. *)
Theorem state_announcements (ops : list StateOp.StateOp) :
  let s := fold_left (λ s op, run_state_op op s) ops ServerStateLock_new in
  pending_inv s ∧ announced_inv s.
Proof.
  cbv zeta. assert (pending_inv ServerStateLock_new ∧ announced_inv ServerStateLock_new) as H0 by by repeat split.
  revert H0. generalize ServerStateLock_new. induction ops as [| op ops IH]; intros s Hs; [done |].
  cbn [fold_left]. by apply IH, run_state_op_inv.
Qed.

(** C24. Power actions make progress.  From any state the calls can reach, when
    nothing but their own steps happens (the actions themselves end, with
    success or an error), they take at most six steps each, none of them ever
    blocks for good, and when none can move any more every call has returned
    and the lock is free. *)
Theorem actions_finish (requests : list (ServerState.ServerState * bool)) (y y' : System) (n : nat)
    (Hy : system_reachable requests y) (Hsteps : nsteps task_step_of n y y') :
  (n <= 6 * length (sys_tasks y))%nat ∧
  (nf task_step_of y' → Forall is_finished (sys_tasks y') ∧ sl_locked (sys_lock y') = false).
Proof.
  split.
  - pose proof (task_steps_bounded _ _ _ Hsteps). enough (all_steps_left y <= 6 * length (sys_tasks y))%nat by lia.
    unfold all_steps_left. generalize (sys_tasks y) as ts. intros ts. induction ts as [| t ts IH]; cbn; [lia |].
    assert (steps_left t <= 6)%nat by (unfold steps_left; destruct (task_pc t); lia). lia.
  - intros Hnf. assert (Forall is_finished (sys_tasks y')) as Hall.
    { apply Forall_lookup. intros i t Hi. destruct (task_pc t) eqn:Hpc; try (unfold is_finished; by rewrite Hpc).
      all: exfalso; apply Hnf; destruct (unfinished_moves (sys_lock y') t) as (s' & t' & Hst);
        [unfold is_finished; rewrite Hpc; by intros [] | eexists; by eapply ts_task]. }
    split; [done |]. destruct (sl_locked (sys_lock y')) eqn:Hl; [| done].
    assert (system_reachable requests y') as Hy'.
    { clear Hall Hnf Hl. induction Hsteps as [| n y y1 y' Hs _ IH]; [done |]. apply IH.
      eapply sr_step; [done |]. by apply task_step_of_system. }
    destruct (held_inv_reachable _ _ Hy' Hl) as (i & t & Hi & Hc). pose proof (Forall_lookup_1 _ _ _ _ Hall Hi) as Hf.
    unfold is_finished, in_critical in *. by destruct (task_pc t).
Qed.

Lemma actions_finish_witness :
  let y := mk_System ServerStateLock_new [mk_ActionTask ServerState.Starting false Called] in
  let y' := mk_System ServerStateLock_new [mk_ActionTask ServerState.Starting false (Waiting ServerState.Offline)] in
  (1 <= 6 * length (sys_tasks y))%nat ∧
  (nf task_step_of y' → Forall is_finished (sys_tasks y') ∧ sl_locked (sys_lock y') = false).
Proof.
  apply (actions_finish [(ServerState.Starting, false)]
    (mk_System ServerStateLock_new [mk_ActionTask ServerState.Starting false Called])
    (mk_System ServerStateLock_new [mk_ActionTask ServerState.Starting false (Waiting ServerState.Offline)]) 1).
  - apply sr_start.
  - apply nsteps_once. refine (ts_task (mk_System ServerStateLock_new [mk_ActionTask ServerState.Starting false Called])
      0%nat (mk_ActionTask ServerState.Starting false Called) ServerStateLock_new
      (mk_ActionTask ServerState.Starting false (Waiting ServerState.Offline)) eq_refl _). by apply as_read.
Defined.

(** The first request waits for the lock; the second one is served first. *)
Definition stale_requests : list (ServerState.ServerState * bool) :=
  [(ServerState.Stopping, true); (ServerState.Running, false)].

(** A failing action does not always restore the state it changed: the
    state to restore is read before the lock is waited for, so a call that
    waits behind another one puts back a state from before that other call.
    Here the server is running when the failing action begins, and left
    offline when it has failed. *)
Theorem revert_is_stale :
  ∃ before after, system_reachable stale_requests before ∧ rtc system_step before after ∧
    (task_pc <$> sys_tasks before !! 0%nat) = Some (Acquired ServerState.Offline) ∧
    sl_state (sys_lock before) = ServerState.Running ∧
    (task_pc <$> sys_tasks after !! 0%nat) = Some (Finished None) ∧
    sl_state (sys_lock after) = ServerState.Offline.
Proof.
  eexists _, _. split; [| split; [| split; [| split; [| split]]]].
  - eapply sr_step; [eapply sr_step; [eapply sr_step; [eapply sr_step; [eapply sr_step; [eapply sr_step;
      [eapply sr_step; [apply sr_start |] |] |] |] |] |] |].
    + task_step 0%nat as_read.
    + task_step 1%nat as_read.
    + task_step 1%nat as_acquire.
    + task_step 1%nat as_set.
    + task_step 1%nat as_announce.
    + task_step 1%nat as_success.
    + task_step 0%nat as_acquire.
  - eapply rtc_l; [task_step 0%nat as_set |]. eapply rtc_l; [task_step 0%nat as_announce |].
    eapply rtc_l; [task_step 0%nat as_failure |]. eapply rtc_l; [task_step 0%nat as_reverted |]. apply rtc_refl.
  - reflexivity.
  - reflexivity.
  - reflexivity.
  - reflexivity.
Qed.
