(* ===== verification/Permissions.v ===== *)
(** * Permissions: who may do what on a server (application/src/server/permissions.rs)

    The permissions of a user, their names on the wire, and the map of the
    users that are connected, with its expiry and its removal notices.
    Ignore rules are compiled and matched by the [ignore] crate, a parameter. *)
From S2P Require Import Prelude.

Module Permission.
Inductive Permission : Type :=
  | All
  | MetaCalagopus
  | WebsocketConnect
  | ControlReadConsole
  | ControlConsole
  | ControlStart
  | ControlStop
  | ControlRestart
  | AdminWebsocketErrors
  | AdminWebsocketInstall
  | AdminWebsocketTransfer
  | BackupRead
  | ScheduleRead
  | FileRead
  | FileReadContent
  | FileCreate
  | FileUpdate
  | FileDelete
  | FileArchive
  | FileSftp.
End Permission.
Import Permission.

Definition all_permissions : list Permission :=
  [All; MetaCalagopus; WebsocketConnect; ControlReadConsole; ControlConsole; ControlStart; ControlStop;
   ControlRestart; AdminWebsocketErrors; AdminWebsocketInstall; AdminWebsocketTransfer; BackupRead; ScheduleRead;
   FileRead; FileReadContent; FileCreate; FileUpdate; FileDelete; FileArchive; FileSftp].

#[export] Instance Permission_eq_dec : EqDecision Permission.
Proof. solve_decision. Defined.
Definition permission_code (p : Permission) : nat :=
  default 0%nat (fst <$> list_find (λ q, q = p) all_permissions).
#[export, refine] Instance Permission_countable : Countable Permission :=
  inj_countable' permission_code (λ n, default All (all_permissions !! n)) _.
Proof. by intros []. Defined.

Definition is_admin (self : Permission) : bool :=
  match self with AdminWebsocketErrors | AdminWebsocketInstall | AdminWebsocketTransfer => true | _ => false end.

Definition to_str (self : Permission) : string :=
  match self with
  | All => "*"
  | MetaCalagopus => "meta.calagopus"
  | WebsocketConnect => "websocket.connect"
  | ControlReadConsole => "control.read-console"
  | ControlConsole => "control.console"
  | ControlStart => "control.start"
  | ControlStop => "control.stop"
  | ControlRestart => "control.restart"
  | AdminWebsocketErrors => "admin.websocket.errors"
  | AdminWebsocketInstall => "admin.websocket.install"
  | AdminWebsocketTransfer => "admin.websocket.transfer"
  | BackupRead => "backup.read"
  | ScheduleRead => "schedule.read"
  | FileRead => "file.read"
  | FileReadContent => "file.read-content"
  | FileCreate => "file.create"
  | FileUpdate => "file.update"
  | FileDelete => "file.delete"
  | FileArchive => "file.archive"
  | FileSftp => "file.sftp"
  end.

(** The names serde accepts: [rename] and [alias]. *)
Definition serde_names : list (string * Permission) :=
  [("*", All); ("meta.calagopus", MetaCalagopus); ("websocket.connect", WebsocketConnect);
   ("control.read-console", ControlReadConsole); ("control.console", ControlConsole);
   ("control.start", ControlStart); ("control.stop", ControlStop); ("control.restart", ControlRestart);
   ("admin.websocket.errors", AdminWebsocketErrors); ("admin.websocket.install", AdminWebsocketInstall);
   ("admin.websocket.transfer", AdminWebsocketTransfer);
   ("backup.read", BackupRead); ("backups.read", BackupRead);
   ("schedule.read", ScheduleRead); ("schedules.read", ScheduleRead);
   ("file.read", FileRead); ("files.read", FileRead);
   ("file.read-content", FileReadContent); ("files.read-content", FileReadContent);
   ("file.create", FileCreate); ("files.create", FileCreate);
   ("file.update", FileUpdate); ("files.update", FileUpdate);
   ("file.delete", FileDelete); ("files.delete", FileDelete);
   ("file.archive", FileArchive); ("files.archive", FileArchive);
   ("file.sftp", FileSftp); ("files.sftp", FileSftp)]%string.
Definition permission_from_str (s : string) : option Permission :=
  snd <$> (snd <$> list_find (λ e, fst e = s) serde_names).

Definition Permissions : Type := gset Permission.

(** One element of the JSON sequence: a string or another value; [None] is an
    element the deserializer fails to read, which ends the sequence. *)
Definition json_element : Type := option (option string).
Fixpoint visit_seq (seq : list json_element) (permissions : Permissions) : Permissions :=
  match seq with
  | Some v :: seq =>
      visit_seq seq match v ≫= permission_from_str with
                    | Some permission => {[permission]} ∪ permissions
                    | None => permissions
                    end
  | _ => permissions
  end.
Definition deserialize (seq : list json_element) : Permissions := visit_seq seq ∅.

Definition is_calagopus (self : Permissions) : bool := bool_decide (MetaCalagopus ∈ self).
Definition has_permission (self : Permissions) (permission : Permission) : bool :=
  (bool_decide (All ∈ self) && negb (is_admin permission)) || bool_decide (permission ∈ self).
Definition has_calagopus_permission_or (self : Permissions) (permission : Permission) (default : bool) : bool :=
  if negb (is_calagopus self) then default else has_permission self permission.

Section users.
(** [OverrideBuilder]: building the rules may fail; matching a path asks
    whether it is whitelisted. *)
Context {Override : Type} (build : list string → option Override) (is_whitelist : Override → bytes → bool → bool).

Record UserPermissions : Type := mk_UserPermissions {
  up_permissions : Permissions;
  up_ignored : option Override;
  up_last_access : Z;
}.

(** Users are numbers, times are seconds; [removals] are the notices sent. *)
Record UserPermissionsMap : Type := mk_UserPermissionsMap {
  upm_map : gmap Z UserPermissions;
  upm_removals : list Z;
}.
Definition UserPermissionsMap_default : UserPermissionsMap := mk_UserPermissionsMap ∅ [].

Definition set_map (m : gmap Z UserPermissions) (s : UserPermissionsMap) : UserPermissionsMap :=
  mk_UserPermissionsMap m (upm_removals s).
Definition touch (now : Z) (u : UserPermissions) : UserPermissions :=
  mk_UserPermissions (up_permissions u) (up_ignored u) now.

(** A turn of the background task. *)
Definition expire (now : Z) (s : UserPermissionsMap) : UserPermissionsMap :=
  set_map (filter (λ e, now - up_last_access (snd e) < 60 * 60 * 24) (upm_map s)) s.

Definition user_has_permission (now user : Z) (permission : Permission) (s : UserPermissionsMap) : bool * UserPermissionsMap :=
  match upm_map s !! user with
  | Some u => (has_permission (up_permissions u) permission, set_map (<[user := touch now u]> (upm_map s)) s)
  | None => (false, s)
  end.

Definition user_has_calagopus_permission_or (now user : Z) (permission : Permission) (default : bool)
    (s : UserPermissionsMap) : bool * UserPermissionsMap :=
  match upm_map s !! user with
  | Some u =>
      (has_calagopus_permission_or (up_permissions u) permission default, set_map (<[user := touch now u]> (upm_map s)) s)
  | None => (default, s)
  end.

Definition is_ignored (now user : Z) (path : bytes) (is_dir : bool) (s : UserPermissionsMap) : bool * UserPermissionsMap :=
  match upm_map s !! user with
  | Some u =>
      (match up_ignored u with Some ig => is_whitelist ig path is_dir | None => false end,
       set_map (<[user := touch now u]> (upm_map s)) s)
  | None => (false, s)
  end.

Definition set_permissions (now user : Z) (permissions : Permissions) (ignored_files : option (list string))
    (s : UserPermissionsMap) : UserPermissionsMap :=
  if decide (permissions = ∅)
  then mk_UserPermissionsMap (delete user (upm_map s)) (upm_removals s ++ [user]) else
  match upm_map s !! user with
  | Some u =>
      let ignored := match ignored_files with Some files => build files | None => up_ignored u end in
      set_map (<[user := mk_UserPermissions permissions ignored (up_last_access u)]> (upm_map s)) s
  | None =>
      set_map (<[user := mk_UserPermissions permissions (ignored_files ≫= build) now]> (upm_map s)) s
  end.

(** The keys in the order the map enumerates them. *)
Definition clear_permissions (s : UserPermissionsMap) : UserPermissionsMap :=
  let users := fst <$> map_to_list (upm_map s) in
  mk_UserPermissionsMap (foldl (λ m u, delete u m) (upm_map s) users) (upm_removals s ++ users).
End users.
Arguments UserPermissions _ : clear implicits.
Arguments UserPermissionsMap _ : clear implicits.

(** ** Lemmas *)

Lemma permission_from_to_str p : permission_from_str (to_str p) = Some p.
Proof. by destruct p. Qed.

(** What the readable part of a sequence names. *)
Definition named (seq : list json_element) : list Permission :=
  omap (λ e : json_element, (e ≫= id) ≫= permission_from_str) seq.

Lemma visit_seq_named seq acc : Forall (λ e, is_Some e) seq → visit_seq seq acc = list_to_set (named seq) ∪ acc.
Proof.
  intros Hs. revert acc. induction Hs as [| e seq He Hs IH]; intros acc; [symmetry; apply (left_id_L ∅ (∪)) |].
  destruct e as [v |]; [| by destruct He]. cbn [visit_seq]. rewrite IH.
  assert (named (Some v :: seq) = match v ≫= permission_from_str with Some p => p :: named seq | None => named seq end)
    as ->.
  { unfold named. destruct v as [name |]; reflexivity. }
  destruct (v ≫= permission_from_str) as [p |]; [| reflexivity].
  rewrite list_to_set_cons, !(assoc_L (∪)), (comm_L (∪) _ {[p]}). reflexivity.
Qed.

Module UserOp.
Inductive UserOp : Type :=
  | Set_ (now user : Z) (permissions : Permissions) (ignored_files : option (list string))
  | Clear
  | Expire (now : Z)
  | Ask (now user : Z) (permission : Permission)
  | AskCalagopus (now user : Z) (permission : Permission) (default : bool)
  | AskIgnored (now user : Z) (path : bytes) (is_dir : bool).
End UserOp.

Section run.
Context {Override : Type} (build : list string → option Override) (is_whitelist : Override → bytes → bool → bool).

Definition run_user_op (op : UserOp.UserOp) (s : UserPermissionsMap Override) : UserPermissionsMap Override :=
  match op with
  | UserOp.Set_ now user permissions files => set_permissions build now user permissions files s
  | UserOp.Clear => clear_permissions s
  | UserOp.Expire now => expire now s
  | UserOp.Ask now user p => snd (user_has_permission now user p s)
  | UserOp.AskCalagopus now user p d => snd (user_has_calagopus_permission_or now user p d s)
  | UserOp.AskIgnored now user path is_dir => snd (is_ignored is_whitelist now user path is_dir s)
  end.
Definition run_user_ops (ops : list UserOp.UserOp) (s : UserPermissionsMap Override) : UserPermissionsMap Override :=
  fold_left (λ s op, run_user_op op s) ops s.

(** Operations that say nothing about the permissions of [user]. *)
Definition keeps (user : Z) (op : UserOp.UserOp) : Prop :=
  match op with
  | UserOp.Set_ _ user' _ _ => user' ≠ user
  | UserOp.Clear => False
  | _ => True
  end.

Lemma foldl_delete_empty (m : gmap Z (UserPermissions Override)) :
  foldl (λ m u, delete u m) m (fst <$> map_to_list m) = ∅.
Proof.
  assert (∀ ks (m : gmap Z (UserPermissions Override)) k, foldl (λ m u, delete u m) m ks !! k = if decide (k ∈ ks) then None else m !! k) as H.
  { induction ks as [| k' ks IH]; intros m' k; cbn; [done |]. rewrite IH. destruct (decide (k = k')) as [-> |].
    - rewrite lookup_delete_eq. rewrite (decide_True (P := k' ∈ k' :: ks)) by (by left). by destruct (decide (k' ∈ ks)).
    - rewrite lookup_delete_ne by done. destruct (decide (k ∈ ks)), (decide (k ∈ k' :: ks)); try done; set_solver. }
  apply map_empty. intros k. rewrite H. case_decide as Hk; [done |]. destruct (m !! k) as [u |] eqn:Hu; [| done].
  exfalso. apply Hk. apply list_elem_of_fmap. exists (k, u). split; [done |]. by apply elem_of_map_to_list.
Qed.

Lemma user_op_source op s user u :
  upm_map (run_user_op op s) !! user = Some u →
  (keeps user op ∧ ∃ u0, upm_map s !! user = Some u0 ∧ up_permissions u0 = up_permissions u) ∨
  (∃ now files, op = UserOp.Set_ now user (up_permissions u) files).
Proof.
  intros Hu. destruct op as [now user' p files | | now | now user' p | now user' p d | now user' path dir]; cbn in Hu.
  - destruct (decide (user' = user)) as [-> |]; [right | left; split; [done |]].
    + unfold set_permissions in Hu. destruct (decide (p = ∅)); [cbn in Hu; by rewrite lookup_delete_eq in Hu |].
      destruct (upm_map s !! user); cbn in Hu; rewrite lookup_insert_eq in Hu; injection Hu as <-; by eexists _, _.
    + unfold set_permissions in Hu. destruct (decide (p = ∅)); [cbn in Hu; rewrite lookup_delete_ne in Hu by done; by eexists |].
      destruct (upm_map s !! user'); cbn in Hu; rewrite lookup_insert_ne in Hu by done; by eexists.
  - unfold clear_permissions in Hu. cbn in Hu. by rewrite foldl_delete_empty in Hu.
  - left. split; [done |]. apply map_lookup_filter_Some in Hu as [Hu _]. by eexists.
  - left. split; [done |]. unfold user_has_permission in Hu. destruct (upm_map s !! user') as [u' |] eqn:Hu'; [| by eexists].
    cbn in Hu. apply lookup_insert_Some in Hu as [[<- <-] | [_ Hu]]; by eexists.
  - left. split; [done |]. unfold user_has_calagopus_permission_or in Hu. destruct (upm_map s !! user') as [u' |] eqn:Hu'; [| by eexists].
    cbn in Hu. apply lookup_insert_Some in Hu as [[<- <-] | [_ Hu]]; by eexists.
  - left. split; [done |]. unfold is_ignored in Hu. destruct (upm_map s !! user') as [u' |] eqn:Hu'; [| by eexists].
    cbn in Hu. apply lookup_insert_Some in Hu as [[<- <-] | [_ Hu]]; by eexists.
Qed.

Lemma user_ops_source ops user : ∀ u, upm_map (run_user_ops ops UserPermissionsMap_default) !! user = Some u →
  ∃ before now files after, ops = before ++ UserOp.Set_ now user (up_permissions u) files :: after ∧
    Forall (keeps user) after.
Proof.
  induction ops as [| op ops IH] using rev_ind; intros u Hu; [cbn in Hu; by rewrite lookup_empty in Hu |].
  unfold run_user_ops in Hu, IH. rewrite fold_left_app in Hu. cbn in Hu.
  destruct (user_op_source _ _ _ _ Hu) as [(Hk & u0 & Hu0 & Hp) | (now & files & ->)].
  - destruct (IH u0 Hu0) as (before & now & files & after & -> & Ha). rewrite Hp.
    exists before, now, files, (after ++ [op]). rewrite <- app_assoc. split; [done |]. apply Forall_app. by split; [| constructor].
  - by exists ops, now, files, [].
Qed.
End run.

(** ** Properties *)

(** The names of the permissions: reading back the name of a permission
    gives it; and a sequence of JSON values is read as exactly the permissions
    it names, unknown names and values of other types being skipped. *)
Theorem permission_names (seq : list json_element) (p : Permission) (Hseq : Forall (λ e, is_Some e) seq) :
  permission_from_str (to_str p) = Some p ∧ (p ∈ deserialize seq ↔ p ∈ named seq).
Proof.
  split; [apply permission_from_to_str |]. unfold deserialize. rewrite visit_seq_named by done. set_solver.
Qed.

Lemma permission_names_witness :
  FileRead ∈ deserialize [Some (Some "files.read"%string); Some None; Some (Some "nope"%string)].
Proof.
  apply (permission_names [Some (Some "files.read"%string); Some None; Some (Some "nope"%string)] FileRead).
  - repeat constructor; by eexists.
  - by left.
Defined.

(** No permission without a grant: whenever, after any sequence of
    operations, a user is found to have a permission, the sequence has a last
    call that set the permissions of that user, with no clearing after it, and
    the set it gave has the permission itself, or has [*] and the permission
    is not an administrator's. *)
Theorem permission_was_granted {Override : Type} (build : list string → option Override)
    (is_whitelist : Override → bytes → bool → bool) (ops : list UserOp.UserOp) (now user : Z) (p : Permission)
    (Hask : fst (user_has_permission now user p (run_user_ops build is_whitelist ops UserPermissionsMap_default)) = true) :
  ∃ before when permissions files after,
    ops = before ++ UserOp.Set_ when user permissions files :: after ∧ Forall (keeps user) after ∧
    (p ∈ permissions ∨ All ∈ permissions ∧ is_admin p = false).
Proof.
  unfold user_has_permission in Hask. destruct (upm_map _ !! user) as [u |] eqn:Hu; [| done].
  destruct (user_ops_source _ _ _ _ _ Hu) as (before & when & files & after & Hops & Ha).
  exists before, when, (up_permissions u), files, after. split; [done |]. split; [done |]. cbn in Hask.
  unfold has_permission in Hask. apply orb_true_iff in Hask as [Hask | Hask]; [right | left].
  - apply andb_true_iff in Hask as [H1 H2]. apply bool_decide_eq_true in H1. by apply negb_true_iff in H2.
  - by apply bool_decide_eq_true in Hask.
Qed.

Definition sample_ops : list UserOp.UserOp :=
  [UserOp.Set_ 0 1 {[All]} None; UserOp.Set_ 5 2 {[FileRead]} None; UserOp.Expire 60].

Lemma permission_was_granted_witness :
  ∃ before when permissions files after,
    sample_ops = before ++ UserOp.Set_ when 1 permissions files :: after ∧ Forall (keeps 1) after ∧
    (ControlStart ∈ permissions ∨ All ∈ permissions ∧ is_admin ControlStart = false).
Proof.
  apply (permission_was_granted (λ _, Some tt) (λ _ _ _, true) sample_ops 100 1 ControlStart).
  vm_compute. reflexivity.
Defined.

(** New permissions do not renew a user's entry: a user who was idle for a
    day, is given permissions, and is still idle when the cleaning task runs,
    one second later, has none. *)
Theorem fresh_permissions_expire {Override : Type} (build : list string → option Override)
    (is_whitelist : Override → bytes → bool → bool) (user : Z) (old new : Permissions) (p : Permission)
    (Hold : old ≠ ∅) (Hnew : new ≠ ∅) :
  fst (user_has_permission 86401 user p
    (run_user_ops build is_whitelist
       [UserOp.Set_ 0 user old None; UserOp.Set_ 86400 user new None; UserOp.Expire 86401] UserPermissionsMap_default)) = false.
Proof.
  unfold run_user_ops. cbn [fold_left run_user_op]. unfold set_permissions at 2. rewrite decide_False by done.
  cbn [upm_map UserPermissionsMap_default]. rewrite lookup_empty. unfold set_permissions. rewrite decide_False by done.
  cbn [upm_map set_map]. rewrite lookup_insert_eq. unfold expire, user_has_permission. cbn [upm_map set_map upm_removals].
  rewrite insert_insert_eq. rewrite map_lookup_filter_None_2; [done |]. right. intros u Hu.
  rewrite lookup_insert_eq in Hu. injection Hu as <-. cbn. lia.
Qed.

Lemma fresh_permissions_expire_witness :
  fst (user_has_permission 86401 1 FileRead
    (run_user_ops (λ _, Some tt) (λ _ _ _, true)
       [UserOp.Set_ 0 1 {[All]} None; UserOp.Set_ 86400 1 {[FileRead]} None; UserOp.Expire 86401] UserPermissionsMap_default)) = false.
Proof. apply (fresh_permissions_expire (λ _, Some tt) (λ _ _ _, true) 1 {[All]} {[FileRead]} FileRead); done. Defined.
