(* ===== verification/Effects.v ===== *)
(** * Effects: programs that call the operating system

    A program is a finite tree of calls ([prog]): it ends with a value, or
    makes a call of the interface [E] and continues with the answer.  What a
    program asks of its surroundings is then a property of the program alone,
    whatever the answers are ([all_calls]), and a handler of the interface over
    a state gives it a meaning ([run]).  [io] is a program that returns a
    [Result] with an I/O error; its bind is the [?] operator. *)
From S2P Require Import Prelude IoModel.

Inductive prog (E : Type → Type) (A : Type) : Type :=
  | Done (a : A)
  | Vis {X : Type} (e : E X) (k : X → prog E A).
Arguments Done {E A} _.
Arguments Vis {E A X} _ _.

#[global] Instance prog_ret {E} : MRet (prog E) := λ A a, Done a.
#[global] Instance prog_bind {E} : MBind (prog E) := λ A B f,
  fix bind m :=
    match m with
    | Done a => f a
    | Vis e k => Vis e (λ x, bind (k x))
    end.

Definition call {E : Type → Type} {X} (e : E X) : prog E X := Vis e Done.

(** The answer of an I/O call. *)
Notation "'ior' A" := (result io_error A) (at level 10, A at level 9).

Definition io (E : Type → Type) (A : Type) : Type := prog E (ior A).
#[global] Instance io_ret {E} : MRet (io E) := λ A a, Done (Ok a).
#[global] Instance io_bind {E} : MBind (io E) := λ A B f m,
  prog_bind _ _ (λ r, match r with Ok a => f a | Err e => Done (Err e) end) m.
Definition io_throw {E A} (e : io_error) : io E A := Done (Err e).
Definition io_lift {E A} (r : ior A) : io E A := Done r.

(** Every call the program may make, whatever it is answered. *)
Fixpoint all_calls {E A} (P : ∀ X, E X → Prop) (m : prog E A) : Prop :=
  match m with
  | Done _ => True
  | Vis e k => P _ e ∧ ∀ x, all_calls P (k x)
  end.

(** The state is threaded through the handler's answers. *)
Fixpoint run {E A W} (h : ∀ X, E X → W → X * W) (m : prog E A) (w : W) : A * W :=
  match m with
  | Done a => (a, w)
  | Vis e k => let '(x, w) := h _ e w in run h (k x) w
  end.

Lemma all_calls_bind {E A B} (P : ∀ X, E X → Prop) (m : prog E A) (f : A → prog E B) :
  all_calls P m → (∀ a, all_calls P (f a)) → all_calls P (prog_bind _ _ f m).
Proof. intros Hm Hf. induction m as [a | X e k IH]; cbn in *; [done |]. split; [apply Hm |]. intros x. by apply IH, Hm. Qed.

Lemma all_calls_io_bind {E A B} (P : ∀ X, E X → Prop) (m : io E A) (f : A → io E B) :
  all_calls P m → (∀ a, all_calls P (f a)) → all_calls P (mbind (M := io E) f m).
Proof. intros Hm Hf. apply all_calls_bind; [done |]. intros [a | e]; [apply Hf | done]. Qed.

Lemma all_calls_impl {E A} (P Q : ∀ X, E X → Prop) (m : prog E A) :
  (∀ X e, P X e → Q X e) → all_calls P m → all_calls Q m.
Proof. intros HPQ. induction m as [a | X e k IH]; cbn; [done |]. intros [? ?]. split; [by apply HPQ |]. intros x. by apply IH. Qed.

Lemma run_bind {E A B W} (h : ∀ X, E X → W → X * W) (m : prog E A) (f : A → prog E B) w :
  run h (prog_bind _ _ f m) w = let '(a, w') := run h m w in run h (f a) w'.
Proof. revert w. induction m as [a | X e k IH]; intros w; cbn; [done |]. destruct (h X e w) as [x w']. apply IH. Qed.

(** A handler whose state satisfies [I] keeps it over a whole program. *)
Lemma run_invariant {E A W} (h : ∀ X, E X → W → X * W) (I : W → Prop) (P : ∀ X, E X → Prop) (m : prog E A) w :
  (∀ X e w, P X e → I w → I (snd (h X e w))) → all_calls P m → I w → I (snd (run h m w)).
Proof.
  intros Hh. revert w. induction m as [a | X e k IH]; intros w; cbn; [done |]. intros [He Hk] Hw.
  pose proof (Hh X e w He Hw) as Hw'. destruct (h X e w) as [x w']. by apply IH.
Qed.

(** ** Reasoning about all behaviours

    [wp may ok upd m s Φ]: however the calls of [m] are answered, if each answer
    is one [ok] allows in the ghost state at that point, then every call is one
    that [may] be made there, and [m] ends in a value and a ghost state that
    satisfy [Φ]; [upd] records a call and its answer in the ghost state. *)
Section wp.
Context {E : Type → Type} {S : Type} (may : ∀ X, E X → S → Prop).
Context (ok : ∀ X, E X → X → S → Prop) (upd : ∀ X, E X → X → S → S).

Fixpoint wp {A} (m : prog E A) (s : S) (Φ : A → S → Prop) : Prop :=
  match m with
  | Done a => Φ a s
  | Vis e k => may _ e s ∧ ∀ x, ok _ e x s → wp (k x) (upd _ e x s) Φ
  end.

Lemma wp_mono {A} (m : prog E A) s (Φ Ψ : A → S → Prop) : wp m s Φ → (∀ a s, Φ a s → Ψ a s) → wp m s Ψ.
Proof.
  intros Hm H. revert s Hm. induction m as [a | X e k IH]; intros s Hm; cbn in *; [by apply H |].
  split; [apply Hm |]. intros x Hx. by apply IH, Hm.
Qed.

Lemma wp_bind {A B} (m : prog E A) (f : A → prog E B) s Φ :
  wp m s (λ a s, wp (f a) s Φ) → wp (prog_bind _ _ f m) s Φ.
Proof.
  revert s. induction m as [a | X e k IH]; intros s Hm; cbn in *; [done |]. split; [apply Hm |].
  intros x Hx. by apply IH, Hm.
Qed.

Lemma wp_io_bind {A B} (m : io E A) (f : A → io E B) s Φ :
  wp m s (λ r s, match r with Ok a => wp (f a) s Φ | Err e => Φ (Err e) s end) → wp (mbind (M := io E) f m) s Φ.
Proof. intros H. apply wp_bind. eapply wp_mono; [exact H |]. by intros [a | e] s'. Qed.

(** A handler that answers within [ok] meets what was shown for all answers. *)
Lemma wp_run {A W} (h : ∀ X, E X → W → X * W) (R : W → S → Prop) (m : prog E A) w s Φ :
  (∀ X e w s, R w s → may X e s → ok X e (fst (h X e w)) s ∧ R (snd (h X e w)) (upd X e (fst (h X e w)) s)) →
  R w s → wp m s Φ → ∃ s', R (snd (run h m w)) s' ∧ Φ (fst (run h m w)) s'.
Proof.
  intros Hh. revert w s. induction m as [a | X e k IH]; intros w s HR Hm; cbn in *; [by exists s |].
  destruct Hm as [Hmay Hm]. destruct (Hh X e w s HR Hmay) as [Hok HR']. destruct (h X e w) as [x w']. cbn in *.
  by eapply IH, Hm.
Qed.
End wp.

(** ** Several tasks *)

(** The turns of two tasks, [true] for the first *)
Fixpoint interleave {E A B W} (h : ∀ X, E X → W → X * W) (turns : list bool) (m1 : prog E A) (m2 : prog E B) (w : W) :
    prog E A * prog E B * W :=
  match turns with
  | [] => (m1, m2, w)
  | true :: turns =>
      match m1 with
      | Vis e k => let '(x, w) := h _ e w in interleave h turns (k x) m2 w
      | Done _ => interleave h turns m1 m2 w
      end
  | false :: turns =>
      match m2 with
      | Vis e k => let '(x, w) := h _ e w in interleave h turns m1 (k x) w
      | Done _ => interleave h turns m1 m2 w
      end
  end.
