(* ===== verification/CapFs.v ===== *)
(** * CapFs: the sandboxed file system of a server (application/src/server/filesystem/cap/mod.rs)

    [CapFilesystem] resolves every path a client names to a path below the
    root of the server, and hands it to a directory capability of [cap_std].
    The capability, the ambient calls on the base path and the thread pool are
    the interface [FsE]; an operation is a program over it ([Effects]). *)
From S2P Require Import Prelude IoModel Paths Utf8 Effects.

(** What [std::fs::FileType] and [cap_std::fs::FileType] answer. *)
Record RawFileType : Type := mk_RawFileType {
  raw_is_file : bool;
  raw_is_dir : bool;
  raw_is_symlink : bool;
}.

Module FileType.
Inductive FileType : Type :=
  | File
  | Dir
  | Symlink
  | Unknown.
End FileType.

Definition is_file (self : FileType.FileType) : bool := match self with FileType.File => true | _ => false end.
Definition is_dir (self : FileType.FileType) : bool := match self with FileType.Dir => true | _ => false end.
Definition is_symlink (self : FileType.FileType) : bool := match self with FileType.Symlink => true | _ => false end.

Definition FileType_from (ft : RawFileType) : FileType.FileType :=
  if raw_is_file ft then FileType.File
  else if raw_is_dir ft then FileType.Dir
  else if raw_is_symlink ft then FileType.Symlink
  else FileType.Unknown.

(** An entry of a listing: its type, if it can be told, and its name. *)
Record DirEntry : Type := mk_DirEntry {
  de_file_type : ior RawFileType;
  de_file_name : bytes;
}.

(** Times are seconds since 1970, rounded down, where they can be told. *)
Record Metadata : Type := mk_Metadata {
  md_file_type : RawFileType;
  md_len : Z;
  md_mode : Z;
  md_blocks : Z;
  md_ino : Z;
  md_dev : Z;
  md_modified : option Z;
  md_created : option Z;
}.

(** Times are pairs of seconds and nanoseconds, as [rustix::fs::Timestamps]. *)
Record Timestamps : Type := mk_Timestamps {
  last_modification : Z * Z;
  last_access : Z * Z;
}.

(** The interface: calls on a directory capability, which take a handle and
    a path; the ambient calls; calls on open files and listings; the cell
    that holds the capability; starting a blocking task ([Some] error when
    the task could not run to its end). *)
Inductive FsE : Type → Type :=
  | DirCreateDir (dir : Z) (path : bytes) : FsE (ior unit)
  | DirCreateDirAll (dir : Z) (path : bytes) : FsE (ior unit)
  | DirRemoveDirAll (dir : Z) (path : bytes) : FsE (ior unit)
  | DirRemoveFile (dir : Z) (path : bytes) : FsE (ior unit)
  | DirRename (dir : Z) (from : bytes) (to_dir : Z) (to : bytes) : FsE (ior unit)
  | DirMetadata (dir : Z) (path : bytes) : FsE (ior Metadata)
  | DirSymlinkMetadata (dir : Z) (path : bytes) : FsE (ior Metadata)
  | DirCanonicalize (dir : Z) (path : bytes) : FsE (ior bytes)
  | DirReadLink (dir : Z) (path : bytes) : FsE (ior bytes)
  | DirReadLinkContents (dir : Z) (path : bytes) : FsE (ior bytes)
  | DirOpen (dir : Z) (path : bytes) : FsE (ior Z)
  | DirOpenWith (dir : Z) (path : bytes) (options : Z) : FsE (ior Z)
  | DirCreate (dir : Z) (path : bytes) : FsE (ior Z)
  | DirSetPermissions (dir : Z) (path : bytes) (mode : Z) : FsE (ior unit)
  | DirChmodAt (dir : Z) (path : bytes) (mode : Z) : FsE (ior unit)
  | DirUtimensAt (dir : Z) (path : bytes) (times : Timestamps) : FsE (ior unit)
  | DirChownAt (dir : Z) (path : bytes) (uid gid : Z) : FsE (ior unit)
  | DirSymlink (dir : Z) (target link : bytes) : FsE (ior unit)
  | DirHardLink (dir : Z) (target : bytes) (to_dir : Z) (link : bytes) : FsE (ior unit)
  | DirReadDir (dir : Z) (path : bytes) : FsE (ior Z)
  | AmbientMetadata (path : bytes) : FsE (ior Metadata)
  | AmbientSymlinkMetadata (path : bytes) : FsE (ior Metadata)
  | AmbientSetPermissions (path : bytes) (mode : Z) : FsE (ior unit)
  | AmbientChown (path : bytes) (uid gid : Z) : FsE (ior unit)
  | AmbientReadDir (path : bytes) : FsE (ior Z)
  | OpenAmbientDir (path : bytes) : FsE (ior Z)
  | ReadDirNext (listing : Z) : FsE (option (ior DirEntry))
  | FileRead (file : Z) (n : Z) : FsE (ior bytes)
  | FileWriteAll (file : Z) (data : bytes) : FsE (ior unit)
  | FileSyncAll (file : Z) : FsE (ior unit)
  | FileSetPermissions (file : Z) (mode : Z) : FsE (ior unit)
  | LoadInner (cell : Z) : FsE (option Z)
  | StoreInner (cell : Z) (dir : option Z) : FsE unit
  | SpawnBlocking : FsE (option io_error)
  | Now : FsE Z.

(** [inner] names the cell shared by the clones of the file system. *)
Record CapFilesystem : Type := mk_CapFilesystem {
  base_path : bytes;
  inner : Z;
}.

Definition FS (A : Type) : Type := io FsE A.
#[global] Instance FS_ret : MRet FS := io_ret.
#[global] Instance FS_bind : MBind FS := λ A B, io_bind A B.

Definition ask {A} (e : FsE (ior A)) : FS A := call e.
Definition ask_plain {A} (e : FsE A) : FS A := Vis e (λ x, Done (Ok x)).

(** [tokio::task::spawn_blocking(..).await??]. *)
Definition spawn_blocking {A} (task : FS A) : FS A :=
  failed ← ask_plain SpawnBlocking;
  match failed with Some err => io_throw err | None => task end.

(** ** Opening and closing *)

Definition CapFilesystem_new (cell : Z) (path : bytes) : FS CapFilesystem :=
  dir ← spawn_blocking (ask (OpenAmbientDir path));
  _ ← ask_plain (StoreInner cell (Some dir));
  mret (mk_CapFilesystem path cell).
Definition new_uninitialized (cell : Z) (path : bytes) : FS CapFilesystem :=
  _ ← ask_plain (StoreInner cell None);
  mret (mk_CapFilesystem path cell).
Definition is_uninitialized (self : CapFilesystem) : FS bool :=
  loaded ← ask_plain (LoadInner (inner self));
  mret (match loaded with Some _ => false | None => true end).
Definition close (self : CapFilesystem) : FS unit := ask_plain (StoreInner (inner self) None).
Definition get_inner (self : CapFilesystem) : FS Z :=
  loaded ← ask_plain (LoadInner (inner self));
  io_lift (ok_or loaded (IoOther "filesystem not initialized")).

(** ** Paths *)

Definition resolve_step (result : bytes) (component : Component.Component) : bytes :=
  match component with
  | Component.ParentDir =>
      if negb (bool_decide (result = [])) &&
         negb (bool_decide (list.last (components result) = Some Component.RootDir))
      then path_pop result else result
  | Component.CurDir => result
  | _ => path_join result (component_bytes component)
  end.
Definition resolve_path (path : bytes) : bytes := foldl resolve_step [] (components path).

Definition relative_path (self : CapFilesystem) (path : bytes) : bytes :=
  resolve_path match strip_prefix path (base_path self) with
               | Some path => path
               | None => match strip_prefix path [SLASH] with Some path => path | None => path end
               end.

(** [path.components().next().is_none()] *)
Definition is_root (path : bytes) : bool := bool_decide (components path = []).

(** ** Operations *)

Definition on_dir {A} (self : CapFilesystem) (path : bytes) (op : Z → bytes → FsE (ior A)) : FS A :=
  let path := relative_path self path in
  dir ← get_inner self;
  ask (op dir path).
Definition async_on_dir {A} (self : CapFilesystem) (path : bytes) (op : Z → bytes → FsE (ior A)) : FS A :=
  let path := relative_path self path in
  dir ← get_inner self;
  spawn_blocking (ask (op dir path)).

Definition async_create_dir (self : CapFilesystem) (path : bytes) : FS unit := async_on_dir self path DirCreateDir.
Definition create_dir (self : CapFilesystem) (path : bytes) : FS unit := on_dir self path DirCreateDir.
Definition async_create_dir_all (self : CapFilesystem) (path : bytes) : FS unit := async_on_dir self path DirCreateDirAll.
Definition create_dir_all (self : CapFilesystem) (path : bytes) : FS unit := on_dir self path DirCreateDirAll.
Definition async_remove_dir_all (self : CapFilesystem) (path : bytes) : FS unit := async_on_dir self path DirRemoveDirAll.
Definition remove_dir_all (self : CapFilesystem) (path : bytes) : FS unit := on_dir self path DirRemoveDirAll.
Definition async_remove_file (self : CapFilesystem) (path : bytes) : FS unit := async_on_dir self path DirRemoveFile.
Definition remove_file (self : CapFilesystem) (path : bytes) : FS unit := on_dir self path DirRemoveFile.

Definition async_rename (self : CapFilesystem) (from : bytes) (to_dir : CapFilesystem) (to : bytes) : FS unit :=
  let from := relative_path self from in
  let to := relative_path self to in
  dir ← get_inner self;
  to_inner ← get_inner to_dir;
  spawn_blocking (ask (DirRename dir from to_inner to)).
Definition rename (self : CapFilesystem) (from : bytes) (to_dir : CapFilesystem) (to : bytes) : FS unit :=
  let from := relative_path self from in
  let to := relative_path self to in
  dir ← get_inner self;
  to_inner ← get_inner to_dir;
  ask (DirRename dir from to_inner to).

Definition async_metadata (self : CapFilesystem) (path : bytes) : FS Metadata :=
  let path := relative_path self path in
  if is_root path then ask (AmbientMetadata (base_path self)) else
  dir ← get_inner self;
  spawn_blocking (ask (DirMetadata dir path)).
Definition metadata (self : CapFilesystem) (path : bytes) : FS Metadata :=
  let path := relative_path self path in
  if is_root path then ask (AmbientMetadata (base_path self)) else
  dir ← get_inner self;
  ask (DirMetadata dir path).
Definition async_symlink_metadata (self : CapFilesystem) (path : bytes) : FS Metadata :=
  let path := relative_path self path in
  if is_root path then ask (AmbientSymlinkMetadata (base_path self)) else
  dir ← get_inner self;
  spawn_blocking (ask (DirSymlinkMetadata dir path)).
Definition symlink_metadata (self : CapFilesystem) (path : bytes) : FS Metadata :=
  let path := relative_path self path in
  if is_root path then ask (AmbientSymlinkMetadata (base_path self)) else
  dir ← get_inner self;
  ask (DirSymlinkMetadata dir path).

Definition async_canonicalize (self : CapFilesystem) (path : bytes) : FS bytes :=
  let path := relative_path self path in
  if is_root path then mret path else
  dir ← get_inner self;
  spawn_blocking (ask (DirCanonicalize dir path)).
Definition async_read_link (self : CapFilesystem) (path : bytes) : FS bytes := async_on_dir self path DirReadLink.
Definition read_link (self : CapFilesystem) (path : bytes) : FS bytes := on_dir self path DirReadLink.
Definition read_link_contents (self : CapFilesystem) (path : bytes) : FS bytes := on_dir self path DirReadLinkContents.

Definition async_open (self : CapFilesystem) (path : bytes) : FS Z := async_on_dir self path DirOpen.
Definition open (self : CapFilesystem) (path : bytes) : FS Z := on_dir self path DirOpen.
Definition async_open_with (self : CapFilesystem) (path : bytes) (options : Z) : FS Z :=
  async_on_dir self path (λ dir path, DirOpenWith dir path options).
Definition open_with (self : CapFilesystem) (path : bytes) (options : Z) : FS Z :=
  on_dir self path (λ dir path, DirOpenWith dir path options).
Definition async_create (self : CapFilesystem) (path : bytes) : FS Z := async_on_dir self path DirCreate.
Definition create (self : CapFilesystem) (path : bytes) : FS Z := on_dir self path DirCreate.

(** ** Contents *)

Definition BUFFER_SIZE : Z := 32 * 1024.

(** Every turn reads at least one byte, or is the last one: [limit] turns and
    one more are enough. *)
Fixpoint read_to_vec_loop (fuel : nat) (file limit : Z) (content : bytes) : FS bytes :=
  match fuel with
  | O => mret content
  | S fuel =>
      got ← ask (FileRead file BUFFER_SIZE);
      if zlen got =? 0 then mret content else
      if BUFFER_SIZE <? zlen got then io_throw (InvalidInput "range end exceeds slice length") else
      let content := content ++ got in
      if limit <=? zlen content then mret (ztake limit content) else
      read_to_vec_loop fuel file limit content
  end.
Definition async_read_to_vec (self : CapFilesystem) (path : bytes) (limit : Z) : FS bytes :=
  let path := relative_path self path in
  file ← async_open self path;
  read_to_vec_loop (S (Z.to_nat limit)) file limit [].
(** The message is the Utf8Error's. *)
Definition async_read_to_string (self : CapFilesystem) (path : bytes) (limit : Z) : FS bytes :=
  content ← async_read_to_vec self path limit;
  io_lift (if utf8_valid content then Ok content else Err (InvalidData "invalid utf-8 sequence")).

Definition async_write (self : CapFilesystem) (path data : bytes) : FS unit :=
  let path := relative_path self path in
  file ← async_create self path;
  _ ← ask (FileWriteAll file data);
  ask (FileSyncAll file).

(** ** Attributes and links *)

(** [PortablePermissions] (application/src/utils.rs): nine bits of a mode. *)
Record PortablePermissions : Type := mk_PortablePermissions { mode : Z }.
Definition from_mode_file (m : Z) : PortablePermissions := mk_PortablePermissions (Z.lor (Z.land (m mod 2 ^ 16) 511) 384).
Definition from_mode_dir (m : Z) : PortablePermissions := mk_PortablePermissions (Z.lor (Z.land (m mod 2 ^ 16) 511) 448).
Definition into_std_permissions (self : PortablePermissions) : option Z := Some (mode self).
Definition apply_permissions (self : Z) (new_permissions : PortablePermissions) : FS unit :=
  ask (FileSetPermissions self (mode new_permissions)).

Definition async_set_permissions (self : CapFilesystem) (path : bytes) (permissions : PortablePermissions) : FS unit :=
  let path := relative_path self path in
  if is_root path then
    match into_std_permissions permissions with
    | Some std => ask (AmbientSetPermissions (base_path self) std)
    | None => mret tt
    end
  else
    dir ← get_inner self;
    match into_std_permissions permissions with
    | Some std => spawn_blocking (ask (DirSetPermissions dir path std))
    | None => spawn_blocking (file ← ask (DirOpen dir path); apply_permissions file permissions)
    end.
Definition set_permissions (self : CapFilesystem) (path : bytes) (permissions : PortablePermissions) : FS unit :=
  let path := relative_path self path in
  if is_root path then
    match into_std_permissions permissions with
    | Some std => ask (AmbientSetPermissions (base_path self) std)
    | None => mret tt
    end
  else
    dir ← get_inner self;
    match into_std_permissions permissions with
    | Some std => ask (DirSetPermissions dir path std)
    | None => file ← ask (DirOpen dir path); apply_permissions file permissions
    end.
Definition async_set_symlink_permissions (self : CapFilesystem) (path : bytes) (permissions : PortablePermissions) : FS unit :=
  let path := relative_path self path in
  if is_root path then
    match into_std_permissions permissions with
    | Some std => ask (AmbientSetPermissions (base_path self) std)
    | None => mret tt
    end
  else
    dir ← get_inner self;
    spawn_blocking (ask (DirChmodAt dir path (mode permissions))).

(** A time is a number of nanoseconds since the epoch. *)
Definition duration_since_epoch (time : Z) (msg : string) : ior Z :=
  if 0 <=? time then Ok time else Err (InvalidInput msg).
Definition timespec (elapsed : Z) (msg : string) : ior (Z * Z) :=
  if elapsed / 10 ^ 9 <? 2 ^ 63 then Ok (elapsed / 10 ^ 9, elapsed mod 10 ^ 9) else Err (InvalidInput msg).

Definition timestamps (modification_time : Z) (access_time : option Z) : FS Timestamps :=
  elapsed_modification ← io_lift (duration_since_epoch modification_time "modification time is before UNIX_EPOCH");
  access ← match access_time with Some t => mret t | None => ask_plain Now end;
  elapsed_access ← io_lift (duration_since_epoch access "access time is before UNIX_EPOCH");
  m ← io_lift (timespec elapsed_modification "modification time is too large");
  a ← io_lift (timespec elapsed_access "access time is too large");
  mret (mk_Timestamps m a).
Definition async_set_times (self : CapFilesystem) (path : bytes) (modification_time : Z) (access_time : option Z) : FS unit :=
  let path := relative_path self path in
  dir ← get_inner self;
  times ← timestamps modification_time access_time;
  spawn_blocking (ask (DirUtimensAt dir path times)).
Definition set_times (self : CapFilesystem) (path : bytes) (modification_time : Z) (access_time : option Z) : FS unit :=
  let path := relative_path self path in
  dir ← get_inner self;
  times ← timestamps modification_time access_time;
  ask (DirUtimensAt dir path times).

Definition async_symlink (self : CapFilesystem) (target link : bytes) : FS unit :=
  let target := relative_path self target in
  let link := relative_path self link in
  dir ← get_inner self;
  spawn_blocking (ask (DirSymlink dir target link)).
Definition symlink (self : CapFilesystem) (target link : bytes) : FS unit :=
  let target := relative_path self target in
  let link := relative_path self link in
  dir ← get_inner self;
  ask (DirSymlink dir target link).
Definition async_hard_link (self : CapFilesystem) (target : bytes) (dst_dir : CapFilesystem) (link : bytes) : FS unit :=
  let target := relative_path self target in
  let link := relative_path self link in
  dir ← get_inner self;
  dst_inner ← get_inner dst_dir;
  spawn_blocking (ask (DirHardLink dir target dst_inner link)).
Definition hard_link (self : CapFilesystem) (target : bytes) (dst_dir : CapFilesystem) (link : bytes) : FS unit :=
  let target := relative_path self target in
  let link := relative_path self link in
  dir ← get_inner self;
  dst_inner ← get_inner dst_dir;
  ask (DirHardLink dir target dst_inner link).

(** ** Listings *)

Module ReadDir.
Inductive ReadDir : Type :=
  | Cap (listing : Z)
  | Std (listing : Z).
End ReadDir.

(** [AsyncCapReadDir] holds the listing and the entries read ahead; both are
    taken while a blocking task runs. *)
Record AsyncCapReadDir : Type := mk_AsyncCapReadDir {
  acrd_read_dir : option Z;
  acrd_buffer : option (list (ior (FileType.FileType * bytes)));
}.

Module AsyncReadDir.
Inductive AsyncReadDir : Type :=
  | Cap (read_dir : AsyncCapReadDir)
  | Tokio (listing : Z).
End AsyncReadDir.

Definition read_dir (self : CapFilesystem) (path : bytes) : FS ReadDir.ReadDir :=
  let path := relative_path self path in
  if is_root path then
    listing ← ask (AmbientReadDir (base_path self));
    mret (ReadDir.Std listing)
  else
    dir ← get_inner self;
    listing ← ask (DirReadDir dir path);
    mret (ReadDir.Cap listing).
Definition async_read_dir (self : CapFilesystem) (path : bytes) : FS AsyncReadDir.AsyncReadDir :=
  let path := relative_path self path in
  if is_root path then
    listing ← ask (AmbientReadDir (base_path self));
    mret (AsyncReadDir.Tokio listing)
  else
    dir ← get_inner self;
    listing ← spawn_blocking (ask (DirReadDir dir path));
    mret (AsyncReadDir.Cap (mk_AsyncCapReadDir (Some listing) (Some []))).

(** ** Requests *)

Module Request.
(** What a client of the file system asks for. *)
Inductive Request : Type :=
  | CreateDir (path : bytes)
  | CreateDirAll (path : bytes)
  | RemoveDirAll (path : bytes)
  | RemoveFile (path : bytes)
  | Rename (from : bytes) (to_dir : CapFilesystem) (to : bytes)
  | Metadata (path : bytes)
  | SymlinkMetadata (path : bytes)
  | Canonicalize (path : bytes)
  | ReadLink (path : bytes)
  | ReadLinkContents (path : bytes)
  | ReadToVec (path : bytes) (limit : Z)
  | ReadToString (path : bytes) (limit : Z)
  | Open (path : bytes)
  | OpenWith (path : bytes) (options : Z)
  | Write (path data : bytes)
  | Create (path : bytes)
  | SetPermissions (path : bytes) (permissions : PortablePermissions)
  | SetSymlinkPermissions (path : bytes) (permissions : PortablePermissions)
  | SetTimes (path : bytes) (modification_time : Z) (access_time : option Z)
  | Symlink (target link : bytes)
  | HardLink (target : bytes) (dst_dir : CapFilesystem) (link : bytes)
  | OpenDir (path : bytes).
End Request.

Definition discard {A} (m : FS A) : FS unit := _ ← m; mret tt.

(** The blocking form of a request where there is one. *)
Definition perform (self : CapFilesystem) (req : Request.Request) : FS unit :=
  match req with
  | Request.CreateDir path => create_dir self path
  | Request.CreateDirAll path => create_dir_all self path
  | Request.RemoveDirAll path => remove_dir_all self path
  | Request.RemoveFile path => remove_file self path
  | Request.Rename from to_dir to => rename self from to_dir to
  | Request.Metadata path => discard (metadata self path)
  | Request.SymlinkMetadata path => discard (symlink_metadata self path)
  | Request.Canonicalize path => discard (async_canonicalize self path)
  | Request.ReadLink path => discard (read_link self path)
  | Request.ReadLinkContents path => discard (read_link_contents self path)
  | Request.ReadToVec path limit => discard (async_read_to_vec self path limit)
  | Request.ReadToString path limit => discard (async_read_to_string self path limit)
  | Request.Open path => discard (open self path)
  | Request.OpenWith path options => discard (open_with self path options)
  | Request.Write path data => async_write self path data
  | Request.Create path => discard (create self path)
  | Request.SetPermissions path permissions => set_permissions self path permissions
  | Request.SetSymlinkPermissions path permissions => async_set_symlink_permissions self path permissions
  | Request.SetTimes path m a => set_times self path m a
  | Request.Symlink target link => symlink self target link
  | Request.HardLink target dst_dir link => hard_link self target dst_dir link
  | Request.OpenDir path => discard (read_dir self path)
  end.
(** The asynchronous form. *)
Definition async_perform (self : CapFilesystem) (req : Request.Request) : FS unit :=
  match req with
  | Request.CreateDir path => async_create_dir self path
  | Request.CreateDirAll path => async_create_dir_all self path
  | Request.RemoveDirAll path => async_remove_dir_all self path
  | Request.RemoveFile path => async_remove_file self path
  | Request.Rename from to_dir to => async_rename self from to_dir to
  | Request.Metadata path => discard (async_metadata self path)
  | Request.SymlinkMetadata path => discard (async_symlink_metadata self path)
  | Request.ReadLink path => discard (async_read_link self path)
  | Request.Open path => discard (async_open self path)
  | Request.OpenWith path options => discard (async_open_with self path options)
  | Request.Create path => discard (async_create self path)
  | Request.SetPermissions path permissions => async_set_permissions self path permissions
  | Request.SetTimes path m a => async_set_times self path m a
  | Request.Symlink target link => async_symlink self target link
  | Request.HardLink target dst_dir link => async_hard_link self target dst_dir link
  | Request.OpenDir path => discard (async_read_dir self path)
  | _ => perform self req
  end.

(** ** Confinement *)

(** A path of names only, so one that no [..] and no root leads out of. *)
Definition confined_path (p : bytes) : Prop := ∃ names, Forall name_ok names ∧ p = join_slash names.

(** What the calls of an operation on a root may name: confined paths below
    the capability, or the base path itself. *)
Definition confined (root : bytes) (X : Type) (e : FsE X) : Prop :=
  match e with
  | DirCreateDir _ p | DirCreateDirAll _ p | DirRemoveDirAll _ p | DirRemoveFile _ p | DirMetadata _ p
  | DirSymlinkMetadata _ p | DirCanonicalize _ p | DirReadLink _ p | DirReadLinkContents _ p | DirOpen _ p
  | DirOpenWith _ p _ | DirCreate _ p | DirSetPermissions _ p _ | DirChmodAt _ p _ | DirUtimensAt _ p _
  | DirChownAt _ p _ _
  | DirReadDir _ p => confined_path p
  | DirRename _ p _ q | DirSymlink _ p q | DirHardLink _ p _ q => confined_path p ∧ confined_path q
  | AmbientMetadata p | AmbientSymlinkMetadata p | AmbientSetPermissions p _ | AmbientChown p _ _ | AmbientReadDir p => p = root
  | OpenAmbientDir _ | StoreInner _ _ => False
  | ReadDirNext _ | FileRead _ _ | FileWriteAll _ _ | FileSyncAll _ | FileSetPermissions _ _ | LoadInner _
  | SpawnBlocking | Now => True
  end.

(** [..] at the root stays there; otherwise it takes the last name away. *)
Fixpoint resolve_names (names : list bytes) (cs : list Component.Component) : list bytes :=
  match cs with
  | [] => names
  | Component.Normal n :: cs => resolve_names (names ++ [n]) cs
  | Component.ParentDir :: cs => resolve_names (take (length names - 1) names) cs
  | _ :: cs => resolve_names names cs
  end.

Definition names_only (cs : list Component.Component) : Prop :=
  Component.RootDir ∉ cs ∧ ∀ n, Component.Normal n ∈ cs → name_ok n.

Lemma names_only_cons c cs : names_only (c :: cs) → names_only cs.
Proof. intros [Hr Hn]. split; [set_solver |]. intros n ?. apply Hn. by right. Qed.

Lemma resolve_names_ok cs names : names_only cs → Forall name_ok names → Forall name_ok (resolve_names names cs).
Proof.
  revert names. induction cs as [| c cs IH]; intros names Hcs Hn; [done |]. pose proof (names_only_cons _ _ Hcs).
  destruct c as [| | | n]; cbn; apply IH; try done; [by apply Forall_take |].
  apply Forall_app. split; [done |]. constructor; [| constructor]. apply Hcs. by left.
Qed.

Lemma resolve_step_parent names : Forall name_ok names →
  resolve_step (join_slash names) Component.ParentDir = join_slash (take (length names - 1) names).
Proof.
  intros H. cbn. destruct names as [| n names _] using rev_ind; [reflexivity |].
  apply Forall_app in H as [Hn Hs]. apply Forall_inv in Hs.
  assert (Forall name_ok (names ++ [n])) as Hall by (apply Forall_app; split; [done | by constructor]).
  rewrite components_join_slash, fmap_app by done. change (Component.Normal <$> [n]) with [Component.Normal n].
  rewrite last_snoc.
  assert (join_slash (names ++ [n]) ≠ []) as Hne.
  { destruct (last_join_slash (names ++ [n]) (names_segments _ Hall) ltac:(by destruct names)) as (b & Hb & _).
    intros He. by rewrite He in Hb. }
  rewrite (bool_decide_eq_false_2 _ Hne), bool_decide_eq_false_2 by done. cbn [negb andb].
  unfold path_pop. rewrite path_parent_names by done. cbn [default].
  rewrite length_app, Nat.add_sub, take_app_length. done.
Qed.

Lemma resolve_steps_names cs names : names_only cs → Forall name_ok names →
  foldl resolve_step (join_slash names) cs = join_slash (resolve_names names cs).
Proof.
  revert names. induction cs as [| c cs IH]; intros names Hcs Hn; [done |]. pose proof (names_only_cons _ _ Hcs).
  cbn [foldl resolve_names]. destruct c as [| | | n].
  - destruct Hcs as [Hr _]. set_solver.
  - by apply IH.
  - rewrite resolve_step_parent by done. apply IH; [done | by apply Forall_take].
  - assert (name_ok n) by (apply Hcs; by left). cbn [resolve_step component_bytes].
    rewrite path_join_names by done. apply IH; [done |]. apply Forall_app. split; [done | by constructor].
Qed.

(** What a path names inside the server: below the base path, else below [/],
    else as it is. *)
Definition client_components (base cs : list Component.Component) : list Component.Component :=
  match strip_components cs base with
  | Some rest => rest
  | None => match strip_components cs [Component.RootDir] with Some rest => rest | None => cs end
  end.
Definition client_names (base path : bytes) : list bytes :=
  resolve_names [] (client_components (components base) (components path)).

Lemma components_names_only p : Component.RootDir ∉ components p → names_only (components p).
Proof. intros Hr. split; [done |]. apply components_normal_ok. Qed.

Lemma resolve_path_names p : Component.RootDir ∉ components p →
  resolve_path p = join_slash (resolve_names [] (components p)).
Proof. intros Hr. apply (resolve_steps_names _ []); [by apply components_names_only | constructor]. Qed.

Lemma components_slash : components [SLASH] = [Component.RootDir].
Proof. reflexivity. Qed.

Lemma stripped p prefix r : strip_prefix p prefix = Some r → components prefix ≠ [] →
  strip_components (components p) (components prefix) = Some (components r) ∧ Component.RootDir ∉ components r.
Proof.
  intros Hs Hp. pose proof (strip_prefix_Some _ _ _ Hs Hp) as Hc. split; [by apply strip_components_Some |].
  destruct (components prefix) as [| c cs] eqn:Hpre; [done |].
  pose proof (components_root_first p c (cs ++ components r) Hc). set_solver.
Qed.

Lemma not_stripped p prefix : strip_prefix p prefix = None → strip_components (components p) (components prefix) = None.
Proof. unfold strip_prefix. by destruct (strip_components _ _). Qed.

Lemma relative_path_names self path : components (base_path self) ≠ [] →
  relative_path self path = join_slash (client_names (base_path self) path) ∧
  Forall name_ok (client_names (base_path self) path).
Proof.
  intros Hb. unfold relative_path, client_names, client_components.
  assert (∃ p, match strip_prefix path (base_path self) with
               | Some p => p | None => match strip_prefix path [SLASH] with Some p => p | None => path end end = p ∧
    match strip_components (components path) (components (base_path self)) with
    | Some rest => rest
    | None => match strip_components (components path) [Component.RootDir] with
              | Some rest => rest | None => components path end end = components p ∧
    Component.RootDir ∉ components p) as (p & -> & -> & Hr).
  { destruct (strip_prefix path (base_path self)) as [p |] eqn:Hs.
    - destruct (stripped _ _ _ Hs Hb) as [-> Hr]. by exists p.
    - rewrite (not_stripped _ _ Hs), <- components_slash. destruct (strip_prefix path [SLASH]) as [p |] eqn:Hs'.
      + destruct (stripped _ _ _ Hs') as [-> Hr]; [done |]. by exists p.
      + rewrite (not_stripped _ _ Hs'). exists path. split; [done |]. split; [done |]. intros Hin.
        destruct (components_root _ Hin) as [cs Hcs]. by apply (strip_prefix_None _ _ Hs' cs). }
  rewrite resolve_path_names by done. split; [done |].
  apply resolve_names_ok; [by apply components_names_only | constructor].
Qed.

(** Relative paths of names stay as they are, below an absolute base path. *)
Lemma relative_path_fixed self rest names : components (base_path self) = Component.RootDir :: rest →
  Forall name_ok names → relative_path self (join_slash names) = join_slash names.
Proof.
  intros Hrest Hn. destruct (relative_path_names self (join_slash names)) as [-> _]; [by rewrite Hrest |].
  f_equal. unfold client_names, client_components. rewrite components_join_slash, Hrest by done.
  assert (∀ cs, strip_components (Component.Normal <$> names) (Component.RootDir :: cs) = None) as Hs by by destruct names.
  rewrite !Hs. clear. enough (∀ acc, resolve_names acc (Component.Normal <$> names) = acc ++ names) as H by apply (H []).
  induction names as [| n names IH]; intros acc; cbn; [by rewrite app_nil_r |]. by rewrite IH, <- app_assoc.
Qed.

Lemma relative_path_confined self path : components (base_path self) ≠ [] → confined_path (relative_path self path).
Proof. intros Hb. destruct (relative_path_names self path Hb) as [-> Hn]. by eexists. Qed.

Create HintDb confined.
#[export] Hint Resolve relative_path_confined : confined.

Lemma all_calls_ask {A} (P : ∀ X, FsE X → Prop) (e : FsE (ior A)) : P _ e → @all_calls FsE (ior A) P (ask e).
Proof. by split. Qed.

(** Goes through a program call by call. *)
Ltac calls :=
  repeat match goal with
  | |- @all_calls _ _ _ ?m =>
      lazymatch m with
      | @mbind _ _ _ _ _ _ => apply all_calls_io_bind; [| intros ?]
      | ask _ => apply all_calls_ask; cbn
      | ask_plain _ => split; [cbn; auto | intros ?; exact I]
      | mret _ => exact I
      | io_throw _ => exact I
      | io_lift _ => exact I
      | if ?b then _ else _ => destruct b
      | match ?o with Some _ => _ | None => _ end => destruct o
      | get_inner _ => unfold get_inner
      | spawn_blocking _ => unfold spawn_blocking
      | timestamps _ _ => unfold timestamps
      | apply_permissions _ _ => unfold apply_permissions
      end
  | |- _ ∧ _ => split
  end; auto with confined.

Lemma read_to_vec_loop_calls root fuel file limit content :
  @all_calls FsE _ (confined root) (read_to_vec_loop fuel file limit content).
Proof. revert content. induction fuel as [| fuel IH]; intros content; cbn [read_to_vec_loop]; [done |]. calls. Qed.
#[export] Hint Resolve read_to_vec_loop_calls : confined.

Lemma perform_calls self req : components (base_path self) ≠ [] →
  @all_calls FsE _ (confined (base_path self)) (perform self req) ∧ @all_calls FsE _ (confined (base_path self)) (async_perform self req).
Proof.
  intros Hb. split; destruct req; cbn [perform async_perform]; unfold discard;
    unfold async_read_to_string, async_read_to_vec, async_write, create_dir, create_dir_all, remove_dir_all, remove_file, rename, metadata, symlink_metadata,
      async_canonicalize, read_link, read_link_contents, open, open_with, create, set_permissions, async_set_symlink_permissions, set_times, symlink, hard_link, read_dir,
      async_create_dir, async_create_dir_all, async_remove_dir_all, async_remove_file, async_rename, async_metadata,
      async_symlink_metadata, async_read_link, async_open, async_open_with, async_create, async_set_permissions,
      async_set_times, async_symlink, async_hard_link, async_read_dir, async_on_dir, on_dir; cbv zeta; calls.
Qed.

(** ** A closed file system *)

Definition needs_inner (self : CapFilesystem) (req : Request.Request) : bool :=
  match req with
  | Request.Metadata path | Request.SymlinkMetadata path | Request.Canonicalize path | Request.SetPermissions path _
  | Request.SetSymlinkPermissions path _ | Request.OpenDir path => negb (is_root (relative_path self path))
  | _ => true
  end.

Definition not_load (X : Type) (e : FsE X) : Prop := match e with LoadInner _ => False | _ => True end.

Lemma get_inner_closed {A W} (h : ∀ X, FsE X → W → X * W) self (k : Z → FS A) w :
  fst (h _ (LoadInner (inner self)) w) = None →
  run h (mbind (M := FS) k (get_inner self)) w =
    (Err (IoOther "filesystem not initialized"), snd (h _ (LoadInner (inner self)) w)).
Proof. intros Hl. cbn. destruct (h _ (LoadInner (inner self)) w) as [o w']. cbn in Hl. by rewrite Hl. Qed.

(** An operating system that answers every call with an error, counts the
    looks at the cell, and has no capability. *)
Definition closed_os (X : Type) (e : FsE X) (w : nat) : X * nat :=
  match e in FsE X return X * nat with
  | LoadInner _ => (None, S w)
  | SpawnBlocking => (None, w)
  | ReadDirNext _ => (None, w)
  | StoreInner _ _ => (tt, w)
  | Now => (0, w)
  | _ => (Err UnexpectedEof, w)
  end.

(** ** Properties *)

(** C3. A server's files are confined to its root.  Whatever path a client
    names, with any [..], [.] or leading [/], and whatever the operating system
    answers, every call an operation makes on the directory capability names a
    path made of plain names only, and every other call that takes a path
    takes the base path of the server itself. *)
Theorem operations_are_confined (self : CapFilesystem) (req : Request.Request)
    (Hbase : components (base_path self) ≠ []) :
  @all_calls FsE _ (confined (base_path self)) (perform self req) ∧
  @all_calls FsE _ (confined (base_path self)) (async_perform self req).
Proof. by apply perform_calls. Qed.

Definition sample_fs : CapFilesystem := mk_CapFilesystem [47; 115; 114; 118] 0.

Lemma operations_are_confined_witness :
  @all_calls FsE _ (confined [47; 115; 114; 118]) (perform sample_fs (Request.RemoveFile [46; 46; 47; 46; 46; 47; 97])) ∧
  @all_calls FsE _ (confined [47; 115; 114; 118]) (async_perform sample_fs (Request.RemoveFile [46; 46; 47; 46; 46; 47; 97])).
Proof. apply (operations_are_confined sample_fs (Request.RemoveFile [46; 46; 47; 46; 46; 47; 97])). discriminate. Defined.

(** What a path means.  The path is taken below the base path of the
    server if it starts with it, else below [/]; then its components are
    followed in order from the root, [..] going up one name and staying at the
    root; the result is the path of the names that are left.  Resolving it
    again changes nothing, when the base path is absolute. *)
Theorem relative_path_resolves (self : CapFilesystem) (path : bytes)
    (Hbase : ∃ rest, components (base_path self) = Component.RootDir :: rest) :
  relative_path self path = join_slash (client_names (base_path self) path) ∧
  components (relative_path self path) = Component.Normal <$> client_names (base_path self) path ∧
  relative_path self (relative_path self path) = relative_path self path.
Proof.
  destruct Hbase as [rest Hrest]. assert (components (base_path self) ≠ []) as Hb by by rewrite Hrest.
  destruct (relative_path_names self path Hb) as [Hr Hn]. split; [done |].
  assert (components (relative_path self path) = Component.Normal <$> client_names (base_path self) path) as Hc
    by by rewrite Hr, components_join_slash.
  split; [done |]. rewrite Hr. by apply (relative_path_fixed _ rest).
Qed.

Lemma relative_path_resolves_witness :
  relative_path sample_fs [47; 97; 47; 46; 46; 47; 46; 46; 47; 98; 47; 99] = [98; 47; 99].
Proof.
  destruct (relative_path_resolves sample_fs [47; 97; 47; 46; 46; 47; 46; 46; 47; 98; 47; 99]) as (-> & _ & _);
    [by eexists | reflexivity].
Defined.

(** A closed file system: once the capability is gone, every request that
    needs it fails with [filesystem not initialized] and reaches nothing else;
    but metadata, permissions and listing of the root itself do not look at
    the capability, and go on working. *)
Theorem closed_file_system {W : Type} (h : ∀ X, FsE X → W → X * W) (self : CapFilesystem) (req : Request.Request) (w : W)
    (Hclosed : fst (h _ (LoadInner (inner self)) w) = None) :
  if needs_inner self req
  then run h (perform self req) w =
    (Err (IoOther "filesystem not initialized"), snd (h _ (LoadInner (inner self)) w))
  else @all_calls FsE _ not_load (perform self req).
Proof.
  destruct (h _ (LoadInner (inner self)) w) as [o w'] eqn:Hl. cbn in Hclosed. subst o.
  destruct req; cbn [needs_inner]; try destruct (is_root (relative_path self path)) eqn:Hr; cbn [negb perform];
    unfold discard, async_read_to_string, async_read_to_vec, async_write, metadata, symlink_metadata, async_canonicalize,
      set_permissions, async_set_symlink_permissions, read_dir; cbv zeta; try rewrite Hr;
    try (cbn; rewrite Hl; reflexivity); calls.
Qed.

Lemma closed_file_system_witness :
  run closed_os (perform sample_fs (Request.Open [97])) 0%nat =
    (Err (IoOther "filesystem not initialized"), 1%nat) ∧
  @all_calls FsE _ not_load (perform sample_fs (Request.OpenDir [47])).
Proof.
  split.
  - exact (closed_file_system closed_os sample_fs (Request.Open [97]) 0%nat eq_refl).
  - exact (closed_file_system closed_os sample_fs (Request.OpenDir [47]) 0%nat eq_refl).
Defined.
