(* ===== verification/ConfigFiles.v ===== *)
(** * ConfigFiles: the configuration files of a server's process
      (application/src/server/configuration/process/mod.rs, plain.rs, ini.rs)

    Before a server starts, its configuration files are read through the
    sandboxed file system, rewritten by the parser of their format, and
    written back.  The formats whose parsers are libraries (JSON, YAML, XML,
    TOML) are a parameter, and so is the parser of the crate ini_roundtrip,
    as the items it gives. *)
From Stdlib Require Import Ascii String.
From S2P Require Import Prelude IoModel Paths Utf8 Text Effects CapFs Json Placeholders Properties.
Local Open Scope string_scope.
Local Open Scope list_scope.
Local Open Scope Z_scope.

(** ** Plain files (plain.rs) *)

Section plain.
Context (replace_all : JsonValue → text).

(** The first replacement whose text the line starts with *)
Definition plain_match (replacements : list ServerConfigurationFileReplacement) (line : text) : option ServerConfigurationFileReplacement :=
  snd <$> list_find (λ r, starts_with line (rp_match r) = true) replacements.
Definition plain_line (replacements : list ServerConfigurationFileReplacement) (line : text) : text :=
  match plain_match replacements line with
  | Some r => if rp_update_existing r then replace_all (rp_replace_with r) ++ [NEWLINE] else line ++ [NEWLINE]
  | None => line ++ [NEWLINE]
  end.
Definition process_plain (content : text) (replacements : list ServerConfigurationFileReplacement) : text :=
  let found_matches := omap (λ line, rp_match <$> plain_match replacements line) (lines content) in
  concat (map (plain_line replacements) (lines content)) ++
  concat (map (λ r,
    if bool_decide (rp_match r ∈ found_matches) || negb (default false (rp_insert_new r)) then []
    else replace_all (rp_replace_with r) ++ [NEWLINE]) replacements).
End plain.

(** ** INI files (ini.rs) *)

(** The items of ini_roundtrip, with the raw text of their lines.  A section
    ends before the next one starts, and at the end of the file. *)
Inductive IniItem : Type :=
  | SectionEnd
  | Section_ (name raw : text)
  | Property (key : text) (val : option text) (raw : text)
  | IniOther (raw : text).
Class IniRoundtrip : Type := { ini_items : text → list IniItem }.

Record PendingReplacement : Type := mk_Pending {
  pr_section : option text;
  pr_key : text;
  pr_value : text;
  pr_insert_new : bool;
  pr_update_existing : bool;
  pr_applied : bool;
}.
Definition set_applied (p : PendingReplacement) : PendingReplacement :=
  mk_Pending (pr_section p) (pr_key p) (pr_value p) (pr_insert_new p) (pr_update_existing p) true.

(** The section and the key of a path, with the depth of brackets (an [i32]) *)
Fixpoint parse_ini_path_from (section key : text) (bracket_depth : Z) (in_section : bool) (path : text) : text * text :=
  match path with
  | [] => if in_section then ([], section) else (section, key)
  | ch :: path =>
      if ch =? 91 then parse_ini_path_from section key (bracket_depth + 1) in_section path
      else if ch =? 93 then parse_ini_path_from section key (bracket_depth - 1) in_section path
      else if ch =? 46 then
        if 0 <? bracket_depth then parse_ini_path_from (section ++ [ch]) key bracket_depth in_section path
        else if in_section && negb (bool_decide (section = [])) then parse_ini_path_from section key bracket_depth false path
        else parse_ini_path_from section (key ++ [ch]) bracket_depth in_section path
      else if in_section then parse_ini_path_from (section ++ [ch]) key bracket_depth in_section path
      else parse_ini_path_from section (key ++ [ch]) bracket_depth in_section path
  end.
Definition parse_ini_path (path : text) : text * text := parse_ini_path_from [] [] 0 true path.

Definition leading_whitespace (s : text) : text := take (length s - length (trim_start s)) s.
Definition rewrite_property (raw key new_value : text) : text :=
  match split_once EQUALS raw with
  | None => key ++ [EQUALS] ++ new_value
  | Some (before, after) => before ++ [EQUALS] ++ leading_whitespace after ++ new_value
  end.

(** [content.contains] of a carriage return and a newline *)
Fixpoint contains_crlf (s : text) : bool :=
  match s with
  | a :: (b :: _) as s' => ((a =? CR) && (b =? NEWLINE)) || contains_crlf s'
  | _ => false
  end.

Section ini.
Context {IR : IniRoundtrip} (replace_all : JsonValue → text).

Definition ini_pending (replacements : list ServerConfigurationFileReplacement) : list PendingReplacement :=
  map (λ r,
    let '(section, key) := parse_ini_path (rp_match r) in
    mk_Pending (if bool_decide (section = []) then None else Some section) key (replace_all (rp_replace_with r))
      (default true (rp_insert_new r)) (rp_update_existing r) false) replacements.

Definition ini_pair (p : PendingReplacement) : text := pr_key p ++ [EQUALS] ++ pr_value p.

(** What is still to be put into the section that ends *)
Definition due (current_section : option text) (p : PendingReplacement) : bool :=
  negb (pr_applied p) && pr_insert_new p && bool_decide (pr_section p = current_section).

(** The first replacement of a property, and the rest around it *)
Fixpoint take_match (current_section : option text) (key : text) (pending : list PendingReplacement) :
    option (PendingReplacement * list PendingReplacement) :=
  match pending with
  | [] => None
  | p :: pending =>
      if negb (pr_applied p) && bool_decide (pr_section p = current_section) && bool_decide (pr_key p = key)
      then Some (p, set_applied p :: pending)
      else (λ '(q, pending), (q, p :: pending)) <$> take_match current_section key pending
  end.

Record IniState : Type := mk_IniState {
  is_pending : list PendingReplacement;
  is_section : option text;
  is_out : text;
}.

Definition ini_step (newline : text) (st : IniState) (item : IniItem) : IniState :=
  match item with
  | SectionEnd =>
      mk_IniState (map (λ p, if due (is_section st) p then set_applied p else p) (is_pending st)) (is_section st)
        (is_out st ++ concat (map (λ p, if due (is_section st) p then ini_pair p ++ newline else []) (is_pending st)))
  | Section_ name raw => mk_IniState (is_pending st) (Some name) (is_out st ++ raw ++ newline)
  | Property key _ raw =>
      match take_match (is_section st) key (is_pending st) with
      | Some (p, pending) =>
          mk_IniState pending (is_section st)
            (is_out st ++ (if pr_update_existing p then rewrite_property raw key (pr_value p) else raw) ++ newline)
      | None => mk_IniState (is_pending st) (is_section st) (is_out st ++ raw ++ newline)
      end
  | IniOther raw => mk_IniState (is_pending st) (is_section st) (is_out st ++ raw ++ newline)
  end.

Fixpoint distinct_sections (seen : list text) (pending : list PendingReplacement) : list text :=
  match pending with
  | [] => seen
  | p :: pending =>
      match pr_section p with
      | Some section =>
          if negb (pr_applied p) && pr_insert_new p && negb (bool_decide (section ∈ seen))
          then distinct_sections (seen ++ [section]) pending else distinct_sections seen pending
      | None => distinct_sections seen pending
      end
  end.
Definition new_section (newline : text) (pending : list PendingReplacement) (out : text) (section : text) : text :=
  out ++ (if bool_decide (out = []) then [] else newline) ++ [91] ++ section ++ [93] ++ newline ++
  concat (map (λ p, if negb (pr_applied p) && pr_insert_new p && bool_decide (pr_section p = Some section) then ini_pair p ++ newline else []) pending).

Definition process_ini (content : text) (replacements : list ServerConfigurationFileReplacement) : text :=
  let newline := if contains_crlf content then [CR; NEWLINE] else [NEWLINE] in
  let st := fold_left (ini_step newline) (ini_items content) (mk_IniState (ini_pending replacements) None []) in
  fold_left (new_section newline (is_pending st)) (distinct_sections [] (is_pending st)) (is_out st).
End ini.

Example ini_paths :
  map (λ s, parse_ini_path (chars s)) ["key"; "sec.key"; "[sec].key"; "[a.b].key"; "sec.sub.key"]
  = map (λ '(a, b), (chars a, chars b)) [("", "key"); ("sec", "key"); ("sec", "key"); ("a.b", "key"); ("sec", "sub.key")].
Proof. vm_compute. reflexivity. Qed.
Example ini_rewrites :
  rewrite_property (chars "  k  =  v ; c") (chars "k") (chars "new") = chars "  k  =  new" ∧
  rewrite_property (chars "noeq") (chars "key") (chars "new") = chars "key=new".
Proof. split; vm_compute; reflexivity. Qed.

(** *** What becomes of a replacement *)

Section ini_laws.
Context {IR : IniRoundtrip} (replace_all : JsonValue → text) (newline : text).

(** A line of the output that carries the replacement *)
Definition lands (p : PendingReplacement) (out : text) : Prop :=
  ∃ before after, out = before ++ ini_pair p ++ newline ++ after ∨
    ∃ raw, out = before ++ (if pr_update_existing p then rewrite_property raw (pr_key p) (pr_value p) else raw) ++ newline ++ after.

Lemma lands_app p out more : lands p out → lands p (out ++ more).
Proof.
  intros (before & after & [->|(raw & ->)]).
  - exists before, (after ++ more). left. by rewrite <-!app_assoc.
  - exists before, (after ++ more). right. exists raw. by rewrite <-!app_assoc.
Qed.

(** The replacements keep what they are, but for being applied, and those that
    are have landed. *)
Record ini_ok (pending0 : list PendingReplacement) (st : IniState) : Prop := {
  io_same : map set_applied (is_pending st) = map set_applied pending0;
  io_lands : Forall (λ p, pr_applied p = true → lands p (is_out st)) (is_pending st);
}.

Lemma set_applied_idem p : set_applied (set_applied p) = set_applied p.
Proof. done. Qed.
Lemma lands_set_applied p out : lands (set_applied p) out ↔ lands p out.
Proof. done. Qed.

Lemma take_match_spec section key pending p pending' : take_match section key pending = Some (p, pending') →
  ∃ l1 l2, pending = l1 ++ p :: l2 ∧ pending' = l1 ++ set_applied p :: l2 ∧ pr_applied p = false ∧ pr_section p = section ∧ pr_key p = key.
Proof.
  revert pending'. induction pending as [|q pending IH]; intros pending'; [done|]. cbn. destruct (_ && _) eqn:E.
  - intros [= -> <-]. apply andb_true_iff in E as [[E1%negb_true_iff E2%bool_decide_eq_true]%andb_true_iff E3%bool_decide_eq_true].
    by exists [], pending.
  - destruct (take_match section key pending) as [[p' l]|] eqn:Em; [|done]. intros [= -> <-].
    destruct (IH l eq_refl) as (l1 & l2 & -> & -> & ?). by exists (q :: l1), l2.
Qed.

Lemma concat_split {A} (f : A → text) l1 x l2 : concat (map f (l1 ++ x :: l2)) = concat (map f l1) ++ f x ++ concat (map f l2).
Proof. by rewrite map_app, concat_app. Qed.

Lemma ini_step_ok pending0 st item : ini_ok pending0 st → ini_ok pending0 (ini_step newline st item).
Proof.
  intros [Hsame Hl]. assert (∀ more, Forall (λ p, pr_applied p = true → lands p (is_out st ++ more)) (is_pending st)) as Hmore.
  { intros more. eapply Forall_impl; [|exact Hl]. cbn. intros p Hp Ha. by apply lands_app, Hp. }
  destruct item as [|name raw|key val raw|raw]; cbn [ini_step].
  - split; cbn.
    + rewrite map_map, <-Hsame. apply map_ext. intros p. by destruct (due _ _).
    + apply Forall_map, list.Forall_forall. intros p Hp. destruct (due (is_section st) p) eqn:Hd.
      * intros _. apply lands_set_applied. apply list_elem_of_split in Hp as (l1 & l2 & ->). rewrite concat_split, Hd.
        match goal with |- lands _ (_ ++ concat (map ?f l1) ++ _) => exists (is_out st ++ concat (map f l1)), (concat (map f l2)) end.
        left. by rewrite <-!app_assoc.
      * exact (proj1 (list.Forall_forall _ _) (Hmore _) p Hp).
  - split; [done|apply Hmore].
  - destruct (take_match _ _ _) as [[p pending]|] eqn:Em; [|by split; [|apply Hmore]].
    apply take_match_spec in Em as (l1 & l2 & Hp & -> & Ha & Hs & <-). split; cbn.
    + rewrite <-Hsame, Hp, !map_app. done.
    + specialize (Hmore ((if pr_update_existing p then rewrite_property raw (pr_key p) (pr_value p) else raw) ++ newline)).
      rewrite Hp in Hmore. apply Forall_app in Hmore as [H1 [_ H2]%Forall_cons_iff]. apply Forall_app. split; [done|]. constructor; [|done].
      intros _. apply lands_set_applied. exists (is_out st), []. right. exists raw. by rewrite app_nil_r.
  - split; [done|apply Hmore].
Qed.

Lemma new_sections_lands pending sections out p : lands p out → lands p (fold_left (new_section newline pending) sections out).
Proof. revert out. induction sections as [|s sections IH]; intros out Ho; [done|]. cbn. apply IH. unfold new_section. by apply lands_app. Qed.

Lemma new_section_lands pending out p section : p ∈ pending → pr_applied p = false → pr_insert_new p = true → pr_section p = Some section →
  lands p (new_section newline pending out section).
Proof.
  intros (l1 & l2 & ->)%list_elem_of_split Ha Hi Hs. unfold new_section. rewrite concat_split. rewrite Ha, Hi, Hs, (bool_decide_eq_true_2 (Some section = Some section)) by done. cbn [negb andb].
  match goal with |- lands _ (out ++ ?sep ++ _ ++ _ ++ _ ++ _ ++ concat (map ?f l1) ++ _) =>
    exists (out ++ sep ++ [91] ++ section ++ [93] ++ newline ++ concat (map f l1)), (concat (map f l2)) end.
  left. by rewrite <-!app_assoc.
Qed.

Lemma distinct_sections_seen seen pending section : section ∈ seen → section ∈ distinct_sections seen pending.
Proof.
  revert seen. induction pending as [|p pending IH]; intros seen Hs; [done|]. cbn. destruct (pr_section p); [|by apply IH].
  destruct (_ && _); apply IH; set_solver.
Qed.
Lemma distinct_sections_elem seen pending p section : p ∈ pending → pr_applied p = false → pr_insert_new p = true → pr_section p = Some section →
  section ∈ distinct_sections seen pending.
Proof.
  intros Hp Ha Hi Hs. revert seen. induction pending as [|q pending IH]; intros seen; [by apply not_elem_of_nil in Hp|]. cbn.
  apply elem_of_cons in Hp as [<-|Hp].
  - rewrite Hs, Ha, Hi. cbn. case_bool_decide; cbn; apply distinct_sections_seen; set_solver.
  - destruct (pr_section q); [|by apply IH]. destruct (_ && _); by apply IH.
Qed.

(** Nothing without a section is left to insert. *)
Definition top_level_done (st : IniState) : Prop :=
  Forall (λ p, pr_section p = None → pr_insert_new p = true → pr_applied p = true) (is_pending st).

Lemma top_level_step st item : top_level_done st ∨ (is_section st = None ∧ item = SectionEnd) → top_level_done (ini_step newline st item).
Proof.
  unfold top_level_done. intros Hst.
  assert (item = SectionEnd ∨ Forall (λ p, pr_section p = None → pr_insert_new p = true → pr_applied p = true) (is_pending st)) as [->|H]
    by (destruct Hst as [|[_ ->]]; auto).
  - cbn. apply Forall_map, list.Forall_forall. intros p Hp Hs Hi. destruct (due (is_section st) p) eqn:Hd; [done|].
    destruct Hst as [Hst|[Hnone _]]; [rewrite list.Forall_forall in Hst; by apply Hst|].
    unfold due in Hd. rewrite Hi, Hs, Hnone, bool_decide_eq_true_2, !andb_true_r in Hd by done. by apply negb_false_iff in Hd.
  - destruct item as [|name raw|key val raw|raw]; cbn; try done.
    + apply Forall_map. eapply Forall_impl; [|exact H]. intros p. cbn. by destruct (due _ _).
    + destruct (take_match _ _ _) as [[p pending]|] eqn:Em; [|done]. apply take_match_spec in Em as (l1 & l2 & Hp & -> & _).
      cbn. rewrite Hp in H. apply Forall_app in H as [H1 [_ H2]%Forall_cons_iff]. apply Forall_app. split; [done|]. by constructor.
Qed.

Lemma ini_run_ok pending0 items st : ini_ok pending0 st → ini_ok pending0 (fold_left (ini_step newline) items st).
Proof. revert st. induction items as [|i items IH]; intros st Hst; [done|]. by apply IH, ini_step_ok. Qed.
Lemma ini_run_done items st : top_level_done st → top_level_done (fold_left (ini_step newline) items st).
Proof. revert st. induction items as [|i items IH]; intros st Hst; [done|]. apply IH, top_level_step. by left. Qed.
Lemma ini_run_no_section items st : is_section st = None → Forall (λ i, ∀ name raw, i ≠ Section_ name raw) items →
  is_section (fold_left (ini_step newline) items st) = None.
Proof.
  intros Hst Hi. revert st Hst. induction Hi as [|i items Hi _ IH]; intros st Hst; [done|]. apply IH.
  destruct i as [|name raw|key val raw|raw]; cbn; try done; [by destruct (Hi name raw)|]. by destruct (take_match _ _ _) as [[]|].
Qed.

Lemma same_lands p q out : set_applied p = set_applied q → lands p out → lands q out.
Proof. destruct p, q. by intros [= -> -> -> -> ->]. Qed.
End ini_laws.

(** The lines before the first section end, too. *)
Class IniRoundtripLaws `{IniRoundtrip} : Prop := {
  ini_items_top content : ∃ before after, ini_items content = before ++ SectionEnd :: after ∧
    Forall (λ i, ∀ name raw, i ≠ Section_ name raw) before;
}.

(** Every replacement lands.  Each replacement of an INI file that may be
    inserted is in the new file: as a property of its own, at the end of its
    section or in a new one, or in the place of a property of its section
    with its key, which is rewritten if it may be updated. *)
Theorem ini_replacements_land `{IniRoundtripLaws} replace_all content replacements p :
  p ∈ ini_pending replace_all replacements → pr_insert_new p = true →
  lands (if contains_crlf content then [CR; NEWLINE] else [NEWLINE]) p (process_ini replace_all content replacements).
Proof.
  intros Hp Hi. unfold process_ini. set (nl := if contains_crlf content then _ else _). set (st0 := mk_IniState _ _ _).
  set (st := fold_left _ (ini_items content) st0).
  assert (ini_ok nl (ini_pending replace_all replacements) st) as [Hsame Hl].
  { apply ini_run_ok. split; [done|]. unfold st0, ini_pending. cbn. apply Forall_map, list.Forall_forall. intros r _. by destruct (parse_ini_path _). }
  assert (top_level_done st) as Htop.
  { unfold st. destruct (ini_items_top content) as (before & after & -> & Hb). rewrite fold_left_app. cbn [fold_left].
    apply ini_run_done, top_level_step. right. split; [|done]. by apply ini_run_no_section. }
  assert (∃ q, q ∈ is_pending st ∧ set_applied q = set_applied p) as (q & Hq & Hqp).
  { apply (list_elem_of_fmap_2 set_applied) in Hp. change (set_applied <$> ini_pending replace_all replacements) with
      (map set_applied (ini_pending replace_all replacements)) in Hp. rewrite <-Hsame in Hp.
    apply list_elem_of_fmap in Hp as (q & Hq & Hin). by exists q. }
  apply (same_lands nl q); [done|]. assert (pr_insert_new q = true) as Hqi by (destruct p, q; by injection Hqp as -> -> -> -> ->).
  unfold top_level_done in Htop. rewrite list.Forall_forall in Hl, Htop. destruct (pr_applied q) eqn:Ha; [by apply new_sections_lands, Hl|].
  destruct (pr_section q) as [section|] eqn:Hs; [|by rewrite (Htop q) in Ha].
  pose proof (distinct_sections_elem [] _ q section Hq Ha Hqi Hs) as Hsec. apply list_elem_of_split in Hsec as (l1 & l2 & ->).
  rewrite fold_left_app. cbn [fold_left]. by apply new_sections_lands, new_section_lands.
Qed.

(** ** The files before a start (mod.rs) *)

Module ServerConfigurationFileParser.
Inductive ServerConfigurationFileParser : Type := File | Yaml | Properties | Ini | Json | Xml | Toml.
End ServerConfigurationFileParser.

Record ServerConfigurationFile : Type := mk_ServerConfigurationFile {
  cfg_file : text;
  cfg_create_new : bool;
  cfg_parser : ServerConfigurationFileParser.ServerConfigurationFileParser;
  cfg_replace : list ServerConfigurationFileReplacement;
}.

Section update.
Context {IR : IniRoundtrip} (replace_all : JsonValue → text).
(** The parsers of the formats that libraries know *)
Context (library_parser : ServerConfigurationFileParser.ServerConfigurationFileParser → text → list ServerConfigurationFileReplacement → ior text).

Definition process_file (config : ServerConfigurationFile) (content : text) : ior text :=
  match cfg_parser config with
  | ServerConfigurationFileParser.Properties => Ok (process_properties replace_all content (cfg_replace config))
  | ServerConfigurationFileParser.Ini => Ok (process_ini replace_all content (cfg_replace config))
  | ServerConfigurationFileParser.File => Ok (process_plain replace_all content (cfg_replace config))
  | parser => library_parser parser content (cfg_replace config)
  end.

(** The result of a program instead of its failure *)
Definition attempt {A} (m : FS A) : FS (ior A) := prog_bind _ _ (λ r, Done (Ok r)) m.

Definition READ_LIMIT : Z := 1024 * 1024.

Definition write_config (fs : CapFilesystem) (config : ServerConfigurationFile) (file_path : bytes) (file_content : text) : FS unit :=
  updated_content ← io_lift (process_file config file_content);
  async_write fs file_path (encode_text updated_content).

Definition update_file (fs : CapFilesystem) (config : ServerConfigurationFile) : FS unit :=
  let file_path := relative_path fs (encode_text (cfg_file config)) in
  _ ← match path_parent file_path with
      | Some parent => if negb (bool_decide (components parent = [])) then async_create_dir_all fs parent else mret tt
      | None => mret tt
      end;
  metadata ← attempt (async_metadata fs file_path);
  if match metadata with Ok metadata => raw_is_file (md_file_type metadata) | Err _ => false end then
    content ← attempt (async_read_to_string fs file_path READ_LIMIT);
    write_config fs config file_path (match content with Ok content => decode_text content | Err _ => [] end)
  else if negb (cfg_create_new config) then mret tt
  else write_config fs config file_path [].

Fixpoint update_files (fs : CapFilesystem) (configs : list ServerConfigurationFile) : FS unit :=
  match configs with
  | [] => mret tt
  | config :: configs => _ ← update_file fs config; update_files fs configs
  end.

(** *** Below the root of the server *)

Lemma all_calls_attempt {A} (P : ∀ X, FsE X → Prop) (m : FS A) : @all_calls FsE (ior A) P m → @all_calls FsE _ P (attempt m).
Proof. intros Hm. by apply all_calls_bind. Qed.

Lemma write_config_calls fs config path content : components (base_path fs) ≠ [] →
  @all_calls FsE _ (confined (base_path fs)) (write_config fs config path content).
Proof. intros Hb. unfold write_config, async_write, async_create, async_on_dir. cbv zeta. calls. Qed.

Lemma update_file_calls fs config : components (base_path fs) ≠ [] → @all_calls FsE _ (confined (base_path fs)) (update_file fs config).
Proof.
  intros Hb. unfold update_file. cbv zeta. apply all_calls_io_bind.
  - destruct (path_parent _); [|done]. destruct (negb _); [|done]. unfold async_create_dir_all, async_on_dir. cbv zeta. calls.
  - intros _. apply all_calls_io_bind; [apply all_calls_attempt; unfold async_metadata; cbv zeta; calls|]. intros metadata.
    destruct (match metadata with Ok _ => _ | Err _ => _ end).
    + apply all_calls_io_bind; [|intros content; by apply write_config_calls].
      apply all_calls_attempt. unfold async_read_to_string, async_read_to_vec, async_open, async_on_dir. cbv zeta. calls.
    + destruct (negb _); [done|]. by apply write_config_calls.
Qed.

(** Configuration files are confined.  Whatever paths the panel configures
    and whatever the operating system answers, every call the update makes
    stays below the root of the server. *)
Theorem update_files_confined fs configs : components (base_path fs) ≠ [] →
  @all_calls FsE _ (confined (base_path fs)) (update_files fs configs).
Proof.
  intros Hb. induction configs as [|config configs IH]; [done|]. cbn [update_files].
  apply all_calls_io_bind; [by apply update_file_calls|done].
Qed.
End update.

(** *** Whatever the operating system answers *)

(** What a start saw of a configured file: no regular file, one that could not be
    read, or the bytes it read of it and whether that was up to the end *)
Module Seen.
Inductive Seen : Type := NoFile | Unreadable | Holds (read : bytes) (ended : bool).
End Seen.
#[export] Instance Seen_eq_dec : EqDecision Seen.Seen.
Proof. solve_decision. Defined.

(** A file that was looked at, and what was stored in it *)
Record Entry : Type := mk_Entry { en_path : bytes; en_seen : Seen.Seen; en_stored : option bytes }.
(** The files so far, the latest first; the file that is open; the error of a call
    that could not make a directory or store a file *)
Record Start : Type := mk_Start { st_log : list Entry; st_file : option Z; st_failed : option io_error }.

Definition at_latest (f : Entry → Entry) (s : Start) : Start :=
  mk_Start (match st_log s with e :: log => f e :: log | [] => [] end) (st_file s) (st_failed s).
Definition saw (seen : Seen.Seen) : Start → Start := at_latest (λ e, mk_Entry (en_path e) seen (en_stored e)).
Definition more_read (d : bytes) (e : Entry) : Entry :=
  mk_Entry (en_path e)
    (match en_seen e with Seen.Holds read _ => Seen.Holds (read ++ d) (zlen d =? 0) | seen => seen end) (en_stored e).
Definition stored (data : bytes) (e : Entry) : Entry := mk_Entry (en_path e) (en_seen e) (Some data).
Definition opened (file : Z) (s : Start) : Start := mk_Start (st_log s) (Some file) (st_failed s).
Definition failing {A} (x : ior A) (s : Start) : Start :=
  match x with Ok _ => s | Err e => mk_Start (st_log s) (st_file s) (Some e) end.

Definition start_upd (X : Type) (e : FsE X) : X → Start → Start :=
  match e in FsE X return X → Start → Start with
  | DirMetadata _ path => λ x s,
      let seen := match x with Ok md => if raw_is_file (md_file_type md) then Seen.Unreadable else Seen.NoFile | Err _ => Seen.NoFile end in
      mk_Start (mk_Entry path seen None :: st_log s) (st_file s) (st_failed s)
  | DirOpen _ _ => λ x s, match x with Ok file => opened file (saw (Seen.Holds [] false) s) | Err _ => s end
  | FileRead _ _ => λ x s, match x with Ok d => at_latest (more_read d) s | Err _ => saw Seen.Unreadable s end
  | DirCreateDirAll _ _ => λ x s, failing x s
  | DirCreate _ _ => λ x s, failing x (match x with Ok file => opened file s | Err _ => s end)
  | FileWriteAll _ data => λ x s, failing x (match x with Ok _ => at_latest (stored data) s | Err _ => s end)
  | FileSyncAll _ => λ x s, failing x s
  | _ => λ _ s, s
  end.
(** A read gives no more than it was asked for; the file system stays open, and
    blocking tasks run. *)
Definition start_ok (X : Type) (e : FsE X) : X → Start → Prop :=
  match e in FsE X return X → Start → Prop with
  | FileRead _ n => λ x _, match x with Ok d => zlen d <= Z.max 0 n | Err _ => True end
  | LoadInner _ => λ x _, is_Some x
  | SpawnBlocking => λ x _, x = None
  | _ => λ _ _, True
  end.

Section stored.
Context {IR : IniRoundtrip} (replace_all : JsonValue → text).
Context (library_parser : ServerConfigurationFileParser.ServerConfigurationFileParser → text → list ServerConfigurationFileReplacement → ior text).
Abbreviation process_file := (process_file replace_all library_parser).
Abbreviation update_file := (update_file replace_all library_parser).
Abbreviation update_files := (update_files replace_all library_parser).

Context (fs : CapFilesystem) (Hbase : ∃ rest, components (base_path fs) = Component.RootDir :: rest).

Definition file_path (config : ServerConfigurationFile) : bytes := relative_path fs (encode_text (cfg_file config)).
(** It names something below the root of the server. *)
Definition on_file (config : ServerConfigurationFile) : Prop := components (file_path config) ≠ [].

(** The calls a start makes: directories above configured files are made, configured
    files looked at, and the file looked at last is read, created and written,
    once. *)
Definition start_may (configs : list ServerConfigurationFile) (X : Type) (e : FsE X) (s : Start) : Prop :=
  match e with
  | LoadInner _ | SpawnBlocking => True
  | DirCreateDirAll _ path => ∃ config parent, config ∈ configs ∧ path_parent (file_path config) = Some parent ∧ path = relative_path fs parent
  | DirMetadata _ path => ∃ config, config ∈ configs ∧ path = file_path config
  | DirOpen _ path | DirCreate _ path => ∃ seen log, st_log s = mk_Entry path seen None :: log
  | FileRead file _ | FileSyncAll file => st_file s = Some file
  | FileWriteAll file _ => st_file s = Some file ∧ ∃ e log, st_log s = e :: log ∧ en_stored e = None
  | _ => False
  end.

(** What a start takes for the content of a file: the first mebibyte of what it
    read, and nothing when that is not UTF-8, when the file could not be read, and
    when there is none *)
Definition content_seen (seen : Seen.Seen) : text :=
  match seen with
  | Seen.Holds read _ => let read := ztake READ_LIMIT read in if utf8_valid read then decode_text read else []
  | _ => []
  end.
(** Files are read to the end or to the limit. *)
Definition read_whole (seen : Seen.Seen) : Prop :=
  match seen with Seen.Holds read ended => ended = true ∨ READ_LIMIT <= zlen read | _ => True end.

(** What was seen and stored, in the order of the configuration, up to the first
    failure *)
Fixpoint updated (configs : list ServerConfigurationFile) (log : list Entry) (failed : option io_error) (r : ior unit) : Prop :=
  match configs with
  | [] => log = [] ∧ failed = None ∧ r = Ok tt
  | config :: configs =>
      (log = [] ∧ ∃ e, failed = Some e ∧ r = Err e) ∨
      ∃ seen stored log', log = mk_Entry (file_path config) seen stored :: log' ∧ read_whole seen ∧
        if bool_decide (seen = Seen.NoFile) && negb (cfg_create_new config) then stored = None ∧ updated configs log' failed r
        else match process_file config (content_seen seen) with
             | Err e => stored = None ∧ log' = [] ∧ failed = None ∧ r = Err e
             | Ok new =>
                 stored = Some (encode_text new) ∧ updated configs log' failed r ∨
                 (stored = None ∨ stored = Some (encode_text new)) ∧ log' = [] ∧ ∃ e, failed = Some e ∧ r = Err e
             end
  end.

Lemma relative_twice path : relative_path fs (relative_path fs path) = relative_path fs path.
Proof using Hbase.
  destruct Hbase as [rest Hrest]. destruct (relative_path_names fs path) as [-> Hn]; [by rewrite Hrest|]. by apply (relative_path_fixed _ rest).
Qed.

Section calls.
Context (configs : list ServerConfigurationFile).
Abbreviation cwp := (wp (start_may configs) start_ok start_upd).

Lemma get_inner_wp s Φ : (∀ dir, Φ (Ok dir) s) → cwp (get_inner fs) s Φ.
Proof using Type. intros H. apply wp_io_bind. split; [done|]. intros x [dir ->]. apply H. Qed.

Lemma spawn_wp {A} (task : FS A) s Φ : cwp task s Φ → cwp (spawn_blocking task) s Φ.
Proof using Type. intros H. apply wp_io_bind. split; [done|]. intros x ->. exact H. Qed.

Lemma ask_wp {A} (e : FsE (ior A)) s Φ : start_may configs _ e s →
  (∀ x, start_ok _ e x s → Φ x (start_upd _ e x s)) → cwp (ask e) s Φ.
Proof using Type. by split. Qed.

Lemma attempt_wp {A} (m : FS A) s Φ : cwp m s (λ r s, Φ (Ok r) s) → cwp (attempt m) s Φ.
Proof using Type. intros H. by apply wp_bind. Qed.

(** An operation on a path, on a file system that stays open *)
Lemma async_dir_wp {A} (op : Z → bytes → FsE (ior A)) path s Φ : relative_path fs path = path →
  (∀ dir, cwp (ask (op dir path)) s Φ) → cwp (async_on_dir fs path op) s Φ.
Proof using Type.
  intros Hp H. unfold async_on_dir. cbv zeta. rewrite Hp. apply wp_io_bind, get_inner_wp. intros dir. by apply spawn_wp.
Qed.

(** The loop that reads a file, to its end or to the limit *)
Lemma read_loop_wp limit fuel file path log failed content Φ :
  zlen content < limit → (Z.to_nat (limit - zlen content) < fuel)%nat →
  (∀ read ended, ended = true ∨ limit <= zlen read →
     Φ (Ok (ztake limit read)) (mk_Start (mk_Entry path (Seen.Holds read ended) None :: log) (Some file) failed)) →
  (∀ e, Φ (Err e) (mk_Start (mk_Entry path Seen.Unreadable None :: log) (Some file) failed)) →
  ∀ ended, cwp (read_to_vec_loop fuel file limit content) (mk_Start (mk_Entry path (Seen.Holds content ended) None :: log) (Some file) failed) Φ.
Proof using Type.
  intros Hlen Hfuel Hread Herr. revert content Hlen Hfuel. induction fuel as [|fuel IH]; intros content Hlen Hfuel ended; [lia|].
  cbn [read_to_vec_loop]. apply wp_io_bind. split; [done|]. intros [got|e] Hok; cbn [start_ok] in Hok; [|apply Herr].
  cbn [start_upd]. unfold at_latest, more_read. cbn [st_log en_path en_seen en_stored st_file st_failed wp].
  destruct (Z.eqb_spec (zlen got) 0) as [Hz|Hnz].
  { apply zlen_0_nil in Hz as ->. rewrite app_nil_r. cbn [wp mret FS_ret io_ret]. specialize (Hread content true ltac:(by left)).
    unfold ztake in *. rewrite take_ge in Hread by (unfold zlen in *; lia). exact Hread. }
  rewrite Z.max_r in Hok by (unfold BUFFER_SIZE; lia). destruct (Z.ltb_spec BUFFER_SIZE (zlen got)); [lia|]. pose proof (zlen_nonneg got).
  destruct (Z.leb_spec limit (zlen (content ++ got))) as [Hle|Hgt].
  - apply Hread. by right.
  - apply IH; [done|]. rewrite zlen_app in *. lia.
Qed.

Lemma read_to_string_wp path log file0 Φ : relative_path fs path = path →
  (∀ seen file, read_whole seen → seen ≠ Seen.NoFile → ∀ r, match r with Ok content => decode_text content | Err _ => [] end = content_seen seen →
     Φ r (mk_Start (mk_Entry path seen None :: log) file None)) →
  cwp (async_read_to_string fs path READ_LIMIT) (mk_Start (mk_Entry path Seen.Unreadable None :: log) file0 None) Φ.
Proof using Type.
  intros Hp H. unfold async_read_to_string, async_read_to_vec. cbv zeta. rewrite Hp. apply wp_io_bind, wp_io_bind.
  apply async_dir_wp; [done|]. intros dir. split; [by do 2 eexists|]. intros [file|e] _; [|by apply H].
  cbn [start_upd]. unfold saw, at_latest, opened. cbn [st_log en_path en_stored st_failed wp]. apply read_loop_wp.
  - change (zlen []) with 0. unfold READ_LIMIT. lia.
  - change (zlen []) with 0. unfold READ_LIMIT. lia.
  - intros read ended Hw. cbn [wp io_lift]. apply H; [done|done|]. cbn [content_seen]. by destruct (utf8_valid _).
  - intros e. by apply H.
Qed.

Lemma async_write_wp path data seen log file Φ : relative_path fs path = path →
  (∀ file, Φ (Ok tt) (mk_Start (mk_Entry path seen (Some data) :: log) file None)) →
  (∀ file st e, st = None ∨ st = Some data → Φ (Err e) (mk_Start (mk_Entry path seen st :: log) file (Some e))) →
  cwp (async_write fs path data) (mk_Start (mk_Entry path seen None :: log) file None) Φ.
Proof using Type.
  intros Hp Hok Herr. unfold async_write. cbv zeta. rewrite Hp. apply wp_io_bind. apply async_dir_wp; [done|]. intros dir.
  split; [by do 2 eexists|]. intros [f|e] _; [|apply Herr; by left]. cbn. split; [split; [done|]; by do 2 eexists|].
  intros [[]|e] _; [|apply Herr; by left]. cbn. split; [done|]. intros [[]|e] _; [apply Hok|apply Herr; by right].
Qed.

Lemma write_config_wp config seen content log file Φ : content = content_seen seen →
  match process_file config content with
  | Ok new => (∀ file, Φ (Ok tt) (mk_Start (mk_Entry (file_path config) seen (Some (encode_text new)) :: log) file None)) ∧
      ∀ file st e, st = None ∨ st = Some (encode_text new) → Φ (Err e) (mk_Start (mk_Entry (file_path config) seen st :: log) file (Some e))
  | Err e => Φ (Err e) (mk_Start (mk_Entry (file_path config) seen None :: log) file None)
  end →
  cwp (write_config replace_all library_parser fs config (file_path config) content) (mk_Start (mk_Entry (file_path config) seen None :: log) file None) Φ.
Proof using Hbase.
  intros _ H. unfold write_config. apply wp_io_bind. destruct (process_file config content) as [new|e]; [|exact H]. cbn [io_lift wp].
  destruct H as [Hok Herr]. by apply async_write_wp; [apply relative_twice|..].
Qed.

(** One file *)
Lemma update_file_wp config log file Φ : config ∈ configs → on_file config →
  (∀ file e, Φ (Err e) (mk_Start log file (Some e))) →
  (∀ seen file, read_whole seen →
     if bool_decide (seen = Seen.NoFile) && negb (cfg_create_new config)
     then Φ (Ok tt) (mk_Start (mk_Entry (file_path config) seen None :: log) file None)
     else match process_file config (content_seen seen) with
          | Ok new => (∀ file, Φ (Ok tt) (mk_Start (mk_Entry (file_path config) seen (Some (encode_text new)) :: log) file None)) ∧
              ∀ file st e, st = None ∨ st = Some (encode_text new) → Φ (Err e) (mk_Start (mk_Entry (file_path config) seen st :: log) file (Some e))
          | Err e => Φ (Err e) (mk_Start (mk_Entry (file_path config) seen None :: log) file None)
          end) →
  cwp (update_file fs config) (mk_Start log file None) Φ.
Proof using Hbase.
  intros Hin Hroot Hfail Hseen. unfold update_file. cbv zeta. fold (file_path config).
  assert (relative_path fs (file_path config) = file_path config) as Hp by apply relative_twice.
  assert (∀ file, cwp (metadata ← attempt (async_metadata fs (file_path config));
    if match metadata with Ok metadata => raw_is_file (md_file_type metadata) | Err _ => false end then
      content ← attempt (async_read_to_string fs (file_path config) READ_LIMIT);
      write_config replace_all library_parser fs config (file_path config) (match content with Ok content => decode_text content | Err _ => [] end)
    else if negb (cfg_create_new config) then mret tt
    else write_config replace_all library_parser fs config (file_path config) []) (mk_Start log file None) Φ) as Hrest.
  { clear file Hfail. intros file. apply wp_io_bind, attempt_wp. unfold async_metadata. cbv zeta. rewrite Hp. unfold is_root. rewrite bool_decide_eq_false_2 by done.
    apply wp_io_bind, get_inner_wp. intros dir. apply spawn_wp, ask_wp; [by exists config|]. intros md _. cbv beta iota delta [start_upd st_log st_file st_failed].
    destruct (match md with Ok md => raw_is_file (md_file_type md) | Err _ => false end) eqn:Hmd.
    - replace (match md with Ok md => if raw_is_file (md_file_type md) then Seen.Unreadable else Seen.NoFile | Err _ => Seen.NoFile end) with Seen.Unreadable by (destruct md; [by rewrite Hmd|done]).
      apply wp_io_bind, attempt_wp, read_to_string_wp; [done|]. intros seen file' Hw Hne r Hr. cbv beta iota. rewrite Hr. apply write_config_wp; [done|].
      specialize (Hseen seen file' Hw). rewrite bool_decide_eq_false_2 in Hseen by done. exact Hseen.
    - replace (match md with Ok md => if raw_is_file (md_file_type md) then Seen.Unreadable else Seen.NoFile | Err _ => Seen.NoFile end) with Seen.NoFile by (destruct md; [by rewrite Hmd|done]).
      specialize (Hseen Seen.NoFile file I). rewrite bool_decide_eq_true_2 in Hseen by done. cbn [andb] in Hseen.
      destruct (negb (cfg_create_new config)); [exact Hseen|]. by apply (write_config_wp config Seen.NoFile). }
  apply wp_io_bind. destruct (path_parent (file_path config)) as [parent|] eqn:Hparent; [|exact (Hrest file)].
  destruct (negb (bool_decide (components parent = []))); [|exact (Hrest file)].
  match goal with |- wp _ _ _ _ _ ?P => set (Ψ := P) end.
  assert (Ψ (Ok tt) (mk_Start log file None)) as Hok by exact (Hrest file).
  assert (∀ e, Ψ (Err e) (mk_Start log file (Some e))) as Herr by (intros e; exact (Hfail file e)).
  clearbody Ψ. clear Hrest Hfail Hseen. unfold async_create_dir_all, async_on_dir. cbv zeta. apply wp_io_bind, get_inner_wp. intros dir.
  apply spawn_wp, ask_wp; [by exists config, parent|]. intros [[]|e] _; [exact Hok|apply Herr].
Qed.
End calls.

(** C29. A start rewrites the configured files and no others.  It is run on a file
    system that stays open, below an absolute base path, with any configured
    files none of which is the root itself; the operating system may answer its
    calls in any way, with errors, too.  The only calls it makes create the
    directories above a configured file, look at a configured file, and read,
    create and write the file it looked at last, which is written once.  In the
    order of the configuration, up to the first failure, each file that is there
    or may be created is given what its parser makes of what was read of it.  What
    is read is everything, or the first mebibyte; it counts as nothing when that
    is not UTF-8 or the file could not be read.  The start fails exactly when a
    parser does, or a call that makes a directory or stores a file, with that
    error. *)
Theorem update_files_stored configs : Forall on_file configs →
  wp (start_may configs) start_ok start_upd (update_files fs configs) (mk_Start [] None None)
    (λ r s, updated configs (rev (st_log s)) (st_failed s) r).
Proof using Hbase.
  intros Hc. assert (∀ todo, incl todo configs → Forall on_file todo → ∀ log file Φ,
    (∀ new file failed r, updated todo new failed r → Φ r (mk_Start (rev new ++ log) file failed)) →
    wp (start_may configs) start_ok start_upd (update_files fs todo) (mk_Start log file None) Φ) as H.
  { clear Hc. intros todo Hincl Hc. induction Hc as [|config todo Hon _ IH]; intros log file Φ HΦ.
    { apply (HΦ [] file None). done. }
    cbn [ConfigFiles.update_files]. apply wp_io_bind. apply update_file_wp; [|done|..].
    - apply list_elem_of_In, Hincl. by left.
    - intros file' e. apply (HΦ [] file' (Some e)). left. split; [done|]. by exists e.
    - intros seen file' Hw. destruct (bool_decide (seen = Seen.NoFile) && negb (cfg_create_new config)) eqn:Hskip.
      + apply IH; [by intros x Hx; apply Hincl; right|]. intros new file2 failed r Hnew.
        specialize (HΦ (mk_Entry (file_path config) seen None :: new) file2 failed r). cbn [rev] in HΦ. rewrite <-app_assoc in HΦ.
        apply HΦ. right. exists seen, None, new. split; [done|]. split; [done|]. by rewrite Hskip.
      + destruct (process_file config (content_seen seen)) as [text|e] eqn:Hpf.
        * split.
          -- intros file2. apply IH; [by intros x Hx; apply Hincl; right|]. intros new file3 failed r Hnew.
             specialize (HΦ (mk_Entry (file_path config) seen (Some (encode_text text)) :: new) file3 failed r). cbn [rev] in HΦ.
             rewrite <-app_assoc in HΦ. apply HΦ. right. eexists seen, _, new. split; [done|]. split; [done|]. rewrite Hskip, Hpf. by left.
          -- intros file2 st e Hst. apply (HΦ [mk_Entry (file_path config) seen st] file2 (Some e)). right. eexists seen, st, [].
             split; [done|]. split; [done|]. rewrite Hskip, Hpf. right. split; [done|]. split; [done|]. by exists e.
        * apply (HΦ [mk_Entry (file_path config) seen None] file' None). right. eexists seen, None, [].
          split; [done|]. split; [done|]. by rewrite Hskip, Hpf. }
  apply (H configs (incl_refl _) Hc). intros new file failed r Hu. cbn [st_log st_failed]. by rewrite app_nil_r, rev_involutive.
Qed.
End stored.

(** *** A disk in memory, for examples *)

(** Its files are a map, with one file open for reading and one for writing. *)
Record MemOs : Type := mk_MemOs { mo_files : gmap bytes bytes; mo_read : bytes; mo_write : bytes }.
Definition plain_file (len : Z) : Metadata := mk_Metadata (mk_RawFileType true false false) len 420 0 0 0 None None.
Definition memory_os (X : Type) (e : FsE X) (w : MemOs) : X * MemOs :=
  match e in FsE X return X * MemOs with
  | LoadInner _ => (Some 0, w)
  | StoreInner _ _ => (tt, w)
  | SpawnBlocking => (None, w)
  | ReadDirNext _ => (None, w)
  | Now => (0, w)
  | DirCreateDirAll _ _ => (Ok tt, w)
  | DirMetadata _ path => (match mo_files w !! path with Some data => Ok (plain_file (zlen data)) | None => Err UnexpectedEof end, w)
  | DirOpen _ path =>
      match mo_files w !! path with
      | Some data => (Ok 0, mk_MemOs (mo_files w) data (mo_write w))
      | None => (Err UnexpectedEof, w)
      end
  | DirCreate _ path => (Ok 1, mk_MemOs (<[path := []]> (mo_files w)) (mo_read w) path)
  | FileRead _ n => (Ok (ztake n (mo_read w)), mk_MemOs (mo_files w) (zdrop n (mo_read w)) (mo_write w))
  | FileWriteAll _ data => (Ok tt, mk_MemOs (alter (λ old, old ++ data) (mo_write w) (mo_files w)) (mo_read w) (mo_write w))
  | FileSyncAll _ => (Ok tt, w)
  | _ => (Err UnexpectedEof, w)
  end.

(** ** Examples *)

Module ConfigExample.
(** A parser of INI files that knows sections and properties *)
Definition ini_item (line : text) : list IniItem :=
  match line with
  | 91 :: name => [SectionEnd; Section_ (removelast name) line]
  | _ => match split_once EQUALS line with Some (key, val) => [Property (trim key) (Some val) line] | None => [IniOther line] end
  end.
#[export] Instance ini_roundtrip : IniRoundtrip := {| ini_items content := concat (map ini_item (lines content)) ++ [SectionEnd] |}.
#[export] Instance ini_roundtrip_laws : IniRoundtripLaws.
Proof.
  split. intros content. unfold ini_items. cbn. induction (lines content) as [|line ls (before & after & IH & Hb)]; [by exists [], []|].
  cbn [map concat]. rewrite <-app_assoc, IH.
  assert ((∃ i, ini_item line = [i] ∧ ∀ name raw, i ≠ Section_ name raw) ∨ ∃ rest, ini_item line = SectionEnd :: rest) as [(i & -> & Hi)|(rest & ->)].
  { unfold ini_item. repeat case_match; eauto. }
  - exists (i :: before), after. split; [done|by constructor].
  - by exists [], (rest ++ before ++ SectionEnd :: after).
Qed.
Definition value (v : JsonValue) : text := match v with JsonString s => s | _ => [] end.
Definition set (key val : string) : ServerConfigurationFileReplacement :=
  mk_Replacement (chars key) None None true (JsonString (chars val)).
Definition no_library (p : ServerConfigurationFileParser.ServerConfigurationFileParser) (content : text)
    (replacements : list ServerConfigurationFileReplacement) : ior text := Err UnexpectedEof.
Definition line (s : string) : text := chars s ++ [NEWLINE].
Definition config : ServerConfigurationFile :=
  mk_ServerConfigurationFile (chars "/cfg/server.properties") true ServerConfigurationFileParser.Properties [set "port" "25565"].
Definition path : bytes := chars "cfg/server.properties".
Definition os (data : bytes) : MemOs := mk_MemOs {[path := data]} [] [].
End ConfigExample.
Import ConfigExample.

Example ini_processed :
  process_ini value (line "[a]" ++ line "x=1" ++ line "[b]" ++ line "x = 1") [set "b.x" "9"; set "a.z" "3"; set "c.y" "2"; set "g" "1"]
  = line "g=1" ++ line "[a]" ++ line "x=1" ++ line "z=3" ++ line "[b]" ++ line "x = 9" ++ line "" ++ line "[c]" ++ line "y=2".
Proof. vm_compute. reflexivity. Qed.

(** A section that comes twice: the key is inserted at the end of the first
    part although the second has it, with its old value. *)
Example ini_split_section :
  process_ini value (line "[a]" ++ line "x=1" ++ line "[b]" ++ line "[a]" ++ line "y=1") [set "a.y" "2"]
  = line "[a]" ++ line "x=1" ++ line "y=2" ++ line "[b]" ++ line "[a]" ++ line "y=1".
Proof. vm_compute. reflexivity. Qed.

Lemma ini_replacements_land_witness :
  lands [NEWLINE] (mk_Pending (Some (chars "a")) (chars "z") (chars "3") true true false)
    (process_ini value (line "[a]" ++ line "x=1") [set "a.z" "3"]).
Proof.
  refine (ini_replacements_land value (line "[a]" ++ line "x=1") [set "a.z" "3"] _ _ _); [|reflexivity]. left.
Defined.

Lemma update_files_confined_witness :
  @all_calls FsE _ (confined (chars "/srv")) (update_files value no_library (mk_CapFilesystem (chars "/srv") 0) [config]).
Proof. apply (update_files_confined value no_library (mk_CapFilesystem (chars "/srv") 0)). discriminate. Defined.

(** On the disk in memory *)
Lemma update_files_stored_witness :
  ∃ s, updated value no_library sample_fs [config] (rev (st_log s)) (st_failed s)
         (fst (run memory_os (update_files value no_library sample_fs [config]) (os (line "motd=hi")))).
Proof.
  destruct (wp_run (start_may sample_fs [config]) start_ok start_upd memory_os (λ _ _, True)
    (update_files value no_library sample_fs [config]) (os (line "motd=hi")) (mk_Start [] None None)
    (λ r s, updated value no_library sample_fs [config] (rev (st_log s)) (st_failed s) r)) as (s & _ & Hs).
  - intros X e w s _ _. split; [|done]. destruct e; cbn; try done. unfold ztake, zlen. rewrite length_take. lia.
  - done.
  - apply (update_files_stored value no_library sample_fs); [by eexists|]. repeat constructor. discriminate.
  - by exists s.
Defined.

Example configured_file_stored :
  (λ '(r, w), (r, mo_files w)) (run memory_os (update_files value no_library sample_fs [config]) (os (line "motd=hi"))) =
  (Ok tt, {[path := line "motd=hi" ++ line "port=25565"]}).
Proof. vm_compute. reflexivity. Qed.

(** A file that is not UTF-8 (here an [é] in Latin-1) loses everything but the
    configured values. *)
Example other_encodings_are_lost :
  (λ '(r, w), (r, mo_files w !! path))
    (run memory_os (update_files value no_library sample_fs [config]) (os (line "level=world" ++ chars "motd=" ++ [233; NEWLINE])))
  = (Ok tt, Some (line "port=25565")).
Proof. vm_compute. reflexivity. Qed.
