(* ===== verification/CapWalk.v ===== *)
(** * CapWalk: listing and walking directories (application/src/server/filesystem/cap/utils.rs)

    The readers of a listing, the read-ahead of the asynchronous one, and the
    depth-first walk, which both forms of [WalkDir] run over the stack of the
    listings they have open.  The walk is shown to visit exactly the entries of
    a tree, parents first, that the ignore function lets through. *)
From S2P Require Import Prelude IoModel Paths Utf8 Effects CapFs.

Local Notation "'Entry'" := ((FileType.FileType * bytes)%type).

Definition to_string_lossy (name : bytes) : bytes := from_utf8_lossy name.

(** An entry as its type, [Unknown] if it could not be told, and its name. *)
Definition read_entry (entry : DirEntry) : Entry :=
  (match de_file_type entry with Ok ft => FileType_from ft | Err _ => FileType.Unknown end,
   to_string_lossy (de_file_name entry)).
Definition read_answer (answer : option (ior DirEntry)) : option (ior Entry) :=
  match answer with
  | Some (Ok entry) => Some (Ok (read_entry entry))
  | Some (Err err) => Some (Err err)
  | None => None
  end.

Definition FSprog (A : Type) : Type := prog FsE A.
#[global] Instance FSprog_ret : MRet FSprog := prog_ret.
#[global] Instance FSprog_bind : MBind FSprog := λ A B, prog_bind A B.

(** ** [ReadDir] *)

Definition CapReadDir_next_entry (listing : Z) : FSprog (option (ior Entry)) :=
  answer ← call (ReadDirNext listing); mret (read_answer answer).
Definition StdReadDir_next_entry (listing : Z) : FSprog (option (ior Entry)) :=
  answer ← call (ReadDirNext listing); mret (read_answer answer).
Definition ReadDir_next_entry (self : ReadDir.ReadDir) : FSprog (option (ior Entry) * ReadDir.ReadDir) :=
  match self with
  | ReadDir.Cap listing => e ← CapReadDir_next_entry listing; mret (e, self)
  | ReadDir.Std listing => e ← StdReadDir_next_entry listing; mret (e, self)
  end.

(** ** [AsyncReadDir] *)

Fixpoint read_ahead (n : nat) (listing : Z) (buffer : list (ior Entry)) : FSprog (list (ior Entry)) :=
  match n with
  | O => mret buffer
  | S n =>
      answer ← call (ReadDirNext listing);
      match answer with
      | Some entry =>
          read_ahead n listing (buffer ++ [match entry with Ok e => Ok (read_entry e) | Err err => Err err end])
      | None => mret buffer
      end
  end.
Definition AsyncCapReadDir_next_entry (self : AsyncCapReadDir) : FSprog (option (ior Entry) * AsyncCapReadDir) :=
  match acrd_buffer self with
  | Some (e :: buffer) => mret (Some e, mk_AsyncCapReadDir (acrd_read_dir self) (Some buffer))
  | _ =>
      match acrd_read_dir self with
      | None => mret (None, self)
      | Some listing =>
          match acrd_buffer self with
          | None => mret (None, mk_AsyncCapReadDir None None)
          | Some buffer =>
              failed ← call SpawnBlocking;
              match failed with
              | Some _ => mret (None, mk_AsyncCapReadDir None None)
              | None =>
                  buffer ← read_ahead 128 listing buffer;
                  mret (match buffer with
                        | e :: buffer => (Some e, mk_AsyncCapReadDir (Some listing) (Some buffer))
                        | [] => (None, mk_AsyncCapReadDir (Some listing) (Some []))
                        end)
              end
          end
      end
  end.
Definition AsyncTokioReadDir_next_entry (listing : Z) : FSprog (option (ior Entry)) :=
  answer ← call (ReadDirNext listing); mret (read_answer answer).
Definition AsyncReadDir_next_entry (self : AsyncReadDir.AsyncReadDir) : FSprog (option (ior Entry) * AsyncReadDir.AsyncReadDir) :=
  match self with
  | AsyncReadDir.Cap read_dir =>
      '(e, read_dir) ← AsyncCapReadDir_next_entry read_dir; mret (e, AsyncReadDir.Cap read_dir)
  | AsyncReadDir.Tokio listing => e ← AsyncTokioReadDir_next_entry listing; mret (e, self)
  end.

Lemma run_fs_bind {A B W} (h : ∀ X, FsE X → W → X * W) (m : FSprog A) (f : A → FSprog B) w :
  run h (mbind (M := FSprog) f m) w = let '(a, w') := run h m w in run h (f a) w'.
Proof. apply run_bind. Qed.

(** ** The walk *)

Section walk.
(** The two walks have one code, over two kinds of listing. *)
Context {RD : Type} (next_entry : RD → FSprog (option (ior Entry) * RD)) (open_dir : CapFilesystem → bytes → FS RD).

(** The stack, the directory opened last first. *)
Record Walk : Type := mk_Walk {
  cap_filesystem : CapFilesystem;
  stack : list (bytes * RD);
  is_ignored : FileType.FileType → bytes → option bytes;
}.
Definition set_stack (st : list (bytes * RD)) (w : Walk) : Walk := mk_Walk (cap_filesystem w) st (is_ignored w).

Definition Walk_new (self : CapFilesystem) (path : bytes) : FS Walk :=
  read_dir ← open_dir self path;
  mret (mk_Walk self [(path, read_dir)] (λ _ path, Some path)).
Definition Walk_with_is_ignored (f : FileType.FileType → bytes → option bytes) (w : Walk) : Walk :=
  mk_Walk (cap_filesystem w) (stack w) f.

(** A turn of the loop reads an entry or closes a directory. *)
Fixpoint Walk_next_entry (fuel : nat) (self : Walk) : FSprog (option (ior Entry) * Walk) :=
  match fuel, stack self with
  | S fuel, (parent_path, read_dir) :: below =>
      '(entry, read_dir) ← next_entry read_dir;
      let self := set_stack ((parent_path, read_dir) :: below) self in
      match entry with
      | Some (Ok (file_type, name)) =>
          match is_ignored self file_type (path_join parent_path name) with
          | None => Walk_next_entry fuel self
          | Some full_path =>
              if is_dir file_type then
                dir ← open_dir (cap_filesystem self) full_path;
                match dir with
                | Ok dir => mret (Some (Ok (file_type, full_path)), set_stack ((full_path, dir) :: stack self) self)
                | Err err => mret (Some (Err err), self)
                end
              else mret (Some (Ok (file_type, full_path)), self)
          end
      | Some (Err err) => mret (Some (Err err), self)
      | None => Walk_next_entry fuel (set_stack below self)
      end
  | _, _ => mret (None, self)
  end.

(** The client's loop: [while let Some(entry) = walk.next_entry()]. *)
Fixpoint Walk_collect (fuel : nat) (self : Walk) : FSprog (list (ior Entry)) :=
  match fuel with
  | O => mret []
  | S n =>
      '(entry, self) ← Walk_next_entry fuel self;
      match entry with
      | Some entry => entries ← Walk_collect n self; mret (entry :: entries)
      | None => mret []
      end
  end.
End walk.
Arguments Walk _ : clear implicits.

Definition WalkDir : Type := Walk ReadDir.ReadDir.
Definition WalkDir_new : CapFilesystem → bytes → FS WalkDir := Walk_new read_dir.
Definition WalkDir_next_entry : nat → WalkDir → FSprog (option (ior Entry) * WalkDir) :=
  Walk_next_entry ReadDir_next_entry read_dir.
Definition AsyncWalkDir : Type := Walk AsyncReadDir.AsyncReadDir.
Definition AsyncWalkDir_new : CapFilesystem → bytes → FS AsyncWalkDir := Walk_new async_read_dir.
Definition AsyncWalkDir_next_entry : nat → AsyncWalkDir → FSprog (option (ior Entry) * AsyncWalkDir) :=
  Walk_next_entry AsyncReadDir_next_entry async_read_dir.

(** [CapFilesystem::walk_dir] and [async_walk_dir]. *)
Definition walk_dir (self : CapFilesystem) (path : bytes) : FS WalkDir := WalkDir_new self (relative_path self path).
Definition async_walk_dir (self : CapFilesystem) (path : bytes) : FS AsyncWalkDir :=
  AsyncWalkDir_new self (relative_path self path).

(** ** Trees of files *)

Inductive node : Type :=
  | Leaf (file_type : RawFileType)
  | Folder (entries : list (bytes * node)).

Section node_induction.
Context (P : node → Prop) (Hleaf : ∀ ft, P (Leaf ft)) (Hfolder : ∀ es, Forall (λ e, P (snd e)) es → P (Folder es)).
Fixpoint node_induction (n : node) : P n :=
  match n with
  | Leaf ft => Hleaf ft
  | Folder es => Hfolder es
      ((fix go es : Forall (λ e, P (snd e)) es :=
          match es with
          | [] => List.Forall_nil _
          | e :: es => List.Forall_cons _ _ _ (node_induction (snd e)) (go es)
          end) es)
  end.
End node_induction.

Definition raw_type (n : node) : RawFileType :=
  match n with Leaf ft => ft | Folder _ => mk_RawFileType false true false end.
Definition dir_entry (e : bytes * node) : DirEntry := mk_DirEntry (Ok (raw_type (snd e))) (fst e).

(** A tree a file system can hold: distinct names, and only folders are
    directories.  The names are well-formed text. *)
Fixpoint node_ok (n : node) : Prop :=
  match n with
  | Leaf ft => is_dir (FileType_from ft) = false
  | Folder es =>
      NoDup (fst <$> es) ∧
      (fix go es := match es with
                    | [] => True
                    | e :: es => name_ok (fst e) ∧ utf8_valid (fst e) = true ∧ node_ok (snd e) ∧ go es
                    end) es
  end.

Lemma node_ok_folder es : node_ok (Folder es) ↔
  NoDup (fst <$> es) ∧ Forall (λ e, name_ok (fst e) ∧ utf8_valid (fst e) = true ∧ node_ok (snd e)) es.
Proof.
  cbn. apply and_iff_compat_l. induction es as [| e es IH]; [by split |].
  rewrite Forall_cons_iff, <- IH. tauto.
Qed.

Fixpoint node_at (n : node) (names : list bytes) : option node :=
  match names with
  | [] => Some n
  | name :: names =>
      match n with
      | Folder es => match list_find (λ e, fst e = name) es with Some (_, e) => node_at (snd e) names | None => None end
      | Leaf _ => None
      end
  end.

Lemma node_at_app n names1 names2 : node_at n (names1 ++ names2) = node_at n names1 ≫= λ n, node_at n names2.
Proof.
  revert n. induction names1 as [| name names1 IH]; intros n; [done |]. cbn. destruct n as [ft | es]; [done |].
  destruct (list_find _ es) as [[i e] |]; [apply IH | done].
Qed.

Lemma node_at_child es e : node_ok (Folder es) → e ∈ es → node_at (Folder es) [fst e] = Some (snd e).
Proof.
  rewrite node_ok_folder. intros [Hnd _] He. cbn. destruct (list_find_elem_of (λ e', fst e' = fst e) es e) as [[i e'] Hf]; [done.. |].
  rewrite Hf. apply list_find_Some in Hf as (Hi & He' & _). f_equal. f_equal.
  apply list_elem_of_lookup in He as [j Hj]. assert (i = j) as ->; [| congruence].
  apply (NoDup_lookup (fst <$> es) i j (fst e)); [done | |]; rewrite list_lookup_fmap.
  - rewrite Hi. cbn. by rewrite He'.
  - by rewrite Hj.
Qed.

Lemma node_at_ok n names n' : node_ok n → node_at n names = Some n' → node_ok n'.
Proof.
  revert n. induction names as [| name names IH]; intros n Hn; cbn; [by intros [= <-] |].
  destruct n as [ft | es]; [done |]. destruct (list_find _ es) as [[i e] |] eqn:Hf; [| done]. apply IH.
  apply list_find_Some in Hf as (Hi & _). rewrite node_ok_folder in Hn. destruct Hn as [_ Hn].
  rewrite Forall_lookup in Hn. by apply (Hn i e).
Qed.

(** What a walk gives, parents first: the entries below [dir] whose types and
    paths [keep], and their own entries. *)
Section reference.
Context (keep : FileType.FileType → bytes → bool).

Fixpoint visit (path : bytes) (n : node) : list Entry :=
  let file_type := FileType_from (raw_type n) in
  if keep file_type path then
    (file_type, path) ::
      match n with
      | Folder es => concat (map (λ e, visit (path_join path (fst e)) (snd e)) es)
      | Leaf _ => []
      end
  else [].
Definition visit_all (dir : bytes) (es : list (bytes * node)) : list Entry :=
  concat (map (λ e, visit (path_join dir (fst e)) (snd e)) es).
End reference.

(** The turns of the loop a tree takes at most. *)
Fixpoint turns (n : node) : nat :=
  match n with
  | Leaf _ => 1
  | Folder es => 2 + list_sum (map (λ e, turns (snd e)) es)
  end.
Definition entries_turns (es : list (bytes * node)) : nat := list_sum (map (λ e, turns (snd e)) es).

Lemma turns_folder es : turns (Folder es) = S (S (entries_turns es)).
Proof. reflexivity. Qed.

Lemma entries_turns_cons e es : entries_turns (e :: es) = (turns (snd e) + entries_turns es)%nat.
Proof. reflexivity. Qed.

(** ** Walking a tree *)

Section walks.
Context {RD W : Type} (next_entry : RD → FSprog (option (ior Entry) * RD)) (open_dir : CapFilesystem → bytes → FS RD).
Context (h : ∀ X, FsE X → W → X * W) (self : CapFilesystem) (root : node).

(** The open listings, the last one first, and what is left in each. *)
Class Listings : Type := {
  owns : list (RD * list (bytes * node)) → W → Prop;
  owns_next : ∀ rd es rest w, owns ((rd, es) :: rest) w →
    ∃ rd' w', run h (next_entry rd) w =
      (match es with e :: _ => Some (Ok (FileType_from (raw_type (snd e)), to_string_lossy (fst e))) | [] => None end, rd', w') ∧
      owns ((rd', tail es) :: rest) w';
  owns_close : ∀ x rest w, owns (x :: rest) w → owns rest w;
  owns_open : ∀ names es rest w, owns rest w → Forall name_ok names → node_at root names = Some (Folder es) →
    ∃ rd w', run h (open_dir self (join_slash names)) w = (Ok rd, w') ∧ owns ((rd, es) :: rest) w';
}.
Context {HL : Listings} (Hroot : node_ok root).
Context (ignored : FileType.FileType → bytes → option bytes) (keep : FileType.FileType → bytes → bool).
Context (Hignored : ∀ ft path, ignored ft path = if keep ft path then Some path else None).

(** An open directory: its names, its listing, and what is left in it. *)
Local Notation "'open_at'" := ((list bytes * RD * list (bytes * node))%type).
Definition located (o : open_at) : Prop :=
  let '(names, _, es) := o in
  Forall name_ok names ∧ Forall (λ e, name_ok (fst e) ∧ utf8_valid (fst e) = true ∧
    node_at root (names ++ [fst e]) = Some (snd e)) es.
Definition walk_of (os : list open_at) : Walk RD :=
  mk_Walk self (map (λ o : open_at, (join_slash (fst (fst o)), snd (fst o))) os) ignored.
Definition held (os : list open_at) : list (RD * list (bytes * node)) := map (λ o : open_at, (snd (fst o), snd o)) os.
Definition future (os : list open_at) : list Entry :=
  concat (map (λ o : open_at, visit_all keep (join_slash (fst (fst o))) (snd o)) os).
Definition work (os : list open_at) : nat := list_sum (map (λ o : open_at, S (entries_turns (snd o))) os).

Lemma work_cons o os : work (o :: os) = (S (entries_turns (snd o)) + work os)%nat.
Proof. reflexivity. Qed.

Lemma located_folder names es rd : Forall name_ok names → node_at root names = Some (Folder es) → located (names, rd, es).
Proof.
  intros Hn Hat. split; [done |]. pose proof (node_at_ok _ _ _ Hroot Hat) as Hok. pose proof Hok as Hok'.
  rewrite node_ok_folder in Hok'. destruct Hok' as [_ Hes]. rewrite list.Forall_forall in Hes |- *. intros e He.
  destruct (Hes e He) as (? & ? & _). split; [done |]. split; [done |].
  rewrite node_at_app, Hat. by apply node_at_child.
Qed.

Lemma walk_next fuel : ∀ os w, Forall located os → owns (held os) w → (work os < fuel)%nat →
  ∃ os' w', run h (Walk_next_entry next_entry open_dir fuel (walk_of os)) w =
      (match future os with e :: _ => Some (Ok e) | [] => None end, walk_of os', w') ∧
    Forall located os' ∧ owns (held os') w' ∧ future os' = tail (future os) ∧ (work os' <= work os)%nat ∧
    (future os ≠ [] → (work os' < work os)%nat).
Proof.
  induction fuel as [| fuel IH]; intros os w Hloc Ho Hf; [lia |].
  destruct os as [| [[names rd] es] os].
  { exists [], w. split; [done |]. repeat split; try done; lia. }
  apply Forall_cons_iff in Hloc as [[Hn He] Hloc].
  destruct (owns_next rd es (held os) w Ho) as (rd' & w' & Hrun & Ho').
  unfold walk_of at 1. cbn [Walk_next_entry stack map fst snd]. rewrite run_fs_bind.  rewrite Hrun.
  destruct es as [| e es].
  { assert (work ((names, rd, []) :: os) = S (work os)) as Hwork by reflexivity. rewrite Hwork in Hf |- *.
    change (future ((names, rd, []) :: os)) with (future os).
    destruct (IH os w') as (os' & w2 & Hr & Hl2 & Ho2 & Hfu & Hw & Hw'); [done | by eapply owns_close | lia |].
    exists os', w2. split; [exact Hr |]. repeat split; try done; intros; [lia |].
    specialize (Hw' ltac:(done)). lia. }
  apply Forall_cons_iff in He as [(Hname & Hutf & Hat) He]. cbn [fst snd] in *.
  unfold to_string_lossy. rewrite from_utf8_lossy_valid by done. rewrite path_join_names by done.
  cbn [set_stack is_ignored]. rewrite Hignored.
  set (path := join_slash (names ++ [fst e])). set (ft := FileType_from (raw_type (snd e))).
  assert (located (names, rd', es)) as Hloc' by (split; done).
  assert (Forall name_ok (names ++ [fst e])) as Hn' by (apply Forall_app; split; [done | by constructor]).
  assert (future ((names, rd, e :: es) :: os) = visit keep path (snd e) ++ future ((names, rd', es) :: os)) as Hfut.
  { unfold future. cbn [map concat fst snd]. unfold visit_all. cbn [map concat]. rewrite path_join_names by done.
    by rewrite <- !app_assoc. }
  assert (work ((names, rd, e :: es) :: os) = turns (snd e) + work ((names, rd', es) :: os))%nat as Hwork.
  { rewrite !work_cons. cbn [snd]. rewrite entries_turns_cons. lia. }
  rewrite Hfut, Hwork. rewrite Hwork in Hf. destruct (keep ft path) eqn:Hk.
  - destruct (is_dir ft) eqn:Hd.
    + destruct (snd e) as [ft' | es2] eqn:Hse.
      { exfalso. pose proof (node_at_ok _ _ _ Hroot Hat) as Hok. cbn in Hok. subst ft. cbn [raw_type] in Hd.
        by rewrite Hok in Hd. }
      destruct (owns_open (names ++ [fst e]) es2 (held ((names, rd', es) :: os)) w' Ho' Hn' Hat) as (rd2 & w2 & Hr2 & Ho2).
      exists ((names ++ [fst e], rd2, es2) :: (names, rd', es) :: os), w2.
      rewrite run_fs_bind. fold path in Hr2. cbn [cap_filesystem set_stack]. rewrite Hr2. cbn [visit]. fold ft. rewrite Hk.
      split; [done |]. split; [constructor; [by apply (located_folder _ _ rd2) | by constructor] |].
      split; [done |]. split; [done |]. rewrite (work_cons (_, _, es2)), turns_folder. cbn [snd]. lia.
    + exists ((names, rd', es) :: os), w'. assert (visit keep path (snd e) = [(ft, path)]) as ->.
      { destruct (snd e) as [ft' | es2]; cbn [visit]; fold ft; [by rewrite Hk | done]. }
      split; [done |]. split; [by constructor |]. split; [done |]. split; [done |].
      assert (1 <= turns (snd e))%nat by (destruct (snd e); cbn; lia). lia.
  - assert (visit keep path (snd e) = []) as -> by (destruct (snd e); cbn [visit]; fold ft; by rewrite Hk).
    assert (1 <= turns (snd e))%nat by (destruct (snd e); cbn; lia).
    destruct (IH ((names, rd', es) :: os) w') as (os' & w2 & Hr & Hl2 & Ho2 & Hfu & Hw & Hw');
      [by constructor | done | lia |].
    exists os', w2. cbn [app]. split; [exact Hr |]. repeat split; try done; [lia |]. intros Hne. specialize (Hw' Hne). lia.
Qed.

(** Collecting the entries of a walk gives what is ahead of it. *)
Lemma walk_collect fuel : ∀ os w, Forall located os → owns (held os) w → (work os < fuel)%nat →
  fst (run h (Walk_collect next_entry open_dir fuel (walk_of os)) w) = map Ok (future os).
Proof.
  induction fuel as [| fuel IH]; intros os w Hloc Ho Hf; [lia |]. cbn [Walk_collect].
  destruct (walk_next (S fuel) os w Hloc Ho Hf) as (os' & w' & Hr & Hl' & Ho' & Hfu & Hw & Hw').
  rewrite run_fs_bind, Hr. destruct (future os) as [| e es] eqn:Hfo; [done |].
  specialize (Hw' ltac:(done)). rewrite run_fs_bind.
  pose proof (IH os' w' Hl' Ho' ltac:(lia)) as Hc. destruct (run h (Walk_collect _ _ _ _) w') as [es' w2].
  cbn in Hc |- *. by rewrite Hc, Hfu.
Qed.
End walks.

(** ** An operating system that serves a tree *)

Section tree_os.
Context (base : bytes) (root : node).

(** Its state: what is left in every listing that was opened. *)
Local Notation "'Listed'" := (list (list DirEntry)).

Definition path_names (p : bytes) : list bytes :=
  omap (λ c, match c with Component.Normal n => Some n | _ => None end) (components p).
Definition open_listing (found : option node) (w : Listed) : ior Z * Listed :=
  match found with
  | Some (Folder es) => (Ok (zlen w), w ++ [dir_entry <$> es])
  | _ => (Err (IoOther "not a directory"), w)
  end.
Definition tree_os (X : Type) (e : FsE X) (w : Listed) : X * Listed :=
  match e in FsE X return X * Listed with
  | LoadInner _ => (Some 0, w)
  | SpawnBlocking => (None, w)
  | DirReadDir _ p => open_listing (node_at root (path_names p)) w
  | AmbientReadDir p => open_listing (if decide (p = base) then Some root else None) w
  | ReadDirNext listing =>
      match w !! Z.to_nat listing with
      | Some (e :: es) => (Some (Ok e), <[Z.to_nat listing := es]> w)
      | _ => (None, w)
      end
  | StoreInner _ _ => (tt, w)
  | Now => (0, w)
  | _ => (Err (IoOther "not served"), w)
  end.

Lemma path_names_join names : Forall name_ok names → path_names (join_slash names) = names.
Proof.
  intros Hn. unfold path_names. rewrite components_join_slash by done. clear.
  induction names as [| n names IH]; [done |]. cbn. by rewrite IH.
Qed.

Definition got (e : bytes * node) : ior Entry := Ok (read_entry (dir_entry e)).

(** A listing is known by its handle and by what was read ahead of it. *)
Section held.
Context {RD : Type} (view : RD → option (Z * list (ior Entry))).

Definition has (rd : RD) (es : list (bytes * node)) (w : Listed) : Prop :=
  ∃ l es1 es2, view rd = Some (l, map got es1) ∧ es = es1 ++ es2 ∧ 0 <= l ∧ w !! Z.to_nat l = Some (dir_entry <$> es2).
Definition handle (x : RD * list (bytes * node)) : option nat := (λ v, Z.to_nat (fst v)) <$> view (fst x).
Definition holds (st : list (RD * list (bytes * node))) (w : Listed) : Prop :=
  NoDup (handle <$> st) ∧ Forall (λ x, has (fst x) (snd x) w) st.

Lemma holds_close x rest w : holds (x :: rest) w → holds rest w.
Proof. intros [Hd Hh]. apply list.NoDup_cons in Hd as [_ Hd]. by apply Forall_cons_iff in Hh as [_ Hh]. Qed.

Lemma holds_replace rd es rd' es' rest w w' k :
  holds ((rd, es) :: rest) w → handle (rd, es) = Some k → handle (rd', es') = Some k →
  (∀ j, j ≠ k → w' !! j = w !! j) → has rd' es' w' → holds ((rd', es') :: rest) w'.
Proof.
  intros [Hd Hh] Hk Hk' Hw Hhas. apply Forall_cons_iff in Hh as [_ Hh]. split; [by cbn; rewrite Hk', <- Hk |].
  constructor; [done |]. cbn in Hd. apply list.NoDup_cons in Hd as [Hn _]. rewrite list.Forall_forall in Hh |- *.
  intros [rd2 es2] Hin. destruct (Hh _ Hin) as (l & e1 & e2 & Hv & He & Hl & Hlk). exists l, e1, e2. repeat split; try done.
  rewrite Hw; [done |]. intros <-. apply Hn. rewrite Hk. apply list_elem_of_fmap. exists (rd2, es2). split; [| done].
  unfold handle. cbn in Hv |- *. by rewrite Hv.
Qed.

Lemma holds_open rd es rest w : holds rest w → view rd = Some (zlen w, []) →
  holds ((rd, es) :: rest) (w ++ [dir_entry <$> es]).
Proof.
  intros [Hd Hh] Hv. assert (∀ k x, x ∈ rest → handle x = Some k → (k < length w)%nat) as Hlt.
  { intros k [rd2 es2] Hin Hk. rewrite list.Forall_forall in Hh. destruct (Hh _ Hin) as (l & ? & ? & Hv2 & _ & _ & Hl).
    unfold handle in Hk. cbn in Hk, Hv2. rewrite Hv2 in Hk. injection Hk as <-. by apply lookup_lt_Some in Hl. }
  split.
  - cbn. apply list.NoDup_cons. split; [| done]. intros Hin. apply list_elem_of_fmap in Hin as (x & Hx & Hin).
    unfold handle at 1 in Hx. cbn in Hx. rewrite Hv in Hx. specialize (Hlt _ _ Hin (eq_sym Hx)). cbn in Hlt.
    unfold zlen in Hlt. lia.
  - constructor.
    + exists (zlen w), [], es. repeat split; [done | apply zlen_nonneg |]. unfold zlen. rewrite Nat2Z.id.
      by apply list_lookup_middle.
    + rewrite list.Forall_forall in Hh |- *. intros x Hin. destruct (Hh _ Hin) as (l & e1 & e2 & Hv2 & He & Hl & Hlk).
      exists l, e1, e2. repeat split; try done. by apply lookup_app_l_Some.
Qed.
End held.

Lemma run_next listing w e es : w !! Z.to_nat listing = Some (dir_entry <$> e :: es) →
  tree_os _ (ReadDirNext listing) w = (Some (Ok (dir_entry e)), <[Z.to_nat listing := dir_entry <$> es]> w).
Proof. intros H. cbn. by rewrite H. Qed.

Lemma run_next_end listing w : w !! Z.to_nat listing = Some (dir_entry <$> []) → tree_os _ (ReadDirNext listing) w = (None, w).
Proof. intros H. cbn. by rewrite H. Qed.

Context (cell : Z) (rest_of_base : list Component.Component).
Context (Hbase : components base = Component.RootDir :: rest_of_base).
Let self : CapFilesystem := mk_CapFilesystem base cell.

(** *** The blocking listing *)

Definition ReadDir_view (rd : ReadDir.ReadDir) : option (Z * list (ior Entry)) :=
  match rd with ReadDir.Cap l | ReadDir.Std l => Some (l, []) end.

Lemma ReadDir_next rd es rest w : holds ReadDir_view ((rd, es) :: rest) w →
  ∃ rd' w', run tree_os (ReadDir_next_entry rd) w =
    (match es with e :: _ => Some (got e) | [] => None end, rd', w') ∧ holds ReadDir_view ((rd', tail es) :: rest) w'.
Proof.
  intros Hh. pose proof Hh as [_ Hf]. apply Forall_cons_iff in Hf as [(l & e1 & e2 & Hv & He & Hl & Hlk) _].
  assert (e1 = []) as -> by (destruct rd; cbn in Hv; injection Hv as _ Hv; by destruct e1).
  cbn [fst snd app] in *. subst e2.
  assert (run tree_os (ReadDir_next_entry rd) w =
    (read_answer (fst (tree_os _ (ReadDirNext l) w)), rd, snd (tree_os _ (ReadDirNext l) w))) as ->.
  { destruct rd; cbn in Hv; injection Hv as ->; cbn; by destruct (w !! Z.to_nat l) as [[|] |]. }
  destruct es as [| e es].
  - rewrite run_next_end by done. exists rd, w. split; [done |]. exact Hh.
  - rewrite (run_next _ _ _ _ Hlk). exists rd, (<[Z.to_nat l := dir_entry <$> es]> w). split; [done |].
    apply (holds_replace _ rd (e :: es) rd es rest w _ (Z.to_nat l)); try done.
    + unfold handle. cbn in *. by rewrite Hv.
    + unfold handle. cbn in *. by rewrite Hv.
    + intros j Hj. by rewrite list_lookup_insert_ne.
    + exists l, [], es. repeat split; try done. apply list_lookup_insert_eq. by apply lookup_lt_Some in Hlk.
Qed.

Lemma read_dir_opens names es rest w : holds ReadDir_view rest w → Forall name_ok names →
  node_at root names = Some (Folder es) →
  ∃ rd w', run tree_os (read_dir self (join_slash names)) w = (Ok rd, w') ∧ holds ReadDir_view ((rd, es) :: rest) w'.
Proof.
  intros Hh Hn Hat. unfold read_dir. rewrite (relative_path_fixed self rest_of_base) by done. unfold is_root.
  rewrite components_join_slash by done. destruct names as [| n names].
  - exists (ReadDir.Std (zlen w)), (w ++ [dir_entry <$> es]). injection Hat as Hroot. split; [| by apply holds_open].
    rewrite bool_decide_eq_true_2 by done. cbn -[decide node_at]. rewrite decide_True by done. by rewrite Hroot.
  - exists (ReadDir.Cap (zlen w)), (w ++ [dir_entry <$> es]). split; [| by apply holds_open].
    cbn -[join_slash node_at]. rewrite path_names_join, Hat by done. reflexivity.
Qed.

#[export, refine] Instance ReadDir_listings : Listings ReadDir_next_entry read_dir tree_os self root :=
  {| owns := holds ReadDir_view |}.
Proof.
  - intros rd es rest w Hh. destruct (ReadDir_next rd es rest w Hh) as (rd' & w' & Hr & Hh'). exists rd', w'.
    split; [| done]. rewrite Hr. by destruct es.
  - apply holds_close.
  - intros. by eapply read_dir_opens.
Defined.

(** *** The asynchronous listing, which reads ahead *)

Definition AsyncReadDir_view (rd : AsyncReadDir.AsyncReadDir) : option (Z * list (ior Entry)) :=
  match rd with
  | AsyncReadDir.Cap (mk_AsyncCapReadDir (Some l) (Some buffer)) => Some (l, buffer)
  | AsyncReadDir.Cap _ => None
  | AsyncReadDir.Tokio l => Some (l, [])
  end.

Lemma run_read_ahead n listing : ∀ es buffer w, w !! Z.to_nat listing = Some (dir_entry <$> es) →
  run tree_os (read_ahead n listing buffer) w =
    (buffer ++ map got (take n es), <[Z.to_nat listing := dir_entry <$> drop n es]> w).
Proof.
  induction n as [| n IH]; intros es buffer w Hw.
  - cbn. by rewrite app_nil_r, list_insert_id.
  - cbn [read_ahead]. rewrite run_fs_bind. destruct es as [| e es].
    + cbn [run call]. rewrite run_next_end by done. cbn. by rewrite app_nil_r, list_insert_id.
    + cbn [run call]. rewrite (run_next _ _ _ _ Hw). cbn [run]. rewrite (IH es).
      * cbn [take drop map]. rewrite <- app_assoc. by rewrite list_insert_insert_eq.
      * apply list_lookup_insert_eq. by apply lookup_lt_Some in Hw.
Qed.

Lemma AsyncReadDir_next rd es rest w : holds AsyncReadDir_view ((rd, es) :: rest) w →
  ∃ rd' w', run tree_os (AsyncReadDir_next_entry rd) w =
    (match es with e :: _ => Some (got e) | [] => None end, rd', w') ∧ holds AsyncReadDir_view ((rd', tail es) :: rest) w'.
Proof.
  intros Hh. pose proof Hh as [_ Hf]. apply Forall_cons_iff in Hf as [(l & e1 & e2 & Hv & He & Hl & Hlk) _].
  cbn [fst snd] in *. destruct rd as [[[l' |] [buffer |]] | l']; cbn in Hv; try done.
  - injection Hv as -> ->. destruct e1 as [| e e1].
    + cbn [app] in He. subst e2. pose proof (run_read_ahead 128 l es [] w Hlk) as Hr. cbn [app] in Hr.
      eexists (AsyncReadDir.Cap (mk_AsyncCapReadDir (Some l) (Some (tail (map got (take 128 es)))))), _. split.
      * cbn [AsyncReadDir_next_entry AsyncCapReadDir_next_entry acrd_buffer acrd_read_dir map].
        rewrite run_fs_bind, run_fs_bind. cbn [run call tree_os]. rewrite run_fs_bind, Hr. by destruct es.
      * apply (holds_replace _ _ es _ (tail es) rest w _ (Z.to_nat l) Hh); [done | done | |].
        -- intros j Hj. by rewrite list_lookup_insert_ne.
        -- exists l, (tail (take 128 es)), (drop 128 es). split; [cbn; do 3 f_equal; by destruct es |].
           split; [destruct es as [| e es]; [done |]; cbn [tail take drop]; by rewrite take_drop |].
           split; [done |]. apply list_lookup_insert_eq. by apply lookup_lt_Some in Hlk.
    + cbn [app] in He. subst es. eexists (AsyncReadDir.Cap (mk_AsyncCapReadDir (Some l) (Some (map got e1)))), w.
      split; [done |]. apply (holds_replace _ _ (e :: e1 ++ e2) _ _ rest w _ (Z.to_nat l) Hh); try done.
      by exists l, e1, e2.
  - injection Hv as -> Hm. destruct e1; [| done]. cbn [app] in He. subst e2.
    destruct es as [| e es].
    + exists (AsyncReadDir.Tokio l), w. split; [| done].
      cbn [AsyncReadDir_next_entry]. unfold AsyncTokioReadDir_next_entry. rewrite !run_fs_bind. cbn [run call].
      by rewrite run_next_end.
    + exists (AsyncReadDir.Tokio l), (<[Z.to_nat l := dir_entry <$> es]> w). split.
      * cbn [AsyncReadDir_next_entry]. unfold AsyncTokioReadDir_next_entry. rewrite !run_fs_bind. cbn [run call].
        by rewrite (run_next _ _ _ _ Hlk).
      * apply (holds_replace _ _ (e :: es) _ _ rest w _ (Z.to_nat l) Hh); [done | done | |].
        -- intros j Hj. by rewrite list_lookup_insert_ne.
        -- exists l, [], es. repeat split; try done. apply list_lookup_insert_eq. by apply lookup_lt_Some in Hlk.
Qed.

Lemma async_read_dir_opens names es rest w : holds AsyncReadDir_view rest w → Forall name_ok names →
  node_at root names = Some (Folder es) →
  ∃ rd w', run tree_os (async_read_dir self (join_slash names)) w = (Ok rd, w') ∧
    holds AsyncReadDir_view ((rd, es) :: rest) w'.
Proof.
  intros Hh Hn Hat. unfold async_read_dir. rewrite (relative_path_fixed self rest_of_base) by done. unfold is_root.
  rewrite components_join_slash by done. destruct names as [| n names].
  - exists (AsyncReadDir.Tokio (zlen w)), (w ++ [dir_entry <$> es]). injection Hat as Hroot.
    split; [| by apply holds_open]. rewrite bool_decide_eq_true_2 by done. cbn -[decide node_at].
    rewrite decide_True by done. by rewrite Hroot.
  - exists (AsyncReadDir.Cap (mk_AsyncCapReadDir (Some (zlen w)) (Some []))), (w ++ [dir_entry <$> es]).
    split; [| by apply holds_open]. cbn -[join_slash node_at]. rewrite path_names_join, Hat by done. reflexivity.
Qed.

#[export, refine] Instance AsyncReadDir_listings : Listings AsyncReadDir_next_entry async_read_dir tree_os self root :=
  {| owns := holds AsyncReadDir_view |}.
Proof.
  - intros rd es rest w Hh. destruct (AsyncReadDir_next rd es rest w Hh) as (rd' & w' & Hr & Hh'). exists rd', w'.
    split; [| done]. rewrite Hr. by destruct es.
  - apply holds_close.
  - intros. by eapply async_read_dir_opens.
Defined.

(** *** Whole walks *)

Context (Hroot : node_ok root) (keep : FileType.FileType → bytes → bool).
Definition keeping (ft : FileType.FileType) (path : bytes) : option bytes := if keep ft path then Some path else None.

(** [walk_dir(path)?.with_is_ignored(..)], walked to its end. *)
Definition walk_all {RD} (next_entry : RD → FSprog (option (ior Entry) * RD)) (open_dir : CapFilesystem → bytes → FS RD)
    (fuel : nat) (self : CapFilesystem) (path : bytes) : FS (list (ior Entry)) :=
  walk ← Walk_new open_dir self (relative_path self path);
  prog_bind _ _ (λ l, Done (Ok l)) (Walk_collect next_entry open_dir fuel (Walk_with_is_ignored keeping walk)).

Lemma whole_walk {RD} (next_entry : RD → FSprog (option (ior Entry) * RD)) (open_dir : CapFilesystem → bytes → FS RD)
    (HL : Listings next_entry open_dir tree_os self root) (path : bytes) (es : list (bytes * node)) (fuel : nat) w :
  owns _ _ _ _ _ [] w → node_at root (client_names base path) = Some (Folder es) → (S (entries_turns es) < fuel)%nat →
  fst (run tree_os (walk_all next_entry open_dir fuel self path) w) =
    Ok (map Ok (visit_all keep (relative_path self path) es)).
Proof.
  intros Ho Hat Hf. destruct (relative_path_names self path) as [Hp Hn]; [cbn; by rewrite Hbase |].
  change (base_path self) with base in *.
  destruct (owns_open _ _ _ _ _ (client_names base path) es [] w Ho Hn Hat) as (rd & w' & Hr & Ho').
  unfold walk_all, Walk_new. rewrite Hp. unfold mbind, FS_bind, io_bind. rewrite !run_bind, Hr. cbn [run mret FS_ret io_ret].
  rewrite run_bind.
  pose proof (walk_collect next_entry open_dir tree_os self root Hroot keeping keep ltac:(done) fuel
    [(client_names base path, rd, es)] w') as Hc.
  unfold walk_of in Hc. cbn [map fst snd] in Hc. unfold Walk_with_is_ignored. cbn [cap_filesystem stack].
  destruct (run tree_os _ w') as [l w2]. cbn [run fst] in Hc |- *. f_equal. rewrite Hc.
  - unfold future. cbn [map concat fst snd]. by rewrite app_nil_r.
  - constructor; [| constructor]. by eapply located_folder.
  - exact Ho'.
  - rewrite work_cons. cbn [snd]. change (work []) with 0%nat. lia.
Qed.
End tree_os.

(** ** Properties *)

(** Walking a directory.  On a tree that does not change, both [walk_dir]
    and [async_walk_dir], which reads 128 entries ahead, give every entry below
    the directory once, a folder before what it contains, in the order of the
    listings, leaving out the entries the ignore function drops and all that is
    below them; and they end, with a turn for every entry and two for every
    folder. *)
Theorem walks_visit_tree (base : bytes) (cell : Z) (root : node) (path : bytes) (es : list (bytes * node))
    (keep : FileType.FileType → bytes → bool) (fuel : nat)
    (Hbase : ∃ rest, components base = Component.RootDir :: rest) (Hroot : node_ok root)
    (Hpath : node_at root (client_names base path) = Some (Folder es)) (Hfuel : (S (entries_turns es) < fuel)%nat) :
  let fs := mk_CapFilesystem base cell in
  fst (run (tree_os base root) (walk_all keep ReadDir_next_entry read_dir fuel fs path) []) =
    Ok (map Ok (visit_all keep (relative_path fs path) es)) ∧
  fst (run (tree_os base root) (walk_all keep AsyncReadDir_next_entry async_read_dir fuel fs path) []) =
    Ok (map Ok (visit_all keep (relative_path fs path) es)).
Proof.
  destruct Hbase as [rest Hbase]. cbv zeta. split.
  - apply (whole_walk base root cell rest Hbase Hroot keep _ _ (ReadDir_listings base root cell rest Hbase)); [| done..].
    by repeat constructor.
  - apply (whole_walk base root cell rest Hbase Hroot keep _ _ (AsyncReadDir_listings base root cell rest Hbase)); [| done..].
    by repeat constructor.
Qed.

Definition sample_file : node := Leaf (mk_RawFileType true false false).
Definition sample_root : node :=
  Folder [([97], Folder [([120], sample_file); ([121], sample_file)]); ([98], sample_file)].

Lemma walks_visit_tree_witness :
  fst (run (tree_os [47; 115] sample_root)
    (walk_all (λ _ p, bool_decide (p ≠ [97; 47; 120])) AsyncReadDir_next_entry async_read_dir 9
       (mk_CapFilesystem [47; 115] 0) [47]) []) =
  Ok [Ok (FileType.Dir, [97]); Ok (FileType.File, [97; 47; 121]); Ok (FileType.File, [98])].
Proof.
  refine (eq_trans (proj2 (walks_visit_tree [47; 115] 0 sample_root [47]
    [([97], Folder [([120], sample_file); ([121], sample_file)]); ([98], sample_file)] _ 9 _ _ _ _)) _).
  - by eexists.
  - cbn. repeat match goal with |- _ ∧ _ => split end;
      first [reflexivity | exact I | apply (bool_decide_unpack _); vm_compute; exact I].
  - reflexivity.
  - cbn. lia.
  - vm_compute. reflexivity.
Defined.
