(* ===== verification/Quota.v ===== *)
(** * Quota: counters, and copying under a quota (application/src/server/filesystem, io/mod.rs)

    The calls that operations on a server's files make to the sandbox, to the
    counters and to open files ([QuotaE]; [None] is the answer of a polled call
    that is pending), as the interface that [ServerFile], [AsyncServerFile] and
    [FsOps] are programs over too; and the copy of a file between servers
    ([quota_copy]), which charges the quota while it goes on. *)
From S2P Require Import Prelude IoModel Paths DiskUsage Effects CapFs.

Module CopyError.
(** The kinds [copy_file_range] fails with that the code tells apart. *)
Inductive CopyError : Type :=
  | Interrupted
  | CrossesDevices
  | Unsupported
  | Other (err : io_error).
End CopyError.

Inductive QuotaE : Type → Type :=
  | OnFs {X : Type} (e : FsE X) : QuotaE X
  | UpdateAtomics (delta : SpaceDelta) (ignorant : bool) : QuotaE bool
  | UpdateSize (path : bytes) (delta : Z) : QuotaE unit
  | UpdateSizeIterator (path : list bytes) (delta : Z) : QuotaE unit
  | RemoveUsage (path : bytes) : QuotaE (option DiskUsage)
  | AddDirectory (path : list bytes) (dir : DiskUsage) : QuotaE unit
  | PollUsageLock : QuotaE bool
  | CopyFileRange (from to : Z) (n : Z) : QuotaE (result CopyError.CopyError Z)
  | FileWrite (file : Z) (data : bytes) : QuotaE (ior Z)
  | FileSeek (file : Z) (position : Z) : QuotaE (ior Z)
  | FileFlush (file : Z) : QuotaE (ior unit)
  | FileSetModified (file : Z) (time : Z) : QuotaE (ior unit)
  | FilePollWrite (file : Z) (data : bytes) : QuotaE (option (ior Z))
  | FilePollFlush (file : Z) : QuotaE (option (ior unit))
  | FilePollShutdown (file : Z) : QuotaE (option (ior unit))
  | FileStartSeek (file : Z) (position : Z) : QuotaE (ior unit)
  | FilePollComplete (file : Z) : QuotaE (option (ior Z))
  | FilePollRead (file : Z) (n : Z) : QuotaE (option (ior bytes))
  | GetUsage (path : bytes) : QuotaE (option UsedSpace)
  | MimeGet (ino dev modified : Z) : QuotaE (option (string * bool * bool))
  | MimeInsert (ino dev modified : Z) (mime : string * bool * bool) : QuotaE unit
  | IsAborted : QuotaE bool
  | AddProgress (n : Z) : QuotaE unit
  | OutOfFuel : QuotaE unit.

Definition Q (A : Type) : Type := io QuotaE A.
#[global] Instance Q_ret : MRet Q := io_ret.
#[global] Instance Q_bind : MBind Q := λ A B, io_bind A B.

Definition qask {A} (e : QuotaE (ior A)) : Q A := call e.
Definition qcall {A} (e : QuotaE A) : Q A := Vis e (λ x, Done (Ok x)).
(** A program of the sandbox. *)
Fixpoint on_fs {A} (m : prog FsE A) : prog QuotaE A :=
  match m with
  | Done a => Done a
  | Vis e k => Vis (OnFs e) (λ x, on_fs (k x))
  end.
(** [.ok()] *)
Definition attempt {A} (m : Q A) : Q (option A) := prog_bind _ _ (λ r, Done (Ok (result_ok r))) m.

(** ** The counters *)

(** [Filesystem::allocate_in_path] and its iterator form. *)
Definition allocate_in_path (path : bytes) (delta : Z) (ignorant : bool) : Q bool :=
  granted ← qcall (UpdateAtomics (SpaceDelta_from delta) ignorant);
  if negb granted then mret false else
  _ ← qcall (UpdateSize path delta);
  mret true.
Definition allocate_in_path_iterator (path : list bytes) (delta : Z) (ignorant : bool) : Q bool :=
  granted ← qcall (UpdateAtomics (SpaceDelta_from delta) ignorant);
  if negb granted then mret false else
  _ ← qcall (UpdateSizeIterator path delta);
  mret true.

(** The counters themselves; [disk_limit] is an [i64], zero for no limit. *)
Record Counters : Type := mk_Counters {
  disk_limit : Z;
  cached_logical : Z;
  cached_physical : Z;
  delta_cached : Z;
  disk_usage : DiskUsage;
}.
Definition set_cached_logical (z : Z) (c : Counters) : Counters :=
  mk_Counters (disk_limit c) z (cached_physical c) (delta_cached c) (disk_usage c).
Definition set_cached_physical (z : Z) (c : Counters) : Counters :=
  mk_Counters (disk_limit c) (cached_logical c) z (delta_cached c) (disk_usage c).
Definition add_delta_cached (z : Z) (c : Counters) : Counters :=
  mk_Counters (disk_limit c) (cached_logical c) (cached_physical c) (as_i64 (delta_cached c + z)) (disk_usage c).
Definition set_usage (u : DiskUsage) (c : Counters) : Counters :=
  mk_Counters (disk_limit c) (cached_logical c) (cached_physical c) (delta_cached c) u.

Definition update_physical (delta : Z) (ignorant : bool) (c : Counters) : option Counters :=
  if 0 <? delta then
    if negb ignorant && negb (disk_limit c =? 0) then
      let limit := wrap64 (disk_limit c) in
      if limit <? cached_physical c +u delta then None
      else Some (set_cached_physical (cached_physical c +u delta) c)
    else Some (set_cached_physical (cached_physical c +u delta) c)
  else if delta <? 0 then Some (set_cached_physical (saturating_sub (cached_physical c) (- delta)) c)
  else Some c.
Definition update_logical (delta : Z) (c : Counters) : Counters :=
  if 0 <? delta then set_cached_logical (cached_logical c +u delta) c
  else if delta <? 0 then set_cached_logical (saturating_sub (cached_logical c) (- delta)) c
  else c.
Definition try_update_atomics (delta : SpaceDelta) (ignorant : bool) (c : Counters) : bool * Counters :=
  if (sd_logical delta =? 0) && (sd_physical delta =? 0) then (true, c) else
  match update_physical (sd_physical delta) ignorant c with
  | None => (false, c)
  | Some c => (true, add_delta_cached (sd_logical delta) (update_logical (sd_logical delta) c))
  end.

(** ** [io::copy_file_progress] *)

(** Not a call of the program: the fuel of a loop has run out. *)
Definition out_of_fuel {A} : Q A := Vis OutOfFuel (λ _, Done (Err (IoOther "out of fuel"))).

(** [SafeWriteExt::safe_write_all] of the first [start_bytes] bytes. *)
Definition safe_write_all (file : Z) (buf : bytes) (start_bytes : Z) : Q unit :=
  if zlen buf <? start_bytes then io_throw (InvalidInput "start_bytes exceeds buffer length")
  else qask (OnFs (FileWriteAll file (ztake start_bytes buf))).

Fixpoint read_uninterrupted (fuel : nat) (file n : Z) : Q bytes :=
  match fuel with
  | O => out_of_fuel
  | S fuel =>
      got ← qcall (OnFs (FileRead file n));
      match got with
      | Ok d => mret d
      | Err Interrupted => read_uninterrupted fuel file n
      | Err err => io_throw err
      end
  end.

Section copy.
(** The closure [progress], with the state it captures. *)
Context {P : Type} (progress : Z → P → Q P) (reader writer : Z).

(** The loop over a buffer, used where the kernel cannot copy. *)
Fixpoint copy_buffered (fuel : nat) (total_copied : Z) (p : P) : Q (Z * P) :=
  match fuel with
  | O => out_of_fuel
  | S fuel =>
      aborted ← qcall IsAborted;
      if (aborted : bool) then io_throw (IoOther "Operation aborted") else
      buffer ← read_uninterrupted fuel reader BUFFER_SIZE;
      if zlen buffer =? 0 then mret (total_copied, p) else
      _ ← safe_write_all writer buffer (zlen buffer);
      p ← progress (zlen buffer) p;
      copy_buffered fuel (total_copied +u zlen buffer) p
  end.
Fixpoint copy_file_progress (fuel : nat) (total_copied : Z) (p : P) : Q (Z * P) :=
  match fuel with
  | O => out_of_fuel
  | S fuel =>
      aborted ← qcall IsAborted;
      if (aborted : bool) then io_throw (IoOther "Operation aborted") else
      copied ← qcall (CopyFileRange reader writer BUFFER_SIZE);
      match copied with
      | Ok n =>
          if n =? 0 then mret (total_copied, p) else
          p ← progress n p;
          copy_file_progress fuel (total_copied +u n) p
      | Err CopyError.Interrupted => copy_file_progress fuel total_copied p
      | Err CopyError.CrossesDevices | Err CopyError.Unsupported => copy_buffered fuel total_copied p
      | Err (CopyError.Other err) => io_throw err
      end
  end.
End copy.

(** ** [CapFilesystem::quota_copy] *)

Definition ALLOCATION_THRESHOLD : Z := 1024 * 1024.

Definition quota_progress (progress : bool) (destination_parent : bytes) (bytes_read cached_allocation_progress : Z) : Q Z :=
  _ ← (if progress then qcall (AddProgress bytes_read) else mret tt);
  let cached_allocation_progress := cached_allocation_progress + bytes_read in
  if ALLOCATION_THRESHOLD <=? cached_allocation_progress then
    granted ← allocate_in_path destination_parent cached_allocation_progress false;
    if negb granted then io_throw (StorageFull "Failed to allocate space") else mret 0
  else mret cached_allocation_progress.

Definition quota_copy (fuel : nat) (self : CapFilesystem) (path destination_path : bytes) (destination : CapFilesystem)
    (progress : bool) : Q Z :=
  let path := relative_path self path in
  let destination_path := relative_path destination destination_path in
  match path_parent destination_path with
  | None => io_throw (InvalidInput "Destination path has no parent")
  | Some destination_parent =>
      destination_metadata ← attempt (on_fs (metadata destination destination_path));
      if match destination_metadata with Some metadata => negb (raw_is_file (md_file_type metadata)) | None => false end
      then io_throw (AlreadyExists "Destination path exists and is not a file") else
      reader ← on_fs (open self path);
      writer ← on_fs (create destination destination_path);
      _ ← match destination_metadata with
          | Some metadata => allocate_in_path destination_parent (- md_len metadata) false
          | None => mret true
          end;
      '(bytes_copied, cached_allocation_progress) ←
        copy_file_progress (quota_progress progress destination_parent) reader writer fuel 0 0;
      if 0 <? cached_allocation_progress then
        granted ← allocate_in_path destination_parent cached_allocation_progress false;
        if negb granted then io_throw (StorageFull "Failed to allocate space") else mret bytes_copied
      else mret bytes_copied
  end.

Definition async_quota_copy (fuel : nat) (self : CapFilesystem) (path destination_path : bytes) (destination : CapFilesystem)
    (progress : bool) : Q Z :=
  failed ← qcall (OnFs SpawnBlocking);
  match failed with
  | Some err => io_throw err
  | None => quota_copy fuel self path destination_path destination progress
  end.

(** ** What a copy is charged *)

(** The ghost state: what was granted and given back, the size of the file that
    is replaced, what was copied, and how much the source can still give: its
    bytes, and the interruptions before them. *)
Record Charge : Type := mk_Charge {
  ch_grown : Z;
  ch_shrunk : Z;
  ch_replaced : Z;
  ch_copied : Z;
  ch_budget : Z;
}.

Definition spend (n : Z) (s : Charge) : Charge :=
  mk_Charge (ch_grown s) (ch_shrunk s) (ch_replaced s) (ch_copied s) (ch_budget s - n).
Definition copied (n : Z) (s : Charge) : Charge :=
  mk_Charge (ch_grown s) (ch_shrunk s) (ch_replaced s) (ch_copied s + n) (ch_budget s).
Definition replaced (n : Z) (s : Charge) : Charge :=
  mk_Charge (ch_grown s) (ch_shrunk s) n (ch_copied s) (ch_budget s).
Definition charge (δ : Z) (s : Charge) : Charge :=
  mk_Charge (ch_grown s + Z.max δ 0) (ch_shrunk s + Z.max (- δ) 0) (ch_replaced s) (ch_copied s) (ch_budget s).

(** Files have sizes, transfers stay within what is left of a finite source,
    and giving space back is never refused. *)
Definition charge_ok (X : Type) (e : QuotaE X) : X → Charge → Prop :=
  match e in QuotaE X return X → Charge → Prop with
  | CopyFileRange _ _ n => λ x s,
      match x with Ok k => 0 <= k <= Z.min n (ch_budget s) | Err CopyError.Interrupted => 0 < ch_budget s | _ => True end
  | OnFs fe =>
      match fe in FsE X return X → Charge → Prop with
      | FileRead _ n => λ x s,
          match x with Ok d => zlen d <= Z.min n (ch_budget s) | Err Interrupted => 0 < ch_budget s | _ => True end
      | DirMetadata _ _ => λ x s, match x with Ok md => 0 <= md_len md | Err _ => True end
      | AmbientMetadata _ => λ x s, match x with Ok md => 0 <= md_len md | Err _ => True end
      | _ => λ _ _, True
      end
  | UpdateAtomics δ _ => λ x _, sd_logical δ <= 0 → x = true
  | _ => λ _ _, True
  end.
Definition charge_upd (X : Type) (e : QuotaE X) : X → Charge → Charge :=
  match e in QuotaE X return X → Charge → Charge with
  | CopyFileRange _ _ _ => λ x s,
      match x with Ok k => spend k (copied k s) | Err CopyError.Interrupted => spend 1 s | _ => s end
  | OnFs fe =>
      match fe in FsE X return X → Charge → Charge with
      | FileRead _ _ => λ x s, match x with Ok d => spend (zlen d) s | Err Interrupted => spend 1 s | _ => s end
      | FileWriteAll _ d => λ x s, match x with Ok _ => copied (zlen d) s | Err _ => s end
      | DirMetadata _ _ => λ x s, match x with Ok md => replaced (md_len md) s | Err _ => s end
      | AmbientMetadata _ => λ x s, match x with Ok md => replaced (md_len md) s | Err _ => s end
      | _ => λ _ s, s
      end
  | UpdateAtomics δ _ => λ x s, if x then charge (sd_logical δ) s else s
  | _ => λ _ s, s
  end.
Definition charge_may (X : Type) (e : QuotaE X) (s : Charge) : Prop := match e with OutOfFuel => False | _ => True end.

Notation "'cwp'" := (wp charge_may charge_ok charge_upd).

Lemma qcall_wp {A} (e : QuotaE A) s Φ :
  charge_may _ e s → (∀ x, charge_ok _ e x s → Φ (Ok x) (charge_upd _ e x s)) → cwp (qcall e) s Φ.
Proof. intros Hm H. split; [done |]. intros x Hx. by apply H. Qed.

Lemma qask_wp {A} (e : QuotaE (ior A)) s Φ :
  charge_may _ e s → (∀ x, charge_ok _ e x s → Φ x (charge_upd _ e x s)) → cwp (qask e) s Φ.
Proof. intros Hm H. split; [done |]. intros x Hx. by apply H. Qed.

(** Space that is asked for is charged when it is granted. *)
Lemma allocate_wp path δ ignorant s (Φ : ior bool → Charge → Prop) :
  Φ (Ok true) (charge δ s) → (0 < δ → Φ (Ok false) s) → cwp (allocate_in_path path δ ignorant) s Φ.
Proof.
  intros Ht Hf. unfold allocate_in_path. apply wp_io_bind, qcall_wp; [done |].
  intros [] Hok; cbn [charge_upd negb sd_logical SpaceDelta_from].
  - apply wp_io_bind, qcall_wp; [done |]. intros [] _. exact Ht.
  - apply Hf. cbn in Hok. destruct (Z.ltb_spec 0 δ); [done |]. by specialize (Hok ltac:(done)).
Qed.

(** [s'] is [s] but for what the source can still give. *)
Definition spent (s s' : Charge) : Prop :=
  (ch_grown s', ch_shrunk s', ch_replaced s', ch_copied s') = (ch_grown s, ch_shrunk s, ch_replaced s, ch_copied s) ∧
  0 <= ch_budget s' <= ch_budget s.

Lemma spent_refl s : 0 <= ch_budget s → spent s s.
Proof. split; [done | lia]. Qed.

Lemma spent_spend s k : 0 <= k <= ch_budget s → spent s (spend k s).
Proof. split; [done | cbn; lia]. Qed.

Lemma spent_trans s1 s2 s3 : spent s1 s2 → spent s2 s3 → spent s1 s3.
Proof. intros [H1 ?] [H2 ?]. split; [by rewrite H2, H1 | lia]. Qed.

Lemma read_uninterrupted_wp fuel file n : ∀ s (Φ : ior bytes → Charge → Prop),
  0 <= ch_budget s < Z.of_nat fuel →
  (∀ d s', spent s s' → zlen d <= n → ch_budget s' <= ch_budget s - zlen d → Φ (Ok d) s') →
  (∀ err s', spent s s' → Φ (Err err) s') →
  cwp (read_uninterrupted fuel file n) s Φ.
Proof.
  induction fuel as [| fuel IH]; intros s Φ Hb Hd He; [lia |]. cbn [read_uninterrupted].
  apply wp_io_bind, qcall_wp; [done |]. intros [d | err] Hok; cbn [charge_ok charge_upd] in *.
  - pose proof (zlen_nonneg d). apply Hd; [apply spent_spend; lia | lia | cbn; lia].
  - destruct err; try (apply He, spent_refl; lia).
    assert (spent s (spend 1 s)) as Hs by (apply spent_spend; lia). apply IH; [cbn; lia | |].
    + intros d s' Hs' Hn Hb'. apply Hd; [by eapply spent_trans | done | cbn in Hb'; lia].
    + intros err s' Hs'. apply He. by eapply spent_trans.
Qed.

(** *** The copying loops *)

Section charged.
Context (bound shrunk old : Z) (Hbound : bound < 2 ^ 64).

(** [total] was copied, all charged but for [cached]. *)
Definition copying (total cached : Z) (s : Charge) : Prop :=
  ch_copied s = total ∧ ch_grown s + cached = total ∧ 0 <= cached < ALLOCATION_THRESHOLD ∧ 0 <= total ∧
  0 <= ch_budget s ∧ total + ch_budget s <= bound ∧ ch_shrunk s = shrunk ∧ ch_replaced s = old.
(** What can be left uncharged when a copy fails. *)
Definition nearly_charged (s : Charge) : Prop :=
  0 <= ch_copied s - ch_grown s < ALLOCATION_THRESHOLD + BUFFER_SIZE.

Lemma copying_nearly total cached s : copying total cached s → nearly_charged s.
Proof. unfold copying, nearly_charged, BUFFER_SIZE. lia. Qed.

Lemma copying_spent total cached s s' : copying total cached s → spent s s' → copying total cached s'.
Proof. intros Hc [He Hb]. injection He as H1 H2 H3 H4. unfold copying in *. lia. Qed.

Lemma nearly_spent s s' : nearly_charged s → spent s s' → nearly_charged s'.
Proof. intros Hn [He _]. injection He as H1 H2 H3 H4. unfold nearly_charged in *. lia. Qed.

Lemma quota_progress_wp progress parent total cached n s s' (Φ : ior Z → Charge → Prop) :
  copying total cached s → spent s s' → 0 < n <= BUFFER_SIZE → n <= ch_budget s - ch_budget s' →
  (∀ cached' s2, copying (total + n) cached' s2 → ch_budget s2 = ch_budget s' → Φ (Ok cached') s2) →
  (∀ err s2, nearly_charged s2 → Φ (Err err) s2) →
  cwp (quota_progress progress parent n cached) (copied n s') Φ.
Proof.
  intros Hc Hs Hn Hb Hok Herr. pose proof (copying_spent _ _ _ _ Hc Hs) as Hc'. unfold quota_progress.
  assert (cwp (if progress then qcall (AddProgress n) else mret tt : Q unit) (copied n s') (λ r s2, r = Ok tt ∧ s2 = copied n s')) as Hp.
  { destruct progress; [| done]. apply qcall_wp; [done |]. by intros [] _. }
  apply wp_io_bind. eapply wp_mono; [exact Hp |]. intros r s2 [-> ->]. unfold copying in *.
  destruct (Z.leb_spec ALLOCATION_THRESHOLD (cached + n)).
  - apply wp_io_bind, allocate_wp.
    + cbn [negb]. apply Hok; cbn; unfold ALLOCATION_THRESHOLD in *; lia.
    + intros _. apply Herr. unfold nearly_charged. cbn. lia.
  - apply Hok; cbn; lia.
Qed.

Definition copy_post (r : ior (Z * Z)) (s : Charge) : Prop :=
  match r with Ok (total, cached) => copying total cached s | Err _ => nearly_charged s end.

Lemma copy_buffered_wp progress parent reader writer fuel : ∀ total cached s,
  copying total cached s → ch_budget s + 1 < Z.of_nat fuel →
  cwp (copy_buffered (quota_progress progress parent) reader writer fuel total cached) s copy_post.
Proof.
  induction fuel as [| fuel IH]; intros total cached s Hc Hb; [unfold copying in Hc; lia |].
  cbn [copy_buffered]. apply wp_io_bind, qcall_wp; [done |]. intros [] _; [by eapply copying_nearly |].
  cbn [charge_upd]. assert (0 <= ch_budget s) as H0 by (unfold copying in Hc; lia).
  apply wp_io_bind, read_uninterrupted_wp; [lia | | intros; eapply nearly_spent; [by eapply copying_nearly | done]].
  intros d s' Hs Hn Hd. pose proof (zlen_nonneg d). destruct (Z.eqb_spec (zlen d) 0); [by eapply copying_spent |].
  apply wp_io_bind. unfold safe_write_all. destruct (Z.ltb_spec (zlen d) (zlen d)); [lia |]. rewrite ztake_ge by lia.
  apply qask_wp; [done |]. intros [[] | err] _; cbn [charge_upd]; [| eapply nearly_spent; [by eapply copying_nearly | done]].
  apply wp_io_bind. eapply quota_progress_wp; [exact Hc | done | lia | lia | | done].
  intros cached' s2 Hc2 Hb2. rewrite u64_add_small by (unfold copying, in_u64 in *; lia). apply IH; [done | lia].
Qed.

Lemma copy_file_progress_wp progress parent reader writer fuel : ∀ total cached s,
  copying total cached s → ch_budget s + 2 < Z.of_nat fuel →
  cwp (copy_file_progress (quota_progress progress parent) reader writer fuel total cached) s copy_post.
Proof.
  induction fuel as [| fuel IH]; intros total cached s Hc Hb; [unfold copying in Hc; lia |].
  cbn [copy_file_progress]. apply wp_io_bind, qcall_wp; [done |]. intros [] _; [by eapply copying_nearly |].
  cbn [charge_upd]. assert (0 <= ch_budget s) as H0 by (unfold copying in Hc; lia).
  apply wp_io_bind, qcall_wp; [done |]. intros [n | [| | | err]] Hok; cbn [charge_ok charge_upd] in *.
  - destruct (Z.eqb_spec n 0) as [-> |].
    { eapply copying_spent; [exact Hc |]. split; [cbn; do 2 f_equal; lia | cbn; lia]. }
    apply wp_io_bind. change (spend n (copied n s)) with (copied n (spend n s)).
    eapply quota_progress_wp; [exact Hc | apply spent_spend; lia | lia | cbn; lia | | done].
    intros cached' s2 Hc2 Hb2. rewrite u64_add_small by (unfold copying, in_u64 in *; lia).
    apply IH; [done |]. rewrite Hb2. cbn. lia.
  - apply IH; [| cbn; lia]. eapply copying_spent; [exact Hc |]. apply spent_spend. lia.
  - apply copy_buffered_wp; [done | lia].
  - apply copy_buffered_wp; [done | lia].
  - by eapply copying_nearly.
Qed.
End charged.

Definition fresh_charge (budget : Z) : Charge := mk_Charge 0 0 0 0 budget.

Lemma on_fs_wp {A} (m : prog FsE A) s Φ :
  wp (λ X e, charge_may X (OnFs e)) (λ X e, charge_ok X (OnFs e)) (λ X e, charge_upd X (OnFs e)) m s Φ → cwp (on_fs m) s Φ.
Proof.
  revert s. induction m as [a | X e k IH]; intros s Hm; cbn [on_fs wp] in *; [done |]. destruct Hm as [Hmay Hm].
  split; [done |]. intros x Hx. by apply IH, Hm.
Qed.

Lemma metadata_wp self path budget (Φ : ior Metadata → Charge → Prop) :
  (∀ md, 0 <= md_len md → Φ (Ok md) (mk_Charge 0 0 (md_len md) 0 budget)) →
  (∀ err, Φ (Err err) (fresh_charge budget)) →
  cwp (on_fs (metadata self path)) (fresh_charge budget) Φ.
Proof.
  intros Hok Herr. apply on_fs_wp. unfold metadata. destruct (is_root _).
  - split; [done |]. intros [md | err] Hx; [by apply Hok | apply Herr].
  - unfold get_inner. cbn. split; [done |]. intros [dir |] _; [| apply Herr].
    split; [done |]. intros [md | err] Hx; [by apply Hok | apply Herr].
Qed.

Lemma on_dir_wp {A} self path (op : Z → bytes → FsE (ior A)) s (Φ : ior A → Charge → Prop) :
  (∀ dir p x, charge_upd _ (OnFs (op dir p)) x s = s) → (∀ r, Φ r s) → cwp (on_fs (on_dir self path op)) s Φ.
Proof.
  intros Hop H. apply on_fs_wp. unfold on_dir, get_inner. cbn -[charge_upd]. split; [done |].
  intros [dir |] _; [| apply H]. split; [done |]. intros x Hx. rewrite Hop. apply H.
Qed.

(** ** Properties *)

(** C18. A copy is charged for what it copied.  However the calls are answered
    (short copies, interruptions, files the kernel cannot copy between,
    failures, refusals of space), as long as the source is finite and is
    interrupted finitely often, the copy ends; if it succeeds with [n] bytes,
    then [n] bytes were copied and [n] were charged to the quota, and the size
    of the file it replaced was given back; if it fails, what was copied but not
    charged is less than one allocation step and one buffer. *)
Theorem quota_copy_charges (fuel : nat) (self destination : CapFilesystem) (path destination_path : bytes)
    (progress : bool) (budget : Z)
    (Hbudget : 0 <= budget < 2 ^ 64) (Hfuel : budget + 2 < Z.of_nat fuel) :
  cwp (quota_copy fuel self path destination_path destination progress) (fresh_charge budget) (λ r s,
    match r with
    | Ok n => ch_copied s = n ∧ ch_grown s = n ∧ ch_shrunk s = ch_replaced s
    | Err _ => 0 <= ch_copied s - ch_grown s < ALLOCATION_THRESHOLD + BUFFER_SIZE
    end).
Proof.
  unfold quota_copy. destruct (path_parent _) as [parent |]; [| done].
  assert (∀ md_len, let s := mk_Charge 0 0 md_len 0 budget in 0 <= ch_copied s - ch_grown s < ALLOCATION_THRESHOLD + BUFFER_SIZE) as Herr.
  { intros md_len. cbn. unfold ALLOCATION_THRESHOLD, BUFFER_SIZE. lia. }
  assert (∀ reader writer old, cwp ('(bytes_copied, cached) ← copy_file_progress (quota_progress progress parent) reader writer fuel 0 0;
      if 0 <? cached then
        granted ← allocate_in_path parent cached false;
        if negb granted then io_throw (StorageFull "Failed to allocate space") else mret bytes_copied
      else mret bytes_copied : Q Z) (mk_Charge 0 old old 0 budget) (λ r s,
    match r with
    | Ok n => ch_copied s = n ∧ ch_grown s = n ∧ ch_shrunk s = ch_replaced s
    | Err _ => 0 <= ch_copied s - ch_grown s < ALLOCATION_THRESHOLD + BUFFER_SIZE
    end)) as Hcopy.
  { intros reader writer old. apply wp_io_bind. eapply wp_mono.
    - apply (copy_file_progress_wp budget old old ltac:(lia)); [| done].
      unfold copying, ALLOCATION_THRESHOLD. cbn. lia.
    - intros [[n cached] | err] s Hc; [| exact Hc]. unfold copy_post, copying in Hc.
      destruct (Z.ltb_spec 0 cached); [| cbn; lia]. apply wp_io_bind, allocate_wp; [cbn; lia |].
      intros _. cbn. unfold BUFFER_SIZE. lia. }
  apply wp_io_bind. unfold attempt. apply wp_bind. apply metadata_wp.
  - intros md Hmd. cbn [wp result_ok]. destruct (negb _); [apply Herr |].
    apply wp_io_bind, on_dir_wp; [done |]. intros [reader | err]; [| apply Herr].
    apply wp_io_bind, on_dir_wp; [done |]. intros [writer | err]; [| apply Herr].
    apply wp_io_bind, allocate_wp; [| lia].
    assert (charge (- md_len md) (mk_Charge 0 0 (md_len md) 0 budget) = mk_Charge 0 (md_len md) (md_len md) 0 budget) as ->
      by (unfold charge; cbn; f_equal; lia).
    apply Hcopy.
  - intros err. cbn [wp result_ok]. apply wp_io_bind, on_dir_wp; [done |]. intros [reader | err']; [| apply Herr].
    apply wp_io_bind, on_dir_wp; [done |]. intros [writer | err']; [| apply Herr]. apply wp_io_bind. apply Hcopy.
Qed.

Lemma quota_copy_charges_witness :
  cwp (quota_copy 100 sample_fs [47; 97] [47; 98] sample_fs true) (fresh_charge 42) (λ r s,
    match r with
    | Ok n => ch_copied s = n ∧ ch_grown s = n ∧ ch_shrunk s = ch_replaced s
    | Err _ => 0 <= ch_copied s - ch_grown s < ALLOCATION_THRESHOLD + BUFFER_SIZE
    end).
Proof. apply (quota_copy_charges 100 sample_fs sample_fs [47; 97] [47; 98] true 42); lia. Defined.
