(* ===== verification/ServerFile.v ===== *)
(** * ServerFile: files that charge the quota as they grow (application/src/server/filesystem/file.rs)

    [ServerFile] counts the bytes a write adds beyond the highest position the
    file has reached, charges them in steps, and charges what is left when it
    is flushed or dropped. *)
From S2P Require Import Prelude IoModel Paths Utf8 DiskUsage Effects CapFs Quota.

Record ServerFile : Type := mk_ServerFile {
  sf_parent : list bytes;
  sf_file : option Z;
  sf_ignorant : bool;
  accumulated_bytes : Z;
  sf_modified : option Z;
  current_position : Z;
  highest_position : Z;
}.
Definition set_accumulated (z : Z) (f : ServerFile) : ServerFile :=
  mk_ServerFile (sf_parent f) (sf_file f) (sf_ignorant f) z (sf_modified f) (current_position f) (highest_position f).
Definition set_position (z : Z) (f : ServerFile) : ServerFile :=
  mk_ServerFile (sf_parent f) (sf_file f) (sf_ignorant f) (accumulated_bytes f) (sf_modified f) z (highest_position f).
Definition set_highest (z : Z) (f : ServerFile) : ServerFile :=
  mk_ServerFile (sf_parent f) (sf_file f) (sf_ignorant f) (accumulated_bytes f) (sf_modified f) (current_position f) z.

(** A method on [&mut ServerFile]. *)
Definition SF (A : Type) : Type := ServerFile → prog QuotaE (ior A * ServerFile).
#[global] Instance SF_ret : MRet SF := λ A a self, Done (Ok a, self).
#[global] Instance SF_bind : MBind SF := λ A B f m self,
  prog_bind _ _ (λ r : ior A * ServerFile, match r with (Ok a, self) => f a self | (Err e, self) => Done (Err e, self) end)
    (m self).
Definition sf_lift {A} (m : Q A) : SF A := λ self, prog_bind _ _ (λ r, Done (r, self)) m.
Definition sf_get : SF ServerFile := λ self, Done (Ok self, self).
Definition sf_modify (f : ServerFile → ServerFile) : SF unit := λ self, Done (Ok tt, f self).
Definition sf_throw {A} (e : io_error) : SF A := λ self, Done (Err e, self).

(** [path.components().map(to_string_lossy)] of the resolved path. *)
Definition path_to_components (fs : CapFilesystem) (path : bytes) : list bytes :=
  map (λ c, from_utf8_lossy (component_bytes c)) (components (relative_path fs path)).

Definition ServerFile_new (fs : CapFilesystem) (chown_path : bytes → Q unit) (destination : bytes)
    (permissions : option PortablePermissions) (modified : option Z) : Q ServerFile :=
  match path_parent destination with
  | None => io_throw (InvalidInput "Destination has no parent")
  | Some parent_path =>
      let parent := path_to_components fs (relative_path fs parent_path) in
      file ← on_fs (create fs destination);
      _ ← match permissions with Some permissions => on_fs (set_permissions fs destination permissions) | None => mret tt end;
      _ ← chown_path destination;
      mret (mk_ServerFile parent (Some file) false 0 modified 0 0)
  end.
Definition ServerFile_new_file (fs : CapFilesystem) (destination : bytes) (file : Z) : Q ServerFile :=
  match path_parent destination with
  | None => io_throw (InvalidInput "Destination has no parent")
  | Some parent_path =>
      mret (mk_ServerFile (path_to_components fs (relative_path fs parent_path)) (Some file) false 0 None 0 0)
  end.
Definition ServerFile_ignorant (self : ServerFile) : ServerFile :=
  mk_ServerFile (sf_parent self) (sf_file self) true (accumulated_bytes self) (sf_modified self) (current_position self)
    (highest_position self).

Definition allocate_accumulated : SF unit :=
  self ← sf_get;
  if 0 <? accumulated_bytes self then
    granted ← sf_lift (allocate_in_path_iterator (sf_parent self) (accumulated_bytes self) (sf_ignorant self));
    if negb granted then sf_throw (StorageFull "Failed to allocate space") else sf_modify (set_accumulated 0)
  else mret tt.

Definition with_file {A} (k : Z → SF A) : SF A :=
  self ← sf_get;
  match sf_file self with None => sf_throw (IoOther "file is not available") | Some file => k file end.

Definition ServerFile_write (buf : bytes) : SF Z :=
  with_file (λ file,
    written ← sf_lift (qask (FileWrite file buf));
    _ ← sf_modify (λ self, set_position (current_position self +u written) self);
    self ← sf_get;
    _ ← (if highest_position self <? current_position self then
           let additional_space := as_i64 (current_position self -u highest_position self) in
           _ ← sf_modify (λ self, set_accumulated (as_i64 (accumulated_bytes self + additional_space)) self);
           sf_modify (λ self, set_highest (current_position self) self)
         else mret tt);
    self ← sf_get;
    _ ← (if ALLOCATION_THRESHOLD <=? accumulated_bytes self then allocate_accumulated else mret tt);
    mret written).
Definition ServerFile_flush : SF unit :=
  _ ← allocate_accumulated;
  with_file (λ file, sf_lift (qask (FileFlush file))).
Definition ServerFile_seek (pos : Z) : SF Z :=
  _ ← allocate_accumulated;
  with_file (λ file,
    new_pos ← sf_lift (qask (FileSeek file pos));
    _ ← sf_modify (set_position new_pos);
    mret new_pos).
Definition ServerFile_read (n : Z) : SF bytes :=
  with_file (λ file, sf_lift (qask (OnFs (FileRead file n)))).
(** The errors of [drop] are ignored. *)
Definition ServerFile_drop (self : ServerFile) : prog QuotaE unit :=
  prog_bind _ _ (λ r : ior unit * ServerFile,
    match sf_modified (snd r), sf_file (snd r) with
    | Some modified, Some file => Vis (FileSetModified file modified) (λ _, Done tt)
    | _, _ => Done tt
    end) (allocate_accumulated self).

Module FileOp.
Inductive FileOp : Type :=
  | Write (buf : bytes)
  | Flush
  | Seek (pos : Z)
  | Read (n : Z).
End FileOp.

Definition run_file_op (op : FileOp.FileOp) (self : ServerFile) : prog QuotaE ServerFile :=
  match op with
  | FileOp.Write buf => prog_bind _ _ (λ r, Done (snd r)) (ServerFile_write buf self)
  | FileOp.Flush => prog_bind _ _ (λ r, Done (snd r)) (ServerFile_flush self)
  | FileOp.Seek pos => prog_bind _ _ (λ r, Done (snd r)) (ServerFile_seek pos self)
  | FileOp.Read n => prog_bind _ _ (λ r, Done (snd r)) (ServerFile_read n self)
  end.
(** A client goes on after errors, and drops the file in the end. *)
Fixpoint use_file (ops : list FileOp.FileOp) (self : ServerFile) : prog QuotaE unit :=
  match ops with
  | [] => ServerFile_drop self
  | op :: ops => prog_bind _ _ (use_file ops) (run_file_op op self)
  end.

(** ** What a file is charged *)

(** What happened to a file: the bytes charged for it, where the operating system's
    offset is, the highest position a write reached, whether the last request
    for space was refused, whether the offset was moved by a read since it was
    last positioned, and whether something was written after such a read. *)
Record Written : Type := mk_Written {
  wr_charged : Z;
  wr_offset : Z;
  wr_end : Z;
  wr_refused : bool;
  wr_moved : bool;
  wr_behind : bool;
}.

(** Offsets are those of 64 bits. *)
Definition written_ok (X : Type) (e : QuotaE X) : X → Written → Prop :=
  match e in QuotaE X return X → Written → Prop with
  | FileWrite _ d => λ x s, match x with Ok n => 0 <= n <= zlen d ∧ wr_offset s + n < 2 ^ 63 | Err _ => True end
  | FileSeek _ _ => λ x _, match x with Ok p => 0 <= p < 2 ^ 63 | Err _ => True end
  | OnFs e => match e in FsE X return X → Written → Prop with
              | FileRead _ _ => λ x s, match x with Ok d => wr_offset s + zlen d < 2 ^ 63 | Err _ => True end
              | _ => λ _ _, True
              end
  | _ => λ _ _, True
  end.
(** A write goes where the offset is; a write, a read and a seek move it. *)
Definition written_upd (X : Type) (e : QuotaE X) : X → Written → Written :=
  match e in QuotaE X return X → Written → Written with
  | FileWrite _ _ => λ x s,
      match x with
      | Ok n => mk_Written (wr_charged s) (wr_offset s + n) (Z.max (wr_end s) (wr_offset s + n)) (wr_refused s) (wr_moved s)
                  (wr_behind s || wr_moved s)
      | Err _ => s
      end
  | FileSeek _ _ => λ x s,
      match x with Ok p => mk_Written (wr_charged s) p (wr_end s) (wr_refused s) false (wr_behind s) | Err _ => s end
  | OnFs e => match e in FsE X return X → Written → Written with
              | FileRead _ _ => λ x s,
                  match x with
                  | Ok d => mk_Written (wr_charged s) (wr_offset s + zlen d) (wr_end s) (wr_refused s) (wr_moved s || (0 <? zlen d))
                              (wr_behind s)
                  | Err _ => s
                  end
              | _ => λ _ s, s
              end
  | UpdateAtomics δ _ => λ x s,
      if x then mk_Written (wr_charged s + sd_logical δ) (wr_offset s) (wr_end s) false (wr_moved s) (wr_behind s)
      else mk_Written (wr_charged s) (wr_offset s) (wr_end s) true (wr_moved s) (wr_behind s)
  | _ => λ _ s, s
  end.
Definition written_may (X : Type) (e : QuotaE X) (s : Written) : Prop := match e with OutOfFuel => False | _ => True end.
Notation "'wwp'" := (wp written_may written_ok written_upd).

(** What the file saw written beyond the highest position is charged or waits to
    be.  It sees everything as long as its own position is the offset. *)
Definition file_ok (self : ServerFile) (s : Written) : Prop :=
  0 <= current_position self <= wr_offset s ∧ (wr_moved s = false → current_position self = wr_offset s) ∧
  0 <= highest_position self <= wr_end s ∧ (wr_behind s = false → highest_position self = wr_end s) ∧
  wr_charged s + accumulated_bytes self = highest_position self ∧ 0 <= accumulated_bytes self ∧ 0 <= wr_charged s ∧
  wr_offset s < 2 ^ 63 ∧ wr_end s < 2 ^ 63.

Definition method_ok {A} (m : SF A) : Prop := ∀ self s, file_ok self s → wwp (m self) s (λ r s, file_ok (snd r) s).

Lemma method_bind {A B} (m : SF A) (f : A → SF B) : method_ok m → (∀ a, method_ok (f a)) → method_ok (mbind (M := SF) f m).
Proof.
  intros Hm Hf self s Hs. apply wp_bind. eapply wp_mono; [by apply Hm |]. intros [[a | e] self'] s' Hs'; [by apply Hf | done].
Qed.

Lemma method_ret {A} (a : A) : method_ok (mret a).
Proof. by intros self s Hs. Qed.

Lemma method_throw {A} e : method_ok (sf_throw (A := A) e).
Proof. by intros self s Hs. Qed.

Lemma method_get_bind {B} (f : ServerFile → SF B) :
  (∀ self s, file_ok self s → wwp (f self self) s (λ r s, file_ok (snd r) s)) → method_ok (mbind (M := SF) f sf_get).
Proof. intros Hf self s Hs. by apply Hf. Qed.

Lemma sf_bind_wp {A B} (m : SF A) (f : A → SF B) self s Φ :
  wwp (m self) s (λ r s, match r with (Ok a, self) => wwp (f a self) s Φ | (Err e, self) => Φ (Err e, self) s end) →
  wwp (mbind (M := SF) f m self) s Φ.
Proof. intros H. apply wp_bind. eapply wp_mono; [exact H |]. by intros [[a | e] self'] s'. Qed.

Lemma sf_lift_wp {A} (m : Q A) self s (Φ : ior A * ServerFile → Written → Prop) :
  wwp m s (λ r s, Φ (r, self) s) → wwp (sf_lift m self) s Φ.
Proof. intros H. by apply wp_bind. Qed.

Lemma allocate_iterator_wp path δ ignorant s (Φ : ior bool → Written → Prop) :
  Φ (Ok true) (mk_Written (wr_charged s + δ) (wr_offset s) (wr_end s) false (wr_moved s) (wr_behind s)) →
  Φ (Ok false) (mk_Written (wr_charged s) (wr_offset s) (wr_end s) true (wr_moved s) (wr_behind s)) →
  wwp (allocate_in_path_iterator path δ ignorant) s Φ.
Proof.
  intros Ht Hf. apply wp_io_bind. split; [done |]. intros [] _; cbn; [| exact Hf].
  split; [done |]. intros [] _. exact Ht.
Qed.

Lemma allocate_accumulated_wp self s : file_ok self s →
  wwp (allocate_accumulated self) s (λ r s, file_ok (snd r) s ∧ (accumulated_bytes (snd r) = 0 ∨ wr_refused s = true)).
Proof.
  intros Hs. apply sf_bind_wp. cbn [sf_get wp]. unfold file_ok in *. destruct (Z.ltb_spec 0 (accumulated_bytes self)).
  - apply sf_bind_wp, sf_lift_wp, allocate_iterator_wp; cbn; (split; [| by (left + right)]);
      destruct_and!; split_and!; done || lia.
  - cbn. split; [done |]. left. lia.
Qed.

Lemma allocate_accumulated_ok : method_ok allocate_accumulated.
Proof. intros self s Hs. eapply wp_mono; [by apply allocate_accumulated_wp |]. by intros r s' [? _]. Qed.

Lemma with_file_ok {A} (k : Z → SF A) : (∀ file, method_ok (k file)) → method_ok (with_file k).
Proof.
  intros Hk self s Hs. apply sf_bind_wp. cbn [sf_get wp].
  destruct (sf_file self) as [file |]; [by apply Hk | by apply method_throw].
Qed.

(** A call that the ghost state does not record. *)
Lemma unrecorded_ok {A} (e : QuotaE (ior A)) :
  (∀ x s, written_upd _ e x s = s) → (∀ s, written_may _ e s) → method_ok (sf_lift (qask e)).
Proof. intros Hu Hm self s Hs. split; [apply Hm |]. intros x _. cbn. by rewrite Hu. Qed.

(** The bytes beyond the highest position join those that wait. *)
Lemma grown_ok self s n : file_ok self s → 0 <= n → wr_offset s + n < 2 ^ 63 →
  let self1 := set_position (current_position self +u n) self in
  let s1 := mk_Written (wr_charged s) (wr_offset s + n) (Z.max (wr_end s) (wr_offset s + n)) (wr_refused s) (wr_moved s)
              (wr_behind s || wr_moved s) in
  if highest_position self1 <? current_position self1
  then file_ok (set_highest (current_position self1)
         (set_accumulated (as_i64 (accumulated_bytes self1 + as_i64 (current_position self1 -u highest_position self1))) self1)) s1
  else file_ok self1 s1.
Proof.
  intros (Hc & Hmoved & Hh & Hbehind & Hacc) Hn Hlt. cbv zeta. cbn [highest_position current_position set_position].
  assert (wr_behind s || wr_moved s = false → current_position self = wr_offset s ∧ highest_position self = wr_end s) as Hsame.
  { intros [Hb Hm]%orb_false_iff. by rewrite Hmoved, Hbehind. }
  rewrite u64_add_small by (unfold in_u64; lia). destruct (Z.ltb_spec (highest_position self) (current_position self + n)) as [Hg | Hg].
  - rewrite u64_sub_small by (unfold in_u64; lia). rewrite (as_i64_id (_ - _)) by (unfold in_i64; lia).
    unfold file_ok. cbn. rewrite as_i64_id by (unfold in_i64; lia).
    split; [lia |]. split; [intros Hm; rewrite (Hmoved Hm); lia |]. split; [lia |].
    split; [intros Hb; destruct (Hsame Hb); lia | lia].
  - unfold file_ok. cbn. split; [lia |]. split; [intros Hm; rewrite (Hmoved Hm); lia |]. split; [lia |].
    split; [intros Hb; destruct (Hsame Hb); lia | lia].
Qed.

Lemma read_ok self s (d : bytes) : file_ok self s → wr_offset s + zlen d < 2 ^ 63 →
  file_ok self (mk_Written (wr_charged s) (wr_offset s + zlen d) (wr_end s) (wr_refused s) (wr_moved s || (0 <? zlen d)) (wr_behind s)).
Proof.
  intros (Hc & Hmoved & Hrest) Hd. unfold file_ok. cbn. pose proof (zlen_nonneg d). split; [lia |].
  split; [| destruct_and!; split_and!; done || lia].
  intros [Hm Hz]%orb_false_iff. rewrite (Hmoved Hm). apply Z.ltb_ge in Hz. lia.
Qed.

Lemma write_ok buf : method_ok (ServerFile_write buf).
Proof.
  apply with_file_ok. intros file self s Hs. apply sf_bind_wp, sf_lift_wp. split; [done |].
  intros [n | err] Hn; [| done]. cbn [written_ok written_upd] in *. destruct Hn as [Hn Hlt].
  apply sf_bind_wp. cbn [sf_modify wp]. apply sf_bind_wp. cbn [sf_get wp]. apply sf_bind_wp.
  pose proof (grown_ok self s n Hs ltac:(lia) Hlt) as Hg. cbv zeta in Hg.
  set (self1 := set_position (current_position self +u n) self) in *.
  set (s1 := mk_Written _ _ _ _ _ _) in *.
  assert (∀ self2, file_ok self2 s1 → wwp ((self ← sf_get;
    _ ← (if ALLOCATION_THRESHOLD <=? accumulated_bytes self then allocate_accumulated else mret tt); mret n : SF Z) self2) s1
    (λ r s, file_ok (snd r) s)) as Hrest.
  { intros self2 Hs2. apply sf_bind_wp. cbn [sf_get wp]. apply method_bind; [| intros; apply method_ret | done].
    destruct (ALLOCATION_THRESHOLD <=? _); [apply allocate_accumulated_ok | apply method_ret]. }
  destruct (highest_position self1 <? current_position self1); by apply Hrest.
Qed.

Lemma run_file_op_wp op self s : file_ok self s → wwp (run_file_op op self) s file_ok.
Proof.
  intros Hs. destruct op as [buf | | pos | n]; apply wp_bind; (eapply wp_mono; [| by intros r s' H; exact H]).
  - by apply write_ok.
  - apply method_bind; [apply allocate_accumulated_ok | | done]. intros _. apply with_file_ok. intros file.
    by apply unrecorded_ok.
  - apply method_bind; [apply allocate_accumulated_ok | | done]. intros _. apply with_file_ok. clear. intros file self s Hs.
    apply sf_bind_wp, sf_lift_wp. split; [done |]. intros [p | err] Hp; [| done].
    apply sf_bind_wp. cbn [sf_modify wp written_ok written_upd] in *. unfold file_ok in *. cbn [snd set_position] in *. cbn in *.
    destruct_and!; split_and!; done || lia.
  - apply with_file_ok; [| done]. clear. intros file self s Hs. apply sf_lift_wp. split; [done |].
    intros [d | err] Hd; [by apply read_ok | done].
Qed.

(** ** Properties *)

(** C25. A file is charged for the bytes it reaches.  A file that was created
    empty is used in any way: writes, also partial or failing ones, flushes,
    seeks back and forth, reads; whatever the operating system answers and
    whether or not space was refused in between.  Then it is dropped.  The quota
    was never charged more than the highest position a write reached, by the
    offset of the operating system, and it was charged exactly that, unless the
    last request was refused or something was written after a read without a
    seek in between: a read moves the offset, but not the position the file
    counts by (see [reads_hide_growth]). *)
Theorem server_file_charges (ops : list FileOp.FileOp) (parent : list bytes) (file : Z) (ignorant : bool) (modified : option Z) :
  wwp (use_file ops (mk_ServerFile parent (Some file) ignorant 0 modified 0 0)) (mk_Written 0 0 0 false false false) (λ _ s,
    wr_charged s <= wr_end s ∧ (wr_charged s = wr_end s ∨ wr_refused s = true ∨ wr_behind s = true)).
Proof.
  assert (∀ self s, file_ok self s → wwp (use_file ops self) s (λ _ s,
    wr_charged s <= wr_end s ∧ (wr_charged s = wr_end s ∨ wr_refused s = true ∨ wr_behind s = true))) as H.
  { induction ops as [| op ops IH]; intros self s Hs; cbn [use_file].
    - unfold ServerFile_drop. apply wp_bind. eapply wp_mono; [by apply allocate_accumulated_wp |].
      intros [r self'] s' [Hs' Ha]. cbn [snd] in *.
      assert (wr_charged s' <= wr_end s' ∧ (wr_charged s' = wr_end s' ∨ wr_refused s' = true ∨ wr_behind s' = true)) as Hend.
      { destruct Hs' as (_ & _ & Hh & Hbehind & Hacc). split; [lia |]. destruct Ha as [Ha | Ha]; [| by right; left].
        destruct (wr_behind s'); [by right; right | left]. rewrite <- Hbehind by done. lia. }
      destruct (sf_modified self'), (sf_file self'); [| done..]. split; [done |]. intros [] _; exact Hend.
    - apply wp_bind. eapply wp_mono; [by apply run_file_op_wp |]. intros self' s' Hs'. by apply IH. }
  apply H. unfold file_ok. cbn. lia.
Qed.

(** ** What departs from the rest *)

(** One file on a disk: what was charged for it, the offset and what it holds. *)
Definition one_file (X : Type) (e : QuotaE X) : Z * Z * bytes → X * (Z * Z * bytes) := λ w,
  let '(charged, offset, content) := w in
  match e in QuotaE X return X * (Z * Z * bytes) with
  | FileWrite _ d => (Ok (zlen d), (charged, offset + zlen d, ztake offset content ++ d ++ zdrop (offset + zlen d) content))
  | FileSeek _ p => (Ok p, (charged, p, content))
  | FileFlush _ => (Ok tt, w)
  | CopyFileRange _ _ _ => (Ok 0, w)
  | UpdateAtomics δ _ => (true, (charged + sd_logical δ, offset, content))
  | UpdateSizeIterator _ _ => (tt, w)
  | OnFs fe => match fe in FsE X return X * (Z * Z * bytes) with
               | FileRead _ n => (Ok (ztake n (zdrop offset content)), (charged, offset + zlen (ztake n (zdrop offset content)), content))
               | LoadInner _ => (None, w)
               | StoreInner _ _ => (tt, w)
               | ReadDirNext _ => (None, w)
               | SpawnBlocking => (None, w)
               | Now => (0, w)
               | _ => (Err UnexpectedEof, w)
               end
  | UpdateSize _ _ | AddDirectory _ _ | AddProgress _ | OutOfFuel | MimeInsert _ _ _ _ => (tt, w)
  | RemoveUsage _ => (None, w)
  | PollUsageLock | IsAborted => (false, w)
  | FilePollWrite _ _ | FilePollComplete _ | FilePollRead _ _ | GetUsage _ | MimeGet _ _ _ | FilePollFlush _ | FilePollShutdown _ => (None, w)
  | _ => (Err UnexpectedEof, w)
  end.

(** Ten bytes are written and read back, and five more are written where the read
    ended: the file has fifteen bytes, and ten are charged. *)
Theorem reads_hide_growth :
  let '(charged, _, content) := snd (run one_file
    (use_file [FileOp.Write (replicate 10 1); FileOp.Seek 0; FileOp.Read 10; FileOp.Write (replicate 5 2)]
       (mk_ServerFile [] (Some 1) false 0 None 0 0)) (0, 0, [])) in
  charged = 10 ∧ zlen content = 15.
Proof. vm_compute. done. Qed.
