(* ===== verification/AsyncServerFile.v ===== *)
(** * AsyncServerFile: polled files that charge the quota (application/src/server/filesystem/file.rs)

    [AsyncServerFile] charges the quota as [ServerFile] does, but its
    allocation is a future that is polled between the writes, and that can be
    dropped with the file when it is half done. *)
From S2P Require Import Prelude IoModel Paths Utf8 DiskUsage Effects CapFs Quota ServerFile.

Module Allocation.
(** The future of [async_allocate_in_path_iterator]: not polled yet, or past
    the counters and waiting for the lock of the tree. *)
Inductive Allocation : Type :=
  | Start
  | WaitLock.
End Allocation.

Record AsyncServerFile : Type := mk_AsyncServerFile {
  as_parent : list bytes;
  as_file : option Z;
  as_ignorant : bool;
  as_accumulated : Z;
  as_allocating : Z;
  as_modified : option Z;
  allocation_in_progress : option Allocation.Allocation;
  as_current : Z;
  as_highest : Z;
}.

Definition set_allocation (accumulated allocating : Z) (a : option Allocation.Allocation) (f : AsyncServerFile) : AsyncServerFile :=
  mk_AsyncServerFile (as_parent f) (as_file f) (as_ignorant f) accumulated allocating (as_modified f) a (as_current f) (as_highest f).
Definition set_positions (accumulated current highest : Z) (f : AsyncServerFile) : AsyncServerFile :=
  mk_AsyncServerFile (as_parent f) (as_file f) (as_ignorant f) accumulated (as_allocating f) (as_modified f)
    (allocation_in_progress f) current highest.

Definition Qprog (A : Type) : Type := prog QuotaE A.
#[global] Instance Qprog_ret : MRet Qprog := prog_ret.
#[global] Instance Qprog_bind : MBind Qprog := λ A B, prog_bind A B.

(** One poll of the future: [None] is pending. *)
Definition poll_future (self : AsyncServerFile) (phase : Allocation.Allocation) : Qprog (option bool * Allocation.Allocation) :=
  granted ← match phase with
            | Allocation.Start => call (UpdateAtomics (SpaceDelta_from (as_allocating self)) (as_ignorant self))
            | Allocation.WaitLock => mret true
            end;
  if negb granted then mret (Some false, phase) else
  locked ← call PollUsageLock;
  if (locked : bool) then
    _ ← call (UpdateSizeIterator (as_parent self) (as_allocating self));
    mret (Some true, Allocation.WaitLock)
  else mret (None, Allocation.WaitLock).

Definition start_allocation (self : AsyncServerFile) : AsyncServerFile :=
  match allocation_in_progress self with
  | None =>
      if 0 <? as_accumulated self
      then set_allocation 0 (as_accumulated self) (Some Allocation.Start) self
      else self
  | Some _ => self
  end.
Definition poll_allocation (self : AsyncServerFile) : Qprog (option (ior unit) * AsyncServerFile) :=
  match allocation_in_progress self with
  | None => mret (Some (Ok tt), self)
  | Some phase =>
      '(polled, phase) ← poll_future self phase;
      mret match polled with
           | Some true => (Some (Ok tt), set_allocation (as_accumulated self) 0 None self)
           | Some false =>
               (Some (Err (StorageFull "Failed to allocate space")), set_allocation (as_accumulated self) 0 None self)
           | None => (None, set_allocation (as_accumulated self) (as_allocating self) (Some phase) self)
           end
  end.

(** Polls the allocation first; a pending or failed one is the answer. *)
Definition after_allocation {A} (self : AsyncServerFile) (k : AsyncServerFile → Qprog (option (ior A) * AsyncServerFile)) :
    Qprog (option (ior A) * AsyncServerFile) :=
  '(polled, self) ← poll_allocation self;
  match polled with
  | Some (Ok _) => k self
  | Some (Err err) => mret (Some (Err err), self)
  | None => mret (None, self)
  end.
Definition not_available {A} : option (ior A) := Some (Err (IoOther "file is not available")).

Definition poll_write (buf : bytes) (self : AsyncServerFile) : Qprog (option (ior Z) * AsyncServerFile) :=
  after_allocation self (λ self,
    match as_file self with
    | None => mret (not_available, self)
    | Some file =>
        result ← call (FilePollWrite file buf);
        mret (result,
          match result with
          | Some (Ok written) =>
              let current := as_current self +u written in
              if as_highest self <? current then
                let self := set_positions (as_i64 (as_accumulated self + as_i64 (current -u as_highest self))) current current self in
                if ALLOCATION_THRESHOLD <=? as_accumulated self then start_allocation self else self
              else set_positions (as_accumulated self) current (as_highest self) self
          | _ => self
          end)
    end).

(** [poll_flush] and [poll_shutdown] charge what waits before they reach the
    file. *)
Definition settle {A} (self : AsyncServerFile) (k : AsyncServerFile → Qprog (option (ior A) * AsyncServerFile)) :
    Qprog (option (ior A) * AsyncServerFile) :=
  after_allocation self (λ self,
    if 0 <? as_accumulated self then after_allocation (start_allocation self) k else k self).
Definition poll_flush (self : AsyncServerFile) : Qprog (option (ior unit) * AsyncServerFile) :=
  settle self (λ self,
    match as_file self with
    | None => mret (not_available, self)
    | Some file => result ← call (FilePollFlush file); mret (result, self)
    end).
Definition poll_shutdown (self : AsyncServerFile) : Qprog (option (ior unit) * AsyncServerFile) :=
  settle self (λ self,
    match as_file self with
    | None => mret (not_available, self)
    | Some file => result ← call (FilePollShutdown file); mret (result, self)
    end).
Definition start_seek (position : Z) (self : AsyncServerFile) : Qprog (ior unit * AsyncServerFile) :=
  let self := if 0 <? as_accumulated self then start_allocation self else self in
  match as_file self with
  | None => mret (Err (IoOther "file is not available"), self)
  | Some file => result ← call (FileStartSeek file position); mret (result, self)
  end.
Definition poll_complete (self : AsyncServerFile) : Qprog (option (ior Z) * AsyncServerFile) :=
  after_allocation self (λ self,
    match as_file self with
    | None => mret (not_available, self)
    | Some file =>
        result ← call (FilePollComplete file);
        mret (result, match result with
                      | Some (Ok new_pos) => set_positions (as_accumulated self) new_pos (as_highest self) self
                      | _ => self
                      end)
    end).
Definition AsyncServerFile_poll_read (n : Z) (self : AsyncServerFile) : Qprog (option (ior bytes) * AsyncServerFile) :=
  match as_file self with
  | None => mret (not_available, self)
  | Some file => result ← call (FilePollRead file n); mret (result, self)
  end.

(** The future in flight is dropped with the file; what it was to allocate is
    asked for again by a task of its own, with all that waits. *)
Definition AsyncServerFile_drop (self : AsyncServerFile) : Qprog unit :=
  let leftover := as_accumulated self + as_allocating self in
  _ ← (if 0 <? leftover then
         _ ← (allocate_in_path_iterator (as_parent self) leftover (as_ignorant self) : Qprog _);
         mret tt
       else mret tt);
  match as_file self with
  | None => mret tt
  | Some file =>
      _ ← call (FileFlush file);
      match as_modified self with
      | Some modified => _ ← call (FileSetModified file modified); mret tt
      | None => mret tt
      end
  end.

(** The file is made and given its permissions and its owner. *)
Definition async_create_file (fs : CapFilesystem) (destination : bytes) (permissions : option PortablePermissions)
    (chown_path : bytes → Q unit) (k : Z → AsyncServerFile) : Q AsyncServerFile :=
  mbind (M := Q) (λ file,
    mbind (M := Q) (λ _,
      mbind (M := Q) (λ _, mret (k file)) (chown_path destination))
      match permissions with Some permissions => on_fs (async_set_permissions fs destination permissions) | None => mret tt end)
    (on_fs (async_create fs destination)).
Definition AsyncServerFile_new (fs : CapFilesystem) (chown_path : bytes → Q unit) (destination : bytes)
    (permissions : option PortablePermissions) (modified : option Z) : Q AsyncServerFile :=
  match path_parent destination with
  | None => io_throw (InvalidInput "Destination has no parent")
  | Some parent_path =>
      let parent := path_to_components fs (relative_path fs parent_path) in
      async_create_file fs destination permissions chown_path
        (λ file, mk_AsyncServerFile parent (Some file) false 0 0 modified None 0 0)
  end.
Definition AsyncServerFile_new_file (fs : CapFilesystem) (destination : bytes) (file : Z) : Q AsyncServerFile :=
  match path_parent destination with
  | None => io_throw (InvalidInput "Destination has no parent")
  | Some parent_path =>
      mret (mk_AsyncServerFile (path_to_components fs (relative_path fs parent_path)) (Some file) false 0 0 None None 0 0)
  end.
Definition AsyncServerFile_ignorant (self : AsyncServerFile) : AsyncServerFile :=
  mk_AsyncServerFile (as_parent self) (as_file self) true (as_accumulated self) (as_allocating self) (as_modified self)
    (allocation_in_progress self) (as_current self) (as_highest self).

Module PollOp.
Inductive PollOp : Type :=
  | Write (buf : bytes)
  | Flush
  | Shutdown
  | StartSeek (pos : Z)
  | Complete
  | Read (n : Z).
End PollOp.

Definition run_poll_op (op : PollOp.PollOp) (self : AsyncServerFile) : Qprog AsyncServerFile :=
  match op with
  | PollOp.Write buf => r ← poll_write buf self; mret (snd r)
  | PollOp.Flush => r ← poll_flush self; mret (snd r)
  | PollOp.Shutdown => r ← poll_shutdown self; mret (snd r)
  | PollOp.StartSeek pos => r ← start_seek pos self; mret (snd r)
  | PollOp.Complete => r ← poll_complete self; mret (snd r)
  | PollOp.Read n => r ← AsyncServerFile_poll_read n self; mret (snd r)
  end.
Fixpoint use_async_file (ops : list PollOp.PollOp) (self : AsyncServerFile) : Qprog unit :=
  match ops with
  | [] => AsyncServerFile_drop self
  | op :: ops => self ← run_poll_op op self; use_async_file ops self
  end.

(** ** What a polled file is charged *)

(** What the counters were given, and what the tree was. *)
Record Polled : Type := mk_Polled {
  po_counted : Z;
  po_recorded : Z;
  po_position : Z;
  po_highest : Z;
  po_refused : bool;
}.
Definition po_move (position highest : Z) (s : Polled) : Polled :=
  mk_Polled (po_counted s) (po_recorded s) position highest (po_refused s).

Definition polled_ok (X : Type) (e : QuotaE X) : X → Polled → Prop :=
  match e in QuotaE X return X → Polled → Prop with
  | FilePollWrite _ d => λ x s,
      match x with Some (Ok n) => 0 <= n <= zlen d ∧ po_position s + n < 2 ^ 63 | _ => True end
  | FilePollComplete _ => λ x _, match x with Some (Ok p) => 0 <= p < 2 ^ 63 | _ => True end
  | _ => λ _ _, True
  end.
Definition polled_upd (X : Type) (e : QuotaE X) : X → Polled → Polled :=
  match e in QuotaE X return X → Polled → Polled with
  | FilePollWrite _ _ => λ x s,
      match x with
      | Some (Ok n) => po_move (po_position s + n) (Z.max (po_highest s) (po_position s + n)) s
      | _ => s
      end
  | FilePollComplete _ => λ x s, match x with Some (Ok p) => po_move p (po_highest s) s | _ => s end
  | UpdateAtomics δ _ => λ x s,
      if x then mk_Polled (po_counted s + sd_logical δ) (po_recorded s) (po_position s) (po_highest s) (po_refused s)
      else mk_Polled (po_counted s) (po_recorded s) (po_position s) (po_highest s) true
  | UpdateSizeIterator _ δ => λ _ s,
      mk_Polled (po_counted s) (po_recorded s + δ) (po_position s) (po_highest s) (po_refused s)
  | _ => λ _ s, s
  end.
Definition polled_may (X : Type) (e : QuotaE X) (s : Polled) : Prop := match e with OutOfFuel => False | _ => True end.
Notation "'pwp'" := (wp polled_may polled_ok polled_upd).

(** What was counted for the future in flight, before the tree has it. *)
Definition in_flight (self : AsyncServerFile) : Z :=
  match allocation_in_progress self with Some Allocation.WaitLock => as_allocating self | _ => 0 end.
Definition async_ok (self : AsyncServerFile) (s : Polled) : Prop :=
  as_current self = po_position s ∧ as_highest self = po_highest s ∧
  po_recorded s + as_accumulated self + as_allocating self <= po_highest s ∧
  (po_recorded s + as_accumulated self + as_allocating self = po_highest s ∨ po_refused s = true) ∧
  po_counted s = po_recorded s + in_flight self ∧
  0 <= as_accumulated self ∧ 0 <= as_allocating self ∧ 0 <= po_recorded s ∧
  0 <= po_position s < 2 ^ 63 ∧ 0 <= po_highest s < 2 ^ 63 ∧
  (allocation_in_progress self = None → as_allocating self = 0).

Lemma poll_allocation_wp self s (Φ : option (ior unit) * AsyncServerFile → Polled → Prop) :
  async_ok self s → (∀ r self' s', async_ok self' s' → Φ (r, self') s') → pwp (poll_allocation self) s Φ.
Proof.
  intros Hs HΦ. unfold poll_allocation. destruct (allocation_in_progress self) as [phase |] eqn:Hp; [| by apply HΦ].
  assert (∀ s1, po_counted s1 = po_recorded s1 + as_allocating self →
    po_recorded s1 = po_recorded s → po_position s1 = po_position s → po_highest s1 = po_highest s → po_refused s1 = po_refused s →
    pwp (locked ← call PollUsageLock;
         if (locked : bool) then
           _ ← call (UpdateSizeIterator (as_parent self) (as_allocating self)); mret (Some true, Allocation.WaitLock)
         else mret (None, Allocation.WaitLock) : Qprog _) s1 (λ r s, pwp (let '(polled, phase) := r in
      mret match polled with
           | Some true => (Some (Ok tt), set_allocation (as_accumulated self) 0 None self)
           | Some false =>
               (Some (Err (StorageFull "Failed to allocate space")), set_allocation (as_accumulated self) 0 None self)
           | None => (None, set_allocation (as_accumulated self) (as_allocating self) (Some phase) self)
           end : Qprog _) s Φ)) as Hlock.
  { intros s1 H1 H2 H3 H4 H5. apply wp_bind. split; [done |]. intros [] _.
    - cbn. split; [done |]. intros [] _. apply HΦ. unfold async_ok, in_flight in *. rewrite Hp in Hs. cbn.
      rewrite ?H1, ?H2, ?H3, ?H4, ?H5. destruct phase; naive_solver lia.
    - cbn. apply HΦ. unfold async_ok, in_flight in *. rewrite Hp in Hs. cbn.
      rewrite ?H1, ?H2, ?H3, ?H4, ?H5. destruct phase; naive_solver lia. }
  apply wp_bind. unfold poll_future. apply wp_bind. destruct phase.
  - split; [done |]. intros [] _.
    + apply Hlock; try done. cbn. unfold async_ok, in_flight in Hs. rewrite Hp in Hs. lia.
    + cbn. apply HΦ. unfold async_ok, in_flight in *. rewrite Hp in Hs. cbn. naive_solver lia.
  - apply Hlock; try done. unfold async_ok, in_flight in Hs. rewrite Hp in Hs. lia.
Qed.

Lemma start_allocation_ok self s : async_ok self s → async_ok (start_allocation self) s.
Proof.
  intros Hs. unfold start_allocation. destruct (allocation_in_progress self) as [phase |] eqn:Hp; [done |].
  destruct (Z.ltb_spec 0 (as_accumulated self)); [| done]. unfold async_ok, in_flight in *. rewrite Hp in Hs. cbn.
  destruct Hs as (? & ? & ? & ? & ? & ? & ? & ? & ? & ? & Hn). specialize (Hn eq_refl). naive_solver lia.
Qed.

Definition poll_ok {A} (m : Qprog (A * AsyncServerFile)) (s : Polled) : Prop := pwp m s (λ r s, async_ok (snd r) s).

Lemma after_allocation_wp {A} self s (k : AsyncServerFile → Qprog (option (ior A) * AsyncServerFile)) :
  async_ok self s → (∀ self s, async_ok self s → poll_ok (k self) s) → poll_ok (after_allocation self k) s.
Proof.
  intros Hs Hk. apply wp_bind, poll_allocation_wp; [done |].
  intros [[[] | err] |] self' s' Hs'; [by apply Hk | done | done].
Qed.

Lemma settle_wp {A} self s (k : AsyncServerFile → Qprog (option (ior A) * AsyncServerFile)) :
  async_ok self s → (∀ self s, async_ok self s → poll_ok (k self) s) → poll_ok (settle self k) s.
Proof.
  intros Hs Hk. apply after_allocation_wp; [done |]. clear self s Hs. intros self s Hs.
  destruct (0 <? as_accumulated self); [| by apply Hk].
  apply after_allocation_wp; [by apply start_allocation_ok | done].
Qed.

Lemma poll_write_wp buf self s : async_ok self s → poll_ok (poll_write buf self) s.
Proof.
  intros Hs. apply after_allocation_wp; [done |]. clear self s Hs. intros self s Hs.
  destruct (as_file self) as [file |]; [| done]. apply wp_bind. split; [done |].
  intros [[n | err] |] Hn; [| done..]. cbn in Hn. cbn [wp call mret Qprog_ret prog_ret snd polled_upd].
  unfold async_ok, in_flight in Hs. rewrite u64_add_small by (unfold in_u64; lia).
  destruct (Z.ltb_spec (as_highest self) (as_current self + n)).
  - rewrite u64_sub_small by (unfold in_u64; lia). rewrite (as_i64_id (_ - _)), as_i64_id by (unfold in_i64; lia).
    set (self' := set_positions _ _ _ self).
    assert (async_ok self' (po_move (po_position s + n) (po_highest s `max` (po_position s + n)) s)) as Hs'.
    { unfold async_ok, in_flight. cbn. destruct (allocation_in_progress self) as [[] |]; naive_solver lia. }
    destruct (ALLOCATION_THRESHOLD <=? _); [by apply start_allocation_ok | done].
  - unfold async_ok, in_flight. cbn. destruct (allocation_in_progress self) as [[] |]; naive_solver lia.
Qed.

Lemma run_poll_op_wp op self s : async_ok self s → pwp (run_poll_op op self) s async_ok.
Proof.
  intros Hs. destruct op as [buf | | | pos | | n]; apply wp_bind;
    (eapply wp_mono; [| by intros r s' H; exact H]); cbn beta.
  - by apply poll_write_wp.
  - apply settle_wp; [done |]. clear self s Hs. intros self s Hs. destruct (as_file self); [| done].
    split; [done |]. by intros x _.
  - apply settle_wp; [done |]. clear self s Hs. intros self s Hs. destruct (as_file self); [| done].
    split; [done |]. by intros x _.
  - unfold start_seek. assert (async_ok (if 0 <? as_accumulated self then start_allocation self else self) s) as Hs'
      by (destruct (0 <? _); [by apply start_allocation_ok | done]).
    destruct (as_file _); [| exact Hs']. split; [done |]. by intros x _.
  - apply after_allocation_wp; [done |]. clear self s Hs. intros self s Hs. destruct (as_file self); [| done].
    split; [done |]. intros [[p | err] |] Hp; [| done..]. cbn in Hp |- *. unfold async_ok, in_flight in *. cbn.
    destruct (allocation_in_progress self) as [[] |]; naive_solver lia.
  - unfold AsyncServerFile_poll_read. destruct (as_file self); [| done]. split; [done |]. by intros x _.
Qed.

(** ** Properties *)

(** A polled file is recorded for the bytes it reaches.  However a file that
    was created empty is polled (writes, flushes, seeks, shutdown, in any order,
    with pending answers, refusals, and a lock that is busy or free), when it
    is dropped at any point: the tree of sizes was given at most the highest
    position a write reached, and exactly that unless a request was refused;
    and the counters were given at least as much. *)
Theorem async_file_records (ops : list PollOp.PollOp) (parent : list bytes) (file : Z) (ignorant : bool) (modified : option Z) :
  pwp (use_async_file ops (mk_AsyncServerFile parent (Some file) ignorant 0 0 modified None 0 0)) (mk_Polled 0 0 0 0 false)
    (λ _ s, po_recorded s <= po_highest s ∧ (po_recorded s = po_highest s ∨ po_refused s = true) ∧
      po_recorded s <= po_counted s).
Proof.
  assert (∀ self s, async_ok self s → pwp (use_async_file ops self) s (λ _ s,
    po_recorded s <= po_highest s ∧ (po_recorded s = po_highest s ∨ po_refused s = true) ∧ po_recorded s <= po_counted s)) as H.
  { induction ops as [| op ops IH]; intros self s Hs; cbn [use_async_file].
    - unfold AsyncServerFile_drop. assert (0 <= in_flight self) as Hin.
      { unfold in_flight. unfold async_ok in Hs. destruct (allocation_in_progress self) as [[] |]; lia. }
      assert (∀ s, po_recorded s <= po_highest s ∧ (po_recorded s = po_highest s ∨ po_refused s = true) ∧
        po_recorded s <= po_counted s → pwp (match as_file self with
          | None => mret tt
          | Some file => _ ← call (FileFlush file);
              match as_modified self with
              | Some modified => _ ← call (FileSetModified file modified); mret tt
              | None => mret tt
              end
          end : Qprog unit) s (λ _ s, po_recorded s <= po_highest s ∧ (po_recorded s = po_highest s ∨ po_refused s = true) ∧
            po_recorded s <= po_counted s)) as Hend.
      { intros s2 H2. destruct (as_file self); [| exact H2]. split; [done |]. intros r _.
        destruct (as_modified self); [| exact H2]. split; [done |]. by intros r' _. }
      apply wp_bind. unfold async_ok in Hs. destruct (Z.ltb_spec 0 (as_accumulated self + as_allocating self)).
      + apply wp_bind. split; [done |]. intros [] _.
        * split; [done |]. intros [] _. apply Hend. cbn. naive_solver lia.
        * apply Hend. cbn. naive_solver lia.
      + apply Hend. naive_solver lia.
    - apply wp_bind. eapply wp_mono; [by apply run_poll_op_wp |]. intros self' s' Hs'. by apply IH. }
  apply H. unfold async_ok, in_flight. cbn. repeat split; lia || auto.
Qed.

(** A disk that takes every write whole, grants every request and adds up what
    is asked of the counters and of the tree, while another task holds the lock
    of the tree. *)
Definition busy_disk (X : Type) (e : QuotaE X) (w : Z * Z) : X * (Z * Z) :=
  match e in QuotaE X return X * (Z * Z) with
  | UpdateAtomics δ _ => (true, (fst w + sd_logical δ, snd w))
  | UpdateSizeIterator _ δ => (tt, (fst w, snd w + δ))
  | UpdateSize _ _ => (tt, w)
  | RemoveUsage _ => (None, w)
  | GetUsage _ => (None, w)
  | MimeGet _ _ _ => (None, w)
  | MimeInsert _ _ _ _ => (tt, w)
  | AddDirectory _ _ => (tt, w)
  | PollUsageLock => (false, w)
  | CopyFileRange _ _ _ => (Ok 0, w)
  | FileWrite _ d => (Ok (zlen d), w)
  | FilePollWrite _ d => (Some (Ok (zlen d)), w)
  | OnFs fe => match fe in FsE X return X * (Z * Z) with
               | LoadInner _ => (None, w)
               | StoreInner _ _ => (tt, w)
               | ReadDirNext _ => (None, w)
               | SpawnBlocking => (None, w)
               | Now => (0, w)
               | _ => (Err UnexpectedEof, w)
               end
  | IsAborted => (false, w)
  | AddProgress _ => (tt, w)
  | OutOfFuel => (tt, w)
  | FilePollFlush _ | FilePollShutdown _ => (Some (Ok tt), w)
  | FilePollComplete _ => (None, w)
  | FilePollRead _ _ => (None, w)
  | _ => (Err UnexpectedEof, w)
  end.

(** One write of at least an allocation step, a flush that finds the lock busy,
    and the file is dropped: the future in flight has already moved the
    counters, and dropping asks for the same bytes again. *)
Theorem dropped_allocation_counts_twice (buf : bytes) (parent : list bytes) (file : Z)
    (Hbuf : ALLOCATION_THRESHOLD <= zlen buf < 2 ^ 63) :
  snd (run busy_disk (use_async_file [PollOp.Write buf; PollOp.Flush] (mk_AsyncServerFile parent (Some file) false 0 0 None None 0 0))
    (0, 0)) = (2 * zlen buf, zlen buf).
Proof.
  set (n := zlen buf) in *. assert (0 < n) as Hpos by (unfold ALLOCATION_THRESHOLD in Hbuf; lia).
  assert (run busy_disk (poll_write buf (mk_AsyncServerFile parent (Some file) false 0 0 None None 0 0)) (0, 0) =
    ((Some (Ok n), mk_AsyncServerFile parent (Some file) false 0 n None (Some Allocation.Start) n n), (0, 0))) as Hw.
  { unfold poll_write, after_allocation, poll_allocation. cbn -[start_allocation as_i64 u64_add u64_sub ALLOCATION_THRESHOLD].
    fold n. rewrite u64_add_small by (unfold in_u64; lia). destruct (Z.ltb_spec 0 (0 + n)); [| lia].
    rewrite u64_sub_small by (unfold in_u64; lia). rewrite (as_i64_id (_ - _)), as_i64_id by (unfold in_i64; lia).
    cbn [set_positions as_accumulated]. destruct (Z.leb_spec ALLOCATION_THRESHOLD (0 + (0 + n - 0))); [| lia].
    unfold start_allocation. cbn. destruct (Z.ltb_spec 0 (0 + (0 + n - 0))); [| lia].
    unfold set_allocation. cbn. repeat f_equal; lia. }
  cbn [use_async_file run_poll_op]. unfold mbind, Qprog_bind. rewrite !run_bind, Hw. cbn [run mret Qprog_ret prog_ret snd].
  rewrite !run_bind. unfold poll_flush, settle, after_allocation, poll_allocation. cbn -[Z.mul].
  destruct (Z.ltb_spec 0 n); [| lia]. cbn -[Z.mul]. unfold AsyncServerFile_drop. cbn -[Z.mul].
  destruct (Z.ltb_spec 0 (0 + n)); [| lia]. cbn -[Z.mul]. f_equal; lia.
Qed.

Lemma dropped_allocation_counts_twice_witness :
  snd (run busy_disk (use_async_file [PollOp.Write (replicate (Z.to_nat 1048576) 0); PollOp.Flush]
    (mk_AsyncServerFile [] (Some 1) false 0 0 None None 0 0)) (0, 0)) = (2 * 1048576, 1048576).
Proof.
  assert (zlen (replicate (Z.to_nat 1048576) 0) = 1048576) as Hl by (apply zlen_replicate; lia).
  rewrite (dropped_allocation_counts_twice (replicate (Z.to_nat 1048576) 0) [] 1), Hl; [done |].
  rewrite Hl. unfold ALLOCATION_THRESHOLD. lia.
Defined.
