(* ===== verification/FsOps.v ===== *)
(** * FsOps: removing and renaming (application/src/server/filesystem/mod.rs)

    [truncate_path] and [rename_path], the operations that move the counters
    by the sizes of what they find. *)
From S2P Require Import Prelude IoModel Paths Utf8 DiskUsage Effects CapFs Quota.

(** [Path::file_name] *)
Definition path_file_name (p : bytes) : option bytes :=
  match list.last (components p) with Some (Component.Normal name) => Some name | _ => None end.

Definition truncate_path (fs : CapFilesystem) (path : bytes) : Q unit :=
  let path := relative_path fs path in
  metadata ← on_fs (async_symlink_metadata fs path);
  if raw_is_dir (md_file_type metadata) then
    _ ← on_fs (async_remove_dir_all fs path);
    removed ← qcall (RemoveUsage path);
    match removed with
    | Some removed =>
        _ ← qcall (UpdateAtomics (mk_SpaceDelta (as_i64 (- as_i64 (us_logical (du_space removed))))
                                                (as_i64 (- as_i64 (us_physical (du_space removed))))) false);
        mret tt
    | None => mret tt
    end
  else
    let size := md_len metadata in
    _ ← on_fs (async_remove_file fs path);
    match path_parent path with
    | Some parent => _ ← allocate_in_path parent (- size) false; mret tt
    | None => mret tt
    end.

Definition bail {A} (msg : string) : Q A := io_throw (IoOther msg).
(** [.unwrap_or_default()] *)
Definition or_default (m : Q bytes) : Q bytes := r ← attempt m; mret (default [] r).
(** The parent of a path, canonical. *)
Definition canonical_parent (fs : CapFilesystem) (path : bytes) (msg : string) : Q bytes :=
  match path_parent path with
  | Some parent => or_default (on_fs (async_canonicalize fs parent))
  | None => bail msg
  end.

(** After the rename: a directory takes its subtree along, a file its size. *)
Definition rename_accounting (is_dir : bool) (old_path old_parent new_parent abs_new_path : bytes) (size : Z)
    (new_metadata : option Metadata) : Q unit :=
  if is_dir then
    removed ← qcall (RemoveUsage old_path);
    match removed with
    | Some dir => qcall (AddDirectory (map (λ c, from_utf8_lossy (component_bytes c)) (components abs_new_path)) dir)
    | None => mret tt
    end
  else
    match new_metadata with
    | Some new_metadata =>
        let new_size := md_len new_metadata in
        let size_delta := new_size - size in
        _ ← allocate_in_path old_parent (- size) true;
        _ ← allocate_in_path new_parent size_delta true;
        mret tt
    | None =>
        _ ← allocate_in_path old_parent (- size) true;
        _ ← allocate_in_path new_parent size true;
        mret tt
    end.

Definition rename_path (fs : CapFilesystem) (old_path new_path : bytes) : Q unit :=
  let old_path := relative_path fs old_path in
  let new_path := relative_path fs new_path in
  _ ← match path_parent new_path with Some parent => on_fs (async_create_dir_all fs parent) | None => mret tt end;
  old_metadata ← on_fs (async_metadata fs old_path);
  new_metadata ← attempt (on_fs (async_metadata fs new_path));
  old_parent ← canonical_parent fs old_path "failed to get old path parent";
  new_parent ← canonical_parent fs new_path "failed to get new path parent";
  match path_file_name new_path with
  | None => bail "failed to get new path file name"
  | Some name =>
      _ ← on_fs (async_rename fs old_path fs new_path);
      rename_accounting (raw_is_dir (md_file_type old_metadata)) old_path old_parent new_parent
        (path_join new_parent name) (md_len old_metadata) new_metadata
  end.

(** ** Ledgers *)

(** The ghost state: the metadata that was answered, in order, the subtrees
    taken out of the tree, and what the counters were given. *)
Record Ledger : Type := mk_Ledger {
  lg_sizes : list (option Metadata);
  lg_removed : list (option DiskUsage);
  lg_counted : Z;
}.

Definition answered (x : ior Metadata) (s : Ledger) : Ledger :=
  mk_Ledger (lg_sizes s ++ [result_ok x]) (lg_removed s) (lg_counted s).
(** A request that frees space, or does not look at the limit, is granted. *)
Definition ledger_ok (X : Type) (e : QuotaE X) : X → Ledger → Prop :=
  match e in QuotaE X return X → Ledger → Prop with
  | UpdateAtomics δ ignorant => λ x _, ignorant = true ∨ sd_physical δ <= 0 → x = true
  | _ => λ _ _, True
  end.
Definition ledger_upd (X : Type) (e : QuotaE X) : X → Ledger → Ledger :=
  match e in QuotaE X return X → Ledger → Ledger with
  | OnFs fe =>
      match fe in FsE X return X → Ledger → Ledger with
      | DirMetadata _ _ => answered
      | DirSymlinkMetadata _ _ => answered
      | AmbientMetadata _ => answered
      | AmbientSymlinkMetadata _ => answered
      | _ => λ _ s, s
      end
  | RemoveUsage _ => λ x s, mk_Ledger (lg_sizes s) (lg_removed s ++ [x]) (lg_counted s)
  | UpdateAtomics δ _ => λ x s, if x then mk_Ledger (lg_sizes s) (lg_removed s) (lg_counted s + sd_logical δ) else s
  | _ => λ _ s, s
  end.
Definition ledger_may (X : Type) (e : QuotaE X) (s : Ledger) : Prop := match e with OutOfFuel => False | _ => True end.
Notation "'lwp'" := (wp ledger_may ledger_ok ledger_upd).
Definition empty_ledger : Ledger := mk_Ledger [] [] 0.

Lemma ledger_fs {A} (m : prog FsE A) s Φ :
  wp (λ X e, ledger_may X (OnFs e)) (λ X e, ledger_ok X (OnFs e)) (λ X e, ledger_upd X (OnFs e)) m s Φ → lwp (on_fs m) s Φ.
Proof.
  revert s. induction m as [a | X e k IH]; intros s Hm; cbn [on_fs wp] in *; [done |]. destruct Hm as [Hmay Hm].
  split; [done |]. intros x Hx. by apply IH, Hm.
Qed.

Lemma ledger_get_inner fs s Φ : (∀ r, Φ r s) →
  wp (λ X e, ledger_may X (OnFs e)) (λ X e, ledger_ok X (OnFs e)) (λ X e, ledger_upd X (OnFs e)) (get_inner fs) s Φ.
Proof. intros H. split; [done |]. intros [dir |] _; apply H. Qed.

(** A call of the sandbox that is not recorded. *)
Lemma ledger_dir {A} fs path (op : Z → bytes → FsE (ior A)) s (Φ : ior A → Ledger → Prop) :
  (∀ dir p x, ledger_upd _ (OnFs (op dir p)) x s = s) → (∀ r, Φ r s) → lwp (on_fs (async_on_dir fs path op)) s Φ.
Proof.
  intros Hop H. apply ledger_fs. unfold async_on_dir. apply wp_io_bind, ledger_get_inner. intros [dir | err]; [| apply H].
  split; [done |]. intros [err |] _; [apply H |]. split; [done |]. intros x _. rewrite Hop. apply H.
Qed.

Lemma ledger_allocate path δ s (Φ : ior bool → Ledger → Prop) :
  Φ (Ok true) (mk_Ledger (lg_sizes s) (lg_removed s) (lg_counted s + δ)) → lwp (allocate_in_path path δ true) s Φ.
Proof.
  intros H. apply wp_io_bind. split; [done |]. intros [] Hok; cbn; [| by specialize (Hok ltac:(by left))].
  split; [done |]. intros [] _. exact H.
Qed.

Lemma ledger_metadata fs path s (Φ : ior Metadata → Ledger → Prop) :
  (∀ md, Φ (Ok md) (answered (Ok md) s)) → (∀ err, Φ (Err err) s) → (∀ err, Φ (Err err) (answered (Err err) s)) →
  lwp (on_fs (async_metadata fs path)) s Φ.
Proof.
  intros Hok Herr Herr'. apply ledger_fs. unfold async_metadata. destruct (is_root _).
  - split; [done |]. intros [md | err] _; [apply Hok | apply Herr'].
  - apply wp_io_bind, ledger_get_inner. intros [dir | err]; [| apply Herr].
    split; [done |]. intros [err |] _; [apply Herr |]. split; [done |]. intros [md | err] _; [apply Hok | apply Herr'].
Qed.

Lemma ledger_parent fs path msg s (Φ : ior bytes → Ledger → Prop) : (∀ r, Φ r s) → lwp (canonical_parent fs path msg) s Φ.
Proof.
  intros H. unfold canonical_parent. destruct (path_parent path) as [parent |]; [| apply H].
  assert (lwp (on_fs (async_canonicalize fs parent)) s (λ _ s', s' = s)) as Hc.
  { apply ledger_fs. unfold async_canonicalize. destruct (is_root _); [done |].
    apply wp_io_bind, ledger_get_inner. intros [dir | err]; [| done].
    split; [done |]. intros [err |] _; [done |]. split; [done |]. by intros x _. }
  unfold or_default, attempt. apply wp_io_bind, wp_bind. eapply wp_mono; [exact Hc |].
  intros r s' ->. cbn. apply H.
Qed.

(** What a rename should move the counters by: the size of the file it replaces
    goes; a rename itself neither makes nor removes bytes. *)
Definition rename_true_delta (old_metadata : Metadata) (new_metadata : option Metadata) : Z :=
  match new_metadata with
  | Some new_metadata => if raw_is_dir (md_file_type old_metadata) then 0 else - md_len new_metadata
  | None => 0
  end.

Lemma rename_accounting_wp is_dir old_path old_parent new_parent abs size new_metadata s :
  lwp (rename_accounting is_dir old_path old_parent new_parent abs size new_metadata) s (λ r s',
    r = Ok tt ∧ lg_sizes s' = lg_sizes s ∧
    lg_counted s' = lg_counted s + (if is_dir then 0 else match new_metadata with Some md => md_len md - 2 * size | None => 0 end)).
Proof.
  unfold rename_accounting. destruct is_dir.
  - apply wp_io_bind. split; [done |]. intros [d |] _; cbn; [split; [done |]; intros [] _; cbn |]; split; try done; split; try done; lia.
  - destruct new_metadata as [md |]; apply wp_io_bind, ledger_allocate, wp_io_bind, ledger_allocate; cbn;
      split; try done; split; try done; lia.
Qed.

(** Renaming a file onto another one miscounts.  However the operating system
    answers, a rename that succeeds has moved the counters by the size of the
    replaced file less twice the size of the renamed one; only a rename that
    replaces nothing, or renames a directory, leaves the counters as they
    should be. *)
Theorem rename_path_counts (fs : CapFilesystem) (old_path new_path : bytes) :
  lwp (rename_path fs old_path new_path) empty_ledger (λ r s, r = Ok tt →
    ∃ old_metadata, lg_sizes s !! 0%nat = Some (Some old_metadata) ∧
      let new_metadata := mjoin (lg_sizes s !! 1%nat) in
      lg_counted s = rename_true_delta old_metadata new_metadata +
        (if raw_is_dir (md_file_type old_metadata) then 0
         else match new_metadata with Some md => 2 * (md_len md - md_len old_metadata) | None => 0 end)).
Proof.
  unfold rename_path. apply wp_io_bind.
  assert (lwp (match path_parent (relative_path fs new_path) with
    | Some parent => on_fs (async_create_dir_all fs parent) | None => mret tt end : Q unit) empty_ledger (λ _ s, s = empty_ledger)) as Hp.
  { destruct (path_parent _); [| done]. by apply ledger_dir. }
  eapply wp_mono; [exact Hp |]. intros [[] | err] s ->; [| done]. clear Hp.
  apply wp_io_bind, ledger_metadata; [| done | done]. intros old_md.
  assert (∀ s new_md, lg_sizes s !! 0%nat = Some (Some old_md) → mjoin (lg_sizes s !! 1%nat) = new_md → lg_counted s = 0 →
    lwp (old_parent ← canonical_parent fs (relative_path fs old_path) "failed to get old path parent";
         new_parent ← canonical_parent fs (relative_path fs new_path) "failed to get new path parent";
         match path_file_name (relative_path fs new_path) with
         | None => bail "failed to get new path file name"
         | Some name =>
             _ ← on_fs (async_rename fs (relative_path fs old_path) fs (relative_path fs new_path));
             rename_accounting (raw_is_dir (md_file_type old_md)) (relative_path fs old_path) old_parent new_parent
               (path_join new_parent name) (md_len old_md) new_md
         end : Q unit) s (λ r s, r = Ok tt →
    ∃ old_metadata, lg_sizes s !! 0%nat = Some (Some old_metadata) ∧
      let new_metadata := mjoin (lg_sizes s !! 1%nat) in
      lg_counted s = rename_true_delta old_metadata new_metadata +
        (if raw_is_dir (md_file_type old_metadata) then 0
         else match new_metadata with Some md => 2 * (md_len md - md_len old_metadata) | None => 0 end))) as Hrest.
  { intros s new_md H0 H1 Hc. apply wp_io_bind, ledger_parent. intros [old_parent | err]; [| done].
    apply wp_io_bind, ledger_parent. intros [new_parent | err]; [| done]. destruct (path_file_name _) as [name |]; [| done].
    apply wp_io_bind. eapply (wp_mono _ _ _ _ _ (λ _ s', s' = s)).
    - apply ledger_fs. unfold async_rename. apply wp_io_bind, ledger_get_inner. intros [d1 | err]; [| done].
      apply wp_io_bind, ledger_get_inner. intros [d2 | err]; [| done].
      split; [done |]. intros [err |] _; [done |]. split; [done |]. by intros x _.
    - intros [[] | err] s' ->; [| done]. eapply wp_mono; [apply rename_accounting_wp |]. intros r s' (-> & Hsz & Hct) _.
      exists old_md. rewrite Hsz, H1, Hct, Hc. split; [done |]. unfold rename_true_delta. cbv zeta.
      destruct new_md as [md |], (raw_is_dir _); lia. }
  apply wp_io_bind. apply wp_bind, ledger_metadata; [intros md | intros err | intros err]; by apply Hrest.
Qed.

(** ** Removing *)

Lemma ledger_symlink_metadata fs path s (Φ : ior Metadata → Ledger → Prop) :
  (∀ md, Φ (Ok md) (answered (Ok md) s)) → (∀ err s, Φ (Err err) s) → lwp (on_fs (async_symlink_metadata fs path)) s Φ.
Proof.
  intros Hok Herr. apply ledger_fs. unfold async_symlink_metadata. destruct (is_root _).
  - split; [done |]. intros [md | err] _; [apply Hok | apply Herr].
  - apply wp_io_bind, ledger_get_inner. intros [dir | err]; [| apply Herr].
    split; [done |]. intros [err |] _; [apply Herr |]. split; [done |]. intros [md | err] _; [apply Hok | apply Herr].
Qed.

(** Removing a file gives back its length; removing a directory, the size that
    was recorded for it, if it was in the tree. *)
Theorem truncate_path_counts (fs : CapFilesystem) (path : bytes) :
  lwp (truncate_path fs path) empty_ledger (λ r s, r = Ok tt →
    ∃ md, lg_sizes s = [Some md] ∧
      if raw_is_dir (md_file_type md) then
        ∃ removed, lg_removed s = [removed] ∧
          match removed with
          | Some d => 0 <= as_i64 (us_physical (du_space d)) → lg_counted s = as_i64 (- as_i64 (us_logical (du_space d)))
          | None => lg_counted s = 0
          end
      else path_parent (relative_path fs path) ≠ None → 0 <= md_len md → lg_counted s = - md_len md).
Proof.
  unfold truncate_path. apply wp_io_bind, ledger_symlink_metadata; [| done]. intros md.
  destruct (raw_is_dir (md_file_type md)) eqn:Hd.
  - apply wp_io_bind, ledger_dir; [done |]. intros [[] | err]; [| done].
    apply wp_io_bind. split; [done |]. intros [d |] _.
    + apply wp_io_bind. split; [done |]. intros b Hb. cbn in Hb |- *. intros _. exists md. destruct b; cbn; (split; [done |]); rewrite Hd.
      * exists (Some d). split; [done |]. intros _. lia.
      * exists (Some d). split; [done |]. intros Hphys. assert (false = true) as Hf; [| done]. apply Hb. right.
        cbn [sd_physical]. pose proof (as_i64_range (us_physical (du_space d))) as Hr. unfold in_i64 in Hr.
        rewrite as_i64_id by (unfold in_i64; lia). lia.
    + cbn. intros _. exists md. split; [done |]. rewrite Hd. by exists None.
  - apply wp_io_bind, ledger_dir; [done |]. intros [[] | err]; [| done].
    destruct (path_parent _) as [parent |]; [| cbn; intros _; exists md; rewrite Hd; done].
    apply wp_io_bind, wp_io_bind. split; [done |]. intros [] Hok.
    + cbn. split; [done |]. intros [] _ _. exists md. cbn. rewrite Hd. split; [done |]. lia.
    + cbn. intros _. exists md. rewrite Hd. split; [done |]. intros _ Hl. cbn in Hok. specialize (Hok ltac:(right; lia)). done.
Qed.

(** ** The limit *)

Definition run_updates (deltas : list SpaceDelta) (c : Counters) : Counters :=
  fold_left (λ c δ, snd (try_update_atomics δ false c)) deltas c.

Lemma try_update_limit δ c : let limit := disk_limit c in
  0 < limit < 2 ^ 63 → in_i64 (sd_physical δ) → 0 <= cached_physical c <= limit →
  let c' := snd (try_update_atomics δ false c) in disk_limit c' = limit ∧ 0 <= cached_physical c' <= limit.
Proof.
  cbv zeta. intros Hl Hd Hc. unfold try_update_atomics. destruct (_ && _); [done |].
  unfold update_physical. cbn [negb andb]. rewrite (proj2 (Z.eqb_neq _ _)) by lia. cbn [negb].
  rewrite (wrap64_small (disk_limit c)) by (unfold in_u64; lia). unfold in_i64 in Hd.
  assert (∀ c2, disk_limit c2 = disk_limit c → 0 <= cached_physical c2 <= disk_limit c →
    disk_limit (snd (true, add_delta_cached (sd_logical δ) (update_logical (sd_logical δ) c2))) = disk_limit c ∧
    0 <= cached_physical (snd (true, add_delta_cached (sd_logical δ) (update_logical (sd_logical δ) c2))) <= disk_limit c) as Hlog.
  { intros c2 H1 H2. unfold update_logical. destruct (0 <? _); [done |]. by destruct (_ <? 0). }
  destruct (Z.ltb_spec 0 (sd_physical δ)).
  - rewrite u64_add_small by (unfold in_u64; lia). destruct (Z.ltb_spec (disk_limit c) (cached_physical c + sd_physical δ)); [done |].
    apply Hlog; cbn; [done | lia].
  - destruct (Z.ltb_spec (sd_physical δ) 0); apply Hlog; try done. cbn. unfold saturating_sub. lia.
Qed.

(** ** Properties *)

(** The disk limit holds: however requests to grow and to shrink arrive, as
    long as none of them ignores the limit, the size the server is counted with
    stays within its limit, and never wraps around. *)
Theorem counters_within_limit (c : Counters) (deltas : list SpaceDelta)
    (Hlimit : 0 < disk_limit c < 2 ^ 63) (Hstart : 0 <= cached_physical c <= disk_limit c)
    (Hdeltas : Forall (λ δ, in_i64 (sd_physical δ)) deltas) :
  disk_limit (run_updates deltas c) = disk_limit c ∧ 0 <= cached_physical (run_updates deltas c) <= disk_limit c.
Proof.
  revert c Hlimit Hstart. induction Hdeltas as [| δ deltas Hd Hds IH]; intros c Hl Hc; [done |].
  destruct (try_update_limit δ c Hl Hd Hc) as [H1 H2]. cbn [run_updates fold_left].
  rewrite <- H1 in H2, Hl |- *. by apply IH.
Qed.

Lemma counters_within_limit_witness :
  let c := mk_Counters 100 0 0 0 DiskUsage_default in
  disk_limit (run_updates [SpaceDelta_from 60; SpaceDelta_from 50; SpaceDelta_from (-20); SpaceDelta_from 60] c) = 100 ∧
  0 <= cached_physical (run_updates [SpaceDelta_from 60; SpaceDelta_from 50; SpaceDelta_from (-20); SpaceDelta_from 60] c) <= 100.
Proof.
  apply (counters_within_limit (mk_Counters 100 0 0 0 DiskUsage_default)); cbn; [lia | lia |].
  repeat constructor; unfold in_i64; cbn; lia.
Defined.
