(* ===== verification/Entries.v ===== *)
(** * Entries: what a listing says about a file (application/src/models.rs, utils.rs, server/filesystem/mod.rs)

    The entries of a listing, how they are built from the metadata of a file,
    how they are ordered, and the pages they are served in.  The crates
    [infer] and [mime_guess] are parameters. *)
From stdpp Require Import sorting.
From S2P Require Import Prelude IoModel Paths Utf8 DiskUsage UsageTree Effects CapFs Quota FsOps CapWalk.

(** ** The data (models.rs, routes/mod.rs) *)

Module DirectorySortingMode.
Inductive DirectorySortingMode : Type :=
  | NameAsc
  | NameDesc
  | SizeAsc
  | SizeDesc
  | PhysicalSizeAsc
  | PhysicalSizeDesc
  | ModifiedAsc
  | ModifiedDesc
  | CreatedAsc
  | CreatedDesc.
End DirectorySortingMode.
Export (hints) DirectorySortingMode.

(** Times are seconds since 1970. *)
Record DirectoryEntry : Type := mk_DirectoryEntry {
  den_name : bytes;
  den_mode : bytes;
  den_mode_bits : Z;
  den_size : Z;
  den_size_physical : Z;
  den_editable : bool;
  den_inner_editable : bool;
  den_directory : bool;
  den_file : bool;
  den_symlink : bool;
  den_mime : string;
  den_created : Z;
  den_modified : Z;
}.

Record DirectoryListing : Type := mk_DirectoryListing { total_entries : Z; entries : list DirectoryEntry }.

Record MimeCacheValue : Type := mk_Mime { mime : string; valid_utf8 : bool; valid_inner_utf8 : bool }.
Definition MimeCacheValue_default : MimeCacheValue := mk_Mime "application/octet-stream" false false.
Definition MimeCacheValue_directory : MimeCacheValue := mk_Mime "inode/directory" false false.
Definition MimeCacheValue_symlink : MimeCacheValue := mk_Mime "inode/symlink" false false.
Definition MimeCacheValue_text : MimeCacheValue := mk_Mime "text/plain" true false.

(** ** Kinds of contents (utils.rs, io/compression/mod.rs) *)

Definition ADDITIONAL_TEXT_MIME_TYPES : list string :=
  ["application/json"; "application/javascript"; "application/xml"; "application/x-yaml"; "application/yaml";
   "application/toml"; "application/sql"; "application/x-sh"; "application/x-httpd-php"; "image/svg+xml"]%string.
Definition detect_utf8_from_mime (mime : string) : bool :=
  String.prefix "text/" mime || bool_decide (mime ∈ ADDITIONAL_TEXT_MIME_TYPES).

Module CompressionType.
Inductive CompressionType : Type := None | Gz | Xz | Lzip | Bz2 | Lz4 | Zstd.
End CompressionType.
Definition from_mime (mime : string) : CompressionType.CompressionType :=
  if bool_decide (mime = "application/gzip")%string then CompressionType.Gz
  else if bool_decide (mime = "application/x-xz")%string then CompressionType.Xz
  else if bool_decide (mime = "application/x-lzip")%string then CompressionType.Lzip
  else if bool_decide (mime = "application/x-bzip2")%string then CompressionType.Bz2
  else if bool_decide (mime = "application/x-lz4")%string then CompressionType.Lz4
  else if bool_decide (mime = "application/zstd")%string then CompressionType.Zstd
  else CompressionType.None.

(** Well-formed, or cut off within its last sequence: [error_len] is [None]
    where the input ends too early. *)
Fixpoint valid_prefix_loop (fuel : nat) (l : bytes) : bool :=
  match fuel, l with
  | S fuel, _ :: _ =>
      let '(ok, n) := utf8_step l in
      if ok then valid_prefix_loop fuel (drop n l)
      else bool_decide (length l = n) && in_range 194 244 (default 0 (l !! 0%nat))
  | _, _ => true
  end.
Definition is_valid_utf8_slice (s : bytes) : bool := valid_prefix_loop (length s) s.

(** [Path::file_stem]: the name without what follows its last dot, unless the
    dot begins it. *)
Definition path_file_stem (p : bytes) : option bytes :=
  name ← path_file_name p;
  match list_find (λ c, c = DOT) (rev name) with
  | Some (n, _) => let stem := take (length name - S n) name in Some (if bool_decide (stem = []) then name else stem)
  | None => Some name
  end.
(** [Path::extension] *)
Definition path_extension (p : bytes) : option bytes :=
  name ← path_file_name p;
  match list_find (λ c, c = DOT) (rev name) with
  | Some (n, _) => if bool_decide (take (length name - S n) name = []) then None else Some (drop (length name - n) name)
  | None => None
  end.

Section mime.
(** [infer::get] on the first bytes of a file, and the first answer of
    [mime_guess::from_path]. *)
Context (infer_get : bytes → option string) (guess_mime : bytes → option string).

Definition detect_inner_utf8 (path : bytes) (mime : string) : bool :=
  match from_mime mime with
  | CompressionType.None => false
  | _ =>
      match stem ← path_file_stem path; to_str stem with
      | None => false
      | Some file_stem => match guess_mime file_stem with Some stem_mime => detect_utf8_from_mime stem_mime | None => false end
      end
  end.

Definition detect_mime_type (path : bytes) (buffer : option bytes) : MimeCacheValue :=
  let valid_utf8 := match buffer with Some buffer => is_valid_utf8_slice buffer || bool_decide (buffer = []) | None => false end in
  match (buffer ← buffer; infer_get buffer) with
  | Some mime => mk_Mime mime valid_utf8 (detect_inner_utf8 path mime)
  | None =>
      match guess_mime path with
      | Some mime => mk_Mime mime (valid_utf8 || detect_utf8_from_mime mime) (detect_inner_utf8 path mime)
      | None => if valid_utf8 then mk_Mime "text/plain" true false else mk_Mime "application/octet-stream" false false
      end
  end.
End mime.

(** ** Order and pages *)

(** [str::cmp_ascii_case_insensitive], and that of [Path]. *)
Definition to_ascii_lowercase (b : Z) : Z := if in_range 65 90 b then b + 32 else b.
Definition cmp_ascii_case_insensitive (a b : bytes) : comparison :=
  str_cmp (map to_ascii_lowercase a) (map to_ascii_lowercase b).

(** [slice::sort_by]; [sort_unstable_by] is taken to be it too. *)
Definition sort_by {A} (cmp : A → A → comparison) (l : list A) : list A := merge_sort (λ a b, cmp a b ≠ Gt) l.
(** [iter.skip(start).take(limit)] *)
Definition skip_take {A} (start limit : Z) (l : list A) : list A := ztake limit (zdrop start l).

(** ** Building an entry (server/filesystem/mod.rs) *)

Definition bit (c : Z) (n : Z) (mode : Z) : Z := if Z.testbit mode n then c else 45.
Definition encode_type (mode : Z) : Z :=
  let t := Z.land mode 61440 in
  if t =? 32768 then 45 else if t =? 16384 then 100 else if t =? 40960 then 108 else if t =? 24576 then 98
  else if t =? 8192 then 99 else if t =? 49152 then 115 else if t =? 4096 then 112 else 63.
Definition encode_mode (mode : Z) : bytes :=
  encode_type mode ::
  map (λ i, bit (match i mod 3 with 0 => 114 | 1 => 119 | _ => 120 end) (8 - i) mode) [0; 1; 2; 3; 4; 5; 6; 7; 8].

(** [file_name().unwrap_or_default().to_string_lossy()] *)
Definition display_name (path : bytes) : bytes := to_string_lossy (default [] (path_file_name path)).
(** The seconds of a time since 1970, zero for none and for earlier ones. *)
Definition epoch_secs (time : option Z) : Z := Z.max 0 (default 0 time).
Definition size_logical (m : Metadata) : Z := md_len m.
Definition size_physical (m : Metadata) : Z := u64_mul (md_blocks m) 512.
Definition md_is_dir (m : Metadata) : bool := raw_is_dir (md_file_type m).
Definition md_is_file (m : Metadata) : bool := raw_is_file (md_file_type m).
Definition md_is_symlink (m : Metadata) : bool := raw_is_symlink (md_file_type m).
(** [PortablePermissions::from(permissions).mode()] *)
Definition portable_mode (m : Metadata) : Z := Z.land (md_mode m mod 2 ^ 16) 511.

Record PreparedDirectoryEntry : Type := mk_Prepared {
  pe_path : bytes;
  pe_metadata : Metadata;
  symlink_destination : option bytes;
  symlink_destination_metadata : option Metadata;
}.
Definition modified_secs (p : PreparedDirectoryEntry) : Z := epoch_secs (md_modified (pe_metadata p)).
Definition created_secs (p : PreparedDirectoryEntry) : Z := epoch_secs (md_created (pe_metadata p)).

Section build.
Context (infer_get : bytes → option string) (guess_mime : bytes → option string).
(** [api.disable_directory_size] *)
Context (disable_directory_size : bool).

(** The sizes of what the entry is, or points to. *)
Definition entry_size (real_path : bytes) (real_metadata : Metadata) (no_directory_size : bool) : Q (Z * Z) :=
  if md_is_dir real_metadata then
    if negb no_directory_size && negb disable_directory_size then
      space ← qcall (GetUsage real_path);
      mret (match space with Some s => (us_logical s, us_physical s) | None => (0, 0) end)
    else mret (0, 0)
  else mret (size_logical real_metadata, size_physical real_metadata).

Definition entry_of (path : bytes) (metadata real_metadata : Metadata) (size : Z * Z) (detected_mime : MimeCacheValue) : DirectoryEntry := {|
  den_name := display_name path;
  den_mode := encode_mode (portable_mode metadata);
  den_mode_bits := portable_mode metadata;
  den_size := fst size;
  den_size_physical := snd size;
  den_editable := md_is_file real_metadata && valid_utf8 detected_mime;
  den_inner_editable := md_is_file real_metadata && valid_inner_utf8 detected_mime;
  den_directory := md_is_dir real_metadata;
  den_file := md_is_file real_metadata;
  den_symlink := md_is_symlink metadata;
  den_mime := mime detected_mime;
  den_created := epoch_secs (md_created metadata);
  den_modified := epoch_secs (md_modified metadata);
|}.

Definition to_api_entry_buffer (path : bytes) (metadata : Metadata) (no_directory_size : bool) (buffer : option bytes)
    (symlink_destination : option bytes) (symlink_destination_metadata : option Metadata) : Q DirectoryEntry :=
  let real_metadata := default metadata symlink_destination_metadata in
  let real_path := default path symlink_destination in
  size ← entry_size real_path real_metadata no_directory_size;
  let detected_mime :=
    if md_is_dir real_metadata then MimeCacheValue_directory
    else if md_is_symlink real_metadata then MimeCacheValue_symlink
    else detect_mime_type infer_get guess_mime real_path buffer in
  mret (entry_of path metadata real_metadata size detected_mime).

Definition to_api_entry_mime_type (path : bytes) (metadata : Metadata) (no_directory_size : bool) (mime_type : option MimeCacheValue)
    (symlink_destination : option bytes) (symlink_destination_metadata : option Metadata) : Q DirectoryEntry :=
  let real_metadata := default metadata symlink_destination_metadata in
  let real_path := default path symlink_destination in
  size ← entry_size real_path real_metadata no_directory_size;
  let detected_mime :=
    if md_is_dir real_metadata then MimeCacheValue_directory
    else if md_is_symlink real_metadata then MimeCacheValue_symlink
    else default MimeCacheValue_default mime_type in
  mret (entry_of path metadata real_metadata size detected_mime).

Definition prepare_api_entry_cap (filesystem : CapFilesystem) (path : bytes) (metadata : Metadata) : Q PreparedDirectoryEntry :=
  destination ← (if md_is_symlink metadata then
    link ← attempt (on_fs (async_read_link filesystem path));
    match link with
    | Some link => attempt (on_fs (async_canonicalize filesystem link))
    | None => mret None
    end
  else mret None);
  destination_metadata ← match destination with
    | Some destination => attempt (on_fs (async_symlink_metadata filesystem destination))
    | None => mret None
    end;
  mret (mk_Prepared path metadata destination destination_metadata).

Definition prepared_entry_sort_size (prepared : PreparedDirectoryEntry) (no_directory_size : bool) : Q (Z * Z) :=
  let real_metadata := default (pe_metadata prepared) (symlink_destination_metadata prepared) in
  let real_path := default (pe_path prepared) (symlink_destination prepared) in
  entry_size real_path real_metadata no_directory_size.

(** [MimeCacheKey::from]: inode, device and second of the last change *)
Definition MimeCacheKey (m : Metadata) : Z * Z * Z := (md_ino m, md_dev m, epoch_secs (md_modified m)).

(** The type told from the contents: at most 64 bytes are read. *)
Definition sniff (filesystem : CapFilesystem) (prepared : PreparedDirectoryEntry) : Q MimeCacheValue :=
  let metadata := pe_metadata prepared in
  let path := default (pe_path prepared) (symlink_destination prepared) in
  let pointed (p : Metadata → bool) : bool :=
    match symlink_destination prepared, symlink_destination_metadata prepared with Some _, Some m => p m | _, _ => false end in
  if (md_is_file metadata && (md_len metadata =? 0)) || pointed (λ m, md_is_file m && (md_len m =? 0)) then mret MimeCacheValue_text
  else
    buffer ← (if md_is_file metadata || pointed md_is_file then
      file ← attempt (on_fs (async_open filesystem path));
      match file with
      | Some file => got ← attempt (qask (OnFs (FileRead file 64))); mret (Some (default [] got))
      | None => mret None
      end
    else mret None);
    let detected := detect_mime_type infer_get guess_mime path buffer in
    let '(ino, dev, modified) := MimeCacheKey metadata in
    _ ← qcall (MimeInsert ino dev modified (mime detected, valid_utf8 detected, valid_inner_utf8 detected));
    mret detected.

Definition finish_api_entry_cap (filesystem : CapFilesystem) (prepared : PreparedDirectoryEntry) (no_directory_size : bool) : Q DirectoryEntry :=
  let '(ino, dev, modified) := MimeCacheKey (pe_metadata prepared) in
  cached ← qcall (MimeGet ino dev modified);
  detected_mime ← match cached with
    | Some (m, u, i) => mret (mk_Mime m u i)
    | None => sniff filesystem prepared
    end;
  to_api_entry_mime_type (pe_path prepared) (pe_metadata prepared) no_directory_size (Some detected_mime)
    (symlink_destination prepared) (symlink_destination_metadata prepared).

Definition to_api_entry_cap (filesystem : CapFilesystem) (path : bytes) (metadata : Metadata) (no_directory_size : bool) : Q DirectoryEntry :=
  prepared ← prepare_api_entry_cap filesystem path metadata;
  finish_api_entry_cap filesystem prepared no_directory_size.
End build.

(** ** Orders *)

Lemma str_cmp_trans a b c : str_cmp a b ≠ Gt → str_cmp b c ≠ Gt → str_cmp a c ≠ Gt.
Proof.
  revert b c. induction a as [| x a IH]; intros [| y b] [| z c]; cbn; try done.
  destruct (Z.compare_spec x y), (Z.compare_spec y z), (Z.compare_spec x z); try done; try lia. apply IH.
Qed.

Lemma str_cmp_total a b : str_cmp a b ≠ Gt ∨ str_cmp b a ≠ Gt.
Proof. rewrite (str_cmp_opp a b). destruct (str_cmp a b); cbn; auto. Qed.

(** A comparison is an order when what is not greater is transitive and total. *)
Class CmpOrder {A} (cmp : A → A → comparison) : Prop := {
  cmp_trans x y z : cmp x y ≠ Gt → cmp y z ≠ Gt → cmp x z ≠ Gt;
  cmp_total x y : cmp x y ≠ Gt ∨ cmp y x ≠ Gt;
}.
#[export] Instance cmp_ascii_order : CmpOrder cmp_ascii_case_insensitive.
Proof. split; unfold cmp_ascii_case_insensitive; [intros ???; apply str_cmp_trans | intros ??; apply str_cmp_total]. Qed.
#[export] Instance cmp_Z_order : CmpOrder Z.compare.
Proof. split; [intros x y z | intros x y]; rewrite ?Z.compare_gt_iff in *; lia. Qed.
(** Comparing by a key, and the other way round, are orders too. *)
#[export] Instance cmp_on_order {A B} (f : A → B) (cmp : B → B → comparison) `{!CmpOrder cmp} :
  CmpOrder (λ x y, cmp (f x) (f y)).
Proof. split; [intros ???; apply cmp_trans | intros ??; apply cmp_total]. Qed.
#[export] Instance cmp_flip_order {A} (cmp : A → A → comparison) `{!CmpOrder cmp} : CmpOrder (λ x y, cmp y x).
Proof. split; [intros ??? H1 H2; by eapply cmp_trans | intros ??; apply cmp_total]. Qed.

Lemma sort_by_perm {A} cmp (l : list A) : sort_by cmp l ≡ₚ l.
Proof. apply merge_sort_Permutation. Qed.

Lemma sort_by_sorted {A} cmp `{!CmpOrder cmp} (l : list A) : StronglySorted (λ x y, cmp x y ≠ Gt) (sort_by cmp l).
Proof.
  apply StronglySorted_merge_sort.
  - intros x y z. apply cmp_trans.
  - intros x y. apply cmp_total.
Qed.

Lemma sort_by_length {A} cmp (l : list A) : length (sort_by cmp l) = length l.
Proof. by rewrite sort_by_perm. Qed.

Lemma sort_by_elem {A} cmp (l : list A) x : x ∈ sort_by cmp l ↔ x ∈ l.
Proof. by rewrite sort_by_perm. Qed.

(** ** Pages *)

(** The pages of [n] entries, one after the other, are the list. *)
Lemma pages_cover {A} (l : list A) (n : Z) (k : nat) : 0 <= n →
  concat ((λ i, skip_take (Z.of_nat i * n) n l) <$> seq 0 k) = ztake (Z.of_nat k * n) l.
Proof.
  intros Hn. induction k as [| k IH]; [done |]. rewrite seq_S, fmap_app, concat_app, IH. cbn [fmap list_fmap concat].
  rewrite app_nil_r, Nat.add_0_l. unfold skip_take. rewrite <- ztake_add by lia. f_equal. lia.
Qed.

Lemma skip_take_sub {A} start limit (l : list A) x : x ∈ skip_take start limit l → x ∈ l.
Proof. unfold skip_take, ztake, zdrop. intros H. eapply elem_of_sublist; [exact H |]. etrans; [apply sublist_take | apply sublist_drop]. Qed.
