(* ===== verification/VirtualFs.v ===== *)
(** * VirtualFs: the file system behind a path (application/src/server/filesystem/virtualfs, filesystem/mod.rs)

    The filters of what may be seen, the file system over a sandbox
    ([VirtualCapFilesystem]) with every operation that reads or writes, and the
    operations of a server that create directories and give them their owner.
    What a file system does stays in its own sandbox, and one that is read-only
    refuses to write. *)
From stdpp Require Import sorting.
From S2P Require Import Prelude IoModel Paths Utf8 DiskUsage Effects CapFs CapWalk Quota ServerFile AsyncServerFile FsOps Entries.

(** [Path]s are equal when their components are. *)
Definition same_path (a b : bytes) : bool := bool_decide (components a = components b).

(** ** Filters (virtualfs/functions.rs) *)

(** What may be seen, and under which path. *)
Definition IsIgnoredFn : Type := FileType.FileType → bytes → option bytes.
Definition IsIgnoredFn_merge (self other : IsIgnoredFn) : IsIgnoredFn :=
  λ file_type path, path ← self file_type path; other file_type path.
Definition IsIgnoredFn_default : IsIgnoredFn := λ _ path, Some path.
(** [From<Vec<Gitignore>>]; [matched gi path is_dir] is [gi.matched(..).is_ignore()]. *)
Definition IsIgnoredFn_from {G} (matched : G → bytes → bool → bool) (gis : list G) : IsIgnoredFn :=
  λ file_type path, if existsb (λ gi, matched gi path (is_dir file_type)) gis then None else Some path.
(** The filter of [async_walk_dir_files] and its like (virtualfs/mod.rs) *)
Definition IsIgnoredFn_files (root_path : bytes) (file_paths : list bytes) (is_ignored : IsIgnoredFn) : IsIgnoredFn :=
  λ file_type path,
    let stripped_path := default path (strip_prefix path root_path) in
    if existsb (path_starts_with stripped_path) file_paths then is_ignored file_type path else None.

(** ** Owners and directories of the server (filesystem/mod.rs) *)

(** The user settings: whether the daemon runs without root, and who owns the files. *)
Record UserConfig : Type := mk_UserConfig { uc_rootless : bool; uc_uid : Z; uc_gid : Z }.

Section owners.
Context (config : UserConfig) (cap_filesystem : CapFilesystem).

Definition chown_impl (path : bytes) : FS unit :=
  if same_path path [] || same_path path [DOT] || same_path path [SLASH] then
    ask (AmbientChown (base_path cap_filesystem) (uc_uid config) (uc_gid config))
  else
    dir ← get_inner cap_filesystem;
    ask (DirChownAt dir (relative_path cap_filesystem path) (uc_uid config) (uc_gid config)).
Definition chown_path (path : bytes) : FS unit := if uc_rootless config then mret tt else chown_impl path.
Definition async_chown_path (path : bytes) : FS unit :=
  if uc_rootless config then mret tt else
  let path := relative_path cap_filesystem path in
  spawn_blocking (
    if same_path path [] || same_path path [DOT] || same_path path [SLASH] then
      ask (AmbientChown (base_path cap_filesystem) (uc_uid config) (uc_gid config))
    else
      dir ← get_inner cap_filesystem;
      ask (DirChownAt dir path (uc_uid config) (uc_gid config))).

(** [match m { Ok .. Err .. }] *)
Definition catch {A B} (m : FS A) (k : ior A → FS B) : FS B := prog_bind _ _ k m.

(** Every directory on the way, created where it is missing; [chown] is called
    for those that were created. *)
Fixpoint create_components (chown : bytes → FS unit) (progress : bytes) (cs : list Component.Component) : FS unit :=
  match cs with
  | [] => mret tt
  | c :: cs =>
      let progress := path_join progress (component_bytes c) in
      catch (create_dir cap_filesystem progress) (λ r,
        match r with
        | Ok _ => _ ← chown progress; create_components chown progress cs
        | Err (AlreadyExists _) => create_components chown progress cs
        | Err err => io_throw err
        end)
  end.
Definition create_all (chown : bytes → FS unit) (path : bytes) : FS unit :=
  catch (create_dir cap_filesystem path) (λ r,
    match r with
    | Ok _ => chown path
    | Err (AlreadyExists _) => mret tt
    | Err (NotFound _) => create_components chown [] (components path)
    | Err err => io_throw err
    end).

Definition create_chowned_dir_all (path : bytes) : FS unit :=
  let path := relative_path cap_filesystem path in
  if bool_decide (path = []) then mret tt else create_all chown_path path.
(** This one calls [chown_impl] itself. *)
Definition async_create_chowned_dir_all (path : bytes) : FS unit :=
  let path := relative_path cap_filesystem path in
  if bool_decide (path = []) then mret tt else spawn_blocking (create_all chown_impl path).
End owners.

(** ** The file system over a sandbox (virtualfs/cap.rs) *)

(** [vc_server] and [vc_user] are the sandbox and the settings of the server
    behind the file system, which is its own sandbox if it is the primary one. *)
Record VirtualCapFilesystem : Type := mk_VirtualCap {
  vc_inner : CapFilesystem;
  vc_server : CapFilesystem;
  vc_user : UserConfig;
  is_primary_server_fs : bool;
  is_writable : bool;
  vc_is_ignored : option IsIgnoredFn;
}.
(** [CapFilesystem::get_virtual] *)
Definition get_virtual (self server : CapFilesystem) (user : UserConfig) : VirtualCapFilesystem :=
  mk_VirtualCap self server user false false None.
Definition set_kind (primary writable : bool) (fs : VirtualCapFilesystem) : VirtualCapFilesystem :=
  mk_VirtualCap (vc_inner fs) (vc_server fs) (vc_user fs) primary writable (vc_is_ignored fs).
Definition merged_ignored (self : VirtualCapFilesystem) (is_ignored : IsIgnoredFn) : IsIgnoredFn :=
  match vc_is_ignored self with Some existing => IsIgnoredFn_merge existing is_ignored | None => is_ignored end.
Definition with_is_ignored (is_ignored : IsIgnoredFn) (self : VirtualCapFilesystem) : VirtualCapFilesystem :=
  mk_VirtualCap (vc_inner self) (vc_server self) (vc_user self) (is_primary_server_fs self) (is_writable self)
    (Some (merged_ignored self is_ignored)).

Definition check_ignored (self : VirtualCapFilesystem) (file_type : FileType.FileType) (path : bytes) : ior bytes :=
  match vc_is_ignored self with
  | None => Ok path
  | Some is_ignored => ok_or (is_ignored file_type path) (NotFound "File not found")
  end.
Definition check_writable (self : VirtualCapFilesystem) : ior unit :=
  if negb (is_writable self) then Err (IoOther "filesystem is read-only") else Ok tt.

(** [FileMetadata]; directories are told before files here. *)
Record FileMetadata : Type := mk_FileMetadata {
  fm_file_type : FileType.FileType;
  fm_permissions : PortablePermissions;
  fm_size : Z;
  fm_modified : option Z;
  fm_created : option Z;
}.
Definition FileMetadata_from (m : Metadata) : FileMetadata := {|
  fm_file_type :=
    if md_is_dir m then FileType.Dir else if md_is_file m then FileType.File
    else if md_is_symlink m then FileType.Symlink else FileType.Unknown;
  fm_permissions := mk_PortablePermissions (portable_mode m);
  fm_size := md_len m;
  fm_modified := md_modified m;
  fm_created := md_created m;
|}.

(** A file that was opened for writing: one that charges the quota, or a plain one. *)
Inductive FileStream : Type :=
  | Charged (file : ServerFile)
  | AsyncCharged (file : AsyncServerFile)
  | Plain (file : Z).

(** *** Writing *)

Section writing.
Context (self : VirtualCapFilesystem).

(** The checks every writing operation begins with. *)
Definition writing {A} (file_type : FileType.FileType) (path : bytes) (k : bytes → Q A) : Q A :=
  _ ← io_lift (check_writable self);
  path ← io_lift (check_ignored self file_type path);
  k path.
Definition writing2 {A} (type1 type2 : FileType.FileType) (path1 path2 : bytes) (k : bytes → bytes → Q A) : Q A :=
  _ ← io_lift (check_writable self);
  path1 ← io_lift (check_ignored self type1 path1);
  path2 ← io_lift (check_ignored self type2 path2);
  k path1 path2.
Definition server_chown_path (path : bytes) : Q unit := on_fs (chown_path (vc_user self) (vc_server self) path).
Definition server_async_chown_path (path : bytes) : Q unit := on_fs (async_chown_path (vc_user self) (vc_server self) path).

Definition vfs_create_dir_all (path : bytes) : Q unit :=
  writing FileType.Dir path (λ path,
    if is_primary_server_fs self then on_fs (create_chowned_dir_all (vc_user self) (vc_server self) path)
    else on_fs (create_dir_all (vc_inner self) path)).
Definition vfs_async_create_dir_all (path : bytes) : Q unit :=
  writing FileType.Dir path (λ path,
    if is_primary_server_fs self then on_fs (async_create_chowned_dir_all (vc_user self) (vc_server self) path)
    else on_fs (async_create_dir_all (vc_inner self) path)).
Definition vfs_remove_dir_all (path : bytes) : Q unit :=
  writing FileType.Dir path (λ path, on_fs (remove_dir_all (vc_inner self) path)).
Definition vfs_async_remove_dir_all (path : bytes) : Q unit :=
  writing FileType.Dir path (λ path, on_fs (async_remove_dir_all (vc_inner self) path)).
Definition vfs_remove_file (path : bytes) : Q unit :=
  writing FileType.File path (λ path, on_fs (remove_file (vc_inner self) path)).
Definition vfs_async_remove_file (path : bytes) : Q unit :=
  writing FileType.File path (λ path, on_fs (async_remove_file (vc_inner self) path)).
Definition create_symlink (original link : bytes) : Q unit :=
  writing2 FileType.File FileType.Symlink original link (λ original link,
    _ ← on_fs (symlink (vc_inner self) original link);
    if is_primary_server_fs self then server_chown_path link else mret tt).
Definition async_create_symlink (original link : bytes) : Q unit :=
  writing2 FileType.File FileType.Symlink original link (λ original link,
    _ ← on_fs (async_symlink (vc_inner self) original link);
    if is_primary_server_fs self then server_async_chown_path link else mret tt).
Definition create_seekable_file (path : bytes) : Q FileStream :=
  writing FileType.File path (λ path,
    if is_primary_server_fs self then
      file ← ServerFile_new (vc_server self) server_chown_path path None None; mret (Charged file)
    else file ← on_fs (create (vc_inner self) path); mret (Plain file)).
Definition async_create_seekable_file (path : bytes) : Q FileStream :=
  writing FileType.File path (λ path,
    if is_primary_server_fs self then
      file ← AsyncServerFile_new (vc_server self) server_async_chown_path path None None; mret (AsyncCharged file)
    else file ← on_fs (async_create (vc_inner self) path); mret (Plain file)).
Definition open_file_with_options (path : bytes) (options : Z) : Q FileStream :=
  writing FileType.File path (λ path,
    file ← on_fs (open_with (vc_inner self) path options);
    if is_primary_server_fs self then file ← ServerFile_new_file (vc_server self) path file; mret (Charged file)
    else mret (Plain file)).
Definition async_open_file_with_options (path : bytes) (options : Z) : Q FileStream :=
  writing FileType.File path (λ path,
    file ← on_fs (async_open_with (vc_inner self) path options);
    if is_primary_server_fs self then file ← AsyncServerFile_new_file (vc_server self) path file; mret (AsyncCharged file)
    else mret (Plain file)).
Definition vfs_set_permissions (path : bytes) (permissions : PortablePermissions) : Q unit :=
  writing FileType.File path (λ path, on_fs (set_permissions (vc_inner self) path permissions)).
Definition vfs_async_set_permissions (path : bytes) (permissions : PortablePermissions) : Q unit :=
  writing FileType.File path (λ path, on_fs (async_set_permissions (vc_inner self) path permissions)).
Definition vfs_rename (from to : bytes) : Q unit :=
  writing2 FileType.File FileType.File from to (λ from to, on_fs (rename (vc_inner self) from (vc_inner self) to)).
Definition vfs_async_rename (from to : bytes) : Q unit :=
  writing2 FileType.File FileType.File from to (λ from to, on_fs (async_rename (vc_inner self) from (vc_inner self) to)).
(** The trait's [create_file] and [async_create_file]. *)
Definition vfs_create_file (path : bytes) : Q FileStream := create_seekable_file path.
Definition vfs_async_create_file (path : bytes) : Q FileStream := async_create_seekable_file path.
End writing.

Module WriteRequest.
(** What the writing half of the trait offers. *)
Inductive WriteRequest : Type :=
  | CreateDirAll (path : bytes)
  | RemoveDirAll (path : bytes)
  | RemoveFile (path : bytes)
  | CreateSymlink (original link : bytes)
  | CreateFile (path : bytes)
  | OpenFile (path : bytes) (options : Z)
  | SetPermissions (path : bytes) (permissions : PortablePermissions)
  | Rename (from to : bytes).
End WriteRequest.

Definition dropping {A} (m : Q A) : Q unit := _ ← m; mret tt.
Definition write_request (self : VirtualCapFilesystem) (req : WriteRequest.WriteRequest) : Q unit :=
  match req with
  | WriteRequest.CreateDirAll path => vfs_create_dir_all self path
  | WriteRequest.RemoveDirAll path => vfs_remove_dir_all self path
  | WriteRequest.RemoveFile path => vfs_remove_file self path
  | WriteRequest.CreateSymlink original link => create_symlink self original link
  | WriteRequest.CreateFile path => dropping (vfs_create_file self path)
  | WriteRequest.OpenFile path options => dropping (open_file_with_options self path options)
  | WriteRequest.SetPermissions path permissions => vfs_set_permissions self path permissions
  | WriteRequest.Rename from to => vfs_rename self from to
  end.
Definition async_write_request (self : VirtualCapFilesystem) (req : WriteRequest.WriteRequest) : Q unit :=
  match req with
  | WriteRequest.CreateDirAll path => vfs_async_create_dir_all self path
  | WriteRequest.RemoveDirAll path => vfs_async_remove_dir_all self path
  | WriteRequest.RemoveFile path => vfs_async_remove_file self path
  | WriteRequest.CreateSymlink original link => async_create_symlink self original link
  | WriteRequest.CreateFile path => dropping (vfs_async_create_file self path)
  | WriteRequest.OpenFile path options => dropping (async_open_file_with_options self path options)
  | WriteRequest.SetPermissions path permissions => vfs_async_set_permissions self path permissions
  | WriteRequest.Rename from to => vfs_async_rename self from to
  end.

(** *** Reading *)

(** [tokio::task::spawn_blocking(..).await?] around calls of the server. *)
Definition blocking {A} (task : Q A) : Q A :=
  failed ← qcall (OnFs SpawnBlocking);
  match failed with Some err => io_throw err | None => task end.

Section reading.
Context (infer_get : bytes → option string) (guess_mime : bytes → option string) (disable_directory_size : bool).
Context (self : VirtualCapFilesystem).

Definition checked_metadata (path : bytes) (m : Q Metadata) : Q FileMetadata :=
  metadata ← m;
  let metadata := FileMetadata_from metadata in
  _ ← io_lift (check_ignored self (fm_file_type metadata) path);
  mret metadata.
Definition vfs_metadata (path : bytes) : Q FileMetadata := checked_metadata path (on_fs (metadata (vc_inner self) path)).
Definition vfs_async_metadata (path : bytes) : Q FileMetadata := checked_metadata path (on_fs (async_metadata (vc_inner self) path)).
Definition vfs_symlink_metadata (path : bytes) : Q FileMetadata := checked_metadata path (on_fs (symlink_metadata (vc_inner self) path)).
Definition vfs_async_symlink_metadata (path : bytes) : Q FileMetadata :=
  checked_metadata path (on_fs (async_symlink_metadata (vc_inner self) path)).

Definition async_prepare_directory_entry (path : bytes) : Q PreparedDirectoryEntry :=
  metadata ← on_fs (async_symlink_metadata (vc_inner self) path);
  path ← io_lift (check_ignored self (FileType_from (md_file_type metadata)) path);
  prepare_api_entry_cap (vc_inner self) path metadata.
Definition async_directory_entry (path : bytes) : Q DirectoryEntry :=
  metadata ← on_fs (async_symlink_metadata (vc_inner self) path);
  path ← io_lift (check_ignored self (FileType_from (md_file_type metadata)) path);
  to_api_entry_cap infer_get guess_mime disable_directory_size (vc_inner self) path metadata (negb (is_primary_server_fs self)).
Definition async_directory_entry_buffer (path buffer : bytes) : Q DirectoryEntry :=
  metadata ← on_fs (async_symlink_metadata (vc_inner self) path);
  path ← io_lift (check_ignored self (FileType_from (md_file_type metadata)) path);
  to_api_entry_buffer infer_get guess_mime disable_directory_size path metadata (negb (is_primary_server_fs self)) (Some buffer) None None.

(** The names in a directory the filters keep, directories apart.  A listing
    that fails on the way ends there. *)
Fixpoint list_names (fuel : nat) (is_ignored : IsIgnoredFn) (path : bytes) (dir : ReadDir.ReadDir) (directories others : list bytes) :
    Q (list bytes * list bytes) :=
  match fuel with
  | O => out_of_fuel
  | S fuel =>
      next ← on_fs (prog_bind _ _ (λ r, Done (Ok r)) (ReadDir_next_entry dir));
      match next with
      | (Some (Ok (file_type, entry)), dir) =>
          match is_ignored file_type (path_join path entry) with
          | None => list_names fuel is_ignored path dir directories others
          | Some _ =>
              if is_dir file_type then list_names fuel is_ignored path dir (directories ++ [entry]) others
              else list_names fuel is_ignored path dir directories (others ++ [entry])
          end
      | _ => mret (directories, others)
      end
  end.

(** One entry each, left out when it is gone or may not be seen. *)
Fixpoint collect_entries (path : bytes) (names : list bytes) : Q (list DirectoryEntry) :=
  match names with
  | [] => mret []
  | name :: names =>
      entry ← attempt (async_directory_entry (path_join path name));
      rest ← collect_entries path names;
      mret (match entry with Some entry => entry :: rest | None => rest end)
  end.

Import DirectorySortingMode.
Definition sort_key (sort : DirectorySortingMode) (prepared : PreparedDirectoryEntry) : Q Z :=
  let no_directory_size := negb (is_primary_server_fs self) in
  match sort with
  | SizeAsc | SizeDesc => s ← prepared_entry_sort_size disable_directory_size prepared no_directory_size; mret (fst s)
  | PhysicalSizeAsc | PhysicalSizeDesc => s ← prepared_entry_sort_size disable_directory_size prepared no_directory_size; mret (snd s)
  | ModifiedAsc | ModifiedDesc => mret (modified_secs prepared)
  | CreatedAsc | CreatedDesc => mret (created_secs prepared)
  | NameAsc | NameDesc => mret 0
  end.
Fixpoint prepare_group (sort : DirectorySortingMode) (path : bytes) (names : list bytes) : Q (list (Z * PreparedDirectoryEntry)) :=
  match names with
  | [] => mret []
  | name :: names =>
      prepared ← attempt (async_prepare_directory_entry (path_join path name));
      match prepared with
      | None => prepare_group sort path names
      | Some prepared =>
          key ← sort_key sort prepared;
          rest ← prepare_group sort path names;
          mret ((key, prepared) :: rest)
      end
  end.
Fixpoint finish_entries (prepared : list PreparedDirectoryEntry) : Q (list DirectoryEntry) :=
  match prepared with
  | [] => mret []
  | p :: prepared =>
      entry ← finish_api_entry_cap infer_get guess_mime disable_directory_size (vc_inner self) p (negb (is_primary_server_fs self));
      rest ← finish_entries prepared;
      mret (entry :: rest)
  end.

(** The order of the names, and that of the keys. *)
Definition order_names (sort : DirectorySortingMode) (names : list bytes) : list bytes :=
  let sorted := sort_by cmp_ascii_case_insensitive names in
  match sort with NameDesc => rev sorted | _ => sorted end.
Definition cmp_keys (sort : DirectorySortingMode) (a b : Z * PreparedDirectoryEntry) : comparison :=
  match sort with
  | SizeAsc | PhysicalSizeAsc | ModifiedAsc | CreatedAsc => fst a ?= fst b
  | _ => fst b ?= fst a
  end.

(** The entries of a page, or all.  The page before the first wraps around. *)
Definition select_page {A} (per_page : option Z) (page : Z) (l : list A) : list A :=
  match per_page with
  | Some per_page => skip_take (u64_mul (page -u 1) per_page) per_page l
  | None => l
  end.

Definition vfs_async_read_dir (fuel : nat) (path : bytes) (per_page : option Z) (page : Z) (is_ignored : IsIgnoredFn)
    (sort : DirectorySortingMode) : Q DirectoryListing :=
  let is_ignored := merged_ignored self is_ignored in
  blocking (
    dir ← on_fs (read_dir (vc_inner self) path);
    names ← list_names fuel is_ignored path dir [] [];
    let '(directories, others) := names in
    let total_entries := zlen directories + zlen others in
    match sort with
    | NameAsc | NameDesc =>
        entries ← collect_entries path (select_page per_page page (order_names sort directories ++ order_names sort others));
        mret (mk_DirectoryListing total_entries entries)
    | _ =>
        directories ← prepare_group sort path directories;
        others ← prepare_group sort path others;
        let merged := snd <$> (sort_by (cmp_keys sort) directories ++ sort_by (cmp_keys sort) others) in
        entries ← finish_entries (select_page per_page page merged);
        mret (mk_DirectoryListing total_entries entries)
    end).

Definition vfs_read_symlink (path : bytes) : Q bytes :=
  path ← io_lift (check_ignored self FileType.Symlink path); on_fs (read_link (vc_inner self) path).
Definition vfs_async_read_symlink (path : bytes) : Q bytes :=
  path ← io_lift (check_ignored self FileType.Symlink path); on_fs (async_read_link (vc_inner self) path).
Definition vfs_close : Q unit := on_fs (close (vc_inner self)).
End reading.

(** ** Confinement *)

(** The calls that stay in one sandbox: on its capability, on paths inside it. *)
Definition stays (fs : CapFilesystem) (X : Type) (e : FsE X) : Prop :=
  confined (base_path fs) X e ∧ match e with LoadInner cell => cell = inner fs | _ => True end.
Definition stays_in (fs : CapFilesystem) (X : Type) (e : QuotaE X) : Prop :=
  match e with OnFs e => stays fs _ e | _ => True end.

Lemma on_fs_calls {A} (P : ∀ X, QuotaE X → Prop) (m : prog FsE A) :
  @all_calls FsE A (λ X e, P X (OnFs e)) m → all_calls P (on_fs m).
Proof. induction m as [a | X e k IH]; cbn; [done |]. intros [He Hk]. split; [done |]. intros x. by apply IH. Qed.

Lemma q_bind_calls {A B} (P : ∀ X, QuotaE X → Prop) (m : Q A) (f : A → Q B) :
  all_calls P m → (∀ a, all_calls P (f a)) → all_calls P (mbind (M := Q) f m).
Proof. apply all_calls_io_bind. Qed.

Lemma io_lift_bind {A B} (r : ior A) (f : A → Q B) :
  mbind (M := Q) f (io_lift r) = match r with Ok a => f a | Err e => io_throw e end.
Proof. by destruct r. Qed.

Section stays.
Context (fs : CapFilesystem) (Hbase : components (base_path fs) ≠ []).

Lemma stays_path path : confined_path (relative_path fs path).
Proof. by apply relative_path_confined. Qed.
Hint Resolve stays_path : confined.

Ltac stay :=
  unfold create_dir, create_dir_all, remove_dir_all, remove_file, rename, open_with, create, set_permissions, symlink,
    async_create_dir_all, async_remove_dir_all, async_remove_file, async_rename, async_open_with, async_create,
    async_set_permissions, async_symlink, async_on_dir, on_dir, stays; cbv zeta; calls.

Lemma create_dir_stays path : @all_calls FsE _ (stays fs) (create_dir fs path).
Proof. stay. Qed.

Lemma chown_stays config path :
  @all_calls FsE _ (stays fs) (chown_impl config fs path) ∧ @all_calls FsE _ (stays fs) (chown_path config fs path) ∧
  @all_calls FsE _ (stays fs) (async_chown_path config fs path).
Proof.
  assert (@all_calls FsE _ (stays fs) (chown_impl config fs path)) as Hc.
  { unfold chown_impl. stay. }
  split; [done |]. unfold chown_path, async_chown_path. split; [by destruct (uc_rootless config) |]. stay.
Qed.

Lemma catch_calls {A B} (P : ∀ X, FsE X → Prop) (m : FS A) (k : ior A → FS B) :
  @all_calls FsE _ P m → (∀ r, @all_calls FsE _ P (k r)) → @all_calls FsE _ P (catch m k).
Proof. apply all_calls_bind. Qed.

Lemma create_components_stays chown cs : (∀ path, @all_calls FsE _ (stays fs) (chown path)) →
  ∀ progress, @all_calls FsE _ (stays fs) (create_components fs chown progress cs).
Proof.
  intros Hc. induction cs as [| c cs IH]; intros progress; cbn [create_components]; [done |].
  apply catch_calls; [apply create_dir_stays |]. intros [_ | []]; try done.
  apply all_calls_io_bind; [apply Hc | intros _; apply IH].
Qed.

Lemma create_all_stays chown path : (∀ path, @all_calls FsE _ (stays fs) (chown path)) →
  @all_calls FsE _ (stays fs) (create_all fs chown path).
Proof.
  intros Hc. apply catch_calls; [apply create_dir_stays |]. intros [_ | []]; try done. by apply create_components_stays.
Qed.

Lemma chowned_dir_stays config path :
  @all_calls FsE _ (stays fs) (create_chowned_dir_all config fs path) ∧
  @all_calls FsE _ (stays fs) (async_create_chowned_dir_all config fs path).
Proof.
  unfold create_chowned_dir_all, async_create_chowned_dir_all. cbv zeta. split; case_bool_decide; try done.
  - apply create_all_stays. intros p. apply chown_stays.
  - unfold spawn_blocking. apply all_calls_io_bind; [by split |]. intros [e |]; [done |]. apply create_all_stays.
    intros p. apply chown_stays.
Qed.

Ltac quota_calls :=
  repeat match goal with
  | |- all_calls _ (on_fs _) => apply on_fs_calls
  | |- all_calls _ (mbind _ _) => apply q_bind_calls; [| intros ?]
  | |- all_calls _ (mret _) => done
  | |- all_calls _ (if ?b then _ else _) => destruct b
  | |- all_calls _ (match ?o with Some _ => _ | None => _ end) => destruct o
  | |- all_calls _ (io_throw _) => done
  end; try (unfold stays_in; stay; fail).

Lemma server_file_stays chown path permissions modified : (∀ path, all_calls (stays_in fs) (chown path)) →
  all_calls (stays_in fs) (ServerFile_new fs chown path permissions modified) ∧
  all_calls (stays_in fs) (AsyncServerFile_new fs chown path permissions modified).
Proof. intros Hc. split; unfold ServerFile_new, AsyncServerFile_new, async_create_file; quota_calls; apply Hc. Qed.

Lemma opened_file_stays path file :
  all_calls (stays_in fs) (ServerFile_new_file fs path file) ∧ all_calls (stays_in fs) (AsyncServerFile_new_file fs path file).
Proof. split; unfold ServerFile_new_file, AsyncServerFile_new_file; quota_calls. Qed.
End stays.

Section requests.
Context (self : VirtualCapFilesystem) (Hbase : components (base_path (vc_inner self)) ≠ []).
(** The primary file system is that of the server behind it. *)
Context (Hprimary : is_primary_server_fs self = true → vc_server self = vc_inner self).

Lemma write_calls req :
  all_calls (stays_in (vc_inner self)) (write_request self req) ∧
  all_calls (stays_in (vc_inner self)) (async_write_request self req).
Proof.
  assert (∀ A ft path (k : bytes → Q A), (∀ path, all_calls (stays_in (vc_inner self)) (k path)) →
    all_calls (stays_in (vc_inner self)) (writing self ft path k)) as Hw.
  { intros A ft path k Hk. unfold writing. rewrite io_lift_bind. destruct (check_writable self); [| done].
    rewrite io_lift_bind. by destruct (check_ignored self ft path). }
  assert (∀ A ft1 ft2 path1 path2 (k : bytes → bytes → Q A), (∀ p q, all_calls (stays_in (vc_inner self)) (k p q)) →
    all_calls (stays_in (vc_inner self)) (writing2 self ft1 ft2 path1 path2 k)) as Hw2.
  { intros A ft1 ft2 path1 path2 k Hk. unfold writing2. rewrite io_lift_bind. destruct (check_writable self); [| done].
    rewrite io_lift_bind. destruct (check_ignored self ft1 path1); [| done].
    rewrite io_lift_bind. by destruct (check_ignored self ft2 path2). }
  assert (is_primary_server_fs self = true → ∀ path,
    all_calls (stays_in (vc_inner self)) (server_chown_path self path) ∧
    all_calls (stays_in (vc_inner self)) (server_async_chown_path self path)) as Hc.
  { intros Hp path. unfold server_chown_path, server_async_chown_path. rewrite (Hprimary Hp).
    split; apply on_fs_calls; by apply chown_stays. }
  split; destruct req; cbn [write_request async_write_request]; unfold dropping, vfs_create_dir_all, vfs_async_create_dir_all,
    vfs_remove_dir_all, vfs_async_remove_dir_all, vfs_remove_file, vfs_async_remove_file, create_symlink, async_create_symlink,
    vfs_create_file, vfs_async_create_file, create_seekable_file, async_create_seekable_file, open_file_with_options,
    async_open_file_with_options, vfs_set_permissions, vfs_async_set_permissions, vfs_rename, vfs_async_rename;
    repeat first [apply Hw; intros ? | apply Hw2; intros ?? | apply q_bind_calls; [| intros ?; try done]].
  all: destruct (is_primary_server_fs self) eqn:Hp; try rewrite (Hprimary eq_refl); try specialize (Hc eq_refl).
  all: repeat first [done | apply Hc | apply q_bind_calls; [| intros ?]].
  all: try (by apply opened_file_stays); try (apply server_file_stays; [done | intros; apply Hc]).
  all: apply on_fs_calls; try (by apply chowned_dir_stays).
  all: unfold create_dir_all, remove_dir_all, remove_file, rename, open_with, create, set_permissions, symlink,
    async_create_dir_all, async_remove_dir_all, async_remove_file, async_rename, async_open_with, async_create,
    async_set_permissions, async_symlink, async_on_dir, on_dir; unfold stays_in, stays; cbv zeta; calls.
Qed.

Lemma read_only_refuses req : is_writable self = false →
  write_request self req = io_throw (IoOther "filesystem is read-only") ∧
  async_write_request self req = io_throw (IoOther "filesystem is read-only").
Proof.
  intros Hw. destruct req; cbn [write_request async_write_request];
    unfold dropping, vfs_create_dir_all, vfs_async_create_dir_all,
    vfs_remove_dir_all, vfs_async_remove_dir_all, vfs_remove_file, vfs_async_remove_file, create_symlink, async_create_symlink,
    vfs_create_file, vfs_async_create_file, create_seekable_file, async_create_seekable_file, open_file_with_options,
    async_open_file_with_options, vfs_set_permissions, vfs_async_set_permissions, vfs_rename, vfs_async_rename, writing, writing2;
    unfold check_writable; rewrite Hw; split; reflexivity.
Qed.
End requests.
