(* ===== verification/Mounts.v ===== *)
(** * Mounts: which file system a path lies in (application/src/server/filesystem/mod.rs, virtualfs/mount.rs)

    A path a client names lies in the server's own files, in a mounted
    directory, in a backup or in an archive.  [resolve_readable_fs] and
    [resolve_writable_fs] find out which, and hand out a file system and the
    path inside it; [VirtualMountFilesystem] lists the mount points among the
    server's own directories.  The routes that delete, rename and create files
    are built on them. *)
From stdpp Require Import sorting.
From S2P Require Import Prelude IoModel Paths Utf8 DiskUsage UsageTree Effects CapFs CapWalk Quota ServerFile AsyncServerFile FsOps.
From S2P Require Import Entries VirtualFs.

(** ** The trait, and mounts among the directories of a server (virtualfs/mod.rs, mount.rs) *)

(** The part of [VirtualReadableFilesystem] that lists. *)
Class VirtualReadableFilesystem (T : Type) : Type := {
  vr_is_primary : T → bool;
  vr_is_writable : T → bool;
  vr_metadata : T → bytes → Q FileMetadata;
  vr_symlink_metadata : T → bytes → Q FileMetadata;
  vr_directory_entry : T → bytes → Q DirectoryEntry;
  vr_directory_entry_buffer : T → bytes → bytes → Q DirectoryEntry;
  vr_read_dir : T → bytes → option Z → Z → IsIgnoredFn → DirectorySortingMode.DirectorySortingMode → Q DirectoryListing;
}.

Definition VirtualCap_readable infer_get guess_mime (disable_directory_size : bool) (fuel : nat) :
    VirtualReadableFilesystem VirtualCapFilesystem := {|
  vr_is_primary := is_primary_server_fs;
  vr_is_writable := is_writable;
  vr_metadata := vfs_async_metadata;
  vr_symlink_metadata := vfs_async_symlink_metadata;
  vr_directory_entry := async_directory_entry infer_get guess_mime disable_directory_size;
  vr_directory_entry_buffer := async_directory_entry_buffer infer_get guess_mime disable_directory_size;
  vr_read_dir self := vfs_async_read_dir infer_get guess_mime disable_directory_size self fuel;
|}.

(** The targets of the mounts, relative to the root of the server. *)
Record VirtualMountFilesystem (T : Type) : Type := mk_VirtualMount { vm_inner : T; vm_mounts : list bytes }.
Arguments mk_VirtualMount {T} _ _.
Arguments vm_inner {T} _.
Arguments vm_mounts {T} _.

Definition virtual_dir_entry (path : bytes) : DirectoryEntry := {|
  den_name := display_name path;
  den_mode := encode_mode 493;
  den_mode_bits := 493;
  den_size := 0;
  den_size_physical := 0;
  den_editable := false;
  den_inner_editable := false;
  den_directory := true;
  den_file := false;
  den_symlink := true;
  den_mime := mime MimeCacheValue_directory;
  den_created := 0;
  den_modified := 0;
|}.
Definition virtual_dir_metadata : FileMetadata := mk_FileMetadata FileType.Dir (from_mode_dir 16877) 0 None None.

(** What is left of the target of a mount below a directory. *)
Definition remaining (listing_path target : bytes) : option bytes :=
  if same_path listing_path [] then Some target
  else if path_starts_with target listing_path then strip_prefix target listing_path
  else None.
(** The first name below the directory on the way to the mount. *)
Definition next_component (listing_path target : bytes) : option bytes :=
  r ← remaining listing_path target;
  c ← head (components r);
  Some (to_string_lossy (component_bytes c)).

(** The loop over the mounts: a name is taken once, and not if the directory
    has it. *)
Fixpoint virtual_dirs (listing_path : bytes) (is_ignored : IsIgnoredFn) (existing_names seen : list bytes) (mounts : list bytes) :
    list DirectoryEntry :=
  match mounts with
  | [] => []
  | target :: mounts =>
      match next_component listing_path target with
      | None => virtual_dirs listing_path is_ignored existing_names seen mounts
      | Some name =>
          if bool_decide (name ∈ existing_names) || bool_decide (name ∈ seen) then
            virtual_dirs listing_path is_ignored existing_names seen mounts
          else
            let virtual_path := if same_path listing_path [] then name else path_join listing_path name in
            let rest := virtual_dirs listing_path is_ignored existing_names (name :: seen) mounts in
            match is_ignored FileType.Dir virtual_path with
            | Some virtual_path => virtual_dir_entry virtual_path :: rest
            | None => rest
            end
      end
  end.

Definition cmp_entry_names (a b : DirectoryEntry) : comparison := cmp_ascii_case_insensitive (den_name a) (den_name b).
Definition order_virtual (sort : DirectorySortingMode.DirectorySortingMode) (dirs : list DirectoryEntry) : list DirectoryEntry :=
  let sorted := sort_by cmp_entry_names dirs in
  match sort with DirectorySortingMode.NameDesc => rev sorted | _ => sorted end.

(** Virtual directories come first, then the directories and the rest of the
    inner listing. *)
Definition merge_listing (listing_path : bytes) (mounts : list bytes) (is_ignored : IsIgnoredFn)
    (sort : DirectorySortingMode.DirectorySortingMode) (inner_listing : list DirectoryEntry) : list DirectoryEntry :=
  order_virtual sort (virtual_dirs listing_path is_ignored (den_name <$> inner_listing) [] mounts) ++
  List.filter den_directory inner_listing ++ List.filter (λ e, negb (den_directory e)) inner_listing.

Section mount.
Context {T : Type} `{!VirtualReadableFilesystem T}.
Context (self : VirtualMountFilesystem T).

Definition is_virtual_dir (path : bytes) : bool :=
  if same_path path [] then false else existsb (λ target, path_starts_with target path) (vm_mounts self).

(** [match inner { Ok(m) => .., Err(_) if is_virtual_dir .. }] *)
Definition or_virtual {A} (path : bytes) (virtual : A) (m : Q A) : Q A :=
  prog_bind _ _ (λ r, match r with
                      | Ok a => Done (Ok a)
                      | Err err => if is_virtual_dir path then Done (Ok virtual) else Done (Err err)
                      end) m.
Definition mount_metadata (path : bytes) : Q FileMetadata :=
  or_virtual path virtual_dir_metadata (vr_metadata (vm_inner self) path).
Definition mount_symlink_metadata (path : bytes) : Q FileMetadata :=
  or_virtual path virtual_dir_metadata (vr_symlink_metadata (vm_inner self) path).
Definition mount_directory_entry (path : bytes) : Q DirectoryEntry :=
  or_virtual path (virtual_dir_entry path) (vr_directory_entry (vm_inner self) path).
Definition mount_directory_entry_buffer (path buffer : bytes) : Q DirectoryEntry :=
  or_virtual path (virtual_dir_entry path) (vr_directory_entry_buffer (vm_inner self) path buffer).

Definition projects_virtual_dir (listing_path : bytes) : bool :=
  existsb (λ target, match remaining listing_path target with
                     | Some r => negb (bool_decide (components r = []))
                     | None => false
                     end) (vm_mounts self).

Definition mount_read_dir (listing_path : bytes) (per_page : option Z) (page : Z) (is_ignored : IsIgnoredFn)
    (sort : DirectorySortingMode.DirectorySortingMode) : Q DirectoryListing :=
  if negb (projects_virtual_dir listing_path) then vr_read_dir (vm_inner self) listing_path per_page page is_ignored sort
  else
    listing ← attempt (vr_read_dir (vm_inner self) listing_path None 1 is_ignored sort);
    let inner_listing := match listing with Some l => entries l | None => [] end in
    let all_entries := merge_listing listing_path (vm_mounts self) is_ignored sort inner_listing in
    let total_entries := zlen all_entries in
    mret (match per_page with
          | Some per_page =>
              (* saturating *)
              let start := Z.min (saturating_sub page 1 * per_page) U64_MAX in
              mk_DirectoryListing total_entries (skip_take start per_page all_entries)
          | None => mk_DirectoryListing total_entries all_entries
          end).
End mount.

#[export] Instance VirtualMount_readable {T} `{!VirtualReadableFilesystem T} : VirtualReadableFilesystem (VirtualMountFilesystem T) := {|
  vr_is_primary self := vr_is_primary (vm_inner self);
  vr_is_writable self := vr_is_writable (vm_inner self);
  vr_metadata := mount_metadata;
  vr_symlink_metadata := mount_symlink_metadata;
  vr_directory_entry := mount_directory_entry;
  vr_directory_entry_buffer := mount_directory_entry_buffer;
  vr_read_dir := mount_read_dir;
|}.

(** ** Which file system a path lies in (filesystem/mod.rs) *)

Record Mount : Type := mk_Mount { mt_target : bytes; mt_source : bytes; mt_read_only : bool }.
(** "/home/container/" *)
Definition HOME_CONTAINER : bytes := [47; 104; 111; 109; 101; 47; 99; 111; 110; 116; 97; 105; 110; 101; 114; 47].

(** [str::strip_prefix] and [str::starts_with] *)
Fixpoint str_strip_prefix (s prefix : bytes) : option bytes :=
  match prefix, s with
  | [], _ => Some s
  | p :: prefix, c :: s => if p =? c then str_strip_prefix s prefix else None
  | _ :: _, [] => None
  end.
Definition str_starts_with (s prefix : bytes) : bool := bool_decide (is_Some (str_strip_prefix s prefix)).

Record BackupMounting : Type := mk_BackupMounting { bm_enabled : bool; bm_path : bytes }.
(** What the resolution reads of a server and of the settings. *)
Record ServerFiles : Type := mk_ServerFiles {
  sv_cap : CapFilesystem;
  sv_user : UserConfig;
  sv_mounts : list Mount;
  sv_allowed_mounts : list bytes;
  sv_backup_mounting : BackupMounting;
  sv_backups : list bytes;
}.

(** The target of a mount in the server's files, if its source is allowed. *)
Definition mount_target (self : ServerFiles) (mount : Mount) : option bytes :=
  match str_strip_prefix (mt_target mount) HOME_CONTAINER with
  | None => None
  | Some relative_target =>
      if bool_decide (relative_target = []) then None
      else if forallb (λ am, negb (str_starts_with (mt_source mount) am)) (sv_allowed_mounts self) then None
      else Some relative_target
  end.
(** The first mount a path lies in, with what is left of the path. *)
Fixpoint find_mount (self : ServerFiles) (path : bytes) (mounts : list Mount) : option (bytes * Mount) :=
  match mounts with
  | [] => None
  | mount :: mounts =>
      match mount_target self mount with
      | None => find_mount self path mounts
      | Some relative_target =>
          if negb (path_starts_with path relative_target) then find_mount self path mounts
          else match strip_prefix path relative_target with
               | Some inner_path => Some (inner_path, mount)
               | None => find_mount self path mounts
               end
      end
  end.

(** The server's own files. *)
Definition own_fs (self : ServerFiles) (writable : bool) : VirtualCapFilesystem :=
  set_kind true writable (get_virtual (sv_cap self) (sv_cap self) (sv_user self)).
(** The files of a mount that was opened. *)
Definition mount_fs (self : ServerFiles) (mount : Mount) (cap_fs : CapFilesystem) : VirtualCapFilesystem :=
  set_kind false (negb (mt_read_only mount)) (get_virtual cap_fs (sv_cap self) (sv_user self)).

(** [cell] is the cell of the capability a mount is opened in. *)
Definition resolve_writable_fs (self : ServerFiles) (cell : Z) (path : bytes) : Q (bytes * VirtualCapFilesystem) :=
  let path := relative_path (sv_cap self) path in
  match find_mount self path (sv_mounts self) with
  | Some (inner_path, mount) =>
      opened ← attempt (on_fs (CapFilesystem_new cell (mt_source mount)));
      match opened with
      | Some cap_fs => mret (inner_path, mount_fs self mount cap_fs)
      | None => if mt_read_only mount then mret (inner_path, own_fs self false) else mret (path, own_fs self true)
      end
  | None => mret (path, own_fs self true)
  end.

(** A readable file system; those of backups and archives by their handles. *)
Inductive ReadableFs : Type :=
  | BackupFs (fs : Z)
  | ArchiveFs (fs : Z)
  | MountFs (fs : VirtualCapFilesystem)
  | ServerFs (fs : VirtualMountFilesystem VirtualCapFilesystem).

Module ArchiveKind.
Inductive ArchiveKind : Type := Zip | SevenZip | DdupBak.
End ArchiveKind.

Definition ends_with (s suffix : bytes) : bool := str_starts_with (rev s) (rev suffix).
Definition dot_zip : bytes := [46; 122; 105; 112].
Definition dot_7z : bytes := [46; 55; 122].
Definition dot_ddup : bytes := [46; 100; 100; 117; 112].

(** The path up to the first component that is named like an archive;
    [None] if there is none before one that is not UTF-8. *)
Fixpoint archive_prefix (archive_path : bytes) (cs : list Component.Component) : option bytes :=
  match cs with
  | [] => None
  | c :: cs =>
      match to_str (component_bytes c) with
      | None => None
      | Some component_str =>
          let archive_path := path_join archive_path (component_bytes c) in
          if ends_with component_str dot_zip || ends_with component_str dot_7z || ends_with component_str dot_ddup
          then Some archive_path else archive_prefix archive_path cs
      end
  end.
Definition archive_kind (archive_path : bytes) : option ArchiveKind.ArchiveKind :=
  match ext ← path_extension archive_path; to_str ext with
  | Some ext =>
      if bool_decide (ext = tail dot_zip) then Some ArchiveKind.Zip
      else if bool_decide (ext = tail dot_7z) then Some ArchiveKind.SevenZip
      else if bool_decide (ext = tail dot_ddup) then Some ArchiveKind.DdupBak
      else None
  | None => None
  end.

Section resolve.
(** The backups (backup/manager.rs), [uuid]'s parser and printer, the cache of
    open archives ([moka]) and the archive file systems (virtualfs/archive). *)
Context (browse : bytes → Q (option Z)) (parse_uuid : bytes → option bytes) (uuid_to_string : bytes → bytes).
Context (cache_get : bytes → Q (option Z)) (cache_insert : bytes → Z → Q unit)
  (open_archive : ArchiveKind.ArchiveKind → bytes → Q Z).
Context (self : ServerFiles).

Definition backupfs (path : bytes) : Q (option (bytes * ReadableFs)) :=
  let mounting := sv_backup_mounting self in
  if negb (bm_enabled mounting) then mret None
  else if negb (path_starts_with path (bm_path mounting)) then mret None
  else match strip_prefix path (bm_path mounting) with
  | None => mret None
  | Some backup_path =>
      match c ← head (components backup_path); parse_uuid (to_string_lossy (component_bytes c)) with
      | None => mret None
      | Some uuid =>
          if negb (bool_decide (uuid ∈ sv_backups self)) then mret None
          else
            found ← attempt (browse uuid);
            match found with
            | Some (Some backup) => mret (Some (default [] (strip_prefix backup_path (uuid_to_string uuid)), BackupFs backup))
            | _ => mret None
            end
      end
  end.

Definition archivefs (path : bytes) : Q (option (bytes * ReadableFs)) :=
  match archive_prefix [] (components path) with
  | None => mret None
  | Some archive_path =>
      match strip_prefix path archive_path with
      | None => mret None
      | Some inner_path =>
          metadata ← attempt (on_fs (async_metadata (sv_cap self) archive_path));
          if negb (match metadata with Some m => md_is_file m | None => false end) then mret None
          else
            cached ← cache_get archive_path;
            match cached with
            | Some archive_fs => mret (Some (inner_path, ArchiveFs archive_fs))
            | None =>
                match archive_kind archive_path with
                | None => mret None
                | Some kind =>
                    opened ← attempt (open_archive kind archive_path);
                    match opened with
                    | None => mret None
                    | Some archive_fs =>
                        _ ← cache_insert archive_path archive_fs;
                        mret (Some (inner_path, ArchiveFs archive_fs))
                    end
                end
            end
      end
  end.

(** The targets of the mounts that are allowed. *)
Definition mount_infos : list bytes := omap (mount_target self) (sv_mounts self).

Definition resolve_readable_fs (cell : Z) (path : bytes) : Q (bytes * ReadableFs) :=
  let path := relative_path (sv_cap self) path in
  backup ← backupfs path;
  match backup with
  | Some found => mret found
  | None =>
      archive ← archivefs path;
      match archive with
      | Some found => mret found
      | None =>
          let server_fs := (path, ServerFs (mk_VirtualMount (own_fs self true) mount_infos)) in
          match find_mount self path (sv_mounts self) with
          | Some (inner_path, mount) =>
              opened ← attempt (on_fs (CapFilesystem_new cell (mt_source mount)));
              match opened with
              | Some cap_fs => mret (inner_path, MountFs (mount_fs self mount cap_fs))
              | None => mret server_fs
              end
          | None => mret server_fs
          end
      end
  end.
End resolve.

(** ** The routes that delete, rename and create (routes/api/servers/_server_/files) *)

Section routes.
Context (self : ServerFiles).
(** The denied files of the server, [Filesystem::is_ignored], and its file history. *)
Context (denied : bytes → bool → bool) (forget_file : bytes → Q unit) (rename_file : bytes → bytes → Q unit).

(** [async_canonicalize(..).unwrap_or_else(relative_path)] *)
Definition diff_path (path : bytes) : Q bytes :=
  r ← attempt (on_fs (async_canonicalize (sv_cap self) path)); mret (default (relative_path (sv_cap self) path) r).

(** [delete::route], one file: whether it counts as deleted. *)
Definition delete_route (cell : Z) (root file : bytes) : Q bool :=
  resolved ← resolve_writable_fs self cell (path_join root file);
  let '(source, filesystem) := resolved in
  if same_path source root then mret false else
  metadata ← attempt (vfs_async_symlink_metadata filesystem source);
  match metadata with
  | None => mret false
  | Some metadata =>
      if is_primary_server_fs filesystem && denied source (is_dir (fm_file_type metadata)) then mret false
      else if is_primary_server_fs filesystem then
        _ ← (if is_file (fm_file_type metadata) then
               path ← diff_path source; _ ← attempt (forget_file (to_string_lossy path)); mret tt
             else mret tt);
        r ← attempt (truncate_path (sv_cap self) source);
        mret (bool_decide (is_Some r))
      else if is_dir (fm_file_type metadata) then
        r ← attempt (vfs_async_remove_dir_all filesystem source); mret (bool_decide (is_Some r))
      else
        r ← attempt (vfs_async_remove_file filesystem source); mret (bool_decide (is_Some r))
  end.

(** [rename::route], one file, once the root is resolved. *)
Definition rename_one (root : bytes) (filesystem : VirtualCapFilesystem) (from to : bytes) : Q bool :=
  let from := path_join root from in
  let to := path_join root to in
  if same_path from root || same_path to root || same_path from to then mret false else
  from_metadata ← attempt (vfs_async_metadata filesystem from);
  match from_metadata with
  | None => mret false
  | Some from_metadata =>
      let dir := is_dir (fm_file_type from_metadata) in
      to_metadata ← attempt (vfs_async_metadata filesystem to);
      if bool_decide (is_Some to_metadata) || (is_primary_server_fs filesystem && (denied from dir || denied to dir)) then mret false
      else if is_primary_server_fs filesystem then
        from_path ← diff_path from;
        let to_path := relative_path (sv_cap self) to in
        r ← attempt (rename_path (sv_cap self) from to);
        _ ← attempt (rename_file (to_string_lossy from_path) (to_string_lossy to_path));
        mret (bool_decide (is_Some r))
      else
        r ← attempt (vfs_async_rename filesystem from to); mret (bool_decide (is_Some r))
  end.
(** [rename::route] *)
Fixpoint rename_all (root : bytes) (filesystem : VirtualCapFilesystem) (files : list (bytes * bytes)) : Q Z :=
  match files with
  | [] => mret 0
  | (from, to) :: files =>
      renamed ← rename_one root filesystem from to;
      rest ← rename_all root filesystem files;
      mret (if (renamed : bool) then rest + 1 else rest)
  end.
Definition rename_files (cell : Z) (root : bytes) (files : list (bytes * bytes)) : Q Z :=
  resolved ← resolve_writable_fs self cell root;
  let '(root, filesystem) := resolved in
  rename_all root filesystem files.

(** [create_directory::route]: an answer other than success is its message. *)
Definition create_directory_route (cell : Z) (root name : bytes) : Q (option string) :=
  resolved ← resolve_writable_fs self cell root;
  let '(root, filesystem) := resolved in
  metadata ← attempt (vfs_async_metadata filesystem root);
  if negb (match metadata with Some m => is_dir (fm_file_type m) | None => true end) then mret (Some "path is not a directory"%string)
  else if is_primary_server_fs filesystem && denied root true then mret (Some "path not found"%string)
  else
    let destination := path_join root name in
    if is_primary_server_fs filesystem && denied destination true then mret (Some "destination not found"%string)
    else
      _ ← vfs_async_create_dir_all filesystem destination;
      mret None.
End routes.

(** ** Where a path is put *)

Lemma str_strip_prefix_Some s prefix r : str_strip_prefix s prefix = Some r ↔ s = prefix ++ r.
Proof.
  revert prefix. induction s as [| c s IH]; intros [| p prefix]; cbn; try naive_solver.
  destruct (Z.eqb_spec p c) as [-> | Hne]; [rewrite IH |]; naive_solver.
Qed.

(** A mount whose source begins as one of the allowed ones do. *)
Definition allowed_mount (self : ServerFiles) (mount : Mount) : Prop :=
  mount ∈ sv_mounts self ∧ ∃ am rest, am ∈ sv_allowed_mounts self ∧ mt_source mount = am ++ rest.
(** [path] lies in the mount, at [inner_path]. *)
Definition lies_in (mount : Mount) (path inner_path : bytes) : Prop :=
  ∃ target, mt_target mount = HOME_CONTAINER ++ target ∧ components path = components target ++ components inner_path.

Lemma mount_target_Some self mount target : mount_target self mount = Some target →
  mt_target mount = HOME_CONTAINER ++ target ∧ target ≠ [] ∧ ∃ am rest, am ∈ sv_allowed_mounts self ∧ mt_source mount = am ++ rest.
Proof.
  unfold mount_target. destruct (str_strip_prefix _ _) as [t |] eqn:Ht; [| done]. apply str_strip_prefix_Some in Ht.
  case_bool_decide as Hn; [done |]. destruct (forallb _ _) eqn:Ha; [done |]. intros [= <-]. split; [done |]. split; [done |].
  apply not_true_iff_false in Ha. rewrite forallb_forall in Ha.
  destruct (existsb (str_starts_with (mt_source mount)) (sv_allowed_mounts self)) eqn:He.
  - apply existsb_exists in He as (am & Hin & Hs). unfold str_starts_with in Hs. apply bool_decide_eq_true in Hs as [rest Hr].
    exists am, rest. split; [by apply list_elem_of_In |]. by apply str_strip_prefix_Some.
  - exfalso. apply Ha. intros am Hin. apply not_true_iff_false in He. rewrite existsb_exists in He.
    apply negb_true_iff, not_true_iff_false. intros Hs. apply He. by exists am.
Qed.

(** A target that is not empty, and is not only a dot, has components. *)
Lemma find_mount_Some self path mounts inner mount : find_mount self path mounts = Some (inner, mount) →
  Forall (λ m, ∀ t, mount_target self m = Some t → components t ≠ []) mounts →
  mount ∈ mounts ∧ lies_in mount path inner ∧ ∃ am rest, am ∈ sv_allowed_mounts self ∧ mt_source mount = am ++ rest.
Proof.
  induction mounts as [| m mounts IH]; intros Hf Hm; [done |]. cbn in Hf. apply Forall_cons_iff in Hm as [Hm Hms].
  assert (find_mount self path mounts = Some (inner, mount) →
    mount ∈ m :: mounts ∧ lies_in mount path inner ∧ ∃ am rest, am ∈ sv_allowed_mounts self ∧ mt_source mount = am ++ rest) as Hrec.
  { intros H. destruct (IH H Hms) as (? & ? & ?). split; [by right | done]. }
  destruct (mount_target self m) as [t |] eqn:Ht; [| by apply Hrec].
  destruct (negb (path_starts_with path t)); [by apply Hrec |].
  destruct (strip_prefix path t) as [r |] eqn:Hr; [| by apply Hrec]. injection Hf as <- <-.
  pose proof (strip_prefix_Some _ _ _ Hr (Hm t eq_refl)) as Hc.
  destruct (mount_target_Some _ _ _ Ht) as (Htt & _ & Ha). split; [by left |]. split; [by exists t | done].
Qed.

Lemma find_mount_None self path mounts : find_mount self path mounts = None →
  Forall (λ m, ∀ t, mount_target self m = Some t → ∀ rest, components path ≠ components t ++ rest) mounts.
Proof.
  induction mounts as [| m mounts IH]; intros Hf; [constructor |]. cbn in Hf.
  destruct (mount_target self m) as [t |] eqn:Ht.
  - unfold path_starts_with, strip_prefix in Hf. destruct (strip_components _ _) as [r |] eqn:Hs; [done |]. cbn in Hf.
    constructor; [| by apply IH]. intros t' Ht' rest Hc. rewrite Ht in Ht'. injection Ht' as <-.
    assert (strip_components (components path) (components t) = Some rest) as Hs' by by apply strip_components_Some.
    by rewrite Hs' in Hs.
  - constructor; [| by apply IH]. intros t' Ht'. by rewrite Ht in Ht'.
Qed.

(** What the resolution may ask for: to open the source of the mount. *)
Definition opens_only (cell : Z) (found : option (bytes * Mount)) (X : Type) (e : QuotaE X) (_ : unit) : Prop :=
  match e with
  | OnFs (OpenAmbientDir p) => ∃ inner mount, found = Some (inner, mount) ∧ p = mt_source mount
  | OnFs (StoreInner c _) => c = cell
  | OnFs SpawnBlocking => True
  | _ => False
  end.
(** All answers, no ghost state. *)
Definition rwp {A} (may : ∀ X, QuotaE X → unit → Prop) (m : prog QuotaE A) (Φ : A → Prop) : Prop :=
  wp may (λ _ _ _ _, True) (λ _ _ _ s, s) m tt (λ a _, Φ a).

Lemma resolve_writable_ok self cell path :
  let found := find_mount self (relative_path (sv_cap self) path) (sv_mounts self) in
  rwp (opens_only cell found) (resolve_writable_fs self cell path) (λ r,
    match r with
    | Ok (inner, fs) =>
        (∃ mount, found = Some (inner, mount) ∧
          (fs = mount_fs self mount (mk_CapFilesystem (mt_source mount) cell) ∨ fs = own_fs self false ∧ mt_read_only mount = true)) ∨
        (fs = own_fs self true ∧ inner = relative_path (sv_cap self) path ∧
         match found with None => True | Some (_, mount) => mt_read_only mount = false end)
    | Err _ => False
    end).
Proof.
  cbv zeta. unfold resolve_writable_fs. destruct (find_mount _ _ _) as [[inner mount] |].
  - unfold CapFilesystem_new, spawn_blocking, rwp. cbn. split; [done |]. intros [err |] _; cbn.
    + destruct (mt_read_only mount) eqn:Hr; cbn; rewrite ?Hr; eauto 6.
    + split; [by exists inner, mount |]. intros [dir | err] _; cbn.
      * split; [done |]. intros _ _. left. eauto.
      * destruct (mt_read_only mount) eqn:Hr; cbn; rewrite ?Hr; eauto 6.
  - unfold rwp. cbn. by right.
Qed.

(** ** Properties: writing *)

(** C4. Writes stay where their path leads.  Whatever path a client names, the
    resolution opens nothing but the source of the first allowed mount the path
    lies in, and ends with a file system and a path.  Whatever is then asked of
    that file system, every call stays in its sandbox, which is that mount's,
    at the path below its target, or the server's own.  If the mount is
    read-only then every request to write is refused without a call, also when
    the mount could not be opened. *)
Theorem writes_stay_in_their_mount (self : ServerFiles) (cell : Z) (path : bytes)
    (Hroot : components (base_path (sv_cap self)) ≠ [])
    (Hmounts : Forall (λ m, components (mt_source m) ≠ [] ∧ ∀ t, mount_target self m = Some t → components t ≠ []) (sv_mounts self)) :
  let rel := relative_path (sv_cap self) path in
  let found := find_mount self rel (sv_mounts self) in
  rwp (opens_only cell found) (resolve_writable_fs self cell path) (λ r, ∃ inner_path fs, r = Ok (inner_path, fs) ∧
    (∀ req, all_calls (stays_in (vc_inner fs)) (write_request fs req) ∧ all_calls (stays_in (vc_inner fs)) (async_write_request fs req)) ∧
    ((∃ mount, allowed_mount self mount ∧ lies_in mount rel inner_path ∧ vc_inner fs = mk_CapFilesystem (mt_source mount) cell) ∨
     vc_inner fs = sv_cap self) ∧
    match found with
    | None => vc_inner fs = sv_cap self ∧ inner_path = rel
    | Some (_, mount) => mt_read_only mount = true → ∀ req,
        write_request fs req = io_throw (IoOther "filesystem is read-only") ∧
        async_write_request fs req = io_throw (IoOther "filesystem is read-only")
    end).
Proof.
  cbv zeta. eapply wp_mono; [apply resolve_writable_ok |]. intros [[inner fs] | err] _ Hr; [| done].
  assert (∀ mount inner, find_mount self (relative_path (sv_cap self) path) (sv_mounts self) = Some (inner, mount) →
    (mount ∈ sv_mounts self ∧ components (mt_source mount) ≠ []) ∧ lies_in mount (relative_path (sv_cap self) path) inner ∧
    allowed_mount self mount) as Hfound.
  { intros mount inner' Hf. destruct (find_mount_Some _ _ _ _ _ Hf) as (Hin & Hl & Ha).
    - eapply Forall_impl; [| exact Hmounts]. by intros m [_ ?].
    - split; [split; [done |] | split; [done | by split]]. rewrite list.Forall_forall in Hmounts. by apply Hmounts. }
  exists inner, fs. split; [done |].
  destruct Hr as [(mount & Hf & [-> | [-> Hro]]) | (-> & -> & Hf)].
  - destruct (Hfound _ _ Hf) as ([Hin Hsrc] & Hl & Ha). split; [intros req; by apply write_calls |].
    split; [left; by exists mount |]. rewrite Hf. intros Hro req. apply read_only_refuses. cbn. by rewrite Hro.
  - split; [intros req; by apply write_calls |]. split; [by right |]. rewrite Hf. intros _ req. by apply read_only_refuses.
  - split; [intros req; by apply write_calls |]. split; [by right |].
    destruct (find_mount _ _ _) as [[inner' mount] |]; [| done]. intros Hro. by rewrite Hf in Hro.
Qed.

Definition sample_server : ServerFiles := {|
  sv_cap := mk_CapFilesystem [47; 115; 114; 118] 0;                                  (* "/srv" *)
  sv_user := mk_UserConfig false 988 988;
  sv_mounts := [mk_Mount (HOME_CONTAINER ++ [109; 110; 116]) [47; 100; 97; 116; 97; 47; 97] true];   (* "mnt", "/data/a" *)
  sv_allowed_mounts := [[47; 100; 97; 116; 97]];                                      (* "/data" *)
  sv_backup_mounting := mk_BackupMounting true [46; 98];                              (* ".b" *)
  sv_backups := [];
|}.

Lemma writes_stay_in_their_mount_witness :
  let rel := relative_path (sv_cap sample_server) [109; 110; 116; 47; 120] in
  let found := find_mount sample_server rel (sv_mounts sample_server) in
  rwp (opens_only 1 found) (resolve_writable_fs sample_server 1 [109; 110; 116; 47; 120]) (λ r, ∃ inner_path fs, r = Ok (inner_path, fs) ∧
    (∀ req, all_calls (stays_in (vc_inner fs)) (write_request fs req) ∧ all_calls (stays_in (vc_inner fs)) (async_write_request fs req)) ∧
    ((∃ mount, allowed_mount sample_server mount ∧ lies_in mount rel inner_path ∧ vc_inner fs = mk_CapFilesystem (mt_source mount) 1) ∨
     vc_inner fs = sv_cap sample_server) ∧
    match found with
    | None => vc_inner fs = sv_cap sample_server ∧ inner_path = rel
    | Some (_, mount) => mt_read_only mount = true → ∀ req,
        write_request fs req = io_throw (IoOther "filesystem is read-only") ∧
        async_write_request fs req = io_throw (IoOther "filesystem is read-only")
    end).
Proof.
  apply (writes_stay_in_their_mount sample_server 1 [109; 110; 116; 47; 120]).
  - discriminate.
  - constructor; [| constructor]. split; [discriminate |]. intros t Ht. vm_compute in Ht. injection Ht as <-. discriminate.
Defined.

Example sample_resolution :
  find_mount sample_server [109; 110; 116; 47; 120] (sv_mounts sample_server) =
    Some ([120], mk_Mount (HOME_CONTAINER ++ [109; 110; 116]) [47; 100; 97; 116; 97; 47; 97] true).
Proof. vm_compute. reflexivity. Qed.

(** ** What departs from that *)

(** An operating system without the source of the mount; it records the paths
    of the files that are removed, and finds a plain file at every path. *)
Definition without_source (X : Type) (e : QuotaE X) (w : list bytes) : X * list bytes :=
  match e in QuotaE X return X * list bytes with
  | OnFs e =>
      match e in FsE X return X * list bytes with
      | DirRemoveFile _ p => (Ok tt, w ++ [p])
      | DirSymlinkMetadata _ _ => (Ok (mk_Metadata (mk_RawFileType true false false) 5 420 8 1 1 None None), w)
      | LoadInner _ => (Some 7, w)
      | StoreInner _ _ => (tt, w)
      | ReadDirNext _ => (None, w)
      | SpawnBlocking => (None, w)
      | Now => (0, w)
      | _ => (Err UnexpectedEof, w)
      end
  | UpdateAtomics _ _ => (true, w)
  | UpdateSizeIterator _ _ => (tt, w)
  | UpdateSize _ _ => (tt, w)
  | RemoveUsage _ => (None, w)
  | GetUsage _ => (None, w)
  | MimeGet _ _ _ => (None, w)
  | MimeInsert _ _ _ _ => (tt, w)
  | AddDirectory _ _ => (tt, w)
  | PollUsageLock => (false, w)
  | CopyFileRange _ _ _ => (Ok 0, w)
  | FileWrite _ d => (Ok (zlen d), w)
  | FilePollWrite _ d => (Some (Ok (zlen d)), w)
  | IsAborted => (false, w)
  | AddProgress _ => (tt, w)
  | OutOfFuel => (tt, w)
  | FilePollFlush _ | FilePollShutdown _ => (Some (Ok tt), w)
  | FilePollComplete _ => (None, w)
  | FilePollRead _ _ => (None, w)
  | _ => (Err UnexpectedEof, w)
  end.

(** When a read-only mount cannot be opened, its file system is the server's
    own, marked read-only, with the path inside the mount.  Deleting the file
    [x] of the mount [mnt] by the route, which goes by whether the file system
    is the primary one and not by whether it may be written, then removes the
    file [x] of the server. *)
Theorem failed_mount_redirects_deletion :
  run without_source (delete_route sample_server (λ _ _, false) (λ _, mret tt) 1 [109; 110; 116] [120]) [] =
    (Ok true, [[120]]) ∧
  relative_path (sv_cap sample_server) (path_join [109; 110; 116] [120]) = [109; 110; 116; 47; 120].
Proof. split; vm_compute; reflexivity. Qed.

(** Allowed sources are compared as strings: a directory beside an allowed one
    is allowed when its name begins with the other's, and so is one above it
    that is reached by [..]. *)
Theorem siblings_of_allowed_mounts (self : ServerFiles) (am rest target : bytes) (read_only : bool)
    (Ham : am ∈ sv_allowed_mounts self) (Htarget : target ≠ []) :
  mount_target self (mk_Mount (HOME_CONTAINER ++ target) (am ++ rest) read_only) = Some target.
Proof.
  unfold mount_target. cbn [mt_target mt_source].
  assert (str_strip_prefix (HOME_CONTAINER ++ target) HOME_CONTAINER = Some target) as -> by by apply str_strip_prefix_Some.
  rewrite bool_decide_eq_false_2 by done. destruct (forallb _ _) eqn:Ha; [| done]. exfalso.
  rewrite forallb_forall in Ha. specialize (Ha am (proj1 (list_elem_of_In _ _) Ham)). apply negb_true_iff in Ha.
  unfold str_starts_with in Ha. apply bool_decide_eq_false in Ha. apply Ha. exists rest. by apply str_strip_prefix_Some.
Qed.

Lemma siblings_of_allowed_mounts_witness :
  mount_target sample_server (mk_Mount (HOME_CONTAINER ++ [109]) ([47; 100; 97; 116; 97] ++ [47; 46; 46; 47; 101; 116; 99]) false) = Some [109].
Proof. apply (siblings_of_allowed_mounts sample_server [47; 100; 97; 116; 97] [47; 46; 46; 47; 101; 116; 99] [109] false); [vm_compute; left | discriminate]. Defined.

(** The guard of the route compares the path that was resolved with the root
    the client sent: with a root that begins with a slash it never holds, and
    a file named [.] is the root itself. *)
Theorem delete_takes_the_root :
  run without_source (delete_route sample_server (λ _ _, false) (λ _, mret tt) 1 [47; 100] [46]) [] = (Ok true, [[100]]) ∧
  run without_source (delete_route sample_server (λ _ _, false) (λ _, mret tt) 1 [100] [46]) [] = (Ok false, []).
Proof. split; vm_compute; reflexivity. Qed.

(** A backup is found under any spelling of its identifier, but what follows
    is only kept under the one the printer uses: under another one every path
    is the root of the backup. *)
Theorem other_spellings_are_the_root :
  let parse := λ s, if bool_decide (s = [65] ∨ s = [97]) then Some [97] else None in
  let server := mk_ServerFiles (sv_cap sample_server) (sv_user sample_server) [] [] (mk_BackupMounting true [46; 98]) [[97]] in
  backupfs (λ _, mret (Some 3)) parse (λ u, u) server [46; 98; 47; 97; 47; 120] = mret (Some ([120], BackupFs 3)) ∧
  backupfs (λ _, mret (Some 3)) parse (λ u, u) server [46; 98; 47; 65; 47; 120] = mret (Some ([], BackupFs 3)).
Proof. split; vm_compute; reflexivity. Qed.

(** Without root nothing has its owner changed when directories are created by
    the blocking form; the asynchronous form changes it. *)
Theorem rootless_directories_are_chowned (fs : CapFilesystem) (uid gid : Z) (name : bytes) (Hname : name_ok name)
    (Hbase : ∃ rest, components (base_path fs) = Component.RootDir :: rest) :
  let config := mk_UserConfig true uid gid in
  let chowns := λ X (e : FsE X), match e with DirChownAt _ _ _ _ | AmbientChown _ _ _ => False | _ => True end in
  @all_calls FsE _ chowns (create_chowned_dir_all config fs name) ∧
  ¬ @all_calls FsE _ chowns (async_create_chowned_dir_all config fs name).
Proof.
  cbv zeta. destruct Hbase as [rest Hrest].
  assert (relative_path fs name = name) as Hrel by (apply (relative_path_fixed fs rest [name]); [done | by constructor]).
  assert (name ≠ []) as Hne by by destruct Hname as [? _].
  assert (components name = [Component.Normal name]) as Hc by by apply components_name.
  unfold create_chowned_dir_all, async_create_chowned_dir_all. cbv zeta. rewrite Hrel, bool_decide_eq_false_2 by done.
  unfold create_all, create_dir, on_dir, spawn_blocking. cbv zeta. rewrite !Hrel. split.
  - cbn. split; [done |]. intros [dir |]; cbn; [split; [done |] | done]. intros [[] | []]; cbn; try done.
    rewrite Hc. cbn [create_components]. unfold create_dir, on_dir. cbn. split; [done |]. intros [dir' |]; cbn; [| done].
    split; [done |]. by intros [[] | []].
  - cbn. intros [_ H]. specialize (H None). cbn in H. destruct H as [_ H]. specialize (H (Some 0)). cbn in H.
    destruct H as [_ H]. specialize (H (Ok tt)). cbn in H. unfold chown_impl, same_path in H. rewrite Hc in H.
    cbn in H. destruct H as [_ H]. specialize (H (Some 0)). cbn in H. by destruct H.
Qed.

Lemma rootless_directories_are_chowned_witness :
  let config := mk_UserConfig true 988 988 in
  let chowns := λ X (e : FsE X), match e with DirChownAt _ _ _ _ | AmbientChown _ _ _ => False | _ => True end in
  @all_calls FsE _ chowns (create_chowned_dir_all config sample_fs [97]) ∧
  ¬ @all_calls FsE _ chowns (async_create_chowned_dir_all config sample_fs [97]).
Proof.
  apply (rootless_directories_are_chowned sample_fs 988 988 [97]).
  - by apply (bool_decide_unpack (name_ok [97])).
  - by exists [Component.Normal [115; 114; 118]].
Defined.

(** ** Properties: listing *)

#[export] Instance Normal_inj : Inj (=) (=) Component.Normal.
Proof. by intros ?? [=]. Qed.

(** The names on the way to a mount, where paths are made of names. *)
Lemma next_component_names dir target : Forall name_ok dir → Forall name_ok target → Forall (λ n, utf8_valid n = true) target →
  ∀ name, next_component (join_slash dir) (join_slash target) = Some name ↔ ∃ rest, target = dir ++ name :: rest.
Proof.
  intros Hd Ht Hu name. unfold next_component.
  assert (remaining (join_slash dir) (join_slash target) = None ∧ (∀ rest, target ≠ dir ++ rest) ∨
    ∃ r rest, remaining (join_slash dir) (join_slash target) = Some r ∧ target = dir ++ rest ∧ components r = Component.Normal <$> rest) as Hr.
  { unfold remaining, same_path. rewrite components_join_slash by done. case_bool_decide as Hdir.
    - right. apply (fmap_nil_inv Component.Normal) in Hdir as ->. exists (join_slash target), target. by rewrite components_join_slash.
    - unfold path_starts_with, strip_prefix. rewrite !components_join_slash by done.
      destruct (strip_components _ _) as [r |] eqn:Hs.
      + right. apply strip_components_Some in Hs. destruct (fmap_app_inv Component.Normal _ _ _ Hs) as (d & rest & He & Hd' & ->).
        apply (inj (fmap Component.Normal)) in He as ->. exists (path_of (Component.Normal <$> rest)), rest. split; [by rewrite Hd' |]. split; [done |].
        destruct d as [| n d]; [done |]. apply (path_of_rest (join_slash (n :: d ++ rest)) (Component.Normal n) (Component.Normal <$> d)).
        rewrite components_join_slash by exact Ht. by rewrite fmap_cons, fmap_app.
      + left. split; [done |]. intros rest ->. rewrite fmap_app in Hs.
        assert (strip_components (Component.Normal <$> dir ++ rest) (Component.Normal <$> dir) = Some (Component.Normal <$> rest)) as Hs'
          by (apply strip_components_Some; by rewrite fmap_app).
        rewrite fmap_app in Hs'. by rewrite Hs in Hs'. }
  destruct Hr as [[-> Hno] | (r & rest & -> & -> & Hr)].
  - split; [done |]. intros [rest ->]. by destruct (Hno (name :: rest)).
  - cbn -[to_string_lossy]. rewrite Hr. destruct rest as [| n rest]; cbn -[to_string_lossy].
    + split; [done |]. intros [rest H]. by apply (f_equal length) in H; rewrite !length_app in H; cbn in H; lia.
    + apply Forall_app in Hu as [_ Hu]. apply Forall_cons_iff in Hu as [Hu _].
      unfold to_string_lossy. rewrite from_utf8_lossy_valid by done. split.
      * intros [= <-]. by exists rest.
      * intros [rest' H]. apply app_inv_head in H. by injection H as <- <-.
Qed.

Lemma display_name_join dir name : Forall name_ok dir → name_ok name → utf8_valid name = true →
  display_name (path_join (join_slash dir) name) = name.
Proof.
  intros Hd Hn Hu. rewrite path_join_names by done. unfold display_name, path_file_name.
  rewrite components_join_slash by (apply Forall_app; split; [done | by constructor]).
  rewrite fmap_app. change (Component.Normal <$> [name]) with [Component.Normal name]. rewrite last_snoc. cbn.
  unfold to_string_lossy. by apply from_utf8_lossy_valid.
Qed.

Section virtual_dirs.
Context (dir : list bytes) (Hdir : Forall name_ok dir).
Context (is_ignored : IsIgnoredFn) (Hkeeps : ∀ file_type path q, is_ignored file_type path = Some q → q = path).
Context (existing : list bytes).

Definition names_path (target : list bytes) : Prop := Forall name_ok target ∧ Forall (λ n, utf8_valid n = true) target.
(** A name below the directory on the way to a mount that may be seen. *)
Definition leads_to_mount (targets : list (list bytes)) (name : bytes) : Prop :=
  name ∉ existing ∧ is_Some (is_ignored FileType.Dir (path_join (join_slash dir) name)) ∧ ∃ rest, dir ++ name :: rest ∈ targets.

Lemma virtual_dirs_ok targets : Forall names_path targets → ∀ seen,
  let dirs := virtual_dirs (join_slash dir) is_ignored existing seen (join_slash <$> targets) in
  NoDup (den_name <$> dirs) ∧ Forall (λ e, den_directory e = true) dirs ∧
  ∀ name, name ∈ den_name <$> dirs ↔ leads_to_mount targets name ∧ name ∉ seen.
Proof.
  induction targets as [| t targets IH]; intros Ht seen; cbn.
  { split; [constructor |]. split; [constructor |]. intros name. split; [set_solver |]. intros [(_ & _ & rest & H) _]. set_solver. }
  apply Forall_cons_iff in Ht as [[Hn Hu] Ht]. specialize (IH Ht).
  pose proof (next_component_names dir t Hdir Hn Hu) as Hnext.
  destruct (next_component (join_slash dir) (join_slash t)) as [name |] eqn:Hc; cbn.
  - destruct (proj1 (Hnext name) eq_refl) as [rest ->]. apply Forall_app in Hn as [_ Hn]. apply Forall_app in Hu as [_ Hu].
    apply Forall_cons_iff in Hn as [Hn _]. apply Forall_cons_iff in Hu as [Hu _].
    assert (∀ name', leads_to_mount ((dir ++ name :: rest) :: targets) name' ↔
      (name' = name ∧ name ∉ existing ∧ is_Some (is_ignored FileType.Dir (path_join (join_slash dir) name))) ∨ leads_to_mount targets name') as Hl.
    { intros name'. unfold leads_to_mount. split.
      - intros (He & Hi & rest' & [H | H]%elem_of_cons); [| by right; eauto]. apply app_inv_head in H. injection H as -> ->. by left.
      - intros [(-> & He & Hi) | (He & Hi & rest' & H)]; (split; [done |]); (split; [done |]).
        + exists rest. by left.
        + exists rest'. by right. }
    case_bool_decide as He; cbn.
    { destruct (IH seen) as (? & ? & H). split; [done |]. split; [done |]. intros name'. rewrite H, Hl. set_solver. }
    case_bool_decide as Hs.
    { destruct (IH seen) as (? & ? & H). split; [done |]. split; [done |]. intros name'. rewrite H, Hl. set_solver. }
    assert ((if same_path (join_slash dir) [] then name else path_join (join_slash dir) name) = path_join (join_slash dir) name) as ->.
    { unfold same_path. rewrite components_join_slash by done. case_bool_decide as Hd; [| done].
      apply (fmap_nil_inv Component.Normal) in Hd as ->. cbn. unfold path_join. cbn. by destruct (is_absolute name). }
    destruct (IH (name :: seen)) as (Hnd & Hdirs & H).
    destruct (is_ignored FileType.Dir _) as [q |] eqn:Hi.
    + apply Hkeeps in Hi as Hq. subst q. cbn. rewrite display_name_join by done. split; [| split].
      * apply list.NoDup_cons. split; [| done]. rewrite H. set_solver.
      * by constructor.
      * intros name'. rewrite elem_of_cons, H, Hl. destruct (decide (name' = name)) as [-> |]; [| set_solver].
        split; [| by left]. intros _. split; [left; eauto | done].
    + split; [done |]. split; [done |]. intros name'. rewrite H, Hl. split; [set_solver |].
      intros [[(_ & _ & [? [=]]) | Hl'] Hns]. split; [done |]. apply not_elem_of_cons. split; [| done]. intros ->.
      destruct Hl' as (_ & [? Hi'] & _). by rewrite Hi in Hi'.
  - destruct (IH seen) as (? & ? & H). split; [done |]. split; [done |]. intros name'. rewrite H. unfold leads_to_mount.
    split; intros [(? & ? & rest & Hin) ?]; (split; [| done]); (split; [done |]); (split; [done |]); exists rest; [by right |].
    apply elem_of_cons in Hin as [Hin |]; [| done]. pose proof (proj2 (Hnext name') (ex_intro _ rest (eq_sym Hin))) as Hn'. done.
Qed.
End virtual_dirs.

Lemma filter_partition {A} (p : A → bool) (l : list A) : List.filter p l ++ List.filter (λ x, negb (p x)) l ≡ₚ l.
Proof. induction l as [| x l IH]; cbn; [done |]. destruct (p x); cbn; [by rewrite IH |]. by rewrite <- Permutation_middle, IH. Qed.

Lemma Forall_filter {A} (p : A → bool) (l : list A) : Forall (λ x, p x = true) (List.filter p l).
Proof. induction l as [| x l IH]; cbn; [constructor |]. destruct (p x) eqn:Hp; [by constructor | done]. Qed.

Lemma order_virtual_perm sort dirs : order_virtual sort dirs ≡ₚ dirs.
Proof. unfold order_virtual. destruct sort; try apply sort_by_perm. etrans; [symmetry; apply Permutation_rev | apply sort_by_perm]. Qed.

(** A page of a listing that is served from the first one on. *)
Lemma page_start page per_page : 1 <= page → 0 < per_page → (page - 1) * per_page <= U64_MAX →
  Z.min (saturating_sub page 1 * per_page) U64_MAX = (page - 1) * per_page.
Proof. unfold saturating_sub. intros. rewrite Z.max_l by lia. lia. Qed.

(** C14. The listing of a directory with mounts below it.  Whatever the file
    system underneath answers, if nothing changes meanwhile, the whole listing
    has the entries of the directory itself and besides, once each, the names
    that lead to a mount, that no entry has and that the filter keeps;
    directories come before the rest; the total is the number of all of them;
    and the pages, one after the other, are the listing. *)
Theorem mount_listing {T W} `{!VirtualReadableFilesystem T} (inner : T) (targets : list (list bytes)) (dir : list bytes)
    (h : ∀ X, QuotaE X → W → X * W) (w : W) (answer : ior DirectoryListing) (is_ignored : IsIgnoredFn)
    (sort : DirectorySortingMode.DirectorySortingMode)
    (Hdir : Forall name_ok dir) (Htargets : Forall names_path targets)
    (Hkeeps : ∀ file_type path q, is_ignored file_type path = Some q → q = path)
    (Hanswer : run h (vr_read_dir inner (join_slash dir) None 1 is_ignored sort) w = (answer, w))
    (Hmount : ∃ name rest, dir ++ name :: rest ∈ targets) :
  let inner_entries := match answer with Ok listing => entries listing | Err _ => [] end in
  let self := mk_VirtualMount inner (join_slash <$> targets) in
  ∃ listed virtual,
    run h (mount_read_dir self (join_slash dir) None 1 is_ignored sort) w = (Ok (mk_DirectoryListing (zlen listed) listed), w) ∧
    listed ≡ₚ virtual ++ inner_entries ∧ NoDup (den_name <$> virtual) ∧
    (∀ name, name ∈ den_name <$> virtual ↔ leads_to_mount dir is_ignored (den_name <$> inner_entries) targets name) ∧
    (∃ dirs others, listed = dirs ++ others ∧ Forall (λ e, den_directory e = true) dirs ∧ Forall (λ e, den_directory e = false) others) ∧
    ∀ (per_page : Z) (k : nat), 0 < per_page → Z.of_nat k * per_page <= U64_MAX →
      ∃ pages, length pages = k ∧
        (∀ i page, pages !! i = Some page →
           run h (mount_read_dir self (join_slash dir) (Some per_page) (Z.of_nat i + 1) is_ignored sort) w =
             (Ok (mk_DirectoryListing (zlen listed) page), w)) ∧
        concat pages = ztake (Z.of_nat k * per_page) listed.
Proof.
  cbv zeta. set (inner_entries := match answer with Ok listing => entries listing | Err _ => [] end).
  set (self := mk_VirtualMount inner (join_slash <$> targets)).
  set (virtual := virtual_dirs (join_slash dir) is_ignored (den_name <$> inner_entries) [] (join_slash <$> targets)).
  set (listed := merge_listing (join_slash dir) (join_slash <$> targets) is_ignored sort inner_entries).
  assert (∀ per_page page, run h (mount_read_dir self (join_slash dir) per_page page is_ignored sort) w =
    (Ok (mk_DirectoryListing (zlen listed) match per_page with
                              | Some per_page => skip_take (Z.min (saturating_sub page 1 * per_page) U64_MAX) per_page listed
                              | None => listed end), w)) as Hrun.
  { intros per_page page. unfold mount_read_dir.
    assert (projects_virtual_dir self (join_slash dir) = true) as ->.
    { unfold projects_virtual_dir. destruct Hmount as (name & rest & Hin). apply existsb_exists. exists (join_slash (dir ++ name :: rest)). split.
      - apply list_elem_of_In. by apply list_elem_of_fmap_2.
      - rewrite list.Forall_forall in Htargets. destruct (Htargets _ Hin) as [Hn Hu].
        pose proof (proj2 (next_component_names dir _ Hdir Hn Hu name) (ex_intro _ rest eq_refl)) as Hnext.
        unfold next_component in Hnext. destruct (remaining _ _) as [r |]; [| done]. cbn in Hnext.
        destruct (components r); [done |]. by rewrite bool_decide_eq_false_2. }
    cbn [negb]. unfold mbind, Q_bind, io_bind, attempt. rewrite !run_bind. cbn [vm_inner self].
    rewrite Hanswer. cbn [run].
    assert (match result_ok answer with Some l => entries l | None => [] end = inner_entries) as -> by by destruct answer.
    cbn [vm_mounts self]. fold listed. by destruct per_page. }
  destruct (virtual_dirs_ok dir Hdir is_ignored Hkeeps (den_name <$> inner_entries) targets Htargets []) as (Hnd & Hds & Hv).
  fold virtual in Hnd, Hds, Hv.
  exists listed, virtual. split; [by rewrite Hrun |]. split; [| split; [done | split; [| split]]].
  - unfold listed, merge_listing. fold virtual. by rewrite order_virtual_perm, filter_partition.
  - intros name. rewrite Hv. set_solver.
  - exists (order_virtual sort virtual ++ List.filter den_directory inner_entries), (List.filter (λ e, negb (den_directory e)) inner_entries).
    split; [by unfold listed, merge_listing; fold virtual; rewrite app_assoc |]. split.
    + apply Forall_app. split; [by rewrite order_virtual_perm | apply Forall_filter].
    + eapply Forall_impl; [| apply Forall_filter]. intros e ?. by apply negb_true_iff.
  - intros per_page k Hpp Hk. exists ((λ i, skip_take (Z.of_nat i * per_page) per_page listed) <$> seq 0 k).
    split; [by rewrite length_fmap, length_seq |]. split; [| apply pages_cover; lia].
    intros i page Hi. apply list_lookup_fmap_Some in Hi as (j & -> & Hj). apply lookup_seq in Hj as [-> Hlt].
    rewrite Hrun, page_start; [| lia | lia | nia]. do 4 f_equal. lia.
Qed.

(** A file system that answers every listing with the same entries. *)
Definition fixed_listing : VirtualReadableFilesystem (list DirectoryEntry) := {|
  vr_is_primary _ := true;
  vr_is_writable _ := true;
  vr_metadata _ _ := mret virtual_dir_metadata;
  vr_symlink_metadata _ _ := mret virtual_dir_metadata;
  vr_directory_entry _ path := mret (virtual_dir_entry path);
  vr_directory_entry_buffer _ path _ := mret (virtual_dir_entry path);
  vr_read_dir l _ _ _ _ _ := mret (mk_DirectoryListing (zlen l) l);
|}.
Definition sample_entries : list DirectoryEntry := [virtual_dir_entry [98]; virtual_dir_entry [99]].
(** "d/a/x", "d/b" and "e" *)
Definition sample_targets : list (list bytes) := [[[100]; [97]; [120]]; [[100]; [98]]; [[101]]].

Lemma mount_listing_witness :
  ∃ listed virtual,
    run without_source (mount_read_dir (T := list DirectoryEntry) (VirtualReadableFilesystem0 := fixed_listing)
      (mk_VirtualMount sample_entries (join_slash <$> sample_targets)) (join_slash [[100]]) None 1 IsIgnoredFn_default DirectorySortingMode.NameAsc) [] =
      (Ok (mk_DirectoryListing (zlen listed) listed), []) ∧
    listed ≡ₚ virtual ++ sample_entries ∧ den_name <$> virtual ≡ₚ [[97]].
Proof.
  destruct (mount_listing (T := list DirectoryEntry) (VirtualReadableFilesystem0 := fixed_listing) sample_entries sample_targets [[100]] without_source []
    (Ok (mk_DirectoryListing 2 sample_entries)) IsIgnoredFn_default DirectorySortingMode.NameAsc) as (listed & virtual & Hrun & Hperm & Hnd & Hv & _).
  - constructor; [| constructor]. by apply (bool_decide_unpack (name_ok [100])).
  - apply (bool_decide_unpack (Forall (λ t, Forall name_ok t ∧ Forall (λ n, utf8_valid n = true) t) sample_targets)). by vm_compute.
  - by intros ft path q [= ->].
  - reflexivity.
  - exists [97], [[120]]. by left.
  - exists listed, virtual. split; [exact Hrun |]. split; [exact Hperm |].
    apply NoDup_Permutation; [exact Hnd | apply NoDup_singleton |]. intros name. rewrite Hv. unfold leads_to_mount. split.
    + intros (He & _ & rest & Hin). unfold sample_targets in Hin. cbn in He.
      apply elem_of_cons in Hin as [[= -> ->] | [[= -> ->] | [[=] | []%not_elem_of_nil]%elem_of_cons]%elem_of_cons]; [by left |].
      exfalso. apply He. by left.
    + intros ->%list_elem_of_singleton. split; [by apply (bool_decide_unpack ([97] ∉ den_name <$> sample_entries)) |].
      split; [by eexists | exists [[120]]; by left].
Defined.

(** The page before the first: without mounts below the directory its number
    wraps around and the page is empty; with mounts it is the first page. *)
Theorem page_zero_is_empty {A} (per_page : Z) (l : list A) (Hpage : 0 < per_page) (Hl : zlen l + per_page <= 2 ^ 64) :
  select_page (Some per_page) 0 l = [] ∧
  skip_take (Z.min (saturating_sub 0 1 * per_page) U64_MAX) per_page l = ztake per_page l.
Proof.
  unfold select_page, skip_take. assert (u64_mul (0 -u 1) per_page = 2 ^ 64 - per_page) as ->.
  { unfold u64_mul, u64_sub, wrap64. change ((0 - 1) mod 2 ^ 64) with (2 ^ 64 - 1). 
    replace ((2 ^ 64 - 1) * per_page) with (2 ^ 64 - per_page + (per_page - 1) * 2 ^ 64) by lia.
    pose proof (zlen_nonneg l). rewrite Z.mod_add, Z.mod_small by lia. done. }
  split; [rewrite zdrop_ge by lia; by unfold ztake; rewrite take_nil |].
  unfold saturating_sub. rewrite Z.max_r by lia. cbn. by rewrite zdrop_le.
Qed.

Lemma page_zero_is_empty_witness : select_page (Some 2) 0 [1; 2; 3] = [] ∧
  skip_take (Z.min (saturating_sub 0 1 * 2) U64_MAX) 2 [1; 2; 3] = [1; 2].
Proof. apply (page_zero_is_empty 2 [1; 2; 3]); vm_compute; by intros. Defined.
