(* ===== verification/ZipFs.v ===== *)
(** * ZipFs: browsing a zip archive (application/src/server/filesystem/virtualfs/archive/zip.rs)

    A zip archive has a flat list of entries; [VirtualZipArchive] shows them as
    directories.  Which directories there are, also those no entry stands for,
    and how large they are, it keeps in a tree of sizes ([DiskUsage]).  The
    crate [zip] is taken as the list of the entries, each readable or not, and
    as two lookups of an index, by path and by name. *)
From stdpp Require Import sorting.
From S2P Require Import Prelude IoModel Paths Utf8 DiskUsage UsageTree Effects CapFs CapWalk FsOps Entries VirtualFs Mounts.

(** ** The archive *)

Module ExtraField.
Inductive ExtraField : Type :=
  | ExtendedTimestamp (mod_time ac_time cr_time : option Z)
  | Ntfs (mtime ctime : Z)
  | Other.
End ExtraField.

(** What the crate answers of an entry; [ze_last_modified] is its date in
    seconds, where it is a date at all, and [ze_content] what reading it
    gives. *)
Record ZipEntry : Type := mk_ZipEntry {
  ze_enclosed_name : option bytes;
  ze_is_dir : bool;
  ze_is_file : bool;
  ze_is_symlink : bool;
  ze_size : Z;
  ze_compressed_size : Z;
  ze_unix_mode : option Z;
  ze_extra : list ExtraField.ExtraField;
  ze_last_modified : option Z;
  ze_content : ior bytes;
}.
(** Entries that cannot be read are [None]. *)
Abbreviation ZipArchive := (list (option ZipEntry)).
Definition FileNotFound : io_error := NotFound "specified file not found in archive".
Definition by_index (archive : ZipArchive) (i : nat) : ior ZipEntry := ok_or (mjoin (archive !! i)) FileNotFound.

Section times.
(** [NtTime] as seconds since 1970. *)
Context (nt_time : Z → Z).

(** [zip_entry_get_modified_time] (filesystem/archive/mod.rs) *)
Fixpoint extra_modified (fields : list ExtraField.ExtraField) : option Z :=
  match fields with
  | [] => None
  | ExtraField.ExtendedTimestamp (Some mod_time) _ _ :: _ => Some mod_time
  | ExtraField.Ntfs mtime _ :: _ => Some (nt_time mtime)
  | _ :: fields => extra_modified fields
  end.
Definition zip_entry_get_modified_time (entry : ZipEntry) : option Z :=
  match extra_modified (ze_extra entry) with Some t => Some t | None => ze_last_modified entry end.
(** [zip_entry_get_created_time] *)
Fixpoint extra_created (fields : list ExtraField.ExtraField) : option Z :=
  match fields with
  | [] => None
  | ExtraField.ExtendedTimestamp _ _ (Some cr_time) :: _ => Some cr_time
  | ExtraField.Ntfs _ ctime :: _ => Some (nt_time ctime)
  | _ :: fields => extra_created fields
  end.
Definition zip_entry_get_created_time (entry : ZipEntry) : option Z := extra_created (ze_extra entry).
End times.

(** ** The file system *)

Record SortableZipEntry : Type := mk_Sortable {
  sz_name : bytes;
  sz_size : Z;
  sz_size_compressed : Z;
  sz_modified : Z;
  sz_created : Z;
}.

Definition zip_entry_to_file_type (entry : ZipEntry) : FileType.FileType :=
  if ze_is_dir entry then FileType.Dir else if ze_is_file entry then FileType.File
  else if ze_is_symlink entry then FileType.Symlink else FileType.Unknown.

Definition SortableZipEntry_new (nt_time : Z → Z) (name : bytes) (entry : ZipEntry) (archive_created : Z) : SortableZipEntry :=
  mk_Sortable name (ze_size entry) (ze_compressed_size entry) (default 0 (zip_entry_get_modified_time nt_time entry))
    (default archive_created (zip_entry_get_created_time nt_time entry)).

Section cmp.
Import DirectorySortingMode.
Definition cmp_sort (sort : DirectorySortingMode) (self other : SortableZipEntry) : comparison :=
  match sort with
  | NameAsc => cmp_ascii_case_insensitive (sz_name self) (sz_name other)
  | NameDesc => cmp_ascii_case_insensitive (sz_name other) (sz_name self)
  | SizeAsc => sz_size self ?= sz_size other
  | SizeDesc => sz_size other ?= sz_size self
  | PhysicalSizeAsc => sz_size_compressed self ?= sz_size_compressed other
  | PhysicalSizeDesc => sz_size_compressed other ?= sz_size_compressed self
  | ModifiedAsc => sz_modified self ?= sz_modified other
  | ModifiedDesc => sz_modified other ?= sz_modified self
  | CreatedAsc => sz_created self ?= sz_created other
  | CreatedDesc => sz_created other ?= sz_created self
  end.
End cmp.

Record VirtualZipArchive : Type := mk_VirtualZip {
  vz_archive : ZipArchive;
  archive_created : Z;
  sizes : DiskUsage;
}.

(** An entry is counted in its own directory if it is one, else in the one it
    is in. *)
Definition entry_delta (entry : ZipEntry) : SpaceDelta := mk_SpaceDelta (as_i64 (ze_size entry)) (as_i64 (ze_compressed_size entry)).
Definition add_entry (sizes : DiskUsage) (entry : option ZipEntry) : DiskUsage :=
  match entry with
  | None => sizes
  | Some entry =>
      match ze_enclosed_name entry with
      | None => sizes
      | Some name =>
          if ze_is_dir entry then update_size sizes name (entry_delta entry)
          else update_size sizes (default [] (path_parent name)) (entry_delta entry)
      end
  end.
Definition VirtualZipArchive_new (archive : ZipArchive) (archive_created : Z) : VirtualZipArchive :=
  mk_VirtualZip archive archive_created (foldl add_entry DiskUsage_default archive).

Definition is_virtual_directory (sizes : DiskUsage) (path : bytes) : bool := bool_decide (is_Some (get_path sizes path)).

Definition virtual_directory_entry (archive_created : Z) (path : bytes) (sizes : DiskUsage) : DirectoryEntry :=
  let space := default UsedSpace_default (get_size sizes path) in {|
  den_name := display_name path;
  den_mode := encode_mode 493;
  den_mode_bits := 493;
  den_size := us_logical space;
  den_size_physical := us_physical space;
  den_editable := false;
  den_inner_editable := false;
  den_directory := true;
  den_file := false;
  den_symlink := false;
  den_mime := mime MimeCacheValue_directory;
  den_created := archive_created;
  den_modified := 0;
|}.

(** A method of the file system: the types of entries that were told are kept
    by index. *)
Definition Zip (A : Type) : Type := stt (gmap nat MimeCacheValue) io_error A.
#[global] Instance Zip_ret : MRet Zip := stt_ret.
#[global] Instance Zip_bind : MBind Zip := stt_bind.

Section zip.
(** The lookups of the crate, the time format of a library, the crates that
    tell the type of a file. *)
Context (index_for_path index_for_name : ZipArchive → bytes → option nat) (nt_time : Z → Z).
Context (infer_get : bytes → option string) (guess_mime : bytes → option string).

(** A directory is also looked for under its name with a slash after it. *)
Definition better_index_for_path (archive : ZipArchive) (path : bytes) : option nat :=
  match index_for_path archive path with
  | Some index => Some index
  | None => index_for_name archive (path ++ [SLASH])
  end.
Definition better_by_path (archive : ZipArchive) (path : bytes) : ior ZipEntry :=
  match index_for_path archive path with
  | Some index => by_index archive index
  | None => match index_for_name archive (path ++ [SLASH]) with Some index => by_index archive index | None => Err FileNotFound end
  end.

Definition zip_entry_to_directory_entry (archive_created : Z) (path : bytes) (entry_index : nat) (sizes : DiskUsage)
    (buffer : option bytes) (entry : ZipEntry) : Zip DirectoryEntry :=
  let '(size, size_physical) :=
    if ze_is_dir entry then let space := default UsedSpace_default (get_size sizes path) in (us_logical space, us_physical space)
    else (ze_size entry, ze_compressed_size entry) in
  mime_cache ← get_state;
  detected_mime ← (
    if ze_is_dir entry then mret MimeCacheValue_directory
    else if ze_is_symlink entry then mret MimeCacheValue_symlink
    else match mime_cache !! entry_index with
    | Some detected_mime => mret detected_mime
    | None =>
        let remember (detected_mime : MimeCacheValue) : Zip MimeCacheValue :=
          _ ← modify <[entry_index := detected_mime]>; mret detected_mime in
        match buffer with
        | Some buffer => remember (detect_mime_type infer_get guess_mime path (Some buffer))
        | None =>
            if ze_size entry =? 0 then mret MimeCacheValue_text
            else
              (* the whole array, whatever was read into it *)
              let buffer := match ze_content entry with
                            | Ok content => Some (ztake 64 content ++ replicate (64 - length content) 0)
                            | Err _ => None
                            end in
              remember (detect_mime_type infer_get guess_mime path buffer)
        end
    end);
  let mode := default (if ze_is_dir entry then 493 else 420) (ze_unix_mode entry) in
  mret {|
    den_name := display_name path;
    den_mode := encode_mode mode;
    den_mode_bits := Z.land mode 511;
    den_size := size;
    den_size_physical := size_physical;
    den_editable := ze_is_file entry && valid_utf8 detected_mime;
    den_inner_editable := ze_is_file entry && valid_inner_utf8 detected_mime;
    den_directory := ze_is_dir entry;
    den_file := ze_is_file entry;
    den_symlink := ze_is_symlink entry;
    den_mime := mime detected_mime;
    den_created := default archive_created (zip_entry_get_created_time nt_time entry);
    den_modified := default 0 (zip_entry_get_modified_time nt_time entry);
  |}.

Context (self : VirtualZipArchive).
Abbreviation archive := (vz_archive self).

Definition virtual_metadata : FileMetadata := mk_FileMetadata FileType.Dir (from_mode_dir 493) 0 None None.
Definition zip_metadata (path : bytes) : ior FileMetadata :=
  if same_path path [] || same_path path [SLASH] then Ok virtual_metadata
  else match better_by_path archive path with
  | Ok entry => Ok {|
      fm_file_type := zip_entry_to_file_type entry;
      fm_permissions :=
        match ze_unix_mode entry with
        | Some mode => if ze_is_dir entry then from_mode_dir mode else from_mode_file mode
        | None => if ze_is_dir entry then from_mode_dir 493 else from_mode_file 420
        end;
      fm_size := ze_size entry;
      fm_modified := zip_entry_get_modified_time nt_time entry;
      fm_created := zip_entry_get_created_time nt_time entry;
    |}
  | Err e => if is_virtual_directory (sizes self) path then Ok virtual_metadata else Err e
  end.

(** [async_directory_entry], and with a buffer [async_directory_entry_buffer]. *)
Definition zip_directory_entry (path : bytes) (buffer : option bytes) : Zip DirectoryEntry :=
  match better_index_for_path archive path with
  | Some entry_index =>
      entry ← lift (by_index archive entry_index);
      zip_entry_to_directory_entry (archive_created self) path entry_index (sizes self) buffer entry
  | None =>
      if is_virtual_directory (sizes self) path then mret (virtual_directory_entry (archive_created self) path (sizes self))
      else throw FileNotFound
  end.

(** The directories of a listing: the children in the tree of sizes, those
    with an entry of their own by its index. *)
Fixpoint list_directories (path : bytes) (is_ignored : IsIgnoredFn) (children : list (bytes * DiskUsage)) :
    ior (list (option nat * SortableZipEntry)) :=
  match children with
  | [] => Ok []
  | (child_name, child_node) :: children =>
      let child_path := path_join path child_name in
      let zip_index := better_index_for_path archive child_path in
      times ← match zip_index with
        | Some idx =>
            entry ← by_index archive idx;
            Ok (default 0 (zip_entry_get_modified_time nt_time entry),
                default (archive_created self) (zip_entry_get_created_time nt_time entry))
        | None => Ok (archive_created self, archive_created self)
        end;
      rest ← list_directories path is_ignored children;
      Ok match is_ignored FileType.Dir child_path with
         | None => rest
         | Some filtered_name =>
             (zip_index, mk_Sortable filtered_name (us_logical (du_space child_node)) (us_physical (du_space child_node))
                           (fst times) (snd times)) :: rest
         end
  end.

(** The rest of a listing: the entries right below the directory that are
    not directories. *)
Fixpoint list_others (path : bytes) (is_ignored : IsIgnoredFn) (i : nat) (es : list (option ZipEntry)) :
    ior (list (option nat * SortableZipEntry)) :=
  match es with
  | [] => Ok []
  | entry :: es =>
      entry ← ok_or entry FileNotFound;
      rest ← list_others path is_ignored (S i) es;
      Ok (if ze_is_dir entry then rest
          else match ze_enclosed_name entry with
          | None => rest
          | Some name =>
              if negb (path_starts_with name path) || same_path name path then rest
              else if negb (bool_decide (length (components name) = S (length (components path)))) then rest
              else match is_ignored (zip_entry_to_file_type entry) name with
              | None => rest
              | Some filtered_name => (Some i, SortableZipEntry_new nt_time filtered_name entry (archive_created self)) :: rest
              end
          end)
  end.

(** The entries of a page; one without a name inside the archive is left out. *)
Fixpoint make_entries (rows : list (option nat * SortableZipEntry)) : Zip (list DirectoryEntry) :=
  match rows with
  | [] => mret []
  | (Some idx, _) :: rows =>
      entry ← lift (by_index archive idx);
      match ze_enclosed_name entry with
      | None => make_entries rows
      | Some entry_path =>
          e ← zip_entry_to_directory_entry (archive_created self) entry_path idx (sizes self) None entry;
          rest ← make_entries rows;
          mret (e :: rest)
      end
  | (None, sortable) :: rows =>
      rest ← make_entries rows;
      mret (virtual_directory_entry (archive_created self) (sz_name sortable) (sizes self) :: rest)
  end.

Definition zip_read_dir (path : bytes) (per_page : option Z) (page : Z) (is_ignored : IsIgnoredFn)
    (sort : DirectorySortingMode.DirectorySortingMode) : Zip DirectoryListing :=
  directory_entries ← lift (match get_path (sizes self) path with
                            | Some node => list_directories path is_ignored (du_entries node)
                            | None => Ok []
                            end);
  other_entries ← lift (list_others path is_ignored 0 archive);
  let directory_entries := sort_by (λ a b, cmp_sort sort (snd a) (snd b)) directory_entries in
  let other_entries := sort_by (λ a b, cmp_sort sort (snd a) (snd b)) other_entries in
  let total_entries := zlen directory_entries + zlen other_entries in
  entries ← make_entries (select_page per_page page (directory_entries ++ other_entries));
  mret (mk_DirectoryListing total_entries entries).

(** *** Walking *)

(** [IgnoreWalkDir::next_entry], from the entry at [current_index] on: what is
    found and the index after it.  An entry that cannot be read ends the walk. *)
Fixpoint walk_next (path : bytes) (is_ignored : IsIgnoredFn) (current_index : nat) (es : list (option ZipEntry)) :
    option (FileType.FileType * bytes) * nat :=
  match es with
  | [] => (None, current_index)
  | None :: _ => (None, current_index)
  | Some entry :: es =>
      let current_index := S current_index in
      match ze_enclosed_name entry with
      | None => walk_next path is_ignored current_index es
      | Some name =>
          if negb (path_starts_with name path) || same_path name path then walk_next path is_ignored current_index es
          else
            let file_type := zip_entry_to_file_type entry in
            match is_ignored file_type name with
            | Some name => (Some (file_type, name), current_index)
            | None => walk_next path is_ignored current_index es
            end
      end
  end.
Definition zip_next_entry (path : bytes) (is_ignored : IsIgnoredFn) (current_index : nat) :
    option (FileType.FileType * bytes) * nat :=
  walk_next path is_ignored current_index (drop current_index archive).
(** The walk, to its end. *)
Fixpoint zip_walk (fuel : nat) (path : bytes) (is_ignored : IsIgnoredFn) (current_index : nat) : list (FileType.FileType * bytes) :=
  match fuel with
  | O => []
  | S fuel =>
      match zip_next_entry path is_ignored current_index with
      | (Some found, current_index) => found :: zip_walk fuel path is_ignored current_index
      | (None, _) => []
      end
  end.

(** *** Contents *)

(** [read_file]: the size and what is read; a range is not looked at. *)
Definition zip_read_file (path : bytes) : ior (Z * ior bytes) :=
  entry ← better_by_path archive path; Ok (ze_size entry, ze_content entry).
Definition zip_read_symlink (path : bytes) : ior bytes :=
  entry ← better_by_path archive path;
  if 1024 <? ze_size entry then Err (IoOther "symlink target size exceeds maximum allowed size")
  else if negb (ze_is_symlink entry) then Err (IoOther "not a symlink")
  else content ← ze_content entry; ok_or (to_str content) (InvalidData "stream did not contain valid UTF-8").

(** What is written of an entry when a directory is streamed as an archive. *)
Inductive ArchiveItem : Type :=
  | AddDirectory (name : bytes)
  | AddFile (name : bytes) (size : Z)
  | AddLink (name target : bytes).

(** The entries below a path that are kept, under their names from there on. *)
Definition streamed_name (path : bytes) (is_ignored : IsIgnoredFn) (entry : ZipEntry) : option bytes :=
  name ← ze_enclosed_name entry;
  name ← strip_prefix name path;
  if bool_decide (components name = []) then None
  else match is_ignored (zip_entry_to_file_type entry) name with None => None | Some _ => Some name end.
(** [async_read_dir_archive] to zip: symbolic links are copied as they are. *)
Fixpoint stream_zip (path : bytes) (is_ignored : IsIgnoredFn) (es : list (option ZipEntry)) : ior (list ArchiveItem) :=
  match es with
  | [] => Ok []
  | entry :: es =>
      entry ← ok_or entry FileNotFound;
      rest ← stream_zip path is_ignored es;
      Ok match streamed_name path is_ignored entry with
         | None => rest
         | Some name => (if ze_is_dir entry then AddDirectory (to_string_lossy name) else AddFile name (ze_size entry)) :: rest
         end
  end.
(** To tar: a link is written when its target has a sensible length. *)
Fixpoint stream_tar (path : bytes) (is_ignored : IsIgnoredFn) (es : list (option ZipEntry)) : ior (list ArchiveItem) :=
  match es with
  | [] => Ok []
  | entry :: es =>
      entry ← ok_or entry FileNotFound;
      match streamed_name path is_ignored entry with
      | None => stream_tar path is_ignored es
      | Some name =>
          if ze_is_dir entry then rest ← stream_tar path is_ignored es; Ok (AddDirectory name :: rest)
          else if ze_is_file entry then rest ← stream_tar path is_ignored es; Ok (AddFile name (ze_size entry) :: rest)
          else if ze_is_symlink entry && (1 <=? ze_size entry) && (ze_size entry <=? 2048) then
            content ← ze_content entry;
            link_name ← ok_or (to_str content) (InvalidData "stream did not contain valid UTF-8");
            rest ← stream_tar path is_ignored es;
            Ok (AddLink name link_name :: rest)
          else stream_tar path is_ignored es
      end
  end.
(** The filter of [async_read_dir_files_archive] around them. *)
Definition stream_files (path : bytes) (file_paths : list bytes) (is_ignored : IsIgnoredFn) : ior (list ArchiveItem) :=
  stream_zip path (IsIgnoredFn_files path file_paths is_ignored) archive.
End zip.

(** ** The tree of sizes *)

(** The names of the path of an entry, and the directory it is counted in. *)
Definition entry_names (entry : ZipEntry) : list bytes :=
  omap (λ c, match c with Component.Normal n => Some n | _ => None end) (components (default [] (ze_enclosed_name entry))).
Definition entry_dir (entry : ZipEntry) : list bytes :=
  if ze_is_dir entry then entry_names entry else take (length (entry_names entry) - 1) (entry_names entry).
(** Entries with paths of names inside the archive, as the crate encloses them. *)
Definition enclosed (entry : ZipEntry) : Prop :=
  ∃ names, ze_enclosed_name entry = Some (join_slash names) ∧ Forall name_ok names ∧ Forall (λ n, utf8_valid n = true) names ∧ names ≠ [].

Lemma omap_normal (names : list bytes) :
  omap (λ c, match c with Component.Normal n => Some n | _ => None end) (Component.Normal <$> names) = names.
Proof. induction names as [| n names IH]; [done |]. cbn. by f_equal. Qed.

Lemma enclosed_names entry : enclosed entry →
  ze_enclosed_name entry = Some (join_slash (entry_names entry)) ∧ Forall name_ok (entry_names entry) ∧
  Forall (λ n, utf8_valid n = true) (entry_names entry) ∧ entry_names entry ≠ [].
Proof.
  intros (names & He & Hn & Hu & Hne). assert (entry_names entry = names) as ->; [| done].
  unfold entry_names. rewrite He. change (default [] (Some (join_slash names))) with (join_slash names).
  rewrite components_join_slash by done. apply omap_normal.
Qed.

Lemma usage_names_join names : Forall name_ok names → Forall (λ n, utf8_valid n = true) names → usage_names (join_slash names) = names.
Proof.
  intros Hn Hu. unfold usage_names, path_is_root. rewrite components_join_slash by done. case_bool_decide as Hd.
  - destruct Hd as [Hd | Hd]; destruct names as [| n [| ? ?]]; try done.
  - clear Hd. induction Hu as [| n names Hv Hu IH]; [done |]. apply Forall_cons_iff in Hn as [_ Hn]. cbn.
    rewrite IH by done. unfold component_key, component_str, to_str. by rewrite Hv.
Qed.

Lemma path_is_str_join names : Forall name_ok names → Forall (λ n, utf8_valid n = true) names → path_is_str (join_slash names).
Proof.
  intros Hn Hu. unfold path_is_str. rewrite components_join_slash by done. apply Forall_fmap.
  eapply Forall_impl; [| exact Hu]. intros n Hv. unfold component_str, to_str. cbn. by rewrite Hv.
Qed.

Lemma Forall_dir (P : bytes → Prop) entry : Forall P (entry_names entry) → Forall P (entry_dir entry).
Proof. intros H. unfold entry_dir. destruct (ze_is_dir entry); [done | by apply Forall_take]. Qed.

Lemma add_entry_names u entry : enclosed entry → add_entry u (Some entry) = update_size_iterator u (entry_dir entry) (entry_delta entry).
Proof.
  intros He. destruct (enclosed_names entry He) as (Hname & Hn & Hu & Hne). unfold add_entry. rewrite Hname, !update_size_names.
  unfold entry_dir. destruct (ze_is_dir entry); [by rewrite usage_names_join |].
  destruct (entry_names entry) as [| n names _] using rev_ind; [done |].
  rewrite length_app, Nat.add_sub, take_app_length.
  apply Forall_app in Hn as [Hn Hl]. apply Forall_app in Hu as [Hu _]. apply Forall_inv in Hl. rewrite path_parent_names by done.
  cbn [from_option]. unfold id. by rewrite usage_names_join.
Qed.

(** What a path of the tree is after the entries were added to it. *)
Definition counted (q : list bytes) (o : option UsedSpace) (entry : ZipEntry) : option UsedSpace :=
  if decide (q `prefix_of` entry_dir entry) then Some (add_delta (entry_delta entry) (space_or_zero o)) else o.

Lemma add_entries es u : usage_wf u → Forall enclosed es →
  usage_wf (foldl add_entry u (Some <$> es)) ∧
  ∀ q, space_at (foldl add_entry u (Some <$> es)) q = foldl (counted q) (space_at u q) es.
Proof.
  revert u. induction es as [| e es IH]; intros u Hu Hes; [done |]. apply Forall_cons_iff in Hes as [He Hes]. rewrite fmap_cons. cbn [foldl].
  rewrite add_entry_names by done. destruct (update_ok (entry_dir e) (entry_delta e) u Hu) as [Hwf Hsp].
  destruct (IH _ Hwf Hes) as [Hwf' Hsp']. split; [done |]. intros q. rewrite Hsp', Hsp. done.
Qed.

(** A size of an entry: its own, or compressed. *)
Definition weight (b : bool) (e : ZipEntry) : Z := if b then ze_size e else ze_compressed_size e.

(** The sizes of the entries in or below a directory, added up. *)
Definition below_total (b : bool) (q : list bytes) (es : list ZipEntry) : Z :=
  foldr (λ e s, (if decide (q `prefix_of` entry_dir e) then weight b e else 0) + s) 0 es.
(** Sizes are not negative, and all of them together are below [2 ^ 63]. *)
Definition sized (es : list ZipEntry) : Prop :=
  Forall (λ e, 0 <= ze_size e ∧ 0 <= ze_compressed_size e) es ∧ below_total true [] es < 2 ^ 63 ∧ below_total false [] es < 2 ^ 63.

Lemma below_total_cons b q e es :
  below_total b q (e :: es) = (if decide (q `prefix_of` entry_dir e) then weight b e else 0) + below_total b q es.
Proof. done. Qed.

Lemma below_total_root b e es : below_total b [] (e :: es) = weight b e + below_total b [] es.
Proof. rewrite below_total_cons, decide_True; [done | apply prefix_nil]. Qed.

Lemma weight_nonneg b e : 0 <= ze_size e ∧ 0 <= ze_compressed_size e → 0 <= weight b e.
Proof. by destruct b; intros [? ?]. Qed.

Lemma below_total_nonneg b q es : Forall (λ e, 0 <= ze_size e ∧ 0 <= ze_compressed_size e) es → 0 <= below_total b q es.
Proof.
  induction 1 as [| e es He Hes IH]; [done |]. rewrite below_total_cons. pose proof (weight_nonneg b e He). destruct (decide _); lia.
Qed.

Lemma counted_total q es : Forall (λ e, 0 <= ze_size e ∧ 0 <= ze_compressed_size e) es →
  ∀ o, (∀ b, 0 <= field b (space_or_zero o)) → (∀ b, field b (space_or_zero o) + below_total b [] es < 2 ^ 63) →
  (∀ b, field b (space_or_zero (foldl (counted q) o es)) = field b (space_or_zero o) + below_total b q es) ∧
  (is_Some (foldl (counted q) o es) ↔ is_Some o ∨ Exists (λ e, q `prefix_of` entry_dir e) es).
Proof.
  induction 1 as [| e es [Hs Hc] Hes IH]; intros o Ho Hb.
  { cbn [foldl]. split; [intros b; change (below_total b q []) with 0; lia |]. split; [by left |]. by intros [? | ?%Exists_nil]. }
  pose proof (λ b, weight_nonneg b e (conj Hs Hc)) as Hw. pose proof (λ b, below_total_nonneg b [] es Hes) as Hn.
  assert (∀ b, delta_field b (entry_delta e) = weight b e) as Hd.
  { intros b. specialize (Hb b). specialize (Ho b). specialize (Hn b). specialize (Hw b). rewrite below_total_root in Hb.
    destruct b; cbn in *; apply as_i64_id; unfold in_i64; lia. }
  assert (∀ b, field b (space_or_zero (counted q o e)) =
    field b (space_or_zero o) + (if decide (q `prefix_of` entry_dir e) then weight b e else 0)) as Hf.
  { intros b. unfold counted. destruct (decide _); [| lia]. specialize (Hb b). specialize (Ho b). specialize (Hn b). specialize (Hw b).
    rewrite below_total_root in Hb. change (space_or_zero (Some ?x)) with x. rewrite add_delta_field; rewrite ?Hd; lia. }
  destruct (IH (counted q o e)) as [Ht Hs'].
  - intros b. rewrite Hf. specialize (Ho b). specialize (Hw b). destruct (decide _); lia.
  - intros b. rewrite Hf. specialize (Hb b). specialize (Hw b). rewrite below_total_root in Hb. destruct (decide _); lia.
  - cbn [foldl]. split.
    + intros b. rewrite Ht, Hf, below_total_cons. lia.
    + rewrite Hs', Exists_cons. unfold counted. destruct (decide _); naive_solver.
Qed.

(** The tree of an archive: the directories there are and their sizes. *)
Lemma zip_sizes es created : Forall enclosed es → sized es →
  let u := sizes (VirtualZipArchive_new (Some <$> es) created) in
  usage_wf u ∧ ∀ q,
    (is_Some (space_at u q) ↔ q = [] ∨ Exists (λ e, q `prefix_of` entry_dir e) es) ∧
    ∀ b, field b (space_or_zero (space_at u q)) = below_total b q es.
Proof.
  intros Hes (Hpos & Hl & Hp). cbn [sizes VirtualZipArchive_new]. destruct (add_entries es DiskUsage_default usage_wf_default Hes) as [Hwf Hsp].
  split; [done |]. intros q. rewrite Hsp, space_at_default.
  assert (∀ b, field b (space_or_zero (if decide (q = []) then Some UsedSpace_default else None)) = 0) as H0.
  { intros b. by destruct (decide (q = [])), b. }
  destruct (counted_total q es Hpos (if decide (q = []) then Some UsedSpace_default else None)) as [Ht Hs].
  - intros b. by rewrite H0.
  - intros b. rewrite H0. destruct b; lia.
  - split; [rewrite Hs; destruct (decide (q = [])); naive_solver |]. intros b. by rewrite Ht, H0.
Qed.

(** ** Listings *)

Lemma Forall2_perm {A B} (R : A → B → Prop) l l' k : l ≡ₚ l' → Forall2 R l k → ∃ k', k ≡ₚ k' ∧ Forall2 R l' k'.
Proof.
  intros Hp. revert k. induction Hp as [| x l l' Hp IH | x y l | l1 l2 l3 H1 IH1 H2 IH2]; intros k Hk.
  - exists k. by split.
  - apply Forall2_cons_inv_l in Hk as (b & k0 & Hb & Hk0 & ->). destruct (IH k0 Hk0) as (k' & Hkk & Hk').
    exists (b :: k'). split; [by rewrite Hkk | by constructor].
  - apply Forall2_cons_inv_l in Hk as (b & k0 & Hb & Hk0 & ->). apply Forall2_cons_inv_l in Hk0 as (c & k1 & Hc & Hk1 & ->).
    exists (c :: b :: k1). split; [constructor | by repeat constructor].
  - destruct (IH1 k Hk) as (k' & Hkk' & Hk'). destruct (IH2 k' Hk') as (k'' & Hkk'' & Hk''). exists k''. split; [by rewrite Hkk' | done].
Qed.

Lemma Forall2_page {A B} (R : A → B → Prop) per_page page l k : Forall2 R l k → Forall2 R (select_page per_page page l) (select_page per_page page k).
Proof. intros H. unfold select_page, skip_take, ztake, zdrop. destruct per_page; [by apply Forall2_take, Forall2_drop | done]. Qed.

(** What a listing says of an entry here: its name, whether it is a
    directory, its size and its compressed size. *)
Definition Shown : Type := bytes * bool * Z * Z.
Definition summary (e : DirectoryEntry) : Shown := (den_name e, den_directory e, den_size e, den_size_physical e).

Lemma get_path_names u path : path_is_str path → get_path u path = get_path_components u (usage_names path).
Proof. intros Hp. unfold get_path, usage_names. destruct (path_is_root path); [done |]. by rewrite get_path_loop_names. Qed.

Lemma space_at_app u q k : usage_wf u → space_at u (q ++ [k]) = node ← get_path_components u q; du_space <$> (children node !! k).
Proof.
  revert u. induction q as [| n q IH]; intros u Hu.
  - cbn [app]. unfold space_at. rewrite get_cons by done. cbn. by destruct (children u !! k).
  - unfold space_at in *. cbn [app]. rewrite !get_cons by done. destruct (children u !! n) as [d |] eqn:Hd; [| done]. cbn.
    apply IH. destruct (usage_wf_inv _ Hu) as [_ Hc]. by apply (Hc n).
Qed.

Lemma get_path_components_wf u q node : usage_wf u → get_path_components u q = Some node → usage_wf node.
Proof.
  revert u. induction q as [| n q IH]; intros u Hu; [by intros [= <-] |]. rewrite get_cons by done.
  destruct (children u !! n) as [d |] eqn:Hd; [| done]. cbn. apply IH. destruct (usage_wf_inv _ Hu) as [_ Hc]. by apply (Hc n).
Qed.

(** The children of a node, as the paths below it that are in the tree. *)
Lemma node_children u q node : usage_wf u → get_path_components u q = Some node →
  NoDup (fst <$> du_entries node) ∧
  (∀ k, k ∈ fst <$> du_entries node ↔ is_Some (space_at u (q ++ [k]))) ∧
  Forall (λ kd : bytes * DiskUsage, space_at u (q ++ [fst kd]) = Some (du_space (snd kd))) (du_entries node).
Proof.
  intros Hu Hq. pose proof (get_path_components_wf _ _ _ Hu Hq) as Hw. destruct (usage_wf_inv _ Hw) as [Hs _].
  pose proof (sorted_nodup _ Hs) as Hnd. split; [done |].
  assert (∀ k d, children node !! k = Some d ↔ (k, d) ∈ du_entries node) as Hc.
  { intros k d. unfold children. symmetry. by apply elem_of_list_to_map. }
  split.
  - intros k. rewrite space_at_app by done. rewrite Hq. cbn. split.
    + intros ([k' d] & -> & Hin)%list_elem_of_fmap. apply Hc in Hin. cbn. by rewrite Hin.
    + intros [s Hs']. destruct (children node !! k) as [d |] eqn:Hd; [| done]. apply Hc in Hd. by apply (list_elem_of_fmap_2 fst) in Hd.
  - apply list.Forall_forall. intros [k d] Hin. rewrite space_at_app by done. rewrite Hq. cbn. apply Hc in Hin. by rewrite Hin.
Qed.

Section listing.
Context (index_for_path index_for_name : ZipArchive → bytes → option nat) (nt_time : Z → Z).
Context (infer_get : bytes → option string) (guess_mime : bytes → option string).
Context (es : list ZipEntry) (created : Z) (Hes : Forall enclosed es) (Hsized : sized es).
(** What the lookups are documented to do: an index they give is that of an
    entry of the name. *)
Context (Hindex : ∀ q i, Forall name_ok q →
  better_index_for_path index_for_path index_for_name (Some <$> es) (join_slash q) = Some i → ∃ e, es !! i = Some e ∧ entry_names e = q).
(** No file is also a directory of another entry. *)
Context (Hclash : ∀ e e', e ∈ es → e' ∈ es → ze_is_dir e = false → ¬ entry_names e `prefix_of` entry_dir e').
Context (dir : list bytes) (Hdir : Forall name_ok dir) (Hutf8 : Forall (λ n, utf8_valid n = true) dir).
Context (is_ignored : IsIgnoredFn) (Hkeeps : ∀ file_type path q, is_ignored file_type path = Some q → q = path).

Abbreviation self := (VirtualZipArchive_new (Some <$> es) created).
Definition kept (file_type : FileType.FileType) (name : bytes) : Prop := is_Some (is_ignored file_type (join_slash (dir ++ [name]))).
(** A directory as it is shown. *)
Definition shown_dir (k : bytes) : Shown := (k, true, below_total true (dir ++ [k]) es, below_total false (dir ++ [k]) es).

Lemma by_index_ok i e : es !! i = Some e → by_index (Some <$> es) i = Ok e.
Proof. intros He. unfold by_index. by rewrite list_lookup_fmap, He. Qed.

Lemma entry_at i e : es !! i = Some e → enclosed e.
Proof. intros He. rewrite list.Forall_forall in Hes. apply Hes. by eapply list_elem_of_lookup_2. Qed.

Lemma dir_size q : Forall name_ok q → Forall (λ n, utf8_valid n = true) q →
  us_logical (default UsedSpace_default (get_size (sizes self) (join_slash q))) = below_total true q es ∧
  us_physical (default UsedSpace_default (get_size (sizes self) (join_slash q))) = below_total false q es.
Proof.
  intros Hq Hu. rewrite get_size_names by by apply path_is_str_join. rewrite usage_names_join by done.
  destruct (zip_sizes es created Hes Hsized) as [_ Hz]. destruct (Hz q) as [_ Ht]. split; [apply (Ht true) | apply (Ht false)].
Qed.

(** Building the entry of an entry of the archive never fails. *)
Lemma entry_shown i e names name cache : es !! i = Some e → entry_names e = names ++ [name] →
  ∃ d cache', zip_entry_to_directory_entry nt_time infer_get guess_mime created (join_slash (entry_names e)) i (sizes self) None e cache =
      (Ok d, cache') ∧
    summary d = (name, ze_is_dir e,
      (if ze_is_dir e then below_total true (entry_names e) es else ze_size e),
      (if ze_is_dir e then below_total false (entry_names e) es else ze_compressed_size e)).
Proof.
  intros He Hn. destruct (enclosed_names e (entry_at i e He)) as (_ & Hok & Hu & _).
  assert (display_name (join_slash (entry_names e)) = name) as Hname.
  { unfold display_name, path_file_name. rewrite components_join_slash by done. rewrite Hn, fmap_app.
    change (Component.Normal <$> [name]) with [Component.Normal name]. rewrite last_snoc. cbn [from_option]. unfold id, to_string_lossy.
    apply from_utf8_lossy_valid. rewrite Hn in Hu. apply Forall_app in Hu as [_ Hu]. by apply Forall_inv in Hu. }
  unfold zip_entry_to_directory_entry. destruct (dir_size (entry_names e) Hok Hu) as [Hl Hp].
  destruct (ze_is_dir e) eqn:Hd.
  - eexists _, _. split; [reflexivity |]. unfold summary. cbn [den_name den_directory den_size den_size_physical]. by rewrite Hname, Hl, Hp.
  - unfold mbind, Zip_bind, stt_bind, get_state. destruct (ze_is_symlink e); [| destruct (cache !! i); [| destruct (ze_size e =? 0)]].
    all: eexists _, _; split; [reflexivity |]; unfold summary; cbn [den_name den_directory den_size den_size_physical]; by rewrite Hname.
Qed.

(** What a row of the listing is shown as. *)
Definition shows (row : option nat * SortableZipEntry) (s : Shown) : Prop :=
  match row with
  | (Some i, _) => ∃ e name names, es !! i = Some e ∧ entry_names e = names ++ [name] ∧
      s = (name, ze_is_dir e, (if ze_is_dir e then below_total true (entry_names e) es else ze_size e),
                              (if ze_is_dir e then below_total false (entry_names e) es else ze_compressed_size e))
  | (None, sortable) => ∃ k, sz_name sortable = join_slash (dir ++ [k]) ∧ name_ok k ∧ utf8_valid k = true ∧ s = shown_dir k
  end.

Lemma make_entries_ok rows ss : Forall2 shows rows ss → ∀ cache, ∃ l cache',
  make_entries nt_time infer_get guess_mime self rows cache = (Ok l, cache') ∧ summary <$> l = ss.
Proof.
  induction 1 as [| [[i |] sortable] s rows ss Hs Hrows IH]; intros cache; cbn [make_entries].
  - by exists [], cache.
  - destruct Hs as (e & name & names & He & Hn & ->). cbn [vz_archive VirtualZipArchive_new archive_created].
    rewrite (by_index_ok i e He). unfold mbind, Zip_bind, stt_bind, lift.
    destruct (enclosed_names e (entry_at i e He)) as (-> & _).
    destruct (entry_shown i e names name cache He Hn) as (d & cache1 & Hd & Hsum). rewrite Hd.
    destruct (IH cache1) as (l & cache2 & Hl & Hss). rewrite Hl. exists (d :: l), cache2. split; [done |].
    rewrite fmap_cons, Hsum, Hss. done.
  - destruct Hs as (k & Hname & Hk & Hu & ->). unfold mbind, Zip_bind, stt_bind. destruct (IH cache) as (l & cache1 & Hl & Hss). rewrite Hl.
    eexists (_ :: l), cache1. split; [reflexivity |]. rewrite fmap_cons, Hss. f_equal.
    assert (Forall name_ok (dir ++ [k])) as Hq by (apply Forall_app; split; [done | by constructor]).
    assert (Forall (λ n, utf8_valid n = true) (dir ++ [k])) as Hqu by (apply Forall_app; split; [done | by constructor]).
    destruct (dir_size (dir ++ [k]) Hq Hqu) as [Hlg Hph].
    unfold summary, virtual_directory_entry, shown_dir. cbn [den_name den_directory den_size den_size_physical]. rewrite Hname, Hlg, Hph.
    repeat f_equal. rewrite <- path_join_names by done. by apply display_name_join.
Qed.

Lemma in_tree k : is_Some (space_at (sizes self) (dir ++ [k])) →
  name_ok k ∧ utf8_valid k = true ∧ Exists (λ e, dir ++ [k] `prefix_of` entry_dir e) es.
Proof.
  destruct (zip_sizes es created Hes Hsized) as [_ Hz]. destruct (Hz (dir ++ [k])) as [Hs _]. rewrite Hs.
  intros [? | Hex]; [by destruct dir |]. pose proof Hex as (e & Hin & rest & Hp)%list.Exists_exists. rewrite list.Forall_forall in Hes.
  destruct (enclosed_names e (Hes e Hin)) as (_ & Hn & Hu & _). apply Forall_dir in Hn, Hu. rewrite Hp in Hn, Hu.
  apply Forall_app in Hn as [[_ Hn]%Forall_app _]. apply Forall_app in Hu as [[_ Hu]%Forall_app _].
  split; [by apply Forall_inv in Hn |]. split; [by apply Forall_inv in Hu | done].
Qed.

Definition keeps_dir (k : bytes) : bool := bool_decide (kept FileType.Dir k).
Lemma list_directories_ok ch :
  Forall (λ kd : bytes * DiskUsage, space_at (sizes self) (dir ++ [fst kd]) = Some (du_space (snd kd))) ch →
  ∃ rows, list_directories index_for_path index_for_name nt_time self (join_slash dir) is_ignored ch = Ok rows ∧
    Forall2 shows rows (shown_dir <$> List.filter keeps_dir (fst <$> ch)).
Proof.
  induction 1 as [| [k d] ch Hk Hch (rows & Hrows & Hshow)]; cbn [list_directories]; [by exists [] |]. cbn [fst snd] in Hk.
  destruct (in_tree k) as (Hkn & Hku & Hex); [by eexists |]. rewrite path_join_names by done.
  assert (∃ times zip_index, better_index_for_path index_for_path index_for_name (vz_archive self) (join_slash (dir ++ [k])) = zip_index ∧
    match zip_index with
    | Some idx => entry ← by_index (vz_archive self) idx;
        Ok (default 0 (zip_entry_get_modified_time nt_time entry), default (archive_created self) (zip_entry_get_created_time nt_time entry))
    | None => Ok (archive_created self, archive_created self)
    end = Ok times ∧ ∀ s, sz_name s = join_slash (dir ++ [k]) → shows (zip_index, s) (shown_dir k)) as (times & zip_index & -> & Ht & Hshows).
  { destruct (better_index_for_path _ _ _ _) as [i |] eqn:Hi.
    - destruct (Hindex (dir ++ [k]) i) as (e & He & Hn); [apply Forall_app; split; [done | by constructor] | done |].
      change (vz_archive self) with (Some <$> es). eexists _, (Some i). split; [done |]. split; [by rewrite (by_index_ok i e He) |].
      intros s _. exists e, k, dir. split; [done |]. split; [done |]. destruct (ze_is_dir e) eqn:Hd.
      + by rewrite Hn.
      + exfalso. apply list.Exists_exists in Hex as (e' & Hin & Hp). apply (Hclash e e'); [by eapply list_elem_of_lookup_2 | done | done |]. by rewrite Hn.
    - eexists _, None. split; [done |]. split; [done |]. intros s Hs. by exists k. }
  rewrite Ht. cbn [mbind result_bind]. rewrite Hrows. cbn [mbind result_bind fmap list_fmap fst List.filter].
  unfold keeps_dir at 1, kept. destruct (is_ignored FileType.Dir (join_slash (dir ++ [k]))) as [q |] eqn:Hq.
  - apply Hkeeps in Hq as ->. rewrite bool_decide_eq_true_2 by by eexists. eexists. split; [reflexivity |].
    rewrite fmap_cons. constructor; [by apply Hshows | done].
  - rewrite bool_decide_eq_false_2 by by intros [? ?]. eexists. by split.
Qed.

(** The files right below the directory, and how one is shown. *)
Definition keeps_file (e : ZipEntry) : bool :=
  negb (ze_is_dir e) && bool_decide (entry_dir e = dir) &&
  bool_decide (is_Some (is_ignored (zip_entry_to_file_type e) (join_slash (entry_names e)))).
Definition shown_file (e : ZipEntry) : Shown := (default [] (list.last (entry_names e)), false, ze_size e, ze_compressed_size e).

Lemma right_below names : Forall name_ok names → names ≠ [] →
  negb (path_starts_with (join_slash names) (join_slash dir)) || same_path (join_slash names) (join_slash dir) = false ∧
  length (components (join_slash names)) = S (length (components (join_slash dir))) ↔ take (length names - 1) names = dir.
Proof.
  intros Hn Hne. unfold path_starts_with, same_path. rewrite !components_join_slash, !length_fmap by done. split.
  - intros [Hs Hlen]. apply orb_false_iff in Hs as [Hs _]. apply negb_false_iff in Hs.
    destruct (strip_components _ _) as [r |] eqn:Hr; [| done]. apply strip_components_Some in Hr.
    destruct (fmap_app_inv Component.Normal _ _ _ Hr) as (d & rest & Hd & _ & ->). apply (inj (fmap Component.Normal)) in Hd as ->.
    rewrite length_app in *. replace (length d + length rest - 1)%nat with (length d) by lia. apply take_app_length.
  - intros Ht. destruct names as [| n names _] using rev_ind; [done |]. rewrite length_app, Nat.add_sub, take_app_length in Ht. subst names.
    split; [| rewrite length_app; cbn; lia]. apply orb_false_iff. split.
    + apply negb_false_iff. rewrite fmap_app.
      by rewrite (proj2 (strip_components_Some _ _ (Component.Normal <$> [n])) eq_refl).
    + apply bool_decide_eq_false. intros H. apply (f_equal length) in H. rewrite !length_fmap, length_app in H. cbn in H. lia.
Qed.

Lemma list_others_ok pre suf : es = pre ++ suf →
  ∃ rows, list_others nt_time self (join_slash dir) is_ignored (length pre) (Some <$> suf) = Ok rows ∧
    Forall2 shows rows (shown_file <$> List.filter keeps_file suf).
Proof.
  revert pre. induction suf as [| e suf IH]; intros pre Hsplit; [by exists [] |]. rewrite fmap_cons. cbn [list_others ok_or mbind result_bind].
  destruct (IH (pre ++ [e])) as (rows & Hrows & Hshow); [by rewrite <- app_assoc |]. rewrite length_app, Nat.add_comm in Hrows. cbn [length Nat.add] in Hrows.
  rewrite Hrows. cbn [mbind result_bind].
  assert (es !! length pre = Some e) as He by (rewrite Hsplit; by apply list_lookup_middle).
  destruct (enclosed_names e (entry_at _ _ He)) as (Hname & Hn & Hu & Hne). cbn [List.filter]. unfold keeps_file at 1, entry_dir.
  destruct (ze_is_dir e) eqn:Hd; [eexists; by split |]. rewrite Hname. cbn [negb andb].
  pose proof (right_below (entry_names e) Hn Hne) as Hb.
  destruct (negb (path_starts_with _ _) || same_path _ _) eqn:Hs.
  { rewrite bool_decide_eq_false_2 by (intros H; by apply Hb in H as [? _]). eexists. by split. }
  destruct (decide (length (components (join_slash (entry_names e))) = S (length (components (join_slash dir))))) as [Hl | Hl].
  - rewrite (bool_decide_eq_true_2 (length _ = _)) by done. cbn [negb]. rewrite (bool_decide_eq_true_2 (take _ _ = dir)) by by apply Hb.
    cbn [andb]. destruct (is_ignored (zip_entry_to_file_type e) (join_slash (entry_names e))) as [q |].
    + rewrite bool_decide_eq_true_2 by by eexists. eexists. split; [reflexivity |]. rewrite fmap_cons. constructor; [| done].
      destruct (entry_names e) as [| name names _] eqn:Hnames using rev_ind; [done |]. exists e, name, names. split; [done |].
      split; [by rewrite Hnames |]. unfold shown_file. rewrite Hd, Hnames, last_snoc. done.
    + rewrite bool_decide_eq_false_2 by by intros [? ?]. eexists. by split.
  - rewrite (bool_decide_eq_false_2 (length _ = _)) by done. cbn [negb].
    rewrite (bool_decide_eq_false_2 (take _ _ = dir)) by (intros H; by apply Hb in H as [_ ?]). eexists. by split.
Qed.

(** C20. Browsing a zip archive that is well formed: every entry of it can be read
    and has a path of plain UTF-8 names inside the archive, no file has the path
    of a directory that another entry lies in ([file_and_directory_clash] shows
    what happens then, [unreadable_entry_ends_walk] what an entry that cannot be
    read does), the sizes add up to less than 2^63, an index the crate gives for
    a path is that of an entry with the path; and the filter keeps or drops
    paths, it does not rename them.  Then the listing of a directory with plain
    UTF-8 names shows, once each and with the total size of all entries inside
    them, the directories that an entry lies in or is, also those without an
    entry of their own; and after them, with their own sizes, exactly the files
    and links right below it, as far as the filter keeps them.  Whatever was
    listed before, every page is that part of the same listing, and the total is
    the length of the whole. *)
Theorem zip_listing (sort : DirectorySortingMode.DirectorySortingMode) :
  ∃ ds os : list Shown,
    NoDup ((λ s : Shown, fst (fst (fst s))) <$> ds) ∧
    (∀ s, s ∈ ds ↔ ∃ k, s = shown_dir k ∧ kept FileType.Dir k ∧ Exists (λ e, dir ++ [k] `prefix_of` entry_dir e) es) ∧
    os ≡ₚ shown_file <$> List.filter keeps_file es ∧
    ∀ per_page page cache, ∃ l cache',
      zip_read_dir index_for_path index_for_name nt_time infer_get guess_mime self (join_slash dir) per_page page is_ignored sort cache =
        (Ok (mk_DirectoryListing (zlen (ds ++ os)) l), cache') ∧
      summary <$> l = select_page per_page page (ds ++ os).
Proof.
  destruct (zip_sizes es created Hes Hsized) as [Hwf Hz].
  assert (∃ rows ds, match get_path (sizes self) (join_slash dir) with
                     | Some node => list_directories index_for_path index_for_name nt_time self (join_slash dir) is_ignored (du_entries node)
                     | None => Ok [] end = Ok rows ∧ Forall2 shows rows ds ∧ NoDup ((λ s : Shown, fst (fst (fst s))) <$> ds) ∧
    (∀ s, s ∈ ds ↔ ∃ k, s = shown_dir k ∧ kept FileType.Dir k ∧ Exists (λ e, dir ++ [k] `prefix_of` entry_dir e) es))
    as (rows & ds & Hrows & Hshow & Hnd & Hds).
  { assert (∀ k, Exists (λ e, dir ++ [k] `prefix_of` entry_dir e) es ↔ is_Some (space_at (sizes self) (dir ++ [k]))) as Hex.
    { intros k. destruct (Hz (dir ++ [k])) as [-> _]. split; [by right | intros [? | ?]; [by destruct dir | done]]. }
    rewrite get_path_names by by apply path_is_str_join. rewrite usage_names_join by done.
    destruct (get_path_components (sizes self) dir) as [node |] eqn:Hnode.
    - destruct (node_children _ _ _ Hwf Hnode) as (Hnd & Hin & Hch). destruct (list_directories_ok _ Hch) as (rows & Hrows & Hshow).
      exists rows, (shown_dir <$> List.filter keeps_dir (fst <$> du_entries node)). split; [done |]. split; [done |]. split.
      + rewrite <- list_fmap_compose. unfold compose, shown_dir. cbn [fst]. rewrite list_fmap_id.
        apply NoDup_ListNoDup. apply List.NoDup_filter. by apply NoDup_ListNoDup.
      + intros s. rewrite list_elem_of_fmap. apply exist_proper. intros k. rewrite list_elem_of_In, List.filter_In, <- list_elem_of_In, Hin, Hex.
        unfold keeps_dir. rewrite bool_decide_eq_true. naive_solver.
    - exists [], []. split; [done |]. split; [constructor |]. split; [constructor |]. intros s. split; [by intros ?%not_elem_of_nil |].
      intros (k & _ & _ & Hk). apply Hex in Hk as [sp Hsp]. rewrite space_at_app in Hsp by done. by rewrite Hnode in Hsp. }
  destruct (list_others_ok [] es eq_refl) as (rows' & Hrows' & Hshow').
  set (cmp := λ a b : option nat * SortableZipEntry, cmp_sort sort (snd a) (snd b)).
  destruct (Forall2_perm shows rows (sort_by cmp rows) ds) as (ds' & Hpd & Hsd); [symmetry; apply sort_by_perm | done |].
  destruct (Forall2_perm shows rows' (sort_by cmp rows') (shown_file <$> List.filter keeps_file es)) as (os & Hpo & Hso);
    [symmetry; apply sort_by_perm | done |].
  exists ds', os. split; [by rewrite <- Hpd |]. split; [intros s; by rewrite <- Hpd |]. split; [done |]. intros per_page page cache.
  destruct (make_entries_ok _ _ (Forall2_page _ per_page page _ _ (Forall2_app Hsd Hso)) cache) as (l & cache' & Hl & Hsum).
  exists l, cache'. split; [| done]. unfold zip_read_dir. change (vz_archive self) with (Some <$> es).
  cbn [length] in Hrows'. unfold mbind, Zip_bind, stt_bind, lift. rewrite Hrows, Hrows'. fold cmp. rewrite Hl. unfold mret, Zip_ret, stt_ret.
  rewrite zlen_app. unfold zlen. by rewrite (Forall2_length Hsd), (Forall2_length Hso).
Qed.
End listing.

(** ** Walks and streams *)

(** What a walk gives for an entry. *)
Definition walked (path : bytes) (is_ignored : IsIgnoredFn) (entry : ZipEntry) : option (FileType.FileType * bytes) :=
  name ← ze_enclosed_name entry;
  if negb (path_starts_with name path) || same_path name path then None
  else name ← is_ignored (zip_entry_to_file_type entry) name; Some (zip_entry_to_file_type entry, name).

Lemma walk_next_ok path is_ignored i es :
  match walk_next path is_ignored i (Some <$> es) with
  | (Some found, j) => ∃ es1 es2, es = es1 ++ es2 ∧ j = (i + length es1)%nat ∧ es1 ≠ [] ∧ omap (walked path is_ignored) es1 = [found]
  | (None, _) => omap (walked path is_ignored) es = []
  end.
Proof.
  revert i. induction es as [| e es IH]; intros i; [done |]. rewrite fmap_cons. cbn [walk_next]. cbv zeta.
  assert (walked path is_ignored e = None →
    match walk_next path is_ignored (S i) (Some <$> es) with
    | (Some found, j) => ∃ es1 es2, e :: es = es1 ++ es2 ∧ j = (i + length es1)%nat ∧ es1 ≠ [] ∧ omap (walked path is_ignored) es1 = [found]
    | (None, _) => omap (walked path is_ignored) (e :: es) = []
    end) as Hskip.
  { intros Hn. specialize (IH (S i)). destruct (walk_next _ _ _ _) as [[found |] j].
    - destruct IH as (es1 & es2 & -> & -> & Hne & Ho). exists (e :: es1), es2. split; [done |]. split; [cbn; lia |]. split; [done |].
      cbn [omap list_omap]. by rewrite Hn.
    - cbn [omap list_omap]. by rewrite Hn. }
  unfold walked in Hskip at 1. destruct (ze_enclosed_name e) as [name |] eqn:Hname; cbn [mbind option_bind] in *; [| by apply Hskip].
  destruct (negb _ || _) eqn:Hs; [by apply Hskip |].
  destruct (is_ignored (zip_entry_to_file_type e) name) as [q |] eqn:Hq; cbn [mbind option_bind] in *; [| by apply Hskip].
  exists [e], es. split; [done |]. split; [cbn; lia |]. split; [done |]. cbn [omap list_omap]. unfold walked. rewrite Hname. cbn [mbind option_bind].
  rewrite Hs, Hq. done.
Qed.

(** A walk over an archive that can be read visits the entries below the path
    in the order of the archive, as the filter lets them through. *)
Theorem zip_walk_visits (es : list ZipEntry) (created : Z) (path : bytes) (is_ignored : IsIgnoredFn) (fuel : nat)
    (Hfuel : (length es < fuel)%nat) :
  zip_walk (VirtualZipArchive_new (Some <$> es) created) fuel path is_ignored 0 = omap (walked path is_ignored) es.
Proof.
  enough (∀ es1 es2, es = es1 ++ es2 → ∀ fuel, (length es2 < fuel)%nat →
    zip_walk (VirtualZipArchive_new (Some <$> es) created) fuel path is_ignored (length es1) = omap (walked path is_ignored) es2) as H
    by by apply (H [] es).
  clear fuel Hfuel. intros es1 es2 Hes fuel. revert es1 es2 Hes. induction fuel as [| fuel IH]; intros es1 es2 Hes Hf; [lia |]. cbn [zip_walk].
  unfold zip_next_entry. change (vz_archive _) with (Some <$> es).
  assert (drop (length es1) (Some <$> es) = Some <$> es2) as ->.
  { rewrite Hes, fmap_app. replace (length es1) with (length (Some <$> es1)) by apply length_fmap. apply drop_app_length. }
  pose proof (walk_next_ok path is_ignored (length es1) es2) as Hw. destruct (walk_next _ _ _ _) as [[found |] j]; [| done].
  destruct Hw as (l1 & l2 & -> & -> & Hne & Ho). rewrite omap_app, Ho. cbn [app]. f_equal.
  rewrite <- length_app. rewrite length_app in Hf. destruct l1; [done |]. cbn in Hf. apply IH; [by rewrite <- app_assoc | lia].
Qed.

(** ** A small archive *)

(** "a/b" and "c/" and "d", looked up by their components. *)
Definition sample_file (name : bytes) (size : Z) : ZipEntry := mk_ZipEntry (Some name) false true false size size None [] None (Ok []).
Definition sample_dir (name : bytes) : ZipEntry := mk_ZipEntry (Some name) true false false 0 0 None [] None (Ok []).
Definition sample_zip : list ZipEntry := [sample_file [97; 47; 98] 3; sample_dir [99]; sample_file [100] 2].
Definition sample_index (archive : ZipArchive) (path : bytes) : option nat :=
  fst <$> list_find (λ o : option ZipEntry, (components <$> (o ≫= ze_enclosed_name)) = Some (components path)) archive.

Lemma sample_index_ok es q i : Forall enclosed es → Forall name_ok q →
  better_index_for_path sample_index (λ _ _, None) (Some <$> es) (join_slash q) = Some i → ∃ e, es !! i = Some e ∧ entry_names e = q.
Proof.
  intros Hes Hq. unfold better_index_for_path, sample_index. destruct (list_find _ _) as [[j o] |] eqn:Hf; [| done]. intros [= <-].
  apply list_find_Some in Hf as (Hj & Hc & _). apply list_lookup_fmap_Some in Hj as (e & -> & Hj). exists e. split; [done |]. cbn in Hc.
  rewrite list.Forall_forall in Hes. destruct (enclosed_names e) as (Hn & Hok & _); [apply Hes; by eapply list_elem_of_lookup_2 |].
  rewrite Hn in Hc. cbn in Hc. rewrite !components_join_slash in Hc by done. injection Hc as Hc. by apply (inj (fmap Component.Normal)).
Qed.

Lemma sample_zip_enclosed : Forall enclosed sample_zip.
Proof.
  apply list.Forall_forall. intros e He. unfold sample_zip in He.
  apply elem_of_cons in He as [-> | [-> | ->%list_elem_of_singleton]%elem_of_cons].
  - exists [[97]; [98]]. by apply (bool_decide_unpack (_ ∧ Forall name_ok [[97]; [98]] ∧ _ ∧ _)).
  - exists [[99]]. by apply (bool_decide_unpack (_ ∧ Forall name_ok [[99]] ∧ _ ∧ _)).
  - exists [[100]]. by apply (bool_decide_unpack (_ ∧ Forall name_ok [[100]] ∧ _ ∧ _)).
Qed.

Lemma zip_listing_witness :
  ∃ ds os : list Shown,
    NoDup ((λ s : Shown, fst (fst (fst s))) <$> ds) ∧
    (∀ s, s ∈ ds ↔ ∃ k, s = shown_dir sample_zip [] k ∧ kept [] IsIgnoredFn_default FileType.Dir k ∧
       Exists (λ e, [] ++ [k] `prefix_of` entry_dir e) sample_zip) ∧
    os ≡ₚ shown_file <$> List.filter (keeps_file [] IsIgnoredFn_default) sample_zip ∧
    ∀ per_page page cache, ∃ l cache',
      zip_read_dir sample_index (λ _ _, None) (λ t, t) (λ _, None) (λ _, None) (VirtualZipArchive_new (Some <$> sample_zip) 0) (join_slash [])
        per_page page IsIgnoredFn_default DirectorySortingMode.NameAsc cache = (Ok (mk_DirectoryListing (zlen (ds ++ os)) l), cache') ∧
      summary <$> l = select_page per_page page (ds ++ os).
Proof.
  apply (zip_listing sample_index (λ _ _, None) (λ t, t) (λ _, None) (λ _, None) sample_zip 0 sample_zip_enclosed).
  - split; [| split; reflexivity]. repeat constructor; discriminate.
  - intros q i. apply sample_index_ok. exact sample_zip_enclosed.
  - intros e e' He He' Hd Hp.
    assert (Forall (λ e, Forall (λ e', ze_is_dir e = false → ¬ entry_names e `prefix_of` entry_dir e') sample_zip) sample_zip) as H.
    { apply (bool_decide_unpack (Forall (λ e, Forall (λ e', ze_is_dir e = false → ¬ entry_names e `prefix_of` entry_dir e') sample_zip) sample_zip)).
      by vm_compute. }
    rewrite list.Forall_forall in H. specialize (H e He). rewrite list.Forall_forall in H. by apply (H e' He').
  - constructor.
  - constructor.
  - by intros ft path q [= ->].
Defined.

Example sample_listing :
  summary <$> match fst (zip_read_dir sample_index (λ _ _, None) (λ t, t) (λ _, None) (λ _, None) (VirtualZipArchive_new (Some <$> sample_zip) 0)
    [] None 1 IsIgnoredFn_default DirectorySortingMode.NameAsc ∅) with Ok l => entries l | Err _ => [] end =
  [([97], true, 3, 3); ([99], true, 0, 0); ([100], false, 2, 2)].
Proof. vm_compute. reflexivity. Qed.

(** ** What departs from the rest *)

(** An entry that cannot be read makes a listing fail, but a walk just ends
    there, as if there was nothing more. *)
Theorem unreadable_entry_ends_walk :
  let archive := VirtualZipArchive_new [Some (sample_file [97] 1); None; Some (sample_file [98] 1)] 0 in
  zip_walk archive 4 [] IsIgnoredFn_default 0 = [(FileType.File, [97])] ∧
  is_ok (fst (zip_read_dir sample_index (λ _ _, None) (λ t, t) (λ _, None) (λ _, None) archive [] None 1 IsIgnoredFn_default
    DirectorySortingMode.NameAsc ∅)) = false.
Proof. split; vm_compute; reflexivity. Qed.

(** A file whose path is also the directory of another entry: it is listed twice,
    once in the place of the directory. *)
Example file_and_directory_clash :
  summary <$> match fst (zip_read_dir sample_index (λ _ _, None) (λ t, t) (λ _, None) (λ _, None)
    (VirtualZipArchive_new [Some (sample_file [97] 1); Some (sample_file [97; 47; 98] 3)] 0)
    [] None 1 IsIgnoredFn_default DirectorySortingMode.NameAsc ∅) with Ok l => entries l | Err _ => [] end =
  [([97], false, 1, 1); ([97], false, 1, 1)].
Proof. vm_compute. reflexivity. Qed.

(** When files of a directory are streamed, the filter is asked for names that
    were already cut below the directory and cuts them once more: a file in a
    directory [a] below the directory [a] is left out, its neighbour in [b] is
    not. *)
Theorem nested_names_are_cut_twice :
  let archive := VirtualZipArchive_new [Some (sample_file [97; 47; 97; 47; 120] 1); Some (sample_file [97; 47; 98; 47; 120] 1)] 0 in
  stream_files archive [97] [[97]; [98]] IsIgnoredFn_default = Ok [AddFile [98; 47; 120] 1].
Proof. vm_compute. reflexivity. Qed.
