(* ===== verification/Extract.v ===== *)
(** * Extract: unpacking archives into a server (application/src/server/filesystem/archive/mod.rs)

    [Archive::extract] goes through the entries of an archive and makes the
    directories, files and links they stand for, below a destination.  The
    crates [tar], [zip], [sevenz_rust2] and [unrar] are taken as the entries they
    yield, each of them readable or not, and what reading their contents
    answers; a [pxar] archive is read by the decoder of [PxarDecoder].  The
    denylist of the server is a parameter.  The workers that unpack a zip archive
    at the same time are steps of a pool. *)
From S2P Require Import Prelude IoModel Paths Utf8 DiskUsage UsageTree Effects CapFs CapWalk Quota ServerFile FsOps Entries VirtualFs Mounts ZipFs.
From S2P Require PxarFormat PxarDecoder.

(** ** Formats *)

Module CompressionType.
Inductive CompressionType : Type := None | Gz | Xz | Lzip | Bz2 | Lz4 | Zstd.
End CompressionType.
Module ArchiveType.
Inductive ArchiveType : Type := None | Tar | Zip | Rar | SevenZip | Ddup | Pxar.
End ArchiveType.

Definition CompressionType_from_mime (mime : string) : CompressionType.CompressionType :=
  if String.eqb mime "application/gzip" then CompressionType.Gz
  else if String.eqb mime "application/x-xz" then CompressionType.Xz
  else if String.eqb mime "application/x-lzip" then CompressionType.Lzip
  else if String.eqb mime "application/x-bzip2" then CompressionType.Bz2
  else if String.eqb mime "application/x-lz4" then CompressionType.Lz4
  else if String.eqb mime "application/zstd" then CompressionType.Zstd
  else CompressionType.None.

Definition str (s : string) : bytes := map (λ c, Z.of_nat (Ascii.nat_of_ascii c)) (String.list_ascii_of_string s).
Definition tar_extensions : list bytes :=
  map str ["tar"; "tgz"; "tbz"; "tbz2"; "txz"; "tlz"; "tlz"; "tlzf"; "tlz4"; "tzst"]%string.

Section detect.
(** [infer::get], by the type it tells *)
Context (infer_get : bytes → option string).

Definition get_archive_format (path : bytes) : ArchiveType.ArchiveType :=
  let by_stem :=
    match path_file_stem path with
    | None => ArchiveType.None
    | Some stem =>
        match to_str stem with
        | Some s =>
            if ends_with s (str ".tar") then ArchiveType.Tar
            else if ends_with s (str ".pxar") then ArchiveType.Pxar else ArchiveType.None
        | None => ArchiveType.None
        end
    end in
  match path_extension path with
  | Some ext =>
      if existsb (λ e, bool_decide (e = default [] (to_str ext))) tar_extensions then ArchiveType.Tar
      else if bool_decide (ext = str "ddup") then ArchiveType.Ddup
      else if bool_decide (ext = str "pxar") then ArchiveType.Pxar
      else by_stem
  | None => by_stem
  end.
Definition detect (path header : bytes) : CompressionType.CompressionType * ArchiveType.ArchiveType :=
  let inferred := infer_get header in
  if PxarFormat.is_pxar_header header then (CompressionType.None, ArchiveType.Pxar) else
  match inferred with
  | Some mime =>
      if String.eqb mime "application/zip" then (CompressionType.None, ArchiveType.Zip)
      else if String.eqb mime "application/x-tar" then (CompressionType.None, ArchiveType.Tar)
      else if String.eqb mime "application/vnd.rar" then (CompressionType.None, ArchiveType.Rar)
      else if String.eqb mime "application/x-7z-compressed" then (CompressionType.None, ArchiveType.SevenZip)
      else (CompressionType_from_mime mime, get_archive_format path)
  | None => (CompressionType.None, get_archive_format path)
  end.

Record Archive : Type := mk_Archive {
  ar_compression : CompressionType.CompressionType;
  ar_archive : ArchiveType.ArchiveType;
  ar_file : Z;
  ar_path : bytes;
}.
(** One read of 64 bytes; what it did not fill is zero. *)
Definition open_archive (fs : CapFilesystem) (path : bytes) : Q Archive :=
  file ← on_fs (async_open fs path);
  got ← qask (OnFs (FileRead file 64));
  let header := got ++ replicate (64 - length got)%nat 0 in
  let '(compression_format, archive_format) := detect path header in
  mret (mk_Archive compression_format archive_format file path).
End detect.

(** ** Copying into a file (io/mod.rs, io/abort.rs, io/counting_reader.rs) *)

(** A reader answers what it read into a buffer of [BUFFER_SIZE]. *)
Definition Reader (R : Type) : Type := R → prog QuotaE (ior bytes * R).
(** The answers a third-party reader gives, one by one; then it is at its end. *)
Definition read_next : Reader (list (ior bytes)) := λ l,
  match l with [] => Done (Ok [], []) | got :: l => Done (got, l) end.
Definition abort_read {R} (inner : Reader R) : Reader R := λ r,
  Vis IsAborted (λ aborted : bool, if aborted then Done (Err (IoOther "Operation aborted"), r) else inner r).
Definition counting_read {R} (inner : Reader R) : Reader R := λ r,
  prog_bind _ _ (λ got : ior bytes * R,
    match got with
    | (Ok bytes_read, r) => Vis (AddProgress (zlen bytes_read)) (λ _, Done (Ok bytes_read, r))
    | (Err err, r) => Done (Err err, r)
    end) (inner r).

(** [Write::write_all], over a way to write some of it *)
Section write_all.
Context (write : bytes → SF Z).
Fixpoint sf_write_all (fuel : nat) (buf : bytes) : SF unit := λ self,
  match buf with
  | [] => Done (Ok tt, self)
  | _ =>
      match fuel with
      | O => Vis OutOfFuel (λ _, Done (Err (IoOther "out of fuel"), self))
      | S fuel =>
          prog_bind _ _ (λ r : ior Z * ServerFile,
            match r with
            | (Ok 0, self) => Done (Err WriteZero, self)
            | (Ok n, self) => sf_write_all fuel (zdrop n buf) self
            | (Err Interrupted, self) => sf_write_all fuel buf self
            | (Err err, self) => Done (Err err, self)
            end) (write buf self)
      end
  end.
End write_all.
Definition sf_safe_write_all (fuel : nat) (buf : bytes) (start_bytes : Z) : SF unit :=
  if zlen buf <? start_bytes then sf_throw (InvalidInput "start_bytes exceeds buffer length")
  else sf_write_all ServerFile_write fuel (ztake start_bytes buf).
Definition abort_write (inner : bytes → SF Z) : bytes → SF Z := λ buf self,
  Vis IsAborted (λ aborted : bool, if aborted then Done (Err (IoOther "Operation aborted"), self) else inner buf self).
Definition abort_flush (inner : SF unit) : SF unit := λ self,
  Vis IsAborted (λ aborted : bool, if aborted then Done (Err (IoOther "Operation aborted"), self) else inner self).
Definition counting_write (inner : bytes → SF Z) : bytes → SF Z := λ buf,
  bytes_written ← inner buf; _ ← sf_lift (qcall (AddProgress bytes_written)); mret bytes_written.

Section copy_shared.
Context {R : Type} (read : Reader R) (write_fuel : nat).
(** [fuel] bounds the reads, and [write_fuel] the writes of what one of them gave. *)
Fixpoint copy_shared (fuel : nat) (r : R) : SF R := λ self,
  match fuel with
  | O => Vis OutOfFuel (λ _, Done (Err (IoOther "out of fuel"), self))
  | S fuel =>
      prog_bind _ _ (λ got : ior bytes * R,
        match got with
        | (Err err, _) => Done (Err err, self)
        | (Ok buffer, r) =>
            if zlen buffer =? 0 then Done (Ok r, self)
            else (_ ← sf_safe_write_all write_fuel buffer (zlen buffer); copy_shared fuel r) self
        end) (read r)
  end.
End copy_shared.

(** ** Entries *)

Module TarType.
Inductive TarType : Type := Directory | Regular | Symlink | Other.
End TarType.

(** What the crate [tar] answers of an entry *)
Record TarEntry : Type := mk_TarEntry {
  te_path : ior bytes;
  te_type : TarType.TarType;
  te_mode : ior Z;
  te_mtime : ior Z;
  te_link_name : ior (option bytes);
  te_reads : list (ior bytes);
}.
(** What the crate [zip] answers of an entry, as [ZipFs] has it, with the reads
    of its contents *)
Record ZipItem : Type := mk_ZipItem { zi_entry : ZipEntry; zi_reads : list (ior bytes) }.
(** What the crate [unrar] answers: a header, and the pieces the contents are
    handed out in; [re_error] is its error, if processing the entry fails. *)
Record RarEntry : Type := mk_RarEntry {
  re_filename : bytes;
  re_is_directory : bool;
  re_file_time : Z;
  re_pieces : list bytes;
  re_error : option io_error;
}.
(** What the crate [sevenz_rust2] answers of an entry *)
Record SevenEntry : Type := mk_SevenEntry {
  se_name : bytes;
  se_is_directory : bool;
  se_last_modified : option Z;
  se_reads : list (ior bytes);
}.

Definition NANOS : Z := 10 ^ 9.
(** [UNIX_EPOCH.checked_add(Duration::from_secs(secs))] *)
Definition epoch_checked_add (secs : Z) : option Z := if secs <? 2 ^ 63 then Some (secs * NANOS) else None.
Definition MAX_DIRECTORY_MTIME_ENTRIES : Z := 10000000.

(** The state of a loop over entries: directories whose times are set in the
    end, and the parent that was made last *)
Record Unpacking : Type := mk_Unpacking { directory_entries : list (bytes * Z); last_parent : option bytes }.
Definition Unpacking_new : Unpacking := mk_Unpacking [] None.
Definition push_directory (path : bytes) (time : Z) (st : Unpacking) : Unpacking :=
  if zlen (directory_entries st) <? MAX_DIRECTORY_MTIME_ENTRIES
  then mk_Unpacking (directory_entries st ++ [(path, time)]) (last_parent st) else st.

(** A loop whose body may end it with an error *)
Fixpoint each {A St} (body : A → St → Q St) (l : list A) (st : St) : Q St :=
  match l with [] => mret st | x :: l => st ← body x st; each body l st end.

Section extract.
Context (fs : CapFilesystem) (user : UserConfig).
(** [Filesystem::is_ignored]: the denylist of the server *)
Context (is_ignored : bytes → bool → bool).
Context (write_fuel : nat).

(** A file that is made, used, and dropped at the end whatever happened *)
Definition with_writer {A} (destination : bytes) (permissions : option PortablePermissions) (modified : option Z) (body : SF A) : Q A :=
  writer ← ServerFile_new fs (λ path, on_fs (chown_path user fs path)) destination permissions modified;
  prog_bind _ _ (λ r : ior A * ServerFile, prog_bind _ _ (λ _, Done (fst r)) (ServerFile_drop (snd r))) (body writer).
Definition copy_into {R} (read : Reader R) (fuel : nat) (r : R) : SF R :=
  r ← copy_shared read write_fuel fuel r; _ ← ServerFile_flush; mret r.
Definition copy_reads (reads : list (ior bytes)) (read : Reader (list (ior bytes))) : SF unit :=
  _ ← copy_into read (S (length reads)) reads; mret tt.

(** The directory of a file is made unless it was made for the file before. *)
Definition make_parent (destination_path : bytes) (st : Unpacking) : Q Unpacking :=
  match path_parent destination_path with
  | Some parent =>
      if match last_parent st with Some last => same_path last parent | None => false end then mret st
      else _ ← on_fs (create_chowned_dir_all user fs parent); mret (mk_Unpacking (directory_entries st) (Some parent))
  | None => mret st
  end.
(** A link that cannot be made is passed over. *)
Definition make_link (target destination_path : bytes) (modified : option Z) : Q unit :=
  made ← attempt (on_fs (symlink fs target destination_path));
  match made, modified with
  | Some _, Some modified => on_fs (set_times fs destination_path modified None)
  | _, _ => mret tt
  end.
Fixpoint set_directory_times (directories : list (bytes * Z)) : Q unit :=
  match directories with
  | [] => mret tt
  | (path, time) :: directories => _ ← on_fs (set_times fs path time None); set_directory_times directories
  end.

(** *** tar *)

Definition is_tar_dir (t : TarType.TarType) : bool := match t with TarType.Directory => true | _ => false end.
Definition mode_file (mode : ior Z) : option PortablePermissions := from_mode_file <$> result_ok mode.
(** The time of a link that cannot be told is now. *)
Definition or_now (time : option Z) : Q Z := match time with Some t => mret t | None => qcall (OnFs Now) end.

Definition tar_entry (destination : bytes) (entry : ior TarEntry) (st : Unpacking) : Q Unpacking :=
  entry ← io_lift entry;
  path ← io_lift (te_path entry);
  if is_absolute path then mret st else
  let destination_path := path_join destination path in
  if is_ignored destination_path (is_tar_dir (te_type entry)) then mret st else
  match te_type entry with
  | TarType.Directory =>
      _ ← on_fs (create_chowned_dir_all user fs destination_path);
      _ ← match te_mode entry with
          | Ok mode => on_fs (set_permissions fs destination_path (from_mode_dir mode))
          | Err _ => mret tt
          end;
      mret match t ← result_ok (te_mtime entry); epoch_checked_add t with
           | Some time => push_directory destination_path time st
           | None => st
           end
  | TarType.Regular =>
      st ← make_parent destination_path st;
      _ ← with_writer destination_path (mode_file (te_mode entry)) (t ← result_ok (te_mtime entry); epoch_checked_add t)
            (copy_reads (te_reads entry) read_next);
      mret st
  | TarType.Symlink =>
      let link := default [] (mjoin (result_ok (te_link_name entry))) in
      made ← attempt (on_fs (symlink fs link destination_path));
      _ ← match made, te_mtime entry with
          | Some _, Ok t => time ← or_now (epoch_checked_add t); on_fs (set_times fs destination_path time None)
          | _, _ => mret tt
          end;
      mret st
  | TarType.Other => mret st
  end.
Definition extract_tar (destination : bytes) (entries : ior (list (ior TarEntry))) : Q unit :=
  entries ← io_lift entries;
  st ← each (tar_entry destination) entries Unpacking_new;
  set_directory_times (directory_entries st).

(** *** A single compressed file *)

Definition extract_single (archive : Archive) (destination : bytes) (reads : list (ior bytes)) : Q unit :=
  match path_file_stem (ar_path archive) with
  | None => bail "Invalid file name"
  | Some stem =>
      metadata ← on_fs (async_metadata fs (ar_path archive));
      with_writer (path_join destination stem) (Some (mk_PortablePermissions (portable_mode metadata)))
        ((λ secs, secs * NANOS) <$> md_modified metadata) (copy_reads reads (abort_read read_next))
  end.

(** *** zip *)

(** The seconds of a crate's time *)
Definition secs_time (secs : option Z) : option Z := (λ s, s * NANOS) <$> secs.
Definition maybe_counting {R} (counting : bool) (inner : Reader R) : Reader R := if counting then counting_read inner else inner.

Section zip.
Context (nt_time : Z → Z) (destination : bytes).
(** Where an entry goes, unless it is passed over *)
Definition zip_destination (entry : ZipEntry) : option bytes :=
  match ze_enclosed_name entry with
  | None => None
  | Some path =>
      if is_absolute path then None else
      let destination_path := path_join destination path in
      if is_ignored destination_path (ze_is_dir entry) then None else Some destination_path
  end.
(** An entry, by the worker that took it; [progress] is whether it is counted. *)
Definition zip_entry (progress : bool) (item : ior ZipItem) (st : Unpacking) : Q Unpacking :=
  item ← io_lift item;
  let entry := zi_entry item in
  match zip_destination entry with
  | None => mret st
  | Some destination_path =>
      if ze_is_dir entry then
        _ ← on_fs (create_chowned_dir_all user fs destination_path);
        _ ← on_fs (set_permissions fs destination_path (from_mode_dir (default 493 (ze_unix_mode entry))));
        mret st
      else if ze_is_file entry then
        st ← make_parent destination_path st;
        _ ← with_writer destination_path (from_mode_file <$> ze_unix_mode entry)
              (secs_time (zip_entry_get_modified_time nt_time entry))
              (copy_reads (zi_reads item) (maybe_counting progress read_next));
        mret st
      else if ze_is_symlink entry && (1 <=? ze_size entry) && (ze_size entry <=? 2048) then
        let link := default [] (c ← result_ok (ze_content entry); to_str c) in
        _ ← make_link link destination_path (secs_time (zip_entry_get_modified_time nt_time entry));
        _ ← (if progress then qcall (AddProgress (ze_size entry)) else mret tt);
        mret st
      else mret st
  end.
(** What is done when all workers ended without an error *)
Fixpoint zip_times (items : list (ior ZipItem)) : Q unit :=
  match items with
  | [] => mret tt
  | item :: items =>
      item ← io_lift item;
      let entry := zi_entry item in
      _ ← match zip_destination entry, secs_time (zip_entry_get_modified_time nt_time entry) with
          | Some destination_path, Some modified_time =>
              if ze_is_dir entry then on_fs (set_times fs destination_path modified_time None) else mret tt
          | _, _ => mret tt
          end;
      zip_times items
  end.
End zip.

(** *** rar *)

Section rar.
(** [NaiveDate::from_ymd_opt] and [NaiveTime::from_hms_opt] of [chrono], as
    seconds since 1970 *)
Context (civil_to_unix : Z → Z → Z → Z → Z → Z → option Z) (destination : bytes).

Definition dos_time_to_unix (dos_time : Z) : option Z :=
  let seconds := Z.land dos_time 31 * 2 in
  let minutes := Z.land (Z.shiftr dos_time 5) 63 in
  let hours := Z.land (Z.shiftr dos_time 11) 31 in
  let day := Z.land (Z.shiftr dos_time 16) 31 in
  let month := Z.land (Z.shiftr dos_time 21) 15 in
  let year := Z.land (Z.shiftr dos_time 25) 127 + 1980 in
  civil_to_unix year month day hours minutes seconds.

(** What [Stream] does with the pieces: after an error the rest is left out. *)
Fixpoint stream_pieces (write : bytes → SF Z) (pieces : list bytes) : SF (option io_error) := λ self,
  match pieces with
  | [] => Done (Ok None, self)
  | piece :: pieces =>
      prog_bind _ _ (λ r : ior unit * ServerFile,
        match r with
        | (Ok _, self) => stream_pieces write pieces self
        | (Err err, self) => Done (Ok (Some err), self)
        end) (sf_write_all write write_fuel piece self)
  end.
Definition skip (entry : RarEntry) : Q unit := match re_error entry with Some err => io_throw err | None => mret tt end.
Definition rar_entry (progress : bool) (entry : ior RarEntry) (st : Unpacking) : Q Unpacking :=
  entry ← io_lift entry;
  let path := re_filename entry in
  if is_absolute path then _ ← skip entry; mret st
  else if is_ignored path (re_is_directory entry) then _ ← skip entry; mret st
  else
    aborted ← qcall IsAborted;
    if (aborted : bool) then bail "operation aborted" else
    let destination_path := path_join destination path in
    let modified := secs_time (dos_time_to_unix (re_file_time entry)) in
    if re_is_directory entry then
      _ ← on_fs (create_chowned_dir_all user fs destination_path);
      _ ← skip entry;
      mret match modified with Some time => push_directory destination_path time st | None => st end
    else
      st ← make_parent destination_path st;
      let write := if progress then counting_write (abort_write ServerFile_write) else abort_write ServerFile_write in
      _ ← with_writer destination_path None modified (
            err ← stream_pieces write (re_pieces entry);
            _ ← match re_error entry with Some err => sf_throw err | None => mret tt end;
            _ ← abort_flush ServerFile_flush;
            match err with Some err => sf_throw err | None => mret tt end);
      mret st.
Definition extract_rar (progress : bool) (listing : ior unit) (entries : list (ior RarEntry)) : Q unit :=
  _ ← io_lift listing;
  st ← each (rar_entry progress) entries Unpacking_new;
  set_directory_times (directory_entries st).
End rar.

(** *** 7z *)

Definition BACKSLASH : Z := 92.
Definition seven_destination (destination : bytes) (entry : SevenEntry) : option bytes :=
  let path := se_name entry in
  if str_starts_with path [SLASH] || str_starts_with path [BACKSLASH] then None else
  let destination_path := path_join destination path in
  if is_ignored destination_path (se_is_directory entry) then None else Some destination_path.
(** The entries of a block *)
Definition seven_entry (destination : bytes) (progress : bool) (entry : ior SevenEntry) (st : Unpacking) : Q Unpacking :=
  entry ← io_lift entry;
  match seven_destination destination entry with
  | None => mret st
  | Some destination_path =>
      if se_is_directory entry then _ ← on_fs (create_chowned_dir_all user fs destination_path); mret st
      else
        st ← make_parent destination_path st;
        _ ← with_writer destination_path None (se_last_modified entry) (copy_reads (se_reads entry) (maybe_counting progress read_next));
        mret st
  end.
Definition seven_block (destination : bytes) (progress : bool) (entries : list (ior SevenEntry)) : Q unit :=
  _ ← each (seven_entry destination progress) entries Unpacking_new; mret tt.
Fixpoint seven_times (destination : bytes) (entries : list SevenEntry) : Q unit :=
  match entries with
  | [] => mret tt
  | entry :: entries =>
      _ ← match se_last_modified entry, seven_destination destination entry with
          | Some time, Some destination_path =>
              if se_is_directory entry then on_fs (set_times fs destination_path time None) else mret tt
          | _, _ => mret tt
          end;
      seven_times destination entries
  end.

(** *** pxar *)

Section pxar.
Context {R : Type} `{Read R}.
Abbreviation Decoder := (PxarDecoder.Decoder R).
(** The contents of the entry the decoder is at *)
Definition contents_read : Reader Decoder := λ d, Done (PxarDecoder.Contents_read BUFFER_SIZE d).

(** [read_fuel] bounds the reads of a file, [fuel] the entries. *)
Definition pxar_entry (read_fuel : nat) (destination_path : bytes) (entry : PxarFormat.Entry) (d : Decoder) (st : Unpacking) :
    Q (Decoder * Unpacking) :=
  let stat := PxarFormat.stat (PxarFormat.entry_metadata entry) in
  let modified_time := Z.max (PxarFormat.ts_secs (PxarFormat.st_mtime stat)) 0 * NANOS in
  match PxarFormat.entry_kind entry with
  | PxarFormat.EntryKind.Directory =>
      _ ← on_fs (create_chowned_dir_all user fs destination_path);
      _ ← on_fs (set_permissions fs destination_path (from_mode_dir (PxarFormat.st_mode stat)));
      mret (d, push_directory destination_path modified_time st)
  | PxarFormat.EntryKind.File _ _ =>
      st ← make_parent destination_path st;
      d ← with_writer destination_path (Some (from_mode_file (PxarFormat.st_mode stat))) (Some modified_time) (
            d ← (if PxarDecoder.has_contents d then copy_shared contents_read write_fuel read_fuel d else mret d);
            _ ← ServerFile_flush;
            mret d);
      mret (d, st)
  | PxarFormat.EntryKind.Symlink target =>
      _ ← make_link target destination_path (Some modified_time);
      mret (d, st)
  end.
Fixpoint pxar_loop (read_fuel fuel : nat) (destination : bytes) (d : Decoder) (st : Unpacking) : Q Unpacking :=
  match fuel with
  | O => out_of_fuel
  | S fuel =>
      match PxarDecoder.next_do d with
      | (Err err, _) => io_throw err
      | (Ok None, _) => mret st
      | (Ok (Some entry), d) =>
          let is_dir := match PxarFormat.entry_kind entry with PxarFormat.EntryKind.Directory => true | _ => false end in
          match strip_prefix (PxarFormat.entry_path entry) [SLASH] with
          | Some relative =>
              if bool_decide (relative = []) then pxar_loop read_fuel fuel destination d st else
              let destination_path := path_join destination relative in
              if is_ignored destination_path is_dir then pxar_loop read_fuel fuel destination d st else
              next ← pxar_entry read_fuel destination_path entry d st;
              pxar_loop read_fuel fuel destination (fst next) (snd next)
          | None => pxar_loop read_fuel fuel destination d st
          end
      end
  end.
Definition extract_pxar (read_fuel fuel : nat) (destination : bytes) (reader : R) : Q unit :=
  st ← pxar_loop read_fuel fuel destination (PxarDecoder.Decoder_from_std reader) Unpacking_new;
  set_directory_times (directory_entries st).
End pxar.
End extract.

(** ** Workers

    A zip archive is unpacked by a pool of threads.  Each takes the next index
    until there is none or another has failed; between any two accesses of
    the shared index, the error and the file system the others go on.  What the
    file system answers is chosen freely. *)
Module Worker.
Inductive Worker : Type :=
  | Idle (st : Unpacking)
  | Checked (st : Unpacking)
  | Busy (i : nat) (rest : Q Unpacking)
  | Finished.
End Worker.

(** [zp_done] are the entries that were unpacked without an error. *)
Record ZipPool : Type := mk_ZipPool {
  entry_index : nat;
  zp_error : option io_error;
  zp_workers : list Worker.Worker;
  zp_done : list nat;
}.
Definition set_worker (w : nat) (x : Worker.Worker) (y : ZipPool) : ZipPool :=
  mk_ZipPool (entry_index y) (zp_error y) (<[w := x]> (zp_workers y)) (zp_done y).
Definition next_index (y : ZipPool) : ZipPool := mk_ZipPool (S (entry_index y)) (zp_error y) (zp_workers y) (zp_done y).
Definition replace_error (err : io_error) (y : ZipPool) : ZipPool := mk_ZipPool (entry_index y) (Some err) (zp_workers y) (zp_done y).
Definition entry_done (i : nat) (y : ZipPool) : ZipPool := mk_ZipPool (entry_index y) (zp_error y) (zp_workers y) (zp_done y ++ [i]).
Definition ZipPool_new (threads : nat) : ZipPool := mk_ZipPool 0 None (replicate threads (Worker.Idle Unpacking_new)) [].

Section pool.
(** [entry item st] is what a worker does with an entry. *)
Context {Item : Type} (entry : Item → Unpacking → Q Unpacking) (items : list Item).

Inductive zip_step (y : ZipPool) : ZipPool → Prop :=
  | zip_stop w st : zp_workers y !! w = Some (Worker.Idle st) → is_Some (zp_error y) → zip_step y (set_worker w Worker.Finished y)
  | zip_check w st : zp_workers y !! w = Some (Worker.Idle st) → zp_error y = None →
      zip_step y (set_worker w (Worker.Checked st) y)
  | zip_take w st item : zp_workers y !! w = Some (Worker.Checked st) → items !! entry_index y = Some item →
      zip_step y (next_index (set_worker w (Worker.Busy (entry_index y) (entry item st)) y))
  | zip_end w st : zp_workers y !! w = Some (Worker.Checked st) → items !! entry_index y = None →
      zip_step y (next_index (set_worker w Worker.Finished y))
  | zip_call w i X (e : QuotaE X) k x : zp_workers y !! w = Some (Worker.Busy i (Vis e k)) →
      zip_step y (set_worker w (Worker.Busy i (k x)) y)
  | zip_next w i st : zp_workers y !! w = Some (Worker.Busy i (Effects.Done (Ok st))) →
      zip_step y (entry_done i (set_worker w (Worker.Idle st) y))
  | zip_fail w i err : zp_workers y !! w = Some (Worker.Busy i (Effects.Done (Err err))) →
      zip_step y (replace_error err (set_worker w Worker.Finished y)).
Inductive zip_reachable (threads : nat) : ZipPool → Prop :=
  | zip_start : zip_reachable threads (ZipPool_new threads)
  | zip_go y y' : zip_reachable threads y → zip_step y y' → zip_reachable threads y'.
End pool.
