(* ===== verification/ExtractSafety.v ===== *)
(** * ExtractSafety: what unpacking an archive does (application/src/server/filesystem/archive/mod.rs)

    Whatever an archive holds, the calls of unpacking it stay in the sandbox
    and make files and links only where names lead that were looked up in the
    denylist; the workers of a zip
    archive take every entry once; when a tar archive was unpacked, its files
    hold what the archive held.  Where the denylist is passed by is shown as
    well. *)
From S2P Require Import Prelude IoModel Paths Utf8 DiskUsage UsageTree Effects CapFs CapWalk Quota ServerFile FsOps Entries VirtualFs Mounts ZipFs Extract.
From S2P Require PxarFormat PxarDecoder.

(** ** Calls *)

Lemma all_calls_and {E A} (P Q : ∀ X, E X → Prop) (m : prog E A) :
  all_calls P m → all_calls Q m → all_calls (λ X e, P X e ∧ Q X e) m.
Proof. induction m as [a | X e k IH]; cbn; [done |]. intros [? ?] [? ?]. split; [done |]. intros x. by apply IH. Qed.

(** The calls of a file's bookkeeping: none of them goes to the sandbox. *)
Definition harmless (X : Type) (e : QuotaE X) : Prop := match e with OnFs _ => False | _ => True end.
Definition sf_harmless {A} (m : SF A) : Prop := ∀ self, all_calls harmless (m self).

Lemma sf_bind_harmless {A B} (m : SF A) (f : A → SF B) : sf_harmless m → (∀ a, sf_harmless (f a)) → sf_harmless (mbind (M := SF) f m).
Proof. intros Hm Hf self. apply all_calls_bind; [apply Hm |]. intros [[a | e] self']; [apply Hf | done]. Qed.

Lemma sf_lift_harmless {A} (m : Q A) : all_calls harmless m → sf_harmless (sf_lift m).
Proof. intros Hm self. by apply all_calls_bind. Qed.


Lemma allocate_accumulated_harmless : sf_harmless allocate_accumulated.
Proof.
  intros self. unfold allocate_accumulated. apply all_calls_bind; [done |]. intros [[f | e] self']; [| done].
  destruct (0 <? accumulated_bytes f); [| done]. apply sf_bind_harmless.
  - apply sf_lift_harmless. unfold allocate_in_path_iterator. apply q_bind_calls; [done |]. intros [|]; [| done].
    by apply q_bind_calls.
  - by intros [|].
Qed.

Lemma with_file_harmless {A} (k : Z → SF A) : (∀ file, sf_harmless (k file)) → sf_harmless (with_file k).
Proof. intros Hk. apply sf_bind_harmless; [done |]. intros f. by destruct (sf_file f); [apply Hk |]. Qed.

Lemma write_harmless buf : sf_harmless (ServerFile_write buf).
Proof.
  apply with_file_harmless. intros file. apply sf_bind_harmless; [by apply sf_lift_harmless |]. intros n.
  apply sf_bind_harmless; [done |]. intros _. apply sf_bind_harmless; [done |]. intros f. apply sf_bind_harmless.
  { by destruct (highest_position f <? current_position f). }
  intros _. apply sf_bind_harmless; [done |]. intros g. apply sf_bind_harmless; [| done].
  destruct (_ <=? _); [apply allocate_accumulated_harmless | done].
Qed.

Lemma flush_harmless : sf_harmless ServerFile_flush.
Proof.
  apply sf_bind_harmless; [apply allocate_accumulated_harmless |]. intros _. apply with_file_harmless. intros file.
  by apply sf_lift_harmless.
Qed.

Lemma drop_harmless self : all_calls harmless (ServerFile_drop self).
Proof.
  apply all_calls_bind; [apply allocate_accumulated_harmless |]. intros [r f]. cbn.
  by destruct (sf_modified f), (sf_file f).
Qed.

Lemma write_all_harmless write fuel buf : (∀ buf, sf_harmless (write buf)) → sf_harmless (sf_write_all write fuel buf).
Proof.
  intros Hw. revert buf. induction fuel as [| fuel IH]; intros buf self; destruct buf; try done.
  apply all_calls_bind; [apply Hw |]. intros [[n | []] f]; try done; try apply IH. destruct n; [done | apply IH..].
Qed.

Lemma copy_shared_harmless {R} (read : Reader R) wfuel fuel r :
  (∀ r, all_calls harmless (read r)) → sf_harmless (copy_shared read wfuel fuel r).
Proof.
  intros Hr. revert r. induction fuel as [| fuel IH]; intros r self; [done |]. apply all_calls_bind; [apply Hr |].
  intros [[buf | e] r']; [| done]. destruct (zlen buf =? 0); [done |]. apply sf_bind_harmless; [| intros _; apply IH].
  unfold sf_safe_write_all. destruct (zlen buf <? zlen buf); [done |]. apply write_all_harmless, write_harmless.
Qed.

Lemma read_next_harmless l : all_calls harmless (read_next l).
Proof. by destruct l. Qed.

Lemma counting_harmless {R} (inner : Reader R) counting : (∀ r, all_calls harmless (inner r)) →
  ∀ r, all_calls harmless (maybe_counting counting inner r).
Proof. intros Hi r. destruct counting; [| apply Hi]. apply all_calls_bind; [apply Hi |]. by intros [[d | e] r']. Qed.

Lemma copy_reads_harmless wfuel reads read : (∀ r, all_calls harmless (read r)) → sf_harmless (copy_reads wfuel reads read).
Proof.
  intros Hr. apply sf_bind_harmless; [| done]. apply sf_bind_harmless; [by apply copy_shared_harmless |].
  intros r. apply sf_bind_harmless; [apply flush_harmless | done].
Qed.

(** ** Staying inside, and off the denylist *)

(** A path of plain names is where it says. *)
Lemma relative_path_plain fs rest path names : components (base_path fs) = Component.RootDir :: rest →
  components path = Component.Normal <$> names → components (relative_path fs path) = components path.
Proof.
  intros Hrest Hp. destruct (relative_path_names fs path) as [-> _]; [by rewrite Hrest |].
  assert (Forall name_ok names) as Hn.
  { apply list.Forall_forall. intros n Hin. apply (components_normal_ok path). rewrite Hp. by apply list_elem_of_fmap_2. }
  assert (client_names (base_path fs) path = names) as ->; [| by rewrite Hp, components_join_slash].
  unfold client_names, client_components. rewrite Hp, Hrest.
  assert (∀ cs, strip_components (Component.Normal <$> names) (Component.RootDir :: cs) = None) as Hs by by destruct names.
  rewrite !Hs. clear. enough (∀ acc, resolve_names acc (Component.Normal <$> names) = acc ++ names) as H by apply (H []).
  induction names as [| n names IH]; intros acc; cbn; [by rewrite app_nil_r |]. by rewrite IH, <- app_assoc.
Qed.

(** What is allowed at a path: a destination leads there whose name, as it is
    spelled, is not on the denylist, as a file or link, or as a directory. *)
Definition kept_out (fs : CapFilesystem) (is_ignored : bytes → bool → bool) (X : Type) (e : FsE X) : Prop :=
  let allowed is_dir p := ∃ destination, p = relative_path fs destination ∧ is_ignored destination is_dir = false in
  match e with
  | DirCreate _ p | DirSymlink _ _ p => allowed false p
  | DirSetPermissions _ p _ | DirUtimensAt _ p _ => allowed true p ∨ allowed false p
  | DirCreateDir _ _ | DirChownAt _ _ _ _ | AmbientChown _ _ _ | AmbientSetPermissions _ _ | LoadInner _ | Now => True
  | DirMetadata _ _ | DirOpen _ _ | SpawnBlocking => True
  | _ => False
  end.
Definition permitted (fs : CapFilesystem) (is_ignored : bytes → bool → bool) (X : Type) (e : QuotaE X) : Prop :=
  stays_in fs X e ∧ match e with OnFs e => kept_out fs is_ignored _ e | _ => True end.

Section permitted.
Context (fs : CapFilesystem) (user : UserConfig) (is_ignored : bytes → bool → bool).
Context (Hbase : components (base_path fs) ≠ []).
Abbreviation fine := (all_calls (permitted fs is_ignored)).
Abbreviation kept := (kept_out fs is_ignored).

Lemma harmless_fine {A} (m : prog QuotaE A) : all_calls harmless m → fine m.
Proof. apply all_calls_impl. by intros X []. Qed.

Lemma on_fs_fine {A} (m : FS A) : @all_calls FsE _ (stays fs) m → @all_calls FsE _ kept m → fine (on_fs m).
Proof.
  intros Hs Hk. apply on_fs_calls. unfold permitted, stays_in. by apply all_calls_and.
Qed.

Lemma fine_bind {A B} (m : Q A) (f : A → Q B) : fine m → (∀ a, fine (f a)) → fine (mbind (M := Q) f m).
Proof. apply q_bind_calls. Qed.

Lemma fine_lift_bind {A B} (r : ior A) (f : A → Q B) : (∀ a, r = Ok a → fine (f a)) → fine (mbind (M := Q) f (io_lift r)).
Proof. intros Hf. rewrite io_lift_bind. destruct r; [by apply Hf | done]. Qed.

Lemma create_dir_kept path : @all_calls FsE _ kept (create_dir fs path).
Proof. unfold create_dir, on_dir. cbv zeta. calls. Qed.

Lemma chown_kept path : @all_calls FsE _ kept (chown_path user fs path).
Proof. unfold chown_path, chown_impl. calls. Qed.

Lemma create_components_kept cs : ∀ progress, @all_calls FsE _ kept (create_components fs (chown_path user fs) progress cs).
Proof.
  induction cs as [| c cs IH]; intros progress; cbn [create_components]; [done |].
  apply catch_calls; [apply create_dir_kept |]. intros [_ | []]; try done.
  apply all_calls_io_bind; [apply chown_kept | intros _; apply IH].
Qed.

Lemma create_dirs_fine path : fine (on_fs (create_chowned_dir_all user fs path)).
Proof.
  apply on_fs_fine; [by apply chowned_dir_stays |]. unfold create_chowned_dir_all. cbv zeta. case_bool_decide; [done |].
  apply catch_calls; [apply create_dir_kept |]. intros [_ | []]; try done; [apply chown_kept | apply create_components_kept].
Qed.

Lemma chown_fine path : fine (on_fs (chown_path user fs path)).
Proof. apply on_fs_fine; [by apply chown_stays | apply chown_kept]. Qed.

(** What an operation of the sandbox may be asked for a destination that is
    not on the denylist *)
Ltac sandbox := apply on_fs_fine; unfold set_permissions, into_std_permissions, set_times, symlink, create, on_dir, stays; cbv zeta; calls;
  eauto using stays_path.

Lemma set_permissions_fine path is_dir permissions : is_ignored path is_dir = false →
  fine (on_fs (set_permissions fs path permissions)).
Proof. intros Hi. sandbox. all: destruct is_dir; eauto. Qed.

Lemma set_times_fine path is_dir time : is_ignored path is_dir = false → fine (on_fs (set_times fs path time None)).
Proof. intros Hi. sandbox. all: destruct is_dir; eauto. Qed.

Lemma symlink_fine target path : is_ignored path false = false → fine (on_fs (symlink fs target path)).
Proof. intros Hi. sandbox. Qed.

Lemma create_fine path : is_ignored path false = false → fine (on_fs (create fs path)).
Proof. intros Hi. sandbox. Qed.

Lemma with_writer_fine {A} path permissions modified (body : SF A) : is_ignored path false = false → sf_harmless body →
  fine (with_writer fs user path permissions modified body).
Proof.
  intros Hi Hb. apply fine_bind.
  - unfold ServerFile_new. destruct (path_parent path); [| done]. apply fine_bind; [by apply create_fine |]. intros file.
    apply fine_bind; [destruct permissions; [by eapply set_permissions_fine | done] |]. intros _.
    apply fine_bind; [apply chown_fine | done].
  - intros writer. apply harmless_fine, all_calls_bind; [apply Hb |]. intros r.
    apply all_calls_bind; [apply drop_harmless | done].
Qed.

Lemma make_parent_fine path st : fine (make_parent fs user path st).
Proof.
  unfold make_parent. destruct (path_parent path); [| done]. case_match; [done |].
  apply fine_bind; [apply create_dirs_fine | done].
Qed.

Lemma attempt_fine {A} (m : Q A) : fine m → fine (attempt m).
Proof. intros Hm. by apply all_calls_bind. Qed.

Lemma make_link_fine target path modified : is_ignored path false = false → fine (make_link fs target path modified).
Proof.
  intros Hi. apply fine_bind; [by apply attempt_fine, symlink_fine |].
  intros made. destruct made, modified; try done. by eapply set_times_fine.
Qed.

(** A loop keeps the directories whose times are set in the end off the
    denylist. *)
Definition dirs_ok (st : Unpacking) : Prop := Forall (λ d, is_ignored (fst d) true = false) (directory_entries st).
Definition keeps {A} (get : A → Unpacking) (m : Q A) : Prop :=
  wp (λ X e (_ : unit), permitted fs is_ignored X e) (λ _ _ _ _, True) (λ _ _ _ s, s) m tt
    (λ r _, ∀ a, r = Ok a → dirs_ok (get a)).

Lemma keeps_fine {A} get (m : Q A) : keeps get m → fine m.
Proof. unfold keeps. induction m as [a | X e k IH]; cbn; [done |]. intros [He Hk]. split; [done |]. intros x. by apply IH, Hk. Qed.

Lemma landed_bind {A B} get (m : Q A) (f : A → Q B) : fine m → (∀ a, keeps get (f a)) → keeps get (mbind (M := Q) f m).
Proof.
  intros Hm Hf. apply wp_io_bind. induction m as [[a | e] | X e k IH]; cbn in *; [apply Hf | done |].
  destruct Hm as [He Hk]. split; [done |]. intros x _. by apply IH.
Qed.

Lemma landed_then {A B} get get' (m : Q A) (f : A → Q B) :
  keeps get' m → (∀ a, dirs_ok (get' a) → keeps get (f a)) → keeps get (mbind (M := Q) f m).
Proof.
  intros Hm Hf. apply wp_io_bind. eapply wp_mono; [exact Hm |]. intros [a | e] [] Ha; [apply Hf, Ha, eq_refl | done].
Qed.

Lemma landed_ret {A} (get : A → Unpacking) a : dirs_ok (get a) → keeps get (mret a).
Proof. intros Ha a' Ha'. by injection Ha' as <-. Qed.

Lemma landed_throw {A} (get : A → Unpacking) e : keeps get (io_throw e).
Proof. done. Qed.

Lemma keeps_lift_bind {A B} get (r : ior A) (f : A → Q B) : (∀ a, keeps get (f a)) → keeps get (mbind (M := Q) f (io_lift r)).
Proof. intros Hf. rewrite io_lift_bind. destruct r; [apply Hf | apply landed_throw]. Qed.

Lemma each_keeps {A} (body : A → Unpacking → Q Unpacking) l : (∀ x st, dirs_ok st → keeps id (body x st)) →
  ∀ st, dirs_ok st → keeps id (each body l st).
Proof.
  intros Hb. induction l as [| x l IH]; intros st Hst; cbn [each]; [by apply landed_ret |].
  eapply landed_then; [by apply Hb | exact IH].
Qed.

Lemma make_parent_keeps path st : dirs_ok st → keeps id (make_parent fs user path st).
Proof.
  intros Hst. unfold make_parent. destruct (path_parent path); [| by apply landed_ret]. case_match; [by apply landed_ret |].
  apply landed_bind; [apply create_dirs_fine |]. intros _. by apply landed_ret.
Qed.

Lemma push_directory_ok path time st : is_ignored path true = false → dirs_ok st → dirs_ok (push_directory path time st).
Proof.
  intros Hp Hst. unfold push_directory, dirs_ok. case_match; [| done]. cbn. apply Forall_app. split; [done |].
  by apply list.Forall_singleton.
Qed.

Lemma directory_times_fine l : Forall (λ d, is_ignored (fst d) true = false) l → fine (set_directory_times fs l).
Proof.
  induction 1 as [| [path time] l Hp _ IH]; [done |]. cbn [set_directory_times].
  apply fine_bind; [by eapply set_times_fine | done].
Qed.

Lemma Unpacking_new_ok : dirs_ok Unpacking_new.
Proof. by apply Forall_nil. Qed.

Lemma fine_keeps {A} (m : Q A) : fine m → keeps (λ _, Unpacking_new) m.
Proof.
  unfold keeps. induction m as [a | X e k IH]; cbn; [intros _ ? _; apply Unpacking_new_ok |].
  intros [He Hk]. split; [done |]. intros x _. by apply IH.
Qed.

Lemma loop_then_times (m : Q Unpacking) : keeps id m → fine (st ← m; set_directory_times fs (directory_entries st)).
Proof.
  intros Hm. apply (keeps_fine (λ _, Unpacking_new)). eapply landed_then; [exact Hm |]. intros st Hst.
  by apply fine_keeps, directory_times_fine.
Qed.

Lemma tar_entry_keeps destination wfuel entry st : dirs_ok st → keeps id (tar_entry fs user is_ignored wfuel destination entry st).
Proof.
  intros Hst. apply keeps_lift_bind. intros e. apply keeps_lift_bind. intros path. cbv zeta.
  destruct (is_absolute path); [by apply landed_ret |]. destruct (is_ignored _ _) eqn:Hi; [by apply landed_ret |].
  destruct (te_type e); cbn [is_tar_dir] in Hi.
  - apply landed_bind; [apply create_dirs_fine |]. intros _. apply landed_bind.
    + destruct (te_mode e); [by eapply set_permissions_fine | done].
    + intros _. apply landed_ret. case_match; [by apply push_directory_ok | done].
  - eapply landed_then; [by apply make_parent_keeps |]. intros st' Hst'. apply landed_bind; [| intros _; by apply landed_ret].
    apply with_writer_fine; [done |]. apply copy_reads_harmless, read_next_harmless.
  - apply landed_bind; [by apply attempt_fine, symlink_fine |]. intros made. apply landed_bind; [| intros _; by apply landed_ret].
    destruct made, (te_mtime e); try done. apply fine_bind; [by destruct (epoch_checked_add a) |].
    intros time. by eapply set_times_fine.
  - by apply landed_ret.
Qed.

Lemma zip_destination_allowed destination entry path :
  zip_destination is_ignored destination entry = Some path → is_ignored path (ze_is_dir entry) = false.
Proof. unfold zip_destination. intros Hp. repeat case_match; by simplify_eq. Qed.

Lemma zip_entry_fine nt_time destination wfuel progress item st :
  fine (zip_entry fs user is_ignored wfuel nt_time destination progress item st).
Proof.
  apply fine_lift_bind. intros [e reads] _. cbn [zi_entry zi_reads].
  destruct (zip_destination _ _ _) as [path |] eqn:Hp; [| done]. apply zip_destination_allowed in Hp.
  destruct (ze_is_dir e); [| destruct (ze_is_file e); [| case_match; [| done]]].
  - apply fine_bind; [apply create_dirs_fine |]. intros _. apply fine_bind; [by eapply set_permissions_fine | done].
  - apply fine_bind; [apply make_parent_fine |]. intros st'. apply fine_bind; [| done].
    apply with_writer_fine; [done |]. apply copy_reads_harmless, counting_harmless, read_next_harmless.
  - apply fine_bind; [by apply make_link_fine |]. intros _. apply fine_bind; [by destruct progress | done].
Qed.

Lemma zip_times_fine nt_time destination items : fine (zip_times fs is_ignored nt_time destination items).
Proof.
  induction items as [| item items IH]; cbn [zip_times]; [done |]. apply fine_lift_bind. intros [e reads] _. cbn [zi_entry].
  apply fine_bind; [| intros _; exact IH]. destruct (zip_destination _ _ _) as [path |] eqn:Hp; [| done].
  apply zip_destination_allowed in Hp. destruct (secs_time _); [| done].
  destruct (ze_is_dir e); [by eapply set_times_fine | done].
Qed.

Lemma seven_destination_allowed destination entry path :
  seven_destination is_ignored destination entry = Some path → is_ignored path (se_is_directory entry) = false.
Proof. unfold seven_destination. intros Hp. repeat case_match; by simplify_eq. Qed.

Lemma seven_block_fine destination wfuel progress entries : fine (seven_block fs user is_ignored wfuel destination progress entries).
Proof.
  apply fine_bind; [| done]. generalize Unpacking_new. induction entries as [| entry entries IH]; intros st; cbn [each]; [done |].
  apply fine_bind; [| exact IH]. apply fine_lift_bind. intros e _.
  destruct (seven_destination _ _ _) as [path |] eqn:Hp; [| done]. apply seven_destination_allowed in Hp.
  destruct (se_is_directory e).
  - apply fine_bind; [apply create_dirs_fine | done].
  - apply fine_bind; [apply make_parent_fine |]. intros st'. apply fine_bind; [| done].
    apply with_writer_fine; [done |]. apply copy_reads_harmless, counting_harmless, read_next_harmless.
Qed.

Lemma seven_times_fine destination entries : fine (seven_times fs is_ignored destination entries).
Proof.
  induction entries as [| e entries IH]; cbn [seven_times]; [done |]. apply fine_bind; [| intros _; exact IH].
  destruct (se_last_modified e); [| done]. destruct (seven_destination _ _ _) as [path |] eqn:Hp; [| done].
  apply seven_destination_allowed in Hp. destruct (se_is_directory e); [by eapply set_times_fine | done].
Qed.

Section pxar.
Context {R : Type} `{Read R}.

Lemma pxar_entry_keeps wfuel read_fuel path entry (d : PxarDecoder.Decoder R) st :
  is_ignored path match PxarFormat.entry_kind entry with PxarFormat.EntryKind.Directory => true | _ => false end = false →
  dirs_ok st → keeps snd (pxar_entry fs user wfuel read_fuel path entry d st).
Proof.
  intros Hi Hst. unfold pxar_entry. cbv zeta. destruct (PxarFormat.entry_kind entry).
  - apply landed_bind; [apply create_dirs_fine |]. intros _. apply landed_bind; [by eapply set_permissions_fine |].
    intros _. by apply landed_ret, push_directory_ok.
  - eapply landed_then; [by apply make_parent_keeps |]. intros st' Hst'. apply landed_bind; [| intros d'; by apply landed_ret].
    apply with_writer_fine; [done |]. apply sf_bind_harmless.
    + destruct (PxarDecoder.has_contents d); [| done]. by apply copy_shared_harmless.
    + intros d'. apply sf_bind_harmless; [apply flush_harmless | done].
  - apply landed_bind; [by apply make_link_fine | intros _; by apply landed_ret].
Qed.

Lemma pxar_loop_keeps wfuel read_fuel fuel destination : ∀ (d : PxarDecoder.Decoder R) st, dirs_ok st →
  keeps id (pxar_loop fs user is_ignored wfuel read_fuel fuel destination d st).
Proof.
  induction fuel as [| fuel IH]; intros d st Hst; cbn [pxar_loop]; [by split |].
  destruct (PxarDecoder.next_do d) as [[[entry |] | err] d']; [| by apply landed_ret | apply landed_throw].
  destruct (strip_prefix _ _) as [relative |]; [| by apply IH]. case_bool_decide; [by apply IH |].
  destruct (is_ignored _ _) eqn:Hi; [by apply IH |].
  eapply landed_then; [by apply pxar_entry_keeps |]. intros [d'' st'] Hst'. by apply IH.
Qed.
End pxar.
End permitted.

(** ** The workers of a zip archive *)

Lemma omap_insert {A B} (f : A → option B) (l : list A) i x y : l !! i = Some x →
  option_list (f x) ++ omap f (<[i := y]> l) ≡ₚ option_list (f y) ++ omap f l.
Proof.
  intros Hi. rewrite <- (take_drop_middle l i x Hi) at 2. rewrite insert_take_drop by (by eapply lookup_lt_Some).
  rewrite !omap_app. cbn [omap list_omap].
  assert (∀ z l, match f z with Some b => b :: omap f l | None => omap f l end = option_list (f z) ++ omap f l) as Hc
    by (intros z l'; by destruct (f z)).
  rewrite !Hc. solve_Permutation.
Qed.

Definition busy_at (x : Worker.Worker) : option nat := match x with Worker.Busy i _ => Some i | _ => None end.
Definition worker_may (P : ∀ X, QuotaE X → Prop) (x : Worker.Worker) : Prop :=
  match x with Worker.Busy _ m => all_calls P m | _ => True end.

Section workers.
Context {Item : Type} (entry : Item → Unpacking → Q Unpacking) (items : list Item).
Context (P : ∀ X, QuotaE X → Prop) (Hentry : ∀ item st, all_calls P (entry item st)).

(** The entries that were taken: done, being unpacked, or failed *)
Definition workers_ok (y : ZipPool) : Prop :=
  (∃ failed, zp_done y ++ omap busy_at (zp_workers y) ++ failed ≡ₚ seq 0 (entry_index y `min` length items) ∧
    (zp_error y = None → failed = [])) ∧
  (zp_error y = None → Worker.Finished ∈ zp_workers y → (length items <= entry_index y)%nat) ∧
  Forall (worker_may P) (zp_workers y).

Lemma set_worker_busy w x x' y : zp_workers y !! w = Some x → busy_at x = None →
  omap busy_at (zp_workers (set_worker w x' y)) ≡ₚ option_list (busy_at x') ++ omap busy_at (zp_workers y).
Proof. intros Hw Hx. pose proof (omap_insert busy_at _ _ _ x' Hw) as Hp. by rewrite Hx in Hp. Qed.

Lemma set_worker_finished w x y : x ≠ Worker.Finished →
  Worker.Finished ∈ zp_workers (set_worker w x y) → Worker.Finished ∈ zp_workers y.
Proof.
  intros Hx. cbn. rewrite !list_elem_of_lookup. intros [j Hj]. destruct (decide (j = w)) as [-> |].
  - destruct (decide (w < length (zp_workers y))%nat).
    + rewrite list_lookup_insert_eq in Hj by done. congruence.
    + rewrite list_insert_ge in Hj by lia. by exists w.
  - rewrite list_lookup_insert_ne in Hj by done. by exists j.
Qed.

Lemma seq_take i : (i < length items)%nat → seq 0 (S i `min` length items) = seq 0 (i `min` length items) ++ [i].
Proof. intros Hi. rewrite !Nat.min_l by lia. by rewrite seq_S. Qed.

Lemma zip_step_ok y y' : workers_ok y → zip_step entry items y y' → workers_ok y'.
Proof.
  intros ((failed & Hperm & Hfailed) & Hend & Hmay) Hstep. destruct Hstep as
    [w st Hw [err Herr] | w st Hw Herr | w st item Hw Hitem | w st Hw Hitem | w i X e k x Hw | w i st Hw | w i err Hw];
    unfold workers_ok; cbn [entry_index zp_error zp_workers zp_done set_worker next_index replace_error entry_done].
  - split; [exists failed; by rewrite (set_worker_busy _ _ Worker.Finished _ Hw eq_refl) |].
    rewrite Herr. split; [done |]. by apply Forall_insert.
  - split; [exists failed; by rewrite (set_worker_busy _ _ (Worker.Checked st) _ Hw eq_refl) |].
    split; [| by apply Forall_insert]. intros _ Hf. eapply (set_worker_finished w (Worker.Checked st)) in Hf; [auto | done].
  - apply lookup_lt_Some in Hitem as Hi. split.
    { exists failed. rewrite seq_take by done. rewrite <- Hperm.
      rewrite (set_worker_busy _ _ (Worker.Busy (entry_index y) (entry item st)) _ Hw eq_refl). split; [| done].
      cbn. solve_Permutation. }
    split; [| apply Forall_insert; [done | apply Hentry]]. intros He Hf.
    eapply (set_worker_finished w (Worker.Busy (entry_index y) (entry item st))) in Hf; [| done]. specialize (Hend He Hf). lia.
  - apply lookup_ge_None in Hitem. split.
    { exists failed. rewrite (set_worker_busy _ _ Worker.Finished _ Hw eq_refl).
      rewrite (Nat.min_r (entry_index y)) in Hperm by lia. by rewrite (Nat.min_r (S _)) by lia. }
    split; [intros _ _; lia |]. by apply Forall_insert.
  - split.
    { exists failed. pose proof (omap_insert busy_at _ _ _ (Worker.Busy i (k x)) Hw) as Hp. cbn in Hp.
      apply Permutation.Permutation_cons_inv in Hp. by rewrite Hp. }
    split; [intros He Hf; eapply (set_worker_finished w (Worker.Busy i (k x))) in Hf; [auto | done] |].
    apply Forall_insert; [done |]. eapply Forall_lookup_1 in Hw; [| done]. apply Hw.
  - split.
    { exists failed. pose proof (omap_insert busy_at _ _ _ (Worker.Idle st) Hw) as Hp. cbn in Hp.
      split; [| done]. rewrite <- Hperm, <- Hp. solve_Permutation. }
    split; [intros He Hf; eapply (set_worker_finished w (Worker.Idle st)) in Hf; [auto | done] |]. by apply Forall_insert.
  - split.
    { exists (i :: failed). pose proof (omap_insert busy_at _ _ _ Worker.Finished Hw) as Hp. cbn in Hp.
      split; [| done]. rewrite <- Hperm, <- Hp. solve_Permutation. }
    split; [done |]. by apply Forall_insert.
Qed.

Lemma zip_reachable_ok threads y : zip_reachable entry items threads y → workers_ok y.
Proof.
  induction 1 as [| y y' _ IH Hstep]; [| by eapply zip_step_ok]. unfold workers_ok. cbn. split; [| split].
  - exists []. split; [| done]. rewrite app_nil_r. by induction threads.
  - intros _ Hf. by apply elem_of_replicate in Hf as [? _].
  - apply Forall_replicate. done.
Qed.
End workers.

(** ** What lands in the files *)

(** The files that were made, with what was written to them and whether it was
    flushed since, and the one that was made last *)
Record Landing : Type := mk_Landing { ln_files : list (bytes * bytes * bool); ln_open : option Z }.
Definition ln_update (f : bytes * bytes * bool → bytes * bytes * bool) (s : Landing) : Landing :=
  mk_Landing (alter f (length (ln_files s) - 1)%nat (ln_files s)) (ln_open s).
Definition ln_append (d : bytes) : Landing → Landing := ln_update (λ '(p, c, _), (p, c ++ d, false)).
Definition ln_flush : Landing → Landing := ln_update (λ '(p, c, _), (p, c, true)).

(** A write takes at least a byte, and is not interrupted. *)
Definition landing_ok (X : Type) (e : QuotaE X) : X → Landing → Prop :=
  match e in QuotaE X return X → Landing → Prop with
  | FileWrite _ d => λ x _, match x with Ok n => 1 <= n <= zlen d | Err Interrupted => False | Err _ => True end
  | _ => λ _ _, True
  end.
Definition landing_upd (X : Type) (e : QuotaE X) : X → Landing → Landing :=
  match e in QuotaE X return X → Landing → Landing with
  | OnFs fe =>
      match fe in FsE X return X → Landing → Landing with
      | DirCreate _ p => λ x s, match x with Ok file => mk_Landing (ln_files s ++ [(p, [], false)]) (Some file) | Err _ => s end
      | _ => λ _ s, s
      end
  | FileWrite _ d => λ x s, match x with Ok n => ln_append (ztake n d) s | Err _ => s end
  | FileFlush _ => λ x s, match x with Ok _ => ln_flush s | Err _ => s end
  | _ => λ _ s, s
  end.
(** Only the file made last is written. *)
Definition landing_may (X : Type) (e : QuotaE X) (s : Landing) : Prop :=
  match e with OutOfFuel => False | FileWrite file _ | FileFlush file => ln_open s = Some file | _ => True end.
Notation "'nwp'" := (wp landing_may landing_ok landing_upd).

(** Calls that move nothing of this *)
Definition inert (X : Type) (e : QuotaE X) : Prop :=
  match e with
  | OnFs fe => match fe with DirCreate _ _ => False | _ => True end
  | OutOfFuel | FileWrite _ _ | FileFlush _ => False
  | _ => True
  end.
Definition inert_fs (X : Type) (e : FsE X) : Prop := match e with DirCreate _ _ => False | _ => True end.

Lemma inert_wp {A} (m : prog QuotaE A) s Φ : all_calls inert m → (∀ a, Φ a s) → nwp m s Φ.
Proof.
  intros Hm HΦ. induction m as [a | X e k IH]; cbn in *; [apply HΦ |]. destruct Hm as [He Hk]. split; [by destruct e |].
  intros x _. assert (landing_upd X e x s = s) as -> by (destruct e as [X [] | | | | | | | | | | | | | | | | | | | | | | |]; done).
  by apply IH.
Qed.

Lemma inert_bind {A B} (m : Q A) (f : A → Q B) s Φ : all_calls inert m → (∀ a, nwp (f a) s Φ) → (∀ e, Φ (Err e) s) →
  nwp (mbind (M := Q) f m) s Φ.
Proof. intros Hm Hf He. apply wp_io_bind, inert_wp; [done |]. by intros [a | e]. Qed.

Lemma on_fs_inert {A} (m : prog FsE A) : @all_calls FsE _ inert_fs m → all_calls inert (on_fs m).
Proof. intros Hm. by apply on_fs_calls. Qed.

Section landing.
Context (fs : CapFilesystem) (user : UserConfig).

Ltac sandbox_inert := apply on_fs_inert; unfold set_permissions, into_std_permissions, set_times, symlink, on_dir; cbv zeta; calls.

Lemma set_permissions_inert path permissions : all_calls inert (on_fs (set_permissions fs path permissions)).
Proof. sandbox_inert. Qed.
Lemma set_times_inert path time : all_calls inert (on_fs (set_times fs path time None)).
Proof. sandbox_inert. Qed.
Lemma symlink_inert target path : all_calls inert (on_fs (symlink fs target path)).
Proof. sandbox_inert. Qed.
Lemma chown_inert path : all_calls inert (on_fs (chown_path user fs path)).
Proof. apply on_fs_inert. unfold chown_path, chown_impl. calls. Qed.
Lemma create_dirs_inert path : all_calls inert (on_fs (create_chowned_dir_all user fs path)).
Proof.
  assert (∀ p, @all_calls FsE _ inert_fs (create_dir fs p)) as Hd by (intros p; unfold create_dir, on_dir; cbv zeta; calls).
  assert (∀ p, @all_calls FsE _ inert_fs (chown_path user fs p)) as Hc by (intros p; unfold chown_path, chown_impl; calls).
  apply on_fs_inert. unfold create_chowned_dir_all. cbv zeta. case_bool_decide; [done |].
  apply catch_calls; [apply Hd |]. intros [_ | []]; try done.
  generalize (@nil Z). induction (components _) as [| c cs IH]; intros progress; cbn [create_components]; [done |].
  apply catch_calls; [apply Hd |]. intros [_ | []]; try done. apply all_calls_io_bind; [apply Hc | intros _; apply IH].
Qed.
Lemma make_parent_inert path st : all_calls inert (make_parent fs user path st).
Proof.
  unfold make_parent. destruct (path_parent path); [| done]. case_match; [done |].
  apply q_bind_calls; [apply create_dirs_inert | done].
Qed.
Lemma directory_times_inert l : all_calls inert (set_directory_times fs l).
Proof. induction l as [| [p t] l IH]; [done |]. apply q_bind_calls; [apply set_times_inert | done]. Qed.

End landing.

(** *** Writing *)

(** A method of the file made last, which it goes on being; [E] is what the
    error may be. *)
Definition lands (file : Z) (E : io_error → Prop) {A} (m : SF A) (Φ : A → Landing → Landing → Prop) : Prop := ∀ self s,
  sf_file self = Some file → ln_open s = Some file →
  nwp (m self) s (λ r s', sf_file (snd r) = Some file ∧ ln_open s' = Some file ∧
    match fst r with Ok a => Φ a s s' | Err e => E e end).
Definition uninterrupted (e : io_error) : Prop := e ≠ Interrupted.

Section lands.
Context (file : Z) (E : io_error → Prop).

Lemma lands_bind {A B} (m : SF A) (f : A → SF B) (Φ : A → Landing → Landing → Prop) (Ψ : B → Landing → Landing → Prop) :
  lands file E m Φ → (∀ a, lands file E (f a) (λ b s s', ∀ s0, Φ a s0 s → Ψ b s0 s')) → lands file E (mbind (M := SF) f m) Ψ.
Proof.
  intros Hm Hf self s Hfile Hopen. apply wp_bind. eapply wp_mono; [by apply Hm |].
  intros [[a | e] self'] s' (Hfile' & Ho & HΦ); cbn [fst snd] in *; [| done].
  eapply wp_mono; [by apply Hf |]. intros [[b | e] self''] s'' (Hfile'' & Ho' & HΨ); cbn [fst snd] in *; auto.
Qed.

Lemma lands_mono {A} (m : SF A) (Φ Ψ : A → Landing → Landing → Prop) :
  lands file E m Φ → (∀ a s s', Φ a s s' → Ψ a s s') → lands file E m Ψ.
Proof.
  intros Hm H self s Hfile Hopen. eapply wp_mono; [by apply Hm |]. intros [[a | e] self'] s' (? & ? & ?); cbn in *; auto.
Qed.

Lemma lands_ret {A} (a : A) : lands file E (mret a) (λ a' s s', a' = a ∧ s' = s).
Proof. by intros self s Hfile Hopen. Qed.

Lemma lands_get {B} (f : ServerFile → SF B) Φ : (∀ self, lands file E (f self) Φ) → lands file E (mbind (M := SF) f sf_get) Φ.
Proof. intros Hf self s Hfile Hopen. by apply Hf. Qed.

Lemma lands_modify {B} (g : ServerFile → ServerFile) (m : unit → SF B) Φ : (∀ self, sf_file (g self) = sf_file self) →
  lands file E (m tt) Φ → lands file E (mbind (M := SF) m (sf_modify g)) Φ.
Proof. intros Hg Hm self s Hfile Hopen. apply Hm; [by rewrite Hg | done]. Qed.

Lemma lands_with_file {A} (k : Z → SF A) Φ : lands file E (k file) Φ → lands file E (with_file k) Φ.
Proof. intros Hk self s Hfile Hopen. unfold with_file. apply wp_bind. cbn. rewrite Hfile. by apply Hk. Qed.

(** Counting is not recorded, and fails with its own error. *)
Lemma lands_allocate : E (StorageFull "Failed to allocate space") → lands file E allocate_accumulated (λ _ s s', s' = s).
Proof.
  intros HE. apply lands_get. intros f. destruct (0 <? accumulated_bytes f); [| by intros self s].
  intros self s Hfile Hopen. apply wp_bind. apply wp_bind, wp_io_bind. split; [done |]. intros [] _; [| by repeat split].
  apply wp_io_bind. by split.
Qed.
End lands.

Lemma lands_write file buf : lands file uninterrupted (ServerFile_write buf) (λ n s s', 1 <= n <= zlen buf ∧ s' = ln_append (ztake n buf) s).
Proof.
  apply lands_with_file. eapply lands_bind with (Φ := λ n s s', 1 <= n <= zlen buf ∧ s' = ln_append (ztake n buf) s).
  - intros self s Hfile Hopen. apply wp_bind. split; [exact Hopen |]. intros [n | e] Hok; cbn in *; [done |].
    split; [done |]. split; [done |]. by intros ->.
  - intros n. apply lands_modify; [done |]. apply lands_get. intros f.
    eapply lands_bind with (Φ := λ _ s s', s' = s).
    { destruct (_ <? _); [| by intros self s]. do 2 (apply lands_modify; [done |]) || by intros self s. }
    intros _. apply lands_get. intros g. eapply lands_bind with (Φ := λ _ s s', s' = s).
    { destruct (_ <=? _); [by apply lands_allocate | by intros self s]. }
    intros _ self s Hfile Hopen. cbn. repeat split; try done. all: naive_solver.
Qed.

Lemma ln_append_app d d' s : ln_append d' (ln_append d s) = ln_append (d ++ d') s.
Proof.
  unfold ln_append, ln_update. cbn. rewrite length_alter, list_alter_alter_eq. f_equal. apply list_alter_ext; [| done].
  intros [[p c] b] _. cbn. by rewrite app_assoc.
Qed.

Lemma alter_last {A} (f : A → A) l x : alter f (length (l ++ [x]) - 1)%nat (l ++ [x]) = l ++ [f x].
Proof.
  rewrite length_app. cbn. replace (length l + 1 - 1)%nat with (length l) by lia. induction l as [| y l IH]; [done |].
  cbn. f_equal. exact IH.
Qed.

Lemma lands_write_all file fuel buf : buf ≠ [] → (length buf <= fuel)%nat →
  lands file (λ _, True) (sf_write_all ServerFile_write fuel buf) (λ _ s s', s' = ln_append buf s).
Proof.
  revert buf. induction fuel as [| fuel IH]; intros buf Hne Hlen self s Hfile Hopen; [destruct buf; cbn in Hlen; [done | lia] |].
  destruct buf as [| b buf]; [done |]. set (whole := b :: buf) in *. cbn [sf_write_all].
  apply wp_bind. eapply wp_mono; [by apply lands_write |]. intros [[n | e] self'] s' (Hfile' & Hopen' & Hr); cbn [fst snd] in *.
  - destruct Hr as [Hn ->]. destruct n as [| n |]; [lia | | lia]. fold whole in Hn |- *.
    destruct (decide (zdrop (Zpos n) whole = [])) as [Hd | Hd].
    + rewrite Hd. pose proof (ztake_zdrop (Zpos n) whole) as Ht. rewrite Hd, app_nil_r in Ht.
      rewrite Ht. destruct fuel; by repeat split.
    + eapply wp_mono; [apply IH; [done | | done | done] |].
      * unfold zdrop. rewrite length_skipn. unfold zlen in Hn. lia.
      * intros [[[] | e] self''] s'' (? & ? & Hs); cbn [fst snd] in *; [| done]. repeat split; try done.
        rewrite Hs, ln_append_app. by rewrite ztake_zdrop.
  - by destruct e.
Qed.

(** What the reads give, up to the first that gives nothing *)
Fixpoint data_of (reads : list (ior bytes)) : bytes :=
  match reads with Ok [] :: _ => [] | Ok d :: reads => d ++ data_of reads | _ => [] end.
Definition read_fits (fuel : nat) (got : ior bytes) : Prop := match got with Ok d => (length d <= fuel)%nat | Err _ => True end.
Definition ln_write (d : bytes) (s : Landing) : Landing := match d with [] => s | _ => ln_append d s end.

Lemma lands_copy file wfuel fuel reads : Forall (read_fits wfuel) reads → (length reads < fuel)%nat →
  lands file (λ _, True) (copy_shared read_next wfuel fuel reads) (λ _ s s', s' = ln_write (data_of reads) s).
Proof.
  revert fuel. induction reads as [| got reads IH]; intros fuel Hfits Hlen self s Hfile Hopen; (destruct fuel as [| fuel]; [lia |]).
  - by repeat split.
  - apply Forall_cons_iff in Hfits as [Hgot Hfits]. cbn [copy_shared read_next prog_bind]. destruct got as [d | e]; [| by repeat split].
    destruct d as [| b d]; [by repeat split |]. set (whole := b :: d) in *.
    destruct (Z.eqb_spec (zlen whole) 0) as [Hz | _]; [unfold zlen in Hz; cbn in Hz; lia |].
    revert self s Hfile Hopen. eapply lands_bind with (Φ := λ _ s s', s' = ln_append whole s).
    + unfold sf_safe_write_all. rewrite Z.ltb_irrefl. rewrite ztake_ge by lia. by apply lands_write_all.
    + intros _. eapply lands_mono; [apply IH; [done | cbn in Hlen; lia] |]. intros r s s' -> s0 ->.
      cbn [data_of]. fold whole. unfold ln_write. destruct (data_of reads) as [| b' d']; [by rewrite app_nil_r |].
      rewrite ln_append_app. by destruct (whole ++ b' :: d') eqn:Hw.
Qed.

Lemma lands_copy_reads file wfuel reads : Forall (read_fits wfuel) reads →
  lands file (λ _, True) (copy_reads wfuel reads read_next) (λ _ s s', s' = ln_flush (ln_write (data_of reads) s)).
Proof.
  intros Hfits. eapply lands_bind with (Φ := λ _ s s', s' = ln_flush (ln_write (data_of reads) s)).
  - eapply lands_bind; [apply lands_copy; [done | lia] |]. intros r.
    eapply lands_bind with (Φ := λ _ s s', s' = ln_flush s).
    + eapply lands_bind with (Φ := λ _ s s', s' = s); [by apply lands_allocate |]. intros _.
      apply lands_with_file. intros self s Hfile Hopen. apply wp_bind. split; [done |]. intros [[] | e] _; cbn; [| done].
      split; [done |]. split; [done |]. by intros s0 ->.
    + intros _ self s Hfile Hopen. cbn. split; [done |]. split; [done |]. by intros s0 -> s1 ->.
  - intros _ self s Hfile Hopen. cbn. split; [done |]. split; [done |]. by intros s0 ->.
Qed.

Lemma written_last files p d file :
  ln_files (ln_flush (ln_write d (mk_Landing (files ++ [(p, [], false)]) (Some file)))) = files ++ [(p, d, true)].
Proof.
  unfold ln_flush, ln_write, ln_append, ln_update. destruct d as [| b d]; cbn [ln_files]; [by rewrite alter_last |].
  rewrite length_alter. by rewrite list_alter_alter_eq, alter_last.
Qed.

Lemma drop_inert self : all_calls inert (ServerFile_drop self).
Proof.
  assert (∀ self, all_calls inert (allocate_accumulated self)) as Ha.
  { intros f. apply all_calls_bind; [done |]. intros [[g | e] f']; [| done]. destruct (0 <? accumulated_bytes g); [| done].
    apply all_calls_bind.
    - apply all_calls_bind; [| done]. apply q_bind_calls; [done |]. intros [|]; [| done]. by apply q_bind_calls.
    - by intros [[[|] | e] h]. }
  apply all_calls_bind; [apply Ha |]. intros [r f]. cbn. by destruct (sf_modified f), (sf_file f).
Qed.

(** Making a file and writing it leaves one more file, with what was written. *)
Lemma with_writer_lands fs user path permissions modified wfuel reads s : Forall (read_fits wfuel) reads →
  nwp (with_writer fs user path permissions modified (copy_reads wfuel reads read_next)) s (λ r s',
    r = Ok tt → ln_files s' = ln_files s ++ [(relative_path fs path, data_of reads, true)]).
Proof.
  intros Hfits. unfold with_writer, ServerFile_new. apply wp_io_bind. destruct (path_parent path); [| done].
  apply wp_io_bind. unfold create, on_dir. cbv zeta. cbn. split; [done |]. intros [dir |] _; [| done].
  split; [done |]. intros [file | e] _; [| done]. cbn. set (s1 := mk_Landing _ _).
  apply inert_bind; [destruct permissions; [apply set_permissions_inert | done] | | done]. intros _.
  apply inert_bind; [apply chown_inert | | done]. intros _. apply wp_bind. eapply wp_mono; [by apply (lands_copy_reads file) |].
  intros [[[] | e] f] s' (_ & _ & Hs); cbn [fst snd] in *; apply wp_bind, inert_wp; try apply drop_inert; intros _; cbn; [| done].
  intros _. rewrite Hs. apply written_last.
Qed.

Section tar.
Context (fs : CapFilesystem) (user : UserConfig) (is_ignored : bytes → bool → bool) (write_fuel : nat) (destination : bytes).

(** The files an entry stands for *)
Definition tar_file (entry : ior TarEntry) : list (bytes * bytes * bool) :=
  match e ← result_ok entry; p ← result_ok (te_path e); Some (e, p) with
  | Some (e, path) =>
      if is_absolute path || is_ignored (path_join destination path) false then [] else
      match te_type e with
      | TarType.Regular => [(relative_path fs (path_join destination path), data_of (te_reads e), true)]
      | _ => []
      end
  | None => []
  end.
Definition tar_fits (entry : ior TarEntry) : Prop :=
  match entry with Ok e => Forall (read_fits write_fuel) (te_reads e) | Err _ => True end.

Lemma tar_entry_lands entry st s : tar_fits entry →
  nwp (tar_entry fs user is_ignored write_fuel destination entry st) s (λ r s',
    is_ok r = true → ln_files s' = ln_files s ++ tar_file entry).
Proof.
  intros Hfits. unfold tar_entry, tar_file. rewrite io_lift_bind. destruct entry as [e | err]; [| done]. cbn in Hfits.
  rewrite io_lift_bind. destruct (te_path e) as [path | err] eqn:Hpath; cbn [result_ok mbind option_bind]; [| done].
  rewrite Hpath. cbn [result_ok mbind option_bind].
  destruct (is_absolute path); [cbn; by rewrite app_nil_r |]. cbv zeta. cbn [orb].
  destruct (te_type e) eqn:Htype; cbn [is_tar_dir].
  - assert (∀ b : bool, (if b then [] else []) = @nil (bytes * bytes * bool)) as -> by by intros [].
    destruct (is_ignored _ true); [cbn; by rewrite app_nil_r |].
    apply inert_bind; [apply create_dirs_inert | | done]. intros _.
    apply inert_bind; [destruct (te_mode e); [apply set_permissions_inert | done] | | done]. intros _.
    cbn. by rewrite app_nil_r.
  - destruct (is_ignored _ false); [cbn; by rewrite app_nil_r |].
    apply inert_bind; [apply make_parent_inert | | done]. intros st'. apply wp_io_bind.
    eapply wp_mono; [by apply with_writer_lands |]. intros [[] | err] s' Hs; [| done]. intros _. by apply Hs.
  - assert (∀ b : bool, (if b then [] else []) = @nil (bytes * bytes * bool)) as -> by by intros [].
    destruct (is_ignored _ false); [cbn; by rewrite app_nil_r |].
    apply inert_bind; [apply all_calls_bind; [apply symlink_inert | done] | | done]. intros made.
    apply inert_bind; [| intros _; cbn; by rewrite app_nil_r | done].
    destruct made, (te_mtime e); try done. apply q_bind_calls; [by destruct (epoch_checked_add a) | intros time; apply set_times_inert].
  - assert (∀ b : bool, (if b then [] else []) = @nil (bytes * bytes * bool)) as -> by by intros [].
    destruct (is_ignored _ false); cbn; by rewrite app_nil_r.
Qed.

Lemma tar_entries_land entries : Forall tar_fits entries → ∀ st s,
  nwp (each (tar_entry fs user is_ignored write_fuel destination) entries st) s (λ r s',
    is_ok r = true → ln_files s' = ln_files s ++ flat_map tar_file entries).
Proof.
  induction 1 as [| entry entries Hfits _ IH]; intros st s; cbn [each flat_map]; [by cbn; rewrite app_nil_r |].
  apply wp_io_bind. eapply wp_mono; [by apply tar_entry_lands |]. intros [st' | err] s' Hs; [| done].
  eapply wp_mono; [apply IH |]. intros r s'' Hs' Hr. by rewrite (Hs' Hr), (Hs eq_refl), app_assoc.
Qed.
End tar.

(** ** Where the denylist is passed by *)

(** An operating system that makes what it is asked for, and lists it *)
Definition willing_fs (X : Type) (e : FsE X) (w : list bytes) : X * list bytes :=
  match e in FsE X return X * list bytes with
  | LoadInner _ => (Some 0, w)
  | StoreInner _ _ => (tt, w)
  | SpawnBlocking => (None, w)
  | Now => (0, w)
  | DirCreateDir _ p => (Ok tt, w ++ [p])
  | DirCreate _ p => (Ok 1, w ++ [p])
  | DirSymlink _ _ p => (Ok tt, w ++ [p])
  | DirSetPermissions _ _ _ => (Ok tt, w)
  | DirUtimensAt _ _ _ => (Ok tt, w)
  | DirMetadata _ _ => (Ok (mk_Metadata (mk_RawFileType true false false) 1 420 8 1 1 None None), w)
  | ReadDirNext _ => (None, w)
  | _ => (Err UnexpectedEof, w)
  end.
Definition willing (X : Type) (e : QuotaE X) (w : list bytes) : X * list bytes :=
  match e in QuotaE X return X * list bytes with
  | OnFs e => willing_fs _ e w
  | UpdateAtomics _ _ => (true, w)
  | FileWrite _ d => (Ok (zlen d), w)
  | FileFlush _ => (Ok tt, w)
  | FileSetModified _ _ => (Ok tt, w)
  | IsAborted => (false, w)
  | PollUsageLock => (false, w)
  | UpdateSize _ _ | UpdateSizeIterator _ _ | Quota.AddDirectory _ _ | AddProgress _ | MimeInsert _ _ _ _ | OutOfFuel => (tt, w)
  | RemoveUsage _ | GetUsage _ | MimeGet _ _ _ => (None, w)
  | CopyFileRange _ _ _ => (Ok 0, w)
  | FileSeek _ _ => (Ok 0, w)
  | FileStartSeek _ _ => (Ok tt, w)
  | FilePollWrite _ _ | FilePollComplete _ => (None, w)
  | FilePollFlush _ | FilePollShutdown _ => (None, w)
  | FilePollRead _ _ => (None, w)
  end.
Definition rootless : UserConfig := mk_UserConfig true 0 0.
(** The denylist of a line [/a/k] *)
Definition deny_a_k (path : bytes) (_ : bool) : bool := bool_decide (path = str "a/k").

(** A rar archive is looked up in the denylist under the names it has inside:
    unpacked into [a], its entry [k] becomes the denied file [a/k]. *)
Theorem rar_passes_by_denylist :
  run willing (extract_rar sample_fs rootless deny_a_k 8 (λ _ _ _ _ _ _, None) (str "a") false (Ok tt)
    [Ok (mk_RarEntry (str "k") false 0 [str "x"] None)]) [] = (Ok tt, [str "a"; str "a/k"]) ∧
  run willing (extract_tar sample_fs rootless deny_a_k 8 (str "a")
    (Ok [Ok (mk_TarEntry (Ok (str "k")) TarType.Regular (Err UnexpectedEof) (Err UnexpectedEof) (Ok None) [Ok (str "x")])])) [] =
    (Ok tt, []).
Proof. split; vm_compute; reflexivity. Qed.

(** A single compressed file is not looked up at all. *)
Theorem single_file_passes_by_denylist :
  run willing (extract_single sample_fs rootless 8
    (mk_Archive CompressionType.Gz ArchiveType.None 1 (str "b/k.gz")) (str "a") [Ok (str "x")]) [] = (Ok tt, [str "a/k"]).
Proof. vm_compute. reflexivity. Qed.

(** The names inside an archive are looked up as they are: with [..] in it a name
    stands for a denied file and is not found. *)
Theorem dotdot_passes_by_denylist :
  run willing (extract_tar sample_fs rootless deny_a_k 8 []
    (Ok [Ok (mk_TarEntry (Ok (str "b/../a/k")) TarType.Regular (Err UnexpectedEof) (Err UnexpectedEof) (Ok None) [Ok (str "x")])])) [] =
    (Ok tt, [str "a"; str "a/k"]).
Proof. vm_compute. reflexivity. Qed.

(** Of the directories that are made for a file, none is looked up: a denied
    directory is made again, and filled. *)
Theorem denied_directory_is_filled :
  let denied path is_dir := is_dir && bool_decide (path = str "a") in
  run willing (extract_tar sample_fs rootless denied 8 []
    (Ok [Ok (mk_TarEntry (Ok (str "a")) TarType.Directory (Ok 493) (Err UnexpectedEof) (Ok None) []);
         Ok (mk_TarEntry (Ok (str "a/k")) TarType.Regular (Err UnexpectedEof) (Err UnexpectedEof) (Ok None) [Ok (str "x")])])) [] =
    (Ok tt, [str "a"; str "a/k"]).
Proof. vm_compute. reflexivity. Qed.

(** ** Properties *)

(** C10. Unpacking stays in the sandbox and asks the denylist.  Whatever the
    entries of a tar, zip, 7z or pxar archive say, broken or hostile, and
    whatever the operating system answers: every call of unpacking it stays on
    the server's own capability and on paths of plain names below it.  A file or
    a link is made only where a destination leads that was looked up in the
    denylist, as a file, and is not on it; permissions and times are set only
    where one leads that was looked up as a file or as a directory.  What is
    looked up is the name as it is spelled in the archive, below the directory
    that is unpacked to; a name of plain components is where it says, but one
    with [..] can lead to a path that is on the denylist all the same, and the
    directories on the way to a file are made without being looked up. *)
Theorem unpacking_is_confined (fs : CapFilesystem) (user : UserConfig) (is_ignored : bytes → bool → bool) (write_fuel : nat)
    (destination : bytes) (Hbase : components (base_path fs) ≠ []) :
  (∀ entries, all_calls (permitted fs is_ignored) (extract_tar fs user is_ignored write_fuel destination entries)) ∧
  (∀ nt_time progress item st,
    all_calls (permitted fs is_ignored) (zip_entry fs user is_ignored write_fuel nt_time destination progress item st)) ∧
  (∀ nt_time items, all_calls (permitted fs is_ignored) (zip_times fs is_ignored nt_time destination items)) ∧
  (∀ progress entries, all_calls (permitted fs is_ignored) (seven_block fs user is_ignored write_fuel destination progress entries)) ∧
  (∀ entries, all_calls (permitted fs is_ignored) (seven_times fs is_ignored destination entries)) ∧
  (∀ (R : Type) (H : Read R) read_fuel fuel (reader : R),
    all_calls (permitted fs is_ignored) (extract_pxar fs user is_ignored write_fuel read_fuel fuel destination reader)) ∧
  (∀ rest path names, components (base_path fs) = Component.RootDir :: rest → components path = Component.Normal <$> names →
    components (relative_path fs path) = components path).
Proof.
  split; [| split; [| split; [| split; [| split; [| split]]]]].
  - intros entries. apply fine_lift_bind. intros l _. apply loop_then_times; [done |].
    apply each_keeps; [intros x st; by apply tar_entry_keeps | apply Unpacking_new_ok].
  - intros nt_time progress item st. by apply zip_entry_fine.
  - intros nt_time items. by apply zip_times_fine.
  - intros progress entries. by apply seven_block_fine.
  - intros entries. by apply seven_times_fine.
  - intros R H read_fuel fuel reader. apply loop_then_times; [done |]. apply pxar_loop_keeps; [done | apply Unpacking_new_ok].
  - intros rest path names. apply relative_path_plain.
Qed.

Lemma unpacking_is_confined_witness :
  all_calls (permitted sample_fs deny_a_k) (extract_tar sample_fs rootless deny_a_k 8 (str "a")
    (Ok [Ok (mk_TarEntry (Ok (str "../../etc/passwd")) TarType.Regular (Ok 511) (Ok 0) (Ok None) [Ok (str "x")])])).
Proof. apply (unpacking_is_confined sample_fs rootless deny_a_k 8 (str "a")). vm_compute. discriminate. Defined.

(** C19. The workers of a zip archive share its entries.  In every interleaving of
    any number of workers, between any two accesses of the shared index, the
    shared error or the file system: no entry is unpacked twice; what a worker
    asks of the sandbox is permitted; and when all workers have ended and none
    has failed, every entry of the archive was unpacked to its end. *)
Theorem zip_workers_unpack_once (fs : CapFilesystem) (user : UserConfig) (is_ignored : bytes → bool → bool) (write_fuel : nat)
    (nt_time : Z → Z) (destination : bytes) (progress : bool) (items : list (ior ZipItem)) (threads : nat) (y : ZipPool)
    (Hbase : components (base_path fs) ≠ []) (Hthreads : (0 < threads)%nat)
    (Hy : zip_reachable (zip_entry fs user is_ignored write_fuel nt_time destination progress) items threads y) :
  base.NoDup (zp_done y ++ omap busy_at (zp_workers y)) ∧
  (∀ w i m, zp_workers y !! w = Some (Worker.Busy i m) → all_calls (permitted fs is_ignored) m) ∧
  (Forall (eq Worker.Finished) (zp_workers y) → zp_error y = None → zp_done y ≡ₚ seq 0 (length items)).
Proof.
  assert (length (zp_workers y) = threads) as Hlen.
  { clear -Hy. induction Hy as [| y y' _ IH Hstep]; [apply length_replicate |].
    destruct Hstep; cbn; by rewrite length_insert. }
  assert (workers_ok items (permitted fs is_ignored) y) as ((failed & Hperm & Hfailed) & Hend & Hmay).
  { eapply zip_reachable_ok; [| exact Hy]. intros item st. by apply zip_entry_fine. }
  split; [| split].
  - assert (base.NoDup ((zp_done y ++ omap busy_at (zp_workers y)) ++ failed)) as Hnd.
    { rewrite <- app_assoc, Hperm. apply list.NoDup_seq. }
    by apply list.NoDup_app in Hnd as [? _].
  - intros w i m Hw. eapply Forall_lookup_1 in Hw; [| exact Hmay]. exact Hw.
  - intros Hall Hnone. rewrite (Hfailed Hnone), app_nil_r in Hperm.
    assert (omap busy_at (zp_workers y) = []) as Hbusy.
    { clear -Hall. induction Hall as [| x l <- _ IH]; [done | exact IH]. }
    rewrite Hbusy, app_nil_r in Hperm. rewrite Nat.min_r in Hperm; [done |]. apply Hend; [done |].
    destruct (zp_workers y) as [| x l]; [cbn in Hlen; lia |]. apply Forall_cons_iff in Hall as [<- _]. by left.
Qed.

Lemma zip_workers_unpack_once_witness :
  base.NoDup (zp_done (ZipPool_new 2) ++ omap busy_at (zp_workers (ZipPool_new 2))) ∧
  (Forall (eq Worker.Finished) (zp_workers (ZipPool_new 2)) → zp_error (ZipPool_new 2) = None → zp_done (ZipPool_new 2) ≡ₚ seq 0 1).
Proof.
  destruct (zip_workers_unpack_once sample_fs rootless deny_a_k 8 id (str "a") false [Err UnexpectedEof] 2 (ZipPool_new 2)) as (H1 & _ & H3).
  - vm_compute. discriminate.
  - lia.
  - apply zip_start.
  - split; [exact H1 | exact H3].
Defined.

(** C11. An unpacked tar archive is complete.  The entries of an archive are
    unpacked, with reads of any length and writes that take any part of what
    they are given; if no error is returned, the files that were made are
    exactly those of the archive that are neither absolute nor denied, in
    order, each at its place below the destination, with all of its contents,
    and flushed, that is, charged; the loops end, and no other file is written. *)
Theorem tar_extraction_lands (fs : CapFilesystem) (user : UserConfig) (is_ignored : bytes → bool → bool) (write_fuel : nat)
    (destination : bytes) (entries : list (ior TarEntry)) (Hfits : Forall (tar_fits write_fuel) entries) :
  nwp (extract_tar fs user is_ignored write_fuel destination (Ok entries)) (mk_Landing [] None) (λ r s,
    r = Ok tt → ln_files s = flat_map (tar_file fs is_ignored destination) entries).
Proof.
  unfold extract_tar. rewrite io_lift_bind. apply wp_io_bind. eapply wp_mono; [by apply tar_entries_land |].
  intros [st | err] s Hs; [| done]. apply inert_wp; [apply directory_times_inert |]. intros r _. by apply Hs.
Qed.

Lemma tar_extraction_lands_witness :
  let entry := Ok (mk_TarEntry (Ok (str "d/k")) TarType.Regular (Ok 420) (Ok 7) (Ok None) [Ok (str "xy"); Ok (str "z")]) in
  nwp (extract_tar sample_fs rootless deny_a_k 8 (str "a") (Ok [entry])) (mk_Landing [] None) (λ r s,
    r = Ok tt → ln_files s = [(str "a/d/k", str "xyz", true)]).
Proof.
  intros entry. eapply wp_mono.
  - apply (tar_extraction_lands sample_fs rootless deny_a_k 8 (str "a") [entry]). repeat constructor; cbn; lia.
  - intros r s Hs Hr. rewrite (Hs Hr). vm_compute. reflexivity.
Defined.
