(* ===== verification/Lines.v ===== *)
(** * Lines: cutting streams into lines (application/src/io/line_buffer.rs, tail.rs)

    [LineBuffer] cuts the output of a container into lines as it arrives;
    [async_tail] finds the last lines of a file from its end, and
    [async_tail_stream] keeps the last lines of a stream. *)
From S2P Require Import Prelude IoModel.

Definition NEWLINE : Z := 10.

(** [iter().position(|&b| b == b'\n')] *)
Fixpoint position_newline (l : bytes) : option Z :=
  match l with
  | [] => None
  | b :: l => if b =? NEWLINE then Some 0 else (λ i, 1 + i) <$> position_newline l
  end.

(** [u8::is_ascii_whitespace], [slice::trim_ascii] *)
Definition is_ascii_whitespace (b : Z) : bool :=
  (b =? 9) || (b =? 10) || (b =? 12) || (b =? 13) || (b =? 32).
Fixpoint trim_ascii_start (l : bytes) : bytes :=
  match l with
  | b :: l' => if is_ascii_whitespace b then trim_ascii_start l' else l
  | [] => []
  end.
Definition trim_ascii (l : bytes) : bytes := reverse (trim_ascii_start (reverse (trim_ascii_start l))).

(** ** [LineBuffer] *)

Definition MAX_LINE_LENGTH : Z := 5120.
Definition COMPACT_THRESHOLD : Z := 10240.

Record LineBuffer : Type := mk_LineBuffer { lb_buffer : bytes; line_start : Z }.
Definition LineBuffer_new : LineBuffer := mk_LineBuffer [] 0.

Definition extend (self : LineBuffer) (data : bytes) : LineBuffer :=
  mk_LineBuffer (lb_buffer self ++ data) (line_start self).

Definition next_line (self : LineBuffer) : option bytes * LineBuffer :=
  match get_from (lb_buffer self) (line_start self) with
  | None => (None, self)
  | Some from =>
      let newline := position_newline from in
      let available := zlen (lb_buffer self) - line_start self in
      let cut (len advance : Z) :=
        let start := line_start self in
        (trim_ascii <$> get_range (lb_buffer self) start (start + len), mk_LineBuffer (lb_buffer self) (start + advance)) in
      match newline with
      | Some pos => if pos <=? MAX_LINE_LENGTH then cut pos (pos + 1) else cut MAX_LINE_LENGTH MAX_LINE_LENGTH
      | None => if MAX_LINE_LENGTH <? available then cut MAX_LINE_LENGTH MAX_LINE_LENGTH else (None, self)
      end
  end.

Definition compact (self : LineBuffer) : LineBuffer :=
  if (COMPACT_THRESHOLD <? line_start self) && (zlen (lb_buffer self) / 2 <? line_start self)
  then mk_LineBuffer (zdrop (line_start self) (lb_buffer self)) 0
  else self.

Definition flush (self : LineBuffer) : option bytes :=
  match get_from (lb_buffer self) (line_start self) with
  | None => None
  | Some rest => if bool_decide (rest = []) then None else Some (trim_ascii rest)
  end.

(** [while let Some(line) = line_buffer.next_line()]: every line takes a byte
    or leaves the loop. *)
Fixpoint drain (fuel : nat) (self : LineBuffer) : list bytes * LineBuffer :=
  match fuel with
  | O => ([], self)
  | S fuel =>
      match next_line self with
      | (Some line, self) => let '(lines, self) := drain fuel self in (line :: lines, self)
      | (None, self) => ([], self)
      end
  end.
Definition drain_all (self : LineBuffer) : list bytes * LineBuffer := drain (S (length (lb_buffer self))) self.

(** The reader of a container's output (executor/docker/mod.rs, 933-944). *)
Fixpoint read_output (chunks : list bytes) (self : LineBuffer) : list bytes :=
  match chunks with
  | [] => match flush self with Some line => [line] | None => [] end
  | data :: chunks =>
      let '(lines, self) := drain_all (extend self data) in
      lines ++ read_output chunks (compact self)
  end.

Definition rest (self : LineBuffer) : bytes := zdrop (line_start self) (lb_buffer self).
Definition lb_ok (self : LineBuffer) : Prop := 0 <= line_start self <= zlen (lb_buffer self).

(** One cut of the bytes that wait: the line and what is left. *)
Definition cut_line (s : bytes) : option (bytes * bytes) :=
  match position_newline s with
  | Some pos =>
      if pos <=? MAX_LINE_LENGTH then Some (ztake pos s, zdrop (pos + 1) s)
      else Some (ztake MAX_LINE_LENGTH s, zdrop MAX_LINE_LENGTH s)
  | None => if MAX_LINE_LENGTH <? zlen s then Some (ztake MAX_LINE_LENGTH s, zdrop MAX_LINE_LENGTH s) else None
  end.

Lemma position_newline_Some s pos : position_newline s = Some pos →
  0 <= pos < zlen s ∧ NEWLINE ∉ ztake pos s ∧ s = ztake pos s ++ NEWLINE :: zdrop (pos + 1) s.
Proof.
  revert pos. induction s as [| b s IH]; intros pos; cbn [position_newline]; [done |].
  rewrite zlen_cons. pose proof (zlen_nonneg s). destruct (Z.eqb_spec b NEWLINE) as [-> |].
  - intros [= <-]. split; [lia |]. split; [unfold ztake; cbn; set_solver | done].
  - destruct (position_newline s) as [i |]; [| done]. intros [= <-]. destruct (IH i eq_refl) as (Hi & Hn & Hs).
    split; [lia |]. unfold ztake, zdrop in *.
    replace (Z.to_nat (1 + i)) with (S (Z.to_nat i)) by lia.
    replace (Z.to_nat (1 + i + 1)) with (S (Z.to_nat (i + 1))) by lia. cbn. split; [set_solver |]. by f_equal.
Qed.

Lemma position_newline_None s : position_newline s = None → NEWLINE ∉ s.
Proof.
  induction s as [| b s IH]; cbn [position_newline]; [set_solver |].
  destruct (Z.eqb_spec b NEWLINE); [done |]. destruct (position_newline s); [done |]. set_solver.
Qed.

Lemma position_newline_app s t : position_newline (s ++ t) =
  match position_newline s with Some i => Some i | None => (λ i, zlen s + i) <$> position_newline t end.
Proof.
  induction s as [| b s IH]; cbn [app position_newline].
  - by destruct (position_newline t).
  - destruct (b =? NEWLINE); [done |]. rewrite IH. destruct (position_newline s); [done |].
    destruct (position_newline t); [| done]. cbn. f_equal. rewrite zlen_cons. lia.
Qed.

Lemma next_line_cut self : lb_ok self →
  match cut_line (rest self) with
  | Some (line, after) => ∃ self', next_line self = (Some (trim_ascii line), self') ∧ lb_ok self' ∧ rest self' = after ∧
      lb_buffer self' = lb_buffer self
  | None => next_line self = (None, self)
  end.
Proof.
  intros [Hl Hb]. unfold next_line, cut_line, get_from. rewrite get_range_spec by lia.
  assert (ztake (zlen (lb_buffer self) - line_start self) (zdrop (line_start self) (lb_buffer self)) = rest self) as ->
    by (unfold rest; apply ztake_ge; rewrite zlen_zdrop; lia).
  assert (zlen (rest self) = zlen (lb_buffer self) - line_start self) as Hlen by (unfold rest; rewrite zlen_zdrop; lia).
  assert (∀ len advance, 0 <= len <= zlen (rest self) → 0 <= advance <= zlen (rest self) →
    ∃ self', (trim_ascii <$> get_range (lb_buffer self) (line_start self) (line_start self + len),
      mk_LineBuffer (lb_buffer self) (line_start self + advance)) = (Some (trim_ascii (ztake len (rest self))), self') ∧
    lb_ok self' ∧ rest self' = zdrop advance (rest self) ∧ lb_buffer self' = lb_buffer self) as Hcut.
  { intros len advance H1 H2. exists (mk_LineBuffer (lb_buffer self) (line_start self + advance)).
    rewrite get_range_spec by lia. replace (line_start self + len - line_start self) with len by lia.
    split; [done |]. split; [unfold lb_ok; cbn; lia |]. split; [| done].
    unfold rest. cbn. by rewrite zdrop_zdrop by lia. }
  destruct (position_newline (rest self)) as [pos |] eqn:Hp.
  - apply position_newline_Some in Hp as (Hpos & _). unfold MAX_LINE_LENGTH.
    destruct (Z.leb_spec pos 5120); apply Hcut; lia.
  - unfold MAX_LINE_LENGTH in *. rewrite <- Hlen. destruct (Z.ltb_spec 5120 (zlen (rest self))); [apply Hcut; lia | done].
Qed.

Lemma cut_line_shrinks s line after : cut_line s = Some (line, after) → (length after < length s)%nat.
Proof.
  intros H. assert (∀ n, 0 < n → 0 < zlen s → (length (zdrop n s) < length s)%nat) as Hd.
  { intros n Hn Hs. unfold zlen in Hs. unfold zdrop. rewrite length_drop. lia. }
  unfold cut_line in H. destruct (position_newline s) as [pos |] eqn:Hp.
  - apply position_newline_Some in Hp as (Hpos & _). destruct (pos <=? MAX_LINE_LENGTH); injection H as _ <-; apply Hd; unfold MAX_LINE_LENGTH; lia.
  - destruct (Z.ltb_spec MAX_LINE_LENGTH (zlen s)); [| done]. injection H as _ <-. apply Hd; unfold MAX_LINE_LENGTH in *; lia.
Qed.

(** A cut does not depend on the bytes that follow. *)
Lemma cut_line_app s t line after : cut_line s = Some (line, after) → cut_line (s ++ t) = Some (line, after ++ t).
Proof.
  unfold cut_line. rewrite position_newline_app, zlen_app. pose proof (zlen_nonneg t).
  destruct (position_newline s) as [pos |] eqn:Hp.
  - apply position_newline_Some in Hp as (Hpos & _). unfold MAX_LINE_LENGTH.
    destruct (Z.leb_spec pos 5120); intros [= <- <-]; by rewrite ztake_app_l, zdrop_app_l by lia.
  - destruct (Z.ltb_spec MAX_LINE_LENGTH (zlen s)) as [Hs |]; [| done]. intros [= <- <-].
    assert (ztake MAX_LINE_LENGTH (s ++ t) = ztake MAX_LINE_LENGTH s ∧ zdrop MAX_LINE_LENGTH (s ++ t) = zdrop MAX_LINE_LENGTH s ++ t)
      as [-> ->] by (by rewrite ztake_app_l, zdrop_app_l by lia).
    destruct (position_newline t) as [i |] eqn:Ht; cbn [fmap option_fmap option_map].
    + apply position_newline_Some in Ht as (Hi & _). destruct (Z.leb_spec (zlen s + i) MAX_LINE_LENGTH); [lia | done].
    + destruct (Z.ltb_spec MAX_LINE_LENGTH (zlen s + zlen t)); [done | lia].
Qed.

(** The reference: cutting a byte string until no cut is left. *)
Fixpoint cut_all (fuel : nat) (s : bytes) : list bytes * bytes :=
  match fuel with
  | O => ([], s)
  | S fuel =>
      match cut_line s with
      | Some (line, after) => let '(lines, after) := cut_all fuel after in (trim_ascii line :: lines, after)
      | None => ([], s)
      end
  end.
Definition cut_lines (s : bytes) : list bytes * bytes := cut_all (S (length s)) s.

Lemma cut_all_enough fuel1 fuel2 s : (length s < fuel1)%nat → (length s < fuel2)%nat → cut_all fuel1 s = cut_all fuel2 s.
Proof.
  revert fuel2 s. induction fuel1 as [| fuel1 IH]; intros fuel2 s H1 H2; [lia |]. destruct fuel2 as [| fuel2]; [lia |].
  cbn. destruct (cut_line s) as [[line after] |] eqn:Hc; [| done]. apply cut_line_shrinks in Hc.
  by rewrite (IH fuel2) by lia.
Qed.

Lemma cut_lines_eq s : cut_lines s =
  match cut_line s with Some (line, after) => (trim_ascii line :: fst (cut_lines after), snd (cut_lines after)) | None => ([], s) end.
Proof.
  unfold cut_lines at 1. cbn [cut_all]. destruct (cut_line s) as [[line after] |] eqn:Hc; [| done].
  apply cut_line_shrinks in Hc. rewrite (cut_all_enough _ (S (length after))) by lia. fold (cut_lines after).
  by destruct (cut_lines after).
Qed.

Lemma cut_lines_app s t : cut_lines (s ++ t) =
  (fst (cut_lines s) ++ fst (cut_lines (snd (cut_lines s) ++ t)), snd (cut_lines (snd (cut_lines s) ++ t))).
Proof.
  remember (length s) as n eqn:Hn. revert s Hn. induction n as [n IH] using lt_wf_ind. intros s ->.
  rewrite (cut_lines_eq s). destruct (cut_line s) as [[line after] |] eqn:Hc.
  - cbn [fst snd]. rewrite (cut_lines_eq (s ++ t)), (cut_line_app _ _ _ _ Hc).
    rewrite (IH (length after)); [done | by eapply cut_line_shrinks | done].
  - cbn [fst snd app]. by destruct (cut_lines (s ++ t)).
Qed.

Lemma drain_cut fuel self : lb_ok self → ∃ self', drain fuel self = (fst (cut_all fuel (rest self)), self') ∧
  lb_ok self' ∧ rest self' = snd (cut_all fuel (rest self)).
Proof.
  revert self. induction fuel as [| fuel IH]; intros self Hok; cbn; [by exists self |].
  pose proof (next_line_cut self Hok) as Hn. destruct (cut_line (rest self)) as [[line after] |].
  - destruct Hn as (self1 & -> & Hok1 & Hr1 & _). destruct (IH self1 Hok1) as (self' & -> & Hok' & Hr').
    rewrite Hr1 in Hr' |- *. exists self'. by destruct (cut_all fuel after).
  - rewrite Hn. by exists self.
Qed.

Lemma drain_all_cut self : lb_ok self → ∃ self', drain_all self = (fst (cut_lines (rest self)), self') ∧
  lb_ok self' ∧ rest self' = snd (cut_lines (rest self)).
Proof.
  intros Hok. unfold drain_all. destruct (drain_cut (S (length (lb_buffer self))) self Hok) as (self' & -> & Hok' & Hr).
  exists self'. assert (cut_all (S (length (lb_buffer self))) (rest self) = cut_lines (rest self)) as Hc.
  { apply cut_all_enough; [| lia]. unfold rest, zdrop. rewrite length_drop. lia. }
  by rewrite Hc in Hr |- *.
Qed.

Lemma compact_rest self : lb_ok self → lb_ok (compact self) ∧ rest (compact self) = rest self.
Proof.
  intros Hok. unfold compact. destruct (_ && _); [| done]. split; [| done].
  unfold lb_ok. cbn. pose proof (zlen_nonneg (zdrop (line_start self) (lb_buffer self))). lia.
Qed.

Lemma extend_rest self data : lb_ok self → lb_ok (extend self data) ∧ rest (extend self data) = rest self ++ data.
Proof.
  intros Hok. unfold lb_ok, rest, extend in *. cbn. pose proof (zlen_nonneg data).
  split; [rewrite zlen_app; lia | by rewrite zdrop_app_l by lia].
Qed.

Lemma flush_rest self : lb_ok self → flush self = if bool_decide (rest self = []) then None else Some (trim_ascii (rest self)).
Proof.
  intros Hok. unfold lb_ok in Hok. unfold flush, get_from. rewrite get_range_spec by lia.
  assert (ztake (zlen (lb_buffer self) - line_start self) (zdrop (line_start self) (lb_buffer self)) = rest self) as ->
    by (unfold rest; apply ztake_ge; rewrite zlen_zdrop; lia). done.
Qed.

Definition last_piece (s : bytes) : list bytes := if bool_decide (s = []) then [] else [trim_ascii s].

Lemma read_output_cut chunks self : lb_ok self → cut_line (rest self) = None →
  read_output chunks self =
    fst (cut_lines (rest self ++ concat chunks)) ++ last_piece (snd (cut_lines (rest self ++ concat chunks))).
Proof.
  revert self. induction chunks as [| data chunks IH]; intros self Hok Hc; cbn [read_output concat].
  - rewrite app_nil_r, cut_lines_eq, Hc. cbn. rewrite flush_rest by done. unfold last_piece. by case_bool_decide.
  - destruct (extend_rest self data Hok) as [Hok1 Hr1].
    destruct (drain_all_cut _ Hok1) as (self' & -> & Hok' & Hr'). rewrite Hr1 in Hr' |- *.
    assert (cut_line (rest (compact self')) = None) as Hnone.
    { rewrite (proj2 (compact_rest self' Hok')), Hr'. clear. remember (length (rest self ++ data)) as n eqn:Hn.
      revert Hn. generalize (rest self ++ data) as s. induction n as [n IH] using lt_wf_ind. intros s ->.
      rewrite cut_lines_eq. destruct (cut_line s) as [[line after] |] eqn:Hc; [| done]. cbn [snd].
      apply (IH (length after)); [by eapply cut_line_shrinks | done]. }
    rewrite (IH (compact self')); [| by apply compact_rest | done].
    rewrite (proj2 (compact_rest self' Hok')), Hr'. rewrite (app_assoc (rest self) data (concat chunks)), (cut_lines_app (rest self ++ data) (concat chunks)).
    cbn [fst snd]. by rewrite <- app_assoc.
Qed.

(** *** Nothing is lost *)

Lemma trim_start_snoc l w : is_ascii_whitespace w = true →
  trim_ascii_start (l ++ [w]) = if bool_decide (trim_ascii_start l = []) then [] else trim_ascii_start l ++ [w].
Proof.
  intros Hw. induction l as [| b l IH]; cbn; [by rewrite Hw |].
  destruct (is_ascii_whitespace b); [exact IH | by rewrite bool_decide_eq_false_2].
Qed.

Lemma trim_ascii_newline l : trim_ascii (l ++ [NEWLINE]) = trim_ascii l.
Proof.
  unfold trim_ascii. rewrite trim_start_snoc by done. case_bool_decide as H; [by rewrite H |].
  by rewrite reverse_snoc.
Qed.

(** A piece of the stream: a line with its newline, or as much as a line may
    have. *)
Definition piece_ok (p : bytes) : Prop :=
  (∃ l, p = l ++ [NEWLINE] ∧ NEWLINE ∉ l ∧ zlen l <= MAX_LINE_LENGTH) ∨ (zlen p = MAX_LINE_LENGTH ∧ NEWLINE ∉ p).

Lemma cut_line_piece s line after : cut_line s = Some (line, after) →
  ∃ p, s = p ++ after ∧ piece_ok p ∧ trim_ascii line = trim_ascii p.
Proof.
  unfold cut_line. destruct (position_newline s) as [pos |] eqn:Hp.
  - apply position_newline_Some in Hp as (Hpos & Hn & Hs). destruct (Z.leb_spec pos MAX_LINE_LENGTH); intros [= <- <-].
    + exists (ztake pos s ++ [NEWLINE]). rewrite trim_ascii_newline, <- app_assoc. split; [done |]. split; [| done].
      left. exists (ztake pos s). rewrite zlen_ztake. split; [done |]. split; [done | lia].
    + exists (ztake MAX_LINE_LENGTH s). rewrite ztake_zdrop. split; [done |]. split; [| done]. right.
      unfold MAX_LINE_LENGTH in *. rewrite zlen_ztake. split; [lia |]. intros Hin. apply Hn.
      replace pos with (5120 + (pos - 5120)) by lia. rewrite ztake_add by lia. set_solver.
  - apply position_newline_None in Hp. destruct (Z.ltb_spec MAX_LINE_LENGTH (zlen s)); [| done]. intros [= <- <-].
    exists (ztake MAX_LINE_LENGTH s). rewrite ztake_zdrop. split; [done |]. split; [| done]. right.
    unfold MAX_LINE_LENGTH in *. rewrite zlen_ztake. split; [lia |]. intros Hin. apply Hp.
    rewrite <- (ztake_zdrop 5120 s). set_solver.
Qed.

Lemma cut_line_rest s : cut_line s = None → NEWLINE ∉ s ∧ zlen s <= MAX_LINE_LENGTH.
Proof.
  unfold cut_line. destruct (position_newline s) as [pos |] eqn:Hp; [by destruct (_ <=? _) |].
  apply position_newline_None in Hp. destruct (Z.ltb_spec MAX_LINE_LENGTH (zlen s)); [done | intros _; by split].
Qed.

Lemma cut_lines_pieces s : ∃ pieces, s = concat pieces ++ snd (cut_lines s) ∧ Forall piece_ok pieces ∧
  fst (cut_lines s) = map trim_ascii pieces ∧ NEWLINE ∉ snd (cut_lines s) ∧ zlen (snd (cut_lines s)) <= MAX_LINE_LENGTH.
Proof.
  remember (length s) as n eqn:Hn. revert s Hn. induction n as [n IH] using lt_wf_ind. intros s ->.
  rewrite (cut_lines_eq s). destruct (cut_line s) as [[line after] |] eqn:Hc.
  - destruct (IH (length after) ltac:(by eapply cut_line_shrinks) after eq_refl) as (pieces & Hs & Hok & Hl & Hr).
    destruct (cut_line_piece _ _ _ Hc) as (p & Hp & Hpok & Ht). exists (p :: pieces). cbn [fst snd concat map].
    rewrite <- app_assoc, <- Hs. split; [done |]. split; [by constructor |]. split; [by rewrite Hl, Ht | done].
  - exists []. split; [done |]. split; [constructor |]. split; [done |]. by apply cut_line_rest.
Qed.

(** ** Properties of [LineBuffer] *)

(** The lines of a container.  However its output is cut into chunks as it
    arrives, the buffer, compacted in between, gives the same lines: those of
    the whole output, which is split without loss into pieces that end with a
    newline or are as long as a line may be, and an unfinished rest shorter
    than that, each given without the white space around it. *)
Theorem container_output_lines (chunks : list bytes) :
  let output := concat chunks in
  read_output chunks LineBuffer_new = fst (cut_lines output) ++ last_piece (snd (cut_lines output)) ∧
  ∃ pieces, output = concat pieces ++ snd (cut_lines output) ∧ Forall piece_ok pieces ∧
    fst (cut_lines output) = map trim_ascii pieces ∧
    NEWLINE ∉ snd (cut_lines output) ∧ zlen (snd (cut_lines output)) <= MAX_LINE_LENGTH.
Proof. split; [by rewrite read_output_cut | apply cut_lines_pieces]. Qed.

Example read_output_example :
  read_output [[104; 105; 10; 32; 120]; [121; 13; 10; 122]] LineBuffer_new = [[104; 105]; [120; 121]; [122]].
Proof. vm_compute. reflexivity. Qed.

(** ** [async_tail] *)

Definition BUFFER_SIZE : Z := 32 * 1024.

Definition seek_end : stt IoCursor io_error Z := λ c,
  (Ok (zlen (ioc_data c)), mk_IoCursor (ioc_data c) (zlen (ioc_data c))).
Definition seek_start (pos : Z) : stt IoCursor io_error Z := λ c, (Ok pos, mk_IoCursor (ioc_data c) pos).

(** [for i in (0..n).rev()]: the position to start at, or the lines found. *)
Fixpoint scan_chunk (n : nat) (chunk : bytes) (current_pos file_size lines lines_found : Z) : Z + Z :=
  match n with
  | O => inr lines_found
  | S n =>
      let i := Z.of_nat n in
      if bool_decide (get_at chunk i = Some NEWLINE) then
        if current_pos + i =? file_size - 1 then scan_chunk n chunk current_pos file_size lines lines_found else
        let lines_found := lines_found + 1 in
        if lines_found =? lines then inl (current_pos + i + 1)
        else scan_chunk n chunk current_pos file_size lines lines_found
      else scan_chunk n chunk current_pos file_size lines lines_found
  end.

(** Every turn reads a chunk of at least one byte. *)
Fixpoint tail_loop (fuel : nat) (file_size lines current_pos lines_found : Z) : stt IoCursor io_error unit :=
  match fuel with
  | O => mret tt
  | S fuel =>
      if current_pos <=? 0 then _ ← seek_start 0; mret tt else
      let read_size := Z.min BUFFER_SIZE current_pos in
      let current_pos := current_pos - read_size in
      _ ← seek_start current_pos;
      chunk ← read_exact read_size;
      match scan_chunk (Z.to_nat read_size) chunk current_pos file_size lines lines_found with
      | inl start_pos => _ ← seek_start start_pos; mret tt
      | inr lines_found => tail_loop fuel file_size lines current_pos lines_found
      end
  end.
Definition async_tail (lines : Z) : stt IoCursor io_error unit :=
  if lines =? 0 then _ ← seek_end; mret tt else
  file_size ← seek_end;
  if file_size =? 0 then mret tt else
  tail_loop (S (Z.to_nat file_size)) file_size lines file_size 0.

(** *** The lines of a byte string *)

(** Each with its newline, which the last one may lack. *)
Fixpoint split_lines (s : bytes) : list bytes :=
  match s with
  | [] => []
  | b :: s =>
      if b =? NEWLINE then [b] :: split_lines s
      else match split_lines s with
           | [] => [[b]]
           | l :: ls => (b :: l) :: ls
           end
  end.
Definition last_n {A} (n : Z) (l : list A) : list A := zdrop (zlen l - n) l.

Lemma concat_split_lines s : concat (split_lines s) = s.
Proof.
  induction s as [| b s IH]; cbn; [done |]. destruct (b =? NEWLINE); cbn; [by rewrite IH |].
  destruct (split_lines s) as [| l ls]; cbn in *; by rewrite <- IH.
Qed.

Lemma split_lines_nil s : split_lines s = [] ↔ s = [].
Proof.
  split; [| by intros ->]. destruct s as [| b s]; cbn; [done |]. destruct (b =? NEWLINE); [done |]. by destruct (split_lines s).
Qed.

(** The newlines that end a line other than the last. *)
Fixpoint inner_newlines (s : bytes) : Z :=
  match s with
  | [] => 0
  | b :: s => (if (b =? NEWLINE) && negb (bool_decide (s = [])) then 1 else 0) + inner_newlines s
  end.

Lemma zlen_split_lines s : s ≠ [] → zlen (split_lines s) = 1 + inner_newlines s.
Proof.
  induction s as [| b s IH]; intros Hs; [done |]. cbn. destruct (b =? NEWLINE).
  - rewrite zlen_cons. destruct s as [| b' s]; [done |]. rewrite IH by done. rewrite bool_decide_eq_false_2 by done. cbn [negb andb]. lia.
  - cbn [andb]. destruct s as [| b' s]; [done |]. rewrite Z.add_0_l. rewrite <- IH by done.
    destruct (split_lines (b' :: s)) as [| l ls] eqn:Hl; [by apply split_lines_nil in Hl |]. by rewrite !zlen_cons.
Qed.

Lemma inner_newlines_nonneg s : 0 <= inner_newlines s.
Proof. induction s as [| b s IH]; cbn; [lia |]. destruct (_ && _); lia. Qed.

Lemma split_lines_app s t : split_lines (s ++ NEWLINE :: t) = split_lines (s ++ [NEWLINE]) ++ split_lines t.
Proof.
  induction s as [| b s IH]; cbn [app split_lines]; [done |]. destruct (b =? NEWLINE); [by rewrite IH |].
  rewrite IH. destruct (split_lines (s ++ [NEWLINE])) as [| l ls] eqn:Hl; [| done].
  apply split_lines_nil in Hl. by destruct s.
Qed.

(** Where the last [n] lines start. *)
Lemma last_lines_at data pre s : data = pre ++ NEWLINE :: s → s ≠ [] →
  concat (last_n (1 + inner_newlines s) (split_lines data)) = s.
Proof.
  intros -> Hs. rewrite split_lines_app, <- zlen_split_lines by done. unfold last_n. rewrite zlen_app.
  replace (zlen (split_lines (pre ++ [NEWLINE])) + zlen (split_lines s) - zlen (split_lines s))
    with (zlen (split_lines (pre ++ [NEWLINE]))) by lia.
  by rewrite zdrop_app, concat_split_lines.
Qed.

Lemma last_lines_all data n : 1 + inner_newlines data <= n → concat (last_n n (split_lines data)) = data.
Proof.
  intros Hn. unfold last_n. rewrite zdrop_le; [apply concat_split_lines |].
  destruct (decide (data = [])) as [-> |]; [| rewrite zlen_split_lines by done; lia].
  cbn in *. rewrite (@zlen_nil bytes). lia.
Qed.

Lemma read_exact_data n (c : IoCursor) : ioc_data (snd (read_exact n c)) = ioc_data c.
Proof.
  unfold read_exact. generalize (Z.to_nat n) as fuel. intros fuel. generalize (@nil Z) as acc. revert n c.
  induction fuel as [| fuel IH]; intros n c acc; cbn [read_exact_loop]; destruct (n <=? 0); try done.
  unfold read, IoCursor_read. destruct (ztake n (IoCursor_rest c)); [done |]. by rewrite IH.
Qed.

(** *** The scan *)

Section tail.
Context (data : bytes) (lines : Z) (Hlines : 0 < lines).
Let file_size : Z := zlen data.

(** What lies at and beyond a position that the scan has reached. *)
Definition scanned (pos found : Z) : Prop :=
  0 <= pos <= file_size ∧ found = inner_newlines (zdrop pos data) ∧ found < lines.

Lemma scan_step pos b : 0 <= pos → data !! Z.to_nat pos = Some b →
  zdrop pos data = b :: zdrop (pos + 1) data ∧ data = ztake pos data ++ b :: zdrop (pos + 1) data.
Proof.
  intros Hpos Hb. assert (zdrop pos data = b :: zdrop (pos + 1) data) as Hd; [| split; [done | by rewrite <- Hd, ztake_zdrop]].
  unfold zdrop. rewrite (drop_S _ _ _ Hb). do 2 f_equal. lia.
Qed.

(** The answer: a position beyond which the last lines are. *)
Definition answers (pos : Z) : Prop := 0 <= pos ∧ zdrop pos data = concat (last_n lines (split_lines data)).

Lemma scan_chunk_ok current_pos read_size : 0 <= current_pos → current_pos + read_size <= file_size →
  ∀ n found, Z.of_nat n <= read_size → scanned (current_pos + Z.of_nat n) found →
  match scan_chunk n (ztake read_size (zdrop current_pos data)) current_pos file_size lines found with
  | inl start_pos => answers start_pos
  | inr found => scanned current_pos found
  end.
Proof.
  intros Hc Hr n. induction n as [| n IH]; intros found Hn Hs; cbn [scan_chunk]; [by replace (current_pos + Z.of_nat 0) with current_pos in Hs by lia |].
  set (pos := current_pos + Z.of_nat n). unfold file_size, zlen in Hr.
  destruct (lookup_lt_is_Some_2 data (Z.to_nat pos)) as [b Hb]; [unfold pos; lia |].
  assert (get_at (ztake read_size (zdrop current_pos data)) (Z.of_nat n) = Some b) as ->.
  { unfold get_at. rewrite (proj2 (Z.leb_le 0 _)) by lia. unfold ztake, zdrop. rewrite Nat2Z.id.
    rewrite lookup_take_lt by lia. rewrite lookup_drop. rewrite <- Hb. f_equal. unfold pos. lia. }
  destruct (scan_step pos b ltac:(unfold pos; lia) Hb) as [Hd Hdata].
  destruct Hs as (Hp & Hf & Hl). replace (current_pos + Z.of_nat (S n)) with (pos + 1) in * by (unfold pos; lia).
  assert (inner_newlines (zdrop pos data) =
    (if (b =? NEWLINE) && negb (bool_decide (zdrop (pos + 1) data = [])) then 1 else 0) + found) as Hin
    by (rewrite Hd, Hf; done).
  assert (zlen (zdrop (pos + 1) data) = file_size - (pos + 1)) as Hlen by (rewrite zlen_zdrop; unfold file_size in *; lia).
  destruct (Z.eqb_spec b NEWLINE) as [-> | Hb'].
  2:{ rewrite bool_decide_eq_false_2 by congruence. apply IH; [lia |]. fold pos. cbn [andb] in Hin.
      split; [lia |]. split; [by rewrite Hin | done]. }
  rewrite bool_decide_eq_true_2 by done. cbn [andb] in Hin. destruct (Z.eqb_spec pos (file_size - 1)) as [He | He].
  - apply IH; [lia |]. fold pos. rewrite bool_decide_eq_true_2 in Hin by (apply zlen_0_nil; lia). cbn in Hin.
    split; [lia |]. split; [by rewrite Hin | done].
  - assert (zdrop (pos + 1) data ≠ []) as Hne by (intros Hnil; rewrite Hnil, (@zlen_nil Z) in Hlen; lia).
    rewrite bool_decide_eq_false_2 in Hin by done. cbn [negb] in Hin. destruct (Z.eqb_spec (found + 1) lines) as [He' |].
    + split; [lia |]. replace lines with (1 + inner_newlines (zdrop (pos + 1) data)) by lia.
      symmetry. by apply (last_lines_at _ (ztake pos data)).
    + apply IH; [lia |]. fold pos. split; [lia |]. split; [lia | lia].
Qed.

Lemma tail_loop_ok fuel : ∀ pos found c, scanned pos found → (Z.to_nat pos < fuel)%nat → ioc_data c = data →
  ∃ p, tail_loop fuel file_size lines pos found c = (Ok tt, mk_IoCursor data p) ∧ answers p.
Proof.
  induction fuel as [| fuel IH]; intros pos found c Hs Hf Hc; [lia |]. cbn [tail_loop].
  destruct (Z.leb_spec pos 0).
  - exists 0. split; [by rewrite (stt_bind_ok _ _ _ 0 (mk_IoCursor data 0)) by (unfold seek_start; by rewrite Hc) |]. destruct Hs as (Hp & Hi & Hl). assert (pos = 0) as -> by lia.
    split; [lia |]. rewrite zdrop_le in * by lia. rewrite last_lines_all; [done | lia].
  - set (read_size := Z.min BUFFER_SIZE pos). assert (0 < read_size <= pos) as Hr by (unfold read_size, BUFFER_SIZE; lia).
    pose proof Hs as (Hp & Hi & Hl). destruct (read_exact_ok read_size (mk_IoCursor data (pos - read_size))) as (c' & Hread & Hrem).
    { cbn. unfold IoCursor_rest. cbn. rewrite zlen_zdrop. unfold file_size in Hp. lia. }
    rewrite (stt_bind_ok _ _ _ (pos - read_size) (mk_IoCursor data (pos - read_size))) by (unfold seek_start; by rewrite Hc).
    rewrite (stt_bind_ok _ _ _ _ _ Hread). cbn [remaining IoCursor_read_laws]. unfold IoCursor_rest. cbn [ioc_data ioc_pos].
    pose proof (scan_chunk_ok (pos - read_size) read_size ltac:(lia) ltac:(lia) (Z.to_nat read_size) found ltac:(lia)
      ltac:(by replace (pos - read_size + Z.of_nat (Z.to_nat read_size)) with pos by lia)) as Hscan.
    assert (ioc_data c' = data) as Hc'.
    { transitivity (ioc_data (snd (read_exact read_size (mk_IoCursor data (pos - read_size))))); [by rewrite Hread |].
      apply read_exact_data. }
    destruct (scan_chunk _ _ _ _ _ _) as [start | found'].
    + exists start. split; [| done]. by rewrite (stt_bind_ok _ _ _ start (mk_IoCursor data start)) by (unfold seek_start; by rewrite Hc').
    + apply IH; [done | lia | done].
Qed.
End tail.

(** ** [async_tail_stream] *)

Definition TAIL_MAX_LINE_LENGTH : Z := 10 * 1024.

(** [tokio::io::BufReader], with its 8 KiB buffer. *)
Record BufReader (R : Type) : Type := mk_BufReader { br_buffer : bytes; br_inner : R }.
Arguments mk_BufReader {R} _ _.
Arguments br_buffer {R} _.
Arguments br_inner {R} _.

Section stream.
Context {R : Type} `{Read R}.

Definition fill_buf : stt (BufReader R) io_error bytes := λ b,
  match br_buffer b with
  | _ :: _ => (Ok (br_buffer b), b)
  | [] =>
      match read 8192 (br_inner b) with
      | (Ok d, r) => (Ok d, mk_BufReader d r)
      | (Err e, r) => (Err e, mk_BufReader [] r)
      end
  end.
Definition consume (n : Z) : stt (BufReader R) io_error unit := λ b, (Ok tt, mk_BufReader (zdrop n (br_buffer b)) (br_inner b)).

(** Every turn consumes a byte or ends the loop. *)
Fixpoint read_line_loop (fuel : nat) (line : bytes) (truncated : bool) : stt (BufReader R) io_error (bytes * bool * bool) :=
  match fuel with
  | O => mret (line, truncated, false)
  | S fuel =>
      available ← fill_buf;
      if bool_decide (available = []) then mret (line, truncated, false) else
      let newline := position_newline available in
      let consumed := match newline with Some idx => idx + 1 | None => zlen available end in
      '(line, truncated) ←
        (if zlen line <? TAIL_MAX_LINE_LENGTH then
           let take := Z.min (TAIL_MAX_LINE_LENGTH - zlen line) consumed in
           slice ← lift (ok_or (get_to available take) (InvalidInput "range end exceeds slice length"));
           mret (line ++ slice, if take <? consumed then true else truncated)
         else mret (line, true) : stt (BufReader R) io_error (bytes * bool));
      _ ← consume consumed;
      match newline with
      | Some _ => mret (line, truncated, true)
      | None => read_line_loop fuel line truncated
      end
  end.
Definition read_line_capped (fuel : nat) : stt (BufReader R) io_error (option bytes) :=
  '(line, truncated, hit_newline) ← read_line_loop fuel [] false;
  mret (if bool_decide (line = []) then None
        else if (truncated : bool) && (hit_newline : bool) && negb (bool_decide (list.last line = Some NEWLINE))
        then Some (line ++ [NEWLINE]) else Some line).

Fixpoint tail_stream_loop (fuel : nat) (lines : Z) (buffer : list bytes) : stt (BufReader R) io_error (list bytes) :=
  match fuel with
  | O => mret buffer
  | S n =>
      line ← read_line_capped fuel;
      match line with
      | None => mret buffer
      | Some line =>
          let buffer := if zlen buffer =? lines then tail buffer else buffer in
          tail_stream_loop n lines (buffer ++ [line])
      end
  end.
(** The bytes the returned cursor is over. *)
Definition async_tail_stream (fuel : nat) (lines : Z) : stt R io_error bytes := λ r,
  if lines =? 0 then (Ok [], r) else
  match tail_stream_loop fuel lines [] (mk_BufReader [] r) with
  | (Ok buffer, b) => (Ok (concat buffer), br_inner b)
  | (Err e, b) => (Err e, br_inner b)
  end.

(** *** The capped lines *)

Fixpoint first_line (s : bytes) : bytes :=
  match s with
  | [] => []
  | b :: s => if b =? NEWLINE then [b] else b :: first_line s
  end.
Definition cap_line (l : bytes) : bytes :=
  if zlen l <=? TAIL_MAX_LINE_LENGTH then l
  else ztake TAIL_MAX_LINE_LENGTH l ++ (if bool_decide (list.last l = Some NEWLINE) then [NEWLINE] else []).

Lemma split_first_line s : s ≠ [] → split_lines s = first_line s :: split_lines (zdrop (zlen (first_line s)) s).
Proof.
  induction s as [| b s IH]; intros Hs; [done |]. cbn [split_lines first_line]. destruct (b =? NEWLINE); [done |].
  rewrite zlen_cons. unfold zdrop. replace (Z.to_nat (1 + zlen (first_line s))) with (S (Z.to_nat (zlen (first_line s))))
    by (pose proof (zlen_nonneg (first_line s)); lia). cbn [drop].
  destruct s as [| b' s]; [done |]. by rewrite IH.
Qed.

Lemma first_line_no_newline a s : NEWLINE ∉ a → first_line (a ++ s) = a ++ first_line s.
Proof.
  induction a as [| b a IH]; intros Ha; [done |]. cbn. apply not_elem_of_cons in Ha as [Hb Ha].
  destruct (Z.eqb_spec b NEWLINE); [congruence |]. by rewrite IH.
Qed.

Lemma first_line_newline a s : NEWLINE ∉ a → first_line (a ++ NEWLINE :: s) = a ++ [NEWLINE].
Proof. intros Ha. by rewrite first_line_no_newline. Qed.

Lemma first_line_nonempty s : s ≠ [] → 0 < zlen (first_line s).
Proof.
  destruct s as [| b s]; intros Hs; [done |]. cbn. destruct (b =? NEWLINE); rewrite zlen_cons; [rewrite (@zlen_nil Z); lia |].
  pose proof (zlen_nonneg (first_line s)). lia.
Qed.

Context `{!ReadLaws R}.
Definition stream (b : BufReader R) : bytes := br_buffer b ++ remaining (br_inner b).

Lemma fill_buf_ok b : ∃ b', fill_buf b = (Ok (br_buffer b'), b') ∧ stream b' = stream b ∧
  (br_buffer b' = [] → stream b = []).
Proof.
  unfold fill_buf, stream. destruct b as [[| x l] r]; cbn [br_buffer br_inner].
  - destruct (read_law 8192 r ltac:(lia)) as (k & r' & -> & Hr & Hk & Hpos).
    exists (mk_BufReader (ztake k (remaining r)) r'). cbn [br_buffer br_inner]. rewrite Hr, ztake_zdrop.
    split; [done |]. split; [done |]. intros Hnil. destruct (remaining r) as [| y ys] eqn:Hrem; [done |].
    specialize (Hpos ltac:(lia) ltac:(done)). exfalso. assert (zlen (ztake k (y :: ys)) = k) as Hl by (rewrite zlen_ztake; lia).
    rewrite Hnil, (@zlen_nil Z) in Hl. lia.
  - by exists (mk_BufReader (x :: l) r).
Qed.

Lemma ztake_app_r {A} n (l1 l2 : list A) : zlen l1 <= n → ztake n (l1 ++ l2) = l1 ++ ztake (n - zlen l1) l2.
Proof. unfold ztake, zlen. intros H1. rewrite take_app_ge by lia. do 2 f_equal. lia. Qed.

(** What a turn adds to the line. *)
Lemma add_piece {S} pre a consumed (s : S) : 0 < consumed <= zlen a →
  (if zlen (ztake TAIL_MAX_LINE_LENGTH pre) <? TAIL_MAX_LINE_LENGTH then
     let take := Z.min (TAIL_MAX_LINE_LENGTH - zlen (ztake TAIL_MAX_LINE_LENGTH pre)) consumed in
     slice ← lift (ok_or (get_to a take) (InvalidInput "range end exceeds slice length"));
     mret (ztake TAIL_MAX_LINE_LENGTH pre ++ slice, if take <? consumed then true else TAIL_MAX_LINE_LENGTH <? zlen pre)
   else mret (ztake TAIL_MAX_LINE_LENGTH pre, true) : stt S io_error (bytes * bool)) s =
  (Ok (ztake TAIL_MAX_LINE_LENGTH (pre ++ ztake consumed a), TAIL_MAX_LINE_LENGTH <? zlen (pre ++ ztake consumed a)), s).
Proof.
  intros Hc. pose proof (zlen_nonneg pre). assert (zlen (ztake consumed a) = consumed) as Hl by (rewrite zlen_ztake; lia).
  assert (0 < TAIL_MAX_LINE_LENGTH) as Hm by done. generalize TAIL_MAX_LINE_LENGTH as m, Hm. clear Hm. intros m Hm.
  rewrite zlen_app, Hl, zlen_ztake. destruct (Z.ltb_spec (zlen pre) m) as [Hlt | Hge].
  - replace (Z.min (Z.max m 0) (zlen pre)) with (zlen pre) by lia. rewrite (proj2 (Z.ltb_lt _ _)) by lia.
    cbv zeta. set (take := Z.min (m - zlen pre) consumed). unfold get_to. rewrite get_range_spec by lia.
    cbn [ok_or]. unfold lift, mbind, stt_bind, mret, stt_ret.
    rewrite (ztake_ge m pre), zdrop_le, Z.sub_0_r, (ztake_app_r m), ztake_ztake by lia.
    do 3 f_equal. destruct (Z.ltb_spec take consumed), (Z.ltb_spec m (zlen pre)), (Z.ltb_spec m (zlen pre + consumed)); done || lia.
  - replace (Z.min (Z.max m 0) (zlen pre)) with m by lia. rewrite (proj2 (Z.ltb_ge _ _)), ztake_app_l by lia.
    rewrite (proj2 (Z.ltb_lt _ _)) by lia. done.
Qed.

(** The state of the loop that has read [pre] of its line. *)
Lemma read_line_loop_ok fuel : ∀ pre b, (length (stream b) < fuel)%nat →
  let l := first_line (stream b) in
  ∃ b', read_line_loop fuel (ztake TAIL_MAX_LINE_LENGTH pre) (TAIL_MAX_LINE_LENGTH <? zlen pre) b =
    (Ok (ztake TAIL_MAX_LINE_LENGTH (pre ++ l), TAIL_MAX_LINE_LENGTH <? zlen (pre ++ l),
         bool_decide (list.last l = Some NEWLINE)), b') ∧ stream b' = zdrop (zlen l) (stream b).
Proof.
  induction fuel as [| fuel IH]; intros pre b Hf l; [lia |]. cbn [read_line_loop].
  destruct (fill_buf_ok b) as (b1 & Hfill & Hs1 & Hnil). rewrite (stt_bind_ok _ _ _ _ _ Hfill).
  case_bool_decide as Hb.
  { subst l. rewrite (Hnil Hb). cbn. exists b1. rewrite app_nil_r. split; [done |]. by rewrite Hs1, (Hnil Hb). }
  set (a := br_buffer b1) in *. assert (stream b = a ++ remaining (br_inner b1)) as Hst by by rewrite <- Hs1.
  subst l. rewrite Hst in Hf |- *. clear Hst Hs1 Hnil Hfill.
  assert (0 < zlen a) as Ha by (destruct a; [done |]; rewrite zlen_cons; pose proof (zlen_nonneg a); lia).
  destruct (position_newline a) as [idx |] eqn:Hp.
  - pose proof (position_newline_Some _ _ Hp) as (Hidx & Hn & Hsplit). cbv zeta.
    pose proof (add_piece pre a (idx + 1) b1 ltac:(lia)) as Hadd. cbv zeta in Hadd. rewrite (stt_bind_ok _ _ _ _ _ Hadd).
    assert (ztake (idx + 1) a = ztake idx a ++ [NEWLINE]) as Hpiece.
    { rewrite Hsplit at 1. rewrite ztake_app_r by (rewrite zlen_ztake; lia). f_equal. rewrite zlen_ztake.
      by replace (idx + 1 - _) with 1 by lia. }
    assert (first_line (a ++ remaining (br_inner b1)) = ztake (idx + 1) a) as ->.
    { rewrite Hpiece. rewrite Hsplit at 1. rewrite <- app_assoc. by apply first_line_newline. }
    exists (mk_BufReader (zdrop (idx + 1) a) (br_inner b1)). split.
    + rewrite (stt_bind_ok _ _ _ tt (mk_BufReader (zdrop (idx + 1) a) (br_inner b1))) by done.
      unfold mret, stt_ret. do 3 f_equal. symmetry. apply bool_decide_eq_true_2. by rewrite Hpiece, last_snoc.
    + unfold stream. cbn [br_buffer br_inner].
      assert (zlen (ztake (idx + 1) a) = idx + 1) as -> by (rewrite zlen_ztake; lia).
      by rewrite zdrop_app_l by lia.
  - cbv zeta. pose proof (add_piece pre a (zlen a) b1 ltac:(lia)) as Hadd. cbv zeta in Hadd.
    rewrite (stt_bind_ok _ _ _ _ _ Hadd). rewrite (ztake_ge (zlen a)) by lia.
    rewrite (stt_bind_ok _ _ _ tt (mk_BufReader (zdrop (zlen a) a) (br_inner b1))) by done.
    rewrite first_line_no_newline by (by apply position_newline_None).
    destruct (IH (pre ++ a) (mk_BufReader (zdrop (zlen a) a) (br_inner b1))) as (b' & Hr & Hs').
    { unfold stream. cbn. rewrite zdrop_ge by lia. cbn. rewrite length_app in Hf. unfold zlen in Ha. lia. }
    unfold stream in Hr, Hs' at 2. cbn [br_buffer br_inner] in Hr, Hs'. rewrite (zdrop_ge (zlen a) a) in Hr, Hs' by lia. cbn [app] in Hr, Hs'.
    exists b'. rewrite (zdrop_ge (zlen a) a), Hr, <- !app_assoc by lia. split; [| rewrite Hs', zlen_app].
    + do 3 f_equal. apply bool_decide_ext. rewrite last_app. pose proof (position_newline_None _ Hp) as Hno.
      destruct (list.last (first_line (remaining (br_inner b1)))) as [x |] eqn:Hx; [done |].
      split; [done |]. intros Hl. exfalso. apply Hno. by apply last_Some_elem_of.
    + replace (zdrop (zlen a + zlen (first_line (remaining (br_inner b1)))) (a ++ remaining (br_inner b1)))
        with (zdrop (zlen (first_line (remaining (br_inner b1)))) (zdrop (zlen a) (a ++ remaining (br_inner b1)))); [by rewrite zdrop_app |].
      pose proof (zlen_nonneg (first_line (remaining (br_inner b1)))). rewrite zdrop_zdrop by lia. f_equal.
Qed.

Lemma first_line_inner s n : n < zlen (first_line s) → NEWLINE ∉ ztake n (first_line s).
Proof.
  revert n. induction s as [| b s IH]; intros n Hn; cbn [first_line] in *; [unfold ztake; rewrite take_nil; set_solver |].
  destruct (Z.eqb_spec b NEWLINE) as [-> | Hb]; rewrite zlen_cons in Hn.
  - rewrite (@zlen_nil Z) in Hn. rewrite ztake_le by lia. set_solver.
  - destruct (Z.leb_spec n 0); [rewrite ztake_le by lia; set_solver |]. unfold ztake.
    replace (Z.to_nat n) with (S (Z.to_nat (n - 1))) by lia. cbn [take]. specialize (IH (n - 1) ltac:(lia)). unfold ztake in IH. set_solver.
Qed.

Lemma read_line_capped_ok fuel b : (length (stream b) < fuel)%nat →
  ∃ b', read_line_capped fuel b =
    (Ok (if bool_decide (stream b = []) then None else Some (cap_line (first_line (stream b)))), b') ∧
    stream b' = zdrop (zlen (first_line (stream b))) (stream b).
Proof.
  intros Hf. destruct (read_line_loop_ok fuel [] b Hf) as (b' & Hr & Hs). exists b'. split; [| done].
  unfold read_line_capped. replace (ztake TAIL_MAX_LINE_LENGTH []) with (@nil Z) in Hr by done.
  replace (TAIL_MAX_LINE_LENGTH <? zlen []) with false in Hr by done.
  rewrite (stt_bind_ok _ _ _ _ _ Hr). cbn [app].
  unfold mret, stt_ret. do 2 f_equal. clear Hr Hs. pose proof (first_line_inner (stream b)) as Hin.
  destruct (decide (stream b = [])) as [-> | Hne]; [done |]. rewrite (bool_decide_eq_false_2 (stream b = [])) by done.
  pose proof (first_line_nonempty _ Hne) as Hpos. set (l := first_line (stream b)) in *. clearbody l.
  assert (0 < TAIL_MAX_LINE_LENGTH) as Hm by done. unfold cap_line. generalize TAIL_MAX_LINE_LENGTH as m, Hm. clear Hm. intros m Hm.
  rewrite bool_decide_eq_false_2.
  2:{ intros Hnil. assert (zlen (ztake m l) = 0) as Hz by (by rewrite Hnil). rewrite zlen_ztake in Hz. lia. }
  destruct (Z.leb_spec (zlen l) m).
  - rewrite (proj2 (Z.ltb_ge m (zlen l))) by lia. cbn [andb]. by rewrite ztake_ge by lia.
  - rewrite (proj2 (Z.ltb_lt m (zlen l))) by lia. cbn [andb]. rewrite (bool_decide_eq_false_2 (list.last (ztake m l) = _)).
    + cbn [negb]. rewrite andb_true_r. case_bool_decide; [done |]. by rewrite app_nil_r.
    + intros Hl. apply (Hin m); [done |]. by apply last_Some_elem_of.
Qed.

(** The deque holds the last [lines] of the lines so far. *)
Lemma last_n_push {A} n (l : list A) x : 0 < n →
  (if zlen (last_n n l) =? n then tail (last_n n l) else last_n n l) ++ [x] = last_n n (l ++ [x]).
Proof.
  intros Hn. unfold last_n. rewrite zlen_zdrop, zlen_app, zlen_cons, (@zlen_nil A).
  pose proof (zlen_nonneg l). destruct (Z.eqb_spec (zlen l - Z.min (Z.max (zlen l - n) 0) (zlen l)) n).
  - rewrite zdrop_app_l by lia. f_equal.
    replace (zlen l + (1 + 0) - n) with (zlen l - n + 1) by lia. rewrite <- zdrop_zdrop by lia. by destruct (zdrop (zlen l - n) l).
  - rewrite !zdrop_le by lia. done.
Qed.
Lemma tail_stream_loop_ok lines : 0 < lines → ∀ fuel done b, (length (stream b) < fuel)%nat →
  ∃ b', tail_stream_loop fuel lines (last_n lines done) b =
    (Ok (last_n lines (done ++ (cap_line <$> split_lines (stream b)))), b').
Proof.
  intros Hl fuel. induction fuel as [| fuel IH]; intros ls b Hf; [lia |]. cbn [tail_stream_loop].
  destruct (read_line_capped_ok (S fuel) b Hf) as (b1 & Hr & Hs). rewrite (stt_bind_ok _ _ _ _ _ Hr).
  case_bool_decide as Hb; [exists b1; rewrite Hb; cbn; by rewrite app_nil_r |].
  cbv zeta. rewrite last_n_push by done. pose proof (first_line_nonempty _ Hb) as Hp.
  destruct (IH (ls ++ [cap_line (first_line (stream b))]) b1) as (b2 & Hr2).
  { rewrite Hs. unfold zdrop. rewrite length_drop. destruct (stream b); [done |]. cbn [length] in *. lia. }
  exists b2. rewrite Hr2, (split_first_line _ Hb), Hs. cbn [fmap list_fmap]. by rewrite <- app_assoc.
Qed.

(** What [async_tail_stream] collects. *)
Lemma async_tail_stream_ok fuel lines r : 0 <= lines → (length (remaining r) < fuel)%nat →
  ∃ r', async_tail_stream fuel lines r = (Ok (concat (last_n lines (cap_line <$> split_lines (remaining r)))), r').
Proof.
  intros Hl Hf. unfold async_tail_stream. destruct (Z.eqb_spec lines 0) as [-> |].
  { exists r. unfold last_n. rewrite Z.sub_0_r. by rewrite zdrop_ge by lia. }
  destruct (tail_stream_loop_ok lines ltac:(lia) fuel [] (mk_BufReader [] r) Hf) as (b' & Hr).
  replace (last_n lines []) with (@nil bytes) in Hr by (unfold last_n, zdrop; by rewrite drop_nil).
  exists (br_inner b'). by rewrite Hr.
Qed.
End stream.

Lemma async_tail_ok data lines pos : 0 <= lines →
  ∃ p, async_tail lines (mk_IoCursor data pos) = (Ok tt, mk_IoCursor data p) ∧
    0 <= p ∧ zdrop p data = concat (last_n lines (split_lines data)).
Proof.
  intros Hl. unfold async_tail. destruct (Z.eqb_spec lines 0) as [-> |].
  { exists (zlen data). split; [done |]. split; [apply zlen_nonneg |]. unfold last_n. rewrite Z.sub_0_r.
    by rewrite !zdrop_ge by lia. }
  rewrite (stt_bind_ok _ _ _ (zlen data) (mk_IoCursor data (zlen data))) by done.
  destruct (Z.eqb_spec (zlen data) 0) as [H0 |].
  - apply zlen_0_nil in H0 as ->. exists 0. split; [done |]. split; [done |]. unfold last_n, zdrop. cbn [split_lines]. by rewrite !drop_nil.
  - destruct (tail_loop_ok data lines (S (Z.to_nat (zlen data))) (zlen data) 0 (mk_IoCursor data (zlen data)))
      as (p & Hr & Ha); [| lia | done | exists p; split; [done |]].
    + pose proof (zlen_nonneg data). split; [lia |]. split; [by rewrite zdrop_ge by lia | lia].
    + exact Ha.
Qed.

(** The last lines of a log are the same however they are taken: over a seekable file [async_tail] leaves
    the cursor exactly where the last [lines] lines start, and from the same bytes arriving as a stream, however
    the reads cut them, [async_tail_stream] collects those very lines, each cut after its first 10 KiB (and its
    newline kept); so the two agree when no line is longer. A final newline starts no line of its own. *)
Theorem tail_takes_last_lines data lines pos (R : Type) `{ReadLaws R} (r : R) fuel :
  0 <= lines → remaining r = data → (length data < fuel)%nat →
  ∃ p r' out, async_tail lines (mk_IoCursor data pos) = (Ok tt, mk_IoCursor data p) ∧
    zdrop p data = concat (last_n lines (split_lines data)) ∧
    async_tail_stream fuel lines r = (Ok out, r') ∧
    out = concat (last_n lines (cap_line <$> split_lines data)) ∧
    (Forall (λ l, zlen l <= TAIL_MAX_LINE_LENGTH) (split_lines data) → out = zdrop p data).
Proof.
  intros Hl <- Hf. destruct (async_tail_ok (remaining r) lines pos Hl) as (p & Hp & _ & Hd).
  destruct (async_tail_stream_ok fuel lines r Hl Hf) as (r' & Hr). eexists p, r', _. do 2 (split; [done |]).
  split; [exact Hr |]. split; [done |]. intros Hlen. rewrite Hd. do 2 f_equal.
  rewrite <- (list_fmap_id (split_lines (remaining r))) at 2. apply list_fmap_ext. intros i l Hi.
  unfold cap_line. rewrite (proj2 (Z.leb_le _ _)); [done |]. by eapply (Forall_lookup_1 _ _ _ _ Hlen).
Qed.

Lemma tail_takes_last_lines_witness : let data := [97; 10; 98; 99; 10; 100; 10] in
  ∃ p r' out, async_tail 2 (mk_IoCursor data 0) = (Ok tt, mk_IoCursor data p) ∧
    zdrop p data = concat (last_n 2 (split_lines data)) ∧
    async_tail_stream 8 2 (mk_IoCursor data 0) = (Ok out, r') ∧
    out = concat (last_n 2 (cap_line <$> split_lines data)) ∧
    (Forall (λ l, zlen l <= TAIL_MAX_LINE_LENGTH) (split_lines data) → out = zdrop p data).
Proof.
  apply (tail_takes_last_lines [97; 10; 98; 99; 10; 100; 10] 2 0 IoCursor (mk_IoCursor [97; 10; 98; 99; 10; 100; 10] 0) 8).
  - lia.
  - reflexivity.
  - cbn. lia.
Defined.

Example tail_two_lines : snd (async_tail 2 (mk_IoCursor [97; 10; 98; 99; 10; 100; 10] 0)) = mk_IoCursor [97; 10; 98; 99; 10; 100; 10] 2.
Proof. by vm_compute. Qed.
