(* ===== verification/Ranges.v ===== *)
(** * Ranges: byte ranges and the readers that serve them
    (application/src/server/filesystem/virtualfs/mod.rs, io/range_reader.rs, io/fixed_reader.rs, routes/download/file.rs)

    A download with a [Range] header: the header is parsed into a [ByteRange],
    the file is read through an [AsyncRangeReader], and the body goes through an
    [AsyncFixedReader] that makes it exactly as long as the announced length.
    The readers come in a blocking and a polled version; each is lawful over a
    lawful reader. *)
From Stdlib Require Import Ascii.
From stdpp Require Import pretty.
From S2P Require Import Prelude IoModel Paths PxarFormat PxarEncoder PxarTree PxarDecoder PxarRoundtrip AsyncIo.
Local Open Scope string_scope.
Local Open Scope Z_scope.

(** [std::ops::Bound<u64>] *)
Module Bound.
Inductive Bound : Type := Included (n : Z) | Excluded (n : Z) | Unbounded.
#[global] Instance Bound_eq_dec : EqDecision Bound.
Proof. solve_decision. Defined.
End Bound.

(** ** Strings *)

(** [str::split] on a character *)
Fixpoint split_on (c : Ascii.ascii) (s : string) : list string :=
  match s with
  | EmptyString => [EmptyString]
  | String a s =>
      if Ascii.eqb a c then EmptyString :: split_on c s
      else match split_on c s with
           | [] => [String a EmptyString]
           | w :: ws => String a w :: ws
           end
  end.

(** [str::strip_prefix] *)
Fixpoint strip_prefix_str (prefix s : string) : option string :=
  match prefix, s with
  | EmptyString, _ => Some s
  | String a prefix, String b s => if Ascii.eqb a b then strip_prefix_str prefix s else None
  | String _ _, EmptyString => None
  end.

Definition digit_of (a : Ascii.ascii) : option Z :=
  let n := Z.of_N (Ascii.N_of_ascii a) in if (48 <=? n) && (n <=? 57) then Some (n - 48) else None.

(** [u64::from_str]: decimal digits after an optional plus sign, no overflow. *)
Fixpoint parse_digits (acc : Z) (s : string) : option Z :=
  match s with
  | EmptyString => Some acc
  | String a s =>
      d ← digit_of a;
      if acc * 10 + d <? 2 ^ 64 then parse_digits (acc * 10 + d) s else None
  end.
Definition parse_u64 (s : string) : option Z :=
  match s with
  | EmptyString => None
  | String a rest =>
      if Ascii.eqb a "+"%char then (if bool_decide (rest = EmptyString) then None else parse_digits 0 rest)
      else parse_digits 0 s
  end.

(** ** [ByteRange] *)

Record ByteRange : Type := mk_ByteRange { br_start : Bound.Bound; br_end : Bound.Bound }.

Definition parse_bound (s : string) : option Bound.Bound :=
  if bool_decide (s = EmptyString) then Some Bound.Unbounded else Bound.Included <$> parse_u64 s.

(** The argument is the value of the [Range] header, when there is one that is
    visible ASCII. *)
Definition from_headers (range_header : option string) : option ByteRange :=
  range_str ← range_header;
  range_values ← strip_prefix_str "bytes=" range_str;
  match split_on "-"%char range_values with
  | [start_str; end_str] =>
      start ← parse_bound start_str;
      end_ ← parse_bound end_str;
      Some (mk_ByteRange start end_)
  | _ => None
  end.

Definition get_start (self : ByteRange) : option Z :=
  match br_start self with
  | Bound.Included s => Some s
  | Bound.Excluded s => Some (s +u 1)
  | Bound.Unbounded => None
  end.
Definition get_end (self : ByteRange) : option Z :=
  match br_end self with
  | Bound.Included e => Some e
  | Bound.Excluded e => Some (e -u 1)
  | Bound.Unbounded => None
  end.
Definition is_full (self : ByteRange) : bool :=
  bool_decide (br_start self = Bound.Unbounded) && bool_decide (br_end self = Bound.Unbounded).

Definition content_range (first last total : Z) : string :=
  "bytes " +:+ pretty first +:+ "-" +:+ pretty last +:+ "/" +:+ pretty total.
Definition get_header_value (self : ByteRange) (total : Z) : string :=
  match br_start self, br_end self with
  | Bound.Included s, Bound.Included e => content_range s e total
  | Bound.Included s, Bound.Excluded e => content_range s (e -u 1) total
  | Bound.Included s, Bound.Unbounded => content_range s (total -u 1) total
  | Bound.Excluded s, Bound.Included e => content_range (s +u 1) e total
  | Bound.Excluded s, Bound.Excluded e => content_range (s +u 1) (e -u 1) total
  | Bound.Excluded s, Bound.Unbounded => content_range (s +u 1) (total -u 1) total
  | Bound.Unbounded, Bound.Included e => content_range 0 e total
  | Bound.Unbounded, Bound.Excluded e => content_range 0 (e -u 1) total
  | Bound.Unbounded, Bound.Unbounded => content_range 0 (total -u 1) total
  end.

(** ** [resolve_range] *)

Definition invalid : io_error := InvalidInput "invalid range specified".

Definition resolve_range (range : ByteRange) (len : Z) : result io_error (Z * Z) :=
  match checked_sub len 1 with
  | None => Err invalid
  | Some last =>
      let start := match br_start range with
                   | Bound.Included start => Some start
                   | Bound.Excluded start => checked_add start 1
                   | Bound.Unbounded => Some 0
                   end in
      match start with
      | None => Err invalid
      | Some start =>
          let end_ := match br_end range with
                      | Bound.Included end_ => Some (Z.min end_ last)
                      | Bound.Excluded end_ => (λ e, Z.min e last) <$> checked_sub end_ 1
                      | Bound.Unbounded => Some last
                      end in
          match end_ with
          | None => Err invalid
          | Some end_ => if end_ <? start then Err invalid else Ok (start, end_)
          end
      end
  end.

(** ** The readers *)

(** [seek(SeekFrom::Start(pos))]; a lawful one leaves what follows [pos] to be
    read. *)
Class Seek (R : Type) : Type := seek : Z → stt R io_error Z.
Class SeekLaws (R : Type) `{ReadLaws R, Seek R} : Type := {
  file_bytes : R → bytes;
  seek_law : ∀ pos r, 0 <= pos → ∃ r', seek pos r = (Ok pos, r') ∧ remaining r' = zdrop pos (file_bytes r);
}.
Class AsyncSeekLaws (R : Type) `{AsyncReadLaws R, Seek R} : Type := {
  async_file_bytes : R → bytes;
  async_seek_law : ∀ pos r, 0 <= pos → ∃ r', seek pos r = (Ok pos, r') ∧
    async_remaining r' = zdrop pos (async_file_bytes r);
}.

(** [RangeReader] and [AsyncRangeReader] have the same fields. *)
Record RangeReader (R : Type) : Type := mk_RangeReader { rr_inner : R; rr_start : Z; rr_end : Z; rr_pos : Z }.
Arguments mk_RangeReader {R} _ _ _ _.
Arguments rr_inner {R} _.
Arguments rr_start {R} _.
Arguments rr_end {R} _.
Arguments rr_pos {R} _.

(** Both constructors; the seek of the polled one is awaited. *)
Definition RangeReader_new {R} `{Seek R} (inner : R) (range : ByteRange) (len : Z) : result io_error (RangeReader R) :=
  match resolve_range range len with
  | Err e => Err e
  | Ok (start, end_) =>
      match seek start inner with
      | (Ok _, inner) => Ok (mk_RangeReader inner start end_ start)
      | (Err e, _) => Err e
      end
  end.
Definition RangeReader_len {R} (self : RangeReader R) : Z := rr_end self - rr_start self + 1.

(** None of the differences and sums below leaves [u64]: [range_ok_u64]. *)
Definition RangeReader_read {R} `{Read R} (n : Z) : stt (RangeReader R) io_error bytes := λ self,
  if rr_end self <? rr_pos self then (Ok [], self) else
  let remaining := rr_end self - rr_pos self + 1 in
  let to_read := Z.min remaining n in
  match read to_read (rr_inner self) with
  | (Ok d, inner) => (Ok d, mk_RangeReader inner (rr_start self) (rr_end self) (rr_pos self + zlen d))
  | (Err e, inner) => (Err e, mk_RangeReader inner (rr_start self) (rr_end self) (rr_pos self))
  end.

Definition AsyncRangeReader_poll_read {R} `{AsyncRead R} (n : Z) (self : RangeReader R) :
    Poll.Poll (result io_error bytes) * RangeReader R :=
  if rr_end self <? rr_pos self then (Poll.Ready (Ok []), self) else
  let remaining := rr_end self - rr_pos self + 1 in
  let to_read := Z.min remaining n in
  if to_read =? 0 then (Poll.Ready (Ok []), self) else
  match poll_read to_read (rr_inner self) with
  | (Poll.Pending, inner) => (Poll.Pending, mk_RangeReader inner (rr_start self) (rr_end self) (rr_pos self))
  | (Poll.Ready (Err e), inner) => (Poll.Ready (Err e), mk_RangeReader inner (rr_start self) (rr_end self) (rr_pos self))
  | (Poll.Ready (Ok d), inner) =>
      (Poll.Ready (Ok d), mk_RangeReader inner (rr_start self) (rr_end self) (rr_pos self + zlen d))
  end.

Record FixedReader (R : Type) : Type := mk_FixedReader { fr_inner : R; fr_size : Z; fr_bytes_read : Z }.
Arguments mk_FixedReader {R} _ _ _.
Arguments fr_inner {R} _.
Arguments fr_size {R} _.
Arguments fr_bytes_read {R} _.
Definition new_with_fixed_bytes {R} (inner : R) (size : Z) : FixedReader R := mk_FixedReader inner size 0.

Definition zeros (n : Z) : bytes := replicate (Z.to_nat n) 0.

Definition FixedReader_read {R} `{Read R} (n : Z) : stt (FixedReader R) io_error bytes := λ self,
  if fr_size self <=? fr_bytes_read self then (Ok [], self) else
  let remaining := fr_size self - fr_bytes_read self in
  let to_read := Z.min n remaining in
  match read to_read (fr_inner self) with
  | (Err e, inner) => (Err e, mk_FixedReader inner (fr_size self) (fr_bytes_read self))
  | (Ok d, inner) =>
      if zlen d =? 0 then (Ok (zeros to_read), mk_FixedReader inner (fr_size self) (fr_bytes_read self + to_read))
      else (Ok d, mk_FixedReader inner (fr_size self) (fr_bytes_read self + zlen d))
  end.

Definition AsyncFixedReader_poll_read {R} `{AsyncRead R} (n : Z) (self : FixedReader R) :
    Poll.Poll (result io_error bytes) * FixedReader R :=
  if fr_size self <=? fr_bytes_read self then (Poll.Ready (Ok []), self) else
  let remaining := fr_size self - fr_bytes_read self in
  let to_read := Z.min n remaining in
  if to_read =? 0 then (Poll.Ready (Ok []), self) else
  match poll_read to_read (fr_inner self) with
  | (Poll.Ready (Ok d), inner) =>
      if zlen d =? 0 then (Poll.Ready (Ok (zeros to_read)), mk_FixedReader inner (fr_size self) (fr_bytes_read self + to_read))
      else (Poll.Ready (Ok d), mk_FixedReader inner (fr_size self) (fr_bytes_read self + zlen d))
  | (Poll.Ready (Err e), inner) => (Poll.Ready (Err e), mk_FixedReader inner (fr_size self) (fr_bytes_read self))
  | (Poll.Pending, inner) => (Poll.Pending, mk_FixedReader inner (fr_size self) (fr_bytes_read self))
  end.

#[export] Instance RangeReader_is_read {R} `{Read R} : Read (RangeReader R) := RangeReader_read.
#[export] Instance AsyncRangeReader_is_read {R} `{AsyncRead R} : AsyncRead (RangeReader R) := AsyncRangeReader_poll_read.
#[export] Instance FixedReader_is_read {R} `{Read R} : Read (FixedReader R) := FixedReader_read.
#[export] Instance AsyncFixedReader_is_read {R} `{AsyncRead R} : AsyncRead (FixedReader R) := AsyncFixedReader_poll_read.

(** ** [FileRead], [AsyncFileRead] *)

(** [reader] is a range reader, or the file. *)
Inductive file_reader (R : Type) : Type := Ranged (r : RangeReader R) | Whole (r : R).
Arguments Ranged {R} _.
Arguments Whole {R} _.
#[export] Instance file_reader_read {R} `{Read R} : Read (file_reader R) := λ n r,
  match r with
  | Ranged r => let '(res, r) := read n r in (res, Ranged r)
  | Whole r => let '(res, r) := read n r in (res, Whole r)
  end.
#[export] Instance file_reader_poll_read {R} `{AsyncRead R} : AsyncRead (file_reader R) := λ n r,
  match r with
  | Ranged r => let '(res, r) := poll_read n r in (res, Ranged r)
  | Whole r => let '(res, r) := poll_read n r in (res, Whole r)
  end.

Record FileRead (R : Type) : Type := mk_FileRead {
  frd_size : Z;
  frd_total_size : Z;
  frd_reader_range : option ByteRange;
  frd_reader : file_reader R;
}.
Arguments mk_FileRead {R} _ _ _ _.
Arguments frd_size {R} _.
Arguments frd_total_size {R} _.
Arguments frd_reader_range {R} _.
Arguments frd_reader {R} _.

(** [from_file], blocking or awaited; [len] is what the file's metadata says. *)
Definition from_file {R} `{Seek R} (len : Z) (file : R) (reader_range : option ByteRange) : result io_error (FileRead R) :=
  match reader_range with
  | Some range =>
      match RangeReader_new file range len with
      | Err e => Err e
      | Ok reader => Ok (mk_FileRead (RangeReader_len reader) len (Some range) (Ranged reader))
      end
  | None => Ok (mk_FileRead len len None (Whole file))
  end.

(** [AsyncFileRead::headers] *)
Definition headers {R} (self : FileRead R) : list (string * string) :=
  ("content-length", pretty (frd_size self)) ::
  match frd_reader_range self with
  | Some reader_range =>
      [("accept-ranges", "bytes"); ("content-range", get_header_value reader_range (frd_total_size self))]
  | None => []
  end.

(** The answer of the download route for a file it found: status, headers,
    body; [None] is the error answer, with status 404. *)
Definition download {R} `{Seek R} (range_header : option string) (len : Z) (file : R) :
    option (Z * list (string * string) * FixedReader (file_reader R)) :=
  match from_file len file (from_headers range_header) with
  | Err _ => None
  | Ok file_read =>
      let reader := new_with_fixed_bytes (frd_reader file_read) (frd_size file_read) in
      Some (match frd_reader_range file_read with Some _ => 206 | None => 200 end, headers file_read, reader)
  end.

(** ** Lawfulness *)

Local Close Scope string_scope.

Lemma zdrop_zdrop_max {A} m n (l : list A) : 0 <= m → zdrop (Z.max 0 n + m) l = zdrop m (zdrop n l).
Proof.
  intros Hm. destruct (Z.leb_spec 0 n); [rewrite zdrop_zdrop by lia; f_equal; lia |].
  rewrite (zdrop_le n) by lia. f_equal. lia.
Qed.

(** What a piece of the inner stream is of the ranged one. *)
Lemma range_piece (rem : bytes) m n k : 0 < m → 0 <= k <= Z.min (Z.min m n) (zlen rem) →
  ztake k rem = ztake k (ztake m rem) ∧ ztake (m - k) (zdrop k rem) = zdrop k (ztake m rem) ∧
  0 <= k <= Z.min n (zlen (ztake m rem)) ∧ (ztake m rem ≠ [] → rem ≠ []).
Proof.
  intros Hm Hk. rewrite ztake_ztake, zlen_ztake. split; [f_equal; lia |]. split; [| split; [lia |]].
  - unfold zdrop, ztake, zlen in *. rewrite skipn_firstn_comm. f_equal. lia.
  - intros Hne ->. apply Hne. unfold ztake. by rewrite take_nil.
Qed.

Lemma zlen_zeros n : 0 <= n → zlen (zeros n) = n.
Proof. intros Hn. unfold zeros, zlen. rewrite length_replicate. lia. Qed.
Lemma zeros_add a b : 0 <= a → 0 <= b → zeros (a + b) = zeros a ++ zeros b.
Proof. intros Ha Hb. unfold zeros. rewrite <- replicate_add. f_equal. lia. Qed.

(** The stream a fixed reader gives: as much of the inner one, then zeros. *)
Definition padded (m : Z) (rem : bytes) : bytes := ztake m (rem ++ zeros m).

Lemma padded_le m rem : m <= 0 → padded m rem = [].
Proof. intros Hm. unfold padded. by rewrite ztake_le by lia. Qed.
Lemma zlen_padded m rem : 0 <= m → zlen (padded m rem) = m.
Proof. intros Hm. unfold padded. rewrite zlen_ztake, zlen_app, zlen_zeros by lia. pose proof (zlen_nonneg rem). lia. Qed.

Lemma padded_piece m n k rem : 0 < m → 0 <= k <= Z.min (Z.min n m) (zlen rem) →
  ztake k rem = ztake k (padded m rem) ∧ padded (m - k) (zdrop k rem) = zdrop k (padded m rem) ∧
  0 <= k <= Z.min n (zlen (padded m rem)).
Proof.
  intros Hm Hk. rewrite zlen_padded by lia. unfold padded. rewrite ztake_ztake. split; [| split; [| lia]].
  - replace (Z.min k m) with k by lia. by rewrite ztake_app_l by lia.
  - replace m with ((m - k) + k) at 4 by lia. rewrite zeros_add, app_assoc by lia.
    assert (∀ l : bytes, zdrop k (ztake m l) = ztake (m - k) (zdrop k l)) as Hc.
    { intros l. unfold zdrop, ztake. rewrite skipn_firstn_comm. f_equal. lia. }
    rewrite Hc, <- app_assoc, zdrop_app_l by lia. rewrite app_assoc. symmetry. rewrite ztake_app_l; [done |].
    rewrite zlen_app, zlen_zdrop, zlen_zeros by lia. lia.
Qed.

(** At the end of the inner stream. *)
Lemma padded_zeros m n : 0 < m → 0 <= n →
  zeros (Z.min n m) = ztake (Z.min n m) (padded m []) ∧
  padded (m - Z.min n m) [] = zdrop (Z.min n m) (padded m []).
Proof.
  intros Hm Hn. set (k := Z.min n m). assert (padded m [] = zeros k ++ zeros (m - k)) as ->.
  { unfold padded. cbn [app]. rewrite ztake_ge by (rewrite zlen_zeros; lia). rewrite <- zeros_add by lia. f_equal. lia. }
  assert (zlen (zeros k) = k) as Hl by (apply zlen_zeros; lia). split.
  - rewrite <- Hl at 2. by rewrite ztake_app.
  - rewrite <- Hl at 2. rewrite zdrop_app. unfold padded. cbn [app]. by rewrite ztake_ge by (rewrite zlen_zeros; lia).
Qed.

Section laws.
Context {R : Type} {HR : Read R} {HRL : ReadLaws R}.

#[export, refine] Instance RangeReader_laws : ReadLaws (RangeReader R) := {
  remaining := λ self, ztake (rr_end self - rr_pos self + 1) (remaining (rr_inner self))
}.
Proof.
  intros n [inner start end_ pos] Hn. cbn [rr_inner rr_end rr_pos].
  unfold read, RangeReader_is_read, RangeReader_read. cbn [rr_inner rr_end rr_pos rr_start].
  destruct (Z.ltb_spec end_ pos).
  - exists 0, (mk_RangeReader inner start end_ pos). cbn. rewrite !ztake_le, zdrop_le, (@zlen_nil Z) by lia. split; [done |].
    split; [done |]. split; [lia | done].
  - destruct (read_law (Z.min (end_ - pos + 1) n) inner) as (k & r' & -> & Hr & Hk & Hpos); [lia |].
    assert (zlen (ztake k (remaining inner)) = k) as -> by (rewrite zlen_ztake; lia).
    destruct (range_piece (remaining inner) (end_ - pos + 1) n k ltac:(lia) Hk) as (H1 & H2 & H3 & H4).
    exists k, (mk_RangeReader r' start end_ (pos + k)). cbn. rewrite <- H1, <- H2, Hr.
    split; [done |]. split; [f_equal; lia |]. split; [done |]. intros Hn' Hne. apply Hpos; [lia | auto].
Defined.

#[export, refine] Instance FixedReader_laws : ReadLaws (FixedReader R) := {
  remaining := λ self, padded (fr_size self - fr_bytes_read self) (remaining (fr_inner self))
}.
Proof.
  intros n [inner size bytes_read] Hn. cbn [fr_inner fr_size fr_bytes_read].
  unfold read, FixedReader_is_read, FixedReader_read. cbn [fr_inner fr_size fr_bytes_read].
  destruct (Z.leb_spec size bytes_read).
  - exists 0, (mk_FixedReader inner size bytes_read). cbn. rewrite !padded_le by lia. split; [done |]. split; [done |].
    rewrite (@zlen_nil Z). split; [lia | done].
  - destruct (read_law (Z.min n (size - bytes_read)) inner) as (k & r' & -> & Hr & Hk & Hpos); [lia |].
    assert (zlen (ztake k (remaining inner)) = k) as -> by (rewrite zlen_ztake; lia).
    destruct (Z.eqb_spec k 0) as [-> |].
    + assert (remaining inner = [] ∨ n = 0) as Hend.
      { destruct (decide (remaining inner = [])) as [| Hne]; [by left | right].
        destruct (Z.eqb_spec n 0); [done |]. specialize (Hpos ltac:(lia) Hne). lia. }
      exists (Z.min n (size - bytes_read)), (mk_FixedReader r' size (bytes_read + Z.min n (size - bytes_read))). cbn.
      rewrite Hr, zlen_padded, zdrop_le by lia. destruct Hend as [-> | ->].
      * destruct (padded_zeros (size - bytes_read) n ltac:(lia) Hn) as [H1 H2]. rewrite <- H1, <- H2.
        split; [done |]. split; [f_equal; lia |]. split; [lia | intros; lia].
      * rewrite Z.min_l, ztake_le, zdrop_le, Z.add_0_r by lia. split; [done |]. split; [done |]. split; [lia | intros; lia].
    + destruct (padded_piece (size - bytes_read) n k (remaining inner) ltac:(lia) Hk) as (H1 & H2 & H3).
      exists k, (mk_FixedReader r' size (bytes_read + k)). cbn. rewrite <- H1, <- H2, Hr.
      split; [done |]. split; [f_equal; lia |]. split; [done | intros; lia].
Defined.
End laws.

Section async_laws.
Context {R : Type} {HR : AsyncRead R} {HRL : AsyncReadLaws R}.

#[export, refine] Instance AsyncRangeReader_laws : AsyncReadLaws (RangeReader R) := {
  async_remaining := λ self, ztake (rr_end self - rr_pos self + 1) (async_remaining (rr_inner self));
  wakeups := λ self, wakeups (rr_inner self);
}.
Proof.
  intros n [inner start end_ pos] Hn. unfold poll_read, AsyncRangeReader_is_read, AsyncRangeReader_poll_read.
  cbn [rr_inner rr_end rr_pos rr_start]. destruct (Z.ltb_spec end_ pos).
  { exists 0. cbn. rewrite !ztake_le, zdrop_le, (@zlen_nil Z) by lia. split; [done |]. split; [done |]. split; [lia | done]. }
  destruct (Z.eqb_spec (Z.min (end_ - pos + 1) n) 0).
  { exists 0. cbn. rewrite ztake_le, zdrop_le by lia. split; [done |]. split; [done |]. zlen_pos. split; [lia | intros; lia]. }
  pose proof (poll_read_law (Z.min (end_ - pos + 1) n) inner ltac:(lia)) as Hp.
  destruct (poll_read (Z.min (end_ - pos + 1) n) inner) as [[res |] r']; [| cbn; destruct Hp as [-> Hw]; done].
  destruct Hp as (k & -> & Hr & Hk & Hpos). assert (zlen (ztake k (async_remaining inner)) = k) as -> by (rewrite zlen_ztake; lia).
  destruct (range_piece (async_remaining inner) (end_ - pos + 1) n k ltac:(lia) Hk) as (H1 & H2 & H3 & H4).
  exists k. cbn. rewrite <- H1, <- H2, Hr. split; [done |]. split; [f_equal; lia |]. split; [done |].
  intros Hn' Hne. apply Hpos; [lia | auto].
Defined.

#[export, refine] Instance AsyncFixedReader_laws : AsyncReadLaws (FixedReader R) := {
  async_remaining := λ self, padded (fr_size self - fr_bytes_read self) (async_remaining (fr_inner self));
  wakeups := λ self, wakeups (fr_inner self);
}.
Proof.
  intros n [inner size bytes_read] Hn. unfold poll_read, AsyncFixedReader_is_read, AsyncFixedReader_poll_read.
  cbn [fr_inner fr_size fr_bytes_read]. destruct (Z.leb_spec size bytes_read).
  { exists 0. cbn. rewrite !padded_le by lia. split; [done |]. split; [done |]. rewrite (@zlen_nil Z). split; [lia | done]. }
  destruct (Z.eqb_spec (Z.min n (size - bytes_read)) 0).
  { exists 0. cbn. rewrite ztake_le, zdrop_le by lia. split; [done |]. split; [done |]. zlen_pos. split; [lia | intros; lia]. }
  pose proof (poll_read_law (Z.min n (size - bytes_read)) inner ltac:(lia)) as Hp.
  destruct (poll_read (Z.min n (size - bytes_read)) inner) as [[res |] r']; [| cbn; destruct Hp as [-> Hw]; done].
  destruct Hp as (k & -> & Hr & Hk & Hpos). assert (zlen (ztake k (async_remaining inner)) = k) as -> by (rewrite zlen_ztake; lia).
  destruct (Z.eqb_spec k 0) as [-> |].
  - assert (async_remaining inner = []) as Hend by (destruct (decide (async_remaining inner = [])) as [| Hne]; [done | specialize (Hpos ltac:(lia) Hne); lia]).
    exists (Z.min n (size - bytes_read)). cbn. rewrite Hr, zdrop_le, Hend, zlen_padded by lia.
    destruct (padded_zeros (size - bytes_read) n ltac:(lia) Hn) as [H1 H2]. rewrite <- H1, <- H2.
    split; [done |]. split; [f_equal; lia |]. split; [lia | intros; lia].
  - destruct (padded_piece (size - bytes_read) n k (async_remaining inner) ltac:(lia) Hk) as (H1 & H2 & H3).
    exists k. cbn. rewrite <- H1, <- H2, Hr. split; [done |]. split; [f_equal; lia |]. split; [done | intros; lia].
Defined.

#[export, refine] Instance file_reader_async_laws : AsyncReadLaws (file_reader R) := {
  async_remaining := λ self, match self with Ranged r => async_remaining r | Whole r => async_remaining r end;
  wakeups := λ self, match self with Ranged r => wakeups r | Whole r => wakeups r end;
}.
Proof.
  intros n [r | r] Hn; pose proof (poll_read_law n r Hn) as Hp; unfold poll_read, file_reader_poll_read; destruct (poll_read n r) as [[res |] r'];
    cbn in Hp |- *; done.
Defined.
End async_laws.

#[export, refine] Instance file_reader_laws {R} `{ReadLaws R} : ReadLaws (file_reader R) := {
  remaining := λ self, match self with Ranged r => remaining r | Whole r => remaining r end
}.
Proof.
  intros n [r | r] Hn; destruct (read_law n r Hn) as (k & r' & Hr & Hrem & Hk); unfold read, file_reader_read; rewrite Hr;
    [exists k, (Ranged r') | exists k, (Whole r')]; done.
Defined.

(** ** Ranges *)

Definition bound_ok (b : Bound.Bound) : Prop :=
  match b with Bound.Included n | Bound.Excluded n => in_u64 n | Bound.Unbounded => True end.
Definition range_ok (r : ByteRange) : Prop := bound_ok (br_start r) ∧ bound_ok (br_end r).

(** The bytes of a file of [len] bytes that a range asks for, as mathematical numbers: from, and up to. *)
Definition first_asked (r : ByteRange) : Z :=
  match br_start r with Bound.Included n => n | Bound.Excluded n => n + 1 | Bound.Unbounded => 0 end.
Definition last_asked (r : ByteRange) (len : Z) : Z :=
  match br_end r with Bound.Included n => n | Bound.Excluded n => n - 1 | Bound.Unbounded => len - 1 end.

Lemma resolve_range_spec r len : range_ok r → in_u64 len →
  resolve_range r len =
    let last := Z.min (last_asked r len) (len - 1) in
    if first_asked r <=? last then Ok (first_asked r, last) else Err invalid.
Proof.
  unfold resolve_range, range_ok, first_asked, last_asked, checked_sub, checked_add. intros [Hs He] Hl. cbv zeta.
  destruct r as [s e]. cbn [br_start br_end] in *. unfold in_u64 in *.
  destruct (Z.leb_spec 1 len); cycle 1.
  { rewrite (proj2 (Z.leb_gt _ _)); [done |]. destruct s, e; cbn in *; unfold in_u64 in *; lia. }
  destruct s as [s | s |], e as [e | e |]; cbn in *; unfold in_u64 in *; repeat case_match; cbn in *; simplify_eq;
    repeat match goal with
    | H : (_ <=? _) = true |- _ => apply Z.leb_le in H
    | H : (_ <=? _) = false |- _ => apply Z.leb_gt in H
    | H : (_ <? _) = true |- _ => apply Z.ltb_lt in H
    | H : (_ <? _) = false |- _ => apply Z.ltb_ge in H
    end; try lia; try done; repeat f_equal; lia.
Qed.

(** ** Decimal numbers *)

Fixpoint all_digits (s : string) : bool :=
  match s with
  | EmptyString => true
  | String a s => match digit_of a with Some _ => all_digits s | None => false end
  end.

Lemma digit_of_char x : (x < 10)%N → digit_of (pretty_N_char x) = Some (Z.of_N x).
Proof.
  intros Hx. assert (x = 0 ∨ x = 1 ∨ x = 2 ∨ x = 3 ∨ x = 4 ∨ x = 5 ∨ x = 6 ∨ x = 7 ∨ x = 8 ∨ x = 9)%N as Hc by lia.
  repeat destruct Hc as [-> | Hc]; try done. by subst x.
Qed.

Lemma parse_pretty_go x : ∀ s, Z.of_N x < 2 ^ 64 →
  parse_digits 0 (pretty_N_go x s) = parse_digits (Z.of_N x) s ∧ all_digits (pretty_N_go x s) = all_digits s ∧
  (String.length s <= String.length (pretty_N_go x s))%nat.
Proof.
  induction (N.lt_wf_0 x) as [x _ IH]; intros s Hx.
  assert (x = 0 ∨ 0 < x)%N as [-> | Hp] by lia; [by rewrite pretty_N_go_0 |].
  rewrite pretty_N_go_step by done. pose proof (N.mod_lt x 10 ltac:(lia)) as Hm. pose proof (N.div_mod' x 10) as Hd.
  destruct (IH (x / 10)%N (N.div_lt x 10 Hp ltac:(lia)) (String (pretty_N_char (x mod 10)) s)) as (H1 & H2 & H3).
  { assert (x / 10 <= x)%N by (apply N.Div0.div_le_upper_bound; lia). lia. }
  rewrite H1, H2. cbn [parse_digits all_digits String.length] in *. rewrite digit_of_char by done. cbn [mbind option_bind].
  replace (Z.of_N (x / 10) * 10 + Z.of_N (x mod 10)) with (Z.of_N x) by lia.
  rewrite (proj2 (Z.ltb_lt _ _)) by done. split; [done |]. split; [done | lia].
Qed.

Lemma parse_u64_digits s : all_digits s = true → s ≠ EmptyString → parse_u64 s = parse_digits 0 s.
Proof.
  intros Hd Hs. destruct s as [| a s]; [done |]. cbn [parse_u64]. destruct (Ascii.eqb_spec a "+"%char) as [-> |]; [| done].
  done.
Qed.

Lemma pretty_u64 n : in_u64 n → parse_u64 (pretty n) = Some n ∧ all_digits (pretty n) = true ∧ pretty n ≠ EmptyString.
Proof.
  intros [Hn Hb]. destruct n as [| p | p]; [done | | lia]. change (pretty (Z.pos p)) with (pretty (N.pos p)).
  unfold pretty, pretty_N. rewrite decide_False by done.
  destruct (parse_pretty_go (N.pos p) "" ltac:(cbn; lia)) as (H1 & H2 & _). cbn in H1, H2.
  assert (pretty_N_go (N.pos p) "" ≠ "") as Hne.
  { rewrite pretty_N_go_step by done. destruct (parse_pretty_go (N.pos p / 10) (String (pretty_N_char (N.pos p mod 10)) "")) as (_ & _ & H3).
    - assert (N.pos p / 10 <= N.pos p)%N by (apply N.Div0.div_le_upper_bound; lia). lia.
    - intros He. rewrite He in H3. cbn in H3. lia. }
  split; [| done]. by rewrite parse_u64_digits.
Qed.

Lemma split_on_digits s t : all_digits s = true →
  split_on "-"%char (s +:+ String "-"%char t) = s :: split_on "-"%char t ∧ split_on "-"%char s = [s].
Proof.
  induction s as [| a s IH]; intros Hd; [done |]. cbn [all_digits] in Hd.
  destruct (digit_of a) eqn:Ha; [| done]. destruct (IH Hd) as [H1 H2].
  assert (Ascii.eqb a "-"%char = false) as Hne by (destruct (Ascii.eqb_spec a "-"%char) as [-> |]; done).
  change (String a s +:+ String "-"%char t) with (String a (s +:+ String "-"%char t)).
  cbn [split_on]. rewrite Hne, H1, H2. done.
Qed.

(** A range as clients write it. *)
Definition print_bound (n : option Z) : string := match n with Some n => pretty n | None => EmptyString end.
Definition print_range (first last : option Z) : string := ("bytes=" +:+ print_bound first +:+ "-" +:+ print_bound last)%string.
Definition to_bound (n : option Z) : Bound.Bound := match n with Some n => Bound.Included n | None => Bound.Unbounded end.

Lemma print_bound_ok n : from_option in_u64 True n →
  parse_bound (print_bound n) = Some (to_bound n) ∧ all_digits (print_bound n) = true.
Proof.
  destruct n as [n |]; cbn; [| done]. intros Hn. destruct (pretty_u64 n Hn) as (H1 & H2 & H3).
  unfold parse_bound. rewrite bool_decide_eq_false_2 by done. by rewrite H1.
Qed.

Lemma from_headers_print first last : from_option in_u64 True first → from_option in_u64 True last →
  from_headers (Some (print_range first last)) = Some (mk_ByteRange (to_bound first) (to_bound last)).
Proof.
  intros Hf Hl. destruct (print_bound_ok first Hf) as [F1 F2]. destruct (print_bound_ok last Hl) as [L1 L2].
  unfold from_headers, print_range. cbn [mbind option_bind].
  change (strip_prefix_str "bytes=" _) with (Some (print_bound first +:+ String "-"%char (print_bound last))).
  cbn [mbind option_bind]. destruct (split_on_digits (print_bound first) (print_bound last) F2) as [-> _].
  destruct (split_on_digits (print_bound last) "" L2) as [_ ->]. rewrite F1, L1. done.
Qed.

(** The positions of a range reader: none of its sums and differences leaves
    [u64]. *)
Definition range_reader_ok {R} (self : RangeReader R) : Prop :=
  0 <= rr_start self <= rr_end self ∧ rr_start self <= rr_pos self <= rr_end self + 1 ∧ rr_end self + 1 < 2 ^ 64.

Lemma range_ok_u64 {R} (self : RangeReader R) : range_reader_ok self →
  in_u64 (RangeReader_len self) ∧ in_u64 (rr_end self + 1) ∧ in_u64 (rr_end self - rr_pos self + 1).
Proof. unfold range_reader_ok, RangeReader_len, in_u64. lia. Qed.

Lemma RangeReader_new_ok {R} `{Seek R} (inner : R) r len reader : range_ok r → in_u64 len →
  RangeReader_new inner r len = Ok reader → range_reader_ok reader.
Proof.
  intros Hr Hl. unfold RangeReader_new. rewrite resolve_range_spec by done. cbv zeta.
  destruct (Z.leb_spec (first_asked r) (Z.min (last_asked r len) (len - 1))); [| done].
  destruct (seek _ inner) as [[p | e] r']; [| done]. intros [= <-]. unfold range_reader_ok. cbn.
  assert (0 <= first_asked r); [| unfold in_u64 in Hl; lia].
  destruct Hr as [Hb _]. unfold first_asked. destruct (br_start r); unfold bound_ok, in_u64 in Hb; lia.
Qed.

Lemma RangeReader_read_ok {R} `{ReadLaws R} n (self : RangeReader R) : 0 <= n → range_reader_ok self →
  range_reader_ok (snd (read n self)).
Proof.
  destruct self as [inner start end_ pos]. unfold range_reader_ok, read, RangeReader_is_read, RangeReader_read. cbn. intros Hn Hok.
  destruct (Z.ltb_spec end_ pos); [done |].
  destruct (read_law (Z.min (end_ - pos + 1) n) inner) as (k & r' & -> & _ & Hk & _); [lia |]. cbn. rewrite zlen_ztake. lia.
Qed.

(** ** Properties *)

Section download.
Context {R : Type} {HR : AsyncRead R} {HRL : AsyncReadLaws R} {HS : Seek R} {HSL : AsyncSeekLaws R}.

(** What awaiting the body gives. *)
Definition body (fuel : nat) (size : Z) (reader : FixedReader (file_reader R)) : result io_error bytes :=
  fst (read_to_end (H := awaited) fuel size [] reader).

Lemma body_ok fuel size reader : 0 < size → (length (async_remaining reader) < fuel)%nat →
  body fuel size reader = Ok (async_remaining reader).
Proof.
  intros Hs Hf. destruct (read_to_end_ok (ReadLaws0 := awaited_laws) fuel size [] reader Hs Hf) as (r' & Hr & _).
  unfold body. by rewrite Hr.
Qed.

Lemma download_ranged h r len (file : R) : from_headers h = Some r → range_ok r → in_u64 len →
  let first := first_asked r in
  let last := Z.min (last_asked r len) (len - 1) in
  if first <=? last then ∃ reader,
    download h len file = Some (206, [("content-length", pretty (last - first + 1)); ("accept-ranges", "bytes");
      ("content-range", get_header_value r len)]%string, reader) ∧
    async_remaining reader = padded (last - first + 1) (ztake (last - first + 1) (zdrop first (async_file_bytes file)))
  else download h len file = None.
Proof.
  intros Hh Hr Hl. cbv zeta. unfold download, from_file, RangeReader_new. rewrite Hh, resolve_range_spec by done. cbv zeta.
  destruct (Z.leb_spec (first_asked r) (Z.min (last_asked r len) (len - 1))); [| done].
  assert (0 <= first_asked r) as Hf.
  { destruct Hr as [Hb _]. unfold first_asked. destruct (br_start r); unfold bound_ok, in_u64 in Hb; lia. }
  destruct (async_seek_law (first_asked r) file Hf) as (file' & -> & Hrem). eexists. split; [reflexivity |].
  cbn. rewrite Z.sub_0_r, Hrem. unfold RangeReader_len. cbn. done.
Qed.
End download.

Lemma padded_ztake m l : padded m (ztake m l) = padded m l.
Proof.
  unfold padded. destruct (Z.leb_spec m 0); [by rewrite !ztake_le by lia |].
  destruct (Z.leb_spec m (zlen l)).
  - rewrite !ztake_app_l by (rewrite ?zlen_ztake; lia). rewrite ztake_ztake. f_equal. lia.
  - by rewrite (ztake_ge m l) by lia.
Qed.

Lemma padded_enough m l : m <= zlen l → padded m l = ztake m l.
Proof. intros Hm. unfold padded. by rewrite ztake_app_l by lia. Qed.

(** C23. A download with a range header.  Asked for the bytes [first] to [last]
    of a file of [len] bytes, as a client writes it ([bytes=first-last]; without
    [last] up to the end, and without [first] from byte 0, although such a range
    means a suffix, see [suffix_range_is_a_prefix]), the answer is partial content with exactly as many
    bytes as its Content-Length announces, starting at [first] and cut at the
    end of the file, whatever the sizes of the reads and however often the file
    is not ready; bytes that the file has lost since its size was taken are
    zeros.  The Content-Range is that of the body when the requested end is
    inside the file.  A range that has no bytes of the file gives an error. *)
Theorem ranged_download {R} {HR : AsyncRead R} {HRL : AsyncReadLaws R} {HS : Seek R} {HSL : AsyncSeekLaws R}
    (file : R) (len : Z) (first last : option Z) (fuel : nat) (size : Z)
    (Hlen : in_u64 len) (Hfirst : from_option in_u64 True first) (Hlast : from_option in_u64 True last)
    (Hsize : 0 < size) (Hfuel : len < Z.of_nat fuel) :
  let from := default 0 first in
  let to := Z.min (default (len - 1) last) (len - 1) in
  let answer := download (Some (print_range first last)) len file in
  if from <=? to then ∃ headers reader,
    answer = Some (206, headers, reader) ∧
    body fuel size reader = Ok (padded (to - from + 1) (zdrop from (async_file_bytes file))) ∧
    zlen (padded (to - from + 1) (zdrop from (async_file_bytes file))) = to - from + 1 ∧
    ("content-length"%string, pretty (to - from + 1)) ∈ headers ∧
    (zlen (async_file_bytes file) = len →
      padded (to - from + 1) (zdrop from (async_file_bytes file)) = ztake (to - from + 1) (zdrop from (async_file_bytes file))) ∧
    (default (len - 1) last < len → ("content-range"%string, content_range from to len) ∈ headers)
  else answer = None.
Proof.
  cbv zeta. pose proof (download_ranged _ _ len file (from_headers_print first last Hfirst Hlast)) as Hd.
  set (r := mk_ByteRange (to_bound first) (to_bound last)) in *.
  assert (first_asked r = default 0 first) as Hf by by destruct first.
  assert (last_asked r len = default (len - 1) last) as Ht by by destruct last.
  assert (0 <= default 0 first) as H0 by (destruct first; cbn in *; unfold in_u64 in *; lia).
  assert (range_ok r) as Hr by (destruct first, last; done). specialize (Hd Hr Hlen). cbv zeta in Hd. rewrite Hf, Ht in Hd.
  destruct (Z.leb_spec (default 0 first) (Z.min (default (len - 1) last) (len - 1))); [| done].
  destruct Hd as (reader & Hdl & Hb). rewrite padded_ztake in Hb. eexists _, reader. split; [exact Hdl |].
  split; [rewrite <- Hb; apply body_ok; [done |] |].
  { rewrite Hb. assert (zlen (padded (Z.min (default (len - 1) last) (len - 1) - default 0 first + 1)
      (zdrop (default 0 first) (async_file_bytes file))) < Z.of_nat fuel); [rewrite zlen_padded; lia | unfold zlen in *; lia]. }
  split; [apply zlen_padded; lia |]. split; [set_solver |]. split.
  - intros Hall. apply padded_enough. rewrite zlen_zdrop. lia.
  - intros Hin. assert (get_header_value r len =
      content_range (default 0 first) (Z.min (default (len - 1) last) (len - 1)) len) as <-; [| set_solver].
    rewrite Z.min_l by lia. subst r. destruct Hlen.
    destruct first, last; cbn in *; rewrite ?u64_sub_small by (unfold in_u64; lia); done.
Qed.

(** A file that reads at most two bytes at a time and is not ready every other time. *)
Record SlowFile : Type := mk_SlowFile { sf_bytes : bytes; sf_at : Z; sf_waits : nat }.
#[export] Instance SlowFile_read : AsyncRead SlowFile := λ n f,
  match sf_waits f with
  | S w => (Poll.Pending, mk_SlowFile (sf_bytes f) (sf_at f) w)
  | O =>
      let d := ztake (Z.min n 2) (zdrop (sf_at f) (sf_bytes f)) in
      (Poll.Ready (Ok d), mk_SlowFile (sf_bytes f) (Z.max 0 (sf_at f) + zlen d) 1)
  end.
#[export] Instance SlowFile_seek : Seek SlowFile := λ pos f, (Ok pos, mk_SlowFile (sf_bytes f) pos (sf_waits f)).

#[export, refine] Instance SlowFile_laws : AsyncReadLaws SlowFile := {
  async_remaining f := zdrop (sf_at f) (sf_bytes f); wakeups := sf_waits
}.
Proof.
  intros n [data at_ [| w]] Hn; unfold poll_read, SlowFile_read; cbn; [| split; [done | lia]].
  set (d := ztake (Z.min n 2) (zdrop at_ data)). pose proof (zlen_nonneg (zdrop at_ data)).
  exists (zlen d). unfold d. rewrite ztake_zlen_ztake. split; [done |]. split; [| split].
  - by apply zdrop_zdrop_max, zlen_nonneg.
  - rewrite zlen_ztake. lia.
  - intros Hn' Hne. rewrite zlen_ztake. destruct (zdrop at_ data) as [| b l]; [done |].
    rewrite zlen_cons in *. pose proof (zlen_nonneg l). lia.
Defined.
#[export, refine] Instance SlowFile_seek_laws : AsyncSeekLaws SlowFile := { async_file_bytes := sf_bytes }.
Proof. intros pos f Hpos. by eexists. Defined.

Definition sample_file : SlowFile := mk_SlowFile [10; 20; 30; 40; 50; 60] 0 1.

Lemma ranged_download_witness :
  ∃ headers reader,
    download (Some (print_range (Some 1) (Some 4))) 6 sample_file = Some (206, headers, reader) ∧
    body 7 3 reader = Ok [20; 30; 40; 50] ∧ ("content-range"%string, "bytes 1-4/6"%string) ∈ headers.
Proof.
  destruct (ranged_download sample_file 6 (Some 1) (Some 4) 7 3) as (headers & reader & H1 & H2 & _ & _ & _ & H6);
    [unfold in_u64; cbn; lia.. |]. exists headers, reader. split; [exact H1 |]. split; [exact H2 |].
  apply H6. cbn. lia.
Defined.

(** The announced range is the requested one, also beyond the end of the file: six bytes are served as two hundred. *)
Example content_range_overstates :
  (λ '(_, headers, reader), (headers, body 7 3 reader)) <$> download (Some "bytes=0-199"%string) 6 sample_file =
  Some ([("content-length", "6"); ("accept-ranges", "bytes"); ("content-range", "bytes 0-199/6")]%string,
        Ok [10; 20; 30; 40; 50; 60]).
Proof. vm_compute. reflexivity. Qed.

(** A suffix range, the last two bytes, is answered with the first three. *)
Example suffix_range_is_a_prefix :
  (λ '(_, headers, reader), (headers, body 7 3 reader)) <$> download (Some "bytes=-2"%string) 6 sample_file =
  Some ([("content-length", "3"); ("accept-ranges", "bytes"); ("content-range", "bytes 0-2/6")]%string,
        Ok [10; 20; 30]).
Proof. vm_compute. reflexivity. Qed.
