(* ===== verification/Throttle.v ===== *)
(** * Throttle: readers and writers with a byte rate (application/src/io/limited_reader.rs, limited_writer.rs)

    Transfers and backups are slowed down to a configured number of bytes per
    second: the bytes of a window of one second are counted, and once they are
    used up the call sleeps until the window is over.  Instants are numbers of
    nanoseconds; what a call reads from the clock is its argument. *)
From S2P Require Import Prelude IoModel AsyncIo.
Local Open Scope Z_scope.

Definition WINDOW : Z := 1000000000.

(** [Instant::duration_since] and [Duration::saturating_sub] *)
Definition duration_since (a b : Z) : Z := Z.max 0 (a - b).
Definition window_sleep (now window_start : Z) : Z := Z.max 0 (WINDOW - duration_since now window_start).

(** ** [LimitedReader] *)

Record LimitedReader (R : Type) : Type := mk_LimitedReader {
  lr_inner : R;
  lr_bytes_per_second : Z;
  lr_window_start : Z;
  lr_bytes_read_in_window : Z;
}.
Arguments mk_LimitedReader {R} _ _ _ _.
Arguments lr_inner {R} _.
Arguments lr_bytes_per_second {R} _.
Arguments lr_window_start {R} _.
Arguments lr_bytes_read_in_window {R} _.

Definition LimitedReader_new {R} (now : Z) (inner : R) (bytes_per_second : Z) : LimitedReader R :=
  mk_LimitedReader inner bytes_per_second now 0.

(** The window a call finds itself in and what is left of it: [now] is the
    instant the call reads first; a sleep lasts at least as long as it was
    asked to, [late] longer. *)
Definition window_budget (now late bytes_per_second window_start used : Z) : Z * Z * Z :=
  let '(window_start, used) := if WINDOW <=? duration_since now window_start then (now, 0) else (window_start, used) in
  let budget := bytes_per_second - used in
  if budget =? 0 then (now + window_sleep now window_start + late, 0, bytes_per_second) else (window_start, used, budget).

Definition LimitedReader_read {R} `{Read R} (now late : Z) (n : Z) : stt (LimitedReader R) io_error bytes := λ self,
  if n =? 0 then (Ok [], self) else
  let bps := lr_bytes_per_second self in
  if bps =? 0 then
    let '(res, inner) := read n (lr_inner self) in
    (res, mk_LimitedReader inner bps (lr_window_start self) (lr_bytes_read_in_window self))
  else
    let '(window_start, used, budget) := window_budget now late bps (lr_window_start self) (lr_bytes_read_in_window self) in
    let to_read := Z.min n budget in
    match read to_read (lr_inner self) with
    | (Err e, inner) => (Err e, mk_LimitedReader inner bps window_start used)
    | (Ok d, inner) => (Ok d, mk_LimitedReader inner bps window_start (used + zlen d))
    end.

(** ** [LimitedWriter] *)

(** [std::io::Write::write]: how many of the bytes were taken. *)
Class WriteSome (W : Type) : Type := write : bytes → stt W io_error Z.

Record LimitedWriter (W : Type) : Type := mk_LimitedWriter {
  lw_inner : W;
  lw_bytes_per_second : Z;
  lw_window_start : Z;
  lw_bytes_written_in_window : Z;
}.
Arguments mk_LimitedWriter {W} _ _ _ _.
Arguments lw_inner {W} _.
Arguments lw_bytes_per_second {W} _.
Arguments lw_window_start {W} _.
Arguments lw_bytes_written_in_window {W} _.

Definition LimitedWriter_new {W} (now : Z) (inner : W) (bytes_per_second : Z) : LimitedWriter W :=
  mk_LimitedWriter inner bytes_per_second now 0.

Definition LimitedWriter_write {W} `{WriteSome W} (now late : Z) (buf : bytes) : stt (LimitedWriter W) io_error Z := λ self,
  if bool_decide (buf = []) then (Ok 0, self) else
  let bps := lw_bytes_per_second self in
  if bps =? 0 then
    let '(res, inner) := write buf (lw_inner self) in
    (res, mk_LimitedWriter inner bps (lw_window_start self) (lw_bytes_written_in_window self))
  else
    let '(window_start, used, budget) := window_budget now late bps (lw_window_start self) (lw_bytes_written_in_window self) in
    let to_write := Z.min (zlen buf) budget in
    match write (ztake to_write buf) (lw_inner self) with
    | (Err e, inner) => (Err e, mk_LimitedWriter inner bps window_start used)
    | (Ok n, inner) => (Ok n, mk_LimitedWriter inner bps window_start (used + n))
    end.

(** ** [AsyncLimitedReader] *)

(** [alr_delay_future] is the instant the stored sleep ends. *)
Record AsyncLimitedReader (R : Type) : Type := mk_AsyncLimitedReader {
  alr_inner : R;
  alr_bytes_per_second : Z;
  alr_window_start : Z;
  alr_bytes_read_in_window : Z;
  alr_delay_future : option Z;
}.
Arguments mk_AsyncLimitedReader {R} _ _ _ _ _.
Arguments alr_inner {R} _.
Arguments alr_bytes_per_second {R} _.
Arguments alr_window_start {R} _.
Arguments alr_bytes_read_in_window {R} _.
Arguments alr_delay_future {R} _.

Definition AsyncLimitedReader_new {R} (now : Z) (inner : R) (bytes_per_second : Z) : AsyncLimitedReader R :=
  mk_AsyncLimitedReader inner bytes_per_second now 0 None.

(** The instants of one poll, in order: the stored sleep is polled, the window
    restarts after it, [now], the new sleep is polled, the window restarts
    after it. *)
Record Instants : Type := mk_Instants { i_polled : Z; i_restart : Z; i_now : Z; i_polled' : Z; i_restart' : Z }.

(** The window after the stored sleep, unless it goes on. *)
Definition after_delay (i : Instants) (delay_future : option Z) (window_start used : Z) : option (Z * Z) :=
  match delay_future with
  | Some deadline => if deadline <=? i_polled i then Some (i_restart i, 0) else None
  | None => Some (window_start, used)
  end.

(** The window, and the end of the sleep that has to be waited for. *)
Definition poll_budget (i : Instants) (bps window_start used : Z) : Z * Z * option Z :=
  let now := i_now i in
  let '(window_start, used) := if WINDOW <=? duration_since now window_start then (now, 0) else (window_start, used) in
  if bps - used =? 0 then
    let delay := now + window_sleep now window_start in
    if delay <=? i_polled' i then (i_restart' i, 0, None) else (window_start, used, Some delay)
  else (window_start, used, None).

Definition AsyncLimitedReader_poll_read {R} `{AsyncRead R} (i : Instants) (n : Z) (self : AsyncLimitedReader R) :
    Poll.Poll (result io_error bytes) * AsyncLimitedReader R :=
  if n =? 0 then (Poll.Ready (Ok []), self) else
  let bps := alr_bytes_per_second self in
  if bps =? 0 then
    let '(res, inner) := poll_read n (alr_inner self) in
    (res, mk_AsyncLimitedReader inner bps (alr_window_start self) (alr_bytes_read_in_window self) (alr_delay_future self))
  else
  match after_delay i (alr_delay_future self) (alr_window_start self) (alr_bytes_read_in_window self) with
  | None => (Poll.Pending, self)
  | Some (window_start, used) =>
      match poll_budget i bps window_start used with
      | (window_start, used, Some delay) =>
          (Poll.Pending, mk_AsyncLimitedReader (alr_inner self) bps window_start used (Some delay))
      | (window_start, used, None) =>
          let budget := bps - used in
          let to_read := Z.min n budget in
          match poll_read to_read (alr_inner self) with
          | (Poll.Ready (Ok d), inner) => (Poll.Ready (Ok d), mk_AsyncLimitedReader inner bps window_start (used + zlen d) None)
          | (other, inner) => (other, mk_AsyncLimitedReader inner bps window_start used None)
          end
      end
  end.

(** ** Runs

    Any number of calls, each some time after the one before. *)

(** [gap] since the last call, [late] as above, [n] the size of the buffer. *)
Record CallAt : Type := mk_CallAt { ca_gap : Z; ca_late : Z; ca_n : Z }.
Definition call_ok (c : CallAt) : Prop := 0 <= ca_gap c ∧ 0 <= ca_late c ∧ 0 <= ca_n c.

(** What the calls delivered, and the instant the last one ended. *)
Fixpoint read_run {R} `{Read R} (calls : list CallAt) (time : Z) (self : LimitedReader R) : bytes * Z :=
  match calls with
  | [] => ([], time)
  | c :: calls =>
      let now := time + ca_gap c in
      let '(res, self) := LimitedReader_read now (ca_late c) (ca_n c) self in
      let '(out, time) := read_run calls (Z.max now (lr_window_start self)) self in
      (match res with Ok d => d | Err _ => [] end ++ out, time)
  end.

(** Writes of the given buffers: how many bytes were taken. *)
Fixpoint write_run {W} `{WriteSome W} (calls : list (CallAt * bytes)) (time : Z) (self : LimitedWriter W) : Z * Z :=
  match calls with
  | [] => (0, time)
  | (c, buf) :: calls =>
      let now := time + ca_gap c in
      let '(res, self) := LimitedWriter_write now (ca_late c) buf self in
      let '(taken, time) := write_run calls (Z.max now (lw_window_start self)) self in
      (match res with Ok n => n | Err _ => 0 end + taken, time)
  end.

Fixpoint poll_run {R} `{AsyncRead R} (polls : list (Instants * Z)) (time : Z) (self : AsyncLimitedReader R) : bytes * Z :=
  match polls with
  | [] => ([], time)
  | (i, n) :: polls =>
      let '(res, self) := AsyncLimitedReader_poll_read i n self in
      let '(out, time) := poll_run polls (i_restart' i) self in
      (match res with Poll.Ready (Ok d) => d | _ => [] end ++ out, time)
  end.
(** The clock is monotonic. *)
Fixpoint polls_ok (polls : list (Instants * Z)) (time : Z) : Prop :=
  match polls with
  | [] => True
  | (i, n) :: polls =>
      0 <= n ∧ time <= i_polled i <= i_restart i ∧ i_restart i <= i_now i <= i_polled' i ∧ i_polled' i <= i_restart' i ∧
      polls_ok polls (i_restart' i)
  end.

(** ** The invariant

    All but the bytes of the current window were delivered in whole windows
    since [t0]. *)
Definition within (bps t0 total window_start used time : Z) : Prop :=
  0 <= used <= bps ∧ t0 <= window_start <= time ∧ (total - used) * WINDOW <= bps * (window_start - t0).

Lemma within_restart bps t0 total ws used time ws' : within bps t0 total ws used time →
  ws + WINDOW <= ws' → within bps t0 total ws' 0 ws'.
Proof. unfold within, WINDOW. intros (Hu & Ht & Ho) Hw. split; [lia |]. split; [lia | nia]. Qed.

Lemma within_add bps t0 total ws used time n time' : within bps t0 total ws used time → 0 <= n <= bps - used → time <= time' →
  within bps t0 (total + n) ws (used + n) time'.
Proof. unfold within. intros (Hu & Ht & Ho) Hn Htt. split; [lia |]. split; [lia |]. by replace (total + n - (used + n)) with (total - used) by lia. Qed.

Lemma within_rate bps t0 total ws used time : 0 < bps → within bps t0 total ws used time →
  total * WINDOW <= bps * (time - t0 + WINDOW).
Proof. unfold within, WINDOW. intros Hb (Hu & Ht & Ho). nia. Qed.

Lemma window_budget_within bps t0 total ws used time now late : 0 < bps → within bps t0 total ws used time → time <= now → 0 <= late →
  let '(ws', used', budget) := window_budget now late bps ws used in
  within bps t0 total ws' used' (Z.max now ws') ∧ 0 < budget ∧ budget = bps - used'.
Proof.
  intros Hb Hw Hn Hl. unfold window_budget.
  assert (∀ ws used, within bps t0 total ws used now → let '(ws', used', budget) :=
    (if bps - used =? 0 then (now + window_sleep now ws + late, 0, bps) else (ws, used, bps - used)) in
    within bps t0 total ws' used' (Z.max now ws') ∧ 0 < budget ∧ budget = bps - used') as Hrest.
  { clear -Hb Hl. intros ws used Hw. destruct (Z.eqb_spec (bps - used) 0).
    - split; [| lia]. assert (ws + WINDOW <= now + window_sleep now ws + late) as H by (unfold within in Hw; unfold window_sleep, duration_since; lia).
      rewrite Z.max_r by (unfold window_sleep; lia).
      by eapply within_restart.
    - split; [| unfold within in Hw; lia]. unfold within in *. lia. }
  destruct (Z.leb_spec WINDOW (duration_since now ws)).
  - apply Hrest. eapply within_restart; [done |]. unfold duration_since, WINDOW in *. lia.
  - apply Hrest. unfold within in *. lia.
Qed.

Lemma read_run_within {R} `{ReadLaws R} bps t0 : 0 < bps → ∀ calls time inner ws used total, Forall call_ok calls →
  within bps t0 total ws used time →
  let '(out, time') := read_run calls time (mk_LimitedReader inner bps ws used) in
  (total + zlen out) * WINDOW <= bps * (time' - t0 + WINDOW) ∧ out = ztake (zlen out) (remaining inner).
Proof.
  intros Hb calls. induction calls as [| [gap late n] calls IH]; intros time inner ws used total Hc Hw; cbn [read_run].
  { rewrite (@zlen_nil Z), Z.add_0_r. split; [by eapply within_rate | by rewrite ztake_le]. }
  apply Forall_cons_iff in Hc as [(Hgap & Hlate & Hn) Hc]. cbn [ca_gap ca_late ca_n] in *.
  unfold LimitedReader_read. cbn [lr_bytes_per_second lr_inner lr_window_start lr_bytes_read_in_window].
  destruct (Z.eqb_spec n 0).
  { cbn [lr_window_start]. specialize (IH (Z.max (time + gap) ws) inner ws used total Hc).
    destruct (read_run calls _ _) as [out time']. apply IH. unfold within in *. lia. }
  rewrite (proj2 (Z.eqb_neq bps 0)) by lia.
  pose proof (window_budget_within bps t0 total ws used time (time + gap) late Hb Hw ltac:(lia) Hlate) as Hwb.
  destruct (window_budget _ _ _ _ _) as [[ws' used'] budget]. destruct Hwb as (Hw' & Hpos & ->).
  destruct (read_law (Z.min n (bps - used')) inner ltac:(lia)) as (k & r' & -> & Hr & Hk & _).
  assert (zlen (ztake k (remaining inner)) = k) as -> by (rewrite zlen_ztake; lia). cbn [lr_window_start].
  specialize (IH (Z.max (time + gap) ws') r' ws' (used' + k) (total + k) Hc).
  destruct (read_run calls _ _) as [out time']. destruct IH as [H1 H2]; [apply (within_add _ _ _ _ _ _ _ _ Hw'); lia |].
  rewrite zlen_app, zlen_ztake. replace (Z.min (Z.max k 0) (zlen (remaining inner))) with k by lia.
  split; [by rewrite Z.add_assoc |]. rewrite ztake_add by (pose proof (zlen_nonneg out); lia). by rewrite <- Hr, <- H2.
Qed.

(** A writer takes some of the bytes it is given, or fails. *)
Definition takes_some (W : Type) `{WriteSome W} : Prop :=
  ∀ buf w, match write buf w with (Ok n, _) => 0 <= n <= zlen buf | (Err _, _) => True end.

Lemma write_run_within {W} `{WriteSome W} bps t0 : 0 < bps → takes_some W → ∀ calls time inner ws used total,
  Forall (λ c, call_ok (fst c)) calls → within bps t0 total ws used time →
  let '(taken, time') := write_run calls time (mk_LimitedWriter inner bps ws used) in
  (total + taken) * WINDOW <= bps * (time' - t0 + WINDOW).
Proof.
  intros Hb Hwr calls. induction calls as [| [[gap late n] buf] calls IH]; intros time inner ws used total Hc Hw; cbn [write_run].
  { rewrite Z.add_0_r. by eapply within_rate. }
  apply Forall_cons_iff in Hc as [(Hgap & Hlate & _) Hc]. cbn [ca_gap ca_late fst] in *.
  unfold LimitedWriter_write. cbn [lw_bytes_per_second lw_inner lw_window_start lw_bytes_written_in_window].
  case_bool_decide.
  { cbn [lw_window_start]. specialize (IH (Z.max (time + gap) ws) inner ws used total Hc).
    destruct (write_run calls _ _) as [out time']. apply IH. unfold within in *. lia. }
  rewrite (proj2 (Z.eqb_neq bps 0)) by lia.
  pose proof (window_budget_within bps t0 total ws used time (time + gap) late Hb Hw ltac:(lia) Hlate) as Hwb.
  destruct (window_budget _ _ _ _ _) as [[ws' used'] budget]. destruct Hwb as (Hw' & Hpos & ->).
  pose proof (Hwr (ztake (Z.min (zlen buf) (bps - used')) buf) inner) as Hn. rewrite zlen_ztake in Hn.
  destruct (write _ inner) as [[k | e] w']; cbn [lw_window_start].
  - specialize (IH (Z.max (time + gap) ws') w' ws' (used' + k) (total + k) Hc).
    destruct (write_run calls _ _) as [out time']. rewrite Z.add_assoc. apply IH, (within_add _ _ _ _ _ _ _ _ Hw'); lia.
  - specialize (IH (Z.max (time + gap) ws') w' ws' used' total Hc).
    destruct (write_run calls _ _) as [out time']. by apply IH.
Qed.

(** A stored sleep ends after its window. *)
Definition delay_ok (ws : Z) (delay : option Z) : Prop := match delay with Some deadline => ws + WINDOW <= deadline | None => True end.

Lemma within_later bps t0 total ws used time time' : within bps t0 total ws used time → time <= time' → within bps t0 total ws used time'.
Proof. unfold within. lia. Qed.

Lemma after_delay_within i bps t0 total ws used time delay ws' used' : within bps t0 total ws used time → delay_ok ws delay →
  time <= i_polled i <= i_restart i → after_delay i delay ws used = Some (ws', used') →
  within bps t0 total ws' used' (i_restart i).
Proof.
  intros Hw Hd Hi. unfold after_delay. destruct delay as [deadline |]; [| intros [= <- <-]; eapply within_later; [done | lia]].
  destruct (Z.leb_spec deadline (i_polled i)); [| done]. intros [= <- <-]. cbn in Hd.
  eapply within_restart; [done | lia].
Qed.

Lemma poll_budget_within i bps t0 total ws used : 0 < bps → within bps t0 total ws used (i_restart i) →
  i_restart i <= i_now i <= i_polled' i → i_polled' i <= i_restart' i →
  let '(ws', used', delay) := poll_budget i bps ws used in
  within bps t0 total ws' used' (i_restart' i) ∧ delay_ok ws' delay ∧ (delay = None → used' < bps).
Proof.
  intros Hb Hw Hi Hi'. unfold poll_budget.
  assert (∀ ws used, within bps t0 total ws used (i_now i) → let '(ws', used', delay) :=
    (if bps - used =? 0 then
       if i_now i + window_sleep (i_now i) ws <=? i_polled' i then (i_restart' i, 0, None)
       else (ws, used, Some (i_now i + window_sleep (i_now i) ws))
     else (ws, used, None)) in
    within bps t0 total ws' used' (i_restart' i) ∧ delay_ok ws' delay ∧ (delay = None → used' < bps)) as Hrest.
  { clear Hw ws used. intros ws used Hw.
    destruct (Z.eqb_spec (bps - used) 0); [| split; [eapply within_later; [done | lia] | unfold within in Hw; cbn; lia]].
    assert (ws + WINDOW <= i_now i + window_sleep (i_now i) ws) as Hs by (unfold within in Hw; unfold window_sleep, duration_since; lia).
    destruct (Z.leb_spec (i_now i + window_sleep (i_now i) ws) (i_polled' i)).
    - split; [eapply within_restart; [done | lia] | done].
    - split; [eapply within_later; [done | lia] | done]. }
  destruct (Z.leb_spec WINDOW (duration_since (i_now i) ws)); apply Hrest.
  - eapply within_restart; [done |]. unfold duration_since, WINDOW in *. lia.
  - eapply within_later; [done | lia].
Qed.

(** One poll. *)
Lemma poll_within {R} `{AsyncReadLaws R} bps t0 total inner ws used delay time i n :
  0 < bps → within bps t0 total ws used time → delay_ok ws delay → 0 <= n →
  time <= i_polled i <= i_restart i → i_restart i <= i_now i <= i_polled' i → i_polled' i <= i_restart' i →
  let '(res, self) := AsyncLimitedReader_poll_read i n (mk_AsyncLimitedReader inner bps ws used delay) in
  let d := match res with Poll.Ready (Ok d) => d | _ => [] end in
  ∃ inner' ws' used' delay', self = mk_AsyncLimitedReader inner' bps ws' used' delay' ∧
    within bps t0 (total + zlen d) ws' used' (i_restart' i) ∧ delay_ok ws' delay' ∧
    d = ztake (zlen d) (async_remaining inner) ∧ async_remaining inner' = zdrop (zlen d) (async_remaining inner).
Proof.
  intros Hb Hw Hd Hn H1 H2 H3. unfold AsyncLimitedReader_poll_read.
  cbn [alr_bytes_per_second alr_window_start alr_bytes_read_in_window alr_delay_future alr_inner].
  assert (∀ inner' ws' used' delay', within bps t0 total ws' used' (i_restart' i) → delay_ok ws' delay' →
    async_remaining inner' = async_remaining inner → let d := @nil Z in
    ∃ inner0 ws0 used0 delay0, mk_AsyncLimitedReader inner' bps ws' used' delay' = mk_AsyncLimitedReader inner0 bps ws0 used0 delay0 ∧
    within bps t0 (total + zlen d) ws0 used0 (i_restart' i) ∧ delay_ok ws0 delay0 ∧
    d = ztake (zlen d) (async_remaining inner) ∧ async_remaining inner0 = zdrop (zlen d) (async_remaining inner)) as Hnone.
  { intros inner' ws' used' delay' Hw' Hd' Hr. cbv zeta. exists inner', ws', used', delay'.
    rewrite (@zlen_nil Z), Z.add_0_r, ztake_le, zdrop_le by lia. done. }
  destruct (Z.eqb_spec n 0); [apply Hnone; [eapply within_later; [done | lia] | done..] |].
  rewrite (proj2 (Z.eqb_neq bps 0)) by lia.
  destruct (after_delay i delay ws used) as [[ws1 used1] |] eqn:Ha; [| apply Hnone; [eapply within_later; [done | lia] | done..]].
  pose proof (poll_budget_within i bps t0 total ws1 used1 Hb (after_delay_within _ _ _ _ _ _ _ _ _ _ Hw Hd H1 Ha) H2 H3) as Hp.
  destruct (poll_budget i bps ws1 used1) as [[ws2 used2] [delay' |]]; destruct Hp as (Hw2 & Hd2 & Hlt); [by apply Hnone |].
  specialize (Hlt eq_refl). pose proof (poll_read_law (Z.min n (bps - used2)) inner ltac:(lia)) as Hr.
  destruct (poll_read _ inner) as [[[d | e] |] inner'].
  - destruct Hr as (k & [= ->] & Hr & Hk & _). assert (zlen (ztake k (async_remaining inner)) = k) as Hl by (rewrite zlen_ztake; lia).
    cbv zeta. rewrite Hl. exists inner', ws2, (used2 + k), None. split; [done |].
    split; [apply (within_add _ _ _ _ _ _ _ _ Hw2); lia |]. done.
  - destruct Hr as (k & [=] & _).
  - apply Hnone; [done | done |]. by destruct Hr.
Qed.

Lemma poll_run_within {R} `{AsyncReadLaws R} bps t0 : 0 < bps → ∀ polls time inner ws used delay total, polls_ok polls time →
  within bps t0 total ws used time → delay_ok ws delay →
  let '(out, time') := poll_run polls time (mk_AsyncLimitedReader inner bps ws used delay) in
  (total + zlen out) * WINDOW <= bps * (time' - t0 + WINDOW) ∧ out = ztake (zlen out) (async_remaining inner).
Proof.
  intros Hb polls. induction polls as [| [i n] polls IH]; intros time inner ws used delay total Hp Hw Hd; cbn [poll_run].
  { rewrite (@zlen_nil Z), Z.add_0_r. split; [by eapply within_rate | by rewrite ztake_le]. }
  destruct Hp as (Hn & H1 & H2 & H3 & Hp).
  pose proof (poll_within bps t0 total inner ws used delay time i n Hb Hw Hd Hn H1 H2 H3) as Hs.
  destruct (AsyncLimitedReader_poll_read i n _) as [res self]. cbv zeta in Hs.
  destruct Hs as (inner' & ws' & used' & delay' & -> & Hw' & Hd' & Ho & Hr).
  set (d := match res with Poll.Ready (Ok d) => d | _ => [] end) in *. clearbody d.
  specialize (IH (i_restart' i) inner' ws' used' delay' (total + zlen d) Hp Hw' Hd').
  destruct (poll_run polls _ _) as [out time']. destruct IH as [R1 R2]. rewrite zlen_app.
  split; [by rewrite Z.add_assoc |]. rewrite ztake_add by apply zlen_nonneg. by rewrite <- Ho, <- Hr, <- R2.
Qed.

Lemma within_new bps t0 : 0 < bps → within bps t0 0 t0 0 t0.
Proof. unfold within. lia. Qed.

(** A writer that takes everything. *)
#[export] Instance vec_write_some : WriteSome bytes := λ buf w, (Ok (zlen buf), w ++ buf).

(** Two hundred bytes asked for at once, at a hundred bytes per second: the
    second hundred comes a second later. *)
Definition sample_calls : list CallAt := [mk_CallAt 0 0 200; mk_CallAt 5 7 200].
Definition sample_source : IoCursor := mk_IoCursor (replicate 300 1) 0.
Example sample_rate :
  read_run sample_calls 0 (LimitedReader_new 0 sample_source 100) = (replicate 200 1, WINDOW + 7).
Proof. vm_compute. reflexivity. Qed.
Definition sample_polls : list (Instants * Z) :=
  [(mk_Instants 0 0 0 0 0, 8); (mk_Instants 1 1 1 1 1, 8); (mk_Instants 2 2 2 2 2, 8)].

(** ** Properties *)

(** The rate is kept.  Through a limited reader, a polled one, or a limited
    writer, however the calls are spaced, however large their buffers and
    however late the sleeps end, no more bytes pass until any instant than the
    rate allows for the time since the start and one second more; and what is
    read is what the inner reader gives, in order and without loss. *)
Theorem throttle_rate {R} `{ReadLaws R} {A} `{AsyncReadLaws A} {W} `{WriteSome W} (bps t0 : Z)
    (reader : R) (calls : list CallAt) (polled : A) (polls : list (Instants * Z))
    (writer : W) (writes : list (CallAt * bytes))
    (Hbps : 0 < bps) (Hcalls : Forall call_ok calls) (Hpolls : polls_ok polls t0)
    (Hwrites : Forall (λ c, call_ok (fst c)) writes) (Hwriter : takes_some W) :
  (let '(out, time) := read_run calls t0 (LimitedReader_new t0 reader bps) in
   zlen out * WINDOW <= bps * (time - t0 + WINDOW) ∧ out = ztake (zlen out) (remaining reader)) ∧
  (let '(out, time) := poll_run polls t0 (AsyncLimitedReader_new t0 polled bps) in
   zlen out * WINDOW <= bps * (time - t0 + WINDOW) ∧ out = ztake (zlen out) (async_remaining polled)) ∧
  (let '(taken, time) := write_run writes t0 (LimitedWriter_new t0 writer bps) in
   taken * WINDOW <= bps * (time - t0 + WINDOW)).
Proof.
  pose proof (within_new bps t0 Hbps) as Hw. split; [| split].
  - exact (read_run_within bps t0 Hbps calls t0 reader t0 0 0 Hcalls Hw).
  - exact (poll_run_within bps t0 Hbps polls t0 polled t0 0 None 0 Hpolls Hw I).
  - exact (write_run_within bps t0 Hbps Hwriter writes t0 writer t0 0 0 Hwrites Hw).
Qed.


Lemma throttle_rate_witness :
  (let '(out, time) := read_run sample_calls 0 (LimitedReader_new 0 sample_source 100) in
   zlen out * WINDOW <= 100 * (time - 0 + WINDOW) ∧ out = ztake (zlen out) (remaining sample_source)) ∧
  (let '(out, time) := poll_run sample_polls 0 (AsyncLimitedReader_new 0 (mk_SlowPipe [1; 2; 3; 4] 1 true) 100) in
   zlen out * WINDOW <= 100 * (time - 0 + WINDOW) ∧
   out = ztake (zlen out) (async_remaining (mk_SlowPipe [1; 2; 3; 4] 1 true))) ∧
  (let '(taken, time) := write_run [(mk_CallAt 0 0 0, [1; 2; 3])] 0 (LimitedWriter_new 0 (@nil Z) 100) in
   taken * WINDOW <= 100 * (time - 0 + WINDOW)).
Proof.
  apply (throttle_rate 100 0 sample_source sample_calls (mk_SlowPipe [1; 2; 3; 4] 1 true) sample_polls (@nil Z)
    [(mk_CallAt 0 0 0, [1; 2; 3])]).
  - lia.
  - repeat constructor; cbn; lia.
  - cbn. lia.
  - repeat constructor; cbn; lia.
  - intros buf w. cbn. pose proof (zlen_nonneg buf). lia.
Defined.
