(* ===== verification/Revisions.v ===== *)
(** * Revisions: the history of edited files (application/src/server/diff/storage.rs, manager.rs)

    Every edit of a file is stored as a revision: a compressed snapshot, or a
    delta that needs the revision before it (zstd with that content as its
    dictionary).  A snapshot and the deltas after it are a chain; old chains
    are dropped whole.  The two tables are lists of rows in the order of their
    ids, and a statement is the function its SQL text describes; that SQLite
    itself fails is not modelled.  zstd and blake3 are parameters. *)
From Stdlib Require Import Sorting.Sorted.
From S2P Require Import Prelude.
Local Open Scope Z_scope.

(** ** The tables *)

Record Row : Type := mk_Row {
  rv_id : Z;
  rv_file : Z;
  rv_chain : Z;
  rv_size : Z;
  rv_user : option Z;
  rv_base : option Z;
  rv_payload : bytes;
  rv_hash : bytes;
  rv_created : Z;
}.
Record Storage : Type := mk_Storage { files : list (Z * string); revisions : list Row }.
Definition Storage_open : Storage := mk_Storage [] [].

Definition set_revisions (rows : list Row) (s : Storage) : Storage := mk_Storage (files s) rows.

(** An INTEGER PRIMARY KEY that is not given is one more than the largest. *)
Definition next_rowid (ids : list Z) : Z := 1 + foldr Z.max 0 ids.

(** SUM(LENGTH(payload)), COUNT(DISTINCT chain_id) of the rows that satisfy the condition *)
Definition payload_bytes (rows : list Row) : Z := foldr (λ r n, zlen (rv_payload r) + n) 0 rows.
Definition of_file (file_id : Z) (rows : list Row) : list Row := filter (λ r, rv_file r = file_id) rows.
Definition of_chain (file_id chain_id : Z) (rows : list Row) : list Row :=
  filter (λ r, rv_file r = file_id ∧ rv_chain r = chain_id) rows.
Definition chains_of (file_id : Z) (rows : list Row) : list Z := remove_dups (map rv_chain (of_file file_id rows)).

Definition total_payload_bytes (s : Storage) : Z := payload_bytes (revisions s).
Definition file_payload_bytes (file_id : Z) (s : Storage) : Z := payload_bytes (of_file file_id (revisions s)).
(** The first row with the path, or with the id (there is at most one). *)
Definition find_file (path : string) (s : Storage) : option Z := fst <$> head (filter (λ f, f.2 = path) (files s)).
Definition find_row (id : Z) (rows : list Row) : option Row := head (filter (λ r, rv_id r = id) rows).

(** ORDER BY id DESC LIMIT 1 *)
Definition latest_revision (file_id : Z) (s : Storage) : option Row := list.last (of_file file_id (revisions s)).
Definition list_for_file (file_id : Z) (s : Storage) : list Row := reverse (of_file file_id (revisions s)).
Definition chain_count (file_id : Z) (s : Storage) : Z := zlen (chains_of file_id (revisions s)).
Definition latest_chain_id (file_id : Z) (s : Storage) : option Z := rv_chain <$> latest_revision file_id s.
Definition current_chain_length (file_id : Z) (s : Storage) : Z :=
  match latest_chain_id file_id s with
  | None => 0
  | Some chain_id => zlen (of_chain file_id chain_id (revisions s))
  end.

Definition upsert_file (path : string) (s : Storage) : Z * Storage :=
  match find_file path s with
  | Some id => (id, s)
  | None => let id := next_rowid (map fst (files s)) in (id, mk_Storage (files s ++ [(id, path)]) (revisions s))
  end.

(** ON DELETE CASCADE *)
Definition delete_file (path : string) (s : Storage) : Storage :=
  match find_file path s with
  | None => s
  | Some id => mk_Storage (filter (λ f, f.2 ≠ path) (files s)) (filter (λ r, rv_file r ≠ id) (revisions s))
  end.
(** The path is UNIQUE. *)
Definition rename_file (old new : string) : stt Storage string unit := λ s,
  match find_file old s with
  | None => (Ok tt, s)
  | Some id =>
      if bool_decide (old = new) then (Ok tt, s) else
      match find_file new s with
      | Some _ => (Err "UNIQUE constraint failed: files.path"%string, s)
      | None => (Ok tt, mk_Storage (map (λ f, if decide (f.2 = old) then (f.1, new) else f) (files s)) (revisions s))
      end
  end.
Definition clear (_ : Storage) : Storage := mk_Storage [] [].

(** *** Dropping chains *)

Definition delete_rows (gone : Row → bool) (s : Storage) : Storage := set_revisions (filter (λ r, gone r = false) (revisions s)) s.

(** ORDER BY chain_id DESC *)
Fixpoint insert_desc (n : Z) (l : list Z) : list Z :=
  match l with
  | [] => [n]
  | m :: l' => if m <=? n then n :: l else m :: insert_desc n l'
  end.
Definition sort_desc (l : list Z) : list Z := foldr insert_desc [] l.
(** LIMIT: a negative one is none. *)
Definition limit {A} (n : Z) (l : list A) : list A := if n <? 0 then l else ztake n l.

Definition prune_old_chains (file_id keep_chains : Z) (s : Storage) : Z * Storage :=
  if keep_chains =? 0 then (0, s) else
  let chains := limit (as_i64 keep_chains) (sort_desc (chains_of file_id (revisions s))) in
  if zlen chains <? keep_chains then (0, s) else
  match list.last chains with
  | None => (0, s)
  | Some min_keep =>
      let gone r := bool_decide (rv_file r = file_id) && (rv_chain r <? min_keep) in
      (zlen (filter (λ r, gone r = true) (revisions s)), delete_rows gone s)
  end.

(** DELETE ... WHERE file_id = ? AND chain_id = ?, and the payload bytes it frees *)
Definition drop_chain (file_id chain_id : Z) (s : Storage) : Z * Storage :=
  (payload_bytes (of_chain file_id chain_id (revisions s)),
   delete_rows (λ r, bool_decide (rv_file r = file_id) && bool_decide (rv_chain r = chain_id)) s).

(** MIN of a column: NULL when there is no row *)
Definition minimum (l : list Z) : option Z :=
  match l with [] => None | x :: l => Some (foldr Z.min x l) end.

Definition drop_oldest_chain (file_id : Z) (protect_chain_id : option Z) (min_chains_to_keep : Z) (s : Storage) : Z * Storage :=
  if chain_count file_id s <=? Z.max min_chains_to_keep 1 then (0, s) else
  let rows := of_file file_id (revisions s) in
  let oldest := match protect_chain_id with
                | Some protect => minimum (map rv_chain (filter (λ r, rv_chain r ≠ protect) rows))
                | None => minimum (map rv_chain rows)
                end in
  match oldest with
  | None => (0, s)
  | Some oldest => drop_chain file_id oldest s
  end.

(** GROUP BY file_id, chain_id ORDER BY MIN(created), chain_id LIMIT 1 *)
Definition group_created (rows : list Row) (g : Z * Z) : Z :=
  default 0 (minimum (map rv_created (of_chain g.1 g.2 rows))).
Fixpoint first_group (rows : list Row) (groups : list (Z * Z)) : option (Z * Z) :=
  match groups with
  | [] => None
  | g :: groups =>
      match first_group rows groups with
      | None => Some g
      | Some h =>
          if (group_created rows h <? group_created rows g) ||
             ((group_created rows h =? group_created rows g) && (h.2 <? g.2)) then Some h else Some g
      end
  end.

Definition drop_globally_oldest_chain (protect : option (Z * Z)) (s : Storage) : Z * Storage :=
  let '(pf, pc) := default (-1, -1) protect in
  let candidates := filter (λ r, ¬ (rv_file r = pf ∧ rv_chain r = pc) ∧ 1 < chain_count (rv_file r) s) (revisions s) in
  match first_group (revisions s) (map (λ r, (rv_file r, rv_chain r)) candidates) with
  | None => (0, s)
  | Some (file_id, chain_id) => drop_chain file_id chain_id s
  end.

(** [while over budget { freed = drop; if freed == 0 break }]; every turn that goes on drops a row. *)
Fixpoint shrink_loop (fuel : nat) (size : Storage → Z) (budget : Z) (drop : Storage → Z * Storage) (s : Storage) : Storage :=
  match fuel with
  | O => s
  | S fuel =>
      if budget <? size s then
        let '(freed, s) := drop s in
        if freed =? 0 then s else shrink_loop fuel size budget drop s
      else s
  end.

(** ** Contents *)

Section contents.
Context (zstd_encode_all : bytes → result string bytes) (zstd_decode_all : bytes → result string bytes)
  (encode_with_dictionary : bytes → bytes → result string bytes)
  (decode_with_dictionary : bytes → bytes → result string bytes) (blake3 : bytes → bytes).

Definition insert_row (row : Z → Row) : stt Storage string Z := λ s,
  let id := next_rowid (map rv_id (revisions s)) in
  (Ok id, set_revisions (revisions s ++ [row id]) s).

(** The snapshot is inserted with chain 0 and updated in the same transaction. *)
Definition insert_snapshot (file_id : Z) (user : option Z) (content : bytes) (created_ms : Z) : stt Storage string Z :=
  payload ← lift (zstd_encode_all content);
  insert_row (λ id, mk_Row id file_id id (zlen content) user None payload (blake3 content) created_ms).

Definition insert_delta (file_id base_id base_chain_id : Z) (base_content : bytes) (user : option Z) (content : bytes)
    (created_ms : Z) : stt Storage string Z :=
  payload ← lift (encode_with_dictionary content base_content);
  insert_row (λ id, mk_Row id file_id base_chain_id (zlen content) user (Some base_id) payload (blake3 content) created_ms).

(** The 32 bytes of the stored hash *)
Definition hash_field (hb : bytes) : bytes := if zlen hb =? 32 then hb else replicate 32 0.

Definition MAX_CHAIN : nat := 1000.

(** From a revision back to its snapshot, at most [fuel] rows; the last row first. *)
Fixpoint collect_chain (fuel : nat) (rows : list Row) (cur : option Z) (chain : list Row) : result string (list Row) :=
  match fuel, cur with
  | S fuel, Some rid =>
      match find_row rid rows with
      | None => Err "revision not found while reconstructing"%string
      | Some row =>
          match rv_base row with
          | None => Ok (row :: chain)
          | Some base => collect_chain fuel rows (Some base) (row :: chain)
          end
      end
  | _, _ => Ok chain
  end.

Fixpoint apply_chain (content : bytes) (chain : list Row) : result string bytes :=
  match chain with
  | [] => Ok content
  | step :: chain =>
      match decode_with_dictionary (rv_payload step) content with
      | Err e => Err e
      | Ok next =>
          if bool_decide (blake3 next = hash_field (rv_hash step)) then apply_chain next chain
          else Err "content hash mismatch reconstructing revision"%string
      end
  end.

Definition reconstruct (id : Z) (s : Storage) : result string bytes :=
  match collect_chain MAX_CHAIN (revisions s) (Some id) [] with
  | Err e => Err e
  | Ok [] => Err "revision not found"%string
  | Ok (first :: rest) =>
      match zstd_decode_all (rv_payload first) with
      | Err e => Err e
      | Ok content =>
          if bool_decide (blake3 content = hash_field (rv_hash first)) then apply_chain content rest
          else Err "content hash mismatch at chain head"%string
      end
  end.

(** The part of the configuration that is used. *)
Record HistoryConfig : Type := mk_HistoryConfig {
  hc_anchor_interval : Z;
  hc_keep_chains : Z;
  hc_per_file_disk_budget : Z;
  hc_per_server_disk_budget : Z;
}.

(** The revision of an edit, before old chains are dropped; the first
    component tells whether anything was recorded. *)
Definition record_revision (anchor_interval file_id : Z) (before : option bytes) (after : bytes) (user : option Z) (now_ms : Z) :
    stt Storage string (bool * Z) :=
  s ← get_state;
  match latest_revision file_id s with
  | None =>
      match before with
      | Some before =>
          if bool_decide (before ≠ after) then
            baseline ← insert_snapshot file_id None before (now_ms - 1);
            id ← insert_delta file_id baseline baseline before user after now_ms;
            mret (true, id)
          else id ← insert_snapshot file_id user after now_ms; mret (true, id)
      | None => id ← insert_snapshot file_id user after now_ms; mret (true, id)
      end
  | Some prev =>
      if bool_decide (hash_field (rv_hash prev) = blake3 after) then mret (false, rv_id prev) else
      if anchor_interval <=? current_chain_length file_id s then
        id ← insert_snapshot file_id user after now_ms; mret (true, id)
      else
        prev_content ← lift (reconstruct (rv_id prev) s);
        delta_bytes ← lift (encode_with_dictionary after prev_content);
        let snapshot_estimate := match zstd_encode_all after with Ok v => zlen v | Err _ => U64_MAX end in
        if u64_mul snapshot_estimate 9 <=? u64_mul (zlen delta_bytes) 10 then
          id ← insert_snapshot file_id user after now_ms; mret (true, id)
        else
          id ← insert_delta file_id (rv_id prev) (rv_chain prev) prev_content user after now_ms; mret (true, id)
  end.

(** What [record_edit] drops once the revision is stored. *)
Definition drop_old (config : HistoryConfig) (file_id : Z) (s : Storage) : Storage :=
  let keep_chains := Z.max (hc_keep_chains config) 1 in
  let protected_chain := latest_chain_id file_id s in
  let s := snd (prune_old_chains file_id keep_chains s) in
  let s := shrink_loop (S (length (revisions s))) (file_payload_bytes file_id) (hc_per_file_disk_budget config)
             (drop_oldest_chain file_id protected_chain keep_chains) s in
  let server_protect := (λ cid, (file_id, cid)) <$> protected_chain in
  shrink_loop (S (length (revisions s))) total_payload_bytes (hc_per_server_disk_budget config)
    (drop_globally_oldest_chain server_protect) s.

(** [record_edit], when the history is enabled and its database open *)
Definition record_edit (config : HistoryConfig) (path : string) (before : option bytes) (after : bytes) (user : option Z)
    (now_ms : Z) : stt Storage string Z :=
  let anchor_interval := Z.max (hc_anchor_interval config) 1 in
  file_id ← (λ s, let '(id, s) := upsert_file path s in (Ok id, s));
  '(recorded, revision_id) ← record_revision anchor_interval file_id before after user now_ms;
  if (recorded : bool) then _ ← modify (drop_old config file_id); mret revision_id else mret revision_id.

(** [list] and [get_content] *)
Definition list_revisions (path : string) (s : Storage) : list Row :=
  match find_file path s with None => [] | Some file_id => list_for_file file_id s end.
Definition get_content (revision_id : Z) (s : Storage) : option bytes :=
  match reconstruct revision_id s with Ok content => Some content | Err _ => None end.
End contents.

(** ** What the tables hold *)

Section theory.
Context (zstd_encode_all : bytes → result string bytes) (zstd_decode_all : bytes → result string bytes)
  (encode_with_dictionary : bytes → bytes → result string bytes)
  (decode_with_dictionary : bytes → bytes → result string bytes) (blake3 : bytes → bytes).

(** [m] gives the content of every revision; chains are at most [n] rows long. *)
Record rows_ok (n : nat) (rows : list Row) (m : Z → bytes) : Prop := mk_rows_ok {
  ro_sorted : StronglySorted Z.lt (map rv_id rows);
  ro_chain : ∀ r, r ∈ rows → rv_chain r <= rv_id r;
  ro_monotone : ∀ r1 r2, r1 ∈ rows → r2 ∈ rows → rv_file r1 = rv_file r2 → rv_id r1 <= rv_id r2 → rv_chain r1 <= rv_chain r2;
  ro_content : ∀ r, r ∈ rows → rv_hash r = blake3 (m (rv_id r)) ∧ rv_size r = zlen (m (rv_id r)) ∧ rv_payload r ≠ [];
  ro_snapshot : ∀ r, r ∈ rows → rv_base r = None → zstd_decode_all (rv_payload r) = Ok (m (rv_id r));
  ro_delta : ∀ r b, r ∈ rows → rv_base r = Some b → ∃ rb, rb ∈ rows ∧ rv_id rb = b ∧ b < rv_id r ∧
    rv_file rb = rv_file r ∧ rv_chain rb = rv_chain r ∧ decode_with_dictionary (rv_payload r) (m b) = Ok (m (rv_id r));
  ro_length : ∀ file chain, (length (of_chain file chain rows) <= n)%nat;
}.

Lemma rows_ok_nil n m : rows_ok n [] m.
Proof.
  constructor; [constructor | | | | | | intros file chain; cbn; lia].
  all: intros *; try (intros Hr; by apply list.not_elem_of_nil in Hr).
Qed.

Lemma sorted_ids_inj rows r1 r2 : StronglySorted Z.lt (map rv_id rows) → r1 ∈ rows → r2 ∈ rows → rv_id r1 = rv_id r2 → r1 = r2.
Proof.
  induction rows as [| r rows IH]; intros Hs H1 H2 He; [by apply list.not_elem_of_nil in H1 |]. cbn in Hs. inversion_clear Hs as [| ? ? Hs' Hall].
  rewrite Forall_forall in Hall.
  assert (∀ r', r' ∈ rows → rv_id r < rv_id r') as Hlt by (intros r' Hr'; apply Hall, in_map, list_elem_of_In; done).
  apply elem_of_cons in H1 as [-> | H1], H2 as [-> | H2]; [done | specialize (Hlt _ H2); lia | specialize (Hlt _ H1); lia | by apply IH].
Qed.

Lemma find_row_elem rows r : StronglySorted Z.lt (map rv_id rows) → r ∈ rows → find_row (rv_id r) rows = Some r.
Proof.
  intros Hs Hr. unfold find_row. assert (r ∈ filter (λ r', rv_id r' = rv_id r) rows) as Hf by by apply list_elem_of_filter.
  destruct (filter (λ r', rv_id r' = rv_id r) rows) as [| r' l] eqn:Hl; [by apply list.not_elem_of_nil in Hf |]. cbn.
  assert (r' ∈ filter (λ r', rv_id r' = rv_id r) rows) as Hr' by (rewrite Hl; by left).
  apply list_elem_of_filter in Hr' as [Hid Hr']. f_equal. by apply (sorted_ids_inj rows).
Qed.

Lemma next_rowid_fresh ids id : id ∈ ids → id < next_rowid ids.
Proof. unfold next_rowid. induction ids as [| i ids IH]; intros Hi; [by apply list.not_elem_of_nil in Hi |]. apply elem_of_cons in Hi as [-> | Hi]; cbn; [lia | specialize (IH Hi); lia]. Qed.

(** The rows of the chain of a row up to it. *)
Definition upto (r : Row) (rows : list Row) : list Row :=
  filter (λ r', rv_id r' <= rv_id r) (of_chain (rv_file r) (rv_chain r) rows).

Lemma filter_length_lt {A} (P Q : A → Prop) `{∀ x, Decision (P x), ∀ x, Decision (Q x)} (l : list A) x :
  (∀ y, P y → Q y) → x ∈ l → Q x → ¬ P x → (length (filter P l) < length (filter Q l))%nat.
Proof.
  intros HPQ. assert (∀ l, (length (filter P l) <= length (filter Q l))%nat) as Hle.
  { clear -HPQ. induction l as [| y l IH]; [done |]. rewrite !filter_cons. destruct (decide (P y)), (decide (Q y)); cbn; try lia. by specialize (HPQ y p). }
  induction l as [| y l IH]; intros Hx HQ HP; [by apply list.not_elem_of_nil in Hx |]. rewrite !filter_cons.
  apply elem_of_cons in Hx as [-> | Hx].
  - rewrite (decide_False (P:=P y)), (decide_True (P:=Q y)) by done. cbn. specialize (Hle l). lia.
  - specialize (IH Hx HQ HP). destruct (decide (P y)), (decide (Q y)); cbn; try lia. by specialize (HPQ y p).
Qed.

Section chains.
Context (n : nat) (rows : list Row) (m : Z → bytes) (Hok : rows_ok n rows m) (Hhash : ∀ c, zlen (blake3 c) = 32).

Lemma hash_field_ok r : r ∈ rows → hash_field (rv_hash r) = blake3 (m (rv_id r)).
Proof. intros Hr. destruct (ro_content _ _ _ Hok r Hr) as (-> & _). unfold hash_field. by rewrite Hhash. Qed.

(** Applying the deltas that lead to [r], and then the others. *)
Lemma collect_chain_ok fuel : ∀ r chain, r ∈ rows → (length (upto r rows) <= fuel)%nat →
  ∃ first rest, collect_chain fuel rows (Some (rv_id r)) chain = Ok (first :: rest ++ chain) ∧
    zstd_decode_all (rv_payload first) = Ok (m (rv_id first)) ∧ first ∈ rows ∧
    apply_chain decode_with_dictionary blake3 (m (rv_id first)) (rest ++ chain) = apply_chain decode_with_dictionary blake3 (m (rv_id r)) chain.
Proof.
  induction fuel as [| fuel IH]; intros r chain Hr Hf.
  { exfalso. assert (r ∈ upto r rows) as Hin by (unfold upto, of_chain; apply list_elem_of_filter; split; [lia |]; by apply list_elem_of_filter).
    destruct (upto r rows); [by apply list.not_elem_of_nil in Hin | cbn in Hf; lia]. }
  cbn [collect_chain]. rewrite find_row_elem by (done || apply Hok). destruct (rv_base r) as [b |] eqn:Hb.
  - destruct (ro_delta _ _ _ Hok r b Hr Hb) as (rb & Hrb & <- & Hlt & Hfile & Hchain & Hdec).
    destruct (IH rb (r :: chain) Hrb) as (first & rest & Hc & Hd & Hfirst & Ha).
    { assert (length (upto rb rows) < length (upto r rows))%nat; [| lia]. unfold upto. rewrite Hfile, Hchain.
      apply (filter_length_lt _ _ _ r); [intros y; lia | | lia | lia]. by apply list_elem_of_filter. }
    exists first, (rest ++ [r]). rewrite <- app_assoc. split; [exact Hc |]. split; [done |]. split; [done |].
    cbn [app] in *. rewrite Ha. cbn [apply_chain]. rewrite Hdec, hash_field_ok by done. by rewrite bool_decide_eq_true_2.
  - exists r, []. split; [done |]. split; [by apply (ro_snapshot _ _ _ Hok) | done].
Qed.

Lemma reconstruct_ok fs r : r ∈ rows → (n <= MAX_CHAIN)%nat →
  reconstruct zstd_decode_all decode_with_dictionary blake3 (rv_id r) (mk_Storage fs rows) = Ok (m (rv_id r)).
Proof.
  intros Hr Hn. unfold reconstruct. cbn [revisions]. destruct (collect_chain_ok MAX_CHAIN r [] Hr) as (first & rest & -> & Hd & Hfirst & Ha).
  { pose proof (ro_length _ _ _ Hok (rv_file r) (rv_chain r)). unfold upto.
    pose proof (length_filter (λ r', rv_id r' <= rv_id r) (of_chain (rv_file r) (rv_chain r) rows)). lia. }
  rewrite Hd, hash_field_ok by done. rewrite bool_decide_eq_true_2 by done. exact Ha.
Qed.
End chains.

(** *** Dropping chains *)

Definition alive (f : Z → Z → bool) (rows : list Row) : list Row := filter (λ r, f (rv_file r) (rv_chain r) = true) rows.

Lemma elem_of_alive f rows r : r ∈ alive f rows ↔ f (rv_file r) (rv_chain r) = true ∧ r ∈ rows.
Proof. unfold alive. by rewrite list_elem_of_filter. Qed.

Lemma sorted_filter (P : Row → Prop) `{∀ r, Decision (P r)} rows : StronglySorted Z.lt (map rv_id rows) →
  StronglySorted Z.lt (map rv_id (filter P rows)).
Proof.
  induction rows as [| r rows IH]; intros Hs; [done |]. cbn in Hs. inversion_clear Hs as [| ? ? Hs' Hall].
  rewrite filter_cons. destruct (decide (P r)); [| by apply IH]. cbn. constructor; [by apply IH |].
  rewrite Forall_forall in *. intros i Hi. apply in_map_iff in Hi as (r' & <- & Hr'). apply Hall, in_map.
  apply list_elem_of_In in Hr'. apply list_elem_of_filter in Hr' as [_ Hr']. by apply list_elem_of_In.
Qed.

Lemma length_of_chain_filter (P : Row → Prop) `{∀ r, Decision (P r)} file chain rows :
  (length (of_chain file chain (filter P rows)) <= length (of_chain file chain rows))%nat.
Proof.
  unfold of_chain. induction rows as [| r rows IH]; [done |]. rewrite !(filter_cons _ r).
  destruct (decide (P r)); rewrite ?filter_cons; destruct (decide (rv_file r = file ∧ rv_chain r = chain)); cbn; lia.
Qed.

Lemma rows_ok_alive f n rows m : rows_ok n rows m → rows_ok n (alive f rows) m.
Proof.
  intros Hok. constructor.
  - apply sorted_filter, Hok.
  - intros r [_ Hr]%elem_of_alive. by apply (ro_chain _ _ _ Hok).
  - intros r1 r2 [_ H1]%elem_of_alive [_ H2]%elem_of_alive. by apply (ro_monotone _ _ _ Hok).
  - intros r [_ Hr]%elem_of_alive. by apply (ro_content _ _ _ Hok).
  - intros r [_ Hr]%elem_of_alive. by apply (ro_snapshot _ _ _ Hok).
  - intros r b [Hf Hr]%elem_of_alive Hb. destruct (ro_delta _ _ _ Hok r b Hr Hb) as (rb & Hrb & Hid & Hlt & Hfile & Hchain & Hd).
    exists rb. split; [| done]. apply elem_of_alive. by rewrite Hfile, Hchain.
  - intros file chain. etrans; [apply length_of_chain_filter | apply (ro_length _ _ _ Hok)].
Qed.

(** *** Storing a revision *)

Definition record_content (id : Z) (content : bytes) (m : Z → bytes) : Z → bytes := λ i, if decide (i = id) then content else m i.

Definition new_row_ok (n : nat) (rows : list Row) (m : Z → bytes) (r : Row) (content : bytes) : Prop :=
  (rv_base r = None ∧ rv_chain r = rv_id r ∧ zstd_decode_all (rv_payload r) = Ok content) ∨
  (∃ prev, prev ∈ rows ∧ rv_base r = Some (rv_id prev) ∧ rv_file r = rv_file prev ∧ rv_chain r = rv_chain prev ∧
     (∀ r', r' ∈ rows → rv_file r' = rv_file r → rv_chain r' <= rv_chain r) ∧
     decode_with_dictionary (rv_payload r) (m (rv_id prev)) = Ok content ∧
     (length (of_chain (rv_file r) (rv_chain r) rows) < n)%nat).

Section insert.
Context (n : nat) (rows : list Row) (m : Z → bytes) (r : Row) (content : bytes) (Hok : rows_ok n rows m) (Hn : (0 < n)%nat)
  (Hid : rv_id r = next_rowid (map rv_id rows))
  (Hrow : rv_hash r = blake3 content ∧ rv_size r = zlen content ∧ rv_payload r ≠ [])
  (Hnew : new_row_ok n rows m r content).

Lemma fresh_id r' : r' ∈ rows → rv_id r' < rv_id r.
Proof. intros Hr'. rewrite Hid. apply next_rowid_fresh. apply list_elem_of_In, in_map. by apply list_elem_of_In. Qed.

Lemma record_content_old r' : r' ∈ rows → record_content (rv_id r) content m (rv_id r') = m (rv_id r').
Proof. intros Hr'. unfold record_content. apply fresh_id in Hr'. rewrite decide_False by lia. done. Qed.

Lemma record_content_new : record_content (rv_id r) content m (rv_id r) = content.
Proof. unfold record_content. by rewrite decide_True. Qed.

Lemma new_chain_le : rv_chain r <= rv_id r.
Proof.
  destruct Hnew as [(_ & -> & _) | (prev & Hp & _ & _ & -> & _)]; [lia |].
  pose proof (ro_chain _ _ _ Hok prev Hp). pose proof (fresh_id prev Hp). lia.
Qed.

Lemma new_chain_max r' : r' ∈ rows → rv_file r' = rv_file r → rv_chain r' <= rv_chain r.
Proof.
  intros Hr' Hf. destruct Hnew as [(_ & -> & _) | (prev & _ & _ & _ & _ & Hmax & _)]; [| by apply Hmax].
  pose proof (ro_chain _ _ _ Hok r' Hr'). pose proof (fresh_id r' Hr'). lia.
Qed.

Lemma sorted_snoc : StronglySorted Z.lt (map rv_id (rows ++ [r])).
Proof.
  pose proof (ro_sorted _ _ _ Hok) as Hs. pose proof fresh_id as Hf. clear - Hs Hf. induction rows as [| x l IH]; [cbn; repeat constructor |].
  cbn in *. inversion_clear Hs as [| ? ? Hs' Hall]. constructor; [apply IH; [done | intros r' Hr'; apply Hf; by right] |].
  rewrite Forall_forall in *. intros i Hi. rewrite map_app in Hi. apply in_app_iff in Hi as [Hi | [<- | []]]; [by apply Hall |].
  apply Hf. by left.
Qed.

Lemma new_length file chain : (length (of_chain file chain (rows ++ [r])) <= n)%nat.
Proof.
  pose proof (ro_length _ _ _ Hok file chain) as Hl. unfold of_chain in *. rewrite list.filter_app, length_app, filter_cons, list.filter_nil.
  destruct (decide (rv_file r = file ∧ rv_chain r = chain)) as [[<- <-] |]; cbn; [| lia].
  destruct Hnew as [(_ & Hc & _) | (prev & _ & _ & _ & _ & _ & _ & Hlt)]; [| unfold of_chain in Hlt; lia].
  enough (filter (λ r0 : Row, rv_file r0 = rv_file r ∧ rv_chain r0 = rv_chain r) rows = []) as -> by (cbn; lia).
  destruct (filter _ rows) as [| r' l] eqn:Hf; [done |]. exfalso.
  assert (r' ∈ filter (λ r0 : Row, rv_file r0 = rv_file r ∧ rv_chain r0 = rv_chain r) rows) as Hr' by (rewrite Hf; by left).
  apply list_elem_of_filter in Hr' as [[_ Hc'] Hr']. pose proof (ro_chain _ _ _ Hok r' Hr'). pose proof (fresh_id r' Hr'). lia.
Qed.

Lemma rows_ok_insert : rows_ok n (rows ++ [r]) (record_content (rv_id r) content m).
Proof.
  assert (∀ r', r' ∈ rows ++ [r] → r' ∈ rows ∨ r' = r) as Hin by (intros r' [? | ->%list_elem_of_singleton]%elem_of_app; auto).
  constructor.
  - apply sorted_snoc.
  - intros r' [Hr' | ->]%Hin; [by apply (ro_chain _ _ _ Hok) | apply new_chain_le].
  - intros r1 r2 [H1 | ->]%Hin [H2 | ->]%Hin Hf Hle.
    + by apply (ro_monotone _ _ _ Hok).
    + by apply new_chain_max.
    + apply fresh_id in H2. lia.
    + lia.
  - intros r' [Hr' | ->]%Hin; [rewrite record_content_old by done; by apply (ro_content _ _ _ Hok) | by rewrite record_content_new].
  - intros r' [Hr' | ->]%Hin Hb; [rewrite record_content_old by done; by apply (ro_snapshot _ _ _ Hok) | rewrite record_content_new].
    destruct Hnew as [(_ & _ & Hd) | (prev & _ & Hb' & _)]; [done | congruence].
  - intros r' b [Hr' | ->]%Hin Hb.
    + destruct (ro_delta _ _ _ Hok r' b Hr' Hb) as (rb & Hrb & Hib & Hd). exists rb. subst b.
      rewrite !record_content_old by done. split; [apply elem_of_app; by left | done].
    + destruct Hnew as [(Hb' & _) | (prev & Hp & Hb' & Hf & Hc & _ & Hd & _)]; [congruence |].
      rewrite Hb' in Hb. injection Hb as <-. exists prev. rewrite record_content_new, record_content_old by done.
      split; [apply elem_of_app; by left |]. split; [done |]. split; [by apply fresh_id | done].
  - apply new_length.
Qed.
End insert.

(** *** The newest revision of a file *)

Lemma last_app_cases {A} (l : list A) x : list.last (l ++ [x]) = Some x.
Proof. apply last_snoc. Qed.

Lemma latest_revision_spec file_id s n m r : rows_ok n (revisions s) m → latest_revision file_id s = Some r →
  r ∈ revisions s ∧ rv_file r = file_id ∧ ∀ r', r' ∈ revisions s → rv_file r' = file_id → rv_id r' <= rv_id r ∧ rv_chain r' <= rv_chain r.
Proof.
  intros Hok Hl. unfold latest_revision, of_file in Hl. pose proof (last_Some_elem_of _ _ Hl) as [Hf Hr]%list_elem_of_filter.
  split; [done |]. split; [done |]. intros r' Hr' Hf'.
  assert (rv_id r' <= rv_id r) as Hle; [| split; [done | apply (ro_monotone _ _ _ Hok); [done | done | congruence | done]]].
  apply last_Some in Hl as [l Hl].
  pose proof (sorted_filter (λ r, rv_file r = file_id) _ (ro_sorted _ _ _ Hok)) as Hs. rewrite Hl in Hs.
  assert (r' ∈ l ++ [r]) as Hin by (rewrite <- Hl; by apply list_elem_of_filter).
  apply elem_of_app in Hin as [Hin | ->%list_elem_of_singleton]; [| lia].
  clear - Hs Hin. induction l as [| x l IH]; [by apply list.not_elem_of_nil in Hin |]. cbn in Hs. inversion_clear Hs as [| ? ? Hs' Hall].
  apply elem_of_cons in Hin as [-> | Hin]; [| by apply IH]. rewrite Forall_forall in Hall.
  assert (rv_id x < rv_id r); [| lia]. apply Hall, in_map. apply in_app_iff. right. by left.
Qed.

Lemma latest_revision_None file_id s : latest_revision file_id s = None → ∀ r, r ∈ revisions s → rv_file r ≠ file_id.
Proof.
  unfold latest_revision, of_file. intros Hl r Hr Hf. apply last_None in Hl.
  assert (r ∈ filter (λ r, rv_file r = file_id) (revisions s)) as Hin by by apply list_elem_of_filter.
  rewrite Hl in Hin. by apply list.not_elem_of_nil in Hin.
Qed.

Lemma latest_revision_snoc s r : latest_revision (rv_file r) (set_revisions (revisions s ++ [r]) s) = Some r.
Proof.
  unfold latest_revision, of_file. cbn [set_revisions revisions]. rewrite list.filter_app, filter_cons, list.filter_nil, decide_True by done.
  apply last_snoc.
Qed.

(** *** Recording *)

Section record.
Context (n : nat) (Hn : (2 <= n <= MAX_CHAIN)%nat) (Hhash : ∀ c, zlen (blake3 c) = 32)
  (Hzstd : ∀ c p, zstd_encode_all c = Ok p → zstd_decode_all p = Ok c ∧ p ≠ [])
  (Hdict : ∀ c d p, encode_with_dictionary c d = Ok p → decode_with_dictionary p d = Ok c ∧ p ≠ []).

Definition encoder_fails : Prop :=
  (∃ c e, zstd_encode_all c = Err e) ∨ (∃ c d e, encode_with_dictionary c d = Err e).

(** A step that may store revisions of [file_id]: the rows stay in order and
    old ones keep their content. *)
Definition stored {A} (file_id : Z) (m : Z → bytes) (s : Storage) (out : result string A * Storage) (Q : A → (Z → bytes) → Storage → Prop) : Prop :=
  ∃ m' new, files (snd out) = files s ∧ revisions (snd out) = revisions s ++ new ∧ rows_ok n (revisions (snd out)) m' ∧
    (∀ r, r ∈ revisions s → m' (rv_id r) = m (rv_id r)) ∧
    match fst out with Ok a => Q a m' (snd out) | Err _ => encoder_fails end.

Lemma insert_stored {A} file_id m s (row : Z → Row) content (k : Z → stt Storage string A) (Q : A → (Z → bytes) → Storage → Prop) :
  let id := next_rowid (map rv_id (revisions s)) in
  let s' := set_revisions (revisions s ++ [row id]) s in
  let m' := record_content id content m in
  rows_ok n (revisions s) m → rv_id (row id) = id → rv_file (row id) = file_id →
  (rv_hash (row id) = blake3 content ∧ rv_size (row id) = zlen content ∧ rv_payload (row id) ≠ []) →
  new_row_ok n (revisions s) m (row id) content →
  (rows_ok n (revisions s') m' → stored file_id m' s' (k id s') Q) →
  stored file_id m s ((id ← insert_row row; k id) s) Q.
Proof.
  intros id s' m' Hok Hid Hfile Hrow Hnew Hk.
  assert (rows_ok n (revisions s') m') as Hok'.
  { unfold m'. rewrite <- Hid. eapply rows_ok_insert; try done. lia. }
  destruct (Hk Hok') as (m2 & new & Hf & Hr & Hok2 & Hm & HQ).
  change ((id ← insert_row row; k id) s) with (k id s'). exists m2, (row id :: new).
  split; [by rewrite Hf |]. split; [rewrite Hr; cbn; by rewrite <- app_assoc |]. split; [done |].
  split; [| done]. intros r Hr'. rewrite Hm by (cbn; apply elem_of_app; by left). unfold m'. rewrite <- Hid.
  apply (record_content_old n (revisions s)); [lia | done | done].
Qed.

Lemma stored_ret {A} file_id m s (a : A) (Q : A → (Z → bytes) → Storage → Prop) : rows_ok n (revisions s) m → Q a m s → stored file_id m s ((mret a : stt Storage string A) s) Q.
Proof. intros Hok HQ. exists m, []. cbn. rewrite app_nil_r. done. Qed.

Lemma stored_fail {A} file_id m s e (Q : A → (Z → bytes) → Storage → Prop) : rows_ok n (revisions s) m → encoder_fails → stored file_id m s (Err e, s) Q.
Proof. intros Hok He. exists m, []. cbn. rewrite app_nil_r. done. Qed.

Lemma insert_snapshot_stored {A} file_id user content now m s (k : Z → stt Storage string A) (Q : A → (Z → bytes) → Storage → Prop) :
  rows_ok n (revisions s) m →
  (∀ r, let id := next_rowid (map rv_id (revisions s)) in let s' := set_revisions (revisions s ++ [r]) s in
     rv_id r = id → rv_file r = file_id → rv_chain r = id → rv_base r = None →
     rows_ok n (revisions s') (record_content id content m) → stored file_id (record_content id content m) s' (k id s') Q) →
  stored file_id m s ((id ← insert_snapshot zstd_encode_all blake3 file_id user content now; k id) s) Q.
Proof.
  intros Hok Hk. unfold insert_snapshot. destruct (zstd_encode_all content) as [payload | e] eqn:He.
  2:{ unfold mbind, stt_bind, lift. cbn. apply stored_fail; [done |]. left. eauto. }
  destruct (Hzstd _ _ He) as [Hd Hne].
  change (stored file_id m s ((id ← insert_row (λ id, mk_Row id file_id id (zlen content) user None payload (blake3 content) now); k id) s) Q).
  eapply (insert_stored _ _ _ _ content); try done; [by left |]. intros Hok'. by apply Hk.
Qed.

Lemma insert_delta_stored {A} file_id user content now m s prev (k : Z → stt Storage string A) (Q : A → (Z → bytes) → Storage → Prop) :
  rows_ok n (revisions s) m → prev ∈ revisions s → rv_file prev = file_id →
  (∀ r', r' ∈ revisions s → rv_file r' = file_id → rv_chain r' <= rv_chain prev) →
  (length (of_chain file_id (rv_chain prev) (revisions s)) < n)%nat →
  (∀ r, let id := next_rowid (map rv_id (revisions s)) in let s' := set_revisions (revisions s ++ [r]) s in
     rv_id r = id → rv_file r = file_id →
     rows_ok n (revisions s') (record_content id content m) → stored file_id (record_content id content m) s' (k id s') Q) →
  stored file_id m s ((id ← insert_delta encode_with_dictionary blake3 file_id (rv_id prev) (rv_chain prev) (m (rv_id prev)) user content now; k id) s) Q.
Proof.
  intros Hok Hp Hf Hmax Hlen Hk. unfold insert_delta. destruct (encode_with_dictionary content (m (rv_id prev))) as [payload | e] eqn:He.
  2:{ unfold mbind, stt_bind, lift. cbn. apply stored_fail; [done |]. right. eauto. }
  destruct (Hdict _ _ _ He) as [Hd Hne].
  change (stored file_id m s ((id ← insert_row (λ id, mk_Row id file_id (rv_chain prev) (zlen content) user (Some (rv_id prev)) payload (blake3 content) now); k id) s) Q).
  eapply (insert_stored _ _ _ _ content); try done.
  - right. exists prev. cbn. by rewrite Hf.
  - intros Hok'. by apply Hk.
Qed.

Lemma record_revision_stored anchor_interval file_id before after user now m s :
  rows_ok n (revisions s) m → anchor_interval <= Z.of_nat n →
  stored file_id m s (record_revision zstd_encode_all zstd_decode_all encode_with_dictionary decode_with_dictionary blake3
      anchor_interval file_id before after user now s)
    (λ '(recorded, id) m' s', blake3 (m' id) = blake3 after ∧ (recorded = true → m' id = after) ∧
      ∃ r, latest_revision file_id s' = Some r ∧ rv_id r = id).
Proof.
  intros Hok Ha. set (Q := λ '(recorded, id) m' s', _). unfold record_revision.
  assert (∀ m1 s1 content, rows_ok n (revisions s1) m1 → content = after → stored file_id m1 s1
    ((id ← insert_snapshot zstd_encode_all blake3 file_id user content now; mret (true, id)) s1) Q) as Hsnap.
  { intros m1 s1 content Hok1 ->. apply insert_snapshot_stored; [done |]. intros r id s' Hid Hf _ _ Hok'. apply stored_ret; [done |].
    cbn. unfold record_content. rewrite decide_True by done. split; [done |]. split; [done |]. exists r. split; [| done].
    unfold s'. rewrite <- Hf. apply latest_revision_snoc. }
  assert (∀ m1 s1 prev, rows_ok n (revisions s1) m1 → prev ∈ revisions s1 → rv_file prev = file_id →
    (∀ r', r' ∈ revisions s1 → rv_file r' = file_id → rv_chain r' <= rv_chain prev) →
    (length (of_chain file_id (rv_chain prev) (revisions s1)) < n)%nat → stored file_id m1 s1
    ((id ← insert_delta encode_with_dictionary blake3 file_id (rv_id prev) (rv_chain prev) (m1 (rv_id prev)) user after now; mret (true, id)) s1) Q) as Hdelta.
  { intros m1 s1 prev Hok1 Hp Hf Hmax Hlen. apply insert_delta_stored; try done. intros r id s' Hid Hf' Hok'. apply stored_ret; [done |].
    cbn. unfold record_content. rewrite decide_True by done. split; [done |]. split; [done |]. exists r. split; [| done].
    unfold s'. rewrite <- Hf'. apply latest_revision_snoc. }
  match goal with |- stored _ _ _ ((get_state ≫= ?F) s) _ => change (stored file_id m s (F s s) Q) end. cbn beta.
  destruct (latest_revision file_id s) as [prev |] eqn:Hl.
  - destruct (latest_revision_spec _ _ _ _ _ Hok Hl) as (Hp & Hf & Hmax).
    rewrite (hash_field_ok n (revisions s) m Hok Hhash prev Hp). case_bool_decide as Heq.
    { apply stored_ret; [done |]. cbn. split; [done |]. split; [done |]. by exists prev. }
    assert (current_chain_length file_id s = zlen (of_chain file_id (rv_chain prev) (revisions s))) as Hcl
      by (unfold current_chain_length, latest_chain_id; by rewrite Hl).
    destruct (Z.leb_spec anchor_interval (current_chain_length file_id s)); [by apply Hsnap |].
    destruct s as [fs rows]. rewrite (reconstruct_ok n rows m Hok Hhash fs prev Hp (proj2 Hn)).
    match goal with |- stored _ _ ?s ((lift (Ok ?x) ≫= ?F) _) _ => change (stored file_id m s (F x s) Q) end. cbn beta.
    destruct (encode_with_dictionary after (m (rv_id prev))) as [delta | e] eqn:He.
    2:{ unfold mbind, stt_bind, lift. cbn. apply stored_fail; [done |]. right. eauto. }
    match goal with |- stored _ _ ?s ((lift (Ok ?x) ≫= ?F) _) _ => change (stored file_id m s (F x s) Q) end. cbn beta zeta.
    destruct (_ <=? _); [by apply Hsnap |]. apply Hdelta; [done | done | done | | unfold zlen in *; lia].
    intros r' Hr' Hf'. by apply Hmax.
  - destruct before as [before |]; [| by apply Hsnap].
    destruct (decide (before ≠ after)); [rewrite bool_decide_eq_true_2 by done | rewrite bool_decide_eq_false_2 by done; by apply Hsnap].
    apply insert_snapshot_stored; [done |]. intros r id s' Hid Hf Hc _ Hok'.
    pose proof (latest_revision_None _ _ Hl) as Hno.
    assert (record_content id before m id = before) as Hb by (unfold record_content; by rewrite decide_True).
    pose proof (Hdelta (record_content id before m) s' r Hok') as Hd. rewrite Hid, Hc, Hb in Hd. apply Hd; [| done | |].
    + cbn. apply elem_of_app. right. by left.
    + cbn. intros r' [Hr' | ->%list_elem_of_singleton]%elem_of_app Hf'; [by apply Hno in Hr' | lia].
    + cbn. unfold of_chain. rewrite list.filter_app, length_app.
      enough (filter (λ r0, rv_file r0 = file_id ∧ rv_chain r0 = id) (revisions s) = []) as ->.
      { rewrite filter_cons, list.filter_nil. destruct (decide _); cbn; lia. }
      destruct (filter _ (revisions s)) as [| r' l] eqn:Hfl; [done |]. exfalso.
      assert (r' ∈ filter (λ r0, rv_file r0 = file_id ∧ rv_chain r0 = id) (revisions s)) as Hr' by (rewrite Hfl; by left).
      apply list_elem_of_filter in Hr' as [[Hf' _] Hr']. by apply (Hno r').
Qed.
End record.

(** *** Old chains *)

(** What is left is whole chains, the protected one among them. *)
Definition thinned (protect : option (Z * Z)) (s s' : Storage) : Prop :=
  files s' = files s ∧ ∃ f, revisions s' = alive f (revisions s) ∧ ∀ g, protect = Some g → f g.1 g.2 = true.

Lemma thinned_refl protect s : thinned protect s s.
Proof.
  split; [done |]. exists (λ _ _, true). split; [| done]. unfold alive. induction (revisions s) as [| r rows IH]; [done |].
  rewrite filter_cons, decide_True by done. by rewrite <- IH at 1.
Qed.

Lemma thinned_trans protect s1 s2 s3 : thinned protect s1 s2 → thinned protect s2 s3 → thinned protect s1 s3.
Proof.
  intros (F1 & f1 & H1 & P1) (F2 & f2 & H2 & P2). split; [congruence |]. exists (λ a b, f1 a b && f2 a b).
  split; [| intros g Hg; by rewrite (P1 g Hg), (P2 g Hg)]. rewrite H2, H1. clear. unfold alive.
  induction (revisions s1) as [| r rows IH]; [done |]. rewrite !(filter_cons _ r).
  destruct (f1 (rv_file r) (rv_chain r)); cbn [andb].
  - rewrite decide_True by done. rewrite filter_cons. destruct (f2 _ _); [rewrite !decide_True by done; by rewrite IH | rewrite !decide_False by done; done].
  - rewrite !decide_False by done. done.
Qed.

Lemma thinned_rows protect s s' n m : thinned protect s s' → rows_ok n (revisions s) m → rows_ok n (revisions s') m.
Proof. intros (_ & f & -> & _). apply rows_ok_alive. Qed.

Lemma drop_chain_thinned protect file chain s : protect ≠ Some (file, chain) → thinned protect s (snd (drop_chain file chain s)).
Proof.
  intros Hp. split; [done |]. exists (λ a b, negb (bool_decide (a = file) && bool_decide (b = chain))). split.
  - unfold drop_chain, delete_rows, alive. cbn. clear. induction (revisions s) as [| r rows IH]; [done |]. rewrite !(filter_cons _ r), IH.
    destruct (_ && _); cbn; repeat (rewrite decide_True by done || rewrite decide_False by done); done.
  - intros [a b] ->. cbn. apply negb_true_iff, not_true_iff_false. intros [H1 H2]%andb_true_iff.
    apply bool_decide_eq_true in H1 as ->. apply bool_decide_eq_true in H2 as ->. done.
Qed.

(** Both ways to drop a chain do nothing or drop one that is not protected. *)
Definition drops (protect : option (Z * Z)) (drop : Storage → Z * Storage) : Prop :=
  ∀ s, drop s = (0, s) ∨ ∃ file chain, drop s = drop_chain file chain s ∧ protect ≠ Some (file, chain) ∧
    ∃ r, r ∈ revisions s ∧ rv_file r = file ∧ rv_chain r = chain.

Lemma minimum_elem l x : minimum l = Some x → x ∈ l.
Proof.
  destruct l as [| y l]; cbn; [done |]. intros [= <-]. induction l as [| z l IH]; cbn; [by left |].
  destruct (Z.min_spec z (foldr Z.min y l)) as [[_ ->] | [_ ->]]; [right; by left |].
  apply elem_of_cons in IH as [-> | IH]; [by left | right; by right].
Qed.

Lemma first_group_elem rows gs g : first_group rows gs = Some g → g ∈ gs.
Proof.
  revert g. induction gs as [| h gs IH]; intros g; cbn; [done |]. destruct (first_group rows gs) as [h' |].
  - destruct (_ || _); intros [= <-]; [right; by apply IH | by left].
  - intros [= <-]. by left.
Qed.

Lemma elem_of_map {A B} (f : A → B) l y : y ∈ map f l → ∃ x, y = f x ∧ x ∈ l.
Proof. intros Hy. apply list_elem_of_In, in_map_iff in Hy as (x & <- & Hx). exists x. by rewrite list_elem_of_In. Qed.

Lemma drop_oldest_drops file chain keep : drops ((λ cid, (file, cid)) <$> chain) (drop_oldest_chain file chain keep).
Proof.
  intros s. unfold drop_oldest_chain. destruct (_ <=? _); [by left |].
  destruct (match chain with Some _ => _ | None => _ end) as [oldest |] eqn:Ho; [| by left]. right.
  exists file, oldest. split; [done |]. destruct chain as [protect |]; apply minimum_elem, elem_of_map in Ho as (r & -> & Hr).
  - apply list_elem_of_filter in Hr as [Hne Hr]. apply list_elem_of_filter in Hr as [Hf Hr]. split; [cbn; congruence | by exists r].
  - apply list_elem_of_filter in Hr as [Hf Hr]. split; [done | by exists r].
Qed.

Lemma drop_globally_drops protect : drops protect (drop_globally_oldest_chain protect).
Proof.
  intros s. unfold drop_globally_oldest_chain. destruct (default (-1, -1) protect) as [pf pc] eqn:Hp.
  destruct (first_group _ _) as [[file chain] |] eqn:Hg; [| by left]. right. exists file, chain. split; [done |].
  apply first_group_elem, elem_of_map in Hg as (r & [= -> ->] & Hr). apply list_elem_of_filter in Hr as [[Hne _] Hr].
  split; [| by exists r]. intros ->. cbn in Hp. injection Hp as <- <-. by apply Hne.
Qed.

Lemma shrink_loop_thinned protect fuel size budget drop : drops protect drop → ∀ s, thinned protect s (shrink_loop fuel size budget drop s).
Proof.
  intros Hd. induction fuel as [| fuel IH]; intros s; cbn [shrink_loop]; [apply thinned_refl |].
  destruct (budget <? size s); [| apply thinned_refl]. pose proof (Hd s) as Hs. destruct (drop s) as [freed s1] eqn:Hdrop.
  assert (thinned protect s s1) as H1.
  { destruct Hs as [[= -> ->] | (file & chain & He & Hp & _)]; [apply thinned_refl |].
    replace s1 with (snd (drop_chain file chain s)) by (by rewrite <- He). by apply drop_chain_thinned. }
  destruct (freed =? 0); [done |]. eapply thinned_trans; [done | apply IH].
Qed.

Lemma filter_true {A} (l : list A) : filter (λ _, True) l = l.
Proof. induction l as [| x l IH]; [done |]. rewrite filter_cons, decide_True by done. by rewrite IH. Qed.

(** With enough turns the budget is met, or nothing can be dropped any more. *)
Lemma payload_bytes_cons r rows : payload_bytes (r :: rows) = zlen (rv_payload r) + payload_bytes rows.
Proof. done. Qed.
Lemma payload_bytes_nonneg rows : 0 <= payload_bytes rows.
Proof. induction rows as [| r rows IH]; [done |]. rewrite payload_bytes_cons. pose proof (zlen_nonneg (rv_payload r)). lia. Qed.

Lemma payload_pos rows r : r ∈ rows → (∀ r, r ∈ rows → rv_payload r ≠ []) → 0 < payload_bytes rows.
Proof.
  induction rows as [| x l IH]; intros Hr Hp; [by apply list.not_elem_of_nil in Hr |]. rewrite payload_bytes_cons.
  pose proof (zlen_nonneg (rv_payload x)). pose proof (payload_bytes_nonneg l). apply elem_of_cons in Hr as [-> | Hr].
  - assert (zlen (rv_payload x) ≠ 0) by (intros Hz; apply (Hp x); [by left | by apply zlen_0_nil]). lia.
  - enough (0 < payload_bytes l) by lia. apply IH; [done |]. intros r' Hr'. apply Hp. by right.
Qed.

Lemma shrink_loop_post n m protect fuel size budget drop : drops protect drop → ∀ s, rows_ok n (revisions s) m →
  (length (revisions s) < fuel)%nat → let s' := shrink_loop fuel size budget drop s in size s' <= budget ∨ drop s' = (0, s').
Proof.
  intros Hd. induction fuel as [| fuel IH]; intros s Hok Hf; [lia |]. cbn [shrink_loop]. destruct (Z.ltb_spec budget (size s)); [| by left].
  destruct (Hd s) as [Hs | (file & chain & He & _ & r & Hr & Hrf & Hrc)]; [rewrite Hs; by right |]. rewrite He. cbv zeta. unfold drop_chain.
  assert (r ∈ of_chain file chain (revisions s)) as Hin by by apply list_elem_of_filter.
  assert (0 < payload_bytes (of_chain file chain (revisions s))) as Hpos.
  { apply (payload_pos _ r Hin). intros r' [_ Hr']%list_elem_of_filter. apply (ro_content _ _ _ Hok r' Hr'). }
  rewrite (proj2 (Z.eqb_neq _ 0)) by lia. apply IH.
  - by apply (thinned_rows None s (snd (drop_chain file chain s))); [apply drop_chain_thinned |].
  - cbn. enough (length (filter (λ r0, bool_decide (rv_file r0 = file) && bool_decide (rv_chain r0 = chain) = false) (revisions s)) <
      length (filter (λ _, True) (revisions s)))%nat as Hlt.
    { rewrite filter_true in Hlt. lia. }
    apply (filter_length_lt _ _ _ r); [done | done | done |]. rewrite !bool_decide_eq_true_2 by done. done.
Qed.

Lemma insert_desc_perm x l : insert_desc x l ≡ₚ x :: l.
Proof. induction l as [| y l IH]; cbn; [done |]. destruct (y <=? x); [done |]. rewrite IH. by constructor. Qed.
Lemma sort_desc_perm l : sort_desc l ≡ₚ l.
Proof. induction l as [| x l IH]; cbn; [done |]. by rewrite insert_desc_perm, IH. Qed.

Lemma sort_desc_sorted l : StronglySorted Z.ge (sort_desc l).
Proof.
  induction l as [| x l IH]; [constructor |]. change (sort_desc (x :: l)) with (insert_desc x (sort_desc l)). revert IH. generalize (sort_desc l) as s. clear l. induction s as [| y s IHs]; intros Hs; cbn.
  - repeat constructor.
  - inversion_clear Hs as [| ? ? Hs' Hall]. destruct (Z.leb_spec y x).
    + constructor; [by constructor |]. constructor; [lia |]. eapply List.Forall_impl; [| exact Hall]. intros z. lia.
    + constructor; [by apply IHs |]. rewrite Forall_forall in *. intros z Hz. apply list_elem_of_In in Hz. rewrite insert_desc_perm in Hz.
      apply elem_of_cons in Hz as [-> | Hz]; [lia |]. apply Hall. by apply list_elem_of_In.
Qed.

Lemma sorted_prefix_ge (p q : list Z) x y : StronglySorted Z.ge (p ++ q) → list.last p = Some x → y ∈ q → y <= x.
Proof.
  intros Hs Hl Hy. apply last_Some in Hl as [l ->]. rewrite <- app_assoc in Hs. induction l as [| z l IH]; cbn in Hs; inversion_clear Hs as [| ? ? Hs' Hall].
  - rewrite Forall_forall in Hall. specialize (Hall y ltac:(by apply list_elem_of_In)). lia.
  - by apply IH.
Qed.

Lemma elem_of_chains c file rows : c ∈ chains_of file rows ↔ ∃ r, r ∈ rows ∧ rv_file r = file ∧ rv_chain r = c.
Proof.
  unfold chains_of. rewrite elem_of_remove_dups. split.
  - intros (r & -> & Hr)%elem_of_map. apply list_elem_of_filter in Hr as [Hf Hr]. by exists r.
  - intros (r & Hr & <- & <-). apply list_elem_of_In, in_map, list_elem_of_In. by apply list_elem_of_filter.
Qed.

Definition kept_chains (file keep : Z) (s : Storage) : list Z := limit (as_i64 keep) (sort_desc (chains_of file (revisions s))).

Lemma kept_chains_prefix file keep s : ∃ rest, sort_desc (chains_of file (revisions s)) = kept_chains file keep s ++ rest.
Proof.
  unfold kept_chains, limit. destruct (_ <? 0); [exists []; by rewrite app_nil_r |]. eexists. symmetry. apply ztake_zdrop.
Qed.

Lemma prune_thinned file keep s n m c : rows_ok n (revisions s) m → latest_chain_id file s = Some c →
  thinned (Some (file, c)) s (snd (prune_old_chains file keep s)).
Proof.
  intros Hok Hl. unfold prune_old_chains. destruct (keep =? 0); [apply thinned_refl |]. fold (kept_chains file keep s).
  destruct (zlen _ <? keep); [apply thinned_refl |]. destruct (list.last (kept_chains file keep s)) as [min_keep |] eqn:Hm; [| apply thinned_refl].
  split; [done |]. exists (λ a b, negb (bool_decide (a = file) && (b <? min_keep))). split.
  - cbn. unfold alive. clear. induction (revisions s) as [| r rows IH]; [done |]. rewrite !(filter_cons _ r), IH.
    destruct (_ && _); cbn; repeat (rewrite decide_True by done || rewrite decide_False by done); done.
  - intros [a b] [= <- <-]. cbn. rewrite bool_decide_eq_true_2 by done. cbn. apply negb_true_iff, Z.ltb_ge.
    destruct (kept_chains_prefix file keep s) as [rest Hrest]. unfold latest_chain_id in Hl.
    destruct (latest_revision file s) as [r |] eqn:Hr; [| done]. injection Hl as <-. destruct (latest_revision_spec _ _ _ _ _ Hok Hr) as (_ & _ & Hmax).
    assert (min_keep ∈ chains_of file (revisions s)) as Hin.
    { rewrite <- sort_desc_perm, Hrest. apply elem_of_app. left. by apply last_Some_elem_of. }
    apply elem_of_chains in Hin as (r' & Hr' & Hf & <-). by apply Hmax.
Qed.

(** Pruning leaves no more chains than are kept. *)
Lemma prune_count file keep s : 0 < keep < 2 ^ 63 → chain_count file (snd (prune_old_chains file keep s)) <= keep.
Proof.
  intros Hk. unfold prune_old_chains. rewrite (proj2 (Z.eqb_neq keep 0)) by lia. fold (kept_chains file keep s).
  assert (kept_chains file keep s = ztake keep (sort_desc (chains_of file (revisions s)))) as Hkc.
  { unfold kept_chains, limit. rewrite as_i64_id by (unfold in_i64; lia). by rewrite (proj2 (Z.ltb_ge _ 0)) by lia. }
  assert (zlen (sort_desc (chains_of file (revisions s))) = chain_count file s) as Hlen by (unfold zlen, chain_count, zlen; by rewrite sort_desc_perm).
  destruct (Z.ltb_spec (zlen (kept_chains file keep s)) keep) as [Hlt | Hge].
  { cbn [snd]. rewrite Hkc, zlen_ztake, Hlen in Hlt. lia. }
  destruct (list.last (kept_chains file keep s)) as [min_keep |] eqn:Hm; cycle 1.
  { apply last_None in Hm. rewrite Hm, (@zlen_nil Z) in Hge. lia. }
  cbn [snd]. enough (length (chains_of file (revisions (delete_rows (λ r, bool_decide (rv_file r = file) && (rv_chain r <? min_keep)%Z) s))) <=
    length (kept_chains file keep s))%nat as Hle.
  { assert (zlen (kept_chains file keep s) <= keep) by (rewrite Hkc, zlen_ztake; lia). unfold chain_count, zlen in *. lia. }
  apply submseteq_length, NoDup_submseteq; [apply NoDup_remove_dups |]. intros c (r & Hr & Hf & <-)%elem_of_chains.
  apply list_elem_of_filter in Hr as [Hg Hr]. rewrite bool_decide_eq_true_2 in Hg by done. cbn [andb] in Hg. apply Z.ltb_ge in Hg.
  destruct (kept_chains_prefix file keep s) as [rest Hrest].
  assert (rv_chain r ∈ kept_chains file keep s ++ rest) as Hin by (rewrite <- Hrest, sort_desc_perm; apply elem_of_chains; by exists r).
  apply elem_of_app in Hin as [Hin | Hin]; [done |]. pose proof (sort_desc_sorted (chains_of file (revisions s))) as Hs. rewrite Hrest in Hs.
  pose proof (sorted_prefix_ge _ _ _ _ Hs Hm Hin). replace (rv_chain r) with min_keep by lia. by apply last_Some_elem_of.
Qed.

Lemma first_group_None rows gs : first_group rows gs = None → gs = [].
Proof. destruct gs as [| g gs]; cbn; [done |]. destruct (first_group rows gs); [by destruct (_ || _) | done]. Qed.

(** When nothing can be dropped, no file has two chains. *)
Lemma drop_globally_done protect s n m r : rows_ok n (revisions s) m → drop_globally_oldest_chain protect s = (0, s) →
  r ∈ revisions s → chain_count (rv_file r) s <= 1.
Proof.
  intros Hok Hno Hr. destruct (Z.leb_spec (chain_count (rv_file r) s) 1) as [| Hmany]; [done | exfalso].
  unfold drop_globally_oldest_chain in Hno. destruct (default (-1, -1) protect) as [pf pc].
  assert (∃ r', r' ∈ revisions s ∧ rv_file r' = rv_file r ∧ rv_chain r' ≠ pc) as (r' & Hr' & Hf' & Hc').
  { unfold chain_count in Hmany. pose proof (NoDup_remove_dups (map rv_chain (of_file (rv_file r) (revisions s)))) as Hnd.
    change (remove_dups _) with (chains_of (rv_file r) (revisions s)) in Hnd.
    assert (∃ x, x ∈ chains_of (rv_file r) (revisions s) ∧ x ≠ pc) as (x & (r' & Hr' & Hf' & <-)%elem_of_chains & Hx); [| by exists r'].
    destruct (chains_of (rv_file r) (revisions s)) as [| x [| y l]]; [rewrite (@zlen_nil Z) in Hmany; lia | rewrite zlen_cons, (@zlen_nil Z) in Hmany; lia |].
    destruct (decide (x = pc)) as [-> |]; [| exists x; split; [by left | done]]. exists y. split; [right; by left |].
    intros ->. apply list.NoDup_cons in Hnd as [Hnin _]. apply Hnin. by left. }
  assert ((rv_file r', rv_chain r') ∈ map (λ r, (rv_file r, rv_chain r))
    (filter (λ r0, ¬ (rv_file r0 = pf ∧ rv_chain r0 = pc) ∧ 1 < chain_count (rv_file r0) s) (revisions s))) as Hin.
  { apply list_elem_of_In, (in_map (λ r, (rv_file r, rv_chain r))), list_elem_of_In. apply list_elem_of_filter. rewrite Hf'. split; [| done].
    split; [by intros [_ ?] | done]. }
  destruct (first_group _ _) as [[file chain] |] eqn:Hg; [| by rewrite (first_group_None _ _ Hg) in Hin; apply list.not_elem_of_nil in Hin].
  apply first_group_elem, elem_of_map in Hg as (g & [= -> ->] & Hgr). apply list_elem_of_filter in Hgr as [_ Hgr].
  unfold drop_chain in Hno. injection Hno as Hz _.
  assert (0 < payload_bytes (of_chain (rv_file g) (rv_chain g) (revisions s))); [| lia].
  apply (payload_pos _ g); [by apply list_elem_of_filter |]. intros r0 [_ Hr0]%list_elem_of_filter. apply (ro_content _ _ _ Hok r0 Hr0).
Qed.

(** What [drop_old] does: the newest chain stays, and the budget of the server
    is met unless every file is down to one chain. *)
Lemma drop_old_spec config file s n m c : rows_ok n (revisions s) m → latest_chain_id file s = Some c →
  let s' := drop_old config file s in
  thinned (Some (file, c)) s s' ∧
  (total_payload_bytes s' <= hc_per_server_disk_budget config ∨ ∀ r, r ∈ revisions s' → chain_count (rv_file r) s' <= 1).
Proof.
  intros Hok Hl. cbv zeta. unfold drop_old. rewrite Hl. cbn [fmap option_fmap option_map].
  set (keep := Z.max (hc_keep_chains config) 1). set (s1 := snd (prune_old_chains file keep s)).
  pose proof (prune_thinned file keep s n m c Hok Hl) as H1. fold s1 in H1.
  set (s2 := shrink_loop _ (file_payload_bytes file) _ _ s1).
  pose proof (drop_oldest_drops file (Some c) keep) as Hd2. pose proof (drop_globally_drops (Some (file, c))) as Hd3.
  assert (thinned (Some (file, c)) s s2) as H2 by (eapply thinned_trans; [exact H1 | by apply shrink_loop_thinned]).
  assert (thinned (Some (file, c)) s (shrink_loop (S (length (revisions s2))) total_payload_bytes (hc_per_server_disk_budget config)
    (drop_globally_oldest_chain (Some (file, c))) s2)) as H3 by (eapply thinned_trans; [exact H2 | by apply shrink_loop_thinned]).
  split; [exact H3 |]. pose proof (thinned_rows _ _ _ _ _ H2 Hok) as Hok2. pose proof (thinned_rows _ _ _ _ _ H3 Hok) as Hok3.
  destruct (shrink_loop_post n m _ (S (length (revisions s2))) total_payload_bytes (hc_per_server_disk_budget config) _ Hd3 s2 Hok2 ltac:(lia))
    as [Hb | Hno]; [by left | right]. intros r Hr. by eapply drop_globally_done.
Qed.

(** The budget of a file has no effect: after pruning, a file has no more
    chains than [drop_oldest_chain] has to leave. *)
Theorem per_file_budget_unused config file s budget : hc_keep_chains config < 2 ^ 63 →
  drop_old (mk_HistoryConfig (hc_anchor_interval config) (hc_keep_chains config) budget (hc_per_server_disk_budget config)) file s =
  drop_old config file s.
Proof.
  intros Hk. assert (∀ budget keep protect, 0 < keep < 2 ^ 63 → let s1 := snd (prune_old_chains file keep s) in
    shrink_loop (S (length (revisions s1))) (file_payload_bytes file) budget (drop_oldest_chain file protect keep) s1 = s1) as Hno.
  { intros b keep protect Hkeep s1. cbn [shrink_loop]. pose proof (prune_count file keep s Hkeep) as Hc. fold s1 in Hc.
    destruct (b <? file_payload_bytes file s1); [| done]. unfold drop_oldest_chain. by rewrite (proj2 (Z.leb_le _ _)) by lia. }
  unfold drop_old. cbn [hc_keep_chains hc_per_file_disk_budget hc_per_server_disk_budget]. by rewrite !Hno by lia.
Qed.
End theory.

(** ** Histories *)

Module HistoryOp.
Inductive HistoryOp : Type :=
  | Edit (config : HistoryConfig) (path : string) (before : option bytes) (after : bytes) (user : option Z) (now_ms : Z)
  | Delete (path : string)
  | Rename (old new : string)
  | Clear.
End HistoryOp.

Section history.
Context (zstd_encode_all : bytes → result string bytes) (zstd_decode_all : bytes → result string bytes)
  (encode_with_dictionary : bytes → bytes → result string bytes)
  (decode_with_dictionary : bytes → bytes → result string bytes) (blake3 : bytes → bytes).
Local Notation "'edit_file'" := (record_edit zstd_encode_all zstd_decode_all encode_with_dictionary decode_with_dictionary blake3).
Local Notation "'content_of'" := (get_content zstd_decode_all decode_with_dictionary blake3).
Local Notation "'history_rows'" := (rows_ok zstd_decode_all decode_with_dictionary blake3 MAX_CHAIN).
Local Notation "'encoder_error'" := (encoder_fails zstd_encode_all encode_with_dictionary).

Definition run_history_op (op : HistoryOp.HistoryOp) (s : Storage) : Storage :=
  match op with
  | HistoryOp.Edit config path before after user now_ms => snd (edit_file config path before after user now_ms s)
  | HistoryOp.Delete path => delete_file path s
  | HistoryOp.Rename old new => snd (rename_file old new s)
  | HistoryOp.Clear => clear s
  end.
Definition run_history (ops : list HistoryOp.HistoryOp) : Storage := fold_left (λ s op, run_history_op op s) ops Storage_open.

(** Chains are not made longer than [reconstruct] follows them. *)
Definition config_ok (config : HistoryConfig) : Prop := hc_anchor_interval config <= Z.of_nat MAX_CHAIN.
Definition history_op_ok (op : HistoryOp.HistoryOp) : Prop :=
  match op with HistoryOp.Edit config _ _ _ _ _ => config_ok config | _ => True end.

Context (Hhash : ∀ c, zlen (blake3 c) = 32)
  (Hzstd : ∀ c p, zstd_encode_all c = Ok p → zstd_decode_all p = Ok c ∧ p ≠ [])
  (Hdict : ∀ c d p, encode_with_dictionary c d = Ok p → decode_with_dictionary p d = Ok c ∧ p ≠ []).

Lemma get_content_ok s m r : history_rows (revisions s) m → r ∈ revisions s → content_of (rv_id r) s = Some (m (rv_id r)).
Proof. intros Hok Hr. unfold get_content. destruct s as [fs rows]. by rewrite (reconstruct_ok _ _ _ _ rows m Hok Hhash fs r Hr). Qed.

Lemma record_edit_ok config path before after user now s m : history_rows (revisions s) m → config_ok config →
  let '(res, s') := edit_file config path before after user now s in
  ∃ m', history_rows (revisions s') m' ∧ (∀ r, r ∈ revisions s → m' (rv_id r) = m (rv_id r)) ∧
    match res with
    | Ok id => blake3 (m' id) = blake3 after ∧ ∃ r, r ∈ revisions s' ∧ rv_id r = id
    | Err _ => encoder_error
    end.
Proof.
  intros Hok Hc. unfold record_edit. destruct (upsert_file path s) as [file_id s0] eqn:Hu.
  assert (revisions s0 = revisions s) as Hr0 by (unfold upsert_file in Hu; destruct (find_file path s); by injection Hu as <- <-).
  rewrite (stt_bind_ok _ _ _ file_id s0) by (by rewrite Hu). rewrite <- Hr0 in Hok |- *.
  assert (2 <= MAX_CHAIN <= MAX_CHAIN)%nat as Hmax by (unfold MAX_CHAIN; lia).
  destruct (record_revision_stored zstd_encode_all zstd_decode_all encode_with_dictionary decode_with_dictionary blake3 MAX_CHAIN Hmax Hhash Hzstd Hdict
    (Z.max (hc_anchor_interval config) 1) file_id before after user now m s0 Hok) as (m' & new & _ & Hrows & Hok' & Hm & HQ);
    [unfold config_ok, MAX_CHAIN in *; lia |].
  unfold mbind at 1, stt_bind at 1. destruct (record_revision _ _ _ _ _ _ _ _ _ _ _ _) as [[[recorded id] | e] s1]; cbn [fst snd] in *; [| by exists m'].
  destruct HQ as (Hhash' & _ & r & Hl & Hid).
  destruct (latest_revision_spec _ _ _ _ _ _ _ _ Hok' Hl) as (Hr & Hf & _).
  destruct recorded; [| exists m'; split; [done |]; split; [done |]; split; [done | by exists r]].
  destruct (drop_old_spec _ _ _ config file_id s1 _ _ (rv_chain r) Hok') as [Hth _]; [unfold latest_chain_id; by rewrite Hl |].
  change (_ ← modify (drop_old config file_id); mret id : stt Storage string Z) with (λ s, (Ok id, drop_old config file_id s) : result string Z * Storage).
  exists m'. split; [by eapply thinned_rows |]. split; [done |]. split; [done |]. exists r. split; [| done].
  destruct Hth as (_ & f & -> & Hprot). apply elem_of_alive. split; [| done]. rewrite Hf. exact (Hprot _ eq_refl).
Qed.

Lemma run_history_op_ok op s m : history_rows (revisions s) m → history_op_ok op → ∃ m', history_rows (revisions (run_history_op op s)) m'.
Proof.
  intros Hok Hop. destruct op as [config path before after user now | path | old new |]; cbn.
  - pose proof (record_edit_ok config path before after user now s m Hok Hop) as He. destruct (edit_file _ _ _ _ _ _ s) as [res s'].
    destruct He as (m' & Hok' & _). by exists m'.
  - exists m. unfold delete_file. destruct (find_file path s) as [id |]; [| done]. cbn.
    assert (filter (λ r, rv_file r ≠ id) (revisions s) = alive (λ a _ : Z, negb (bool_decide (a = id))) (revisions s)) as ->.
    { apply list_filter_iff. intros r. by rewrite negb_true_iff, bool_decide_eq_false. }
    by apply rows_ok_alive.
  - exists m. unfold rename_file. destruct (find_file old s); [| done]. case_bool_decide; [done |]. by destruct (find_file new s).
  - exists m. apply rows_ok_nil.
Qed.

Lemma run_history_ok ops : Forall history_op_ok ops → ∃ m, history_rows (revisions (run_history ops)) m.
Proof.
  unfold run_history. assert (∃ m, history_rows (revisions Storage_open) m) as H0.
  { exists (λ _, []). apply rows_ok_nil. }
  revert H0. generalize Storage_open. induction ops as [| op ops IH]; intros s [m Hm] Hops; [by exists m |].
  apply Forall_cons_iff in Hops as [Hop Hops]. cbn. apply IH; [by eapply run_history_op_ok | done].
Qed.

(** C22. The history gives back what was saved.  After any edits, deletions and
    renames, with any configuration whose chains are at most as long as a
    reconstruction follows, every revision that is still stored is
    reconstructed, through its chain of deltas, to a content of the recorded
    size and hash; a further edit can be read back under the id it returns (or
    under that of the newest revision, when the hash is the same), no matter
    which old chains were dropped for it; it changes the content of no other
    revision; and it fails only when the compressor does. *)
Theorem revisions_recoverable (ops : list HistoryOp.HistoryOp) (config : HistoryConfig) (path : string) (before : option bytes)
    (after : bytes) (user : option Z) (now : Z) (Hops : Forall history_op_ok ops) (Hconfig : config_ok config) :
  let s := run_history ops in
  (∀ r, r ∈ revisions s → ∃ c, content_of (rv_id r) s = Some c ∧ zlen c = rv_size r ∧ blake3 c = rv_hash r) ∧
  match edit_file config path before after user now s with
  | (Ok id, s') =>
      (∃ c, content_of id s' = Some c ∧ blake3 c = blake3 after) ∧
      ∀ r, r ∈ revisions s → r ∈ revisions s' → content_of (rv_id r) s' = content_of (rv_id r) s
  | (Err _, _) => encoder_error
  end.
Proof.
  cbv zeta. destruct (run_history_ok ops Hops) as [m Hok]. generalize dependent (run_history ops). intros s Hok. split.
  - intros r Hr. exists (m (rv_id r)). rewrite (get_content_ok s m r Hok Hr). destruct (ro_content _ _ _ _ _ _ Hok r Hr) as (-> & -> & _). done.
  - pose proof (record_edit_ok config path before after user now s m Hok Hconfig) as He.
    destruct (edit_file config path before after user now s) as [[id | e] s']; destruct He as (m' & Hok' & Hm & Hres); [| done].
    destruct Hres as (Hh & r & Hr & <-). split; [exists (m' (rv_id r)); by rewrite (get_content_ok s' m' r Hok' Hr) |].
    intros r' H1 H2. by rewrite (get_content_ok s' m' r' Hok' H2), (get_content_ok s m r' Hok H1), Hm.
Qed.
End history.

(** *** An example

    A compressor that stores a content as it is, or as what follows the
    dictionary. *)
Definition toy_encode (c : bytes) : result string bytes := Ok (0 :: c).
Definition toy_decode (p : bytes) : result string bytes := match p with _ :: c => Ok c | [] => Err "empty frame"%string end.
Definition toy_encode_dict (c d : bytes) : result string bytes :=
  Ok (if decide (take (length d) c = d) then 1 :: drop (length d) c else 2 :: c).
Definition toy_decode_dict (p d : bytes) : result string bytes :=
  match p with
  | 1 :: c => Ok (d ++ c)
  | _ :: c => Ok c
  | [] => Err "empty frame"%string
  end.
Definition toy_hash (c : bytes) : bytes := take 32 (c ++ replicate 32 0).

Lemma zlen_toy_hash c : zlen (toy_hash c) = 32.
Proof. unfold toy_hash, zlen. rewrite length_take, length_app, length_replicate. lia. Qed.
Lemma toy_decode_encode c p : toy_encode c = Ok p → toy_decode p = Ok c ∧ p ≠ [].
Proof. by intros [= <-]. Qed.
Lemma toy_decode_encode_dict c d p : toy_encode_dict c d = Ok p → toy_decode_dict p d = Ok c ∧ p ≠ [].
Proof.
  unfold toy_encode_dict. intros [= <-]. destruct (decide (take (length d) c = d)) as [Ht |]; [| done]. cbn. split; [| done].
  rewrite <- Ht at 1. by rewrite take_drop.
Qed.

Definition sample_config : HistoryConfig := mk_HistoryConfig 4 2 1000 1000.
Definition sample_edits : list HistoryOp.HistoryOp :=
  [HistoryOp.Edit sample_config "motd.txt" (Some [1; 2; 3; 4; 5; 6; 7; 8]) [1; 2; 3; 4; 5; 6; 7; 8; 9] (Some 7) 100;
   HistoryOp.Edit sample_config "motd.txt" None [1; 2; 3; 4; 5; 6; 7; 8; 9; 10] (Some 7) 200].

(** A snapshot and two deltas. *)
Example sample_history :
  let s := run_history toy_encode toy_decode toy_encode_dict toy_decode_dict toy_hash sample_edits in
  map (λ r, (rv_id r, rv_base r, rv_payload r)) (list_revisions "motd.txt" s) =
    [(3, Some 2, [1; 10]); (2, Some 1, [1; 9]); (1, None, [0; 1; 2; 3; 4; 5; 6; 7; 8])] ∧
  get_content toy_decode toy_decode_dict toy_hash 3 s = Some [1; 2; 3; 4; 5; 6; 7; 8; 9; 10].
Proof. vm_compute. split; reflexivity. Qed.

Lemma revisions_recoverable_witness :
  let s := run_history toy_encode toy_decode toy_encode_dict toy_decode_dict toy_hash sample_edits in
  (∀ r, r ∈ revisions s → ∃ c, get_content toy_decode toy_decode_dict toy_hash (rv_id r) s = Some c ∧
    zlen c = rv_size r ∧ toy_hash c = rv_hash r) ∧
  match record_edit toy_encode toy_decode toy_encode_dict toy_decode_dict toy_hash sample_config "motd.txt" None [5] None 300 s with
  | (Ok id, s') =>
      (∃ c, get_content toy_decode toy_decode_dict toy_hash id s' = Some c ∧ toy_hash c = toy_hash [5]) ∧
      ∀ r, r ∈ revisions s → r ∈ revisions s' → get_content toy_decode toy_decode_dict toy_hash (rv_id r) s' =
        get_content toy_decode toy_decode_dict toy_hash (rv_id r) s
  | (Err _, _) => encoder_fails toy_encode toy_encode_dict
  end.
Proof.
  apply (revisions_recoverable toy_encode toy_decode toy_encode_dict toy_decode_dict toy_hash zlen_toy_hash toy_decode_encode
    toy_decode_encode_dict sample_edits sample_config "motd.txt" None [5] None 300).
  - repeat constructor; vm_compute; discriminate.
  - vm_compute. discriminate.
Defined.
