(* ===== verification/Schedules.v ===== *)
(** * Schedules: running the actions of a schedule
    (application/src/server/schedule/mod.rs, conditions.rs, actions.rs)

    A schedule is a flat list of actions in which [if], [else_if], [else] and
    [end_if] are markers.  The executor checks that the markers match and runs
    the list with a stack of the blocks that are open.  The server is a state
    that every observation may find changed; the actions that act on it are an
    arbitrary function of it. *)
From Stdlib Require Import Ascii.
From S2P Require Import Prelude ServerState.
Local Open Scope string_scope.
Local Open Scope list_scope.
Local Open Scope Z_scope.

(** ** Data *)

Inductive ScheduleConditionComparator : Type := SmallerThan | SmallerThanOrEquals | Equal | GreaterThan | GreaterThanOrEquals.
Inductive ScheduleResourceMetric : Type := Cpu | Memory | Disk.

(** [#[serde(untagged)]]; a variable is its name. *)
Inductive ScheduleDynamicParameter : Type := Raw (value : string) | Variable_ (variable : string).

(** An [f64] is its bits. *)
Module ScheduleCondition.
Inductive ScheduleCondition : Type :=
  | None
  | And (conditions : list ScheduleCondition)
  | Or (conditions : list ScheduleCondition)
  | Not (condition : ScheduleCondition)
  | ServerState (state : ServerState.ServerState)
  | Uptime (comparator : ScheduleConditionComparator) (value : Z)
  | ResourceUsage (metric : ScheduleResourceMetric) (comparator : ScheduleConditionComparator) (value : Z)
  | FileExists (file : string)
  | VariableExists (variable : string)
  | VariableEquals (variable : string) (equals : ScheduleDynamicParameter)
  | VariableContains (variable : string) (contains : ScheduleDynamicParameter)
  | VariableStartsWith (variable : string) (starts_with : ScheduleDynamicParameter)
  | VariableEndsWith (variable : string) (ends_with : ScheduleDynamicParameter).
End ScheduleCondition.

Module ServerPowerAction.
Inductive ServerPowerAction : Type := Start | Stop | Restart | Kill.
End ServerPowerAction.

Module ScheduleBackupSelector.
Inductive ScheduleBackupSelector : Type :=
  | Latest (backup_group_uuid : option Z)
  | Oldest (backup_group_uuid : option Z)
  | Uuid (uuid : ScheduleDynamicParameter)
  | Name (name : ScheduleDynamicParameter) (backup_group_uuid : option Z) (oldest : bool).
End ScheduleBackupSelector.

(** A regex is its source, an archive format its name. *)
Module ScheduleAction.
Local Notation "'Param'" := ScheduleDynamicParameter.
Local Notation "'Selector'" := ScheduleBackupSelector.ScheduleBackupSelector.
Inductive ScheduleAction : Type :=
  | Sleep (duration : Z)
  | Ensure (condition : ScheduleCondition.ScheduleCondition)
  | If (condition : ScheduleCondition.ScheduleCondition)
  | ElseIf (condition : ScheduleCondition.ScheduleCondition)
  | Else
  | EndIf
  | Exit (successful : bool)
  | Format (format : string) (output_into : string)
  | MatchRegex (input : Param) (regex : string) (output_into : list (option string))
  | WaitForConsoleLine (ignore_failure : bool) (contains : Param) (case_insensitive : bool) (timeout : Z) (output_into : option string)
  | WaitForState (ignore_failure : bool) (state : ServerState.ServerState) (timeout : Z)
  | SendPower (ignore_failure : bool) (action : ServerPowerAction.ServerPowerAction)
  | SendCommand (ignore_failure : bool) (command : Param)
  | CreateBackup (ignore_failure foreground : bool) (name : option Param) (backup_group_uuid : option Z) (ignored_files : list string)
  | RestoreBackup (ignore_failure truncate_directory restore_startup : bool) (backup : Selector)
  | DeleteBackup (ignore_failure : bool) (backup : Selector)
  | MoveBackup (ignore_failure : bool) (backup : Selector) (backup_group_uuid : option Z)
  | CreateDirectory (ignore_failure : bool) (root name : Param)
  | WriteFile (ignore_failure append : bool) (file content : Param)
  | CopyFile (ignore_failure foreground : bool) (file destination : Param)
  | DeleteFiles (ignore_failure : bool) (root : Param) (files : list string)
  | RenameFiles (ignore_failure : bool) (root : Param) (files : list (string * string))
  | CompressFiles (ignore_failure foreground : bool) (root : Param) (files : list string) (format : string) (name : Param)
  | DecompressFile (ignore_failure foreground : bool) (root file : Param)
  | UpdateStartupVariable (ignore_failure : bool) (env_variable value : Param)
  | UpdateStartupCommand (ignore_failure : bool) (command : Param)
  | UpdateStartupDockerImage (ignore_failure : bool) (image : Param).
End ScheduleAction.

Definition ignore_failure (self : ScheduleAction.ScheduleAction) : bool :=
  match self with
  | ScheduleAction.Sleep _ | ScheduleAction.Ensure _ | ScheduleAction.If _ | ScheduleAction.ElseIf _ | ScheduleAction.Else
  | ScheduleAction.EndIf | ScheduleAction.Exit _ | ScheduleAction.Format _ _ | ScheduleAction.MatchRegex _ _ _ => false
  | ScheduleAction.WaitForConsoleLine i _ _ _ _ | ScheduleAction.WaitForState i _ _ | ScheduleAction.SendPower i _
  | ScheduleAction.SendCommand i _ | ScheduleAction.CreateBackup i _ _ _ _ | ScheduleAction.RestoreBackup i _ _ _
  | ScheduleAction.DeleteBackup i _ | ScheduleAction.MoveBackup i _ _ | ScheduleAction.CreateDirectory i _ _
  | ScheduleAction.WriteFile i _ _ _ | ScheduleAction.CopyFile i _ _ _ | ScheduleAction.DeleteFiles i _ _
  | ScheduleAction.RenameFiles i _ _ | ScheduleAction.CompressFiles i _ _ _ _ _ | ScheduleAction.DecompressFile i _ _ _
  | ScheduleAction.UpdateStartupVariable i _ _ | ScheduleAction.UpdateStartupCommand i _
  | ScheduleAction.UpdateStartupDockerImage i _ => i
  end.

(** [configuration::ScheduleAction]: an action and its uuid *)
Record RawAction : Type := mk_RawAction { ra_uuid : Z; ra_action : ScheduleAction.ScheduleAction }.

Record ScheduleExecutionContext : Type := mk_ScheduleExecutionContext {
  sec_schedule_uuid : Z;
  sec_variables : gmap string string;
}.
Definition ScheduleExecutionContext_new (schedule_uuid : Z) : ScheduleExecutionContext := mk_ScheduleExecutionContext schedule_uuid ∅.
Definition resolve_parameter (self : ScheduleExecutionContext) (parameter : ScheduleDynamicParameter) : option string :=
  match parameter with
  | Raw value => Some value
  | Variable_ variable => sec_variables self !! variable
  end.
Definition get_variable_by_str (self : ScheduleExecutionContext) (variable : string) : option string := sec_variables self !! variable.
Definition store_variable (variable value : string) (self : ScheduleExecutionContext) : ScheduleExecutionContext :=
  mk_ScheduleExecutionContext (sec_schedule_uuid self) (<[variable := value]> (sec_variables self)).

Record ResolvedBackupSelector : Type := mk_ResolvedBackupSelector {
  rbs_backup_uuid : option Z;
  rbs_backup_name : option string;
  rbs_backup_group_uuid : option Z;
  rbs_oldest : bool;
}.
(** [Uuid::parse_str] *)
Class UuidParser : Type := parse_str : string → option Z.

Definition resolve {P : UuidParser} (self : ScheduleBackupSelector.ScheduleBackupSelector) (execution_context : ScheduleExecutionContext) :
    result string ResolvedBackupSelector :=
  match self with
  | ScheduleBackupSelector.Latest group => Ok (mk_ResolvedBackupSelector None None group false)
  | ScheduleBackupSelector.Oldest group => Ok (mk_ResolvedBackupSelector None None group true)
  | ScheduleBackupSelector.Uuid uuid =>
      match resolve_parameter execution_context uuid with
      | None => Err "unable to resolve parameter `uuid` into a string."
      | Some uuid =>
          match parse_str uuid with
          | Some uuid => Ok (mk_ResolvedBackupSelector (Some uuid) None None false)
          | None => Err "unable to parse parameter `uuid` into a uuid."
          end
      end
  | ScheduleBackupSelector.Name name group oldest =>
      match resolve_parameter execution_context name with
      | Some name => Ok (mk_ResolvedBackupSelector None (Some name) group oldest)
      | None => Err "unable to resolve parameter `name` into a string."
      end
  end.

(** ** [validate_action_structure] *)

Definition MAX_IF_DEPTH : Z := 8.

Fixpoint validate_loop (actions : list RawAction) (stack : list (Z * bool)) : result (Z * string) unit :=
  match actions with
  | [] => match stack with
          | (uuid, _) :: _ => Err (uuid, "`if` block is never closed with `end_if`")
          | [] => Ok tt
          end
  | action :: actions =>
      match ra_action action with
      | ScheduleAction.If _ =>
          if MAX_IF_DEPTH <=? zlen stack then Err (ra_uuid action, "maximum `if` nesting depth exceeded")
          else validate_loop actions ((ra_uuid action, false) :: stack)
      | ScheduleAction.ElseIf _ =>
          match stack with
          | [] => Err (ra_uuid action, "`else_if` without a matching `if`")
          | (_, true) :: _ => Err (ra_uuid action, "`else_if` after `else` in the same block")
          | (_, false) :: _ => validate_loop actions stack
          end
      | ScheduleAction.Else =>
          match stack with
          | [] => Err (ra_uuid action, "`else` without a matching `if`")
          | (_, true) :: _ => Err (ra_uuid action, "multiple `else` in the same block")
          | (uuid, false) :: stack => validate_loop actions ((uuid, true) :: stack)
          end
      | ScheduleAction.EndIf =>
          match stack with
          | [] => Err (ra_uuid action, "`end_if` without a matching `if`")
          | _ :: stack => validate_loop actions stack
          end
      | _ => validate_loop actions stack
      end
  end.
Definition validate_action_structure (actions : list RawAction) : result (Z * string) unit := validate_loop actions [].

(** ** The server *)

Record ResourceUsage : Type := mk_ResourceUsage { ru_uptime : Z; ru_cpu_absolute : Z; ru_memory_bytes : Z; ru_disk_bytes : Z }.

(** [AutoKillConfiguration]; the errors of the power operations, which may carry a message *)
Record AutoKill : Type := mk_AutoKill { ak_enabled : bool; ak_seconds : Z }.
Inductive PowerError : Type := Message (message : string) | Unexpected.
Inductive ActivityEvent : Type := PowerStart | PowerStop | PowerRestart | PowerKill | ConsoleCommand (command : string).

(** What an execution asks of the server, each time with an effect on it (and
    time passes); [perform] is [ScheduleAction::execute] for the actions not
    spelled out below. *)
Class World (S : Type) : Type := {
  get_state : S → ServerState.ServerState * S;
  resource_usage : S → ResourceUsage * S;
  symlink_metadata_is_ok : string → S → bool * S;
  locked_state : S → option string * S;
  sleep : Z → S → S;
  wait_for_state : ServerState.ServerState → Z → S → bool * S;
  start : S → result PowerError unit * S;
  restarting : S → bool * S;
  auto_kill : S → AutoKill * S;
  restart : S → result PowerError unit * S;
  restart_with_kill_timeout : Z → S → result PowerError unit * S;
  stop : S → result PowerError unit * S;
  stop_with_kill_timeout : Z → S → result PowerError unit * S;
  kill : S → result PowerError unit * S;
  send_stdin : string → S → bool * S;
  log_activity : ActivityEvent → Z → S → S;
  perform : ScheduleAction.ScheduleAction → ScheduleExecutionContext → S → result string unit * ScheduleExecutionContext * S;
}.

(** [f64] comparisons, [as f64], and [Regex::captures] without the whole match *)
Class Floats : Type := { f64_lt : Z → Z → bool; f64_le : Z → Z → bool; f64_eq : Z → Z → bool; as_f64 : Z → Z }.
Class Regexes : Type := captures : string → string → option (list (option string)).

Fixpoint str_contains (needle s : string) : bool :=
  String.prefix needle s || match s with EmptyString => false | String _ s => str_contains needle s end.
Fixpoint str_ends_with (suffix s : string) : bool :=
  String.eqb s suffix || match s with EmptyString => false | String _ s => str_ends_with suffix s end.

Section execute.
Context {S : Type} {HW : World S} {HF : Floats} {HR : Regexes}.

Definition compare_f64 (self : ScheduleConditionComparator) (lhs rhs : Z) : bool :=
  match self with
  | SmallerThan => f64_lt lhs rhs
  | SmallerThanOrEquals => f64_le lhs rhs
  | Equal => f64_eq lhs rhs
  | GreaterThan => f64_lt rhs lhs
  | GreaterThanOrEquals => f64_le rhs lhs
  end.

Definition variable_test (ctx : ScheduleExecutionContext) (variable : string) (parameter : ScheduleDynamicParameter)
    (test : string → string → bool) : bool :=
  match get_variable_by_str ctx variable with
  | None => false
  | Some value =>
      match resolve_parameter ctx parameter with
      | None => false
      | Some p => test p value
      end
  end.

Fixpoint evaluate (self : ScheduleCondition.ScheduleCondition) (ctx : ScheduleExecutionContext) (server : S) : bool * S :=
  match self with
  | ScheduleCondition.None => (true, server)
  | ScheduleCondition.And conditions =>
      (fix all conditions server :=
         match conditions with
         | [] => (true, server)
         | condition :: conditions =>
             let '(b, server) := evaluate condition ctx server in
             if negb b then (false, server) else all conditions server
         end) conditions server
  | ScheduleCondition.Or conditions =>
      (fix any conditions server :=
         match conditions with
         | [] => (false, server)
         | condition :: conditions =>
             let '(b, server) := evaluate condition ctx server in
             if (b : bool) then (true, server) else any conditions server
         end) conditions server
  | ScheduleCondition.Not condition => let '(b, server) := evaluate condition ctx server in (negb b, server)
  | ScheduleCondition.ServerState state => let '(s, server) := get_state server in (bool_decide (s = state), server)
  | ScheduleCondition.Uptime comparator value =>
      let '(u, server) := resource_usage server in (compare_f64 comparator (as_f64 (ru_uptime u)) (as_f64 value), server)
  | ScheduleCondition.ResourceUsage metric comparator value =>
      let '(u, server) := resource_usage server in
      let current := match metric with
                     | Cpu => ru_cpu_absolute u
                     | Memory => as_f64 (ru_memory_bytes u)
                     | Disk => as_f64 (ru_disk_bytes u)
                     end in
      (compare_f64 comparator current value, server)
  | ScheduleCondition.FileExists file => symlink_metadata_is_ok file server
  | ScheduleCondition.VariableExists variable => (bool_decide (is_Some (get_variable_by_str ctx variable)), server)
  | ScheduleCondition.VariableEquals variable equals =>
      (match get_variable_by_str ctx variable with
       | None => false
       | Some value => bool_decide (Some value = resolve_parameter ctx equals)
       end, server)
  | ScheduleCondition.VariableContains variable contains => (variable_test ctx variable contains str_contains, server)
  | ScheduleCondition.VariableStartsWith variable starts_with => (variable_test ctx variable starts_with String.prefix, server)
  | ScheduleCondition.VariableEndsWith variable ends_with => (variable_test ctx variable ends_with str_ends_with, server)
  end.

(** The loop of [Format]; [var] is the name being read, after an opening brace. *)
Fixpoint format_loop (ctx : ScheduleExecutionContext) (var : option string) (s : string) : string :=
  match s with
  | EmptyString => match var with Some name => String "{"%char name | None => "" end
  | String ch rest =>
      match var with
      | Some name =>
          if Ascii.eqb ch "}"%char then
            match get_variable_by_str ctx name with
            | Some value => value +:+ format_loop ctx None rest
            | None => String "{"%char (name +:+ String "}"%char (format_loop ctx None rest))
            end
          else format_loop ctx (Some (name +:+ String ch "")) rest
      | None =>
          if Ascii.eqb ch "{"%char then
            match rest with
            | String ch2 rest2 => if Ascii.eqb ch2 "{"%char then String "{"%char (format_loop ctx None rest2) else format_loop ctx (Some "") rest
            | EmptyString => format_loop ctx (Some "") rest
            end
          else if Ascii.eqb ch "}"%char then
            match rest with
            | String ch2 rest2 => if Ascii.eqb ch2 "}"%char then String "}"%char (format_loop ctx None rest2) else String ch (format_loop ctx None rest)
            | EmptyString => String ch (format_loop ctx None rest)
            end
          else String ch (format_loop ctx None rest)
      end
  end.

(** The groups of a match into the variables they are assigned to. *)
Fixpoint store_groups (groups : list (option string)) (output_into : list (option string)) (ctx : ScheduleExecutionContext) : ScheduleExecutionContext :=
  match groups, output_into with
  | g :: groups, o :: output_into =>
      store_groups groups output_into (match g, o with Some m, Some v => store_variable v m ctx | _, _ => ctx end)
  | _, _ => ctx
  end.

(** What the power actions do with the answer of the operation. *)
Definition power_result (unexpected : string) (event : ActivityEvent) (ctx : ScheduleExecutionContext)
    (r : result PowerError unit * S) : result string unit * ScheduleExecutionContext * S :=
  match r with
  | (Err (Message message), server) => (Err message, ctx, server)
  | (Err Unexpected, server) => (Err unexpected, ctx, server)
  | (Ok tt, server) => (Ok tt, ctx, log_activity event (sec_schedule_uuid ctx) server)
  end.

Definition send_power (action : ServerPowerAction.ServerPowerAction) (ctx : ScheduleExecutionContext) (server : S) :
    result string unit * ScheduleExecutionContext * S :=
  match action with
  | ServerPowerAction.Start =>
      let '(state, server) := get_state server in
      if negb (bool_decide (state = ServerState.Offline)) then (Err "server is already running or starting.", ctx, server)
      else power_result "an unexpected error occurred while starting the server." PowerStart ctx (start server)
  | ServerPowerAction.Restart =>
      let '(busy, server) := restarting server in
      if (busy : bool) then (Err "server is already restarting.", ctx, server)
      else
        let '(ak, server) := auto_kill server in
        power_result "an unexpected error occurred while restarting the server." PowerRestart ctx
          (if ak_enabled ak && (0 <? ak_seconds ak) then restart_with_kill_timeout (ak_seconds ak) server else restart server)
  | ServerPowerAction.Stop =>
      let '(state, server) := get_state server in
      if bool_decide (state = ServerState.Offline) || bool_decide (state = ServerState.Stopping) then
        (Err "server is already offline or stopping.", ctx, server)
      else
        let '(ak, server) := auto_kill server in
        power_result "an unexpected error occurred while stopping the server." PowerStop ctx
          (if ak_enabled ak && (0 <? ak_seconds ak) then stop_with_kill_timeout (ak_seconds ak) server else stop server)
  | ServerPowerAction.Kill =>
      let '(state, server) := get_state server in
      if bool_decide (state = ServerState.Offline) then (Err "server is already offline.", ctx, server)
      else
        match kill server with
        | (Err _, server) => (Err "an unexpected error occurred while killing the server.", ctx, server)
        | (Ok _, server) => (Ok tt, ctx, log_activity PowerKill (sec_schedule_uuid ctx) server)
        end
  end.

Definition newline : string := String (ascii_of_nat 10) "".

Definition send_command (command : ScheduleDynamicParameter) (ctx : ScheduleExecutionContext) (server : S) :
    result string unit * ScheduleExecutionContext * S :=
  let '(state, server) := get_state server in
  if bool_decide (state = ServerState.Offline) then (Err "server is not running.", ctx, server)
  else
    match resolve_parameter ctx command with
    | None => (Err "unable to resolve parameter `command` into a string.", ctx, server)
    | Some command =>
        let '(ok, server) := send_stdin (command +:+ newline) server in
        (Ok tt, ctx, if (ok : bool) then log_activity (ConsoleCommand command) (sec_schedule_uuid ctx) server else server)
    end.

Definition execute (self : ScheduleAction.ScheduleAction) (ctx : ScheduleExecutionContext) (server : S) :
    result string unit * ScheduleExecutionContext * S :=
  let '(locked, server) := locked_state server in
  match locked with
  | Some state => (Err ("server is in a locked state (" +:+ state +:+ "), cannot execute schedule action"), ctx, server)
  | None =>
      match self with
      | ScheduleAction.If _ | ScheduleAction.ElseIf _ | ScheduleAction.Else | ScheduleAction.EndIf | ScheduleAction.Exit _ =>
          (Ok tt, ctx, server)
      | ScheduleAction.Sleep duration => (Ok tt, ctx, sleep duration server)
      | ScheduleAction.Ensure condition =>
          let '(b, server) := evaluate condition ctx server in
          ((if (b : bool) then Ok tt else Err "condition did not evaluate with success."), ctx, server)
      | ScheduleAction.Format format output_into =>
          (Ok tt, store_variable output_into (format_loop ctx None format) ctx, server)
      | ScheduleAction.MatchRegex input regex output_into =>
          match resolve_parameter ctx input with
          | None => (Err "unable to resolve parameter `input` into a string.", ctx, server)
          | Some input =>
              match captures regex input with
              | None => (Ok tt, ctx, server)
              | Some groups => (Ok tt, store_groups groups output_into ctx, server)
              end
          end
      | ScheduleAction.WaitForState _ target timeout =>
          let '(reached, server) := wait_for_state target timeout server in
          ((if (reached : bool) then Ok tt else Err ("timeout while waiting for server state `" +:+ to_str target +:+ "`.")), ctx, server)
      | ScheduleAction.SendPower _ action => send_power action ctx server
      | ScheduleAction.SendCommand _ command => send_command command ctx server
      | _ => perform self ctx server
      end
  end.

(** ** The executor *)

Record ScheduleStatus : Type := mk_ScheduleStatus { sst_running : bool; sst_errors : gmap Z string; sst_step : option Z }.

Inductive WebsocketMessage : Type :=
  | ServerScheduleStarted (schedule : Z)
  | ServerScheduleStepStatus (schedule step : Z) (skipped : bool)
  | ServerScheduleStepError (schedule step : Z) (err : string)
  | ServerScheduleCompleted (schedule : Z).

(** What a run changes: the server, its variables, the shared status, its own
    errors, and the messages sent. *)
Record Run : Type := mk_Run {
  run_server : S;
  run_context : ScheduleExecutionContext;
  run_status : ScheduleStatus;
  run_errors : gmap Z string;
  run_sent : list WebsocketMessage;
}.

Context (uuid : Z).

Definition run_send (m : WebsocketMessage) (r : Run) : Run :=
  mk_Run (run_server r) (run_context r) (run_status r) (run_errors r) (run_sent r ++ [m]).
Definition send_step_status (step : Z) (skipped : bool) : Run → Run := run_send (ServerScheduleStepStatus uuid step skipped).
Definition set_status (f : ScheduleStatus → ScheduleStatus) (r : Run) : Run :=
  mk_Run (run_server r) (run_context r) (f (run_status r)) (run_errors r) (run_sent r).
Definition begin_step (step : Z) : Run → Run := set_status (λ st, mk_ScheduleStatus true (sst_errors st) (Some step)).
Definition record_error (step_ : Z) (err : string) (r : Run) : Run :=
  run_send (ServerScheduleStepError uuid step_ err)
    (mk_Run (run_server r) (run_context r)
       (mk_ScheduleStatus (sst_running (run_status r)) (<[step_ := err]> (sst_errors (run_status r))) (sst_step (run_status r)))
       (<[step_ := err]> (run_errors r)) (run_sent r)).
Definition run_evaluate (condition : ScheduleCondition.ScheduleCondition) (r : Run) : bool * Run :=
  let '(b, server) := evaluate condition (run_context r) (run_server r) in
  (b, mk_Run server (run_context r) (run_status r) (run_errors r) (run_sent r)).
Definition run_execute (action : ScheduleAction.ScheduleAction) (r : Run) : result string unit * Run :=
  let '(res, ctx, server) := execute action (run_context r) (run_server r) in
  (res, mk_Run server ctx (run_status r) (run_errors r) (run_sent r)).

Record ConditionFrame : Type := mk_ConditionFrame { cf_parent_active : bool; cf_active : bool; cf_branch_taken : bool }.

Definition all_active (condition_stack : list ConditionFrame) : bool := forallb cf_active condition_stack.

(** The loop over the actions; what it returns is [successful]. *)
Fixpoint run_actions (raw_actions : list RawAction) (condition_stack : list ConditionFrame) (r : Run) : bool * Run :=
  match raw_actions with
  | [] => (true, r)
  | raw_action :: raw_actions =>
      let r := begin_step (ra_uuid raw_action) r in
      match ra_action raw_action with
      | ScheduleAction.If condition =>
          let r := send_step_status (ra_uuid raw_action) false r in
          let parent_active := all_active condition_stack in
          let '(active, r) := if (parent_active : bool) then run_evaluate condition r else (false, r) in
          run_actions raw_actions (mk_ConditionFrame parent_active active active :: condition_stack) r
      | ScheduleAction.ElseIf condition =>
          let r := send_step_status (ra_uuid raw_action) false r in
          match condition_stack with
          | [] => run_actions raw_actions [] r
          | frame :: condition_stack =>
              let '(active, r) := if cf_parent_active frame && negb (cf_branch_taken frame) then run_evaluate condition r else (false, r) in
              run_actions raw_actions (mk_ConditionFrame (cf_parent_active frame) active (cf_branch_taken frame || active) :: condition_stack) r
          end
      | ScheduleAction.Else =>
          let r := send_step_status (ra_uuid raw_action) false r in
          match condition_stack with
          | [] => run_actions raw_actions [] r
          | frame :: condition_stack =>
              run_actions raw_actions
                (mk_ConditionFrame (cf_parent_active frame) (cf_parent_active frame && negb (cf_branch_taken frame)) true :: condition_stack) r
          end
      | ScheduleAction.EndIf =>
          run_actions raw_actions (tail condition_stack) (send_step_status (ra_uuid raw_action) false r)
      | ScheduleAction.Exit exit_successful =>
          if negb (all_active condition_stack) then run_actions raw_actions condition_stack (send_step_status (ra_uuid raw_action) true r)
          else (exit_successful, send_step_status (ra_uuid raw_action) false r)
      | action =>
          if negb (all_active condition_stack) then run_actions raw_actions condition_stack (send_step_status (ra_uuid raw_action) true r)
          else
            let r := send_step_status (ra_uuid raw_action) false r in
            match run_execute action r with
            | (Ok _, r) => run_actions raw_actions condition_stack r
            | (Err err, r) =>
                let r := record_error (ra_uuid raw_action) err r in
                if negb (ignore_failure action) then (false, r) else run_actions raw_actions condition_stack r
            end
      end
  end.

(** One turn of the executor's loop, after it was woken up: [None] when the
    condition of the schedule does not hold, or else whether it succeeded. *)
Definition executor_turn (skip_condition : bool) (condition : ScheduleCondition.ScheduleCondition) (raw_actions : list RawAction)
    (next_execution_context : option ScheduleExecutionContext) (status : ScheduleStatus) (server : S) : option bool * Run :=
  let execution_context := default (ScheduleExecutionContext_new uuid) next_execution_context in
  let r := mk_Run server execution_context status ∅ [] in
  let '(met, r) := if (skip_condition : bool) then (true, r) else run_evaluate condition r in
  if negb met then (None, r)
  else
    let r := run_send (ServerScheduleStarted uuid) r in
    let '(successful, r) :=
      match validate_action_structure raw_actions with
      | Err (action_uuid, err) => (false, record_error action_uuid err r)
      | Ok _ => run_actions raw_actions [] r
      end in
    (Some successful, run_send (ServerScheduleCompleted uuid) (set_status (λ st, mk_ScheduleStatus false (sst_errors st) None) r)).

End execute.
Arguments Run : clear implicits.

(** ** Programs

    What a schedule means: actions in order, and blocks with their branches.
    [Branches] is what follows the body of an [if] or of an [else_if]. *)

Inductive Program : Type :=
  | Done
  | Do (action : RawAction) (rest : Program)
  | IfBlock (uuid : Z) (condition : ScheduleCondition.ScheduleCondition) (body : Program) (branches : Branches) (rest : Program)
with Branches : Type :=
  | End_ (uuid : Z)
  | ElseIf_ (uuid : Z) (condition : ScheduleCondition.ScheduleCondition) (body : Program) (branches : Branches)
  | Else_ (uuid : Z) (body : Program) (end_uuid : Z).

Scheme Program_ind' := Induction for Program Sort Prop
  with Branches_ind' := Induction for Branches Sort Prop.
Combined Scheme Program_Branches_ind from Program_ind', Branches_ind'.

Definition is_marker (a : ScheduleAction.ScheduleAction) : bool :=
  match a with
  | ScheduleAction.If _ | ScheduleAction.ElseIf _ | ScheduleAction.Else | ScheduleAction.EndIf => true
  | _ => false
  end.

(** A program as a list of actions. *)
Fixpoint flatten (p : Program) : list RawAction :=
  match p with
  | Done => []
  | Do action rest => action :: flatten rest
  | IfBlock uuid condition body branches rest =>
      mk_RawAction uuid (ScheduleAction.If condition) :: flatten body ++ flatten_branches branches ++ flatten rest
  end
with flatten_branches (b : Branches) : list RawAction :=
  match b with
  | End_ uuid => [mk_RawAction uuid ScheduleAction.EndIf]
  | ElseIf_ uuid condition body branches =>
      mk_RawAction uuid (ScheduleAction.ElseIf condition) :: flatten body ++ flatten_branches branches
  | Else_ uuid body end_uuid =>
      mk_RawAction uuid ScheduleAction.Else :: flatten body ++ [mk_RawAction end_uuid ScheduleAction.EndIf]
  end.

(** Blocks are nested at most [d] deep, and no single action is a marker. *)
Fixpoint well_formed (d : nat) (p : Program) : Prop :=
  match p with
  | Done => True
  | Do action rest => is_marker (ra_action action) = false ∧ well_formed d rest
  | IfBlock _ _ body branches rest =>
      match d with 0%nat => False | S d' => well_formed d' body ∧ well_formed_branches d' branches end ∧ well_formed d rest
  end
with well_formed_branches (d : nat) (b : Branches) : Prop :=
  match b with
  | End_ _ => True
  | ElseIf_ _ _ body branches => well_formed d body ∧ well_formed_branches d branches
  | Else_ _ body _ => well_formed d body
  end.

(** *** Validation accepts programs *)

Lemma validate_flatten :
  (∀ p d rest stack, well_formed d p → zlen stack + Z.of_nat d <= MAX_IF_DEPTH →
     validate_loop (flatten p ++ rest) stack = validate_loop rest stack) ∧
  (∀ b d rest u stack, well_formed_branches d b → zlen stack + 1 + Z.of_nat d <= MAX_IF_DEPTH →
     validate_loop (flatten_branches b ++ rest) ((u, false) :: stack) = validate_loop rest stack).
Proof.
  apply Program_Branches_ind; simpl.
  - done.
  - intros [u a] p IH d rest stack [Ha Hp] Hd. simpl in *.
    rewrite <-(IH d rest stack Hp Hd). by destruct a.
  - intros u c body IHbody b IHb p IHp [|d] rest stack [Hb Hp] Hd; [done|]. destruct Hb as [Hbody Hb].
    case_match; [lia|].
    rewrite <-!app_assoc, (IHbody d), (IHb d), (IHp (S d)); rewrite ?zlen_cons; auto; lia.
  - done.
  - intros u c body IHbody b IHb d rest u0 stack [Hbody Hb] Hd.
    rewrite <-app_assoc, (IHbody d), (IHb d); rewrite ?zlen_cons; auto; lia.
  - intros u body IHbody u' d rest u0 stack Hbody Hd.
    rewrite <-app_assoc, (IHbody d); rewrite ?zlen_cons; auto; lia.
Qed.

(** The actions after the blocks in [stack] were opened: each is finished by
    its branches, or by its [end_if] once its [else] was seen. *)
Fixpoint finishes (stack : list (Z * bool)) (raw_actions : list RawAction) : Prop :=
  match stack with
  | [] => ∃ p, raw_actions = flatten p ∧ well_formed (Z.to_nat MAX_IF_DEPTH) p
  | (_, else_seen) :: stack' =>
      ∃ p b rest,
        raw_actions = flatten p ++ flatten_branches b ++ rest ∧
        well_formed (Z.to_nat (MAX_IF_DEPTH - zlen stack)) p ∧ well_formed_branches (Z.to_nat (MAX_IF_DEPTH - zlen stack)) b ∧
        (else_seen = true → ∃ u, b = End_ u) ∧ finishes stack' rest
  end.

Lemma finishes_do a stack raw_actions :
  is_marker (ra_action a) = false → finishes stack raw_actions → finishes stack (a :: raw_actions).
Proof.
  intros Ha. destruct stack as [|[u e] stack]; simpl.
  - intros (p & -> & Hp). by exists (Do a p).
  - intros (p & b & rest & -> & Hp & Hrest). by exists (Do a p), b, rest.
Qed.

Lemma finishes_if u c stack raw_actions :
  zlen stack < MAX_IF_DEPTH → finishes ((u, false) :: stack) raw_actions →
  finishes stack (mk_RawAction u (ScheduleAction.If c) :: raw_actions).
Proof.
  intros Hlt (p & b & rest & -> & Hp & Hb & _ & Hrest).
  assert (Z.to_nat (MAX_IF_DEPTH - zlen stack) = S (Z.to_nat (MAX_IF_DEPTH - zlen ((u, false) :: stack)))) as Hd.
  { rewrite zlen_cons. pose proof (zlen_nonneg stack). lia. }
  destruct stack as [|[u' e] stack].
  - destruct Hrest as (q & -> & Hq). exists (IfBlock u c p b q). split; [done|].
    change (Z.to_nat MAX_IF_DEPTH) with (Z.to_nat (MAX_IF_DEPTH - zlen (@nil (Z * bool)))). by rewrite Hd in *.
  - destruct Hrest as (q & b' & rest' & -> & Hq & Hb' & He & Hrest).
    exists (IfBlock u c p b q), b', rest'. split_and!; [|by rewrite Hd in *|done..]. simpl. by rewrite <-!app_assoc.
Qed.

Lemma validate_finishes raw_actions stack : validate_loop raw_actions stack = Ok tt → finishes stack raw_actions.
Proof.
  revert stack. induction raw_actions as [|[u a] l IH]; intros stack; simpl.
  - destruct stack as [|[]]; [|done]. intros _. by exists Done.
  - destruct a; try (intros ?%IH; by apply finishes_do).
    + case_match; [done|]. intros ?%IH. apply finishes_if; [lia|done].
    + destruct stack as [|[u' []] stack]; [done..|]. intros (p & b & rest & -> & Hp & Hb & _ & Hrest)%IH.
      exists Done, (ElseIf_ u condition p b), rest. simpl. rewrite <-app_assoc. by split_and!.
    + destruct stack as [|[u' []] stack]; [done..|]. intros (p & b & rest & -> & Hp & Hb & He & Hrest)%IH. destruct (He eq_refl) as [u'' ->].
      exists Done, (Else_ u p u''), rest. simpl. rewrite <-app_assoc. by split_and!.
    + destruct stack as [|[u' e] stack]; [done|]. intros Hrest%IH.
      exists Done, (End_ u), l. simpl. split_and!; try done. by exists u.
Qed.

Lemma validate_program p : well_formed (Z.to_nat MAX_IF_DEPTH) p → validate_action_structure (flatten p) = Ok tt.
Proof.
  intros Hp. unfold validate_action_structure. rewrite <-(app_nil_r (flatten p)).
  by rewrite (proj1 validate_flatten p (Z.to_nat MAX_IF_DEPTH)).
Qed.

(** C28. The validator of schedules accepts exactly the programs: a list of actions
    passes exactly when it is a sequence of actions and of [if] blocks, each
    with any number of [else_if], at most one [else] that comes last, and its
    own [end_if], nested at most eight deep. *)
Theorem schedule_structure raw_actions :
  validate_action_structure raw_actions = Ok tt ↔
  ∃ p, raw_actions = flatten p ∧ well_formed (Z.to_nat MAX_IF_DEPTH) p.
Proof.
  split; [apply (validate_finishes _ [])|].
  intros (p & -> & Hp). by apply validate_program.
Qed.

(** *** Running a program *)

Section program.
Context {S : Type} {HW : World S} {HF : Floats} {HR : Regexes} (uuid : Z).

Definition mark (step_ : Z) (r : Run S) : Run S := send_step_status uuid step_ false (begin_step step_ r).

(** An action that is not run: a marker is reported as any other step, an
    action as skipped. *)
Definition skip (l : list RawAction) (r : Run S) : Run S :=
  foldl (λ r a, send_step_status uuid (ra_uuid a) (negb (is_marker (ra_action a))) (begin_step (ra_uuid a) r)) r l.

(** [None] goes on; [Some successful] ends the schedule. *)
Definition and_then (x : option bool * Run S) (k : Run S → option bool * Run S) : option bool * Run S :=
  match x with (None, r) => k r | (Some b, r) => (Some b, r) end.

Definition do_action (a : RawAction) (r : Run S) : option bool * Run S :=
  let r := mark (ra_uuid a) r in
  match ra_action a with
  | ScheduleAction.Exit successful => (Some successful, r)
  | action =>
      match run_execute action r with
      | (Ok _, r) => (None, r)
      | (Err err, r) => (if ignore_failure action then None else Some false, record_error uuid (ra_uuid a) err r)
      end
  end.

Fixpoint run_program (p : Program) (r : Run S) : option bool * Run S :=
  match p with
  | Done => (None, r)
  | Do action rest => and_then (do_action action r) (run_program rest)
  | IfBlock u condition body branches rest =>
      let '(b, r) := run_evaluate condition (mark u r) in
      and_then (if (b : bool) then and_then (run_program body r) (λ r, (None, skip (flatten_branches branches) r))
                else run_branches branches (skip (flatten body) r))
        (run_program rest)
  end
with run_branches (bs : Branches) (r : Run S) : option bool * Run S :=
  match bs with
  | End_ u => (None, mark u r)
  | ElseIf_ u condition body branches =>
      let '(b, r) := run_evaluate condition (mark u r) in
      if (b : bool) then and_then (run_program body r) (λ r, (None, skip (flatten_branches branches) r))
      else run_branches branches (skip (flatten body) r)
  | Else_ u body end_uuid => and_then (run_program body (mark u r)) (λ r, (None, mark end_uuid r))
  end.

(** *** The executor's stack of frames runs programs *)

Definition finish (x : option bool * Run S) (k : Run S → bool * Run S) : bool * Run S :=
  match x with (None, r) => k r | (Some b, r) => (b, r) end.

Lemma finish_and_then x k k' : finish (and_then x k) k' = finish x (λ r, finish (k r) k').
Proof. by destruct x as [[]]. Qed.

Lemma finish_ext x k k' : (∀ r, k r = k' r) → finish x k = finish x k'.
Proof. intros Hk. destruct x as [[]]; simpl; auto. Qed.

Lemma skip_app l1 l2 r : skip (l1 ++ l2) r = skip l2 (skip l1 r).
Proof. apply foldl_app. Qed.

Lemma run_action_inactive a l stack r :
  is_marker (ra_action a) = false → all_active stack = false →
  run_actions uuid (a :: l) stack r = run_actions uuid l stack (skip [a] r).
Proof. intros Ha Hst. simpl. rewrite Hst, Ha. by destruct (ra_action a). Qed.

Lemma run_action_active a l stack r :
  is_marker (ra_action a) = false → all_active stack = true →
  run_actions uuid (a :: l) stack r = finish (do_action a r) (run_actions uuid l stack).
Proof.
  intros Ha Hst. unfold do_action, mark. simpl. rewrite Hst.
  destruct (ra_action a) eqn:E; try done; simpl negb; cbv iota; destruct (run_execute _ _) as [[[]|err] r'];
    try done;
    match goal with |- context [negb ?b] => by destruct b end.
Qed.

Lemma run_inactive :
  (∀ p d rest stack r, well_formed d p → all_active stack = false →
     run_actions uuid (flatten p ++ rest) stack r = run_actions uuid rest stack (skip (flatten p) r)) ∧
  (∀ b d rest f stack r, well_formed_branches d b → cf_parent_active f && negb (cf_branch_taken f) = false →
     run_actions uuid (flatten_branches b ++ rest) (f :: stack) r = run_actions uuid rest stack (skip (flatten_branches b) r)).
Proof.
  apply Program_Branches_ind.
  - done.
  - intros a p IH d rest stack r [Ha Hp] Hst. cbn [flatten app].
    rewrite run_action_inactive by done. by rewrite (IH d).
  - intros u c body IHbody b IHb p IHp [|d] rest stack r [Hb Hp] Hst; [done|]. destruct Hb as [Hbody Hb].
    cbn -[skip]. rewrite Hst, <-!app_assoc, (IHbody d), (IHb d), (IHp (Datatypes.S d)), <-!skip_app; done.
  - done.
  - intros u c body IHbody b IHb d rest f stack r [Hbody Hb] Hf.
    cbn -[skip]. rewrite Hf, <-app_assoc, (IHbody d), (IHb d), <-skip_app; try done. simpl.
    destruct (cf_parent_active f), (cf_branch_taken f); done.
  - intros u body IHbody u' d rest f stack r Hbody Hf.
    cbn -[skip]. rewrite <-app_assoc, (IHbody d) by (try done; cbn; by rewrite Hf). cbn -[skip].
    change (skip (?x :: ?l) r) with (skip l (skip [x] r)). by rewrite skip_app.
Qed.

Lemma run_flatten :
  (∀ p d rest stack r, well_formed d p → all_active stack = true →
     run_actions uuid (flatten p ++ rest) stack r = finish (run_program p r) (run_actions uuid rest stack)) ∧
  (∀ b d rest active stack r, well_formed_branches d b → all_active stack = true →
     run_actions uuid (flatten_branches b ++ rest) (mk_ConditionFrame true active false :: stack) r =
     finish (run_branches b r) (run_actions uuid rest stack)).
Proof.
  apply Program_Branches_ind.
  - done.
  - intros a p IH d rest stack r [Ha Hp] Hst. cbn [flatten app run_program].
    rewrite run_action_active, finish_and_then by done. apply finish_ext. intros r'. by apply (IH d).
  - intros u c body IHbody b IHb p IHp [|d] rest stack r [Hb Hp] Hst; [done|]. destruct Hb as [Hbody Hb].
    cbn. rewrite Hst, <-!app_assoc. fold (mark u r). destruct (run_evaluate c (mark u r)) as [[] r'].
    + rewrite (IHbody d), !finish_and_then by (cbn; auto). apply finish_ext. intros r''. cbn.
      rewrite (proj2 run_inactive _ d) by done. by apply (IHp (Datatypes.S d)).
    + rewrite (proj1 run_inactive _ d), (IHb d), !finish_and_then by done. apply finish_ext. intros r''. by apply (IHp (Datatypes.S d)).
  - done.
  - intros u c body IHbody b IHb d rest active stack r [Hbody Hb] Hst.
    cbn. rewrite <-!app_assoc. fold (mark u r). destruct (run_evaluate c (mark u r)) as [[] r'].
    + rewrite (IHbody d), !finish_and_then by (cbn; auto). apply finish_ext. intros r''. cbn.
      by rewrite (proj2 run_inactive _ d).
    + by rewrite (proj1 run_inactive _ d), (IHb d).
  - intros u body IHbody u' d rest active stack r Hbody Hst.
    cbn. rewrite <-app_assoc, (IHbody d), finish_and_then by (cbn; auto). done.
Qed.


Definition start_run (next : option ScheduleExecutionContext) (status : ScheduleStatus) (server : S) : Run S :=
  mk_Run server (default (ScheduleExecutionContext_new uuid) next) status ∅ [].
Definition condition_met (skip_condition : bool) (condition : ScheduleCondition.ScheduleCondition) (r : Run S) : bool * Run S :=
  if skip_condition then (true, r) else run_evaluate condition r.
Definition completed (x : bool * Run S) : option bool * Run S :=
  (Some x.1, run_send (ServerScheduleCompleted uuid) (set_status (λ st, mk_ScheduleStatus false (sst_errors st) None) x.2)).

Lemma validate_error raw_actions stack step_ err :
  validate_loop raw_actions stack = Err (step_, err) → step_ ∈ stack.*1 ++ (ra_uuid <$> raw_actions).
Proof.
  revert stack. induction raw_actions as [|[u a] l IH]; intros stack; simpl.
  - destruct stack as [|[u e] stack]; [done|]. intros [= -> _]. left.
  - assert (∀ stack', stack'.*1 ⊆ u :: stack.*1 → validate_loop l stack' = Err (step_, err) →
      step_ ∈ stack.*1 ++ u :: (ra_uuid <$> l)) as Hnext.
    { intros stack' Hs Hv%IH. set_solver. }
    assert (step_ = u → step_ ∈ stack.*1 ++ u :: (ra_uuid <$> l)) as Hhere by set_solver.
    destruct a; try (apply Hnext; set_solver); repeat case_match; simplify_eq; intros Hv;
      try (injection Hv; auto; fail); revert Hv; apply Hnext; set_solver.
Qed.

(** C26. Running a schedule.  A turn of the executor first evaluates the condition of
    the schedule, unless it is to be skipped, and ends there when it does not
    hold.  A list of actions that spells a program is run as that program: in
    every block the conditions are evaluated in order up to the first that
    holds, only the body behind that one is executed, what is not executed is
    reported as skipped, and an [exit], or the failure of an action that is
    not to be ignored, ends the run.  Any other list is not run at all: one of
    its actions is reported as the error. *)
Theorem schedule_execution skip_condition condition raw_actions next status server :
  let '(met, r) := condition_met skip_condition condition (start_run next status server) in
  let turn := executor_turn uuid skip_condition condition raw_actions next status server in
  (met = false → turn = (None, r)) ∧
  (met = true → ∀ p, raw_actions = flatten p → well_formed (Z.to_nat MAX_IF_DEPTH) p →
     turn = completed (finish (run_program p (run_send (ServerScheduleStarted uuid) r)) (λ r, (true, r)))) ∧
  (met = true → (∀ p, raw_actions = flatten p → ¬ well_formed (Z.to_nat MAX_IF_DEPTH) p) →
     ∃ step_ err, step_ ∈ ra_uuid <$> raw_actions ∧
       turn = completed (false, record_error uuid step_ err (run_send (ServerScheduleStarted uuid) r))).
Proof.
  unfold executor_turn, condition_met. fold (start_run next status server).
  destruct (if skip_condition then _ else _) as [met r]. cbn zeta iota. split_and!.
  - by intros ->.
  - intros -> p -> Hp. cbn [negb]. rewrite (validate_program p) by done.
    rewrite <-(app_nil_r (flatten p)). rewrite (proj1 run_flatten _ _ _ _ _ Hp) by done.
    cbn [run_actions]. unfold completed. by destruct (finish _ _).
  - intros -> Hno. cbn [negb]. destruct (validate_action_structure raw_actions) as [[]|[step_ err]] eqn:E.
    + destruct (validate_finishes _ [] E) as (p & Hp & Hwf). by destruct (Hno p).
    + exists step_, err. by split; [apply (validate_error _ [] _ _ E)|].
Qed.
End program.

(** ** What a run reports *)

Section reports.
Context {S : Type} {HW : World S} {HF : Floats} {HR : Regexes} (uuid : Z).

(** The steps whose status was sent, in order. *)
Definition reported (sent : list WebsocketMessage) : list Z :=
  omap (λ m, match m with ServerScheduleStepStatus _ step_ _ => Some step_ | _ => None end) sent.

(** One step of a run reports one action, and at most one error, of it. *)
Definition advances (step_ : Z) (r r' : Run S) : Prop :=
  ∃ skipped (errs : option string),
    run_sent r' = run_sent r ++ ServerScheduleStepStatus uuid step_ skipped ::
      match errs with Some err => [ServerScheduleStepError uuid step_ err] | None => [] end ∧
    run_errors r' = match errs with Some err => <[step_ := err]> (run_errors r) | None => run_errors r end ∧
    sst_errors (run_status r') = match errs with Some err => <[step_ := err]> (sst_errors (run_status r)) | None => sst_errors (run_status r) end.

Lemma evaluate_sent c (r r' : Run S) b :
  run_evaluate c r = (b, r') → run_sent r' = run_sent r ∧ run_errors r' = run_errors r ∧ run_status r' = run_status r.
Proof. unfold run_evaluate. destruct (evaluate _ _ _). by intros [= _ <-]. Qed.

Lemma execute_sent a (r r' : Run S) res :
  run_execute a r = (res, r') → run_sent r' = run_sent r ∧ run_errors r' = run_errors r ∧ run_status r' = run_status r.
Proof. unfold run_execute. destruct (execute _ _ _) as [[??]?]. by intros [= _ <-]. Qed.

Lemma advances_report step_ skipped (r r' : Run S) :
  (run_sent r' = run_sent (send_step_status uuid step_ skipped (begin_step step_ r)) ∧
   run_errors r' = run_errors r ∧ run_status r' = run_status (begin_step step_ r)) → advances step_ r r'.
Proof. intros (Hs & He & Ht). exists skipped, None. by rewrite Hs, He, Ht. Qed.

Lemma run_actions_step a l stack r :
  ∃ r', advances (ra_uuid a) r r' ∧
    ((∃ b, run_actions uuid (a :: l) stack r = (b, r')) ∨ ∃ stack', run_actions uuid (a :: l) stack r = run_actions uuid l stack' r').
Proof.
  destruct (is_marker (ra_action a)) eqn:Ha.
  - cbn. destruct (ra_action a) eqn:E; try done.
    + destruct (all_active stack); [destruct (run_evaluate _ _) as [b r'] eqn:Er|]; eexists; (split; [|by eauto]);
        apply (advances_report _ false); [by apply evaluate_sent in Er|done].
    + destruct stack as [|f stack].
      * eexists. split; [|by eauto]. by apply (advances_report _ false).
      * destruct (cf_parent_active f && _); [destruct (run_evaluate _ _) as [b r'] eqn:Er|]; eexists; (split; [|by eauto]);
          apply (advances_report _ false); [by apply evaluate_sent in Er|done].
    + destruct stack as [|f stack]; (eexists; split; [|by eauto]); by apply (advances_report _ false).
    + eexists. split; [|by eauto]. by apply (advances_report _ false).
  - destruct (all_active stack) eqn:Hst.
    + rewrite run_action_active by done. unfold do_action.
      destruct (run_execute (ra_action a) (mark uuid (ra_uuid a) r)) as [res r'] eqn:Er.
      assert (run_sent r' = run_sent (mark uuid (ra_uuid a) r) ∧ run_errors r' = run_errors r ∧
        run_status r' = run_status (begin_step (ra_uuid a) r)) as Hr' by (by apply execute_sent in Er).
      assert (advances (ra_uuid a) r (mark uuid (ra_uuid a) r)) as Hm by (by apply (advances_report _ false)).
      assert (advances (ra_uuid a) r r') as Hok by (by apply (advances_report _ false)).
      assert (∀ err, advances (ra_uuid a) r (record_error uuid (ra_uuid a) err r')) as Herr.
      { intros err. destruct Hr' as (Hs & He & Ht). exists false, (Some err). cbn. rewrite Hs, He, Ht. cbn.
        by rewrite <-app_assoc. }
      destruct (ra_action a) eqn:E; try done; destruct res as [[]|err]; rewrite ?Er;
        first [exists (mark uuid (ra_uuid a) r); split; [exact Hm|by eauto]
              |exists r'; split; [exact Hok|by eauto]
              |exists (record_error uuid (ra_uuid a) err r'); split; [apply Herr|];
               destruct (ignore_failure _); [right|left]; by eexists].
    + eexists. rewrite run_action_inactive by done. split; [|by eauto].
      apply (advances_report _ true). simpl. by rewrite Ha.
Qed.
Lemma reported_advance step_ (r r' : Run S) :
  advances step_ r r' → reported (run_sent r') = reported (run_sent r) ++ [step_].
Proof. intros (skipped & [err|] & Hs & _); rewrite Hs; unfold reported; by rewrite omap_app. Qed.

Lemma run_actions_reports raw_actions stack r b r' :
  run_actions uuid raw_actions stack r = (b, r') →
  ∃ n E, reported (run_sent r') = reported (run_sent r) ++ take n (ra_uuid <$> raw_actions) ∧
    run_sent r `prefix_of` run_sent r' ∧ run_errors r' = E ∪ run_errors r ∧
    sst_errors (run_status r') = E ∪ sst_errors (run_status r) ∧ (∀ u, is_Some (E !! u) → u ∈ ra_uuid <$> raw_actions).
Proof.
  revert stack r. induction raw_actions as [|a l IH]; intros stack r Hr.
  - injection Hr as _ <-. exists 0%nat, ∅. rewrite !map_empty_union, app_nil_r. split_and!; try done.
    intros u [? Hu]. by rewrite lookup_empty in Hu.
  - destruct (run_actions_step a l stack r) as (r1 & Hadv & Hrun). pose proof (reported_advance _ _ _ Hadv) as Hrep.
    destruct Hadv as (skipped & errs & Hs & He & Hst).
    set (E1 := match errs with Some err => {[ra_uuid a := err]} | None => ∅ end : gmap Z string).
    assert (run_errors r1 = E1 ∪ run_errors r ∧ sst_errors (run_status r1) = E1 ∪ sst_errors (run_status r)) as [He1 Hst1].
    { rewrite He, Hst. subst E1. destruct errs; by rewrite ?map_empty_union, ?insert_union_singleton_l. }
    assert (∀ u, is_Some (E1 !! u) → u = ra_uuid a) as HE1.
    { intros u [x Hx]. subst E1. destruct errs; [by apply lookup_singleton_Some in Hx as [-> _]|done]. }
    destruct Hrun as [[b1 Hrun]|[stack' Hrun]]; rewrite Hrun in Hr.
    + injection Hr as _ <-. exists 1%nat, E1. split_and!; try done.
      * rewrite Hs. by apply prefix_app_r.
      * intros u Hu%HE1. subst. left.
    + destruct (IH _ _ Hr) as (n & E & IH1 & IH2 & IH3 & IH4 & IH5). exists (Datatypes.S n), (E ∪ E1). split_and!.
      * by rewrite IH1, Hrep, <-app_assoc.
      * etrans; [|done]. rewrite Hs. by apply prefix_app_r.
      * by rewrite IH3, He1, map_union_assoc.
      * by rewrite IH4, Hst1, map_union_assoc.
      * intros u [x [Hx|[_ Hx]]%lookup_union_Some_raw]; [right; by apply IH5|]. rewrite (HE1 u) by done. left.
Qed.

(** What a schedule reports.  A run that is not turned down by its condition sends
    that it started, then the actions in order up to the one that ended it,
    and last that it completed; the status is left at rest, and the errors of
    the run, each of one of its actions, are also in the status. *)
Theorem schedule_reports skip_condition condition raw_actions next status server successful r :
  executor_turn uuid skip_condition condition raw_actions next status server = (Some successful, r) →
  ∃ n sent,
    run_sent r = ServerScheduleStarted uuid :: sent ++ [ServerScheduleCompleted uuid] ∧
    reported (run_sent r) = take n (ra_uuid <$> raw_actions) ∧
    sst_running (run_status r) = false ∧ sst_step (run_status r) = None ∧
    sst_errors (run_status r) = run_errors r ∪ sst_errors status ∧
    (∀ u, is_Some (run_errors r !! u) → u ∈ ra_uuid <$> raw_actions).
Proof.
  unfold executor_turn. fold (start_run uuid next status server).
  destruct (if skip_condition then _ else _) as [met r0] eqn:E0.
  assert (run_sent r0 = [] ∧ run_errors r0 = ∅ ∧ run_status r0 = status) as (Hs0 & He0 & Ht0).
  { destruct skip_condition; [by injection E0 as _ <-|by apply evaluate_sent in E0]. }
  destruct met; [cbn [negb]|done].
  destruct (validate_action_structure raw_actions) as [[]|[step_ err]] eqn:Ev.
  - destruct (run_actions uuid raw_actions [] _) as [b r1] eqn:Er. intros [= -> <-].
    destruct (run_actions_reports _ _ _ _ _ Er) as (n & E & H1 & [sent H2] & H3 & H4 & H5). cbn in *.
    rewrite Hs0, He0, Ht0, ?map_union_empty in *. exists n, sent. split_and!; try done.
    + by rewrite H2.
    + unfold reported in *. rewrite omap_app, H1. cbn. by rewrite app_nil_r.
    + by rewrite H4, H3.
    + by rewrite H3.
  - intros [= <- <-]. cbn. rewrite Hs0, He0, Ht0. exists 0%nat, [ServerScheduleStepError uuid step_ err]. split_and!; try done.
    + by rewrite insert_union_singleton_l.
    + intros u [x [[<- _]|[_ Hx]]%lookup_insert_Some]; [|done]. by apply (validate_error _ [] _ _ Ev).
Qed.

Lemma executor_turn_none skip_condition condition raw_actions next status server r :
  executor_turn uuid skip_condition condition raw_actions next status server = (None, r) → run_status r = status.
Proof.
  unfold executor_turn. destruct (if skip_condition then _ else _) as [met r0] eqn:E0. destruct met; cbn [negb].
  - by destruct (match validate_action_structure raw_actions with Ok _ => _ | Err _ => _ end).
  - intros [= <-]. destruct skip_condition; [by injection E0 as [=]|]. by apply evaluate_sent in E0 as (_ & _ & ->).
Qed.
End reports.

(** ** Examples *)

Section examples.
(** A server whose state is the list of the actions it performed; it is
    running, not locked, and every action succeeds but the creation of a
    backup. *)
#[local] Instance log_world : World (list ScheduleAction.ScheduleAction) := {|
  get_state s := (ServerState.Running, s);
  resource_usage s := (mk_ResourceUsage 0 0 0 0, s);
  symlink_metadata_is_ok _ s := (false, s);
  locked_state s := (None, s);
  sleep _ s := s;
  wait_for_state _ _ s := (true, s);
  start s := (Ok tt, s);
  restarting s := (false, s);
  auto_kill s := (mk_AutoKill false 0, s);
  restart s := (Ok tt, s);
  restart_with_kill_timeout _ s := (Ok tt, s);
  stop s := (Ok tt, s);
  stop_with_kill_timeout _ s := (Ok tt, s);
  kill s := (Ok tt, s);
  send_stdin _ s := (true, s);
  log_activity _ _ s := s;
  perform a ctx s := (match a with ScheduleAction.CreateBackup _ _ _ _ _ => Err "failed to create backup" | _ => Ok tt end, ctx, s ++ [a]);
|}.
#[local] Instance no_floats : Floats := {| f64_lt := Z.ltb; f64_le := Z.leb; f64_eq := Z.eqb; as_f64 := id |}.
#[local] Instance no_regexes : Regexes := λ _ _, None.

Local Definition backup (ignore : bool) : RawAction := mk_RawAction 3 (ScheduleAction.CreateBackup ignore true None None []).

(** [if offline { exit } else { backup } ; format; if x = "up" { ... }] *)
Definition example_program (ignore : bool) : Program :=
  IfBlock 1 (ScheduleCondition.ServerState ServerState.Offline) (Do (mk_RawAction 2 (ScheduleAction.Exit false)) Done)
    (Else_ 10 (Do (backup ignore) Done) 11)
    (Do (mk_RawAction 4 (ScheduleAction.Format "{{a}}{b}{" "x")) (
     IfBlock 5 (ScheduleCondition.VariableEquals "x" (Raw "{a}{b}{"))
       (Do (mk_RawAction 6 (ScheduleAction.DeleteFiles false (Raw "/") ["a"])) Done) (End_ 7) Done)).

Example format_example : format_loop (store_variable "b" "c" (ScheduleExecutionContext_new 0)) None "{{a}}{b}{x}{" = "{a}c{x}{".
Proof. reflexivity. Qed.

Lemma schedule_structure_witness :
  ∃ p, flatten (example_program true) = flatten p ∧ well_formed (Z.to_nat MAX_IF_DEPTH) p.
Proof. apply (schedule_structure (flatten (example_program true))). reflexivity. Defined.

Lemma schedule_execution_witness :
  let status := mk_ScheduleStatus false ∅ None in
  let start := start_run 0 None status [] in
  executor_turn 0 true ScheduleCondition.None (flatten (example_program true)) None status [] =
  completed 0 (finish (run_program 0 (example_program true) (run_send (ServerScheduleStarted 0) start)) (λ r, (true, r))).
Proof.
  intros status start.
  refine (proj1 (proj2 (schedule_execution 0 true ScheduleCondition.None (flatten (example_program true)) None status [])) eq_refl _ eq_refl _).
  vm_compute. repeat split.
Defined.

Example schedule_continues :
  let '(o, r) := executor_turn 0 false ScheduleCondition.None (flatten (example_program true)) None (mk_ScheduleStatus false ∅ None) [] in
  (o, run_server r, reported (run_sent r)) =
  (Some true, [ra_action (backup true); ScheduleAction.DeleteFiles false (Raw "/") ["a"]], [1; 2; 10; 3; 11; 4; 5; 6; 7]).
Proof. vm_compute. reflexivity. Qed.

Example schedule_fails :
  let '(o, r) := executor_turn 0 false ScheduleCondition.None (flatten (example_program false)) None (mk_ScheduleStatus false ∅ None) [] in
  (o, reported (run_sent r), run_errors r) = (Some false, [1; 2; 10; 3], {[3 := "failed to create backup"]}).
Proof. vm_compute. reflexivity. Qed.
End examples.
