(* ===== verification/ScheduleManager.v ===== *)
(** * ScheduleManager: the schedules of a server and what wakes them up
    (application/src/server/schedule/manager.rs, mod.rs)

    Triggers of a schedule are of two kinds: those the manager compares with
    what happens to the server, and those a task of their own watches.  Both
    leave a permit for the executor of the schedule, which takes it for one
    turn. *)
From S2P Require Import Prelude ServerState Schedules.
Local Open Scope string_scope.
Local Open Scope list_scope.
Local Open Scope Z_scope.

Module ServerBackupStatus.
Inductive ServerBackupStatus : Type := Starting | Finished | Failed.
End ServerBackupStatus.

#[export] Instance power_action_eq : EqDecision ServerPowerAction.ServerPowerAction.
Proof. solve_decision. Defined.
#[export] Instance backup_status_eq : EqDecision ServerBackupStatus.ServerBackupStatus.
Proof. solve_decision. Defined.
#[export] Instance metric_eq : EqDecision ScheduleResourceMetric.
Proof. solve_decision. Defined.
#[export] Instance comparator_eq : EqDecision ScheduleConditionComparator.
Proof. solve_decision. Defined.

(** A cron expression is its source. *)
Module ScheduleTrigger.
Inductive ScheduleTrigger : Type :=
  | Cron (schedule : string)
  | PowerAction (action : ServerPowerAction.ServerPowerAction)
  | ServerState (state : ServerState.ServerState)
  | BackupStatus (status : ServerBackupStatus.ServerBackupStatus)
  | ScheduleCompletion (schedule : Z) (successful : bool)
  | ResourceUsage (metric : ScheduleResourceMetric) (comparator : ScheduleConditionComparator) (value : Z) (for_seconds : Z)
  | ConsoleLine (contains : string) (case_insensitive : bool) (output_into : option string)
  | Crash.
End ScheduleTrigger.
#[export] Instance schedule_trigger_eq : EqDecision ScheduleTrigger.ScheduleTrigger.
Proof. solve_decision. Defined.

(** [Cron] equality, and [to_lowercase] *)
Class Crons : Type := cron_eq : string → string → bool.
Class Lowercase : Type := to_lowercase : string → string.

(** The triggers a task watches, as [create_trigger_tasks] sorts them out. *)
Definition has_task (t : ScheduleTrigger.ScheduleTrigger) : bool :=
  match t with
  | ScheduleTrigger.Cron _ | ScheduleTrigger.ConsoleLine _ _ _ | ScheduleTrigger.ResourceUsage _ _ _ _ => true
  | _ => false
  end.

(** [create_trigger_tasks]: the triggers that are kept, and the tasks, each
    known by what it watches. *)
Fixpoint create_trigger_tasks (raw_triggers : list ScheduleTrigger.ScheduleTrigger) :
    list ScheduleTrigger.ScheduleTrigger * list ScheduleTrigger.ScheduleTrigger :=
  match raw_triggers with
  | [] => ([], [])
  | trigger :: raw_triggers =>
      let '(triggers, tasks) := create_trigger_tasks raw_triggers in
      match trigger with
      | ScheduleTrigger.Cron _ | ScheduleTrigger.ResourceUsage _ _ _ _ | ScheduleTrigger.ConsoleLine _ _ _ => (triggers, trigger :: tasks)
      | _ => (trigger :: triggers, tasks)
      end
  end.

Record ApiScheduleCompletionStatus : Type := mk_ApiScheduleCompletionStatus {
  acs_uuid : Z;
  acs_successful : bool;
  acs_errors : gmap Z string;
}.

(** [configuration::Schedule] *)
Record RawSchedule : Type := mk_RawSchedule {
  rs_uuid : Z;
  rs_triggers : list ScheduleTrigger.ScheduleTrigger;
  rs_condition : ScheduleCondition.ScheduleCondition;
  rs_actions : list RawAction;
}.

(** A schedule; [sc_notified] and [sc_skip_notified] say whether the notifiers
    of its executor hold a permit, [sc_tasks] what its running trigger tasks
    watch. *)
Record Schedule : Type := mk_Schedule {
  sc_uuid : Z;
  sc_triggers : list ScheduleTrigger.ScheduleTrigger;
  sc_condition : ScheduleCondition.ScheduleCondition;
  sc_raw_actions : list RawAction;
  sc_status : ScheduleStatus;
  sc_completion_status : option ApiScheduleCompletionStatus;
  sc_tasks : list ScheduleTrigger.ScheduleTrigger;
  sc_next_execution_context : option ScheduleExecutionContext;
  sc_notified : bool;
  sc_skip_notified : bool;
}.

Definition Schedule_new (raw_schedule : RawSchedule) : Schedule :=
  let '(triggers, tasks) := create_trigger_tasks (rs_triggers raw_schedule) in
  mk_Schedule (rs_uuid raw_schedule) triggers (rs_condition raw_schedule) (rs_actions raw_schedule)
    (mk_ScheduleStatus false ∅ None) None tasks None false false.

Definition trigger (skip_condition : bool) (s : Schedule) : Schedule :=
  mk_Schedule (sc_uuid s) (sc_triggers s) (sc_condition s) (sc_raw_actions s) (sc_status s) (sc_completion_status s) (sc_tasks s)
    (sc_next_execution_context s) (if skip_condition then sc_notified s else true) (if skip_condition then true else sc_skip_notified s).

Definition update (raw_schedule : RawSchedule) (s : Schedule) : Schedule :=
  mk_Schedule (sc_uuid s) (sc_triggers s) (rs_condition raw_schedule) (rs_actions raw_schedule) (sc_status s) (sc_completion_status s)
    (sc_tasks s) (sc_next_execution_context s) (sc_notified s) (sc_skip_notified s).

Definition recreate_triggers (raw_triggers : list ScheduleTrigger.ScheduleTrigger) (s : Schedule) : Schedule :=
  let '(triggers, tasks) := create_trigger_tasks raw_triggers in
  mk_Schedule (sc_uuid s) triggers (sc_condition s) (sc_raw_actions s) (sc_status s) (sc_completion_status s)
    tasks (sc_next_execution_context s) (sc_notified s) (sc_skip_notified s).

Section manager.
Context {HF : Floats} {HC : Crons} {HL : Lowercase}.

(** [PartialEq for ScheduleTrigger] *)
Definition trigger_eq (self other : ScheduleTrigger.ScheduleTrigger) : bool :=
  match self, other with
  | ScheduleTrigger.Cron s1, ScheduleTrigger.Cron s2 => cron_eq s1 s2
  | ScheduleTrigger.PowerAction a1, ScheduleTrigger.PowerAction a2 => bool_decide (a1 = a2)
  | ScheduleTrigger.ServerState s1, ScheduleTrigger.ServerState s2 => bool_decide (s1 = s2)
  | ScheduleTrigger.BackupStatus s1, ScheduleTrigger.BackupStatus s2 => bool_decide (s1 = s2)
  | ScheduleTrigger.ScheduleCompletion s1 su1, ScheduleTrigger.ScheduleCompletion s2 su2 => (s1 =? s2) && Bool.eqb su1 su2
  | ScheduleTrigger.ResourceUsage m1 c1 v1 f1, ScheduleTrigger.ResourceUsage m2 c2 v2 f2 =>
      bool_decide (m1 = m2) && bool_decide (c1 = c2) && f64_eq v1 v2 && (f1 =? f2)
  | ScheduleTrigger.ConsoleLine c1 ci1 o1, ScheduleTrigger.ConsoleLine c2 ci2 o2 =>
      bool_decide (c1 = c2) && Bool.eqb ci1 ci2 && bool_decide (o1 = o2)
  | ScheduleTrigger.Crash, ScheduleTrigger.Crash => true
  | _, _ => false
  end.

(** [Vec] equality *)
Fixpoint triggers_eq (l1 l2 : list ScheduleTrigger.ScheduleTrigger) : bool :=
  match l1, l2 with
  | [], [] => true
  | t1 :: l1, t2 :: l2 => trigger_eq t1 t2 && triggers_eq l1 l2
  | _, _ => false
  end.

(** One configured schedule: the first schedule with its uuid is updated, or a new one added. *)
Fixpoint update_schedule (raw_schedule : RawSchedule) (schedules : list Schedule) : list Schedule :=
  match schedules with
  | [] => [Schedule_new raw_schedule]
  | s :: schedules =>
      if sc_uuid s =? rs_uuid raw_schedule then
        update raw_schedule
          (if negb (triggers_eq (sc_triggers s) (rs_triggers raw_schedule)) then recreate_triggers (rs_triggers raw_schedule) s else s) :: schedules
      else s :: update_schedule raw_schedule schedules
  end.

Definition update_schedules (raw_schedules : list RawSchedule) (schedules : list Schedule) : list Schedule :=
  foldl (λ schedules raw_schedule, update_schedule raw_schedule schedules)
    (filter (λ s, existsb (λ raw_schedule, rs_uuid raw_schedule =? sc_uuid s) raw_schedules) schedules) raw_schedules.

(** The loops over the triggers of all schedules; [skip] leaves a schedule out. *)
Definition execute_trigger (skip : Schedule → bool) (matches : ScheduleTrigger.ScheduleTrigger → bool) (schedules : list Schedule) : list Schedule :=
  map (λ s, if skip s then s else foldl (λ s' t, if matches t then trigger false s' else s') s (sc_triggers s)) schedules.

Definition execute_server_state_trigger (state : ServerState.ServerState) : list Schedule → list Schedule :=
  execute_trigger (λ _, false) (λ t, match t with ScheduleTrigger.ServerState trigger_state => bool_decide (trigger_state = state) | _ => false end).
Definition execute_power_action_trigger (action : ServerPowerAction.ServerPowerAction) : list Schedule → list Schedule :=
  execute_trigger (λ _, false) (λ t, match t with ScheduleTrigger.PowerAction trigger_action => bool_decide (trigger_action = action) | _ => false end).
Definition execute_backup_status_trigger (status : ServerBackupStatus.ServerBackupStatus) : list Schedule → list Schedule :=
  execute_trigger (λ _, false) (λ t, match t with ScheduleTrigger.BackupStatus trigger_status => bool_decide (trigger_status = status) | _ => false end).
Definition execute_schedule_completion_trigger (completed_schedule : Z) (successful : bool) : list Schedule → list Schedule :=
  execute_trigger (λ s, sc_uuid s =? completed_schedule)
    (λ t, match t with
          | ScheduleTrigger.ScheduleCompletion trigger_schedule trigger_successful =>
              (trigger_schedule =? completed_schedule) && Bool.eqb trigger_successful successful
          | _ => false
          end).
Definition execute_crash_trigger : list Schedule → list Schedule :=
  execute_trigger (λ _, false) (λ t, match t with ScheduleTrigger.Crash => true | _ => false end).

(** The task of the manager takes the completions to send them. *)
Definition take_completions (schedules : list Schedule) : list ApiScheduleCompletionStatus * list Schedule :=
  (omap sc_completion_status schedules,
   map (λ s, mk_Schedule (sc_uuid s) (sc_triggers s) (sc_condition s) (sc_raw_actions s) (sc_status s) None (sc_tasks s)
               (sc_next_execution_context s) (sc_notified s) (sc_skip_notified s)) schedules).

(** *** The trigger tasks *)

(** A line of the console, for the task of a [ConsoleLine] trigger. *)
Definition console_line (contains : string) (case_insensitive : bool) (output_into : option string) (line : string) (s : Schedule) : Schedule :=
  let found := if case_insensitive then str_contains (to_lowercase contains) (to_lowercase line) else str_contains contains line in
  if found then
    trigger false
      (match output_into with
       | Some v => mk_Schedule (sc_uuid s) (sc_triggers s) (sc_condition s) (sc_raw_actions s) (sc_status s) (sc_completion_status s) (sc_tasks s)
                     (Some (store_variable v line (ScheduleExecutionContext_new (sc_uuid s)))) (sc_notified s) (sc_skip_notified s)
       | None => s
       end)
  else s.

(** The state of the task of a [ResourceUsage] trigger, in milliseconds. *)
Record UsageTask : Type := mk_UsageTask { ut_met_since : option Z; ut_fired : bool }.
Record UsageSample : Type := mk_UsageSample { us_state : ServerState.ServerState; us_cpu_absolute : Z; us_memory_bytes : Z; us_disk_bytes : Z }.

Definition usage_met (metric : ScheduleResourceMetric) (comparator : ScheduleConditionComparator) (value : Z) (usage : UsageSample) : bool :=
  let evaluable := negb (match metric with Cpu | Memory => true | Disk => false end) || bool_decide (us_state usage = ServerState.Running) in
  let current := match metric with
                 | Cpu => us_cpu_absolute usage
                 | Memory => as_f64 (us_memory_bytes usage)
                 | Disk => as_f64 (us_disk_bytes usage)
                 end in
  evaluable && compare_f64 comparator current value.

(** A turn of its loop at time [now] ([true]: the executor is notified). *)
Definition usage_turn (for_duration : Z) (met : bool) (now : Z) (t : UsageTask) : bool * UsageTask :=
  if met then
    let since := default now (ut_met_since t) in
    if negb (ut_fired t) && (for_duration <=? now - since) then (true, mk_UsageTask (Some since) true)
    else (false, mk_UsageTask (Some since) (ut_fired t))
  else (false, mk_UsageTask None false).

(** What the task waits for after a turn: a change of the usage, or, while it
    has not fired, the end of the duration. *)
Inductive UsageWait : Type := Changed | ChangedOrTimeout (deadline : Z).
Definition usage_wait (for_duration : Z) (t : UsageTask) : UsageWait :=
  match ut_fired t, ut_met_since t with
  | false, Some since => ChangedOrTimeout (since + for_duration)
  | _, _ => Changed
  end.
Definition usage_timeout (t : UsageTask) : UsageTask := mk_UsageTask (ut_met_since t) true.
End manager.

(** ** The executors *)

Section executors.
Context {S : Type} {HW : World S} {HF : Floats} {HR : Regexes}.

(** A permit that the executor of a schedule can take: [true] for the notifier
    that skips the condition. *)
Definition permit (skip_condition : bool) (s : Schedule) : bool := if skip_condition then sc_skip_notified s else sc_notified s.

(** The turn of an executor that took a permit, up to the completion trigger. *)
Definition executor_wake (skip_condition : bool) (s : Schedule) (server : S) : option bool * Schedule * Run S :=
  let '(o, r) := executor_turn (sc_uuid s) skip_condition (sc_condition s) (sc_raw_actions s)
                   (sc_next_execution_context s) (sc_status s) server in
  (o,
   mk_Schedule (sc_uuid s) (sc_triggers s) (sc_condition s) (sc_raw_actions s) (run_status r)
     (match o with
      | Some successful => Some (mk_ApiScheduleCompletionStatus (sc_uuid s) successful (run_errors r))
      | None => sc_completion_status s
      end) (sc_tasks s) None
     (if skip_condition then sc_notified s else false) (if skip_condition then false else sc_skip_notified s),
   r).

(** What can happen to the schedules of a server. *)
Inductive schedules_step {HC : Crons} {HL : Lowercase} : list Schedule * S → list Schedule * S → Prop :=
  | step_update raw_schedules schedules server :
      NoDup (rs_uuid <$> raw_schedules) →
      schedules_step (schedules, server) (update_schedules raw_schedules schedules, server)
  | step_state state schedules server :
      schedules_step (schedules, server) (execute_server_state_trigger state schedules, server)
  | step_power action schedules server :
      schedules_step (schedules, server) (execute_power_action_trigger action schedules, server)
  | step_backup status schedules server :
      schedules_step (schedules, server) (execute_backup_status_trigger status schedules, server)
  | step_crash schedules server : schedules_step (schedules, server) (execute_crash_trigger schedules, server)
  | step_manual skip_condition before s after server :
      schedules_step (before ++ s :: after, server) (before ++ trigger skip_condition s :: after, server)
  | step_task before s after s' server t :
      t ∈ sc_tasks s →
      match t with
      | ScheduleTrigger.Cron _ | ScheduleTrigger.ResourceUsage _ _ _ _ => s' = trigger false s
      | ScheduleTrigger.ConsoleLine contains case_insensitive output_into => ∃ line, s' = console_line contains case_insensitive output_into line s
      | _ => False
      end →
      schedules_step (before ++ s :: after, server) (before ++ s' :: after, server)
  | step_executor skip_condition before s after o s' r server :
      permit skip_condition s = true →
      executor_wake skip_condition s server = (o, s', r) →
      schedules_step (before ++ s :: after, server)
        (match o with
         | Some successful => execute_schedule_completion_trigger (sc_uuid s) successful (before ++ s' :: after)
         | None => before ++ s' :: after
         end, run_server r)
  | step_report schedules server : schedules_step (schedules, server) ((take_completions schedules).2, server)
  | step_other schedules server server' : schedules_step (schedules, server) (schedules, server').
End executors.

(** ** Updating the schedules from the configuration *)

Section updates.
Context {HF : Floats} {HC : Crons}.

Lemma create_trigger_tasks_filter l : create_trigger_tasks l = (filter (λ t, has_task t = false) l, filter (λ t, has_task t = true) l).
Proof.
  induction l as [|t l IH]; [done|]. simpl. rewrite IH, !filter_cons. by destruct t.
Qed.

(** What becomes of a configured schedule. *)
Definition updated (schedules : list Schedule) (raw : RawSchedule) : Schedule :=
  match list_find (λ s, sc_uuid s = rs_uuid raw) schedules with
  | Some (_, s) => update raw (if triggers_eq (sc_triggers s) (rs_triggers raw) then s else recreate_triggers (rs_triggers raw) s)
  | None => Schedule_new raw
  end.

Lemma updated_uuid schedules raw : sc_uuid (updated schedules raw) = rs_uuid raw.
Proof.
  unfold updated. destruct (list_find _ _) as [[i s]|] eqn:E.
  - apply list_find_Some in E as (_ & Hs & _). by case_match; unfold recreate_triggers; rewrite ?create_trigger_tasks_filter.
  - unfold Schedule_new. by rewrite create_trigger_tasks_filter.
Qed.

Lemma updated_in schedules raw s :
  NoDup (sc_uuid <$> schedules) → s ∈ schedules → sc_uuid s = rs_uuid raw →
  updated schedules raw = update raw (if triggers_eq (sc_triggers s) (rs_triggers raw) then s else recreate_triggers (rs_triggers raw) s).
Proof.
  intros Hnd Hs Hu. unfold updated. destruct (list_find_elem_of (λ s, sc_uuid s = rs_uuid raw) schedules s) as [[i s'] Hf]; [done..|].
  rewrite Hf. apply list_find_Some in Hf as (Hi & Hu' & _). apply list_elem_of_lookup_1 in Hs as [j Hj].
  assert (i = j) as ->; [|by simplify_eq].
  eapply NoDup_lookup; [done|by rewrite list_lookup_fmap, Hi|rewrite list_lookup_fmap, Hj; simpl; by rewrite Hu, Hu'].
Qed.

Lemma updated_not_in schedules raw : rs_uuid raw ∉ sc_uuid <$> schedules → updated schedules raw = Schedule_new raw.
Proof.
  intros Hn. unfold updated. destruct (list_find _ _) as [[i s]|] eqn:E; [|done].
  apply list_find_Some in E as (Hs & Hu & _). destruct Hn. rewrite <-Hu. apply list_elem_of_fmap_2. by eapply list_elem_of_lookup_2.
Qed.

(** Only the schedule with the uuid matters. *)
Lemma updated_ext l1 l2 raw :
  NoDup (sc_uuid <$> l1) → NoDup (sc_uuid <$> l2) → (∀ s, sc_uuid s = rs_uuid raw → s ∈ l1 ↔ s ∈ l2) →
  updated l1 raw = updated l2 raw.
Proof.
  intros H1 H2 Hl. destruct (decide (rs_uuid raw ∈ sc_uuid <$> l1)) as [Hin|Hin].
  - apply list_elem_of_fmap in Hin as (s & Hu & Hs). rewrite (updated_in l1 raw s), (updated_in l2 raw s); try done. by apply Hl.
  - rewrite !updated_not_in; try done. intros (s & Hu & Hs)%list_elem_of_fmap. destruct Hin. rewrite Hu. apply list_elem_of_fmap_2. by apply Hl.
Qed.

Lemma list_filter_all {A} (P : A → Prop) `{!∀ x, Decision (P x)} (l : list A) : (∀ x, x ∈ l → P x) → filter P l = l.
Proof.
  induction l as [|x l IH]; intros HP; [done|].
  rewrite filter_cons_True by (apply HP; left). rewrite IH; [done|]. intros y Hy. apply HP. by right.
Qed.

Lemma list_filter_none {A} (P : A → Prop) `{!∀ x, Decision (P x)} (l : list A) : (∀ x, x ∈ l → ¬ P x) → filter P l = [].
Proof.
  induction l as [|x l IH]; intros HP; [done|].
  rewrite filter_cons_False by (apply HP; left). apply IH. intros y Hy. apply HP. by right.
Qed.

Lemma update_schedule_perm raw schedules :
  NoDup (sc_uuid <$> schedules) →
  update_schedule raw schedules ≡ₚ updated schedules raw :: filter (λ s, sc_uuid s ≠ rs_uuid raw) schedules.
Proof.
  induction schedules as [|s l IH]; intros Hnd; [done|]. simpl. rewrite filter_cons.
  pose proof Hnd as Hnd0. apply list.NoDup_cons in Hnd as [Hs Hnd]. destruct (Z.eqb_spec (sc_uuid s) (rs_uuid raw)) as [Hu|Hu].
  - rewrite decide_False by auto. rewrite (updated_in _ _ s); [|done|left|done].
    rewrite list_filter_all.
    + by destruct (triggers_eq _ _).
    + intros s' Hs' Hu'. destruct Hs. rewrite Hu, <-Hu'. by apply list_elem_of_fmap_2.
  - rewrite decide_True by done. rewrite IH by done. rewrite (updated_ext (s :: l) l raw); [by constructor|done..|].
    intros s' Hu'. split; [|by right]. intros [->|]%elem_of_cons; done.
Qed.

(** The uuids stay distinct. *)
Lemma NoDup_filter_uuid (P : Schedule → Prop) `{!∀ s, Decision (P s)} schedules :
  NoDup (sc_uuid <$> schedules) → NoDup (sc_uuid <$> filter P schedules).
Proof. intros Hnd. eapply sublist_NoDup; [exact Hnd|]. apply fmap_sublist, sublist_filter. Qed.

Lemma update_schedule_NoDup raw schedules : NoDup (sc_uuid <$> schedules) → NoDup (sc_uuid <$> update_schedule raw schedules).
Proof.
  intros Hnd. rewrite update_schedule_perm by done. simpl. apply list.NoDup_cons. split; [|by apply NoDup_filter_uuid].
  rewrite updated_uuid. intros (s & Hu & Hs)%list_elem_of_fmap. by apply list_elem_of_filter in Hs as [].
Qed.

Lemma update_fold raw_schedules schedules :
  NoDup (rs_uuid <$> raw_schedules) → NoDup (sc_uuid <$> schedules) →
  foldl (λ schedules raw_schedule, update_schedule raw_schedule schedules) schedules raw_schedules ≡ₚ
  map (updated schedules) raw_schedules ++ filter (λ s, sc_uuid s ∉ rs_uuid <$> raw_schedules) schedules.
Proof.
  revert schedules. induction raw_schedules as [|raw l IH]; intros schedules Hr Hnd.
  - simpl. rewrite list_filter_all; [done|]. intros s _. apply not_elem_of_nil.
  - apply list.NoDup_cons in Hr as [Hraw Hr]. pose proof (update_schedule_NoDup raw schedules Hnd) as Hnd'.
    pose proof (update_schedule_perm raw schedules Hnd) as Hp.
    simpl. rewrite IH by done.
    rewrite (map_ext_in _ (updated schedules)).
    + rewrite Hp at 1. rewrite filter_cons, updated_uuid, decide_True by done. rewrite list_filter_filter.
      rewrite <-Permutation_middle. constructor. apply Permutation_app_head. apply reflexive_eq.
      apply list_filter_iff. intros s. set_solver.
    + intros raw' Hin%list_elem_of_In. apply updated_ext; [done..|]. intros s Hs. rewrite Hp, elem_of_cons, list_elem_of_filter.
      assert (rs_uuid raw' ≠ rs_uuid raw) as Hne. { intros He. destruct Hraw. rewrite <-He. by apply list_elem_of_fmap_2. }
      split; [intros [->|[_ ?]]|intros ?; right; split]; try done; [|congruence].
      destruct Hne. by rewrite <-Hs, updated_uuid.
Qed.

Lemma update_schedules_perm raw_schedules schedules :
  NoDup (rs_uuid <$> raw_schedules) → NoDup (sc_uuid <$> schedules) →
  update_schedules raw_schedules schedules ≡ₚ map (updated schedules) raw_schedules.
Proof.
  intros Hr Hnd. unfold update_schedules.
  set (kept := filter (λ s, Is_true (existsb (λ raw, rs_uuid raw =? sc_uuid s) raw_schedules)) schedules).
  assert (∀ s, s ∈ kept ↔ s ∈ schedules ∧ sc_uuid s ∈ rs_uuid <$> raw_schedules) as Hkept.
  { intros s. subst kept. rewrite list_elem_of_filter, Is_true_true, existsb_exists, list_elem_of_fmap.
    split.
    - intros [(raw & Hin & Hu) Hs]. split; [done|]. exists raw. apply Z.eqb_eq in Hu. by rewrite list_elem_of_In.
    - intros [Hs (raw & Hu & Hin)]. split; [|done]. exists raw. rewrite <-list_elem_of_In. split; [done|]. by apply Z.eqb_eq. }
  assert (NoDup (sc_uuid <$> kept)) as Hk by (by apply NoDup_filter_uuid).
  rewrite update_fold by done.
  rewrite (list_filter_none (λ s, sc_uuid s ∉ rs_uuid <$> raw_schedules)), app_nil_r.
  - apply reflexive_eq, map_ext_in. intros raw Hraw%list_elem_of_In. apply updated_ext; [done..|].
    intros s Hs. rewrite Hkept. split; [by intros []|]. intros ?. split; [done|]. rewrite Hs. by apply list_elem_of_fmap_2.
  - intros s Hs%Hkept. tauto.
Qed.
End updates.

(** ** Which triggers are in force *)

Section triggers.
Context {HF : Floats} {HC : Crons}.

Lemma trigger_eq_spec t1 t2 : has_task t1 = false → trigger_eq t1 t2 = true ↔ t1 = t2.
Proof.
  intros Ht. destruct t1, t2; try done; simpl; rewrite ?bool_decide_eq_true, ?andb_true_iff, ?Z.eqb_eq, ?eqb_true_iff; naive_solver.
Qed.

Lemma triggers_eq_spec l1 l2 : Forall (λ t, has_task t = false) l1 → triggers_eq l1 l2 = true ↔ l1 = l2.
Proof.
  intros H1. revert l2. induction H1 as [|t1 l1 Ht _ IH]; intros [|t2 l2]; try done. simpl.
  rewrite andb_true_iff, trigger_eq_spec, IH by done. naive_solver.
Qed.

Definition no_tasks (s : Schedule) : Prop := Forall (λ t, has_task t = false) (sc_triggers s).

(** The triggers that are compared are always those of the new configuration.
    The tasks are too, but for one case: when the configuration has no trigger
    with a task and its triggers are those the schedule keeps, whatever tasks
    it has run on. *)
Theorem update_triggers schedules raw s :
  NoDup (sc_uuid <$> schedules) → s ∈ schedules → sc_uuid s = rs_uuid raw → no_tasks s →
  let s' := updated schedules raw in
  sc_triggers s' = filter (λ t, has_task t = false) (rs_triggers raw) ∧
  sc_tasks s' = (if bool_decide (sc_triggers s = rs_triggers raw) then sc_tasks s else filter (λ t, has_task t = true) (rs_triggers raw)).
Proof.
  intros Hnd Hs Hu Hn. cbn zeta. rewrite (updated_in _ _ s) by done.
  destruct (triggers_eq _ _) eqn:E.
  - apply triggers_eq_spec in E; [|done]. rewrite bool_decide_eq_true_2 by done. split; [|done].
    simpl. rewrite <-E. symmetry. apply list_filter_all. by apply list.Forall_forall.
  - rewrite bool_decide_eq_false_2.
    + unfold recreate_triggers. by rewrite create_trigger_tasks_filter.
    + intros He. by apply (triggers_eq_spec _ _ Hn) in He; rewrite He in E.
Qed.

(** Taking the last trigger with a task out of a schedule leaves its task
    running: it keeps waking the schedule. *)
Theorem removed_triggers_keep_running schedules old raw :
  rs_uuid old = rs_uuid raw → rs_triggers raw = filter (λ t, has_task t = false) (rs_triggers old) →
  schedules = [Schedule_new old] →
  sc_tasks (updated schedules raw) = filter (λ t, has_task t = true) (rs_triggers old).
Proof.
  intros Hu Ht ->.
  assert (no_tasks (Schedule_new old)) as Hn.
  { unfold no_tasks, Schedule_new. rewrite create_trigger_tasks_filter. apply list.Forall_forall. by intros t [? _]%list_elem_of_filter. }
  assert (sc_uuid (Schedule_new old) = rs_uuid raw ∧ sc_triggers (Schedule_new old) = rs_triggers raw ∧
    sc_tasks (Schedule_new old) = filter (λ t, has_task t = true) (rs_triggers old)) as (Hu' & Ht' & Htasks).
  { unfold Schedule_new. by rewrite create_trigger_tasks_filter. }
  destruct (update_triggers [Schedule_new old] raw (Schedule_new old)) as [_ ->]; try done.
  - apply NoDup_singleton.
  - left.
  - by rewrite bool_decide_eq_true_2.
Qed.

(** A schedule with a trigger that has a task never compares equal to its
    configuration, so each update starts its tasks again. *)
Theorem tasks_restart_on_update s raw t :
  no_tasks s → t ∈ rs_triggers raw → has_task t = true → triggers_eq (sc_triggers s) (rs_triggers raw) = false.
Proof.
  intros Hn Hin Ht. apply not_true_iff_false. intros He%triggers_eq_spec; [|done].
  unfold no_tasks in Hn. rewrite He, list.Forall_forall in Hn. by rewrite Hn in Ht.
Qed.
End triggers.

Lemma same_key {A} (f : A → Z) (l : list A) x y : NoDup (f <$> l) → x ∈ l → y ∈ l → f x = f y → x = y.
Proof.
  intros Hnd [i Hi]%list_elem_of_lookup_1 [j Hj]%list_elem_of_lookup_1 Hf.
  assert (i = j) as ->; [|by simplify_eq].
  apply (NoDup_lookup (f <$> l) i j (f x)); [done|..]; rewrite list_lookup_fmap; [by rewrite Hi|rewrite Hj; simpl; by rewrite Hf].
Qed.

Section follow.
Context {HF : Floats} {HC : Crons}.

(** C27. Updating the schedules of a server.  After an update there is exactly one
    schedule for each configured one and no other, with the condition, the
    actions and the compared triggers of the configuration.  One that was
    there keeps its status, its completion, its variables and its permits; its
    tasks are those of the configuration, except when the triggers the old one
    compared are the whole new list: then the old tasks go on.  One that was
    not there is new. *)
Theorem update_schedules_follow raw_schedules schedules :
  NoDup (rs_uuid <$> raw_schedules) → NoDup (sc_uuid <$> schedules) → Forall no_tasks schedules →
  sc_uuid <$> update_schedules raw_schedules schedules ≡ₚ rs_uuid <$> raw_schedules ∧
  ∀ raw s', raw ∈ raw_schedules → s' ∈ update_schedules raw_schedules schedules → sc_uuid s' = rs_uuid raw →
    sc_condition s' = rs_condition raw ∧ sc_raw_actions s' = rs_actions raw ∧
    sc_triggers s' = filter (λ t, has_task t = false) (rs_triggers raw) ∧
    (∀ s, s ∈ schedules → sc_uuid s = rs_uuid raw →
       sc_status s' = sc_status s ∧ sc_completion_status s' = sc_completion_status s ∧
       sc_next_execution_context s' = sc_next_execution_context s ∧
       sc_notified s' = sc_notified s ∧ sc_skip_notified s' = sc_skip_notified s ∧
       sc_tasks s' = (if bool_decide (sc_triggers s = rs_triggers raw) then sc_tasks s else filter (λ t, has_task t = true) (rs_triggers raw))) ∧
    (rs_uuid raw ∉ sc_uuid <$> schedules → s' = Schedule_new raw).
Proof.
  intros Hr Hnd Hn. pose proof (update_schedules_perm raw_schedules schedules Hr Hnd) as Hp. split.
  { rewrite Hp. change (map (updated schedules) raw_schedules) with (updated schedules <$> raw_schedules).
    rewrite <-list_fmap_compose. apply reflexive_eq, list_fmap_ext. intros i raw _. apply updated_uuid. }
  intros raw s' Hraw Hs' Hu. rewrite Hp in Hs'.
  assert (s' = updated schedules raw) as ->.
  { apply list_elem_of_In, in_map_iff in Hs' as (raw' & <- & Hraw'%list_elem_of_In). rewrite updated_uuid in Hu.
    f_equal. by apply (same_key rs_uuid raw_schedules). }
  destruct (decide (rs_uuid raw ∈ sc_uuid <$> schedules)) as [Hin|Hin].
  - apply list_elem_of_fmap in Hin as (s0 & Hu0 & Hs0).
    assert (∀ s, s ∈ schedules → sc_uuid s = rs_uuid raw → s = s0) as Hone.
    { intros s Hs Hus. apply (same_key sc_uuid schedules); congruence || done. }
    destruct (update_triggers schedules raw s0) as [Ht Htasks]; [done..|by apply (proj1 (list.Forall_forall _ _) Hn)|].
    rewrite (updated_in schedules raw s0) in Ht, Htasks |- * by done.
    assert (∀ A (f : Schedule → A), (∀ l s, f (recreate_triggers l s) = f s) →
      f (if triggers_eq (sc_triggers s0) (rs_triggers raw) then s0 else recreate_triggers (rs_triggers raw) s0) = f s0) as Hf.
    { intros A f Hf. by destruct (triggers_eq _ _). }
    assert (∀ l s, recreate_triggers l s = mk_Schedule (sc_uuid s) (filter (λ t, has_task t = false) l) (sc_condition s) (sc_raw_actions s)
      (sc_status s) (sc_completion_status s) (filter (λ t, has_task t = true) l) (sc_next_execution_context s) (sc_notified s) (sc_skip_notified s)) as Hrec.
    { intros l s. unfold recreate_triggers. by rewrite create_trigger_tasks_filter. }
    split_and!; [done|done|done| |].
    + intros s Hs Hus. rewrite (Hone s Hs Hus). split_and!; [..|done]; simpl; apply Hf; intros l s1; by rewrite Hrec.
    + intros []. rewrite Hu0. by apply list_elem_of_fmap_2.
  - rewrite updated_not_in by done. unfold Schedule_new. rewrite create_trigger_tasks_filter. split_and!; try done.
    intros s Hs Hus. destruct Hin. rewrite <-Hus. by apply list_elem_of_fmap_2.
Qed.
End follow.

(** ** What an event wakes up *)

Lemma trigger_idemp s : trigger false (trigger false s) = trigger false s.
Proof. done. Qed.

Lemma execute_trigger_spec skip matches schedules :
  execute_trigger skip matches schedules =
  map (λ s, if negb (skip s) && existsb matches (sc_triggers s) then trigger false s else s) schedules.
Proof.
  unfold execute_trigger. apply map_ext. intros s. destruct (skip s); [done|]. simpl.
  assert (∀ l s', foldl (λ s' t, if matches t then trigger false s' else s') s' l = if existsb matches l then trigger false s' else s') as Hl.
  { induction l as [|t l IH]; intros s'; [done|]. simpl. rewrite IH. by destruct (matches t), (existsb matches l). }
  apply Hl.
Qed.

(** ** The trigger on resource usage *)

Section usage.
Context (for_duration : Z).

(** The samples its task has seen, the newest first: when, and whether the
    condition held.  The end of a wait is a sample at which it still holds. *)
Fixpoint holds_since (samples : list (Z * bool)) : option Z :=
  match samples with
  | (now, true) :: samples => Some (default now (holds_since samples))
  | _ => None
  end.

(** The condition has held without a break for the duration. *)
Definition elapsed (samples : list (Z * bool)) : bool :=
  match samples, holds_since samples with
  | (now, _) :: _, Some since => for_duration <=? now - since
  | _, _ => false
  end.

Fixpoint usage_run (samples : list (Z * bool)) : list Z * UsageTask :=
  match samples with
  | [] => ([], mk_UsageTask None false)
  | (now, met) :: samples =>
      let '(fired, t) := usage_run samples in
      let '(b, t) := usage_turn for_duration met now t in
      ((if (b : bool) then now :: fired else fired), t)
  end.

Fixpoint sorted_samples (samples : list (Z * bool)) : Prop :=
  match samples with
  | (now, _) :: ((before, _) :: _) as rest => before <= now ∧ sorted_samples rest
  | _ => True
  end.

(** The specification: a notification whenever the condition comes to have
    held for the duration. *)
Fixpoint usage_spec (samples : list (Z * bool)) : list Z :=
  match samples with
  | [] => []
  | (now, met) :: rest => if elapsed samples && negb (elapsed rest) then now :: usage_spec rest else usage_spec rest
  end.

(** The end of the wait is such a sample. *)
Lemma usage_timeout_turn t deadline now :
  usage_wait for_duration t = ChangedOrTimeout deadline → deadline <= now →
  usage_turn for_duration true now t = (true, usage_timeout t).
Proof.
  unfold usage_wait, usage_turn, usage_timeout. destruct t as [[since|] []]; try done; simpl.
  intros [= <-] Hnow. by rewrite (proj2 (Z.leb_le _ _)) by lia.
Qed.

(** The trigger on resource usage notifies its schedule exactly when its
    condition comes to have held for the configured time without a break,
    once for each such stretch; between turns it waits for no longer than the
    end of the stretch that would complete it. *)
Theorem usage_trigger_fires samples :
  sorted_samples samples →
  let '(fired, t) := usage_run samples in
  fired = usage_spec samples ∧ ut_met_since t = holds_since samples ∧ ut_fired t = elapsed samples ∧
  usage_wait for_duration t =
    match holds_since samples with
    | Some since => if elapsed samples then Changed else ChangedOrTimeout (since + for_duration)
    | None => Changed
    end.
Proof.
  induction samples as [|[now met] samples IH]; intros Hs; [done|].
  assert (sorted_samples samples) as Hs'. { destruct samples as [|[]]; [done|]. apply Hs. }
  specialize (IH Hs'). cbn [usage_run usage_spec]. destruct (usage_run samples) as [fired [since0 fired0]].
  destruct IH as (-> & Hsince & Hfired & _). simpl in Hsince, Hfired. rewrite Hsince, Hfired. unfold usage_turn.
  destruct met; [|done]. cbn [ut_fired ut_met_since].
  change (elapsed ((now, true) :: samples)) with (for_duration <=? now - default now (holds_since samples)).
  assert (elapsed samples = true → (for_duration <=? now - default now (holds_since samples)) = true) as Hmono.
  { unfold elapsed. destruct samples as [|[before b] rest]; [done|]. destruct (holds_since _) as [since|]; [|done]. simpl in Hs.
    simpl. rewrite !Z.leb_le. lia. }
  destruct (elapsed samples); [by rewrite Hmono|].
  unfold usage_wait. by destruct (for_duration <=? _).
Qed.
End usage.

(** ** The schedules of a server at any time *)

Section invariant.
Context {S : Type} {HW : World S} {HF : Floats} {HR : Regexes} {HC : Crons} {HL : Lowercase}.

Definition schedule_ok (s : Schedule) : Prop :=
  no_tasks s ∧ Forall (λ t, has_task t = true) (sc_tasks s) ∧
  sst_running (sc_status s) = false ∧ sst_step (sc_status s) = None ∧
  (∀ c, sc_completion_status s = Some c → acs_uuid c = sc_uuid s ∧ acs_errors c ⊆ sst_errors (sc_status s)).
Definition schedules_ok (schedules : list Schedule) : Prop := NoDup (sc_uuid <$> schedules) ∧ Forall schedule_ok schedules.

Inductive schedules_reachable : list Schedule * S → Prop :=
  | reach_start server : schedules_reachable ([], server)
  | reach_step x y : schedules_reachable x → schedules_step x y → schedules_reachable y.

Lemma Schedule_new_ok raw : schedule_ok (Schedule_new raw).
Proof.
  unfold Schedule_new, schedule_ok, no_tasks. rewrite create_trigger_tasks_filter. simpl.
  split_and!; try done; apply list.Forall_forall; by intros t [? _]%list_elem_of_filter.
Qed.

Lemma updated_ok schedules raw : Forall schedule_ok schedules → schedule_ok (updated schedules raw).
Proof.
  intros Hok. unfold updated. destruct (list_find _ _) as [[i s]|] eqn:E; [|apply Schedule_new_ok].
  apply list_find_Some in E as (Hs & _ & _). apply (Forall_lookup_1 _ _ _ _ Hok) in Hs as (H1 & H2 & Hrest).
  case_match; [done|]. unfold recreate_triggers. rewrite create_trigger_tasks_filter.
  split_and!; try apply Hrest; apply list.Forall_forall; by intros t [? _]%list_elem_of_filter.
Qed.

Lemma map_ok (f : Schedule → Schedule) schedules :
  (∀ s, sc_uuid (f s) = sc_uuid s) → (∀ s, schedule_ok s → schedule_ok (f s)) → schedules_ok schedules → schedules_ok (map f schedules).
Proof.
  intros Hu Hf [Hnd Hok]. split.
  - replace (sc_uuid <$> map f schedules) with (sc_uuid <$> schedules); [done|].
    change (map f schedules) with (f <$> schedules). rewrite <-list_fmap_compose. apply list_fmap_ext. intros i s _. by rewrite <-Hu.
  - apply Forall_fmap. eapply Forall_impl; [|exact Hok]. intros s. apply Hf.
Qed.

Lemma execute_trigger_ok skip matches schedules : schedules_ok schedules → schedules_ok (execute_trigger skip matches schedules).
Proof. rewrite execute_trigger_spec. apply map_ok; intros s; by case_match. Qed.

Lemma replace_ok before s s' after :
  sc_uuid s' = sc_uuid s → (schedule_ok s → schedule_ok s') → schedules_ok (before ++ s :: after) → schedules_ok (before ++ s' :: after).
Proof.
  intros Hu Hs [Hnd Hok]. split.
  - rewrite fmap_app, fmap_cons in Hnd |- *. by rewrite Hu.
  - rewrite Forall_app, Forall_cons_iff in Hok |- *. tauto.
Qed.

Lemma console_line_ok contains case_insensitive output_into line s :
  sc_uuid (console_line contains case_insensitive output_into line s) = sc_uuid s ∧
  (schedule_ok s → schedule_ok (console_line contains case_insensitive output_into line s)).
Proof. unfold console_line. destruct (if case_insensitive then _ else _), output_into; done. Qed.

Lemma executor_wake_ok skip_condition s server o s' r :
  executor_wake skip_condition s server = (o, s', r) →
  sc_uuid s' = sc_uuid s ∧ (schedule_ok s → schedule_ok s').
Proof.
  unfold executor_wake. destruct (executor_turn _ _ _ _ _ _ _) as [o' r'] eqn:E. intros [= -> <- <-].
  split; [done|]. intros (H1 & H2 & H3 & H4 & H5). destruct o as [successful|].
  - destruct (schedule_reports _ _ _ _ _ _ _ _ _ E) as (n & sent & _ & _ & Hr & Ht & He & _).
    split_and!; try done. intros c [= <-]. split; [done|]. simpl. rewrite He. apply map_union_subseteq_l.
  - by rewrite (executor_turn_none _ _ _ _ _ _ _ _ E).
Qed.

(** The schedules of a server, whatever happens to it: their uuids are distinct; the
    triggers that are compared have no task and the tasks are of triggers that
    have one; between turns no schedule is marked as running or at a step;
    and a completion waiting to be reported is of its own schedule, with
    errors the status shows as well. *)
Theorem schedules_invariant x : schedules_reachable x → schedules_ok x.1.
Proof.
  induction 1 as [server|x y _ IH Hstep]; [by split; constructor|].
  inversion Hstep; subst; simpl in *; try done; try (by apply execute_trigger_ok).
  - destruct IH as [Hnd Hok]. split.
    + rewrite update_schedules_perm by done.
      change (map (updated schedules) raw_schedules) with (updated schedules <$> raw_schedules). rewrite <-list_fmap_compose.
      rewrite (list_fmap_ext _ rs_uuid); [done|]. intros i raw _. apply updated_uuid.
    + rewrite update_schedules_perm by done. apply Forall_fmap, list.Forall_forall. intros raw _. by apply updated_ok.
  - by apply (replace_ok _ s).
  - revert IH. apply replace_ok; destruct t; try done; subst; try done.
    + by destruct H0 as [line ->]; apply console_line_ok.
    + by destruct H0 as [line ->]; apply console_line_ok.
  - apply executor_wake_ok in H0 as [Hu Hs]. pose proof (replace_ok before s s' after Hu Hs IH).
    destruct o; [by apply execute_trigger_ok|done].
  - revert IH. apply map_ok; [done|]. intros s (H1 & H2 & H3 & H4 & _). by split_and!.
Qed.
End invariant.

(** ** Examples *)

Section examples.
#[local] Instance no_floats : Floats := {| f64_lt := Z.ltb; f64_le := Z.leb; f64_eq := Z.eqb; as_f64 := id |}.
#[local] Instance same_crons : Crons := String.eqb.

Local Definition cron : ScheduleTrigger.ScheduleTrigger := ScheduleTrigger.Cron "0 4 * * *".
Local Definition nightly : RawSchedule := mk_RawSchedule 1 [cron] ScheduleCondition.None [].
Local Definition on_crash : RawSchedule := mk_RawSchedule 2 [ScheduleTrigger.Crash] ScheduleCondition.None [].

Lemma update_schedules_follow_witness :
  sc_uuid <$> update_schedules [on_crash] [Schedule_new nightly; Schedule_new on_crash] ≡ₚ [2].
Proof.
  apply (update_schedules_follow [on_crash] [Schedule_new nightly; Schedule_new on_crash]).
  - apply NoDup_singleton.
  - apply list.NoDup_cons. split; [|apply NoDup_singleton]. intros H%list_elem_of_In. by destruct H as [H|[]].
  - repeat constructor.
Defined.

(** The nightly schedule keeps its cron task after its trigger was removed. *)
Example stale_cron :
  map sc_tasks (update_schedules [mk_RawSchedule 1 [] ScheduleCondition.None []] [Schedule_new nightly]) = [[cron]].
Proof. reflexivity. Qed.

Example completion_wakes_others :
  map sc_notified (execute_schedule_completion_trigger 1 true
    [Schedule_new (mk_RawSchedule 1 [ScheduleTrigger.ScheduleCompletion 1 true] ScheduleCondition.None []);
     Schedule_new (mk_RawSchedule 2 [ScheduleTrigger.ScheduleCompletion 1 true] ScheduleCondition.None []);
     Schedule_new (mk_RawSchedule 3 [ScheduleTrigger.ScheduleCompletion 1 false] ScheduleCondition.None [])]) = [false; true; false].
Proof. reflexivity. Qed.

Lemma usage_trigger_fires_witness :
  (usage_run 10 [(30, true); (25, true); (15, true); (8, true); (5, false); (4, true)]).1 = [25].
Proof.
  pose proof (usage_trigger_fires 10 [(30, true); (25, true); (15, true); (8, true); (5, false); (4, true)]) as H.
  destruct (usage_run _ _). destruct H as [-> _]; [simpl; lia|reflexivity].
Defined.

#[local] Instance idle_world : World unit := {|
  get_state s := (ServerState.Offline, s);
  resource_usage s := (mk_ResourceUsage 0 0 0 0, s);
  symlink_metadata_is_ok _ s := (false, s);
  locked_state s := (None, s);
  sleep _ s := s;
  wait_for_state _ _ s := (true, s);
  start s := (Ok tt, s);
  restarting s := (false, s);
  auto_kill s := (mk_AutoKill false 0, s);
  restart s := (Ok tt, s);
  restart_with_kill_timeout _ s := (Ok tt, s);
  stop s := (Ok tt, s);
  stop_with_kill_timeout _ s := (Ok tt, s);
  kill s := (Ok tt, s);
  send_stdin _ s := (true, s);
  log_activity _ _ s := s;
  perform _ ctx s := (Ok tt, ctx, s);
|}.
#[local] Instance no_regexes : Regexes := λ _ _, None.
#[local] Instance same_case : Lowercase := id.

Lemma schedules_invariant_witness : schedules_ok (update_schedules [nightly; on_crash] []).
Proof.
  apply (schedules_invariant (S := unit) (update_schedules [nightly; on_crash] [], tt)).
  apply (reach_step ([], tt)); [constructor|]. apply step_update.
  apply list.NoDup_cons. split; [|apply NoDup_singleton]. intros H%list_elem_of_In. by destruct H as [H|[]].
Defined.
End examples.
