(* ===== verification/Collab.v ===== *)
(** * Collab: editing a file together (application/src/server/collab/mod.rs, manager.rs)

    A session holds the shared document of a file and the connections that
    edit it.  The document is a replicated text of the crate yrs.  Sessions
    are shared by reference: a save keeps working on the session it took even
    when the map has moved on, so the state is a heap of sessions and a map
    from files to them.  Each operation below is one turn; a save, which holds
    the save lock of its session over its writing, is three turns. *)
From S2P Require Import Prelude Paths Utf8.
Local Open Scope string_scope.
Local Open Scope list_scope.
Local Open Scope Z_scope.

(** ** Third-party code *)

(** yrs: the document with its one text, and updates of it. *)
Class Ydoc (D U : Type) : Type := {
  doc_new : bytes → D;
  get_string : D → bytes;
  text_len : D → Z;
  encode_full_state : D → bytes;
  decode_v1 : bytes → option U;
  yrs_apply : U → D → option D;
}.
Class YdocLaws (D U : Type) `{Ydoc D U} : Prop := {
  get_string_new s : get_string (doc_new s) = s;
}.
(** blake3, and its hexadecimal digits *)
Class Blake3 (H : Type) : Type := { blake3 : bytes → H; to_hex : H → string }.
(** The base64 engine *)
Class Base64 : Type := { base64_decode : string → option bytes; base64_encode : bytes → string }.

(** ** Data *)

Inductive CollabError : Type :=
  | User (message : string)
  | Internal
  | Panic.

Record ConflictState (H : Type) : Type := mk_ConflictState { cf_hash : option H; cf_deleted : bool }.
Arguments mk_ConflictState {H} _ _.
Arguments cf_hash {H} _.
Arguments cf_deleted {H} _.
#[export] Instance conflict_eq {H} `{EqDecision H} : EqDecision (ConflictState H).
Proof. solve_decision. Defined.

Record Participant : Type := mk_Participant { pt_user : Z; pt_name : string; pt_avatar : option string }.

Record CollabDoc (D H : Type) : Type := mk_CollabDoc { cd_doc : D; cd_applied_update_bytes : Z; cd_disk_hash : H }.
Arguments mk_CollabDoc {D H} _ _ _.
Arguments cd_doc {D H} _.
Arguments cd_applied_update_bytes {D H} _.
Arguments cd_disk_hash {D H} _.

(** What is sent to a connection. *)
Inductive Message (H : Type) : Type :=
  | FileCollabSync (path : bytes) (state : string) (dirty : bool) (conflict : option (ConflictState H))
  | FileCollabParticipants (path : bytes) (participants : list Participant)
  | FileCollabUpdate (path : bytes) (update : string)
  | FileCollabAwareness (path : bytes) (payload : string)
  | FileCollabConflict (path : bytes) (conflict : option (ConflictState H))
  | FileCollabSaved (path : bytes) (user : Z) (revision_id : option Z)
  | FileCollabResync (path : bytes).
Arguments FileCollabSync {H} _ _ _ _.
Arguments FileCollabParticipants {H} _ _.
Arguments FileCollabUpdate {H} _ _.
Arguments FileCollabAwareness {H} _ _.
Arguments FileCollabConflict {H} _ _.
Arguments FileCollabSaved {H} _ _ _.
Arguments FileCollabResync {H} _.

(** A save between its turns: what it is about to write. *)
Record SaveTask : Type := mk_SaveTask {
  sv_connection : Z;
  sv_user : Z;
  sv_key : bytes;
  sv_path : bytes;
  sv_content : bytes;
  sv_before : option bytes;
  sv_written : bool;
}.

(** A save or reload that waits for the save lock of its session. *)
Inductive LockRequest : Type :=
  | SaveRequest (connection user : Z) (key path parent : bytes) (force : bool) (expected_hash : option string)
  | ReloadRequest (key : bytes).

Record CollabSession (D H : Type) : Type := mk_CollabSession {
  ss_path : bytes;
  ss_abs_path : bytes;
  ss_doc : CollabDoc D H;
  ss_poisoned : bool;
  ss_dirty : bool;
  ss_conflict : option (ConflictState H);
  ss_participants : gmap Z Participant;
  ss_save_lock : option SaveTask;
  ss_last_mtime : option Z;
  ss_reported_unreadable : bool;
}.
Arguments mk_CollabSession {D H} _ _ _ _ _ _ _ _ _ _.
Arguments ss_path {D H} _.
Arguments ss_abs_path {D H} _.
Arguments ss_doc {D H} _.
Arguments ss_poisoned {D H} _.
Arguments ss_dirty {D H} _.
Arguments ss_conflict {D H} _.
Arguments ss_participants {D H} _.
Arguments ss_save_lock {D H} _.
Arguments ss_last_mtime {D H} _.
Arguments ss_reported_unreadable {D H} _.

(** [system.file_collaboration] and [system.file_history] *)
Record CollabConfig : Type := mk_CollabConfig {
  cc_enabled : bool;
  cc_file_size_cap : Z;
  cc_max_sessions_per_server : Z;
  cc_max_sessions_per_connection : Z;
  cc_history_enabled : bool;
  cc_history_file_size_cap : Z;
}.

Record FileMetadata : Type := mk_FileMetadata { md_is_file : bool; md_size : Z; md_modified : option Z }.

(** The server around the sessions: its file system, its disk usage, its
    history of edits and its activity log. *)
Class CollabWorld (W : Type) : Type := {
  resolve_writable_fs : bytes → W → (bytes * bool) * W;
  is_ignored : bytes → W → bool;
  async_canonicalize : bytes → W → option bytes * W;
  relative_path : bytes → bytes;
  async_metadata : bytes → W → option FileMetadata * W;
  async_read_file : bytes → W → option (Z * option bytes) * W;
  async_allocate_in_path : bytes → Z → W → bool * W;
  async_write_file : bytes → bytes → W → result unit unit * W;
  record_edit : bytes → option bytes → bytes → Z → W → option Z * W;
  log_file_write : bytes → option Z → Z → W → W;
}.

Record CollabManager (D H W : Type) : Type := mk_CollabManager {
  cm_heap : gmap nat (CollabSession D H);
  cm_sessions : gmap bytes nat;
  cm_connections : gmap Z (gset bytes);
  cm_pending_updates : gmap (Z * bytes) bytes;
  cm_pending_teardowns : gset bytes;
  cm_waiting : list (nat * LockRequest);
  cm_sent : list (Z * Message H);
  cm_world : W;
}.
Arguments mk_CollabManager {D H W} _ _ _ _ _ _ _ _.
Arguments cm_waiting {D H W} _.
Arguments cm_heap {D H W} _.
Arguments cm_sessions {D H W} _.
Arguments cm_connections {D H W} _.
Arguments cm_pending_updates {D H W} _.
Arguments cm_pending_teardowns {D H W} _.
Arguments cm_sent {D H W} _.
Arguments cm_world {D H W} _.

(** [Path::file_name] *)
Definition file_name (p : bytes) : option bytes :=
  match list.last (components p) with Some (Component.Normal name) => Some name | _ => None end.

(** [String::truncate], which panics inside a character *)
Definition is_char_boundary (s : bytes) (n : Z) : bool :=
  (n =? 0) || (n =? zlen s) || match s !! Z.to_nat n with Some b => negb (is_continuation b) | None => false end.
Definition string_truncate (n : Z) (s : bytes) : option bytes :=
  if n <=? zlen s then (if is_char_boundary s n then Some (ztake n s) else None) else Some s.

Section manager.
Context {D U H W : Type} {YD : Ydoc D U} {HE : EqDecision H} {BL : Blake3 H} {B64 : Base64} {CW : CollabWorld W}.
Context (config : CollabConfig).

Notation "'manager'" := (CollabManager D H W).
Notation "'session'" := (CollabSession D H).
Notation "'M' A" := (stt (CollabManager D H W) CollabError A) (at level 10).

(** *** State access *)

Definition CollabDoc_new (content : bytes) : CollabDoc D H := mk_CollabDoc (doc_new content) 0 (blake3 content).
Definition content_of (doc : CollabDoc D H) : bytes := get_string (cd_doc doc).

Definition set_doc (doc : CollabDoc D H) (s : session) : session :=
  mk_CollabSession (ss_path s) (ss_abs_path s) doc (ss_poisoned s) (ss_dirty s) (ss_conflict s) (ss_participants s) (ss_save_lock s)
    (ss_last_mtime s) (ss_reported_unreadable s).
Definition set_dirty (b : bool) (s : session) : session :=
  mk_CollabSession (ss_path s) (ss_abs_path s) (ss_doc s) (ss_poisoned s) b (ss_conflict s) (ss_participants s) (ss_save_lock s)
    (ss_last_mtime s) (ss_reported_unreadable s).
Definition set_conflict (c : option (ConflictState H)) (s : session) : session :=
  mk_CollabSession (ss_path s) (ss_abs_path s) (ss_doc s) (ss_poisoned s) (ss_dirty s) c (ss_participants s) (ss_save_lock s)
    (ss_last_mtime s) (ss_reported_unreadable s).
Definition set_participants (p : gmap Z Participant) (s : session) : session :=
  mk_CollabSession (ss_path s) (ss_abs_path s) (ss_doc s) (ss_poisoned s) (ss_dirty s) (ss_conflict s) p (ss_save_lock s)
    (ss_last_mtime s) (ss_reported_unreadable s).
Definition set_save_lock (t : option SaveTask) (s : session) : session :=
  mk_CollabSession (ss_path s) (ss_abs_path s) (ss_doc s) (ss_poisoned s) (ss_dirty s) (ss_conflict s) (ss_participants s) t
    (ss_last_mtime s) (ss_reported_unreadable s).
Definition set_poisoned (s : session) : session :=
  mk_CollabSession (ss_path s) (ss_abs_path s) (ss_doc s) true (ss_dirty s) (ss_conflict s) (ss_participants s) (ss_save_lock s)
    (ss_last_mtime s) (ss_reported_unreadable s).
Definition set_reconciler (last_mtime : option Z) (reported_unreadable : bool) (s : session) : session :=
  mk_CollabSession (ss_path s) (ss_abs_path s) (ss_doc s) (ss_poisoned s) (ss_dirty s) (ss_conflict s) (ss_participants s) (ss_save_lock s)
    last_mtime reported_unreadable.

Definition with_heap (f : gmap nat session → gmap nat session) (m : manager) : manager :=
  mk_CollabManager (f (cm_heap m)) (cm_sessions m) (cm_connections m) (cm_pending_updates m) (cm_pending_teardowns m) (cm_waiting m) (cm_sent m) (cm_world m).
Definition with_sessions (f : gmap bytes nat → gmap bytes nat) (m : manager) : manager :=
  mk_CollabManager (cm_heap m) (f (cm_sessions m)) (cm_connections m) (cm_pending_updates m) (cm_pending_teardowns m) (cm_waiting m) (cm_sent m) (cm_world m).
Definition with_connections (f : gmap Z (gset bytes) → gmap Z (gset bytes)) (m : manager) : manager :=
  mk_CollabManager (cm_heap m) (cm_sessions m) (f (cm_connections m)) (cm_pending_updates m) (cm_pending_teardowns m) (cm_waiting m) (cm_sent m) (cm_world m).
Definition with_pending_updates (f : gmap (Z * bytes) bytes → gmap (Z * bytes) bytes) (m : manager) : manager :=
  mk_CollabManager (cm_heap m) (cm_sessions m) (cm_connections m) (f (cm_pending_updates m)) (cm_pending_teardowns m) (cm_waiting m) (cm_sent m) (cm_world m).
Definition with_pending_teardowns (f : gset bytes → gset bytes) (m : manager) : manager :=
  mk_CollabManager (cm_heap m) (cm_sessions m) (cm_connections m) (cm_pending_updates m) (f (cm_pending_teardowns m)) (cm_waiting m) (cm_sent m) (cm_world m).

Definition with_waiting (f : list (nat * LockRequest) → list (nat * LockRequest)) (m : manager) : manager :=
  mk_CollabManager (cm_heap m) (cm_sessions m) (cm_connections m) (cm_pending_updates m) (cm_pending_teardowns m) (f (cm_waiting m)) (cm_sent m) (cm_world m).

Definition on_world {A} (f : W → A * W) : M A := λ m,
  let '(a, w) := f (cm_world m) in
  (Ok a, mk_CollabManager (cm_heap m) (cm_sessions m) (cm_connections m) (cm_pending_updates m) (cm_pending_teardowns m) (cm_waiting m) (cm_sent m) w).
Definition user_error {A} (message : string) : M A := throw (User message).

(** The session behind a reference; a reference is never dangling. *)
Definition get_session (sid : nat) : M session := λ m,
  match cm_heap m !! sid with Some s => (Ok s, m) | None => (Err Internal, m) end.
Definition update_session (sid : nat) (f : session → session) : M unit := modify (with_heap (alter f sid)).
(** [doc.lock().expect("collab doc lock poisoned")] *)
Definition lock_doc (sid : nat) : M (CollabDoc D H) :=
  s ← get_session sid;
  if ss_poisoned s then throw Panic else mret (ss_doc s).

(** *** Broadcasts *)

Definition send_message (connection : Z) (message : Message H) : M unit := modify (λ m,
  mk_CollabManager (cm_heap m) (cm_sessions m) (cm_connections m) (cm_pending_updates m) (cm_pending_teardowns m) (cm_waiting m)
    (cm_sent m ++ [(connection, message)]) (cm_world m)).
Definition broadcast (sid : nat) (except : option Z) (message : Message H) : M unit :=
  s ← get_session sid;
  foreach (λ connection, if bool_decide (Some connection = except) then mret tt else send_message connection message)
    (map fst (map_to_list (ss_participants s))).
Definition broadcast_conflict (sid : nat) (state : option (ConflictState H)) : M unit :=
  s ← get_session sid; broadcast sid None (FileCollabConflict (ss_path s) state).
Definition broadcast_resync (sid : nat) : M unit :=
  s ← get_session sid; broadcast sid None (FileCollabResync (ss_path s)).

(** One participant for each user. *)
Fixpoint distinct_users (seen : gset Z) (l : list Participant) : list Participant :=
  match l with
  | [] => []
  | p :: l => if bool_decide (pt_user p ∈ seen) then distinct_users seen l else p :: distinct_users ({[pt_user p]} ∪ seen) l
  end.
Definition participants_message (s : session) : Message H :=
  FileCollabParticipants (ss_path s) (distinct_users ∅ (map snd (map_to_list (ss_participants s)))).

(** [set_conflict]: whether the state changed. *)
Definition change_conflict (sid : nat) (state : option (ConflictState H)) : M bool :=
  s ← get_session sid;
  if bool_decide (ss_conflict s = state) then mret false
  else _ ← update_session sid (set_conflict state); mret true.

(** *** Paths and contents *)

Definition resolve (raw_path : bytes) : M (bytes * bytes) :=
  if negb (cc_enabled config) then user_error "collaborative editing is disabled"
  else
    match path_parent raw_path with
    | None => user_error "file has no parent"
    | Some parent =>
        match file_name raw_path with
        | None => user_error "invalid file name"
        | Some name =>
            '(root, is_primary) ← on_world (resolve_writable_fs parent);
            if negb is_primary then user_error "collaborative editing is only available on the primary filesystem"
            else
              let path := path_join root name in
              m ← get_state;
              if is_ignored path (cm_world m) then user_error "file not found"
              else
                key ← on_world (async_canonicalize path);
                mret (path, from_utf8_lossy (default (relative_path path) key))
        end
    end.

Definition read_content (path : bytes) : M bytes :=
  let size_cap := cc_file_size_cap config in
  metadata ← on_world (async_metadata path);
  match metadata with
  | None => user_error "file not found"
  | Some metadata =>
      if negb (md_is_file metadata) then user_error "file is not a file"
      else if size_cap <? md_size metadata then user_error "file is too large for collaborative editing"
      else
        handle ← on_world (async_read_file path);
        match handle with
        | None => user_error "file not found"
        | Some (size, buf) =>
            if size_cap <? size then user_error "file is too large for collaborative editing"
            else
              match buf with
              | None => throw Internal
              | Some buf =>
                  if size_cap <? zlen buf then user_error "file is too large for collaborative editing"
                  else if utf8_valid buf then mret buf
                  else user_error "file is not editable as text"
              end
        end
  end.

(** *** [subscribe] *)

Definition new_session (key path content : bytes) : session :=
  mk_CollabSession key path (CollabDoc_new content) false false None ∅ None None false.

(** The session of a file, refreshed from disk or made. *)
Definition open_session (key path : bytes) : M nat :=
  m ← get_state;
  match cm_sessions m !! key with
  | Some sid =>
      s ← get_session sid;
      _ ← (if bool_decide (ss_participants s = ∅) && negb (ss_dirty s) then
             content ← read_content path;
             doc ← lock_doc sid;
             _ ← (if bool_decide (cd_disk_hash doc = blake3 content) then mret tt else update_session sid (set_doc (CollabDoc_new content)));
             _ ← change_conflict sid None;
             mret tt
           else mret tt);
      mret sid
  | None =>
      if cc_max_sessions_per_server config <=? Z.of_nat (size (cm_sessions m)) then
        user_error "too many collaborative sessions open on this server"
      else
        content ← read_content path;
        m ← get_state;
        let sid := fresh (dom (cm_heap m)) in
        _ ← modify (with_heap <[sid := new_session key path content]>);
        _ ← modify (with_sessions <[key := sid]>);
        mret sid
  end.

Definition subscribe (connection user : Z) (name : string) (avatar : option string) (raw_path : bytes) : M unit :=
  '(path, key) ← resolve raw_path;
  m ← get_state;
  if match cm_connections m !! connection with
     | Some subscribed => negb (bool_decide (key ∈ subscribed)) && (cc_max_sessions_per_connection config <=? Z.of_nat (size subscribed))
     | None => false
     end
  then user_error "too many collaborative sessions open on this connection"
  else
    _ ← modify (with_pending_teardowns (λ t, t ∖ {[key]}));
    sid ← open_session key path;
    _ ← update_session sid (λ s, set_participants (<[connection := mk_Participant user name avatar]> (ss_participants s)) s);
    _ ← modify (with_connections (λ c, <[connection := {[key]} ∪ default ∅ (c !! connection)]> c));
    doc ← lock_doc sid;
    s ← get_session sid;
    _ ← send_message connection (FileCollabSync key (base64_encode (encode_full_state (cd_doc doc))) (ss_dirty s) (ss_conflict s));
    broadcast sid None (participants_message s).

(** *** [apply_update] *)

Definition subscribed_session (connection : Z) (raw_path : bytes) : M (bytes * nat) :=
  '(_, key) ← resolve raw_path;
  m ← get_state;
  if negb (bool_decide (key ∈ default ∅ (cm_connections m !! connection))) then user_error "not subscribed to this file"
  else
    match cm_sessions m !! key with
    | None => user_error "not subscribed to this file"
    | Some sid => mret (key, sid)
    end.

(** The buffer of an update sent in chunks: [None] until it is finished. *)
Definition collect_chunk (connection : Z) (key : bytes) (finished : bool) (chunk : bytes) : M (option bytes) :=
  let size_cap := cc_file_size_cap config in
  let pending_key := (connection, key) in
  m ← get_state;
  match cm_pending_updates m !! pending_key with
  | Some buffer =>
      if size_cap <? zlen buffer + zlen chunk then
        _ ← modify (with_pending_updates (delete pending_key));
        user_error "update is too large"
      else if negb finished then
        _ ← modify (with_pending_updates <[pending_key := buffer ++ chunk]>);
        mret None
      else
        _ ← modify (with_pending_updates (delete pending_key));
        mret (Some (buffer ++ chunk))
  | None =>
      if size_cap <? zlen chunk then user_error "update is too large"
      else if negb finished then
        _ ← modify (with_pending_updates <[pending_key := chunk]>);
        mret None
      else mret (Some chunk)
  end.

(** The update under the lock of the document: whether the clients have to load it again. *)
Definition update_doc (sid : nat) (update : bytes) (decoded : U) : M bool :=
  let size_cap := cc_file_size_cap config in
  guard ← lock_doc sid;
  match yrs_apply decoded (cd_doc guard) with
  | None => user_error "invalid update"
  | Some d =>
      let doc := mk_CollabDoc d (cd_applied_update_bytes guard) (cd_disk_hash guard) in
      _ ← update_session sid (set_doc doc);
      _ ← update_session sid (set_dirty true);
      if size_cap <? text_len d then
        match string_truncate size_cap (content_of doc) with
        | None => _ ← update_session sid set_poisoned; throw Panic
        | Some content => _ ← update_session sid (set_doc (CollabDoc_new content)); mret true
        end
      else
        let applied := cd_applied_update_bytes guard +u zlen update in
        _ ← update_session sid (set_doc (mk_CollabDoc d applied (cd_disk_hash guard)));
        if Z.min (size_cap * 8) U64_MAX <? applied then
          _ ← update_session sid (set_doc (CollabDoc_new (content_of doc))); mret true
        else mret false
  end.

Definition apply_update (connection : Z) (raw_path : bytes) (finished : bool) (chunk : string) : M unit :=
  '(key, sid) ← subscribed_session connection raw_path;
  match base64_decode chunk with
  | None => user_error "invalid update encoding"
  | Some chunk =>
      update ← collect_chunk connection key finished chunk;
      match update with
      | None => mret tt
      | Some update =>
          match decode_v1 update with
          | None => user_error "invalid update encoding"
          | Some decoded =>
              needs_resync ← update_doc sid update decoded;
              if (needs_resync : bool) then broadcast_resync sid
              else broadcast sid (Some connection) (FileCollabUpdate key (base64_encode update))
          end
      end
  end.

Definition relay_awareness (connection : Z) (raw_path : bytes) (payload : string) : M unit :=
  '(key, sid) ← subscribed_session connection raw_path;
  broadcast sid (Some connection) (FileCollabAwareness key payload).

(** *** [save] and [reload] *)

Definition save (connection user : Z) (raw_path : bytes) (force : bool) (expected_hash : option string) : M unit :=
  '(key, sid) ← subscribed_session connection raw_path;
  '(path, _) ← resolve raw_path;
  match path_parent raw_path with
  | None => user_error "file has no parent"
  | Some parent => modify (with_waiting (λ l, l ++ [(sid, SaveRequest connection user key path parent force expected_hash)]))
  end.

(** What is on disk, as far as it can be read: whether the file exists, its
    size and its bytes. *)
Definition read_disk (path : bytes) : M (bool * Z * option bytes) :=
  metadata ← on_world (async_metadata path);
  match metadata with
  | None => mret (false, 0, None)
  | Some metadata =>
      if negb (md_is_file metadata) then user_error "file is not a file"
      else
        let old_content_size := md_size metadata in
        let read_cap := Z.max (cc_history_file_size_cap config) (cc_file_size_cap config) in
        if (0 <? old_content_size) && (old_content_size <=? read_cap) then
          handle ← on_world (async_read_file path);
          mret (true, old_content_size,
                match handle with
                | Some (size, Some buf) => if (size <=? read_cap) && (zlen buf <=? read_cap) then Some buf else None
                | _ => None
                end)
        else mret (true, old_content_size, None)
  end.

Definition current_hash (file_exists : bool) (old_content_size : Z) (old_bytes : option bytes) : option H :=
  if negb file_exists then None
  else if old_content_size =? 0 then Some (blake3 [])
  else blake3 <$> old_bytes.

(** The turn that holds the lock and decides whether to write. *)
Definition save_check (sid : nat) (connection user : Z) (key path parent : bytes) (force : bool) (expected_hash : option string) : M unit :=
  doc ← lock_doc sid;
  let content := content_of doc in
  '(file_exists, old_content_size, old_bytes) ← read_disk path;
  let hash := current_hash file_exists old_content_size old_bytes in
  if negb (bool_decide (hash = Some (cd_disk_hash doc))) &&
     negb (force && match expected_hash with
                    | None => true
                    | Some expected => match hash with Some h => String.eqb (to_hex h) expected | None => false end
                    end)
  then
    let state := Some (mk_ConflictState hash (negb file_exists)) in
    _ ← change_conflict sid state;
    broadcast_conflict sid state
  else
    allocated ← on_world (async_allocate_in_path parent (zlen content - old_content_size));
    if negb allocated then user_error "failed to allocate space"
    else
      let before :=
        if cc_history_enabled config && (0 <? old_content_size) && (old_content_size <=? cc_history_file_size_cap config)
        then match old_bytes with
             | Some buf => if zlen buf <=? cc_history_file_size_cap config then Some buf else None
             | None => None
             end
        else None in
      update_session sid (set_save_lock (Some (mk_SaveTask connection user key path content before false))).

Definition save_write (sid : nat) : M unit :=
  s ← get_session sid;
  match ss_save_lock s with
  | None => mret tt
  | Some t =>
      r ← on_world (async_write_file (sv_path t) (sv_content t));
      match r with
      | Err _ => _ ← update_session sid (set_save_lock None); throw Internal
      | Ok _ =>
          update_session sid (set_save_lock
            (Some (mk_SaveTask (sv_connection t) (sv_user t) (sv_key t) (sv_path t) (sv_content t) (sv_before t) true)))
      end
  end.

Definition save_finish (sid : nat) : M unit :=
  s ← get_session sid;
  match ss_save_lock s with
  | None => mret tt
  | Some t =>
      _ ← update_session sid (set_save_lock None);
      let content := sv_content t in
      revision_id ← (if cc_history_enabled config && (zlen content <=? cc_history_file_size_cap config) then
                       id ← on_world (record_edit (sv_key t) (sv_before t) content (sv_user t));
                       mret (match id with Some id => if id =? 0 then None else Some id | None => None end)
                     else mret None);
      doc ← lock_doc sid;
      _ ← update_session sid (set_doc (mk_CollabDoc (cd_doc doc) (cd_applied_update_bytes doc) (blake3 content)));
      _ ← update_session sid (set_dirty (negb (bool_decide (content_of doc = content))));
      _ ← change_conflict sid None;
      _ ← on_world (λ w, (tt, log_file_write (sv_key t) revision_id (sv_user t) w));
      broadcast sid None (FileCollabSaved (sv_key t) (sv_user t) revision_id)
  end.

Definition reload (connection : Z) (raw_path : bytes) : M unit :=
  '(key, sid) ← subscribed_session connection raw_path;
  modify (with_waiting (λ l, l ++ [(sid, ReloadRequest key)])).

Definition reload_locked (sid : nat) : M unit :=
  s ← get_session sid;
  content ← read_content (ss_abs_path s);
  _ ← lock_doc sid;
  _ ← update_session sid (set_doc (CollabDoc_new content));
  _ ← update_session sid (set_dirty false);
  _ ← change_conflict sid None;
  broadcast_resync sid.

(** A request that gets the lock. *)
Definition run_request (sid : nat) (r : LockRequest) : M unit :=
  match r with
  | SaveRequest connection user key path parent force expected_hash => save_check sid connection user key path parent force expected_hash
  | ReloadRequest _ => reload_locked sid
  end.

(** *** Leaving *)

Definition schedule_teardown (key : bytes) : M unit := modify (with_pending_teardowns (λ t, {[key]} ∪ t)).

Definition leave_session (connection : Z) (key : bytes) : M unit :=
  m ← get_state;
  match cm_sessions m !! key with
  | None => mret tt
  | Some sid =>
      _ ← update_session sid (λ s, set_participants (delete connection (ss_participants s)) s);
      s ← get_session sid;
      if bool_decide (ss_participants s = ∅) then schedule_teardown key
      else broadcast sid None (participants_message s)
  end.

Definition leave (connection : Z) (key : bytes) : M unit :=
  _ ← modify (with_connections (alter (λ subscribed, subscribed ∖ {[key]}) connection));
  _ ← modify (with_pending_updates (delete (connection, key)));
  leave_session connection key.

Definition unsubscribe (connection : Z) (raw_path : bytes) : M unit :=
  '(_, key) ← resolve raw_path;
  leave connection key.

Definition disconnect (connection : Z) : M unit :=
  m ← get_state;
  _ ← modify (with_connections (delete connection));
  _ ← modify (with_pending_updates (filter (λ p, p.1.1 ≠ connection)));
  foreach (leave_session connection) (elements (default ∅ (cm_connections m !! connection))).

(** Whether a save or reload refers to the session: it holds the save lock of the
    session, or waits for it. *)
Definition session_held (sid : nat) (s : session) (m : manager) : bool :=
  match ss_save_lock s with Some _ => true | None => existsb (λ w : nat * LockRequest, w.1 =? sid)%nat (cm_waiting m) end.

(** The task of a teardown after the grace period.  With the entry of the map the
    session goes, its unsaved text included, unless a save or reload still refers
    to it; after these nothing does, and what is left of it is garbage. *)
Definition teardown (key : bytes) : M unit :=
  m ← get_state;
  _ ← match cm_sessions m !! key with
      | Some sid =>
          s ← get_session sid;
          if bool_decide (ss_participants s = ∅) then
            _ ← modify (with_sessions (delete key));
            if session_held sid s m then mret tt else modify (with_heap (delete sid))
          else mret tt
      | None => mret tt
      end;
  modify (with_pending_teardowns (λ t, t ∖ {[key]})).

(** *** The reconciler: one tick that got the save lock *)

Definition heal_dirty (sid : nat) : M unit :=
  s ← get_session sid;
  if ss_dirty s then
    doc ← lock_doc sid;
    if bool_decide (blake3 (content_of doc) = cd_disk_hash doc) then update_session sid (set_dirty false) else mret tt
  else mret tt.

Definition attempt {A} (x : M A) : M (option A) := λ m,
  match x m with (Ok a, m) => (Ok (Some a), m) | (Err _, m) => (Ok None, m) end.

(** [None]: nothing to do; [Err deleted]: the file cannot be read. *)
Definition reconcile_read (sid : nat) : M (option (result bool bytes)) :=
  s ← get_session sid;
  metadata ← on_world (async_metadata (ss_abs_path s));
  match metadata with
  | None => mret (Some (Err true))
  | Some metadata =>
      if negb (md_is_file metadata) then mret (Some (Err true))
      else if cc_file_size_cap config <? md_size metadata then mret (Some (Err false))
      else if bool_decide (is_Some (md_modified metadata)) && bool_decide (md_modified metadata = ss_last_mtime s) then mret None
      else
        content ← attempt (read_content (ss_abs_path s));
        match content with
        | Some content =>
            _ ← update_session sid (set_reconciler (md_modified metadata) (ss_reported_unreadable s));
            mret (Some (Ok content))
        | None => mret (Some (Err false))
        end
  end.

Definition reconcile_tick (sid : nat) : M unit :=
  _ ← heal_dirty sid;
  content ← reconcile_read sid;
  match content with
  | None => mret tt
  | Some (Ok content) =>
      s ← get_session sid;
      _ ← update_session sid (set_reconciler (ss_last_mtime s) false);
      let disk_hash := blake3 content in
      doc ← lock_doc sid;
      if bool_decide (cd_disk_hash doc = disk_hash) then
        changed ← change_conflict sid None;
        if (changed : bool) then broadcast_conflict sid None else mret tt
      else if ss_dirty s then
        let state := Some (mk_ConflictState (Some disk_hash) false) in
        changed ← change_conflict sid state;
        if (changed : bool) then broadcast_conflict sid state else mret tt
      else
        _ ← update_session sid (set_doc (CollabDoc_new content));
        _ ← change_conflict sid None;
        broadcast_resync sid
  | Some (Err deleted) =>
      s ← get_session sid;
      if ss_dirty s then
        let state := Some (mk_ConflictState None deleted) in
        changed ← change_conflict sid state;
        if (changed : bool) then broadcast_conflict sid state else mret tt
      else if negb (ss_reported_unreadable s) then
        _ ← update_session sid (set_reconciler (ss_last_mtime s) true);
        broadcast_resync sid
      else mret tt
  end.

(** *** All that can happen *)

Inductive CollabOp : Type :=
  | OpSubscribe (connection user : Z) (name : string) (avatar : option string) (raw_path : bytes)
  | OpUpdate (connection : Z) (raw_path : bytes) (finished : bool) (chunk : string)
  | OpAwareness (connection : Z) (raw_path : bytes) (payload : string)
  | OpSave (connection user : Z) (raw_path : bytes) (force : bool) (expected_hash : option string)
  | OpReload (connection : Z) (raw_path : bytes)
  | OpUnsubscribe (connection : Z) (raw_path : bytes)
  | OpDisconnect (connection : Z).

Definition run_op (op : CollabOp) : M unit :=
  match op with
  | OpSubscribe connection user name avatar raw_path => subscribe connection user name avatar raw_path
  | OpUpdate connection raw_path finished chunk => apply_update connection raw_path finished chunk
  | OpAwareness connection raw_path payload => relay_awareness connection raw_path payload
  | OpSave connection user raw_path force expected_hash => save connection user raw_path force expected_hash
  | OpReload connection raw_path => reload connection raw_path
  | OpUnsubscribe connection raw_path => unsubscribe connection raw_path
  | OpDisconnect connection => disconnect connection
  end.

Definition lock_free (sid : nat) (m : manager) : Prop := ∀ s, cm_heap m !! sid = Some s → ss_save_lock s = None.

Inductive collab_step (m : manager) : manager → Prop :=
  | step_op op : collab_step m (run_op op m).2
  | step_request before sid r after :
      cm_waiting m = before ++ (sid, r) :: after → lock_free sid m →
      collab_step m (run_request sid r (with_waiting (λ _, before ++ after) m)).2
  | step_write sid t s :
      cm_heap m !! sid = Some s → ss_save_lock s = Some t → sv_written t = false → collab_step m (save_write sid m).2
  | step_finish sid t s :
      cm_heap m !! sid = Some s → ss_save_lock s = Some t → sv_written t = true → collab_step m (save_finish sid m).2
  | step_teardown key : key ∈ cm_pending_teardowns m → collab_step m (teardown key m).2
  | step_reconcile sid s : cm_heap m !! sid = Some s → lock_free sid m → collab_step m (reconcile_tick sid m).2
  | step_world w :
      collab_step m (mk_CollabManager (cm_heap m) (cm_sessions m) (cm_connections m) (cm_pending_updates m) (cm_pending_teardowns m)
                       (cm_waiting m) (cm_sent m) w).

Definition CollabManager_new (w : W) : manager := mk_CollabManager ∅ ∅ ∅ ∅ ∅ [] [] w.
Inductive collab_reachable : manager → Prop :=
  | reach_new w : collab_reachable (CollabManager_new w)
  | reach_next m m' : collab_reachable m → collab_step m m' → collab_reachable m'.
End manager.

(** ** Who takes part in what

    The part of the state that says which connection edits which file. *)

Section shape.
Context {D U H W : Type} {YD : Ydoc D U} {HE : EqDecision H} {BL : Blake3 H} {B64 : Base64} {CW : CollabWorld W}.
Context (config : CollabConfig).

Notation "'manager'" := (CollabManager D H W).
Notation "'session'" := (CollabSession D H).
Notation "'M' A" := (stt (CollabManager D H W) CollabError A) (at level 10).

Definition shape (m : manager) : gmap nat (bytes * gmap Z Participant) * gmap bytes nat * gmap Z (gset bytes) * gmap (Z * bytes) bytes :=
  ((λ s, (ss_path s, ss_participants s)) <$> cm_heap m, cm_sessions m, cm_connections m, cm_pending_updates m).

(** An action that changes none of it. *)
Definition keeps {A} (x : M A) : Prop := ∀ m, shape (x m).2 = shape m.

Lemma keeps_ret {A} (a : A) : keeps (mret a).
Proof. done. Qed.
Lemma keeps_throw {A} e : keeps (throw e : M A).
Proof. done. Qed.
Lemma keeps_user_error {A} e : keeps (user_error e : M A).
Proof. done. Qed.
Lemma keeps_get_state : keeps get_state.
Proof. done. Qed.
Lemma keeps_bind {A B} (x : M A) (f : A → M B) : keeps x → (∀ a, keeps (f a)) → keeps (x ≫= f).
Proof.
  intros Hx Hf m. unfold mbind, stt_bind. pose proof (Hx m). destruct (x m) as [[a|e] m']; [|done]. simpl in *. by rewrite Hf.
Qed.
Lemma keeps_foreach {A} (f : A → M unit) l : (∀ a, keeps (f a)) → keeps (foreach f l).
Proof. intros Hf. induction l as [|a l IH]; [apply keeps_ret|]. by apply keeps_bind. Qed.
Lemma keeps_on_world {A} (f : W → A * W) : keeps (on_world f).
Proof. intros m. unfold on_world. by destruct (f _). Qed.
Lemma keeps_get_session sid : keeps (get_session sid).
Proof. intros m. unfold get_session. by destruct (_ !! _). Qed.
Lemma keeps_update sid (f : session → session) :
  (∀ s, ss_path (f s) = ss_path s ∧ ss_participants (f s) = ss_participants s) → keeps (update_session sid f).
Proof.
  intros Hf m. unfold shape, update_session, modify, with_heap. simpl. f_equal. f_equal. f_equal.
  apply map_eq. intros i. rewrite !lookup_fmap, lookup_alter. case_decide; [subst|done].
  destruct (cm_heap m !! _) as [s|]; simpl; [|done]. destruct (Hf s) as [-> ->]. done.
Qed.
Lemma keeps_send conn msg : keeps (send_message conn msg).
Proof. done. Qed.
Lemma keeps_teardowns f : keeps (modify (with_pending_teardowns f)).
Proof. done. Qed.
Lemma keeps_waiting f : keeps (modify (with_waiting f)).
Proof. done. Qed.
Lemma keeps_attempt {A} (x : M A) : keeps x → keeps (attempt x).
Proof. intros Hx m. unfold attempt. pose proof (Hx m). by destruct (x m) as [[a|e] m']. Qed.
End shape.

Create HintDb keeps.
#[export] Hint Resolve keeps_ret keeps_throw keeps_user_error keeps_get_state keeps_on_world keeps_get_session keeps_send keeps_teardowns
  keeps_waiting keeps_attempt : keeps.

Ltac keeps_step :=
  match goal with
  | |- keeps (mbind _ _) => apply keeps_bind; [|intros ?]
  | |- keeps (foreach _ _) => apply keeps_foreach; intros ?
  | |- keeps (update_session _ _) => apply keeps_update; done
  | |- keeps (match ?x with _ => _ end) => destruct x
  | |- keeps (let '_ := ?x in _) => destruct x
  end.
Ltac keeps := repeat first [solve [eauto with keeps nocore] | keeps_step].

Section keep.
Context {D U H W : Type} {YD : Ydoc D U} {HE : EqDecision H} {BL : Blake3 H} {B64 : Base64} {CW : CollabWorld W}.
Context (config : CollabConfig).
Notation "'keeping' x" := (keeps (D := D) (H := H) (W := W) x) (at level 10, x at level 9).

Lemma keeps_lock_doc sid : keeping (lock_doc sid).
Proof. unfold lock_doc. keeps. Qed.
Lemma keeps_broadcast sid except msg : keeping (broadcast sid except msg).
Proof. unfold broadcast. keeps. Qed.
#[local] Hint Resolve keeps_lock_doc keeps_broadcast : keeps.
Lemma keeps_broadcast_conflict sid c : keeping (broadcast_conflict sid c).
Proof. unfold broadcast_conflict. keeps. Qed.
Lemma keeps_broadcast_resync sid : keeping (broadcast_resync sid).
Proof. unfold broadcast_resync. keeps. Qed.
Lemma keeps_change_conflict sid c : keeping (change_conflict sid c).
Proof. unfold change_conflict. keeps. Qed.
#[local] Hint Resolve keeps_broadcast_conflict keeps_broadcast_resync keeps_change_conflict : keeps.
Lemma keeps_resolve raw_path : keeping (resolve config raw_path).
Proof. unfold resolve. keeps. Qed.
Lemma keeps_read_content path : keeping (read_content config path).
Proof. unfold read_content. keeps. Qed.
#[local] Hint Resolve keeps_resolve keeps_read_content : keeps.
Lemma keeps_subscribed_session conn raw_path : keeping (subscribed_session config conn raw_path).
Proof. unfold subscribed_session. keeps. Qed.
Lemma keeps_read_disk path : keeping (read_disk config path).
Proof. unfold read_disk. keeps. Qed.
#[local] Hint Resolve keeps_subscribed_session keeps_read_disk : keeps.
Lemma keeps_save conn user raw_path force expected : keeping (save config conn user raw_path force expected).
Proof. unfold save. keeps. Qed.
Lemma keeps_reload conn raw_path : keeping (reload config conn raw_path).
Proof. unfold reload. keeps. Qed.
Lemma keeps_awareness conn raw_path payload : keeping (relay_awareness config conn raw_path payload).
Proof. unfold relay_awareness. keeps. Qed.
Lemma keeps_save_check sid conn user key path parent force expected :
  keeping (save_check config sid conn user key path parent force expected).
Proof. unfold save_check. keeps. Qed.
Lemma keeps_reload_locked sid : keeping (reload_locked config sid).
Proof. unfold reload_locked. keeps. Qed.
Lemma keeps_run_request sid r : keeping (run_request config sid r).
Proof. destruct r; [apply keeps_save_check|apply keeps_reload_locked]. Qed.
Lemma keeps_save_write sid : keeping (save_write sid).
Proof. unfold save_write. keeps. Qed.
Lemma keeps_save_finish sid : keeping (save_finish config sid).
Proof. unfold save_finish. keeps. Qed.
Lemma keeps_update_doc sid update decoded : keeping (update_doc config sid update decoded).
Proof. unfold update_doc. keeps. Qed.
Lemma keeps_heal sid : keeping (heal_dirty sid).
Proof. unfold heal_dirty. keeps. Qed.
Lemma keeps_reconcile_read sid : keeping (reconcile_read config sid).
Proof. unfold reconcile_read. keeps. Qed.
#[local] Hint Resolve keeps_heal keeps_reconcile_read : keeps.
Lemma keeps_reconcile_tick sid : keeping (reconcile_tick config sid).
Proof. unfold reconcile_tick. keeps. Qed.
End keep.

Section joined.
Context {D U H W : Type} {YD : Ydoc D U} {HE : EqDecision H} {BL : Blake3 H} {B64 : Base64} {CW : CollabWorld W}.
Context (config : CollabConfig).

Notation "'manager'" := (CollabManager D H W).
Notation "'heap_shape'" := (gmap nat (bytes * gmap Z Participant)).

(** A connection is subscribed to a file exactly when it takes part in the
    session of the file; sessions that are no longer of a file are empty;
    chunks are only kept of files the connection is subscribed to; and the
    limits hold. *)
Record shape_ok (h : heap_shape) (s : gmap bytes nat) (c : gmap Z (gset bytes)) (p : gmap (Z * bytes) bytes) : Prop := {
  so_path : ∀ key sid, s !! key = Some sid → ∃ ps, h !! sid = Some (key, ps);
  so_joined : ∀ conn key, key ∈ default ∅ (c !! conn) ↔
    ∃ sid ps, s !! key = Some sid ∧ h !! sid = Some (key, ps) ∧ is_Some (ps !! conn);
  so_detached : ∀ sid key ps, h !! sid = Some (key, ps) → ps ≠ ∅ → s !! key = Some sid;
  so_pending : ∀ conn key buf, p !! (conn, key) = Some buf → key ∈ default ∅ (c !! conn) ∧ zlen buf <= cc_file_size_cap config;
  so_sessions : Z.of_nat (size s) <= Z.max 0 (cc_max_sessions_per_server config);
  so_subscriptions : ∀ conn, Z.of_nat (size (default ∅ (c !! conn))) <= Z.max 1 (cc_max_sessions_per_connection config);
}.

Definition manager_ok (m : manager) : Prop :=
  let '(h, s, c, p) := shape m in shape_ok h s c p.

Lemma keeps_ok {A} (x : stt manager CollabError A) m : keeps x → manager_ok m → manager_ok (x m).2.
Proof. intros Hx. unfold manager_ok. by rewrite (Hx m). Qed.

Lemma shape_ok_ext h s c c' p :
  (∀ conn, default ∅ (c !! conn) =@{gset bytes} default ∅ (c' !! conn)) → shape_ok h s c p → shape_ok h s c' p.
Proof.
  intros Hc []. split; try done.
  - intros conn key. rewrite <-Hc. done.
  - intros conn key buf. rewrite <-Hc. auto.
  - intros conn. rewrite <-Hc. done.
Qed.

(** A new session *)
Lemma shape_ok_new h s c p key sid :
  shape_ok h s c p → s !! key = None → h !! sid = None →
  Z.of_nat (size s) < cc_max_sessions_per_server config →
  shape_ok (<[sid := (key, ∅)]> h) (<[key := sid]> s) c p.
Proof.
  intros [Hpath Hjoin Hdet Hpend Hss Hsub] Hs Hh Hlt. split; try done.
  - intros key' sid' [[<- <-]|[Hne Hs']]%lookup_insert_Some; [rewrite lookup_insert_eq; eauto|].
    destruct (Hpath _ _ Hs') as [ps Hps]. exists ps. rewrite lookup_insert_ne; [done|]. intros ->. by rewrite Hh in Hps.
  - intros conn key'. rewrite Hjoin. split.
    + intros (sid' & ps & Hs' & Hps & Hc). exists sid', ps. rewrite !lookup_insert_ne; [done|intros ->; congruence..].
    + intros (sid' & ps & Hs' & Hps & Hc). apply lookup_insert_Some in Hs' as [[<- <-]|[Hne Hs']].
      * rewrite lookup_insert_eq in Hps. injection Hps as <-. by destruct Hc as [? Hc].
      * apply lookup_insert_Some in Hps as [[<- [= <- <-]]|[_ Hps]]; [by destruct Hc|eauto].
  - intros sid' key' ps [[<- [= <- <-]]|[Hne Hps]]%lookup_insert_Some Hps0; [done|].
    rewrite lookup_insert_ne; [by eapply Hdet|]. intros ->. pose proof (Hdet _ _ _ Hps Hps0). congruence.
  - rewrite map_size_insert_None by done. lia.
Qed.

(** Joining *)
Lemma shape_ok_join h s c p key sid ps conn part keys :
  shape_ok h s c p → s !! key = Some sid → h !! sid = Some (key, ps) → keys = default ∅ (c !! conn) →
  (key ∈ keys ∨ Z.of_nat (size keys) < Z.max 1 (cc_max_sessions_per_connection config)) →
  shape_ok (<[sid := (key, <[conn := part]> ps)]> h) s (<[conn := {[key]} ∪ keys]> c) p.
Proof.
  intros [Hpath Hjoin Hdet Hpend Hss Hsub] Hs Hh -> Hroom. split; try done.
  - intros key' sid' Hs'. destruct (decide (sid' = sid)) as [->|Hne].
    + destruct (Hpath _ _ Hs') as [ps' Hps']. rewrite Hh in Hps'. injection Hps' as -> <-. rewrite lookup_insert_eq. eauto.
    + rewrite lookup_insert_ne by done. auto.
  - intros conn' key'.
    assert (key' ∈ default ∅ (<[conn:={[key]} ∪ default ∅ (c !! conn)]> c !! conn') ↔
      (conn' = conn ∧ key' = key) ∨ key' ∈ default ∅ (c !! conn')) as ->.
    { destruct (decide (conn' = conn)) as [->|]; [rewrite lookup_insert_eq|rewrite lookup_insert_ne by done]; simpl; set_solver. }
    rewrite Hjoin. split.
    + intros [[-> ->]|(sid' & ps' & Hs' & Hps' & Hc)].
      * exists sid, (<[conn := part]> ps). rewrite !lookup_insert_eq. eauto.
      * destruct (decide (sid' = sid)) as [->|Hne].
        -- rewrite Hh in Hps'. injection Hps' as <- <-. exists sid, (<[conn := part]> ps). rewrite lookup_insert_eq. split_and!; try done.
           rewrite lookup_insert_is_Some. by destruct (decide (conn = conn')); auto.
        -- exists sid', ps'. by rewrite lookup_insert_ne.
    + intros (sid' & ps' & Hs' & Hps' & Hc). apply lookup_insert_Some in Hps' as [[<- [= <- <-]]|[Hne Hps']]; [|by eauto 10].
      rewrite lookup_insert_is_Some in Hc. destruct Hc as [->|[_ Hc]]; [auto|]. right. eauto.
  - intros sid' key' ps' [[<- [= <- <-]]|[Hne Hps]]%lookup_insert_Some Hps0; eauto.
  - intros conn' key' buf Hp. destruct (Hpend _ _ _ Hp) as [Hin Hlen]. split; [|done].
    destruct (decide (conn' = conn)) as [->|]; [rewrite lookup_insert_eq|rewrite lookup_insert_ne by done]; simpl; set_solver.
  - intros conn'. destruct (decide (conn' = conn)) as [->|]; [rewrite lookup_insert_eq|by rewrite lookup_insert_ne]. simpl.
    specialize (Hsub conn). destruct Hroom as [Hin|Hlt].
    + replace ({[key]} ∪ default ∅ (c !! conn)) with (default ∅ (c !! conn)) by set_solver. done.
    + pose proof (size_union_alt {[key]} (default ∅ (c !! conn))) as Hsz. rewrite size_singleton in Hsz. 
      pose proof (size_union_alt (default ∅ (c !! conn)) ({[key]} : gset bytes)). 
      assert (size ({[key]} ∪ default ∅ (c !! conn)) ≤ 1 + size (default ∅ (c !! conn)))%nat; [|lia].
      rewrite Hsz. pose proof (subseteq_size (default ∅ (c !! conn) ∖ {[key]}) (default ∅ (c !! conn)) ltac:(set_solver)). lia.
Qed.

(** Leaving, when nothing is pending *)
Lemma shape_ok_leave h s c p key sid ps conn :
  shape_ok h s c p → s !! key = Some sid → h !! sid = Some (key, ps) → p !! (conn, key) = None →
  shape_ok (<[sid := (key, delete conn ps)]> h) s (<[conn := default ∅ (c !! conn) ∖ {[key]}]> c) p.
Proof.
  intros [Hpath Hjoin Hdet Hpend Hss Hsub] Hs Hh Hp. split; try done.
  - intros key' sid' Hs'. destruct (decide (sid' = sid)) as [->|Hne].
    + destruct (Hpath _ _ Hs') as [ps' Hps']. rewrite Hh in Hps'. injection Hps' as -> <-. rewrite lookup_insert_eq. eauto.
    + rewrite lookup_insert_ne by done. auto.
  - intros conn' key'.
    assert (key' ∈ default ∅ (<[conn:=default ∅ (c !! conn) ∖ {[key]}]> c !! conn') ↔
      ¬ (conn' = conn ∧ key' = key) ∧ key' ∈ default ∅ (c !! conn')) as ->.
    { destruct (decide (conn' = conn)) as [->|]; [rewrite lookup_insert_eq|rewrite lookup_insert_ne by done]; simpl; set_solver. }
    rewrite Hjoin. split.
    + intros (Hno & sid' & ps' & Hs' & Hps' & Hc). destruct (decide (sid' = sid)) as [->|Hne].
      * rewrite Hh in Hps'. injection Hps' as <- <-. exists sid, (delete conn ps). rewrite lookup_insert_eq. split_and!; try done.
        rewrite lookup_delete_ne; [done|]. naive_solver.
      * exists sid', ps'. by rewrite lookup_insert_ne.
    + intros (sid' & ps' & Hs' & Hps' & Hc). apply lookup_insert_Some in Hps' as [[<- [= <- <-]]|[Hne Hps']].
      * apply lookup_delete_is_Some in Hc as [Hne Hc]. split; [naive_solver|eauto].
      * split; [|eauto]. intros [-> ->]. congruence.
  - intros sid' key' ps' [[<- [= <- <-]]|[Hne Hps]]%lookup_insert_Some Hps0; [done|eauto].
  - intros conn' key' buf Hp'. destruct (Hpend _ _ _ Hp') as [Hin Hlen]. split; [|done].
    destruct (decide (conn' = conn)) as [->|]; [rewrite lookup_insert_eq|by rewrite lookup_insert_ne]. simpl.
    assert (key' ≠ key) by (intros ->; congruence). set_solver.
  - intros conn'. destruct (decide (conn' = conn)) as [->|]; [rewrite lookup_insert_eq|by rewrite lookup_insert_ne]. simpl.
    specialize (Hsub conn). pose proof (subseteq_size (default ∅ (c !! conn) ∖ {[key]}) (default ∅ (c !! conn)) ltac:(set_solver)). lia.
Qed.

(** Taking an empty session out *)
Lemma shape_ok_teardown h s c p key sid :
  shape_ok h s c p → s !! key = Some sid → h !! sid = Some (key, ∅) → shape_ok h (delete key s) c p.
Proof.
  intros [Hpath Hjoin Hdet Hpend Hss Hsub] Hs Hh. split; try done.
  - intros key' sid' [_ Hs']%lookup_delete_Some. auto.
  - intros conn key'. rewrite Hjoin. split; intros (sid' & ps & Hs' & Hps & Hc); exists sid', ps.
    + rewrite lookup_delete_ne; [done|]. intros <-. rewrite Hs in Hs'. injection Hs' as <-. rewrite Hh in Hps. injection Hps as <-. by destruct Hc.
    + by apply lookup_delete_Some in Hs' as [_ Hs'].
  - intros sid' key' ps Hps Hne. rewrite lookup_delete_ne; [by eapply Hdet|]. intros <-.
    pose proof (Hdet _ _ _ Hps Hne). rewrite Hs in H0. injection H0 as <-. rewrite Hh in Hps. by injection Hps as <-.
  - rewrite map_size_delete_Some by eauto. lia.
Qed.

(** Freeing a session that is in no entry *)
Lemma shape_ok_free h s c p sid : shape_ok h s c p → (∀ key, s !! key ≠ Some sid) → shape_ok (delete sid h) s c p.
Proof.
  intros [Hpath Hjoin Hdet Hpend Hss Hsub] Hsid. split; try done.
  - intros key' sid' Hs'. rewrite lookup_delete_ne by (intros ->; by destruct (Hsid key')). auto.
  - intros conn key'. rewrite Hjoin. split; intros (sid' & ps & Hs' & Hps & Hc); exists sid', ps.
    + rewrite lookup_delete_ne; [done|]. intros ->. by destruct (Hsid key').
    + by apply lookup_delete_Some in Hps as [_ Hps].
  - intros sid' key' ps [_ Hps]%lookup_delete_Some. by eapply Hdet.
Qed.

Lemma shape_ok_pending_delete h s c p k : shape_ok h s c p → shape_ok h s c (delete k p).
Proof. intros []. split; try done. intros conn key buf [_ Hp]%lookup_delete_Some. auto. Qed.
Lemma shape_ok_pending_insert h s c p conn key buf :
  shape_ok h s c p → key ∈ default ∅ (c !! conn) → zlen buf <= cc_file_size_cap config → shape_ok h s c (<[(conn, key) := buf]> p).
Proof. intros [] Hin Hlen. split; try done. intros conn' key' buf' [[[= <- <-] <-]|[_ Hp]]%lookup_insert_Some; auto. Qed.
End joined.

Section operations.
Context {D U H W : Type} {YD : Ydoc D U} {HE : EqDecision H} {BL : Blake3 H} {B64 : Base64} {CW : CollabWorld W}.
Context (config : CollabConfig).

Notation "'manager'" := (CollabManager D H W).
Notation "'M' A" := (stt (CollabManager D H W) CollabError A) (at level 10).
Notation "'ok'" := (manager_ok (D := D) (H := H) (W := W) config).

(** An action that preserves the invariant. *)
Definition preserves {A} (x : M A) : Prop := ∀ m, ok m → ok (x m).2.

Lemma keeps_preserves {A} (x : M A) : keeps x → preserves x.
Proof. intros Hx m. by apply keeps_ok. Qed.

Lemma preserves_bind {A B} (x : M A) (f : A → M B) :
  preserves x → (∀ a m m', x m = (Ok a, m') → ok m' → ok (f a m').2) → preserves (x ≫= f).
Proof. intros Hx Hf m Hm. apply (stt_bind_snd ok); [by apply Hx|]. intros a m' E. eapply Hf; [done|]. pose proof (Hx m Hm) as Hm'. by rewrite E in Hm'. Qed.

Lemma bind_snd {A B} (x : M A) (f : A → M B) m : ok (x m).2 → (∀ a, preserves (f a)) → ok ((x ≫= f) m).2.
Proof. intros Hx Hf. unfold mbind, stt_bind. destruct (x m) as [[a|e] m']; [by apply Hf|done]. Qed.

Lemma bind_preserves {A B} (x : M A) (f : A → M B) : preserves x → (∀ a, preserves (f a)) → preserves (x ≫= f).
Proof. intros Hx Hf. apply preserves_bind; [done|]. intros a m m' _. apply Hf. Qed.

Lemma keeps_then {A B} (x : M A) (f : A → M B) : keeps x → (∀ a, preserves (f a)) → preserves (x ≫= f).
Proof. intros Hx Hf. apply bind_preserves; [by apply keeps_preserves|done]. Qed.

Lemma subscribed_session_spec conn raw_path (m m' : manager) key sid :
  subscribed_session config conn raw_path m = (Ok (key, sid), m') →
  shape m' = shape m ∧ key ∈ default ∅ (cm_connections m' !! conn) ∧ cm_sessions m' !! key = Some sid.
Proof.
  intros E. pose proof (keeps_subscribed_session config conn raw_path m) as Hk. rewrite E in Hk. split; [done|].
  apply stt_bind_inv in E as ([path key'] & m1 & _ & E). apply stt_bind_inv in E as (m2 & m2' & [= <- <-] & E).
  destruct (decide (key' ∈ default ∅ (cm_connections m1 !! conn))) as [Hin|Hin];
    [rewrite bool_decide_eq_true_2 in E by done|by rewrite bool_decide_eq_false_2 in E].
  cbn [negb] in E. destruct (cm_sessions m1 !! key') as [sid'|] eqn:Es; [|done].
  by injection E as <- <- <-.
Qed.

Lemma collect_chunk_ok conn key finished chunk m :
  key ∈ default ∅ (cm_connections m !! conn) → ok m → ok (collect_chunk config conn key finished chunk m).2.
Proof.
  intros Hin Hok. unfold collect_chunk, get_state, mbind, stt_bind. cbn -[shape].
  assert (∀ f, (∀ h s c p, p = cm_pending_updates m → c = cm_connections m → shape_ok config h s c p → shape_ok config h s c (f p)) →
    ok (with_pending_updates f m)) as Hf.
  { intros f Hf. unfold manager_ok, shape in *. cbn in *. by apply Hf. }
  destruct (cm_pending_updates m !! (conn, key)) as [buf|] eqn:Hp; cbn -[shape].
  - destruct (Z.ltb_spec (cc_file_size_cap config) (zlen buf + zlen chunk)); cbn -[shape].
    + apply Hf. intros. by apply shape_ok_pending_delete.
    + destruct (negb finished); cbn -[shape]; apply Hf; intros h s c p -> ->.
      * intros Hs. apply shape_ok_pending_insert; [done..|]. rewrite zlen_app. lia.
      * by apply shape_ok_pending_delete.
  - destruct (Z.ltb_spec (cc_file_size_cap config) (zlen chunk)); [done|]. destruct (negb finished); [|done]. cbn -[shape].
    apply Hf. intros h s c p -> -> Hs. by apply shape_ok_pending_insert.
Qed.

Lemma apply_update_ok conn raw_path finished chunk : preserves (apply_update config conn raw_path finished chunk).
Proof.
  apply preserves_bind; [apply keeps_preserves, (keeps_subscribed_session)|]. intros [key sid] m m' E Hm'.
  apply subscribed_session_spec in E as (_ & Hin & _). destruct (base64_decode chunk) as [c|]; [|done].
  apply (stt_bind_snd ok); [by apply collect_chunk_ok|]. intros update m1 E1.
  pose proof (collect_chunk_ok conn key finished c m' Hin Hm') as Hm1. rewrite E1 in Hm1. simpl in Hm1.
  destruct update as [update|]; [|done]. destruct (decode_v1 update) as [decoded|]; [|done].
  revert m1 Hm1 E1. intros m1 Hm1 _. revert m1 Hm1. apply keeps_then; [apply keeps_update_doc|]. intros []; apply keeps_preserves.
  - apply (keeps_broadcast_resync).
  - apply (keeps_broadcast).
Qed.

Lemma get_session_spec sid (m m' : manager) s : get_session sid m = (Ok s, m') → m' = m ∧ cm_heap m !! sid = Some s.
Proof. unfold get_session. destruct (cm_heap m !! sid) eqn:E; [|done]. by intros [= <- <-]. Qed.

Lemma shape_lookup (m : manager) sid key ps :
  ((λ s, (ss_path s, ss_participants s)) <$> cm_heap m) !! sid = Some (key, ps) ↔
  ∃ s, cm_heap m !! sid = Some s ∧ ss_path s = key ∧ ss_participants s = ps.
Proof. rewrite lookup_fmap, fmap_Some. naive_solver. Qed.

Lemma shape_heap_update (m : manager) sid s f :
  cm_heap m !! sid = Some s → (ss_path (f s) = ss_path s) →
  (λ s, (ss_path s, ss_participants s)) <$> alter f sid (cm_heap m) =
  <[sid := (ss_path s, ss_participants (f s))]> ((λ s, (ss_path s, ss_participants s)) <$> cm_heap m).
Proof.
  intros Hs Hf. rewrite <-Hf, <-(fmap_insert (λ s, (ss_path s, ss_participants s)) (cm_heap m) sid (f s)). f_equal.
  apply map_eq. intros i. rewrite lookup_alter. case_decide; subst.
  - by rewrite Hs, lookup_insert_eq.
  - by rewrite lookup_insert_ne.
Qed.

(** The session a subscription joins. *)
Lemma keeps_open_existing sid path :
  keeps (s ← get_session sid;
         _ ← (if bool_decide (ss_participants s = ∅) && negb (ss_dirty s) then
                content ← read_content config path;
                doc ← lock_doc sid;
                _ ← (if bool_decide (cd_disk_hash doc = blake3 content) then mret tt else update_session sid (set_doc (CollabDoc_new content)));
                _ ← change_conflict sid None;
                mret tt
              else mret tt);
         mret sid : M nat).
Proof.
  apply keeps_bind; [apply keeps_get_session|]. intros s. apply keeps_bind; [|intros; apply keeps_ret].
  destruct (_ && _); [|apply keeps_ret]. apply keeps_bind; [apply keeps_read_content|]. intros content.
  apply keeps_bind; [apply keeps_lock_doc|]. intros doc.
  apply keeps_bind; [|intros; apply keeps_bind; [apply keeps_change_conflict|intros; apply keeps_ret]].
  case_bool_decide; [apply keeps_ret|by apply keeps_update].
Qed.

Lemma open_session_spec key path (m m' : manager) sid :
  open_session config key path m = (Ok sid, m') → ok m →
  ok m' ∧ cm_sessions m' !! key = Some sid ∧ cm_connections m' = cm_connections m.
Proof.
  unfold open_session. intros E Hm. apply stt_bind_inv in E as (m0 & m0' & [= <- <-] & E).
  destruct (cm_sessions m !! key) as [sid'|] eqn:Es.
  - match type of E with ?x m = _ => assert (keeps x) as Hk end.
    { apply keeps_open_existing. }
    pose proof (Hk m) as Hkm. rewrite E in Hkm. simpl in Hkm.
    assert (sid' = sid) as ->.
    { apply stt_bind_inv in E as (s & m1 & _ & E). apply stt_bind_inv in E as ([] & m2 & _ & E). by injection E. }
    unfold manager_ok. rewrite Hkm. split; [done|]. unfold shape in Hkm. injection Hkm as _ -> -> _. done.
  - case_Z; [done|]. apply stt_bind_inv in E as (content & m1 & E1 & E).
    pose proof (keeps_read_content config path m) as Hk. rewrite E1 in Hk. simpl in Hk.
    apply stt_bind_inv in E as (m1' & m1'' & [= <- <-] & E). cbn in E. injection E as <- <-.
    unfold shape in Hk. injection Hk as Hh Hs Hc Hp. unfold manager_ok, shape. cbn. rewrite Hs, Hc, Hp, fmap_insert, Hh. cbn.
    split; [|split; [by rewrite lookup_insert_eq|done]]. apply shape_ok_new; try done.
    rewrite <-Hh, lookup_fmap. rewrite (proj1 (not_elem_of_dom (cm_heap m1) _)); [done|]. apply is_fresh.
Qed.

Lemma open_session_ok key path : preserves (open_session config key path).
Proof.
  intros m Hm. destruct (open_session config key path m) as [[sid|e] m'] eqn:E; [by apply open_session_spec in E as (? & _)|].
  simpl. assert (shape m' = shape m) as Hs; [|by unfold manager_ok; rewrite Hs].
  unfold open_session in E. change (get_state m) with (Ok (E := CollabError) m, m) in E.
  unfold mbind at 1, stt_bind at 1 in E. cbn [get_state] in E. destruct (cm_sessions m !! key) as [sid'|] eqn:Es.
  - pose proof (keeps_open_existing sid' path m) as Hk. by rewrite E in Hk.
  - destruct (_ <=? _); [by injection E as _ <-|]. unfold mbind at 1, stt_bind at 1 in E.
    pose proof (keeps_read_content config path m) as Hk. destruct (read_content config path m) as [[c|e'] m1]; [|by injection E as _ <-].
    done.
Qed.

Lemma keeps_sync sid conn key :
  keeps (doc ← lock_doc sid;
         s ← get_session sid;
         _ ← send_message conn (FileCollabSync key (base64_encode (encode_full_state (cd_doc doc))) (ss_dirty s) (ss_conflict s));
         broadcast sid None (participants_message s) : M unit).
Proof.
  apply keeps_bind; [apply keeps_lock_doc|]. intros doc. apply keeps_bind; [apply keeps_get_session|]. intros s.
  apply keeps_bind; [apply keeps_send|]. intros []. apply keeps_broadcast.
Qed.

Lemma subscribe_ok conn user name avatar raw_path : preserves (subscribe config conn user name avatar raw_path).
Proof.
  apply keeps_then; [apply keeps_resolve|]. intros [path key] m Hm. unfold get_state. unfold mbind at 1, stt_bind at 1.
  set (full := match cm_connections m !! conn with Some _ => _ | None => _ end). destruct full eqn:Hfull; [done|]. subst full.
  unfold mbind at 1, stt_bind at 1. cbn [modify]. set (m0 := with_pending_teardowns _ m).
  assert (ok m0) as Hm0 by done. assert (cm_connections m0 = cm_connections m) as Hc0 by done. clearbody m0.
  apply (stt_bind_snd ok); [by apply open_session_ok|]. intros sid m1 E.
  apply open_session_spec in E as (Hm1 & Hsid & Hc1); [|done]. rewrite Hc0 in Hc1.
  unfold manager_ok in Hm1. pose proof (so_path _ _ _ _ _ Hm1 _ _ Hsid) as [ps Hps].
  pose proof Hps as (s & Hs & Hkey & Hpart)%shape_lookup.
  unfold update_session, modify, mbind, stt_bind. cbv beta iota.
  set (m2 := with_connections _ _).
  assert (ok m2) as Hm2.
  { unfold manager_ok, m2, shape. cbn. rewrite (shape_heap_update _ _ s) by done. cbn. rewrite Hkey, Hpart.
    apply (shape_ok_join config); try done. rewrite Hc1.
    destruct (cm_connections m !! conn) as [keys|] eqn:Hk.
    - change (default ∅ (Some keys)) with keys.
      apply andb_false_iff in Hfull as [Hin|Hlt]; [left; apply negb_false_iff in Hin; by apply bool_decide_eq_true in Hin|right; lia].
    - right. change (default ∅ None) with (∅ : gset bytes). rewrite size_empty. lia. }
  clearbody m2. exact (keeps_ok config _ m2 (keeps_sync sid conn key) Hm2).
Qed.

Lemma foreach_total {A} (f : A → M unit) l m : (∀ a m, (f a m).1 = Ok tt) → (foreach f l m).1 = Ok tt.
Proof.
  intros Hf. revert m. induction l as [|a l IH]; intros m; [done|]. cbn. unfold mbind, stt_bind.
  specialize (Hf a m). destruct (f a m) as [[[]|e] m']; [apply IH|done].
Qed.
Lemma broadcast_total sid except msg (m : manager) s : cm_heap m !! sid = Some s → (broadcast sid except msg m).1 = Ok tt.
Proof.
  intros Hs. unfold broadcast, mbind, stt_bind. unfold get_session at 1. rewrite Hs. apply foreach_total.
  intros a m'. by case_bool_decide.
Qed.

(** Leaving a session, against the subscriptions before it: the connection no
    longer takes part, and nothing else changes. *)
Lemma leave_session_spec conn key (m : manager) h s c p :
  shape m = (h, s, cm_connections m, p) → shape_ok config h s c p → p !! (conn, key) = None →
  ∃ h', shape (leave_session conn key m).2 = (h', s, cm_connections m, p) ∧
    shape_ok config h' s (<[conn := default ∅ (c !! conn) ∖ {[key]}]> c) p ∧ (leave_session conn key m).1 = Ok tt.
Proof.
  intros Hsh Hok Hp.
  assert (cm_sessions m = s ∧ (λ s, (ss_path s, ss_participants s)) <$> cm_heap m = h) as [Hs Hh].
  { unfold shape in Hsh. by injection Hsh. }
  destruct (s !! key) as [sid|] eqn:Es.
  - destruct (so_path _ _ _ _ _ Hok _ _ Es) as [ps Hps]. pose proof Hps as Hps'. rewrite <-Hh in Hps'.
    apply shape_lookup in Hps' as (ses & Hses & Hkey & Hpart).
    set (f := λ s0 : CollabSession D H, set_participants (delete conn (ss_participants s0)) s0).
    pose proof (shape_ok_leave config h s c p key sid ps conn Hok Es Hps Hp) as Hok'.
    set (m1 := with_heap (alter f sid) m).
    assert (leave_session conn key m =
      (s ← get_session sid;
       if bool_decide (ss_participants s = ∅) then schedule_teardown key else broadcast sid None (participants_message s)) m1) as ->.
    { unfold leave_session, get_state, mbind, stt_bind. by rewrite Hs, Es. }
    assert (shape m1 = (<[sid := (key, delete conn ps)]> h, s, cm_connections m, p)) as Hm1.
    { unfold m1, shape. cbn. rewrite (shape_heap_update _ _ ses) by done. cbn. rewrite Hkey, Hpart, Hh, Hs.
      unfold shape in Hsh. by injection Hsh as _ _ ->. }
    assert (cm_heap m1 !! sid = Some (f ses)) as Hses1 by (unfold m1; cbn; by rewrite lookup_alter_eq, Hses).
    clearbody m1. exists (<[sid := (key, delete conn ps)]> h). rewrite <-Hm1. split; [|split; [exact Hok'|]].
    + apply keeps_bind; [apply keeps_get_session|]. intros s'. case_bool_decide; [done|apply keeps_broadcast].
    + unfold mbind, stt_bind. unfold get_session at 1. rewrite Hses1. case_bool_decide; [done|]. by eapply broadcast_total.
  - exists h. unfold leave_session, get_state, mbind, stt_bind. rewrite Hs, Es. split; [done|]. split; [|done].
    pose proof Hok as Hok'. revert Hok'. apply shape_ok_ext. intros conn'.
    destruct (decide (conn' = conn)) as [->|]; [rewrite lookup_insert_eq|by rewrite lookup_insert_ne]. simpl.
    assert (key ∉ default ∅ (c !! conn)); [|set_solver]. intros (sid & ? & ? & _)%(so_joined _ _ _ _ _ Hok). congruence.
Qed.

Lemma leave_ok conn key : preserves (leave conn key).
Proof.
  intros m Hm. unfold leave, modify. unfold mbind, stt_bind. cbv beta iota. set (m1 := with_pending_updates _ _).
  unfold manager_ok in Hm. destruct (shape m) as [[[h s] c] p] eqn:Hsh.
  assert (shape m1 = (h, s, alter (λ subscribed, subscribed ∖ {[key]}) conn c, delete (conn, key) p)) as Hm1.
  { unfold shape in *. injection Hsh as <- <- <- <-. done. }
  assert (cm_connections m1 = alter (λ subscribed, subscribed ∖ {[key]}) conn c) as Hc1. { unfold shape in Hsh. by injection Hsh as _ _ <-. }
  clearbody m1. destruct (leave_session_spec conn key m1 h s c (delete (conn, key) p)) as (h' & Hs & Hok & _).
  - by rewrite Hm1, Hc1.
  - by apply shape_ok_pending_delete.
  - apply lookup_delete_eq.
  - unfold manager_ok. rewrite Hs. revert Hok. apply shape_ok_ext. intros conn'.
    rewrite Hc1, lookup_alter. destruct (decide (conn' = conn)) as [->|].
    + rewrite lookup_insert_eq, decide_True by done. destruct (c !! conn); simpl; set_solver.
    + by rewrite lookup_insert_ne, decide_False.
Qed.

Lemma unsubscribe_ok conn raw_path : preserves (unsubscribe config conn raw_path).
Proof. apply keeps_then; [apply keeps_resolve|]. intros [path key]. apply leave_ok. Qed.

Lemma disconnect_loop conn keys (m : manager) h s c p :
  shape m = (h, s, cm_connections m, p) → shape_ok config h s c p → (∀ key, p !! (conn, key) = None) →
  list_to_set keys = default ∅ (c !! conn) → NoDup keys →
  ∃ h', shape (foreach (leave_session conn) keys m).2 = (h', s, cm_connections m, p) ∧
    shape_ok config h' s (<[conn := ∅]> c) p.
Proof.
  revert m h c. induction keys as [|key keys IH]; intros m h c Hsh Hok Hp Hk Hnd.
  - exists h. split; [done|]. revert Hok. apply shape_ok_ext. intros conn'.
    destruct (decide (conn' = conn)) as [->|]; [rewrite lookup_insert_eq|by rewrite lookup_insert_ne]. by rewrite <-Hk.
  - destruct (leave_session_spec conn key m h s c p Hsh Hok (Hp key)) as (h' & Hs & Hok' & He).
    cbn [foreach]. unfold mbind, stt_bind. destruct (leave_session conn key m) as [r m1]. simpl in Hs, He. subst r.
    assert (cm_connections m1 = cm_connections m) as Hc. { unfold shape in Hs. by injection Hs. }
    rewrite <-Hc in Hs. destruct (IH m1 h' (<[conn := default ∅ (c !! conn) ∖ {[key]}]> c) Hs Hok') as (h'' & Hs2 & Hok2).
    { done. }
    { rewrite lookup_insert_eq. simpl. rewrite <-Hk. cbn. apply list.NoDup_cons in Hnd as [Hnin _].
      assert (key ∉ (list_to_set keys : gset bytes)) by (by rewrite elem_of_list_to_set). set_solver. }
    { by apply list.NoDup_cons in Hnd as []. }
    rewrite Hc in Hs2. exists h''. split; [done|]. by rewrite insert_insert_eq in Hok2.
Qed.

Lemma disconnect_ok conn : preserves (disconnect conn).
Proof.
  intros m Hm. unfold disconnect, get_state, modify. unfold mbind, stt_bind. cbv beta iota. set (m1 := with_pending_updates _ _).
  unfold manager_ok in Hm. destruct (shape m) as [[[h s] c] p] eqn:Hsh.
  set (p1 := filter (λ q : (Z * bytes) * bytes, q.1.1 ≠ conn) p).
  assert (shape m1 = (h, s, delete conn c, p1)) as Hm1.
  { unfold shape in *. injection Hsh as <- <- <- <-. done. }
  assert (cm_connections m1 = delete conn c ∧ cm_connections m = c) as [Hc1 Hc].
  { unfold shape in Hsh. by injection Hsh as _ _ <-. }
  clearbody m1.
  destruct (disconnect_loop conn (elements (default ∅ (cm_connections m !! conn))) m1 h s c p1) as (h' & Hs & Hok).
  - by rewrite Hm1, Hc1.
  - destruct Hm. split; try done. intros conn' key buf [Hp _]%map_lookup_filter_Some. auto.
  - intros key. apply map_lookup_filter_None. right. intros buf _. simpl. auto.
  - rewrite Hc. apply set_eq. intros key. by rewrite elem_of_list_to_set, elem_of_elements.
  - apply NoDup_elements.
  - unfold manager_ok. rewrite Hs, Hc1. revert Hok. apply shape_ok_ext. intros conn'.
    destruct (decide (conn' = conn)) as [->|]; [by rewrite lookup_insert_eq, lookup_delete_eq|by rewrite lookup_insert_ne, lookup_delete_ne].
Qed.

Lemma teardown_ok key : preserves (teardown key).
Proof.
  intros m Hm. unfold teardown, get_state. unfold mbind at 1, stt_bind at 1. apply bind_snd; [|by intros ? ? ?].
  destruct (cm_sessions m !! key) as [sid|] eqn:Es; [|done].
  unfold manager_ok in Hm. destruct (so_path _ _ _ _ _ Hm _ _ Es) as [ps Hps].
  pose proof Hps as (s & Hs & Hkey & Hpart)%shape_lookup.
  unfold mbind, stt_bind, get_session. rewrite Hs. case_bool_decide as He; [|done].
  assert (shape_ok config ((λ s, (ss_path s, ss_participants s)) <$> cm_heap m) (delete key (cm_sessions m)) (cm_connections m) (cm_pending_updates m)) as Ht.
  { eapply shape_ok_teardown; [exact Hm|done|]. rewrite Hps. by rewrite <-Hpart, He. }
  unfold modify. destruct (session_held sid s m); [exact Ht|]. unfold manager_ok, shape. cbn. rewrite fmap_delete.
  apply shape_ok_free; [exact Ht|]. intros key' [Hne Hk]%lookup_delete_Some. apply Hne.
  destruct (so_path _ _ _ _ _ Hm _ _ Hk) as [ps' Hps']. rewrite Hps in Hps'. by injection Hps'.
Qed.

Lemma run_op_ok op : preserves (run_op config op).
Proof.
  destruct op; simpl.
  - apply subscribe_ok.
  - apply apply_update_ok.
  - apply keeps_preserves, keeps_awareness.
  - apply keeps_preserves, keeps_save.
  - apply keeps_preserves, keeps_reload.
  - apply unsubscribe_ok.
  - apply disconnect_ok.
Qed.

Lemma manager_reachable_ok m : collab_reachable config m → manager_ok config m.
Proof.
  induction 1 as [w|m m' _ IH Hstep].
  - unfold manager_ok, shape. cbn. rewrite fmap_empty. split; try done.
    + intros conn key. rewrite lookup_empty. simpl. split; [set_solver|]. by intros (? & ? & ? & _).
    + rewrite map_size_empty. lia.
    + intros conn. rewrite lookup_empty. change (default ∅ None) with (∅ : gset bytes). rewrite size_empty. lia.
  - destruct Hstep.
    + by apply run_op_ok.
    + apply keeps_ok; [apply keeps_run_request|done].
    + apply keeps_ok; [apply keeps_save_write|done].
    + apply keeps_ok; [apply keeps_save_finish|done].
    + by apply teardown_ok.
    + apply keeps_ok; [apply keeps_reconcile_tick|done].
    + done.
Qed.

(** C32. Who edits what.  Whatever the connections do and in whatever order, a
    connection is subscribed to a file exactly when it takes part in the
    session of that file, a file has at most one session and a session that
    was taken out is empty, chunks of an unfinished update are kept only for
    subscribed connections and below the size limit, the sessions of the server
    do not exceed their limit, and the subscriptions of a connection do not
    exceed theirs, which is at least one: the first subscription of a connection
    is not checked, so a limit of 0 allows one ([first_subscription_is_unchecked]). *)
Theorem collab_sessions_consistent m : collab_reachable config m → manager_ok config m.
Proof. apply manager_reachable_ok. Qed.
End operations.

(** ** Documents and unsaved edits *)

Section maintain.
Context {D U H W : Type} {YD : Ydoc D U} {HE : EqDecision H} {BL : Blake3 H} {B64 : Base64} {CW : CollabWorld W}.
Context (config : CollabConfig).

Notation "'manager'" := (CollabManager D H W).
Notation "'session'" := (CollabSession D H).
Notation "'M' A" := (stt (CollabManager D H W) CollabError A) (at level 10).

(** A property of the documents of the sessions and of what is unsaved. *)
Class DocInvariant (I : manager → Prop) : Prop := {
  doc_heap_only m m' : cm_heap m' = cm_heap m → I m → I m';
  doc_stable sid f m :
    (∀ s : session, ss_doc (f s) = ss_doc s ∧ ss_dirty (f s) = ss_dirty s) → I m → I (with_heap (alter f sid) m);
}.

Context (I : manager → Prop) {DI : DocInvariant I}.
Definition maintains {A} (x : M A) : Prop := ∀ m, I m → I (x m).2.

Lemma maintains_bind {A B} (x : M A) (f : A → M B) : maintains x → (∀ a, maintains (f a)) → maintains (x ≫= f).
Proof. intros Hx Hf m Hm. unfold mbind, stt_bind. specialize (Hx m Hm). destruct (x m) as [[a|e] m']; [by apply Hf|done]. Qed.
Lemma maintains_foreach {A} (f : A → M unit) l : (∀ a, maintains (f a)) → maintains (foreach f l).
Proof. intros Hf. induction l as [|a l IH]; [by intros ?|]. by apply maintains_bind. Qed.
Lemma maintains_heap {A} (x : M A) : (∀ m, cm_heap (x m).2 = cm_heap m) → maintains x.
Proof. intros Hx m. by apply doc_heap_only. Qed.
Lemma maintains_ret {A} (a : A) : maintains (mret a).
Proof. by intros m. Qed.
Lemma maintains_throw {A} e : maintains (throw e : M A).
Proof. by intros m. Qed.
Lemma maintains_user_error {A} e : maintains (user_error e : M A).
Proof. by intros m. Qed.
Lemma maintains_get_state : maintains get_state.
Proof. by intros m. Qed.
Lemma maintains_on_world {A} (f : W → A * W) : maintains (on_world f).
Proof. apply maintains_heap. intros m. unfold on_world. by destruct (f _). Qed.
Lemma maintains_get_session sid : maintains (get_session sid).
Proof. apply maintains_heap. intros m. unfold get_session. by destruct (_ !! _). Qed.
Lemma maintains_send conn msg : maintains (send_message conn msg).
Proof. by apply maintains_heap. Qed.
Lemma maintains_teardowns f : maintains (modify (with_pending_teardowns f)).
Proof. by apply maintains_heap. Qed.
Lemma maintains_waiting f : maintains (modify (with_waiting f)).
Proof. by apply maintains_heap. Qed.
Lemma maintains_pending f : maintains (modify (with_pending_updates f)).
Proof. by apply maintains_heap. Qed.
Lemma maintains_connections f : maintains (modify (with_connections f)).
Proof. by apply maintains_heap. Qed.
Lemma maintains_sessions f : maintains (modify (with_sessions f)).
Proof. by apply maintains_heap. Qed.
Lemma maintains_attempt {A} (x : M A) : maintains x → maintains (attempt x).
Proof. intros Hx m Hm. unfold attempt. specialize (Hx m Hm). by destruct (x m) as [[a|e] m']. Qed.
Lemma maintains_update sid f :
  (∀ s : session, ss_doc (f s) = ss_doc s ∧ ss_dirty (f s) = ss_dirty s) → maintains (update_session sid f).
Proof. intros Hf m. by apply doc_stable. Qed.
(** What is done with the session that was read *)
Lemma maintains_session {A} sid (k : session → M A) :
  (∀ s m, cm_heap m !! sid = Some s → I m → I (k s m).2) → maintains (s ← get_session sid; k s).
Proof. intros Hk m Hm. unfold get_session, mbind, stt_bind. destruct (cm_heap m !! sid) as [s|] eqn:E; [by apply Hk|done]. Qed.
Lemma maintains_lock {A} sid (k : CollabDoc D H → M A) :
  (∀ s m, cm_heap m !! sid = Some s → I m → I (k (ss_doc s) m).2) → maintains (doc ← lock_doc sid; k doc).
Proof.
  intros Hk m Hm. unfold lock_doc, get_session, mbind, stt_bind. destruct (cm_heap m !! sid) as [s|] eqn:E; [|done].
  destruct (ss_poisoned s); [done|]. by apply Hk.
Qed.
End maintain.

Create HintDb maintains.
#[export] Hint Resolve maintains_ret maintains_throw maintains_user_error maintains_get_state maintains_on_world maintains_get_session
  maintains_send maintains_teardowns maintains_waiting maintains_pending maintains_connections maintains_sessions maintains_attempt : maintains.
Ltac maintains_step :=
  match goal with
  | |- maintains _ (mbind _ _) => apply maintains_bind; [|intros ?]
  | |- maintains _ (foreach _ _) => apply maintains_foreach; intros ?
  | |- maintains _ (update_session _ _) => apply maintains_update; first [by intros ?|apply _]
  | |- maintains _ (match ?x with _ => _ end) => destruct x
  | |- maintains _ (let '_ := ?x in _) => destruct x
  end.
Ltac maintains := repeat first [solve [eauto with maintains typeclass_instances nocore] | maintains_step].

Section maintaining.
Context {D U H W : Type} {YD : Ydoc D U} {HE : EqDecision H} {BL : Blake3 H} {B64 : Base64} {CW : CollabWorld W}.
Context (config : CollabConfig) (I : CollabManager D H W → Prop) {DI : DocInvariant I}.

Lemma maintains_lock_doc sid : maintains I (lock_doc sid).
Proof. unfold lock_doc. maintains. Qed.
Lemma maintains_broadcast sid except msg : maintains I (broadcast sid except msg).
Proof. unfold broadcast. maintains. Qed.
#[local] Hint Resolve maintains_lock_doc maintains_broadcast : maintains.
Lemma maintains_broadcast_conflict sid c : maintains I (broadcast_conflict sid c).
Proof. unfold broadcast_conflict. maintains. Qed.
Lemma maintains_broadcast_resync sid : maintains I (broadcast_resync sid).
Proof. unfold broadcast_resync. maintains. Qed.
Lemma maintains_change_conflict sid c : maintains I (change_conflict sid c).
Proof. unfold change_conflict. maintains. Qed.
Lemma maintains_resolve raw_path : maintains I (resolve config raw_path).
Proof. unfold resolve. maintains. Qed.
Lemma maintains_read_content path : maintains I (read_content config path).
Proof. unfold read_content. maintains. Qed.
#[local] Hint Resolve maintains_broadcast_conflict maintains_broadcast_resync maintains_change_conflict maintains_resolve
  maintains_read_content : maintains.
Lemma maintains_subscribed_session conn raw_path : maintains I (subscribed_session config conn raw_path).
Proof. unfold subscribed_session. maintains. Qed.
Lemma maintains_read_disk path : maintains I (read_disk config path).
Proof. unfold read_disk. maintains. Qed.
#[local] Hint Resolve maintains_subscribed_session maintains_read_disk : maintains.
Lemma maintains_collect_chunk conn key finished chunk : maintains I (collect_chunk config conn key finished chunk).
Proof. unfold collect_chunk. maintains. Qed.
Lemma maintains_save_check sid conn user key path parent force expected :
  maintains I (save_check config sid conn user key path parent force expected).
Proof. unfold save_check. maintains. Qed.
Lemma maintains_save_write sid : maintains I (save_write sid).
Proof. unfold save_write. maintains. Qed.
Lemma maintains_reconcile_read sid : maintains I (reconcile_read config sid).
Proof. unfold reconcile_read. maintains. Qed.
Lemma maintains_leave_session conn key : maintains I (leave_session conn key).
Proof. unfold leave_session, schedule_teardown. maintains. Qed.
#[local] Hint Resolve maintains_leave_session : maintains.
(** Every operation of a client but joining a session and changing its text *)
Lemma maintains_other_op op :
  match op with OpSubscribe _ _ _ _ _ | OpUpdate _ _ _ _ => False | _ => True end → maintains I (run_op config op).
Proof.
  destruct op; simpl; intros Hop; try done.
  - unfold relay_awareness. maintains.
  - unfold save. maintains.
  - unfold reload. maintains.
  - unfold unsubscribe, leave. maintains.
  - unfold disconnect. maintains.
Qed.
End maintaining.

#[export] Hint Resolve maintains_lock_doc maintains_broadcast maintains_broadcast_conflict maintains_broadcast_resync maintains_change_conflict
  maintains_resolve maintains_read_content maintains_subscribed_session maintains_read_disk maintains_collect_chunk maintains_save_write
  maintains_reconcile_read maintains_leave_session : maintains.

(** *** Clean sessions *)

Section clean.
Context {D U H W : Type} {YD : Ydoc D U} {YL : YdocLaws D U} {HE : EqDecision H} {BL : Blake3 H} {B64 : Base64} {CW : CollabWorld W}.
Context (config : CollabConfig).
Notation "'manager'" := (CollabManager D H W).
Notation "'session'" := (CollabSession D H).
Notation "'M' A" := (stt (CollabManager D H W) CollabError A) (at level 10).

(** A session that has no unsaved edits holds the text it knows to be on disk. *)
Definition session_clean (s : session) : Prop := ss_dirty s = false → blake3 (content_of (ss_doc s)) = cd_disk_hash (ss_doc s).
Definition clean_ok (m : manager) : Prop := ∀ sid s, cm_heap m !! sid = Some s → session_clean s.
Definition dirty_at (sid : nat) (m : manager) : Prop := ∀ s, cm_heap m !! sid = Some s → ss_dirty s = true.

Lemma clean_new content : blake3 (content_of (CollabDoc_new (D := D) (H := H) content)) = cd_disk_hash (CollabDoc_new (D := D) content).
Proof. unfold content_of, CollabDoc_new. simpl. by rewrite get_string_new. Qed.

(** Changing one session *)
Lemma clean_alter sid f m :
  clean_ok m → (∀ s, cm_heap m !! sid = Some s → session_clean (f s)) → clean_ok (with_heap (alter f sid) m).
Proof.
  intros Hm Hf sid' s. unfold with_heap. cbn. destruct (decide (sid' = sid)) as [->|]; [|rewrite lookup_alter_ne by done; apply Hm].
  rewrite lookup_alter_eq. destruct (cm_heap m !! sid) as [s0|] eqn:E; [|done]. simpl. intros [= <-]. by apply Hf.
Qed.
Lemma clean_alter2 sid f g m :
  clean_ok m → (∀ s, cm_heap m !! sid = Some s → session_clean (g (f s))) → clean_ok (with_heap (alter g sid) (with_heap (alter f sid) m)).
Proof.
  intros Hm Hf. replace (with_heap (alter g sid) (with_heap (alter f sid) m)) with (with_heap (alter (g ∘ f) sid) m).
  - by apply clean_alter.
  - unfold with_heap. cbn. f_equal. apply map_eq. intros i.
    destruct (decide (sid = i)) as [->|]; [rewrite !lookup_alter_eq|by rewrite !lookup_alter_ne]. by destruct (cm_heap m !! _).
Qed.
#[export] Instance clean_invariant : DocInvariant clean_ok.
Proof.
  split.
  - intros m m' Hh Hm sid s. rewrite Hh. apply Hm.
  - intros sid f m Hf Hm. apply clean_alter; [done|]. intros s Hs Hd. destruct (Hf s) as [-> Hd']. apply (Hm _ _ Hs). by rewrite <-Hd'.
Qed.

Notation "'cleaning' x" := (maintains (D := D) (H := H) (W := W) clean_ok x) (at level 10, x at level 9).

Lemma cleans_new_doc sid content : cleaning (update_session sid (set_doc (CollabDoc_new content))).
Proof. intros m Hm. apply clean_alter; [done|]. intros s _ _. apply clean_new. Qed.
#[local] Hint Resolve cleans_new_doc : maintains.

Lemma cleans_open_session key path : cleaning (open_session config key path).
Proof.
  unfold open_session. apply maintains_bind; [maintains|]. intros m0. destruct (cm_sessions m0 !! key) as [sid|]; [maintains|].
  destruct (_ <=? _); [maintains|]. apply maintains_bind; [maintains|]. intros content.
  apply maintains_bind; [maintains|]. intros m1. apply maintains_bind; [|intros; maintains].
  intros m Hm sid s. cbn. intros [[<- <-]|[_ Hs]]%lookup_insert_Some; [intros _; apply clean_new|by eapply Hm].
Qed.
#[local] Hint Resolve cleans_open_session : maintains.
Lemma cleans_subscribe conn user name avatar raw_path : cleaning (subscribe config conn user name avatar raw_path).
Proof. unfold subscribe. maintains. Qed.

Lemma cleans_update_doc sid update decoded : cleaning (update_doc config sid update decoded).
Proof.
  unfold update_doc. apply maintains_bind; [maintains|]. intros guard. destruct (yrs_apply decoded (cd_doc guard)) as [d|]; [|maintains].
  intros m Hm. unfold mbind at 1 2, stt_bind at 1 2. unfold update_session at 1 2, modify. cbv beta iota.
  set (m' := with_heap _ (with_heap _ m)). assert (clean_ok m') as Hm' by (by apply clean_alter2).
  assert (dirty_at sid m') as Hd.
  { intros s. unfold m', with_heap. cbn. rewrite !lookup_alter_eq. destruct (cm_heap m !! sid); [|done]. simpl. by intros [= <-]. }
  clearbody m'. destruct (_ <? _).
  - refine ((_ : cleaning _) m' Hm'). destruct (string_truncate _ _); maintains.
  - unfold mbind at 1, stt_bind at 1. unfold update_session at 1, modify at 1. cbv beta iota. set (m2 := with_heap _ m').
    assert (clean_ok m2) as Hm2. { apply clean_alter; [done|]. intros s Hs Hf. cbn in Hf. by rewrite (Hd _ Hs) in Hf. }
    refine ((_ : cleaning _) m2 Hm2). destruct (_ <? _); maintains.
Qed.
#[local] Hint Resolve cleans_update_doc : maintains.
Lemma cleans_apply_update conn raw_path finished chunk : cleaning (apply_update config conn raw_path finished chunk).
Proof. unfold apply_update. maintains. Qed.

Lemma cleans_save_finish sid : cleaning (save_finish config sid).
Proof.
  unfold save_finish. apply maintains_bind; [maintains|]. intros s. destruct (ss_save_lock s) as [t|]; [|maintains].
  apply maintains_bind; [maintains|]. intros []. apply maintains_bind; [maintains|]. intros revision_id.
  apply maintains_lock. intros s0 m Hs0 Hm. unfold mbind at 1 2, stt_bind at 1 2. unfold update_session, modify. cbv beta iota.
  set (m' := with_heap _ (with_heap _ m)). assert (clean_ok m') as Hm'.
  { apply clean_alter2; [done|]. intros s1 Hs1. rewrite Hs0 in Hs1. injection Hs1 as <-.
    unfold session_clean. cbn. intros Hd%negb_false_iff%bool_decide_eq_true. unfold content_of in *. cbn. by rewrite Hd. }
  clearbody m'. refine ((_ : cleaning _) m' Hm'). maintains.
Qed.

Lemma cleans_reload_locked sid : cleaning (reload_locked config sid).
Proof.
  unfold reload_locked. apply maintains_bind; [maintains|]. intros s. apply maintains_bind; [maintains|]. intros content.
  apply maintains_bind; [maintains|]. intros _ m Hm. unfold mbind at 1 2, stt_bind at 1 2. unfold update_session, modify. cbv beta iota.
  set (m' := with_heap _ (with_heap _ m)). assert (clean_ok m') as Hm'.
  { apply clean_alter2; [done|]. intros s1 _ _. apply clean_new. }
  clearbody m'. refine ((_ : cleaning _) m' Hm'). maintains.
Qed.

Lemma cleans_heal sid : cleaning (heal_dirty sid).
Proof.
  unfold heal_dirty. apply maintains_bind; [maintains|]. intros s. destruct (ss_dirty s); [|maintains].
  apply maintains_lock. intros s0 m Hs0 Hm. case_bool_decide as Heq; [|done].
  apply clean_alter; [done|]. intros s1 Hs1 _. rewrite Hs0 in Hs1. by injection Hs1 as <-.
Qed.
#[local] Hint Resolve cleans_heal : maintains.
Lemma cleans_reconcile_tick sid : cleaning (reconcile_tick config sid).
Proof. unfold reconcile_tick. maintains. Qed.

Lemma cleans_teardown key : cleaning (teardown key).
Proof.
  unfold teardown. apply maintains_bind; [maintains|]. intros m0. apply maintains_bind; [|intros; maintains].
  destruct (cm_sessions m0 !! key) as [sid|]; [|maintains]. apply maintains_bind; [maintains|]. intros s.
  destruct (bool_decide _); [|maintains]. apply maintains_bind; [maintains|]. intros _. destruct (session_held _ _ _); [maintains|].
  intros m Hm sid' s'. unfold modify, with_heap. cbn. intros [_ Hs]%lookup_delete_Some. by eapply Hm.
Qed.

Lemma clean_step m m' : collab_step config m m' → clean_ok m → clean_ok m'.
Proof.
  intros [op| ? ? [] ?| | | | | ] Hm.
  - destruct op; try (by apply (maintains_other_op config clean_ok)).
    + by apply cleans_subscribe.
    + by apply cleans_apply_update.
  - by apply (maintains_save_check config clean_ok).
  - by apply cleans_reload_locked.
  - by apply (maintains_save_write clean_ok).
  - by apply cleans_save_finish.
  - by apply cleans_teardown.
  - by apply cleans_reconcile_tick.
  - done.
Qed.

Lemma clean_reachable m : collab_reachable config m → clean_ok m.
Proof. induction 1; [by intros sid s|by eapply clean_step]. Qed.
End clean.

(** *** Unsaved edits *)

Section edits.
Context {D U H W : Type} {YD : Ydoc D U} {YL : YdocLaws D U} {HE : EqDecision H} {BL : Blake3 H} {B64 : Base64} {CW : CollabWorld W}.
Context (config : CollabConfig).
Notation "'M' A" := (stt (CollabManager D H W) CollabError A) (at level 10).

(** The session holds this document, with unsaved edits. *)
Definition holds_edits (sid : nat) (doc : CollabDoc D H) (m : CollabManager D H W) : Prop :=
  ∃ s, cm_heap m !! sid = Some s ∧ ss_doc s = doc ∧ ss_dirty s = true.

Context (sid : nat) (doc : CollabDoc D H).

#[export] Instance edits_invariant : DocInvariant (holds_edits sid doc).
Proof.
  split.
  - intros m m' Hh (s & Hs & Hd). exists s. by rewrite Hh.
  - intros sid' f m Hf (s & Hs & <- & Hdirty). destruct (decide (sid' = sid)) as [->|].
    + exists (f s). unfold with_heap. cbn. rewrite lookup_alter_eq, Hs. destruct (Hf s) as [-> ->]. done.
    + exists s. unfold with_heap. cbn. by rewrite lookup_alter_ne.
Qed.
Notation "'holding' x" := (maintains (D := D) (H := H) (W := W) (holds_edits sid doc) x) (at level 10, x at level 9).

(** Another session can be changed, and this one when it has no edits. *)
Lemma holds_alter sid' f m :
  holds_edits sid doc m → (∃ s, cm_heap m !! sid' = Some s ∧ ss_dirty s = false) → holds_edits sid doc (with_heap (alter f sid') m).
Proof.
  intros (s & Hs & Hd & Hdirty) (s' & Hs' & Hd'). exists s. unfold with_heap. cbn. rewrite lookup_alter_ne; [done|].
  intros ->. rewrite Hs in Hs'. injection Hs' as <-. congruence.
Qed.

Lemma holds_open_session key path : holding (open_session config key path).
Proof.
  unfold open_session. apply maintains_bind; [maintains|]. intros m0. destruct (cm_sessions m0 !! key) as [sid'|].
  - apply maintains_session. intros s m Hs Hm. destruct (decide (sid' = sid)) as [->|Hne].
    + destruct Hm as (s' & Hs' & Hd & Hdirty). rewrite Hs in Hs'. injection Hs' as <-. rewrite Hdirty, andb_false_r.
      by exists s.
    + refine ((_ : holding _) m Hm). apply maintains_bind; [|intros; maintains]. destruct (_ && _); [|maintains].
      apply maintains_bind; [maintains|]. intros content. apply maintains_bind; [maintains|]. intros d.
      apply maintains_bind; [|intros; maintains]. destruct (bool_decide _); [maintains|].
      intros m1 (s1 & Hs1 & Hd1). exists s1. unfold update_session, modify, with_heap. cbn. by rewrite lookup_alter_ne.
  - destruct (_ <=? _); [maintains|]. apply maintains_bind; [maintains|]. intros content.
    intros m (s & Hs & Hd). unfold mbind, stt_bind, get_state, modify. cbn. exists s. cbn. rewrite lookup_insert_ne; [done|].
    intros Hf. assert (fresh (dom (cm_heap m)) ∉ dom (cm_heap m)) as Hfr by apply is_fresh. rewrite Hf in Hfr.
    apply Hfr. by apply elem_of_dom_2 in Hs.
Qed.
#[local] Hint Resolve holds_open_session : maintains.
Lemma holds_subscribe conn user name avatar raw_path : holding (subscribe config conn user name avatar raw_path).
Proof. unfold subscribe. maintains. Qed.

(** The text is not the one known to be on disk. *)
Context (Hdoc : blake3 (content_of doc) ≠ cd_disk_hash doc).

Lemma holds_heal sid' : holding (heal_dirty sid').
Proof.
  unfold heal_dirty. apply maintains_bind; [maintains|]. intros s. destruct (ss_dirty s); [|maintains].
  apply maintains_lock. intros s0 m Hs0 Hm. case_bool_decide as Heq; [|done]. destruct (decide (sid' = sid)) as [->|Hne].
  - destruct Hm as (s' & Hs' & Hd & _). rewrite Hs0 in Hs'. injection Hs' as <-. by rewrite Hd in Heq.
  - destruct Hm as (s1 & Hs1 & Hd1). exists s1. unfold update_session, modify, with_heap. cbn. by rewrite lookup_alter_ne.
Qed.
#[local] Hint Resolve holds_heal : maintains.

Lemma holds_reconcile_tick sid' : holding (reconcile_tick config sid').
Proof.
  unfold reconcile_tick. apply maintains_bind; [maintains|]. intros []. apply maintains_bind; [maintains|].
  intros [[content|deleted]|]; [|maintains..]. apply maintains_session. intros s m Hs Hm.
  unfold mbind at 1, stt_bind at 1. unfold update_session at 1, modify at 1. cbv beta iota. set (m1 := with_heap _ m).
  assert (holds_edits sid doc m1) as Hm1 by (apply doc_stable; done).
  destruct (ss_dirty s) eqn:Ed; [refine ((_ : holding _) m1 Hm1); maintains|].
  refine ((_ : holding _) m1 Hm1). apply maintains_bind; [maintains|]. intros d. destruct (bool_decide _); [maintains|].
  apply maintains_bind; [|intros; maintains].
  destruct (decide (sid' = sid)) as [->|Hne].
  - destruct Hm as (s' & Hs' & _ & Hdirty). rewrite Hs in Hs'. injection Hs' as <-. congruence.
  - intros m2 (s1 & Hs1 & Hd1). exists s1. unfold update_session, modify, with_heap. cbn. by rewrite lookup_alter_ne.
Qed.
End edits.

(** Files keep their sessions but for a teardown. *)
Section kept.
Context {D U H W : Type} {YD : Ydoc D U} {HE : EqDecision H} {BL : Blake3 H} {B64 : Base64} {CW : CollabWorld W}.
Context (config : CollabConfig) (key : bytes) (sid : nat).
Notation "'manager'" := (CollabManager D H W).
Notation "'M' A" := (stt (CollabManager D H W) CollabError A) (at level 10).

Definition session_kept {A} (x : M A) : Prop := ∀ m, cm_sessions m !! key = Some sid → cm_sessions (x m).2 !! key = Some sid.

Lemma kept_keeps {A} (x : M A) : keeps x → session_kept x.
Proof. intros Hx m Hm. pose proof (Hx m) as Hs. unfold shape in Hs. injection Hs as _ Hs _ _. by rewrite Hs. Qed.
Lemma kept_bind {A B} (x : M A) (f : A → M B) : session_kept x → (∀ a, session_kept (f a)) → session_kept (x ≫= f).
Proof. intros Hx Hf m Hm. unfold mbind, stt_bind. specialize (Hx m Hm). destruct (x m) as [[a|e] m']; [by apply Hf|done]. Qed.
Lemma kept_foreach {A} (f : A → M unit) l : (∀ a, session_kept (f a)) → session_kept (foreach f l).
Proof. intros Hf. induction l as [|a l IH]; [by intros ?|]. by apply kept_bind. Qed.
Lemma kept_modify (f : manager → manager) : (∀ m, cm_sessions (f m) = cm_sessions m) → session_kept (modify f).
Proof. intros Hf m. unfold modify. cbn. by rewrite Hf. Qed.

Ltac kept_step :=
  match goal with
  | |- session_kept (mbind _ _) => apply kept_bind; [|intros ?]
  | |- session_kept (foreach _ _) => apply kept_foreach; intros ?
  | |- session_kept (modify _) => by apply kept_modify
  | |- session_kept (update_session _ _) => by apply kept_modify
  | |- session_kept (match ?x with _ => _ end) => destruct x
  | |- session_kept (let '_ := ?x in _) => destruct x
  end.
#[local] Hint Resolve keeps_lock_doc keeps_broadcast keeps_change_conflict keeps_resolve keeps_read_content keeps_subscribed_session
  keeps_update_doc keeps_broadcast_resync : keeps.
Ltac kept := repeat first [solve [apply kept_keeps; eauto with keeps nocore] | kept_step].

Lemma kept_open_session path key' : session_kept (open_session config key' path).
Proof.
  unfold open_session. intros m Hm. unfold mbind at 1, stt_bind at 1, get_state. destruct (cm_sessions m !! key') as [sid'|] eqn:Hk.
  - revert m Hm Hk. intros m Hm _. revert m Hm. fold (session_kept (s ← get_session sid';
      _ ← (if bool_decide (ss_participants s = ∅) && negb (ss_dirty s) then
             content ← read_content config path;
             doc ← lock_doc sid';
             _ ← (if bool_decide (cd_disk_hash doc = blake3 content) then mret tt else update_session sid' (set_doc (CollabDoc_new content)));
             _ ← change_conflict sid' None;
             mret tt
           else mret tt);
      mret sid')). kept.
  - destruct (_ <=? _); [done|]. unfold mbind at 1, stt_bind at 1. pose proof (keeps_read_content config path m) as Hr.
    destruct (read_content config path m) as [[content|e] m1]; unfold shape in Hr; injection Hr as _ Hr _ _; cbn [snd] in Hr; [|cbn [snd]; by rewrite Hr].
    unfold mbind, stt_bind, get_state, modify. cbn. rewrite lookup_insert_ne; [by rewrite Hr|]. intros <-. congruence.
Qed.

Lemma kept_leave_session conn key' : session_kept (leave_session conn key').
Proof. unfold leave_session, schedule_teardown. kept. Qed.
Lemma kept_run_op op : session_kept (run_op config op).
Proof.
  destruct op; cbn [run_op].
  - unfold subscribe. apply kept_bind; [kept|]. intros [path key']. apply kept_bind; [kept|]. intros m0. destruct (match _ with Some _ => _ | None => _ end); [kept|].
    apply kept_bind; [kept|]. intros _. apply kept_bind; [apply kept_open_session|]. intros sid'. kept.
  - unfold apply_update, collect_chunk. kept.
  - apply kept_keeps, keeps_awareness.
  - apply kept_keeps, keeps_save.
  - apply kept_keeps, keeps_reload.
  - unfold unsubscribe, leave. kept; apply kept_leave_session.
  - unfold disconnect. kept; apply kept_leave_session.
Qed.
End kept.

(** A teardown takes out the session of its file when nobody takes part in it, and
    nothing else. *)
Section torn_down.
Context {D U H W : Type} {YD : Ydoc D U} {YL : YdocLaws D U} {HE : EqDecision H} {BL : Blake3 H} {B64 : Base64} {CW : CollabWorld W}.
Context (config : CollabConfig).

Lemma teardown_spec (m : CollabManager D H W) key sid s key' :
  manager_ok config m → cm_sessions m !! key = Some sid → cm_heap m !! sid = Some s →
  let m' := (teardown key' m).2 in
  if decide (key' = key ∧ ss_participants s = ∅)
  then cm_sessions m' !! key = None ∧ (session_held sid s m = false → cm_heap m' !! sid = None)
  else cm_sessions m' !! key = Some sid ∧ cm_heap m' !! sid = Some s.
Proof.
  intros Hm Hk Hs m'.
  assert (∀ key' sid' s', cm_sessions m !! key' = Some sid' → cm_heap m !! sid' = Some s' →
    (teardown key' m).2 = with_pending_teardowns (λ t, t ∖ {[key']})
      (if bool_decide (ss_participants s' = ∅)
       then if session_held sid' s' m then with_sessions (delete key') m else with_heap (delete sid') (with_sessions (delete key') m)
       else m)) as Hrun.
  { intros k i t Hk1 Hi. unfold teardown, get_state, get_session, mbind, stt_bind. rewrite Hk1, Hi. unfold modify.
    destruct (bool_decide _); [|done]. by destruct (session_held i t m). }
  destruct (decide (key' = key)) as [->|Hne].
  - unfold m'. rewrite (Hrun key sid s Hk Hs). case_bool_decide as He.
    + rewrite decide_True by done. destruct (session_held sid s m); (split; [apply lookup_delete_eq|]); intros Hheld; [done|apply lookup_delete_eq].
    + rewrite decide_False by naive_solver. done.
  - rewrite decide_False by naive_solver. destruct (cm_sessions m !! key') as [sid'|] eqn:Hk'.
    2:{ unfold m', teardown, get_state, mbind, stt_bind. by rewrite Hk'. }
    unfold manager_ok in Hm. destruct (so_path _ _ _ _ _ Hm _ _ Hk) as [ps Hps], (so_path _ _ _ _ _ Hm _ _ Hk') as [ps' Hps'].
    assert (sid' ≠ sid) as Hsid by (intros ->; rewrite Hps in Hps'; by injection Hps').
    apply shape_lookup in Hps' as (s' & Hs' & _). unfold m'. rewrite (Hrun key' sid' s' Hk' Hs'). case_bool_decide; [|done].
    destruct (session_held sid' s' m); cbn [with_pending_teardowns with_sessions with_heap cm_sessions cm_heap];
      by rewrite ?lookup_delete_ne.
Qed.
End torn_down.

Section results.
Context {D U H W : Type} {YD : Ydoc D U} {YL : YdocLaws D U} {HE : EqDecision H} {BL : Blake3 H} {B64 : Base64} {CW : CollabWorld W}.
Context (config : CollabConfig).
Notation "'manager'" := (CollabManager D H W).
Notation "'M' A" := (stt (CollabManager D H W) CollabError A) (at level 10).

(** The session of the file holds this document, with unsaved edits. *)
Definition file_edits (key : bytes) (sid : nat) (doc : CollabDoc D H) (m : manager) : Prop :=
  cm_sessions m !! key = Some sid ∧ holds_edits sid doc m.

(** C33. Unsaved edits survive while somebody takes part.  In every state the
    sessions can reach, when the text of the session of a file is not the one
    the session knows to be on disk, the session is marked as dirty; and it stays
    the session of the file, keeps its document, and stays dirty, whatever happens
    but an update by a client, a reload that was asked for, the end of a save, and
    its teardown: the watcher of the file, other clients joining or leaving, a
    save that starts or writes, the teardown of another file or one that finds
    somebody in the session.  A teardown that finds nobody in it discards the
    session with its unsaved edits: the file has none afterwards, and unless a
    save or reload still refers to it, it is gone. *)
Theorem unsaved_edits_survive m key sid s :
  collab_reachable config m → cm_sessions m !! key = Some sid → cm_heap m !! sid = Some s →
  blake3 (content_of (ss_doc s)) ≠ cd_disk_hash (ss_doc s) →
  ss_dirty s = true ∧
  (∀ op, (∀ conn path finished chunk, op ≠ OpUpdate conn path finished chunk) → file_edits key sid (ss_doc s) (run_op config op m).2) ∧
  (∀ sid' conn user key' path parent force expected,
     file_edits key sid (ss_doc s) (save_check config sid' conn user key' path parent force expected m).2) ∧
  (∀ sid', file_edits key sid (ss_doc s) (save_write sid' m).2) ∧
  (∀ sid', file_edits key sid (ss_doc s) (reconcile_tick config sid' m).2) ∧
  (∀ key', let m' := (teardown key' m).2 in
     if decide (key' = key ∧ ss_participants s = ∅)
     then cm_sessions m' !! key = None ∧ (session_held sid s m = false → cm_heap m' !! sid = None)
     else file_edits key sid (ss_doc s) m').
Proof.
  intros Hr Hk Hs Hne. pose proof (clean_reachable config m Hr sid s Hs) as Hclean.
  assert (ss_dirty s = true) as Hd. { destruct (ss_dirty s) eqn:E; [done|]. by destruct Hne; apply Hclean. }
  assert (holds_edits sid (ss_doc s) m) as Hm by (by exists s).
  split_and!; [done|intros op Hop|intros..].
  - split; [by apply (kept_run_op config key sid)|]. destruct op; try (by apply (maintains_other_op config (holds_edits sid (ss_doc s)))).
    + by apply holds_subscribe.
    + by destruct (Hop connection raw_path finished chunk).
  - split; [apply (kept_keeps key sid); [apply keeps_save_check|done]|]. by apply (maintains_save_check config (holds_edits sid (ss_doc s))).
  - split; [apply (kept_keeps key sid); [apply keeps_save_write|done]|]. by apply (maintains_save_write (holds_edits sid (ss_doc s))).
  - split; [apply (kept_keeps key sid); [apply keeps_reconcile_tick|done]|]. by apply holds_reconcile_tick.
  - pose proof (teardown_spec config m key sid s key' (manager_reachable_ok config m Hr) Hk Hs) as Ht.
    cbv zeta in *. destruct (decide _); [exact Ht|]. destruct Ht as [Ht1 Ht2]. split; [exact Ht1|]. by exists s.
Qed.

(** *** Saving *)

(** The files behind the file system, as far as the operations touch them *)
Class CollabDisk : Type := {
  disk : W → gmap bytes bytes;
  metadata_disk p w md w' : async_metadata p w = (md, w') → disk w' = disk w ∧
    ∀ x, md = Some x → md_is_file x = true → ∃ c, disk w !! p = Some c ∧ md_size x = zlen c;
  read_file_disk p w h w' : async_read_file p w = (h, w') → disk w' = disk w ∧ ∀ n c, h = Some (n, Some c) → disk w !! p = Some c;
  allocate_disk p n w b w' : async_allocate_in_path p n w = (b, w') → disk w' = disk w;
}.

Context {CD : CollabDisk}.

Definition disk_of (m : manager) : gmap bytes bytes := disk (cm_world m).

Lemma on_world_spec {A} (f : W → A * W) (m m' : manager) r :
  on_world f m = (r, m') → ∃ a, r = Ok a ∧ f (cm_world m) = (a, cm_world m') ∧ cm_heap m' = cm_heap m.
Proof. unfold on_world. destruct (f (cm_world m)) as [a w]. intros [= <- <-]. by exists a. Qed.

(** What is known of the file when its hash is known *)
Lemma read_disk_spec path (m m' : manager) r :
  read_disk config path m = (r, m') →
  cm_heap m' = cm_heap m ∧ disk_of m' = disk_of m ∧
  ∀ file_exists n bytes h, r = Ok (file_exists, n, bytes) → current_hash file_exists n bytes = Some h →
    ∃ c, disk_of m !! path = Some c ∧ h = blake3 c.
Proof.
  unfold read_disk. unfold mbind at 1, stt_bind at 1.
  destruct (on_world _ m) as [r1 m1] eqn:E1. apply on_world_spec in E1 as (md & -> & E1 & Hh1).
  apply metadata_disk in E1 as [Hd1 Hmd]. destruct md as [md|].
  2:{ intros [= <- <-]. split_and!; [done..|]. by intros ???? [= <- <- <-]. }
  specialize (Hmd _ eq_refl). destruct (md_is_file md); cbn [negb].
  2:{ by intros [= <- <-]. }
  destruct (Hmd eq_refl) as (c & Hc & Hsize). destruct (_ && _) eqn:Ecap.
  - unfold mbind at 1, stt_bind at 1. destruct (on_world _ m1) as [r2 m2] eqn:E2. apply on_world_spec in E2 as (hd & -> & E2 & Hh2).
    apply read_file_disk in E2 as [Hd2 Hread]. intros [= <- <-]. split_and!; [congruence|unfold disk_of; congruence|].
    intros f n b h [= <- <- <-]. unfold current_hash. cbn [negb]. apply andb_true_iff in Ecap as [Hpos _].
    destruct (Z.eqb_spec (md_size md) 0); [lia|]. destruct hd as [[k [buf|]]|]; simpl; try done.
    destruct (_ && _); [|done]. intros [= <-]. exists buf. split; [|done]. unfold disk_of. rewrite <-Hd1. exact (Hread k buf eq_refl).
  - intros [= <- <-]. split_and!; [done|done|]. intros f n b h [= <- <- <-]. unfold current_hash. cbn [negb].
    destruct (Z.eqb_spec (md_size md) 0) as [Hz|]; [|done]. intros [= <-]. exists c. split; [done|].
    destruct c; [done|]. rewrite zlen_cons in Hsize. pose proof (zlen_nonneg c). lia.
Qed.

(** Sending messages changes neither the sessions nor the world. *)
Lemma foreach_send (f : Z → M unit) l (m : manager) :
  (∀ a m, cm_heap (f a m).2 = cm_heap m ∧ cm_world (f a m).2 = cm_world m) →
  cm_heap (foreach f l m).2 = cm_heap m ∧ cm_world (foreach f l m).2 = cm_world m.
Proof.
  intros Hf. revert m. induction l as [|a l IH]; intros m; [done|]. cbn. unfold mbind, stt_bind.
  destruct (Hf a m) as [H1 H2]. destruct (f a m) as [[[]|e] m']; simpl in *; [|done]. destruct (IH m') as [-> ->]. done.
Qed.
Lemma broadcast_frame sid except msg (m : manager) :
  cm_heap (broadcast sid except msg m).2 = cm_heap m ∧ cm_world (broadcast sid except msg m).2 = cm_world m.
Proof.
  unfold broadcast, mbind, stt_bind, get_session. destruct (cm_heap m !! sid); [|done]. apply foreach_send. intros a m'. by case_bool_decide.
Qed.

(** Neither the disk nor the session has changed, but for its conflict; and
    nothing is being written. *)
Definition save_refused (m : manager) (sid : nat) (s : CollabSession D H) (m' : manager) : Prop :=
  disk_of m' = disk_of m ∧
  ∃ s', cm_heap m' !! sid = Some s' ∧ ss_doc s' = ss_doc s ∧ ss_dirty s' = ss_dirty s ∧ ss_save_lock s' = None.

Lemma refused_frame m sid s (m1 m2 : manager) :
  cm_heap m2 = cm_heap m1 → disk_of m2 = disk_of m1 → save_refused m sid s m1 → save_refused m sid s m2.
Proof. intros Hh Hd (H1 & s' & H2). split; [congruence|]. exists s'. by rewrite Hh. Qed.

Lemma refused_conflict m sid s c (m1 : manager) : save_refused m sid s m1 → save_refused m sid s (change_conflict sid c m1).2.
Proof.
  intros (Hd & s' & Hs' & Hrest). unfold change_conflict, mbind, stt_bind, get_session. rewrite Hs'.
  case_bool_decide; [by split; [|exists s']|]. split; [done|]. exists (set_conflict c s'). cbn. by rewrite lookup_alter_eq, Hs'.
Qed.

Lemma refused_broadcast_conflict m sid s c (m1 : manager) :
  save_refused m sid s m1 → save_refused m sid s (broadcast_conflict sid c m1).2.
Proof.
  intros Hm1. pose proof Hm1 as (_ & s' & Hs' & _). unfold broadcast_conflict, mbind, stt_bind. unfold get_session at 1. rewrite Hs'.
  destruct (broadcast_frame sid None (FileCollabConflict (ss_path s') c) m1) as [Hh Hw].
  revert Hm1. apply refused_frame; [done|]. unfold disk_of. by rewrite Hw.
Qed.

(** C34. A save respects the disk.  The turn that decides about a save leaves the
    disk and the document alone; and it goes on to write, with the text of
    the document, only when the file on disk is the one the session knows, or
    when the client forces it without naming a version or naming the very
    version that is on disk. *)
Theorem save_respects_disk m sid s conn user key path parent force expected :
  cm_heap m !! sid = Some s → ss_save_lock s = None →
  let m' := (save_check config sid conn user key path parent force expected m).2 in
  disk_of m' = disk_of m ∧
  ∃ s', cm_heap m' !! sid = Some s' ∧ ss_doc s' = ss_doc s ∧ ss_dirty s' = ss_dirty s ∧
    ∀ t, ss_save_lock s' = Some t →
      sv_path t = path ∧ sv_content t = content_of (ss_doc s) ∧
      ((∃ c, disk_of m !! path = Some c ∧ blake3 c = cd_disk_hash (ss_doc s)) ∨
       (force = true ∧ (expected = None ∨ ∃ c, disk_of m !! path = Some c ∧ expected = Some (to_hex (blake3 c))))).
Proof.
  intros Hs Hlock. cbn zeta.
  set (P := λ m', disk_of m' = disk_of m ∧ ∃ s', cm_heap m' !! sid = Some s' ∧ ss_doc s' = ss_doc s ∧ ss_dirty s' = ss_dirty s ∧
    ∀ t, ss_save_lock s' = Some t →
      sv_path t = path ∧ sv_content t = content_of (ss_doc s) ∧
      ((∃ c, disk_of m !! path = Some c ∧ blake3 c = cd_disk_hash (ss_doc s)) ∨
       (force = true ∧ (expected = None ∨ ∃ c, disk_of m !! path = Some c ∧ expected = Some (to_hex (blake3 c)))))).
  change (P (save_check config sid conn user key path parent force expected m).2).
  assert (∀ m2, save_refused m sid s m2 → P m2) as HP.
  { intros m2 (Hd & s' & Hs' & Hdoc & Hdirty & Hl). split; [done|]. exists s'. split_and!; try done. intros t Ht. congruence. }
  assert (save_refused m sid s m) as Hm by (split; [done|by exists s]).
  unfold save_check. unfold mbind at 1, stt_bind at 1.
  assert (lock_doc sid m = (if ss_poisoned s then Err Panic else Ok (ss_doc s), m)) as ->.
  { unfold lock_doc, mbind, stt_bind, get_session. rewrite Hs. by destruct (ss_poisoned s). }
  destruct (ss_poisoned s); [by apply HP|]. unfold mbind at 1, stt_bind at 1.
  destruct (read_disk config path m) as [r1 m1] eqn:E1. apply read_disk_spec in E1 as (Hh1 & Hd1 & Hhash).
  assert (save_refused m sid s m1) as Hm1 by (by apply (refused_frame _ _ _ m)).
  destruct r1 as [[[file_exists n] old]|e]; [|by apply HP]. assert (Hhash' := λ h, Hhash file_exists n old h eq_refl). clear Hhash.
  destruct (_ && _) eqn:Ec.
  - unfold mbind at 1, stt_bind at 1. pose proof (refused_conflict m sid s (Some (mk_ConflictState (current_hash file_exists n old) (negb file_exists))) m1 Hm1) as Hm2.
    destruct (change_conflict _ _ m1) as [[b|e] m2]; [|by apply HP]. by apply HP, refused_broadcast_conflict.
  - unfold mbind at 1, stt_bind at 1. destruct (on_world _ m1) as [r2 m2] eqn:E2.
    apply on_world_spec in E2 as (b & -> & E2 & Hh2). apply allocate_disk in E2.
    assert (save_refused m sid s m2) as Hm2 by (by apply (refused_frame _ _ _ m1)).
    destruct b; [|by apply HP]. cbn [negb]. destruct Hm2 as (Hd & s' & Hs' & Hdoc & Hdirty & _). split; [done|].
    unfold update_session, modify, with_heap. cbn. rewrite lookup_alter_eq, Hs'. simpl. eexists. split; [done|]. cbn.
    split_and!; [done..|]. intros t [= <-]. cbn. split_and!; [done..|].
    apply andb_false_iff in Ec as [Ec%negb_false_iff%bool_decide_eq_true|Ec%negb_false_iff].
    + left. destruct (Hhash' _ Ec) as (c & Hc & Heq). by exists c.
    + right. apply andb_true_iff in Ec as [Hf He]. split; [done|]. destruct expected as [hex|]; [|by left]. right.
      destruct (current_hash file_exists n old) as [h|]; [|done]. destruct (Hhash' _ eq_refl) as (c & Hc & ->).
      exists c. split; [done|]. by apply String.eqb_eq in He as ->.
Qed.

(** The end of a save: the session knows the text that was written, and is
    dirty exactly when it was edited since. *)
Theorem save_finish_tracks_disk m sid s t :
  cm_heap m !! sid = Some s → ss_save_lock s = Some t → ss_poisoned s = false →
  ∃ s', cm_heap (save_finish config sid m).2 !! sid = Some s' ∧
    content_of (ss_doc s') = content_of (ss_doc s) ∧ cd_disk_hash (ss_doc s') = blake3 (sv_content t) ∧
    ss_dirty s' = negb (bool_decide (content_of (ss_doc s) = sv_content t)) ∧ ss_conflict s' = None ∧ ss_save_lock s' = None.
Proof.
  intros Hs Ht Hp. unfold save_finish.
  assert (get_session sid m = (Ok s, m)) as Hg by (unfold get_session; by rewrite Hs).
  rewrite (stt_bind_ok _ _ _ _ _ Hg), Ht. unfold mbind at 1, stt_bind at 1. unfold update_session at 1, modify at 1. cbv beta iota.
  set (m1 := with_heap _ m). assert (cm_heap m1 !! sid = Some (set_save_lock None s)) as H1 by (unfold m1; cbn; by rewrite lookup_alter_eq, Hs).
  clearbody m1. match goal with |- context [mbind ?f ?x m1] => set (rev := x) end.
  assert (∃ r m2, rev m1 = (Ok r, m2) ∧ cm_heap m2 = cm_heap m1) as (r & m2 & Er & Hh2).
  { subst rev. destruct (_ && _); [|by exists None, m1]. unfold mbind, stt_bind.
    destruct (on_world _ m1) as [r2 m2] eqn:E2. apply on_world_spec in E2 as (b & -> & E2 & Hh2). by eexists _, m2. }
  rewrite (stt_bind_ok _ _ _ _ _ Er). rewrite <-Hh2 in H1. clear dependent m1.
  assert (lock_doc sid m2 = (Ok (ss_doc s), m2)) as Hl.
  { unfold lock_doc, mbind, stt_bind, get_session. rewrite H1. cbn. by rewrite Hp. }
  rewrite (stt_bind_ok _ _ _ _ _ Hl). unfold mbind at 1 2, stt_bind at 1 2. unfold update_session, modify. cbv beta iota.
  set (m3 := with_heap _ (with_heap _ m2)).
  set (s3 := set_dirty (negb (bool_decide (content_of (ss_doc s) = sv_content t)))
    (set_doc (mk_CollabDoc (cd_doc (ss_doc s)) (cd_applied_update_bytes (ss_doc s)) (blake3 (sv_content t))) (set_save_lock None s))).
  assert (cm_heap m3 !! sid = Some s3) as H3 by (unfold m3; cbn; by rewrite !lookup_alter_eq, H1). clearbody m3.
  assert (∃ s4 b m4, change_conflict sid None m3 = (Ok b, m4) ∧ cm_heap m4 !! sid = Some s4 ∧ ss_doc s4 = ss_doc s3 ∧
    ss_dirty s4 = ss_dirty s3 ∧ ss_conflict s4 = None ∧ ss_save_lock s4 = None) as (s4 & b & m4 & E4 & H4 & Hd4 & Hdirty4 & Hc4 & Hl4).
  { unfold change_conflict, mbind, stt_bind, get_session. rewrite H3. case_bool_decide as Hc; [by exists s3, false, m3|].
    exists (set_conflict None s3), true. eexists. split; [done|]. cbn. by rewrite lookup_alter_eq, H3. }
  rewrite (stt_bind_ok _ _ _ _ _ E4). unfold mbind at 1, stt_bind at 1. unfold on_world. cbv beta iota.
  match goal with |- context [broadcast sid None ?msg ?m5] => destruct (broadcast_frame sid None msg m5) as [-> _] end.
  exists s4. cbn. rewrite Hd4, Hdirty4, Hc4, Hl4. by split_and!.
Qed.
End results.

Section chunks.
Context {D U H W : Type} {YD : Ydoc D U} {YL : YdocLaws D U} {HE : EqDecision H} {BL : Blake3 H} {B64 : Base64} {CW : CollabWorld W}.
Context (config : CollabConfig).
Notation "'manager'" := (CollabManager D H W).
Notation "'M' A" := (stt (CollabManager D H W) CollabError A) (at level 10).

(** An update in chunks, the last one finished *)
Fixpoint collect_chunks (connection : Z) (key : bytes) (chunks : list bytes) : M (option bytes) :=
  match chunks with
  | [] => mret None
  | [chunk] => collect_chunk config connection key true chunk
  | chunk :: chunks => _ ← collect_chunk config connection key false chunk; collect_chunks connection key chunks
  end.

Lemma collect_rest conn key chunks buffer (m : manager) :
  cm_pending_updates m !! (conn, key) = Some buffer → chunks ≠ [] → zlen buffer + zlen (concat chunks) <= cc_file_size_cap config →
  collect_chunks conn key chunks m = (Ok (Some (buffer ++ concat chunks)), with_pending_updates (delete (conn, key)) m).
Proof.
  revert buffer m. induction chunks as [|c chunks IH]; intros buffer m Hp Hne Hlen; [done|]. cbn [concat] in Hlen. rewrite zlen_app in Hlen.
  pose proof (zlen_nonneg (concat chunks)). destruct chunks as [|c' chunks].
  - cbn [collect_chunks]. unfold collect_chunk, get_state, mbind, stt_bind. rewrite Hp.
    destruct (Z.ltb_spec (cc_file_size_cap config) (zlen buffer + zlen c)); [lia|]. simpl. by rewrite app_nil_r.
  - change (collect_chunks conn key (c :: c' :: chunks)) with
      (_ ← collect_chunk config conn key false c; collect_chunks conn key (c' :: chunks) : M _).
    assert (collect_chunk config conn key false c m =
      (Ok None, with_pending_updates <[(conn, key) := buffer ++ c]> m)) as E.
    { unfold collect_chunk, get_state, mbind, stt_bind. rewrite Hp.
      destruct (Z.ltb_spec (cc_file_size_cap config) (zlen buffer + zlen c)); [lia|]. done. }
    rewrite (stt_bind_ok _ _ _ _ _ E), (IH (buffer ++ c)).
    + cbn [concat]. rewrite <-app_assoc. f_equal. unfold with_pending_updates. cbn. by rewrite delete_insert_eq.
    + cbn. by rewrite lookup_insert_eq.
    + done.
    + rewrite zlen_app. lia.
Qed.

(** An update sent in chunks, up to the size limit, is put together to the
    bytes that were cut, and leaves no buffer behind. *)
Theorem chunked_update conn key chunks (m : manager) :
  cm_pending_updates m !! (conn, key) = None → chunks ≠ [] → zlen (concat chunks) <= cc_file_size_cap config →
  collect_chunks conn key chunks m = (Ok (Some (concat chunks)), m).
Proof.
  intros Hp Hne Hlen. destruct chunks as [|c chunks]; [done|]. cbn [concat] in *. rewrite zlen_app in Hlen.
  pose proof (zlen_nonneg (concat chunks)). destruct chunks as [|c' chunks].
  - cbn [collect_chunks]. unfold collect_chunk, get_state, mbind, stt_bind. rewrite Hp.
    destruct (Z.ltb_spec (cc_file_size_cap config) (zlen c)); [lia|]. simpl. by rewrite app_nil_r.
  - change (collect_chunks conn key (c :: c' :: chunks)) with
      (_ ← collect_chunk config conn key false c; collect_chunks conn key (c' :: chunks) : M _).
    assert (collect_chunk config conn key false c m = (Ok None, with_pending_updates <[(conn, key) := c]> m)) as E.
    { unfold collect_chunk, get_state, mbind, stt_bind. rewrite Hp.
      destruct (Z.ltb_spec (cc_file_size_cap config) (zlen c)); [lia|]. done. }
    rewrite (stt_bind_ok _ _ _ _ _ E), (collect_rest _ _ _ c).
    + f_equal. unfold with_pending_updates. cbn. rewrite delete_insert_id by done. by destruct m.
    + cbn. by rewrite lookup_insert_eq.
    + done.
    + cbn [concat] in *. lia.
Qed.

(** *** What goes wrong *)

(** When the document is rebuilt, because it grew too large or took too many
    updates, it takes its own text for the one on disk: the session is dirty,
    but the next tick of the reconciler finds that it "converged" and marks
    it as clean, with nothing saved. *)
Theorem rebuilt_document_passes_for_saved sid update decoded (m m' : manager) :
  update_doc config sid update decoded m = (Ok true, m') →
  ∃ s, cm_heap m' !! sid = Some s ∧ ss_dirty s = true ∧ blake3 (content_of (ss_doc s)) = cd_disk_hash (ss_doc s) ∧
    ∃ s', cm_heap (heal_dirty sid m').2 !! sid = Some s' ∧ ss_dirty s' = false.
Proof.
  assert (∀ s content m0, cm_heap m0 !! sid = Some s → ss_poisoned s = false → ss_dirty s = true →
    m' = with_heap (alter (set_doc (CollabDoc_new content)) sid) m0 →
    ∃ s, cm_heap m' !! sid = Some s ∧ ss_dirty s = true ∧ blake3 (content_of (ss_doc s)) = cd_disk_hash (ss_doc s) ∧
      ∃ s', cm_heap (heal_dirty sid m').2 !! sid = Some s' ∧ ss_dirty s' = false) as Hnew.
  { intros s content m0 Hs Hp Hd ->. set (s1 := set_doc (CollabDoc_new content) s). set (m1 := with_heap _ m0).
    assert (cm_heap m1 !! sid = Some s1) as H1 by (unfold m1; cbn; by rewrite lookup_alter_eq, Hs).
    exists s1. split_and!; [done|done|apply clean_new|]. exists (set_dirty false s1). split; [|done].
    assert (get_session sid m1 = (Ok s1, m1)) as Eg by (unfold get_session; by rewrite H1).
    assert (lock_doc sid m1 = (Ok (ss_doc s1), m1)) as El.
    { unfold lock_doc. rewrite (stt_bind_ok _ _ _ _ _ Eg). change (ss_poisoned s1) with (ss_poisoned s). by rewrite Hp. }
    unfold heal_dirty. rewrite (stt_bind_ok _ _ _ _ _ Eg). change (ss_dirty s1) with (ss_dirty s). rewrite Hd.
    rewrite (stt_bind_ok _ _ _ _ _ El), bool_decide_eq_true_2 by (apply clean_new).
    unfold update_session, modify. cbn [snd]. change (cm_heap (with_heap ?f m1)) with (f (cm_heap m1)). cbn [cm_heap with_heap]. by rewrite lookup_alter_eq, H1. }
  unfold update_doc. intros E. apply stt_bind_inv in E as (guard & m0 & El & E).
  assert (∃ s, cm_heap m !! sid = Some s ∧ ss_poisoned s = false ∧ m0 = m) as (s & Hs & Hp & ->).
  { unfold lock_doc, mbind, stt_bind, get_session in El. destruct (cm_heap m !! sid) as [s|]; [|done]. destruct (ss_poisoned s) eqn:Ep; [done|].
    injection El as _ <-. by exists s. }
  destruct (yrs_apply decoded (cd_doc guard)) as [d|]; [|done].
  unfold mbind at 1 2, stt_bind at 1 2 in E. unfold update_session at 1 2, modify at 1 2 in E. cbv beta iota in E.
  set (m1 := with_heap _ (with_heap _ m)) in E.
  set (s1 := set_dirty true (set_doc (mk_CollabDoc d (cd_applied_update_bytes guard) (cd_disk_hash guard)) s)).
  assert (cm_heap m1 !! sid = Some s1) as H1 by (unfold m1; cbn; by rewrite !lookup_alter_eq, Hs). clearbody m1.
  destruct (_ <? _).
  - destruct (string_truncate _ _) as [content|].
    + injection E as <-. by apply (Hnew s1 content m1).
    + done.
  - unfold mbind at 1, stt_bind at 1 in E. unfold update_session at 1, modify at 1 in E. cbv beta iota in E.
    set (m2 := with_heap _ m1) in E. destruct (_ <? _); [|done]. injection E as <-.
    set (s2 := set_doc (mk_CollabDoc d (cd_applied_update_bytes guard +u zlen update) (cd_disk_hash guard)) s1).
    apply (Hnew s2 (content_of (mk_CollabDoc d (cd_applied_update_bytes guard) (cd_disk_hash guard))) m2); try done.
    unfold m2. cbn. by rewrite lookup_alter_eq, H1.
Qed.

(** A document that outgrows the limit in the middle of a character makes the
    server panic with the lock of the document held: from then on everything
    that needs the document of the session panics too. *)
Theorem overflow_poisons_session sid update decoded (m : manager) s d :
  cm_heap m !! sid = Some s → ss_poisoned s = false → yrs_apply decoded (cd_doc (ss_doc s)) = Some d →
  cc_file_size_cap config < text_len d → cc_file_size_cap config < zlen (get_string d) →
  is_char_boundary (get_string d) (cc_file_size_cap config) = false →
  let m' := (update_doc config sid update decoded m).2 in
  (update_doc config sid update decoded m).1 = Err Panic ∧ (lock_doc sid m').1 = Err Panic.
Proof.
  intros Hs Hp Hd Hlen Hcap Hb. unfold update_doc.
  assert (lock_doc sid m = (Ok (ss_doc s), m)) as El.
  { unfold lock_doc, mbind, stt_bind, get_session. by rewrite Hs, Hp. }
  rewrite (stt_bind_ok _ _ _ _ _ El), Hd. unfold mbind at 1 2 4 5, stt_bind at 1 2 4 5. unfold update_session, modify. cbv beta iota.
  rewrite (proj2 (Z.ltb_lt _ _) Hlen). unfold content_of. cbn [cd_doc]. unfold string_truncate. rewrite (proj2 (Z.leb_le _ _)) by lia. rewrite Hb.
  cbv zeta. unfold mbind, stt_bind, throw. split; [done|]. unfold lock_doc, mbind, stt_bind, get_session. cbn.
  by rewrite !lookup_alter_eq, Hs.
Qed.
End chunks.

(** ** An example *)

(** A text that updates append to, hashes that are the contents themselves,
    and a file system that is a map from paths to contents. *)
Module CollabExample.
#[export] Instance ydoc : Ydoc bytes bytes := {|
  doc_new := id; get_string := id; text_len := zlen; encode_full_state := id; decode_v1 := Some; yrs_apply u d := Some (d ++ u) |}.
#[export] Instance ydoc_laws : YdocLaws bytes bytes.
Proof. done. Qed.
Definition chars (b : bytes) : string := String.string_of_list_ascii (map (λ z, Ascii.ascii_of_N (Z.to_N z)) b).
Definition codes (s : string) : bytes := map (λ a, Z.of_N (Ascii.N_of_ascii a)) (String.list_ascii_of_string s).
#[export] Instance hash : Blake3 bytes := {| blake3 := id; to_hex := chars |}.
#[export] Instance base64 : Base64 := {| base64_decode s := Some (codes s); base64_encode := chars |}.
Definition files : Type := gmap bytes bytes.
#[export] Instance world : CollabWorld files := {|
  resolve_writable_fs p w := ((p, true), w);
  is_ignored _ _ := false;
  async_canonicalize p w := (None, w);
  relative_path p := p;
  async_metadata p w := ((λ c, mk_FileMetadata true (zlen c) None) <$> w !! p, w);
  async_read_file p w := ((λ c, (zlen c, Some c)) <$> w !! p, w);
  async_allocate_in_path _ _ w := (true, w);
  async_write_file p c w := (Ok tt, <[p := c]> w);
  record_edit _ _ _ _ w := (None, w);
  log_file_write _ _ _ w := w;
|}.
#[export] Instance files_disk : CollabDisk (W := files).
Proof.
  refine {| disk := (id : files → gmap bytes bytes) |}.
  - intros p w md w' [= <- <-]. split; [done|]. intros x Hx _. simpl in Hx. change (id w !! p) with (w !! p). destruct (w !! p) as [c|]; [|done].
    injection Hx as <-. by exists c.
  - intros p w h w' [= <- <-]. split; [done|]. intros n c Hx. change (id w !! p) with (w !! p). destruct (w !! p) as [c'|]; [|done]. by injection Hx as _ <-.
  - by intros p n w b w' [= _ <-].
Defined.

Definition limits : CollabConfig := mk_CollabConfig true 8 2 2 false 8.
Definition example_manager : Type := CollabManager bytes bytes files.
Definition path : bytes := codes "/d/f".
Definition start : example_manager := CollabManager_new {[path := codes "abc"]}.
Definition ops : list CollabOp := [OpSubscribe 1 7 "ann" None path; OpSubscribe 2 8 "bob" None path; OpUpdate 1 path true "de"].
Definition run (ops : list CollabOp) (m : example_manager) : example_manager := fold_left (λ m op, (run_op limits op m).2) ops m.
Definition edited : example_manager := run ops start.
Lemma run_reachable ops m : collab_reachable limits m → collab_reachable limits (run ops m).
Proof.
  unfold run. revert m. induction ops as [|op ops IH]; intros m Hm; [done|]. cbn [fold_left]. apply IH. eapply reach_next; [done|constructor].
Qed.
Lemma start_reachable : collab_reachable limits start.
Proof. constructor. Qed.

(** The last one leaves, the file is deleted, and somebody tries to open it
    before the session is torn down: the session is never torn down. *)
Definition left_alone : example_manager := run [OpSubscribe 1 7 "ann" None path; OpDisconnect 1] start.
Definition deleted : example_manager :=
  mk_CollabManager (cm_heap left_alone) (cm_sessions left_alone) (cm_connections left_alone) (cm_pending_updates left_alone)
    (cm_pending_teardowns left_alone) (cm_waiting left_alone) (cm_sent left_alone) ∅.
Definition refused : example_manager := run [OpSubscribe 2 8 "bob" None path] deleted.

(** Too much text, and one tick of the reconciler *)
Definition overflown : example_manager := run [OpSubscribe 1 7 "ann" None path; OpUpdate 1 path true "defghijk"] start.
End CollabExample.
Import CollabExample.

Lemma collab_sessions_consistent_witness :
  collab_reachable limits edited ∧ manager_ok limits edited.
Proof.
  split; [apply run_reachable, start_reachable|].
  apply (collab_sessions_consistent limits edited). apply run_reachable, start_reachable.
Defined.

Lemma unsaved_edits_survive_witness :
  ∃ s, cm_heap edited !! 0%nat = Some s ∧ content_of (ss_doc s) = codes "abcde" ∧ ss_dirty s = true ∧
    file_edits path 0 (ss_doc s) (reconcile_tick limits 0 edited).2 ∧ file_edits path 0 (ss_doc s) (teardown path edited).2.
Proof.
  eexists. split; [reflexivity|]. split; [reflexivity|].
  pose proof (unsaved_edits_survive limits edited path 0 _
    (run_reachable _ _ start_reachable) eq_refl eq_refl) as Hsurvive.
  destruct Hsurvive as (Hd & _ & _ & _ & Hr & Ht); [by vm_compute|]. split; [exact Hd|]. split; [exact (Hr 0%nat)|exact (Ht path)].
Defined.

(** The clients leave without saving, and their edits go with the session. *)
Example teardown_discards_edits :
  let left := run [OpDisconnect 1; OpDisconnect 2] edited in
  ss_dirty <$> cm_heap left !! 0%nat = Some true ∧ path ∈ cm_pending_teardowns left ∧ cm_heap (teardown path left).2 !! 0%nat = None.
Proof. split; [by vm_compute|]. split; [by apply (bool_decide_unpack _); vm_compute|by vm_compute]. Qed.

(** With a limit of no subscription a connection gets one. *)
Example first_subscription_is_unchecked :
  let none := mk_CollabConfig true 10 5 0 false 10 in
  size (default ∅ (cm_connections (run_op none (OpSubscribe 1 7 "ann" None path) start).2 !! 1)) = 1%nat.
Proof. vm_compute. reflexivity. Qed.

Lemma save_respects_disk_witness :
  ∃ s, cm_heap edited !! 0%nat = Some s ∧ ss_save_lock s = None ∧
    disk_of (save_check limits 0 1 7 path path path false None edited).2
      = disk_of edited.
Proof.
  eexists. split; [reflexivity|]. split; [reflexivity|].
  apply (save_respects_disk limits edited 0 _ 1 7 path path path false None
    eq_refl eq_refl).
Defined.

Lemma chunked_update_witness :
  collect_chunks limits 1 path [[100]; [101; 102]; [103]] edited =
  (Ok (Some [100; 101; 102; 103]), edited).
Proof.
  apply (chunked_update limits 1 path [[100]; [101; 102]; [103]] edited).
  - reflexivity.
  - discriminate.
  - vm_compute. discriminate.
Defined.

(** A save goes through: the text is on disk and the session is clean. *)
Example collab_saves :
  let m := run [OpSave 1 7 path false None] edited in
  let m := (save_check limits 0 1 7 path path path false None (with_waiting (λ _, []) m)).2 in
  let m := (save_finish limits 0 (save_write 0 m).2).2 in
  cm_world m !! path = Some (codes "abcde") ∧ ss_dirty <$> cm_heap m !! 0%nat = Some false.
Proof. split; vm_compute; reflexivity. Qed.

(** A subscription that fails keeps a session open that nobody uses. *)
Example failed_subscribe_keeps_session :
  collab_reachable limits refused ∧
  path ∈ cm_pending_teardowns deleted ∧
  cm_sessions refused !! path = Some 0%nat ∧
  ss_participants <$> cm_heap refused !! 0%nat = Some ∅ ∧ cm_pending_teardowns refused = ∅.
Proof.
  split.
  { apply run_reachable. eapply reach_next; [|apply step_world]. apply run_reachable, start_reachable. }
  split; [apply (bool_decide_unpack _); vm_compute; exact I|]. split; [reflexivity|]. split; reflexivity.
Qed.

(** What was typed beyond the limit takes everything unsaved with it. *)
Example overflow_loses_edits :
  (λ s, content_of (ss_doc s)) <$> cm_heap overflown !! 0%nat = Some (codes "abcdefgh") ∧
  (λ s, content_of (ss_doc s)) <$> cm_heap (reconcile_tick limits 0 overflown).2 !! 0%nat = Some (codes "abc").
Proof. split; vm_compute; reflexivity. Qed.
