(* ===== verification/Tokens.v ===== *)
(** * Tokens: the tokens clients show (application/src/remote/jwt.rs)

    When a token is valid, how tokens are denied, and how often one can be
    used.  The signature is checked by the crate jsonwebtoken.  Times are
    nanoseconds; claims are seconds.  The counters of uses are shared by
    threads; each look at them, under the lock for reading or for writing, is
    one step. *)
From Stdlib Require Import Ascii String.
From S2P Require Import Prelude Text.
Local Open Scope string_scope.
Local Open Scope list_scope.
Local Open Scope Z_scope.

Module JwtValidateError.
Inductive JwtValidateError : Type := Expired | NotYetValid | InvalidIssuedAt | Denied.
End JwtValidateError.

(** The claims that are looked at. *)
Record BasePayload : Type := mk_BasePayload {
  jp_scope : text;
  jp_expiration_time : option Z;
  jp_not_before : option Z;
  jp_issued_at : option Z;
  jp_jwt_id : text;
}.

Record JwtClient : Type := mk_JwtClient {
  jc_boot_time : Z;
  jc_max_jwt_uses : Z;
  jc_denied : gmap text Z;
  jc_seen : gmap text (Z * Z);
}.
Definition set_denied (d : gmap text Z) (c : JwtClient) : JwtClient := mk_JwtClient (jc_boot_time c) (jc_max_jwt_uses c) d (jc_seen c).
Definition set_seen (s : gmap text (Z * Z)) (c : JwtClient) : JwtClient := mk_JwtClient (jc_boot_time c) (jc_max_jwt_uses c) (jc_denied c) s.

Definition NANOS : Z := 1000000000.
Definition HOUR : Z := 3600 * NANOS.
(** [DateTime::timestamp] *)
Definition timestamp (t : Z) : Z := t / NANOS.

Definition validate (payload : BasePayload) (client : JwtClient) (scope : option text) (now : Z) : result JwtValidateError.JwtValidateError unit :=
  let now := timestamp now in
  match jp_expiration_time payload with
  | None => Err JwtValidateError.Expired
  | Some exp =>
      if exp <? now then Err JwtValidateError.Expired
      else if match jp_not_before payload with Some nbf => now <? nbf | None => false end then Err JwtValidateError.NotYetValid
      else
        match jp_issued_at payload with
        | None => Err JwtValidateError.InvalidIssuedAt
        | Some iat =>
            if (now <? as_i64 (iat - 5)) || (iat <? timestamp (jc_boot_time client)) then Err JwtValidateError.InvalidIssuedAt
            else if match jc_denied client !! jp_jwt_id payload with Some expired_until => iat <=? timestamp expired_until | None => false end
            then Err JwtValidateError.Denied
            else if match scope with
                    | Some scope => forallb (λ s, negb (bool_decide (trim s = scope))) (split_char 44 (jp_scope payload))
                    | None => false
                    end
            then Err JwtValidateError.Denied
            else Ok tt
        end
  end.

Definition deny (id : text) (now : Z) (client : JwtClient) : JwtClient := set_denied (<[id := now]> (jc_denied client)) client.

(** A turn of the task that forgets *)
Definition forget (now : Z) (client : JwtClient) : JwtClient :=
  set_seen (filter (λ e, now - HOUR < e.2.2) (jc_seen client))
    (set_denied (filter (λ e, now - HOUR < e.2) (jc_denied client)) client).

(** ** The uses of a token *)

Definition claim_use (count max : Z) : option Z := if count <? max then Some (count + 1) else None.

(** Under the lock for reading: [None] when the token was not seen *)
Definition claim_read (id : text) (client : JwtClient) : option bool * JwtClient :=
  match jc_seen client !! id with
  | Some (count, since) =>
      match claim_use count (jc_max_jwt_uses client) with
      | Some count => (Some true, set_seen (<[id := (count, since)]> (jc_seen client)) client)
      | None => (Some false, client)
      end
  | None => (None, client)
  end.
(** Under the lock for writing *)
Definition claim_write (id : text) (now : Z) (client : JwtClient) : bool * JwtClient :=
  match jc_seen client !! id with
  | Some (count, since) =>
      match claim_use count (jc_max_jwt_uses client) with
      | Some count => (true, set_seen (<[id := (count, since)]> (jc_seen client)) client)
      | None => (false, client)
      end
  | None => (true, set_seen (<[id := (1, now)]> (jc_seen client)) client)
  end.

(** Threads in [limited_jwt_id]: a call for a token that is about to look, one
    that has not found it, and one that has its answer *)
Inductive Claim : Type :=
  | Looking (id : text)
  | Missing (id : text)
  | Answered (id : text) (granted : bool).

Inductive claims_step (client : JwtClient) (threads : list Claim) : JwtClient → list Claim → Prop :=
  | step_call id : claims_step client threads client (threads ++ [Looking id])
  | step_unlimited l1 l2 id :
      threads = l1 ++ Looking id :: l2 → jc_max_jwt_uses client = 0 → claims_step client threads client (l1 ++ Answered id true :: l2)
  | step_read l1 l2 id :
      threads = l1 ++ Looking id :: l2 → jc_max_jwt_uses client ≠ 0 →
      claims_step client threads (claim_read id client).2
        (l1 ++ match (claim_read id client).1 with Some granted => Answered id granted | None => Missing id end :: l2)
  | step_write l1 l2 id now :
      threads = l1 ++ Missing id :: l2 →
      claims_step client threads (claim_write id now client).2 (l1 ++ Answered id (claim_write id now client).1 :: l2).

Inductive claims_reachable (client0 : JwtClient) : JwtClient → list Claim → Prop :=
  | claims_start : claims_reachable client0 client0 []
  | claims_next client threads client' threads' :
      claims_reachable client0 client threads → claims_step client threads client' threads' → claims_reachable client0 client' threads'.

Definition is_granted (id : text) (c : Claim) : bool := match c with Answered id' granted => granted && bool_decide (id' = id) | _ => false end.
Definition granted (id : text) (threads : list Claim) : Z := zlen (List.filter (is_granted id) threads).

(** ** Laws *)

Definition uses (id : text) (client : JwtClient) : Z := match jc_seen client !! id with Some (count, _) => count | None => 0 end.
Definition uses_ok (max : Z) (client : JwtClient) (threads : list Claim) : Prop :=
  jc_max_jwt_uses client = max ∧ ∀ id, granted id threads = uses id client ∧ uses id client <= max.

Lemma granted_app id l1 l2 : granted id (l1 ++ l2) = granted id l1 + granted id l2.
Proof. unfold granted. by rewrite List.filter_app, zlen_app. Qed.
Lemma granted_one id c l : granted id (c :: l) = (if is_granted id c then 1 else 0) + granted id l.
Proof. unfold granted. cbn. destruct (is_granted id c); [by rewrite zlen_cons|done]. Qed.

Lemma uses_insert id id' count since client :
  uses id' (set_seen (<[id := (count, since)]> (jc_seen client)) client) = if bool_decide (id = id') then count else uses id' client.
Proof.
  unfold uses. cbn. case_bool_decide as Heq; [subst; by rewrite lookup_insert_eq|]. by rewrite lookup_insert_ne.
Qed.

(** Replacing a thread that had no grant by one that got an answer *)
Lemma uses_ok_grant max client l1 l2 c id count since :
  (∀ id, is_granted id c = false) → uses_ok max client (l1 ++ c :: l2) → count = uses id client + 1 → count <= max →
  uses_ok max (set_seen (<[id := (count, since)]> (jc_seen client)) client) (l1 ++ Answered id true :: l2).
Proof.
  intros Hc [Hmax Hok] -> Hle. split; [done|]. intros id'. destruct (Hok id') as [Hg Hu]. rewrite uses_insert.
  rewrite granted_app, granted_one, Hc in Hg. rewrite granted_app, granted_one. cbn. case_bool_decide as Heq; [subst; lia|lia].
Qed.
Lemma uses_ok_same max client l1 l2 c c' :
  (∀ id, is_granted id c = false) → (∀ id, is_granted id c' = false) → uses_ok max client (l1 ++ c :: l2) → uses_ok max client (l1 ++ c' :: l2).
Proof.
  intros Hc Hc' [Hmax Hok]. split; [done|]. intros id. destruct (Hok id) as [Hg Hu]. split; [|done].
  rewrite granted_app, granted_one, Hc in Hg. by rewrite granted_app, granted_one, Hc'.
Qed.

Lemma uses_ok_step max client threads client' threads' :
  0 < max → claims_step client threads client' threads' → uses_ok max client threads → uses_ok max client' threads'.
Proof.
  intros Hmax Hstep Hok. pose proof Hok as [Hm _]. destruct Hstep as [id|l1 l2 id -> Hz|l1 l2 id -> Hz|l1 l2 id now ->].
  - destruct Hok as [? Hok]. split; [done|]. intros id'. rewrite granted_app, granted_one. specialize (Hok id'). cbn [is_granted]. change (granted id' []) with 0. rewrite !Z.add_0_r. exact Hok.
  - lia.
  - unfold claim_read, claim_use. destruct (jc_seen client !! id) as [[count since]|] eqn:Es; [|by apply (uses_ok_same _ _ _ _ (Looking id))].
    destruct (Z.ltb_spec count (jc_max_jwt_uses client)); cbn; [|by apply (uses_ok_same _ _ _ _ (Looking id))].
    apply (uses_ok_grant _ _ _ _ (Looking id)); [done|done|unfold uses; by rewrite Es|lia].
  - unfold claim_write, claim_use. destruct (jc_seen client !! id) as [[count since]|] eqn:Es.
    + destruct (Z.ltb_spec count (jc_max_jwt_uses client)); cbn; [|by apply (uses_ok_same _ _ _ _ (Missing id))].
      apply (uses_ok_grant _ _ _ _ (Missing id)); [done|done|unfold uses; by rewrite Es|lia].
    + cbn. apply (uses_ok_grant _ _ _ _ (Missing id)); [done|done|unfold uses; by rewrite Es|lia].
Qed.

(** A token is used no more often than allowed.  However many threads ask
    for however many tokens at the same time, the calls of [limited_jwt_id] that
    are granted for a token are those the counter has, and no more than
    [max_jwt_uses], as long as nothing is forgotten. *)
Theorem jwt_uses_bounded client0 client threads id :
  0 < jc_max_jwt_uses client0 → jc_seen client0 = ∅ → claims_reachable client0 client threads →
  granted id threads = uses id client ∧ granted id threads <= jc_max_jwt_uses client0.
Proof.
  intros Hmax Hseen Hr. assert (uses_ok (jc_max_jwt_uses client0) client threads) as [_ Hok].
  { induction Hr as [|client threads client' threads' _ IH Hstep].
    - split; [done|]. intros id'. unfold uses. rewrite Hseen, lookup_empty. cbn. split; [done|lia].
    - by eapply uses_ok_step. }
  destruct (Hok id) as [-> Hu]. done.
Qed.

(** What a valid token is *)
Lemma validate_ok payload client scope now : validate payload client (Some scope) now = Ok tt →
  ∃ exp iat, jp_expiration_time payload = Some exp ∧ timestamp now <= exp ∧ jp_issued_at payload = Some iat ∧
    timestamp (jc_boot_time client) <= iat ∧ (∀ denied, jc_denied client !! jp_jwt_id payload = Some denied → timestamp denied < iat) ∧
    ∃ s, s ∈ split_char 44 (jp_scope payload) ∧ trim s = scope.
Proof.
  unfold validate. destruct (jp_expiration_time payload) as [exp|]; [|done]. destruct (Z.ltb_spec exp (timestamp now)); [done|].
  destruct (match jp_not_before payload with Some _ => _ | None => _ end); [done|]. destruct (jp_issued_at payload) as [iat|]; [|done].
  destruct (_ || _) eqn:Hiat; [done|]. apply orb_false_iff in Hiat as [_ Hboot%Z.ltb_ge].
  destruct (match jc_denied client !! jp_jwt_id payload with Some _ => _ | None => _ end) eqn:Hden; [done|].
  destruct (forallb _ _) eqn:Hscope; [done|]. intros _. exists exp, iat. split_and!; try done.
  - intros denied Hu. rewrite Hu in Hden. by apply Z.leb_gt in Hden.
  - assert (¬ Forall (λ s, trim s ≠ scope) (split_char 44 (jp_scope payload))) as Hn.
    { intros Hall. rewrite (proj2 (forallb_forall _ _)) in Hscope; [done|]. intros s Hs%list_elem_of_In. rewrite list.Forall_forall in Hall.
      by rewrite bool_decide_eq_false_2 by (by apply Hall). }
    apply not_Forall_Exists in Hn; [|apply _]. apply list.Exists_exists in Hn as (s & Hs & Ht). exists s. split; [done|]. by apply dec_stable.
Qed.

(** A token that is denied is refused for an hour at least: until it can be
    forgotten. *)
Lemma denied_token_refused payload client scope now iat :
  jp_issued_at payload = Some iat → iat <= timestamp now →
  validate payload (deny (jp_jwt_id payload) now client) (Some scope) now ≠ Ok tt.
Proof.
  intros Hi Hle (exp & iat' & _ & _ & Hi' & _ & Hd & _)%validate_ok. rewrite Hi in Hi'. injection Hi' as <-.
  unfold deny, set_denied in Hd. cbn in Hd. specialize (Hd now). rewrite lookup_insert_eq in Hd. specialize (Hd eq_refl). lia.
Qed.

(** ** Examples *)

Module TokenExample.
Definition client : JwtClient := mk_JwtClient 0 2 ∅ ∅.
Definition token : BasePayload := mk_BasePayload (chars "file-download, websocket") (Some 20000) None (Some 100) (chars "a").
Definition at_ (seconds : Z) : Z := seconds * NANOS.
End TokenExample.
Import TokenExample.

Lemma jwt_uses_bounded_witness : ∃ client' threads, claims_reachable client client' threads ∧
  granted (chars "a") threads = 2 ∧ granted (chars "a") threads <= 2 ∧ threads = [Answered (chars "a") true; Answered (chars "a") true; Answered (chars "a") false].
Proof.
  assert (2 ≠ 0) as Hz by done. pose (a := chars "a"). pose (granted_a := Answered a true).
  pose (c2 := (claim_write a 5 client).2). pose (client' := (claim_write a 6 c2).2).
  assert (claims_reachable client client [Looking a; Looking a; Looking a]) as H3.
  { exact (claims_next _ _ _ _ _ (claims_next _ _ _ _ _ (claims_next _ _ _ _ _ (claims_start client) (step_call client [] a))
      (step_call client [Looking a] a)) (step_call client [Looking a; Looking a] a)). }
  assert (claims_reachable client client [Missing a; Looking a; Looking a]) as H4
    by exact (claims_next _ _ _ _ _ H3 (step_read client _ [] [Looking a; Looking a] a eq_refl Hz)).
  assert (claims_reachable client client [Missing a; Missing a; Looking a]) as H5
    by exact (claims_next _ _ _ _ _ H4 (step_read client _ [Missing a] [Looking a] a eq_refl Hz)).
  assert (claims_reachable client c2 [Missing a; granted_a; Looking a]) as H6
    by exact (claims_next _ _ _ _ _ H5 (step_write client _ [Missing a] [Looking a] a 5 eq_refl)).
  assert (claims_reachable client client' [granted_a; granted_a; Looking a]) as H7
    by exact (claims_next _ _ _ _ _ H6 (step_write c2 _ [] [granted_a; Looking a] a 6 eq_refl)).
  assert (claims_reachable client client' [granted_a; granted_a; Answered a false]) as Hr
    by exact (claims_next _ _ _ _ _ H7 (step_read client' _ [granted_a; granted_a] [] a eq_refl Hz)).
  exists client', [Answered (chars "a") true; Answered (chars "a") true; Answered (chars "a") false]. split; [done|]. split; [reflexivity|].
  split; [|done]. apply (jwt_uses_bounded client client' _ (chars "a") ltac:(reflexivity) ltac:(reflexivity) Hr).
Defined.

Example token_validity :
  map (validate token client (Some (chars "websocket"))) (map at_ [90; 200; 20001]) =
    [Err JwtValidateError.InvalidIssuedAt; Ok tt; Err JwtValidateError.Expired] ∧
  validate token client (Some (chars "download")) (at_ 200) = Err JwtValidateError.Denied.
Proof. split; vm_compute; reflexivity. Qed.

(** A denied token is forgotten an hour later, also when it lives longer: it
    is valid again. *)
Example denied_token_returns :
  let denied := deny (chars "a") (at_ 1000) client in
  validate token denied (Some (chars "websocket")) (at_ 1001) = Err JwtValidateError.Denied ∧
  validate token (forget (at_ 4600) denied) (Some (chars "websocket")) (at_ 4600) = Ok tt.
Proof. split; vm_compute; reflexivity. Qed.
