(* ===== verification/Activity.v ===== *)
(** * Activity: the log of what users do (application/src/server/activity.rs)

    Activities are queued, merged and sent to the panel in batches.  Merging
    puts the files of activities of one kind by one user within a minute
    into one activity.  Timestamps are nanoseconds.  The values of a HashMap
    come in the order of its enumeration here. *)
From Stdlib Require Import Ascii String.
From S2P Require Import Prelude Text Json.
Local Open Scope string_scope.
Local Open Scope list_scope.
Local Open Scope Z_scope.

Module ActivityEvent.
Inductive ActivityEvent : Type :=
  | PowerStart | PowerStop | PowerRestart | PowerKill
  | ConsoleCommand
  | SftpLogin | SftpWrite | SftpRead | SftpCreate | SftpCreateDirectory | SftpRename | SftpDelete
  | FileUploaded | FileCompress | FileDecompress | FileCreateDirectory | FileWrite | FileCopy | FileDelete | FileRename.
End ActivityEvent.
Import ActivityEvent.

Definition all_events : list ActivityEvent :=
  [PowerStart; PowerStop; PowerRestart; PowerKill; ConsoleCommand; SftpLogin; SftpWrite; SftpRead; SftpCreate; SftpCreateDirectory;
   SftpRename; SftpDelete; FileUploaded; FileCompress; FileDecompress; FileCreateDirectory; FileWrite; FileCopy; FileDelete; FileRename].
#[export] Instance ActivityEvent_eq : EqDecision ActivityEvent.
Proof. solve_decision. Defined.
Definition event_code (e : ActivityEvent) : nat := default 0%nat (fst <$> list_find (λ e', e' = e) all_events).
#[export, refine] Instance ActivityEvent_countable : Countable ActivityEvent :=
  inj_countable' event_code (λ n, default PowerStart (all_events !! n)) _.
Proof. by intros []. Defined.

Definition is_sftp_event (self : ActivityEvent) : bool :=
  match self with SftpWrite | SftpRead | SftpCreate | SftpCreateDirectory | SftpRename | SftpDelete => true | _ => false end.

Record Activity : Type := mk_Activity {
  ac_user : option Z;
  ac_event : ActivityEvent;
  ac_metadata : option JsonValue;
  ac_ip : option string;
  ac_schedule : option Z;
  ac_timestamp : Z;
}.
Definition set_metadata (m : option JsonValue) (a : Activity) : Activity :=
  mk_Activity (ac_user a) (ac_event a) m (ac_ip a) (ac_schedule a) (ac_timestamp a).

(** ** Merging *)

Definition FILES : text := chars "files".
Definition DIRECTORY : text := chars "directory".

Definition extract_files (activity : Activity) : list JsonValue :=
  default [] (ac_metadata activity ≫= λ m, json_get m FILES ≫= as_array).

Definition finalize_files (activity : Activity) (files : list JsonValue) : Activity :=
  match files with
  | [] => activity
  | _ =>
      match ac_metadata activity with
      | Some metadata =>
          match json_get metadata FILES with
          | Some _ => set_metadata (Some (json_set metadata FILES (JsonArray files))) activity
          | None => activity
          end
      | None => activity
      end
  end.

Definition has_files (activity : Activity) : bool :=
  match ac_metadata activity with Some metadata => bool_decide (is_Some (json_get metadata FILES)) | None => false end.
Definition directory (activity : Activity) : option text := ac_metadata activity ≫= λ m, json_get m DIRECTORY ≫= as_str.

(** [num_seconds] of a difference, and its absolute value *)
Definition seconds_apart (a b : Z) : Z := Z.abs (Z.quot (a - b) 1000000000).

Section merge.
Context {K : Type} `{Countable K}.
Notation "'groups'" := (gmap K (Activity * list JsonValue)).

Definition merge_into (key : K) (activity : Activity) (events : groups) (merged : list Activity) : groups * list Activity :=
  match events !! key with
  | Some (existing, files_acc) =>
      if seconds_apart (ac_timestamp activity) (ac_timestamp existing) <=? 60
      then (<[key := (existing, files_acc ++ extract_files activity)]> events, merged)
      else (<[key := (activity, extract_files activity)]> events, merged ++ [finalize_files existing files_acc])
  | None => (<[key := (activity, extract_files activity)]> events, merged)
  end.
Definition into_values (events : groups) : list Activity := map (λ e, finalize_files e.2.1 e.2.2) (map_to_list events).
End merge.

Definition SftpKey : Type := ActivityEvent * option Z.
Definition UploadKey : Type := option Z * text.

Record MergeState : Type := mk_MergeState {
  ms_merged : list Activity;
  ms_sftp : gmap SftpKey (Activity * list JsonValue);
  ms_uploads : gmap UploadKey (Activity * list JsonValue);
}.

Definition merge_activity (s : MergeState) (activity : Activity) : MergeState :=
  if is_sftp_event (ac_event activity) && has_files activity then
    let '(events, merged) := merge_into (ac_event activity, ac_user activity) activity (ms_sftp s) (ms_merged s) in
    mk_MergeState merged events (ms_uploads s)
  else
    match directory activity with
    | Some dir_str =>
        if bool_decide (ac_event activity = FileUploaded) && has_files activity then
          let '(events, merged) := merge_into (ac_user activity, dir_str) activity (ms_uploads s) (ms_merged s) in
          mk_MergeState merged (ms_sftp s) events
        else mk_MergeState (ms_merged s ++ [activity]) (ms_sftp s) (ms_uploads s)
    | None => mk_MergeState (ms_merged s ++ [activity]) (ms_sftp s) (ms_uploads s)
    end.
Definition merge_activities (activities : list Activity) : list Activity :=
  let s := fold_left merge_activity activities (mk_MergeState [] ∅ ∅) in
  ms_merged s ++ into_values (ms_sftp s) ++ into_values (ms_uploads s).

(** ** The queue *)

Definition CHANNEL_CAPACITY : Z := 5120.

(** What waits in the channel and in the task, the batches that were sent, in
    their order, each with whether the panel took it, and the activities that
    were not dropped when they were logged *)
Record ActivityManager : Type := mk_ActivityManager {
  am_channel : list Activity;
  am_leftover : list Activity;
  am_batches : list (bool * list Activity);
  am_logged : list Activity;
}.
Definition ActivityManager_new : ActivityManager := mk_ActivityManager [] [] [] [].

Definition log_activity (activity : Activity) (s : ActivityManager) : ActivityManager :=
  if zlen (am_channel s) <? CHANNEL_CAPACITY
  then mk_ActivityManager (am_channel s ++ [activity]) (am_leftover s) (am_batches s) (am_logged s ++ [activity])
  else s.

(** A turn of the task: it waits until there is something in the channel
    ([None]), whatever is left over.  [sent] is whether [send_activity]
    succeeds; an error is only written to the log of the daemon. *)
Definition activity_turn (send_count : Z) (sent : bool) (s : ActivityManager) : option ActivityManager :=
  match am_channel s with
  | [] => None
  | _ =>
      let merged := merge_activities (am_leftover s ++ am_channel s) in
      let '(to_send, rest) := if send_count <? zlen merged then (ztake send_count merged, zdrop send_count merged) else (merged, []) in
      Some (match to_send with
            | [] => mk_ActivityManager [] rest (am_batches s) (am_logged s)
            | _ => mk_ActivityManager [] rest (am_batches s ++ [(sent, to_send)]) (am_logged s)
            end)
  end.

Inductive ActivityOp : Type := OpLog (activity : Activity) | OpTurn (send_count : Z) (sent : bool).
Definition run_activity (s : ActivityManager) (op : ActivityOp) : ActivityManager :=
  match op with
  | OpLog activity => log_activity activity s
  | OpTurn send_count sent => default s (activity_turn send_count sent s)
  end.

(** What the panel has, and what it was sent but did not take *)
Definition delivered (s : ActivityManager) : list Activity := concat (map snd (List.filter fst (am_batches s))).
Definition refused (s : ActivityManager) : list Activity := concat (map snd (List.filter (λ b, negb (fst b)) (am_batches s))).

(** ** What merging keeps *)

(** The group an activity belongs to *)
Inductive Group : Type := Sftp (key : SftpKey) | Upload (key : UploadKey).
#[export] Instance group_eq : EqDecision Group.
Proof. solve_decision. Defined.
Definition group_of (a : Activity) : option Group :=
  if is_sftp_event (ac_event a) && has_files a then Some (Sftp (ac_event a, ac_user a))
  else match directory a with
       | Some dir_str => if bool_decide (ac_event a = FileUploaded) && has_files a then Some (Upload (ac_user a, dir_str)) else None
       | None => None
       end.

(** The files the activities of a group name, in order, and the activities of
    no group *)
Definition files_of (g : Group) (l : list Activity) : list JsonValue :=
  concat (map (λ a, if bool_decide (group_of a = Some g) then extract_files a else []) l).
Definition single (a : Activity) : bool := bool_decide (group_of a = None).
Definition singles (l : list Activity) : list Activity := List.filter single l.

Lemma files_of_app g l1 l2 : files_of g (l1 ++ l2) = files_of g l1 ++ files_of g l2.
Proof. unfold files_of. by rewrite map_app, concat_app. Qed.
Lemma singles_app l1 l2 : singles (l1 ++ l2) = singles l1 ++ singles l2.
Proof. apply List.filter_app. Qed.

Lemma group_has_files a g : group_of a = Some g → ∃ m, ac_metadata a = Some m ∧ is_Some (json_get m FILES).
Proof.
  unfold group_of. intros Hg. assert (has_files a = true) as Hf.
  { destruct (has_files a); [done|]. rewrite !andb_false_r in Hg. by destruct (directory a). }
  unfold has_files in Hf. destruct (ac_metadata a) as [m|]; [|done]. apply bool_decide_eq_true in Hf. by exists m.
Qed.

Lemma finalize_group a files g : group_of a = Some g → group_of (finalize_files a files) = Some g.
Proof.
  intros Hg. destruct (group_has_files _ _ Hg) as (m & Hm & v & Hv). destruct files as [|f files]; [done|].
  unfold finalize_files. rewrite Hm, Hv. rewrite <-Hg. unfold group_of, has_files, directory. cbn [ac_event ac_user ac_metadata set_metadata]. rewrite Hm.
  rewrite json_get_set by eauto. cbn [mbind option_bind]. rewrite json_get_set_ne by done. rewrite Hv.
  by rewrite !bool_decide_eq_true_2 by eauto.
Qed.
Lemma finalize_extract a files g : group_of a = Some g → extract_files a `prefix_of` files → extract_files (finalize_files a files) = files.
Proof.
  intros Hg Hp. destruct (group_has_files _ _ Hg) as (m & Hm & v & Hv). destruct files as [|f files].
  - cbn. by apply prefix_nil_inv in Hp.
  - unfold finalize_files. rewrite Hm, Hv. unfold extract_files. cbn [ac_metadata set_metadata mbind option_bind]. by rewrite json_get_set by eauto.
Qed.

(** *** Groups that are open *)

Section open.
Context {K : Type} `{Countable K} (inject : K → Group) `{!Inj (=) (=) inject}.
Notation "'groups'" := (gmap K (Activity * list JsonValue)).

Definition groups_ok (events : groups) : Prop :=
  ∀ k a files, events !! k = Some (a, files) → group_of a = Some (inject k) ∧ extract_files a `prefix_of` files.
Definition open_files (k : K) (events : groups) : list JsonValue := default [] (snd <$> events !! k).

Lemma files_of_one g a : files_of g [a] = if bool_decide (group_of a = Some g) then extract_files a else [].
Proof. unfold files_of. cbn. apply app_nil_r. Qed.

Lemma merge_into_ok k a events merged events' merged' :
  groups_ok events → group_of a = Some (inject k) → merge_into k a events merged = (events', merged') →
  groups_ok events' ∧ singles merged' = singles merged ∧
  (∀ k', files_of (inject k') merged' ++ open_files k' events' =
         (files_of (inject k') merged ++ open_files k' events) ++ files_of (inject k') [a]) ∧
  (∀ g, (∀ k, g ≠ inject k) → files_of g merged' = files_of g merged).
Proof.
  intros Hok Ha. unfold merge_into.
  assert (∀ k', files_of (inject k') [a] = if bool_decide (k = k') then extract_files a else []) as Hone.
  { intros k'. rewrite files_of_one, Ha. case_bool_decide as Hk; [injection Hk as ->%(inj inject); by rewrite bool_decide_eq_true_2|].
    rewrite bool_decide_eq_false_2; [done|]. by intros ->. }
  assert (∀ k' b fs, open_files k' (<[k := (b, fs)]> events) = if bool_decide (k = k') then fs else open_files k' events) as Hopen.
  { intros k' b fs. unfold open_files. case_bool_decide as Hk; [subst; by rewrite lookup_insert_eq|]. by rewrite lookup_insert_ne. }
  destruct (events !! k) as [[b fs]|] eqn:Ek.
  - destruct (Hok _ _ _ Ek) as [Hb Hp]. destruct (_ <=? 60); intros [= <- <-].
    + split_and!; try done.
      * intros k' c fs' [[<- [= <- <-]]|[_ Hk']]%lookup_insert_Some; [split; [done|by apply prefix_app_r]|by eapply Hok].
      * intros k'. rewrite Hopen, Hone. case_bool_decide as Hk; [subst; unfold open_files; rewrite Ek; simpl; by rewrite !app_assoc|].
        by rewrite app_nil_r.
    + assert (group_of (finalize_files b fs) = Some (inject k)) as Hfin by (by apply finalize_group). split_and!.
      * intros k' c fs' [[<- [= <- <-]]|[_ Hk']]%lookup_insert_Some; [done|by eapply Hok].
      * rewrite singles_app. unfold singles at 2. cbn. unfold single. rewrite Hfin, bool_decide_eq_false_2 by done. apply app_nil_r.
      * intros k'. rewrite files_of_app, files_of_one, Hfin, Hopen, Hone. case_bool_decide as Hk.
        -- injection Hk as ->%(inj inject). rewrite bool_decide_eq_true_2 by done. unfold open_files. rewrite Ek. simpl.
           by rewrite (finalize_extract _ _ _ Hb Hp).
        -- rewrite bool_decide_eq_false_2 by (by intros ->). by rewrite !app_nil_r.
      * intros g Hg. rewrite files_of_app, files_of_one, Hfin, bool_decide_eq_false_2; [apply app_nil_r|]. intros [= Hk]. by apply (Hg k).
  - intros [= <- <-]. split_and!; try done.
    + intros k' c fs' [[<- [= <- <-]]|[_ Hk']]%lookup_insert_Some; [done|by eapply Hok].
    + intros k'. rewrite Hopen, Hone. case_bool_decide as Hk; [subst; unfold open_files; rewrite Ek; simpl; by rewrite app_nil_r|].
      by rewrite app_nil_r.
Qed.

(** Closing all of them *)
Lemma into_values_ok events : groups_ok events →
  singles (into_values events) = [] ∧ (∀ k, files_of (inject k) (into_values events) = open_files k events) ∧
  (∀ g, (∀ k, g ≠ inject k) → files_of g (into_values events) = []).
Proof.
  intros Hok. unfold into_values.
  assert (∀ l : list (K * (Activity * list JsonValue)), (∀ e, e ∈ l → events !! e.1 = Some e.2) → NoDup l.*1 →
    singles (map (λ e, finalize_files e.2.1 e.2.2) l) = [] ∧
    (∀ k, files_of (inject k) (map (λ e, finalize_files e.2.1 e.2.2) l) = if bool_decide (k ∈ l.*1) then open_files k events else []) ∧
    (∀ g, (∀ k, g ≠ inject k) → files_of g (map (λ e, finalize_files e.2.1 e.2.2) l) = [])) as Hl.
  { intros l Hin Hnd. induction l as [|[k [a fs]] l IH]; [done|]. cbn in Hnd. apply list.NoDup_cons in Hnd as [Hk Hnd].
    destruct IH as (IH1 & IH2 & IH3); [intros e He; apply Hin; by right|done|].
    assert (events !! k = Some (a, fs)) as Ek by (apply (Hin (k, (a, fs))); by left). destruct (Hok _ _ _ Ek) as [Ha Hp].
    pose proof (finalize_group a fs _ Ha) as Hfin. cbn [map fst snd]. split_and!.
    - unfold singles. cbn. unfold single at 1. by rewrite Hfin, bool_decide_eq_false_2.
    - intros k'. change (finalize_files a fs :: ?l) with ([finalize_files a fs] ++ l). rewrite files_of_app, files_of_one, Hfin, IH2.
      destruct (decide (k = k')) as [->|Hne].
      + rewrite (bool_decide_eq_true_2 (Some _ = Some _)) by done. rewrite (bool_decide_eq_false_2 (k' ∈ l.*1)) by done.
        rewrite bool_decide_eq_true_2 by (cbn; by left). unfold open_files. rewrite Ek, app_nil_r. simpl. by apply (finalize_extract _ _ _ Ha Hp).
      + rewrite (bool_decide_eq_false_2 (Some _ = Some _)) by (by intros [= ->%(inj inject)]). cbn [app fmap list_fmap].
        assert (bool_decide (k' ∈ k :: l.*1) = bool_decide (k' ∈ l.*1)) as E; [|by rewrite <-E].
        apply bool_decide_ext. rewrite elem_of_cons. split; [by intros [->|]|by right].
    - intros g Hg. change (finalize_files a fs :: ?l) with ([finalize_files a fs] ++ l). rewrite files_of_app, files_of_one, Hfin, IH3 by done.
      rewrite bool_decide_eq_false_2; [done|]. intros [= Hk']. by apply (Hg k). }
  destruct (Hl (map_to_list events)) as (H1 & H2 & H3).
  - intros [k x] Hx. by apply elem_of_map_to_list.
  - apply NoDup_fst_map_to_list.
  - split_and!; [done| |done]. intros k. rewrite H2. case_bool_decide as Hk; [done|]. unfold open_files. destruct (events !! k) as [x|] eqn:Ek; [|done].
    destruct Hk. apply list_elem_of_fmap. exists (k, x). split; [done|]. by apply elem_of_map_to_list.
Qed.
End open.

(** *** Merging all of them *)

#[export] Instance sftp_inj : Inj (=) (=) Sftp.
Proof. by intros ? ? [=]. Qed.
#[export] Instance upload_inj : Inj (=) (=) Upload.
Proof. by intros ? ? [=]. Qed.

(** What was merged so far, together with what is open, is what came in. *)
Record merge_ok (done : list Activity) (s : MergeState) : Prop := {
  mo_sftp : groups_ok Sftp (ms_sftp s);
  mo_uploads : groups_ok Upload (ms_uploads s);
  mo_singles : singles (ms_merged s) = singles done;
  mo_sftp_files k : files_of (Sftp k) (ms_merged s) ++ open_files k (ms_sftp s) = files_of (Sftp k) done;
  mo_upload_files k : files_of (Upload k) (ms_merged s) ++ open_files k (ms_uploads s) = files_of (Upload k) done;
}.

Lemma files_of_other g a : group_of a ≠ Some g → files_of g [a] = [].
Proof. intros Ha. by rewrite files_of_one, bool_decide_eq_false_2. Qed.
Lemma singles_one a : singles [a] = if single a then [a] else [].
Proof. done. Qed.

Lemma merge_activity_ok prior s a : merge_ok prior s → merge_ok (prior ++ [a]) (merge_activity s a).
Proof.
  intros [Hs Hu Hsi Hsf Huf].
  assert (∀ s', group_of a = None → s' = mk_MergeState (ms_merged s ++ [a]) (ms_sftp s) (ms_uploads s) → merge_ok (prior ++ [a]) s') as Hnone.
  { intros s' Ha ->. assert (∀ g, files_of g [a] = []) as Hf by (intros g; apply files_of_other; by rewrite Ha).
    split; cbn [ms_merged ms_sftp ms_uploads]; [done|done|by rewrite !singles_app, Hsi|intros k; rewrite !files_of_app, !Hf, !app_nil_r; apply Hsf|
      intros k; rewrite !files_of_app, !Hf, !app_nil_r; apply Huf]. }
  assert (group_of a ≠ None → singles (prior ++ [a]) = singles prior) as Hsome.
  { intros Ha. rewrite singles_app, singles_one. unfold single. by rewrite bool_decide_eq_false_2, app_nil_r. }
  unfold merge_activity. destruct (is_sftp_event (ac_event a) && has_files a) eqn:E1.
  - assert (group_of a = Some (Sftp (ac_event a, ac_user a))) as Ha by (unfold group_of; by rewrite E1).
    destruct (merge_into (ac_event a, ac_user a) a (ms_sftp s) (ms_merged s)) as [events merged] eqn:Em.
    destruct (merge_into_ok Sftp _ _ _ _ _ _ Hs Ha Em) as (H1 & H2 & H3 & H4). split; cbn [ms_merged ms_sftp ms_uploads].
    + done.
    + done.
    + rewrite Hsome, H2 by by rewrite Ha. done.
    + intros k. by rewrite H3, Hsf, files_of_app.
    + intros k. rewrite H4 by done. rewrite files_of_app, files_of_other, app_nil_r by (by rewrite Ha). apply Huf.
  - destruct (directory a) as [dir|] eqn:Ed; [destruct (bool_decide (ac_event a = FileUploaded) && has_files a) eqn:E2|].
    + assert (group_of a = Some (Upload (ac_user a, dir))) as Ha by (unfold group_of; by rewrite E1, Ed, E2).
      destruct (merge_into (ac_user a, dir) a (ms_uploads s) (ms_merged s)) as [events merged] eqn:Em.
      destruct (merge_into_ok Upload _ _ _ _ _ _ Hu Ha Em) as (H1 & H2 & H3 & H4). split; cbn [ms_merged ms_sftp ms_uploads].
      * done.
      * done.
      * rewrite Hsome, H2 by by rewrite Ha. done.
      * intros k. rewrite H4 by done. rewrite files_of_app, files_of_other, app_nil_r by (by rewrite Ha). apply Hsf.
      * intros k. by rewrite H3, Huf, files_of_app.
    + apply Hnone; [|done]. unfold group_of. by rewrite E1, Ed, E2.
    + apply Hnone; [|done]. unfold group_of. by rewrite E1, Ed.
Qed.

Lemma merge_keeps activities :
  singles (merge_activities activities) = singles activities ∧ ∀ g, files_of g (merge_activities activities) = files_of g activities.
Proof.
  unfold merge_activities. set (s := fold_left _ _ _).
  assert (merge_ok activities s) as [Hs Hu Hsi Hsf Huf].
  { unfold s. induction activities as [|a l IH] using rev_ind; [|rewrite fold_left_app; by apply merge_activity_ok].
    split; cbn; try done; intros; unfold groups_ok, open_files; by rewrite ?lookup_empty. }
  destruct (into_values_ok Sftp _ Hs) as (S1 & S2 & S3). destruct (into_values_ok Upload _ Hu) as (U1 & U2 & U3).
  split; [by rewrite !singles_app, S1, U1, !app_nil_r|]. intros [k|k]; rewrite !files_of_app.
  - by rewrite S2, (U3 (Sftp k)), app_nil_r.
  - by rewrite U2, (S3 (Upload k)).
Qed.

(** What was sent in any batch, what is left over and what waits *)
Definition everything (s : ActivityManager) : list Activity := concat (map snd (am_batches s)) ++ am_leftover s ++ am_channel s.
Definition keeps_logged (s : ActivityManager) : Prop :=
  singles (everything s) = singles (am_logged s) ∧ ∀ g, files_of g (everything s) = files_of g (am_logged s).

Lemma activity_turn_everything send_count sent s s' : activity_turn send_count sent s = Some s' →
  am_logged s' = am_logged s ∧
  everything s' = concat (map snd (am_batches s)) ++ merge_activities (am_leftover s ++ am_channel s).
Proof.
  unfold activity_turn, everything. destruct (am_channel s) as [|c l]; [done|]. set (m := merge_activities _). clearbody m.
  assert (∃ to_send rest, to_send ++ rest = m ∧ (if send_count <? zlen m then (ztake send_count m, zdrop send_count m) else (m, [])) = (to_send, rest))
    as (to_send & rest & <- & ->).
  { destruct (_ <? _); eexists _, _; split; try reflexivity; [apply ztake_zdrop|apply app_nil_r]. }
  destruct to_send as [|a to_send]; intros [= <-]; cbn [am_logged am_batches am_leftover am_channel]; split; try done; rewrite app_nil_r.
  - done.
  - rewrite map_app, concat_app. cbn [map snd concat]. by rewrite app_nil_r, <-app_assoc.
Qed.

Lemma run_activity_keeps s op : keeps_logged s → keeps_logged (run_activity s op).
Proof.
  intros [H1 H2]. destruct op as [a|n sent]; cbn [run_activity].
  - unfold log_activity. destruct (_ <? _); [|done].
    assert (everything (mk_ActivityManager (am_channel s ++ [a]) (am_leftover s) (am_batches s) (am_logged s ++ [a])) = everything s ++ [a]) as E
      by (unfold everything; cbn; by rewrite <-!app_assoc).
    split; [|intros g]; rewrite E; cbn [am_logged]; [by rewrite !singles_app, H1|by rewrite !files_of_app, H2].
  - destruct (activity_turn n sent s) as [s'|] eqn:Et; [|done]. apply activity_turn_everything in Et as [Hl He].
    destruct (merge_keeps (am_leftover s ++ am_channel s)) as [M1 M2]. cbn [default]. unfold keeps_logged, id. rewrite He, Hl.
    split; [|intros g]; [rewrite singles_app, M1, <-singles_app; exact H1|rewrite files_of_app, M2, <-files_of_app; exact (H2 g)].
Qed.

(** All batches that were sent and taken: the panel has them. *)
Lemma delivered_all s : Forall (λ b, fst b = true) (am_batches s) → delivered s = concat (map snd (am_batches s)).
Proof.
  unfold delivered. induction 1 as [|[b l] bs Hb _ IH]; [done|]. cbn in *. subst b. cbn. by rewrite IH.
Qed.

Lemma delivered_refused s : delivered s ++ refused s ≡ₚ concat (map snd (am_batches s)).
Proof.
  unfold delivered, refused. induction (am_batches s) as [|[[] l] bs IH]; [done| |]; cbn.
  - by rewrite <-app_assoc, IH.
  - rewrite <-IH. rewrite !app_assoc. apply Permutation_app_tail. apply Permutation_app_comm.
Qed.

(** C39. Activities are lost in two places only: when they are logged while the
    channel is full, and with a batch that the panel does not take.  Whatever
    is logged and whenever batches are sent, with any limit of a batch and
    however the panel answers: the batches in the order they were sent, what is
    left over and what still waits together hold every activity that was
    accepted when it was logged, those that are not merged as they were and in
    their order, and for each group, which is a kind of file access by a user,
    or an upload by a user into a directory, the files of all its activities,
    each once and in their order.  What was sent is what the panel has and what
    it refused, and as long as it refused nothing it has all that neither is
    left over nor waits. *)
Theorem activity_queue_lossless ops :
  let s := fold_left run_activity ops ActivityManager_new in
  let sent := concat (map snd (am_batches s)) in
  singles (sent ++ am_leftover s ++ am_channel s) = singles (am_logged s) ∧
  (∀ g, files_of g (sent ++ am_leftover s ++ am_channel s) = files_of g (am_logged s)) ∧
  delivered s ++ refused s ≡ₚ sent ∧
  (Forall (λ b, fst b = true) (am_batches s) →
    singles (delivered s ++ am_leftover s ++ am_channel s) = singles (am_logged s) ∧
    ∀ g, files_of g (delivered s ++ am_leftover s ++ am_channel s) = files_of g (am_logged s)).
Proof.
  cbv zeta. set (s := fold_left run_activity ops ActivityManager_new).
  assert (keeps_logged s) as [H1 H2].
  { unfold s. induction ops as [|op ops IH] using rev_ind; [done|]. rewrite fold_left_app. by apply run_activity_keeps. }
  split; [exact H1|]. split; [exact H2|]. split; [apply delivered_refused|]. intros Hb. by rewrite (delivered_all s Hb).
Qed.

Lemma activity_queue_lossless_witness :
  let s := fold_left run_activity
    [OpLog (mk_Activity None PowerStart None None None 0); OpLog (mk_Activity None PowerStop None None None 1); OpTurn 1 true]
    ActivityManager_new in
  singles (delivered s ++ am_leftover s ++ am_channel s) = singles (am_logged s) ∧
  ∀ g, files_of g (delivered s ++ am_leftover s ++ am_channel s) = files_of g (am_logged s).
Proof.
  refine (proj2 (proj2 (proj2 (activity_queue_lossless
    [OpLog (mk_Activity None PowerStart None None None 0); OpLog (mk_Activity None PowerStop None None None 1); OpTurn 1 true]))) _).
  repeat constructor.
Defined.

(** ** Examples *)

Module ActivityExample.
Definition write (user : Z) (ip file : string) (seconds : Z) : Activity :=
  mk_Activity (Some user) SftpWrite (Some (JsonObject [(FILES, JsonArray [JsonString (chars file)])])) (Some ip) None (seconds * 1000000000).
Definition power (seconds : Z) : Activity := mk_Activity None PowerStart None None None (seconds * 1000000000).
End ActivityExample.
Import ActivityExample.

(** The window is that of the first activity of a group, as the tests have it. *)
Example merge_window :
  map extract_files (merge_activities [write 1 "a" "x" 0; write 1 "a" "y" 50; power 60; write 1 "a" "z" 100]) =
  [[]; [JsonString (chars "x"); JsonString (chars "y")]; [JsonString (chars "z")]].
Proof. vm_compute. reflexivity. Qed.

(** What is left over waits until something else is logged. *)
Example leftover_waits :
  let s := run_activity (run_activity (run_activity ActivityManager_new (OpLog (power 1))) (OpLog (power 2))) (OpTurn 1 true) in
  am_leftover s = [power 2] ∧ ∀ n sent, activity_turn n sent s = None.
Proof. split; [vm_compute; reflexivity|done]. Qed.

(** A batch the panel does not take, be it for a moment, is gone. *)
Example refused_batch_is_lost :
  let s := fold_left run_activity [OpLog (power 1); OpTurn 10 false; OpLog (power 2); OpTurn 10 true; OpTurn 10 true] ActivityManager_new in
  delivered s = [power 2] ∧ am_leftover s = [] ∧ am_channel s = [] ∧ am_logged s = [power 1; power 2].
Proof. vm_compute. repeat split. Qed.

(** The address is not part of a group: what is done from a second address
    is reported with the first. *)
Example merged_addresses :
  map (λ a, (ac_ip a, extract_files a)) (merge_activities [write 1 "10.0.0.1" "x" 0; write 1 "10.0.0.2" "y" 1]) =
  [(Some "10.0.0.1", [JsonString (chars "x"); JsonString (chars "y")])].
Proof. vm_compute. reflexivity. Qed.
