(* ===== verification/Websocket.v ===== *)
(** * Websocket: the connection of a client to a server
      (application/src/server/websocket/mod.rs, jwt.rs, message_handler.rs, handler.rs)

    A connection shows a token, sends messages that act on the server, and is
    sent what happens there.  The task that reads from the client, the
    listeners and the check of the token each take turns; the reading task
    waits for the removal of the user's permissions only while it waits for
    the next message.  What the connection causes is recorded in a log, with
    each message in the clear: encoding it cannot fail.  The collaborative
    editor, the power actions and the rest of the server are an interface. *)
From Stdlib Require Import Ascii String.
From S2P Require Import Prelude Text Permissions ServerState Schedules Tokens Activity Collab.
Import Permission.
Local Open Scope string_scope.
Local Open Scope list_scope.
Local Open Scope Z_scope.

Module WebsocketEvent.
Inductive WebsocketEvent : Type :=
  | AuthenticationSuccess | TokenExpiring | TokenExpired | Authentication
  | ConfigureSocket | SetState | SendServerLogs | SendCommand | SendStats | SendStatus | Error | JwtError
  | Ping | Pong
  | ServerStats | ServerStatus | ServerPendingRestart | ServerCustomEvent | ServerConsoleOutput | ServerInstallOutput
  | ServerImagePullProgress | ServerImagePullCompleted | ServerInstallStarted | ServerInstallCompleted | ServerDaemonMessage
  | ServerBackupStarted | ServerBackupProgress | ServerBackupCompleted | ServerBackupDeleted
  | ServerBackupRestoreStarted | ServerBackupRestoreProgress | ServerBackupRestoreCompleted
  | ServerTransferLogs | ServerTransferStatus | ServerTransferProgress
  | ServerScheduleStarted | ServerScheduleStepStatus | ServerScheduleStepError | ServerScheduleCompleted
  | ServerOperationProgress | ServerOperationError | ServerOperationCompleted
  | FileCollabSubscribe | FileCollabUnsubscribe | FileCollabUpdate | FileCollabAwareness | FileCollabSave | FileCollabSync
  | FileCollabParticipants | FileCollabSaved | FileCollabReload | FileCollabConflict | FileCollabError.
End WebsocketEvent.
Import WebsocketEvent.
#[export] Instance WebsocketEvent_eq : EqDecision WebsocketEvent.
Proof. solve_decision. Defined.

Record WebsocketMessage : Type := mk_Message { wm_event : WebsocketEvent; wm_args : list string }.

Record WebsocketJwtPayload : Type := mk_Jwt {
  wj_base : BasePayload;
  wj_user_uuid : Z;
  wj_user_name : option string;
  wj_user_avatar : option string;
  wj_server_uuid : Z;
  wj_permissions : Permissions;
  wj_ignored_files : option (list string);
}.

(** ** The server around the connection *)

Inductive PowerCall : Type :=
  | CallStart
  | CallRestart
  | CallRestartWithKillTimeout (seconds : Z)
  | CallStop
  | CallStopWithKillTimeout (seconds : Z)
  | CallKill.

(** Why a power action failed: a message for the user, or something else *)
Inductive PowerFailure : Type :=
  | Told (message : string)
  | Other (message : string).

Class ServerWorld (W : Type) : Type := {
  get_state_of : W → ServerState.ServerState;
  is_restarting : W → bool;
  is_pending_restart : W → bool;
  resource_usage : W → string;
  auto_kill : W → bool * Z;
  send_offline_server_logs : W → bool;
  logs_lines : W → list string;
  is_known : W → bool;
  power : PowerCall → W → result PowerFailure unit * W;
  send_stdin : string → W → bool * W;
  collab : CollabOp → W → result CollabError unit * W;
}.
(** Signatures (jsonwebtoken), and the encodings of messages (serde_json and
    rmp_serde) *)
Class WebsocketCodec : Type := {
  verify : string → option WebsocketJwtPayload;
  from_json : bytes → option WebsocketMessage;
  from_msgpack : bytes → option WebsocketMessage;
}.

(** What a connection causes *)
Inductive LogEntry : Type :=
  | Sent (message : WebsocketMessage)
  | Closed (reason : string)
  | Power (call : PowerCall)
  | Stdin (command : string)
  | Collab (op : CollabOp)
  | Logged (event : ActivityEvent.ActivityEvent) (user : Z) (command : option string).

Inductive Frame : Type :=
  | TextFrame (data : bytes)
  | BinaryFrame (data : bytes)
  | PingFrame
  | PongFrame
  | CloseFrame.

Record Socket (Override W : Type) : Type := mk_Socket {
  so_client : JwtClient;
  so_users : UserPermissionsMap Override;
  so_jwt : option WebsocketJwtPayload;
  so_closed : bool;
  so_binary : bool;
  so_running : bool;
  so_pending : option Frame;
  so_log : list LogEntry;
  so_world : W;
}.
Arguments mk_Socket {Override W} _ _ _ _ _ _ _ _ _.
Arguments so_client {Override W} _.
Arguments so_users {Override W} _.
Arguments so_jwt {Override W} _.
Arguments so_closed {Override W} _.
Arguments so_binary {Override W} _.
Arguments so_running {Override W} _.
Arguments so_pending {Override W} _.
Arguments so_log {Override W} _.
Arguments so_world {Override W} _.

Module JwtError.
Inductive JwtError : Type :=
  | CloseSocket
  | Expired
  | Misc (message : string)
  | MiscStr (message : string).
End JwtError.

Definition WEBSOCKET : text := chars "websocket".
Definition validate_error_to_string (e : JwtValidateError.JwtValidateError) : string :=
  match e with
  | JwtValidateError.Expired => "token is expired"
  | JwtValidateError.NotYetValid => "token is not yet valid"
  | JwtValidateError.InvalidIssuedAt => "token has invalid issued at time"
  | JwtValidateError.Denied => "token has been denied"
  end.
Definition invalid_token (e : JwtValidateError.JwtValidateError) : string := "invalid token: " +:+ validate_error_to_string e.

(** The bytes of a string, the string of bytes, and [str::trim] *)
Definition string_bytes (s : string) : bytes := map (λ a, Z.of_N (N_of_ascii a)) (list_ascii_of_string s).
Definition bytes_string (l : bytes) : string := string_of_list_ascii (map (λ b, ascii_of_N (Z.to_N b)) l).
Definition trim_str (s : string) : string := bytes_string (encode_text (trim (decode_text (string_bytes s)))).

Section socket.
Context {Override : Type} (build : list string → option Override).
Context {W : Type} {SW : ServerWorld W} {WC : WebsocketCodec}.
(** The server, the connection, and how errors and identifiers are printed *)
Context (server_uuid connection_id : Z) (uuid_to_string : Z → string) (red : string → string).

Notation "'socket'" := (Socket Override W).
(** [anyhow::Error], by its message *)
Notation "'M' A" := (stt (Socket Override W) string A) (at level 10).

(** *** The parts of the state *)

Definition with_client (f : JwtClient → JwtClient) (s : socket) : socket :=
  mk_Socket (f (so_client s)) (so_users s) (so_jwt s) (so_closed s) (so_binary s) (so_running s) (so_pending s) (so_log s) (so_world s).
Definition with_users (f : UserPermissionsMap Override → UserPermissionsMap Override) (s : socket) : socket :=
  mk_Socket (so_client s) (f (so_users s)) (so_jwt s) (so_closed s) (so_binary s) (so_running s) (so_pending s) (so_log s) (so_world s).
Definition with_jwt (j : option WebsocketJwtPayload) (s : socket) : socket :=
  mk_Socket (so_client s) (so_users s) j (so_closed s) (so_binary s) (so_running s) (so_pending s) (so_log s) (so_world s).
Definition with_closed (b : bool) (s : socket) : socket :=
  mk_Socket (so_client s) (so_users s) (so_jwt s) b (so_binary s) (so_running s) (so_pending s) (so_log s) (so_world s).
Definition with_binary (b : bool) (s : socket) : socket :=
  mk_Socket (so_client s) (so_users s) (so_jwt s) (so_closed s) b (so_running s) (so_pending s) (so_log s) (so_world s).
Definition with_running (b : bool) (s : socket) : socket :=
  mk_Socket (so_client s) (so_users s) (so_jwt s) (so_closed s) (so_binary s) b (so_pending s) (so_log s) (so_world s).
Definition with_pending (f : option Frame) (s : socket) : socket :=
  mk_Socket (so_client s) (so_users s) (so_jwt s) (so_closed s) (so_binary s) (so_running s) f (so_log s) (so_world s).
Definition with_world (w : W) (s : socket) : socket :=
  mk_Socket (so_client s) (so_users s) (so_jwt s) (so_closed s) (so_binary s) (so_running s) (so_pending s) (so_log s) w.
Definition record (e : LogEntry) (s : socket) : socket :=
  mk_Socket (so_client s) (so_users s) (so_jwt s) (so_closed s) (so_binary s) (so_running s) (so_pending s) (so_log s ++ [e]) (so_world s).

Definition on_users {A} (f : UserPermissionsMap Override → A * UserPermissionsMap Override) : M A := λ s,
  let '(a, u) := f (so_users s) in (Ok a, with_users (λ _, u) s).
(** A call of the server, which is recorded *)
Definition call_server {A} (e : LogEntry) (f : W → A * W) : M A := λ s,
  let '(a, w) := f (so_world s) in (Ok a, record e (with_world w s)).
Definition ask_server {A} (f : W → A) : M A := λ s, (Ok (f (so_world s)), s).

(** *** [ServerWebsocketHandler] *)

Definition send_message (message : WebsocketMessage) : M unit := modify (λ s, if so_closed s then s else record (Sent message) s).
(** Errors do not look at the flag. *)
Definition send_error (message : string) : M unit := modify (record (Sent (mk_Message ServerDaemonMessage [red message]))).
Definition send_admin_error (message : string) : M unit :=
  modify (λ s, record (Sent (mk_Message ServerDaemonMessage
    [red (if match so_jwt s with Some j => has_permission (wj_permissions j) AdminWebsocketErrors | None => false end
          then message else "An unexpected error occurred. Please contact an Administrator.")])) s).
Definition close (reason : string) : M unit :=
  modify (λ s, if so_closed s then s else record (Closed reason) (with_closed true s)).

Definition get_jwt : M WebsocketJwtPayload := λ s,
  match so_jwt s with Some j => (Ok j, s) | None => (Err "unable to acquire socket jwt", s) end.
(** The user of the token, if it is valid and the manager knows its server *)
Definition get_server (now : Z) : M Z :=
  jwt ← get_jwt;
  s ← Prelude.get_state;
  match validate (wj_base jwt) (so_client s) (Some WEBSOCKET) now with
  | Err err => throw (invalid_token err)
  | Ok _ => if is_known (so_world s) && (wj_server_uuid jwt =? server_uuid) then mret (wj_user_uuid jwt) else throw "unable to find jwt server"
  end.
Definition socket_has_permission (now : Z) (permission : Permission) : M bool :=
  user_uuid ← get_server now; on_users (user_has_permission (timestamp now) user_uuid permission).
Definition socket_has_calagopus_permission_or (now : Z) (permission : Permission) (default : bool) : M bool :=
  user_uuid ← get_server now; on_users (user_has_calagopus_permission_or (timestamp now) user_uuid permission default).

(** *** [handle_message] *)

Definition power_from_str (s : string) : option ServerPowerAction.ServerPowerAction :=
  if String.eqb s "start" then Some ServerPowerAction.Start
  else if String.eqb s "stop" then Some ServerPowerAction.Stop
  else if String.eqb s "restart" then Some ServerPowerAction.Restart
  else if String.eqb s "kill" then Some ServerPowerAction.Kill
  else None.

Definition log_activity_of (event : ActivityEvent.ActivityEvent) (command : option string) : M unit :=
  jwt ← get_jwt; modify (record (Logged event (wj_user_uuid jwt) command)).

(** Calls a power action and says how it went. *)
Definition run_power (call : PowerCall) (event : ActivityEvent.ActivityEvent) : M unit :=
  r ← call_server (Power call) (power call);
  match r with
  | Err (Told message) => send_error message
  | Err (Other message) => send_admin_error message
  | Ok _ => log_activity_of event None
  end.
(** [kill] has no messages for the user. *)
Definition run_kill : M unit :=
  r ← call_server (Power CallKill) (power CallKill);
  match r with
  | Err (Told message) | Err (Other message) => send_admin_error message
  | Ok _ => log_activity_of ActivityEvent.PowerKill None
  end.

Definition set_state (action : ServerPowerAction.ServerPowerAction) : M unit :=
  jwt ← get_jwt;
  match action with
  | ServerPowerAction.Start =>
      if negb (has_permission (wj_permissions jwt) ControlStart) then mret tt
      else
        state ← ask_server get_state_of;
        if negb (bool_decide (state = ServerState.Offline)) then send_error "Server is already running or starting."
        else run_power CallStart ActivityEvent.PowerStart
  | ServerPowerAction.Restart =>
      if negb (has_permission (wj_permissions jwt) ControlRestart) then mret tt
      else
        restarting ← ask_server is_restarting;
        if (restarting : bool) then send_error "Server is already restarting."
        else
          '(enabled, seconds) ← ask_server auto_kill;
          run_power (if enabled && (0 <? seconds) then CallRestartWithKillTimeout seconds else CallRestart) ActivityEvent.PowerRestart
  | ServerPowerAction.Stop =>
      if negb (has_permission (wj_permissions jwt) ControlStop) then mret tt
      else
        state ← ask_server get_state_of;
        if bool_decide (state = ServerState.Offline) || bool_decide (state = ServerState.Stopping)
        then send_error "Server is already offline or stopping."
        else
          '(enabled, seconds) ← ask_server auto_kill;
          run_power (if enabled && (0 <? seconds) then CallStopWithKillTimeout seconds else CallStop) ActivityEvent.PowerStop
  | ServerPowerAction.Kill =>
      if negb (has_permission (wj_permissions jwt) ControlStop) then mret tt
      else
        state ← ask_server get_state_of;
        if bool_decide (state = ServerState.Offline) then send_error "Server is already offline." else run_kill
  end.

Definition required_permission (event : WebsocketEvent) : Permission :=
  match event with FileCollabUpdate | FileCollabSave | FileCollabReload => FileUpdate | _ => FileReadContent end.

(** The operation of a message about a file; [None] when arguments are missing *)
Definition collab_op (event : WebsocketEvent) (jwt : WebsocketJwtPayload) (path : string) (args : list string) : option CollabOp :=
  let raw_path := string_bytes path in
  match event with
  | FileCollabSubscribe =>
      Some (OpSubscribe connection_id (wj_user_uuid jwt) (default (uuid_to_string (wj_user_uuid jwt)) (wj_user_name jwt)) (wj_user_avatar jwt) raw_path)
  | FileCollabUnsubscribe => Some (OpUnsubscribe connection_id raw_path)
  | FileCollabUpdate =>
      match args !! 1%nat, args !! 2%nat with
      | Some finished, Some chunk => Some (OpUpdate connection_id raw_path (String.eqb finished "1") chunk)
      | _, _ => None
      end
  | FileCollabAwareness => match args !! 1%nat with Some payload => Some (OpAwareness connection_id raw_path payload) | None => None end
  | FileCollabSave =>
      Some (OpSave connection_id (wj_user_uuid jwt) raw_path (match args !! 1%nat with Some f => String.eqb f "1" | None => false end) (args !! 2%nat))
  | FileCollabReload => Some (OpReload connection_id raw_path)
  | _ => None
  end.

Definition handle_collab (now : Z) (event : WebsocketEvent) (args : list string) : M unit :=
  match args with
  | [] => mret tt
  | path :: _ =>
      jwt ← get_jwt;
      allowed ← socket_has_permission now (required_permission event);
      if negb allowed then send_message (mk_Message FileCollabError [path; "missing permission"])
      else
        match collab_op event jwt path args with
        | None => mret tt
        | Some op =>
            r ← call_server (Collab op) (collab op);
            match r with
            | Ok _ => mret tt
            | Err (User err) => send_message (mk_Message FileCollabError [path; err])
            | Err _ => send_message (mk_Message FileCollabError [path; "an unexpected error occurred"])
            end
        end
  end.

Definition bool_to_string (b : bool) : string := if b then "true" else "false".

Definition handle_message (now : Z) (message : WebsocketMessage) : M unit :=
  let args := wm_args message in
  match wm_event message with
  | ConfigureSocket =>
      match args with
      | property :: mode :: _ =>
          if negb (String.eqb property "transmission mode") then mret tt
          else if String.eqb mode "binary" then modify (with_binary true)
          else if String.eqb mode "text" then modify (with_binary false)
          else mret tt
      | _ => mret tt
      end
  | SendStats =>
      stats ← ask_server resource_usage;
      _ ← send_message (mk_Message ServerStats [stats]);
      pending ← ask_server is_pending_restart;
      send_message (mk_Message ServerPendingRestart [bool_to_string pending])
  | SendStatus =>
      state ← ask_server get_state_of;
      send_message (mk_Message ServerStatus [ServerState.to_str state])
  | SendServerLogs =>
      state ← ask_server get_state_of;
      offline ← ask_server send_offline_server_logs;
      if negb (bool_decide (state = ServerState.Offline)) || offline then
        jwt ← get_jwt;
        if negb (has_calagopus_permission_or (wj_permissions jwt) ControlReadConsole true) then mret tt
        else
          lines ← ask_server logs_lines;
          foreach (λ line, send_message (mk_Message ServerConsoleOutput [trim_str line])) lines
      else mret tt
  | SetState =>
      match args with
      | [] => mret tt
      | action :: _ =>
          match power_from_str action with
          | None => throw ("invalid server power action provided: " +:+ action)
          | Some action => set_state action
          end
      end
  | SendCommand =>
      jwt ← get_jwt;
      if negb (has_permission (wj_permissions jwt) ControlConsole) then mret tt
      else
        match args with
        | [] => mret tt
        | raw_command :: _ =>
            let command := raw_command +:+ String (Ascii.ascii_of_nat 10) EmptyString in
            ok ← call_server (Stdin command) (send_stdin command);
            if (ok : bool) then log_activity_of ActivityEvent.ConsoleCommand (Some raw_command) else mret tt
        end
  | FileCollabSubscribe | FileCollabUnsubscribe | FileCollabUpdate | FileCollabAwareness | FileCollabSave | FileCollabReload =>
      handle_collab now (wm_event message) args
  | Ping => send_message (mk_Message Pong args)
  | _ => mret tt
  end.

(** *** [handle_jwt] *)

Definition missing_console : string := "You are missing the `control.read-console` permission to view server logs and console output.".

Definition authenticate (now : Z) (token : string) : stt socket JwtError.JwtError (option WebsocketMessage) := λ s,
  match verify token with
  | None => (Err JwtError.CloseSocket, s)
  | Some jwt =>
      match validate (wj_base jwt) (so_client s) (Some WEBSOCKET) now with
      | Err err => (Err (JwtError.MiscStr (invalid_token err)), s)
      | Ok _ =>
          if negb (has_permission (wj_permissions jwt) WebsocketConnect) || negb (wj_server_uuid jwt =? server_uuid) then
            if has_permission (wj_permissions jwt) WebsocketConnect
            then (Err JwtError.Expired, (send_message (mk_Message TokenExpired []) s).2)
            else (Err JwtError.CloseSocket, s)
          else
            let s := (send_message (mk_Message AuthenticationSuccess (map Permissions.to_str (elements (wj_permissions jwt)))) s).2 in
            let s := with_users (Permissions.set_permissions build (timestamp now) (wj_user_uuid jwt) (wj_permissions jwt) (wj_ignored_files jwt)) s in
            let first := match so_jwt s with Some _ => false | None => true end in
            let s := with_jwt (Some jwt) s in
            if first then
              let s := (send_message (mk_Message ServerStatus [ServerState.to_str (get_state_of (so_world s))]) s).2 in
              if has_calagopus_permission_or (wj_permissions jwt) ControlReadConsole true then (Ok None, s)
              else (Ok None, (send_message (mk_Message ServerDaemonMessage [missing_console]) s).2)
            else (Ok None, s)
      end
  end.

Definition handle_jwt (now : Z) (frame : Frame) : stt socket JwtError.JwtError (option WebsocketMessage) := λ s,
  match match frame with
        | TextFrame data => Some (from_json data)
        | BinaryFrame data => Some (from_msgpack data)
        | _ => None
        end with
  | None => (Err (JwtError.Misc "invalid message type"), s)
  | Some None => (Ok None, s)
  | Some (Some message) =>
      match wm_event message with
      | Authentication => authenticate now (default "" (head (wm_args message))) s
      | _ =>
          match so_jwt s with
          | Some jwt =>
              match validate (wj_base jwt) (so_client s) (Some WEBSOCKET) now with
              | Err err => (Err (JwtError.MiscStr (invalid_token err)), s)
              | Ok _ => if negb (has_permission (wj_permissions jwt) WebsocketConnect) then (Err JwtError.CloseSocket, s) else (Ok (Some message), s)
              end
          | None => (Err JwtError.CloseSocket, s)
          end
      end
  end.

(** *** The turns *)

Definition BUFFER_SIZE : Z := 32 * 1024.

(** The reading task takes a frame. *)
Definition receive_frame (frame : Frame) (s : socket) : socket :=
  match frame with
  | CloseFrame => with_running false s
  | PingFrame | PongFrame => s
  | TextFrame data | BinaryFrame data => if BUFFER_SIZE <? zlen data then s else with_pending (Some frame) s
  end.
(** It handles what it took, and then waits again. *)
Definition handle_frame (now : Z) (frame : Frame) (s : socket) : socket :=
  let '(r, s) := handle_jwt now frame s in
  with_pending None
    match r with
    | Ok (Some message) => (handle_message now message s).2
    | Ok None => s
    | Err JwtError.CloseSocket => with_running false s
    | Err JwtError.Expired => s
    | Err (JwtError.MiscStr err) | Err (JwtError.Misc err) => (send_message (mk_Message JwtError [err]) s).2
    end.
(** Permissions of its user are removed while it waits. *)
Definition removed (now user : Z) (s : socket) : socket :=
  match so_jwt s with
  | Some jwt =>
      if bool_decide (wj_user_uuid jwt = user) && bool_decide (so_pending s = None)
      then with_running false (close "permission revoked" (with_client (deny (jp_jwt_id (wj_base jwt)) now) s)).2
      else s
  | None => s
  end.

(** What the listener needs to pass a message of the server on *)
Definition broadcast_permission (event : WebsocketEvent) : option Permission :=
  match event with
  | ServerInstallOutput => Some AdminWebsocketInstall
  | ServerOperationProgress | ServerOperationCompleted => Some FileRead
  | ServerBackupStarted | ServerBackupProgress | ServerBackupCompleted | ServerBackupDeleted => Some BackupRead
  | ServerScheduleStarted | ServerScheduleStepStatus | ServerScheduleStepError | ServerScheduleCompleted => Some ScheduleRead
  | ServerTransferLogs | ServerTransferProgress => Some AdminWebsocketTransfer
  | _ => None
  end.
Definition listen_broadcast (now : Z) (message : WebsocketMessage) (s : socket) : socket :=
  let r := match broadcast_permission (wm_event message) with
           | Some permission => (allowed ← socket_has_permission now permission; if (allowed : bool) then send_message message else mret tt) s
           | None => send_message message s
           end in
  match r with
  | (Ok _, s) => s
  | (Err err, s) => (send_message (mk_Message JwtError [err]) s).2
  end.

Definition matches (user_uuids : gset Z) (permissions : Permissions) (jwt : WebsocketJwtPayload) : bool :=
  (bool_decide (user_uuids = ∅) || bool_decide (wj_user_uuid jwt ∈ user_uuids)) &&
  forallb (has_permission (wj_permissions jwt)) (elements permissions).
Definition listen_targeted (now : Z) (user_uuids : gset Z) (permissions : Permissions) (message : WebsocketMessage) (s : socket) : socket :=
  match so_jwt s with
  | Some jwt =>
      match validate (wj_base jwt) (so_client s) (Some WEBSOCKET) now with
      | Err _ => s
      | Ok _ => if matches user_uuids permissions jwt then (send_message message s).2 else s
      end
  | None => s
  end.

(** A line of the console, when the listener has subscribed to it *)
Definition listen_stdout (now : Z) (line : string) (s : socket) : socket :=
  match socket_has_calagopus_permission_or now ControlReadConsole true s with
  | (Ok true, s) => (send_message (mk_Message ServerConsoleOutput [line]) s).2
  | (_, s) => (send_message (mk_Message ServerDaemonMessage [missing_console]) s).2
  end.

(** A turn of the check of the token *)
Definition listen_jwt (now : Z) (s : socket) : socket :=
  match so_jwt s with
  | Some jwt =>
      match jp_expiration_time (wj_base jwt) with
      | Some expiration =>
          if expiration <? timestamp now then with_jwt None (send_message (mk_Message TokenExpired []) s).2
          else if expiration - 60 <? timestamp now then (send_message (mk_Message TokenExpiring []) s).2
          else s
      | None => s
      end
  | None => s
  end.

(** *** All that can happen *)

Inductive socket_step (now : Z) (s : socket) : socket → Prop :=
  | step_receive frame : so_running s = true → so_pending s = None → socket_step now s (receive_frame frame s)
  | step_handle frame : so_running s = true → so_pending s = Some frame → socket_step now s (handle_frame now frame s)
  | step_removed user : so_running s = true → socket_step now s (removed now user s)
  | step_broadcast message : so_running s = true → socket_step now s (listen_broadcast now message s)
  | step_targeted user_uuids permissions message : so_running s = true → socket_step now s (listen_targeted now user_uuids permissions message s)
  | step_stdout line : so_running s = true → socket_step now s (listen_stdout now line s)
  | step_jwt : so_running s = true → socket_step now s (listen_jwt now s)
  | step_others client users world : socket_step now s (with_client (λ _, client) (with_users (λ _, users) (with_world world s))).

Definition Socket_new (client : JwtClient) (users : UserPermissionsMap Override) (world : W) : socket :=
  mk_Socket client users None false false true None [] world.
Inductive socket_reachable : socket → Prop :=
  | socket_start client users world : socket_reachable (Socket_new client users world)
  | socket_next now s s' : socket_reachable s → socket_step now s s' → socket_reachable s'.
End socket.

(** ** Laws *)

(** What acts on the server, and what it takes *)
Definition is_act (e : LogEntry) : Prop := match e with Power _ | Stdin _ | Collab _ | Logged _ _ _ => True | Sent _ | Closed _ => False end.
Definition op_permission (op : CollabOp) : Permission :=
  match op with OpUpdate _ _ _ _ | OpSave _ _ _ _ _ | OpReload _ _ => FileUpdate | _ => FileReadContent end.

Section laws.
Context {Override : Type} (build : list string → option Override).
Context {W : Type} {SW : ServerWorld W} {WC : WebsocketCodec}.
Context (server_uuid connection_id : Z) (uuid_to_string : Z → string) (red : string → string).
Notation "'socket'" := (Socket Override W).
Notation "'M' A" := (stt (Socket Override W) string A) (at level 10).

(** What [has_permission] and its sibling have looked at *)
Definition checked (now : Z) (s : socket) (holds : UserPermissionsMap Override → WebsocketJwtPayload → Prop) : Prop :=
  ∃ j, so_jwt s = Some j ∧ validate (wj_base j) (so_client s) (Some WEBSOCKET) now = Ok tt ∧ wj_server_uuid j = server_uuid ∧ holds (so_users s) j.
Definition user_holds (permission : Permission) (users : UserPermissionsMap Override) (j : WebsocketJwtPayload) : Prop :=
  ∃ u, upm_map users !! wj_user_uuid j = Some u ∧ has_permission (up_permissions u) permission = true.
(** Users of another kind of panel, and users whose permissions are not known, may read the console. *)
Definition user_may_read (users : UserPermissionsMap Override) (j : WebsocketJwtPayload) : Prop :=
  ∀ u, upm_map users !! wj_user_uuid j = Some u → has_calagopus_permission_or (up_permissions u) ControlReadConsole true = true.
Definition same_but_users (s s' : socket) : Prop :=
  so_jwt s' = so_jwt s ∧ so_log s' = so_log s ∧ so_closed s' = so_closed s ∧ so_client s' = so_client s ∧ so_pending s' = so_pending s ∧ so_running s' = so_running s.

Lemma get_server_spec now s : (get_server server_uuid now s).2 = s ∧
  ∀ user, (get_server server_uuid now s).1 = Ok user → checked now s (λ _ j, wj_user_uuid j = user).
Proof.
  unfold get_server, get_jwt, Prelude.get_state, mbind, stt_bind, checked. destruct (so_jwt s) as [j|]; [|done].
  destruct (validate _ _ _ _) as [[]|e] eqn:Hv; [|done]. destruct (is_known _ && _) eqn:Hk; [|done]. split; [done|].
  intros user [= <-]. apply andb_true_iff in Hk as [_ Hk%Z.eqb_eq]. by exists j.
Qed.
Lemma asks_users {A} now (f : Z → UserPermissionsMap Override → A * UserPermissionsMap Override) (holds : A → UserPermissionsMap Override → WebsocketJwtPayload → Prop) s :
  (∀ users j, holds (f (wj_user_uuid j) users).1 users j) →
  let r := (user_uuid ← get_server server_uuid now; on_users (f user_uuid)) s in
  same_but_users s r.2 ∧ ∀ a, r.1 = Ok a → checked now s (holds a).
Proof.
  intros Hf. destruct (get_server_spec now s) as [Hs Hu]. unfold mbind, stt_bind in *.
  destruct (get_server server_uuid now s) as [[user|e] s1]; cbn [fst snd] in *; subst s1; [|by repeat split].
  unfold on_users. destruct (Hu user eq_refl) as (j & Hj & Hv & Hk & <-). specialize (Hf (so_users s) j).
  destruct (f _ _) as [a users']. split; [by repeat split|]. intros a' [= <-]. by exists j.
Qed.
Lemma socket_has_permission_spec now p s : let r := socket_has_permission server_uuid now p s in
  same_but_users s r.2 ∧ (r.1 = Ok true → checked now s (user_holds p)).
Proof.
  destruct (asks_users now (λ u, user_has_permission (timestamp now) u p) (λ a users j, a = true → user_holds p users j) s) as [Hs Hc].
  - intros users j. unfold user_has_permission, user_holds. destruct (_ !! _) as [u|]; [|done]. intros Hp. by exists u.
  - split; [done|]. intros Hr. destruct (Hc _ Hr) as (j & ? & ? & ? & ?). exists j. auto.
Qed.
Lemma socket_may_read_spec now s : let r := socket_has_calagopus_permission_or server_uuid now ControlReadConsole true s in
  same_but_users s r.2 ∧ (r.1 = Ok true → checked now s user_may_read).
Proof.
  destruct (asks_users now (λ u, user_has_calagopus_permission_or (timestamp now) u ControlReadConsole true) (λ a users j, a = true → user_may_read users j) s)
    as [Hs Hc].
  - intros users j. unfold user_has_calagopus_permission_or, user_may_read. destruct (_ !! _) as [u|]; [|done]. intros Hp u' [= <-]. done.
  - split; [done|]. intros Hr. destruct (Hc _ Hr) as (j & ? & ? & ? & ?). exists j. auto.
Qed.

(** The token allows the act; editing asks for what the user has now. *)
Definition allows (users : UserPermissionsMap Override) (j : WebsocketJwtPayload) (e : LogEntry) : Prop :=
  match e with
  | Power CallStart => has_permission (wj_permissions j) ControlStart = true
  | Power CallRestart | Power (CallRestartWithKillTimeout _) => has_permission (wj_permissions j) ControlRestart = true
  | Power CallStop | Power (CallStopWithKillTimeout _) | Power CallKill => has_permission (wj_permissions j) ControlStop = true
  | Stdin _ => has_permission (wj_permissions j) ControlConsole = true
  | Collab op => user_holds (op_permission op) users j
  | Logged _ user _ => user = wj_user_uuid j
  | Sent m => wm_event m = ServerConsoleOutput → has_calagopus_permission_or (wj_permissions j) ControlReadConsole true = true
  | Closed _ => True
  end.

Section emits.
Context (P : LogEntry → Prop) (j : WebsocketJwtPayload).

(** A computation under the token [j] that only adds entries with [P] *)
Definition emits_at (s : socket) {A} (x : M A) : Prop := so_jwt s = Some j →
  so_jwt (x s).2 = Some j ∧ ∃ new, so_log (x s).2 = so_log s ++ new ∧ Forall P new.
Definition emits {A} (x : M A) : Prop := ∀ s, emits_at s x.

Lemma emits_still {A} (x : M A) : (∀ s, so_jwt (x s).2 = so_jwt s ∧ so_log (x s).2 = so_log s) → emits x.
Proof. intros Hx s Hs. destruct (Hx s) as [-> ->]. split; [done|]. exists []. by rewrite app_nil_r. Qed.
Lemma emits_ret {A} (a : A) : emits (mret a).
Proof. by apply emits_still. Qed.
Lemma emits_throw {A} e : emits (throw e : M A).
Proof. by apply emits_still. Qed.
Lemma emits_at_bind s {A B} (x : M A) (f : A → M B) : emits_at s x → (∀ a s', so_jwt s = Some j → (x s).1 = Ok a → emits_at s' (f a)) → emits_at s (x ≫= f).
Proof.
  intros Hx Hf Hs. destruct (Hx Hs) as (Hj & new & Hl & Hn). unfold mbind, stt_bind in *.
  destruct (x s) as [[a|e] s1]; cbn [fst snd] in *; [|by eauto].
  destruct (Hf a s1 Hs eq_refl Hj) as (Hj2 & new2 & Hl2 & Hn2). split; [done|]. exists (new ++ new2). rewrite Hl2, Hl, app_assoc.
  split; [done|]. by apply Forall_app.
Qed.
Lemma emits_mbind {A B} (x : M A) (f : A → M B) : emits x → (∀ a, emits (f a)) → emits (x ≫= f).
Proof. intros Hx Hf s. apply emits_at_bind; [apply Hx|]. intros a s' _ _. apply Hf. Qed.
Lemma emits_foreach {A} (f : A → M unit) l : (∀ a, emits (f a)) → emits (foreach f l).
Proof. intros Hf. induction l as [|a l IH]; [by apply emits_ret|]. by apply emits_mbind. Qed.
Lemma emits_at_get_jwt s {A} (k : WebsocketJwtPayload → M A) : emits_at s (k j) → emits_at s (jwt ← get_jwt; k jwt).
Proof. intros Hk Hs. unfold get_jwt, mbind, stt_bind. rewrite Hs. by apply Hk. Qed.
Lemma emits_get_jwt {A} (k : WebsocketJwtPayload → M A) : emits (k j) → emits (jwt ← get_jwt; k jwt).
Proof. intros Hk s. by apply emits_at_get_jwt. Qed.
Lemma emits_ask {A} (f : W → A) : emits (ask_server f).
Proof. by apply emits_still. Qed.
Lemma emits_record e : P e → emits (modify (record e)).
Proof. intros He s Hs. split; [done|]. exists [e]. split; [done|]. by constructor. Qed.
Lemma emits_call {A} e (f : W → A * W) : P e → emits (call_server e f).
Proof. intros He s Hs. unfold call_server. destruct (f _) as [a w]. split; [done|]. exists [e]. split; [done|]. by constructor. Qed.
Lemma emits_send m : P (Sent m) → emits (send_message m).
Proof.
  intros He s Hs. unfold send_message, modify. cbn [snd]. destruct (so_closed s); (split; [done|]).
  - exists []. by rewrite app_nil_r.
  - exists [Sent m]. split; [done|]. by constructor.
Qed.
Lemma emits_send_error m : P (Sent (mk_Message ServerDaemonMessage [red m])) → emits (send_error red m).
Proof. by apply emits_record. Qed.
Lemma emits_send_admin_error m : (∀ l, P (Sent (mk_Message ServerDaemonMessage l))) → emits (send_admin_error red m).
Proof. intros He s Hs. split; [done|]. eexists [_]. split; [done|]. constructor; [apply He|done]. Qed.
Lemma emits_log_activity ev c : P (Logged ev (wj_user_uuid j) c) → emits (log_activity_of ev c).
Proof. intros He. apply emits_get_jwt. by apply emits_record. Qed.
Lemma emits_at_same s {A} (x : M A) : same_but_users s (x s).2 → emits_at s x.
Proof. intros (Hj & Hl & _) Hs. rewrite Hj, Hl. split; [done|]. exists []. by rewrite app_nil_r. Qed.
End emits.

(** The steps of the proofs that a computation [emits] *)
Ltac emits_step :=
  match goal with
  | |- ∀ s, emits_at ?P ?j s ?x => change (emits P j x)
  | |- emits _ _ (mbind _ get_jwt) => apply emits_get_jwt
  | |- emits _ _ (mbind _ _) => apply emits_mbind; [|intros ?]
  | |- emits _ _ (foreach _ _) => apply emits_foreach; intros ?
  | |- emits _ _ (mret _) => apply emits_ret
  | |- emits _ _ (throw _) => apply emits_throw
  | |- emits _ _ (ask_server _) => apply emits_ask
  | |- emits _ _ (modify (with_binary _)) => by apply emits_still
  | |- emits _ _ (modify (record _)) => apply emits_record
  | |- emits _ _ (call_server _ _) => apply emits_call
  | |- emits _ _ (send_message _) => apply emits_send; first [done|intros ?]
  | |- emits _ _ (send_error _ _) => apply emits_send_error; done
  | |- emits _ _ (send_admin_error _ _) => apply emits_send_admin_error; done
  | |- emits _ _ (log_activity_of _ _) => apply emits_log_activity; done
  | |- emits _ _ (let '(_, _) := ?x in _) => destruct x
  | |- emits _ _ (match ?x with _ => _ end) => let E := fresh "E" in destruct x eqn:E
  end.
Ltac emits := repeat emits_step; rewrite ?negb_false_iff in *; try done.

Section handlers.
Context (users : UserPermissionsMap Override) (j : WebsocketJwtPayload).
Abbreviation emits := (emits (allows users j) j).

Lemma run_power_emits call ev : allows users j (Power call) → emits (run_power red call ev).
Proof. intros Hc. unfold run_power. emits. Qed.
Lemma run_kill_emits : allows users j (Power CallKill) → emits (run_kill red).
Proof. intros Hc. unfold run_kill. emits. Qed.
Lemma set_state_emits action : emits (set_state red action).
Proof.
  unfold set_state. apply emits_get_jwt.
  destruct action; repeat (emits_step || (apply run_power_emits; cbn) || apply run_kill_emits);
    rewrite ?negb_false_iff in *; repeat case_match; done.
Qed.
Lemma op_required event path args op : collab_op connection_id uuid_to_string event j path args = Some op → op_permission op = required_permission event.
Proof. intros H. destruct event; cbn in H; repeat case_match; by simplify_eq. Qed.

Lemma handle_collab_emits now event args s : users = so_users s → emits_at (allows users j) j s (handle_collab server_uuid connection_id uuid_to_string now event args).
Proof.
  intros Hu. destruct args as [|path args]; [apply emits_ret|]. cbn [handle_collab]. apply emits_at_get_jwt.
  destruct (socket_has_permission_spec now (required_permission event) s) as [Hsame Hc].
  apply emits_at_bind; [by apply emits_at_same|]. intros allowed s' Hs Ha. revert s'. emits.
  cbn. rewrite (op_required _ _ _ _ E0), Hu. rewrite E in Ha. destruct (Hc Ha) as (j' & Hj' & _ & _ & Hh). by simplify_eq.
Qed.
Lemma handle_message_emits now message s : users = so_users s →
  emits_at (allows users j) j s (handle_message server_uuid connection_id uuid_to_string red now message).
Proof.
  intros Hu. unfold handle_message. destruct (wm_event message) eqn:Ev; try (by apply handle_collab_emits); revert s Hu; intros s _; revert s.
  all: repeat (emits_step || apply set_state_emits); rewrite ?negb_false_iff in *; try done.
Qed.
End handlers.

(** *** The token of a connection *)

(** A token that was shown, for this server, that may connect *)
Definition token_ok (j : WebsocketJwtPayload) : Prop :=
  (∃ token, verify token = Some j) ∧ has_permission (wj_permissions j) WebsocketConnect = true ∧ wj_server_uuid j = server_uuid.
Definition socket_ok (s : socket) : Prop := ∀ j, so_jwt s = Some j → token_ok j.

(** Adding only what is not an act *)
Definition only_sends (s s' : socket) : Prop := ∃ new, so_log s' = so_log s ++ new ∧ Forall (λ e, ¬ is_act e) new.
Lemma only_sends_refl s s' : so_log s' = so_log s → only_sends s s'.
Proof. intros H. exists []. by rewrite app_nil_r. Qed.
Lemma only_sends_trans s1 s2 s3 : only_sends s1 s2 → only_sends s2 s3 → only_sends s1 s3.
Proof.
  intros (n1 & H1 & F1) (n2 & H2 & F2). exists (n1 ++ n2). rewrite H2, H1, app_assoc. split; [done|]. by apply Forall_app.
Qed.
Lemma send_only m (s : socket) : let s' := (send_message m s).2 in only_sends s s' ∧ so_jwt s' = so_jwt s ∧ so_client s' = so_client s ∧ so_users s' = so_users s.
Proof.
  unfold send_message, modify. cbn [snd]. destruct (so_closed s); [by split; [apply only_sends_refl|]|].
  split; [|done]. exists [Sent m]. split; [done|]. constructor; [by intros []|done].
Qed.
Lemma close_only reason (s : socket) : let s' := (close reason s).2 in only_sends s s' ∧ so_jwt s' = so_jwt s.
Proof.
  unfold close, modify. cbn [snd]. destruct (so_closed s); [by split; [apply only_sends_refl|]|].
  split; [|done]. exists [Closed reason]. split; [done|]. constructor; [by intros []|done].
Qed.

(** What a frame's look at the token leaves *)
Definition jwt_result (now : Z) (s : socket) (r : result JwtError.JwtError (option WebsocketMessage) * socket) : Prop :=
  match r.1 with
  | Ok (Some _) => r.2 = s ∧ ∃ j, so_jwt s = Some j ∧ validate (wj_base j) (so_client s) (Some WEBSOCKET) now = Ok tt
  | _ => only_sends s r.2 ∧ (so_jwt r.2 = so_jwt s ∨ ∃ j, so_jwt r.2 = Some j ∧ token_ok j)
  end.
Lemma authenticate_result now token s : jwt_result now s (authenticate build server_uuid now token s).
Proof.
  unfold authenticate, jwt_result.
  destruct (verify token) as [j|] eqn:Hj; [|by split; [apply only_sends_refl|left]].
  destruct (validate _ _ _ _) as [[]|e]; [|by split; [apply only_sends_refl|left]].
  destruct (has_permission (wj_permissions j) WebsocketConnect) eqn:Hp; [|by split; [apply only_sends_refl|left]].
  destruct (wj_server_uuid j =? server_uuid) eqn:Hu; cbn [negb orb].
  - apply Z.eqb_eq in Hu. assert (token_ok j) as Hok by by split; [exists token|].
    set (s1 := (send_message _ s).2). set (s2 := with_jwt _ (with_users _ s1)).
    assert (only_sends s s2) as H1 by apply (send_only _ s).
    destruct (so_jwt (with_users _ s1)); [split; [done|right; by exists j]|].
    set (s3 := (send_message _ s2).2). destruct (send_only (mk_Message ServerStatus [ServerState.to_str (get_state_of (so_world s2))]) s2) as (H2 & Hj2 & _).
    fold s3 in H2, Hj2. assert (only_sends s s3) as H3 by by eapply only_sends_trans.
    destruct (has_calagopus_permission_or _ _ _); cbn [fst snd]; (split; [|right; exists j; split; [|done]]); try done.
    + eapply only_sends_trans; [done|]. apply send_only.
    + destruct (send_only (mk_Message ServerDaemonMessage [missing_console]) s3) as (_ & -> & _). done.
  - destruct (send_only (mk_Message TokenExpired []) s) as (H1 & H2 & _). by split; [|left].
Qed.
Lemma handle_jwt_result now frame s : jwt_result now s (handle_jwt build server_uuid now frame s).
Proof.
  unfold handle_jwt. destruct (match frame with TextFrame _ => _ | _ => _ end) as [[m|]|];
    [|by split; [apply only_sends_refl|left]|by split; [apply only_sends_refl|left]].
  enough (jwt_result now s match so_jwt s with
    | Some jwt =>
        match validate (wj_base jwt) (so_client s) (Some WEBSOCKET) now with
        | Ok _ => if negb (has_permission (wj_permissions jwt) WebsocketConnect) then (Err JwtError.CloseSocket, s) else (Ok (Some m), s)
        | Err err => (Err (JwtError.MiscStr (invalid_token err)), s)
        end
    | None => (Err JwtError.CloseSocket, s)
    end) as H by (destruct (wm_event m); first [done|apply authenticate_result]).
  destruct (so_jwt s) as [j|] eqn:Hj; [|by split; [apply only_sends_refl|left]].
  destruct (validate _ _ _ _) as [[]|e] eqn:Hv; [|by split; [apply only_sends_refl|left]].
  destruct (negb _); [by split; [apply only_sends_refl|left]|]. split; [done|]. by exists j.
Qed.

(** What a turn adds to the log, and the token it leaves *)
Definition turn_ok (now : Z) (s s' : socket) : Prop :=
  (∃ new, so_log s' = so_log s ++ new ∧
    Forall (λ e, is_act e → ∃ j, so_jwt s = Some j ∧ token_ok j ∧
      validate (wj_base j) (so_client s) (Some WEBSOCKET) now = Ok tt ∧ allows (so_users s) j e) new) ∧
  (socket_ok s → socket_ok s').
Lemma only_sends_turn now s s' : only_sends s s' → (so_jwt s' = so_jwt s ∨ so_jwt s' = None ∨ ∃ j, so_jwt s' = Some j ∧ token_ok j) → turn_ok now s s'.
Proof.
  intros (new & Hl & Hn) Hj. split.
  - exists new. split; [done|]. eapply list.Forall_impl; [done|]. by intros e He.
  - intros Hs j Hsj. destruct Hj as [Hj|[Hj|(j' & Hj & Hok)]]; [apply Hs; congruence|congruence|]. by simplify_eq.
Qed.
Lemma handle_frame_turn now frame s : socket_ok s → turn_ok now s (handle_frame build server_uuid connection_id uuid_to_string red now frame s).
Proof.
  intros Hs. unfold handle_frame. pose proof (handle_jwt_result now frame s) as H. unfold jwt_result in H.
  destruct (handle_jwt build server_uuid now frame s) as [[[message|]|e] s1]; cbn [fst snd] in H.
  - destruct H as [-> (j & Hj & Hv)].
    destruct (handle_message_emits (so_users s) j now message s eq_refl Hj) as (Hj' & new & Hl & Hn).
    split; [|intros _ j' Hj''; apply Hs; cbn in Hj''; by rewrite Hj', <- Hj in Hj''].
    exists new. split; [done|]. eapply list.Forall_impl; [done|]. intros e He _. exists j. by split; [|split; [apply Hs|]].
  - apply only_sends_turn; [apply H|]. destruct H as [_ [H|H]]; [by left|by right; right].
  - assert (∀ m, turn_ok now s (with_pending None (send_message m s1).2)) as Hsend.
    { intros m. destruct (send_only m s1) as (H1 & H2 & _). apply only_sends_turn.
      - eapply only_sends_trans; [apply H|done].
      - assert (so_jwt (with_pending None (send_message m s1).2) = so_jwt s1) as -> by exact H2. destruct H as [_ [H|H]]; [by left|by right; right]. }
    destruct e; try apply Hsend; (apply only_sends_turn; [apply H|]; destruct H as [_ [H|H]]; [by left|by right; right]).
Qed.
Lemma listen_broadcast_turn now message s : turn_ok now s (listen_broadcast server_uuid now message s).
Proof.
  apply only_sends_turn.
  - unfold listen_broadcast. destruct (broadcast_permission _) as [p|].
    + unfold mbind, stt_bind. destruct (socket_has_permission_spec now p s) as [(_ & Hl & _) _].
      destruct (socket_has_permission _ _ _ _) as [[[]|e] s1]; cbn [fst snd] in *.
      * eapply only_sends_trans; [by apply only_sends_refl|apply (send_only message)].
      * by apply only_sends_refl.
      * eapply only_sends_trans; [by apply only_sends_refl|apply (send_only _ s1)].
    + apply (send_only message).
  - left. unfold listen_broadcast. destruct (broadcast_permission _) as [p|]; [|by destruct (send_only message s) as (_ & H & _)].
    unfold mbind, stt_bind. destruct (socket_has_permission_spec now p s) as [(Hj & _) _].
    destruct (socket_has_permission _ _ _ _) as [[[]|e] s1]; cbn [fst snd] in *; [|done|].
    + rewrite <- Hj. apply (send_only message).
    + rewrite <- Hj. apply (send_only _ s1).
Qed.
Lemma listen_stdout_turn now line s : turn_ok now s (listen_stdout server_uuid now line s).
Proof.
  unfold listen_stdout. destruct (socket_may_read_spec now s) as [(Hj & Hl & _) _].
  destruct (socket_has_calagopus_permission_or _ _ _ _ s) as [r s1]; cbn [fst snd] in *.
  assert (∀ m, turn_ok now s (send_message m s1).2) as Hsend.
  { intros m. destruct (send_only m s1) as (H1 & H2 & _). apply only_sends_turn; [|left; congruence].
    eapply only_sends_trans; [by apply only_sends_refl|done]. }
  destruct r as [[]|]; apply Hsend.
Qed.
Lemma socket_step_turn now s s' : socket_ok s → socket_step build server_uuid connection_id uuid_to_string red now s s' → turn_ok now s s'.
Proof.
  intros Hs [frame _ _|frame _ _|user _|message _|user_uuids permissions message _|line _|_|client users world].
  - apply only_sends_turn; unfold receive_frame; destruct frame; repeat case_match; first [by apply only_sends_refl|by left].
  - by apply handle_frame_turn.
  - unfold removed. destruct (so_jwt s) as [j|] eqn:Hj; [|by apply only_sends_turn; [apply only_sends_refl|left]].
    destruct (_ && _); [|by apply only_sends_turn; [apply only_sends_refl|left]].
    destruct (close_only "permission revoked" (with_client (deny (jp_jwt_id (wj_base j)) now) s)) as [H1 H2].
    apply only_sends_turn; [done|left]. exact H2.
  - apply listen_broadcast_turn.
  - apply only_sends_turn.
    + unfold listen_targeted. repeat case_match; try by apply only_sends_refl. apply (send_only message).
    + left. unfold listen_targeted. repeat case_match; try done. by destruct (send_only message s) as (_ & -> & _).
  - apply listen_stdout_turn.
  - unfold listen_jwt. destruct (so_jwt s) eqn:Hj; [|by apply only_sends_turn; [apply only_sends_refl|left]].
    repeat case_match; (apply only_sends_turn; [|]); try (by apply only_sends_refl); try (by left); try (by right; left); try (apply (send_only _ s)).
    left. by destruct (send_only (mk_Message TokenExpiring []) s) as (_ & -> & _).
  - apply only_sends_turn; [by apply only_sends_refl|by left].
Qed.
Lemma socket_reachable_ok s : socket_reachable build server_uuid connection_id uuid_to_string red s → socket_ok s.
Proof.
  induction 1 as [client users world|now s s' _ IH Hstep]; [by intros j|]. by apply (socket_step_turn now s s' IH Hstep).
Qed.

(** C37. Whatever happens on a connection, what it does to the server - a power
    action, a line of input, an operation of the shared editor, an entry of
    the activity log - is done for a token that was shown and verified, is
    for this server, may connect and is valid at that moment, and whose
    permissions (for the editor: what the user holds now) allow that act. *)
Theorem acts_authorised now s s' (Hs : socket_reachable build server_uuid connection_id uuid_to_string red s)
    (Hstep : socket_step build server_uuid connection_id uuid_to_string red now s s') :
  ∃ new, so_log s' = so_log s ++ new ∧
    Forall (λ e, is_act e → ∃ j, so_jwt s = Some j ∧ token_ok j ∧
      validate (wj_base j) (so_client s) (Some WEBSOCKET) now = Ok tt ∧ allows (so_users s) j e) new.
Proof. by apply (socket_step_turn now s s'); [apply socket_reachable_ok|]. Qed.

(** What is shown of the server, and whom to *)


(** A user whose permissions are not known holds none, but may read the console. *)
Definition holds (permission : Permission) (s : socket) (j : WebsocketJwtPayload) : bool :=
  match upm_map (so_users s) !! wj_user_uuid j with Some u => has_permission (up_permissions u) permission | None => false end.








End laws.

(** ** Examples *)

(** A world that answers and changes nothing, a token and its messages *)
#[local] Instance sample_world : ServerWorld unit := {|
  get_state_of _ := ServerState.Offline; is_restarting _ := false; is_pending_restart _ := false; resource_usage _ := "{}";
  auto_kill _ := (false, 0); send_offline_server_logs _ := true; logs_lines _ := [" started  "]; is_known _ := true;
  power _ w := (Ok tt, w); send_stdin _ w := (true, w); collab _ w := (Ok tt, w) |}.
Definition sample_token (permissions : Permissions) : WebsocketJwtPayload :=
  mk_Jwt (mk_BasePayload (chars "websocket") (Some 1000) None (Some 10) (chars "id")) 3 (Some "user") None 7 permissions None.
Definition sample_permissions : Permissions := {[WebsocketConnect; ControlStart; ControlConsole; FileReadContent]}.
#[local] Instance sample_codec : WebsocketCodec := {|
  verify token := if String.eqb token "token" then Some (sample_token sample_permissions) else None;
  from_json data := match data with
    | [1] => Some (mk_Message Authentication ["token"])
    | [2] => Some (mk_Message SetState ["start"])
    | [3] => Some (mk_Message SendCommand ["list"])
    | [4] => Some (mk_Message FileCollabSubscribe ["a.txt"])
    | [5] => Some (mk_Message FileCollabReload ["a.txt"])
    | [6] => Some (mk_Message SetState ["stop"])
    | [7] => Some (mk_Message SendServerLogs [])
    | _ => None
    end;
  from_msgpack _ := None |}.
Definition sample_start : Socket unit unit := Socket_new (mk_JwtClient 0 1 ∅ ∅) UserPermissionsMap_default tt.
Definition sample_handle (n : Z) (s : Socket unit unit) : Socket unit unit :=
  handle_frame (λ _, Some tt) 7 1 (λ _, "3") (λ m, m) (100 * NANOS) (TextFrame [n]) s.
Definition sample_receive (n : Z) (s : Socket unit unit) : Socket unit unit := receive_frame (TextFrame [n]) s.
Definition acts (s : Socket unit unit) : list LogEntry := List.filter (λ e, match e with Sent _ | Closed _ => false | _ => true end) (so_log s).

Example sample_session :
  let s := fold_left (λ s n, sample_handle n (sample_receive n s)) [1; 2; 3; 4; 5; 6; 7] sample_start in
  acts s = [Power CallStart; Logged ActivityEvent.PowerStart 3 None;
            Stdin ("list" +:+ String (Ascii.ascii_of_nat 10) EmptyString); Logged ActivityEvent.ConsoleCommand 3 (Some "list");
            Collab (OpSubscribe 1 3 "user" None (string_bytes "a.txt"))] ∧
  hd_error (rev (so_log s)) = Some (Sent (mk_Message ServerConsoleOutput ["started"])).
Proof. by vm_compute. Qed.
(** Without a token, the first message ends the connection. *)
Example no_token : let s := sample_handle 2 (sample_receive 2 sample_start) in so_running s = false ∧ so_log s = [].
Proof. by vm_compute. Qed.

(** What needs no permission is sent to connections that never showed a token. *)
Example broadcasts_reach_strangers :
  let message := mk_Message ServerStats ["{}"] in
  so_jwt sample_start = None ∧ so_log (listen_broadcast 7 (100 * NANOS) message sample_start) = [Sent message].
Proof. by vm_compute. Qed.

(** A removal while a message is handled is missed: the connection stays, its
    token can still start the server, and, since the user is no longer known,
    the lines of the console are sent. *)
Definition sample_removed : Socket unit unit :=
  let s := sample_receive 3 (sample_handle 1 (sample_receive 1 sample_start)) in
  removed (100 * NANOS) 3 (with_users (set_permissions (λ _, Some tt) 100 3 ∅ None) s).
Example removals_are_missed :
  let s := listen_stdout 7 (100 * NANOS) "line" (sample_handle 2 (sample_receive 2 (sample_handle 3 sample_removed))) in
  so_running s = true ∧ so_closed s = false ∧ jc_denied (so_client s) = ∅ ∧
  hd_error (rev (so_log s)) = Some (Sent (mk_Message ServerConsoleOutput ["line"])) ∧
  acts s = [Stdin ("list" +:+ String (Ascii.ascii_of_nat 10) EmptyString); Logged ActivityEvent.ConsoleCommand 3 (Some "list");
            Power CallStart; Logged ActivityEvent.PowerStart 3 None].
Proof. by vm_compute. Qed.

Lemma acts_authorised_witness :
  let s := sample_receive 2 (sample_handle 1 (sample_receive 1 sample_start)) in
  let s' := sample_handle 2 s in
  so_log s' = so_log s ++ [Power CallStart; Logged ActivityEvent.PowerStart 3 None] ∧
  ∃ new, so_log s' = so_log s ++ new ∧
    Forall (λ e, is_act e → ∃ j, so_jwt s = Some j ∧ token_ok 7 j ∧
      validate (wj_base j) (so_client s) (Some WEBSOCKET) (100 * NANOS) = Ok tt ∧ allows (so_users s) j e) new.
Proof.
  intros s s'. split; [by vm_compute|].
  apply (acts_authorised (λ _, Some tt) 7 1 (λ _, "3") (λ m, m) (100 * NANOS) s s').
  - do 3 (eapply (socket_next _ _ _ _ _ (100 * NANOS)); [|first [by apply step_receive|by apply step_handle; vm_compute]]). apply socket_start.
  - apply step_handle; by vm_compute.
Defined.
