(* ===== verification/Lifecycle.v ===== *)
(** * Lifecycle: starting, stopping and watching the process of a server
      (application/src/server/mod.rs)

    Every method is a program over the calls of the shared state, one call
    for each access of a lock, a flag, the executor or another component, so
    that tasks interleave between any two of them ([pool_step]).  The task
    that watches a process takes turns, one for each status.  A task that is
    aborted goes on until it would wait.  What the executor, the panel and
    the disk answer is chosen freely. *)
From S2P Require Import Prelude Effects Text ServerState Schedules.
Local Open Scope string_scope.
Local Open Scope list_scope.
Local Open Scope Z_scope.

(** ** The interface *)

Inductive Flag : Type := Suspended | Installing | Restoring | Transferring | Restarting | StoppingFlag | CrashHandled | DiskDirty.
#[export] Instance Flag_eq : EqDecision Flag.
Proof. solve_decision. Defined.

Module ProcessStatus.
Inductive ProcessStatus : Type := Running | Paused | Stopped (exit_code : Z) (oom_killed : bool).
End ProcessStatus.

(** Of a configuration, what [update_configuration] looks at; values that are
    only compared are numbers. *)
Record ServerConfigurationBuild : Type := mk_Build {
  sb_memory_limit : Z;
  sb_overhead_memory : Z;
  sb_swap : Z;
  sb_io_weight : option Z;
  sb_cpu_limit : Z;
  sb_disk_space : Z;
  sb_threads : option text;
  sb_oom_disabled : bool;
}.
Record ServerConfiguration : Type := mk_ServerConfiguration {
  sc_suspended : bool;
  sc_invocation : Z;
  sc_entrypoint : Z;
  sc_environment : Z;
  sc_allocations : Z;
  sc_mounts : Z;
  sc_container : Z;
  sc_build : ServerConfigurationBuild;
}.
Definition has_pending_restart (self other : ServerConfigurationBuild) : bool :=
  negb (sb_memory_limit self =? sb_memory_limit other)
  || negb (sb_overhead_memory self =? sb_overhead_memory other)
  || negb (sb_swap self =? sb_swap other)
  || negb (bool_decide (sb_io_weight self = sb_io_weight other))
  || negb (bool_decide (sb_threads self = sb_threads other))
  || negb (Bool.eqb (sb_oom_disabled self) (sb_oom_disabled other)).

(** The part of the process configuration that tells when a start is done *)
Record ProcessConfigurationStartup : Type := mk_Startup { ps_done : option (list text); ps_strip_ansi : bool }.

(** The settings of the daemon that are looked at *)
Record LifecycleConfig : Type := mk_LifecycleConfig {
  lc_crash_detection : bool;
  lc_detect_clean_exit : bool;
  lc_crash_timeout : Z;
  lc_delete_container_on_stop : bool;
  lc_check_permissions_on_boot : bool;
}.

(** What is started in the background *)
Inductive Background : Type :=
  | StartAfterRestart
  | StartAfterCrash
  | StopFull
  | ShutdownLimiter
  | Attached.

(** The calls.  [Lock] waits for the lock for a while, or not at all;
    [Dispose] is the rest of [destroy], in other components.  [LastCrash] is what is done under the lock of [last_crash]:
    whether the last crash is too recent; otherwise it becomes now. *)
Inductive ServerE : Type → Type :=
  | GetState : ServerE ServerState.ServerState
  | SetStateBegin (state : ServerState.ServerState) : ServerE bool
  | SetStateEnd (state : ServerState.ServerState) : ServerE unit
  | GetPending : ServerE bool
  | SetPending : ServerE unit
  | Lock (wait : bool) : ServerE bool
  | Unlock : ServerE unit
  | WaitUntil (predicate : ServerState.ServerState → bool) : ServerE bool
  | GetFlag (f : Flag) : ServerE bool
  | SetFlag (f : Flag) (b : bool) : ServerE unit
  | LastCrash : ServerE bool
  | GetHandle : ServerE (option Z)
  | SetHandle (p : option Z) : ServerE unit
  | WatchStatus (p : Z) : ServerE unit
  | UnwatchStatus : ServerE unit
  | SubscribeStdout (p : Z) : ServerE bool
  | GetStartup : ServerE ProcessConfigurationStartup
  | WatchStartup (p : Z) (startup : ProcessConfigurationStartup) : ServerE unit
  | UnwatchStartup : ServerE unit
  | RecvStatus (p : Z) : ServerE (option ProcessStatus.ProcessStatus)
  | RecvLine (p : Z) : ServerE (option (option text))
  | SetupProcess : ServerE (option Z)
  | AttachProcess : ServerE (option Z)
  | CleanupProcess : ServerE bool
  | StartProcess (p : Z) : ServerE bool
  | StopProcess (p : Z) : ServerE bool
  | KillProcess (p : Z) : ServerE bool
  | SyncProcess (p : Z) : ServerE bool
  | Spawn (b : Background) : ServerE unit
  | PowerTrigger (action : ServerPowerAction.ServerPowerAction) : ServerE unit
  | CrashTrigger : ServerE unit
  | Say (message : string) : ServerE unit
  | FetchConfiguration : ServerE (option (ServerConfiguration * ProcessConfigurationStartup))
  | ReplaceConfiguration (c : ServerConfiguration) : ServerE ServerConfiguration
  | ReplaceStartup (startup : ProcessConfigurationStartup) : ServerE unit
  | UpdateIgnored : ServerE unit
  | UpdateSchedules : ServerE unit
  | GetDiskSpace : ServerE Z
  | UpdateDiskLimit (limit : Z) : ServerE unit
  | SetupFilesystem : ServerE unit
  | LimiterStartup : ServerE bool
  | LimiterShutdown : ServerE unit
  | IsFull : ServerE bool
  | DiskCheckStale : ServerE bool
  | RerunDiskChecker : ServerE unit
  | AwaitDiskCheck : ServerE unit
  | UpdateFiles : ServerE unit
  | Chown : ServerE bool
  | Dispose : ServerE unit
  | Sleep (seconds : Z) : ServerE unit.

Abbreviation sprog := (prog ServerE).
(** The [?] operator on [anyhow] errors, by their message *)
Definition try {A B} (m : sprog (result string A)) (k : A → sprog (result string B)) : sprog (result string B) :=
  r ← m; match r with Ok a => k a | Err e => mret (Err e) end.
Notation "x ←? m ; k" := (try m (λ x, k)) (at level 100, m at next level, k at level 200, right associativity) : wings_scope.
Definition when (b : bool) (m : sprog unit) : sprog unit := if b then m else mret tt.

Section methods.
Context (config : LifecycleConfig).

Definition set_state (state : ServerState.ServerState) : sprog unit :=
  changed ← call (SetStateBegin state); when changed (call (SetStateEnd state)).

Definition execute_action (state : ServerState.ServerState) (action : sprog (result string unit)) (wait : bool) : sprog (result string bool) :=
  old_state ← call GetState;
  got ← call (Lock wait);
  if negb got then mret (Ok false) else
  _ ← set_state state;
  r ← action;
  match r with
  | Ok _ => _ ← call Unlock; mret (Ok true)
  | Err err => _ ← set_state old_state; _ ← call Unlock; mret (Err err)
  end.

(** *** The output while a server starts *)

Definition ESC : Z := 27.
Definition is_ascii_alphabetic (c : Z) : bool := ((65 <=? c) && (c <=? 90)) || ((97 <=? c) && (c <=? 122)).
(** The characters after an escape, up to the letter that ends it *)
Fixpoint skip_escape (chars : text) : text :=
  match chars with
  | [] => []
  | next :: chars => if is_ascii_alphabetic next then chars else skip_escape chars
  end.
(** Removing escapes; [fuel] is the length of the line. *)
Fixpoint strip_loop (fuel : nat) (chars : text) : text :=
  match fuel, chars with
  | Datatypes.S fuel, c :: chars => if c =? ESC then strip_loop fuel (skip_escape chars) else c :: strip_loop fuel chars
  | _, _ => []
  end.
Definition strip_ansi (line : text) : text := strip_loop (length line) line.
Fixpoint text_contains (line pattern : text) : bool :=
  starts_with line pattern || match line with [] => false | _ :: line => text_contains line pattern end.

Definition check_startup (startup : ProcessConfigurationStartup) (line : text) : sprog bool :=
  state ← call GetState;
  if negb (bool_decide (state = ServerState.Starting)) then mret true else
  match ps_done startup with
  | Some done_vec =>
      let line := if ps_strip_ansi startup then strip_ansi line else line in
      if existsb (text_contains line) done_vec then _ ← set_state ServerState.Running; mret true else mret false
  | None => _ ← set_state ServerState.Running; mret true
  end.
(** A turn of the task; it ends when this is [false]. *)
Definition startup_turn (p : Z) (startup : ProcessConfigurationStartup) : sprog bool :=
  received ← call (RecvLine p);
  match received with
  | Some (Some line) => finished ← check_startup startup line; mret (negb finished)
  | Some None => mret true
  | None => mret false
  end.
Definition setup_startup_task (p : Z) : sprog unit :=
  startup ← call GetStartup;
  subscribed ← call (SubscribeStdout p);
  when subscribed (call (WatchStartup p startup)).

(** *** The process *)

(** An error of the removal is only written to the log of the daemon. *)
Definition destroy_container : sprog unit :=
  _ ← call CleanupProcess; _ ← call (SetHandle None); _ ← call UnwatchStatus; call UnwatchStartup.
Definition setup_container : sprog (result string unit) :=
  _ ← call (SetFlag CrashHandled false);
  handle ← call GetHandle;
  match handle with
  | Some _ => mret (Ok tt)
  | None =>
      process ← call SetupProcess;
      match process with
      | None => mret (Err "setup")
      | Some p => _ ← call (WatchStatus p); _ ← setup_startup_task p; _ ← call (SetHandle (Some p)); mret (Ok tt)
      end
  end.
Definition attach_container : sprog (result string unit) :=
  handle ← call GetHandle;
  match handle with
  | Some _ => mret (Ok tt)
  | None =>
      process ← call AttachProcess;
      match process with
      | None => mret (Ok tt)
      | Some p =>
          _ ← call (SetFlag CrashHandled true); _ ← call (WatchStatus p); _ ← setup_startup_task p;
          _ ← call (SetHandle (Some p)); _ ← call (Spawn Attached); mret (Ok tt)
      end
  end.
Definition sync_container : sprog (result string unit) :=
  space ← call GetDiskSpace;
  _ ← call (UpdateDiskLimit (space * 1024 * 1024));
  handle ← call GetHandle;
  match handle with
  | Some p => ok ← call (SyncProcess p); mret (if (ok : bool) then Ok tt else Err "sync")
  | None => mret (Ok tt)
  end.

(** *** Configuration *)

Definition needs_restart (old new : ServerConfiguration) : bool :=
  negb (sc_invocation old =? sc_invocation new) || negb (sc_entrypoint old =? sc_entrypoint new)
  || negb (sc_environment old =? sc_environment new) || negb (sc_allocations old =? sc_allocations new)
  || negb (sc_mounts old =? sc_mounts new) || negb (sc_container old =? sc_container new)
  || has_pending_restart (sc_build old) (sc_build new).
Definition update_configuration (configuration : ServerConfiguration) (startup : ProcessConfigurationStartup) (skip_pending_restart_check : bool) : sprog unit :=
  _ ← call UpdateIgnored;
  _ ← call (SetFlag Suspended (sc_suspended configuration));
  old ← call (ReplaceConfiguration configuration);
  _ ← (if skip_pending_restart_check then mret tt else
       pending ← call GetPending;
       when (negb pending && needs_restart old configuration) (call SetPending));
  _ ← call (ReplaceStartup startup);
  _ ← call UpdateSchedules;
  _ ← sync_container;
  mret tt.
Definition sync_configuration (skip_pending_restart_check : bool) : sprog unit :=
  answer ← call FetchConfiguration;
  match answer with
  | Some (configuration, startup) => update_configuration configuration startup skip_pending_restart_check
  | None => mret tt
  end.

(** *** Power actions *)

Definition locked_state : sprog (option string) :=
  suspended ← call (GetFlag Suspended);
  if (suspended : bool) then mret (Some "suspended") else
  installing ← call (GetFlag Installing);
  if (installing : bool) then mret (Some "installing") else
  restoring ← call (GetFlag Restoring);
  if (restoring : bool) then mret (Some "restoring") else
  transferring ← call (GetFlag Transferring);
  mret (if (transferring : bool) then Some "transferring" else None).

Definition check_disk : sprog unit :=
  dirty ← call (GetFlag DiskDirty);
  if (dirty : bool) then mret tt else
  stale ← call DiskCheckStale;
  when stale
    (_ ← call (Say "Recalculating disk usage before startup, this may take a moment..."); _ ← call RerunDiskChecker; call AwaitDiskCheck).
Definition check_boot_permissions : sprog (result string unit) :=
  if negb (lc_check_permissions_on_boot config) then mret (Ok tt) else
  _ ← call (Say "Ensuring file permissions are set correctly, this could take a few seconds...");
  ok ← call Chown;
  mret (if (ok : bool) then Ok tt else Err "chown").
Definition start_process : sprog (result string unit) :=
  handle ← call GetHandle;
  match handle with
  | None => mret (Ok tt)
  | Some p => ok ← call (StartProcess p); mret (if (ok : bool) then Ok tt else Err "start")
  end.
Definition start_action : sprog (result string unit) :=
  _ ← call SetupFilesystem;
  ok ← call LimiterStartup;
  if negb ok then mret (Err "disk limiter") else
  _ ← destroy_container;
  _ ← sync_configuration true;
  _ ← check_disk;
  full ← call IsFull;
  if (full : bool) then mret (Err "Disk space is full, cannot start the server.") else
  _ ← call (Say "Updating process configuration files...");
  _ ← call UpdateFiles;
  _ ←? check_boot_permissions;
  _ ←? setup_container;
  start_process.

Definition BUSY : string := "Another power action is currently being processed for this server, please try again later.".
Definition start (wait skip_schedules : bool) : sprog (result string unit) :=
  locked ← locked_state;
  match locked with
  | Some state => mret (Err ("Server is in a locked state (" +:+ state +:+ "), cannot start the server."))
  | None =>
      state ← call GetState;
      if negb (bool_decide (state = ServerState.Offline)) then mret (Err "Server is already running.") else
      executed ←? execute_action ServerState.Starting start_action wait;
      if (executed : bool) then _ ← when (negb skip_schedules) (call (PowerTrigger ServerPowerAction.Start)); mret (Ok tt)
      else mret (Err BUSY)
  end.

Definition kill (skip_schedules : bool) : sprog (result string unit) :=
  state ← call GetState;
  if bool_decide (state = ServerState.Offline) then mret (Ok tt) else
  handle ← call GetHandle;
  match handle with
  | None => mret (Ok tt)
  | Some p =>
      _ ← call (SetFlag StoppingFlag true);
      killed ← call (KillProcess p);
      if (killed : bool) then
        _ ← when (negb skip_schedules) (call (PowerTrigger ServerPowerAction.Kill));
        _ ← set_state ServerState.Offline;
        mret (Ok tt)
      else mret (Ok tt)
  end.

Definition stop_action : sprog (result string unit) :=
  _ ← call (SetFlag StoppingFlag true);
  handle ← call GetHandle;
  match handle with
  | Some p => _ ← call (StopProcess p); mret (Ok tt)
  | None => mret (Ok tt)
  end.
Definition stop (wait skip_schedules : bool) : sprog (result string unit) :=
  state ← call GetState;
  if bool_decide (state = ServerState.Offline) then mret (Err "Server is already stopped.") else
  state ← call GetState;
  if bool_decide (state = ServerState.Stopping) then mret (Err "Server is already stopping.") else
  executed ← execute_action ServerState.Stopping stop_action wait;
  match executed with
  | Ok true => _ ← when (negb skip_schedules) (call (PowerTrigger ServerPowerAction.Stop)); mret (Ok tt)
  | Ok false => _ ← call (SetFlag StoppingFlag false); mret (Err BUSY)
  | Err err => _ ← call (SetFlag StoppingFlag false); mret (Err err)
  end.

(** Stopping for a restart: [true] when there was something to stop *)
Definition restart_stop (wait : bool) : sprog (result string bool) :=
  state ← call GetState;
  if bool_decide (state = ServerState.Offline) then mret (Ok false) else
  _ ← call (SetFlag Restarting true);
  state ← call GetState;
  if bool_decide (state = ServerState.Stopping) then mret (Ok true) else
  r ← stop wait true;
  match r with
  | Ok _ => mret (Ok true)
  | Err err => _ ← call (SetFlag Restarting false); mret (Err err)
  end.
Definition restart (wait : bool) : sprog (result string unit) :=
  restarting ← call (GetFlag Restarting);
  if (restarting : bool) then mret (Err "Server is already restarting.") else
  stopped ←? restart_stop wait;
  _ ←? (if (stopped : bool) then mret (Ok tt) else start wait true);
  _ ← call (PowerTrigger ServerPowerAction.Restart);
  mret (Ok tt).
Definition restart_with_kill_timeout (wait : bool) : sprog (result string unit) :=
  restarting ← call (GetFlag Restarting);
  if (restarting : bool) then mret (Err "Server is already restarting.") else
  stopped ←? restart_stop false;
  _ ←? (if (stopped : bool) then
          left ← call (WaitUntil (λ s, negb (bool_decide (s = ServerState.Stopping))));
          if (left : bool) then mret (Ok tt) else _ ← kill true; mret (Ok tt)
        else start wait true);
  _ ← call (PowerTrigger ServerPowerAction.Restart);
  mret (Ok tt).
Definition stop_with_kill_timeout (skip_schedules : bool) : sprog (result string unit) :=
  state ← call GetState;
  if bool_decide (state = ServerState.Offline) then mret (Ok tt) else
  _ ← call (Say "Killing server...");
  state ← call GetState;
  _ ←? (if negb (bool_decide (state = ServerState.Stopping)) then stop false skip_schedules else mret (Ok tt));
  offline ← call (WaitUntil (λ s, bool_decide (s = ServerState.Offline)));
  if (offline : bool) then mret (Ok tt) else kill skip_schedules.
Definition destroy : sprog unit :=
  _ ← call (SetFlag Suspended true); _ ← kill true; _ ← destroy_container; call Dispose.

(** *** The task that watches the status of a process *)

Definition delete_on_stop : sprog unit :=
  when (lc_delete_container_on_stop config) (_ ← call (Spawn ShutdownLimiter); destroy_container).
Definition full_check : sprog unit :=
  full ← call IsFull;
  if negb full then mret tt else
  state ← call GetState;
  if bool_decide (state = ServerState.Offline) then mret tt else
  stopping ← call (GetFlag StoppingFlag);
  when (negb stopping)
    (_ ← call (Say "Server is exceeding the assigned disk space limit, stopping process now."); call (Spawn StopFull)).
Definition crashed (exit_code : Z) (oom_killed : bool) : sprog unit :=
  _ ← call (SetFlag CrashHandled true);
  if (exit_code =? 0) && negb oom_killed && negb (lc_detect_clean_exit config) then delete_on_stop else
  _ ← call CrashTrigger;
  _ ← call (Say "---------- Detected server process in a crashed state! ----------");
  _ ← call (Say "Exit code:");
  _ ← call (Say "Out of memory:");
  recent ← call LastCrash;
  if (recent : bool) then _ ← call (Say "Aborting automatic restart."); delete_on_stop
  else call (Spawn StartAfterCrash).
Definition process_stopped (exit_code : Z) (oom_killed : bool) : sprog unit :=
  _ ← set_state ServerState.Offline;
  restarting ← call (GetFlag Restarting);
  if (restarting : bool) then
    _ ← call (SetFlag CrashHandled true); _ ← call (SetFlag Restarting false); _ ← call (SetFlag StoppingFlag false);
    call (Spawn StartAfterRestart)
  else
    stopping ← call (GetFlag StoppingFlag);
    if (stopping : bool) then _ ← call (SetFlag CrashHandled true); _ ← call (SetFlag StoppingFlag false); delete_on_stop
    else if negb (lc_crash_detection config) then mret tt
    else
      handled ← call (GetFlag CrashHandled);
      if (handled : bool) then mret tt else crashed exit_code oom_killed.
(** A turn of the task; it ends when this is [false]. *)
Definition status_turn (p : Z) : sprog bool :=
  received ← call (RecvStatus p);
  match received with
  | None => mret false
  | Some status =>
      _ ← call (SetFlag DiskDirty true);
      _ ← full_check;
      match status with
      | ProcessStatus.Running =>
          state ← call GetState;
          _ ← when (bool_decide (state = ServerState.Offline)) (set_state ServerState.Running);
          mret true
      | ProcessStatus.Stopped exit_code oom_killed => _ ← process_stopped exit_code oom_killed; mret false
      | ProcessStatus.Paused => mret true
      end
  end.

(** *** Background tasks, and the start of the daemon *)

Definition background (b : Background) : sprog unit :=
  match b with
  | StartAfterRestart | StartAfterCrash => _ ← start true false; mret tt
  | StopFull => _ ← stop_with_kill_timeout false; mret tt
  | ShutdownLimiter => call LimiterShutdown
  | Attached =>
      _ ← call (Sleep 5);
      state ← call GetState;
      when (negb (bool_decide (state = ServerState.Offline))) (call (SetFlag CrashHandled false))
  end.

Inductive ServerAutoStartBehavior : Type := Always | UnlessStopped | Never.
Definition do_autostart (behavior : ServerAutoStartBehavior) (saved : ServerState.ServerState) : bool :=
  match behavior with
  | Always => true
  | UnlessStopped => bool_decide (saved = ServerState.Running) || bool_decide (saved = ServerState.Starting)
  | Never => false
  end.
(** The task [boot] makes for a server; its state was saved before. *)
Definition boot_server (behavior : ServerAutoStartBehavior) (saved : ServerState.ServerState) : sprog unit :=
  _ ← attach_container;
  _ ← call (Sleep 5);
  if negb (do_autostart behavior saved) then mret tt else
  state ← call GetState;
  if bool_decide (state = ServerState.Running) || bool_decide (state = ServerState.Starting) then mret tt
  else _ ← start false false; mret tt.
End methods.

(** ** The shared state, and tasks *)

(** What is recorded, with the task that did it *)
Inductive LifeEvent : Type :=
  | Locked
  | Unlocked
  | Cleaned (reported : bool)
  | SetUp (p : Z)
  | Started (p : Z)
  | StoppedBy (p : Z)
  | Killed (p : Z)
  | CrashAccepted (now : Z)
  | Spawned (b : Background)
  | CrashTriggered.

Record Shared : Type := mk_Shared {
  sh_lock : ServerStateLock;
  sh_flags : Flag → bool;
  sh_last_crash : option Z;
  sh_now : Z;
  sh_handle : option Z;
  sh_status_task : option nat;
  sh_startup_task : option nat;
  sh_configuration : ServerConfiguration;
  sh_startup : ProcessConfigurationStartup;
  sh_log : list (nat * LifeEvent);
}.
Definition set_lock (l : ServerStateLock) (s : Shared) : Shared :=
  mk_Shared l (sh_flags s) (sh_last_crash s) (sh_now s) (sh_handle s) (sh_status_task s) (sh_startup_task s) (sh_configuration s) (sh_startup s) (sh_log s).
Definition set_flag (f : Flag) (b : bool) (s : Shared) : Shared :=
  mk_Shared (sh_lock s) (λ f', if decide (f = f') then b else sh_flags s f') (sh_last_crash s) (sh_now s) (sh_handle s) (sh_status_task s) (sh_startup_task s)
    (sh_configuration s) (sh_startup s) (sh_log s).
Definition set_last_crash (t : option Z) (s : Shared) : Shared :=
  mk_Shared (sh_lock s) (sh_flags s) t (sh_now s) (sh_handle s) (sh_status_task s) (sh_startup_task s) (sh_configuration s) (sh_startup s) (sh_log s).
Definition set_now (now : Z) (s : Shared) : Shared :=
  mk_Shared (sh_lock s) (sh_flags s) (sh_last_crash s) now (sh_handle s) (sh_status_task s) (sh_startup_task s) (sh_configuration s) (sh_startup s) (sh_log s).
Definition set_handle (h : option Z) (s : Shared) : Shared :=
  mk_Shared (sh_lock s) (sh_flags s) (sh_last_crash s) (sh_now s) h (sh_status_task s) (sh_startup_task s) (sh_configuration s) (sh_startup s) (sh_log s).
Definition set_watchers (status startup : option nat) (s : Shared) : Shared :=
  mk_Shared (sh_lock s) (sh_flags s) (sh_last_crash s) (sh_now s) (sh_handle s) status startup (sh_configuration s) (sh_startup s) (sh_log s).
Definition set_configuration (c : ServerConfiguration) (startup : ProcessConfigurationStartup) (s : Shared) : Shared :=
  mk_Shared (sh_lock s) (sh_flags s) (sh_last_crash s) (sh_now s) (sh_handle s) (sh_status_task s) (sh_startup_task s) c startup (sh_log s).
Definition log_event (i : nat) (e : LifeEvent) (s : Shared) : Shared :=
  mk_Shared (sh_lock s) (sh_flags s) (sh_last_crash s) (sh_now s) (sh_handle s) (sh_status_task s) (sh_startup_task s) (sh_configuration s) (sh_startup s)
    (sh_log s ++ [(i, e)]).
Definition on_lock (f : ServerStateLock → ServerStateLock) (s : Shared) : Shared := set_lock (f (sh_lock s)) s.

(** What is decided elsewhere: whether a call succeeds, or its answer *)
Record Choice : Type := mk_Choice {
  ch_ok : bool;
  ch_process : Z;
  ch_status : option ProcessStatus.ProcessStatus;
  ch_line : option (option text);
  ch_configuration : option (ServerConfiguration * ProcessConfigurationStartup);
}.

(** A task: what is left of it, what it starts over with while its turns are
    [true], and whether it was aborted *)
Record Task : Type := mk_Task { tk_prog : sprog bool; tk_loop : option (sprog bool); tk_aborted : bool }.
Definition set_prog (m : sprog bool) (t : Task) : Task := mk_Task m (tk_loop t) (tk_aborted t).
Definition set_aborted (t : Task) : Task := mk_Task (tk_prog t) (tk_loop t) true.
Definition once {A} (m : sprog A) : Task := mk_Task (_ ← m; mret false) None false.
Definition repeated (turn : sprog bool) : Task := mk_Task turn (Some turn) false.

Record Pool : Type := mk_Pool { po_shared : Shared; po_tasks : list Task }.

Section pool.
Context (config : LifecycleConfig).

Definition SECOND : Z := 1000000000.
(** The last crash is less than the configured time ago. *)
Definition crash_is_recent (s : Shared) : bool :=
  match sh_last_crash s with Some t => (sh_now s - t) / SECOND <? lc_crash_timeout config | None => false end.

(** The answer of a call by task [i], with [next] for the number of a task it
    starts *)
Definition answer (c : Choice) (i next : nat) {X} (e : ServerE X) (s : Shared) : X * Shared :=
  match e in ServerE X return X * Shared with
  | GetState => (sl_state (sh_lock s), s)
  | SetStateBegin state =>
      match set_state_begin state (sh_lock s) with Some l => (true, set_lock l s) | None => (false, s) end
  | SetStateEnd state => (tt, on_lock (set_state_end state) s)
  | GetPending => (sl_pending_restart (sh_lock s), s)
  | SetPending => (tt, on_lock (set_pending_restart true) s)
  | Lock _ => if sl_locked (sh_lock s) then (false, s) else (true, log_event i Locked (on_lock (set_locked true) s))
  | Unlock => (tt, log_event i Unlocked (on_lock (set_locked false) s))
  | WaitUntil predicate => (predicate (sl_state (sh_lock s)), s)
  | GetFlag f => (sh_flags s f, s)
  | SetFlag f b => (tt, set_flag f b s)
  | LastCrash =>
      if crash_is_recent s then (true, s) else (false, log_event i (CrashAccepted (sh_now s)) (set_last_crash (Some (sh_now s)) s))
  | GetHandle => (sh_handle s, s)
  | SetHandle p => (tt, set_handle p s)
  | WatchStatus _ => (tt, set_watchers (Some next) (sh_startup_task s) s)
  | UnwatchStatus => (tt, set_watchers None (sh_startup_task s) s)
  | SubscribeStdout _ => (ch_ok c, s)
  | GetStartup => (sh_startup s, s)
  | WatchStartup _ _ => (tt, set_watchers (sh_status_task s) (Some next) s)
  | UnwatchStartup => (tt, set_watchers (sh_status_task s) None s)
  | RecvStatus _ => (ch_status c, s)
  | RecvLine _ => (ch_line c, s)
  | SetupProcess => if ch_ok c then (Some (ch_process c), log_event i (SetUp (ch_process c)) s) else (None, s)
  | AttachProcess => (if ch_ok c then Some (ch_process c) else None, s)
  | CleanupProcess => (ch_ok c, log_event i (Cleaned (ch_ok c)) s)
  | StartProcess p => (ch_ok c, log_event i (Started p) s)
  | StopProcess p => (ch_ok c, log_event i (StoppedBy p) s)
  | KillProcess p => (ch_ok c, log_event i (Killed p) s)
  | SyncProcess _ => (ch_ok c, s)
  | Spawn b => (tt, log_event i (Spawned b) s)
  | PowerTrigger _ => (tt, s)
  | CrashTrigger => (tt, log_event i CrashTriggered s)
  | Say _ => (tt, s)
  | FetchConfiguration => (ch_configuration c, s)
  | ReplaceConfiguration new => (sh_configuration s, set_configuration new (sh_startup s) s)
  | ReplaceStartup startup => (tt, set_configuration (sh_configuration s) startup s)
  | UpdateIgnored => (tt, s)
  | UpdateSchedules => (tt, s)
  | GetDiskSpace => (sb_disk_space (sc_build (sh_configuration s)), s)
  | UpdateDiskLimit _ => (tt, s)
  | SetupFilesystem => (tt, s)
  | LimiterStartup => (ch_ok c, s)
  | LimiterShutdown => (tt, s)
  | IsFull => (ch_ok c, s)
  | DiskCheckStale => (ch_ok c, s)
  | RerunDiskChecker => (tt, s)
  | AwaitDiskCheck => (tt, s)
  | UpdateFiles => (tt, s)
  | Chown => (ch_ok c, s)
  | Dispose => (tt, s)
  | Sleep _ => (tt, s)
  end.

(** The tasks a call starts and aborts *)
Definition spawned {X} (e : ServerE X) : list Task :=
  match e with
  | WatchStatus p => [repeated (status_turn config p)]
  | WatchStartup p startup => [repeated (startup_turn p startup)]
  | Spawn b => [once (background config b)]
  | _ => []
  end.
Definition aborted {X} (e : ServerE X) (s : Shared) : option nat :=
  match e with
  | WatchStatus _ | UnwatchStatus => sh_status_task s
  | WatchStartup _ _ | UnwatchStartup => sh_startup_task s
  | _ => None
  end.
Definition abort (id : option nat) (tasks : list Task) : list Task :=
  match id with Some id => alter set_aborted id tasks | None => tasks end.
(** Where an aborted task ends *)
Definition waits {X} (e : ServerE X) : bool := match e with RecvStatus _ | RecvLine _ | Sleep _ => true | _ => false end.

(** Task [i] makes its next call. *)
Definition pool_call (c : Choice) (i : nat) (y : Pool) : option Pool :=
  match po_tasks y !! i with
  | Some t =>
      match tk_prog t with
      | Vis e k =>
          if tk_aborted t && waits e then None else
          let '(x, s) := answer c i (length (po_tasks y)) e (po_shared y) in
          Some (mk_Pool s (abort (aborted e (po_shared y)) (<[i := set_prog (k x) t]> (po_tasks y)) ++ spawned e))
      | Effects.Done _ => None
      end
  | None => None
  end.

(** What clients ask for *)
Inductive Request : Type :=
  | RequestStart (skip_schedules : bool)
  | RequestStop (wait skip_schedules : bool)
  | RequestKill (skip_schedules : bool)
  | RequestRestart (wait : bool)
  | RequestRestartWithKillTimeout (wait : bool)
  | RequestStopWithKillTimeout (skip_schedules : bool)
  | RequestSync (skip_pending_restart_check : bool)
  | RequestBoot (behavior : ServerAutoStartBehavior) (saved : ServerState.ServerState)
  | RequestDestroy.
Definition request (r : Request) : Task :=
  match r with
  | RequestStart skip => once (start config false skip)
  | RequestStop wait skip => once (stop wait skip)
  | RequestKill skip => once (kill skip)
  | RequestRestart wait => once (restart config wait)
  | RequestRestartWithKillTimeout wait => once (restart_with_kill_timeout config wait)
  | RequestStopWithKillTimeout skip => once (stop_with_kill_timeout skip)
  | RequestSync skip => once (sync_configuration skip)
  | RequestBoot behavior saved => once (boot_server config behavior saved)
  | RequestDestroy => once destroy
  end.

Inductive pool_step (y : Pool) : Pool → Prop :=
  | step_call c i y' : pool_call c i y = Some y' → pool_step y y'
  | step_again i t body : po_tasks y !! i = Some t → tk_prog t = Effects.Done true → tk_aborted t = false → tk_loop t = Some body →
      pool_step y (mk_Pool (po_shared y) (<[i := set_prog body t]> (po_tasks y)))
  | step_dies i t : po_tasks y !! i = Some t → tk_aborted t = true →
      pool_step y (mk_Pool (po_shared y) (<[i := set_prog (Effects.Done false) t]> (po_tasks y)))
  | step_request r : pool_step y (mk_Pool (po_shared y) (po_tasks y ++ [request r]))
  | step_flag f b : f = Installing ∨ f = Restoring ∨ f = Transferring ∨ f = DiskDirty →
      pool_step y (mk_Pool (set_flag f b (po_shared y)) (po_tasks y))
  | step_time now : sh_now (po_shared y) <= now → pool_step y (mk_Pool (set_now now (po_shared y)) (po_tasks y)).

Definition Shared_new (configuration : ServerConfiguration) (startup : ProcessConfigurationStartup) (now : Z) : Shared :=
  mk_Shared ServerStateLock_new (λ _, false) None now None None None configuration startup [].
Inductive pool_reachable : Pool → Prop :=
  | pool_start configuration startup now : pool_reachable (mk_Pool (Shared_new configuration startup now) [])
  | pool_next y y' : pool_reachable y → pool_step y y' → pool_reachable y'.
End pool.

(** Shows of each call of a method that it is none that is excluded. *)
Ltac server_calls :=
  repeat match goal with
  | |- all_calls _ (mbind _ _) => apply all_calls_bind; [| intros ?]
  | |- all_calls _ (prog_bind _ _ _ _) => apply all_calls_bind; [| intros ?]
  | |- all_calls _ (try _ _) => unfold try
  | |- all_calls _ (call _) => split; [done | intros ?; exact I]
  | |- all_calls _ (mret _) => exact I
  | |- all_calls _ (when ?b _) => unfold when
  | |- all_calls _ (if ?b then _ else _) => destruct b
  | |- all_calls _ (match ?p with (_, _) => _ end) => destruct p
  | |- all_calls _ (match ?o with Some _ => _ | None => _ end) => destruct o
  | |- all_calls _ (match ?o with Ok _ => _ | Err _ => _ end) => destruct o
  end.
