(* ===== verification/LifecycleSafety.v ===== *)
(** * LifecycleSafety: what holds however the tasks of a server interleave

    The discipline of the lock of power actions, proved for each method by
    itself ([lwp]) and carried to every reachable pool of tasks ([pool_ok]);
    the times of restarts after crashes; and runs that show where flags and
    checks go wrong. *)
From S2P Require Import Prelude Effects Text ServerState Schedules Lifecycle.
Local Open Scope string_scope.
Local Open Scope list_scope.
Local Open Scope Z_scope.

(** ** Who holds the lock *)

(** The holder, and whether it has removed the old process since it took the
    lock or last started one *)
Definition hold_step (h : option (nat * bool)) (e : nat * LifeEvent) : option (nat * bool) :=
  match e.2 with
  | Locked => Some (e.1, false)
  | Unlocked => None
  | Cleaned _ => (λ '(j, c), (j, c || bool_decide (j = e.1))) <$> h
  | Started _ => (λ '(j, c), (j, false)) <$> h
  | _ => h
  end.
Definition hold (l : list (nat * LifeEvent)) : option (nat * bool) := fold_left hold_step l None.

(** What a task may do: watchers never take the lock. *)
Inductive Ghost : Type := Watcher | Free | Held (cleaned : bool).
Definition life_may (X : Type) (e : ServerE X) (g : Ghost) : Prop :=
  match e with
  | Lock _ => g = Free
  | Unlock | StopProcess _ => ∃ c, g = Held c
  | SetupProcess | StartProcess _ => g = Held true
  | SetStateBegin ServerState.Starting | SetStateBegin ServerState.Stopping => ∃ c, g = Held c
  | _ => True
  end.
Definition life_ok (X : Type) (e : ServerE X) (x : X) (g : Ghost) : Prop := True.
Definition life_upd (X : Type) (e : ServerE X) : X → Ghost → Ghost :=
  match e in ServerE X return X → Ghost → Ghost with
  | Lock _ => λ got g, if got then Held false else g
  | Unlock => λ _ _, Free
  | CleanupProcess => λ _ g, match g with Held _ => Held true | _ => g end
  | StartProcess _ => λ _ g, match g with Held _ => Held false | _ => g end
  | _ => λ _ g, g
  end.
Abbreviation lwp := (wp life_may life_ok life_upd).

Lemma lwp_call {X} (e : ServerE X) g Φ : life_may X e g → (∀ x, Φ x (life_upd X e x g)) → lwp (call e) g Φ.
Proof. intros Hm HΦ. split; [done|]. intros x _. apply HΦ. Qed.

Lemma lwp_vis {X B} (e : ServerE X) (f : X → sprog B) g Φ :
  life_may X e g → (∀ x, lwp (f x) (life_upd X e x g) Φ) → lwp (call e ≫= f) g Φ.
Proof. intros Hm Hf. split; [done|]. intros x _. apply Hf. Qed.
Lemma lwp_bind {A B} (m : sprog A) (f : A → sprog B) g Φ : lwp m g (λ a g', lwp (f a) g' Φ) → lwp (m ≫= f) g Φ.
Proof. apply wp_bind. Qed.
(** A part of which this much is known *)
Lemma lwp_part {A B} (m : sprog A) (f : A → sprog B) g Φ Ψ : lwp m g Ψ → (∀ a g', Ψ a g' → lwp (f a) g' Φ) → lwp (m ≫= f) g Φ.
Proof. intros Hm Hf. apply wp_bind. by eapply wp_mono. Qed.

(** Programs that leave the lock alone *)
Definition steady {A} (m : sprog A) : Prop := ∀ g, lwp m g (λ _ g', g' = g).
Lemma steady_ret {A} (a : A) : steady (mret a).
Proof. by intros g. Qed.
Lemma steady_bind {A B} (m : sprog A) (f : A → sprog B) : steady m → (∀ a, steady (f a)) → steady (m ≫= f).
Proof. intros Hm Hf g. apply wp_bind. eapply wp_mono; [apply Hm|]. intros a g' ->. apply Hf. Qed.
Lemma steady_call {X} (e : ServerE X) : (∀ g, life_may X e g) → (∀ x g, life_upd X e x g = g) → steady (call e).
Proof. intros Hm Hu g. by apply lwp_call. Qed.
Lemma steady_when b (m : sprog unit) : steady m → steady (when b m).
Proof. intros Hm. destruct b; [done|apply steady_ret]. Qed.
Lemma steady_try {A B} (m : sprog (result string A)) (f : A → sprog (result string B)) : steady m → (∀ a, steady (f a)) → steady (try m f).
Proof. intros Hm Hf. apply steady_bind; [done|]. intros [a|e]; [apply Hf|apply steady_ret]. Qed.

(** After a steady program the state of the lock is what it was. *)
Lemma lwp_steady {A B} (m : sprog A) (f : A → sprog B) g Φ : steady m → (∀ a, lwp (f a) g Φ) → lwp (m ≫= f) g Φ.
Proof. intros Hm Hf. eapply lwp_part; [apply Hm|]. intros a g' ->. apply Hf. Qed.
Lemma lwp_try {A B} (m : sprog (result string A)) (f : A → sprog (result string B)) g (Φ : result string B → Ghost → Prop) :
  lwp m g (λ r g', match r with Ok a => lwp (f a) g' Φ | Err e => Φ (Err e) g' end) → lwp (try m f) g Φ.
Proof. intros H. apply wp_bind. eapply wp_mono; [exact H|]. by intros [a|e] g'. Qed.

Ltac steady_step :=
  match goal with
  | |- steady (mbind _ _) => apply steady_bind; [|intros ?]
  | |- steady (try _ _) => apply steady_try; [|intros ?]
  | |- steady (when _ _) => apply steady_when
  | |- steady (mret _) => apply steady_ret
  | |- steady (call _) => apply steady_call; [done|done]
  | |- steady (match ?x with _ => _ end) => destruct x
  end.
Create HintDb steady.
Ltac steady := repeat first [solve [eauto with steady]|steady_step].

Section discipline.
Context (config : LifecycleConfig).

Definition settles (state : ServerState.ServerState) : Prop := state = ServerState.Offline ∨ state = ServerState.Running.
Lemma set_state_steady state : settles state → steady (set_state state).
Proof. intros [->| ->]; unfold set_state; steady. Qed.
Lemma set_state_held state c : lwp (set_state state) (Held c) (λ _ g, g = Held c).
Proof. cbn. split; [destruct state; eauto|]. intros changed _. by destruct changed. Qed.
Lemma setup_startup_task_steady p : steady (setup_startup_task p).
Proof. unfold setup_startup_task. steady. Qed.
Lemma attach_container_steady : steady attach_container.
Proof. unfold attach_container, setup_startup_task. steady. Qed.
Lemma sync_configuration_steady skip : steady (sync_configuration skip).
Proof. unfold sync_configuration, update_configuration, sync_container. steady. Qed.
Lemma check_startup_steady startup line : steady (check_startup startup line).
Proof. unfold check_startup. steady; apply set_state_steady; by right. Qed.
Lemma startup_turn_steady p startup : steady (startup_turn p startup).
Proof. unfold startup_turn. pose proof check_startup_steady. steady. Qed.
Lemma locked_state_steady : steady locked_state.
Proof. unfold locked_state. steady. Qed.
Lemma check_disk_steady : steady check_disk.
Proof. unfold check_disk. steady. Qed.
Lemma check_boot_permissions_steady : steady (check_boot_permissions config).
Proof. unfold check_boot_permissions. steady. Qed.
Lemma kill_steady skip : steady (kill skip).
Proof. unfold kill. assert (steady (set_state ServerState.Offline)) by (apply set_state_steady; by left). steady. Qed.

(** Removing the process *)
Lemma destroy_container_ok g : lwp destroy_container g (λ _ g', g' = match g with Held _ => Held true | _ => g end).
Proof. by repeat (split; [done|]; intros ? _). Qed.
Lemma destroy_container_watcher : lwp destroy_container Watcher (λ _ g, g = Watcher).
Proof. apply destroy_container_ok. Qed.

Lemma execute_action_ok state action wait :
  lwp action (Held false) (λ _ g, ∃ c, g = Held c) → lwp (execute_action state action wait) Free (λ _ g, g = Free).
Proof.
  intros Ha. apply lwp_vis; [done|]. intros old. apply lwp_vis; [done|]. intros got. cbn [life_upd]. destruct got; [|done]. cbn [negb].
  eapply lwp_part; [apply set_state_held|]. intros _ g ->.
  eapply lwp_part; [exact Ha|]. intros [a|err] g [c ->].
  - apply lwp_vis; [by eexists|]. by intros [].
  - eapply lwp_part; [apply set_state_held|]. intros _ g ->. apply lwp_vis; [by eexists|]. by intros [].
Qed.
Lemma setup_container_ok : lwp setup_container (Held true) (λ _ g, g = Held true).
Proof.
  apply lwp_vis; [done|]. intros ?. apply lwp_vis; [done|]. intros handle. destruct handle; [done|].
  apply lwp_vis; [done|]. intros process. cbn [life_upd]. destruct process as [p|]; [|done].
  apply lwp_vis; [done|]. intros ?. apply lwp_steady; [apply setup_startup_task_steady|]. intros _. by split.
Qed.
Lemma start_process_ok : lwp start_process (Held true) (λ _ g, ∃ c, g = Held c).
Proof. apply lwp_vis; [done|]. intros handle. destruct handle as [p|]; [|by eexists]. apply lwp_vis; [done|]. intros ok. by exists false. Qed.
Lemma start_action_ok : lwp (start_action config) (Held false) (λ _ g, ∃ c, g = Held c).
Proof.
  apply lwp_vis; [done|]. intros ?. apply lwp_vis; [done|]. intros ok. cbn [life_upd]. destruct ok; cbn [negb]; [|by eexists].
  eapply lwp_part; [apply destroy_container_ok|]. intros _ g ->.
  apply lwp_steady; [apply sync_configuration_steady|]. intros _.
  apply lwp_steady; [apply check_disk_steady|]. intros _.
  apply lwp_vis; [done|]. intros full. cbn [life_upd]. destruct full; [by eexists|].
  apply lwp_vis; [done|]. intros ?. apply lwp_vis; [done|]. intros ?. cbn [life_upd].
  apply lwp_try. eapply wp_mono; [apply check_boot_permissions_steady|]. intros [a|e] g ->; [|by eexists].
  apply lwp_try. eapply wp_mono; [apply setup_container_ok|]. intros [a'|e] g ->; [|by eexists]. apply start_process_ok.
Qed.
Lemma start_ok wait skip : lwp (start config wait skip) Free (λ _ g, g = Free).
Proof.
  apply lwp_steady; [apply locked_state_steady|]. intros [state|]; [done|]. apply lwp_vis; [done|]. intros state. cbn [life_upd].
  destruct (negb _); [done|]. apply lwp_try. eapply wp_mono; [apply execute_action_ok, start_action_ok|].
  intros [executed|e] g ->; [|done]. destruct executed; [|done]. apply lwp_steady; [steady|]. done.
Qed.
Lemma stop_ok wait skip : lwp (stop wait skip) Free (λ _ g, g = Free).
Proof.
  apply lwp_vis; [done|]. intros state. cbn [life_upd]. destruct (bool_decide _); [done|]. apply lwp_vis; [done|]. intros state'. cbn [life_upd].
  destruct (bool_decide _); [done|]. eapply lwp_part; [apply execute_action_ok|].
  - apply lwp_vis; [done|]. intros ?. apply lwp_vis; [done|]. intros handle. destruct handle; [|by eexists]. apply lwp_vis; [by eexists|]. by eexists.
  - intros [[]|e] g ->; [apply lwp_steady; [steady|]; done|by split|by split].
Qed.
Lemma restart_stop_ok wait : lwp (restart_stop wait) Free (λ _ g, g = Free).
Proof.
  apply lwp_vis; [done|]. intros state. cbn [life_upd]. destruct (bool_decide _); [done|]. apply lwp_vis; [done|]. intros ?.
  apply lwp_vis; [done|]. intros state'. cbn [life_upd]. destruct (bool_decide _); [done|].
  eapply lwp_part; [apply stop_ok|]. intros [a|e] g ->; [done|by split].
Qed.
Lemma free_when b : lwp (when b (call (PowerTrigger ServerPowerAction.Restart))) Free (λ _ g, g = Free).
Proof. by destruct b. Qed.
Lemma restart_ok wait : lwp (restart config wait) Free (λ _ g, g = Free).
Proof.
  apply lwp_vis; [done|]. intros restarting. cbn [life_upd]. destruct restarting; [done|].
  apply lwp_try. eapply wp_mono; [apply restart_stop_ok|]. intros [stopped|e] g ->; [|done].
  apply lwp_try. eapply (wp_mono _ _ _ _ _ (λ _ g, g = Free)); [destruct stopped; [done|apply start_ok]|]. intros [a|e] g ->; [by split|done].
Qed.
Lemma restart_with_kill_timeout_ok wait : lwp (restart_with_kill_timeout config wait) Free (λ _ g, g = Free).
Proof.
  apply lwp_vis; [done|]. intros restarting. cbn [life_upd]. destruct restarting; [done|].
  apply lwp_try. eapply wp_mono; [apply restart_stop_ok|]. intros [stopped|e] g ->; [|done].
  apply lwp_try. eapply (wp_mono _ _ _ _ _ (λ _ g, g = Free)).
  - destruct stopped; [|apply start_ok]. apply lwp_vis; [done|]. intros left. cbn [life_upd]. destruct left; [done|].
    apply lwp_steady; [apply kill_steady|]. done.
  - intros [a|e] g ->; [by split|done].
Qed.
Lemma stop_with_kill_timeout_ok skip : lwp (stop_with_kill_timeout skip) Free (λ _ g, g = Free).
Proof.
  apply lwp_vis; [done|]. intros state. cbn [life_upd]. destruct (bool_decide _); [done|].
  apply lwp_vis; [done|]. intros ?. apply lwp_vis; [done|]. intros state'. cbn [life_upd].
  apply lwp_try. eapply (wp_mono _ _ _ _ _ (λ _ g, g = Free)); [destruct (negb _); [apply stop_ok|done]|]. intros [a|e] g ->; [|done].
  apply lwp_vis; [done|]. intros offline. cbn [life_upd]. destruct offline; [done|]. apply kill_steady.
Qed.
Lemma destroy_ok : lwp destroy Free (λ _ g, g = Free).
Proof.
  apply lwp_vis; [done|]. intros ?. apply lwp_steady; [apply kill_steady|]. intros _.
  eapply lwp_part; [apply destroy_container_ok|]. by intros _ g ->.
Qed.
Lemma background_ok b : lwp (background config b) Free (λ _ g, g = Free).
Proof.
  destruct b; cbn [background].
  - eapply lwp_part; [apply start_ok|]. done.
  - eapply lwp_part; [apply start_ok|]. done.
  - eapply lwp_part; [apply stop_with_kill_timeout_ok|]. done.
  - by split.
  - apply lwp_vis; [done|]. intros ?. apply lwp_vis; [done|]. intros state. by destruct (negb _).
Qed.
Lemma boot_server_ok behavior saved : lwp (boot_server config behavior saved) Free (λ _ g, g = Free).
Proof.
  apply lwp_steady; [apply attach_container_steady|]. intros _. apply lwp_vis; [done|]. intros ?.
  destruct (negb _); [done|]. apply lwp_vis; [done|]. intros state. destruct (_ || _); [done|]. eapply lwp_part; [apply start_ok|]. done.
Qed.

Lemma delete_on_stop_ok : lwp (delete_on_stop config) Watcher (λ _ g, g = Watcher).
Proof.
  unfold delete_on_stop. destruct (lc_delete_container_on_stop config); [|done]. apply lwp_vis; [done|]. intros ?. apply destroy_container_ok.
Qed.
Lemma crashed_ok exit_code oom_killed : lwp (crashed config exit_code oom_killed) Watcher (λ _ g, g = Watcher).
Proof.
  apply lwp_vis; [done|]. intros ?. destruct (_ && _); [apply delete_on_stop_ok|]. do 4 (apply lwp_vis; [done|]; intros ?).
  apply lwp_vis; [done|]. intros recent. destruct recent; [|by split]. apply lwp_vis; [done|]. intros ?. apply delete_on_stop_ok.
Qed.
Lemma process_stopped_ok exit_code oom_killed : lwp (process_stopped config exit_code oom_killed) Watcher (λ _ g, g = Watcher).
Proof.
  apply lwp_steady; [apply set_state_steady; by left|]. intros _. apply lwp_vis; [done|]. intros restarting. destruct restarting.
  - do 3 (apply lwp_vis; [done|]; intros ?). by split.
  - apply lwp_vis; [done|]. intros stopping. destruct stopping.
    + do 2 (apply lwp_vis; [done|]; intros ?). apply delete_on_stop_ok.
    + destruct (negb _); [done|]. apply lwp_vis; [done|]. intros handled. destruct handled; [done|]. apply crashed_ok.
Qed.
Lemma full_check_steady : steady full_check.
Proof. unfold full_check. steady. Qed.
Lemma status_turn_ok p : lwp (status_turn config p) Watcher (λ _ g, g = Watcher).
Proof.
  apply lwp_vis; [done|]. intros received. destruct received as [status|]; [|done]. apply lwp_vis; [done|]. intros ?.
  apply lwp_steady; [apply full_check_steady|]. intros _. destruct status as [| |exit_code oom_killed]; [|done|].
  - assert (steady (set_state ServerState.Running)) by (apply set_state_steady; by right).
    apply lwp_vis; [done|]. intros state. apply lwp_steady; [steady|]. by intros [].
  - eapply lwp_part; [apply process_stopped_ok|]. done.
Qed.
End discipline.

(** ** The invariant of the lock *)

(** What a task may do by the log *)
Definition ghost_of (log : list (nat * LifeEvent)) (i : nat) (t : Task) : Ghost :=
  match tk_loop t with
  | Some _ => Watcher
  | None => match hold log with Some (j, c) => if decide (j = i) then Held c else Free | None => Free end
  end.
Definition rests (t : Task) (g : Ghost) : Prop := match tk_loop t with Some _ => g = Watcher | None => g = Free end.
Definition task_ok (log : list (nat * LifeEvent)) (i : nat) (t : Task) : Prop :=
  lwp (tk_prog t) (ghost_of log i t) (λ _ g, rests t g) ∧ ∀ body, tk_loop t = Some body → lwp body Watcher (λ _ g, g = Watcher).

(** Processes are set up and started by the holder, after it removed the old
    one; stop commands come from the holder. *)
Definition event_ok (h : option (nat * bool)) (e : nat * LifeEvent) : Prop :=
  match e.2 with
  | Locked => h = None
  | SetUp _ | Started _ => h = Some (e.1, true)
  | StoppedBy _ | Unlocked => ∃ c, h = Some (e.1, c)
  | _ => True
  end.
Definition log_ok (log : list (nat * LifeEvent)) : Prop := ∀ l1 e l2, log = l1 ++ e :: l2 → event_ok (hold l1) e.

Lemma hold_snoc l e : hold (l ++ [e]) = hold_step (hold l) e.
Proof. unfold hold. by rewrite fold_left_app. Qed.
Lemma log_ok_snoc l e : log_ok l → event_ok (hold l) e → log_ok (l ++ [e]).
Proof.
  intros Hl He l1 e' l2 H. destruct l2 as [|e2 l2 _] using rev_ind.
  - by apply app_inj_tail in H as [<- <-].
  - rewrite app_comm_cons, app_assoc in H. apply app_inj_tail in H as [H _]. by eapply Hl.
Qed.

Section invariant.
Context (config : LifecycleConfig).

Definition lock_inv (s : Shared) : Prop := sl_locked (sh_lock s) = bool_decide (is_Some (hold (sh_log s))) ∧ log_ok (sh_log s).

Definition is_other (e : LifeEvent) : bool :=
  match e with Locked | Unlocked | Cleaned _ | Started _ => false | _ => true end.
Lemma hold_other l i e : is_other e = true → hold (l ++ [(i, e)]) = hold l.
Proof. intros He. rewrite hold_snoc. by destruct e. Qed.

Lemma ghost_held log i t c : ghost_of log i t = Held c → tk_loop t = None ∧ hold log = Some (i, c).
Proof. unfold ghost_of. destruct (tk_loop t); [done|]. destruct (hold log) as [[j c']|]; [|done]. destruct (decide _); [|done]. intros [= ->]. by subst. Qed.
Lemma ghost_loop log log' i t : hold log' = hold log → ghost_of log' i t = ghost_of log i t.
Proof. unfold ghost_of. by intros ->. Qed.
Lemma ghost_free log i t : ghost_of log i t = Free → tk_loop t = None ∧ ∀ c, hold log ≠ Some (i, c).
Proof.
  unfold ghost_of. destruct (tk_loop t); [done|]. destruct (hold log) as [[j c']|]; [|done]. destruct (decide _); [done|].
  intros _. split; [done|]. intros c [= -> ->]. done.
Qed.

(** What a call does to the lock and the log *)
Definition call_ok (i : nat) (t : Task) (s s' : Shared) (g : Ghost) : Prop :=
  lock_inv s' ∧ ghost_of (sh_log s') i t = g ∧ (∀ j t', j ≠ i → ghost_of (sh_log s') j t' = ghost_of (sh_log s) j t') ∧
  ∀ j c, hold (sh_log s') = Some (j, c) → (j = i ∧ tk_loop t = None) ∨ ∃ c', hold (sh_log s) = Some (j, c').

Lemma call_same i t s s' : sl_locked (sh_lock s') = sl_locked (sh_lock s) → sh_log s' = sh_log s → lock_inv s → call_ok i t s s' (ghost_of (sh_log s) i t).
Proof. intros Hl Hlog [H1 H2]. unfold call_ok, lock_inv. rewrite Hl, Hlog. split_and!; try done. intros j c Hj. right. by exists c. Qed.
Lemma call_event i t e s s' : sl_locked (sh_lock s') = sl_locked (sh_lock s) → sh_log s' = sh_log s ++ [(i, e)] → is_other e = true →
  event_ok (hold (sh_log s)) (i, e) → lock_inv s → call_ok i t s s' (ghost_of (sh_log s) i t).
Proof.
  intros Hl Hlog Ho He [H1 H2]. assert (hold (sh_log s') = hold (sh_log s)) as Hh by by rewrite Hlog, hold_other.
  unfold call_ok, lock_inv. rewrite Hl, Hh. split_and!; [done| |by apply ghost_loop| |].
  - rewrite Hlog. by apply log_ok_snoc.
  - intros j t' _. by apply ghost_loop.
  - intros j c Hj. right. by exists c.
Qed.
Lemma call_cleaned i t b s : lock_inv s →
  call_ok i t s (log_event i (Cleaned b) s) (match ghost_of (sh_log s) i t with Held _ => Held true | _ => ghost_of (sh_log s) i t end).
Proof.
  intros [H1 H2]. unfold call_ok, lock_inv. cbn [sh_log sh_lock log_event]. rewrite hold_snoc. cbn [hold_step fst snd].
  split_and!; [rewrite H1; by destruct (hold (sh_log s)) as [[j c]|]|by apply log_ok_snoc| | |].
  - unfold ghost_of. rewrite hold_snoc. destruct (tk_loop t); [done|]. cbn. destruct (hold (sh_log s)) as [[j c]|]; [|done]. cbn.
    destruct (decide (j = i)) as [->|]; [|done]. by rewrite bool_decide_eq_true_2, orb_true_r.
  - intros j t' Hne. unfold ghost_of. rewrite hold_snoc. destruct (tk_loop t'); [done|]. cbn. destruct (hold (sh_log s)) as [[j' c]|]; [|done]. cbn.
    destruct (decide (j' = j)) as [->|]; [|done]. by rewrite bool_decide_eq_false_2, orb_false_r by done.
  - intros j c. destruct (hold (sh_log s)) as [[j' c']|]; [|done]. cbn. intros [= -> _]. right. by exists c'.
Qed.
Lemma call_started i t p s : lock_inv s → ghost_of (sh_log s) i t = Held true →
  call_ok i t s (log_event i (Started p) s) (Held false).
Proof.
  intros [H1 H2] Hg. apply ghost_held in Hg as [Ht Hh]. unfold call_ok, lock_inv, ghost_of. cbn [sh_log sh_lock log_event]. rewrite hold_snoc, Hh, Ht. cbn.
  split_and!; [by rewrite H1, Hh|by apply log_ok_snoc|by rewrite decide_True| |].
  - intros j t' Hne. destruct (tk_loop t'); [done|]. by rewrite !decide_False by done.
  - intros j c [= <- <-]. left. done.
Qed.
Lemma call_locked i t s : lock_inv s → sl_locked (sh_lock s) = false → ghost_of (sh_log s) i t = Free →
  call_ok i t s (log_event i Locked (on_lock (set_locked true) s)) (Held false).
Proof.
  intros [H1 H2] Hl Hg. rewrite H1 in Hl. apply bool_decide_eq_false in Hl. rewrite <-eq_None_not_Some in Hl.
  apply ghost_free in Hg as [Ht _]. unfold call_ok, lock_inv, ghost_of. cbn [sh_log sh_lock log_event on_lock set_lock set_locked sl_locked].
  rewrite hold_snoc, Ht, Hl. cbn. split_and!; [done|by apply log_ok_snoc|by rewrite decide_True| |].
  - intros j t' Hne. destruct (tk_loop t'); [done|]. by rewrite decide_False.
  - intros j c [= <- _]. left. done.
Qed.
Lemma call_unlocked i t s c : lock_inv s → ghost_of (sh_log s) i t = Held c →
  call_ok i t s (log_event i Unlocked (on_lock (set_locked false) s)) Free.
Proof.
  intros [H1 H2] Hg. apply ghost_held in Hg as [Ht Hh]. unfold call_ok, lock_inv, ghost_of. cbn [sh_log sh_lock log_event on_lock set_lock set_locked sl_locked].
  rewrite hold_snoc, Ht, Hh. cbn. split_and!; [done| |done| |done].
  - apply log_ok_snoc; [done|]. by exists c.
  - intros j t' Hne. destruct (tk_loop t'); [done|]. by rewrite decide_False.
Qed.

Lemma sl_locked_set_pending_restart b l : sl_locked (set_pending_restart b l) = sl_locked l.
Proof. apply sl_locked_set_pending. Qed.

Lemma answer_ok c i next {X} (e : ServerE X) s t : lock_inv s → life_may X e (ghost_of (sh_log s) i t) →
  call_ok i t s (answer config c i next e s).2 (life_upd X e (answer config c i next e s).1 (ghost_of (sh_log s) i t)).
Proof.
  intros Hs Hm. destruct e; cbn [answer life_upd life_may fst snd] in *; try (by apply call_same);
    try solve [by apply (call_event i t (Killed p) s)|by apply (call_event i t (Spawned b) s)|by apply (call_event i t CrashTriggered s)].
  - destruct (set_state_begin state (sh_lock s)) as [l|] eqn:Hb; apply call_same; try done. cbn. by apply sl_locked_begin in Hb.
  - apply call_same; try done. apply sl_locked_end.
  - apply call_same; try done. apply sl_locked_set_pending.
  - destruct (sl_locked (sh_lock s)) eqn:Hl; cbn [fst snd]; [by apply call_same|by apply call_locked].
  - destruct Hm as [c' Hm]. by eapply call_unlocked.
  - destruct (crash_is_recent _ _); cbn [snd]; [by apply call_same|]. by eapply (call_event i t _ s).
  - apply ghost_held in Hm as [Ht Hh]. destruct (ch_ok c); cbn [snd]; [|by apply call_same].
    by apply (call_event i t (SetUp (ch_process c)) s).
  - by apply call_cleaned.
  - rewrite Hm. by apply call_started.
  - destruct Hm as [c' Hm]. pose proof Hm as Hg. apply ghost_held in Hg as [Ht Hh]. apply (call_event i t (StoppedBy p) s); try done. by exists c'.
Qed.
End invariant.

Section safety.
Context (config : LifecycleConfig).

Lemma once_ok {A} (m : sprog A) log i : lwp m Free (λ _ g, g = Free) → (∀ c, hold log ≠ Some (i, c)) → task_ok log i (once m).
Proof.
  intros Hm Hi. split; [|done]. unfold ghost_of. cbn [once tk_loop tk_prog].
  replace (match hold log with Some _ => _ | None => _ end) with Free.
  - eapply lwp_part; [exact Hm|]. by intros a g ->.
  - destruct (hold log) as [[j c]|]; [|done]. destruct (decide (j = i)) as [->|]; [by destruct (Hi c)|done].
Qed.
Lemma repeated_ok (turn : sprog bool) log i : lwp turn Watcher (λ _ g, g = Watcher) → task_ok log i (repeated turn).
Proof. intros Ht. split; [done|]. by intros body [= <-]. Qed.

Lemma task_ok_ghost log log' i t : ghost_of log' i t = ghost_of log i t → task_ok log i t → task_ok log' i t.
Proof. unfold task_ok. by intros ->. Qed.
Lemma task_ok_aborted log i t : task_ok log i t → task_ok log i (set_aborted t).
Proof. done. Qed.

Record pool_ok (y : Pool) : Prop := {
  po_lock : lock_inv (po_shared y);
  po_ok : ∀ i t, po_tasks y !! i = Some t → task_ok (sh_log (po_shared y)) i t;
  po_holder : ∀ j c, hold (sh_log (po_shared y)) = Some (j, c) → ∃ t, po_tasks y !! j = Some t ∧ tk_loop t = None;
  po_aborted : ∀ i t, po_tasks y !! i = Some t → tk_aborted t = true → is_Some (tk_loop t);
  po_watchers : ∀ id, sh_status_task (po_shared y) = Some id ∨ sh_startup_task (po_shared y) = Some id →
    ∃ t, po_tasks y !! id = Some t ∧ is_Some (tk_loop t);
}.

Lemma spawned_ok {X} (e : ServerE X) log i t :
  spawned config e = [t] → (∀ c, hold log ≠ Some (i, c)) → task_ok log i t ∧ tk_aborted t = false.
Proof.
  intros Hs Hi. destruct e; try done; cbn in Hs; injection Hs as <-; (split; [|done]).
  - apply repeated_ok, status_turn_ok.
  - apply repeated_ok, startup_turn_steady.
  - by apply once_ok; [apply background_ok|].
Qed.
Lemma spawned_one {X} (e : ServerE X) : spawned config e = [] ∨ ∃ t, spawned config e = [t].
Proof. destruct e; eauto. Qed.
Lemma request_ok r log i : (∀ c, hold log ≠ Some (i, c)) → task_ok log i (request config r).
Proof.
  intros Hi. destruct r; apply once_ok; try done.
  - apply start_ok.
  - apply stop_ok.
  - apply kill_steady.
  - apply restart_ok.
  - apply restart_with_kill_timeout_ok.
  - apply stop_with_kill_timeout_ok.
  - apply sync_configuration_steady.
  - apply boot_server_ok.
  - apply destroy_ok.
Qed.

(** The watchers a call leaves *)
Lemma answer_watchers c i next {X} (e : ServerE X) s id : let s' := (answer config c i next e s).2 in
  sh_status_task s' = Some id ∨ sh_startup_task s' = Some id →
  (sh_status_task s = Some id ∨ sh_startup_task s = Some id) ∨ (id = next ∧ ∃ turn, spawned config e = [repeated turn]).
Proof.
  destruct e; cbn; try tauto; repeat case_match; cbn; try tauto; intros [?|?]; simplify_eq; eauto.
Qed.

Lemma abort_lookup id (tasks : list Task) j t : abort id tasks !! j = Some t →
  ∃ t', tasks !! j = Some t' ∧ (t = t' ∨ (id = Some j ∧ t = set_aborted t')).
Proof.
  destruct id as [id|]; cbn; [|eauto]. destruct (decide (id = j)) as [->|Hne].
  - rewrite list_lookup_alter_eq. destruct (tasks !! j) as [t'|]; [|done]. cbn. intros [= <-]. exists t'. auto.
  - rewrite list_lookup_alter_ne by done. eauto.
Qed.
Lemma abort_keeps id (tasks : list Task) j t : tasks !! j = Some t → ∃ t', abort id tasks !! j = Some t' ∧ tk_loop t' = tk_loop t.
Proof.
  intros Hj. destruct id as [id|]; cbn; [|eauto]. destruct (decide (id = j)) as [->|Hne].
  - rewrite list_lookup_alter_eq, Hj. by eexists.
  - rewrite list_lookup_alter_ne by done. eauto.
Qed.
Lemma abort_length id (tasks : list Task) : length (abort id tasks) = length tasks.
Proof. destruct id; [apply length_alter|done]. Qed.

(** Replacing what is left of a task *)
Lemma replace_lookup (tasks : list Task) i m t j t' : tasks !! i = Some t → <[i := set_prog m t]> tasks !! j = Some t' →
  (j = i ∧ t' = set_prog m t) ∨ (j ≠ i ∧ tasks !! j = Some t').
Proof. intros Hi [(-> & <- & _)|(? & ?)]%list_lookup_insert_Some; auto. Qed.
Lemma replace_loop (tasks : list Task) i m t j t' : tasks !! i = Some t → tasks !! j = Some t' →
  ∃ t'', <[i := set_prog m t]> tasks !! j = Some t'' ∧ tk_loop t'' = tk_loop t'.
Proof.
  intros Hi Hj. destruct (decide (i = j)) as [<-|Hne].
  - rewrite list_lookup_insert_eq by (by eapply lookup_lt_Some). eexists. split; [done|]. cbn. congruence.
  - rewrite list_lookup_insert_ne by done. eauto.
Qed.

(** The tasks after a call *)
Lemma tasks_after c i next {X} (e : ServerE X) (k : X → sprog bool) y t j t' :
  po_tasks y !! i = Some t → next = length (po_tasks y) →
  (abort (aborted e (po_shared y)) (<[i := set_prog (k (answer config c i next e (po_shared y)).1) t]> (po_tasks y)) ++ spawned config e) !! j = Some t' →
  (j = next ∧ spawned config e = [t']) ∨
  ∃ t0, (t' = t0 ∨ (aborted e (po_shared y) = Some j ∧ t' = set_aborted t0)) ∧
    ((j = i ∧ t0 = set_prog (k (answer config c i next e (po_shared y)).1) t) ∨ (j ≠ i ∧ po_tasks y !! j = Some t0)).
Proof.
  intros Hi -> Hj. apply lookup_app_Some in Hj as [Hj|[Hge Hj]].
  - apply abort_lookup in Hj as (t0 & Hj & Ht). right. exists t0. split; [done|]. by apply replace_lookup.
  - rewrite abort_length, length_insert in Hge, Hj. left.
    destruct (spawned_one e) as [Hs|[ts Hs]]; rewrite Hs in Hj; [done|]. apply list_lookup_singleton_Some in Hj as [Hz <-]. split; [lia|done].
Qed.
Lemma tasks_keep c i next {X} (e : ServerE X) (k : X → sprog bool) y t j t' :
  po_tasks y !! i = Some t → po_tasks y !! j = Some t' →
  ∃ t'', (abort (aborted e (po_shared y)) (<[i := set_prog (k (answer config c i next e (po_shared y)).1) t]> (po_tasks y)) ++ spawned config e) !! j = Some t'' ∧
    tk_loop t'' = tk_loop t'.
Proof.
  intros Hi Hj. destruct (replace_loop _ i (k (answer config c i next e (po_shared y)).1) t j t' Hi Hj) as (t1 & H1 & L1).
  destruct (abort_keeps (aborted e (po_shared y)) _ _ _ H1) as (t2 & H2 & L2). exists t2. split; [|congruence]. by apply lookup_app_l_Some.
Qed.

Lemma pool_call_ok c i y y' : pool_ok y → pool_call config c i y = Some y' → pool_ok y'.
Proof.
  intros [Hl Hok Hh Ha Hw] Hc. unfold pool_call in Hc. destruct (po_tasks y !! i) as [t|] eqn:Hi; [|done].
  destruct (tk_prog t) as [b|X e k] eqn:Ht; [done|]. destruct (tk_aborted t && waits e); [done|].
  destruct (Hok i t Hi) as [Hwp Hbody]. rewrite Ht in Hwp. destruct Hwp as [Hmay Hwp].
  pose proof (answer_ok config c i (length (po_tasks y)) e (po_shared y) t Hl Hmay) as (Hl' & Hg & Hother & Hhold).
  pose proof (answer_watchers c i (length (po_tasks y)) e (po_shared y)) as Hwatch.
  pose proof (λ j t', tasks_after c i _ e k y t j t' Hi eq_refl) as Hafter.
  pose proof (λ j t', tasks_keep c i (length (po_tasks y)) e k y t j t' Hi) as Hkeep.
  destruct (answer config c i (length (po_tasks y)) e (po_shared y)) as [x s']. cbn [fst snd] in *. injection Hc as <-.
  assert (∀ c', hold (sh_log s') ≠ Some (length (po_tasks y), c')) as Hnew.
  { intros c' H. destruct (Hhold _ _ H) as [[Hlen _]|[c0 H0]].
    - apply lookup_lt_Some in Hi. lia.
    - destruct (Hh _ _ H0) as (t0 & H1 & _). apply lookup_lt_Some in H1. lia. }
  split; cbn [po_shared po_tasks]; [done| | | |].
  - intros j t' Hj. destruct (Hafter j t' Hj) as [[-> Hs]|(t0 & Ht0 & Hcase)]; [by eapply spawned_ok|].
    enough (task_ok (sh_log s') j t0) as H by (destruct Ht0 as [->|[_ ->]]; [done|by apply task_ok_aborted]).
    destruct Hcase as [[-> ->]|[Hne Hj0]]; [|apply (task_ok_ghost (sh_log (po_shared y))); [by apply Hother|by apply Hok]].
    split; [|done]. change (ghost_of (sh_log s') i (set_prog (k x) t)) with (ghost_of (sh_log s') i t). rewrite Hg. by apply Hwp.
  - intros j c' Hj. destruct (Hhold j c' Hj) as [[-> Hloop]|[c0 H0]].
    + destruct (Hkeep i t Hi) as (t'' & ? & ?). exists t''. split; [done|congruence].
    + destruct (Hh _ _ H0) as (t0 & H1 & H2). destruct (Hkeep j t0 H1) as (t'' & ? & ?). exists t''. split; [done|congruence].
  - intros j t' Hj Hab. destruct (Hafter j t' Hj) as [[-> Hs]|(t0 & Ht0 & Hcase)].
    + destruct (spawned_ok e (sh_log s') (length (po_tasks y)) t' Hs Hnew) as [_ Hf]. congruence.
    + assert (tk_loop t' = tk_loop t0) as -> by by destruct Ht0 as [->|[_ ->]].
      destruct Ht0 as [->|[Hid _]].
      * destruct Hcase as [[-> ->]|[Hne Hj0]]; [by apply (Ha i t)|by eapply Ha].
      * assert (∃ t1, po_tasks y !! j = Some t1 ∧ is_Some (tk_loop t1)) as (t1 & H1 & H2).
        { apply Hw. destruct e; cbn in Hid; try done; auto. }
        destruct Hcase as [[-> ->]|[Hne Hj0]]; [cbn; congruence|congruence].
  - intros id Hid. destruct (Hwatch id Hid) as [H|[-> [turn Hs]]].
    + destruct (Hw id H) as (t0 & H1 & H2). destruct (Hkeep id t0 H1) as (t'' & ? & Hl2). exists t''. split; [done|]. by rewrite Hl2.
    + exists (repeated turn). split; [|by eexists]. rewrite Hs, lookup_app_r; rewrite abort_length, length_insert; [|done]. by rewrite Nat.sub_diag.
Qed.

Lemma pool_replace_ok y i t m : pool_ok y → po_tasks y !! i = Some t → task_ok (sh_log (po_shared y)) i (set_prog m t) →
  pool_ok (mk_Pool (po_shared y) (<[i := set_prog m t]> (po_tasks y))).
Proof.
  intros [Hl Hok Hh Ha Hw] Hi Hm. split; cbn [po_shared po_tasks]; [done| | | |].
  - intros j t' Hj. destruct (replace_lookup _ _ _ _ _ _ Hi Hj) as [[-> ->]|[_ Hj0]]; [done|by apply Hok].
  - intros j c Hj. destruct (Hh j c Hj) as (t0 & H1 & H2). destruct (replace_loop _ i m t j t0 Hi H1) as (t'' & ? & ?). exists t''. split; [done|congruence].
  - intros j t' Hj Haj. destruct (replace_lookup _ _ _ _ _ _ Hi Hj) as [[-> ->]|[_ Hj0]]; [by apply (Ha i t)|by eapply Ha].
  - intros id Hid. destruct (Hw id Hid) as (t0 & H1 & H2). destruct (replace_loop _ i m t id t0 Hi H1) as (t'' & ? & E). exists t''. split; [done|]. by rewrite E.
Qed.
Lemma pool_step_ok y y' : pool_ok y → pool_step config y y' → pool_ok y'.
Proof.
  intros Hy [c i y1 Hc|i t body Hi Hp Hna Hb|i t Hi Hab|r|f b Hf|now Hnow].
  - by eapply pool_call_ok.
  - apply pool_replace_ok; [done|done|]. destruct (po_ok _ Hy i t Hi) as [_ Hbody]. split; [|done].
    unfold ghost_of, rests. cbn. rewrite Hb. by apply Hbody.
  - apply pool_replace_ok; [done|done|]. destruct (po_ok _ Hy i t Hi) as [_ Hbody]. destruct (po_aborted _ Hy i t Hi Hab) as [body Hb].
    split; [|done]. unfold ghost_of, rests. cbn. by rewrite Hb.
  - destruct Hy as [Hl Hok Hh Ha Hw]. split; cbn [po_shared po_tasks]; [done| | | |].
    + intros j t' [Hj|[Hge Hj]]%lookup_app_Some; [by apply Hok|]. apply list_lookup_singleton_Some in Hj as [Hz <-].
      apply request_ok. intros c Hc. destruct (Hh j c Hc) as (t0 & H1%lookup_lt_Some & _). lia.
    + intros j c Hj. destruct (Hh j c Hj) as (t0 & H1 & H2). exists t0. split; [by apply lookup_app_l_Some|done].
    + intros j t' [Hj|[Hge Hj]]%lookup_app_Some; [by eapply Ha|]. apply list_lookup_singleton_Some in Hj as [_ <-]. by destruct r.
    + intros id Hid. destruct (Hw id Hid) as (t0 & H1 & H2). exists t0. split; [by apply lookup_app_l_Some|done].
  - by destruct Hy.
  - by destruct Hy.
Qed.
Lemma pool_reachable_ok y : pool_reachable config y → pool_ok y.
Proof.
  induction 1 as [c startup now|y y' _ IH Hstep]; [|by eapply pool_step_ok].
  split; cbn; try done.
  - split; [done|]. intros l1 e l2 H. by destruct l1.
  - by intros id [?|?].
Qed.

(** *** The history of the lock *)

Definition is_lock_event (e : LifeEvent) : bool := match e with Locked | Unlocked => true | _ => false end.
Definition is_started (e : LifeEvent) : bool := match e with Started _ => true | _ => false end.

Lemma hold_history l i c : hold l = Some (i, c) →
  ∃ a b, l = a ++ (i, Locked) :: b ∧ Forall (λ e, is_lock_event e.2 = false) b ∧
    (c = true → ∃ b1 reported b2, b = b1 ++ (i, Cleaned reported) :: b2 ∧ Forall (λ e, is_started e.2 = false) b2).
Proof.
  revert i c. induction l as [|[j e] l IH] using rev_ind; [done|]. intros i c. rewrite hold_snoc. unfold hold_step. cbn [fst snd].
  assert (∀ c0, hold l = Some (i, c0) → is_lock_event e = false →
    (c = true → ((∃ reported, e = Cleaned reported) ∧ j = i) ∨ (c0 = true ∧ is_started e = false)) →
    ∃ a b, l ++ [(j, e)] = a ++ (i, Locked) :: b ∧ Forall (λ e, is_lock_event e.2 = false) b ∧
      (c = true → ∃ b1 reported b2, b = b1 ++ (i, Cleaned reported) :: b2 ∧ Forall (λ e, is_started e.2 = false) b2)) as Hkeep.
  { intros c0 H0 Hne Hc. destruct (IH i c0 H0) as (a & b & -> & Hb & Hcl). exists a, (b ++ [(j, e)]).
    split; [by rewrite <- app_assoc|]. split; [by apply Forall_app; split; [|repeat constructor]|].
    intros Hct. destruct (Hc Hct) as [[[reported ->] ->]|[-> Hst]].
    - exists b, reported, []. split; [done|by constructor].
    - destruct (Hcl eq_refl) as (b1 & reported & b2 & -> & Hb2). exists b1, reported, (b2 ++ [(j, e)]). split; [by rewrite <- app_assoc|].
      apply Forall_app. split; [done|]. by repeat constructor. }
  destruct e; cbn; try (intros H; apply (Hkeep c H); auto; fail); try done.
  - intros [= <- <-]. exists l, []. split; [done|]. split; [by constructor|done].
  - destruct (hold l) as [[i0 c0]|] eqn:H0; [|done]. cbn. intros [= -> <-]. apply (Hkeep c0); [done|done|].
    intros [->|Hj%bool_decide_eq_true]%orb_true_iff; eauto.
  - destruct (hold l) as [[i0 c0]|] eqn:H0; [|done]. cbn. intros [= -> <-]. by apply (Hkeep c0).
Qed.

(** The processes that were started, latest first, and of which the executor
    has not reported the removal *)
Definition unremoved_step (ps : list Z) (e : nat * LifeEvent) : list Z :=
  match e.2 with Started p => p :: ps | Cleaned true => [] | _ => ps end.
Definition unremoved (l : list (nat * LifeEvent)) : list Z := fold_left unremoved_step l [].

Lemma unremoved_cleaned a i b : Forall (λ e, is_started e.2 = false) b → unremoved (a ++ (i, Cleaned true) :: b) = [].
Proof.
  intros Hb. unfold unremoved. rewrite fold_left_app. cbn [fold_left]. change (unremoved_step _ (i, Cleaned true)) with (@nil Z).
  induction Hb as [|[j e] b He _ IH]; [done|]. cbn [fold_left]. replace (unremoved_step [] (j, e)) with (@nil Z); [exact IH|].
  by destruct e as [| |[]| | | | | | |].
Qed.

(** C35. A process is only ever started by the task that holds the lock of power
    actions, and after that task has had the old one removed: whatever power
    actions, watchers, synchronisations and restarts interleave, before each
    start of a process there is the moment its task took the lock, nobody has
    taken or released the lock since, and since then the task has asked the
    executor to remove the old process, with no start in between.  When the
    executor reported that removal as done, no process that was started before
    is left that it has not reported as removed; when it reported an error,
    the start goes on all the same. *)
Theorem processes_started_alone y l1 i p l2 (Hy : pool_reachable config y) (Hlog : sh_log (po_shared y) = l1 ++ (i, Started p) :: l2) :
  ∃ a b1 reported b2, l1 = a ++ (i, Locked) :: b1 ++ (i, Cleaned reported) :: b2 ∧
    Forall (λ e, is_lock_event e.2 = false) (b1 ++ b2) ∧ Forall (λ e, is_started e.2 = false) b2 ∧
    (reported = true → unremoved l1 = []).
Proof.
  destruct (pool_reachable_ok y Hy) as [[_ Hok] _ _ _ _]. pose proof (Hok _ _ _ Hlog) as He. cbn in He.
  destruct (hold_history _ _ _ He) as (a & b & -> & Hb & Hc). destruct (Hc eq_refl) as (b1 & reported & b2 & -> & Hb2).
  exists a, b1, reported, b2. split; [done|]. split; [|split; [done|]].
  - apply Forall_app in Hb as [H1 H2]. apply Forall_cons_iff in H2 as [_ H2]. by apply Forall_app.
  - intros ->. rewrite app_comm_cons, app_assoc. by apply unremoved_cleaned.
Qed.
End safety.

(** ** Restarts after crashes *)

Definition crash_times (log : list (nat * LifeEvent)) : list Z := omap (λ e, match e.2 with CrashAccepted t => Some t | _ => None end) log.
Definition accepted (i : nat) (log : list (nat * LifeEvent)) : Z :=
  zlen (List.filter (λ e, Nat.eqb e.1 i && match e.2 with CrashAccepted _ => true | _ => false end) log).
Definition restarted (i : nat) (log : list (nat * LifeEvent)) : Z :=
  zlen (List.filter (λ e, Nat.eqb e.1 i && match e.2 with Spawned StartAfterCrash => true | _ => false end) log).

Section crashes.
Context (config : LifecycleConfig).

Definition spaced (times : list Z) : Prop := ∀ l1 t1 t2 l2, times = l1 ++ t1 :: t2 :: l2 → lc_crash_timeout config * SECOND <= t2 - t1.
Lemma spaced_snoc times t : spaced times → (∀ l t0, times = l ++ [t0] → lc_crash_timeout config * SECOND <= t - t0) → spaced (times ++ [t]).
Proof.
  intros Hs Ht l1 t1 t2 l2 H. destruct l2 as [|t3 l2 _] using rev_ind.
  - change (l1 ++ [t1; t2]) with (l1 ++ [t1] ++ [t2]) in H. rewrite app_assoc in H. apply app_inj_tail in H as [-> ->]. by eapply Ht.
  - change (l1 ++ t1 :: t2 :: l2 ++ [t3]) with (l1 ++ (t1 :: t2 :: l2) ++ [t3]) in H. rewrite app_assoc in H. apply app_inj_tail in H as [-> _]. by eapply Hs.
Qed.

(** The time of the last crash, and the crashes that were answered with a
    restart *)
Definition crash_inv (s : Shared) : Prop :=
  spaced (crash_times (sh_log s)) ∧
  match sh_last_crash s with
  | Some t => ∃ l, crash_times (sh_log s) = l ++ [t]
  | None => crash_times (sh_log s) = []
  end.
Lemma crash_inv_other s s' l : crash_times l = [] → sh_log s' = sh_log s ++ l → sh_last_crash s' = sh_last_crash s → crash_inv s → crash_inv s'.
Proof. intros Hl Hs Hc. unfold crash_inv. rewrite Hs, Hc. unfold crash_times in *. by rewrite omap_app, Hl, app_nil_r. Qed.
Lemma crash_inv_same s s' : sh_log s' = sh_log s → sh_last_crash s' = sh_last_crash s → crash_inv s → crash_inv s'.
Proof. intros Hs. apply (crash_inv_other s s' []); [done|]. by rewrite app_nil_r. Qed.
Lemma answer_crash c i next {X} (e : ServerE X) s : crash_inv s → crash_inv (answer config c i next e s).2.
Proof.
  intros Hs. destruct e; cbn [answer]; try (repeat case_match; cbn [snd];
    first [done|by apply (crash_inv_same s)|by eapply crash_inv_other; [|reflexivity|reflexivity|exact Hs]]; fail).
  unfold crash_is_recent. destruct Hs as [Hsp Hlast].
  assert ((∀ l t0, crash_times (sh_log s) = l ++ [t0] → lc_crash_timeout config * SECOND <= sh_now s - t0) →
    crash_inv (log_event i (CrashAccepted (sh_now s)) (set_last_crash (Some (sh_now s)) s))) as Hacc.
  { intros Ht. unfold crash_inv. cbn. unfold crash_times in *. rewrite omap_app. cbn. split; [by apply spaced_snoc|eauto]. }
  destruct (sh_last_crash s) as [t|] eqn:Hl; cbn [snd].
  - destruct (Z.ltb_spec ((sh_now s - t) / SECOND) (lc_crash_timeout config)) as [Hlt|Hge]; cbn [snd]; [unfold crash_inv; by rewrite Hl|].
    apply Hacc. intros l t0 H. destruct Hlast as [l' H']. rewrite H in H'. apply app_inj_tail in H' as [_ ->].
    assert (SECOND * ((sh_now s - t) / SECOND) <= sh_now s - t) by (apply Z.mul_div_le; done). unfold SECOND in *. nia.
  - apply Hacc. intros l t0 H. rewrite Hlast in H. by destruct l.
Qed.
End crashes.

(** *** Only a crash that was accepted restarts the server *)

(** [n] is how many accepted crashes have not been answered yet. *)
Definition crash_may (X : Type) (e : ServerE X) (n : Z) : Prop := match e with Spawn StartAfterCrash => 0 < n | _ => True end.
Definition crash_ok (X : Type) (e : ServerE X) (x : X) (n : Z) : Prop := True.
Definition crash_upd (X : Type) (e : ServerE X) : X → Z → Z :=
  match e in ServerE X return X → Z → Z with
  | LastCrash => λ recent n, if recent then n else n + 1
  | Spawn StartAfterCrash => λ _ n, n - 1
  | _ => λ _ n, n
  end.
Abbreviation cwp := (wp crash_may crash_ok crash_upd).
Abbreviation counted := (λ _ n, 0 <= n).

(** Programs that have nothing to do with crashes *)
Definition quiet_call (X : Type) (e : ServerE X) : Prop := match e with Spawn StartAfterCrash | LastCrash => False | _ => True end.
Abbreviation quiet := (all_calls quiet_call).
Lemma quiet_cwp {A} (m : sprog A) n : quiet m → cwp m n (λ _ n', n' = n).
Proof.
  intros Hm. induction m as [a|X e k IH]; [done|]. destruct Hm as [He Hk].
  assert (crash_may X e n ∧ ∀ x, crash_upd X e x n = n) as [Hmay Hupd].
  { destruct e; cbn in *; try done. by destruct b. }
  split; [done|]. intros x _. rewrite Hupd. by apply IH.
Qed.
Lemma quiet_bind {A B} (m : sprog A) (f : A → sprog B) : quiet m → (∀ a, quiet (f a)) → quiet (m ≫= f).
Proof. apply all_calls_bind. Qed.
Lemma quiet_call_ok {X} (e : ServerE X) : quiet_call X e → quiet (call e).
Proof. by split. Qed.
Lemma quiet_when b (m : sprog unit) : quiet m → quiet (when b m).
Proof. by destruct b. Qed.
Lemma quiet_try {A B} (m : sprog (result string A)) (f : A → sprog (result string B)) : quiet m → (∀ a, quiet (f a)) → quiet (try m f).
Proof. intros Hm Hf. apply quiet_bind; [done|]. by intros [a|e]. Qed.

Create HintDb quiet.
Ltac quiet_step :=
  match goal with
  | |- all_calls _ (mbind _ _) => apply quiet_bind; [|intros ?]
  | |- all_calls _ (try _ _) => apply quiet_try; [|intros ?]
  | |- all_calls _ (when _ _) => apply quiet_when
  | |- all_calls _ (mret _) => exact I
  | |- all_calls _ (call _) => apply quiet_call_ok; exact I
  | |- all_calls _ (match ?x with _ => _ end) => destruct x
  end.
Ltac quiet := repeat first [solve [auto with quiet nocore]|quiet_step].

Section crash_counts.
Context (config : LifecycleConfig).

Lemma set_state_quiet state : quiet (set_state state).
Proof. unfold set_state. quiet. Qed.
Hint Resolve set_state_quiet : quiet.
Lemma execute_action_quiet state action wait : quiet action → quiet (execute_action state action wait).
Proof. intros Ha. unfold execute_action. quiet. Qed.
Lemma setup_startup_task_quiet p : quiet (setup_startup_task p).
Proof. unfold setup_startup_task. quiet. Qed.
Lemma destroy_container_quiet : quiet destroy_container.
Proof. unfold destroy_container. quiet. Qed.
Hint Resolve setup_startup_task_quiet destroy_container_quiet : quiet.
Lemma setup_container_quiet : quiet setup_container.
Proof. unfold setup_container. quiet. Qed.
Lemma attach_container_quiet : quiet attach_container.
Proof. unfold attach_container. quiet. Qed.
Lemma sync_configuration_quiet skip : quiet (sync_configuration skip).
Proof. unfold sync_configuration, update_configuration, sync_container. quiet. Qed.
Lemma check_disk_quiet : quiet check_disk.
Proof. unfold check_disk. quiet. Qed.
Lemma check_boot_permissions_quiet : quiet (check_boot_permissions config).
Proof. unfold check_boot_permissions. quiet. Qed.
Lemma start_process_quiet : quiet start_process.
Proof. unfold start_process. quiet. Qed.
Lemma locked_state_quiet : quiet locked_state.
Proof. unfold locked_state. quiet. Qed.
Hint Resolve setup_container_quiet attach_container_quiet sync_configuration_quiet check_disk_quiet check_boot_permissions_quiet start_process_quiet
  locked_state_quiet : quiet.
Lemma start_action_quiet : quiet (start_action config).
Proof. unfold start_action. quiet. Qed.
Lemma stop_action_quiet : quiet stop_action.
Proof. unfold stop_action. quiet. Qed.
Lemma start_quiet wait skip : quiet (start config wait skip).
Proof. unfold start. pose proof (execute_action_quiet ServerState.Starting _ wait start_action_quiet). quiet. Qed.
Lemma stop_quiet wait skip : quiet (stop wait skip).
Proof. unfold stop. pose proof (execute_action_quiet ServerState.Stopping _ wait stop_action_quiet). quiet. Qed.
Lemma kill_quiet skip : quiet (kill skip).
Proof. unfold kill. quiet. Qed.
Hint Resolve start_quiet stop_quiet kill_quiet : quiet.
Lemma restart_stop_quiet wait : quiet (restart_stop wait).
Proof. unfold restart_stop. quiet. Qed.
Hint Resolve restart_stop_quiet : quiet.
Lemma stop_with_kill_timeout_quiet skip : quiet (stop_with_kill_timeout skip).
Proof. unfold stop_with_kill_timeout. quiet. Qed.
Hint Resolve stop_with_kill_timeout_quiet : quiet.
Lemma background_quiet b : quiet (background config b).
Proof. destruct b; cbn [background]; quiet. Qed.
Lemma startup_turn_quiet p startup : quiet (startup_turn p startup).
Proof. unfold startup_turn, check_startup. quiet. Qed.
Lemma request_quiet r : quiet (tk_prog (request config r)).
Proof. destruct r; unfold request, once, restart, restart_with_kill_timeout, boot_server, destroy; cbn [tk_prog]; quiet. Qed.
Lemma full_check_quiet : quiet full_check.
Proof. unfold full_check. quiet. Qed.
Lemma delete_on_stop_quiet : quiet (delete_on_stop config).
Proof. unfold delete_on_stop. quiet. Qed.

Lemma quiet_counted {A} (m : sprog A) n : quiet m → 0 <= n → cwp m n counted.
Proof. intros Hm Hn. eapply wp_mono; [by apply quiet_cwp|]. by intros a n' ->. Qed.
Lemma cwp_quiet {A B} (m : sprog A) (f : A → sprog B) n Φ : quiet m → (∀ a, cwp (f a) n Φ) → cwp (m ≫= f) n Φ.
Proof. intros Hm Hf. apply wp_bind. eapply wp_mono; [by apply quiet_cwp|]. intros a n' ->. apply Hf. Qed.
Lemma crashed_counted exit_code oom_killed n : 0 <= n → cwp (crashed config exit_code oom_killed) n counted.
Proof.
  intros Hn. unfold crashed. apply cwp_quiet; [quiet|]. intros _. destruct (_ && _); [apply quiet_counted; [apply delete_on_stop_quiet|done]|].
  do 4 (apply cwp_quiet; [quiet|]; intros _). split; [done|]. intros recent _. destruct recent; cbn [crash_upd].
  - apply (cwp_quiet (call _)); [quiet|]. intros _. apply quiet_counted; [apply delete_on_stop_quiet|done].
  - split; [cbn; lia|]. intros x _. cbn. lia.
Qed.
Lemma status_turn_counted p n : 0 <= n → cwp (status_turn config p) n counted.
Proof.
  intros Hn. unfold status_turn. apply cwp_quiet; [quiet|]. intros [status|]; [|done].
  apply cwp_quiet; [quiet|]. intros _. apply cwp_quiet; [apply full_check_quiet|]. intros _.
  destruct status as [| |exit_code oom_killed]; [apply quiet_counted; [quiet|done]|done|].
  apply wp_bind. apply (wp_mono _ _ _ _ _ counted); [|by intros a n' Hn'].
  unfold process_stopped. apply cwp_quiet; [quiet|]. intros _. apply cwp_quiet; [quiet|]. intros restarting.
  destruct restarting; [apply quiet_counted; [quiet|done]|]. apply cwp_quiet; [quiet|]. intros stopping. destruct stopping.
  - apply quiet_counted; [|done]. pose proof delete_on_stop_quiet. quiet.
  - destruct (negb _); [done|]. apply cwp_quiet; [quiet|]. intros handled. destruct handled; [done|by apply crashed_counted].
Qed.

Definition due (i : nat) (log : list (nat * LifeEvent)) : Z := accepted i log - restarted i log.
Definition due_delta (e : LifeEvent) : Z := match e with CrashAccepted _ => 1 | Spawned StartAfterCrash => -1 | _ => 0 end.
Lemma due_snoc i l j e : due i (l ++ [(j, e)]) = due i l + if decide (i = j) then due_delta e else 0.
Proof.
  unfold due, accepted, restarted. rewrite !List.filter_app, !zlen_app. cbn.
  destruct (decide (i = j)) as [->|Hne].
  - rewrite Nat.eqb_refl. cbn. destruct e as [| | | | | | | |[]|]; unfold zlen; cbn; lia.
  - rewrite (proj2 (Nat.eqb_neq j i)) by done. unfold zlen. cbn. lia.
Qed.
Lemma answer_due c i next {X} (e : ServerE X) s j :
  due j (sh_log (answer config c i next e s).2) =
  if decide (j = i) then crash_upd X e (answer config c i next e s).1 (due j (sh_log s)) else due j (sh_log s).
Proof.
  assert (∀ ev s0, sh_log s0 = sh_log s → due j (sh_log (log_event i ev s0)) = due j (sh_log s) + if decide (j = i) then due_delta ev else 0) as Hlog
    by (intros ev s0 Hs; cbn; by rewrite due_snoc, Hs).
  destruct e; cbn [answer]; try match goal with |- context [match ?x with _ => _ end] => is_var x; destruct x end;
    try match goal with |- context [answer] => fail 1 | |- context [if ?x then (_, _) else (_, _)] => destruct x
        | |- context [match set_state_begin ?a ?b with _ => _ end] => destruct (set_state_begin a b) end;
    cbn [fst snd crash_upd]; rewrite ?Hlog by done; cbn [due_delta]; destruct (decide (j = i)); try done; first [lia|by destruct b; cbn; lia].
Qed.

Record counts_ok (y : Pool) : Prop := {
  co_tasks : ∀ i t, po_tasks y !! i = Some t →
    cwp (tk_prog t) (due i (sh_log (po_shared y))) counted ∧ ∀ body, tk_loop t = Some body → ∀ n, 0 <= n → cwp body n counted;
  co_due : ∀ i, 0 <= due i (sh_log (po_shared y));
  co_later : ∀ i, (length (po_tasks y) <= i)%nat → due i (sh_log (po_shared y)) = 0;
}.
Definition counted_task (t : Task) : Prop := cwp (tk_prog t) 0 counted ∧ ∀ body, tk_loop t = Some body → ∀ n, 0 <= n → cwp body n counted.
Lemma once_counted (m : sprog unit) : quiet m → counted_task (once m).
Proof. intros Hm. split; [|done]. apply quiet_counted; [|done]. cbn. quiet. Qed.
Lemma repeated_counted (turn : sprog bool) : (∀ n, 0 <= n → cwp turn n counted) → counted_task (repeated turn).
Proof. intros Ht. split; [by apply Ht|]. by intros body [= <-]. Qed.
Lemma spawned_counted {X} (e : ServerE X) t : spawned config e = [t] → counted_task t.
Proof.
  intros Hs. destruct e; try done; cbn in Hs; injection Hs as <-.
  - apply repeated_counted. intros n. apply status_turn_counted.
  - apply repeated_counted. intros n Hn. apply quiet_counted; [apply startup_turn_quiet|done].
  - apply once_counted, background_quiet.
Qed.

Lemma counts_call_ok c i y y' : counts_ok y → pool_call config c i y = Some y' → counts_ok y'.
Proof.
  intros [Hok Hd Hlater] Hc. unfold pool_call in Hc. destruct (po_tasks y !! i) as [t|] eqn:Hi; [|done].
  destruct (tk_prog t) as [b|X e k] eqn:Ht; [done|]. destruct (tk_aborted t && waits e); [done|].
  destruct (Hok i t Hi) as [Hwp _]. rewrite Ht in Hwp. destruct Hwp as [Hmay Hwp].
  pose proof (answer_due c i (length (po_tasks y)) e (po_shared y)) as Hdue.
  pose proof (λ j t', tasks_after config c i _ e k y t j t' Hi eq_refl) as Hafter.
  destruct (answer config c i (length (po_tasks y)) e (po_shared y)) as [x s']. cbn [fst snd] in *. injection Hc as <-.
  pose proof (lookup_lt_Some _ _ _ Hi) as Hlt.
  assert (0 <= crash_upd X e x (due i (sh_log (po_shared y)))) as Hpos.
  { specialize (Hd i). destruct e; cbn in *; try done; [destruct x; lia|]. destruct b; cbn in *; lia. }
  split; cbn [po_shared po_tasks].
  - intros j t' Hj. destruct (Hafter j t' Hj) as [[-> Hs]|(t0 & Ht0 & Hcase)].
    + rewrite Hdue. rewrite decide_False by lia. rewrite Hlater by done. by eapply spawned_counted.
    + enough (cwp (tk_prog t0) (due j (sh_log s')) counted ∧ ∀ body, tk_loop t0 = Some body → ∀ n, 0 <= n → cwp body n counted) as H
        by (by destruct Ht0 as [->|[_ ->]]).
      rewrite Hdue. destruct Hcase as [[-> ->]|[Hne Hj0]]; [|rewrite decide_False by done; by apply Hok].
      rewrite decide_True by done. split; [by apply Hwp|]. by apply (Hok i t).
  - intros j. rewrite Hdue. destruct (decide (j = i)) as [->|]; [done|apply Hd].
  - intros j Hj. rewrite length_app, abort_length, length_insert in Hj. rewrite Hdue, decide_False by lia. apply Hlater. lia.
Qed.
Lemma counts_replace_ok y i t m : counts_ok y → po_tasks y !! i = Some t → cwp m (due i (sh_log (po_shared y))) counted →
  counts_ok (mk_Pool (po_shared y) (<[i := set_prog m t]> (po_tasks y))).
Proof.
  intros [Hok Hd Hlater] Hi Hm. split; cbn [po_shared po_tasks]; [|done|by rewrite length_insert].
  intros j t' Hj. destruct (replace_lookup _ _ _ _ _ _ Hi Hj) as [[-> ->]|[_ Hj0]]; [|by apply Hok]. split; [done|]. by apply (Hok i t).
Qed.
Lemma counts_step_ok y y' : counts_ok y → pool_step config y y' → counts_ok y'.
Proof.
  intros Hy [c i y1 Hc|i t body Hi Hp Hna Hb|i t Hi Hab|r|f b Hf|now Hnow].
  - by eapply counts_call_ok.
  - apply counts_replace_ok; [done|done|]. eapply (co_tasks _ Hy i t); [done|done|]. apply (co_due _ Hy).
  - apply counts_replace_ok; [done|done|]. apply (co_due _ Hy).
  - destruct Hy as [Hok Hd Hlater]. split; cbn [po_shared po_tasks]; [|done|].
    + intros j t' [Hj|[Hge Hj]]%lookup_app_Some; [by apply Hok|]. apply list_lookup_singleton_Some in Hj as [Hz <-].
      split; [|by destruct r]. apply quiet_counted; [apply request_quiet|apply Hd].
    + intros j Hj. rewrite length_app in Hj. apply Hlater. lia.
  - by destruct Hy.
  - by destruct Hy.
Qed.
Lemma crash_inv_step y y' : crash_inv config (po_shared y) → pool_step config y y' → crash_inv config (po_shared y').
Proof.
  intros Hy [c i y1 Hc|i t body Hi Hp Hna Hb|i t Hi Hab|r|f b Hf|now Hnow]; try done.
  unfold pool_call in Hc. destruct (po_tasks y !! i) as [t|]; [|done]. destruct (tk_prog t) as [b|X e k]; [done|].
  destruct (_ && _); [done|]. pose proof (answer_crash config c i (length (po_tasks y)) e (po_shared y) Hy) as H.
  destruct (answer _ _ _ _ _ _) as [x s']. by injection Hc as <-.
Qed.

(** C36. A crashing server is not restarted in a loop.  Two crashes that are
    answered with a restart are at least the configured time apart, counted by
    the clock of the daemon, and no task restarts the server after a crash more often
    than it has accepted a crash; whatever else happens to the server in
    between, and however its tasks interleave. *)
Theorem crash_restarts_spaced y (Hy : pool_reachable config y) :
  spaced config (crash_times (sh_log (po_shared y))) ∧
  ∀ i, restarted i (sh_log (po_shared y)) <= accepted i (sh_log (po_shared y)).
Proof.
  assert (crash_inv config (po_shared y) ∧ counts_ok y) as [[Hs _] [_ Hd _]].
  { induction Hy as [configuration startup now|y y' _ [IH1 IH2] Hstep]; [|split; [by eapply crash_inv_step|by eapply counts_step_ok]].
    split; [|by split]. split; [|done]. intros l1 t1 t2 l2 H. by destruct l1. }
  split; [done|]. intros i. specialize (Hd i). unfold due in Hd. lia.
Qed.
End crash_counts.

(** ** Examples *)

Module LifecycleExample.
Definition config (delete : bool) : LifecycleConfig := mk_LifecycleConfig true false 60 delete false.
Definition build : ServerConfigurationBuild := mk_Build 1024 0 0 None 100 0 None false.
Definition configuration (suspended : bool) : ServerConfiguration := mk_ServerConfiguration suspended 0 0 0 0 0 0 build.
Definition startup : ProcessConfigurationStartup := mk_Startup (Some [chars "Done"]) true.
Definition fresh : Pool := mk_Pool (Shared_new (configuration false) startup (1000 * SECOND)) [].
(** What succeeds, and what is told: the disk is never full, processes have
    the number [p]. *)
Record Telling : Type := mk_Telling {
  te_process : Z;
  te_status : option ProcessStatus.ProcessStatus;
  te_line : option (option text);
  te_suspended : bool;
  te_removes : bool;
}.
Definition telling (p : Z) : Telling := mk_Telling p None None false true.
Definition choice (te : Telling) {X} (e : ServerE X) : Choice :=
  mk_Choice (match e with IsFull => false | CleanupProcess => te_removes te | _ => true end) (te_process te) (te_status te) (te_line te) (Some (configuration (te_suspended te), startup)).
Definition next_call (te : Telling) (i : nat) (y : Pool) : option Pool :=
  match po_tasks y !! i with
  | Some t => match tk_prog t with Vis e _ => pool_call (config true) (choice te e) i y | Effects.Done _ => None end
  | None => None
  end.
(** At most [n] calls of task [i] *)
Fixpoint calls (te : Telling) (n : nat) (i : nat) (y : Pool) : Pool :=
  match n with
  | O => y
  | Datatypes.S n => match next_call te i y with Some y => calls te n i y | None => y end
  end.
Definition ask (r : Request) (y : Pool) : Pool := mk_Pool (po_shared y) (po_tasks y ++ [request (config true) r]).
(** A request, done without anything in between *)
Definition ask_and_run (te : Telling) (r : Request) (y : Pool) : Pool := calls te 100 (length (po_tasks y)) (ask r y).
Definition status_turn_of (status : ProcessStatus.ProcessStatus) (y : Pool) : Pool :=
  match sh_status_task (po_shared y) with Some i => calls (mk_Telling 0 (Some status) None false true) 100 i y | None => y end.
Definition events (y : Pool) : list LifeEvent := map snd (sh_log (po_shared y)).
Definition state (y : Pool) : ServerState.ServerState := sl_state (sh_lock (po_shared y)).

Lemma next_call_reachable te i y y' : pool_reachable (config true) y → next_call te i y = Some y' → pool_reachable (config true) y'.
Proof.
  intros Hy H. unfold next_call in H. destruct (po_tasks y !! i) as [t|]; [|done]. destruct (tk_prog t) as [|X e k]; [done|].
  eapply pool_next; [done|]. by eapply step_call.
Qed.
Lemma calls_reachable te n i y : pool_reachable (config true) y → pool_reachable (config true) (calls te n i y).
Proof.
  revert y. induction n as [|n IH]; intros y Hy; [done|]. cbn. destruct (next_call te i y) as [y'|] eqn:H; [|done].
  apply IH. by eapply next_call_reachable.
Qed.
Lemma ask_reachable r y : pool_reachable (config true) y → pool_reachable (config true) (ask r y).
Proof. intros Hy. eapply pool_next; [done|]. apply step_request. Qed.
Lemma status_reachable status y : pool_reachable (config true) y → pool_reachable (config true) (status_turn_of status y).
Proof. intros Hy. unfold status_turn_of. destruct (sh_status_task _); [by apply calls_reachable|done]. Qed.
End LifecycleExample.
Import LifecycleExample.

(** A start, and a crash that is answered with a restart *)
Definition sample_started : Pool := ask_and_run (telling 1) (RequestStart false) fresh.
Definition sample_crashed : Pool := status_turn_of (ProcessStatus.Stopped 1 false) sample_started.
Example sample_lifecycle :
  events sample_started = [Locked; Cleaned true; SetUp 1; Started 1; Unlocked] ∧ state sample_started = ServerState.Starting ∧
  events sample_crashed = events sample_started ++ [CrashTriggered; CrashAccepted (1000 * SECOND); Spawned StartAfterCrash] ∧
  state (calls (telling 2) 100 3 sample_crashed) = ServerState.Starting ∧
  events (calls (telling 2) 100 3 sample_crashed) = events sample_crashed ++ [Locked; Cleaned true; SetUp 2; Started 2; Unlocked].
Proof. by vm_compute. Qed.

(** After a kill the state is offline before the end of the process is told.
    A start in between aborts the watcher that would be told, so the flag of
    the kill stays set, and when the new process crashes that counts as a
    wanted stop: no restart and no crash trigger. *)
Example kill_hides_next_crash :
  let killed := ask_and_run (telling 1) (RequestKill false) sample_started in
  let restarted := ask_and_run (telling 2) (RequestStart false) killed in
  let crashed := status_turn_of (ProcessStatus.Stopped 1 false) restarted in
  state killed = ServerState.Offline ∧ state restarted = ServerState.Starting ∧ sh_flags (po_shared restarted) StoppingFlag = true ∧
  state crashed = ServerState.Offline ∧
  List.filter (λ e, match e with CrashTriggered | Spawned StartAfterCrash => true | _ => false end) (events crashed) = [].
Proof. by vm_compute. Qed.

(** The start asks whether the server is suspended before it fetches the
    configuration, and not again: a server that the panel has suspended
    starts. *)
Example suspended_server_starts :
  let started := ask_and_run (mk_Telling 1 None None true true) (RequestStart false) fresh in
  sh_flags (po_shared started) Suspended = true ∧ List.filter is_started (events started) = [Started 1] ∧ state started = ServerState.Starting.
Proof. by vm_compute. Qed.

(** Two stops at the same time: the second has seen the server running, does
    not get the lock, and takes back the flag the first has set.  The end of
    the process then counts as a crash, and the server is started again. *)
Example refused_stop_undoes_stop :
  let asked := ask (RequestStop false false) (ask (RequestStop false false) sample_started) in
  let first := calls (telling 1) 9 3 (calls (telling 1) 2 4 asked) in
  let both := calls (telling 1) 100 3 (calls (telling 1) 100 4 first) in
  let stopped := status_turn_of (ProcessStatus.Stopped 143 false) both in
  sh_flags (po_shared first) StoppingFlag = true ∧ state both = ServerState.Stopping ∧ sh_flags (po_shared both) StoppingFlag = false ∧
  list.last (events both) = Some Unlocked ∧ list.last (events stopped) = Some (Spawned StartAfterCrash).
Proof. by vm_compute. Qed.

(** A removal that fails does not keep the next process from being started:
    the first one, which the executor could not remove, is still there. *)
Example failed_removal_is_ignored :
  let killed := ask_and_run (telling 1) (RequestKill false) sample_started in
  let restarted := ask_and_run (mk_Telling 2 None None false false) (RequestStart false) killed in
  state restarted = ServerState.Starting ∧ list.last (events restarted) = Some Unlocked ∧
  unremoved (sh_log (po_shared restarted)) = [2; 1].
Proof. by vm_compute. Qed.

Lemma sample_crashed_reachable : pool_reachable (config true) sample_crashed.
Proof. apply status_reachable. unfold sample_started, ask_and_run. apply calls_reachable, ask_reachable. apply pool_start. Qed.
Definition sample_restarted : Pool := calls (telling 2) 100 3 sample_crashed.

Lemma processes_started_alone_witness :
  ∃ l1 l2, sh_log (po_shared sample_restarted) = l1 ++ (3%nat, Started 2) :: l2 ∧
  ∃ a b1 reported b2, l1 = a ++ (3%nat, Locked) :: b1 ++ (3%nat, Cleaned reported) :: b2 ∧
    Forall (λ e, is_lock_event e.2 = false) (b1 ++ b2) ∧ Forall (λ e, is_started e.2 = false) b2 ∧
    (reported = true → unremoved l1 = []).
Proof.
  eexists (ztake 11 (sh_log (po_shared sample_restarted))), (zdrop 12 (sh_log (po_shared sample_restarted))).
  split; [by vm_compute|]. eapply (processes_started_alone (config true) sample_restarted).
  - apply calls_reachable, sample_crashed_reachable.
  - by vm_compute.
Defined.
Lemma crash_restarts_spaced_witness :
  crash_times (sh_log (po_shared sample_crashed)) = [1000 * SECOND] ∧ restarted 1 (sh_log (po_shared sample_crashed)) = 1 ∧
  spaced (config true) (crash_times (sh_log (po_shared sample_crashed))) ∧
  ∀ i, restarted i (sh_log (po_shared sample_crashed)) <= accepted i (sh_log (po_shared sample_crashed)).
Proof. split; [by vm_compute|]. split; [by vm_compute|]. apply (crash_restarts_spaced (config true)). apply sample_crashed_reachable. Defined.
(** A second crash within the configured time is not answered with a
    restart. *)
Example crash_loop_ends :
  let again := status_turn_of (ProcessStatus.Stopped 1 false) sample_restarted in
  events again = events sample_restarted ++ [CrashTriggered; Spawned ShutdownLimiter; Cleaned true].
Proof. by vm_compute. Qed.

(** Escapes are removed before a line is compared. *)
Example startup_line :
  strip_ansi ([27] ++ chars "[32mDone" ++ [27] ++ chars "[0m (3s)!") = chars "Done (3s)!" ∧
  match sh_startup_task (po_shared sample_started) with
  | Some i => state (calls (mk_Telling 1 None (Some (Some ([27] ++ chars "[32mDone"))) false true) 100 i sample_started) = ServerState.Running
  | None => False
  end.
Proof. by vm_compute. Qed.
