(* ===== verification/Backups.v ===== *)
(** * Backups: making, finding, restoring and browsing backups (application/src/server/backup)

    The manager of backups and the dispatch to the adapters, as programs over
    the calls of the server, the panel, the adapters and the caches; the rest of
    a server is the interface of [Lifecycle], whose programs they run.  The
    cache of the crate [moka] may forget an entry at any time.  Of the adapters,
    the small operations of the one that keeps archives in a directory (wings)
    are written out; what the others do is a call. *)
From S2P Require Import Prelude Effects Text ServerState Schedules Lifecycle.
From S2P Require Import ScheduleManager.
Local Open Scope string_scope.
Local Open Scope list_scope.
Local Open Scope Z_scope.

(** ** Backups and adapters (backup/mod.rs, adapters/mod.rs) *)

Module BackupAdapter.
Inductive BackupAdapter : Type := Wings | S3 | DdupBak | Btrfs | Zfs | Restic | ProxmoxBackupServer | Kopia.
End BackupAdapter.
Abbreviation Adapter := BackupAdapter.BackupAdapter.
#[export] Instance adapter_eq : EqDecision Adapter.
Proof. solve_decision. Defined.

Definition variants : list Adapter :=
  [BackupAdapter.Wings; BackupAdapter.S3; BackupAdapter.DdupBak; BackupAdapter.Btrfs; BackupAdapter.Zfs; BackupAdapter.Restic;
   BackupAdapter.ProxmoxBackupServer; BackupAdapter.Kopia].
Definition to_str (self : Adapter) : string :=
  match self with
  | BackupAdapter.Wings => "wings"
  | BackupAdapter.S3 => "s3"
  | BackupAdapter.DdupBak => "ddup-bak"
  | BackupAdapter.Btrfs => "btrfs"
  | BackupAdapter.Zfs => "zfs"
  | BackupAdapter.Restic => "restic"
  | BackupAdapter.ProxmoxBackupServer => "proxmox-backup-server"
  | BackupAdapter.Kopia => "kopia"
  end.

Module ArchiveFormat.
Inductive ArchiveFormat : Type := Tar | TarGz | TarXz | TarLzip | TarBz2 | TarLz4 | TarZstd | Zip | SevenZip.
End ArchiveFormat.
Abbreviation Format := ArchiveFormat.ArchiveFormat.
Definition format_variants : list Format :=
  [ArchiveFormat.Tar; ArchiveFormat.TarGz; ArchiveFormat.TarXz; ArchiveFormat.TarLzip; ArchiveFormat.TarBz2;
   ArchiveFormat.TarLz4; ArchiveFormat.TarZstd; ArchiveFormat.Zip; ArchiveFormat.SevenZip].
Definition extension (self : Format) : string :=
  match self with
  | ArchiveFormat.Tar => "tar"
  | ArchiveFormat.TarGz => "tar.gz"
  | ArchiveFormat.TarXz => "tar.xz"
  | ArchiveFormat.TarLzip => "tar.lz"
  | ArchiveFormat.TarBz2 => "tar.bz2"
  | ArchiveFormat.TarLz4 => "tar.lz4"
  | ArchiveFormat.TarZstd => "tar.zst"
  | ArchiveFormat.Zip => "zip"
  | ArchiveFormat.SevenZip => "7z"
  end.

(** A backup, by its adapter: uuids are numbers; of the adapters but wings only
    the uuid is kept. *)
Module Backup.
Inductive Backup : Type :=
  | Wings (uuid : Z) (format : Format) (path : string)
  | S3 (uuid : Z)
  | DdupBak (uuid : Z)
  | Btrfs (uuid : Z)
  | Zfs (uuid : Z)
  | Restic (uuid : Z)
  | ProxmoxBackupServer (uuid : Z)
  | Kopia (uuid : Z).
End Backup.
Definition backup_uuid (self : Backup.Backup) : Z :=
  match self with
  | Backup.Wings uuid _ _ | Backup.S3 uuid | Backup.DdupBak uuid | Backup.Btrfs uuid | Backup.Zfs uuid | Backup.Restic uuid
  | Backup.ProxmoxBackupServer uuid | Backup.Kopia uuid => uuid
  end.
Definition backup_adapter (self : Backup.Backup) : Adapter :=
  match self with
  | Backup.Wings _ _ _ => BackupAdapter.Wings
  | Backup.S3 _ => BackupAdapter.S3
  | Backup.DdupBak _ => BackupAdapter.DdupBak
  | Backup.Btrfs _ => BackupAdapter.Btrfs
  | Backup.Zfs _ => BackupAdapter.Zfs
  | Backup.Restic _ => BackupAdapter.Restic
  | Backup.ProxmoxBackupServer _ => BackupAdapter.ProxmoxBackupServer
  | Backup.Kopia _ => BackupAdapter.Kopia
  end.

(** What an adapter tells of a backup it made; checksums and parts are left out. *)
Record RawServerBackup : Type := mk_RawServerBackup {
  rb_size : Z;
  rb_files : Z;
  rb_successful : bool;
  rb_browsable : bool;
  rb_streaming : bool;
}.
Definition RawServerBackup_default : RawServerBackup := mk_RawServerBackup 0 0 false false false.

Inductive BackupMessage : Type :=
  | BackupStarted (uuid : Z)
  | BackupCompleted (uuid : Z) (backup : RawServerBackup)
  | RestoreStarted
  | RestoreCompleted.

(** The calls.  [Broadcast] is whether somebody listens; the caches are those of
    the manager, by uuid; [Server] runs a call of the server's interface. *)
Inductive BackupE : Type → Type :=
  | OnServer {X : Type} (e : ServerE X) : BackupE X
  | ReadPteroignore : BackupE (option text)
  | GetDenylist : BackupE (list text)
  | SpawnProgress : BackupE Z
  | AbortTask (task : Z) : BackupE unit
  | Broadcast (m : BackupMessage) : BackupE bool
  | BackupTrigger (status : ServerBackupStatus.ServerBackupStatus) : BackupE unit
  | SetBackupStatus (uuid : Z) (backup : RawServerBackup) : BackupE (result string unit)
  | SetRestoreStatus (uuid : Z) (successful : bool) : BackupE (result string unit)
  | PushBackup (uuid : Z) : BackupE unit
  | HasBackup (uuid : Z) : BackupE bool
  | TruncateRoot : BackupE (result string unit)
  | ClearHistory : BackupE bool
  | AdapterFind (a : Adapter) (uuid : Z) : BackupE (result string (option Backup.Backup))
  | AdapterCreate (a : Adapter) (uuid : Z) (ignore_raw : text) : BackupE (result string RawServerBackup)
  | AdapterClean (a : Adapter) (uuid : Z) : BackupE (result string unit)
  | AdapterRestore (backup : Backup.Backup) (download_url : option string) : BackupE (result string unit)
  | AdapterDelete (backup : Backup.Backup) : BackupE (result string unit)
  | AdapterBrowse (backup : Backup.Backup) : BackupE (result string Z)
  | GetArchiveFormat : BackupE Format
  | FileLen (path : string) : BackupE (option Z)
  | RemoveFile (path : string) : BackupE (result string unit)
  | CachedBackup (uuid : Z) : BackupE (option Backup.Backup)
  | CacheBackup (uuid : Z) (backup : Backup.Backup) : BackupE unit
  | CachedAdapter (uuid : Z) : BackupE (option Adapter)
  | CacheAdapter (uuid : Z) (a : Adapter) : BackupE unit
  | CachedBrowse (uuid : Z) : BackupE (option Z)
  | CacheBrowse (uuid : Z) (fs : Z) : BackupE unit
  | RemoveBrowse (uuid : Z) : BackupE (option Z)
  | CloseBrowse (fs : Z) : BackupE unit
  | CachedLock (uuid : Z) : BackupE (option Z)
  | NewLock : BackupE Z
  | CacheLock (uuid : Z) (lock : Z) : BackupE unit
  | ForgetLock (uuid : Z) : BackupE unit
  | Acquire (lock : Z) : BackupE unit
  | Release (lock : Z) : BackupE unit.

Abbreviation bprog := (prog BackupE).
Fixpoint on_server {A} (m : sprog A) : bprog A :=
  match m with
  | Effects.Done a => Effects.Done a
  | Vis e k => Vis (OnServer e) (λ x, on_server (k x))
  end.
(** The [?] operator *)
Definition btry {A B} (m : bprog (result string A)) (k : A → bprog (result string B)) : bprog (result string B) :=
  r ← m; match r with Ok a => k a | Err e => mret (Err e) end.
Notation "x ←! m ; k" := (btry m (λ x, k)) (at level 100, m at next level, k at level 200, right associativity) : wings_scope.
Definition broadcast (m : BackupMessage) : bprog (result string unit) :=
  heard ← call (Broadcast m); mret (if (heard : bool) then Ok tt else Err "channel closed").

(** ** The wings adapter (adapters/wings.rs) *)

Section wings.
(** The directory of backups, and how a uuid is printed *)
Context (backup_directory : string) (uuid_string : Z → string).

Definition get_format_file_name (uuid : Z) (format : Format) : string :=
  backup_directory +:+ "/" +:+ uuid_string uuid +:+ "." +:+ extension format.
(** All are looked at, and the first that is there is taken. *)
Fixpoint first_found (uuid : Z) (formats : list Format) (found : list bool) : option (Format * string) :=
  match formats, found with
  | format :: formats, there :: found =>
      if there : bool then Some (format, get_format_file_name uuid format) else first_found uuid formats found
  | _, _ => None
  end.
Fixpoint files_exist (uuid : Z) (formats : list Format) : bprog (list bool) :=
  match formats with
  | [] => mret []
  | format :: formats =>
      len ← call (FileLen (get_format_file_name uuid format));
      found ← files_exist uuid formats;
      mret (bool_decide (is_Some len) :: found)
  end.
Definition get_first_file_name (uuid : Z) : bprog (option (Format * string)) :=
  found ← files_exist uuid format_variants; mret (first_found uuid format_variants found).
Definition wings_exists (uuid : Z) : bprog bool :=
  first ← get_first_file_name uuid; mret (bool_decide (is_Some first)).
Definition wings_find (uuid : Z) : bprog (result string (option Backup.Backup)) :=
  first ← get_first_file_name uuid;
  mret (Ok match first with Some (format, path) => Some (Backup.Wings uuid format path) | None => None end).
Definition wings_clean (uuid : Z) : bprog (result string unit) :=
  format ← call GetArchiveFormat;
  let file_name := get_format_file_name uuid format in
  len ← call (FileLen file_name);
  match len with None => mret (Ok tt) | Some _ => call (RemoveFile file_name) end.
Definition invalidate_cached_browse (uuid : Z) : bprog unit :=
  _ ← call (ForgetLock uuid);
  browse ← call (RemoveBrowse uuid);
  match browse with Some fs => call (CloseBrowse fs) | None => mret tt end.
Definition wings_delete (uuid : Z) (path : string) : bprog (result string unit) :=
  _ ←! call (RemoveFile path);
  _ ← invalidate_cached_browse uuid;
  mret (Ok tt).

(** *** Dispatch (adapters/mod.rs, backup/mod.rs) *)

Definition adapter_find (self : Adapter) (uuid : Z) : bprog (result string (option Backup.Backup)) :=
  match self with
  | BackupAdapter.Wings => wings_find uuid
  | BackupAdapter.S3 => mret (Ok (Some (Backup.S3 uuid)))
  | _ => call (AdapterFind self uuid)
  end.
Fixpoint find_among (adapters : list Adapter) (uuid : Z) : bprog (result string (option (Adapter * Backup.Backup))) :=
  match adapters with
  | [] => mret (Ok None)
  | adapter :: adapters =>
      found ←! match adapter with BackupAdapter.S3 => mret (Ok None) | _ => adapter_find adapter uuid end;
      match found with
      | Some backup => mret (Ok (Some (adapter, backup)))
      | None => find_among adapters uuid
      end
  end.
Definition find_all (uuid : Z) : bprog (result string (option (Adapter * Backup.Backup))) := find_among variants uuid.
Definition adapter_clean (self : Adapter) (uuid : Z) : bprog (result string unit) :=
  match self with BackupAdapter.Wings => wings_clean uuid | _ => call (AdapterClean self uuid) end.
Definition backup_delete (self : Backup.Backup) : bprog (result string unit) :=
  match self with Backup.Wings uuid _ path => wings_delete uuid path | _ => call (AdapterDelete self) end.

(** ** The manager (backup/manager.rs) *)

Section manager.
(** [GitignoreBuilder]: whether a line is one, and whether the lines that were
    added make a list *)
Context (add_line : text → bool) (build : list text → bool).

Definition fast_contains (uuid : Z) : bprog bool :=
  cached ← call (CachedBackup uuid);
  match cached with Some _ => mret true | None => call (HasBackup uuid) end.

(** The lines that count, of the request, of the server and of its egg *)
Definition ignore_lines (ignore : text) (pteroignore : option text) (denylist : list text) : list text :=
  filter (λ line, add_line line = true)
    (lines ignore ++ match pteroignore with Some s => lines s | None => [] end ++ denylist).
Definition ignore_raw (added : list text) : text := mjoin (map (λ line, line ++ [NEWLINE]) added).

Definition create (adapter : Adapter) (uuid : Z) (ignore : text) : bprog (result string RawServerBackup) :=
  pteroignore ← call ReadPteroignore;
  denylist ← call GetDenylist;
  let added := ignore_lines ignore pteroignore denylist in
  progress_task ← call SpawnProgress;
  _ ←! broadcast (BackupStarted uuid);
  _ ← call (BackupTrigger ServerBackupStatus.Starting);
  if negb (build added) then mret (Err "invalid ignore list") else
  created ← call (AdapterCreate adapter uuid (ignore_raw added));
  _ ← call (AbortTask progress_task);
  match created with
  | Ok backup =>
      _ ← call (BackupTrigger ServerBackupStatus.Finished);
      _ ←! call (SetBackupStatus uuid backup);
      _ ←! broadcast (BackupCompleted uuid backup);
      _ ← call (PushBackup uuid);
      _ ← call (CacheAdapter uuid adapter);
      mret (Ok backup)
  | Err err =>
      _ ← adapter_clean adapter uuid;
      _ ← call (BackupTrigger ServerBackupStatus.Failed);
      _ ←! call (SetBackupStatus uuid RawServerBackup_default);
      _ ←! broadcast (BackupCompleted uuid RawServerBackup_default);
      _ ← call (CacheAdapter uuid adapter);
      mret (Err err)
  end.

Definition set_restoring (b : bool) : bprog unit := call (OnServer (SetFlag Restoring b)).
(** The end of a restore that failed *)
Definition restore_failed (backup : Backup.Backup) (err : string) : bprog (result string unit) :=
  _ ← set_restoring false;
  _ ←! call (SetRestoreStatus (backup_uuid backup) false);
  mret (Err err).
Definition restore (backup : Backup.Backup) (truncate_directory : bool) (download_url : option string) : bprog (result string unit) :=
  locked ← on_server locked_state;
  match locked with
  | Some state => mret (Err ("server is in a locked state (" +:+ state +:+ "), cannot restore backup"))
  | None =>
      _ ← set_restoring true;
      stopped ← on_server (stop_with_kill_timeout false);
      match stopped with
      | Err err => restore_failed backup err
      | Ok _ =>
          truncated ← (if truncate_directory then call TruncateRoot else mret (Ok tt));
          match truncated with
          | Err err => restore_failed backup err
          | Ok _ =>
              progress_task ← call SpawnProgress;
              _ ←! broadcast RestoreStarted;
              restored ← call (AdapterRestore backup download_url);
              _ ← call (AbortTask progress_task);
              _ ← set_restoring false;
              match restored with
              | Ok _ =>
                  _ ← call (OnServer (Say ("Completed server restoration from " +:+ to_str (backup_adapter backup) +:+ " backup.")));
                  _ ← call ClearHistory;
                  _ ←! call (SetRestoreStatus (backup_uuid backup) true);
                  _ ←! broadcast RestoreCompleted;
                  mret (Ok tt)
              | Err err =>
                  _ ←! call (SetRestoreStatus (backup_uuid backup) false);
                  _ ←! broadcast RestoreCompleted;
                  mret (Err err)
              end
          end
      end
  end.

Definition find (uuid : Z) : bprog (result string (option Backup.Backup)) :=
  cached ← call (CachedBackup uuid);
  match cached with
  | Some backup => mret (Ok (Some backup))
  | None =>
      adapter ← call (CachedAdapter uuid);
      known ←! match adapter with Some adapter => adapter_find adapter uuid | None => mret (Ok None) end;
      match known with
      | Some backup => _ ← call (CacheBackup uuid backup); mret (Ok (Some backup))
      | None =>
          found ←! find_all uuid;
          match found with
          | Some (adapter, backup) =>
              _ ← call (CacheBackup uuid backup); _ ← call (CacheAdapter uuid adapter); mret (Ok (Some backup))
          | None => mret (Ok None)
          end
      end
  end.
Definition find_adapter (adapter : Adapter) (uuid : Z) : bprog (result string (option Backup.Backup)) :=
  cached ← call (CachedBackup uuid);
  match cached with
  | Some backup => mret (Ok (Some backup))
  | None =>
      found ←! adapter_find adapter uuid;
      match found with
      | Some backup => _ ← call (CacheBackup uuid backup); mret (Ok (Some backup))
      | None => mret (Ok None)
      end
  end.

(** The task [browse] starts: the archive is opened under a lock, once. *)
Definition browse_locked (backup : Backup.Backup) (uuid : Z) : bprog (result string (option Z)) :=
  cached ← call (CachedLock uuid);
  lock ← match cached with
         | Some lock => mret lock
         | None => lock ← call NewLock; _ ← call (CacheLock uuid lock); mret lock
         end;
  _ ← call (Acquire lock);
  browse_backup ← call (CachedBrowse uuid);
  match browse_backup with
  | Some browse_backup => _ ← call (Release lock); mret (Ok (Some browse_backup))
  | None =>
      opened ← call (AdapterBrowse backup);
      match opened with
      | Ok browse_backup =>
          _ ← call (CacheBrowse uuid browse_backup); _ ← call (Release lock); mret (Ok (Some browse_backup))
      | Err err => _ ← call (Release lock); mret (Err err)
      end
  end.
Definition browse (uuid : Z) : bprog (result string (option Z)) :=
  cached ← call (CachedBrowse uuid);
  match cached with
  | Some browse_backup => mret (Ok (Some browse_backup))
  | None =>
      found ←! find uuid;
      match found with Some backup => browse_locked backup uuid | None => mret (Ok None) end
  end.

(** ** The routes (routes/api/servers/_server_/backup)

    The answer, and the task a route leaves behind. *)
Inductive Answer : Type := Accepted | BadRequest | NotFound | Conflict.

Definition create_route (adapter : Adapter) (uuid : Z) (ignore : text) : bprog (Answer * option (bprog (result string RawServerBackup))) :=
  contained ← fast_contains uuid;
  mret (if (contained : bool) then (Conflict, None) else (Accepted, Some (create adapter uuid ignore))).
Definition restore_route (adapter : Adapter) (uuid : Z) (truncate_directory : bool) (download_url : option string) :
    bprog (result string (Answer * option (bprog (result string unit)))) :=
  if bool_decide (adapter = BackupAdapter.S3) && bool_decide (download_url = None) then mret (Ok (BadRequest, None)) else
  found ←! find_adapter adapter uuid;
  mret (Ok match found with
           | Some backup => (Accepted, Some (restore backup truncate_directory download_url))
           | None => (NotFound, None)
           end).
Definition delete_route (uuid : Z) : bprog (result string (Answer * option (bprog (result string unit)))) :=
  found ←! find uuid;
  mret (Ok match found with Some backup => (Accepted, Some (backup_delete backup)) | None => (NotFound, None) end).
End manager.
End wings.

(** ** Calls of a server *)

(** The flags that lock a server *)
Definition locks (f : Flag) : bool := match f with Suspended | Installing | Restoring | Transferring => true | _ => false end.
(** The calls that do not say whether a restore goes on, and do not ask for the
    flags that lock the server *)
Definition not_restoring (X : Type) (e : ServerE X) : Prop :=
  match e with SetFlag Restoring _ => False | GetFlag f => locks f = false | _ => True end.

Lemma stop_calls skip : @all_calls ServerE _ not_restoring (stop_with_kill_timeout skip).
Proof. unfold stop_with_kill_timeout, stop, kill, execute_action, stop_action, set_state. server_calls. Qed.

(** ** Restoring *)

(** What is kept of a restore: the flag, the progress tasks that run, what
    the panel was told, what the adapter answered, and whether a flag that locks
    the server was found *)
Record RestoreTrack : Type := mk_RestoreTrack {
  rt_restoring : bool;
  rt_tasks : list Z;
  rt_told : list (Z * bool);
  rt_outcome : option bool;
  rt_locked : bool;
}.
(** Files are touched only while the flag says so. *)
Definition restore_may (X : Type) (e : BackupE X) (s : RestoreTrack) : Prop :=
  match e with TruncateRoot => rt_restoring s = true | AdapterRestore _ _ => rt_restoring s = true | _ => True end.
(** The server keeps a receiver of its own; the flag is what was last stored,
    that is, no other restore is accepted in the same moment. *)
Definition restore_ok (X : Type) (e : BackupE X) : X → RestoreTrack → Prop :=
  match e in BackupE X return X → RestoreTrack → Prop with
  | OnServer e =>
      match e in ServerE X return X → RestoreTrack → Prop with
      | GetFlag Restoring => λ b s, b = rt_restoring s
      | _ => λ _ _, True
      end
  | Broadcast _ => λ heard _, heard = true
  | _ => λ _ _, True
  end.
Definition restore_upd (X : Type) (e : BackupE X) : X → RestoreTrack → RestoreTrack :=
  match e in BackupE X return X → RestoreTrack → RestoreTrack with
  | OnServer e =>
      match e in ServerE X return X → RestoreTrack → RestoreTrack with
      | SetFlag Restoring b => λ _ s, mk_RestoreTrack b (rt_tasks s) (rt_told s) (rt_outcome s) (rt_locked s)
      | GetFlag f => λ b s, mk_RestoreTrack (rt_restoring s) (rt_tasks s) (rt_told s) (rt_outcome s) (rt_locked s || locks f && b)
      | _ => λ _ s, s
      end
  | SpawnProgress => λ task s, mk_RestoreTrack (rt_restoring s) (task :: rt_tasks s) (rt_told s) (rt_outcome s) (rt_locked s)
  | AbortTask task => λ _ s,
      mk_RestoreTrack (rt_restoring s) (filter (λ t, t ≠ task) (rt_tasks s)) (rt_told s) (rt_outcome s) (rt_locked s)
  | SetRestoreStatus uuid successful => λ _ s,
      mk_RestoreTrack (rt_restoring s) (rt_tasks s) (rt_told s ++ [(uuid, successful)]) (rt_outcome s) (rt_locked s)
  | AdapterRestore _ _ => λ r s, mk_RestoreTrack (rt_restoring s) (rt_tasks s) (rt_told s) (Some (is_ok r)) (rt_locked s)
  | _ => λ _ s, s
  end.
Notation "'rwp'" := (wp restore_may restore_ok restore_upd).

Lemma restore_server_wp {A} (m : sprog A) s (Φ : A → RestoreTrack → Prop) :
  @all_calls ServerE _ not_restoring m → (∀ a, Φ a s) → rwp (on_server m) s Φ.
Proof.
  intros Hm HΦ. induction m as [a | X e k IH]; cbn in *; [apply HΦ |]. destruct Hm as [He Hk]. split; [done |]. intros x _.
  match goal with |- wp _ _ _ _ ?s' _ => replace s' with s; [by apply IH |] end.
  destruct e; try done; destruct f; try done; cbn; rewrite orb_false_r; by destruct s.
Qed.

(** A server that is locked was found to be, and one that is being restored is. *)
Lemma restore_locked_wp marked (Φ : option string → RestoreTrack → Prop) :
  (∀ state, Φ (Some state) (mk_RestoreTrack marked [] [] None true)) →
  (marked = false → Φ None (mk_RestoreTrack marked [] [] None false)) →
  rwp (on_server locked_state) (mk_RestoreTrack marked [] [] None false) Φ.
Proof.
  intros Hsome Hnone. unfold locked_state. cbn.
  split; [done |]. intros [] _; cbn; [apply Hsome |]. split; [done |]. intros [] _; cbn; [apply Hsome |].
  split; [done |]. intros ? ->. destruct marked; cbn; [apply Hsome |].
  split; [done |]. intros [] _; cbn; [apply Hsome | by apply Hnone].
Qed.

Lemma restore_failed_wp backup err b tasks outcome locked :
  rwp (restore_failed backup err) (mk_RestoreTrack b tasks [] outcome locked) (λ r s,
    r ≠ Ok tt ∧ s = mk_RestoreTrack false tasks [(backup_uuid backup, false)] outcome locked).
Proof. split; [done |]. intros [] _. split; [done |]. by intros [[] | e] _. Qed.

(** ** Making *)

Record CreateTrack : Type := mk_CreateTrack {
  ct_tasks : list Z;
  ct_triggers : list ServerBackupStatus.ServerBackupStatus;
  ct_told : list (Z * RawServerBackup);
  ct_sent : list BackupMessage;
  ct_backups : list Z;
  ct_created : option (result string RawServerBackup);
}.
(** What was made is removed only when making it failed. *)
Definition create_may (adapter : Adapter) (X : Type) (e : BackupE X) (s : CreateTrack) : Prop :=
  match e with
  | AdapterClean a _ => a = adapter ∧ ∃ err, ct_created s = Some (Err err)
  | RemoveFile _ => ∃ err, ct_created s = Some (Err err)
  | AdapterCreate a _ _ => a = adapter ∧ ct_created s = None
  | AdapterRestore _ _ | AdapterDelete _ | TruncateRoot | OnServer _ => False
  | _ => True
  end.
Definition create_ok (X : Type) (e : BackupE X) : X → CreateTrack → Prop :=
  match e in BackupE X return X → CreateTrack → Prop with
  | Broadcast _ => λ heard _, heard = true
  | _ => λ _ _, True
  end.
Definition create_upd (X : Type) (e : BackupE X) : X → CreateTrack → CreateTrack :=
  match e in BackupE X return X → CreateTrack → CreateTrack with
  | SpawnProgress => λ t s, mk_CreateTrack (t :: ct_tasks s) (ct_triggers s) (ct_told s) (ct_sent s) (ct_backups s) (ct_created s)
  | AbortTask t => λ _ s,
      mk_CreateTrack (filter (λ t', t' ≠ t) (ct_tasks s)) (ct_triggers s) (ct_told s) (ct_sent s) (ct_backups s) (ct_created s)
  | BackupTrigger st => λ _ s,
      mk_CreateTrack (ct_tasks s) (ct_triggers s ++ [st]) (ct_told s) (ct_sent s) (ct_backups s) (ct_created s)
  | SetBackupStatus uuid b => λ _ s,
      mk_CreateTrack (ct_tasks s) (ct_triggers s) (ct_told s ++ [(uuid, b)]) (ct_sent s) (ct_backups s) (ct_created s)
  | Broadcast m => λ _ s,
      mk_CreateTrack (ct_tasks s) (ct_triggers s) (ct_told s) (ct_sent s ++ [m]) (ct_backups s) (ct_created s)
  | PushBackup uuid => λ _ s,
      mk_CreateTrack (ct_tasks s) (ct_triggers s) (ct_told s) (ct_sent s) (ct_backups s ++ [uuid]) (ct_created s)
  | AdapterCreate _ _ _ => λ r s,
      mk_CreateTrack (ct_tasks s) (ct_triggers s) (ct_told s) (ct_sent s) (ct_backups s) (Some r)
  | _ => λ _ s, s
  end.
Notation "'bwp' adapter" := (wp (create_may adapter) create_ok create_upd) (at level 10, adapter at level 9).


(** ** Finding *)

(** What the caches of the manager were last given, by uuid *)
Record FindTrack : Type := mk_FindTrack { ft_backups : gmap Z Backup.Backup; ft_adapters : gmap Z Adapter }.
(** A cache answers what it was given, or nothing; an adapter answers with a
    backup of its own that has the uuid it was asked for. *)
Definition find_ok (X : Type) (e : BackupE X) : X → FindTrack → Prop :=
  match e in BackupE X return X → FindTrack → Prop with
  | CachedBackup uuid => λ x s, match x with Some b => ft_backups s !! uuid = Some b | None => True end
  | CachedAdapter uuid => λ x s, match x with Some a => ft_adapters s !! uuid = Some a | None => True end
  | AdapterFind a uuid => λ x _, match x with Ok (Some b) => backup_uuid b = uuid ∧ backup_adapter b = a | _ => True end
  | _ => λ _ _, True
  end.
Definition find_upd (X : Type) (e : BackupE X) : X → FindTrack → FindTrack :=
  match e in BackupE X return X → FindTrack → FindTrack with
  | CacheBackup uuid b => λ _ s, mk_FindTrack (<[uuid := b]> (ft_backups s)) (ft_adapters s)
  | CacheAdapter uuid a => λ _ s, mk_FindTrack (ft_backups s) (<[uuid := a]> (ft_adapters s))
  | _ => λ _ s, s
  end.
(** Looking for a backup changes none. *)
Definition find_may (X : Type) (e : BackupE X) (s : FindTrack) : Prop :=
  match e with
  | AdapterCreate _ _ _ | AdapterClean _ _ | AdapterRestore _ _ | AdapterDelete _ | RemoveFile _ | TruncateRoot | OnServer _ => False
  | _ => True
  end.
Notation "'fwp'" := (wp find_may find_ok find_upd).

Definition caches_ok (s : FindTrack) : Prop :=
  (∀ uuid b, ft_backups s !! uuid = Some b → backup_uuid b = uuid).

Section find.
Context (backup_directory : string) (uuid_string : Z → string).

Lemma files_exist_wp uuid formats s (Φ : list bool → FindTrack → Prop) :
  (∀ found, Φ found s) → fwp (files_exist backup_directory uuid_string uuid formats) s Φ.
Proof.
  revert Φ. induction formats as [| format formats IH]; intros Φ H; cbn [files_exist]; [apply H |].
  split; [done |]. intros len _. cbn. apply wp_bind, IH. intros found. apply H.
Qed.

Lemma adapter_find_wp a uuid s (Φ : result string (option Backup.Backup) → FindTrack → Prop) :
  (∀ r, match r with Ok (Some b) => backup_uuid b = uuid ∧ backup_adapter b = a | _ => True end → Φ r s) →
  fwp (adapter_find backup_directory uuid_string a uuid) s Φ.
Proof.
  intros H. destruct a; cbn [adapter_find]; try (split; [done |]; intros r Hr; by apply H).
  - apply wp_bind, wp_bind, files_exist_wp. intros found. refine (H (Ok _) _).
    by destruct (first_found backup_directory uuid_string uuid format_variants found) as [[format path] |].
  - by apply H.
Qed.

Lemma find_among_wp adapters uuid s (Φ : result string (option (Adapter * Backup.Backup)) → FindTrack → Prop) :
  (∀ r, match r with
        | Ok (Some (a, b)) => backup_uuid b = uuid ∧ backup_adapter b = a ∧ a ∈ adapters ∧ a ≠ BackupAdapter.S3
        | _ => True end → Φ r s) →
  fwp (find_among backup_directory uuid_string adapters uuid) s Φ.
Proof.
  revert Φ. induction adapters as [| a adapters IH]; intros Φ H; cbn [find_among]; [by apply H |]. apply wp_bind.
  assert (∀ r, match r with Ok (Some b) => backup_uuid b = uuid ∧ backup_adapter b = a ∧ a ≠ BackupAdapter.S3 | _ => True end →
    fwp match r with Ok found => match found with
      | Some backup => mret (Ok (Some (a, backup)))
      | None => find_among backup_directory uuid_string adapters uuid
      end | Err e => mret (Err e) end s Φ) as Hrest.
  { intros [[b |] | err] Hr; cbn.
    - apply H. destruct Hr as (? & ? & ?). repeat split; [done.. | by left | done].
    - apply IH. intros [[[a' b] |] | e] Hr'; apply H; try done. destruct Hr' as (? & ? & ? & ?). repeat split; [done.. | by right | done].
    - by apply H. }
  destruct (decide (a = BackupAdapter.S3)) as [-> | Ha]; [by apply (Hrest (Ok None)) |].
  destruct a; try done; apply adapter_find_wp; intros r Hr; apply Hrest; destruct r as [[b |] |]; try done; naive_solver.
Qed.
End find.

(** ** A small daemon *)

(** A daemon with one server, which is offline, and backups of one uuid *)
Record SmallWorld : Type := mk_SmallWorld {
  sw_restoring : bool;
  sw_progress : list Z;
  sw_backup : option Backup.Backup;
  sw_cached : option Backup.Backup;
  sw_adapter : option Adapter;
  sw_browse : option Z;
  sw_lock : option Z;
  sw_locks : Z;
  sw_opened : Z;
}.
Definition small_server (X : Type) (e : ServerE X) (w : SmallWorld) : X * SmallWorld :=
  match e in ServerE X return X * SmallWorld with
  | GetState => (ServerState.Offline, w)
  | GetFlag Restoring => (sw_restoring w, w)
  | GetFlag _ => (false, w)
  | SetFlag Restoring b =>
      (tt, mk_SmallWorld b (sw_progress w) (sw_backup w) (sw_cached w) (sw_adapter w) (sw_browse w) (sw_lock w) (sw_locks w) (sw_opened w))
  | SetFlag _ _ => (tt, w)
  | GetHandle => (None, w)
  | SetupProcess | AttachProcess => (None, w)
  | GetStartup => (mk_Startup None false, w)
  | FetchConfiguration => (None, w)
  | ReplaceConfiguration c => (c, w)
  | RecvStatus _ => (None, w)
  | RecvLine _ => (None, w)
  | GetDiskSpace => (0, w)
  | SetStateBegin _ | GetPending | Lock _ | WaitUntil _ | LastCrash | SubscribeStdout _ | StartProcess _ | StopProcess _
  | KillProcess _ | SyncProcess _ | LimiterStartup | IsFull | DiskCheckStale | Chown | CleanupProcess => (false, w)
  | SetStateEnd _ | SetPending | Unlock | SetHandle _ | WatchStatus _ | UnwatchStatus | WatchStartup _ _ | UnwatchStartup
  | Spawn _ | PowerTrigger _ | CrashTrigger | Say _ | ReplaceStartup _ | UpdateIgnored | UpdateSchedules
  | UpdateDiskLimit _ | SetupFilesystem | LimiterShutdown | RerunDiskChecker | AwaitDiskCheck | UpdateFiles | Dispose | Sleep _ => (tt, w)
  end.
Definition small (X : Type) (e : BackupE X) (w : SmallWorld) : X * SmallWorld :=
  let set progress backup cached adapter browse lock locks opened :=
    mk_SmallWorld (sw_restoring w) progress backup cached adapter browse lock locks opened in
  match e in BackupE X return X * SmallWorld with
  | OnServer e => small_server _ e w
  | SpawnProgress =>
      (1, set (1 :: sw_progress w) (sw_backup w) (sw_cached w) (sw_adapter w) (sw_browse w) (sw_lock w) (sw_locks w) (sw_opened w))
  | AbortTask t =>
      (tt, set (filter (λ t', t' ≠ t) (sw_progress w)) (sw_backup w) (sw_cached w) (sw_adapter w) (sw_browse w) (sw_lock w) (sw_locks w) (sw_opened w))
  | AdapterFind a _ => (Ok (b ← sw_backup w; if decide (backup_adapter b = a) then Some b else None), w)
  | AdapterDelete _ =>
      (Ok tt, set (sw_progress w) None (sw_cached w) (sw_adapter w) (sw_browse w) (sw_lock w) (sw_locks w) (sw_opened w))
  | AdapterBrowse _ =>
      (Ok (sw_opened w), set (sw_progress w) (sw_backup w) (sw_cached w) (sw_adapter w) (sw_browse w) (sw_lock w) (sw_locks w) (sw_opened w + 1))
  | CachedBackup _ => (sw_cached w, w)
  | CacheBackup _ b =>
      (tt, set (sw_progress w) (sw_backup w) (Some b) (sw_adapter w) (sw_browse w) (sw_lock w) (sw_locks w) (sw_opened w))
  | CachedAdapter _ => (sw_adapter w, w)
  | CacheAdapter _ a =>
      (tt, set (sw_progress w) (sw_backup w) (sw_cached w) (Some a) (sw_browse w) (sw_lock w) (sw_locks w) (sw_opened w))
  | CachedBrowse _ => (sw_browse w, w)
  | CacheBrowse _ fs =>
      (tt, set (sw_progress w) (sw_backup w) (sw_cached w) (sw_adapter w) (Some fs) (sw_lock w) (sw_locks w) (sw_opened w))
  | CachedLock _ => (sw_lock w, w)
  | NewLock =>
      (sw_locks w, set (sw_progress w) (sw_backup w) (sw_cached w) (sw_adapter w) (sw_browse w) (sw_lock w) (sw_locks w + 1) (sw_opened w))
  | CacheLock _ l =>
      (tt, set (sw_progress w) (sw_backup w) (sw_cached w) (sw_adapter w) (sw_browse w) (Some l) (sw_locks w) (sw_opened w))
  | RemoveBrowse _ => (None, w)
  | ReadPteroignore => (None, w)
  | GetDenylist => ([], w)
  | Broadcast _ | ClearHistory => (true, w)
  | HasBackup _ => (false, w)
  | FileLen _ => (None, w)
  | GetArchiveFormat => (ArchiveFormat.TarGz, w)
  | AdapterCreate _ _ _ => (Ok RawServerBackup_default, w)
  | SetBackupStatus _ _ | SetRestoreStatus _ _ | TruncateRoot | AdapterClean _ _ | AdapterRestore _ _ | RemoveFile _ => (Ok tt, w)
  | BackupTrigger _ | PushBackup _ | CloseBrowse _ | ForgetLock _ | Acquire _ | Release _ => (tt, w)
  end.
Definition small_world (backup : option Backup.Backup) : SmallWorld := mk_SmallWorld false [] backup None None None None 0 0.

(** ** Departures *)

Definition sample_path : string := "/var/backups".
Definition no_uuid (uuid : Z) : string := "u".
Definition a_backup : Backup.Backup := Backup.Btrfs 7.

(** Whether the server is locked is looked at before it is locked: of two restores
    that are asked for at the same time both go on, and the first to end says
    that none is going on while the other is about to write the files. *)
Theorem restores_overlap :
  let '(first, second, w) := interleave small (replicate 4 true ++ replicate 8 false ++ replicate 20 true)
    (restore a_backup false None) (restore a_backup false None) (small_world None) in
  first = Effects.Done (Ok tt) ∧ sw_restoring w = false ∧
  match second with Vis (AdapterRestore b _) _ => b = a_backup | _ => False end.
Proof. vm_compute. by repeat split. Qed.

(** Two clients that look into a backup at the same time may each make the lock
    the other should wait for, and open the backup twice. *)
Theorem browse_opens_twice :
  let '(first, second, w) := interleave small ([true; false] ++ replicate 4 true ++ replicate 4 false ++ replicate 20 true ++ replicate 20 false)
    (browse_locked a_backup 7) (browse_locked a_backup 7) (small_world (Some a_backup)) in
  first = Effects.Done (Ok (Some 0)) ∧ second = Effects.Done (Ok (Some 1)) ∧ sw_opened w = 2.
Proof. vm_compute. by repeat split. Qed.

(** A list of ignored files that the builder does not accept ends the task that
    makes a backup, but not the task that reports its progress; the panel is not
    told. *)
Theorem progress_is_reported_forever :
  run small (create sample_path no_uuid (λ _, true) (λ _, false) BackupAdapter.Btrfs 7 []) (small_world None) =
    (Err "invalid ignore list", mk_SmallWorld false [1] None None None None None 0 0).
Proof. vm_compute. reflexivity. Qed.

(** A backup that was found once is found again after it was deleted, as long as
    the cache has it. *)
Theorem deleted_backup_is_found :
  run small (found ← find sample_path no_uuid 7;
             _ ← backup_delete a_backup;
             again ← find sample_path no_uuid 7;
             fresh ← find_all sample_path no_uuid 7;
             mret (found, again, fresh)) (small_world (Some a_backup)) =
    (Ok (Some a_backup), Ok (Some a_backup), Ok None, snd (run small (found ← find sample_path no_uuid 7;
             _ ← backup_delete a_backup;
             again ← find sample_path no_uuid 7;
             fresh ← find_all sample_path no_uuid 7;
             mret tt) (small_world (Some a_backup)))).
Proof. vm_compute. reflexivity. Qed.

(** A restore names its adapter, but a backup of another that is in the cache is
    taken for it: that of S3 without the address it needs, too. *)
Theorem cached_backup_of_another_adapter (b : Backup.Backup) (truncate_directory : bool) (w : SmallWorld) (Hb : sw_cached w = Some b) :
  fst (run small (restore_route sample_path no_uuid BackupAdapter.Wings (backup_uuid b) truncate_directory None) w) =
    Ok (Accepted, Some (restore b truncate_directory None)).
Proof. destruct w as [r p bk c a br l ls o]. cbn in Hb. subst c. reflexivity. Qed.

(** An adapter that fails hides the backups of those after it. *)
Theorem failing_adapter_hides_others (err : string) (h : ∀ X, BackupE X → unit → X * unit)
    (Hfiles : ∀ path, h _ (FileLen path) tt = (None, tt))
    (Hddup : h _ (AdapterFind BackupAdapter.DdupBak 7) tt = (Err err, tt)) :
  fst (run h (find_all sample_path no_uuid 7) tt) = Err err.
Proof.
  unfold find_all. cbn. rewrite !Hfiles. cbn. repeat (rewrite Hfiles; cbn). by rewrite Hddup.
Qed.

(** The end of a restore, of a server that was [marked] before or not *)
Definition restore_settled (backup : Backup.Backup) (marked : bool) (r : result string unit) (s : RestoreTrack) : Prop :=
  rt_tasks s = [] ∧
  (rt_locked s = true ∧ rt_told s = [] ∧ rt_restoring s = marked ∧ rt_outcome s = None ∧ r ≠ Ok tt ∨
   rt_locked s = false ∧ marked = false ∧ rt_restoring s = false ∧
   ∃ ok, rt_told s = [(backup_uuid backup, ok)] ∧ (ok = true ↔ rt_outcome s = Some true) ∧ (r = Ok tt → ok = true)).

(** Told how it went, it has settled. *)
Lemma told_settled backup r ok outcome : (ok = true ↔ outcome = Some true) → (r = Ok tt → ok = true) →
  restore_settled backup false r (mk_RestoreTrack false [] [(backup_uuid backup, ok)] outcome false).
Proof. intros Hok Hr. split; [done |]. right. split; [done |]. split; [done |]. split; [done |]. by exists ok. Qed.

Lemma failed_settled backup err b outcome : outcome ≠ Some true →
  rwp (restore_failed backup err) (mk_RestoreTrack b [] [] outcome false) (restore_settled backup false).
Proof.
  intros Ho. eapply wp_mono; [apply restore_failed_wp |]. intros r s [Hr ->]. by apply told_settled.
Qed.

(** ** Properties *)

(** C12. A restore settles.  However the panel, the adapter, the stopping of the
    server and everything else answers, as long as no other restore is accepted
    between the moment this one looks at the flags of the server and the moment
    it sets its own (then two may overlap, see [restores_overlap]): it is
    refused exactly if a flag that locks the server was found set, be it the one
    of another restore, and then it leaves that flag as it was and tells the
    panel nothing.  Otherwise the files of the server are touched only between
    the store that sets the flag [restoring] and the one that clears it; in the
    end no progress task is left, the flag is cleared, and the panel was told
    exactly once how it went, successful exactly if the adapter said so; a
    caller that gets no error can rely on that. *)
Theorem restore_settles (backup : Backup.Backup) (truncate_directory : bool) (download_url : option string) (marked : bool) :
  rwp (restore backup truncate_directory download_url) (mk_RestoreTrack marked [] [] None false) (restore_settled backup marked).
Proof.
  unfold restore. apply wp_bind, restore_locked_wp.
  { intros state. cbn. split; [done | by left]. }
  intros ->. apply wp_bind. split; [done |]. intros [] _. cbn [wp]. apply wp_bind, restore_server_wp; [apply stop_calls |].
  intros [[] | err]; [| by apply failed_settled]. apply wp_bind.
  match goal with |- wp _ _ _ _ _ ?Ψ => assert (∀ r, Ψ r (mk_RestoreTrack true [] [] None false)) as Hrest end.
  { intros [[] | err]; [| by apply failed_settled]. split; [done |]. intros task _. split; [done |]. intros heard ->. cbn.
    split; [done |]. intros restored _. split; [done |]. intros [] _. split; [done |]. intros [] _. cbn.
    rewrite decide_False by auto. destruct restored as [[] | err]; cbn.
    - split; [done |]. intros [] _. split; [done |]. intros cleared _. split; [done |]. intros [[] | e] _; cbn; [| by apply told_settled].
      split; [done |]. intros heard ->. by apply told_settled.
    - split; [done |]. intros [[] | e] _; cbn; [| by apply told_settled].
      split; [done |]. intros heard ->. by apply told_settled. }
  destruct truncate_directory; [split; [done |]; intros r _; apply Hrest | apply Hrest].
Qed.



(** A backup that is found is the one that was asked for.  The caches may
    have forgotten anything; whatever they still have they were given by the
    manager.  Looking for a backup keeps them coherent, changes no file and no
    backup, and answers with a backup of the uuid that was asked for; one that
    was asked of an adapter alone is of that adapter, or was in the cache. *)
Theorem found_backups_match (backup_directory : string) (uuid_string : Z → string) (uuid : Z) (s : FindTrack) (Hs : caches_ok s) :
  fwp (find backup_directory uuid_string uuid) s (λ r s', caches_ok s' ∧
    match r with Ok (Some b) => backup_uuid b = uuid | _ => True end) ∧
  (∀ adapter, fwp (find_adapter backup_directory uuid_string adapter uuid) s (λ r s', caches_ok s' ∧
    match r with
    | Ok (Some b) => backup_uuid b = uuid ∧ (backup_adapter b = adapter ∨ ft_backups s !! uuid = Some b)
    | _ => True
    end)) ∧
  fwp (find_all backup_directory uuid_string uuid) s (λ r s', s' = s ∧
    match r with
    | Ok (Some (a, b)) => backup_uuid b = uuid ∧ backup_adapter b = a ∧ a ≠ BackupAdapter.S3
    | _ => True
    end).
Proof.
  assert (∀ b adapters, backup_uuid b = uuid → caches_ok (mk_FindTrack (<[uuid := b]> (ft_backups s)) adapters)) as Hinsert.
  { intros b adapters Hb u b'. cbn. rewrite lookup_insert_Some. intros [[<- <-] | [_ Hu]]; [done | by apply Hs]. }
  split; [| split].
  - split; [done |]. intros [b |] Hb; cbn in *; [split; [done | by apply Hs] |]. split; [done |]. intros known _. cbn.
    assert (fwp (found ←! find_all backup_directory uuid_string uuid;
      match found with
      | Some (adapter, backup) => _ ← call (CacheBackup uuid backup); _ ← call (CacheAdapter uuid adapter); mret (Ok (Some backup))
      | None => mret (Ok None)
      end) s (λ r s', caches_ok s' ∧ match r with Ok (Some b) => backup_uuid b = uuid | _ => True end)) as Hall.
    { apply wp_bind, find_among_wp. intros [[[a b] |] | e] Hr; cbn; [| done..].
      split; [done |]. intros [] _. split; [done |]. intros [] _. destruct Hr as (Hr & _). split; [by apply Hinsert | done]. }
    apply wp_bind. destruct known as [a |]; [| exact Hall]. apply adapter_find_wp. intros [[b |] | e] Hr; [| exact Hall | done].
    split; [done |]. intros [] _. destruct Hr as [Hu _]. split; [by apply Hinsert | done].
  - intros adapter. split; [done |]. intros [b |] Hb; cbn in *.
    { split; [done |]. split; [by apply Hs | by right]. }
    apply wp_bind, adapter_find_wp. intros [[b |] | e] Hr; cbn; [| done..].
    split; [done |]. intros [] _. cbn. destruct Hr as [Hu Ha]. split; [by apply Hinsert |]. split; [done | by left].
  - apply find_among_wp. intros [[[a b] |] | e] Hr; cbn; [| done..]. split; [done |]. naive_solver.
Qed.

Lemma found_backups_match_witness :
  fwp (find sample_path no_uuid 7) (mk_FindTrack {[ 7 := a_backup ]} ∅) (λ r s', caches_ok s' ∧
    match r with Ok (Some b) => backup_uuid b = 7 | _ => True end).
Proof.
  apply (found_backups_match sample_path no_uuid 7). intros uuid b Hb. cbn in Hb. apply lookup_singleton_Some in Hb as [<- <-]. reflexivity.
Defined.
