(* ===== verification/Sftp.v ===== *)
(** * Sftp: the file access of SFTP clients (application/src/ssh/sftp)

    A session answers the requests of one client: it checks the state of the
    server, the permissions of the user and the files that are hidden from it,
    and then calls the sandbox and the counters of the server.  Files and
    listings stay open under handles, each with a guard of the limiter.  The
    crate [russh_sftp] is the protocol: its parser and printer of extended
    requests are parameters, its flags and attributes are taken at the questions
    the code asks of them. *)
From S2P Require Import Prelude IoModel Paths Utf8 Properties Permissions Activity DiskUsage Effects CapFs CapWalk Quota.
From S2P Require Import ServerFile FsOps Entries VirtualFs.
Local Open Scope list_scope.
Local Open Scope Z_scope.

(** ** The protocol *)

(** The answers other than data; those of the protocol the code gives. *)
Module StatusCode.
Inductive StatusCode : Type := Eof | NoSuchFile | PermissionDenied | Failure | BadMessage | OpUnsupported.
End StatusCode.
Abbreviation Code := StatusCode.StatusCode.
#[export] Instance StatusCode_eq : EqDecision Code.
Proof. solve_decision. Defined.

Record OpenFlags : Type := mk_OpenFlags {
  READ : bool;
  WRITE : bool;
  APPEND : bool;
  CREATE : bool;
  TRUNCATE : bool;
  EXCLUDE : bool;
}.

(** The types [set_regular] and the like put into the attributes, in order. *)
Module FileKind.
Inductive FileKind : Type := Regular | Dir | Symlink | Block | Character | Fifo.
End FileKind.
Record FileAttributes : Type := mk_FileAttributes {
  at_size : option Z;
  at_atime : option Z;
  at_mtime : option Z;
  at_permissions : option Z;
  at_kinds : list FileKind.FileKind;
}.
Definition FileAttributes_default : FileAttributes := mk_FileAttributes None None None None [].

Record File : Type := mk_File { fi_filename : bytes; fi_attrs : FileAttributes }.
Definition File_dummy (filename : bytes) : File := mk_File filename FileAttributes_default.

(** [OpenOptions] as the bits of the options that are set. *)
Definition OPT_READ : Z := 1.
Definition OPT_WRITE : Z := 2.
Definition OPT_APPEND : Z := 4.
Definition OPT_CREATE : Z := 8.
Definition OPT_CREATE_NEW : Z := 16.
Definition OPT_TRUNCATE : Z := 32.
Definition open_options (pflags : OpenFlags) : Z :=
  let o := 0 in
  let o := if READ pflags then Z.lor o OPT_READ else o in
  let o := if WRITE pflags then Z.lor o OPT_WRITE else o in
  let o := if APPEND pflags then Z.lor o OPT_APPEND else o in
  let o := if CREATE pflags then (if EXCLUDE pflags then Z.lor o OPT_CREATE_NEW else Z.lor o OPT_CREATE) else o in
  if TRUNCATE pflags then Z.lor o OPT_TRUNCATE else o.

(** ** Sessions *)

Record FileHandle : Type := mk_FileHandle {
  fh_path : bytes;
  fh_path_components : list bytes;
  fh_file : Z;
  fh_known_size : Z;
  fh_append : bool;
  fh_diff_track : bool;
  fh_diff_before : option bytes;
  fh_diff_dirty : bool;
}.
Record DirHandle : Type := mk_DirHandle { dh_path : bytes; dh_dir : ReadDir.ReadDir; dh_consumed : Z }.
Module ServerHandle.
Inductive ServerHandle : Type := File (handle : FileHandle) | Dir (handle : DirHandle).
End ServerHandle.
Definition handle_path (self : ServerHandle.ServerHandle) : bytes :=
  match self with ServerHandle.File h => fh_path h | ServerHandle.Dir h => dh_path h end.

Record SftpSession : Type := mk_SftpSession {
  handle_id : Z;
  handles : gmap bytes ServerHandle.ServerHandle;
}.
Definition set_handles (h : gmap bytes ServerHandle.ServerHandle) (s : SftpSession) : SftpSession := mk_SftpSession (handle_id s) h.

(** The settings a request reads. *)
Record SftpConfig : Type := mk_SftpConfig {
  cfg_read_only : bool;
  cfg_max_handles_per_channel : Z;
  cfg_directory_entry_limit : Z;
  cfg_directory_entry_send_amount : Z;
  cfg_log_file_reads : bool;
  cfg_history_enabled : bool;
  cfg_file_size_cap : Z;
  cfg_username : bytes;
}.
Record Disk : Type := mk_Disk { dk_mount_point : bytes; dk_total_space : Z; dk_available_space : Z }.

Module Logged.
(** What an activity says of the files. *)
Inductive Logged : Type := Files (path : bytes) | Renamed (from to : bytes).
End Logged.

(** The calls: of the files and counters of the server; on open files; whether
    the server is in a state that locks its files; the permissions and hidden
    files of the user; the settings; the guards of the limiter; the log and the
    history; the limit of the server and the disks of the machine. *)
Inductive SftpE : Type → Type :=
  | OnFiles {X : Type} (e : QuotaE X) : SftpE X
  | ReadAt (file offset n : Z) : SftpE (ior bytes)
  | WriteAllAt (file offset : Z) (data : bytes) : SftpE (ior unit)
  | IsLocked : SftpE bool
  | UserHasPermission (permission : Permission.Permission) : SftpE bool
  | ServerIgnores (path : bytes) (is_dir : bool) : SftpE bool
  | UserIgnores (path : bytes) (is_dir : bool) : SftpE bool
  | LoadConfig : SftpE SftpConfig
  | OpenGuard : SftpE bool
  | DropGuard : SftpE unit
  | LogActivity (event : ActivityEvent.ActivityEvent) (files : Logged.Logged) : SftpE unit
  | RecordEdit (key : bytes) (before : option bytes) (after : bytes) : SftpE (ior unit)
  | ForgetFile (key : bytes) (before : option bytes) : SftpE (ior unit)
  | RenameFile (old_key new_key : bytes) : SftpE (ior (option (option bytes)))
  | DiskLimit : SftpE Z
  | LimiterUsage : SftpE Z
  | Disks : SftpE (list Disk).

(** A handler: a method on [&mut SftpSession]. *)
Definition H (A : Type) : Type := SftpSession → prog SftpE (result Code A * SftpSession).
#[global] Instance H_ret : MRet H := λ A a s, Done (Ok a, s).
#[global] Instance H_bind : MBind H := λ A B f m s,
  prog_bind _ _ (λ r : result Code A * SftpSession, match r with (Ok a, s) => f a s | (Err e, s) => Done (Err e, s) end) (m s).
Definition hthrow {A} (code : Code) : H A := λ s, Done (Err code, s).
Definition hget : H SftpSession := λ s, Done (Ok s, s).
Definition hmodify (f : SftpSession → SftpSession) : H unit := λ s, Done (Ok tt, f s).
Definition hcall {A} (e : SftpE A) : H A := λ s, Vis e (λ x, Done (Ok x, s)).
Definition ensure (b : bool) (code : Code) : H unit := if b then mret tt else hthrow code.
(** [match r { Ok(a) => a, Err(_) => return Err(code) }] *)
Definition or_fail {A} (code : Code) (r : ior A) : H A := match r with Ok a => mret a | Err _ => hthrow code end.

(** A program of the server's files. *)
Fixpoint on_files {A} (m : prog QuotaE A) : prog SftpE A :=
  match m with
  | Done a => Done a
  | Vis e k => Vis (OnFiles e) (λ x, on_files (k x))
  end.
Definition files {A} (m : Q A) : H (ior A) := λ s, prog_bind _ _ (λ r, Done (Ok r, s)) (on_files m).
Definition fsys {A} (m : FS A) : H (ior A) := files (on_fs m).
(** A blocking task; [Err] if it could not run to its end. *)
Definition blocking {A} (task : H A) : H (result io_error A) :=
  failed ← hcall (OnFiles (OnFs SpawnBlocking));
  match failed with Some err => mret (Err err) | None => a ← task; mret (Ok a) end.
Definition h_out_of_fuel {A} (a : A) : H A := _ ← hcall (OnFiles OutOfFuel); mret a.

(** ** Answers about files *)

Definition file_kind (mode : Z) : option FileKind.FileKind :=
  let t := Z.land mode 61440 in
  if t =? 32768 then Some FileKind.Regular else if t =? 16384 then Some FileKind.Dir
  else if t =? 40960 then Some FileKind.Symlink else if t =? 24576 then Some FileKind.Block
  else if t =? 8192 then Some FileKind.Character else if t =? 4096 then Some FileKind.Fifo else None.
(** The same question of the target of a link, which is no link. *)
Definition target_kind (mode : Z) : option FileKind.FileKind :=
  match file_kind mode with Some FileKind.Symlink => None | k => k end.

Definition convert_entry (path : bytes) (metadata : Metadata) (target_metadata : option Metadata) : File :=
  mk_File
    (match path_file_name path with Some name => to_string_lossy name | None => [SLASH] end)
    {| at_size := Some (md_len metadata);
       at_atime := None;
       at_mtime := Some (epoch_secs (md_modified metadata) mod 2 ^ 32);
       at_permissions := Some (portable_mode metadata);
       at_kinds := option_list (file_kind (md_mode metadata)) ++
                   match target_metadata with Some t => option_list (target_kind (md_mode t)) | None => [] end |}.

(** [{id:x}] *)
Definition format_x (n : Z) : bytes := hex (Z.to_nat (Z.log2 n / 4 + 1)) n.
Definition next_handle_id : H bytes := λ s,
  Done (Ok (format_x (handle_id s)), mk_SftpSession (handle_id s +u 1) (handles s)).

Definition has_permission (permission : Permission.Permission) : H bool := hcall (UserHasPermission permission).
Definition is_ignored (path : bytes) (is_dir : bool) : H bool :=
  if same_path path [SLASH] || same_path path [DOT] || same_path path [] then mret false else
  ignored ← hcall (ServerIgnores path is_dir);
  if (ignored : bool) then mret true else hcall (UserIgnores path is_dir).
Definition allow_action : H bool :=
  locked ← hcall IsLocked;
  if (locked : bool) then mret false else hcall (UserHasPermission Permission.FileSftp).

(** The guards requests begin with. *)
Definition allowed : H unit := ok ← allow_action; ensure ok StatusCode.PermissionDenied.
Definition permitted (permission : Permission.Permission) : H unit :=
  ok ← has_permission permission; ensure ok StatusCode.PermissionDenied.
Definition not_read_only : H unit := config ← hcall LoadConfig; ensure (negb (cfg_read_only config)) StatusCode.PermissionDenied.
Definition handle_left : H unit :=
  s ← hget;
  config ← hcall LoadConfig;
  ensure (Z.of_nat (size (handles s)) <? cfg_max_handles_per_channel config) StatusCode.Failure.
Definition not_ignored (path : bytes) (is_dir : bool) (code : Code) : H unit :=
  ignored ← is_ignored path is_dir; ensure (negb ignored) code.

(** A handle for what was opened, if the limiter has one left. *)
Definition insert_handle (h : ServerHandle.ServerHandle) : H bytes :=
  handle ← next_handle_id;
  granted ← hcall OpenGuard;
  _ ← ensure granted StatusCode.Failure;
  _ ← hmodify (λ s, set_handles (<[handle := h]> (handles s)) s);
  mret handle.
Definition get_file (handle : bytes) : H FileHandle :=
  s ← hget;
  match handles s !! handle with Some (ServerHandle.File h) => mret h | _ => hthrow StatusCode.NoSuchFile end.
Definition get_dir (handle : bytes) : H DirHandle :=
  s ← hget;
  match handles s !! handle with Some (ServerHandle.Dir h) => mret h | _ => hthrow StatusCode.NoSuchFile end.

(** [filename.strip_prefix("/")] *)
Definition str_strip_slash (s : bytes) : option bytes := match s with c :: s => if c =? SLASH then Some s else None | [] => None end.
(** [components.get(0..len - 1)] *)
Definition parent_components (l : list bytes) : option (list bytes) :=
  if bool_decide (l = []) then None else Some (take (length l - 1) l).

Section session.
(** The files of the server, and the settings of their owner. *)
Context (fs : CapFilesystem) (user : UserConfig).

(** ** History *)

(** What the file holds now is recorded as an edit, if it is not too large. *)
Definition record_after (path key : bytes) (before : option bytes) : H unit :=
  config ← hcall LoadConfig;
  after ← fsys (async_read_to_vec fs path (saturating_add (cfg_file_size_cap config) 1));
  match after with
  | Ok after => if zlen after <=? cfg_file_size_cap config then _ ← hcall (RecordEdit key before after); mret tt else mret tt
  | Err _ => mret tt
  end.
(** What a file holds before it goes. *)
Definition read_before_removal (path : bytes) (metadata : Metadata) : H (option bytes) :=
  config ← hcall LoadConfig;
  let cap := cfg_file_size_cap config in
  if cfg_history_enabled config && (0 <? md_len metadata) && (md_len metadata <=? cap) then
    content ← fsys (async_read_to_vec fs path (saturating_add cap 1));
    mret (match content with Ok content => if zlen content <=? cap then Some content else None | Err _ => None end)
  else mret None.

(** ** Handles that are closed; names *)

Definition sftp_close (handle : bytes) : H unit :=
  s ← hget;
  _ ← hmodify (λ s, set_handles (delete handle (handles s)) s);
  match handles s !! handle with
  | Some (ServerHandle.File h) =>
      _ ← (if fh_diff_track h && fh_diff_dirty h
           then record_after (fh_path h) (to_string_lossy (fh_path h)) (fh_diff_before h) else mret tt);
      hcall DropGuard
  | Some (ServerHandle.Dir _) => hcall DropGuard
  | None => mret tt
  end.

Definition realpath (path : bytes) : H (list File) :=
  if bool_decide (path = [SLASH; DOT; DOT]) || bool_decide (path = [DOT]) || bool_decide (path = [SLASH])
  then mret [File_dummy [SLASH]] else
  found ← fsys (async_canonicalize fs path);
  mret [File_dummy (SLASH :: to_string_lossy (match found with Ok path => path | Err _ => relative_path fs path end))].

(** ** Listings *)

Definition opendir (path : bytes) : H bytes :=
  _ ← allowed;
  _ ← handle_left;
  _ ← permitted Permission.FileRead;
  found ← fsys (async_canonicalize fs path);
  path ← or_fail StatusCode.NoSuchFile found;
  _ ← not_ignored path true StatusCode.NoSuchFile;
  opened ← blocking (fsys (read_dir fs path));
  match opened with
  | Ok (Ok dir) => insert_handle (ServerHandle.Dir (mk_DirHandle path dir 0))
  | _ => hthrow StatusCode.NoSuchFile
  end.

(** Goes on until enough entries were found, or none is left. *)
Fixpoint readdir_loop (fuel : nat) (path : bytes) (dir : ReadDir.ReadDir) (found : list File) (consumed : Z) :
    H (result Code (list File) * Z) :=
  match fuel with
  | O => h_out_of_fuel (Ok found, consumed)
  | S fuel =>
      next ← fsys (prog_bind _ _ (λ r, Done (Ok r)) (ReadDir_next_entry dir));
      match next with
      | Ok (Some (Ok (_, file)), dir) =>
          let path' := path_join path file in
          metadata_ ← fsys (symlink_metadata fs path');
          match metadata_ with
          | Err _ => readdir_loop fuel path dir found consumed
          | Ok metadata_ =>
              ignored ← is_ignored path' (md_is_dir metadata_);
              if (ignored : bool) then readdir_loop fuel path dir found consumed else
              target_metadata ← (if md_is_symlink metadata_ then r ← fsys (metadata fs path'); mret (result_ok r) else mret None);
              let found := found ++ [convert_entry path' metadata_ target_metadata] in
              let prev_consumed := consumed in
              let consumed := consumed +u 1 in
              config ← hcall LoadConfig;
              if cfg_directory_entry_limit config <=? prev_consumed +u 1 then mret (Ok found, consumed) else
              config ← hcall LoadConfig;
              if cfg_directory_entry_send_amount config <=? zlen found then mret (Ok found, consumed)
              else readdir_loop fuel path dir found consumed
          end
      | _ => mret (if bool_decide (found = []) then Err StatusCode.Eof else Ok found, consumed)
      end
  end.

Definition readdir (fuel : nat) (handle : bytes) : H (list File) :=
  _ ← allowed;
  h ← get_dir handle;
  config ← hcall LoadConfig;
  if cfg_directory_entry_limit config <=? dh_consumed h then hthrow StatusCode.Eof else
  listed ← blocking (readdir_loop fuel (dh_path h) (dh_dir h) [] (dh_consumed h));
  match listed with
  | Err _ => hthrow StatusCode.Failure
  | Ok (answer, consumed) =>
      _ ← hmodify (λ s, set_handles (<[handle := ServerHandle.Dir (mk_DirHandle (dh_path h) (dh_dir h) consumed)]> (handles s)) s);
      match answer with Ok found => mret found | Err code => hthrow code end
  end.

(** ** Removing and making *)

Definition remove (filename : bytes) : H unit :=
  _ ← allowed;
  _ ← not_read_only;
  _ ← permitted Permission.FileDelete;
  found ← fsys (async_canonicalize fs filename);
  let path := match found with Ok path => path | Err _ => filename end in
  metadata ← fsys (async_symlink_metadata fs path);
  match metadata with
  | Err _ => mret tt
  | Ok metadata =>
      _ ← ensure (negb (md_is_dir metadata)) StatusCode.NoSuchFile;
      _ ← not_ignored path (md_is_dir metadata) StatusCode.NoSuchFile;
      before ← read_before_removal path metadata;
      removed ← files (truncate_path fs path);
      _ ← or_fail StatusCode.NoSuchFile removed;
      _ ← hcall (ForgetFile (to_string_lossy path) before);
      hcall (LogActivity ActivityEvent.SftpDelete (Logged.Files (relative_path fs path)))
  end.

Definition rmdir (path : bytes) : H unit :=
  _ ← allowed;
  _ ← not_read_only;
  _ ← permitted Permission.FileDelete;
  found ← fsys (async_canonicalize fs path);
  path ← or_fail StatusCode.NoSuchFile found;
  metadata ← fsys (async_symlink_metadata fs path);
  match metadata with
  | Err _ => mret tt
  | Ok metadata =>
      _ ← ensure (md_is_dir metadata) StatusCode.NoSuchFile;
      _ ← not_ignored path true StatusCode.NoSuchFile;
      _ ← (if negb (same_path path (base_path fs)) then
             removed ← files (truncate_path fs path);
             or_fail StatusCode.NoSuchFile removed
           else mret tt);
      hcall (LogActivity ActivityEvent.SftpDelete (Logged.Files (relative_path fs path)))
  end.

(** [attrs.permissions], where the client gave them. *)
Definition mkdir (path : bytes) (permissions : option Z) : H unit :=
  _ ← allowed;
  _ ← not_read_only;
  _ ← permitted Permission.FileCreate;
  _ ← not_ignored path true StatusCode.NoSuchFile;
  there ← fsys (async_symlink_metadata fs path);
  match there with
  | Ok _ => mret tt
  | Err _ =>
      made ← fsys (async_create_dir fs path);
      _ ← or_fail StatusCode.NoSuchFile made;
      _ ← fsys (async_chown_path user fs path);
      _ ← match permissions with
          | Some permissions =>
              done ← fsys (async_set_permissions fs path (from_mode_dir permissions));
              or_fail StatusCode.Failure done
          | None => mret tt
          end;
      hcall (LogActivity ActivityEvent.SftpCreateDirectory (Logged.Files (relative_path fs path)))
  end.

(** What both kinds of rename do once they may. *)
Definition rename_and_record (old_path new_path : bytes) : H unit :=
  let logged := Logged.Renamed (relative_path fs old_path) (relative_path fs new_path) in
  renamed ← files (rename_path fs old_path new_path);
  _ ← or_fail StatusCode.NoSuchFile renamed;
  let new_path := relative_path fs new_path in
  let new_key := to_string_lossy new_path in
  replaced ← hcall (RenameFile (to_string_lossy old_path) new_key);
  _ ← match replaced with
      | Ok (Some before) => record_after new_path new_key before
      | _ => mret tt
      end;
  hcall (LogActivity ActivityEvent.SftpRename logged).

Definition sftp_rename (old_path new_path : bytes) : H unit :=
  _ ← allowed;
  _ ← not_read_only;
  _ ← permitted Permission.FileUpdate;
  found ← fsys (async_canonicalize fs old_path);
  old_path ← or_fail StatusCode.NoSuchFile found;
  old_metadata ← fsys (async_symlink_metadata fs old_path);
  old_metadata ← or_fail StatusCode.NoSuchFile old_metadata;
  new_metadata ← fsys (async_symlink_metadata fs new_path);
  _ ← ensure (match new_metadata with Ok _ => false | Err _ => true end) StatusCode.Failure;
  _ ← not_ignored old_path (md_is_dir old_metadata) StatusCode.Failure;
  _ ← not_ignored new_path (md_is_dir old_metadata) StatusCode.Failure;
  rename_and_record old_path new_path.

(** ** Attributes and links *)

Definition setstat (path : bytes) (permissions : option Z) : H unit :=
  _ ← allowed;
  _ ← not_read_only;
  _ ← permitted Permission.FileUpdate;
  found ← fsys (async_canonicalize fs path);
  path ← or_fail StatusCode.NoSuchFile found;
  _ ← ensure (negb (is_root path)) StatusCode.NoSuchFile;
  metadata ← fsys (async_symlink_metadata fs path);
  metadata ← or_fail StatusCode.NoSuchFile metadata;
  _ ← not_ignored path (md_is_dir metadata) StatusCode.NoSuchFile;
  match permissions with
  | Some permissions =>
      done ← fsys (async_set_permissions fs path
               (if md_is_dir metadata then from_mode_dir permissions else from_mode_file permissions));
      or_fail StatusCode.Failure done
  | None => mret tt
  end.
Definition fsetstat (handle : bytes) (permissions : option Z) : H unit :=
  _ ← allowed;
  h ← get_file handle;
  setstat (to_string_lossy (fh_path h)) permissions.

Definition stat (path : bytes) : H FileAttributes :=
  _ ← allowed;
  _ ← permitted Permission.FileRead;
  found ← fsys (async_canonicalize fs path);
  path ← or_fail StatusCode.NoSuchFile found;
  metadata ← fsys (async_metadata fs path);
  metadata ← or_fail StatusCode.NoSuchFile metadata;
  _ ← not_ignored path (md_is_dir metadata) StatusCode.NoSuchFile;
  mret (fi_attrs (convert_entry path metadata None)).
Definition fstat (handle : bytes) : H FileAttributes :=
  _ ← allowed;
  s ← hget;
  match handles s !! handle with
  | None => hthrow StatusCode.NoSuchFile
  | Some h => stat (to_string_lossy (handle_path h))
  end.

(** What a path holds, and what it leads to if it is a link. *)
Definition link_target (path : bytes) (metadata : Metadata) : H (option Metadata) :=
  if md_is_symlink metadata then r ← fsys (async_metadata fs path); mret (result_ok r) else mret None.
Definition lstat (path : bytes) : H FileAttributes :=
  _ ← allowed;
  _ ← permitted Permission.FileRead;
  metadata ← fsys (async_symlink_metadata fs path);
  metadata ← or_fail StatusCode.NoSuchFile metadata;
  _ ← not_ignored path (md_is_dir metadata) StatusCode.NoSuchFile;
  target_metadata ← link_target path metadata;
  mret (fi_attrs (convert_entry path metadata target_metadata)).

Definition readlink (path : bytes) : H (list File) :=
  _ ← allowed;
  _ ← permitted Permission.FileRead;
  target ← fsys (async_read_link fs path);
  path ← or_fail StatusCode.NoSuchFile target;
  metadata ← fsys (async_symlink_metadata fs path);
  metadata ← or_fail StatusCode.NoSuchFile metadata;
  _ ← not_ignored path (md_is_dir metadata) StatusCode.NoSuchFile;
  target_metadata ← link_target path metadata;
  mret [convert_entry path metadata target_metadata].

(** The target of a new link: a file that is there and may be seen. *)
Definition linkable (linkpath targetpath : bytes) : H bytes :=
  found ← fsys (async_canonicalize fs targetpath);
  targetpath ← or_fail StatusCode.NoSuchFile found;
  metadata ← fsys (async_symlink_metadata fs targetpath);
  metadata ← or_fail StatusCode.NoSuchFile metadata;
  _ ← ensure (md_is_file metadata) StatusCode.NoSuchFile;
  _ ← not_ignored targetpath (md_is_dir metadata) StatusCode.NoSuchFile;
  _ ← not_ignored linkpath false StatusCode.NoSuchFile;
  mret targetpath.

Definition sftp_symlink (linkpath targetpath : bytes) : H unit :=
  _ ← allowed;
  _ ← not_read_only;
  _ ← permitted Permission.FileCreate;
  _ ← ensure (negb (bool_decide (linkpath = targetpath))) StatusCode.NoSuchFile;
  targetpath ← linkable linkpath targetpath;
  made ← fsys (async_symlink fs targetpath linkpath);
  _ ← or_fail StatusCode.Failure made;
  _ ← fsys (async_chown_path user fs targetpath);
  hcall (LogActivity ActivityEvent.SftpCreate (Logged.Files (relative_path fs linkpath))).

(** ** Open files *)

(** The permissions the flags of a client ask for. *)
Definition open_permissions (pflags : OpenFlags) : H unit :=
  _ ← (if WRITE pflags || APPEND pflags then permitted Permission.FileUpdate else mret tt);
  _ ← (if CREATE pflags then permitted Permission.FileCreate else mret tt);
  _ ← (if TRUNCATE pflags then permitted Permission.FileDelete else mret tt);
  if READ pflags then permitted Permission.FileReadContent else mret tt.
Definition opens_for_writing (pflags : OpenFlags) : bool := WRITE pflags || APPEND pflags || CREATE pflags || TRUNCATE pflags.

(** What a file held before it was edited, if that is tracked. *)
Definition diff_before (path : bytes) (is_write : bool) (pre_size : option Z) : H (bool * option bytes) :=
  config ← hcall LoadConfig;
  let file_size_cap := cfg_file_size_cap config in
  let diff_track := is_write && cfg_history_enabled config &&
    match pre_size with Some size => (0 <? size) && (size <=? file_size_cap) | None => false end in
  if diff_track then
    before ← fsys (async_read_to_vec fs path (file_size_cap +u 1));
    mret (match before with
          | Ok before => if zlen before <=? file_size_cap then (true, Some before) else (false, None)
          | Err _ => (false, None)
          end)
  else mret (false, None).
Definition activity_event (pflags : OpenFlags) : H (option ActivityEvent.ActivityEvent) :=
  if TRUNCATE pflags || CREATE pflags then mret (Some ActivityEvent.SftpCreate)
  else if WRITE pflags || APPEND pflags then mret (Some ActivityEvent.SftpWrite)
  else if READ pflags then
    config ← hcall LoadConfig;
    mret (if cfg_log_file_reads config then Some ActivityEvent.SftpRead else None)
  else mret None.

Definition sftp_open (filename : bytes) (pflags : OpenFlags) : H bytes :=
  _ ← allowed;
  _ ← handle_left;
  _ ← open_permissions pflags;
  found ← fsys (async_canonicalize fs filename);
  let path := match found with Ok path => path | Err _ => default filename (str_strip_slash filename) end in
  metadata ← fsys (async_symlink_metadata fs path);
  pre_size ← match metadata with
             | Ok metadata =>
                 _ ← ensure (md_is_file metadata) StatusCode.NoSuchFile; mret (Some (md_len metadata))
             | Err _ => _ ← ensure (CREATE pflags) StatusCode.NoSuchFile; mret None
             end;
  _ ← not_ignored path false StatusCode.NoSuchFile;
  let is_write := opens_for_writing pflags in
  _ ← (if is_write then not_read_only else mret tt);
  '(diff_track, diff_before) ← diff_before path is_write pre_size;
  activity_event ← activity_event pflags;
  opened ← blocking (fsys (open_with fs path (open_options pflags)));
  opened ← or_fail StatusCode.Failure opened;
  file ← or_fail StatusCode.Failure opened;
  _ ← (if CREATE pflags then _ ← fsys (async_chown_path user fs path); mret tt else mret tt);
  let path_components := path_to_components fs path in
  _ ← match activity_event with
      | Some event => hcall (LogActivity event (Logged.Files (relative_path fs path)))
      | None => mret tt
      end;
  _ ← (if TRUNCATE pflags then
         match pre_size, parent_components path_components with
         | Some old, Some parent_components =>
             if 0 <? old then _ ← files (allocate_in_path_iterator parent_components (as_i64 (- as_i64 old)) true); mret tt
             else mret tt
         | _, _ => mret tt
         end
       else mret tt);
  insert_handle (ServerHandle.File {|
    fh_path := path;
    fh_path_components := path_components;
    fh_file := file;
    fh_known_size := if TRUNCATE pflags then 0 else default 0 pre_size;
    fh_append := APPEND pflags;
    fh_diff_track := diff_track;
    fh_diff_before := diff_before;
    fh_diff_dirty := false;
  |}).

Definition sftp_read (handle : bytes) (offset len : Z) : H bytes :=
  _ ← allowed;
  h ← get_file handle;
  got ← blocking (hcall (ReadAt (fh_file h) offset (Z.min len (256 * 1024))));
  got ← or_fail StatusCode.Failure got;
  data ← or_fail StatusCode.Failure got;
  if bool_decide (data = []) then hthrow StatusCode.Eof else mret data.

(** How far a write is past what is known to be there. *)
Definition write_delta (h : FileHandle) (offset : Z) (data : bytes) : Z :=
  if fh_append h then as_i64 (zlen data)
  else as_i64 (saturating_sub (saturating_add offset (zlen data)) (fh_known_size h)).
Definition written (h : FileHandle) (offset : Z) (data : bytes) : FileHandle :=
  mk_FileHandle (fh_path h) (fh_path_components h) (fh_file h)
    (if fh_append h then fh_known_size h else Z.max (fh_known_size h) (saturating_add offset (zlen data)))
    (fh_append h) (fh_diff_track h) (fh_diff_before h) true.
Definition allocate_parent (h : FileHandle) (delta : Z) (ignorant : bool) : H (ior bool) :=
  match parent_components (fh_path_components h) with
  | Some parent => files (allocate_in_path_iterator parent delta ignorant)
  | None => hthrow StatusCode.Failure
  end.

Definition sftp_write (handle : bytes) (offset : Z) (data : bytes) : H unit :=
  _ ← allowed;
  h ← get_file handle;
  _ ← not_read_only;
  let delta := write_delta h offset data in
  granted ← allocate_parent h delta false;
  _ ← ensure (match granted with Ok granted => granted | Err _ => false end) StatusCode.Failure;
  done ← blocking (hcall (WriteAllAt (fh_file h) offset data));
  match done with
  | Ok (Ok _) => hmodify (λ s, set_handles (<[handle := ServerHandle.File (written h offset data)]> (handles s)) s)
  | _ =>
      _ ← allocate_parent h (as_i64 (- delta)) true;
      hthrow StatusCode.Failure
  end.
End session.
