(* ===== verification/SftpExtended.v ===== *)
(** * SftpExtended: the extended requests of SFTP clients (application/src/ssh/sftp/extended.rs)

    Requests beyond the protocol's own, named by a string: checksums of files,
    copies, the space that is left, limits, links, renames.  [russh_sftp]'s
    parser of each request and its printer of the replies are parameters, as are
    the digests. *)
From S2P Require Import Prelude IoModel Paths Utf8 Properties Permissions Activity DiskUsage Effects CapFs CapWalk Quota.
From S2P Require Import ServerFile FsOps Entries VirtualFs Sftp.
Local Open Scope list_scope.
Local Open Scope Z_scope.

(** ** Requests and replies *)

Record CheckFileName : Type := mk_CheckFileName { cf_file_name : bytes; cf_hash : bytes; cf_start_offset : Z; cf_length : Z }.
Record CopyFileRequest : Type := mk_CopyFile { cp_source : bytes; cp_destination : bytes; cp_overwrite : Z }.

Module Reply.
Inductive Reply : Type :=
  | CheckFile (hash_algorithm hash : bytes)
  | SpaceAvailable (total_space available_space total_user_space available_user_space : Z)
  | Limits (max_packet_length max_read_length max_write_length max_handle_count : Z)
  | StatVfs (block_size fragment_size total_blocks free_blocks available_blocks total_file_nodes free_file_nodes
      available_file_nodes filesystem_id mount_flags max_filename_length : Z)
  | UsersGroups (users groups : bytes).
End Reply.
Module Packet.
Inductive Packet : Type := Status | ExtendedReply (data : bytes).
End Packet.

(** ** Checksums *)

(** How many of the bytes of a read count: not those past the length that was
    asked for, zero for all. *)
Definition counted_bytes (length bytes_read total_bytes_read : Z) : Z :=
  if 0 <? length then
    if length <? total_bytes_read then saturating_sub length (saturating_sub total_bytes_read bytes_read) else bytes_read
  else bytes_read.

(** The first name of a list, up to a comma. *)
Definition COMMA : Z := 44.
Fixpoint before_comma (s : bytes) : bytes :=
  match s with [] => [] | c :: s => if c =? COMMA then [] else c :: before_comma s end.

(** The loop of a digest: a hasher is what it was given so far. *)
Fixpoint hash_loop (fuel : nat) (file length total_bytes_read : Z) (hasher : bytes) : Q bytes :=
  match fuel with
  | O => out_of_fuel
  | S fuel =>
      buffer ← qask (OnFs (FileRead file BUFFER_SIZE));
      let bytes_read := zlen buffer in
      let total_bytes_read := total_bytes_read +u bytes_read in
      if bytes_read =? 0 then mret hasher else
      let take := counted_bytes length bytes_read total_bytes_read in
      if BUFFER_SIZE <? take then io_throw (InvalidInput "range end exceeds slice length") else
      let hasher := hasher ++ ztake take buffer in
      if negb (length =? 0) && (length <=? total_bytes_read) then mret hasher
      else hash_loop fuel file length total_bytes_read hasher
  end.

(** ** Users and groups *)

(** [chunks(4)] as big-endian numbers; a shorter last one is skipped. *)
Fixpoint be_ids (l : bytes) : list Z :=
  match l with
  | a :: b :: c :: d :: l => (((a * 256 + b) * 256 + c) * 256 + d) :: be_ids l
  | _ => []
  end.
Definition put_u32 (n : Z) : bytes := rev (to_le_bytes 4 (n mod 2 ^ 32)).
Fixpoint put_names (ids : list Z) (out : bytes) : H bytes :=
  match ids with
  | [] => mret out
  | id :: ids =>
      if id =? 0 then
        config ← hcall LoadConfig;
        put_names ids (out ++ put_u32 (zlen (cfg_username config)) ++ cfg_username config)
      else put_names ids (out ++ put_u32 0)
  end.

(** ** Space *)

(** The disk a path is on: the first mount point on the way up, or the first
    disk there is. *)
Fixpoint find_disk (fuel : nat) (disks : list Disk) (path : bytes) : option Disk :=
  match List.find (λ d, same_path (dk_mount_point d) path) disks with
  | Some d => Some d
  | None =>
      match fuel, path_parent path with
      | S fuel, Some parent => find_disk fuel disks parent
      | _, _ => head disks
      end
  end.

Section extended.
Context (fs : CapFilesystem) (user : UserConfig) (copy_fuel hash_fuel : nat).
(** The parsers of the requests, the printer of the replies. *)
Context (de_check_file : bytes → option CheckFileName) (de_copy_file : bytes → option CopyFileRequest)
  (de_two_names de_users_groups : bytes → option (bytes * bytes)) (de_handle : bytes → option bytes)
  (de_setstat : bytes → option (bytes * option Z)) (ser : Reply.Reply → option bytes).
(** The digest of each algorithm, of all it is given. *)
Context (digest : bytes → option (bytes → bytes)).

Definition parsed {A} (de : bytes → option A) (data : bytes) : H A :=
  match de data with Some request => mret request | None => hthrow StatusCode.BadMessage end.
Definition reply (r : Reply.Reply) : H Packet.Packet :=
  match ser r with Some data => mret (Packet.ExtendedReply data) | None => hthrow StatusCode.Failure end.

Definition run_hash (file length : Z) (hash_algorithm : bytes) : Q bytes :=
  match digest hash_algorithm with
  | None => io_throw (InvalidInput "unsupported hash algorithm")
  | Some digest => hashed ← hash_loop hash_fuel file length 0 []; mret (digest hashed)
  end.

Definition check_file (by_name : bool) (data : bytes) : H Packet.Packet :=
  _ ← permitted Permission.FileRead;
  request ← parsed de_check_file data;
  file_name ← (if by_name then mret (cf_file_name request)
               else h ← get_file (cf_file_name request); mret (to_string_lossy (fh_path h)));
  found ← fsys (async_canonicalize fs file_name);
  path ← or_fail StatusCode.NoSuchFile found;
  metadata ← fsys (async_symlink_metadata fs path);
  match metadata with
  | Err _ => hthrow StatusCode.OpUnsupported
  | Ok metadata =>
      _ ← ensure (md_is_file metadata) StatusCode.NoSuchFile;
      _ ← not_ignored path (md_is_dir metadata) StatusCode.NoSuchFile;
      opened ← fsys (async_open fs path);
      file ← or_fail StatusCode.NoSuchFile opened;
      _ ← (if negb (cf_start_offset request =? 0) then
             at_ ← files (qask (FileSeek file (cf_start_offset request)));
             _ ← or_fail StatusCode.Failure at_; mret tt
           else mret tt);
      let hash_algorithm := before_comma (cf_hash request) in
      hash ← files (run_hash file (cf_length request) hash_algorithm);
      match hash with
      | Ok hash => reply (Reply.CheckFile hash_algorithm hash)
      | Err (InvalidInput _) => hthrow StatusCode.BadMessage
      | Err _ => hthrow StatusCode.Failure
      end
  end.

Definition copy_file (data : bytes) : H Packet.Packet :=
  _ ← not_read_only;
  _ ← permitted Permission.FileReadContent;
  _ ← permitted Permission.FileCreate;
  request ← parsed de_copy_file data;
  found ← fsys (async_canonicalize fs (cp_source request));
  source_path ← or_fail StatusCode.NoSuchFile found;
  metadata ← fsys (async_symlink_metadata fs source_path);
  metadata ← or_fail StatusCode.NoSuchFile metadata;
  _ ← ensure (md_is_file metadata) StatusCode.NoSuchFile;
  _ ← not_ignored source_path false StatusCode.NoSuchFile;
  let destination_path := cp_destination request in
  _ ← not_ignored destination_path false StatusCode.NoSuchFile;
  there ← fsys (async_symlink_metadata fs destination_path);
  _ ← match there with
      | Ok metadata =>
          _ ← ensure (negb (md_is_dir metadata)) StatusCode.NoSuchFile;
          ensure (negb (cp_overwrite request =? 0)) StatusCode.Failure
      | Err _ => mret tt
      end;
  copied ← files (async_quota_copy copy_fuel fs source_path destination_path fs false);
  _ ← or_fail StatusCode.NoSuchFile copied;
  _ ← hcall (LogActivity ActivityEvent.SftpCreate (Logged.Files (relative_path fs destination_path)));
  mret Packet.Status.

(** All the space there is, and what is left of it. *)
Definition space : H (Z * Z) :=
  disk_limit ← hcall DiskLimit;
  if disk_limit =? 0 then
    disks ← hcall Disks;
    match find_disk (length (components (base_path fs))) disks (base_path fs) with
    | Some d => mret (dk_total_space d, dk_available_space d)
    | None => hthrow StatusCode.Failure
    end
  else
    usage ← hcall LimiterUsage;
    mret (wrap64 disk_limit, saturating_sub (wrap64 disk_limit) usage).
Definition space_available : H Packet.Packet :=
  '(total_space, available_space) ← space;
  reply (Reply.SpaceAvailable total_space available_space total_space available_space).
Definition limits : H Packet.Packet :=
  config ← hcall LoadConfig;
  reply (Reply.Limits (32 * 1024) (128 * 1024) (128 * 1024) (cfg_max_handles_per_channel config)).
Definition statvfs : H Packet.Packet :=
  '(total_space, free_space) ← space;
  config ← hcall LoadConfig;
  reply (Reply.StatVfs 4096 4096 (total_space / 4096) (free_space / 4096) (free_space / 4096) 0 0 0 0
    (if cfg_read_only config then 1 else 0) 255).

Definition hardlink (data : bytes) : H Packet.Packet :=
  '(target, link_name) ← parsed de_two_names data;
  _ ← not_read_only;
  _ ← permitted Permission.FileCreate;
  _ ← ensure (negb (same_path link_name target)) StatusCode.NoSuchFile;
  targetpath ← linkable fs link_name target;
  made ← fsys (async_hard_link fs targetpath fs link_name);
  _ ← or_fail StatusCode.Failure made;
  _ ← hcall (LogActivity ActivityEvent.SftpCreate (Logged.Files (relative_path fs link_name)));
  mret Packet.Status.

Definition fsync (data : bytes) : H Packet.Packet :=
  handle ← parsed de_handle data;
  _ ← not_read_only;
  _ ← permitted Permission.FileUpdate;
  h ← get_file handle;
  synced ← blocking (fsys (ask (FileSyncAll (fh_file h))));
  synced ← or_fail StatusCode.Failure synced;
  _ ← or_fail StatusCode.Failure synced;
  mret Packet.Status.

Definition lsetstat (data : bytes) : H Packet.Packet :=
  '(handle, permissions) ← parsed de_setstat data;
  _ ← not_read_only;
  _ ← permitted Permission.FileUpdate;
  h ← get_file handle;
  _ ← match permissions with
      | Some permissions =>
          done ← fsys (async_set_symlink_permissions fs (fh_path h) (from_mode_file permissions));
          or_fail StatusCode.Failure done
      | None => mret tt
      end;
  mret Packet.Status.

Definition users_groups_by_id (data : bytes) : H Packet.Packet :=
  '(users, groups) ← parsed de_users_groups data;
  _ ← permitted Permission.FileRead;
  users ← put_names (be_ids users) [];
  groups ← put_names (be_ids groups) [];
  reply (Reply.UsersGroups users groups).

Definition posix_rename (data : bytes) : H Packet.Packet :=
  '(old_path, new_path) ← parsed de_two_names data;
  _ ← not_read_only;
  _ ← permitted Permission.FileUpdate;
  found ← fsys (async_canonicalize fs old_path);
  old_path ← or_fail StatusCode.NoSuchFile found;
  old_metadata ← fsys (async_symlink_metadata fs old_path);
  old_metadata ← or_fail StatusCode.NoSuchFile old_metadata;
  _ ← not_ignored old_path (md_is_dir old_metadata) StatusCode.Failure;
  _ ← not_ignored new_path (md_is_dir old_metadata) StatusCode.Failure;
  _ ← rename_and_record fs old_path new_path;
  mret Packet.Status.

Definition handle_extended (command : string) (data : bytes) : H Packet.Packet :=
  _ ← allowed;
  if bool_decide (command = "check-file")%string then check_file false data
  else if bool_decide (command = "check-file-name")%string then check_file true data
  else if bool_decide (command = "copy-file")%string then copy_file data
  else if bool_decide (command = "space-available")%string then space_available
  else if bool_decide (command = "limits@openssh.com")%string then limits
  else if bool_decide (command = "fstatvfs@openssh.com")%string then statvfs
  else if bool_decide (command = "statvfs@openssh.com")%string then statvfs
  else if bool_decide (command = "hardlink@openssh.com")%string then hardlink data
  else if bool_decide (command = "fsync@openssh.com")%string then fsync data
  else if bool_decide (command = "lsetstat@openssh.com")%string then lsetstat data
  else if bool_decide (command = "users-groups-by-id@openssh.com")%string then users_groups_by_id data
  else if bool_decide (command = "posix-rename@openssh.com")%string then posix_rename data
  else hthrow StatusCode.OpUnsupported.
End extended.
