(* ===== verification/SftpSafety.v ===== *)
(** * SftpSafety: what SFTP clients can do (application/src/ssh/sftp)

    Every call that changes files is only made after the request it belongs to
    has found that the server is not locked, that the user has the permission it
    takes, that the access may write, and that the paths are not hidden from the
    user; the handles of a session are those the limiter has guards out for. *)
From Stdlib Require Import Btauto.
From S2P Require Import Prelude IoModel Paths Utf8 Properties Permissions Activity DiskUsage Effects CapFs CapWalk Quota.
From S2P Require Import ServerFile FsOps Entries VirtualFs Sftp SftpExtended.
Local Open Scope list_scope.
Local Open Scope Z_scope.

(** ** Requests *)

Module Request.
Inductive Request : Type :=
  | Close (handle : bytes)
  | Realpath (path : bytes)
  | Opendir (path : bytes)
  | Readdir (handle : bytes)
  | Remove (filename : bytes)
  | Rmdir (path : bytes)
  | Mkdir (path : bytes) (permissions : option Z)
  | Rename (old_path new_path : bytes)
  | Setstat (path : bytes) (permissions : option Z)
  | Fsetstat (handle : bytes) (permissions : option Z)
  | Stat (path : bytes)
  | Fstat (handle : bytes)
  | Lstat (path : bytes)
  | Readlink (path : bytes)
  | Symlink (linkpath targetpath : bytes)
  | Open (filename : bytes) (pflags : OpenFlags)
  | Read (handle : bytes) (offset len : Z)
  | Write (handle : bytes) (offset : Z) (data : bytes)
  | Extended (command : string) (data : bytes).
End Request.

(** The crates of the extended requests, and the fuel of loops. *)
Record Protocol : Type := mk_Protocol {
  pr_check_file : bytes → option CheckFileName;
  pr_copy_file : bytes → option CopyFileRequest;
  pr_two_names : bytes → option (bytes * bytes);
  pr_users_groups : bytes → option (bytes * bytes);
  pr_handle : bytes → option bytes;
  pr_setstat : bytes → option (bytes * option Z);
  pr_ser : Reply.Reply → option bytes;
  pr_digest : bytes → option (bytes → bytes);
  pr_fuel : nat;
}.

Definition discard_answer {A} (m : H A) : H unit := _ ← m; mret tt.
Definition perform_request (fs : CapFilesystem) (user : UserConfig) (p : Protocol) (r : Request.Request) : H unit :=
  match r with
  | Request.Close handle => sftp_close fs handle
  | Request.Realpath path => discard_answer (realpath fs path)
  | Request.Opendir path => discard_answer (opendir fs path)
  | Request.Readdir handle => discard_answer (readdir fs (pr_fuel p) handle)
  | Request.Remove filename => remove fs filename
  | Request.Rmdir path => rmdir fs path
  | Request.Mkdir path permissions => mkdir fs user path permissions
  | Request.Rename old_path new_path => sftp_rename fs old_path new_path
  | Request.Setstat path permissions => setstat fs path permissions
  | Request.Fsetstat handle permissions => fsetstat fs handle permissions
  | Request.Stat path => discard_answer (stat fs path)
  | Request.Fstat handle => discard_answer (fstat fs handle)
  | Request.Lstat path => discard_answer (lstat fs path)
  | Request.Readlink path => discard_answer (readlink fs path)
  | Request.Symlink linkpath targetpath => sftp_symlink fs user linkpath targetpath
  | Request.Open filename pflags => discard_answer (sftp_open fs user filename pflags)
  | Request.Read handle offset len => discard_answer (sftp_read handle offset len)
  | Request.Write handle offset data => sftp_write handle offset data
  | Request.Extended command data => discard_answer
      (handle_extended fs (pr_fuel p) (pr_fuel p) (pr_check_file p) (pr_copy_file p) (pr_two_names p) (pr_users_groups p)
         (pr_handle p) (pr_setstat p) (pr_ser p) (pr_digest p) command data)
  end.

(** ** What a request has found out *)

Record Grants : Type := mk_Grants {
  gr_unlocked : bool;
  gr_permissions : list Permission.Permission;
  gr_writable : bool;
  gr_server_shown : list bytes;
  gr_shown : list bytes;
}.
Definition no_grants : Grants := mk_Grants false [] false [] [].

(** The permissions found, the server unlocked, the access not read-only. *)
Definition granted (g : Grants) (permissions : list Permission.Permission) (writes : bool) : bool :=
  gr_unlocked g && forallb (λ p, bool_decide (p ∈ gr_permissions g)) (Permission.FileSftp :: permissions) &&
  (negb writes || gr_writable g).
Definition shown (paths : list bytes) (path : bytes) : Prop :=
  same_path path [SLASH] || same_path path [DOT] || same_path path [] = true ∨ path ∈ paths.
(** The path of a call: where a path that is not hidden leads. *)
Definition shown_at (fs : CapFilesystem) (g : Grants) (path : bytes) : Prop :=
  ∃ q, shown (gr_shown g) q ∧ path = relative_path fs q.

(** What opening a file with some options takes. *)
Definition option_permissions (options : Z) : list Permission.Permission :=
  (if Z.testbit options 0 then [Permission.FileReadContent] else []) ++
  (if Z.testbit options 1 || Z.testbit options 2 then [Permission.FileUpdate] else []) ++
  (if Z.testbit options 3 || Z.testbit options 4 then [Permission.FileCreate] else []) ++
  (if Z.testbit options 5 then [Permission.FileDelete] else []).
Definition option_writes (options : Z) : bool := 1 <? options.

(** The paths of the files a session has open *)
Definition opened_in (session : SftpSession) (path : bytes) : Prop :=
  ∃ key h, handles session !! key = Some (ServerHandle.File h) ∧ fh_path h = path.

(** What calls a request may make with what it has found; [opened] are the paths
    of the files the session had open before. *)
Section grants.
Context (fs : CapFilesystem) (opened : bytes → Prop).

Definition open_at (g : Grants) (path : bytes) : Prop :=
  ∃ q, (opened q ∨ shown (gr_shown g) q) ∧ path = relative_path fs q.
(** The directory above a path that is not hidden *)
Definition above_shown (g : Grants) (path : bytes) : Prop :=
  ∃ q parent, shown (gr_shown g) q ∧ path_parent (relative_path fs q) = Some parent ∧ path = relative_path fs parent.

Definition fs_may (X : Type) (e : FsE X) (g : Grants) : Prop :=
  match e with
  | DirCreateDir _ p | DirCreate _ p => granted g [Permission.FileCreate] true = true ∧ shown_at fs g p
  | DirCreateDirAll _ p => granted g [Permission.FileUpdate] true = true ∧ above_shown g p
  | DirRemoveDirAll _ p | DirRemoveFile _ p => granted g [Permission.FileDelete] true = true ∧ shown_at fs g p
  | DirRename _ p _ q => granted g [Permission.FileUpdate] true = true ∧ shown_at fs g p ∧ shown_at fs g q
  | DirSetPermissions _ p _ =>
      (granted g [Permission.FileUpdate] true || granted g [Permission.FileCreate] true) = true ∧ shown_at fs g p
  | AmbientSetPermissions p _ =>
      (granted g [Permission.FileUpdate] true || granted g [Permission.FileCreate] true) = true ∧ p = base_path fs
  | DirChmodAt _ p _ => granted g [Permission.FileUpdate] true = true ∧ open_at g p
  | DirSymlink _ p q | DirHardLink _ p _ q => granted g [Permission.FileCreate] true = true ∧ shown_at fs g p ∧ shown_at fs g q
  | DirChownAt _ p _ _ => granted g [Permission.FileCreate] true = true ∧ shown_at fs g p
  | AmbientChown p _ _ => granted g [Permission.FileCreate] true = true ∧ p = base_path fs
  | FileWriteAll _ _ => granted g [Permission.FileCreate] true = true
  | DirOpen _ p => open_at g p
  | DirOpenWith _ p options => granted g (option_permissions options) (option_writes options) = true ∧ shown_at fs g p
  | DirReadDir _ p => granted g [Permission.FileRead] false = true ∧ shown_at fs g p
  | AmbientReadDir p => granted g [Permission.FileRead] false = true ∧ p = base_path fs
  | FileSyncAll _ => granted g [Permission.FileUpdate] true = true
  | DirUtimensAt _ _ _ | FileSetPermissions _ _ | OpenAmbientDir _ | StoreInner _ _ => False
  | _ => True
  end.
Definition quota_may (X : Type) (e : QuotaE X) (g : Grants) : Prop :=
  match e with
  | OnFs e => fs_may _ e g
  | UpdateAtomics _ _ | UpdateSize _ _ | UpdateSizeIterator _ _ | RemoveUsage _ | AddDirectory _ _ => granted g [] true = true
  | CopyFileRange _ _ _ => granted g [Permission.FileCreate; Permission.FileReadContent] true = true
  | FileWrite _ _ | FileSetModified _ _ | FilePollWrite _ _ => False
  | _ => True
  end.
Definition sftp_may (X : Type) (e : SftpE X) (g : Grants) : Prop :=
  match e with
  | OnFiles e => quota_may _ e g
  | ReadAt _ _ _ => granted g [] false = true
  | WriteAllAt _ _ _ => granted g [] true = true
  | _ => True
  end.
Definition sftp_found (X : Type) (e : SftpE X) : X → Grants → Grants :=
  match e in SftpE X return X → Grants → Grants with
  | IsLocked => λ x g, mk_Grants (negb x) (gr_permissions g) (gr_writable g) (gr_server_shown g) (gr_shown g)
  | UserHasPermission p => λ x g,
      if x then mk_Grants (gr_unlocked g) (p :: gr_permissions g) (gr_writable g) (gr_server_shown g) (gr_shown g) else g
  | LoadConfig => λ x g,
      if cfg_read_only x then g
      else mk_Grants (gr_unlocked g) (gr_permissions g) true (gr_server_shown g) (gr_shown g)
  | ServerIgnores path _ => λ x g,
      if x then g
      else mk_Grants (gr_unlocked g) (gr_permissions g) (gr_writable g) (path :: gr_server_shown g) (gr_shown g)
  | UserIgnores path _ => λ x g,
      if x || negb (bool_decide (path ∈ gr_server_shown g)) then g
      else mk_Grants (gr_unlocked g) (gr_permissions g) (gr_writable g) (gr_server_shown g) (path :: gr_shown g)
  | _ => λ _ g, g
  end.

(** What was shown stays shown. *)
Definition more_shown (paths paths' : list bytes) : Prop := ∀ q, shown paths q → shown paths' q.

Lemma more_shown_refl paths : more_shown paths paths.
Proof. by intros q. Qed.

Lemma more_shown_cons path paths : more_shown paths (path :: paths).
Proof. intros q [? | ?]; [by left | right; by right]. Qed.

Lemma found_shown {X} (e : SftpE X) x g : more_shown (gr_shown g) (gr_shown (sftp_found X e x g)).
Proof.
  destruct e; cbn [sftp_found]; try apply more_shown_refl; repeat case_match; try apply more_shown_refl.
  apply more_shown_cons.
Qed.

(** Every file handle is for a path that was open before or has been found not
    to be hidden. *)
Definition handles_ok (g : Grants) (s : SftpSession) : Prop :=
  ∀ key h, handles s !! key = Some (ServerHandle.File h) → opened (fh_path h) ∨ shown (gr_shown g) (fh_path h).

Lemma handles_ok_mono g g' s : more_shown (gr_shown g) (gr_shown g') → handles_ok g s → handles_ok g' s.
Proof. intros Hm Hs key h Hh. destruct (Hs key h Hh); [by left | right; by apply Hm]. Qed.

Lemma handles_ok_insert g key h s : match h with ServerHandle.File h => opened (fh_path h) ∨ shown (gr_shown g) (fh_path h) | _ => True end →
  handles_ok g s → handles_ok g (set_handles (<[key := h]> (handles s)) s).
Proof. intros Hh Hs key' h'. cbn. intros [[<- ->] | [_ Hk]]%lookup_insert_Some; [done | by eapply Hs]. Qed.

Lemma handles_ok_delete g key s : handles_ok g s → handles_ok g (set_handles (delete key (handles s)) s).
Proof. intros Hs key' h'. cbn. intros [_ Hk]%lookup_delete_Some. by eapply Hs. Qed.

(** However the calls of a handler are answered, those it makes are allowed;
    [Q] holds of what it answers and has found out; file handles are still for
    paths that were open or are not hidden. *)
Definition safe {A} (m : H A) (g : Grants) (Q : A → Grants → Prop) : Prop :=
  ∀ s, handles_ok g s → wp sftp_may (λ _ _ _ _, True) sftp_found (m s) g
         (λ r g, handles_ok g (snd r) ∧ match fst r with Ok a => Q a g | Err _ => True end).

(** ** Rules *)

Lemma safe_ret {A} (a : A) g (Q : A → Grants → Prop) : Q a g → safe (mret a) g Q.
Proof. by intros HQ s Hs. Qed.

Lemma safe_throw {A} code g (Q : A → Grants → Prop) : safe (hthrow code) g Q.
Proof. by intros s. Qed.

Lemma safe_bind {A B} (m : H A) (f : A → H B) g Q : safe m g (λ a g, safe (f a) g Q) → safe (mbind f m) g Q.
Proof.
  intros Hm s Hs. apply wp_bind. eapply wp_mono; [by apply Hm |]. intros [[a | code] s'] g' [Hs' HQ]; [by apply HQ | done].
Qed.

Lemma safe_mono {A} (m : H A) g (Q R : A → Grants → Prop) : safe m g Q → (∀ a g, Q a g → R a g) → safe m g R.
Proof.
  intros Hm HQR s Hs. eapply wp_mono; [by apply Hm |].
  intros [[a | code] s'] g' [Hs' HQ]; (split; [done |]); [by apply HQR | done].
Qed.

Lemma safe_get g (Q : SftpSession → Grants → Prop) : (∀ s, handles_ok g s → Q s g) → safe hget g Q.
Proof. intros HQ s Hs. split; [done |]. by apply HQ. Qed.

Lemma safe_modify f g (Q : unit → Grants → Prop) : (∀ s, handles_ok g s → handles_ok g (f s)) → Q tt g → safe (hmodify f) g Q.
Proof. intros Hf HQ s Hs. split; [by apply Hf | done]. Qed.

Lemma safe_call {A} (e : SftpE A) g (Q : A → Grants → Prop) :
  sftp_may _ e g → (∀ x, Q x (sftp_found _ e x g)) → safe (hcall e) g Q.
Proof.
  intros He HQ s Hs. split; [done |]. intros x _. split; [| apply HQ]. eapply handles_ok_mono; [apply found_shown | done].
Qed.

Lemma safe_ensure b code g (Q : unit → Grants → Prop) : (b = true → Q tt g) → safe (ensure b code) g Q.
Proof. intros HQ. destruct b; [by apply safe_ret, HQ | apply safe_throw]. Qed.

Lemma safe_or_fail {A} code (r : ior A) g (Q : A → Grants → Prop) : (∀ a, Q a g) → safe (or_fail code r) g Q.
Proof. intros HQ. destruct r; [apply safe_ret, HQ | apply safe_throw]. Qed.

(** Programs of the files find nothing out. *)
Lemma safe_files {A} (m : Q A) g (Q : ior A → Grants → Prop) :
  all_calls (λ X e, quota_may X e g) m → (∀ r, Q r g) → safe (files m) g Q.
Proof.
  intros Hm HQ s Hs. unfold files. apply wp_bind. induction m as [a | X e k IH]; cbn in *; [split; [done | apply HQ] |].
  destruct Hm as [He Hk]. split; [done |]. intros x _. by apply IH.
Qed.

Lemma on_fs_may {A} (m : prog FsE A) g : all_calls (λ X e, fs_may X e g) m → all_calls (λ X e, quota_may X e g) (on_fs m).
Proof. induction m as [a | X e k IH]; cbn; [done |]. intros [He Hk]. split; [done |]. intros x. apply IH, Hk. Qed.

Lemma safe_fsys {A} (m : FS A) g (Q : ior A → Grants → Prop) :
  all_calls (λ X e, fs_may X e g) m → (∀ r, Q r g) → safe (fsys m) g Q.
Proof. intros Hm. by apply safe_files, on_fs_may. Qed.

Lemma safe_blocking {A} (m : H A) g (Q : ior A → Grants → Prop) :
  safe m g (λ a, Q (Ok a)) → (∀ err, Q (Err err) g) → safe (blocking m) g Q.
Proof.
  intros Hm HQ. apply safe_bind, safe_call; [done |]. intros [err |]; cbn [sftp_found]; [by apply safe_ret |].
  apply safe_bind. eapply safe_mono; [apply Hm |]. intros a g' Ha. by apply safe_ret.
Qed.

Lemma safe_allowed g (Q : unit → Grants → Prop) :
  Q tt (mk_Grants true (Permission.FileSftp :: gr_permissions g) (gr_writable g) (gr_server_shown g) (gr_shown g)) →
  safe allowed g Q.
Proof.
  intros HQ. apply safe_bind. apply safe_bind, safe_call; [done |]. intros []; cbn [sftp_found]; [by apply safe_ret, safe_throw |].
  apply safe_call; [done |]. intros []; [by apply safe_ensure | by apply safe_throw].
Qed.

Lemma safe_permitted p g (Q : unit → Grants → Prop) :
  Q tt (mk_Grants (gr_unlocked g) (p :: gr_permissions g) (gr_writable g) (gr_server_shown g) (gr_shown g)) →
  safe (permitted p) g Q.
Proof. intros HQ. apply safe_bind, safe_call; [done |]. intros []; [by apply safe_ensure | by apply safe_throw]. Qed.

Lemma safe_load g (Q : SftpConfig → Grants → Prop) :
  (∀ config w, (gr_writable g = true → w = true) → (cfg_read_only config = false → w = true) →
    Q config (mk_Grants (gr_unlocked g) (gr_permissions g) w (gr_server_shown g) (gr_shown g))) →
  safe (hcall LoadConfig) g Q.
Proof.
  intros HQ. apply safe_call; [done |]. intros config. cbn [sftp_found]. destruct (cfg_read_only config) eqn:Hr.
  - specialize (HQ config (gr_writable g) ltac:(done)). rewrite Hr in HQ. destruct g. by apply HQ.
  - by apply HQ.
Qed.

Lemma safe_not_read_only g (Q : unit → Grants → Prop) :
  Q tt (mk_Grants (gr_unlocked g) (gr_permissions g) true (gr_server_shown g) (gr_shown g)) → safe not_read_only g Q.
Proof.
  intros HQ. apply safe_bind, safe_load. intros config w _ Hw. apply safe_ensure. rewrite negb_true_iff. intros Hr.
  by rewrite Hw.
Qed.

Lemma safe_handle_left g (Q : unit → Grants → Prop) :
  (∀ w, (gr_writable g = true → w = true) →
    Q tt (mk_Grants (gr_unlocked g) (gr_permissions g) w (gr_server_shown g) (gr_shown g))) → safe handle_left g Q.
Proof.
  intros HQ. apply safe_bind, safe_get. intros s _. apply safe_bind, safe_load. intros config w Hw _. apply safe_ensure.
  intros _. by apply HQ.
Qed.

Lemma safe_is_ignored path is_dir g (Q : bool → Grants → Prop) :
  (∀ b server_shown paths, more_shown (gr_shown g) paths → (b = false → shown paths path) →
    Q b (mk_Grants (gr_unlocked g) (gr_permissions g) (gr_writable g) server_shown paths)) →
  safe (is_ignored path is_dir) g Q.
Proof.
  intros HQ. unfold is_ignored. destruct (_ || _ || _) eqn:Hroot.
  - apply safe_ret. specialize (HQ false (gr_server_shown g) (gr_shown g)). destruct g. apply HQ; [apply more_shown_refl |].
    by left.
  - apply safe_bind, safe_call; [done |]. intros []; cbn [sftp_found].
    + apply safe_ret. specialize (HQ true (gr_server_shown g) (gr_shown g)). destruct g. apply HQ; [apply more_shown_refl | done].
    + apply safe_call; [done |]. intros []; cbn [sftp_found orb gr_server_shown].
      * by apply HQ; [apply more_shown_refl |].
      * rewrite bool_decide_true by by left. cbn [negb]. apply HQ; [apply more_shown_cons |]. intros _. right. by left.
Qed.

Lemma safe_not_ignored path is_dir code g (Q : unit → Grants → Prop) :
  (∀ server_shown paths, more_shown (gr_shown g) paths → shown paths path →
    Q tt (mk_Grants (gr_unlocked g) (gr_permissions g) (gr_writable g) server_shown paths)) →
  safe (not_ignored path is_dir code) g Q.
Proof.
  intros HQ. apply safe_bind, safe_is_ignored. intros b ss paths Hm Hs. apply safe_ensure. rewrite negb_true_iff. auto.
Qed.

Lemma safe_get_file handle g (Q : FileHandle → Grants → Prop) :
  (∀ h, opened (fh_path h) ∨ shown (gr_shown g) (fh_path h) → Q h g) → safe (get_file handle) g Q.
Proof.
  intros HQ. apply safe_bind, safe_get. intros s Hs. destruct (handles s !! handle) as [[h | h] |] eqn:Hh; [| apply safe_throw ..].
  apply safe_ret, HQ. by eapply Hs.
Qed.

Lemma safe_get_dir handle g (Q : DirHandle → Grants → Prop) : (∀ h, Q h g) → safe (get_dir handle) g Q.
Proof.
  intros HQ. apply safe_bind, safe_get. intros s Hs. destruct (handles s !! handle) as [[h | h] |]; [| by apply safe_ret |];
    apply safe_throw.
Qed.

Lemma safe_insert_handle h g (Q : bytes → Grants → Prop) :
  match h with ServerHandle.File h => opened (fh_path h) ∨ shown (gr_shown g) (fh_path h) | _ => True end →
  (∀ handle, Q handle g) → safe (insert_handle h) g Q.
Proof.
  intros Hh HQ. apply safe_bind. intros s Hs. cbn. split; [done |]. apply safe_bind, safe_call; [done |]. intros b.
  apply safe_bind, safe_ensure. intros _. apply safe_bind, safe_modify; [intros s'; by apply handles_ok_insert |]. apply safe_ret, HQ.
Qed.
End grants.

(** Goes through a handler step by step. *)
Create HintDb granted.
#[export] Hint Resolve more_shown_refl handles_ok_insert handles_ok_delete : granted.
#[export] Hint Extern 1 (_ ∨ shown _ _) => right : granted.
#[export] Hint Extern 2 (_ ∨ shown _ _) => assumption : granted.
Ltac safe_step :=
  lazymatch goal with
  | |- safe _ _ (mbind _ _) _ _ => apply safe_bind
  | |- safe _ _ (mret _) _ _ => apply safe_ret
  | |- safe _ _ (hthrow _) _ _ => apply safe_throw
  | |- safe _ _ hget _ _ => apply safe_get; intros ? ?
  | |- safe _ _ (hmodify _) _ _ => apply safe_modify; [eauto with granted |]
  | |- safe _ _ (hcall LoadConfig) _ _ => apply safe_load; intros ? ? ? ?
  | |- safe _ _ (hcall _) _ _ => apply safe_call; [try done | intros ?; cbn [sftp_found]]
  | |- safe _ _ (ensure _ _) _ _ => apply safe_ensure; intros ?
  | |- safe _ _ (or_fail _ _) _ _ => apply safe_or_fail; intros ?
  | |- safe _ _ (fsys _) _ _ => apply safe_fsys; [| intros ?]
  | |- safe _ _ (files _) _ _ => apply safe_files; [| intros ?]
  | |- safe _ _ (blocking _) _ _ => apply safe_blocking; [| intros ?]
  | |- safe _ _ allowed _ _ => apply safe_allowed
  | |- safe _ _ (permitted _) _ _ => apply safe_permitted
  | |- safe _ _ not_read_only _ _ => apply safe_not_read_only
  | |- safe _ _ handle_left _ _ => apply safe_handle_left; intros ? ?
  | |- safe _ _ (is_ignored _ _) _ _ => apply safe_is_ignored; intros ? ? ? ? ?
  | |- safe _ _ (not_ignored _ _ _) _ _ => apply safe_not_ignored; intros ? ? ? ?
  | |- safe _ _ (get_file _) _ _ => apply safe_get_file; intros ? ?
  | |- safe _ _ (get_dir _) _ _ => apply safe_get_dir; intros ?
  | |- safe _ _ (insert_handle _) _ _ => apply safe_insert_handle; [eauto with granted | intros ?]
  | |- safe _ _ (match ?x with _ => _ end) _ _ => destruct x
  end; cbn [gr_unlocked gr_permissions gr_writable gr_server_shown gr_shown] in *.

Section requests.
Context (fs : CapFilesystem) (opened : bytes → Prop) (user : UserConfig) (rest : list Component.Component).
Context (Hbase : components (base_path fs) = Component.RootDir :: rest).
Local Abbreviation may g := (λ X e, fs_may fs opened X e g).
Local Abbreviation qmay g := (λ X e, quota_may fs opened X e g).

Lemma relative_idem path : relative_path fs (relative_path fs path) = relative_path fs path.
Proof.
  destruct (relative_path_names fs path) as [-> Hn]; [by rewrite Hbase |]. by apply (relative_path_fixed fs rest).
Qed.

Lemma shown_relative g path : shown (gr_shown g) path → shown_at fs g (relative_path fs path).
Proof. intros Hs. by exists path. Qed.
Lemma shown_relative2 g path : shown (gr_shown g) path → shown_at fs g (relative_path fs (relative_path fs path)).
Proof. rewrite relative_idem. apply shown_relative. Qed.
Lemma open_relative g path : opened path ∨ shown (gr_shown g) path → open_at fs opened g (relative_path fs path).
Proof. intros Hs. by exists path. Qed.
Lemma open_relative2 g path : opened path ∨ shown (gr_shown g) path → open_at fs opened g (relative_path fs (relative_path fs path)).
Proof. rewrite relative_idem. apply open_relative. Qed.
Lemma above_relative g path parent : shown (gr_shown g) path → path_parent (relative_path fs path) = Some parent →
  above_shown fs g (relative_path fs parent).
Proof. intros Hs Hp. by exists path, parent. Qed.
Hint Extern 1 (open_at _ _ _ _) => rewrite ?relative_idem; match goal with H : open_at _ _ _ ?p |- open_at _ _ _ ?p => exact H end : granted.
Hint Resolve shown_relative shown_relative2 open_relative open_relative2 above_relative : granted.
Hint Extern 1 (granted _ _ _ = true) => reflexivity : granted.
Hint Extern 1 (granted _ _ _ || granted _ _ _ = true) => reflexivity : granted.
Hint Extern 2 (shown _ _) => match goal with H : more_shown _ ?p |- shown ?p _ => apply H end : granted.

(** What the operations of the sandbox ask for. *)
Ltac sandboxed :=
  unfold async_metadata, async_symlink_metadata, metadata, symlink_metadata, async_canonicalize, async_read_link, async_read_to_vec,
    async_open, async_create_dir, async_create_dir_all, async_remove_dir_all, async_remove_file, async_rename, async_set_permissions,
    async_set_symlink_permissions, async_symlink, async_hard_link, async_chown_path, open_with, read_dir, open, create, async_on_dir, on_dir,
    into_std_permissions; cbv zeta; calls;
  cbn [gr_shown] in *; eauto 6 with granted.

Lemma read_to_vec_may g fuel file limit content : @all_calls FsE _ (may g) (read_to_vec_loop fuel file limit content).
Proof. revert content. induction fuel as [| fuel IH]; intros content; cbn [read_to_vec_loop]; [done |]. calls. Qed.
Hint Resolve read_to_vec_may : granted.

Lemma record_after_safe g path key before (Q : unit → Grants → Prop) :
  open_at fs opened g (relative_path fs path) →
  (∀ w, (gr_writable g = true → w = true) → Q tt (mk_Grants (gr_unlocked g) (gr_permissions g) w (gr_server_shown g) (gr_shown g))) →
  safe fs opened (record_after fs path key before) g Q.
Proof.
  intros Hpath HQ. unfold record_after. do 2 safe_step. safe_step. safe_step; [sandboxed |]. safe_step; [| by safe_step; apply HQ].
  safe_step; [| safe_step; by apply HQ]. do 3 safe_step. by apply HQ.
Qed.

Lemma close_safe g handle : safe fs opened (sftp_close fs handle) g (λ _ _, True).
Proof.
  unfold sftp_close. do 2 safe_step. do 2 safe_step. destruct (handles s !! handle) as [[h | h] |] eqn:Hh; [| by repeat safe_step ..].
  safe_step. safe_step; [apply record_after_safe; [by eapply open_relative, H |]; intros ? _ | safe_step]; by safe_step.
Qed.

(** A handler, and what is left of it. *)
Ltac safety := repeat safe_step; try lazymatch goal with |- all_calls _ _ => idtac | |- _ => done end; try lazymatch goal with |- @all_calls FsE _ _ _ => solve [sandboxed] end.

Lemma opendir_safe path : safe fs opened (opendir fs path) no_grants (λ _ _, True).
Proof. unfold opendir. safety. Qed.

Lemma realpath_safe path g : safe fs opened (realpath fs path) g (λ _ _, True).
Proof. unfold realpath. safety. Qed.

Lemma truncate_path_may g path : granted g [Permission.FileDelete] true = true → shown (gr_shown g) path →
  granted g [] true = true → all_calls (qmay g) (truncate_path fs path).
Proof.
  intros Hg Hs Hg'. unfold truncate_path. cbv zeta. apply all_calls_io_bind; [apply on_fs_may; sandboxed |]. intros metadata.
  destruct (raw_is_dir _); (apply all_calls_io_bind; [apply on_fs_may; sandboxed |]); intros _.
  - apply all_calls_io_bind; [by split |]. intros [removed |]; [| done]. by split.
  - destruct (path_parent _); [| done]. apply all_calls_io_bind; [| done]. split; [done |]. intros []; [| done]. by split.
Qed.

Lemma remove_safe filename : safe fs opened (remove fs filename) no_grants (λ _ _, True).
Proof.
  unfold remove, read_before_removal. safety. all: apply truncate_path_may; eauto with granted.
Qed.

Lemma rmdir_safe path : safe fs opened (rmdir fs path) no_grants (λ _ _, True).
Proof. unfold rmdir. safety. all: apply truncate_path_may; eauto with granted. Qed.

Lemma mkdir_safe path permissions : safe fs opened (mkdir fs user path permissions) no_grants (λ _ _, True).
Proof. unfold mkdir. safety. Qed.

Lemma allocate_may g path δ ignorant : granted g [] true = true → all_calls (qmay g) (allocate_in_path path δ ignorant).
Proof. intros Hg. split; [done |]. intros []; [| done]. by split. Qed.

Lemma allocate_iterator_may g path δ ignorant :
  granted g [] true = true → all_calls (qmay g) (allocate_in_path_iterator path δ ignorant).
Proof. intros Hg. split; [done |]. intros []; [| done]. by split. Qed.

Lemma attempt_may {A} g (m : Q A) : all_calls (qmay g) m → all_calls (qmay g) (attempt m).
Proof. intros Hm. by apply all_calls_bind. Qed.

Lemma rename_path_may g old_path new_path : granted g [Permission.FileUpdate] true = true → granted g [] true = true →
  shown (gr_shown g) old_path → shown (gr_shown g) new_path → all_calls (qmay g) (rename_path fs old_path new_path).
Proof.
  intros Hg Hg' Hold Hnew. unfold rename_path. cbv zeta.
  apply all_calls_io_bind; [destruct (path_parent _) as [parent |] eqn:Hparent; [apply on_fs_may; sandboxed | done] |]. intros _.
  apply all_calls_io_bind; [apply on_fs_may; sandboxed |]. intros old_metadata.
  apply all_calls_io_bind; [apply attempt_may, on_fs_may; sandboxed |]. intros new_metadata.
  assert (∀ path msg, all_calls (qmay g) (canonical_parent fs path msg)) as Hp.
  { intros path msg. unfold canonical_parent. destruct (path_parent path); [| done].
    unfold or_default. apply all_calls_io_bind; [apply attempt_may, on_fs_may; sandboxed | done]. }
  apply all_calls_io_bind; [apply Hp |]. intros old_parent. apply all_calls_io_bind; [apply Hp |]. intros new_parent.
  destruct (path_file_name _) as [name |]; [| done].
  apply all_calls_io_bind; [apply on_fs_may; sandboxed |]. intros _. unfold rename_accounting.
  destruct (raw_is_dir _).
  { apply all_calls_io_bind; [by split |]. intros [removed |]; [| done]. by split. }
  destruct new_metadata; (apply all_calls_io_bind; [by apply allocate_may |]; intros _);
    (apply all_calls_io_bind; [by apply allocate_may | done]).
Qed.

Lemma rename_and_record_safe g old_path new_path :
  granted g [Permission.FileUpdate] true = true → granted g [] true = true →
  shown (gr_shown g) old_path → shown (gr_shown g) new_path →
  safe fs opened (rename_and_record fs old_path new_path) g (λ _ _, True).
Proof.
  intros Hg Hg' Hold Hnew. unfold rename_and_record. cbv zeta. safe_step. safe_step; [by apply rename_path_may |].
  repeat safe_step. all: try done.
  all: try (apply record_after_safe; [eauto with granted | intros w _; by repeat safe_step]).
Qed.

Lemma rename_safe old_path new_path : safe fs opened (sftp_rename fs old_path new_path) no_grants (λ _ _, True).
Proof. unfold sftp_rename. safety. all: apply rename_and_record_safe; eauto with granted. Qed.

Lemma setstat_safe path permissions : safe fs opened (setstat fs path permissions) no_grants (λ _ _, True).
Proof. unfold setstat. safety. Qed.

Lemma fsetstat_safe handle permissions : safe fs opened (fsetstat fs handle permissions) no_grants (λ _ _, True).
Proof. unfold fsetstat, setstat. safety. Qed.

Lemma stat_safe path : safe fs opened (stat fs path) no_grants (λ _ _, True).
Proof. unfold stat. safety. Qed.

Lemma fstat_safe handle : safe fs opened (fstat fs handle) no_grants (λ _ _, True).
Proof. unfold fstat, stat. safety. Qed.

Lemma lstat_safe path : safe fs opened (lstat fs path) no_grants (λ _ _, True).
Proof. unfold lstat, link_target. safety. Qed.

Lemma readlink_safe path : safe fs opened (readlink fs path) no_grants (λ _ _, True).
Proof. unfold readlink, link_target. safety. Qed.

Lemma symlink_safe linkpath targetpath : safe fs opened (sftp_symlink fs user linkpath targetpath) no_grants (λ _ _, True).
Proof. unfold sftp_symlink, linkable. safety. Qed.

Lemma readdir_loop_safe fuel path dir : ∀ found consumed g, safe fs opened (readdir_loop fs fuel path dir found consumed) g (λ _ _, True).
Proof.
  revert dir. induction fuel as [| fuel IH]; intros dir found consumed g; cbn [readdir_loop].
  - unfold h_out_of_fuel. by repeat safe_step.
  - safe_step. safe_step.
    { destruct dir; cbn; split; try done; by intros [[] |]. }
    destruct r as [[[[[ft file] | err] |] dir'] | err]; try by safe_step.
    safe_step. safe_step; [sandboxed |]. destruct r as [metadata | err]; [| apply IH].
    do 3 safe_step; [apply IH |].
    assert (∀ target w g', safe fs opened (
      config ← hcall LoadConfig;
      if cfg_directory_entry_limit config <=? consumed +u 1 then mret (Ok (found ++ [convert_entry (path_join path file) metadata target]), consumed +u 1) else
      config ← hcall LoadConfig;
      if cfg_directory_entry_send_amount config <=? zlen (found ++ [convert_entry (path_join path file) metadata target])
      then mret (Ok (found ++ [convert_entry (path_join path file) metadata target]), consumed +u 1)
      else readdir_loop fs fuel path dir' (found ++ [convert_entry (path_join path file) metadata target]) (consumed +u 1)) (mk_Grants (gr_unlocked g') (gr_permissions g') w (gr_server_shown g') (gr_shown g')) (λ _ _, True)) as Hrest.
    { intros target w g'. repeat first [safe_step | apply IH]; done. }
    safe_step. destruct (md_is_symlink metadata).
    + safe_step. safe_step; [sandboxed |]. safe_step. eapply (Hrest _ _ (mk_Grants _ _ true _ _)).
    + safe_step. eapply (Hrest _ _ (mk_Grants _ _ true _ _)).
Qed.

Lemma readdir_safe fuel handle : safe fs opened (readdir fs fuel handle) no_grants (λ _ _, True).
Proof.
  unfold readdir. repeat safe_step; try done.
  all: eapply safe_mono; [apply readdir_loop_safe |]. all: intros [[] ?] ? _; by repeat safe_step.
Qed.

Lemma read_safe handle offset len : safe fs opened (sftp_read handle offset len) no_grants (λ _ _, True).
Proof. unfold sftp_read. safety. Qed.

Lemma write_safe handle offset data : safe fs opened (sftp_write handle offset data) no_grants (λ _ _, True).
Proof. unfold sftp_write, allocate_parent. safety. all: by apply allocate_iterator_may. Qed.

(** What a set of flags takes is found before the file is opened. *)
Lemma open_permissions_safe pflags g (Q : unit → Grants → Prop) :
  (∀ ps, (∀ p, p ∈ gr_permissions g → p ∈ ps) → (∀ p, p ∈ option_permissions (open_options pflags) → p ∈ ps) →
    (CREATE pflags = true → Permission.FileCreate ∈ ps) →
    Q tt (mk_Grants (gr_unlocked g) ps (gr_writable g) (gr_server_shown g) (gr_shown g))) →
  safe fs opened (open_permissions pflags) g Q.
Proof.
  intros HQ. destruct pflags as [[] [] [] [] [] []]; unfold open_permissions; cbn [READ WRITE APPEND CREATE TRUNCATE orb];
    repeat safe_step; (apply (HQ _) || (destruct g; apply HQ)); unfold option_permissions; cbn; set_solver.
Qed.
Lemma open_options_write pflags : option_writes (open_options pflags) = opens_for_writing pflags.
Proof. by destruct pflags as [[] [] [] [] [] []]. Qed.

Lemma granted_intro g permissions writes : gr_unlocked g = true → Permission.FileSftp ∈ gr_permissions g →
  (∀ p, p ∈ permissions → p ∈ gr_permissions g) → (writes = true → gr_writable g = true) → granted g permissions writes = true.
Proof.
  intros Hu Hsftp Hp Hw. unfold granted. rewrite Hu. cbn [andb]. apply andb_true_iff. split.
  - apply forallb_forall. intros p Hin. apply bool_decide_eq_true. destruct Hin as [<- | Hin]; [done |].
    by apply Hp, list_elem_of_In.
  - destruct writes; [by rewrite Hw | done].
Qed.

Lemma diff_before_safe path is_write pre_size g (Q : bool * option bytes → Grants → Prop) :
  open_at fs opened g (relative_path fs path) →
  (∀ a w, (gr_writable g = true → w = true) →
    Q a (mk_Grants (gr_unlocked g) (gr_permissions g) w (gr_server_shown g) (gr_shown g))) →
  safe fs opened (diff_before fs path is_write pre_size) g Q.
Proof.
  intros Hpath HQ. unfold diff_before. cbv zeta. do 2 safe_step. destruct (is_write && _ && _); [| safe_step; by apply HQ].
  safe_step. safe_step; [sandboxed |]. repeat safe_step; by apply HQ.
Qed.

Lemma activity_event_safe pflags g (Q : option ActivityEvent.ActivityEvent → Grants → Prop) :
  (∀ a w, (gr_writable g = true → w = true) →
    Q a (mk_Grants (gr_unlocked g) (gr_permissions g) w (gr_server_shown g) (gr_shown g))) →
  safe fs opened (activity_event pflags) g Q.
Proof.
  intros HQ. destruct g as [u ps w ss sh]. unfold activity_event. repeat safe_step; apply HQ; auto.
Qed.

(** Nothing is asked for twice: what [sftp_open] has found by the time it
    opens the file. *)
Lemma open_rest_safe path pflags g : gr_unlocked g = true → Permission.FileSftp ∈ gr_permissions g →
  (∀ p, p ∈ option_permissions (open_options pflags) → p ∈ gr_permissions g) →
  (CREATE pflags = true → Permission.FileCreate ∈ gr_permissions g) →
  (opens_for_writing pflags = true → gr_writable g = true) → shown (gr_shown g) path → ∀ pre_size event diff,
  safe fs opened (
    opened ← blocking (fsys (open_with fs path (open_options pflags)));
    opened ← or_fail StatusCode.Failure opened;
    file ← or_fail StatusCode.Failure opened;
    _ ← (if CREATE pflags then _ ← fsys (async_chown_path user fs path); mret tt else mret tt);
    let path_components := path_to_components fs path in
    _ ← match event with
        | Some event => hcall (LogActivity event (Logged.Files (relative_path fs path)))
        | None => mret tt
        end;
    _ ← (if TRUNCATE pflags then
           match pre_size, parent_components path_components with
           | Some old, Some parent_components =>
               if 0 <? old then _ ← files (allocate_in_path_iterator parent_components (as_i64 (- as_i64 old)) true); mret tt
               else mret tt
           | _, _ => mret tt
           end
         else mret tt);
    insert_handle (ServerHandle.File {|
      fh_path := path;
      fh_path_components := path_components;
      fh_file := file;
      fh_known_size := if TRUNCATE pflags then 0 else default 0 pre_size;
      fh_append := APPEND pflags;
      fh_diff_track := fst diff;
      fh_diff_before := snd diff;
      fh_diff_dirty := false;
    |})) g (λ _ _, True).
Proof.
  intros Hu Hsftp Hps Hcreate Hw Hs pre_size event diff.
  assert (granted g (option_permissions (open_options pflags)) (option_writes (open_options pflags)) = true) as Ho.
  { apply granted_intro; try done. by rewrite open_options_write. }
  assert (CREATE pflags = true → granted g [Permission.FileCreate] true = true) as Hc.
  { intros HC. apply granted_intro; try done; [set_solver |]. intros _. apply Hw. unfold opens_for_writing. rewrite HC. btauto. }
  assert (TRUNCATE pflags = true → granted g [] true = true) as Ht.
  { intros HT. apply granted_intro; try done; [set_solver |]. intros _. apply Hw. unfold opens_for_writing. rewrite HT. btauto. }
  clear Hu Hsftp Hps Hcreate Hw. destruct (CREATE pflags), (TRUNCATE pflags); cbv zeta; repeat safe_step.
  all: try (by apply allocate_iterator_may; auto).
  all: lazymatch goal with |- @all_calls FsE _ _ _ => solve [sandboxed] | |- _ => done end.
Qed.

Lemma open_safe filename pflags : safe fs opened (sftp_open fs user filename pflags) no_grants (λ _ _, True).
Proof.
  unfold sftp_open. do 5 safe_step. apply open_permissions_safe. intros ps Hold Hps Hcreate.
  cbn [gr_unlocked gr_permissions gr_writable gr_server_shown gr_shown] in *. safe_step. safe_step; [sandboxed |]. cbv zeta.
  set (path := match r with Ok path => path | Err _ => _ end). clearbody path. clear r.
  safe_step. safe_step; [sandboxed |]. safe_step.
  match goal with |- safe _ _ _ _ ?Q => assert (∀ pre_size, Q pre_size (mk_Grants true ps w [] [])) as Hrest end.
  2: { destruct r; do 3 safe_step; apply Hrest. }
  intros pre_size. clear r. do 3 safe_step.
  match goal with |- safe _ _ _ _ ?Q => assert (∀ w', (opens_for_writing pflags = true → w' = true) → Q tt (mk_Grants true ps w' server_shown paths)) as Hw end.
  2: { destruct (opens_for_writing pflags); safe_step; by apply Hw. }
  intros w' Hw'. clear H H0. safe_step. apply diff_before_safe; [eauto with granted |]. intros [track before] w2 Hw2.
  safe_step. apply activity_event_safe. intros event w3 Hw3. cbn [gr_unlocked gr_permissions gr_writable gr_server_shown gr_shown] in *.
  apply (open_rest_safe path pflags (mk_Grants true ps w3 server_shown paths)) with (diff := (track, before)); try done.
  - apply Hold. by left.
  - cbn. auto.
Qed.

Lemma hash_loop_may g fuel file length total hasher : all_calls (qmay g) (hash_loop fuel file length total hasher).
Proof.
  revert total hasher. induction fuel as [| fuel IH]; intros total hasher; cbn [hash_loop]; [by split |].
  apply all_calls_io_bind; [by split |]. intros buffer. cbv zeta. repeat case_match; done.
Qed.

Lemma quota_progress_may g progress parent n cached : granted g [] true = true →
  all_calls (qmay g) (quota_progress progress parent n cached).
Proof.
  intros Hg. unfold quota_progress. apply all_calls_io_bind; [by destruct progress |]. intros _. cbv zeta.
  destruct (_ <=? _); [| done]. apply all_calls_io_bind; [by apply allocate_may |]. by intros [].
Qed.

Lemma read_uninterrupted_may g fuel file n : all_calls (qmay g) (read_uninterrupted fuel file n).
Proof.
  induction fuel as [| fuel IH]; cbn [read_uninterrupted]; [by split |]. apply all_calls_io_bind; [by split |].
  by intros [d | []].
Qed.

Section copies.
Context (g : Grants) (Hg : granted g [] true = true) (Hcreate : granted g [Permission.FileCreate] true = true).
Context (Hcopy : granted g [Permission.FileCreate; Permission.FileReadContent] true = true).

Lemma copy_buffered_may progress parent reader writer fuel : ∀ total cached,
  all_calls (qmay g) (copy_buffered (quota_progress progress parent) reader writer fuel total cached).
Proof.
  induction fuel as [| fuel IH]; intros total cached; cbn [copy_buffered]; [by split |].
  apply all_calls_io_bind; [by split |]. intros []; [done |].
  apply all_calls_io_bind; [apply read_uninterrupted_may |]. intros buffer. destruct (_ =? 0); [done |].
  apply all_calls_io_bind; [unfold safe_write_all; destruct (_ <? _); by repeat split |]. intros _.
  apply all_calls_io_bind; [by apply quota_progress_may | intros p; apply IH].
Qed.

Lemma copy_file_progress_may progress parent reader writer fuel : ∀ total cached,
  all_calls (qmay g) (copy_file_progress (quota_progress progress parent) reader writer fuel total cached).
Proof.
  induction fuel as [| fuel IH]; intros total cached; cbn [copy_file_progress]; [by split |].
  apply all_calls_io_bind; [by split |]. intros []; [done |].
  apply all_calls_io_bind; [by split |]. intros [n | []]; [| apply IH | apply copy_buffered_may .. | done].
  destruct (n =? 0); [done |]. apply all_calls_io_bind; [by apply quota_progress_may | intros p; apply IH].
Qed.

Lemma quota_copy_may fuel path destination_path progress :
  shown (gr_shown g) path → shown (gr_shown g) destination_path →
  all_calls (qmay g) (async_quota_copy fuel fs path destination_path fs progress).
Proof.
  intros Hpath Hs. unfold async_quota_copy, quota_copy. cbv zeta. apply all_calls_io_bind; [by split |]. intros [err |]; [done |].
  destruct (path_parent _) as [parent |]; [| done].
  apply all_calls_io_bind; [apply attempt_may, on_fs_may; sandboxed |]. intros metadata.
  destruct (match metadata with Some m => _ | None => _ end); [done |].
  apply all_calls_io_bind; [apply on_fs_may; sandboxed |]. intros reader.
  apply all_calls_io_bind; [apply on_fs_may; sandboxed |]. intros writer.
  apply all_calls_io_bind; [destruct metadata; [by apply allocate_may | done] |]. intros _.
  apply all_calls_io_bind; [apply copy_file_progress_may |]. intros [n cached].
  destruct (0 <? cached); [| done]. apply all_calls_io_bind; [by apply allocate_may |]. by intros [].
Qed.
End copies.

Lemma put_names_safe ids : ∀ out g, safe fs opened (put_names ids out) g (λ _ _, True).
Proof. induction ids as [| id ids IH]; intros out g; cbn [put_names]; repeat first [apply IH | safe_step]; done. Qed.

Lemma parsed_safe {A} (de : bytes → option A) data g (Q : A → Grants → Prop) : (∀ a, Q a g) → safe fs opened (parsed de data) g Q.
Proof. intros HQ. unfold parsed. repeat safe_step. apply HQ. Qed.

Lemma reply_safe ser r g : safe fs opened (reply ser r) g (λ _ _, True).
Proof. unfold reply. by repeat safe_step. Qed.
Hint Resolve reply_safe : granted.

Lemma space_safe g (Q : Z * Z → Grants → Prop) : (∀ a, Q a g) → safe fs opened (space fs) g Q.
Proof. intros HQ. unfold space. repeat safe_step; apply HQ. Qed.

Lemma run_hash_may g fuel digest file length algorithm : all_calls (qmay g) (run_hash fuel digest file length algorithm).
Proof. unfold run_hash. destruct (digest _); [| done]. by apply all_calls_io_bind; [apply hash_loop_may |]. Qed.

(** The same for the extended requests. *)
Ltac extended :=
  repeat first
    [ safe_step
    | apply parsed_safe; intros ?
    | apply space_safe; intros ?
    | apply reply_safe ];
  try lazymatch goal with
  | |- all_calls _ _ => idtac
  | |- _ => done
  end;
  try lazymatch goal with
  | |- @all_calls FsE _ _ _ => solve [sandboxed]
  | |- @all_calls QuotaE _ _ (run_hash _ _ _ _ _) =>
      apply run_hash_may
  | |- @all_calls QuotaE _ _ (qask _) => by split
  | |- @all_calls QuotaE _ _ (async_quota_copy _ _ _ _ _ _) => apply quota_copy_may; try reflexivity; eauto with granted
  end.

Lemma extended_safe p command data :
  safe fs opened (handle_extended fs (pr_fuel p) (pr_fuel p) (pr_check_file p) (pr_copy_file p) (pr_two_names p) (pr_users_groups p)
    (pr_handle p) (pr_setstat p) (pr_ser p) (pr_digest p) command data) no_grants (λ _ _, True).
Proof.
  unfold handle_extended. do 2 safe_step.
  repeat match goal with |- safe _ _ (if ?b then _ else _) _ _ => destruct b end; try by safe_step.
  - unfold check_file. extended.
  - unfold check_file. extended.
  - unfold copy_file. extended.
  - unfold space_available. extended.
  - unfold limits. extended.
  - unfold statvfs. extended.
  - unfold statvfs. extended.
  - unfold hardlink, linkable. extended.
  - unfold fsync. extended.
  - unfold lsetstat. extended.
  - unfold users_groups_by_id. extended. all: eapply safe_mono; [apply put_names_safe |]; intros ? ? _; extended.
    all: eapply safe_mono; [apply put_names_safe |]; intros ? ? _; extended.
  - unfold posix_rename. extended. eapply safe_mono; [apply rename_and_record_safe; eauto with granted | intros; by safe_step].
Qed.

Lemma discard_safe {A} (m : H A) : safe fs opened m no_grants (λ _ _, True) → safe fs opened (discard_answer m) no_grants (λ _ _, True).
Proof. intros Hm. apply safe_bind. eapply safe_mono; [exact Hm |]. intros a g _. by apply safe_ret. Qed.
End requests.

(** ** Authorisation *)

Definition sample_user : UserConfig := mk_UserConfig false 1000 1000.
Definition sample_protocol : Protocol :=
  mk_Protocol (λ _, None) (λ _, None) (λ _, None) (λ _, None) (λ _, None) (λ _, None) (λ _, Some []) (λ _, None) 10.

(** C5. An SFTP client changes and opens only what it may.  Whatever a client asks
    for, in whatever state its session is, and however the server, the limiter,
    the settings and the operating system answer: before a request makes a call
    that creates, removes, renames, links, writes or changes the mode of a
    file, that lists a directory, that opens a file with the options of a client
    or that moves the counters of the server, the same request has found that the
    server is not locked, that the user may use SFTP and has the permissions
    this call takes (those of the options a file is opened with), and that the
    access is not read-only if the call changes anything.  The paths of these
    calls are ones that neither the server nor the user's own list hides, as the
    same request has found; there are two exceptions: the mode of a link may be
    changed for a path the session has open, and a rename creates the
    directories above such a path.  Files are opened to be read, for the history
    of edits, for a checksum or for a copy, only at such paths or at those the
    session has open.  A file the session has open after the request was open
    before at the same path, or its path was found not to be hidden. *)
Theorem sftp_requests_are_authorised (fs : CapFilesystem) (user : UserConfig) (rest : list Component.Component)
    (protocol : Protocol) (request : Request.Request) (session : SftpSession)
    (Hbase : components (base_path fs) = Component.RootDir :: rest) :
  wp (sftp_may fs (opened_in session)) (λ _ _ _ _, True) sftp_found (perform_request fs user protocol request session) no_grants
    (λ r g, ∀ key h, handles (snd r) !! key = Some (ServerHandle.File h) → opened_in session (fh_path h) ∨ shown (gr_shown g) (fh_path h)).
Proof.
  assert (safe fs (opened_in session) (perform_request fs user protocol request) no_grants (λ _ _, True)) as Hs.
  { destruct request; cbn [perform_request].
    - by eapply close_safe.
    - apply discard_safe. by eapply realpath_safe.
    - apply discard_safe. by eapply opendir_safe.
    - apply discard_safe. by eapply readdir_safe.
    - by eapply remove_safe.
    - by eapply rmdir_safe.
    - by eapply mkdir_safe.
    - by eapply rename_safe.
    - by eapply setstat_safe.
    - by eapply fsetstat_safe.
    - apply discard_safe. by eapply stat_safe.
    - apply discard_safe. by eapply fstat_safe.
    - apply discard_safe. by eapply lstat_safe.
    - apply discard_safe. by eapply readlink_safe.
    - by eapply symlink_safe.
    - apply discard_safe. by eapply open_safe.
    - apply discard_safe. by eapply read_safe.
    - by eapply write_safe.
    - apply discard_safe. by eapply extended_safe. }
  eapply wp_mono; [apply Hs; intros key h Hh; left; by exists key, h |]. by intros r g [H _].
Qed.

Lemma sftp_requests_are_authorised_witness :
  components (base_path sample_fs) = [Component.RootDir; Component.Normal [115; 114; 118]] ∧
  wp (sftp_may sample_fs (opened_in (mk_SftpSession 0 ∅))) (λ _ _ _ _, True) sftp_found
    (perform_request sample_fs sample_user sample_protocol (Request.Remove [47; 97]) (mk_SftpSession 0 ∅)) no_grants
    (λ r g, ∀ key h, handles (snd r) !! key = Some (ServerHandle.File h) →
      opened_in (mk_SftpSession 0 ∅) (fh_path h) ∨ shown (gr_shown g) (fh_path h)).
Proof.
  split; [vm_compute; reflexivity |].
  apply (sftp_requests_are_authorised sample_fs sample_user [Component.Normal [115; 114; 118]]). vm_compute. reflexivity.
Defined.
