(* ===== verification/SftpHandles.v ===== *)
(** * SftpHandles: the handles of SFTP sessions, and what is written through them (application/src/ssh/sftp)

    A session has as many handles as it holds guards of the limiter, no handle
    takes the place of another, and there are never more than the settings
    allow; what is written through a handle is charged by how far it goes past
    what is known to be there. *)
From S2P Require Import Prelude IoModel Paths Utf8 Properties Permissions Activity DiskUsage Effects CapFs CapWalk Quota.
From S2P Require Import ServerFile FsOps Entries VirtualFs Sftp SftpExtended SftpSafety.
Local Open Scope list_scope.
Local Open Scope Z_scope.

(** ** Names of handles *)

Lemma format_x_value n : 0 <= n → hex_digits 0 (format_x n) = Some n.
Proof.
  intros Hn. unfold format_x. pose proof (Z.log2_nonneg n). pose proof (Z.div_pos (Z.log2 n) 4 ltac:(lia) ltac:(lia)).
  rewrite hex_digits_hex; [by rewrite Z.mul_0_l |]. rewrite Z2Nat.id by lia. split; [done |].
  destruct (Z.eqb_spec n 0) as [-> | Hn0]; [done |].
  pose proof (Z.log2_spec n ltac:(lia)) as [_ Hlt]. eapply Z.lt_le_trans; [exact Hlt |].
  change 16 with (2 ^ 4). rewrite <- Z.pow_mul_r by lia. apply Z.pow_le_mono_r; [lia |].
  pose proof (Z.div_mod (Z.log2 n) 4 ltac:(lia)). pose proof (Z.mod_pos_bound (Z.log2 n) 4 ltac:(lia)). lia.
Qed.

Lemma format_x_inj a b : 0 <= a → 0 <= b → format_x a = format_x b → a = b.
Proof. intros Ha Hb He. apply format_x_value in Ha, Hb. rewrite He, Hb in Ha. by injection Ha. Qed.

(** ** Guards *)

(** The ghost state: the guards that are held, and how often one was asked for. *)
Record Guards : Type := mk_Guards { gd_held : Z; gd_asked : Z }.

Section guards.
(** The settings never allow more handles than [most]. *)
Context (most : Z).

(** Fewer than [2 ^ 64] handles are asked for in the life of a session. *)
Definition guards_ok (X : Type) (e : SftpE X) : X → Guards → Prop :=
  match e in SftpE X return X → Guards → Prop with
  | LoadConfig => λ x _, cfg_max_handles_per_channel x <= most
  | OpenGuard => λ _ g, gd_asked g < 2 ^ 64 - 1
  | _ => λ _ _, True
  end.
Definition guards_upd (X : Type) (e : SftpE X) : X → Guards → Guards :=
  match e in SftpE X return X → Guards → Guards with
  | OpenGuard => λ x g, mk_Guards (if x then gd_held g + 1 else gd_held g) (gd_asked g + 1)
  | DropGuard => λ _ g, mk_Guards (gd_held g - 1) (gd_asked g)
  | _ => λ _ g, g
  end.
Notation "'gwp'" := (wp (λ _ _ _, True) guards_ok guards_upd).

Definition handles_ok (s : SftpSession) (g : Guards) : Prop :=
  Z.of_nat (size (handles s)) = gd_held g ∧ gd_held g <= Z.max 0 most ∧ handle_id s = gd_asked g ∧ 0 <= gd_asked g < 2 ^ 64 ∧
  ∀ handle, is_Some (handles s !! handle) → ∃ i, 0 <= i < handle_id s ∧ handle = format_x i.

Definition hwp {A} (m : H A) (s : SftpSession) (g : Guards) (Φ : result Code A → SftpSession → Guards → Prop) : Prop :=
  gwp (m s) g (λ r g, Φ (fst r) (snd r) g).
(** A handler that leaves the session and the guards alone. *)
Definition untouched {A} (m : H A) : Prop := ∀ s g, hwp m s g (λ _ s' g', s' = s ∧ g' = g).
(** A handler that keeps the handles in order. *)
Definition keeps_handles {A} (m : H A) : Prop := ∀ s g, handles_ok s g → hwp m s g (λ _ s g, handles_ok s g).

Lemma hwp_mono {A} (m : H A) s g (Φ Ψ : result Code A → SftpSession → Guards → Prop) :
  hwp m s g Φ → (∀ r s g, Φ r s g → Ψ r s g) → hwp m s g Ψ.
Proof. intros Hm HΦ. eapply wp_mono; [exact Hm |]. intros r g'. apply HΦ. Qed.

Lemma hwp_bind {A B} (m : H A) (f : A → H B) s g Φ :
  hwp m s g (λ r s g, match r with Ok a => hwp (f a) s g Φ | Err e => Φ (Err e) s g end) → hwp (mbind (M := H) f m) s g Φ.
Proof. intros Hm. apply wp_bind. eapply wp_mono; [exact Hm |]. by intros [[a | e] s'] g'. Qed.

Lemma hwp_call {A} (e : SftpE A) s g (Φ : result Code A → SftpSession → Guards → Prop) :
  (∀ x, guards_ok _ e x g → Φ (Ok x) s (guards_upd _ e x g)) → hwp (hcall e) s g Φ.
Proof. intros HΦ. split; [done |]. intros x Hx. by apply HΦ. Qed.

Lemma hwp_get s g (Φ : result Code SftpSession → SftpSession → Guards → Prop) : Φ (Ok s) s g → hwp hget s g Φ.
Proof. done. Qed.

Lemma hwp_modify f s g (Φ : result Code unit → SftpSession → Guards → Prop) : Φ (Ok tt) (f s) g → hwp (hmodify f) s g Φ.
Proof. done. Qed.

Lemma untouched_bind {A B} (m : H A) (f : A → H B) : untouched m → (∀ a, untouched (f a)) → untouched (mbind (M := H) f m).
Proof.
  intros Hm Hf s g. apply hwp_bind. eapply hwp_mono; [apply Hm |]. intros [a | e] s' g' [-> ->]; [apply Hf | done].
Qed.

Lemma untouched_hwp {A B} (m : H A) (f : A → H B) s g (Φ : result Code B → SftpSession → Guards → Prop) :
  untouched m → (∀ e, Φ (Err e) s g) → (∀ a, hwp (f a) s g Φ) → hwp (mbind (M := H) f m) s g Φ.
Proof.
  intros Hm He Hf. apply hwp_bind. eapply hwp_mono; [apply Hm |]. intros [a | e] s' g' [-> ->]; [apply Hf | apply He].
Qed.

Lemma untouched_ret {A} (a : A) : untouched (mret a).
Proof. by intros s g. Qed.
Lemma untouched_throw {A} code : untouched (hthrow (A := A) code).
Proof. by intros s g. Qed.
Lemma untouched_get : untouched hget.
Proof. by intros s g. Qed.
Lemma untouched_call {A} (e : SftpE A) : (∀ x g, guards_upd _ e x g = g) → untouched (hcall e).
Proof. intros He s g. split; [done |]. intros x _. cbn. by rewrite He. Qed.
Lemma untouched_files {A} (m : Q A) : untouched (files m).
Proof.
  intros s g. unfold files. apply wp_bind. induction m as [a | X e k IH]; cbn; [done |]. split; [done |]. intros x _. apply IH.
Qed.
Lemma untouched_blocking {A} (m : H A) : untouched m → untouched (blocking m).
Proof.
  intros Hm. apply untouched_bind; [by apply untouched_call |]. intros [err |]; [apply untouched_ret |].
  apply untouched_bind; [done |]. intros a. apply untouched_ret.
Qed.
Lemma untouched_keeps {A} (m : H A) : untouched m → keeps_handles m.
Proof. intros Hm s g Hs. eapply hwp_mono; [apply Hm |]. by intros r s' g' [-> ->]. Qed.

Lemma keeps_handles_bind {A B} (m : H A) (f : A → H B) :
  keeps_handles m → (∀ a, keeps_handles (f a)) → keeps_handles (mbind (M := H) f m).
Proof. intros Hm Hf s g Hs. apply hwp_bind. eapply hwp_mono; [by apply Hm |]. intros [a | e] s' g' Hs'; [by apply Hf | done]. Qed.
End guards.

(** Takes a handler apart that does not touch the session. *)
Ltac untouched :=
  repeat lazymatch goal with
  | |- untouched _ (mbind _ _) => apply untouched_bind; [| intros ?]
  | |- untouched _ (mret _) => apply untouched_ret
  | |- untouched _ (hthrow _) => apply untouched_throw
  | |- untouched _ hget => apply untouched_get
  | |- untouched _ (hcall _) => by apply untouched_call
  | |- untouched _ (files _) => apply untouched_files
  | |- untouched _ (fsys _) => apply untouched_files
  | |- untouched _ (blocking _) => apply untouched_blocking
  | |- untouched _ (ensure ?b _) => unfold ensure; destruct b
  | |- untouched _ (or_fail _ ?r) => unfold or_fail; destruct r
  | |- untouched _ allowed => unfold allowed, allow_action
  | |- untouched _ (permitted _) => unfold permitted, has_permission
  | |- untouched _ not_read_only => unfold not_read_only
  | |- untouched _ handle_left => unfold handle_left
  | |- untouched _ (not_ignored _ _ _) => unfold not_ignored
  | |- untouched _ (is_ignored _ _) => unfold is_ignored
  | |- untouched _ (get_file _) => unfold get_file
  | |- untouched _ (get_dir _) => unfold get_dir
  | |- untouched _ (record_after _ _ _ _) => unfold record_after
  | |- untouched _ (rename_and_record _ _ _) => unfold rename_and_record
  | |- untouched _ (link_target _ _ _) => unfold link_target
  | |- untouched _ (linkable _ _ _) => unfold linkable
  | |- untouched _ (diff_before _ _ _ _) => unfold diff_before
  | |- untouched _ (activity_event _) => unfold activity_event
  | |- untouched _ (open_permissions _) => unfold open_permissions
  | |- untouched _ (allocate_parent _ _ _) => unfold allocate_parent
  | |- untouched _ (read_before_removal _ _ _) => unfold read_before_removal
  | |- untouched _ (setstat _ _ _) => unfold setstat
  | |- untouched _ (stat _ _) => unfold stat
  | |- untouched _ (parsed _ _) => unfold parsed
  | |- untouched _ (reply _ _) => unfold reply
  | |- untouched _ (space _) => unfold space
  | |- untouched _ (discard_answer _) => unfold discard_answer
  | |- untouched _ (h_out_of_fuel _) => unfold h_out_of_fuel
  | |- untouched _ (match ?x with _ => _ end) => destruct x
  | |- untouched _ (let _ := _ in _) => cbv zeta
  end.

Section handlers.
Context (most : Z) (fs : CapFilesystem) (user : UserConfig).

Lemma reinsert_ok s g handle h : handles_ok most s g → is_Some (handles s !! handle) →
  handles_ok most (set_handles (<[handle := h]> (handles s)) s) g.
Proof.
  intros (Hsize & Hmost & Hid & Hasked & Hkeys) Hin. unfold handles_ok. cbn [handles handle_id set_handles].
  rewrite (map_size_insert_Some (M := gmap bytes)) by done. do 4 (split; [done |]).
  intros k Hk. destruct (decide (k = handle)) as [-> | Hne]; [by apply Hkeys |].
  rewrite lookup_insert_ne in Hk by done. by apply Hkeys.
Qed.

Lemma insert_handle_ok h s g : handles_ok most s g → Z.of_nat (size (handles s)) < most →
  hwp most (insert_handle h) s g (λ _ s g, handles_ok most s g).
Proof.
  intros (Hsize & Hmost & Hid & Hasked & Hkeys) Hlt. unfold insert_handle, next_handle_id. cbn. split; [done |].
  intros b Hb. cbn in Hb. rewrite u64_add_small by (unfold in_u64; lia).
  assert (handles s !! format_x (handle_id s) = None) as Hnew.
  { destruct (handles s !! _) eqn:Hl; [| done]. destruct (Hkeys (format_x (handle_id s))) as (i & Hi & He); [by eexists |].
    apply format_x_inj in He; lia. }
  assert (∀ handle, is_Some (handles s !! handle) → ∃ i, 0 <= i < handle_id s + 1 ∧ handle = format_x i) as Hkeys'.
  { intros handle Hin. destruct (Hkeys handle Hin) as (i & ? & ->). exists i. split; [lia | done]. }
  destruct b;
    [change (handles_ok most (mk_SftpSession (handle_id s + 1) (<[format_x (handle_id s) := h]> (handles s))) (mk_Guards (gd_held g + 1) (gd_asked g + 1)))
    |change (handles_ok most (mk_SftpSession (handle_id s + 1) (handles s)) (mk_Guards (gd_held g) (gd_asked g + 1)))];
    unfold handles_ok; cbn [handles handle_id gd_held gd_asked].
  - rewrite (map_size_insert_None (M := gmap bytes)) by done. split; [lia |]. split; [lia |]. split; [lia |]. split; [lia |].
    intros handle Hin. destruct (decide (handle = format_x (handle_id s))) as [-> | Hne].
    + exists (handle_id s). split; [lia | done].
    + rewrite lookup_insert_ne in Hin by done. by apply Hkeys'.
  - repeat split; try lia. done.
Qed.

(** Steps that leave the session alone. *)
Ltac skip := apply untouched_hwp; [solve [untouched] | done || (intros; assumption) | intros ?].

Ltac hret := lazymatch goal with |- hwp _ (mret ?a) ?s ?g ?Φ => change (Φ (Ok a) s g); cbv beta iota end.

Lemma files_ok {A} (m : Q A) s g : hwp most (files m) s g (λ r s' g', (∃ a, r = Ok a) ∧ s' = s ∧ g' = g).
Proof.
  unfold hwp, files. apply wp_bind. induction m as [a | X e k IH]; cbn; [by repeat split; eexists |]. split; [done |].
  intros x _. apply IH.
Qed.

Lemma handle_left_ok {B} s g (f : unit → H B) (Φ : result Code B → SftpSession → Guards → Prop) :
  (∀ e, Φ (Err e) s g) → (Z.of_nat (size (handles s)) < most → hwp most (f tt) s g Φ) → hwp most (mbind (M := H) f handle_left) s g Φ.
Proof.
  intros He Hf. apply hwp_bind, hwp_bind, hwp_get, hwp_bind, hwp_call. intros config Hc. cbn in Hc.
  unfold ensure. destruct (Z.ltb_spec (Z.of_nat (size (handles s))) (cfg_max_handles_per_channel config)); [apply Hf; lia | apply He].
Qed.

Lemma opendir_keeps path : keeps_handles most (opendir fs path).
Proof.
  intros s g Hs. unfold opendir. skip. apply handle_left_ok; [done |]. intros Hlt. do 5 skip.
  destruct a4 as [[dir | err] | err]; [by apply insert_handle_ok | done..].
Qed.

Lemma open_keeps filename pflags : keeps_handles most (sftp_open fs user filename pflags).
Proof.
  intros s g Hs. unfold sftp_open. skip. apply handle_left_ok; [done |]. intros Hlt. do 3 skip. cbv zeta. do 4 skip. lazymatch goal with x : (bool * option bytes)%type |- _ => destruct x end. do 7 skip. by apply insert_handle_ok.
Qed.

Lemma readdir_loop_untouched fuel path : ∀ dir found consumed, untouched most (readdir_loop fs fuel path dir found consumed).
Proof.
  induction fuel as [| fuel IH]; intros dir found consumed; cbn [readdir_loop]; [solve [untouched] |].
  cbv zeta. untouched; apply IH.
Qed.

Lemma readdir_keeps fuel handle : keeps_handles most (readdir fs fuel handle).
Proof.
  intros s g Hs. unfold readdir. skip. unfold get_dir. apply hwp_bind, hwp_bind, hwp_get.
  destruct (handles s !! handle) as [[h | h] |] eqn:Hl; [done | | done]. hret.
  skip. destruct (_ <=? _); [done |].
  apply untouched_hwp; [apply untouched_blocking, readdir_loop_untouched | done |]. intros [[answer consumed] | err]; [| done].
  apply hwp_bind, hwp_modify. assert (handles_ok most (set_handles (<[handle := ServerHandle.Dir (mk_DirHandle (dh_path h) (dh_dir h) consumed)]> (handles s)) s) g)
    as Hs' by (by apply reinsert_ok). by destruct answer.
Qed.

Lemma write_keeps handle offset data : keeps_handles most (sftp_write handle offset data).
Proof.
  intros s g Hs. unfold sftp_write. skip. unfold get_file. apply hwp_bind, hwp_bind, hwp_get.
  destruct (handles s !! handle) as [[h | h] |] eqn:Hl; [| done..]. hret.
  skip. cbv zeta. do 3 skip. destruct a3 as [[[] | err] | err]; [| by skip..]. by apply hwp_modify, reinsert_ok.
Qed.

Lemma record_after_ok path key before s g :
  hwp most (record_after fs path key before) s g (λ r s' g', r = Ok tt ∧ s' = s ∧ g' = g).
Proof.
  unfold record_after. apply hwp_bind, hwp_call. intros config _. apply hwp_bind.
  eapply hwp_mono; [apply files_ok |]. intros r s' g' ([after ->] & -> & ->). destruct after as [after | err]; [| done].
  destruct (_ <=? _); [| done]. apply hwp_bind, hwp_call. by intros r _.
Qed.

Lemma close_keeps handle : keeps_handles most (sftp_close fs handle).
Proof.
  intros s g Hs. unfold sftp_close. apply hwp_bind, hwp_get, hwp_bind, hwp_modify.
  destruct Hs as (Hsize & Hmost & Hid & Hasked & Hkeys).
  assert (∀ h, handles s !! handle = Some h →
    handles_ok most (set_handles (delete handle (handles s)) s) (mk_Guards (gd_held g - 1) (gd_asked g))) as Hd.
  { intros h Hl. unfold handles_ok. cbn [handles handle_id set_handles gd_held gd_asked].
    pose proof (map_size_delete_Some (M := gmap bytes) handle (handles s) ltac:(by eexists)) as Hsz.
    pose proof (map_size_ne_0_lookup_2 (M := gmap bytes) (handles s) handle ltac:(by eexists)).
    split; [lia |]. split; [lia |]. do 2 (split; [done |]). intros k Hk. apply Hkeys.
    destruct (decide (k = handle)) as [-> | Hne]; [by rewrite lookup_delete_eq in Hk; destruct Hk |]. by rewrite lookup_delete_ne in Hk. }
  destruct (handles s !! handle) as [[h | h] |] eqn:Hl.
  - apply hwp_bind. destruct (_ && _).
    + eapply hwp_mono; [apply record_after_ok |]. intros r s' g' (-> & -> & ->). apply hwp_call. intros x _. by eapply Hd.
    + hret. apply hwp_call. intros x _. by eapply Hd.
  - apply hwp_call. intros x _. by eapply Hd.
  - unfold hwp. cbn. unfold handles_ok. cbn [handles handle_id set_handles]. by rewrite delete_id.
Qed.

Lemma put_names_untouched ids : ∀ out, untouched most (put_names ids out).
Proof. induction ids as [| id ids IH]; intros out; cbn [put_names]; untouched; apply IH. Qed.

Lemma extended_untouched copy_fuel hash_fuel de_check_file de_copy_file de_two_names de_users_groups de_handle de_setstat ser digest
    command data :
  untouched most (handle_extended fs copy_fuel hash_fuel de_check_file de_copy_file de_two_names de_users_groups de_handle de_setstat ser
    digest command data).
Proof.
  unfold handle_extended. apply untouched_bind; [solve [untouched] |]. intros _.
  repeat lazymatch goal with |- untouched _ (if ?b then _ else _) => destruct b end.
  all: unfold check_file, copy_file, space_available, limits, statvfs, hardlink, fsync, lsetstat, users_groups_by_id, posix_rename.
  all: untouched; apply put_names_untouched.
Qed.

Lemma perform_keeps protocol request : keeps_handles most (perform_request fs user protocol request).
Proof.
  assert (∀ A (m : H A), keeps_handles most m → keeps_handles most (discard_answer m)) as Hd.
  { intros A m Hm. apply keeps_handles_bind; [done |]. intros _. apply untouched_keeps. untouched. }
  destruct request; cbn [perform_request]; try apply Hd;
    [apply close_keeps | | apply opendir_keeps | apply readdir_keeps | .. | apply open_keeps | | apply write_keeps |
     apply untouched_keeps, extended_untouched]; apply untouched_keeps;
    unfold realpath, remove, rmdir, mkdir, sftp_rename, setstat, fsetstat, stat, fstat, lstat, readlink, sftp_symlink, sftp_read;
    untouched.
Qed.

(** A client goes on after errors. *)
Fixpoint run_session (protocol : Protocol) (requests : list Request.Request) (s : SftpSession) : prog SftpE SftpSession :=
  match requests with
  | [] => Done s
  | request :: requests =>
      prog_bind _ _ (λ r, run_session protocol requests (snd r)) (perform_request fs user protocol request s)
  end.
End handlers.

(** C6. The handles of a session are the guards it holds.  After any requests of
    a client, however they are answered, as long as the settings never allow more
    than [most] handles and fewer than [2 ^ 64] are asked for: the session has
    exactly as many handles as the limiter has given it guards that were not
    given back, so that no handle replaces one that is still open and no guard is
    lost on any path, errors included; and there are at most [most]. *)
Theorem session_handles_hold_guards (most : Z) (fs : CapFilesystem) (user : UserConfig) (protocol : Protocol)
    (requests : list Request.Request) :
  wp (λ _ _ _, True) (guards_ok most) guards_upd (run_session fs user protocol requests (mk_SftpSession 0 ∅)) (mk_Guards 0 0)
    (λ s g, Z.of_nat (size (handles s)) = gd_held g ∧ gd_held g <= Z.max 0 most).
Proof.
  assert (∀ s g, handles_ok most s g →
    wp (λ _ _ _, True) (guards_ok most) guards_upd (run_session fs user protocol requests s) g (handles_ok most)) as Hrun.
  { induction requests as [| request requests IH]; intros s g Hs; cbn [run_session]; [done |].
    apply wp_bind. eapply wp_mono; [by apply perform_keeps |]. intros [r s'] g' Hs'. by apply IH. }
  eapply wp_mono; [apply Hrun |].
  - unfold handles_ok. cbn. repeat split; try lia. intros handle [h Hh]. by rewrite lookup_empty in Hh.
  - by intros s g (? & ? & _).
Qed.

(** ** What writes are charged *)

(** The ghost state: what the counters were charged, the highest end of a write
    that was done, and how much the writes that were done hold. *)
Record Writes : Type := mk_Writes { wt_charged : Z; wt_highest : Z; wt_written : Z }.

(** A request that does not look at the limit is granted. *)
Definition writes_ok (X : Type) (e : SftpE X) : X → Writes → Prop :=
  match e in SftpE X return X → Writes → Prop with
  | OnFiles e =>
      match e in QuotaE X return X → Writes → Prop with
      | UpdateAtomics _ ignorant => λ x _, ignorant = true → x = true
      | _ => λ _ _, True
      end
  | _ => λ _ _, True
  end.
Definition writes_upd (X : Type) (e : SftpE X) : X → Writes → Writes :=
  match e in SftpE X return X → Writes → Writes with
  | OnFiles e =>
      match e in QuotaE X return X → Writes → Writes with
      | UpdateAtomics δ _ => λ x g, if x then mk_Writes (wt_charged g + sd_logical δ) (wt_highest g) (wt_written g) else g
      | _ => λ _ g, g
      end
  | WriteAllAt _ offset data => λ x g,
      match x with
      | Ok _ => mk_Writes (wt_charged g) (Z.max (wt_highest g) (offset + zlen data)) (wt_written g + zlen data)
      | Err _ => g
      end
  | _ => λ _ g, g
  end.
Notation "'swp'" := (wp (λ _ _ _, True) writes_ok writes_upd).

Section writes.
Context (handle : bytes) (size0 : Z) (append : bool).

(** The handle is open, and charged for what went past [size0]; a file that is
    appended to, for all that was written. *)
Definition written_ok (s : SftpSession) (g : Writes) : Prop :=
  ∃ h, handles s !! handle = Some (ServerHandle.File h) ∧ fh_append h = append ∧
    if append then wt_charged g = wt_written g
    else 0 <= fh_known_size h < 2 ^ 63 ∧ fh_known_size h = Z.max size0 (wt_highest g) ∧ wt_charged g = fh_known_size h - size0.

(** Steps that neither charge nor write, and leave the session alone. *)
Definition chargeless {A} (m : H A) (P : A → Prop) : Prop :=
  ∀ s g, swp (m s) g (λ r g', snd r = s ∧ g' = g ∧ match fst r with Ok a => P a | Err _ => True end).

Lemma chargeless_bind {A B} (m : H A) P (f : A → H B) s g Φ :
  chargeless m P → (∀ code, Φ (Err code, s) g) → (∀ a, P a → swp (f a s) g Φ) → swp (mbind (M := H) f m s) g Φ.
Proof.
  intros Hm He Hf. apply wp_bind. eapply wp_mono; [apply Hm |]. intros [[a | code] s'] g' H; cbn in H;
    destruct H as (-> & -> & Ha); [by apply Hf | apply He].
Qed.

Lemma allowed_chargeless : chargeless allowed (λ _, True).
Proof.
  intros s g. split; [done |]. intros []; cbn; [done |]. split; [done |]. by intros [].
Qed.

Lemma get_file_chargeless s h g (f : FileHandle → H unit) Φ :
  handles s !! handle = Some (ServerHandle.File h) → swp (f h s) g Φ → swp (mbind (M := H) f (get_file handle) s) g Φ.
Proof. intros Hl Hf. apply wp_bind, wp_bind. cbn [hget wp]. by rewrite Hl. Qed.

Lemma not_read_only_chargeless : chargeless not_read_only (λ _, True).
Proof. intros s g. split; [done |]. intros config _. cbn. by destruct (cfg_read_only config). Qed.

Lemma allocate_parent_wp h parent δ ignorant s g Φ :
  parent_components (fh_path_components h) = Some parent →
  Φ (Ok (Ok true), s) (mk_Writes (wt_charged g + δ) (wt_highest g) (wt_written g)) →
  (ignorant = false → Φ (Ok (Ok false), s) g) → swp (allocate_parent h δ ignorant s) g Φ.
Proof.
  intros Hp Ht Hf. unfold allocate_parent. rewrite Hp.
  cbn. split; [done |]. intros [] Hx; cbn; [split; [done |]; intros [] _; exact Ht |].
  apply Hf. cbn in Hx. destruct ignorant; [by specialize (Hx eq_refl) | done].
Qed.

(** One write. *)
Lemma write_written offset data s g :
  written_ok s g → 0 <= offset → offset + zlen data < 2 ^ 63 →
  swp (sftp_write handle offset data s) g (λ r g, written_ok (snd r) g).
Proof.
  intros Hs Ho Hend. pose proof (zlen_nonneg data) as Hlen. pose proof Hs as (h & Hl & Ha & Hc). unfold sftp_write.
  eapply chargeless_bind; [apply allowed_chargeless | done |]. intros _ _.
  eapply get_file_chargeless; [exact Hl |].
  eapply chargeless_bind; [apply not_read_only_chargeless | done |]. intros _ _. cbv zeta.
  set (δ := write_delta h offset data).
  assert (0 <= δ < 2 ^ 63 ∧ δ = if append then zlen data else Z.max 0 (offset + zlen data - fh_known_size h)) as [Hδ Hδ'].
  { unfold δ, write_delta. rewrite Ha. destruct append.
    - rewrite as_i64_id by (unfold in_i64; lia). lia.
    - unfold saturating_add, saturating_sub, U64_MAX. rewrite as_i64_id by (unfold in_i64; lia). lia. }
  destruct (parent_components (fh_path_components h)) as [parent |] eqn:Hp.
  2: { apply wp_bind. unfold allocate_parent. by rewrite Hp. }
  assert (swp ((_ ← allocate_parent h (as_i64 (- δ)) true; hthrow StatusCode.Failure : H unit) s)
    (mk_Writes (wt_charged g + δ) (wt_highest g) (wt_written g)) (λ r g, written_ok (snd r) g)) as Hfail.
  { apply wp_bind. eapply allocate_parent_wp; [done | | done]. cbn [wt_charged wt_highest wt_written].
    rewrite as_i64_id by (unfold in_i64; lia). exists h. cbn. split; [done |]. split; [done |]. destruct append; cbn; lia. }
  apply wp_bind. eapply allocate_parent_wp; [done | | done]. cbn [wt_charged wt_highest wt_written].
  apply wp_bind. cbn [ensure wp mret H_ret]. apply wp_bind, wp_bind. split; [done |].
  intros [err |] _; [exact Hfail |]. apply wp_bind. split; [done |]. intros [[] | err] _; [| exact Hfail].
  exists (written h offset data). split; [apply (lookup_insert_eq (M := gmap bytes)) |]. split; [done |].
  destruct append; cbn; [lia |]. rewrite Ha. unfold saturating_add, U64_MAX. lia.
Qed.

(** A client writes, whatever it is answered. *)
Fixpoint run_writes (writes : list (Z * bytes)) (s : SftpSession) : prog SftpE SftpSession :=
  match writes with
  | [] => Done s
  | (offset, data) :: writes => prog_bind _ _ (λ r, run_writes writes (snd r)) (sftp_write handle offset data s)
  end.
End writes.

(** C7. A file is charged for what writes add to it.  Through a handle that knows
    [size0] bytes to be there a client writes any pieces at any offsets, in any
    order, with holes and on top of each other, below [2 ^ 63]; the server may be
    locked in between, space may be refused, writes may fail.  In the end the
    quota was charged by exactly as much as the highest end of a write that was
    done lies past [size0], and the handle knows that much to be there; a handle
    that appends is charged for all that was written. *)
Theorem sftp_writes_charge (handle : bytes) (h : FileHandle) (s : SftpSession) (writes : list (Z * bytes))
    (Hopen : handles s !! handle = Some (ServerHandle.File h)) (Hknown : 0 <= fh_known_size h < 2 ^ 63)
    (Hwrites : Forall (λ w, 0 <= fst w ∧ fst w + zlen (snd w) < 2 ^ 63) writes) :
  swp (run_writes handle writes s) (mk_Writes 0 0 0) (λ s g,
    ∃ h', handles s !! handle = Some (ServerHandle.File h') ∧
      if fh_append h then wt_charged g = wt_written g
      else fh_known_size h' = Z.max (fh_known_size h) (wt_highest g) ∧ wt_charged g = fh_known_size h' - fh_known_size h).
Proof.
  assert (∀ s g, written_ok handle (fh_known_size h) (fh_append h) s g →
    swp (run_writes handle writes s) g (λ s g, written_ok handle (fh_known_size h) (fh_append h) s g)) as Hrun.
  { induction Hwrites as [| [offset data] writes [? ?] _ IH]; intros s' g Hs; [done |]. cbn [run_writes].
    apply wp_bind. eapply wp_mono; [by apply write_written |]. intros [r s''] g' Hs'. by apply IH. }
  eapply wp_mono; [apply Hrun |].
  - exists h. split; [done |]. split; [done |]. cbn. destruct (fh_append h); lia.
  - intros s' g (h' & Hl & _ & Hc). exists h'. split; [done |]. destruct (fh_append h); tauto.
Qed.

Definition sample_handle : FileHandle := mk_FileHandle [97] [[97]] 7 0 false false None false.
Definition sample_session : SftpSession := mk_SftpSession 1 {[ [48] := ServerHandle.File sample_handle ]}.
Lemma sftp_writes_charge_witness :
  swp (run_writes [48] [(10, [1; 2; 3]); (0, [4])] sample_session) (mk_Writes 0 0 0) (λ s g,
    ∃ h', handles s !! [48] = Some (ServerHandle.File h') ∧
      fh_known_size h' = Z.max 0 (wt_highest g) ∧ wt_charged g = fh_known_size h' - 0).
Proof.
  apply (sftp_writes_charge [48] sample_handle sample_session [(10, [1; 2; 3]); (0, [4])]).
  - vm_compute. reflexivity.
  - vm_compute. split; [discriminate | reflexivity].
  - repeat constructor; vm_compute; discriminate.
Defined.
