(* ===== verification/SftpData.v ===== *)
(** * SftpData: what SFTP clients are told (application/src/ssh/sftp)

    A directory is listed entry by entry, in pieces, up to a limit; the checksum
    of a part of a file is that of its bytes.  Where the answers, or what a
    request leaves behind, are not what they should be is shown as well. *)
From S2P Require Import Prelude IoModel Paths Utf8 Properties Permissions Activity DiskUsage Effects CapFs CapWalk Quota.
From S2P Require Import ServerFile FsOps Entries VirtualFs Sftp SftpExtended SftpSafety SftpHandles.
Local Open Scope list_scope.
Local Open Scope Z_scope.

(** ** Checksums *)

Section checksums.
(** Whether reads may fail. *)
Context (failing : bool).

(** The ghost state is what is left of the file: a read takes bytes off its
    front, and none only at its end. *)
Definition left_ok (X : Type) (e : QuotaE X) : X → bytes → Prop :=
  match e in QuotaE X return X → bytes → Prop with
  | OnFs e =>
      match e in FsE X return X → bytes → Prop with
      | FileRead _ n => λ x left, match x with Ok d => zlen d <= n ∧ d = ztake (zlen d) left ∧ (d = [] → left = []) | Err _ => failing = true end
      | _ => λ _ _, True
      end
  | _ => λ _ _, True
  end.
Definition left_upd (X : Type) (e : QuotaE X) : X → bytes → bytes :=
  match e in QuotaE X return X → bytes → bytes with
  | OnFs e =>
      match e in FsE X return X → bytes → bytes with
      | FileRead _ n => λ x left, match x with Ok d => zdrop (zlen d) left | Err _ => left end
      | _ => λ _ left, left
      end
  | _ => λ _ left, left
  end.
Definition in_fuel (X : Type) (e : QuotaE X) (_ : bytes) : Prop := match e with OutOfFuel => False | _ => True end.
Notation "'rwp'" := (wp in_fuel left_ok left_upd).

(** The part of a file a checksum is of: all for a length of zero. *)
Definition hashed_part (length : Z) (content : bytes) : bytes := if length =? 0 then content else ztake length content.

Lemma hash_loop_wp fuel file length : ∀ total hasher left,
  0 <= length -> 0 <= total → total + zlen left < 2 ^ 64 → (length = 0 ∨ total < length) → zlen left < Z.of_nat fuel →
  rwp (hash_loop fuel file length total hasher) left (λ r _,
    match r with
    | Ok hashed => hashed = hasher ++ (if length =? 0 then left else ztake (length - total) left)
    | Err _ => failing = true
    end).
Proof.
  induction fuel as [| fuel IH]; intros total hasher left Hl Ht Hw Hlen Hfuel; [pose proof (zlen_nonneg left); lia |].
  cbn [hash_loop]. apply wp_io_bind. split; [done |]. intros [d | err] Hd; [| exact Hd].
  cbn [left_ok left_upd wp] in Hd |- *. destruct Hd as (Hn & Hd & Hend). pose proof (zlen_nonneg d) as Hd0.
  assert (zlen d + zlen (zdrop (zlen d) left) = zlen left ∧ left = d ++ zdrop (zlen d) left) as [Hsum Hleft].
  { split; [| rewrite Hd at 1; by rewrite ztake_zdrop].
    rewrite <- (ztake_zdrop (zlen d) left) at 2. by rewrite zlen_app, <- Hd. }
  rewrite u64_add_small by (unfold in_u64; pose proof (zlen_nonneg (zdrop (zlen d) left)); lia).
  destruct (Z.eqb_spec (zlen d) 0) as [H0 |].
  { apply zlen_0_nil in H0. rewrite (Hend H0). cbn. destruct (_ =? 0); [by rewrite app_nil_r |].
    unfold ztake. by rewrite take_nil, app_nil_r. }
  assert (∀ take, counted_bytes length (zlen d) (total + zlen d) = take → 0 <= take <= zlen d ∧
    take = if length =? 0 then zlen d else Z.min (zlen d) (length - total)) as Htake.
  { intros take <-. unfold counted_bytes, saturating_sub. destruct (Z.eqb_spec length 0) as [H00 |]; [rewrite H00; cbn; lia |].
    destruct (Z.ltb_spec 0 length), (Z.ltb_spec length (total + zlen d)); lia. }
  specialize (Htake _ eq_refl). set (take := counted_bytes _ _ _) in *. destruct Htake as [Hr Htake].
  destruct (Z.ltb_spec BUFFER_SIZE take); [lia |].
  destruct (Z.eqb_spec length 0) as [Hlen0 | Hlen0]; cbn [negb andb].
  - rewrite ztake_ge by lia. eapply wp_mono; [apply IH; lia |]. intros [hashed | err] g; [| done]. cbv beta iota. destruct (Z.eqb_spec length 0); [| done]. intros ->.
    rewrite <- app_assoc. by rewrite <- Hleft.
  - destruct (Z.leb_spec length (total + zlen d)).
    + cbn. rewrite Htake, Z.min_r by lia. rewrite Hleft, ztake_app_l by lia. done.
    + rewrite ztake_ge by lia. set (rest := zdrop (zlen d) left) in *. clearbody rest.
      eapply wp_mono; [apply IH; lia |]. intros [hashed | err] g; [| done].
      destruct (Z.eqb_spec length 0); [done |]. intros ->. rewrite <- app_assoc. f_equal. rewrite Hleft.
      unfold ztake, zlen in *. rewrite take_app, (take_ge d) by lia. f_equal. f_equal. lia.
Qed.
End checksums.

(** C9. A checksum is that of the part of the file it was asked for.  However
    many bytes the reads give, the digest that is answered is that of the first
    [length] bytes of what the file holds from where it was opened or sought to,
    of all for a length of zero; the loop ends, and it only fails if a read
    does. *)
Theorem checksums_cover_the_range (failing : bool) (fuel : nat) (digests : bytes → option (bytes → bytes)) (digest : bytes → bytes)
    (file length : Z) (algorithm content : bytes)
    (Hdigest : digests algorithm = Some digest) (Hlength : 0 <= length) (Hcontent : zlen content < 2 ^ 64)
    (Hfuel : zlen content < Z.of_nat fuel) :
  wp in_fuel (left_ok failing) left_upd (run_hash fuel digests file length algorithm) content (λ r _,
    match r with
    | Ok hash => hash = digest (hashed_part length content)
    | Err _ => failing = true
    end).
Proof.
  unfold run_hash. rewrite Hdigest. apply wp_io_bind. eapply wp_mono.
  - apply (hash_loop_wp failing fuel file length 0 [] content); lia.
  - intros [hashed | err] g; [| done]. cbn. intros ->. unfold hashed_part. by rewrite Z.sub_0_r.
Qed.

Lemma checksums_cover_the_range_witness :
  wp in_fuel (left_ok false) left_upd (run_hash 5 (λ _, Some (λ s, rev s)) 7 2 []) [1; 2; 3] (λ r _,
    match r with Ok hash => hash = [2; 1] | Err _ => false = true end).
Proof. by apply (checksums_cover_the_range false 5 (λ _, Some (λ s, rev s)) (λ s, rev s) 7 2 [] [1; 2; 3]). Defined.

(** ** Listings *)

Section listings.
(** What there is below the directory: what is at a path of a call, where a link
    leads, and which paths are hidden; the directory has a limit of entries and
    an amount that is sent at a time. *)
Context (fs : CapFilesystem) (rest : list Component.Component) (Hbase : components (base_path fs) = Component.RootDir :: rest).
Context (there target : bytes → option Metadata) (hidden : bytes → bool → bool) (limit amount : Z).
Context (path : bytes) (Hpath : ∃ names, Forall name_ok names ∧ path = join_slash names).

(** The entry of a name, if there is one that may be seen. *)
Definition visible_entry (e : DirEntry) : option File :=
  let p := path_join path (snd (read_entry e)) in
  match there (relative_path fs p) with
  | None => None
  | Some m =>
      if hidden p (md_is_dir m) then None
      else Some (convert_entry p m (if md_is_symlink m then target (relative_path fs p) else None))
  end.
Definition visible : list DirEntry → list File := omap visible_entry.

(** The ghost state: the entries the listing has not given yet. *)
Definition listing_ok (X : Type) (e : SftpE X) : X → list DirEntry → Prop :=
  match e in SftpE X return X → list DirEntry → Prop with
  | OnFiles e =>
      match e in QuotaE X return X → list DirEntry → Prop with
      | OnFs e =>
          match e in FsE X return X → list DirEntry → Prop with
          | ReadDirNext _ => λ x left, x = Ok <$> head left
          | DirSymlinkMetadata _ p => λ x _, result_ok x = there p
          | DirMetadata _ p => λ x _, result_ok x = target p
          | LoadInner _ => λ x _, is_Some x
          | SpawnBlocking => λ x _, x = None
          | _ => λ _ _, True
          end
      | _ => λ _ _, True
      end
  | IsLocked => λ x _, x = false
  | UserHasPermission _ => λ x _, x = true
  | ServerIgnores p is_dir => λ x _, x = hidden p is_dir
  | UserIgnores _ _ => λ x _, x = false
  | LoadConfig => λ x _, cfg_directory_entry_limit x = limit ∧ cfg_directory_entry_send_amount x = amount
  | _ => λ _ _, True
  end.
Definition listing_upd (X : Type) (e : SftpE X) : X → list DirEntry → list DirEntry :=
  match e in SftpE X return X → list DirEntry → list DirEntry with
  | OnFiles (OnFs (ReadDirNext _)) => λ _ left, tail left
  | _ => λ _ left, left
  end.
Definition no_fuel_out (X : Type) (e : SftpE X) (_ : list DirEntry) : Prop :=
  match e with OnFiles OutOfFuel => False | _ => True end.
Notation "'dwp'" := (wp no_fuel_out listing_ok listing_upd).

Local Abbreviation entry_ok := (λ e, name_ok (snd (read_entry e))).

Lemma joined_names name : name_ok name → ∃ names n, Forall name_ok (names ++ [n]) ∧ path_join path name = join_slash (names ++ [n]).
Proof.
  intros Hn. destruct Hpath as (names & Hnames & ->). exists names, name. split; [| by apply path_join_names].
  apply Forall_app. split; [done |]. by constructor.
Qed.

Lemma joined_components name : name_ok name → ∃ names n, components (path_join path name) = names ++ [Component.Normal n].
Proof.
  intros Hn. destruct (joined_names name Hn) as (names & n & Hok & ->). rewrite components_join_slash by done.
  exists (Component.Normal <$> names), n. by rewrite fmap_app.
Qed.

Lemma joined_not_root name : name_ok name → is_root (relative_path fs (path_join path name)) = false.
Proof.
  intros Hn. destruct (joined_names name Hn) as (names & n & Hok & ->).
  rewrite (relative_path_fixed fs rest) by done. unfold is_root. rewrite components_join_slash by done.
  apply bool_decide_eq_false. rewrite fmap_app. intros He. by destruct names.
Qed.

Lemma symlink_metadata_dwp name s left Φ : name_ok name →
  (∀ r, result_ok r = there (relative_path fs (path_join path name)) → Φ (Ok r, s) left) →
  dwp (fsys (symlink_metadata fs (path_join path name)) s) left Φ.
Proof.
  intros Hn HΦ. unfold fsys, files, symlink_metadata. rewrite joined_not_root by done. cbn. split; [done |].
  intros x [dir ->]. cbn. split; [done |]. intros r Hr. by apply HΦ.
Qed.

Lemma metadata_dwp name s left Φ : name_ok name →
  (∀ r, result_ok r = target (relative_path fs (path_join path name)) → Φ (Ok r, s) left) →
  dwp (fsys (metadata fs (path_join path name)) s) left Φ.
Proof.
  intros Hn HΦ. unfold fsys, files, metadata. rewrite joined_not_root by done. cbn. split; [done |].
  intros x [dir ->]. cbn. split; [done |]. intros r Hr. by apply HΦ.
Qed.

Lemma is_ignored_dwp name is_dir s left Φ : name_ok name →
  Φ (Ok (hidden (path_join path name) is_dir), s) left → dwp (is_ignored (path_join path name) is_dir s) left Φ.
Proof.
  intros Hn HΦ. unfold is_ignored. destruct (joined_components name Hn) as (names & n & Hc).
  assert (∀ p, (components p = [] ∨ components p = [Component.RootDir] ∨ components p = [Component.CurDir]) →
    same_path (path_join path name) p = false) as Hne.
  { intros p Hp. unfold same_path. apply bool_decide_eq_false. rewrite Hc.
    destruct Hp as [-> | [-> | ->]]; intros He; [by destruct names | |]; apply (app_inj_tail _ []) in He as [_ He]; done. }
  rewrite !Hne by (vm_compute; auto). cbn. split; [done |]. intros x ->. destruct (hidden _ _); [exact HΦ |].
  cbn. split; [done |]. intros x ->. exact HΦ.
Qed.

Lemma readdir_loop_wp fuel : ∀ dir left found consumed s,
  Forall entry_ok left → Z.of_nat (length left) < Z.of_nat fuel → 0 <= consumed < limit → limit < 2 ^ 64 →
  dwp (readdir_loop fs fuel path dir found consumed s) left (λ r left',
    snd r = s ∧ ∃ batch n, left' = drop n left ∧ visible left = batch ++ visible left' ∧
      consumed + zlen batch <= limit ∧ (batch = [] → visible left' = []) ∧
      fst r = Ok (if bool_decide (found ++ batch = []) then Err StatusCode.Eof else Ok (found ++ batch), consumed + zlen batch)).
Proof.
  induction fuel as [| fuel IH]; intros dir left found consumed s Hok Hfuel Hc Hlimit; [lia |].
  cbn [readdir_loop]. apply wp_bind.
  eapply (wp_mono _ _ _ _ _ (λ r left', r = (Ok (Ok (read_answer (Ok <$> head left), dir)), s) ∧ left' = tail left)).
  { unfold fsys, files. destruct dir; cbn; (split; [done |]); by intros x ->. }
  intros r left' [-> ->]. destruct left as [| e left]; cbn [head fmap option_fmap option_map read_answer tail].
  { split; [done |]. exists [], 0%nat. cbn. rewrite app_nil_r, Z.add_0_r. repeat split; lia || done. }
  apply Forall_cons_1 in Hok as [Hname Hok]. cbn [length] in Hfuel.
  destruct (read_entry e) as [ft name] eqn:He. cbn [snd] in Hname.
  assert (visible (e :: left) = option_list (visible_entry e) ++ visible left) as Hvis.
  { unfold visible. cbn. by destruct (visible_entry e). }
  assert (∀ found, visible_entry e = None → dwp (readdir_loop fs fuel path dir found consumed s) left (λ r left',
    snd r = s ∧ ∃ batch n, left' = drop n (e :: left) ∧ visible (e :: left) = batch ++ visible left' ∧
      consumed + zlen batch <= limit ∧ (batch = [] → visible left' = []) ∧
      fst r = Ok (if bool_decide (found ++ batch = []) then Err StatusCode.Eof else Ok (found ++ batch), consumed + zlen batch))) as Hskip.
  { intros found' Hnone. eapply wp_mono; [apply IH; done || lia |]. intros r left' (Hs & batch & n & -> & Hv & Hrest).
    split; [done |]. exists batch, (S n). by rewrite Hvis, Hnone. }
  cbn [wp]. apply wp_bind, symlink_metadata_dwp; [done |]. intros [m | err] Hm; cbn [result_ok] in Hm.
  2: { apply Hskip. unfold visible_entry. rewrite He. cbn [snd]. cbv zeta. by rewrite <- Hm. }
  apply wp_bind, is_ignored_dwp; [done |]. destruct (hidden (path_join path name) (md_is_dir m)) eqn:Hhid.
  { apply Hskip. unfold visible_entry. rewrite He. cbn [snd]. cbv zeta. by rewrite <- Hm, Hhid. }
  set (tm := if md_is_symlink m then target (relative_path fs (path_join path name)) else None).
  assert (visible_entry e = Some (convert_entry (path_join path name) m tm)) as Hentry.
  { unfold visible_entry. rewrite He. cbn [snd]. cbv zeta. by rewrite <- Hm, Hhid. }
  apply wp_bind. eapply (wp_mono _ _ _ _ _ (λ r left', r = (Ok tm, s) ∧ left' = left)).
  { unfold tm. destruct (md_is_symlink m); [| done]. apply wp_bind, metadata_dwp; [done |]. by intros r <-. }
  intros r left' [-> ->]. cbv zeta. set (entry := convert_entry _ _ _) in *.
  rewrite u64_add_small by (unfold in_u64; lia). apply wp_bind. split; [done |]. intros config [Hcl Hca]. cbn [wp listing_upd]. rewrite Hcl. clear Hcl Hca.
  assert (∀ batch n, visible left = batch ++ visible (drop n left) → consumed + 1 + zlen batch <= limit →
    visible (e :: left) = (entry :: batch) ++ visible (drop (S n) (e :: left)) ∧ consumed + zlen (entry :: batch) <= limit) as Hgrow.
  { intros batch n Hv Hl. rewrite Hvis, Hentry, zlen_cons, Hv. split; [done | lia]. }
  assert (∀ b : bool, (b = true → limit <= consumed + 1 ∨ True) → ∃ batch n,
    left = drop n (e :: left) ∧ visible (e :: left) = batch ++ visible left ∧ consumed + zlen batch <= limit ∧
    (batch = [] → visible left = []) ∧
    (Ok (Ok (found ++ [entry]), consumed + 1) : result Code (result Code (list File) * Z)) =
      Ok (if bool_decide (found ++ batch = []) then Err StatusCode.Eof else Ok (found ++ batch), consumed + zlen batch)) as Hstop.
  { intros _ _. exists [entry], 1%nat. split; [done |]. split; [by rewrite Hvis, Hentry |].
    split; [rewrite zlen_cons, zlen_nil; lia |]. split; [done |].
    rewrite bool_decide_eq_false_2 by (intros Hf; by destruct found). done. }
  destruct (Z.leb_spec limit (consumed + 1)); [split; [done |]; by apply (Hstop true); left |].
  apply wp_bind. split; [done |]. intros config' [Hcl Hca]. cbn [wp listing_upd]. clear Hcl Hca.
  destruct (_ <=? _); [split; [done |]; by apply (Hstop true); right |].
  eapply wp_mono; [apply IH; done || lia |]. intros r left' (Hs & batch & n & -> & Hv & Hl & Hlast & Hr).
  split; [done |]. destruct (Hgrow batch n Hv Hl) as [Hv' Hl']. exists (entry :: batch), (S n). do 4 (split; [done |]).
  rewrite Hr, zlen_cons, <- app_assoc. cbn [app]. do 2 f_equal. lia.
Qed.

Lemma readdir_wp fuel handle dir left consumed s :
  handles s !! handle = Some (ServerHandle.Dir (mk_DirHandle path dir consumed)) →
  Forall entry_ok left → Z.of_nat (length left) < Z.of_nat fuel → 0 <= consumed → limit < 2 ^ 64 →
  dwp (readdir fs fuel handle s) left (λ r left', ∃ batch n, left' = drop n left ∧ visible left = batch ++ visible left' ∧
    consumed + zlen batch <= Z.max consumed limit ∧
    handles (snd r) !! handle = Some (ServerHandle.Dir (mk_DirHandle path dir (consumed + zlen batch))) ∧
    match fst r with
    | Ok found => found = batch ∧ batch ≠ []
    | Err _ => batch = [] ∧ (visible left' = [] ∨ limit <= consumed)
    end).
Proof.
  intros Hl Hok Hfuel Hc Hlimit. unfold readdir.
  apply wp_bind, wp_bind, wp_bind. split; [done |]. intros locked ->. cbn [wp]. split; [done |]. intros allowed ->. cbn [wp ensure mret H_ret].
  apply wp_bind, wp_bind. cbn [hget wp]. rewrite Hl. cbn [mret H_ret wp].
  apply wp_bind. split; [done |]. intros config [Hcl _]. cbn [wp listing_upd dh_consumed]. rewrite Hcl. clear Hcl.
  destruct (Z.leb_spec limit consumed).
  { exists [], 0%nat. cbn [fst snd hthrow]. rewrite zlen_nil, Z.add_0_r. do 2 (split; [done |]). split; [lia |]. split; [exact Hl |]. split; [done |]. by right. }
  cbn [dh_path dh_dir]. apply wp_bind, wp_bind. split; [done |]. intros failed ->. cbn [wp listing_upd].
  apply wp_bind. eapply wp_mono; [apply readdir_loop_wp; done || lia |].
  intros [r s'] left' (Hs & batch & n & -> & Hv & Hb & Hlast & Hr). cbn [fst snd] in *. subst r s'. cbn [app wp mret H_ret].
  assert (∀ x, handles (set_handles (<[handle := x]> (handles s)) s) !! handle = Some x) as Hins.
  { intros x. apply (lookup_insert_eq (M := gmap bytes)). }
  destruct batch as [| f batch].
  - rewrite bool_decide_eq_true_2 by done. apply wp_bind. cbn [hmodify wp mret H_ret hthrow]. exists [], n. rewrite zlen_nil, Z.add_0_r in *.
    do 2 (split; [done |]). split; [lia |]. split; [apply Hins |]. split; [done |]. left. by apply Hlast.
  - rewrite bool_decide_eq_false_2 by done. apply wp_bind. cbn [hmodify wp mret H_ret]. exists (f :: batch), n.
    do 2 (split; [done |]). split; [lia |]. split; [apply Hins | done].
Qed.

(** A client asks until it is told that there is nothing more. *)
Fixpoint list_directory (requests fuel : nat) (handle : bytes) (found : list File) (s : SftpSession) : prog SftpE (list File) :=
  match requests with
  | O => Done found
  | S requests =>
      prog_bind _ _ (λ r : result Code (list File) * SftpSession,
        match r with
        | (Ok more, s) => list_directory requests fuel handle (found ++ more) s
        | (Err _, _) => Done found
        end) (readdir fs fuel handle s)
  end.
End listings.

(** C8. A client that reads a directory to its end is told its entries.  The
    entries of a listing that can be read are all given, each once, in their
    order, with what is at their paths, but for those that are gone and those
    that are hidden from the user, and no more of them than the limit; whatever
    amount is sent at a time, no answer but the last is empty, and the client
    comes to the end. *)
Theorem readdir_lists_the_directory (fs : CapFilesystem) (rest : list Component.Component)
    (there target : bytes → option Metadata) (hidden : bytes → bool → bool) (limit amount : Z) (names : list bytes)
    (dir : ReadDir.ReadDir) (handle : bytes) (s : SftpSession) (entries : list DirEntry) (requests fuel : nat)
    (Hbase : components (base_path fs) = Component.RootDir :: rest) (Hnames : Forall name_ok names)
    (Hentries : Forall (λ e, name_ok (snd (read_entry e))) entries) (Hlimit : 0 <= limit < 2 ^ 64)
    (Hopen : handles s !! handle = Some (ServerHandle.Dir (mk_DirHandle (join_slash names) dir 0)))
    (Hfuel : (length entries < fuel)%nat) (Hrequests : (length entries < requests)%nat) :
  wp no_fuel_out (listing_ok there target hidden limit amount) listing_upd
    (list_directory fs requests fuel handle [] s) entries (λ found _,
      found = ztake limit (visible fs there target hidden (join_slash names) entries)).
Proof.
  assert (∃ names', Forall name_ok names' ∧ join_slash names = join_slash names') as Hpath by by exists names.
  set (vis := visible fs there target hidden (join_slash names)).
  assert (∀ requests left found consumed s, consumed = zlen found → consumed <= limit →
    found ++ vis left = vis entries → Forall (λ e, name_ok (snd (read_entry e))) left →
    (length left < fuel)%nat → (length (vis left) < requests)%nat →
    handles s !! handle = Some (ServerHandle.Dir (mk_DirHandle (join_slash names) dir consumed)) →
    wp no_fuel_out (listing_ok there target hidden limit amount) listing_upd
      (list_directory fs requests fuel handle found s) left (λ found _, found = ztake limit (vis entries))) as Hall.
  { clear s Hopen Hrequests requests. induction requests as [| requests IH];
      intros left found consumed s Hc Hl Hv Hok Hf Hr Hopen; [lia |]. cbn [list_directory].
    pose proof (zlen_nonneg found). apply wp_bind. eapply wp_mono; [eapply readdir_wp; done || lia |].
    intros [[more | code] s'] left' (batch & n & -> & Hvl & Hb & Hopen' & Hans); cbn [fst snd] in *; fold vis in Hvl, Hans.
    - destruct Hans as [-> Hne]. eapply (IH _ _ (consumed + zlen batch)).
      + by rewrite zlen_app, Hc.
      + lia.
      + by rewrite <- Hv, Hvl, app_assoc.
      + by apply Forall_drop.
      + rewrite length_drop. lia.
      + rewrite Hvl, length_app in Hr. destruct batch; [done |]. cbn in Hr. lia.
      + done.
    - destruct Hans as [-> [Hend | Hlim]]; cbn [app] in Hvl; cbn [wp].
      + rewrite Hvl, Hend, app_nil_r in Hv. rewrite <- Hv. symmetry. apply ztake_ge. lia.
      + rewrite <- Hv. assert (limit = zlen found) as -> by lia. by rewrite ztake_app. }
  apply (Hall _ _ [] 0); try done; [lia |].
  eapply Nat.le_lt_trans; [| exact Hrequests]. unfold vis, visible.
  clear. induction entries as [| e entries IH]; cbn; [lia |]. destruct (visible_entry _ _ _ _ _ _); cbn; lia.
Qed.

Definition sample_file : Metadata := mk_Metadata (mk_RawFileType true false false) 5 33188 8 1 1 None None.
Definition sample_listing : SftpSession := mk_SftpSession 1 {[ [48] := ServerHandle.Dir (mk_DirHandle [100] (ReadDir.Cap 4) 0) ]}.
Definition sample_entries : list DirEntry :=
  [mk_DirEntry (Ok (mk_RawFileType true false false)) [120]; mk_DirEntry (Ok (mk_RawFileType true false false)) [121]].
Definition hides_y (p : bytes) (_ : bool) : bool := bool_decide (p = [100; 47; 121]).
Lemma readdir_lists_the_directory_witness :
  visible sample_fs (λ _, Some sample_file) (λ _, None) hides_y (join_slash [[100]]) sample_entries =
    [convert_entry [100; 47; 120] sample_file None] ∧
  wp no_fuel_out (listing_ok (λ _, Some sample_file) (λ _, None) hides_y 10 1) listing_upd
    (list_directory sample_fs 3 3 [48] [] sample_listing) sample_entries
    (λ found _, found = ztake 10 (visible sample_fs (λ _, Some sample_file) (λ _, None) hides_y (join_slash [[100]]) sample_entries)).
Proof.
  split; [vm_compute; reflexivity |].
  apply (readdir_lists_the_directory sample_fs [Component.Normal [115; 114; 118]] (λ _, Some sample_file) (λ _, None)
    hides_y 10 1 [[100]] (ReadDir.Cap 4) [48] sample_listing sample_entries 3 3).
  - vm_compute. reflexivity.
  - constructor; [| constructor]. unfold name_ok. repeat split; try discriminate. vm_compute. set_solver.
  - repeat constructor; unfold name_ok; cbn; repeat split; try discriminate; set_solver.
  - lia.
  - vm_compute. reflexivity.
  - cbn. lia.
  - cbn. lia.
Defined.

(** ** What departs from that *)

(** A machine on which every file is there and answers; it records the options
    files are opened with, and keeps the counters. *)
Record World : Type := mk_World { wd_counters : Counters; wd_opened : list Z; wd_guards : bool; wd_link : bytes }.
Definition set_counters (c : Counters) (w : World) : World := mk_World c (wd_opened w) (wd_guards w) (wd_link w).
Definition world_fs (X : Type) (e : FsE X) (w : World) : X * World :=
  match e in FsE X return X * World with
  | LoadInner _ => (Some 7, w)
  | StoreInner _ _ => (tt, w)
  | ReadDirNext _ => (None, w)
  | SpawnBlocking => (None, w)
  | Now => (0, w)
  | DirCanonicalize _ p => (Ok p, w)
  | DirSymlinkMetadata _ _ => (Ok sample_file, w)
  | DirReadLink _ _ => (Ok (wd_link w), w)
  | DirOpenWith _ _ options => (Ok 3, mk_World (wd_counters w) (wd_opened w ++ [options]) (wd_guards w) (wd_link w))
  | _ => (Err UnexpectedEof, w)
  end.
Definition world_files (X : Type) (e : QuotaE X) (w : World) : X * World :=
  match e in QuotaE X return X * World with
  | OnFs e => world_fs _ e w
  | UpdateAtomics δ ignorant =>
      let '(granted, c) := try_update_atomics δ ignorant (wd_counters w) in (granted, set_counters c w)
  | UpdateSize _ _ | UpdateSizeIterator _ _ | Quota.AddDirectory _ _ | AddProgress _ | MimeInsert _ _ _ _ | OutOfFuel => (tt, w)
  | RemoveUsage _ | GetUsage _ | MimeGet _ _ _ => (None, w)
  | FilePollWrite _ _ | FilePollComplete _ => (None, w)
  | FilePollFlush _ | FilePollShutdown _ => (None, w)
  | FilePollRead _ _ => (None, w)
  | IsAborted | PollUsageLock => (false, w)
  | CopyFileRange _ _ _ => (Ok 0, w)
  | _ => (Err UnexpectedEof, w)
  end.
(** The kernel refuses offsets that are negative as [off_t]. *)
Definition world (X : Type) (e : SftpE X) (w : World) : X * World :=
  match e in SftpE X return X * World with
  | OnFiles e => world_files _ e w
  | ReadAt _ _ _ => (Ok [], w)
  | WriteAllAt _ offset data => (if offset <? 2 ^ 63 then Ok tt else Err (InvalidInput "Invalid argument"), w)
  | IsLocked => (false, w)
  | UserHasPermission _ => (true, w)
  | ServerIgnores _ _ | UserIgnores _ _ => (false, w)
  | LoadConfig => (mk_SftpConfig false 8 100 10 false false 0 [], w)
  | OpenGuard => (wd_guards w, w)
  | DropGuard | LogActivity _ _ => (tt, w)
  | RecordEdit _ _ _ | ForgetFile _ _ => (Ok tt, w)
  | RenameFile _ _ => (Ok None, w)
  | DiskLimit | LimiterUsage => (0, w)
  | Disks => ([], w)
  end.
Definition world_start (guards : bool) : World :=
  mk_World (mk_Counters (10 ^ 9) 100 100 0 DiskUsage_default) [] guards [100; 47; 120].

(** A write that ends at or beyond [2 ^ 63] is charged a negative amount and
    refused by the kernel; giving the charge back then leaves the counters near
    [2 ^ 63], and every later write is refused. *)
Theorem far_write_fills_quota :
  let start := world_start true in
  let '((answer, _), after) := run world (sftp_write [48] (2 ^ 63) [1] sample_session) start in
  fst (fst (run world (sftp_write [48] 0 [1] sample_session) start)) = Ok tt ∧
  answer = Err StatusCode.Failure ∧ cached_physical (wd_counters after) = 2 ^ 63 - 1 ∧
  fst (fst (run world (sftp_write [48] 0 [1] sample_session) after)) = Err StatusCode.Failure.
Proof. vm_compute. repeat split. Qed.

(** The limiter is asked when a file has been opened: an open that it refuses
    has emptied the file, and the space was given back. *)
Theorem refused_open_truncates :
  let '((answer, s), after) :=
    run world (sftp_open sample_fs sample_user [47; 97] (mk_OpenFlags false true false false true false) (mk_SftpSession 0 ∅))
      (world_start false) in
  answer = Err StatusCode.Failure ∧ handles s = ∅ ∧ wd_opened after = [Z.lor OPT_WRITE OPT_TRUNCATE] ∧
  cached_logical (wd_counters after) = 95.
Proof. vm_compute. repeat split. Qed.

(** The answer to where a link leads is the last name of its target alone. *)
Theorem readlink_answers_a_name :
  wd_link (world_start true) = [100; 47; 120] ∧
  fst (fst (run world (readlink sample_fs [47; 108] (mk_SftpSession 0 ∅)) (world_start true))) =
    Ok [convert_entry [100; 47; 120] sample_file None] ∧
  fi_filename (convert_entry [100; 47; 120] sample_file None) = [120].
Proof. vm_compute. repeat split. Qed.

(** The list of disks is never filled: a server without a limit cannot be asked
    how much space there is. *)
Theorem unlimited_space_is_unknown (ser : Reply.Reply → option bytes) (s : SftpSession) :
  fst (fst (run world (space_available sample_fs ser s) (world_start true))) = Err StatusCode.Failure.
Proof. vm_compute. reflexivity. Qed.

